(* ===== verification/_CoqProject ===== *)
-Q . S2P
Prelude.v
Access.v
DependencyFrontier.v
BTreeMap.v
BufferView.v
Dependencies.v
Contract.v
Completion.v
Buffer.v
Trace.v
Statistics.v
Tensor.v
BufferPool.v
HostVisibility.v
NativeMemory.v
VirtualMemory.v
NativeBatch.v
NativeBatchTheorems.v
Pm4.v
Sdma.v
Profile.v
NativeQueue.v
NativeQueueTheorems.v
Aql.v
AqlTheorems.v
NativeSession.v
SafeTensors.v
Onnx.v
OnnxTheorems.v
Hub.v
Resident.v
Source.v
Xdna.v
GpuStorage.v
KernelCache.v
Sanitizer.v
Storage.v
StorageTheorems.v
RawGraph.v
Stream.v
StreamMemory.v
StreamOverlap.v
StreamInvariant.v
StreamCalls.v
StreamOperations.v
StreamTheorems.v
StreamBounds.v
Target.v
Bundle.v
ScratchPlan.v
BenchmarkStatistics.v
ModelSession.v
ModelSessionRecording.v
ModelSessionTheorems.v
Jobs.v
PlanCache.v
Residency.v
ResidencyTheorems.v
Scheduler.v
SchedulerSteps.v
GraphBuild.v
ModelContext.v
ModelDefinition.v
ModelDefinitionTheorems.v
Inference.v
InferenceTheorems.v
Dispatch.v
AccessGraph.v
SchedulerHeap.v
SchedulerSafety.v
SchedulerTheorems.v
SchedulerLiveness.v
SchedulerProgress.v
SchedulerHost.v
SchedulerTests.v
