(* ===== verification/Prelude.v ===== *)
(** * A verification development for the HRX runtime

    HRX (src/README.md, src/docs/EXECUTION.md) drives GPUs and NPUs from Rust.
    A program records byte-range accesses, prepares graphs of native regions,
    submits them to a scheduler with one lane per native queue, and observes
    completions, while host code maps the same allocations.  Below this core
    are the queues that encode commands and lease what they use, and streams
    that stage, cache and order transfers; above it are model sessions and
    definitions, inference engines and storage sessions; beside it residency
    and plan caches, pools, tensor descriptors, artifact readers and the
    provisioning of runtime bundles.  This library models the Rust code of
    these parts, function by function, and proves what makes it correct.

    ** The parts and where they are modelled

    Each file cites the source file it translates; definitions keep the names
    of the functions they model.

    - Prelude (this file): 64-bit integers as [Z] with the checked, saturating
      and wrapping operations of Rust written out; [Error] and [Result] of
      src/src/lib.rs; automation and generic lemmas.  BTreeMap: an ordered map
      as a sorted association list.  Access: [Range], [Access] and
      [checked_span].
    - DependencyFrontier (src/src/dependency_frontier.rs): interval frontiers
      per allocation; splitting, gap filling and the sweep of one use.
    - BufferView, Dependencies, Contract (src/src/execution/buffer.rs,
      dependencies.rs, contract.rs): views and slices, summaries of uses and
      the conflict sweep over two summaries, kernel contracts.
    - Buffer (src/src/execution/buffer.rs, handoff.rs): host leases, handoffs,
      poisoning and the visibility of an allocation to each engine.
      Completion, Trace, Statistics: the signals, the trace ring and the
      counters of the same directory.
    - Scheduler (src/src/execution/scheduler.rs and the submission and run code
      of graph.rs): [Scheduler], [next_action], [enqueue], [remove], the stages
      of [perform], native leases, [submit_after].  Prepared graphs are objects
      of a heap, since graphs, slots and signals are shared between the clients
      and the workers.  SchedulerSteps composes the operations into a step
      relation on a [World], one step per critical section of the code;
      SchedulerHeap, SchedulerSafety, SchedulerTheorems, SchedulerLiveness,
      SchedulerProgress and SchedulerHost prove its properties, and
      SchedulerTests replays the cases of src/src/execution/scheduler/tests.rs.
    - NativeSession (src/src/execution/native_session.rs): stages under a
      native lease, their checkpoints, final fence and quarantine.
    - GraphBuild (src/src/execution/graph.rs): the graph builder, region
      formation and [prepare], whose results satisfy what Scheduler assumes.
    - RawGraph, AccessGraph (src/src/runtime.rs, src/src/access_graph.rs):
      recorded command graphs and their barriers; access-tracked recording.
    - Dispatch (src/src/runtime.rs, src/src/fabric/executable.rs): constants,
      launch checks and kernel arguments.
    - NativeMemory, VirtualMemory, HostVisibility (src/src/fabric/memory.rs,
      virtual_memory.rs, visibility.rs): native buffers, imports and cache
      control; reserved address ranges with their mappings; the transitions
      between host and device visibility.
    - NativeBatch, Pm4, Sdma, NativeQueue (src/src/fabric/queue.rs,
      queue/sdma.rs, queue/serial.rs) and Aql (src/src/fabric/aql.rs): argument
      storage and recycled batches, the packet encoders, the submission rings
      with their leases and retirement.  Profile (src/src/fabric/profile.rs):
      timestamp packets and their decoding.
    - Xdna, Resident, GpuStorage, Sanitizer (src/src/fabric/xdna.rs,
      resident.rs, storage.rs, sanitizer.rs): programs of the NPU with composed
      transactions; programs of both engines that wait for one decision; rings
      of file requests driven by the GPU; the shadow of the address sanitizer
      and the channel of its reports.
    - Stream (src/src/runtime.rs): one stream on a device shared with others,
      with its pools, caches, staging, timeline of published work, budget
      reservations, readbacks, events, and graphs recorded with the edges and
      barriers of RawGraph and replayed in batches.  StreamMemory has the
      algebra of memories, StreamOverlap that of commands that overlap inside a
      batch, StreamInvariant the invariant, StreamCalls and StreamOperations the
      effect of each call, StreamTheorems and StreamBounds what follows.
    - BenchmarkStatistics, ModelSession, ScratchPlan (src/src/loom/model.rs,
      src/src/benchmark_statistics.rs): a session as a client of its stream that
      records through an access graph, the planner of reusable scratch,
      percentiles.  ModelSessionRecording follows a recording from the declared
      accesses to the barriers of the finished graph.  ModelDefinition
      (src/src/loom/model/definition.rs): sessions frozen into definitions,
      fragments and their recording into a graph of GraphBuild.
    - Source (src/src/loom/source.rs, [sources] of src/src/loom.rs, the include
      callbacks of src/src/loom/native.rs): translation units and their virtual
      paths.  KernelCache (src/src/loom.rs): the cache of loaded kernels with
      its batches and pending requests.
    - ModelContext, Inference (src/src/inference.rs): uploads, copies and
      downloads of tensors, and the pool of prepared slots.
    - Storage (src/src/storage/mod.rs): sessions of queued file requests, their
      worker, tickets and leases.
    - Residency (src/src/residency.rs); PlanCache (src/src/plan_cache.rs);
      BufferPool (src/src/buffer_pool.rs); Jobs (src/src/jobs.rs); Tensor
      (src/src/tensor.rs); SafeTensors (src/src/artifacts/safetensors.rs and
      mapped_pages.rs); Onnx (src/src/artifacts/onnx.rs) and Hub
      (src/src/artifacts/hf.rs); Target (src/src/target.rs, with the fallible state monad
      of the last files); Bundle (src/src/bundle.rs): installation, provisioning
      and collection over a directory shared with other processes.

    A file [XTheorems] proves properties of the definitions in [X].

    ** What the theorems show

    - Ordering.  The interval frontier refines a byte-indexed one, and its
      edges order exactly the hazards of a recorded sequence.  [prepare] keeps
      the order of every hazard and establishes the scheduler's assumptions; a
      recorded graph's barriers separate every command from what it follows;
      an access graph whose calls succeed is race free.
    - Scheduling, in every state reachable by any interleaving of submissions,
      workers, helping callers, native stages, cancellation and host access:
      regions in flight never clash, lanes are exclusive, blocker counts are
      exact, admission is bounded, native stages are served in order, host
      guards and device work exclude each other, and a failure poisons its
      allocations for good.  The scheduler never deadlocks, and without native
      stages every accepted submission is published within a bound ([work])
      computed from the state.  Native sessions hand over fenced.
    - Queues.  Rings refine a queue of submissions; what an unfinished
      submission uses stays leased; retained arguments are stable; encoded
      submissions decode to what was submitted.  The bindings of an NPU program
      stay leased while it runs, and a wrapped transaction is its prefix, the
      original and its suffix; resident sessions and GPU storage executions give
      back what they own only once it is retired and drained, and a ring is
      restricted before it is enabled.
    - Streams and sessions.  In every state a program can reach, with the
      device executing at its own pace, the calls of a stream have their
      sequential meaning on a plain memory (a launched graph as what the device
      makes of its batches, and as its recorded commands if no phase between two
      barriers has a race, as when the recorded edges order all conflicts),
      readbacks return what their source held, unfinished work stays charged,
      except the zero fills whose wait failed, and the caches are bounded.  A model session whose dispatches change only bytes they
      declare to be written, the safety contract of [record], refines the same
      plain memory on its regions, failed calls included: the dependencies
      inferred from the declared accesses leave no race inside a phase, so
      replaying a recorded graph equals executing its commands.
    - Definitions and inference.  A recorded fragment never writes a weight and,
      if its fills are not empty, never panics; scratch plans never overlap;
      slots are exclusive, and handed out drained of everything but work that a
      failed or cancelled submission no longer waited for; pending clients are
      woken.
    - Storage.  Completed requests hold their bytes, retained requests never
      conflict, and every accepted request is answered.
    - Provisioning.  In a prepared or installed bundle every declared file but
      manifest.json has its declared digest, failed installations publish
      nothing, and a sweep removes exactly what is superseded or unused, with
      failing system calls and other processes at work.
    - Sharing.  Summaries are exact and the sweep over them decides conflicts;
      leases count guards; an engine marked visible holds the newest contents;
      every polled waker is woken once.
    - Resources.  The residency ceiling accounts for exactly the live charges,
      eviction spares what is held, loads are single flight and reserving
      terminates when other threads and the destructors of evicted values add
      finitely many entries; the plan cache, the buffer pool and the job pool are bounded.
    - Data.  Kernel arguments arrive at their declared offsets; contracts
      accept exactly the bindings they describe; tensor layouts do not overlap;
      indexed tensors, page advice, populated chunks and coalesced ranges stay
      in bounds and lose no byte; percentiles are nearest rank.  Broadcasting
      reads the element that the output's coordinates select, embedded tensors
      decode to what was encoded, the indexes of a model describe its graph, and
      resolved model files are verified and, when offline, never downloaded.
      Virtual paths are canonical and the paths of a unit distinct; a kernel is
      loaded once and later requests see it; the sanitizer's shadow admits
      exactly the allocated bytes, and decoded reports tile their channel.

    Seven theorems record defects: a recording call of the access graph that
    fails leaves its uses in the frontier, and the next call then misses a
    dependency (AccessGraph); a blocking acquire of an inference slot can miss
    its wakeup, and after a cancellation a slot is handed out while its upload
    may still run (InferenceTheorems); a zeroed allocation whose fill is not waited
    for releases its charge too early (StreamTheorems); a manifest that declares
    manifest.json installs a bundle that does not verify (Bundle); a fragment
    with an empty fill can panic (ModelDefinitionTheorems); an empty dimension
    broadcast against extent one is lost (OnnxTheorems).

    ** How the code is modelled

    A pure function is a function.  A function that may fail returns [Result];
    one that may panic, or whose loop needs fuel, returns an [option], and the
    theorems prove that it is [Some].  State is passed explicitly, in the files
    on streams, bundles and sessions by a small monad with a weakest
    precondition.  Code under one lock is one function of the locked state;
    threads and devices are steps of an inductive relation, so that a theorem
    about reachable states is about every interleaving.  Reference counts
    ([Arc::strong_count]) are computed from the owners of the modelled state.
    Iteration over a [HashMap] takes the order as an argument.  Native calls,
    callbacks and clocks are arguments; their outcome is unrestricted unless a
    hypothesis says otherwise.  What the device makes of a replayed batch is an
    argument too: between two barriers, commands that do not race in any order,
    and anything to the bytes they use if some race ([admissible] of Stream).

    Fuel: the sweep of one use has [sweep_fuel segments], one iteration per
    segment and per gap, shown to be enough on every well-formed frontier; a
    graph has at most as many regions as entries; [reserve] evicts an entry per
    iteration, so its fuel is one more than the number of entries there are and
    other threads may add.  Retirement
    walks at most as many completions as were submitted; transfers split into
    at most as many parts as they have bytes; AQL publication has the number of
    packets; the storage worker retries a request at most once per remaining
    byte; the staging and scratch loops of a stream remove a buffer per
    iteration.

    ** What is not modelled

    Not modelled: the calls of the Loom compiler and its reports, tensor and
    image kernels (launch wrappers of device code), device discovery and native
    observation (calls of the native bridge), and the command line tools; the
    bindings under src/src/fabric/ffi.rs, src/src/loom/ffi.rs and
    src/src/artifacts/onnx_proto.rs are generated (Onnx has the messages that
    are read).  Lock poisoning is recovered
    by the code ([into_inner]) and does not appear.  Memory ordering of atomics
    is sequential consistency.  Numbers and [Debug] renderings inside error
    texts are elided, and floating-point arithmetic is left out. *)

From Stdlib Require Export ZArith Lia.
From stdpp Require Export pretty sorting strings base tactics numbers option gmap sets list.

(** ** Machine integers

    The crate targets 64-bit Linux only (src/README.md), so [usize] and [u64]
    are 64-bit.  They are represented by [Z]; the operations below write out
    where the Rust operation is checked or saturates. *)

Definition usize_max : Z := 2 ^ 64 - 1.
Definition isize_max : Z := 2 ^ 63 - 1.
Definition u64_max : Z := 2 ^ 64 - 1.

Definition in_usize (n : Z) : Prop := (0 <= n <= usize_max)%Z.

Definition checked_add (a b : Z) : option Z :=
  if (a + b <=? usize_max)%Z then Some (a + b)%Z else None.
Definition checked_sub (a b : Z) : option Z :=
  if (b <=? a)%Z then Some (a - b)%Z else None.
Definition checked_mul (a b : Z) : option Z :=
  if (a * b <=? usize_max)%Z then Some (a * b)%Z else None.
Definition saturating_add (a b : Z) : Z := Z.min (a + b) usize_max.
Definition saturating_sub (a b : Z) : Z := Z.max (a - b) 0.
Definition saturating_mul (a b : Z) : Z := Z.min (a * b) usize_max.

(** [usize::is_power_of_two]. *)
Definition is_power_of_two (n : Z) : bool :=
  (0 <? n)%Z && (Z.land n (n - 1) =? 0)%Z.

(** ** Result and error values *)

(** [crate::Error].  Variants that wrap a foreign error value (I/O, JSON,
    dynamic loading, download) keep its rendered text; a compiler failure
    keeps its rendered diagnostics. *)
Inductive Error : Type :=
| Busy (why : string)
| Unsupported (why : string)
| DeviceLost (why : string)
| Backend (backend operation : string) (code : Z) (message : string)
| Execution (source : Error)
| Cancelled
| Message (text : string)
| Compile (message : string) (diagnostics : list string) (report : option string)
| Io (text : string)
| Json (text : string)
| Library (text : string)
| Download (text : string)
| Runtime (context : string) (code : Z) (message : string)
| Context (context : string) (source : Error).

(** [Error::context]. *)
Definition error_context (e : Error) (context : string) : Error := Context context e.

(** [Error::compiler_diagnostics]: looks through context wrappers. *)
Fixpoint compiler_diagnostics (e : Error) : option (list string) :=
  match e with
  | Compile _ diagnostics _ => Some diagnostics
  | Context _ source => compiler_diagnostics source
  | Execution source => compiler_diagnostics source
  | _ => None
  end.

(** [Error::compiler_report]. *)
Fixpoint compiler_report (e : Error) : option string :=
  match e with
  | Compile _ _ report => report
  | Context _ source => compiler_report source
  | Execution source => compiler_report source
  | _ => None
  end.

(** [Error::to_string], from the [#[error(..)]] attributes. *)
Fixpoint error_to_string (e : Error) : string :=
  match e with
  | Busy why => "resource busy: " +:+ why
  | Unsupported why => "unsupported capability: " +:+ why
  | DeviceLost why => "device execution failed: " +:+ why
  | Backend backend operation code message =>
      backend +:+ " " +:+ operation +:+ " failed (" +:+ pretty code +:+ "): " +:+ message
  | Execution source => error_to_string source
  | Cancelled => "execution cancelled"
  | Message text => text
  | Compile message _ _ => "Loom compilation failed: " +:+ message
  | Io text | Json text | Library text | Download text => text
  | Runtime context _ message => context +:+ ": " +:+ message
  | Context context source => context +:+ ": " +:+ error_to_string source
  end.

Inductive Result (A : Type) : Type :=
| Ok (a : A)
| Err (e : Error).
Global Arguments Ok {A} _.
Global Arguments Err {A} _.

Definition result_bind {A B} (r : Result A) (k : A → Result B) : Result B :=
  match r with Ok a => k a | Err e => Err e end.
Definition result_map {A B} (f : A → B) (r : Result A) : Result B :=
  match r with Ok a => Ok (f a) | Err e => Err e end.
Definition ok_or {A} (o : option A) (e : Error) : Result A :=
  match o with Some a => Ok a | None => Err e end.
Definition is_ok {A} (r : Result A) : bool :=
  match r with Ok _ => true | Err _ => false end.

Declare Scope hrx_scope.
Delimit Scope hrx_scope with hrx.
Notation "'let?' x := r 'in' k" := (result_bind r (λ x, k))
  (at level 10, x pattern, r at level 100, k at level 200) : hrx_scope.
Global Open Scope hrx_scope.

Global Instance error_eq_dec : EqDecision Error.
Proof. solve_decision. Defined.
Global Instance result_eq_dec {A} `{EqDecision A} : EqDecision (Result A).
Proof. solve_decision. Defined.

(** ** Automation *)

Create HintDb hrx.

(** Turn boolean comparisons in the context and the goal into propositions. *)
Ltac to_prop :=
  repeat match goal with
  | H : (_ && _) = true |- _ => apply andb_true_iff in H; destruct H
  | H : (_ || _) = false |- _ => apply orb_false_iff in H; destruct H
  | H : (_ && _) = false |- _ => apply andb_false_iff in H
  | H : (_ || _) = true |- _ => apply orb_true_iff in H
  | H : negb _ = true |- _ => apply negb_true_iff in H
  | H : negb _ = false |- _ => apply negb_false_iff in H
  | H : (_ <? _)%Z = true |- _ => apply Z.ltb_lt in H
  | H : (_ <? _)%Z = false |- _ => apply Z.ltb_ge in H
  | H : (_ <=? _)%Z = true |- _ => apply Z.leb_le in H
  | H : (_ <=? _)%Z = false |- _ => apply Z.leb_gt in H
  | H : (_ =? _)%Z = true |- _ => apply Z.eqb_eq in H
  | H : (_ =? _)%Z = false |- _ => apply Z.eqb_neq in H
  | H : (_ <? _)%nat = true |- _ => apply Nat.ltb_lt in H
  | H : (_ <? _)%nat = false |- _ => apply Nat.ltb_ge in H
  | H : (_ <=? _)%nat = true |- _ => apply Nat.leb_le in H
  | H : (_ <=? _)%nat = false |- _ => apply Nat.leb_gt in H
  | H : (_ =? _)%nat = true |- _ => apply Nat.eqb_eq in H
  | H : (_ =? _)%nat = false |- _ => apply Nat.eqb_neq in H
  end.

(** Case analysis on a boolean comparison, leaving its meaning. *)
Ltac case_bool :=
  match goal with
  | |- context [if ?b then _ else _] =>
      let E := fresh "E" in destruct b eqn:E; to_prop
  | H : context [if ?b then _ else _] |- _ =>
      let E := fresh "E" in destruct b eqn:E; to_prop
  end.

(** Invert the [Ok] branch of a chain of fallible steps. *)
Ltac inv_ok :=
  repeat match goal with
  | H : Ok _ = Ok _ |- _ => injection H; clear H; intros; subst
  | H : Err _ = Ok _ |- _ => discriminate H
  | H : Ok _ = Err _ |- _ => discriminate H
  | H : result_bind ?r _ = Ok _ |- _ =>
      let E := fresh "E" in destruct r eqn:E; simpl in H; [|discriminate H]
  end.

Ltac destruct_unit := repeat match goal with x : unit |- _ => destruct x end.

(** ** Checked arithmetic *)

Lemma checked_add_Some a b n :
  checked_add a b = Some n ↔ n = (a + b)%Z ∧ (a + b <= usize_max)%Z.
Proof. unfold checked_add. case_bool; naive_solver lia. Qed.

Lemma checked_add_ok a b : (a + b <= usize_max)%Z → checked_add a b = Some (a + b)%Z.
Proof. intros H. by apply checked_add_Some. Qed.

Lemma checked_sub_Some a b n :
  checked_sub a b = Some n ↔ n = (a - b)%Z ∧ (b <= a)%Z.
Proof. unfold checked_sub. case_bool; naive_solver lia. Qed.

Lemma checked_mul_Some a b n :
  checked_mul a b = Some n ↔ n = (a * b)%Z ∧ (a * b <= usize_max)%Z.
Proof. unfold checked_mul. case_bool; naive_solver lia. Qed.

Lemma power_of_two_spec n : is_power_of_two n = true → ∃ k, (0 <= k)%Z ∧ n = (2 ^ k)%Z.
Proof.
  unfold is_power_of_two. intros H. to_prop. rename H into Hn, H0 into Hz.
  exists (Z.log2 n). split; [apply Z.log2_nonneg|].
  destruct (Z.log2_spec n Hn) as [Hlo Hhi]. destruct (Z.eq_dec n (2 ^ Z.log2 n)%Z) as [|Hne]; [done|exfalso].
  assert (Hb : Z.testbit (Z.land n (n - 1)%Z) (Z.log2 n) = true).
  { rewrite Z.land_spec, Z.bit_log2 by lia. simpl.
    assert (Z.log2 (n - 1)%Z = Z.log2 n) as <-.
    { apply Z.log2_unique; [apply Z.log2_nonneg|lia]. }
    apply Z.bit_log2. pose proof (Z.pow_pos_nonneg 2 (Z.log2 n) ltac:(lia) (Z.log2_nonneg n)). lia. }
  rewrite Hz, Z.bits_0 in Hb. done.
Qed.

(** ** Lists *)

(** Mapping a zip through a function of its left, respectively right, input. *)
Lemma fmap_zip_left {A B C D} (f : A → B → C) (g : C → D) (h : A → D) l k :
  (∀ x y, g (f x y) = h x) → length l ≤ length k → g <$> zip_with f l k = h <$> l.
Proof.
  intros Hg. revert k. induction l as [|x l IH]; intros [|y k] Hlen; simpl in *; try lia; [done..|].
  rewrite Hg, IH by lia. done.
Qed.

Lemma fmap_zip_right {A B C D} (f : A → B → C) (g : C → D) (h : B → D) l k :
  (∀ x y, g (f x y) = h y) → length k ≤ length l → g <$> zip_with f l k = h <$> k.
Proof.
  intros Hg. revert k. induction l as [|x l IH]; intros [|y k] Hlen; simpl in *; try lia; [done..|].
  rewrite Hg, IH by lia. done.
Qed.

(** [Vec::swap_remove]. *)
Definition swap_remove {A} (index : nat) (l : list A) : list A :=
  match last l with
  | Some x => take (length l - 1) (<[index := x]> l)
  | None => []
  end.

Lemma swap_remove_perm {A} (l : list A) i x : l !! i = Some x → l ≡ₚ x :: swap_remove i l.
Proof.
  intros Hi. unfold swap_remove. destruct (last l) as [y|] eqn:El.
  2: { by apply last_None in El as ->. }
  apply last_Some in El as [l' ->]. rewrite length_app. simpl.
  replace (length l' + 1 - 1)%nat with (length l') by lia.
  apply lookup_app_Some in Hi as [Hi|[Hle Hi]].
  - rewrite insert_app_l by (by eapply lookup_lt_Some).
    rewrite take_app_length' by (by rewrite length_insert).
    rewrite insert_take_drop by (by eapply lookup_lt_Some).
    rewrite <-(take_drop_middle _ _ _ Hi) at 1. rewrite <-app_assoc. simpl.
    rewrite <-!Permutation_middle. f_equiv. rewrite app_assoc. by rewrite Permutation_app_comm.
  - apply list_lookup_singleton_Some in Hi as [Hz <-].
    rewrite insert_app_r_alt by lia. rewrite take_app_length' by done.
    by rewrite Permutation_app_comm.
Qed.

Lemma existsb_perm {A} (f : A → bool) l k : l ≡ₚ k → existsb f l = existsb f k.
Proof.
  induction 1 as [|x l k _ IH|x y l|l k j _ IH1 _ IH2]; simpl; [done|by rewrite IH| |by rewrite IH1].
  rewrite !orb_assoc. f_equal. apply orb_comm.
Qed.

Lemma existsb_false_elem {A} (f : A → bool) l x : existsb f l = false → x ∈ l → f x = false.
Proof.
  intros Hf Hx. destruct (f x) eqn:E; [|done]. exfalso. revert Hf. apply not_false_iff_true.
  apply existsb_exists. exists x. by rewrite <-list_elem_of_In.
Qed.

(** The position of an element of a flattened list. *)
Definition bind_at {A B} (f : A → list B) (l : list A) (i r a : nat) : Prop :=
  ∃ y, l !! r = Some y ∧ a < length (f y) ∧ i = length (take r l ≫= f) + a.

Lemma bind_at_lookup {A B} (f : A → list B) (l : list A) i x :
  (l ≫= f) !! i = Some x →
  ∃ r a y, bind_at f l i r a ∧ l !! r = Some y ∧ f y !! a = Some x.
Proof.
  revert i. induction l as [|y l IH]; intros i; simpl; [done|].
  rewrite lookup_app_Some. intros [Hx|[Hle Hx]].
  - exists 0, i, y. split_and!; [|done|done]. exists y.
    split_and!; [done|by eapply lookup_lt_Some|done].
  - destruct (IH _ Hx) as (r & a & z & (z' & Hz & Ha & Hi) & Hr & Hf).
    exists (S r), a, z. split_and!; [|done|done]. exists z'. split_and!; [done|done|].
    cbn [take]. rewrite bind_cons, length_app. lia.
Qed.

Lemma length_bind_take_mono {A B} (f : A → list B) (l : list A) r s y :
  l !! r = Some y → r < s → length (take r l ≫= f) + length (f y) ≤ length (take s l ≫= f).
Proof.
  revert r s. induction l as [|z l IH]; intros [|r] [|s] Hl Hlt; simpl in Hl; try done; try lia;
    cbn [take]; rewrite ?bind_cons, ?length_app.
  - injection Hl as ->. simpl. lia.
  - specialize (IH r s Hl ltac:(lia)). lia.
Qed.

Lemma bind_at_mono {A B} (f : A → list B) (l : list A) i j r a s b :
  bind_at f l i r a → bind_at f l j s b → i < j → r < s ∨ (r = s ∧ a < b).
Proof.
  intros (y & Hy & Ha & ->) (z & Hz & Hb & ->) Hij.
  destruct (decide (r = s)) as [->|Hne]; [lia|].
  destruct (decide (r < s)); [by left|].
  pose proof (length_bind_take_mono f l s r z Hz ltac:(lia)). lia.
Qed.

(** ** Masks *)

Section Masks.
Local Open Scope Z_scope.
(** [x & !mask] on a 64-bit integer. *)
Definition clear_mask (x mask : Z) : Z := Z.land x (usize_max - mask).

Lemma clear_mask_spec x k :
  0 <= x <= usize_max → 0 <= k <= 64 → clear_mask x (2 ^ k - 1) = x / 2 ^ k * 2 ^ k.
Proof.
  intros Hx Hk. unfold clear_mask, usize_max in *.
  replace (2 ^ 64 - 1 - (2 ^ k - 1)) with (Z.shiftl (Z.ones (64 - k)) k).
  2: { rewrite Z.shiftl_mul_pow2, Z.ones_equiv by lia.
       replace (Z.pred (2 ^ (64 - k)) * 2 ^ k) with (2 ^ (64 - k) * 2 ^ k - 2 ^ k) by lia.
       rewrite <-Z.pow_add_r by lia. replace (64 - k + k) with 64 by lia. lia. }
  rewrite <-Z.shiftr_div_pow2, <-Z.shiftl_mul_pow2 by lia. apply Z.bits_inj'. intros n Hn.
  rewrite Z.land_spec. destruct (Z.lt_ge_cases n k).
  - rewrite !Z.shiftl_spec_low by lia. by rewrite andb_false_r.
  - rewrite !Z.shiftl_spec by lia. rewrite Z.shiftr_spec by lia. replace (n - k + k) with n by lia.
    destruct (Z.lt_ge_cases n 64).
    + rewrite Z.ones_spec_low by lia. by rewrite andb_true_r.
    + rewrite (Z.bits_above_log2 x n); [done|lia|]. destruct (Z.eq_dec x 0) as [->|]; [simpl; lia|].
      apply Z.log2_lt_pow2; [lia|]. assert (2 ^ 64 <= 2 ^ n) by (apply Z.pow_le_mono_r; lia). lia.
Qed.

End Masks.

(** ** Little-endian bytes *)

Section Bytes.
Local Open Scope Z_scope.
(** [to_le_bytes]; a negative integer is encoded in two's complement. *)
Fixpoint le_bytes (n : nat) (v : Z) : list Z :=
  match n with O => [] | S n => v mod 256 :: le_bytes n (v / 256) end.

(** [from_le_bytes], unsigned. *)
Fixpoint from_le_bytes (b : list Z) : Z :=
  match b with [] => 0 | x :: rest => x + 256 * from_le_bytes rest end.

Lemma length_le_bytes n v : length (le_bytes n v) = n.
Proof. revert v. induction n; intros v; simpl; [done|by rewrite IHn]. Qed.

(** Decoding an encoded unsigned value gives it back at its width. *)
Lemma le_roundtrip n v : from_le_bytes (le_bytes n v) = v mod 256 ^ Z.of_nat n.
Proof.
  revert v. induction n as [|n IH]; intros v; simpl le_bytes; simpl from_le_bytes; [by rewrite Z.mod_1_r|].
  rewrite IH, Nat2Z.inj_succ, Z.pow_succ_r by lia. rewrite Z.rem_mul_r; lia.
Qed.
End Bytes.

(** ** Sums *)

(** The sum of [f] over a list and over the values of a map. *)
Definition zsum {A} (f : A → Z) (l : list A) : Z := foldr (λ x n, (f x + n)%Z) 0%Z l.
Definition msum {K A} `{Countable K} (f : A → Z) (m : gmap K A) : Z :=
  map_fold (λ _ x n, (f x + n)%Z) 0%Z m.

Lemma zsum_cons {A} (f : A → Z) x l : zsum f (x :: l) = (f x + zsum f l)%Z.
Proof. done. Qed.

Lemma zsum_app {A} (f : A → Z) l k : zsum f (l ++ k) = (zsum f l + zsum f k)%Z.
Proof. induction l as [|x l IH]; simpl; [done|]. rewrite IH. lia. Qed.

Lemma zsum_perm {A} (f : A → Z) l k : l ≡ₚ k → zsum f l = zsum f k.
Proof. induction 1; simpl; lia. Qed.

Lemma zsum_nonneg {A} (f : A → Z) l : Forall (λ x, (0 <= f x)%Z) l → (0 <= zsum f l)%Z.
Proof. induction 1; simpl; lia. Qed.

Lemma insert_Permutation {A} (l : list A) i x y :
  l !! i = Some x → <[i := y]> l ≡ₚ y :: delete i l.
Proof.
  intros Hi. rewrite (delete_Permutation (<[i := y]> l) i y)
    by (rewrite list_lookup_insert_eq; [done|by eapply lookup_lt_Some]).
  rewrite !delete_take_drop, take_insert_ge, drop_insert_lt by lia. done.
Qed.

Lemma elem_of_delete_cons {A} (l : list A) i x z : l !! i = Some x → z ∈ l ↔ z = x ∨ z ∈ delete i l.
Proof.
  intros Hi. rewrite <-elem_of_cons. pose proof (delete_Permutation l i x Hi) as Hp.
  split; intros Hz; [by rewrite Hp in Hz|by rewrite Hp].
Qed.

Lemma elem_of_insert_cons {A} (l : list A) i x y z :
  l !! i = Some x → z ∈ <[i := y]> l ↔ z = y ∨ z ∈ delete i l.
Proof.
  intros Hi. rewrite <-elem_of_cons. pose proof (insert_Permutation l i x y Hi) as Hp.
  split; intros Hz; [by rewrite Hp in Hz|by rewrite Hp].
Qed.

Section Msum.
Context {K A : Type} `{Countable K} (f : A → Z).
Implicit Types (m : gmap K A).

Lemma msum_insert m k x : m !! k = None → msum f (<[k := x]> m) = (f x + msum f m)%Z.
Proof. intros Hk. unfold msum. rewrite map_fold_insert_L; [done|intros; lia|done]. Qed.

Lemma msum_delete m k x : m !! k = Some x → msum f m = (f x + msum f (delete k m))%Z.
Proof.
  intros Hk. rewrite <-(insert_delete_id m k x Hk) at 1. apply msum_insert. apply lookup_delete_eq.
Qed.

Lemma msum_replace m k x y :
  m !! k = Some x → msum f (<[k := y]> m) = (msum f m - f x + f y)%Z.
Proof.
  intros Hk. rewrite (msum_delete m k x Hk), <-insert_delete_eq, msum_insert by apply lookup_delete_eq. lia.
Qed.

Lemma msum_nonneg m : (∀ k x, m !! k = Some x → (0 <= f x)%Z) → (0 <= msum f m)%Z.
Proof.
  induction m as [|k x m Hk IH] using map_ind; intros Hpos; [done|].
  rewrite msum_insert by done. pose proof (Hpos k x (lookup_insert_eq _ _ _)).
  assert (0 <= msum f m)%Z; [|lia]. apply IH. intros k' x' Hk'. apply (Hpos k').
  rewrite lookup_insert_ne; [done|]. congruence.
Qed.

Lemma msum_zero m : (∀ k x, m !! k = Some x → f x = 0%Z) → msum f m = 0%Z.
Proof.
  induction m as [|k x m Hk IH] using map_ind; intros Hz; [done|].
  rewrite msum_insert, (Hz k x (lookup_insert_eq _ _ _)), IH; [done| |done]. intros k' x' Hk'. apply (Hz k').
  rewrite lookup_insert_ne; [done|]. congruence.
Qed.

(** Among nonnegative terms, one that reaches the sum leaves nothing to the
    others. *)
Lemma msum_others m k x :
  (∀ k x, m !! k = Some x → (0 <= f x)%Z) → m !! k = Some x → (msum f m <= f x)%Z →
  ∀ k' x', k' ≠ k → m !! k' = Some x' → f x' = 0%Z.
Proof.
  intros Hpos Hk Hle k' x' Hne Hk'.
  assert (delete k m !! k' = Some x') as Hd by (by rewrite lookup_delete_ne).
  rewrite (msum_delete m k x Hk), (msum_delete (delete k m) k' x' Hd) in Hle.
  assert (0 <= msum f (delete k' (delete k m)))%Z.
  { apply msum_nonneg. intros k'' x''. rewrite !lookup_delete_Some. intros (_ & _ & ?). by eapply Hpos. }
  pose proof (Hpos k' x' Hk'). lia.
Qed.

Lemma msum_alter m k (g : A → A) : (∀ x, f (g x) = f x) → msum f (alter g k m) = msum f m.
Proof.
  intros Hg. destruct (m !! k) as [x|] eqn:Hk.
  - rewrite (msum_delete m k x Hk), <-(Hg x).
    rewrite (msum_delete (alter g k m) k (g x)) by (by rewrite lookup_alter_eq, Hk).
    by rewrite delete_alter_eq.
  - f_equal. apply map_eq. intros j. destruct (decide (j = k)) as [->|Hne].
    + by rewrite lookup_alter_eq, Hk.
    + by rewrite lookup_alter_ne.
Qed.
End Msum.
