(* ===== verification/Access.v ===== *)
(** * Byte ranges and access modes

    [std::ops::Range<usize>] and [Access] of src/src/execution/contract.rs,
    shared by the frontier, the schedulers and the kernel contracts. *)

From S2P Require Import Prelude.
Local Open Scope Z_scope.

(** [std::ops::Range<usize>]. *)
Record Range : Type := mkRange { start : Z; stop : Z }.
Notation "a '..' b" := (mkRange a b) (at level 40) : hrx_scope.

Global Instance range_eq_dec : EqDecision Range.
Proof. solve_decision. Defined.

(** [Range::is_empty]. *)
Definition range_is_empty (r : Range) : bool := negb (start r <? stop r).

(** [ExactSizeIterator::len] on a range. *)
Definition range_len (r : Range) : Z := Z.max 0 (stop r - start r).

(** Byte [b] belongs to the range. *)
Definition in_range (b : Z) (r : Range) : Prop := start r <= b < stop r.

Global Instance in_range_dec b r : Decision (in_range b r).
Proof. unfold in_range. apply _. Defined.

(** [Access]. *)
Inductive Access : Type := Read | Write | ReadWrite.

Global Instance access_eq_dec : EqDecision Access.
Proof. solve_decision. Defined.

(** [Access::writes]. *)
Definition writes (a : Access) : bool := negb (bool_decide (a = Read)).

(** Whether previous bytes are observed: [usage.access != Access::Write]. *)
Definition reads (a : Access) : bool := negb (bool_decide (a = Write)).

(** [checked_span] of src/src/runtime.rs. *)
Definition checked_span (offset length capacity : Z) : Result unit :=
  match checked_add offset length with
  | Some stop =>
      if capacity <? stop then
        Err (Message ("span " +:+ pretty offset +:+ "+" +:+ pretty length +:+ " exceeds "
                      +:+ pretty capacity +:+ " bytes"))
      else Ok tt
  | None =>
      Err (Message ("span " +:+ pretty offset +:+ "+" +:+ pretty length +:+ " exceeds "
                    +:+ pretty capacity +:+ " bytes"))
  end.

Lemma checked_span_Ok offset length capacity :
  checked_span offset length capacity = Ok tt ↔
  offset + length <= usize_max ∧ offset + length <= capacity.
Proof.
  unfold checked_span, checked_add. destruct (Z.leb_spec (offset + length) usize_max); simpl.
  - destruct (Z.ltb_spec capacity (offset + length)); split; try done; lia.
  - split; [done|lia].
Qed.

Lemma range_is_empty_false r : range_is_empty r = false ↔ start r < stop r.
Proof. unfold range_is_empty. rewrite negb_false_iff. apply Z.ltb_lt. Qed.

Lemma range_is_empty_true r : range_is_empty r = true ↔ stop r <= start r.
Proof. unfold range_is_empty. rewrite negb_true_iff. apply Z.ltb_ge. Qed.

Lemma access_touches a : reads a = true ∨ writes a = true.
Proof. destruct a; compute; auto. Qed.
