(* ===== verification/DependencyFrontier.v ===== *)
(** * Interval frontiers

    Model of src/src/dependency_frontier.rs: per allocation, a sorted list of
    byte segments, each remembering its last writer and the readers since.
    [dependencies] returns the nodes an operation must follow and updates the
    segments.  The theorems show that the interval representation refines a
    byte-indexed frontier, and that recording a sequence of operations yields
    exactly the hazard order: every conflicting earlier operation is reached
    through dependency edges, and every edge is a hazard. *)

From S2P Require Import Prelude Access.
Local Open Scope Z_scope.

Module Frontier.

(** ** Data *)

(** [Use]: allocation address, byte range, access. *)
Record Use : Type := mkUse { allocation : Z; range : Range; access : Access }.

(** [Segment]. *)
Record Segment : Type := mkSegment {
  seg_range : Range;
  writer : option nat;
  readers : gset nat }.

(** [Frontier(BTreeMap<usize, Vec<Segment>>)]. *)
Abbreviation Frontier := (gmap Z (list Segment)).

(** ** Operations *)

(** [segments.iter().position(..)] followed by the split of that segment. *)
Fixpoint split_at (point : Z) (segments : list Segment) : list Segment :=
  match segments with
  | [] => []
  | s :: rest =>
      if (start (seg_range s) <? point) && (point <? stop (seg_range s)) then
        mkSegment (mkRange (start (seg_range s)) point) (writer s) (readers s)
        :: mkSegment (mkRange point (stop (seg_range s))) (writer s) (readers s)
        :: rest
      else s :: split_at point rest
  end.

(** [segments.partition_point(|segment| segment.range.end <= position)]: the
    length of the prefix satisfying the predicate. *)
Fixpoint partition_point (position : Z) (segments : list Segment) : nat :=
  match segments with
  | [] => O
  | s :: rest =>
      if stop (seg_range s) <=? position then S (partition_point position rest) else O
  end.

(** [Vec::insert]. *)
Definition vec_insert {A} (index : nat) (x : A) (v : list A) : list A :=
  take index v ++ x :: drop index v.

(** The body of the sweep on one segment: record the dependencies, then
    become its writer or one of its readers. *)
Definition visit (node : nat) (a : Access) (s : Segment) (deps : gset nat)
    : Segment * gset nat :=
  let deps := match writer s with Some w => {[w]} ∪ deps | None => deps end in
  if writes a then (mkSegment (seg_range s) (Some node) ∅, readers s ∪ deps)
  else (mkSegment (seg_range s) (writer s) ({[node]} ∪ readers s), deps).

(** Whether the loop must first insert a segment for an uncovered gap. *)
Definition gap_end (finish position : Z) (segments : list Segment) (index : nat) : option Z :=
  match segments !! index with
  | None => Some finish
  | Some s =>
      if position <? start (seg_range s) then Some (Z.min (start (seg_range s)) finish)
      else None
  end.

(** [while position < usage.range.end { .. }]; [None] when [fuel] runs out. *)
Fixpoint sweep (fuel : nat) (node : nat) (a : Access) (finish : Z)
    (segments : list Segment) (index : nat) (position : Z) (deps : gset nat)
    : option (list Segment * gset nat) :=
  if position <? finish then
    match fuel with
    | O => None
    | S fuel =>
        let segments :=
          match gap_end finish position segments index with
          | Some e => vec_insert index (mkSegment (mkRange position e) None ∅) segments
          | None => segments
          end in
        match segments !! index with
        | None => None
        | Some s =>
            let '(s', deps) := visit node a s deps in
            sweep fuel node a finish (<[index := s']> segments) (S index)
              (stop (seg_range s)) deps
        end
    end
  else Some (segments, deps).

(** Every pass of the loop advances [index]; a pass that inserts a gap is
    followed by one that does not, or ends the sweep. *)
Definition sweep_fuel (segments : list Segment) : nat := S (2 * length segments).

(** One iteration of [for usage in uses]. *)
Definition use_step (node : nat) (u : Use) (st : Frontier * gset nat)
    : option (Frontier * gset nat) :=
  let '(f, deps) := st in
  if range_is_empty (range u) then Some (f, deps)
  else
    let segments := default [] (f !! allocation u) in
    let segments := split_at (start (range u)) segments in
    let segments := split_at (stop (range u)) segments in
    let index := partition_point (start (range u)) segments in
    '(segments, deps) ←
      sweep (sweep_fuel segments) node (access u) (stop (range u)) segments index
        (start (range u)) deps;
    Some (<[allocation u := segments]> f, deps).

Global Arguments use_step : simpl never.

Fixpoint uses_step (node : nat) (uses : list Use) (st : Frontier * gset nat)
    : option (Frontier * gset nat) :=
  match uses with
  | [] => Some st
  | u :: rest => st ← use_step node u st; uses_step node rest st
  end.

(** [Frontier::dependencies].  A [BTreeSet] is iterated in ascending order. *)
Definition dependencies (f : Frontier) (node : nat) (uses : list Use)
    : option (Frontier * list nat) :=
  '(f, deps) ← uses_step node uses (f, ∅);
  Some (f, merge_sort (≤)%nat (elements (deps ∖ {[node]}))).

(** Record operations in order: node [n] is the [n]-th operation, as in the
    loops of src/src/execution/graph.rs and src/src/access_graph.rs. *)
Fixpoint record_from (f : Frontier) (node : nat) (ops : list (list Use))
    : option (list (list nat)) :=
  match ops with
  | [] => Some []
  | uses :: rest =>
      '(f, ds) ← dependencies f node uses;
      rest ← record_from f (S node) rest;
      Some (ds :: rest)
  end.
Definition record_all (ops : list (list Use)) : option (list (list nat)) :=
  record_from ∅ 0 ops.

(** The scenario of the unit test [preserves_only_overlapping_hazards]. *)
Example test_overlapping_hazards :
  record_all
    [ [mkUse 0 (mkRange 0 64) Write]; [mkUse 0 (mkRange 0 32) Read];
      [mkUse 0 (mkRange 64 96) Read]; [mkUse 0 (mkRange 16 80) Write];
      [mkUse 0 (mkRange 24 32) Read]; [mkUse 1 (mkRange 0 32) Write] ]
  = Some [ []; [0%nat]; []; [0%nat; 1%nat; 2%nat]; [3%nat]; [] ].
Proof. vm_compute. reflexivity. Qed.

(** The scenario of [one_node_can_read_and_write_the_same_region]. *)
Example test_same_region :
  record_all
    [ [mkUse 0 (mkRange 0 32) Read; mkUse 0 (mkRange 0 32) Write];
      [mkUse 0 (mkRange 0 32) Read] ]
  = Some [ []; [0%nat] ].
Proof. vm_compute. reflexivity. Qed.

(** ** Byte-indexed specification *)

(** What a byte remembers: its last writer and the readers since. *)
Definition cell : Type := option nat * gset nat.
Definition fresh : cell := (None, ∅).

(** The nodes an access at this byte must follow. *)
Definition cell_deps (a : Access) (c : cell) : gset nat :=
  match c.1 with Some w => {[w]} | None => ∅ end ∪ (if writes a then c.2 else ∅).

(** The byte after the access by [node]. *)
Definition touch (node : nat) (a : Access) (c : cell) : cell :=
  if writes a then (Some node, ∅) else (c.1, {[node]} ∪ c.2).

(** The byte's cell in a segment list. *)
Fixpoint cell_at (segments : list Segment) (b : Z) : cell :=
  match segments with
  | [] => fresh
  | s :: rest =>
      if bool_decide (in_range b (seg_range s)) then (writer s, readers s) else cell_at rest b
  end.

Definition cells (f : Frontier) (al b : Z) : cell := cell_at (default [] (f !! al)) b.

Definition byte_frontier : Type := Z → Z → cell.

(** A use applied to every byte of its range. *)
Definition spec_use (node : nat) (u : Use) (F : byte_frontier) : byte_frontier :=
  λ al b, if bool_decide (al = allocation u ∧ in_range b (range u))
          then touch node (access u) (F al b) else F al b.
Definition spec_deps (u : Use) (F : byte_frontier) (d : nat) : Prop :=
  ∃ b, in_range b (range u) ∧ d ∈ cell_deps (access u) (F (allocation u) b).

Fixpoint spec_uses (node : nat) (uses : list Use) (F : byte_frontier) : byte_frontier :=
  match uses with
  | [] => F
  | u :: rest => spec_uses node rest (spec_use node u F)
  end.
Fixpoint spec_uses_deps (node : nat) (uses : list Use) (F : byte_frontier) (d : nat) : Prop :=
  match uses with
  | [] => False
  | u :: rest => spec_deps u F d ∨ spec_uses_deps node rest (spec_use node u F) d
  end.

(** ** Representation invariant: sorted, disjoint, nonempty segments *)

Fixpoint wf_from (lo : Z) (segments : list Segment) : Prop :=
  match segments with
  | [] => True
  | s :: rest =>
      lo <= start (seg_range s) < stop (seg_range s) ∧ wf_from (stop (seg_range s)) rest
  end.
Definition wf_segments (segments : list Segment) : Prop := ∃ lo, wf_from lo segments.
Definition wf (f : Frontier) : Prop := ∀ al segments, f !! al = Some segments → wf_segments segments.

(** No segment has [point] strictly inside. *)
Definition cut (point : Z) (s : Segment) : Prop :=
  ¬ (start (seg_range s) < point < stop (seg_range s)).

Lemma wf_from_weaken lo lo' segments : lo' <= lo → wf_from lo segments → wf_from lo' segments.
Proof. destruct segments; simpl; [done|]. intros ? [??]; split; [lia|done]. Qed.

Lemma cell_at_below lo segments b : wf_from lo segments → b < lo → cell_at segments b = fresh.
Proof.
  revert lo; induction segments as [|s rest IH]; intros lo Hwf Hb; simpl in *; [done|].
  rewrite bool_decide_eq_false_2; [|unfold in_range; lia].
  apply (IH (stop (seg_range s))); [tauto|lia].
Qed.

Lemma cell_at_app_r p q b :
  Forall (λ s, stop (seg_range s) <= b) p → cell_at (p ++ q) b = cell_at q b.
Proof.
  induction 1 as [|s p Hs _ IH]; simpl; [done|].
  rewrite bool_decide_eq_false_2; [done|unfold in_range; lia].
Qed.

Lemma cell_at_app_change p q q' b :
  cell_at q b = cell_at q' b → cell_at (p ++ q) b = cell_at (p ++ q') b.
Proof. intros Hq. induction p; simpl; [done|]. by rewrite IHp. Qed.

(** ** Splitting *)

Lemma split_at_wf point lo segments : wf_from lo segments → wf_from lo (split_at point segments).
Proof.
  revert lo; induction segments as [|s rest IH]; intros lo Hwf; simpl in *; [done|].
  destruct Hwf as [? Hrest]. case_bool; simpl; [|split; [lia|auto]].
  split_and!; [lia|lia|lia|lia|done].
Qed.

Lemma split_at_cell point segments b : cell_at (split_at point segments) b = cell_at segments b.
Proof.
  induction segments as [|s rest IH]; simpl; [done|].
  case_bool; simpl; [|by rewrite IH].
  unfold in_range; simpl. repeat case_bool_decide; try done; lia.
Qed.

Lemma wf_cut_below point lo segments :
  point <= lo → wf_from lo segments → Forall (cut point) segments.
Proof.
  revert lo; induction segments as [|s rest IH]; intros lo Hlo Hwf; simpl in *; [constructor|].
  destruct Hwf as [? Hrest]. constructor; [unfold cut; lia|].
  apply (IH (stop (seg_range s))); [lia|done].
Qed.

Lemma split_at_cut point lo segments :
  wf_from lo segments → Forall (cut point) (split_at point segments).
Proof.
  revert lo; induction segments as [|s rest IH]; intros lo Hwf; simpl in *; [constructor|].
  destruct Hwf as [Hs Hrest]. case_bool.
  - repeat constructor; unfold cut; simpl; [lia|lia|].
    eapply wf_cut_below; [|done]; lia.
  - constructor; [unfold cut; lia|]. by apply (IH (stop (seg_range s))).
Qed.

Lemma split_at_keeps_cut point q segments :
  Forall (cut q) segments → Forall (cut q) (split_at point segments).
Proof.
  induction 1 as [|s rest Hs Hrest IH]; simpl; [constructor|].
  unfold cut in *. case_bool; repeat constructor; simpl; try done; lia.
Qed.

(** ** Locating the first overlapping segment *)

Lemma partition_point_spec lo position segments :
  wf_from lo segments → Forall (cut position) segments →
  Forall (λ s, stop (seg_range s) <= position) (take (partition_point position segments) segments)
  ∧ wf_from position (drop (partition_point position segments) segments).
Proof.
  revert lo; induction segments as [|s rest IH]; intros lo Hwf Hcut; simpl; [done|].
  destruct Hwf as [? Hrest]. inversion_clear Hcut as [|?? Hs Hcut'].
  case_bool; simpl.
  - destruct (IH _ Hrest Hcut'). split; [by constructor|done].
  - split; [constructor|]. unfold cut in Hs. split; [lia|done].
Qed.

Lemma wf_from_app_tail lo mid p q q' :
  wf_from lo (p ++ q) → Forall (λ s, stop (seg_range s) <= mid) p → lo <= mid →
  wf_from mid q' → wf_from lo (p ++ q').
Proof.
  revert lo; induction p as [|s p IH]; intros lo Hwf Hp Hlo Hq; simpl in *.
  - by eapply wf_from_weaken.
  - destruct Hwf as [? Hwf]. inversion_clear Hp. split; [done|]. by apply IH.
Qed.

(** ** The sweep *)

(** The segment handled by one pass and the segments after it. *)
Definition next_segment (finish position : Z) (segments : list Segment) : Segment * list Segment :=
  match segments with
  | [] => (mkSegment (mkRange position finish) None ∅, [])
  | s :: rest =>
      if position <? start (seg_range s)
      then (mkSegment (mkRange position (Z.min (start (seg_range s)) finish)) None ∅, s :: rest)
      else (s, rest)
  end.

(** The sweep seen from the current index: the segments before it are final. *)
Fixpoint sweep_tail (fuel : nat) (node : nat) (a : Access) (finish : Z)
    (segments : list Segment) (position : Z) (deps : gset nat)
    : option (list Segment * gset nat) :=
  if position <? finish then
    match fuel with
    | O => None
    | S fuel =>
        let '(s, rest) := next_segment finish position segments in
        let '(s', deps) := visit node a s deps in
        '(rest, deps) ← sweep_tail fuel node a finish rest (stop (seg_range s)) deps;
        Some (s' :: rest, deps)
    end
  else Some (segments, deps).

Lemma sweep_step fuel node a finish p q position deps :
  position < finish →
  sweep (S fuel) node a finish (p ++ q) (length p) position deps
  = let '(s, rest) := next_segment finish position q in
    let '(s', deps) := visit node a s deps in
    sweep fuel node a finish (p ++ s' :: rest) (S (length p)) (stop (seg_range s)) deps.
Proof.
  intros Hlt. simpl. rewrite (proj2 (Z.ltb_lt _ _) Hlt).
  unfold gap_end, vec_insert.
  rewrite !take_app_length, !drop_app_length, lookup_app_r, Nat.sub_diag by lia.
  assert (Hins : ∀ (x y : Segment) l, <[length p:=x]> (p ++ y :: l) = p ++ x :: l).
  { intros x y l. by rewrite insert_app_r_alt, Nat.sub_diag by lia. }
  destruct q as [|s q]; simpl.
  - rewrite list_lookup_middle by done. destruct (visit _ _ _ _). by rewrite Hins.
  - destruct (position <? start (seg_range s)); rewrite list_lookup_middle by done;
      destruct (visit _ _ _ _); by rewrite Hins.
Qed.

Lemma sweep_is_tail fuel node a finish p q position deps :
  sweep fuel node a finish (p ++ q) (length p) position deps
  = '(q', deps') ← sweep_tail fuel node a finish q position deps; Some (p ++ q', deps').
Proof.
  revert p q position deps; induction fuel as [|fuel IH]; intros p q position deps.
  - simpl. by destruct (position <? finish).
  - destruct (Z.ltb_spec position finish) as [Hlt|Hge].
    + rewrite sweep_step by done. simpl. rewrite (proj2 (Z.ltb_lt _ _) Hlt).
      destruct (next_segment finish position q) as [s rest].
      destruct (visit node a s deps) as [s' deps1].
      replace (p ++ s' :: rest) with ((p ++ [s']) ++ rest) by by rewrite <-app_assoc.
      replace (S (length p)) with (length (p ++ [s'])) by (rewrite length_app; simpl; lia).
      rewrite IH. destruct (sweep_tail fuel node a finish rest _ deps1) as [[]|]; simpl; [|done].
      by rewrite <-app_assoc.
    + simpl. by rewrite (proj2 (Z.ltb_ge _ _) Hge).
Qed.

(** Passes needed from here: two per remaining segment, one for the tail gap. *)
Definition sweep_need (finish position : Z) (segments : list Segment) : nat :=
  match segments with
  | [] => 1
  | s :: _ =>
      if position <? start (seg_range s) then S (2 * length segments) else 2 * length segments
  end.

Lemma sweep_tail_terminates fuel node a finish q position deps :
  (sweep_need finish position q <= fuel)%nat →
  is_Some (sweep_tail fuel node a finish q position deps).
Proof.
  assert (Hneed : ∀ q pos, (sweep_need finish pos q <= S (2 * length q))%nat).
  { intros q' pos. destruct q'; simpl; [lia|]. case_bool; simpl; lia. }
  revert q position deps; induction fuel as [|fuel IH]; intros q position deps Hfuel; simpl;
    destruct (position <? finish) eqn:Hlt; to_prop; eauto.
  - destruct q; simpl in Hfuel; [lia|]. case_bool; simpl in *; lia.
  - destruct (next_segment finish position q) as [s rest] eqn:Hnext.
    destruct (visit node a s deps) as [s' deps1].
    assert (Hrest : is_Some (sweep_tail fuel node a finish rest (stop (seg_range s)) deps1)).
    { destruct q as [|t q]; simpl in *.
      - injection Hnext as <- <-. simpl. destruct fuel; simpl; rewrite Z.ltb_irrefl; eauto.
      - destruct (position <? start (seg_range t)) eqn:Hgap; injection Hnext as <- <-; simpl.
        + destruct (decide (start (seg_range t) < finish)).
          * apply IH. simpl. rewrite Z.min_l, Z.ltb_irrefl by lia. lia.
          * rewrite Z.min_r by lia. destruct fuel; simpl; rewrite Z.ltb_irrefl; eauto.
        + apply IH. specialize (Hneed q (stop (seg_range t))). lia. }
    destruct Hrest as [[rest' deps'] ->]. simpl. eauto.
Qed.

Lemma cell_deps_elem a w r d :
  d ∈ cell_deps a (w, r) ↔ w = Some d ∨ (writes a = true ∧ d ∈ r).
Proof.
  unfold cell_deps; simpl. destruct w, (writes a); set_solver.
Qed.

Lemma visit_spec node a s deps s' deps' :
  visit node a s deps = (s', deps') →
  seg_range s' = seg_range s ∧
  (writer s', readers s') = touch node a (writer s, readers s) ∧
  (∀ d, d ∈ deps' ↔ d ∈ deps ∨ d ∈ cell_deps a (writer s, readers s)).
Proof.
  unfold visit, touch. intros H. split_and!.
  - destruct (writes a); by injection H as <- <-.
  - destruct (writes a); by injection H as <- <-.
  - intros d. rewrite cell_deps_elem.
    destruct (writes a), (writer s); injection H as <- <-; set_solver.
Qed.

Lemma sweep_tail_spec fuel node a finish q position deps q' deps' :
  wf_from position q → Forall (cut finish) q → position <= finish →
  sweep_tail fuel node a finish q position deps = Some (q', deps') →
  wf_from position q'
  ∧ (∀ b, cell_at q' b = if bool_decide (position <= b < finish)
                         then touch node a (cell_at q b) else cell_at q b)
  ∧ (∀ d, d ∈ deps' ↔
      d ∈ deps ∨ ∃ b, position <= b < finish ∧ d ∈ cell_deps a (cell_at q b)).
Proof.
  revert q position deps q' deps'; induction fuel as [|fuel IH];
    intros q position deps q' deps' Hwf Hcut Hpos Hsweep; simpl in Hsweep;
    destruct (position <? finish) eqn:Hlt; to_prop; try done.
  1,3: injection Hsweep as <- <-; split_and!; [done| |];
    [intros b; rewrite bool_decide_eq_false_2 by lia; done
    |intros d; split; [tauto|intros [?|(b & ? & _)]; [done|lia]]].
  destruct (next_segment finish position q) as [s rest] eqn:Hnext.
  destruct (visit node a s deps) as [s' deps1] eqn:Hvisit.
  destruct (sweep_tail fuel node a finish rest _ deps1) as [[r dr]|] eqn:Hrec; [|done].
  simpl in Hsweep. injection Hsweep as <- <-.
  apply visit_spec in Hvisit as (Hrange & Htouch & Hdeps).
  (* the visited segment starts here and ends at most at [finish] *)
  assert (Hseg : start (seg_range s) = position ∧ position < stop (seg_range s) <= finish
    ∧ wf_from (stop (seg_range s)) rest ∧ Forall (cut finish) rest
    ∧ (∀ b, cell_at q b = if bool_decide (in_range b (seg_range s))
                          then (writer s, readers s) else cell_at rest b)).
  { destruct q as [|t q]; simpl in Hnext.
    { injection Hnext as <- <-; simpl. split_and!; try done; try lia.
      intros b. by case_bool_decide. }
    destruct Hwf as [Ht Hwf]. inversion_clear Hcut as [|?? Hct Hcq]. case_bool; injection Hnext as <- <-; simpl.
    - split_and!; try done; try lia. { by constructor. }
      intros b. unfold in_range; simpl. repeat case_bool_decide; try done; [lia|].
      eapply cell_at_below; [done|]. lia.
    - unfold cut in Hct. split_and!; try done; lia. }
  destruct Hseg as (Hstart & Hstop & Hwfr & Hcutr & Hcell).
  destruct (IH _ _ _ _ _ Hwfr Hcutr ltac:(lia) Hrec) as (IHwf & IHcell & IHdeps).
  split_and!.
  - simpl. rewrite Hrange. split; [lia|done].
  - intros b. simpl. rewrite Hrange, Htouch, IHcell, Hcell. unfold in_range.
    repeat case_bool_decide; try done; lia.
  - intros d. rewrite IHdeps, Hdeps. split.
    + intros [[?|Hd]|(b & Hb & Hd)]; [by left| |].
      * right. exists position. split; [lia|]. rewrite Hcell. unfold in_range.
        by rewrite bool_decide_eq_true_2 by lia.
      * right. exists b. split; [lia|]. rewrite Hcell. unfold in_range.
        by rewrite bool_decide_eq_false_2 by lia.
    + intros [?|(b & Hb & Hd)]; [by left; left|]. rewrite Hcell in Hd.
      unfold in_range in Hd. case_bool_decide; [by left; right|].
      right. exists b. split; [lia|done].
Qed.

(** ** One use *)

(** The segment list of one allocation under a use of a nonempty range. *)
Definition segments_step (node : nat) (a : Access) (r : Range) (segments : list Segment)
    (deps : gset nat) : option (list Segment * gset nat) :=
  let segments := split_at (stop r) (split_at (start r) segments) in
  sweep (sweep_fuel segments) node a (stop r) segments
    (partition_point (start r) segments) (start r) deps.

Lemma partition_point_length position segments :
  length (take (partition_point position segments) segments) = partition_point position segments.
Proof.
  apply length_take_le. induction segments; simpl; [lia|]. case_bool; simpl; lia.
Qed.

(** The sweep from the partition point, on the segments after it. *)
Lemma sweep_from_partition node a finish position segments deps :
  ∃ q deps',
    sweep_tail (sweep_fuel segments) node a finish
      (drop (partition_point position segments) segments) position deps = Some (q, deps')
    ∧ sweep (sweep_fuel segments) node a finish segments (partition_point position segments)
        position deps
      = Some (take (partition_point position segments) segments ++ q, deps').
Proof.
  set (k := partition_point position segments).
  destruct (sweep_tail_terminates (sweep_fuel segments) node a finish (drop k segments) position deps)
    as [[q deps'] Htail].
  { unfold sweep_need, sweep_fuel. destruct (drop k segments) as [|t q] eqn:E; [lia|].
    assert (length (t :: q) <= length segments)%nat by (rewrite <-E, length_drop; lia).
    case_bool; lia. }
  exists q, deps'. split; [done|].
  pose proof (sweep_is_tail (sweep_fuel segments) node a finish (take k segments)
    (drop k segments) position deps) as Hsweep.
  assert (Hk : length (take k segments) = k) by apply partition_point_length.
  rewrite Hk, take_drop in Hsweep. by rewrite Hsweep, Htail.
Qed.

Lemma segments_step_spec node a r segments deps :
  wf_segments segments → start r < stop r →
  ∃ segments' deps', segments_step node a r segments deps = Some (segments', deps')
    ∧ wf_segments segments'
    ∧ (∀ b, cell_at segments' b = if bool_decide (in_range b r)
                                  then touch node a (cell_at segments b) else cell_at segments b)
    ∧ (∀ d, d ∈ deps' ↔
        d ∈ deps ∨ ∃ b, in_range b r ∧ d ∈ cell_deps a (cell_at segments b)).
Proof.
  intros [base Hbase] Hne. unfold segments_step, in_range.
  set (lo := start r) in *. set (hi := stop r) in *.
  set (segs := split_at hi (split_at lo segments)). set (k := partition_point lo segs).
  assert (Hsegs : wf_from (Z.min base lo) segs).
  { apply split_at_wf, split_at_wf. eapply wf_from_weaken; [|done]. lia. }
  assert (Hcells : ∀ b, cell_at segs b = cell_at segments b).
  { intros b. unfold segs. by rewrite !split_at_cell. }
  assert (Hlo : Forall (cut lo) segs) by by eapply split_at_keeps_cut, split_at_cut.
  assert (Hhi : Forall (cut hi) segs) by by eapply split_at_cut, split_at_wf.
  destruct (partition_point_spec _ lo segs Hsegs Hlo) as [Hpre Hsuf]. fold k in Hpre, Hsuf.
  destruct (sweep_from_partition node a hi lo segs deps) as (q & deps' & Htail & Hsweep).
  fold k in Htail, Hsweep. rewrite Hsweep. eexists _, _; split; [done|].
  destruct (sweep_tail_spec _ _ _ _ _ _ _ _ _ Hsuf (Forall_drop _ k _ Hhi) ltac:(lia) Htail)
    as (Hq & Hqcell & Hqdeps).
  assert (Happ : ∀ b q', lo <= b → cell_at (take k segs ++ q') b = cell_at q' b).
  { intros b q' Hb. apply cell_at_app_r. eapply Forall_impl; [exact Hpre|]. simpl. lia. }
  assert (Hdrop : ∀ b, lo <= b → cell_at (drop k segs) b = cell_at segments b).
  { intros b Hb. by rewrite <-(Happ b (drop k segs) Hb), take_drop. }
  split_and!.
  - exists (Z.min base lo). apply (wf_from_app_tail _ lo _ (drop k segs)); [|done|lia|done].
    by rewrite take_drop.
  - intros b. destruct (decide (lo <= b)).
    + rewrite Happ, Hqcell, Hdrop by done. repeat case_bool_decide; naive_solver.
    + rewrite bool_decide_eq_false_2, (cell_at_app_change _ q (drop k segs)) by
        (rewrite ?Hqcell, ?bool_decide_eq_false_2 by lia; lia || done).
      by rewrite take_drop.
  - intros d. rewrite Hqdeps.
    split; (intros [?|(b & ? & Hd)]; [by left|right; exists b; split; [done|]]);
      [rewrite <-Hdrop by lia|rewrite Hdrop by lia]; done.
Qed.

Lemma use_step_spec node u f deps :
  wf f →
  ∃ f' deps', use_step node u (f, deps) = Some (f', deps')
    ∧ wf f'
    ∧ (∀ al b, cells f' al b = spec_use node u (cells f) al b)
    ∧ (∀ d, d ∈ deps' ↔ d ∈ deps ∨ spec_deps u (cells f) d).
Proof.
  intros Hwf. unfold use_step, spec_use, spec_deps, cells.
  destruct (range_is_empty (range u)) eqn:Hempty.
  { apply range_is_empty_true in Hempty. exists f, deps. split_and!; [done|done| |].
    - intros al b. rewrite bool_decide_eq_false_2; [done|]. unfold in_range. lia.
    - intros d. unfold in_range. naive_solver lia. }
  apply range_is_empty_false in Hempty.
  set (old := default [] (f !! allocation u)).
  assert (Hold : wf_segments old).
  { unfold old. destruct (f !! allocation u) eqn:E; [by eapply Hwf|by exists 0]. }
  destruct (segments_step_spec node (access u) (range u) old deps Hold Hempty)
    as (segs & deps' & Hstep & Hsegs & Hcell & Hdeps).
  unfold segments_step in Hstep. rewrite Hstep. simpl.
  eexists _, _; split; [done|]. split_and!; [| |done].
  - intros al segments. rewrite lookup_insert. case_decide; [naive_solver|by apply Hwf].
  - intros al b. rewrite lookup_insert. case_decide as Hal; simpl.
    + subst al. rewrite Hcell. repeat case_bool_decide; naive_solver.
    + by rewrite bool_decide_eq_false_2 by (intros []; congruence).
Qed.

(** ** One operation *)

(** Segments and dependencies after [uses], against the byte specification. *)
Lemma uses_step_spec node uses f deps :
  wf f →
  ∃ f' deps', uses_step node uses (f, deps) = Some (f', deps')
    ∧ wf f'
    ∧ (∀ al b, cells f' al b = spec_uses node uses (cells f) al b)
    ∧ (∀ d, d ∈ deps' ↔ d ∈ deps ∨ spec_uses_deps node uses (cells f) d).
Proof.
  assert (Hext : ∀ us F G, (∀ al b, F al b = G al b) →
    (∀ al b, spec_uses node us F al b = spec_uses node us G al b)
    ∧ (∀ d, spec_uses_deps node us F d ↔ spec_uses_deps node us G d)).
  { induction us as [|u us IHu]; intros F G HFG; simpl; [naive_solver|].
    destruct (IHu (spec_use node u F) (spec_use node u G)) as [IH1 IH2].
    { intros al b. unfold spec_use. by rewrite HFG. }
    split; [done|]. intros d. rewrite IH2. unfold spec_deps.
    by setoid_rewrite HFG. }
  revert f deps; induction uses as [|u uses IH]; intros f deps Hwf; simpl.
  { exists f, deps. naive_solver. }
  destruct (use_step_spec node u f deps Hwf) as (f1 & d1 & Hu & Hwf1 & Hc1 & Hd1).
  rewrite Hu. simpl. destruct (IH f1 d1 Hwf1) as (f2 & d2 & Hus & Hwf2 & Hc2 & Hd2).
  destruct (Hext uses _ _ Hc1) as [Hx1 Hx2].
  exists f2, d2. split_and!; [done|done| |].
  - intros al b. by rewrite Hc2, Hx1.
  - intros d. rewrite Hd2, Hd1, Hx2. tauto.
Qed.

Lemma sorted_elements (s : gset nat) :
  StronglySorted (≤)%nat (merge_sort (≤)%nat (elements s))
  ∧ NoDup (merge_sort (≤)%nat (elements s))
  ∧ (∀ d, d ∈ merge_sort (≤)%nat (elements s) ↔ d ∈ s).
Proof.
  pose proof (merge_sort_Permutation (≤)%nat (elements s)) as Hp. split_and!.
  - apply StronglySorted_merge_sort; apply _.
  - rewrite Hp. apply NoDup_elements.
  - intros d. by rewrite Hp, elem_of_elements.
Qed.

(** [dependencies] against the byte specification. *)
Lemma dependencies_spec f node uses :
  wf f →
  ∃ f' ds, dependencies f node uses = Some (f', ds)
    ∧ wf f'
    ∧ (∀ al b, cells f' al b = spec_uses node uses (cells f) al b)
    ∧ StronglySorted (≤)%nat ds ∧ NoDup ds
    ∧ (∀ d, d ∈ ds ↔ d ≠ node ∧ spec_uses_deps node uses (cells f) d).
Proof.
  intros Hwf. unfold dependencies.
  destruct (uses_step_spec node uses f ∅ Hwf) as (f' & deps & -> & Hwf' & Hc & Hd). simpl.
  destruct (sorted_elements (deps ∖ {[node]})) as (Hs & Hn & He).
  eexists _, _. split_and!; [done|done|done|done|done|].
  intros d. rewrite He, elem_of_difference, Hd. set_solver.
Qed.

Lemma wf_empty : wf ∅.
Proof. intros al segments H. by rewrite lookup_empty in H. Qed.

(** ** Recorded hazards *)

(** Operation [j] directly depends on [i]. *)
Definition edge (ds : list (list nat)) (j i : nat) : Prop := ∃ l, ds !! j = Some l ∧ i ∈ l.

(** Operation [i] accesses byte [b] of allocation [al] with access [a]. *)
Definition touches (ops : list (list Use)) (i : nat) (al b : Z) (a : Access) : Prop :=
  ∃ us u, ops !! i = Some us ∧ u ∈ us ∧ allocation u = al ∧ in_range b (range u) ∧ access u = a.

(** Operations [i] and [j] access a common byte and one of them writes it. *)
Definition hazard (ops : list (list Use)) (i j : nat) : Prop :=
  ∃ al b ai aj, touches ops i al b ai ∧ touches ops j al b aj
    ∧ (writes ai = true ∨ writes aj = true).

(** What the byte frontier knows of the accesses [P] performed so far, relative
    to the dependency edges [E]. *)
Record tracks (E : nat → nat → Prop) (F : byte_frontier)
    (P : nat → Z → Z → Access → Prop) : Prop := {
  edges_down : ∀ j i, E j i → (i < j)%nat;
  writes_reached : ∀ i al b a, P i al b a → writes a = true →
    ∃ w, (F al b).1 = Some w ∧ rtc E w i;
  accesses_reached : ∀ i al b a, P i al b a →
    i ∈ (F al b).2 ∨ ∃ w, (F al b).1 = Some w ∧ rtc E w i;
  readers_follow : ∀ al b r w, r ∈ (F al b).2 → (F al b).1 = Some w → rtc E r w;
  writer_wrote : ∀ al b w, (F al b).1 = Some w → ∃ a, P w al b a ∧ writes a = true;
  reader_read : ∀ al b r, r ∈ (F al b).2 → ∃ a, P r al b a }.

Lemma rtc_down (E : nat → nat → Prop) w i :
  (∀ j i, E j i → (i < j)%nat) → rtc E w i → (i <= w)%nat.
Proof. intros Hd. induction 1 as [|x y z Hxy _ IH]; [lia|]. apply Hd in Hxy. lia. Qed.

(** Applying one use of node [n] whose dependencies are edges. *)
Lemma tracks_use E F P n u :
  tracks E F P →
  (∀ d, spec_deps u F d → d ≠ n → E n d) →
  tracks E (spec_use n u F)
    (λ i al b a, P i al b a ∨
      (i = n ∧ al = allocation u ∧ in_range b (range u) ∧ a = access u)).
Proof.
  intros [Hdown Hw Ha Hr Sw Sr] HE.
  assert (Hdep : ∀ b d, in_range b (range u) →
    d ∈ cell_deps (access u) (F (allocation u) b) → rtc E n d).
  { intros b d Hb Hd. destruct (decide (d = n)) as [->|]; [done|].
    apply rtc_once, HE; [|done]. by exists b. }
  assert (Hwdep : ∀ b w, in_range b (range u) → (F (allocation u) b).1 = Some w → rtc E n w).
  { intros b w Hb Hf. apply (Hdep b); [done|]. destruct (F (allocation u) b) as [w' r'].
    simpl in Hf. subst w'. apply cell_deps_elem. by left. }
  assert (Hrdep : ∀ b r, in_range b (range u) → writes (access u) = true →
    r ∈ (F (allocation u) b).2 → rtc E n r).
  { intros b r Hb Hwr Hf. apply (Hdep b); [done|]. destruct (F (allocation u) b) as [w' r'].
    apply cell_deps_elem. by right. }
  split; [done| | | | |]; unfold spec_use, touch; intros *.
  - intros HP Hwa. case_bool_decide as Hin; [destruct Hin as [-> Hb]|].
    + destruct (writes (access u)) eqn:Hwu; simpl.
      * exists n. split; [done|]. destruct HP as [HP|(-> & _)]; [|done].
        destruct (Hw _ _ _ _ HP Hwa) as (w & Hfw & ?). etrans; [by eapply Hwdep|done].
      * destruct HP as [HP|(-> & _ & _ & ->)]; [by eapply Hw|congruence].
    + destruct HP as [HP|(-> & ? & ? & ?)]; [by eapply Hw|tauto].
  - intros HP. case_bool_decide as Hin; [destruct Hin as [-> Hb]|].
    + destruct (writes (access u)) eqn:Hwu; simpl.
      * right. exists n. split; [done|]. destruct HP as [HP|(-> & _)]; [|done].
        destruct (Ha _ _ _ _ HP) as [Hi|(w & Hfw & ?)]; [by eapply Hrdep|].
        etrans; [by eapply Hwdep|done].
      * destruct HP as [HP|(-> & _)]; [|set_solver].
        destruct (Ha _ _ _ _ HP); [set_solver|by right].
    + destruct HP as [HP|(-> & ? & ? & ?)]; [by eapply Ha|tauto].
  - case_bool_decide as Hin; [destruct Hin as [-> Hb]|by apply Hr].
    destruct (writes (access u)) eqn:Hwu; simpl; [set_solver|].
    rewrite elem_of_union, elem_of_singleton. intros [->|?] ?; [by eapply Hwdep|by eapply Hr].
  - assert (Hold : (F al b).1 = Some w → ∃ a, (P w al b a ∨ w = n ∧ al = allocation u
      ∧ in_range b (range u) ∧ a = access u) ∧ writes a = true).
    { intros Hf. destruct (Sw _ _ _ Hf) as (a & ? & ?). exists a. auto. }
    case_bool_decide as Hin; [destruct Hin as [-> Hb]|done].
    destruct (writes (access u)) eqn:Hwu; simpl; [|done].
    intros [= <-]. exists (access u). tauto.
  - assert (Hold : r ∈ (F al b).2 → ∃ a, P r al b a ∨ r = n ∧ al = allocation u
      ∧ in_range b (range u) ∧ a = access u).
    { intros Hf. destruct (Sr _ _ _ Hf) as (a & ?). exists a. auto. }
    case_bool_decide as Hin; [destruct Hin as [-> Hb]|done].
    destruct (writes (access u)) eqn:Hwu; simpl; [set_solver|].
    rewrite elem_of_union, elem_of_singleton. intros [->|?]; [|auto].
    exists (access u). tauto.
Qed.

Lemma tracks_equiv E F P Q :
  (∀ i al b a, P i al b a ↔ Q i al b a) → tracks E F P → tracks E F Q.
Proof.
  intros HPQ [Hdown Hw Ha Hr Sw Sr]. split; try setoid_rewrite <-HPQ; done.
Qed.

(** Applying all uses of node [n], each dependency being an edge. *)
Lemma tracks_uses E F P n uses :
  tracks E F P →
  (∀ d, spec_uses_deps n uses F d → d ≠ n → E n d) →
  tracks E (spec_uses n uses F)
    (λ i al b a, P i al b a ∨ (i = n ∧ ∃ u, u ∈ uses ∧ allocation u = al
       ∧ in_range b (range u) ∧ access u = a)).
Proof.
  revert F P; induction uses as [|u uses IH]; intros F P HT HE; simpl.
  { eapply tracks_equiv; [|exact HT]. intros *. split; [by left|].
    intros [?|(_ & u & Hu & _)]; [done|]. by apply elem_of_nil in Hu. }
  eapply tracks_equiv; [|apply IH; [apply tracks_use; [exact HT|]|]].
  - intros i al b a. simpl. split.
    + intros [[?|(-> & -> & ? & ->)]|(-> & v & ? & ?)]; [by left|right..];
        (split; [done|]); [exists u|exists v]; set_solver.
    + intros [?|(-> & v & Hv & <- & ? & <-)]; [by left; left|].
      apply elem_of_cons in Hv as [->|Hv]; [by left; right|right]. split; [done|]. by exists v.
  - intros d Hd. apply HE. by left.
  - intros d Hd. apply HE. by right.
Qed.

(** More edges never break the tracking. *)
Lemma tracks_more_edges E E' F P :
  (∀ j i, E j i → E' j i) → (∀ j i, E' j i → (i < j)%nat) → tracks E F P → tracks E' F P.
Proof.
  intros HEE Hdown' [Hdown Hw Ha Hr Sw Sr].
  assert (Hrtc : ∀ x y, rtc E x y → rtc E' x y) by (intros; by eapply rtc_subrel).
  split; [done| | | |done|done].
  - intros i al b a HP Hwa. destruct (Hw _ _ _ _ HP Hwa) as (w & ? & ?). eauto.
  - intros i al b a HP. destruct (Ha _ _ _ _ HP) as [?|(w & ? & ?)]; eauto.
  - eauto.
Qed.

(** Every byte dependency of [n] is an earlier access that conflicts. *)
Lemma spec_deps_hazard E F P n uses d :
  tracks E F P → spec_uses_deps n uses F d → d ≠ n →
  ∃ al b ad u, P d al b ad ∧ u ∈ uses ∧ allocation u = al ∧ in_range b (range u)
    ∧ (writes ad = true ∨ writes (access u) = true).
Proof.
  intros HT Hd Hne.
  assert (Hgen : ∀ us F' , (∀ al b w, (F' al b).1 = Some w → w ≠ n →
      ∃ a, P w al b a ∧ writes a = true) →
    (∀ al b r, r ∈ (F' al b).2 → r ≠ n → ∃ a, P r al b a) →
    spec_uses_deps n us F' d →
    ∃ al b ad u, P d al b ad ∧ u ∈ us ∧ allocation u = al ∧ in_range b (range u)
      ∧ (writes ad = true ∨ writes (access u) = true)).
  { clear Hd. induction us as [|u us IH]; intros F' HW HR; simpl; [done|].
    intros [(b & Hb & Hd)|Hd].
    - destruct (F' (allocation u) b) as [w r] eqn:EF. apply cell_deps_elem in Hd.
      destruct Hd as [->|[Hwu Hr]].
      + destruct (HW (allocation u) b d) as (a & ? & ?); [by rewrite EF|done|].
        exists (allocation u), b, a, u. set_solver.
      + destruct (HR (allocation u) b d) as (a & ?); [by rewrite EF|done|].
        exists (allocation u), b, a, u. set_solver.
    - destruct (IH (spec_use n u F')) as (al & b & ad & v & ? & ? & ?); [..|done|].
      + intros al b w. unfold spec_use, touch. case_bool_decide; [|by apply HW].
        destruct (writes (access u)); simpl; [congruence|by apply HW].
      + intros al b r. unfold spec_use, touch. case_bool_decide; [|by apply HR].
        destruct (writes (access u)); simpl; [set_solver|].
        rewrite elem_of_union, elem_of_singleton. intros [->|?]; [done|by apply HR].
      + exists al, b, ad, v. set_solver. }
  apply (Hgen uses F); [| |done].
  - intros al b w Hf _. by eapply writer_wrote.
  - intros al b r Hf _. by eapply reader_read.
Qed.

Lemma tracks_ext E F G P : (∀ al b, G al b = F al b) → tracks E F P → tracks E G P.
Proof.
  intros HFG [Hdown Hw Ha Hr Sw Sr]. split; intros *; rewrite ?HFG; eauto.
Qed.

Lemma edge_snoc ds l j i : edge (ds ++ [l]) j i ↔ edge ds j i ∨ (j = length ds ∧ i ∈ l).
Proof.
  unfold edge. split.
  - intros (l' & Hl & Hi). apply lookup_snoc_Some in Hl as [[? Hl]|[-> ->]]; eauto.
  - intros [(l' & Hl & Hi)|[-> Hi]].
    + exists l'. split; [|done]. by apply lookup_app_l_Some.
    + exists l. split; [|done]. by apply list_lookup_middle.
Qed.

Lemma touches_snoc ops us i al b a :
  touches (ops ++ [us]) i al b a ↔
  touches ops i al b a ∨ (i = length ops ∧ ∃ u, u ∈ us ∧ allocation u = al
     ∧ in_range b (range u) ∧ access u = a).
Proof.
  unfold touches. split.
  - intros (us' & u & Hus & Hu). apply lookup_snoc_Some in Hus as [[? Hus]|[-> ->]]; eauto 10.
  - intros [(us' & u & Hus & Hu)|[-> (u & Hu)]].
    + exists us', u. split; [|done]. by apply lookup_app_l_Some.
    + exists us, u. split; [|done]. by apply list_lookup_middle.
Qed.

Lemma touches_lt ops i al b a : touches ops i al b a → (i < length ops)%nat.
Proof. intros (us & u & Hus & _). by eapply lookup_lt_Some. Qed.

(** A fully tracked history orders the last operation after every hazard. *)
Lemma tracks_hazard E F P i j al b ai aj :
  tracks E F P → (∀ i al b a, P i al b a → (i <= j)%nat) → (i < j)%nat →
  P i al b ai → P j al b aj → (writes ai = true ∨ writes aj = true) → tc E j i.
Proof.
  intros [Hdown Hw Ha Hr Sw Sr] Hmax Hij Hi Hj Hwr.
  assert (Htc : ∀ w, (w <= j)%nat → w = j → rtc E w i → tc E j i).
  { intros w _ -> H. apply rtc_tc in H as [->|?]; [lia|done]. }
  assert (Hle : ∀ w, (F al b).1 = Some w → (w <= j)%nat).
  { intros w Hf. destruct (Sw _ _ _ Hf) as (a & HP & _). by eapply Hmax. }
  assert (Htop : ∀ w, (F al b).1 = Some w → rtc E w j → w = j).
  { intros w Hf Hr'. apply rtc_down in Hr'; [|done]. apply Hle in Hf. lia. }
  destruct (writes aj) eqn:Hwj.
  - (* the last operation wrote the byte: it is the recorded writer *)
    destruct (Hw _ _ _ _ Hj Hwj) as (w & Hf & Hwj').
    pose proof (Htop w Hf Hwj') as ->.
    destruct (Ha _ _ _ _ Hi) as [Hrd|(w' & Hf' & Hwi)].
    + apply (Hr _ _ _ _ Hrd) in Hf. apply rtc_down in Hf; [lia|done].
    + apply (Htc w'); [by apply Hle|congruence|done].
  - (* it read the byte, and the earlier operation wrote it *)
    destruct Hwr as [Hwi|]; [|done].
    destruct (Hw _ _ _ _ Hi Hwi) as (w & Hf & Hwi').
    destruct (Ha _ _ _ _ Hj) as [Hrd|(w' & Hf' & Hwj')].
    + assert (Hji : rtc E j i) by (etrans; [by eapply Hr|done]).
      apply rtc_tc in Hji as [->|?]; [lia|done].
    + assert (w' = w) as -> by congruence. apply (Htc w); [by apply Hle|by apply Htop|done].
Qed.

(** The recorded prefix: tracked, ordered, and with no spurious edge. *)
Record recorded (ops : list (list Use)) (ds : list (list nat)) (f : Frontier) : Prop := {
  rec_length : length ds = length ops;
  rec_wf : wf f;
  rec_tracks : tracks (edge ds) (cells f) (touches ops);
  rec_complete : ∀ i j, (i < j)%nat → hazard ops i j → tc (edge ds) j i;
  rec_sound : ∀ i j, edge ds j i → (i < j)%nat ∧ hazard ops i j }.

Lemma recorded_empty : recorded [] [] ∅.
Proof.
  assert (Ht : ∀ i al b a, ¬ touches [] i al b a).
  { intros i al b a (us & u & Hus & _). by rewrite lookup_nil in Hus. }
  assert (He : ∀ j i, ¬ edge [] j i). { intros j i (l & Hl & _). by rewrite lookup_nil in Hl. }
  split; [done|apply wf_empty| | |].
  - split; intros *; unfold cells; rewrite ?lookup_empty; simpl; try naive_solver; set_solver.
  - intros i j _ (al & b & ai & aj & H & _). by apply Ht in H.
  - intros i j H. by apply He in H.
Qed.

Lemma recorded_step ops ds f us :
  recorded ops ds f →
  ∃ f' l, dependencies f (length ops) us = Some (f', l) ∧ recorded (ops ++ [us]) (ds ++ [l]) f'.
Proof.
  intros [Hlen Hwf HT Hcomp Hsound].
  destruct (dependencies_spec f (length ops) us Hwf) as (f' & l & Hd & Hwf' & Hc & _ & _ & Hl).
  exists f', l. split; [done|].
  assert (Hold : ∀ i al b a, touches ops i al b a → touches (ops ++ [us]) i al b a).
  { intros *. rewrite touches_snoc. auto. }
  assert (Hsound' : ∀ i j, edge (ds ++ [l]) j i → (i < j)%nat ∧ hazard (ops ++ [us]) i j).
  { intros i j [He|[-> Hi]]%edge_snoc.
    - destruct (Hsound _ _ He) as (? & al & b & ai & aj & ? & ? & ?).
      split; [done|]. exists al, b, ai, aj. auto.
    - apply Hl in Hi as [Hne Hi].
      destruct (spec_deps_hazard _ _ _ _ _ _ HT Hi Hne) as (al & b & ad & u & Htd & Hu & ? & ? & ?).
      split; [rewrite Hlen; by eapply touches_lt|]. exists al, b, ad, (access u).
      split_and!; [by apply Hold| |done]. apply touches_snoc. right. split; [done|]. by exists u. }
  assert (HT' : tracks (edge (ds ++ [l])) (cells f') (touches (ops ++ [us]))).
  { eapply tracks_equiv; [intros *; symmetry; apply touches_snoc|].
    eapply tracks_ext; [exact Hc|]. apply tracks_uses.
    - eapply tracks_more_edges; [| |exact HT].
      + intros j i He. apply edge_snoc. by left.
      + intros j i He. by apply Hsound'.
    - intros d Hdd Hne. apply edge_snoc. right. split; [done|]. by apply Hl. }
  split; [rewrite !length_app; simpl; lia|done|done| |done].
  intros i j Hij (al & b & ai & aj & Hi & Hj & Hwr).
  pose proof (touches_lt _ _ _ _ _ Hj) as Hlt. rewrite length_app in Hlt; simpl in Hlt.
  destruct (decide (j = length ops)) as [->|Hne].
  - eapply (tracks_hazard _ _ _ _ _ _ _ _ _ HT'); [|done|exact Hi|exact Hj|done].
    intros i' * H. apply touches_lt in H. rewrite length_app in H; simpl in H. lia.
  - apply (tc_congruence id (R := edge ds)).
    { intros x y He. apply edge_snoc. by left. }
    apply Hcomp; [done|]. exists al, b, ai, aj.
    apply touches_snoc in Hi as [Hi|[-> _]]; [|lia].
    apply touches_snoc in Hj as [Hj|[-> _]]; [|lia]. done.
Qed.

(** Recording any sequence of operations succeeds. *)
Lemma record_all_recorded ops : ∃ ds f, record_all ops = Some ds ∧ recorded ops ds f.
Proof.
  assert (Hgen : ∀ rest ops ds f, recorded ops ds f →
    ∃ l f', record_from f (length ops) rest = Some l ∧ recorded (ops ++ rest) (ds ++ l) f').
  { induction rest as [|us rest IH]; intros ops0 ds f Hrec; simpl.
    { exists [], f. by rewrite !app_nil_r. }
    destruct (recorded_step _ _ _ us Hrec) as (f1 & l & -> & Hrec1). simpl.
    destruct (IH _ _ _ Hrec1) as (l2 & f2 & Hl2 & Hrec2).
    rewrite length_app, Nat.add_comm in Hl2. simpl in Hl2. rewrite Hl2. simpl.
    exists (l :: l2), f2. split; [done|]. by rewrite <-!app_assoc in Hrec2. }
  destruct (Hgen ops [] [] ∅ recorded_empty) as (ds & f & ? & ?). by exists ds, f.
Qed.

(** C4. The interval frontier refines the byte-indexed frontier: on every
    well-formed frontier [dependencies] terminates and keeps the segments
    sorted and disjoint; the nodes it returns, ascending and without
    repetition, are exactly the last writers of the bytes the operation
    accesses and the readers of the bytes it writes, itself excluded; and each
    byte afterwards has the writer and readers of the byte-by-byte update. *)
Theorem dependencies_refine_bytes f node uses :
  wf f →
  ∃ f' ds, dependencies f node uses = Some (f', ds)
    ∧ wf f'
    ∧ (∀ al b, cells f' al b = spec_uses node uses (cells f) al b)
    ∧ StronglySorted (≤)%nat ds ∧ NoDup ds
    ∧ (∀ d, d ∈ ds ↔ d ≠ node ∧ spec_uses_deps node uses (cells f) d).
Proof. apply dependencies_spec. Qed.

Lemma dependencies_refine_bytes_witness :
  ∃ f' ds, dependencies ∅ 0 [mkUse 7 (mkRange 0 64) Write] = Some (f', ds) ∧ ds = [].
Proof.
  destruct (dependencies_refine_bytes ∅ 0 [mkUse 7 (mkRange 0 64) Write] wf_empty)
    as (f' & ds & H & _).
  exists f', ds. split; [exact H|]. vm_compute in H. injection H as _ <-. reflexivity.
Defined.

(** C5. Recording a sequence of operations succeeds and orders exactly the
    hazards: an earlier operation that accesses a common byte of an allocation,
    with at least one of the two writing it, is reached from the later one
    through dependency edges; and every edge points to an earlier operation
    that conflicts with it. *)
Theorem recorded_edges_order_hazards ops :
  ∃ ds, record_all ops = Some ds
    ∧ length ds = length ops
    ∧ (∀ i j, (i < j)%nat → hazard ops i j → tc (edge ds) j i)
    ∧ (∀ i j, edge ds j i → (i < j)%nat ∧ hazard ops i j).
Proof.
  destruct (record_all_recorded ops) as (ds & f & Hds & [Hlen _ _ Hc Hs]).
  by exists ds.
Qed.

End Frontier.
