(* ===== verification/BTreeMap.v ===== *)
(** * Ordered maps

    [std::collections::BTreeMap<usize, V>] as a list of bindings in ascending
    key order, so that iteration order is the list order. *)

From S2P Require Import Prelude.
Local Open Scope Z_scope.

Module BTree.
Section BTree.
Context {V : Type}.
Implicit Types m : list (Z * V).

(** [BTreeMap::get]. *)
Fixpoint get (k : Z) m : option V :=
  match m with
  | [] => None
  | (k', v) :: rest => if k =? k' then Some v else get k rest
  end.

(** [*map.entry(k).or_insert(d)] updated by [f]. *)
Fixpoint entry_or (k : Z) (d : V) (f : V → V) m : list (Z * V) :=
  match m with
  | [] => [(k, f d)]
  | (k', v) :: rest =>
      if k <? k' then (k, f d) :: (k', v) :: rest
      else if k =? k' then (k', f v) :: rest
      else (k', v) :: entry_or k d f rest
  end.

(** [BTreeMap::insert] (the previous value is dropped). *)
Definition insert (k : Z) (v : V) m : list (Z * V) := entry_or k v (λ _, v) m.

(** [BTreeMap::remove]. *)
Fixpoint remove (k : Z) m : list (Z * V) :=
  match m with
  | [] => []
  | (k', v) :: rest => if k =? k' then rest else (k', v) :: remove k rest
  end.

(** [map.range(lo..=hi).next()]: the first binding with a key in the interval. *)
Fixpoint first_in (lo hi : Z) m : option (Z * V) :=
  match m with
  | [] => None
  | (k, v) :: rest =>
      if (lo <=? k) && (k <=? hi) then Some (k, v) else first_in lo hi rest
  end.

(** Keys above [lo], strictly ascending. *)
Fixpoint sorted_from (lo : Z) m : Prop :=
  match m with
  | [] => True
  | (k, _) :: rest => lo < k ∧ sorted_from k rest
  end.
Definition sorted m : Prop := ∃ lo, sorted_from lo m.

Lemma sorted_from_weaken lo lo' m : lo' <= lo → sorted_from lo m → sorted_from lo' m.
Proof. destruct m as [|[k v] m]; simpl; [done|]. intros ? [??]. split; [lia|done]. Qed.

Lemma sorted_nil : sorted [].
Proof. by exists 0. Qed.

Lemma entry_or_sorted_from lo k d f m :
  lo < k → sorted_from lo m → sorted_from lo (entry_or k d f m).
Proof.
  revert lo; induction m as [|[k' v] m IH]; intros lo Hk Hm; simpl in *; [done|].
  destruct Hm as [? Hm]. repeat case_bool; simpl.
  - split_and!; [done|lia|done].
  - split; [done|]. by subst.
  - split; [done|]. apply IH; [lia|done].
Qed.

Lemma entry_or_sorted k d f m : sorted m → sorted (entry_or k d f m).
Proof.
  intros [lo Hm]. exists (Z.min lo (k - 1)). apply entry_or_sorted_from; [lia|].
  eapply sorted_from_weaken; [|done]. lia.
Qed.

Lemma remove_sorted_from lo k m : sorted_from lo m → sorted_from lo (remove k m).
Proof.
  revert lo; induction m as [|[k' v] m IH]; intros lo Hm; simpl in *; [done|].
  destruct Hm as [? Hm]. case_bool; simpl; [|split; [done|by apply IH]].
  eapply sorted_from_weaken; [|done]. lia.
Qed.

Lemma get_below lo k m : sorted_from lo m → k <= lo → get k m = None.
Proof.
  revert lo; induction m as [|[k' v] m IH]; intros lo Hm Hk; simpl in *; [done|].
  destruct Hm as [? Hm]. case_bool; [lia|]. by apply (IH k'); [|lia].
Qed.

Lemma get_entry_or k d f m k' :
  sorted m →
  get k' (entry_or k d f m)
  = if decide (k' = k) then Some (f (default d (get k m))) else get k' m.
Proof.
  intros [lo Hm]. revert lo Hm.
  induction m as [|[k0 v] m IH]; intros lo Hm; simpl in *.
  { case_decide; [subst; by rewrite Z.eqb_refl|]. by rewrite (proj2 (Z.eqb_neq _ _)). }
  destruct Hm as [? Hm]. destruct (k <? k0) eqn:E1; to_prop; simpl.
  { case_decide; [subst; rewrite Z.eqb_refl|by rewrite (proj2 (Z.eqb_neq k' k))].
    rewrite (proj2 (Z.eqb_neq k k0)) by lia. by rewrite (get_below _ _ _ Hm) by lia. }
  destruct (k =? k0) eqn:E2; to_prop; simpl.
  { subst k0. case_decide; [subst; by rewrite Z.eqb_refl|].
    by rewrite (proj2 (Z.eqb_neq k' k)). }
  rewrite (IH _ Hm). repeat case_decide; repeat case_bool; subst; try done; lia.
Qed.

Lemma get_remove k m k' :
  sorted m → get k' (remove k m) = if decide (k' = k) then None else get k' m.
Proof.
  intros [lo Hm]. revert lo Hm.
  induction m as [|[k0 v] m IH]; intros lo Hm; simpl in *; [by case_decide|].
  destruct Hm as [? Hm]. destruct (k =? k0) eqn:E; to_prop; simpl.
  - subst k0. case_decide; [subst|by rewrite (proj2 (Z.eqb_neq k' k))].
    by apply (get_below k); [|lia].
  - rewrite (IH _ Hm). repeat case_decide; repeat case_bool; subst; try done; lia.
Qed.

Lemma elem_of_get k v m : sorted m → (k, v) ∈ m ↔ get k m = Some v.
Proof.
  intros [lo Hm]. revert lo Hm.
  induction m as [|[k0 v0] m IH]; intros lo Hm; simpl in *.
  { split; [by intros ?%elem_of_nil|done]. }
  destruct Hm as [? Hm]. rewrite elem_of_cons, (IH _ Hm). case_bool.
  - subst k0. split; [|intros [= ->]; by left].
    intros [[= ->]|Hg]; [reflexivity|]. rewrite (get_below _ _ _ Hm) in Hg by lia. done.
  - split; [intros [[= -> ->]|?]; [lia|done]|by right].
Qed.

Lemma elem_of_entry_or k d f m k' v :
  (k', v) ∈ entry_or k d f m → k' = k ∨ (k', v) ∈ m.
Proof.
  induction m as [|[k0 v0] m IH]; simpl.
  { intros [= -> _]%list_elem_of_singleton. by left. }
  repeat case_bool.
  - intros [[= -> _]|?]%elem_of_cons; [by left|by right].
  - subst k0. intros [[= -> _]|?]%elem_of_cons; [by left|right; by apply elem_of_cons; right].
  - intros [[= -> ->]|Hin]%elem_of_cons; [right; by apply elem_of_cons; left|].
    destruct (IH Hin); [by left|right; by apply elem_of_cons; right].
Qed.

Lemma first_in_Some lo hi m k v :
  first_in lo hi m = Some (k, v) → (k, v) ∈ m ∧ lo <= k <= hi.
Proof.
  induction m as [|[k0 v0] m IH]; simpl; [done|]. case_bool.
  - intros [= <- <-]. split; [apply elem_of_cons; by left|lia].
  - intros [??]%IH. split; [|done]. apply elem_of_cons. by right.
Qed.

Lemma first_in_least lo hi m k v k' v' :
  sorted m → first_in lo hi m = Some (k, v) → (k', v') ∈ m → lo <= k' <= hi → k <= k'.
Proof.
  intros [b Hm]. revert b Hm.
  induction m as [|[k0 v0] m IH]; intros b Hm Hf Hin Hk; simpl in *; [done|].
  destruct Hm as [? Hm].
  assert (Hge : ∀ m k0, sorted_from k0 m → ∀ x y, (x, y) ∈ m → k0 < x).
  { clear. induction m as [|[a c] m IHm]; intros k0 Hs x y Hx; [by apply elem_of_nil in Hx|].
    destruct Hs. apply elem_of_cons in Hx as [[= -> ->]|Hx]; [done|].
    etransitivity; [done|]. by eapply IHm. }
  apply elem_of_cons in Hin as [[= -> ->]|Hin]; case_bool.
  - by injection Hf as <- <-.
  - exfalso. repeat case_bool; lia.
  - injection Hf as <- <-. apply (Hge _ _ Hm) in Hin. lia.
  - by eapply IH.
Qed.

Lemma first_in_None lo hi m k v :
  first_in lo hi m = None → (k, v) ∈ m → ¬ (lo <= k <= hi).
Proof.
  induction m as [|[k0 v0] m IH]; simpl; [by intros _ ?%elem_of_nil|].
  case_bool; [done|]. intros Hf [[= <- <-]|Hin]%elem_of_cons; [lia|auto].
Qed.

End BTree.
End BTree.
