(* ===== verification/BufferView.v ===== *)
(** * Tracked allocations and checked views

    The immutable part of [Storage], [Buffer] and [BufferView] of
    src/src/execution/buffer.rs: bounds, overlap and conflict of views. The
    mutable lease and cache state is in [Buffer]. *)

From S2P Require Import Prelude Access.
Local Open Scope Z_scope.

Module View.

(** [Storage], fixed fields: [st_id] is the identity of its [Arc] (its
    address), [st_mapped] says that [pointer] is not null, [st_gpu] and
    [st_native] that these handles are present, [st_runtime] is the identity of
    the owning runtime. *)
Record Storage : Type := mkStorage {
  st_id : Z;
  st_bytes : Z;
  st_shared : bool;
  st_mapped : bool;
  st_gpu : bool;
  st_native : bool;
  st_runtime : nat }.

(** [BufferView]: [retained] lists the identities of the retained owners. *)
Record BufferView : Type := mkView {
  storage : Storage;
  view_range : Range;
  retained : list nat }.

Global Instance storage_eq_dec : EqDecision Storage.
Proof. solve_decision. Defined.
Global Instance view_eq_dec : EqDecision BufferView.
Proof. solve_decision. Defined.

(** [Buffer::view]. *)
Definition buffer_view (s : Storage) : BufferView := mkView s (mkRange 0 (st_bytes s)) [].

(** [BufferView::len], [is_empty], [offset]. *)
Definition len (v : BufferView) : Z := range_len (view_range v).
Definition is_empty (v : BufferView) : bool := range_is_empty (view_range v).
Definition offset (v : BufferView) : Z := start (view_range v).

(** [BufferView::slice]. *)
Definition slice (v : BufferView) (r : Range) : Result BufferView :=
  if (stop r <? start r) || (len v <? stop r) then
    Err (Message "buffer view is out of bounds")
  else
    Ok (mkView (storage v) (mkRange (offset v + start r) (offset v + stop r)) (retained v)).

(** [BufferView::retain]. *)
Definition retain (v : BufferView) (owner : nat) : BufferView :=
  mkView (storage v) (view_range v) (retained v ++ [owner]).

(** [Arc::ptr_eq(&self.buffer.storage, &other.buffer.storage)]. *)
Definition same_storage (v w : BufferView) : bool := st_id (storage v) =? st_id (storage w).

(** [BufferView::overlaps], [same_region], [conflicts]. *)
Definition overlaps (v w : BufferView) : bool :=
  same_storage v w
  && (start (view_range v) <? stop (view_range w))
  && (start (view_range w) <? stop (view_range v)).
Definition same_region (v w : BufferView) : bool :=
  same_storage v w && bool_decide (view_range v = view_range w).
Definition conflicts (v w : BufferView) : bool :=
  same_storage v w && (st_shared (storage v) || overlaps v w).

(** [region] of src/src/execution/dependencies.rs: cache maintenance of shared
    allocations covers the whole allocation. *)
Definition region (v : BufferView) : Z * Range :=
  (st_id (storage v),
   if st_shared (storage v) then mkRange 0 (st_bytes (storage v)) else view_range v).

Global Arguments region : simpl never.

(** A view lies inside its allocation. *)
Definition valid (v : BufferView) : Prop :=
  0 <= start (view_range v) <= stop (view_range v)
  ∧ stop (view_range v) <= st_bytes (storage v).

Lemma buffer_view_valid s : 0 <= st_bytes s → valid (buffer_view s).
Proof. unfold valid; simpl; lia. Qed.

Lemma slice_Ok v r w :
  slice v r = Ok w ↔
  start r <= stop r <= len v
  ∧ w = mkView (storage v) (mkRange (offset v + start r) (offset v + stop r)) (retained v).
Proof. unfold slice. case_bool; naive_solver lia. Qed.

Lemma slice_valid v r w : valid v → 0 <= start r → slice v r = Ok w → valid w.
Proof.
  unfold valid. intros Hv Hr [? ->]%slice_Ok. unfold len, range_len, offset in *; simpl. lia.
Qed.

(** A slice of a slice is the slice of the composed range: relative offsets
    add up, the storage and the retained owners are kept, and the checks of the
    two steps accept exactly when the composed range fits the outer view. *)
Theorem slice_slice v r1 r2 w :
  0 <= start r1 → 0 <= start r2 → slice v r1 = Ok w →
  slice w r2 = if (stop r2 <? start r2) || (range_len r1 <? stop r2)
               then Err (Message "buffer view is out of bounds")
               else slice v (mkRange (start r1 + start r2) (start r1 + stop r2)).
Proof.
  intros H1 H2 [Hr ->]%slice_Ok. unfold slice, len, offset, range_len in *; simpl.
  replace (Z.max 0 (start (view_range v) + stop r1 - (start (view_range v) + start r1)))
    with (Z.max 0 (stop r1 - start r1)) by lia.
  repeat case_bool; try done; try lia. f_equal. f_equal. f_equal; lia.
Qed.

Definition storage_example : Storage := mkStorage 1 64 false true true true 0.

Lemma slice_slice_witness :
  slice (buffer_view storage_example) (mkRange 8 40) = Ok (mkView storage_example (mkRange 8 40) [])
  ∧ slice (mkView storage_example (mkRange 8 40) []) (mkRange 4 16)
    = slice (buffer_view storage_example) (mkRange 12 24).
Proof.
  split; [reflexivity|].
  exact (slice_slice (buffer_view storage_example) (mkRange 8 40) (mkRange 4 16) _
    ltac:(simpl; lia) ltac:(simpl; lia) eq_refl).
Defined.

End View.
