(* ===== verification/Dependencies.v ===== *)
(** * Access summaries

    Model of src/src/execution/dependencies.rs: [summarize] unions the accesses
    of a graph into canonical disjoint intervals and [conflicts] sweeps two
    summaries.  The theorems show that a summary covers exactly the bytes, with
    exactly the access, of the uses it summarizes, and that the sweep decides
    whether two submissions touch a common byte with a write. *)

From S2P Require Import Prelude Access DependencyFrontier BTreeMap BufferView.
Local Open Scope Z_scope.

Module Deps.

(** [graph::Use]. *)
Record Use : Type := mkUse { view : View.BufferView; access : Access }.

(** ** Operations *)

(** [Frontier::dependencies] of this file: the interval frontier on regions. *)
Definition interval_use (u : Use) : Frontier.Use :=
  Frontier.mkUse (View.region (view u)).1 (View.region (view u)).2 (access u).
Definition dependencies (f : Frontier.Frontier) (node : nat) (uses : list Use)
    : option (Frontier.Frontier * list nat) :=
  Frontier.dependencies f node (interval_use <$> uses).

(** [BTreeMap<usize, (i64, i64)>]: changes of the read and write counts. *)
Abbreviation Events := (list (Z * (Z * Z))).

Definition add_event (position dr dw : Z) (events : Events) : Events :=
  BTree.entry_or position (0, 0) (λ c, (c.1 + dr, c.2 + dw)) events.

(** Keep an owner once: [if !root.retained.iter().any(..ptr_eq..)]. *)
Definition retain_once (root : View.BufferView) (owner : nat) : View.BufferView :=
  if bool_decide (owner ∈ View.retained root) then root else View.retain root owner.

(** One iteration of [for usage in uses]. *)
Definition add_use (m : list (Z * (View.BufferView * Events))) (u : Use)
    : list (Z * (View.BufferView * Events)) :=
  let '(id, r) := View.region (view u) in
  let read := Z.b2z (reads (access u)) in
  let write := Z.b2z (writes (access u)) in
  BTree.entry_or id (view u, [])
    (λ e, (foldl retain_once e.1 (View.retained (view u)),
           add_event (stop r) (- read) (- write) (add_event (start r) read write e.2))) m.

(** The access of an interval with these counts. *)
Definition access_of (c : Z * Z) : Access :=
  match negb (c.1 =? 0), negb (c.2 =? 0) with
  | true, true => ReadWrite
  | false, true => Write
  | _, _ => Read
  end.

(** Extend the last interval or push a new one; [output] holds the emitted
    intervals, the most recent first. *)
Definition emit (root : View.BufferView) (previous position : Z) (a : Access)
    (output : list Use) : list Use :=
  let fresh :=
    mkUse (View.mkView (View.storage root) (mkRange previous position) (View.retained root)) a in
  match output with
  | last :: older =>
      if View.same_storage (view last) root && bool_decide (access last = a)
         && (stop (View.view_range (view last)) =? previous)
      then mkUse (View.mkView (View.storage (view last))
                    (mkRange (start (View.view_range (view last))) position)
                    (View.retained (view last))) (access last) :: older
      else fresh :: last :: older
  | [] => [fresh]
  end.

(** [for (position, (read, write)) in events]. *)
Fixpoint emit_events (root : View.BufferView) (events : Events) (counts : Z * Z)
    (previous : Z) (output : list Use) : list Use :=
  match events with
  | [] => output
  | (position, (dr, dw)) :: rest =>
      let output :=
        if (previous <? position) && (negb (counts.1 =? 0) || negb (counts.2 =? 0))
        then emit root previous position (access_of counts) output else output in
      emit_events root rest (counts.1 + dr, counts.2 + dw) position output
  end.

(** [for (_, (root, events)) in allocations]. *)
Fixpoint emit_all (m : list (Z * (View.BufferView * Events))) (output : list Use) : list Use :=
  match m with
  | [] => output
  | (_, (root, events)) :: rest => emit_all rest (emit_events root events (0, 0) 0 output)
  end.

(** [summarize]. *)
Definition summarize (uses : list Use) : list Use :=
  reverse (emit_all (foldl add_use [] uses) []).

(** [conflicts]: both indices only advance, so the loop is structural. *)
Fixpoint conflicts (a b : list Use) : bool :=
  match a with
  | [] => false
  | x :: a' =>
      (fix sweep (b : list Use) : bool :=
         match b with
         | [] => false
         | y :: b' =>
             let '(ai, ar) := View.region (view x) in
             let '(bi, br) := View.region (view y) in
             if (ai <? bi) || ((ai =? bi) && (stop ar <=? start br)) then conflicts a' (y :: b')
             else if (bi <? ai) || (stop br <=? start ar) then sweep b'
             else if writes (access x) || writes (access y) then true
             else if stop ar <=? stop br then conflicts a' (y :: b')
             else sweep b'
         end) b
  end.

(** ** Specification *)

(** The use accesses byte [x] of allocation [al]. *)
Definition covers (u : Use) (al x : Z) : Prop :=
  (View.region (view u)).1 = al ∧ in_range x (View.region (view u)).2.

(** Two uses touch a common byte and one of them writes it. *)
Definition clash (u v : Use) : Prop :=
  ∃ al x, covers u al x ∧ covers v al x ∧ (writes (access u) = true ∨ writes (access v) = true).

(** Uses of one runtime: regions start at 0 or above and are not inverted, and
    an allocation address identifies one storage. *)
Definition coherent (uses : list Use) : Prop :=
  (∀ u, u ∈ uses → 0 <= start (View.region (view u)).2 <= stop (View.region (view u)).2)
  ∧ (∀ u v, u ∈ uses → v ∈ uses →
      View.st_id (View.storage (view u)) = View.st_id (View.storage (view v)) →
      View.storage (view u) = View.storage (view v)).

(** Sorted by allocation then offset, disjoint and nonempty, by region. *)
Definition precedes (u v : Use) : Prop :=
  (View.region (view u)).1 < (View.region (view v)).1
  ∨ ((View.region (view u)).1 = (View.region (view v)).1
     ∧ stop (View.region (view u)).2 <= start (View.region (view v)).2).
Definition canonical (uses : list Use) : Prop :=
  StronglySorted precedes uses
  ∧ Forall (λ u, start (View.region (view u)).2 < stop (View.region (view u)).2) uses.

Lemma canonical_cons u uses :
  canonical (u :: uses) ↔
  start (View.region (view u)).2 < stop (View.region (view u)).2
  ∧ Forall (precedes u) uses ∧ canonical uses.
Proof.
  unfold canonical. split.
  - intros [Hs Hf]. inversion_clear Hs. inversion_clear Hf. done.
  - intros (? & ? & ? & ?). split; by constructor.
Qed.

(** ** The sweep decides clashes *)

(** A use that ends before another clashes with nothing after it. *)
Lemma precedes_no_clash u v b :
  precedes u v → Forall (precedes v) b →
  start (View.region (view v)).2 < stop (View.region (view v)).2 →
  ∀ w, w ∈ v :: b → ¬ clash u w.
Proof.
  intros Huv Hvb Hne w Hw (al & x & [Hu1 Hu2] & [Hw1 Hw2] & _).
  unfold precedes, in_range in *. apply elem_of_cons in Hw as [->|Hw]; [lia|].
  rewrite Forall_forall in Hvb. specialize (Hvb _ Hw). lia.
Qed.

Lemma clash_sym u v : clash u v → clash v u.
Proof. intros (al & x & ? & ? & ?). exists al, x. tauto. Qed.

(** Two overlapping reads: the one that ends first clashes with nothing later. *)
Lemma read_ends_first_no_clash u v b :
  writes (access u) = false → writes (access v) = false →
  (View.region (view u)).1 = (View.region (view v)).1 →
  stop (View.region (view u)).2 <= stop (View.region (view v)).2 →
  Forall (precedes v) b → ∀ w, w ∈ v :: b → ¬ clash u w.
Proof.
  intros Hu Hv Hal Hend Hvb w Hw (al & x & [Hu1 Hu2] & [Hw1 Hw2] & Hwr).
  unfold precedes, in_range in *. apply elem_of_cons in Hw as [->|Hw]; [intuition congruence|].
  rewrite Forall_forall in Hvb. specialize (Hvb _ Hw). lia.
Qed.

(** Some use of [a] clashes with some use of [b]. *)
Definition clash_between (a b : list Use) : Prop := ∃ u v, u ∈ a ∧ v ∈ b ∧ clash u v.

Lemma clash_between_skip x a b :
  (∀ w, w ∈ b → ¬ clash x w) → clash_between (x :: a) b ↔ clash_between a b.
Proof.
  intros Hno. split; intros (u & v & Hu & Hv & Hc); exists u, v.
  - apply elem_of_cons in Hu as [->|Hu]; [by destruct (Hno v)|done].
  - split_and!; [by apply elem_of_cons; right|done|done].
Qed.

Lemma clash_between_sym a b : clash_between a b ↔ clash_between b a.
Proof.
  split; intros (u & v & Hu & Hv & Hc%clash_sym); by exists v, u.
Qed.

Lemma conflicts_cons x a y b :
  conflicts (x :: a) (y :: b)
  = let '(ai, ar) := View.region (view x) in
    let '(bi, br) := View.region (view y) in
    if (ai <? bi) || ((ai =? bi) && (stop ar <=? start br)) then conflicts a (y :: b)
    else if (bi <? ai) || (stop br <=? start ar) then conflicts (x :: a) b
    else if writes (access x) || writes (access y) then true
    else if stop ar <=? stop br then conflicts a (y :: b)
    else conflicts (x :: a) b.
Proof. reflexivity. Qed.

Lemma conflicts_spec a b :
  canonical a → canonical b → conflicts a b = true ↔ clash_between a b.
Proof.
  revert b; induction a as [|x a IHa]; intros b Ha Hb.
  { split; [done|]. by intros (u & v & ?%elem_of_nil & _). }
  induction b as [|y b IHb].
  { split; [done|]. by intros (u & v & _ & ?%elem_of_nil & _). }
  pose proof Ha as (Hxne & Hxa & Ha')%canonical_cons.
  pose proof Hb as (Hyne & Hyb & Hb')%canonical_cons.
  specialize (IHb Hb'). rewrite conflicts_cons.
  assert (Hskip_x : (∀ w, w ∈ y :: b → ¬ clash x w) →
    conflicts a (y :: b) = true ↔ clash_between (x :: a) (y :: b)).
  { intros Hno. rewrite clash_between_skip by done. by apply IHa. }
  assert (Hskip_y : (∀ w, w ∈ x :: a → ¬ clash y w) →
    conflicts (x :: a) b = true ↔ clash_between (x :: a) (y :: b)).
  { intros Hno. rewrite clash_between_sym, clash_between_skip by done.
    by rewrite clash_between_sym. }
  pose proof (precedes_no_clash x y b) as Hxy. pose proof (precedes_no_clash y x a) as Hyx.
  pose proof (read_ends_first_no_clash x y b) as Rxy.
  pose proof (read_ends_first_no_clash y x a) as Ryx.
  unfold precedes at 1 in Hxy. unfold precedes at 1 in Hyx.
  destruct (View.region (view x)) as [ai ar] eqn:Hx, (View.region (view y)) as [bi br] eqn:Hy.
  simpl in *.
  destruct (Z.ltb_spec ai bi); simpl; [by apply Hskip_x, Hxy; [lia|..]|].
  destruct (Z.eqb_spec ai bi); simpl; [|rewrite (proj2 (Z.ltb_lt bi ai)) by lia; simpl;
    by apply Hskip_y, Hyx; [lia|..]].
  destruct (Z.leb_spec (stop ar) (start br)); [by apply Hskip_x, Hxy; [lia|..]|].
  rewrite (proj2 (Z.ltb_ge bi ai)) by lia. simpl.
  destruct (Z.leb_spec (stop br) (start ar)); [by apply Hskip_y, Hyx; [lia|..]|].
  destruct (writes (access x)) eqn:Ewx, (writes (access y)) eqn:Ewy; simpl.
  1-3: split; [|done]; intros _; exists x, y; split_and!; [by left..|];
    exists bi, (Z.max (start ar) (start br)); unfold covers, in_range; rewrite Hx, Hy, Ewx, Ewy;
    simpl; split_and!; try lia; tauto.
  destruct (Z.leb_spec (stop ar) (stop br)); [by apply Hskip_x, Rxy|].
  apply Hskip_y, Ryx; try done. lia.
Qed.

(** ** Event maps count the covering uses *)

(** Net counts of the events at or before [x]. *)
Fixpoint sum_at (events : Events) (x : Z) : Z * Z :=
  match events with
  | [] => (0, 0)
  | (p, (dr, dw)) :: rest =>
      let c := sum_at rest x in if p <=? x then (c.1 + dr, c.2 + dw) else c
  end.

Lemma sum_at_add_event p dr dw events x :
  sum_at (add_event p dr dw events) x
  = if p <=? x then ((sum_at events x).1 + dr, (sum_at events x).2 + dw) else sum_at events x.
Proof.
  unfold add_event. induction events as [|[q [r w]] events IH]; simpl; [done|].
  destruct (Z.ltb_spec p q); simpl; [done|].
  destruct (Z.eqb_spec p q); simpl.
  - subst q. destruct (p <=? x); simpl; [f_equal; lia|done].
  - rewrite IH. destruct (p <=? x), (q <=? x); simpl; try done; f_equal; lia.
Qed.

(** Number of uses of allocation [al] that cover [x] and satisfy [P]. *)
Definition count_cov (P : Access → bool) (uses : list Use) (al x : Z) : Z :=
  foldr (λ u n, n + if bool_decide (covers u al x) then Z.b2z (P (access u)) else 0) 0 uses.

Global Instance covers_dec u al x : Decision (covers u al x).
Proof. unfold covers. apply _. Defined.

Lemma count_cov_nonneg P uses al x : 0 <= count_cov P uses al x.
Proof.
  induction uses as [|u uses IH]; simpl; [lia|]. destruct (P (access u)); case_bool_decide; simpl; lia.
Qed.

Lemma count_cov_pos P uses al x :
  count_cov P uses al x ≠ 0 ↔ ∃ u, u ∈ uses ∧ covers u al x ∧ P (access u) = true.
Proof.
  induction uses as [|u uses IH]; simpl.
  { split; [done|]. by intros (u & ?%elem_of_nil & _). }
  pose proof (count_cov_nonneg P uses al x). split.
  - intros Hn. case_bool_decide as Hc; [destruct (P (access u)) eqn:Ep|].
    + exists u. split_and!; [by left|done|done].
    + simpl in Hn. rewrite Z.add_0_r in Hn.
      apply IH in Hn as (v & ? & ?). exists v. split; [by right|done].
    + rewrite Z.add_0_r in Hn.
      apply IH in Hn as (v & ? & ?). exists v. split; [by right|done].
  - intros (v & [->|Hv]%elem_of_cons & Hc & Hp).
    + rewrite bool_decide_eq_true_2, Hp by done. simpl. lia.
    + assert (count_cov P uses al x ≠ 0) by (apply IH; eauto).
      destruct (P (access u)); case_bool_decide; simpl; lia.
Qed.

Lemma count_cov_app P us vs al x :
  count_cov P (us ++ vs) al x = count_cov P us al x + count_cov P vs al x.
Proof. induction us as [|u us IH]; simpl; [lia|]. fold (count_cov P (us ++ vs) al x). lia. Qed.

Lemma count_cov_one P u id r al x :
  View.region (view u) = (id, r) →
  count_cov P [u] al x
  = if (id =? al) && (start r <=? x) && (x <? stop r) then Z.b2z (P (access u)) else 0.
Proof.
  intros Hreg. unfold count_cov. cbn [foldr]. rewrite Z.add_0_l.
  assert (Hc : covers u al x ↔ (id = al ∧ start r <= x < stop r)).
  { unfold covers, in_range. by rewrite Hreg. }
  destruct (Z.eqb_spec id al), (Z.leb_spec (start r) x), (Z.ltb_spec x (stop r)); simpl;
    [rewrite bool_decide_eq_true_2 by (apply Hc; lia); done
    |rewrite bool_decide_eq_false_2 by (rewrite Hc; lia); done..].
Qed.

(** What the allocation map holds after [uses]. *)
Record counted (uses : list Use) (m : list (Z * (View.BufferView * Events))) : Prop := {
  counted_sorted : BTree.sorted m;
  counted_None : ∀ al, BTree.get al m = None → ∀ u, u ∈ uses → (View.region (view u)).1 ≠ al;
  counted_Some : ∀ al root events, BTree.get al m = Some (root, events) →
    (∃ u, u ∈ uses ∧ View.storage root = View.storage (view u)
      ∧ (View.region (view u)).1 = al)
    ∧ BTree.sorted_from (-1) events
    ∧ (∀ x, sum_at events x = (count_cov reads uses al x, count_cov writes uses al x))
    ∧ (∀ p e, (p, e) ∈ events → ∃ u, u ∈ uses ∧ (View.region (view u)).1 = al
        ∧ (p = start (View.region (view u)).2 ∨ p = stop (View.region (view u)).2)) }.

Lemma foldl_retain_storage owners root :
  View.storage (foldl retain_once root owners) = View.storage root.
Proof.
  revert root; induction owners as [|o owners IH]; intros root; simpl; [done|].
  rewrite IH. unfold retain_once. by case_bool_decide.
Qed.

Lemma counted_add uses m u :
  counted uses m → 0 <= start (View.region (view u)).2 <= stop (View.region (view u)).2 →
  counted (uses ++ [u]) (add_use m u).
Proof.
  intros [Hs HN HS] Hr. unfold add_use.
  destruct (View.region (view u)) as [id r] eqn:Hreg. simpl in Hr.
  split; [by apply BTree.entry_or_sorted| |].
  - intros al. rewrite BTree.get_entry_or by done. case_decide; [done|].
    intros Hal v [Hv| ->%list_elem_of_singleton]%elem_of_app; [by apply HN|].
    rewrite Hreg. simpl. congruence.
  - intros al root events. rewrite BTree.get_entry_or by done. case_decide as Hal.
    + subst al. set (old := default (view u, []) (BTree.get id m)). intros [= <- <-].
      assert (Hold : (∃ v, v ∈ uses ++ [u] ∧ View.storage old.1 = View.storage (view v)
          ∧ (View.region (view v)).1 = id)
        ∧ BTree.sorted_from (-1) old.2
        ∧ (∀ x, sum_at old.2 x = (count_cov reads uses id x, count_cov writes uses id x))
        ∧ ∀ p e, (p, e) ∈ old.2 → ∃ v, v ∈ uses ++ [u] ∧ (View.region (view v)).1 = id
            ∧ (p = start (View.region (view v)).2 ∨ p = stop (View.region (view v)).2)).
      { unfold old. destruct (BTree.get id m) as [[root events]|] eqn:Hg; simpl.
        - destruct (HS _ _ _ Hg) as ((v & ? & ? & ?) & ? & ? & Hk). split_and!; [|done|done|].
          + exists v. split; [by apply elem_of_app; left|done].
          + intros p e Hin. destruct (Hk _ _ Hin) as (w & ? & ?). exists w.
            split; [by apply elem_of_app; left|done].
        - split_and!; [|done| |by intros ?? ?%elem_of_nil].
          + exists u. split_and!; [apply elem_of_app; right; by left|done|].
            by apply (f_equal fst) in Hreg.
          + intros x.
            assert (Hz : ∀ P, count_cov P uses id x = 0).
            { intros P. destruct (decide (count_cov P uses id x = 0)) as [|Hne]; [done|].
              apply count_cov_pos in Hne as (v & Hv & [Hc _] & _). by apply (HN _ Hg) in Hv. }
            by rewrite !Hz. }
      destruct Hold as ((v & Hv & Hst & Hal) & Hsort & Hsum & Hkeys). split_and!.
      * exists v. by rewrite foldl_retain_storage.
      * unfold add_event. apply BTree.entry_or_sorted_from, BTree.entry_or_sorted_from; [lia..|done].
      * intros x. rewrite !sum_at_add_event, Hsum, !count_cov_app, !(count_cov_one _ _ _ _ _ _ Hreg).
        rewrite Z.eqb_refl. simpl.
        destruct (Z.leb_spec (start r) x), (Z.leb_spec (stop r) x), (Z.ltb_spec x (stop r));
          try lia; simpl; f_equal; lia.
      * intros p e [->|[->|Hin]%BTree.elem_of_entry_or]%BTree.elem_of_entry_or; [..|by eapply Hkeys];
          exists u; rewrite Hreg; (split_and!; [apply elem_of_app; right; by left|done|auto]).
    + intros Hg. destruct (HS _ _ _ Hg) as ((v & ? & ? & ?) & ? & Hsum & Hk). split_and!; [|done| |].
      * exists v. split; [by apply elem_of_app; left|done].
      * intros x. rewrite Hsum, !count_cov_app, !(count_cov_one _ _ _ _ _ _ Hreg).
        rewrite (proj2 (Z.eqb_neq id al)) by congruence. simpl. f_equal; lia.
      * intros p e Hin. destruct (Hk _ _ Hin) as (w & ? & ?). exists w.
        split; [by apply elem_of_app; left|done].
Qed.

Lemma counted_all uses : coherent uses → counted uses (foldl add_use [] uses).
Proof.
  intros [Hr _]. revert Hr. induction uses as [|u uses IH] using rev_ind; intros Hr.
  - split; [apply BTree.sorted_nil| |done]. by intros al _ u ?%elem_of_nil.
  - rewrite foldl_app. simpl. apply counted_add.
    + apply IH. intros v Hv. apply Hr. by apply elem_of_app; left.
    + apply Hr. apply elem_of_app; right. by left.
Qed.

(** ** Emitting the intervals *)

Definition use_id (u : Use) : Z := View.st_id (View.storage (view u)).
Definition use_range (u : Use) : Range := View.view_range (view u).

(** Some emitted interval holds byte [x] of [al] with access [a]. *)
Definition owns (output : list Use) (al x : Z) (a : Access) : Prop :=
  ∃ v, v ∈ output ∧ use_id v = al ∧ in_range x (use_range v) ∧ access v = a.

Lemma owns_cons v output al x a :
  owns (v :: output) al x a ↔
  (use_id v = al ∧ in_range x (use_range v) ∧ access v = a) ∨ owns output al x a.
Proof.
  unfold owns. split.
  - intros (w & [->|Hw]%elem_of_cons & H); [by left|right; eauto].
  - intros [H|(w & Hw & H)]; [exists v|exists w]; (split; [apply elem_of_cons; auto|done]).
Qed.

Lemma owns_reverse output al x a : owns (reverse output) al x a ↔ owns output al x a.
Proof. unfold owns. by setoid_rewrite elem_of_reverse. Qed.

(** The output so far: nonempty disjoint intervals in order, most recent
    first, those of allocation [id] ending at or before [bound]; the endpoints
    satisfy [Q]. *)
Record good (Q : View.Storage → Z → Prop) (id bound : Z) (output : list Use) : Prop := {
  good_sorted : StronglySorted (λ v w, use_id w < use_id v ∨
    (use_id w = use_id v ∧ stop (use_range w) <= start (use_range v))) output;
  good_nonempty : Forall (λ v, start (use_range v) < stop (use_range v)) output;
  good_bound : Forall (λ v, use_id v < id ∨
    (use_id v = id ∧ stop (use_range v) <= bound)) output;
  good_ends : Forall (λ v, Q (View.storage (view v)) (start (use_range v))
    ∧ Q (View.storage (view v)) (stop (use_range v))) output }.

Lemma good_weaken Q id bound bound' output :
  bound <= bound' → good Q id bound output → good Q id bound' output.
Proof.
  intros Hb [Hs Hn Hbd He]. split; try done. eapply Forall_impl; [exact Hbd|]. simpl. lia.
Qed.

Lemma good_next Q id bound id' bound' output :
  id < id' → good Q id bound output → good Q id' bound' output.
Proof.
  intros Hb [Hs Hn Hbd He]. split; try done. eapply Forall_impl; [exact Hbd|]. simpl. lia.
Qed.

Lemma emit_good Q root previous position a output :
  let id := View.st_id (View.storage root) in
  good Q id previous output → previous < position →
  Q (View.storage root) previous → Q (View.storage root) position →
  (∀ v, v ∈ output → use_id v = id → View.storage (view v) = View.storage root) →
  good Q id position (emit root previous position a output)
  ∧ (∀ v, v ∈ emit root previous position a output → use_id v = id →
      View.storage (view v) = View.storage root)
  ∧ (∀ al x a', owns (emit root previous position a output) al x a' ↔
      owns output al x a' ∨ (al = id ∧ previous <= x < position ∧ a' = a)).
Proof.
  intros id Hgood Hlt Hp Hq Hst.
  assert (Hfresh : good Q id position
    (mkUse (View.mkView (View.storage root) (mkRange previous position) (View.retained root)) a
     :: output)).
  { destruct Hgood as [Hs Hn Hb He]. split; constructor; unfold use_id, use_range in *; simpl;
      try done; try lia; (eapply Forall_impl; [exact Hb|]; simpl; lia). }
  destruct output as [|last older]; simpl.
  { split_and!; [done| |].
    - intros v ->%list_elem_of_singleton _. done.
    - intros al x a'. rewrite owns_cons. unfold use_id, use_range, in_range; simpl.
      split; [intros [(<- & ? & <-)|?]; [by right|by left]|].
      intros [?|(-> & ? & ->)]; [by right|by left]. }
  destruct (View.same_storage (view last) root && _ && _) eqn:Hmerge; to_prop.
  - assert (Hid : use_id last = id).
    { unfold View.same_storage in *. to_prop. done. }
    case_bool_decide; [|done]. subst a. destruct Hgood as [Hs Hn Hb He].
    inversion_clear Hs as [|?? Hs' Hf]. inversion_clear Hn as [|?? Hn1 Hn'].
    inversion_clear Hb as [|?? Hb1 Hb']. inversion_clear He as [|?? He1 He'].
    specialize (Hst last ltac:(by left)) as Hlast. split_and!.
    + split; constructor; unfold use_id, use_range in *; simpl; try done; try lia.
      * eapply Forall_impl; [exact Hb'|]. simpl. lia.
      * split; [tauto|]. rewrite Hlast by done. done.
    + intros v [->|Hv]%elem_of_cons Hv'; [by apply Hlast|]. apply Hst; [by right|done].
    + intros al x a'. rewrite !owns_cons. unfold use_id, use_range, in_range in *; simpl.
      split.
      * intros [(<- & ? & <-)|?]; [|by left; right].
        destruct (decide (x < stop (View.view_range (view last)))); [left; left|right]; intuition lia.
      * intros [[(<- & ? & <-)|?]|(-> & ? & ->)]; [left|by right|left]; split_and!; try done; lia.
  - split_and!; [done| |].
    + intros v [->|Hv]%elem_of_cons Hv'; [done|by apply Hst].
    + intros al x a'. rewrite (owns_cons _ (last :: older)).
      unfold use_id, use_range, in_range; simpl.
      split; [intros [(<- & ? & <-)|?]; [by right|by left]|].
      intros [?|(-> & ? & ->)]; [by right|by left].
Qed.

(** Events after [x] do not count at [x]. *)
Lemma sum_at_before lo events x : BTree.sorted_from lo events → x <= lo → sum_at events x = (0, 0).
Proof.
  revert lo; induction events as [|[p [dr dw]] events IH]; intros lo Hs Hx; simpl in *; [done|].
  destruct Hs as [? Hs]. rewrite (proj2 (Z.leb_gt p x)) by lia. by apply (IH p); [|lia].
Qed.

Definition add_counts (c d : Z * Z) : Z * Z := (c.1 + d.1, c.2 + d.2).

Lemma add_counts_zero c : add_counts c (0, 0) = c.
Proof. destruct c. unfold add_counts; simpl. f_equal; lia. Qed.

Lemma counts_nonzero (c : Z * Z) : negb (c.1 =? 0) || negb (c.2 =? 0) = bool_decide (c ≠ (0, 0)).
Proof.
  destruct c as [c1 c2]; simpl.
  destruct (Z.eqb_spec c1 0), (Z.eqb_spec c2 0); simpl; symmetry;
    [apply bool_decide_eq_false_2|apply bool_decide_eq_true_2..]; congruence.
Qed.

(** The output after the test of one event. *)
Definition emit_if (root : View.BufferView) (previous position : Z) (counts : Z * Z)
    (output : list Use) : list Use :=
  if (previous <? position) && (negb (counts.1 =? 0) || negb (counts.2 =? 0))
  then emit root previous position (access_of counts) output else output.

Lemma emit_if_spec Q root previous p counts output :
  let id := View.st_id (View.storage root) in
  previous <= p → good Q id previous output →
  (counts ≠ (0, 0) → Q (View.storage root) previous) → Q (View.storage root) p →
  (∀ v, v ∈ output → use_id v = id → View.storage (view v) = View.storage root) →
  good Q id p (emit_if root previous p counts output)
  ∧ (∀ v, v ∈ emit_if root previous p counts output → use_id v = id →
      View.storage (view v) = View.storage root)
  ∧ (∀ al x a, owns (emit_if root previous p counts output) al x a ↔ owns output al x a
      ∨ (al = id ∧ previous <= x < p ∧ counts ≠ (0, 0) ∧ a = access_of counts)).
Proof.
  intros id Hle Hg Hc HQp Hst. unfold emit_if. rewrite counts_nonzero.
  assert (Hskip : previous = p ∨ counts = (0, 0) → good Q id p output
    ∧ (∀ v, v ∈ output → use_id v = id → View.storage (view v) = View.storage root)
    ∧ (∀ al x a, owns output al x a ↔ owns output al x a
        ∨ (al = id ∧ previous <= x < p ∧ counts ≠ (0, 0) ∧ a = access_of counts))).
  { intros Hs. split_and!; [by eapply good_weaken; [|done]; lia|done|].
    intros *. split; [by left|]. intros [?|(_ & ? & ? & _)]; [done|]. destruct Hs; [lia|done]. }
  destruct (Z.ltb_spec previous p); simpl; [|apply Hskip; lia].
  case_bool_decide as Hz; [|apply Hskip; right; by destruct (decide (counts = (0, 0)))].
  destruct (emit_good Q root previous p (access_of counts) output) as (G1 & G2 & G3); auto.
  split_and!; [done|done|]. intros *. rewrite G3. intuition.
Qed.

(** Processing the remaining events of one allocation: byte [x] from [previous]
    on is emitted exactly when its counts are not both zero, with their access. *)
Lemma emit_events_spec Q root events counts previous output :
  let id := View.st_id (View.storage root) in
  BTree.sorted_from (previous - 1) events →
  good Q id previous output →
  (counts ≠ (0, 0) → Q (View.storage root) previous) →
  (∀ p e, (p, e) ∈ events → Q (View.storage root) p) →
  (∀ v, v ∈ output → use_id v = id → View.storage (view v) = View.storage root) →
  (∃ last, ∀ x, last <= x → add_counts counts (sum_at events x) = (0, 0)) →
  ∃ bound, good Q id bound (emit_events root events counts previous output)
  ∧ (∀ al x a, owns (emit_events root events counts previous output) al x a ↔
      owns output al x a
      ∨ (al = id ∧ previous <= x ∧ add_counts counts (sum_at events x) ≠ (0, 0)
         ∧ a = access_of (add_counts counts (sum_at events x)))).
Proof.
  intros id. revert counts previous output.
  induction events as [|[p [dr dw]] events IH];
    intros counts previous output Hs Hg Hc HQ Hst [last Hlast].
  { exists previous. split; [done|]. intros al x a. specialize (Hlast last). simpl in *.
    rewrite !add_counts_zero in *. rewrite Hlast by lia.
    split; [by left|]. intros [?|(_ & _ & ? & _)]; done. }
  simpl in Hs. destruct Hs as [Hp Hs].
  (* the counts between [previous] and [p] are the current counts *)
  assert (Hmid : ∀ x, previous <= x < p →
    add_counts counts (sum_at ((p, (dr, dw)) :: events) x) = counts).
  { intros x Hx. simpl. rewrite (proj2 (Z.leb_gt p x)) by lia.
    rewrite (sum_at_before p) by (done || lia). apply add_counts_zero. }
  assert (Hend : ∀ x, p <= x → add_counts (counts.1 + dr, counts.2 + dw) (sum_at events x)
    = add_counts counts (sum_at ((p, (dr, dw)) :: events) x)).
  { intros x Hx. simpl. rewrite (proj2 (Z.leb_le p x)) by lia.
    unfold add_counts; simpl. f_equal; lia. }
  destruct (emit_if_spec Q root previous p counts output) as (Hg' & Hst' & Hown'); auto; [lia| |].
  { apply (HQ p (dr, dw)). by left. }
  destruct (IH (counts.1 + dr, counts.2 + dw) p (emit_if root previous p counts output))
    as (bound & HgF & HownF); auto.
  - eapply BTree.sorted_from_weaken; [|done]. lia.
  - intros _. apply (HQ p (dr, dw)). by left.
  - intros q e Hq. apply (HQ q e). by right.
  - exists (Z.max last p). intros x Hx. rewrite Hend by lia. apply Hlast. lia.
  - exists bound. split; [done|]. intros al x a. change (emit_events root ((p, (dr, dw)) :: events)
      counts previous output) with (emit_events root events (counts.1 + dr, counts.2 + dw) p
        (emit_if root previous p counts output)).
    rewrite HownF, Hown'. destruct (decide (x < p)).
    + split; [intros [[?|(-> & ? & ? & ?)]|(_ & ? & _)]; [by left|right|lia]
             |intros [?|(-> & ? & Hn & ->)]; [by left; left|left; right]];
        rewrite Hmid in * by lia; split_and!; done || lia.
    + rewrite Hend by lia.
      split; [intros [[?|(_ & ? & _)]|(-> & ? & ? & ->)]; [by left|lia|right]
             |intros [?|(-> & ? & Hn & ->)]; [by left; left|right]];
        split_and!; done || lia.
Qed.

(** The events of all allocations, in ascending order of address. *)
Lemma emit_all_spec Q m lo output :
  BTree.sorted_from lo m →
  (∀ al root events, (al, (root, events)) ∈ m →
    View.st_id (View.storage root) = al
    ∧ BTree.sorted_from (-1) events
    ∧ (∀ p e, (p, e) ∈ events → Q (View.storage root) p)
    ∧ (∃ last, ∀ x, last <= x → sum_at events x = (0, 0))) →
  (∃ bound, good Q lo bound output) →
  (∃ id bound, good Q id bound (emit_all m output))
  ∧ (∀ al x a, owns (emit_all m output) al x a ↔
      owns output al x a
      ∨ ∃ root events, (al, (root, events)) ∈ m ∧ 0 <= x ∧ sum_at events x ≠ (0, 0)
          ∧ a = access_of (sum_at events x)).
Proof.
  revert lo output. induction m as [|[id [root events]] m IH]; intros lo output Hs Hm [bound0 Hg].
  { simpl. split; [eauto|]. intros *. split; [by left|].
    by intros [?|(? & ? & ?%elem_of_nil & _)]. }
  destruct Hs as [Hlt Hs].
  destruct (Hm id root events ltac:(by left)) as (Hroot & Hse & Hends & last & Hlast).
  assert (Hzero : ∀ x, add_counts (0, 0) (sum_at events x) = sum_at events x).
  { intros x. destruct (sum_at events x). done. }
  destruct (emit_events_spec Q root events (0, 0) 0 output) as (bound & HgE & HownE); auto.
  { rewrite Hroot. by eapply good_next. }
  { done. }
  { intros v Hv. rewrite Hroot. pose proof (good_bound _ _ _ _ Hg) as Hb.
    rewrite Forall_forall in Hb. apply Hb in Hv. lia. }
  { exists last. intros x Hx. rewrite Hzero. auto. }
  rewrite Hroot in *.
  destruct (IH id (emit_events root events (0, 0) 0 output)) as (HgF & HownF); auto.
  - intros al r e Hin. apply Hm. by right.
  - by exists bound.
  - split; [done|]. intros al x a. simpl. rewrite HownF, HownE, Hzero. split.
    + intros [[?|(-> & ? & ? & ?)]|(r & e & Hin & ?)]; [by left|right..].
      * exists root, events. split; [by left|done].
      * exists r, e. split; [by right|done].
    + intros [?|(r & e & [[= -> -> ->]|Hin]%elem_of_cons & ?)]; [by left; left|by left; right|].
      right. by exists r, e.
Qed.

(** ** Summaries *)

(** The endpoints a summary may use: those of the regions summarized. *)
Definition region_end (uses : list Use) (s : View.Storage) (p : Z) : Prop :=
  ∃ u, u ∈ uses ∧ View.storage (view u) = s
    ∧ (p = start (View.region (view u)).2 ∨ p = stop (View.region (view u)).2).

Lemma count_cov_beyond P uses al :
  ∃ last, ∀ x, last <= x → count_cov P uses al x = 0.
Proof.
  induction uses as [|u uses [last Hlast]]; [by exists 0|].
  exists (Z.max last (stop (View.region (view u)).2)). intros x Hx. simpl.
  rewrite Hlast, bool_decide_eq_false_2; [done| |lia].
  unfold covers, in_range. lia.
Qed.

(** The counts of byte [x] of allocation [al] over [uses]. *)
Definition counts_at (uses : list Use) (al x : Z) : Z * Z :=
  (count_cov reads uses al x, count_cov writes uses al x).

Lemma counts_at_covered uses al x :
  counts_at uses al x ≠ (0, 0) ↔ ∃ u, u ∈ uses ∧ covers u al x.
Proof.
  unfold counts_at. split.
  - intros Hne. destruct (decide (count_cov reads uses al x = 0)) as [Hr|Hr];
      [destruct (decide (count_cov writes uses al x = 0)) as [Hw|Hw]; [congruence|]|];
      [apply count_cov_pos in Hw as (u & ? & ? & _)|apply count_cov_pos in Hr as (u & ? & ? & _)];
      by exists u.
  - intros (u & Hu & Hc) [= Hr Hw]. destruct (access_touches (access u)) as [Ha|Ha].
    + assert (count_cov reads uses al x ≠ 0) by (apply count_cov_pos; eauto). lia.
    + assert (count_cov writes uses al x ≠ 0) by (apply count_cov_pos; eauto). lia.
Qed.

Lemma summarize_good uses :
  coherent uses →
  (∃ id bound, good (region_end uses) id bound (reverse (summarize uses)))
  ∧ (∀ al x a, owns (summarize uses) al x a ↔
      counts_at uses al x ≠ (0, 0) ∧ a = access_of (counts_at uses al x)).
Proof.
  intros Hco. pose proof (counted_all uses Hco) as [Hs HN HS]. destruct Hco as [Hr Hsame].
  unfold summarize. rewrite reverse_involutive. set (m := foldl add_use [] uses) in *.
  pose proof Hs as [lo Hs'].
  destruct (emit_all_spec (region_end uses) m lo []) as [Hg Hown]; [done| |..].
  - intros al root events Hin. apply BTree.elem_of_get in Hin; [|done].
    destruct (HS _ _ _ Hin) as ((u & Hu & Hst & Hal) & Hse & Hsum & Hk).
    split_and!; [rewrite Hst; done|done| |].
    + intros p e Hp. destruct (Hk _ _ Hp) as (v & Hv & Hvl & Hvp). exists v.
      split_and!; [done| |done]. rewrite Hst. apply Hsame; [done|done|].
      unfold View.region in *; simpl in *. congruence.
    + destruct (count_cov_beyond reads uses al) as [l1 H1], (count_cov_beyond writes uses al) as [l2 H2].
      exists (Z.max l1 l2). intros x Hx. rewrite Hsum, H1, H2 by lia. done.
  - exists 0. split; constructor.
  - split; [done|]. intros al x a. rewrite owns_reverse, Hown. split.
    + intros [(v & ?%elem_of_nil & _)|(root & events & Hin & Hx & Hne & ->)]; [done|].
      apply BTree.elem_of_get in Hin; [|done].
      destruct (HS _ _ _ Hin) as (_ & _ & Hsum & _). by rewrite Hsum in *.
    + intros [Hne ->]. right.
      destruct (proj1 (counts_at_covered _ _ _) Hne) as (u & Hu & Hal & Hx).
      destruct (BTree.get al m) as [[root events]|] eqn:Hget; [|by destruct (HN _ Hget u)].
      destruct (HS _ _ _ Hget) as (_ & _ & Hsum & _).
      exists root, events. rewrite Hsum. split_and!; [by apply BTree.elem_of_get| |done|done].
      specialize (Hr u Hu). unfold in_range in Hx. lia.
Qed.

(** A summary only names allocations of the uses. *)
Lemma summarize_storage uses v :
  coherent uses → v ∈ summarize uses →
  ∃ u, u ∈ uses ∧ View.storage (view u) = View.storage (view v).
Proof.
  intros Hco Hv. destruct (summarize_good uses Hco) as [(id & bound & Hg) _].
  apply elem_of_reverse in Hv. destruct Hg as [_ _ _ He]. rewrite Forall_forall in He.
  destruct (He v Hv) as [(u & Hu & Hst & _) _]. eauto.
Qed.

(** An emitted interval is its own region: on a shared allocation, where
    regions are the whole allocation, the summary is one full interval. *)
Lemma summarize_region uses v :
  coherent uses → v ∈ summarize uses →
  View.region (view v) = (use_id v, use_range v) ∧ start (use_range v) < stop (use_range v).
Proof.
  intros Hco Hv. destruct (summarize_good uses Hco) as [(id & bound & Hg) _].
  apply elem_of_reverse in Hv. destruct Hg as [_ Hn _ He].
  rewrite Forall_forall in Hn, He. specialize (Hn v Hv). destruct (He v Hv) as [H1 H2].
  split; [|done]. unfold View.region. f_equal.
  destruct (View.st_shared (View.storage (view v))) eqn:Hsh; [|done].
  assert (Hends : ∀ p, region_end uses (View.storage (view v)) p →
    p = 0 ∨ p = View.st_bytes (View.storage (view v))).
  { intros p (u & _ & Hst & Hp). unfold View.region in Hp. rewrite Hst, Hsh in Hp.
    simpl in Hp. done. }
  destruct Hco as [Hr _]. pose proof H1 as (u & Hu & Hst & _).
  assert (0 <= View.st_bytes (View.storage (view v))).
  { specialize (Hr u Hu). unfold View.region in Hr. rewrite Hst, Hsh in Hr. simpl in Hr. lia. }
  unfold use_range in *. destruct (View.view_range (view v)) as [a b]. simpl in *.
  destruct (Hends b H2), (Hends a H1); f_equal; lia.
Qed.

(** A summary of views inside their allocations stays inside them. *)
Lemma summarize_valid uses v :
  coherent uses → (∀ u, u ∈ uses → View.valid (view u)) → v ∈ summarize uses → View.valid (view v).
Proof.
  intros Hco Hval Hv. destruct (summarize_good uses Hco) as [(id & bound & Hg) _].
  destruct (summarize_region uses v Hco Hv) as [_ Hlt].
  apply elem_of_reverse in Hv. destruct Hg as [_ _ _ He]. rewrite Forall_forall in He.
  destruct (He v Hv) as [H1 H2].
  assert (Hin : ∀ p, region_end uses (View.storage (view v)) p →
    0 <= p <= View.st_bytes (View.storage (view v))).
  { intros p (u & Hu & Hst & Hp). specialize (Hval u Hu). unfold View.valid, View.region in *.
    rewrite Hst in *. destruct (View.st_shared (View.storage (view v))); simpl in Hp; lia. }
  apply Hin in H1, H2. unfold View.valid, use_range in *. lia.
Qed.

Lemma StronglySorted_reverse {A} (R : A → A → Prop) l :
  StronglySorted (flip R) l → StronglySorted R (reverse l).
Proof.
  induction 1 as [|x l Hs IH Hf]; [constructor|]. rewrite reverse_cons.
  apply StronglySorted_app_2; [|done|by repeat constructor].
  intros y z Hy ->%list_elem_of_singleton. rewrite Forall_forall in Hf.
  by apply Hf, elem_of_reverse.
Qed.

Lemma summarize_canonical uses : coherent uses → canonical (summarize uses).
Proof.
  intros Hco. pose proof (summarize_region uses) as Hreg.
  destruct (summarize_good uses Hco) as [(id & bound & [Hs _ _ _]) _]. split.
  - rewrite <-(reverse_involutive (summarize uses)). apply StronglySorted_reverse.
    assert (Hin : ∀ v, v ∈ reverse (summarize uses) → v ∈ summarize uses).
    { intros v. by rewrite elem_of_reverse. }
    revert Hin. induction Hs as [|v l Hs IH Hf]; intros Hin; [constructor|].
    constructor; [apply IH; intros w Hw; apply Hin; by right|].
    rewrite Forall_forall in *. intros w Hw. unfold flip, precedes.
    rewrite (proj1 (Hreg w Hco (Hin w ltac:(by right)))), (proj1 (Hreg v Hco (Hin v ltac:(by left)))).
    by apply Hf.
  - apply Forall_forall. intros v Hv. destruct (Hreg v Hco Hv) as [-> ?]. done.
Qed.

Lemma access_of_counts c :
  c ≠ (0, 0) → reads (access_of c) = negb (c.1 =? 0) ∧ writes (access_of c) = negb (c.2 =? 0).
Proof.
  destruct c as [r w]. unfold access_of; simpl. intros Hne.
  destruct (Z.eqb_spec r 0), (Z.eqb_spec w 0); simpl; try done. congruence.
Qed.

(** Each byte's access in the summary is the union of the uses' accesses. *)
Lemma summarize_access uses al x (P : Access → bool) :
  coherent uses → (P = reads ∨ P = writes) →
  (∃ v, v ∈ summarize uses ∧ covers v al x ∧ P (access v) = true) ↔
  (∃ u, u ∈ uses ∧ covers u al x ∧ P (access u) = true).
Proof.
  intros Hco HP. destruct (summarize_good uses Hco) as [_ Hown].
  assert (Hcov : ∀ v, v ∈ summarize uses →
    covers v al x ↔ use_id v = al ∧ in_range x (use_range v)).
  { intros v Hv. unfold covers. by rewrite (proj1 (summarize_region uses v Hco Hv)). }
  rewrite <-(count_cov_pos P uses). split.
  - intros (v & Hv & Hc & Hp). apply Hcov in Hc; [|done].
    assert (owns (summarize uses) al x (access v)) as [Hne Ha]%Hown by (exists v; tauto).
    rewrite Ha in Hp. destruct (access_of_counts _ Hne) as [Er Ew].
    destruct HP as [-> | ->]; [rewrite Er in Hp|rewrite Ew in Hp]; to_prop; done.
  - intros Hp. assert (Hne : counts_at uses al x ≠ (0, 0)).
    { unfold counts_at. destruct HP as [-> | ->]; congruence. }
    destruct (proj2 (Hown al x _) (conj Hne eq_refl)) as (v & Hv & Hid & Hx & Ha).
    exists v. split_and!; [done|by apply Hcov|]. rewrite Ha.
    destruct (access_of_counts _ Hne) as [Er Ew].
    destruct HP as [-> | ->]; [rewrite Er|rewrite Ew]; apply negb_true_iff, Z.eqb_neq; done.
Qed.

(** C29. A summary is canonical (sorted by allocation and offset, disjoint,
    nonempty) and exact: it reads, respectively writes, exactly the bytes that
    some summarized use reads, respectively writes. *)
Theorem summarize_exact uses :
  coherent uses →
  canonical (summarize uses)
  ∧ ∀ al x,
      ((∃ v, v ∈ summarize uses ∧ covers v al x ∧ reads (access v) = true) ↔
       (∃ u, u ∈ uses ∧ covers u al x ∧ reads (access u) = true))
      ∧ ((∃ v, v ∈ summarize uses ∧ covers v al x ∧ writes (access v) = true) ↔
         (∃ u, u ∈ uses ∧ covers u al x ∧ writes (access u) = true)).
Proof.
  intros Hco. split; [by apply summarize_canonical|].
  intros al x. split; apply summarize_access; auto.
Qed.

(** A byte is touched, or written, by some use. *)
Definition touched (uses : list Use) (al x : Z) : Prop := ∃ u, u ∈ uses ∧ covers u al x.
Definition written (uses : list Use) (al x : Z) : Prop :=
  ∃ u, u ∈ uses ∧ covers u al x ∧ writes (access u) = true.

Lemma clash_between_bytes us vs :
  clash_between us vs ↔
  ∃ al x, (written us al x ∧ touched vs al x) ∨ (touched us al x ∧ written vs al x).
Proof.
  unfold clash_between, clash, written, touched. split.
  - intros (u & v & ? & ? & al & x & ? & ? & [?|?]); exists al, x; [left|right]; eauto 10.
  - intros (al & x & [[(u & ? & ? & ?) (v & ? & ?)]|[(u & ? & ?) (v & ? & ? & ?)]]);
      exists u, v; eauto 10.
Qed.

Lemma summarize_touched uses al x :
  coherent uses → touched (summarize uses) al x ↔ touched uses al x.
Proof.
  intros Hco.
  assert (Hsplit : ∀ us, touched us al x ↔
    (∃ u, u ∈ us ∧ covers u al x ∧ reads (access u) = true) ∨ written us al x).
  { intros us. unfold touched, written. split.
    - intros (u & ? & ?). destruct (access_touches (access u)); eauto 10.
    - intros [(u & ? & ? & _)|(u & ? & ? & _)]; eauto. }
  rewrite !Hsplit. unfold written. by rewrite !summarize_access by auto.
Qed.

(** The sweep over two summaries, against the summarized uses. *)
Lemma conflicts_summaries us vs :
  coherent us → coherent vs →
  conflicts (summarize us) (summarize vs) = true ↔ clash_between us vs.
Proof.
  intros Hu Hv. rewrite conflicts_spec by by apply summarize_canonical.
  rewrite !clash_between_bytes.
  assert (Hw : ∀ ws al x, coherent ws → written (summarize ws) al x ↔ written ws al x)
    by (intros; apply summarize_access; auto).
  split; intros (al & x & H); exists al, x; revert H; by rewrite !Hw, !summarize_touched.
Qed.

(** The sweep over two summaries decides memory conflict: [conflicts]
    answers true exactly when a use of the first submission and a use of the
    second touch a common byte of an allocation and one of them writes it,
    counting a use of a shared allocation as touching all of it. *)
Theorem conflicts_decides_clash us vs :
  coherent us → coherent vs →
  conflicts (summarize us) (summarize vs) = true ↔ clash_between us vs.
Proof. apply conflicts_summaries. Qed.

Definition example_storage : View.Storage := View.mkStorage 4096 64 false true true true 0.
Definition example_use (lo hi : Z) (a : Access) : Use :=
  mkUse (View.mkView example_storage (mkRange lo hi) []) a.

Lemma example_coherent uses :
  Forall (λ u, View.storage (view u) = example_storage
    ∧ 0 <= start (View.view_range (view u)) <= stop (View.view_range (view u))) uses →
  coherent uses.
Proof.
  rewrite Forall_forall. intros H. split.
  - intros u Hu. destruct (H u Hu) as [Hs ?]. unfold View.region. by rewrite Hs.
  - intros u v Hu Hv _. by rewrite (proj1 (H u Hu)), (proj1 (H v Hv)).
Qed.

Lemma summarize_exact_witness :
  summarize [example_use 0 32 Read; example_use 16 48 Write]
  = [example_use 0 16 Read; example_use 16 32 ReadWrite; example_use 32 48 Write]
  ∧ canonical (summarize [example_use 0 32 Read; example_use 16 48 Write]).
Proof.
  split; [vm_compute; reflexivity|].
  apply (summarize_exact [example_use 0 32 Read; example_use 16 48 Write]).
  apply example_coherent. repeat constructor; simpl; lia.
Defined.

Lemma conflicts_decides_clash_witness :
  conflicts (summarize [example_use 0 32 Read]) (summarize [example_use 31 40 Write]) = true
  ∧ clash_between [example_use 0 32 Read] [example_use 31 40 Write].
Proof.
  split; [vm_compute; reflexivity|].
  apply (conflicts_decides_clash [example_use 0 32 Read] [example_use 31 40 Write]);
    [apply example_coherent; repeat constructor; simpl; lia..|vm_compute; reflexivity].
Defined.

End Deps.
