(* ===== verification/Contract.v ===== *)
(** * Kernel contracts

    [BindingContract] and [KernelContract] of src/src/execution/contract.rs: the
    checks that a dispatch's bindings satisfy the declared extents, alignments
    and aliasing. *)

From S2P Require Import Prelude Access BufferView.
Local Open Scope Z_scope.

Module Contract.

(** [BindingContract], [KernelContract]. *)
Record BindingContract : Type := mkBinding {
  bytes : Z; alignment : Z; access : Access; layout : string }.
Record KernelContract : Type := mkContract {
  bindings : list BindingContract; constants : list Z }.

(** [KernelContract::validate]. *)
Definition binding_invalid (b : BindingContract) : bool :=
  (bytes b =? 0) || (isize_max <? bytes b) || negb (is_power_of_two (alignment b)).
Definition validate (c : KernelContract) : Result unit :=
  if existsb binding_invalid (bindings c)
  then Err (Message "invalid kernel binding extent or alignment") else Ok tt.

(** The message of a binding that does not fit. *)
Definition binding_mismatch (b : BindingContract) : Error :=
  Message ("binding does not satisfy " +:+ layout b +:+ ": " +:+ pretty (bytes b)
           +:+ " bytes aligned to " +:+ pretty (alignment b) +:+ " required").

Fixpoint extents_fit (views : list View.BufferView) (cs : list BindingContract) : Result unit :=
  match views, cs with
  | v :: views, b :: cs =>
      if (View.len v <? bytes b) || negb (View.offset v mod alignment b =? 0)
      then Err (binding_mismatch b) else extents_fit views cs
  | _, _ => Ok tt
  end.

(** [KernelContract::check_extents]. *)
Definition check_extents (c : KernelContract) (views : list View.BufferView) : Result unit :=
  let? _ := validate c in
  if negb (length views =? length (bindings c))%nat then Err (Message "kernel binding count mismatch")
  else extents_fit views (bindings c).

(** Access declared for argument [i]; the source indexes in range. *)
Definition access_at (c : KernelContract) (i : nat) : Access := default Read (access <$> bindings c !! i).

Fixpoint alias_with (c : KernelContract) (index : nat) (a : View.BufferView) (other : nat)
    (earlier : list View.BufferView) : bool :=
  match earlier with
  | [] => false
  | b :: rest =>
      (View.overlaps a b && (writes (access_at c index) || writes (access_at c other)))
      || alias_with c index a (S other) rest
  end.
Fixpoint any_alias (c : KernelContract) (before rest : list View.BufferView) : bool :=
  match rest with
  | [] => false
  | a :: rest => alias_with c (length before) a 0 before || any_alias c (before ++ [a]) rest
  end.

(** [KernelContract::check_aliases]. *)
Definition check_aliases (c : KernelContract) (views : list View.BufferView) : Result unit :=
  if any_alias c [] views
  then Err (Message "overlapping writable kernel arguments require an unsafe dispatch") else Ok tt.

(** [KernelContract::check]. *)
Definition check (c : KernelContract) (views : list View.BufferView) : Result unit :=
  let? _ := check_extents c views in check_aliases c views.

(** ** What the checks establish *)

Lemma is_power_of_two_pos n : is_power_of_two n = true → 0 < n.
Proof. unfold is_power_of_two. intros H. to_prop. lia. Qed.

Lemma validate_Ok c :
  validate c = Ok tt ↔
  ∀ b, b ∈ bindings c → 0 ≠ bytes b ∧ bytes b <= isize_max ∧ is_power_of_two (alignment b) = true.
Proof.
  unfold validate. destruct (existsb binding_invalid (bindings c)) eqn:E.
  - split; [done|]. intros H. apply existsb_exists in E as (b & Hb%list_elem_of_In & Hi).
    destruct (H b Hb) as (H1 & H2 & H3). unfold binding_invalid in Hi. rewrite H3 in Hi.
    simpl in Hi. rewrite orb_false_r in Hi. to_prop. destruct Hi as [Hi|Hi]; to_prop; lia.
  - split; [|done]. intros _ b Hb.
    assert (Hn : binding_invalid b = false).
    { apply not_true_iff_false. intros Hb'. apply not_true_iff_false in E. apply E.
      apply existsb_exists. exists b. by rewrite <-list_elem_of_In. }
    unfold binding_invalid in Hn. to_prop. split_and!; [lia|lia|done].
Qed.

Lemma extents_fit_Ok views cs :
  length views = length cs →
  extents_fit views cs = Ok tt ↔
  ∀ i v b, views !! i = Some v → cs !! i = Some b →
    bytes b <= View.len v ∧ View.offset v mod alignment b = 0.
Proof.
  revert cs. induction views as [|v views IH]; intros [|b cs] Hlen; try done.
  injection Hlen as Hlen. simpl.
  destruct ((View.len v <? bytes b) || negb (View.offset v mod alignment b =? 0)) eqn:E.
  - split; [done|]. intros H. destruct (H 0%nat v b eq_refl eq_refl).
    apply orb_true_iff in E as [E|E]; to_prop; lia.
  - to_prop. rewrite (IH cs Hlen). split.
    + intros Hx [|i] v' b'; simpl; [intros [= <-] [= <-]; lia|apply Hx].
    + intros Hx i v' b' Hv Hb. by apply (Hx (S i)).
Qed.

Lemma alias_with_false c index a other earlier :
  alias_with c index a other earlier = false ↔
  ∀ k b, earlier !! k = Some b →
    View.overlaps a b = true →
    writes (access_at c index) = false ∧ writes (access_at c (other + k)) = false.
Proof.
  revert other. induction earlier as [|b earlier IH]; intros other; simpl; [done|].
  rewrite orb_false_iff, IH, andb_false_iff, orb_false_iff. split.
  - intros [H1 H2] [|k] b'; simpl.
    + intros [= <-] Ho. rewrite Nat.add_0_r. destruct H1; [congruence|done].
    + rewrite Nat.add_succ_r. apply H2.
  - intros H. split.
    + destruct (View.overlaps a b) eqn:Eo; [|by left]. right. specialize (H 0%nat b eq_refl Eo).
      by rewrite Nat.add_0_r in H.
    + intros k b' Hk Ho. specialize (H (S k) b' Hk Ho). by rewrite Nat.add_succ_r in H.
Qed.

Lemma any_alias_false c before rest :
  any_alias c before rest = false ↔
  ∀ i j a b, rest !! i = Some a → (before ++ take i rest) !! j = Some b →
    View.overlaps a b = true →
    writes (access_at c (length before + i)) = false ∧ writes (access_at c j) = false.
Proof.
  revert before. induction rest as [|a rest IH]; intros before; simpl; [done|].
  rewrite orb_false_iff, alias_with_false, IH. simpl. split.
  - intros [H1 H2] [|i] j a' b Ha Hb Ho.
    + injection Ha as <-. rewrite take_0, app_nil_r in Hb. rewrite Nat.add_0_r. by apply (H1 j b).
    + simpl in *. destruct (H2 i j a' b Ha) as [Hx Hy]; [by rewrite <-app_assoc|done|].
      rewrite length_app in Hx. simpl in Hx. split; [|done]. by replace (length before + S i)%nat
        with (length before + 1 + i)%nat by lia.
  - intros H. split.
    + intros k b Hk Ho. specialize (H 0%nat k a b eq_refl). rewrite take_0, app_nil_r, Nat.add_0_r in H.
      by apply H.
    + intros i j a' b Ha Hb Ho. rewrite <-app_assoc in Hb. destruct (H (S i) j a' b Ha Hb Ho) as [Hx Hy].
      rewrite length_app. simpl. split; [|done]. by replace (length before + 1 + i)%nat
        with (length before + S i)%nat by lia.
Qed.

(** An accepted safe dispatch satisfies its contract: [check] accepts
    exactly when the contract is well formed, there is one binding per declared
    argument, every binding has the declared extent and offset alignment, and no
    two overlapping bindings include a writable one. *)
Theorem check_accepts_iff_satisfied c views :
  check c views = Ok tt ↔
  (∀ b, b ∈ bindings c → 0 ≠ bytes b ∧ bytes b <= isize_max ∧ is_power_of_two (alignment b) = true)
  ∧ length views = length (bindings c)
  ∧ (∀ i v b, views !! i = Some v → bindings c !! i = Some b →
       bytes b <= View.len v ∧ View.offset v mod alignment b = 0)
  ∧ (∀ i j a b, (j < i)%nat → views !! i = Some a → views !! j = Some b → View.overlaps a b = true →
       writes (access_at c i) = false ∧ writes (access_at c j) = false).
Proof.
  rewrite <-validate_Ok. unfold check, check_extents, check_aliases.
  destruct (validate c) as [[]|e]; simpl; [|naive_solver].
  destruct (Nat.eqb_spec (length views) (length (bindings c))) as [Hlen|Hlen]; simpl; [|naive_solver].
  assert (Ha : any_alias c [] views = false ↔
    ∀ i j a b, (j < i)%nat → views !! i = Some a → views !! j = Some b → View.overlaps a b = true →
      writes (access_at c i) = false ∧ writes (access_at c j) = false).
  { rewrite any_alias_false. simpl. split; intros H i j a b.
    - intros Hji Hi Hj. apply (H i j a b); [done|]. by rewrite lookup_take_lt.
    - intros Hi Hj. apply lookup_take_Some in Hj as [Hj Hlt]. by apply H. }
  rewrite <-Ha. destruct (extents_fit views (bindings c)) as [[]|e] eqn:E; simpl.
  - rewrite extents_fit_Ok in E by done. destruct (any_alias c [] views); naive_solver.
  - split; [done|]. intros (_ & _ & Hf & _). rewrite <-extents_fit_Ok in Hf by done. congruence.
Qed.

End Contract.
