(* ===== verification/Completion.v ===== *)
(** * Completion signals

    Model of src/src/execution/completion.rs: the terminal state of one
    submission slot, its observers and its registered wakers.  Instants are
    host clock readings; a waker is its identity, compared by [will_wake]. *)

From S2P Require Import Prelude.
Local Open Scope Z_scope.

Module Completion.

(** [State] and [Signal].  [wakers] is the four-element array. *)
Record Signal : Type := mkSignal {
  submitted : option Z;
  started : option Z;
  finished : option Z;
  done_flag : bool;
  failure : option Error;
  cancelled : bool;
  wakers : list (option nat);
  overflow_wakers : list nat;
  cancel : bool;
  observers : nat }.

(** [Signal::new]. *)
Definition new_signal : Signal :=
  mkSignal None None None true None false (replicate 4 None) [] false 0.

(** [Signal::reset]. *)
Definition reset (now : Z) (s : Signal) : Signal :=
  mkSignal (Some now) None None false None false (replicate 4 None) [] false (observers s).

(** [Signal::started]. *)
Definition mark_started (now : Z) (s : Signal) : Signal :=
  mkSignal (submitted s) (Some (default now (started s))) (finished s) (done_flag s) (failure s)
    (cancelled s) (wakers s) (overflow_wakers s) (cancel s) (observers s).

(** The wakers registered in a state: [wakers.iter().flatten().chain(overflow)]. *)
Definition registered (s : Signal) : list nat := omap id (wakers s) ++ overflow_wakers s.

(** [Signal::publish]: the terminal state and the wakers to invoke. *)
Definition publish (now : Z) (f : option Error) (s : Signal) : Signal * list nat :=
  (mkSignal (submitted s) (started s) (Some now) true f (cancel s)
     (replicate 4 None) [] (cancel s) (observers s),
   registered s).

(** [outcome]. *)
Definition outcome (s : Signal) : Result unit :=
  match failure s with
  | Some e => Err (Execution e)
  | None => if cancelled s then Err Cancelled else Ok tt
  end.

(** [Completion::result], [is_complete], [finished_at]. *)
Definition result (s : Signal) : option (Result unit) :=
  if done_flag s then Some (outcome s) else None.
Definition is_complete (s : Signal) : bool := done_flag s.
Definition finished_at (s : Signal) : option Z := finished s.

(** [Completion::profile], in clock units: elapsed and time to first start. *)
Definition profile (s : Signal) : option (Z * option Z) :=
  submitted_at ← submitted s;
  end_at ← finished s;
  Some (end_at - submitted_at, (λ start, start - submitted_at) <$> started s).

(** [Completion::new] (also [Clone]), [Drop for Completion], [Completion::cancel]. *)
Definition observe (s : Signal) : Signal :=
  mkSignal (submitted s) (started s) (finished s) (done_flag s) (failure s) (cancelled s)
    (wakers s) (overflow_wakers s) (cancel s) (S (observers s)).
Definition unobserve (s : Signal) : Signal :=
  mkSignal (submitted s) (started s) (finished s) (done_flag s) (failure s) (cancelled s)
    (wakers s) (overflow_wakers s) (cancel s) (pred (observers s)).
Definition request_cancel (s : Signal) : Signal :=
  mkSignal (submitted s) (started s) (finished s) (done_flag s) (failure s) (cancelled s)
    (wakers s) (overflow_wakers s) true (observers s).

(** The first free slot of the array, if any. *)
Fixpoint fill_first (w : nat) (slots : list (option nat)) : option (list (option nat)) :=
  match slots with
  | [] => None
  | None :: rest => Some (Some w :: rest)
  | Some v :: rest => cons (Some v) <$> fill_first w rest
  end.

(** [Future::poll]: [Some outcome] is [Poll::Ready], [None] is [Poll::Pending]. *)
Definition poll (w : nat) (s : Signal) : Signal * option (Result unit) :=
  if done_flag s then (s, Some (outcome s))
  else if bool_decide (w ∈ registered s) then (s, None)
  else
    let '(slots, overflow) :=
      match fill_first w (wakers s) with
      | Some slots => (slots, overflow_wakers s)
      | None => (wakers s, overflow_wakers s ++ [w])
      end in
    (mkSignal (submitted s) (started s) (finished s) (done_flag s) (failure s) (cancelled s)
       slots overflow (cancel s) (observers s), None).

(** [Completion::wait_timeout], one check of the loop with the state locked and
    [elapsed] read: return, or wait again for at most the time left. *)
Inductive timeout_step : Type := Returned (r : Result bool) | WaitAtMost (left : Z).
Definition wait_timeout_check (timeout elapsed : Z) (s : Signal) : timeout_step :=
  if done_flag s then Returned (let? _ := outcome s in Ok true)
  else if elapsed <=? timeout then WaitAtMost (timeout - elapsed)
  else Returned (Ok false).

(** ** Wakers *)

Lemma fill_first_registered w slots slots' :
  fill_first w slots = Some slots' → omap id slots' ≡ₚ w :: omap id slots.
Proof.
  revert slots'; induction slots as [|[v|] rest IH]; intros slots' H; simpl in *; [done| |].
  - destruct (fill_first w rest) as [rest'|] eqn:E; [|done]. injection H as <-.
    simpl. rewrite (IH rest') by done. by apply Permutation_swap.
  - by injection H as <-.
Qed.

Lemma poll_registers w s s' :
  poll w s = (s', None) → NoDup (registered s) →
  NoDup (registered s') ∧ w ∈ registered s' ∧ done_flag s' = false
  ∧ (∀ v, v ∈ registered s' ↔ v = w ∨ v ∈ registered s).
Proof.
  unfold poll. destruct (done_flag s) eqn:Hd; [done|]. case_bool_decide as Hw.
  - intros [= <-] Hnd. split_and!; [done|done|done|]. naive_solver.
  - intros H Hnd.
    assert (Hp : registered s' ≡ₚ w :: registered s ∧ done_flag s' = false).
    { destruct (fill_first w (wakers s)) as [slots|] eqn:Hf; injection H as <-;
        unfold registered; simpl; (split; [|done]).
      - rewrite (fill_first_registered _ _ _ Hf). done.
      - rewrite app_assoc. by rewrite Permutation_app_comm. }
    destruct Hp as [Hp ?]. rewrite Hp. split_and!; [by constructor|set_solver|done|].
    intros v. rewrite Hp. set_solver.
Qed.

(** Polling [ws] in order while pending. *)
Definition poll_all (ws : list nat) (s : Signal) : Signal := foldl (λ s w, (poll w s).1) s ws.

Lemma poll_all_registered ws s :
  done_flag s = false → NoDup (registered s) →
  NoDup (registered (poll_all ws s)) ∧ done_flag (poll_all ws s) = false
  ∧ ∀ v, v ∈ registered (poll_all ws s) ↔ v ∈ ws ∨ v ∈ registered s.
Proof.
  revert s; induction ws as [|w ws IH]; intros s Hd Hnd; simpl; [set_solver|].
  destruct (poll w s) as [s1 r] eqn:Hp.
  assert (r = None) as ->.
  { unfold poll in Hp. rewrite Hd in Hp. case_bool_decide; [by injection Hp|].
    destruct (fill_first w (wakers s)); by injection Hp. }
  destruct (poll_registers _ _ _ Hp Hnd) as (Hnd1 & _ & Hd1 & Hr1).
  destruct (IH s1 Hd1 Hnd1) as (? & ? & Hr). split_and!; [done|done|].
  intros v. simpl. rewrite Hr, Hr1. set_solver.
Qed.

(** No lost and no duplicated wake-up: after any sequence of polls of a
    freshly reset signal, more than the four array slots included, publishing
    invokes every polled waker exactly once and leaves none registered; the
    published outcome is the failure if there is one, otherwise cancellation if
    it was requested before publication, otherwise success. *)
Theorem publish_wakes_each_waker_once now now' ws f s :
  let '(s', woken) := publish now' f (poll_all ws (reset now s)) in
  NoDup woken ∧ (∀ w, w ∈ woken ↔ w ∈ ws)
  ∧ registered s' = [] ∧ observers s' = observers (poll_all ws (reset now s))
  ∧ result s' = Some (match f with
                      | Some e => Err (Execution e)
                      | None => if cancel (poll_all ws (reset now s)) then Err Cancelled else Ok tt
                      end).
Proof.
  destruct (poll_all_registered ws (reset now s)) as (Hnd & _ & Hr); [done|constructor|].
  unfold publish; simpl. split_and!; [done| |done|done|].
  - intros w. rewrite Hr. set_solver.
  - unfold result, outcome; simpl. by destruct f.
Qed.

(** A terminal result is not changed by later polls, cancellation or observers. *)
Lemma terminal_result_stable s w :
  done_flag s = true →
  poll w s = (s, Some (outcome s))
  ∧ result (request_cancel s) = result s
  ∧ result (observe s) = result s ∧ result (unobserve s) = result s.
Proof. intros Hd. unfold poll. by rewrite Hd. Qed.

End Completion.
