(* ===== verification/Buffer.v ===== *)
(** * Host leases and cache visibility

    The mutable state of a tracked allocation in src/src/execution/buffer.rs:
    host read/write leases, the external (handoff) reservation, poisoning, and
    which engines see the latest write. Native cache maintenance is a foreign
    call; its result is an argument of the operations that perform it. *)

From S2P Require Import Prelude Access BufferView.
Local Open Scope Z_scope.

Module Buffer.

(** [HostState]. *)
Record HostState : Type := mkHost {
  readers : Z;
  writer : bool;
  external : bool;
  poison : option string }.

(** [Engine]; [engine as usize] indexes [Visibility::visible]. *)
Inductive Engine : Type := Host | Gpu | Npu.
Global Instance engine_eq_dec : EqDecision Engine.
Proof. solve_decision. Defined.
Definition engine_index (e : Engine) : nat :=
  match e with Host => 0 | Gpu => 1 | Npu => 2 end.

(** [Visibility]. *)
Record Visibility : Type := mkVisibility {
  last_writer : Engine;
  visible : list bool }.

(** [HostState::default], [Visibility::new]. *)
Definition host_default : HostState := mkHost 0 false false None.
Definition visibility_new : Visibility := mkVisibility Host [true; false; false].

(** [Visibility::sync_to_device], [Visibility::wrote]. *)
Definition sync_to_device (v : Visibility) (consumer : Engine) : bool :=
  bool_decide (last_writer v = Host) || bool_decide (consumer = Npu).
Definition wrote (e : Engine) : Visibility :=
  mkVisibility e (<[engine_index e := true]> [false; false; false]).

(** The mutable part of [Storage]. *)
Record State : Type := mkState { host : HostState; visibility : Visibility }.

(** Whether [visible[engine as usize]]. *)
Definition sees (v : Visibility) (e : Engine) : bool := default false (visible v !! engine_index e).

(** [Storage::make_visible]: [maintain to_device] is the native cache control,
    called only when the allocation has native storage.  Returns the new
    visibility and the bytes of maintenance performed. *)
Definition make_visible (s : View.Storage) (maintain : bool → Result unit) (e : Engine)
    (v : Visibility) : Result (Visibility * Z) :=
  if sees v e then Ok (v, 0)
  else
    let v' := mkVisibility (last_writer v) (<[engine_index e := true]> (visible v)) in
    if View.st_native s then
      let? _ := maintain (sync_to_device v e) in Ok (v', View.st_bytes s)
    else Ok (v', 0).

(** [Storage::host_conflict]. *)
Definition host_conflict (h : HostState) (a : Access) : Result unit :=
  match poison h with
  | Some error => Err (DeviceLost error)
  | None =>
      if external h || writer h || (writes a && negb (readers h =? 0)) then
        Err (Busy "device binding conflicts with a live host mapping")
      else Ok tt
  end.

(** [Buffer::acquire_with], one pass of its loop under the scheduler lock:
    [in_use] is [scheduler.conflicts(&view, access)]. *)
Inductive attempt : Type := WaitForDevice | Refused (e : Error) | Reserved (h : HostState).

Definition acquire_attempt (s : View.Storage) (write wait in_use : bool) (h : HostState) : attempt :=
  if negb (View.st_mapped s) then
    Refused (Unsupported "GPU-local memory is not host mapped; use an explicit graph copy to shared storage")
  else
    match poison h with
    | Some error => Refused (DeviceLost error)
    | None =>
        if external h || writer h || (write && negb (readers h =? 0)) then
          Refused (Busy "conflicting host mapping")
        else if in_use then
          if wait then WaitForDevice else Refused (Busy "allocation is in device use")
        else
          Reserved (if write then mkHost (readers h) true (external h) (poison h)
                    else mkHost (readers h + 1) (writer h) (external h) (poison h))
    end.

(** Its tail after the scheduler lock is released: make the bytes visible to
    the host, or give the lease back. *)
Definition unreserve (write : bool) (h : HostState) : HostState :=
  if write then mkHost (readers h) false (external h) (poison h)
  else mkHost (readers h - 1) (writer h) (external h) (poison h).

Definition acquire_finish (s : View.Storage) (write : bool) (maintain : bool → Result unit)
    (st : State) : State * Result unit :=
  match make_visible s maintain Host (visibility st) with
  | Ok (v, _) => (mkState (host st) v, Ok tt)
  | Err e => (mkState (unreserve write (host st)) (visibility st), Err e)
  end.

(** [Drop for ReadGuard], [Drop for WriteGuard]. *)
Definition drop_read (st : State) : State :=
  mkState (unreserve false (host st)) (visibility st).
Definition drop_write (st : State) : State :=
  mkState (unreserve true (host st)) (wrote Host).

(** [Runtime::with_gpu_access] reservation and [Drop for Lease] on one
    allocation: [uncertain] poisons it. *)
Definition reserve_external (h : HostState) : Result HostState :=
  let? _ := host_conflict h ReadWrite in
  Ok (mkHost (readers h) (writer h) true (poison h)).
Definition release_external (uncertain : bool) (h : HostState) : HostState :=
  mkHost (readers h) (writer h) false
    (if uncertain then Some "external GPU completion is uncertain"%string else poison h).

(** A failed region poisons its allocations (src/src/execution/scheduler.rs). *)
Definition set_poison (message : string) (h : HostState) : HostState :=
  mkHost (readers h) (writer h) (external h) (Some message).

(** ** Leases *)

(** The guards and handoffs alive on one allocation. *)
Record Guards : Type := mkGuards { reads_live : nat; writes_live : nat; handoffs_live : nat }.

(** Steps of the clients of one allocation. *)
Inductive lease_step (s : View.Storage) : State * Guards → State * Guards → Prop :=
| step_acquire write wait st g h :
    acquire_attempt s write wait false (host st) = Reserved h →
    lease_step s (st, g)
      (mkState h (visibility st),
       if write then mkGuards (reads_live g) (S (writes_live g)) (handoffs_live g)
       else mkGuards (S (reads_live g)) (writes_live g) (handoffs_live g))
| step_visible v st g :
    lease_step s (st, g) (mkState (host st) v, g)
| step_unreserve_write st g :
    (0 < writes_live g)%nat →
    lease_step s (st, g)
      (mkState (unreserve true (host st)) (visibility st),
       mkGuards (reads_live g) (pred (writes_live g)) (handoffs_live g))
| step_drop_read st g :
    (0 < reads_live g)%nat →
    lease_step s (st, g) (drop_read st, mkGuards (pred (reads_live g)) (writes_live g) (handoffs_live g))
| step_drop_write st g :
    (0 < writes_live g)%nat →
    lease_step s (st, g) (drop_write st, mkGuards (reads_live g) (pred (writes_live g)) (handoffs_live g))
| step_reserve_external st g h :
    reserve_external (host st) = Ok h →
    lease_step s (st, g)
      (mkState h (visibility st), mkGuards (reads_live g) (writes_live g) (S (handoffs_live g)))
| step_release_external uncertain st g :
    (0 < handoffs_live g)%nat →
    lease_step s (st, g)
      (mkState (release_external uncertain (host st)) (visibility st),
       mkGuards (reads_live g) (writes_live g) (pred (handoffs_live g)))
| step_poison message st g :
    lease_step s (st, g) (mkState (set_poison message (host st)) (visibility st), g).

(** The lease words say which guards are alive, and exclusive ones are alone. *)
Record leases_ok (h : HostState) (g : Guards) : Prop := {
  ok_readers : readers h = Z.of_nat (reads_live g);
  ok_writer : writes_live g = if writer h then 1%nat else 0%nat;
  ok_external : handoffs_live g = if external h then 1%nat else 0%nat;
  ok_exclusive_writer : writer h = true → reads_live g = 0%nat ∧ external h = false;
  ok_exclusive_external : external h = true → reads_live g = 0%nat ∧ writer h = false }.

Lemma acquire_attempt_Reserved s write wait in_use h h' :
  acquire_attempt s write wait in_use h = Reserved h' →
  View.st_mapped s = true ∧ poison h = None ∧ external h = false ∧ writer h = false
  ∧ (write = true → readers h = 0) ∧ in_use = false
  ∧ h' = if write then mkHost (readers h) true false None
         else mkHost (readers h + 1) false false None.
Proof.
  unfold acquire_attempt. destruct (View.st_mapped s), (poison h); simpl; try done.
  destruct (external h), (writer h); simpl; try done.
  destruct (write && negb (readers h =? 0)) eqn:E; [done|].
  destruct in_use; [by destruct wait|]. intros [= <-].
  split_and!; try done. intros ->. simpl in E. to_prop. done.
Qed.

Lemma host_conflict_Ok h a :
  host_conflict h a = Ok tt ↔
  poison h = None ∧ external h = false ∧ writer h = false ∧ (writes a = true → readers h = 0).
Proof.
  unfold host_conflict. destruct (poison h); [naive_solver|].
  destruct (external h), (writer h), (writes a); simpl; try naive_solver.
  destruct (Z.eqb_spec (readers h) 0); naive_solver.
Qed.

Lemma lease_step_ok s st g st' g' :
  lease_step s (st, g) (st', g') → leases_ok (host st) g → leases_ok (host st') g'.
Proof.
  intros Hstep [Hr Hw He Hxw Hxe].
  inversion Hstep; subst; simpl; clear Hstep.
  - match goal with H : acquire_attempt _ _ _ _ _ = _ |- _ =>
      apply acquire_attempt_Reserved in H as (_ & _ & Hne & Hnw & Hz & _ & ->) end.
    rewrite Hne, Hnw in *. destruct write; split; simpl; try done; lia.
  - done.
  - destruct (writer (host st)) eqn:E; [|lia]. destruct (Hxw eq_refl).
    split; simpl; try done; lia.
  - destruct (external (host st)) eqn:Ee; [destruct (Hxe eq_refl); lia|].
    destruct (writer (host st)) eqn:E; [destruct (Hxw eq_refl); lia|].
    split; simpl; rewrite ?E, ?Ee; try done; lia.
  - destruct (writer (host st)) eqn:E; [|lia]. destruct (Hxw eq_refl).
    split; simpl; try done; lia.
  - match goal with H : reserve_external _ = _ |- _ =>
      unfold reserve_external in H; destruct (host_conflict (host st) ReadWrite) as [[]|] eqn:E;
      simpl in H; [injection H as <-|done] end.
    apply host_conflict_Ok in E as (_ & Hne & Hnw & Hz). rewrite Hne, Hnw in *.
    specialize (Hz eq_refl). split; simpl; rewrite ?Hnw; try done; try lia.
  - destruct (external (host st)) eqn:E; [|lia]. destruct (Hxe eq_refl) as [? Hnw].
    split; simpl; rewrite ?Hnw in *; try done; lia.
  - by split.
Qed.

(** Host leases: from a fresh allocation, through any sequence of mapping
    attempts, failed cache maintenance, guard drops, handoffs and poisoning,
    the lease words count exactly the live guards, at most one write guard or
    handoff is alive, and while one is, no other guard is. *)
Theorem leases_exclusive s st g :
  rtc (lease_step s) (mkState host_default visibility_new, mkGuards 0 0 0) (st, g) →
  leases_ok (host st) g.
Proof.
  intros H.
  assert (Hgen : ∀ x y, rtc (lease_step s) x y → leases_ok (host x.1) x.2 → leases_ok (host y.1) y.2).
  { clear. induction 1 as [|[st g] [st1 g1] z Hs _ IH]; [done|].
    intros Hok. apply IH. by eapply lease_step_ok. }
  apply (Hgen _ _ H). by split.
Qed.

Definition mapped_storage : View.Storage := View.mkStorage 1 64 false true true true 0.

Lemma leases_exclusive_witness :
  leases_ok (mkHost 0 true false None) (mkGuards 0 1 0).
Proof.
  apply (leases_exclusive mapped_storage (mkState (mkHost 0 true false None) visibility_new)
    (mkGuards 0 1 0)).
  eapply rtc_once.
  exact (step_acquire mapped_storage true false (mkState host_default visibility_new)
    (mkGuards 0 0 0) (mkHost 0 true false None) eq_refl).
Defined.

(** A reservation whose cache maintenance fails leaves the lease words as they
    were before the attempt. *)
Lemma failed_acquire_rolls_back s write wait h v maintain e :
  acquire_attempt s write wait false h ≠ WaitForDevice →
  match acquire_attempt s write wait false h with
  | Reserved h' =>
      make_visible s maintain Host v = Err e →
      acquire_finish s write maintain (mkState h' v) = (mkState h v, Err e)
  | _ => True
  end.
Proof.
  intros _. destruct (acquire_attempt s write wait false h) as [| |h'] eqn:E; [done..|].
  apply acquire_attempt_Reserved in E as (_ & Hp & He & Hw & Hz & _ & ->).
  intros Hm. unfold acquire_finish; simpl. rewrite Hm. f_equal. f_equal.
  destruct h as [r w x p]; simpl in *; subst. unfold unreserve.
  destruct write; simpl; f_equal; lia.
Qed.

(** ** Visibility *)

(** Who has a current copy: the last writer always does. *)
Definition visibility_ok (v : Visibility) : Prop :=
  length (visible v) = 3%nat ∧ sees v (last_writer v) = true.

Lemma wrote_ok e : visibility_ok (wrote e).
Proof. by destruct e. Qed.

Lemma wrote_only e e' : sees (wrote e) e' = bool_decide (e = e').
Proof. by destruct e, e'. Qed.

Lemma sees_insert v e e' :
  length (visible v) = 3%nat →
  sees (mkVisibility (last_writer v) (<[engine_index e := true]> (visible v))) e'
  = bool_decide (e = e') || sees v e'.
Proof.
  unfold sees; simpl. destruct (visible v) as [|a [|b [|c []]]]; try done.
  intros _. by destruct e, e'.
Qed.

(** [make_visible] makes the consumer current, keeps every current engine, and
    performs maintenance of the whole allocation exactly when the consumer was
    stale and the allocation has native storage. *)
Lemma make_visible_spec s maintain e v v' n :
  visibility_ok v → make_visible s maintain e v = Ok (v', n) →
  visibility_ok v' ∧ sees v' e = true ∧ last_writer v' = last_writer v
  ∧ (∀ e', sees v e' = true → sees v' e' = true)
  ∧ n = (if negb (sees v e) && View.st_native s then View.st_bytes s else 0).
Proof.
  intros [Hlen Hlast] H. unfold make_visible in H. destruct (sees v e) eqn:Hs.
  { injection H as <- <-. split_and!; done. }
  pose proof (sees_insert v e) as Hins.
  assert (Hv' : v' = mkVisibility (last_writer v) (<[engine_index e := true]> (visible v))
    ∧ n = if View.st_native s then View.st_bytes s else 0).
  { destruct (View.st_native s); [destruct (maintain _)|]; simpl in H; naive_solver. }
  destruct Hv' as [-> ->]. split_and!; simpl; try done.
  - split; simpl; [by rewrite length_insert|]. rewrite Hins, Hlast by done. apply orb_true_r.
  - rewrite Hins by done. by rewrite bool_decide_eq_true_2.
  - intros e' He'. rewrite Hins, He' by done. apply orb_true_r.
Qed.

(** The copies the engines hold: [latest] numbers the newest contents and
    [copy e] the contents engine [e] would read. *)
Record Copies : Type := mkCopies { latest : nat; copy : Engine → nat }.

Definition set_copy (c : Copies) (e : Engine) (n : nat) : Engine → nat :=
  λ e', if bool_decide (e = e') then n else copy c e'.

(** Transitions of one allocation: an engine is made current before it reads,
    transferring the newest contents exactly when maintenance is performed; a
    current engine writes new contents into its own copy only. *)
Inductive visibility_step (s : View.Storage) (maintain : bool → Result unit)
    : Visibility * Copies → Visibility * Copies → Prop :=
| vis_read e v v' n c :
    make_visible s maintain e v = Ok (v', n) →
    visibility_step s maintain (v, c)
      (v', if 0 <? n then mkCopies (latest c) (set_copy c e (latest c)) else c)
| vis_write e v c :
    sees v e = true →
    visibility_step s maintain (v, c)
      (wrote e, mkCopies (S (latest c)) (set_copy c e (S (latest c)))).

Definition copies_ok (v : Visibility) (c : Copies) : Prop :=
  visibility_ok v ∧ ∀ e, sees v e = true → copy c e = latest c.

Lemma visibility_step_ok s maintain v c v' c' :
  View.st_native s = true → 0 < View.st_bytes s →
  visibility_step s maintain (v, c) (v', c') → copies_ok v c → copies_ok v' c'.
Proof.
  intros Hnative Hbytes Hstep [Hv Hc]. inversion Hstep as [e ?? n ? Hm|e ?? Hs]; subst; clear Hstep.
  - destruct (make_visible_spec _ _ _ _ _ _ Hv Hm) as (Hv' & He & _ & _ & Hn).
    split; [done|]. rewrite Hnative, andb_true_r in Hn. intros e' He'.
    assert (Hold : e ≠ e' → sees v e' = true).
    { intros Hne. unfold make_visible in Hm. destruct (sees v e) eqn:Hsee; [by injection Hm as <- _|].
      rewrite Hnative in Hm. destruct (maintain _); simpl in Hm; [|done]. injection Hm as <- _.
      rewrite sees_insert, bool_decide_eq_false_2 in He' by (done || apply Hv). done. }
    destruct (sees v e) eqn:Hsee; simpl in Hn; subst n.
    + rewrite Z.ltb_irrefl. apply Hc. destruct (decide (e = e')) as [->|]; auto.
    + rewrite (proj2 (Z.ltb_lt 0 _)) by lia. simpl. unfold set_copy.
      case_bool_decide; [done|]. by apply Hc, Hold.
  - split; [apply wrote_ok|]. intros e' He'. rewrite wrote_only in He'.
    simpl. unfold set_copy. by rewrite He'.
Qed.

(** Cache coherence of a tracked allocation: from a fresh allocation,
    through any sequence of reads and writes by the host, the GPU and the NPU,
    the visibility flags never claim too much: an engine flagged visible holds
    the newest contents, so an engine made visible before it reads, whether or
    not maintenance was needed, reads what the last writer wrote. *)
Theorem visible_engines_hold_newest s maintain v c :
  View.st_native s = true → 0 < View.st_bytes s →
  rtc (visibility_step s maintain) (visibility_new, mkCopies 0 (λ _, 0%nat)) (v, c) →
  (∀ e, sees v e = true → copy c e = latest c)
  ∧ (∀ e v' n c', make_visible s maintain e v = Ok (v', n) →
      c' = (if 0 <? n then mkCopies (latest c) (set_copy c e (latest c)) else c) →
      copy c' e = latest c).
Proof.
  intros Hnative Hbytes H.
  assert (Hgen : ∀ x y, rtc (visibility_step s maintain) x y →
    copies_ok x.1 x.2 → copies_ok y.1 y.2).
  { clear H. induction 1 as [|[v1 c1] [v2 c2] z Hs _ IH]; [done|]. intros Hx. apply IH.
    by eapply visibility_step_ok. }
  assert (Hok : copies_ok v c) by (apply (Hgen _ _ H); by split).
  split; [apply Hok|]. intros e v' n c' Hm ->.
  pose proof (visibility_step_ok _ _ _ _ _ _ Hnative Hbytes (vis_read s maintain e v v' n c Hm) Hok)
    as [_ Hc'].
  rewrite Hc'; [by destruct (0 <? n)|]. destruct Hok as [Hv _].
  by destruct (make_visible_spec _ _ _ _ _ _ Hv Hm) as (_ & ? & _).
Qed.

(** The contents after one host write. *)
Definition host_wrote_copies : Copies := mkCopies 1 (set_copy (mkCopies 0 (λ _, 0%nat)) Host 1).

Lemma visible_engines_hold_newest_witness :
  copy (mkCopies 1 (set_copy host_wrote_copies Gpu 1)) Gpu = latest host_wrote_copies.
Proof.
  assert (Hpath : rtc (visibility_step mapped_storage (λ _, Ok tt))
    (visibility_new, mkCopies 0 (λ _, 0%nat)) (wrote Host, host_wrote_copies)).
  { apply rtc_once. apply (vis_write mapped_storage (λ _, Ok tt) Host). reflexivity. }
  apply (proj2 (visible_engines_hold_newest mapped_storage (λ _, Ok tt) (wrote Host)
    host_wrote_copies eq_refl ltac:(reflexivity) Hpath) Gpu
    (mkVisibility Host [true; true; false]) 64); reflexivity.
Defined.

End Buffer.
