(* ===== verification/Trace.v ===== *)
(** * Execution traces

    Model of src/src/execution/trace.rs: an opt-in bounded ring of
    host-observed region latencies.  Times are clock readings; the conversion
    to floating-point microseconds is not modelled. *)

From S2P Require Import Prelude.
Local Open Scope Z_scope.

Module Trace.

(** [TraceEvent]. *)
Record TraceEvent : Type := mkEvent {
  ev_start : Z; ev_duration : Z; ev_lane : nat; ev_copied : Z; ev_failed : bool }.

(** [Capture], [Tracer], [ExecutionTrace]. *)
Record Capture : Type := mkCapture {
  epoch : Z; capacity : nat; events : list TraceEvent; dropped : nat }.
Record Tracer : Type := mkTracer { enabled : bool; capture : option Capture }.
Record ExecutionTrace : Type := mkTrace { trace_events : list TraceEvent; trace_dropped : nat }.

(** [Tracer::default]. *)
Definition tracer_default : Tracer := mkTracer false None.

(** [Tracer::start]. *)
Definition start (now : Z) (cap : nat) (t : Tracer) : Tracer * Result unit :=
  if (cap =? 0)%nat then (t, Err (Message "trace capacity must be nonzero"))
  else
    match capture t with
    | Some _ => (t, Err (Busy "a trace is already running"))
    | None => (mkTracer true (Some (mkCapture now cap [] 0)), Ok tt)
    end.

(** [Tracer::finish]. *)
Definition finish (t : Tracer) : Tracer * option ExecutionTrace :=
  (mkTracer false None, (λ c, mkTrace (events c) (dropped c)) <$> capture t).

(** [Tracer::record]. *)
Definition record (began elapsed : Z) (lane : nat) (copied : Z) (failed : bool) (t : Tracer) : Tracer :=
  if negb (enabled t) then t
  else
    match capture t with
    | None => t
    | Some c =>
        if began <? epoch c then t
        else
          let '(evs, dr) :=
            if (length (events c) =? capacity c)%nat then (tail (events c), S (dropped c))
            else (events c, dropped c) in
          mkTracer (enabled t)
            (Some (mkCapture (epoch c) (capacity c)
              (evs ++ [mkEvent (began - epoch c) elapsed lane copied failed]) dr))
    end.

(** Record a batch of regions in completion order. *)
Definition record_all (regions : list (Z * Z * nat * Z * bool)) (t : Tracer) : Tracer :=
  foldl (λ t '(began, elapsed, lane, copied, failed), record began elapsed lane copied failed t)
    t regions.

(** The events of the regions that started during the capture. *)
Definition captured (ep : Z) (regions : list (Z * Z * nat * Z * bool)) : list TraceEvent :=
  (λ '(began, elapsed, lane, copied, failed),
     mkEvent (began - ep) elapsed lane copied failed)
  <$> filter (λ '(began, _, _, _, _), ep <= began) regions.

(** A running capture after recording the events [evs]. *)
Definition holds (ep : Z) (cap : nat) (evs : list TraceEvent) (t : Tracer) : Prop :=
  t = mkTracer true (Some (mkCapture ep cap (drop (length evs - cap) evs) (length evs - cap))).

Lemma tail_drop {A} n (l : list A) : tail (drop n l) = drop (S n) l.
Proof. revert l; induction n as [|n IH]; intros [|x l]; simpl; done || apply IH. Qed.

Lemma record_holds ep cap evs t began elapsed lane copied failed :
  (0 < cap)%nat → holds ep cap evs t →
  holds ep cap
    (evs ++ if decide (ep <= began) then [mkEvent (began - ep) elapsed lane copied failed] else [])
    (record began elapsed lane copied failed t).
Proof.
  intros Hcap ->. unfold record, holds; simpl.
  destruct (Z.ltb_spec began ep), (decide (ep <= began)); try lia; [by rewrite app_nil_r|].
  rewrite length_drop, length_app; simpl.
  destruct (Nat.eqb_spec (length evs - (length evs - cap)) cap); f_equal; f_equal; f_equal; try lia.
  - replace (length evs + 1 - cap)%nat with (S (length evs - cap)) by lia.
    rewrite drop_app_le by lia. by rewrite tail_drop.
  - replace (length evs - cap)%nat with 0%nat by lia.
    replace (length evs + 1 - cap)%nat with 0%nat by lia. done.
Qed.

Lemma record_all_holds ep cap regions evs t :
  (0 < cap)%nat → holds ep cap evs t →
  holds ep cap (evs ++ captured ep regions) (record_all regions t).
Proof.
  intros Hcap. revert evs t.
  induction regions as [|[[[[began elapsed] lane] copied] failed] regions IH]; intros evs t Ht.
  { unfold captured; simpl. by rewrite app_nil_r. }
  pose proof (record_holds ep cap evs t began elapsed lane copied failed Hcap Ht) as Hr.
  apply IH in Hr. simpl. rewrite <-app_assoc in Hr. unfold captured. rewrite filter_cons.
  destruct (decide (ep <= began)); done.
Qed.

(** A trace keeps the most recent regions: from a started capture of
    capacity [cap], any sequence of regions leaves in the trace exactly the last
    [cap] regions that began during the capture, in completion order, and counts
    the discarded ones. *)
Theorem trace_keeps_most_recent now cap regions t t' tr :
  start now cap tracer_default = (t, Ok tt) → finish (record_all regions t) = (t', Some tr) →
  trace_events tr = drop (length (captured now regions) - cap) (captured now regions)
  ∧ trace_dropped tr = (length (captured now regions) - cap)%nat
  ∧ (length (trace_events tr) <= cap)%nat ∧ capture t' = None.
Proof.
  intros Hs Hf. unfold start in Hs. destruct (Nat.eqb_spec cap 0); [done|]. injection Hs as <-.
  pose proof (record_all_holds now cap regions [] (mkTracer true (Some (mkCapture now cap [] 0)))
    ltac:(lia) ltac:(done)) as Hh.
  unfold finish in Hf. rewrite Hh in Hf. injection Hf as <- <-. simpl.
  split_and!; [done|done| |done]. rewrite length_drop. lia.
Qed.

Lemma trace_keeps_most_recent_witness :
  trace_events (mkTrace [mkEvent 2 1 1 0 false] 1) =
    drop 1 (captured 0 [(1, 1, 0%nat, 0, false); (2, 1, 1%nat, 0, false)]).
Proof.
  apply (trace_keeps_most_recent 0 1 [(1, 1, 0%nat, 0, false); (2, 1, 1%nat, 0, false)]
    (mkTracer true (Some (mkCapture 0 1 [] 0))) (mkTracer false None)
    (mkTrace [mkEvent 2 1 1 0 false] 1)); reflexivity.
Defined.

End Trace.
