(* ===== verification/Statistics.v ===== *)
(** * Runtime counters

    [Counters] and [Statistics] of src/src/execution/statistics.rs: relaxed
    64-bit counters that wrap around, and their snapshot. *)

From S2P Require Import Prelude.
Local Open Scope Z_scope.

Module Stats.

(** [Counters]; [lane_copy_bytes] is the three-element array. *)
Record Counters : Type := mkCounters {
  native_graphs_prepared : Z;
  copy_streams_created : Z;
  allocations : Z;
  imports : Z;
  submissions : Z;
  completions : Z;
  copied_bytes : Z;
  lane_copy_bytes : list Z;
  cache_maintenance_bytes : Z;
  live_bytes : Z;
  peak_bytes : Z }.

(** [Counters::default]. *)
Definition counters_default : Counters := mkCounters 0 0 0 0 0 0 0 [0; 0; 0] 0 0 0.

(** [AtomicU64::fetch_add] and [AtomicU64::fetch_sub], which wrap around. *)
Definition fetch_add (counter n : Z) : Z := (counter + n) mod 2 ^ 64.
Definition fetch_sub (counter n : Z) : Z := (counter - n) mod 2 ^ 64.

Definition count_submission (c : Counters) : Counters :=
  mkCounters (native_graphs_prepared c) (copy_streams_created c) (allocations c) (imports c)
    (fetch_add (submissions c) 1) (completions c) (copied_bytes c) (lane_copy_bytes c)
    (cache_maintenance_bytes c) (live_bytes c) (peak_bytes c).
Definition count_completion (c : Counters) : Counters :=
  mkCounters (native_graphs_prepared c) (copy_streams_created c) (allocations c) (imports c)
    (submissions c) (fetch_add (completions c) 1) (copied_bytes c) (lane_copy_bytes c)
    (cache_maintenance_bytes c) (live_bytes c) (peak_bytes c).
Definition count_copy (lane : nat) (n : Z) (c : Counters) : Counters :=
  mkCounters (native_graphs_prepared c) (copy_streams_created c) (allocations c) (imports c)
    (submissions c) (completions c) (fetch_add (copied_bytes c) n)
    (alter (λ b, fetch_add b n) lane (lane_copy_bytes c))
    (cache_maintenance_bytes c) (live_bytes c) (peak_bytes c).
Definition count_maintenance (n : Z) (c : Counters) : Counters :=
  mkCounters (native_graphs_prepared c) (copy_streams_created c) (allocations c) (imports c)
    (submissions c) (completions c) (copied_bytes c) (lane_copy_bytes c)
    (fetch_add (cache_maintenance_bytes c) n) (live_bytes c) (peak_bytes c).

(** The accounting of a tracked allocation in [Runtime::allocate_inner], and of
    its release in [Drop for Storage]. *)
Definition count_allocation (shared : bool) (bytes : Z) (c : Counters) : Counters :=
  let live := fetch_add (live_bytes c) bytes in
  mkCounters (native_graphs_prepared c) (copy_streams_created c) (fetch_add (allocations c) 1)
    (if shared then fetch_add (imports c) 1 else imports c)
    (submissions c) (completions c) (copied_bytes c) (lane_copy_bytes c)
    (cache_maintenance_bytes c) live (Z.max (peak_bytes c) (live_bytes c + bytes)).
Definition count_release (bytes : Z) (c : Counters) : Counters :=
  mkCounters (native_graphs_prepared c) (copy_streams_created c) (allocations c) (imports c)
    (submissions c) (completions c) (copied_bytes c) (lane_copy_bytes c)
    (cache_maintenance_bytes c) (fetch_sub (live_bytes c) bytes) (peak_bytes c).

(** [Statistics], the snapshot by lane name. *)
Record Statistics : Type := mkStatistics {
  st_native_graphs_prepared : Z;
  st_copy_streams_created : Z;
  st_allocations : Z;
  st_imports : Z;
  st_submissions : Z;
  st_completions : Z;
  st_copied_bytes : Z;
  st_uploaded_bytes : Z;
  st_downloaded_bytes : Z;
  st_device_copied_bytes : Z;
  st_cache_maintenance_bytes : Z;
  st_live_bytes : Z;
  st_peak_bytes : Z }.

(** [Counters::snapshot]. *)
Definition snapshot (c : Counters) : Statistics :=
  mkStatistics (native_graphs_prepared c) (copy_streams_created c) (allocations c) (imports c)
    (submissions c) (completions c) (copied_bytes c)
    (nth 0 (lane_copy_bytes c) 0) (nth 2 (lane_copy_bytes c) 0) (nth 1 (lane_copy_bytes c) 0)
    (cache_maintenance_bytes c) (live_bytes c) (peak_bytes c).

(** Copies are reported once in total and once on their lane. *)
Lemma snapshot_count_copy lane n c :
  length (lane_copy_bytes c) = 3%nat → (lane < 3)%nat →
  let s := snapshot c in let s' := snapshot (count_copy lane n c) in
  st_copied_bytes s' = fetch_add (st_copied_bytes s) n
  ∧ (st_uploaded_bytes s', st_device_copied_bytes s', st_downloaded_bytes s')
    = match lane with
      | 0%nat => (fetch_add (st_uploaded_bytes s) n, st_device_copied_bytes s, st_downloaded_bytes s)
      | 1%nat => (st_uploaded_bytes s, fetch_add (st_device_copied_bytes s) n, st_downloaded_bytes s)
      | _ => (st_uploaded_bytes s, st_device_copied_bytes s, fetch_add (st_downloaded_bytes s) n)
      end.
Proof.
  intros Hlen Hlane. destruct (lane_copy_bytes c) as [|a [|b [|d []]]] eqn:E; try done.
  unfold snapshot, count_copy; simpl. rewrite E.
  destruct lane as [|[|[|lane]]]; try lia; done.
Qed.

End Stats.
