(* ===== verification/Tensor.v ===== *)
(** * Tensor descriptors

    [DType], [Layout], [TensorDesc] and [DeviceTensor::view] of
    src/src/tensor.rs.  The theorems show that an accepted strided layout maps
    distinct indices to distinct elements inside the byte extent it reports, and
    that a contiguous tensor is dense and row-major. *)

From S2P Require Import Prelude Access BufferView.
Local Open Scope Z_scope.

Module Tensor.

(** [DType], [DType::bytes]. *)
Inductive DType : Type := U8 | I32 | U32 | I64 | F16 | BF16 | F32.
Definition dtype_bytes (t : DType) : Z :=
  match t with U8 => 1 | F16 | BF16 => 2 | I32 | U32 | F32 => 4 | I64 => 8 end.

(** [Layout]. *)
Inductive Layout : Type := General | Nchw | Nhwc | Rows.

(** [TensorDesc]. *)
Record TensorDesc : Type := mkDesc {
  dtype : DType;
  shape : list Z;
  strides : list Z;
  layout : Layout;
  elements : Z;
  bytes : Z }.

Global Instance dtype_eq_dec : EqDecision DType.
Proof. solve_decision. Defined.
Global Instance layout_eq_dec : EqDecision Layout.
Proof. solve_decision. Defined.
Global Instance desc_eq_dec : EqDecision TensorDesc.
Proof. solve_decision. Defined.

(** [try_fold(1usize, |n, &d| n.checked_mul(d))]. *)
Fixpoint product (n : Z) (ds : list Z) : option Z :=
  match ds with [] => Some n | d :: rest => n' ← checked_mul n d; product n' rest end.

(** The axes with more than one element, by ascending stride.  Axes of equal
    stride are rejected in either order. *)
Definition by_stride (a b : Z * Z) : Prop := a.2 <= b.2.
Global Instance by_stride_dec a b : Decision (by_stride a b).
Proof. unfold by_stride. apply _. Defined.
Definition wide (a : Z * Z) : Prop := 1 < a.1.
Global Instance wide_dec a : Decision (wide a).
Proof. unfold wide. apply _. Defined.
Definition axes (shape strides : list Z) : list (Z * Z) :=
  merge_sort by_stride (filter wide (zip shape strides)).

(** [for (dimension, stride) in axes]. *)
Fixpoint grow (extent : Z) (l : list (Z * Z)) : Result Z :=
  match l with
  | [] => Ok extent
  | (dimension, stride) :: rest =>
      if stride <? extent then Err (Message "overlapping tensor strides")
      else
        match (n ← checked_mul (dimension - 1) stride; checked_add n extent) with
        | Some extent => grow extent rest
        | None => Err (Message "tensor extent overflow")
        end
  end.

Definition has_zero (l : list Z) : bool := bool_decide (0 ∈ l).

(** [TensorDesc::strided]. *)
Definition strided (t : DType) (shape strides : list Z) : Result TensorDesc :=
  if negb (length shape =? length strides)%nat || has_zero strides
  then Err (Message "invalid tensor strides")
  else
    let? elements := if has_zero shape then Ok 0
                     else ok_or (product 1 shape) (Message "tensor element count overflow") in
    let? extent := if has_zero shape then Ok 0 else grow 1 (axes shape strides) in
    match checked_mul extent (dtype_bytes t) with
    | Some n =>
        if n <=? isize_max then Ok (mkDesc t shape strides General elements n)
        else Err (Message "tensor byte extent overflow")
    | None => Err (Message "tensor byte extent overflow")
    end.

(** The loop of [TensorDesc::new], from the last dimension: the strides, and
    the stride of the dimension before. *)
Fixpoint row_major (shape : list Z) : option (list Z * Z) :=
  match shape with
  | [] => Some ([], 1)
  | dimension :: rest =>
      '(strides, stride) ← row_major rest;
      next ← checked_mul stride (Z.max dimension 1);
      Some (stride :: strides, next)
  end.

(** [TensorDesc::new]. *)
Definition new (t : DType) (shape : list Z) : Result TensorDesc :=
  if has_zero shape then strided t shape (replicate (length shape) 1)
  else
    let? strides := ok_or (fst <$> row_major shape) (Message "tensor stride overflow") in
    strided t shape strides.

(** [TensorDesc::with_layout]. *)
Definition with_layout (d : TensorDesc) (l : Layout) : Result TensorDesc :=
  let valid := match l with
    | General => true
    | Rows => (length (shape d) =? 2)%nat
    | Nchw | Nhwc => (length (shape d) =? 4)%nat
    end in
  if valid then Ok (mkDesc (dtype d) (shape d) (strides d) l (elements d) (bytes d))
  else Err (Message "tensor layout rank mismatch").

(** [TensorDesc::is_empty], [is_contiguous]; the loop runs from the last axis. *)
Definition is_empty (d : TensorDesc) : bool := elements d =? 0.
Fixpoint contiguous_from (l : list (Z * Z)) : option Z :=
  match l with
  | [] => Some 1
  | (dimension, actual) :: rest =>
      stride ← contiguous_from rest;
      if (1 <? dimension) && negb (actual =? stride) then None
      else checked_mul stride (Z.max dimension 1)
  end.
Definition is_contiguous (d : TensorDesc) : bool :=
  is_empty d || bool_decide (is_Some (contiguous_from (zip (shape d) (strides d)))).

(** [DeviceTensor::view]; producer and lease are shared unchanged. *)
Definition view (desc : TensorDesc) (storage : option View.BufferView) (byte_offset : Z) (d : TensorDesc)
    : Result (option View.BufferView) :=
  let? stop := ok_or (e ← checked_add byte_offset (bytes d); if e <=? bytes desc then Some e else None)
                 (Message "tensor view exceeds storage") in
  let origin := match storage with Some v => View.offset v | None => 0 end in
  if negb ((origin + byte_offset) mod dtype_bytes (dtype d) =? 0) then Err (Message "unaligned tensor view")
  else if is_empty d then Ok None
  else
    let? v := ok_or storage (Message "empty tensor has no storage") in
    let? v := View.slice v (mkRange byte_offset stop) in Ok (Some v).

(** ** Element offsets *)

(** An index of the shape, and the element offset it addresses. *)
Definition in_shape (shape idx : list Z) : Prop := Forall2 (λ d x, 0 <= x < d) shape idx.
Fixpoint offset_of (strides idx : list Z) : Z :=
  match strides, idx with
  | s :: strides, x :: idx => x * s + offset_of strides idx
  | _, _ => 0
  end.

(** The row-major position of an index. *)
Fixpoint position (shape idx : list Z) : Z :=
  match shape, idx with
  | d :: shape, x :: idx => x * foldr Z.mul 1 shape + position shape idx
  | _, _ => 0
  end.

(** Axes with the digits of two indices. *)
Abbreviation digits := (list ((Z * Z) * (Z * Z))).
Definition left_sum (l : digits) : Z := zsum (λ q, q.2.1 * q.1.2) l.
Definition right_sum (l : digits) : Z := zsum (λ q, q.2.2 * q.1.2) l.
Definition digits_ok (l : digits) : Prop := Forall (λ q, 0 <= q.2.1 < q.1.1 ∧ 0 <= q.2.2 < q.1.1) l.

(** Digits below the stride separate. *)
Lemma digit_unique s a1 a2 x1 x2 :
  0 <= a1 < s → 0 <= a2 < s → a1 + x1 * s = a2 + x2 * s → a1 = a2 ∧ x1 = x2.
Proof.
  intros H1 H2 Heq. assert (x1 = x2) as ->; [|lia].
  assert ((x1 - x2) * s = a2 - a1) by lia. destruct (Z.lt_trichotomy x1 x2) as [?|[?|?]]; nia.
Qed.

(** A nonoverlapping growth: offsets stay below the extent and are unique. *)
Lemma grow_unique (l : digits) extent e a1 a2 :
  grow extent (fst <$> l) = Ok e → digits_ok l → 0 <= a1 < extent → 0 <= a2 < extent →
  0 <= a1 + left_sum l < e
  ∧ (a1 + left_sum l = a2 + right_sum l → a1 = a2 ∧ Forall (λ q, q.2.1 = q.2.2) l).
Proof.
  revert extent a1 a2. induction l as [|[[d s] [x y]] l IH]; intros extent a1 a2 Hg Hok H1 H2.
  { simpl in Hg. injection Hg as ->. simpl. split; [lia|]. intros. split; [lia|constructor]. }
  apply Forall_cons in Hok as [[Hx Hy] Hok]. simpl in Hx, Hy. simpl in Hg.
  destruct (Z.ltb_spec s extent) as [|Hs]; [done|].
  destruct (checked_mul (d - 1) s) as [n|] eqn:En; simpl in Hg; [|done].
  destruct (checked_add n extent) as [ext'|] eqn:Ee; [|done].
  apply checked_mul_Some in En as [-> _]. apply checked_add_Some in Ee as [-> _].
  destruct (IH ((d - 1) * s + extent) (a1 + x * s) (a2 + y * s) Hg Hok) as [Hlt Huniq]; [nia|nia|].
  unfold left_sum, right_sum in *. simpl. split; [lia|]. intros Heq.
  destruct Huniq as [Heq' Hf]; [lia|].
  destruct (digit_unique s a1 a2 x y) as [-> ->]; [lia|lia|lia|]. split; [done|]. by constructor.
Qed.

(** Axes of one element have digit 0. *)
Definition wide_digits (q : (Z * Z) * (Z * Z)) : Prop := wide q.1.
Global Instance wide_digits_dec q : Decision (wide_digits q).
Proof. unfold wide_digits. apply _. Defined.

Lemma filter_fmap_digits (l : digits) : filter wide (fst <$> l) = fst <$> filter wide_digits l.
Proof.
  induction l as [|q l IH]; [done|]. rewrite fmap_cons, !filter_cons, IH.
  by destruct (decide (wide q.1)), (decide (wide_digits q)).
Qed.

Lemma narrow_sums (l : digits) :
  digits_ok l → left_sum (filter wide_digits l) = left_sum l ∧ right_sum (filter wide_digits l) = right_sum l.
Proof.
  unfold left_sum, right_sum. induction l as [|[[d s] [x y]] l IH]; simpl; [done|].
  intros [[Hx Hy] Hok]%Forall_cons. simpl in *. destruct (IH Hok) as [IH1 IH2].
  rewrite !filter_cons. destruct (decide (wide_digits (d, s, (x, y)))) as [|Hw]; simpl; rewrite IH1, IH2; [done|].
  unfold wide_digits, wide in Hw. simpl in Hw.
  assert (x = 0) as -> by lia. assert (y = 0) as -> by lia. lia.
Qed.

(** Any order of the axes: the extents only depend on which are wide. *)
Lemma axes_unique (l : digits) e :
  grow 1 (axes (fst <$> (fst <$> l)) (snd <$> (fst <$> l))) = Ok e → digits_ok l →
  0 <= left_sum l < e ∧ (left_sum l = right_sum l → Forall (λ q, q.2.1 = q.2.2) l).
Proof.
  unfold axes. intros Hg Hok.
  replace (zip (fst <$> (fst <$> l)) (snd <$> (fst <$> l))) with (fst <$> l) in Hg
    by by rewrite zip_fst_snd.
  rewrite filter_fmap_digits in Hg.
  pose proof (merge_sort_Permutation by_stride (fst <$> filter wide_digits l)) as Hp.
  destruct (Permutation_map_inv _ _ Hp) as (k & Hk & Hpk). rewrite Hk in Hg.
  assert (Hokk : digits_ok k).
  { unfold digits_ok in *. rewrite Forall_forall in *. intros q Hq. apply Hok. rewrite <-Hpk in Hq.
    by apply list_elem_of_filter in Hq as [_ ?]. }
  destruct (grow_unique k 1 e 0 0 Hg Hokk) as [Hlt Hu]; [lia|lia|].
  destruct (narrow_sums l Hok) as [N1 N2]. unfold left_sum, right_sum in *.
  rewrite <-N1, <-N2, (zsum_perm _ _ _ Hpk), (zsum_perm (λ q, q.2.2 * q.1.2) _ _ Hpk).
  split; [lia|]. intros Heq. destruct Hu as [_ Hf]; [lia|].
  unfold digits_ok in Hok. rewrite Forall_forall in *. intros q Hq. destruct (Hok q Hq) as [Hx Hy].
  destruct (decide (wide_digits q)) as [Hw|Hw].
  - apply Hf. rewrite <-Hpk. by apply list_elem_of_filter.
  - unfold wide_digits, wide in Hw. lia.
Qed.

(** The digits of two indices of a shape. *)
Definition pair_up (shape strides i j : list Z) : digits := zip (zip shape strides) (zip i j).

Lemma pair_up_ok shape strides i j :
  length shape = length strides → in_shape shape i → in_shape shape j →
  digits_ok (pair_up shape strides i j)
  ∧ fst <$> (fst <$> pair_up shape strides i j) = shape
  ∧ snd <$> (fst <$> pair_up shape strides i j) = strides
  ∧ left_sum (pair_up shape strides i j) = offset_of strides i
  ∧ right_sum (pair_up shape strides i j) = offset_of strides j
  ∧ (Forall (λ q, q.2.1 = q.2.2) (pair_up shape strides i j) → i = j).
Proof.
  unfold pair_up, in_shape, left_sum, right_sum. intros Hlen Hi. revert strides j Hlen.
  induction Hi as [|d x shape i Hx _ IH]; intros [|s strides] j Hlen Hj; try done;
    inversion Hj as [|? y ? j' Hy Hj']; subst; simpl in *.
  { split_and!; try done. constructor. }
  destruct (IH strides j' ltac:(lia) Hj') as (H1 & H2 & H3 & H4 & H5 & H6).
  split_and!; [by constructor|by f_equal|by f_equal|lia|lia|].
  intros [Hxy Hf]%Forall_cons. simpl in Hxy. by rewrite Hxy, (H6 Hf).
Qed.

Lemma product_foldr n ds m : product n ds = Some m → m = n * foldr Z.mul 1 ds.
Proof.
  revert n. induction ds as [|d ds IH]; intros n; simpl; [intros [= <-]; lia|].
  destruct (checked_mul n d) as [n'|] eqn:E; simpl; [|done]. apply checked_mul_Some in E as [-> _].
  intros ->%IH. lia.
Qed.

(** What [strided] computes on success. *)
Lemma strided_Ok t sh st d :
  strided t sh st = Ok d →
  length sh = length st ∧ 0 ∉ st ∧ dtype d = t ∧ shape d = sh ∧ strides d = st ∧ layout d = General
  ∧ bytes d <= isize_max
  ∧ (if has_zero sh then elements d = 0 ∧ bytes d = 0
     else elements d = foldr Z.mul 1 sh
       ∧ ∃ e, grow 1 (axes sh st) = Ok e ∧ bytes d = e * dtype_bytes t).
Proof.
  unfold strided, has_zero. destruct (Nat.eqb_spec (length sh) (length st)) as [Hl|]; [|done]. simpl.
  destruct (bool_decide (0 ∈ st)) eqn:Ez; [done|]. apply bool_decide_eq_false in Ez.
  intros H. inv_ok. rename a into n, a0 into e.
  destruct (checked_mul e (dtype_bytes t)) as [b|] eqn:Eb; [|done].
  destruct (Z.leb_spec b isize_max); [|done]. injection H as <-. simpl.
  apply checked_mul_Some in Eb as [-> _]. split_and!; try done.
  destruct (bool_decide (0 ∈ sh)); [by injection E as <-; injection E0 as <-|].
  split; [|by exists e]. destruct (product 1 sh) as [m|] eqn:Ep; [|done]. injection E as <-.
  apply product_foldr in Ep. lia.
Qed.

(** An accepted strided layout never overlaps: distinct indices of the
    shape address distinct elements, every element lies inside the reported
    byte extent, and the element count is the product of the dimensions. *)
Theorem strided_is_injective t sh st d i j :
  strided t sh st = Ok d → in_shape sh i → in_shape sh j →
  0 <= offset_of st i * dtype_bytes t ∧ (offset_of st i + 1) * dtype_bytes t <= bytes d
  ∧ elements d = foldr Z.mul 1 sh
  ∧ (offset_of st i = offset_of st j → i = j).
Proof.
  intros (Hl & _ & _ & _ & _ & _ & _ & Hd)%strided_Ok Hi Hj.
  assert (Hz : has_zero sh = false).
  { apply bool_decide_eq_false. intros [n Hn]%list_elem_of_lookup.
    destruct (Forall2_lookup_l _ _ _ _ _ Hi Hn) as (x & _ & Hx). lia. }
  rewrite Hz in Hd. destruct Hd as (He & e & Hg & Hb).
  destruct (pair_up_ok sh st i j Hl Hi Hj) as (Hok & H1 & H2 & H3 & H4 & H5).
  destruct (axes_unique (pair_up sh st i j) e) as [Hlt Hu]; [by rewrite H1, H2|done|].
  rewrite H3, H4 in *. assert (0 < dtype_bytes t) by by destruct t.
  split_and!; [nia|nia|done|auto].
Qed.

(** ** Contiguous tensors *)

Lemma contiguous_from_spec sh st stride :
  length sh = length st → (∀ d, d ∈ sh → 0 < d) → contiguous_from (zip sh st) = Some stride →
  stride = foldr Z.mul 1 sh ∧ ∀ i, in_shape sh i → offset_of st i = position sh i.
Proof.
  revert st stride. induction sh as [|d sh IH]; intros [|s st] stride Hl Hpos Hc; try done.
  { injection Hc as <-. split; [done|]. intros i Hi. inversion Hi. done. }
  simpl in Hc. destruct (contiguous_from (zip sh st)) as [n|] eqn:E; simpl in Hc; [|done].
  destruct (IH st n) as [-> Hoff]; [simpl in Hl; lia|intros x Hx; apply Hpos; by right|done|].
  assert (0 < d) by (apply Hpos; by left).
  destruct ((1 <? d) && negb (s =? foldr Z.mul 1 sh)) eqn:Eb; [done|].
  apply checked_mul_Some in Hc as [-> _]. split; [simpl; lia|].
  intros i Hi. inversion Hi as [|? x ? i' Hx Hi']; subst. simpl. rewrite Hoff by done.
  apply andb_false_iff in Eb. destruct Eb as [Eb|Eb].
  - apply Z.ltb_ge in Eb. assert (x = 0) as -> by lia. lia.
  - apply negb_false_iff, Z.eqb_eq in Eb. by rewrite Eb.
Qed.

Lemma row_major_spec sh st stride :
  (∀ d, d ∈ sh → 0 < d) → row_major sh = Some (st, stride) →
  length st = length sh ∧ contiguous_from (zip sh st) = Some stride
  ∧ zsum (λ a, (a.1 - 1) * a.2) (zip sh st) = stride - 1.
Proof.
  revert st stride. induction sh as [|d sh IH]; intros st stride Hpos Hr; simpl in Hr.
  { by injection Hr as <- <-. }
  destruct (row_major sh) as [[st' n]|] eqn:E; simpl in Hr; [|done].
  destruct (checked_mul n (Z.max d 1)) as [m|] eqn:Em; simpl in Hr; [|done]. injection Hr as <- <-.
  destruct (IH st' n) as (Hl & Hc & Hs); [intros x Hx; apply Hpos; by right|done|].
  assert (0 < d) by (apply Hpos; by left).
  simpl. rewrite Hc. simpl. rewrite Z.eqb_refl, andb_false_r. split_and!; [lia|done|].
  apply checked_mul_Some in Em as [-> _]. rewrite Hs. lia.
Qed.

(** The extent counts each axis once, in any order. *)
Lemma grow_sum extent l e :
  grow extent l = Ok e → e = extent + zsum (λ a, (a.1 - 1) * a.2) l.
Proof.
  revert extent. induction l as [|[d s] l IH]; intros extent; simpl; [intros [= ->]; lia|].
  destruct (s <? extent); [done|]. destruct (checked_mul (d - 1) s) as [n|] eqn:En; simpl; [|done].
  destruct (checked_add n extent) as [x|] eqn:Ex; [|done].
  apply checked_mul_Some in En as [-> _]. apply checked_add_Some in Ex as [-> _]. intros ->%IH. lia.
Qed.

Lemma wide_sum l :
  (∀ a, a ∈ l → 0 < a.1) →
  zsum (λ a, (a.1 - 1) * a.2) (filter wide l) = zsum (λ a, (a.1 - 1) * a.2) l.
Proof.
  induction l as [|[d s] l IH]; intros Hpos; [done|]. rewrite filter_cons. unfold wide at 1. simpl.
  specialize (Hpos (d, s) ltac:(by left)) as Hd. simpl in Hd.
  destruct (decide (1 < d)); simpl; rewrite IH by (intros a Ha; apply Hpos; by right); [lia|].
  assert (d = 1) as -> by lia. lia.
Qed.

(** A tensor made by [new] is contiguous and dense: its bytes are exactly
    its elements, and when it has elements the offset of an index is its
    row-major position. *)
Theorem new_is_dense t sh d :
  Forall (Z.le 0) sh → new t sh = Ok d →
  is_contiguous d = true ∧ bytes d = elements d * dtype_bytes t
  ∧ ∀ i, in_shape sh i → offset_of (strides d) i = position sh i.
Proof.
  intros Hnn Hn. unfold new in Hn. destruct (has_zero sh) eqn:Hz.
  - apply strided_Ok in Hn as (_ & _ & _ & _ & _ & _ & _ & Hd). rewrite Hz in Hd. destruct Hd as [He Hb].
    unfold is_contiguous, is_empty. rewrite He, Hb. split_and!; [done|done|]. intros i Hi.
    apply bool_decide_eq_true in Hz. apply list_elem_of_lookup in Hz as [n Hn'].
    destruct (Forall2_lookup_l _ _ _ _ _ Hi Hn') as (x & _ & Hx). lia.
  - assert (Hpos : ∀ d, d ∈ sh → 0 < d).
    { intros x Hx. apply bool_decide_eq_false in Hz. rewrite Forall_forall in Hnn. specialize (Hnn x Hx).
      assert (x ≠ 0) by (intros ->; done). lia. }
    destruct (row_major sh) as [[st n]|] eqn:Er; [|done]. simpl in Hn.
    destruct (row_major_spec sh st n Hpos Er) as (Hl & Hc & Hs).
    apply strided_Ok in Hn as (_ & _ & _ & Hsh & Hst & _ & _ & Hd). rewrite Hz in Hd.
    destruct Hd as (He & e & Hg & Hb). apply grow_sum in Hg. unfold axes in Hg.
    rewrite (zsum_perm _ _ _ (merge_sort_Permutation by_stride _)), wide_sum, Hs in Hg.
    2: { intros [x y] Hxy. simpl. apply Hpos. by apply elem_of_zip_l in Hxy. }
    destruct (contiguous_from_spec sh st n) as [-> Hoff]; [lia|done|done|].
    split_and!; [|rewrite Hb, Hg, He; lia|by rewrite Hst].
    unfold is_contiguous. rewrite Hsh, Hst, Hc. by rewrite orb_true_r.
Qed.

(** A contiguous layout, however it was made, has no gaps. *)
Lemma contiguous_sum sh st stride :
  length sh = length st → (∀ d, d ∈ sh → 0 < d) → contiguous_from (zip sh st) = Some stride →
  zsum (λ a, (a.1 - 1) * a.2) (zip sh st) = stride - 1.
Proof.
  revert st stride. induction sh as [|d sh IH]; intros [|s st] stride Hl Hpos Hc; try done.
  { by injection Hc as <-. }
  simpl in Hc. destruct (contiguous_from (zip sh st)) as [n|] eqn:E; simpl in Hc; [|done].
  assert (0 < d) by (apply Hpos; by left). destruct ((1 <? d) && negb (s =? n)) eqn:Eb; [done|].
  apply checked_mul_Some in Hc as [-> _]. cbn [zip zip_with]. rewrite zsum_cons.
  rewrite (IH st n) by (simpl in Hl; lia || done || (intros x Hx; apply Hpos; by right)). cbn.
  apply andb_false_iff in Eb as [Eb|Eb].
  - apply Z.ltb_ge in Eb. assert (d = 1) as -> by lia. lia.
  - apply negb_false_iff, Z.eqb_eq in Eb as ->. nia.
Qed.

Lemma nonzero_shape sh : Forall (Z.le 0) sh → has_zero sh = false → ∀ d, d ∈ sh → 0 < d.
Proof.
  intros Hnn Hz x Hx. apply bool_decide_eq_false in Hz. rewrite Forall_forall in Hnn. specialize (Hnn x Hx).
  assert (x ≠ 0) by (intros ->; done). lia.
Qed.

Lemma zero_product sh : has_zero sh = true → foldr Z.mul 1 sh = 0.
Proof.
  intros Hz%bool_decide_eq_true. induction sh as [|x sh IH]; [by apply elem_of_nil in Hz|]. cbn.
  apply elem_of_cons in Hz as [<-|Hz]; [lia|]. rewrite (IH Hz). lia.
Qed.

Lemma contiguous_bytes t sh st d :
  Forall (Z.le 0) sh → strided t sh st = Ok d → is_contiguous d = true →
  elements d = foldr Z.mul 1 sh ∧ bytes d = foldr Z.mul 1 sh * dtype_bytes t.
Proof.
  intros Hnn Hs Hc. apply strided_Ok in Hs as (Hl & _ & _ & Hsh & Hst & _ & _ & Hd).
  unfold is_contiguous, is_empty in Hc. destruct (has_zero sh) eqn:Hz.
  { destruct Hd as [-> ->]. by rewrite zero_product. }
  pose proof (nonzero_shape sh Hnn Hz) as Hpos. destruct Hd as (He & e & Hg & Hb). split; [done|].
  assert (elements d ≠ 0) as Hne.
  { rewrite He. clear -Hpos. assert (0 < foldr Z.mul 1 sh); [|lia].
    induction sh as [|x sh IH]; cbn; [lia|]. assert (0 < x) by (apply Hpos; by left).
    assert (0 < foldr Z.mul 1 sh) by (apply IH; intros y Hy; apply Hpos; by right). nia. }
  apply Z.eqb_neq in Hne. rewrite Hne, orb_false_l, Hsh, Hst in Hc.
  apply bool_decide_eq_true in Hc as [n Hc].
  destruct (contiguous_from_spec sh st n Hl Hpos Hc) as [-> _].
  apply contiguous_sum in Hc; [|done|done]. apply grow_sum in Hg. unfold axes in Hg.
  rewrite (zsum_perm _ _ _ (merge_sort_Permutation by_stride _)), wide_sum, Hc in Hg.
  2: { intros [x y] Hxy. simpl. apply Hpos. by apply elem_of_zip_l in Hxy. }
  rewrite Hb, Hg. lia.
Qed.

Lemma new_strided t sh d : new t sh = Ok d → ∃ st, strided t sh st = Ok d.
Proof.
  unfold new. destruct (has_zero sh); [eauto|]. destruct (row_major sh) as [[st n]|]; [|done]. cbn. eauto.
Qed.

Lemma strided_is_injective_witness :
  strided F32 [2; 3] [4; 1] = Ok (mkDesc F32 [2; 3] [4; 1] General 6 28)
  ∧ (offset_of [4; 1] [1; 2] + 1) * 4 <= 28.
Proof.
  split; [vm_compute; reflexivity|].
  apply (strided_is_injective F32 [2; 3] [4; 1] (mkDesc F32 [2; 3] [4; 1] General 6 28) [1; 2] [0; 0]);
    [vm_compute; reflexivity|repeat constructor; lia..].
Defined.

Lemma new_is_dense_witness :
  new I64 [2; 3; 4] = Ok (mkDesc I64 [2; 3; 4] [12; 4; 1] General 24 192)
  ∧ is_contiguous (mkDesc I64 [2; 3; 4] [12; 4; 1] General 24 192) = true.
Proof.
  split; [vm_compute; reflexivity|].
  apply (new_is_dense I64 [2; 3; 4]); [repeat constructor; lia|vm_compute; reflexivity].
Defined.

End Tensor.
