(* ===== verification/BufferPool.v ===== *)
(** * The pool of temporary device buffers

    Model of src/src/buffer_pool.rs: a bounded free list of blocks by size,
    bound to the first stream that uses it.  Allocation on the stream is foreign
    code.  The theorems show that the retained bytes are accounted for and
    bounded, and that a block is never handed out twice. *)

From S2P Require Import Prelude BTreeMap.
Local Open Scope Z_scope.

Module Pool.

(** [Buffer], by identity and exposed size. *)
Record Buffer : Type := mkBuffer { buf_id : nat; buf_bytes : Z }.

(** [FreeList], [BufferPool]. *)
Record FreeList : Type := mkFree {
  cached : Z;
  blocks : list (Z * list Buffer);
  stream : option nat }.
Record BufferPool : Type := mkPool { limit : Z; free : FreeList }.

Definition default_limit : Z := 512 * 2 ^ 20.

(** [BufferPool::with_limit], [BufferPool::default]. *)
Definition with_limit (limit : Z) : BufferPool := mkPool limit (mkFree 0 [] None).
Definition default_pool : BufferPool := with_limit default_limit.

(** [Vec::pop]. *)
Definition pop {A} (v : list A) : list A := take (pred (length v)) v.

(** Take the last block of [size] and drop its list when that was the only one. *)
Definition take_block (size : Z) (m : list (Z * list Buffer)) : list (Z * list Buffer) :=
  let popped := BTree.entry_or size [] pop m in
  if (length (default [] (BTree.get size popped)) =? 0)%nat then BTree.remove size popped else popped.

(** [BufferPool::acquire]: [allocate] is [stream.allocate]. *)
Definition acquire (stream_id : nat) (allocate : Z → Result Buffer) (bytes : Z) (p : BufferPool)
    : BufferPool * Result Buffer :=
  if bytes =? 0 then (p, Err (Message "empty pooled allocation"))
  else
    if match stream (free p) with Some owner => negb (owner =? stream_id)%nat | None => false end then
      (p, Err (Message "a buffer pool serves one stream because reuse follows that queue's order"))
    else
      let f := mkFree (cached (free p)) (blocks (free p)) (Some stream_id) in
      match BTree.first_in bytes (saturating_mul bytes 2) (blocks f) with
      | Some (size, v) =>
          match last v with
          | Some b =>
              (mkPool (limit p) (mkFree (cached f - size) (take_block size (blocks f)) (stream f)), Ok b)
          | None =>
              (mkPool (limit p) (mkFree (cached f) (BTree.entry_or size [] pop (blocks f)) (stream f)), allocate bytes)
          end
      | None => (mkPool (limit p) f, allocate bytes)
      end.

(** [BufferPool::release], on [Drop for PooledBuffer]. *)
Definition release (b : Buffer) (p : BufferPool) : BufferPool :=
  if saturating_sub (limit p) (cached (free p)) <? buf_bytes b then p
  else mkPool (limit p) (mkFree (cached (free p) + buf_bytes b)
         (BTree.entry_or (buf_bytes b) [] (λ v, v ++ [b]) (blocks (free p))) (stream (free p))).

(** ** Blocks *)

Definition retained (p : BufferPool) : list Buffer := blocks (free p) ≫= snd.

Lemma flat_push k b (m : list (Z * list Buffer)) :
  BTree.entry_or k [] (λ v, v ++ [b]) m ≫= snd ≡ₚ b :: (m ≫= snd).
Proof.
  induction m as [|[k' v] m IH]; simpl; [done|]. repeat case_bool; rewrite ?bind_cons; simpl.
  - done.
  - rewrite <-app_assoc. simpl. by rewrite Permutation_middle.
  - rewrite IH. by rewrite Permutation_middle.
Qed.

Lemma last_pop {A} (v : list A) x : last v = Some x → v = pop v ++ [x].
Proof.
  rewrite last_Some. intros [l' ->]. unfold pop. rewrite length_app, Nat.add_comm. simpl.
  by rewrite take_app_length.
Qed.

Lemma flat_pop lo k v b (m : list (Z * list Buffer)) :
  BTree.sorted_from lo m → BTree.get k m = Some v → last v = Some b →
  m ≫= snd ≡ₚ b :: (BTree.entry_or k [] pop m ≫= snd).
Proof.
  revert lo. induction m as [|[k' w] m IH]; intros lo Hs Hg Hl; simpl in *; [done|]. destruct Hs as [? Hs].
  destruct (Z.eqb_spec k k') as [->|Hne].
  - injection Hg as ->. rewrite Z.ltb_irrefl. rewrite !bind_cons. simpl.
    rewrite (last_pop v b Hl) at 1. by rewrite <-app_assoc, Permutation_middle.
  - assert (k' < k).
    { destruct (Z.lt_ge_cases k' k); [done|]. rewrite (BTree.get_below k') in Hg; [done|done|lia]. }
    rewrite (proj2 (Z.ltb_ge k k')) by lia. rewrite !bind_cons. simpl.
    rewrite (IH k' Hs Hg Hl). by rewrite Permutation_middle.
Qed.

Lemma flat_remove_empty k (m : list (Z * list Buffer)) :
  BTree.get k m = Some [] → BTree.remove k m ≫= snd = m ≫= snd.
Proof.
  induction m as [|[k' w] m IH]; simpl; [done|]. case_bool; [by intros [= ->]|].
  intros Hg. rewrite !bind_cons. by rewrite IH.
Qed.

(** Blocks are filed under their size and no list is empty. *)
Definition filed (m : list (Z * list Buffer)) : Prop :=
  BTree.sorted m ∧ ∀ k v, BTree.get k m = Some v → v ≠ [] ∧ Forall (λ b, buf_bytes b = k) v.

Lemma take_block_filed size v b m :
  filed m → BTree.get size m = Some v → last v = Some b →
  filed (take_block size m) ∧ m ≫= snd ≡ₚ b :: (take_block size m ≫= snd) ∧ buf_bytes b = size.
Proof.
  intros [Hs Hf] Hg Hl. pose proof Hs as [lo Hlo]. pose proof (flat_pop lo size v b m Hlo Hg Hl) as Hperm.
  destruct (Hf _ _ Hg) as [_ Hv]. rewrite (last_pop v b Hl), Forall_app in Hv. destruct Hv as [Hpop Hb].
  rewrite Forall_singleton in Hb. unfold take_block. set (popped := BTree.entry_or size [] pop m) in *.
  assert (Hget : ∀ k, BTree.get k popped = if decide (k = size) then Some (pop v) else BTree.get k m).
  { intros k. unfold popped. rewrite BTree.get_entry_or by done. by rewrite Hg. }
  assert (Hsp : BTree.sorted popped) by by apply BTree.entry_or_sorted.
  pose proof (Hget size) as Hsz. rewrite decide_True in Hsz by done. rewrite Hsz. simpl.
  destruct (Nat.eqb_spec (length (pop v)) 0) as [H0|H0].
  - apply nil_length_inv in H0. split_and!; [split| |exact Hb].
    + destruct Hsp as [l Hsp]. exists l. by apply BTree.remove_sorted_from.
    + intros k w. rewrite BTree.get_remove by done. case_decide; [done|]. rewrite Hget, decide_False by done. apply Hf.
    + rewrite flat_remove_empty; [done|]. by rewrite Hsz, H0.
  - split_and!; [split; [done|]|done|done]. intros k w. rewrite Hget. case_decide as Hk; [|apply Hf].
    intros [= <-]. subst k. split; [by intros E; rewrite E in H0|done].
Qed.

Lemma push_filed b m : filed m → filed (BTree.entry_or (buf_bytes b) [] (λ v, v ++ [b]) m).
Proof.
  intros [Hs Hf]. split; [by apply BTree.entry_or_sorted|]. intros k v.
  rewrite BTree.get_entry_or by done. case_decide as Hk; [|apply Hf]. intros [= <-]. subst k. split.
  - by intros [_ ?]%app_nil.
  - apply Forall_app. split; [|by apply Forall_singleton].
    destruct (BTree.get (buf_bytes b) m) as [w|] eqn:Hg; simpl; [by apply Hf|constructor].
Qed.

(** ** The pool and its leases *)

(** The retained bytes are exact and within the limit. *)
Record pool_ok (p : BufferPool) : Prop := {
  ok_filed : filed (blocks (free p));
  ok_positive : Forall (λ b, 0 <= buf_bytes b) (retained p);
  ok_cached : cached (free p) = zsum buf_bytes (retained p);
  ok_limit : cached (free p) <= limit p }.

Lemma with_limit_ok n : 0 <= n → pool_ok (with_limit n).
Proof.
  intros Hn. split; [split; [by exists 0|]|..]; try done; unfold retained; simpl; try constructor.
Qed.

(** What [acquire] does: refuse, reuse the smallest fitting block, or allocate. *)
Lemma acquire_cases sid allocate bytes p p' r :
  pool_ok p → acquire sid allocate bytes p = (p', r) →
  (p' = p ∧ (∃ e, r = Err e) ∧ (bytes = 0 ∨ ∃ owner, stream (free p) = Some owner ∧ owner ≠ sid))
  ∨ (stream (free p') = Some sid ∧ (stream (free p) = None ∨ stream (free p) = Some sid) ∧ limit p' = limit p
     ∧ ((∃ b, r = Ok b ∧ retained p ≡ₚ b :: retained p' ∧ pool_ok p'
          ∧ bytes <= buf_bytes b <= 2 * bytes
          ∧ ∀ c, c ∈ retained p → bytes <= buf_bytes c <= saturating_mul bytes 2 → buf_bytes b <= buf_bytes c)
        ∨ (r = allocate bytes ∧ retained p' = retained p ∧ pool_ok p'
           ∧ ∀ c, c ∈ retained p → ¬ bytes <= buf_bytes c <= saturating_mul bytes 2))).
Proof.
  intros [[Hs Hf] Hpos Hc Hl] Ha. unfold acquire in Ha.
  destruct (Z.eqb_spec bytes 0); [injection Ha as <- <-; left; eauto 10|].
  destruct (match stream (free p) with Some owner => negb (owner =? sid)%nat | None => false end) eqn:Eo.
  { injection Ha as <- <-. left. split_and!; [done|eauto|right].
    destruct (stream (free p)) as [o|]; [|done]. exists o. to_prop. done. }
  assert (Hst : stream (free p) = None ∨ stream (free p) = Some sid).
  { destruct (stream (free p)) as [o|]; [|by left]. to_prop. right. congruence. }
  right. simpl in Ha.
  assert (Hin : ∀ c, c ∈ retained p → ∃ v, (buf_bytes c, v) ∈ blocks (free p)).
  { intros c ((k & v) & Hcv & Hkv)%list_elem_of_bind. simpl in Hcv. pose proof Hkv as Hg.
    apply (BTree.elem_of_get _ _ _ Hs) in Hg. destruct (Hf _ _ Hg) as [_ Hfk]. rewrite Forall_forall in Hfk.
    rewrite (Hfk c Hcv). eauto. }
  destruct (BTree.first_in bytes (saturating_mul bytes 2) (blocks (free p))) as [[size v]|] eqn:Ef.
  - pose proof (BTree.first_in_Some _ _ _ _ _ Ef) as [Hg Hrange]. apply (BTree.elem_of_get _ _ _ Hs) in Hg.
    destruct (last v) as [b|] eqn:El; [|apply last_None in El; by destruct (Hf _ _ Hg)].
    destruct (take_block_filed _ _ _ _ (conj Hs Hf) Hg El) as (Hfiled & Hperm & Hb).
    injection Ha as <- <-. split_and!; [done|done|done|]. left. exists b.
    assert (Hpos' : 0 <= buf_bytes b ∧ Forall (λ b, 0 <= buf_bytes b) (take_block size (blocks (free p)) ≫= snd)).
    { unfold retained in Hpos. rewrite Hperm in Hpos. by apply Forall_cons in Hpos. }
    split_and!; [done|done| |unfold saturating_mul in Hrange; lia..|].
    + unfold retained in Hc. rewrite (zsum_perm _ _ _ Hperm) in Hc. simpl in Hc. destruct Hpos'.
      split; simpl; unfold retained; simpl; [done|done|lia|lia].
    + intros c Hcr Hcb. rewrite Hb. destruct (Hin c Hcr) as [w Hw]. by eapply BTree.first_in_least.
  - injection Ha as <- <-. split_and!; [done|done|done|]. right. split_and!; [done|done|by constructor; [split|..]|].
    intros c Hcr. destruct (Hin c Hcr) as [w Hw]. by eapply BTree.first_in_None.
Qed.

Lemma release_cases b p :
  pool_ok p → 0 <= buf_bytes b →
  pool_ok (release b p) ∧ limit (release b p) = limit p ∧ stream (free (release b p)) = stream (free p)
  ∧ (retained (release b p) = retained p ∨ retained (release b p) ≡ₚ b :: retained p).
Proof.
  intros [Hf Hpos Hc Hl] Hb. unfold release, saturating_sub.
  destruct (Z.ltb_spec (Z.max (limit p - cached (free p)) 0) (buf_bytes b)).
  { split_and!; [done|done|done|by left]. }
  pose proof (flat_push (buf_bytes b) b (blocks (free p))) as Hperm.
  split_and!; [|done|done|by right]. split; simpl; unfold retained; simpl.
  - by apply push_filed.
  - rewrite Hperm. by constructor.
  - rewrite (zsum_perm _ _ _ Hperm). simpl. unfold retained in Hc. lia.
  - lia.
Qed.

(** A pool with the buffers its clients hold: leases are taken by [acquire] and
    given back on drop; a fresh allocation has an identity not in use. *)
Inductive step : BufferPool * list Buffer → BufferPool * list Buffer → Prop :=
| step_acquire p p' leased sid allocate bytes b :
    0 <= bytes → acquire sid allocate bytes p = (p', Ok b) →
    (∀ c, allocate bytes = Ok c → 0 <= buf_bytes c ∧ buf_id c ∉ buf_id <$> leased ++ retained p) →
    step (p, leased) (p', b :: leased)
| step_refused p p' leased sid allocate bytes e :
    acquire sid allocate bytes p = (p', Err e) → step (p, leased) (p', leased)
| step_release p leased i b :
    leased !! i = Some b → step (p, leased) (release b p, delete i leased).

Record world_ok (n : Z) (x : BufferPool * list Buffer) : Prop := {
  world_pool : pool_ok x.1;
  world_limit : limit x.1 = n;
  world_leased : Forall (λ b, 0 <= buf_bytes b) x.2;
  world_unique : NoDup (buf_id <$> x.2 ++ retained x.1) }.

Lemma step_ok n x y : world_ok n x → step x y → world_ok n y.
Proof.
  intros [Hp Hn Hl Hu] Hs. destruct Hs as [p p' leased sid allocate bytes b Hb Ha Hfresh|p p' leased sid allocate bytes e Ha|p leased i b Hi]; simpl in *.
  - destruct (acquire_cases _ _ _ _ _ _ Hp Ha) as [(_ & [e ?] & _)|(_ & _ & Hlim & [(c & [= <-] & Hperm & Hok & _)|(Hr & Hret & Hok & _)])]; [done|..].
    + pose proof (ok_positive _ Hp) as Hpos. rewrite Hperm in Hpos. apply Forall_cons in Hpos as [? _].
      split; simpl; [done|congruence|by constructor|].
      eapply NoDup_Permutation_proper; [|exact Hu]. simpl. rewrite Hperm. by rewrite <-Permutation_middle.
    + destruct (Hfresh b) as [Hpos Hid]; [done|].
      split; simpl; [done|congruence|by constructor|]. rewrite Hret. by apply NoDup_cons.
  - destruct (acquire_cases _ _ _ _ _ _ Hp Ha) as [(-> & _)|(_ & _ & Hlim & [(c & ? & _)|(_ & Hret & Hok & _)])]; [done|done|].
    split; simpl; [done|congruence|done|by rewrite Hret].
  - pose proof (delete_Permutation _ _ _ Hi) as Hperm.
    assert (Hlb : 0 <= buf_bytes b ∧ Forall (λ b, 0 <= buf_bytes b) (delete i leased)).
    { rewrite Forall_forall in Hl. split; [apply Hl; by eapply list_elem_of_lookup_2|].
      apply Forall_forall. intros c Hc. apply Hl. apply (elem_of_delete_cons _ _ _ _ Hi). by right. }
    destruct Hlb as [Hb Hl']. destruct (release_cases b p Hp Hb) as (Hok & Hlim & _ & Hret).
    assert (Hall : NoDup (buf_id <$> b :: delete i leased ++ retained p)).
    { eapply NoDup_Permutation_proper; [|exact Hu]. apply fmap_Permutation. by rewrite app_comm_cons, <-Hperm. }
    split; simpl; [done|congruence|done|]. destruct Hret as [-> | Hret].
    + by apply NoDup_cons in Hall as [_ ?].
    + eapply NoDup_Permutation_proper; [|exact Hall]. apply fmap_Permutation. by rewrite Hret, <-Permutation_middle.
Qed.

(** The pool never hands a block to two clients and stays within its limit:
    from an empty pool, through any sequence of acquisitions and drops, every
    buffer is leased once or retained once, and the retained bytes are exactly
    the counted ones and at most the limit. *)
Theorem pooled_blocks_are_exclusive n p leased :
  0 <= n → rtc step (with_limit n, []) (p, leased) →
  NoDup (buf_id <$> leased ++ retained p)
  ∧ cached (free p) = zsum buf_bytes (retained p) ∧ 0 <= cached (free p) <= n.
Proof.
  intros Hn Hr.
  assert (Hok : world_ok n (p, leased)).
  { assert (H0 : world_ok n (with_limit n, [])).
    { split; simpl; [by apply with_limit_ok|done|constructor|constructor]. }
    revert H0 Hr. generalize (with_limit n, @nil Buffer) as x. intros x H0 Hr.
    remember (p, leased) as y. clear Heqy p leased. induction Hr; eauto using step_ok. }
  destruct Hok as [[Hf Hpos Hc Hl] Hlim _ Hu]. simpl in *. split_and!; [done|done| |lia].
  rewrite Hc. by apply zsum_nonneg.
Qed.

(** A reused block fits and wastes at most half: when [acquire] reuses, the
    block has between one and two times the requested bytes and is the smallest
    retained one in that interval; it allocates only when no retained block
    fits, and it refuses another stream. *)
Theorem acquire_reuses_best_fit sid allocate bytes p p' r :
  pool_ok p → acquire sid allocate bytes p = (p', r) →
  ((∃ owner, stream (free p) = Some owner ∧ owner ≠ sid) ∨ bytes = 0 → p' = p ∧ ∃ e, r = Err e)
  ∧ (bytes ≠ 0 → stream (free p) = None ∨ stream (free p) = Some sid →
     (∃ b, r = Ok b ∧ b ∈ retained p ∧ retained p ≡ₚ b :: retained p' ∧ bytes <= buf_bytes b <= 2 * bytes
        ∧ ∀ c, c ∈ retained p → bytes <= buf_bytes c <= saturating_mul bytes 2 → buf_bytes b <= buf_bytes c)
     ∨ (r = allocate bytes ∧ retained p' = retained p
        ∧ ∀ c, c ∈ retained p → ¬ bytes <= buf_bytes c <= saturating_mul bytes 2)).
Proof.
  intros Hp Ha. pose proof (acquire_cases _ _ _ _ _ _ Hp Ha) as Hc. split.
  - intros Hw. destruct Hc as [(-> & He & _)|(_ & Hst & _)]; [done|].
    destruct Hw as [(o & Ho & Hne)| ->].
    + destruct Hst as [Hst|Hst]; congruence.
    + unfold acquire in Ha. simpl in Ha. injection Ha as <- <-. eauto.
  - intros Hb Hst. destruct Hc as [(_ & _ & [?|(o & Ho & Hne)])|(_ & _ & _ & [(b & -> & Hperm & _ & Hr & Hmin)|(? & ? & _ & ?)])].
    + done.
    + destruct Hst; congruence.
    + left. exists b. split_and!; [done| |done|lia|lia|done]. rewrite Hperm. by left.
    + right. done.
Qed.

Definition demo_bound : BufferPool := mkPool 128 (mkFree 0 [] (Some 0%nat)).
Definition demo_pool : BufferPool := release (mkBuffer 1 96) demo_bound.

Lemma pooled_blocks_are_exclusive_witness :
  cached (free demo_pool) = 96 ∧ NoDup (buf_id <$> [] ++ retained demo_pool).
Proof.
  split; [vm_compute; reflexivity|].
  apply (pooled_blocks_are_exclusive 128 demo_pool []); [lia|].
  apply rtc_l with (demo_bound, [mkBuffer 1 96]).
  - apply (step_acquire _ _ _ 0 (λ n, Ok (mkBuffer 1 n)) 96); [lia|reflexivity|].
    intros c [= <-]. simpl. split; [lia|]. apply not_elem_of_nil.
  - apply rtc_once. exact (step_release demo_bound [mkBuffer 1 96] 0 (mkBuffer 1 96) eq_refl).
Defined.

Lemma acquire_reuses_best_fit_witness :
  acquire 0 (λ n, Ok (mkBuffer 2 n)) 64 demo_pool = (mkPool 128 (mkFree 0 [] (Some 0%nat)), Ok (mkBuffer 1 96))
  ∧ mkBuffer 1 96 ∈ retained demo_pool.
Proof.
  split; [vm_compute; reflexivity|].
  destruct (acquire_reuses_best_fit 0 (λ n, Ok (mkBuffer 2 n)) 64 demo_pool
    (mkPool 128 (mkFree 0 [] (Some 0%nat))) (Ok (mkBuffer 1 96))) as [_ H].
  - apply release_cases; [|simpl; lia]. split; [split; [by exists 0|done]|constructor|done|simpl; lia].
  - vm_compute; reflexivity.
  - destruct (H ltac:(lia) (or_intror eq_refl)) as [(b & Hr & Hb & _)|(Hf & _)]; [|discriminate].
    injection Hr as <-. exact Hb.
Defined.

End Pool.
