(* ===== verification/HostVisibility.v ===== *)
(** * Host cache visibility

    Model of src/src/fabric/visibility.rs: the facts decoded from the native
    provider, and host cache work prepared as coalesced byte ranges.  The native
    cache-control call is a parameter.  The theorems show that coalescing covers
    exactly the requested bytes with the fewest separate ranges, and that
    executing prepared work maintains every requested byte inside the buffer. *)

From S2P Require Import Prelude Access.
Local Open Scope Z_scope.

Module HostVisibility.

(** [TransitionKind], [CacheExecutor], [CacheOperation], [AtomicScope]. *)
Inductive TransitionKind : Type := KUnknown | KNone | KRange | KGlobal.
Inductive CacheExecutor : Type := XNone | XQueue | XProgram | XHostDirect | XHostApi.
Inductive CacheOperation : Type := ONone | OReleaseToSystem | OAcquireFromSystem.
Inductive AtomicScope : Type := SNone | SDevice | SFabric | SSystem.

Global Instance kind_eq_dec : EqDecision TransitionKind.
Proof. solve_decision. Defined.
Global Instance executor_eq_dec : EqDecision CacheExecutor.
Proof. solve_decision. Defined.

(** [amdf_cache_transition_t]: the fields the crate reads. *)
Record NativeTransition : Type := mkNative {
  n_kind : Z; n_executor : Z; n_operation : Z; n_range_granularity : Z; n_host_operation : Z }.

(** [CacheTransition]. *)
Record CacheTransition : Type := mkTransition {
  kind : TransitionKind;
  executor : CacheExecutor;
  operation : CacheOperation;
  range_granularity : Z;
  native : NativeTransition }.

(** [missing] of src/src/fabric/mod.rs. *)
Definition missing (name : string) : Error := Unsupported ("libamdf ABI is missing " +:+ name).

(** [CacheTransition::from_native], with the constants of fabric/ffi.rs. *)
Definition kind_of (n : Z) : Result TransitionKind :=
  if n =? 0 then Ok KUnknown else if n =? 1 then Ok KNone else if n =? 2 then Ok KRange
  else if n =? 3 then Ok KGlobal else Err (missing "cache transition kind").
Definition executor_of (n : Z) : Result CacheExecutor :=
  if n =? 0 then Ok XNone else if n =? 1 then Ok XQueue else if n =? 2 then Ok XProgram
  else if n =? 3 then Ok XHostDirect else if n =? 4 then Ok XHostApi
  else Err (missing "cache transition executor").
Definition operation_of (n : Z) : Result CacheOperation :=
  if n =? 0 then Ok ONone else if n =? 1 then Ok OReleaseToSystem else if n =? 2 then Ok OAcquireFromSystem
  else Err (missing "cache operation").
Definition transition_from_native (n : NativeTransition) : Result CacheTransition :=
  let? k := kind_of (n_kind n) in
  let? x := executor_of (n_executor n) in
  let? o := operation_of (n_operation n) in
  Ok (mkTransition k x o (n_range_granularity n) n).

(** [AtomicScope::from_native]. *)
Definition scope_from_native (n : Z) : Result AtomicScope :=
  if n =? 0 then Ok SNone else if n =? 1 then Ok SDevice else if n =? 2 then Ok SFabric
  else if n =? 3 then Ok SSystem else Err (missing "atomic scope").

(** [amdf_memory_pair_info_t] and [VisibilityFacts]. *)
Record NativePair : Type := mkPair {
  p_flags : Z; p_release : NativeTransition; p_acquire : NativeTransition;
  p_scope_32 : Z; p_scope_64 : Z; p_cost : Z }.
Record VisibilityFacts : Type := mkFacts {
  shared_backing_reachable : bool;
  release : CacheTransition;
  acquire : CacheTransition;
  atomic_scope_32 : AtomicScope;
  atomic_scope_64 : AtomicScope;
  estimated_fixed_cost_ns : option Z }.

(** [VisibilityFacts::from_native]: flag bits 1 and 4. *)
Definition facts_from_native (p : NativePair) : Result VisibilityFacts :=
  let? rel := transition_from_native (p_release p) in
  let? acq := transition_from_native (p_acquire p) in
  let? s32 := scope_from_native (p_scope_32 p) in
  let? s64 := scope_from_native (p_scope_64 p) in
  Ok (mkFacts (negb (Z.land (p_flags p) 1 =? 0)) rel acq s32 s64
        (if negb (Z.land (p_flags p) 4 =? 0) then Some (p_cost p) else None)).

(** A buffer behind a [MemoryVisibility]: its length and the native mapping of
    the buffer at the end of the [source] chain. *)
Record Backing : Type := mkBacking { backing_len : Z; mapping : Z }.

(** [MemoryVisibility::host_transition]; [control] is the native
    [host_mapping_cache_control] call.  The calls made are returned too. *)
Definition host_action (x : CacheExecutor) : bool :=
  match x with XHostApi | XHostDirect => true | _ => false end.
Definition host_transition (control : Z → Z → Z → Z → Result unit) (b : Backing) (f : VisibilityFacts)
    (t : CacheTransition) (offset length : Z) : Result unit :=
  if match checked_add offset length with Some stop => backing_len b <? stop | None => true end
  then Err (Message "visibility range out of bounds")
  else if negb (shared_backing_reachable f) then Err (Unsupported "shared backing is unreachable")
  else if bool_decide (kind t = KNone) then Ok tt
  else if negb (host_action (executor t)) then Err (Unsupported "transition is not a qualified host action")
  else control (mapping b) (n_host_operation (native t)) offset length.

(** ** Coalescing *)

Definition by_start (a b : Range) : Prop := start a <= start b.
Global Instance by_start_dec a b : Decision (by_start a b).
Proof. unfold by_start. apply _. Defined.

(** [for range in sorted]: the last merged range is kept apart. *)
Fixpoint merge_into (current : Range) (sorted : list Range) : list Range :=
  match sorted with
  | [] => [current]
  | r :: rest =>
      if start r <=? stop current
      then merge_into (mkRange (start current) (Z.max (stop current) (stop r))) rest
      else current :: merge_into r rest
  end.
Definition merge_ranges (sorted : list Range) : list Range :=
  match sorted with [] => [] | r :: rest => merge_into r rest end.

(** [coalesce_ranges]. *)
Definition coalesce_ranges (ranges : list Range) (length : Z) : Result (list Range) :=
  if existsb (λ r, (stop r <? start r) || (length <? stop r)) ranges
  then Err (Message "visibility range out of bounds")
  else Ok (merge_ranges (merge_sort by_start (List.filter (λ r, negb (range_is_empty r)) ranges))).

(** [MemoryVisibility::prepare_host]: the ranges of a [PreparedHostVisibility]. *)
Definition prepare_host (b : Backing) (f : VisibilityFacts) (t : CacheTransition) (ranges : list Range)
    : Result (list Range) :=
  if negb (shared_backing_reachable f) || bool_decide (kind t = KUnknown)
  then Err (Unsupported "unqualified host visibility relation")
  else if negb (bool_decide (kind t = KNone)) && negb (host_action (executor t))
  then Err (Unsupported "transition is not a qualified host action")
  else
    let? ranges := coalesce_ranges ranges (backing_len b) in
    Ok (match ranges, kind t with
        | _ :: _, (KNone | KGlobal) => [mkRange 0 (backing_len b)]
        | _, _ => ranges
        end).

(** [PreparedHostVisibility::execute]. *)
Fixpoint execute (control : Z → Z → Z → Z → Result unit) (b : Backing) (f : VisibilityFacts)
    (t : CacheTransition) (ranges : list Range) : Result unit :=
  match ranges with
  | [] => Ok tt
  | r :: rest =>
      let? _ := host_transition control b f t (start r) (range_len r) in execute control b f t rest
  end.

(** ** What coalescing computes *)

Definition covered (x : Z) (l : list Range) : Prop := ∃ r, r ∈ l ∧ in_range x r.

(** Nonempty ranges in ascending order with a gap between neighbours. *)
Fixpoint separated (l : list Range) : Prop :=
  match l with
  | [] => True
  | r :: rest => start r < stop r ∧ match rest with [] => True | s :: _ => stop r < start s end ∧ separated rest
  end.

Lemma covered_cons x r l : covered x (r :: l) ↔ in_range x r ∨ covered x l.
Proof.
  unfold covered. split.
  - intros (s & [->|Hs]%elem_of_cons & Hx); [by left|right; eauto].
  - intros [?|(s & ? & ?)]; [exists r|exists s]; (split; [|done]); [by left|by right].
Qed.

Lemma covered_nil x : ¬ covered x [].
Proof. by intros (r & ?%elem_of_nil & _). Qed.

Lemma merge_into_spec sorted current :
  StronglySorted by_start (current :: sorted) → start current < stop current →
  Forall (λ r, start r < stop r) sorted →
  (∀ x, covered x (merge_into current sorted) ↔ in_range x current ∨ covered x sorted)
  ∧ separated (merge_into current sorted)
  ∧ (∃ s rest, merge_into current sorted = s :: rest ∧ start s = start current)
  ∧ (length (merge_into current sorted) ≤ S (length sorted))%nat.
Proof.
  revert current. induction sorted as [|r sorted IH]; intros current Hs Hc Hne; simpl.
  { split_and!; [|done|done|done|by do 2 eexists|lia].
    intros x. rewrite covered_cons. pose proof (covered_nil x). tauto. }
  apply StronglySorted_inv in Hs as [Hs Hcur]. pose proof Hs as Hs0. apply StronglySorted_inv in Hs as [Hs Hr].
  inversion Hcur as [|? ? Hcr Hcs]; subst. apply Forall_cons in Hne as [Hrne Hne]. unfold by_start in Hcr.
  destruct (Z.leb_spec (start r) (stop current)).
  - destruct (IH (mkRange (start current) (Z.max (stop current) (stop r)))) as (H1 & H2 & H3 & H4); [|simpl; lia|done|].
    { constructor; [done|]. exact Hcs. }
    split_and!; [|done|done|lia]. intros x. rewrite H1, covered_cons. unfold in_range. simpl. intuition lia.
  - destruct (IH r Hs0 Hrne Hne) as (H1 & H2 & (s & rest & H3 & H3') & H4). split_and!.
    + intros x. by rewrite covered_cons, H1, covered_cons.
    + simpl. split_and!; [done| |done]. rewrite H3. lia.
    + by do 2 eexists.
    + simpl. lia.
Qed.

Lemma merge_sort_sorted (l : list Range) : StronglySorted by_start (merge_sort by_start l).
Proof.
  apply Sorted_StronglySorted; [intros a b c; unfold by_start; lia|].
  apply Sorted_merge_sort. intros a b. unfold by_start. lia.
Qed.

Lemma coalesce_spec ranges len out :
  coalesce_ranges ranges len = Ok out →
  (∀ x, covered x out ↔ covered x ranges) ∧ separated out
  ∧ (∀ r, r ∈ ranges → start r <= stop r <= len)
  ∧ (length out ≤ length ranges)%nat.
Proof.
  unfold coalesce_ranges. destruct (existsb _ ranges) eqn:Eb; [done|]. intros [= <-].
  assert (Hbound : ∀ r, r ∈ ranges → start r <= stop r <= len).
  { intros r Hr. destruct ((stop r <? start r) || (len <? stop r)) eqn:E; [|to_prop; lia].
    rewrite (proj2 (existsb_exists _ _)) in Eb; [done|]. exists r. by rewrite <-list_elem_of_In. }
  set (l := List.filter (λ r, negb (range_is_empty r)) ranges).
  assert (Hl : ∀ r, r ∈ merge_sort by_start l ↔ r ∈ ranges ∧ start r < stop r).
  { intros r. rewrite merge_sort_Permutation, list_elem_of_In. unfold l. rewrite filter_In, <-list_elem_of_In.
    by rewrite negb_true_iff, range_is_empty_false. }
  assert (Hcov : ∀ x, covered x (merge_sort by_start l) ↔ covered x ranges).
  { intros x. unfold covered. split; intros (r & Hr & Hx); exists r; (split; [|done]).
    - by apply Hl in Hr as [? _].
    - apply Hl. split; [done|]. unfold in_range in Hx. lia. }
  assert (Hlen : (length (merge_sort by_start l) ≤ length ranges)%nat).
  { rewrite (Permutation_length (merge_sort_Permutation by_start l)). apply List.filter_length_le. }
  pose proof (merge_sort_sorted l) as Hs. setoid_rewrite <-Hcov. clear Hcov.
  destruct (merge_sort by_start l) as [|r rest]; simpl; [split_and!; done|].
  destruct (merge_into_spec rest r Hs) as (H1 & H2 & _ & H4).
  - by destruct (proj1 (Hl r) ltac:(by left)).
  - apply Forall_forall. intros s Hs'. by destruct (proj1 (Hl s) ltac:(by right)).
  - split_and!; [|done|done|simpl in Hlen; lia]. intros x. by rewrite H1, covered_cons.
Qed.

Lemma separated_nonempty l r : separated l → r ∈ l → start r < stop r.
Proof.
  induction l as [|s l IH]; intros Hs Hr; [by apply elem_of_nil in Hr|]. destruct Hs as (? & _ & ?).
  apply elem_of_cons in Hr as [->|Hr]; auto.
Qed.

Lemma separated_cons_gap s l r : separated (s :: l) → r ∈ l → stop s < start r.
Proof.
  revert s. induction l as [|t l IH]; intros s Hs Hr; [by apply elem_of_nil in Hr|].
  simpl in Hs. destruct Hs as (H1 & H2 & H3). apply elem_of_cons in Hr as [->|Hr]; [done|].
  specialize (IH t H3 Hr). destruct H3. lia.
Qed.

Lemma separated_no_merge out r1 r2 :
  separated out → r1 ∈ out → r2 ∈ out → r1 = r2 ∨ stop r1 < start r2 ∨ stop r2 < start r1.
Proof.
  induction out as [|s out IH]; intros Hs H1 H2; [by apply elem_of_nil in H1|].
  apply elem_of_cons in H1 as [->|H1]; apply elem_of_cons in H2 as [->|H2].
  - by left.
  - right. left. by eapply separated_cons_gap.
  - right. right. by eapply separated_cons_gap.
  - apply IH; [by destruct Hs as (_ & _ & ?)|done|done].
Qed.

(** Coalescing is exact: accepted ranges lie inside the buffer, the result
    covers exactly the bytes they cover, its ranges are nonempty and separated
    by at least one uncovered byte (so none could be merged), and there are no
    more of them than were requested. *)
Theorem coalesce_exact ranges len out :
  coalesce_ranges ranges len = Ok out →
  (∀ x, covered x out ↔ covered x ranges)
  ∧ (∀ r, r ∈ out → start r < stop r)
  ∧ (∀ r1 r2, r1 ∈ out → r2 ∈ out → r1 = r2 ∨ stop r1 < start r2 ∨ stop r2 < start r1)
  ∧ (∀ r, r ∈ ranges → start r <= stop r <= len)
  ∧ (length out ≤ length ranges)%nat.
Proof.
  intros (H1 & H2 & H3 & H4)%coalesce_spec.
  split_and!; [done|intros r; by apply separated_nonempty|intros r1 r2; by apply separated_no_merge|done|done].
Qed.

(** Prepared host work reaches every requested byte: executing it, with
    cache control calls that succeed inside the mapping, never fails, and every
    requested byte lies in a range that is executed, which stays in the buffer. *)
Theorem prepared_work_covers_requests control b f t ranges out :
  (∀ m op o n, 0 <= o → 0 <= n → o + n <= backing_len b → control m op o n = Ok tt) →
  0 <= backing_len b <= usize_max → (∀ r, r ∈ ranges → 0 <= start r) →
  prepare_host b f t ranges = Ok out →
  execute control b f t out = Ok tt
  ∧ (∀ x, covered x ranges → covered x out)
  ∧ (∀ r, r ∈ out → 0 <= start r ∧ stop r <= backing_len b).
Proof.
  intros Hcontrol Hlen Hpos. unfold prepare_host.
  destruct (shared_backing_reachable f) eqn:Er; [|done]. simpl.
  destruct (bool_decide (kind t = KUnknown)) eqn:Ek; [done|].
  destruct (negb (bool_decide (kind t = KNone)) && negb (host_action (executor t))) eqn:Eh; [done|].
  intros H. inv_ok. rename a into l. destruct (coalesce_spec _ _ _ E) as (Hcov & Hsep & Hb & _).
  set (out := match l with [] => l | _ => _ end).
  assert (Hout : ∀ r, r ∈ out → 0 <= start r ∧ start r <= stop r ∧ stop r <= backing_len b).
  { assert (Hl : ∀ r, r ∈ l → 0 <= start r ∧ start r <= stop r ∧ stop r <= backing_len b).
    { intros r Hr. pose proof (separated_nonempty _ _ Hsep Hr) as Hne.
      assert (Hends : ∀ x, in_range x r → 0 <= x < backing_len b).
      { intros x Hx. destruct (proj1 (Hcov x) (ex_intro _ r (conj Hr Hx))) as (s & Hs & Hxs).
        specialize (Hb s Hs). specialize (Hpos s Hs). unfold in_range in *. lia. }
      pose proof (Hends (start r) ltac:(unfold in_range; lia)).
      pose proof (Hends (stop r - 1) ltac:(unfold in_range; lia)). lia. }
    unfold out. intros r. destruct l as [|s l]; [by intros ?%elem_of_nil|].
    destruct (kind t); try apply Hl; intros ->%list_elem_of_singleton; simpl; lia. }
  split_and!.
  - clearbody out. induction out as [|r out IH]; simpl; [done|].
    destruct (Hout r ltac:(by left)) as (? & ? & ?). unfold host_transition, checked_add, range_len.
    rewrite (proj2 (Z.leb_le _ _)) by lia. rewrite (proj2 (Z.ltb_ge _ _)) by lia. rewrite Er. simpl.
    destruct (bool_decide (kind t = KNone)) eqn:Ekn; simpl.
    + apply IH. intros s Hs. apply Hout. by right.
    + simpl in Eh. rewrite Eh, Hcontrol by lia. apply IH. intros s Hs. apply Hout. by right.
  - intros x Hx. apply Hcov in Hx as Hxl. unfold out. destruct l as [|s l]; [by apply covered_nil in Hxl|].
    destruct (kind t); try done; (exists (mkRange 0 (backing_len b)); split; [by left|]);
      destruct Hx as (r & Hr & Hx); specialize (Hb r Hr); specialize (Hpos r Hr); unfold in_range in *; simpl; lia.
  - intros r Hr. destruct (Hout r Hr) as (? & ? & ?). done.
Qed.

Lemma coalesce_exact_witness :
  coalesce_ranges [mkRange 8 16; mkRange 0 8; mkRange 20 24; mkRange 3 3] 32 = Ok [mkRange 0 16; mkRange 20 24]
  ∧ (∀ x, covered x [mkRange 0 16; mkRange 20 24] ↔ covered x [mkRange 8 16; mkRange 0 8; mkRange 20 24; mkRange 3 3]).
Proof.
  split; [vm_compute; reflexivity|].
  apply (coalesce_exact [mkRange 8 16; mkRange 0 8; mkRange 20 24; mkRange 3 3] 32). vm_compute. reflexivity.
Defined.

Definition demo_transition : CacheTransition := mkTransition KRange XHostApi OReleaseToSystem 64 (mkNative 2 4 1 64 1).
Definition demo_facts : VisibilityFacts := mkFacts true demo_transition demo_transition SSystem SSystem None.

Lemma prepared_work_covers_requests_witness :
  execute (λ _ _ _ _, Ok tt) (mkBacking 64 1) demo_facts demo_transition [mkRange 0 16] = Ok tt
  ∧ (∀ x, covered x [mkRange 8 16; mkRange 0 8] → covered x [mkRange 0 16]).
Proof.
  destruct (prepared_work_covers_requests (λ _ _ _ _, Ok tt) (mkBacking 64 1) demo_facts demo_transition
    [mkRange 8 16; mkRange 0 8] [mkRange 0 16]) as (H1 & H2 & _).
  - reflexivity.
  - unfold usize_max. simpl. lia.
  - intros r Hr. apply elem_of_cons in Hr as [->|Hr]; [simpl; lia|].
    apply list_elem_of_singleton in Hr as ->. simpl. lia.
  - vm_compute. reflexivity.
  - split; [exact H1|exact H2].
Defined.

End HostVisibility.
