(* ===== verification/NativeMemory.v ===== *)
(** * Native memory

    [Buffer], [Memory], [DeviceUse] and the allocation paths of
    src/src/fabric/memory.rs: views, checked host transfers against device
    leases, file reads in one piece and in parallel, and the choice of a memory
    profile by [create_memory].

    The mutable parts of a [Memory] (the lease count, the cache flag and the
    backing bytes) are cells of a [Store] shared by every view and import of an
    allocation; the rest of the object is immutable.  The theorems show that
    host transfers through any alias are refused exactly while a device lease
    is live and otherwise read and write the same bytes, that parallel and
    sequential file reads agree, and that an allocation uses a profile that
    admits it. *)

From S2P Require Import Prelude.
Local Open Scope Z_scope.

Module NativeMemory.

(** [Memory] and [Buffer(memory, offset, length)]. *)
Inductive Memory : Type :=
| mkMemory (id : nat) (devices : list nat) (mapped : bool) (bytes : Z)
    (uses_cell cache_cell backing : nat) (source : option Buffer)
with Buffer : Type :=
| mkBuffer (memory : Memory) (offset len : Z).

Definition memory (b : Buffer) : Memory := let '(mkBuffer m _ _) := b in m.
Definition offset (b : Buffer) : Z := let '(mkBuffer _ o _) := b in o.
Definition len (b : Buffer) : Z := let '(mkBuffer _ _ n) := b in n.
Definition devices (m : Memory) : list nat := let '(mkMemory _ d _ _ _ _ _ _) := m in d.
Definition mapped (m : Memory) : bool := let '(mkMemory _ _ p _ _ _ _ _) := m in p.
Definition bytes (m : Memory) : Z := let '(mkMemory _ _ _ n _ _ _ _) := m in n.
Definition uses_cell (m : Memory) : nat := let '(mkMemory _ _ _ _ u _ _ _) := m in u.
Definition cache_cell (m : Memory) : nat := let '(mkMemory _ _ _ _ _ c _ _) := m in c.
Definition backing (m : Memory) : nat := let '(mkMemory _ _ _ _ _ _ d _) := m in d.
Definition source (m : Memory) : option Buffer := let '(mkMemory _ _ _ _ _ _ _ s) := m in s.
Definition memory_id (m : Memory) : nat := let '(mkMemory i _ _ _ _ _ _ _) := m in i.

(** The shared cells. *)
Record Store : Type := mkStore {
  uses : gmap nat Z;
  needs_cache : gmap nat bool;
  data : gmap nat (list Z) }.

Definition leases (st : Store) (b : Buffer) : Z := default 0 (uses st !! uses_cell (memory b)).
Definition contents (st : Store) (b : Buffer) : list Z := default [] (data st !! backing (memory b)).
Definition set_uses (st : Store) (c : nat) (n : Z) : Store :=
  mkStore (<[c := n]> (uses st)) (needs_cache st) (data st).
Definition set_data (st : Store) (c : nat) (l : list Z) : Store :=
  mkStore (uses st) (needs_cache st) (<[c := l]> (data st)).

(** [Buffer::range], [require_host_mapping], [is_whole_allocation], [view]. *)
Definition range (b : Buffer) (off length : Z) : Result unit :=
  match checked_add off length with
  | Some stop => if len b <? stop then Err (Message "buffer range is out of bounds") else Ok tt
  | None => Err (Message "buffer range is out of bounds")
  end.
Definition require_host_mapping (b : Buffer) : Result unit :=
  if mapped (memory b) then Ok tt
  else Err (Unsupported "device-only buffer has no host mapping; use a device transfer").
Definition is_whole_allocation (b : Buffer) : bool := (offset b =? 0) && (len b =? bytes (memory b)).
Definition view (b : Buffer) (off length : Z) : Result Buffer :=
  let? _ := range b off length in
  if length =? 0 then Err (Message "buffer views must be nonempty")
  else Ok (mkBuffer (memory b) (offset b + off) length).

(** [exclusively_owned]; [strong_count] is the number of owners of the memory. *)
Definition exclusively_owned (b : Buffer) (strong_count : nat) : bool :=
  is_whole_allocation b && match source (memory b) with None => true | Some _ => false end
    && (strong_count =? 1)%nat.

(** [exclusively_owned_with_commands]; a command answers with the identity of
    its work and its number of handles to the buffer, or refuses. *)
Fixpoint count_owners (commands : list (option (nat * Z))) (seen : list nat) (expected : Z) : option Z :=
  match commands with
  | [] => Some expected
  | None :: _ => None
  | Some (identity, owners) :: rest =>
      if bool_decide (identity ∈ seen) then None
      else total ← checked_add expected owners; count_owners rest (identity :: seen) total
  end.
Definition exclusively_owned_with_commands (b : Buffer) (strong_count : Z)
    (commands : list (option (nat * Z))) : bool :=
  if negb (is_whole_allocation b) || match source (memory b) with None => false | Some _ => true end
  then false
  else match count_owners commands [] 1 with
       | None => false
       | Some expected => strong_count =? expected
       end.

(** [retain_use] and the drop of a [DeviceUse]. *)
Definition retain_use (st : Store) (b : Buffer) : Result Store :=
  match checked_add (leases st b) 1 with
  | Some n => Ok (set_uses st (uses_cell (memory b)) n)
  | None => Err (Busy "memory lease limit")
  end.
Definition drop_use (st : Store) (b : Buffer) : Store :=
  set_uses st (uses_cell (memory b)) (leases st b - 1).

(** [Vec::clear] on leases drops every [DeviceUse]. *)
Definition drop_all (st : Store) (l : list Buffer) : Store := foldl drop_use st l.

(** Leases on every buffer of a list; a failure drops those taken. *)
Fixpoint retain_all (st : Store) (l taken : list Buffer) : Store * Result (list Buffer) :=
  match l with
  | [] => (st, Ok taken)
  | b :: rest =>
      match retain_use st b with
      | Ok st => retain_all st rest (taken ++ [b])
      | Err e => (drop_all st taken, Err e)
      end
  end.

Section Host.
(** [host_mapping_cache_control]. *)
Context (control : nat → bool → Z → Z → Result unit).

(** [cache_control]: an import delegates to its source. *)
Fixpoint cache_control (st : Store) (b : Buffer) (flush : bool) (off length : Z) : Result unit :=
  let? _ := range b off length in
  let? _ := require_host_mapping b in
  match b with
  | mkBuffer (mkMemory id _ _ _ _ cell _ None) base _ =>
      if default false (needs_cache st !! cell) then control id flush (base + off) length else Ok tt
  | mkBuffer (mkMemory _ _ _ _ _ _ _ (Some s)) base _ => cache_control st s flush (base + off) length
  end.

(** The bytes of a range of the backing, and their replacement. *)
Definition read_bytes (l : list Z) (at_ n : Z) : list Z := take (Z.to_nat n) (drop (Z.to_nat at_) l).
Definition write_bytes (l : list Z) (at_ : Z) (new : list Z) : list Z :=
  list_inserts (Z.to_nat at_) new l.

Definition busy {A} : Result A := Err (Busy "buffer is in use by a device").

(** [Buffer::write]. *)
Definition write (st : Store) (b : Buffer) (off : Z) (new : list Z) : Store * Result unit :=
  let n := Z.of_nat (length new) in
  match range b off n with
  | Err e => (st, Err e)
  | Ok _ =>
      if negb (leases st b =? 0) then (st, busy)
      else match cache_control st b false off n with
           | Err e => (st, Err e)
           | Ok _ =>
               let st := set_data st (backing (memory b))
                           (write_bytes (contents st b) (offset b + off) new) in
               (st, cache_control st b true off n)
           end
  end.

(** [Buffer::zero]. *)
Definition zero (st : Store) (b : Buffer) : Store * Result unit :=
  match require_host_mapping b with
  | Err e => (st, Err e)
  | Ok _ =>
      if negb (leases st b =? 0) then (st, Err (Busy "memory is executing"))
      else let st := set_data st (backing (memory b))
                       (write_bytes (contents st b) (offset b) (replicate (Z.to_nat (len b)) 0)) in
           (st, cache_control st b true 0 (len b))
  end.

(** [Buffer::read]. *)
Definition read (st : Store) (b : Buffer) (off n : Z) : Result (list Z) :=
  let? _ := range b off n in
  if negb (leases st b =? 0) then busy
  else let? _ := cache_control st b false off n in
       Ok (read_bytes (contents st b) (offset b + off) n).

(** [with_host_bytes]: the action sees the buffer's bytes and returns them
    changed. *)
Definition with_host_bytes {T} (st : Store) (b : Buffer) (action : list Z → list Z * Result T)
    : Store * Result T :=
  if negb (leases st b =? 0) then (st, busy)
  else match cache_control st b false 0 (len b) with
       | Err e => (st, Err e)
       | Ok _ =>
           let '(new, result) := action (read_bytes (contents st b) (offset b) (len b)) in
           let st := set_data st (backing (memory b)) (write_bytes (contents st b) (offset b) new) in
           (st, let? _ := cache_control st b true 0 (len b) in result)
       end.

(** [read_exact_at]: the bytes stored before the result, and the result.  A
    read may fail after some bytes, or meet the end of the file. *)
Record File : Type := mkFile { file_bytes : list Z; fault : Z → Z → option (nat * string) }.
Definition read_exact_at (f : File) (at_ n : Z) : list Z * Result unit :=
  let got := read_bytes (file_bytes f) at_ n in
  match fault f at_ n with
  | Some (k, why) => (take k got, Err (Io why))
  | None => (got, if Z.of_nat (length got) =? n then Ok tt else Err (Io "failed to fill whole buffer"))
  end.

(** The checks and the publication common to both file reads; [fill] returns
    the chunks it stored, by position, and its result. *)
Definition store_chunks (l : list Z) (base : Z) (chunks : list (Z * list Z)) : list Z :=
  foldl (λ l c, write_bytes l (base + c.1) c.2) l chunks.
Definition fill_from_file (st : Store) (b : Buffer) (off n file_offset : Z)
    (fill : list (Z * list Z) * Result unit) : Store * Result unit :=
  match range b off n with
  | Err e => (st, Err e)
  | Ok _ =>
      if usize_max <? file_offset + n then (st, Err (Message "file range overflows"))
      else if negb (leases st b =? 0) then (st, busy)
      else match cache_control st b false off n with
           | Err e => (st, Err e)
           | Ok _ =>
               let st := set_data st (backing (memory b))
                           (store_chunks (contents st b) (offset b + off) fill.1) in
               (st, let? _ := cache_control st b true off n in fill.2)
           end
  end.

(** [write_from_file]. *)
Definition write_from_file (st : Store) (b : Buffer) (off n : Z) (f : File) (file_offset : Z)
    : Store * Result unit :=
  let '(got, result) := read_exact_at f file_offset n in
  fill_from_file st b off n file_offset ([(0, got)], result).

(** The workers of [write_from_file_parallel], one per chunk of the target:
    what each stored and returned, and the failed spawn that stopped the loop. *)
Definition div_ceil (a b : Z) : Z := (a + (b - 1)) / b.
Fixpoint workers_from (fuel : nat) (spawn : nat → option string) (f : File)
    (index : nat) (chunk n file_offset : Z) : list ((Z * list Z) * Result unit) * option string :=
  match fuel with
  | O => ([], None)
  | S fuel =>
      let at_ := Z.of_nat index * chunk in
      if n <=? at_ then ([], None)
      else match spawn index with
           | Some why => ([], Some why)
           | None =>
               let '(got, result) := read_exact_at f (file_offset + at_) (Z.min chunk (n - at_)) in
               let '(rest, failed) := workers_from fuel spawn f (S index) chunk n file_offset in
               (((at_, got), result) :: rest, failed)
           end
  end.

(** A failed spawn is returned at once; otherwise the workers are joined in
    order and the first failure is returned.  Every started worker finishes. *)
Definition join_workers (spawned : list ((Z * list Z) * Result unit) * option string)
    : list (Z * list Z) * Result unit :=
  (spawned.1.*1,
   match spawned.2 with
   | Some why => Err (Io why)
   | None => foldr (λ w rest, let? _ := w.2 in rest) (Ok tt) spawned.1
   end).

(** [write_from_file_parallel]. *)
Definition write_from_file_parallel (spawn : nat → option string) (st : Store) (b : Buffer) (off n : Z)
    (f : File) (file_offset : Z) (workers : Z) : Store * Result unit :=
  if negb ((1 <=? workers) && (workers <=? 8))
  then (st, Err (Message "parallel file workers must be1..8"))
  else if (workers =? 1) || (n =? 0) then write_from_file st b off n f file_offset
  else fill_from_file st b off n file_offset
         (join_workers (workers_from (Z.to_nat workers) spawn f 0 (div_ceil n workers) n file_offset)).
End Host.

(** ** Choosing a profile *)

(** The reported facts of a profile, and the two flags sets they use. *)
Record Construction : Type := mkConstruction {
  placement_kinds : Z;
  maximum_byte_length : Z;
  byte_length_granularity : Z;
  minimum_alignment : Z }.
Record Profile : Type := mkProfile {
  roles : Z;
  supported_flags : Z;
  import : Construction;
  registration : Construction;
  allocation : Construction }.
Record Scope : Type := mkScope {
  scope_id : nat;
  scope_system : bool;
  (* status of each profile query with its answer *)
  scope_profiles : list (Z * Profile) }.

Definition ROLE_CREATE : Z := 1.
Definition ROLE_REGISTER : Z := 2.
Definition ROLE_IMPORT : Z := 4.
Definition ROLE_HOST_MAP : Z := 16.
Definition FLAG_HOST_VISIBLE : Z := 1.
Definition FLAG_DEVICE_LOCAL : Z := 2.
Definition FLAG_HOST_MAPPING_SOURCE : Z := 128.
Definition PLACEMENT_HOST_NUMA : Z := 1.
Definition STATUS_UNSUPPORTED : Z := 3.

(** [check]. *)
Definition as_i32 (n : Z) : Z := if n <? 2 ^ 31 then n else n - 2 ^ 32.
Definition check (operation : string) (status : Z) : Result unit :=
  if status =? 0 then Ok tt
  else Err (Backend "libamdf" operation (as_i32 (status mod 2 ^ 32))
         ("native status domain " +:+ pretty (status / 2 ^ 32) +:+ ", code " +:+ pretty (status mod 2 ^ 32))).
Definition missing (name : string) : Error := Unsupported ("libamdf ABI is missing " +:+ name).

(** [AllocationOptions], [MemoryOwners]. *)
Record AllocationOptions : Type := mkOptions {
  mapping_source : bool;
  host_mapping_source : bool;
  host_numa_node : option Z;
  coherent_gpu : bool;
  options_alignment : Z;
  required_backing_flags : Z }.
Definition default_options : AllocationOptions := mkOptions false false None false 0 0.
Definition options_required_flags (o : AllocationOptions) : Z :=
  Z.lor (Z.lor FLAG_HOST_VISIBLE (required_backing_flags o))
    (if host_mapping_source o then FLAG_HOST_MAPPING_SOURCE else 0).
Record MemoryOwners : Type := mkOwners {
  device_only : bool;
  coherent : bool;
  selected : option (nat * nat);
  owner_source : option Buffer;
  options : AllocationOptions }.
Definition default_owners : MemoryOwners := mkOwners false false None None default_options.

(** The test of one profile in [create_memory]. *)
Definition has_all (set needed : Z) : bool := Z.land set needed =? needed.
Definition profile_admits (owners : MemoryOwners) (host : bool) (size : Z) (p : Profile) : bool :=
  let imported := match owner_source owners with Some _ => true | None => false end in
  let role := if imported then ROLE_IMPORT else if host then ROLE_REGISTER else ROLE_CREATE in
  let construction := if imported then import p else if host then registration p else allocation p in
  let needed := if device_only owners then role else Z.lor role ROLE_HOST_MAP in
  let required_flags := if device_only owners then FLAG_DEVICE_LOCAL
                        else options_required_flags (options owners) in
  has_all (roles p) needed && has_all (supported_flags p) required_flags
    && negb (match host_numa_node (options owners) with Some _ => true | None => false end
             && (Z.land (placement_kinds construction) (Z.shiftl 1 PLACEMENT_HOST_NUMA) =? 0))
    && negb (maximum_byte_length construction <? size).

(** The loops over scopes and profile ordinals: the first admitted one. *)
Fixpoint select_profile (owners : MemoryOwners) (host : bool) (size : Z) (scope ordinal : nat)
    (profiles : list (Z * Profile)) : Result (option (nat * nat)) :=
  match profiles with
  | [] => Ok None
  | (status, p) :: rest =>
      let next := select_profile owners host size scope (S ordinal) rest in
      if match selected owners with Some s => negb (bool_decide (s = (scope, ordinal))) | None => false end
      then next
      else if status =? STATUS_UNSUPPORTED then next
      else let? _ := check "memory_scope_query_device_profile" status in
           if profile_admits owners host size p then Ok (Some (scope, ordinal)) else next
  end.
Fixpoint select_scope (owners : MemoryOwners) (host : bool) (size : Z) (scopes : list (Result Scope))
    : Result (option (nat * nat)) :=
  match scopes with
  | [] => Ok None
  | scope :: rest =>
      let? s := scope in
      if negb (device_only owners) && negb (scope_system s) then select_scope owners host size rest
      else let? found := select_profile owners host size (scope_id s) 0 (scope_profiles s) in
           match found with
           | Some f => Ok (Some f)
           | None => select_scope owners host size rest
           end
  end.

(** The native calls of one allocation. *)
Record Native : Type := mkNativeApi {
  export : Result unit;
  system_scopes : Result (list (Result Scope));
  local_scopes : nat → Result (list (Result Scope));
  construct : nat → nat → Result bool;      (* false: a null handle *)
  map : Result unit;
  mapping_info : Result (option Z) }.       (* None: a null pointer; else its length *)

Inductive Engine : Type := Gpu | Xdna.
Global Instance engine_eq_dec : EqDecision Engine.
Proof. solve_decision. Defined.

(** Devices are given by identity; [fabric] and [engine] describe them. *)
Section Create.
Context (control : nat → bool → Z → Z → Result unit) (native : Native).
Context (fabric : nat → bool) (engine : nat → Engine).

Definition devices_ok (devices : list nat) : bool :=
  forallb fabric devices && bool_decide (NoDup devices).

Fixpoint all_local (devices : list nat) : Result (list (Result Scope)) :=
  match devices with
  | [] => Ok []
  | d :: rest => let? s := local_scopes native d in let? more := all_local rest in Ok (s ++ more)
  end.

(** The checks of [create_memory] and its choice of a profile. *)
Definition imported (owners : MemoryOwners) : bool :=
  match owner_source owners with Some _ => true | None => false end.
Definition choose_profile (size : Z) (devs : list nat) (registered : bool) (owners : MemoryOwners)
    (initial_data : option (list Z)) : Result (nat * nat) :=
  let? _ := if size =? 0 then Err (Message "allocation must be nonempty") else Ok tt in
  let? _ := match initial_data with
            | Some d => if negb (Z.of_nat (length d) =? size) || registered || imported owners
                        then Err (Message "initial data must cover exactly one new allocation") else Ok tt
            | None => Ok tt end in
  let? _ := if devices_ok devs then Ok tt
            else Err (Message "allocation devices must be unique and belong to this fabric") in
  let? _ := match owner_source owners with
            | Some s => if is_whole_allocation s then export native
                        else Err (Unsupported "native imports require a whole buffer")
            | None => Ok tt end in
  let? scopes := system_scopes native in
  let? scopes := if device_only owners then all_local devs else Ok scopes in
  let? found := select_scope owners registered size scopes in
  ok_or found (Unsupported "no memory profile admits the requested placement and consumers").

(** The cells of the new memory: an import shares those of its source. *)
Definition new_memory (fresh : nat) (size : Z) (devs : list nat) (is_mapped : bool) (owners : MemoryOwners)
    : Memory :=
  match owner_source owners with
  | Some s => mkMemory fresh devs is_mapped size (uses_cell (memory s)) (cache_cell (memory s))
                (backing (memory s)) (Some s)
  | None => mkMemory fresh devs is_mapped size fresh fresh fresh None
  end.
Definition incoherent (devs : list nat) (owners : MemoryOwners) : bool :=
  negb (coherent owners) || bool_decide (devs = [])
    || existsb (λ d, negb (bool_decide (engine d = Gpu))) devs.
Definition new_cells (st : Store) (fresh : nat) (devs : list nat) (owners : MemoryOwners) : Store :=
  let cell := match owner_source owners with Some s => cache_cell (memory s) | None => fresh end in
  let st := if imported owners then st
            else mkStore (<[fresh := 0]> (uses st)) (<[fresh := false]> (needs_cache st)) (data st) in
  if incoherent devs owners
  then mkStore (uses st) (<[cell := true]> (needs_cache st)) (data st) else st.

(** [create_memory]; [fresh] numbers the new memory and its cells, [host] is
    the registered pages. *)
Definition create_memory (st : Store) (fresh : nat) (size : Z) (devs : list nat) (host : option (list Z))
    (owners : MemoryOwners) (initial_data : option (list Z)) : Store * Result Buffer :=
  let registered := match host with Some _ => true | None => false end in
  match (let? (scope, ordinal) := choose_profile size devs registered owners initial_data in
         let? present := construct native scope ordinal in
         if present then Ok tt else Err (missing "created memory")) with
  | Err e => (st, Err e)
  | Ok _ =>
      let st := new_cells st fresh devs owners in
      if device_only owners then (st, Ok (mkBuffer (new_memory fresh size devs false owners) 0 size))
      else
        match (let? _ := map native in
               let? info := mapping_info native in
               if match info with None => true | Some n => n <? size end
               then Err (missing "complete host mapping") else Ok tt) with
        | Err e => (st, Err e)
        | Ok _ =>
            let st := match owner_source owners, host with
                      | Some _, _ => st
                      | None, Some pages => set_data st fresh pages
                      | None, None => set_data st fresh (default (replicate (Z.to_nat size) 0) initial_data)
                      end in
            let buffer := mkBuffer (new_memory fresh size devs true owners) 0 size in
            (st, let? _ := cache_control control st buffer true 0 size in Ok buffer)
        end
  end.

(** [share_owned]: import for the devices that cannot address the source. *)
Definition share_owned (st : Store) (fresh : nat) (b : Buffer) (addressable : nat → bool) (devs : list nat)
    : Store * Result Buffer :=
  let additional := filter (λ d, negb (addressable d)) devs in
  match additional with
  | [] => (st, Ok b)
  | _ => create_memory st fresh (len b) additional None
           (mkOwners false false None (Some b) default_options) None
  end.

(** [allocation_profiles]: every profile of a system scope that creates
    host-visible mapped memory. *)
Record AllocationProfile : Type := mkAllocationProfile {
  profile_scope : nat; profile_ordinal : nat; profile_coherent : bool; limits : Construction }.
Fixpoint profiles_of (coherent : bool) (scope ordinal : nat) (profiles : list (Z * Profile))
    : Result (list AllocationProfile) :=
  match profiles with
  | [] => Ok []
  | (status, p) :: rest =>
      if status =? STATUS_UNSUPPORTED then profiles_of coherent scope (S ordinal) rest
      else let? _ := check "memory_scope_query_device_profile" status in
           let? more := profiles_of coherent scope (S ordinal) rest in
           Ok (if has_all (roles p) (Z.lor ROLE_CREATE ROLE_HOST_MAP)
                  && negb (Z.land (supported_flags p) FLAG_HOST_VISIBLE =? 0)
               then mkAllocationProfile scope ordinal coherent (allocation p) :: more else more)
  end.
Fixpoint profiles_of_scopes (coherent : bool) (scopes : list (Result Scope))
    : Result (list AllocationProfile) :=
  match scopes with
  | [] => Ok []
  | scope :: rest =>
      let? s := scope in
      if negb (scope_system s) then profiles_of_scopes coherent rest
      else let? here := profiles_of coherent (scope_id s) 0 (scope_profiles s) in
           let? more := profiles_of_scopes coherent rest in Ok (here ++ more)
  end.
Definition allocation_profiles (devs : list nat) (coherent : bool) : Result (list AllocationProfile) :=
  let? _ := if devices_ok devs then Ok tt
            else Err (Message "allocation devices must be unique and belong to this fabric") in
  let? scopes := system_scopes native in
  profiles_of_scopes coherent scopes.

(** The allocation entry points.  [reserved] is the outcome of charging an
    optional residency budget, which happens before any native call; access
    rights and alignment only reach the native calls. *)
Definition under {A} (st : Store) (reserved : Result unit) (k : Store * Result A) : Store * Result A :=
  match reserved with Err e => (st, Err e) | Ok _ => k end.
Definition allocate_device_local_access (st : Store) (fresh : nat) (size : Z) (device : nat)
    : Store * Result Buffer :=
  if bool_decide (engine device = Gpu)
  then create_memory st fresh size [device] None (mkOwners true false None None default_options) None
  else (st, Err (Unsupported "device-local backing requires a GPU")).
Definition allocate_with_options (st : Store) (fresh : nat) (size : Z) (devs : list nat)
    (o : AllocationOptions) (reserved : Result unit) : Store * Result Buffer :=
  under st reserved
    (create_memory st fresh size devs None (mkOwners false (coherent_gpu o) None None o) None).
(** [page] is the system's page size and [budget] charges the rounded bytes;
    the anonymous mapping is zeroed. *)
Definition allocate_registered (st : Store) (fresh : nat) (page size : Z) (devs : list nat)
    (budget : Z → Result unit) : Store * Result Buffer :=
  if (page <=? 0) || (size =? 0) then (st, Err (Message "invalid registered allocation size"))
  else match checked_add size (page - 1) with
       | None => (st, Err (Message "registered allocation overflow"))
       | Some v =>
           let rounded := v / page * page in
           under st (budget rounded)
             (create_memory st fresh rounded devs (Some (replicate (Z.to_nat rounded) 0))
                (mkOwners false true None None default_options) None)
       end.
Definition allocate_shared (st : Store) (fresh : nat) (size : Z) (devs : list nat) : Store * Result Buffer :=
  create_memory st fresh size devs None (mkOwners false true None None default_options) None.
Definition allocate_access (st : Store) (fresh : nat) (size : Z) (devs : list nat) : Store * Result Buffer :=
  create_memory st fresh size devs None default_owners None.
Definition allocate (st : Store) (fresh : nat) (size : Z) (devs : list nat) : Store * Result Buffer :=
  allocate_access st fresh size devs.
Definition allocate_from (st : Store) (fresh : nat) (bytes : list Z) (devs : list nat)
    : Store * Result Buffer :=
  create_memory st fresh (Z.of_nat (length bytes)) devs None default_owners (Some bytes).
Definition allocate_budgeted (st : Store) (fresh : nat) (size : Z) (devs : list nat) (reserved : Result unit)
    : Store * Result Buffer :=
  under st reserved (create_memory st fresh size devs None default_owners None).
Definition allocate_owned (st : Store) (fresh : nat) (size : Z) (device : nat) (is_coherent : bool)
    (reserved : Result unit) : Store * Result Buffer :=
  under st reserved
    (create_memory st fresh size [device] None (mkOwners false is_coherent None None default_options) None).
Definition register_host (st : Store) (fresh : nat) (pointer : option (list Z)) (size : Z) (devs : list nat)
    : Store * Result Buffer :=
  match pointer with
  | None => (st, Err (Message "host registration pointer is null"))
  | Some _ => create_memory st fresh size devs pointer (mkOwners false true None None default_options) None
  end.

(** [AllocationProfile::allocate]. *)
Definition profile_allocate (st : Store) (fresh : nat) (p : AllocationProfile) (devs : list nat) (size : Z)
    (reserved : Result unit) : Store * Result Buffer :=
  if (size =? 0) || (maximum_byte_length (limits p) <? size)
     || negb (size mod Z.max (byte_length_granularity (limits p)) 1 =? 0)
  then (st, Err (Message "allocation does not satisfy the selected profile's size limits"))
  else under st reserved
         (create_memory st fresh size devs None
            (mkOwners false (profile_coherent p) (Some (profile_scope p, profile_ordinal p)) None default_options)
            None).
End Create.

(** ** Leases *)

(** How many handles of a list use a lease cell. *)
Definition uses_of (cell : nat) (l : list Buffer) : Z :=
  zsum (λ b, if (uses_cell (memory b) =? cell)%nat then 1 else 0) l.
Definition cell_uses (st : Store) (cell : nat) : Z := default 0 (uses st !! cell).

Lemma uses_of_nil cell : uses_of cell [] = 0.
Proof. done. Qed.

Lemma uses_of_cons cell b l :
  uses_of cell (b :: l) = (if (uses_cell (memory b) =? cell)%nat then 1 else 0) + uses_of cell l.
Proof. done. Qed.

Lemma uses_of_nonneg cell l : 0 <= uses_of cell l.
Proof. apply zsum_nonneg, Forall_forall. intros b _. case_bool; lia. Qed.

Lemma uses_of_elem cell b l : b ∈ l → uses_cell (memory b) = cell → 0 < uses_of cell l.
Proof.
  intros Hin <-. induction l as [|x l IH]; [by apply elem_of_nil in Hin|].
  unfold uses_of. rewrite zsum_cons. fold (uses_of (uses_cell (memory b)) l).
  pose proof (uses_of_nonneg (uses_cell (memory b)) l). apply elem_of_cons in Hin as [->|Hin].
  - rewrite Nat.eqb_refl. lia.
  - specialize (IH Hin). case_bool; lia.
Qed.

Lemma set_uses_cell st c n cell : cell_uses (set_uses st c n) cell = if (c =? cell)%nat then n else cell_uses st cell.
Proof.
  unfold cell_uses, set_uses. simpl. case_bool; to_prop.
  - subst. by rewrite lookup_insert_eq.
  - by rewrite lookup_insert_ne.
Qed.

Lemma drop_use_cell st b cell :
  cell_uses (drop_use st b) cell = cell_uses st cell - (if (uses_cell (memory b) =? cell)%nat then 1 else 0).
Proof.
  unfold drop_use. rewrite set_uses_cell. case_bool; to_prop; [|lia]. subst. done.
Qed.

Lemma retain_use_cell st b st' cell :
  retain_use st b = Ok st' →
  cell_uses st' cell = cell_uses st cell + (if (uses_cell (memory b) =? cell)%nat then 1 else 0).
Proof.
  unfold retain_use. destruct (checked_add _ 1) as [n|] eqn:E; [|done]. intros [= <-].
  apply checked_add_Some in E as [-> _]. rewrite set_uses_cell. case_bool; to_prop; [|lia]. by subst.
Qed.

Lemma drop_all_cell st l cell : cell_uses (drop_all st l) cell = cell_uses st cell - uses_of cell l.
Proof.
  revert st. induction l as [|b l IH]; intros st; cbn [drop_all foldl].
  - unfold uses_of. simpl. lia.
  - fold (drop_all (drop_use st b) l). rewrite IH, drop_use_cell. unfold uses_of. rewrite zsum_cons. lia.
Qed.

Lemma uses_of_app cell l k : uses_of cell (l ++ k) = uses_of cell l + uses_of cell k.
Proof. apply zsum_app. Qed.

(** Taking leases adds them all, or none. *)
Lemma retain_all_cell st l taken st' r cell :
  retain_all st l taken = (st', r) →
  match r with
  | Ok all => all = taken ++ l ∧ cell_uses st' cell = cell_uses st cell + uses_of cell l
  | Err _ => cell_uses st' cell = cell_uses st cell - uses_of cell taken
  end.
Proof.
  revert st taken. induction l as [|b l IH]; intros st taken; cbn [retain_all].
  - intros [= <- <-]. rewrite app_nil_r. unfold uses_of. simpl. split; [done|lia].
  - destruct (retain_use st b) as [st1|e] eqn:E.
    + intros H. specialize (IH _ _ H). rewrite (retain_use_cell st b st1 cell E) in IH.
      destruct r as [all|].
      * destruct IH as [-> IH]. split; [by rewrite <-app_assoc|]. rewrite IH. unfold uses_of. rewrite zsum_cons. lia.
      * rewrite IH, uses_of_app. unfold uses_of at 2. rewrite zsum_cons. simpl. lia.
    + intros [= <- <-]. apply drop_all_cell.
Qed.

(** ** Bytes *)

Lemma length_write_bytes l at_ new : length (write_bytes l at_ new) = length l.
Proof. apply length_inserts. Qed.

Lemma lookup_write_bytes l at_ new i :
  0 <= at_ → at_ + Z.of_nat (length new) <= Z.of_nat (length l) →
  write_bytes l at_ new !! i
    = if (at_ <=? Z.of_nat i) && (Z.of_nat i <? at_ + Z.of_nat (length new))
      then new !! (i - Z.to_nat at_)%nat else l !! i.
Proof.
  intros H0 Hl. unfold write_bytes. destruct (_ && _) eqn:E; to_prop.
  - apply list_lookup_inserts; lia.
  - destruct E as [E|E]; to_prop.
    + apply list_lookup_inserts_lt. lia.
    + apply list_lookup_inserts_ge. lia.
Qed.

Lemma read_write_same l at_ new :
  0 <= at_ → at_ + Z.of_nat (length new) <= Z.of_nat (length l) →
  read_bytes (write_bytes l at_ new) at_ (Z.of_nat (length new)) = new.
Proof.
  intros H0 Hl. unfold read_bytes. apply list_eq. intros i. rewrite Nat2Z.id.
  destruct (decide (i < length new)%nat) as [Hi|Hi].
  - rewrite lookup_take_lt, lookup_drop, lookup_write_bytes by done.
    destruct (_ && _) eqn:E; [f_equal; lia|]. to_prop. destruct E; to_prop; lia.
  - rewrite !lookup_ge_None_2; [done|lia|]. rewrite length_take. lia.
Qed.

Lemma write_bytes_app l at_ k1 k2 :
  0 <= at_ → write_bytes (write_bytes l at_ k1) (at_ + Z.of_nat (length k1)) k2 = write_bytes l at_ (k1 ++ k2).
Proof.
  intros H0. unfold write_bytes. rewrite Z2Nat.inj_add, Nat2Z.id by lia.
  apply list_eq. intros i.
  destruct (decide (i < Z.to_nat at_)%nat).
  { rewrite !list_lookup_inserts_lt by lia. done. }
  destruct (decide (i < length l)%nat) as [Hi|Hi].
  2:{ rewrite !lookup_ge_None_2; [done|rewrite length_inserts; lia|rewrite !length_inserts; lia]. }
  destruct (decide (i < Z.to_nat at_ + length k1)%nat).
  { rewrite list_lookup_inserts_lt by lia. rewrite !list_lookup_inserts by (rewrite ?length_app; lia).
    by rewrite lookup_app_l by lia. }
  destruct (decide (i < Z.to_nat at_ + length k1 + length k2)%nat).
  { rewrite !list_lookup_inserts by (rewrite ?length_inserts, ?length_app; lia).
    rewrite lookup_app_r by lia. f_equal. lia. }
  rewrite !list_lookup_inserts_ge by (rewrite ?length_app; lia). done.
Qed.

Lemma write_bytes_nil l at_ : write_bytes l at_ [] = l.
Proof. done. Qed.

Lemma length_read_bytes l at_ n :
  0 <= at_ → 0 <= n → Z.of_nat (length (read_bytes l at_ n)) = Z.max 0 (Z.min n (Z.of_nat (length l) - at_)).
Proof. intros Ha Hn. unfold read_bytes. rewrite length_take, length_drop. lia. Qed.

Lemma read_bytes_split l at_ n k :
  0 <= at_ → 0 <= k <= n → read_bytes l at_ n = read_bytes l at_ k ++ read_bytes l (at_ + k) (n - k).
Proof.
  intros Ha Hk. unfold read_bytes.
  rewrite <-(take_drop (Z.to_nat k) (take (Z.to_nat n) (drop (Z.to_nat at_) l))).
  rewrite take_take, skipn_firstn_comm, drop_drop.
  replace (Z.to_nat k `min` Z.to_nat n)%nat with (Z.to_nat k) by lia.
  do 2 f_equal; [lia|]. f_equal. lia.
Qed.

Lemma read_bytes_short l at_ n k :
  0 <= at_ → 0 <= n → Z.of_nat (length (read_bytes l at_ n)) < n → read_bytes l (at_ + n) k = [].
Proof.
  intros Ha Hn Hs. rewrite length_read_bytes in Hs by done. unfold read_bytes.
  rewrite drop_ge by lia. by destruct (Z.to_nat k).
Qed.

(** ** Sequential and parallel file reads *)

Section FileReads.
Context (f : File) (spawn : nat → option string).
Hypothesis no_fault : ∀ at_ n, fault f at_ n = None.
Hypothesis no_spawn_failure : ∀ i, spawn i = None.

Lemma workers_no_failure fuel index chunk n file_offset :
  (workers_from fuel spawn f index chunk n file_offset).2 = None.
Proof using no_spawn_failure.
  revert index. induction fuel as [|fuel IH]; intros index; cbn [workers_from]; [done|].
  case_bool; [done|]. rewrite no_spawn_failure. specialize (IH (S index)).
  destruct (read_exact_at f _ _), (workers_from fuel spawn f (S index) chunk n file_offset). done.
Qed.

(** The workers from [index] on store the rest of the range and agree with one
    read of it. *)
Lemma workers_spec fuel index chunk n file_offset l base :
  0 < chunk → 0 <= file_offset → 0 <= base →
  n <= (Z.of_nat index + Z.of_nat fuel) * chunk → 0 <= n →
  let at_ := Z.min (Z.of_nat index * chunk) n in
  let spawned := workers_from fuel spawn f index chunk n file_offset in
  let rest := read_exact_at f (file_offset + at_) (n - at_) in
  store_chunks l base (join_workers spawned).1 = write_bytes l (base + at_) rest.1 ∧
  (join_workers spawned).2 = rest.2.
Proof using no_fault no_spawn_failure.
  intros Hc Hf Hb. revert index l. induction fuel as [|fuel IH]; intros index l Hn H0; cbv zeta.
  - replace (Z.min _ n) with n by nia. rewrite Z.sub_diag. cbn [workers_from join_workers fst snd].
    unfold read_exact_at. rewrite no_fault. cbn [fst snd]. by rewrite write_bytes_nil.
  - cbn [workers_from]. destruct (n <=? Z.of_nat index * chunk) eqn:E; to_prop.
    { replace (Z.min _ n) with n by lia. rewrite Z.sub_diag. cbn [join_workers fst snd].
      unfold read_exact_at. rewrite no_fault. cbn [fst snd]. by rewrite write_bytes_nil. }
    rewrite no_spawn_failure. replace (Z.min (Z.of_nat index * chunk) n) with (Z.of_nat index * chunk) by lia.
    set (at_ := Z.of_nat index * chunk) in *. set (k := Z.min chunk (n - at_)).
    unfold read_exact_at. rewrite !no_fault.
    set (piece := read_bytes (file_bytes f) (file_offset + at_) k).
    specialize (IH (S index) (write_bytes l (base + at_) piece)). cbv zeta in IH.
    destruct (workers_from fuel spawn f (S index) chunk n file_offset) as [rest failed] eqn:Ew.
    replace (Z.min (Z.of_nat (S index) * chunk) n) with (at_ + k) in IH by (subst at_ k; nia).
    destruct IH as [IHd IHr]; [nia|done|].
    assert (Z.of_nat (length piece) = Z.max 0 (Z.min k (Z.of_nat (length (file_bytes f)) - (file_offset + at_))))
      as Hlen by (apply length_read_bytes; lia).
    assert (read_bytes (file_bytes f) (file_offset + at_) (n - at_)
            = piece ++ read_bytes (file_bytes f) (file_offset + (at_ + k)) (n - (at_ + k))) as Hsplit.
    { rewrite (read_bytes_split _ _ (n - at_) k) by lia. by rewrite Z.add_assoc, Z.sub_add_distr. }
    unfold read_exact_at in IHd, IHr. rewrite no_fault in IHd, IHr. cbn [fst snd] in IHd, IHr.
    unfold join_workers in *. cbn [fst snd fmap list_fmap] in *.
    rewrite Hsplit, length_app, Nat2Z.inj_add. split.
    + cbn [store_chunks foldl fst snd]. etrans; [exact IHd|].
      destruct (decide (Z.of_nat (length piece) = k)) as [Hk|Hk].
      * rewrite <-Hk at 1. rewrite Z.add_assoc. apply write_bytes_app. lia.
      * rewrite (Z.add_assoc file_offset at_ k), (read_bytes_short _ (file_offset + at_) k) by (subst piece; lia).
        by rewrite write_bytes_nil, app_nil_r.
    + cbn [foldr snd]. destruct (Z.of_nat (length piece) =? k) eqn:Ek; to_prop.
      * cbn [result_bind]. etrans; [exact IHr|].
        destruct (_ =? n - (at_ + k)) eqn:E1, (_ =? n - at_) eqn:E2; to_prop; try done; lia.
      * rewrite (Z.add_assoc file_offset at_ k), (read_bytes_short _ (file_offset + at_) k) by (subst piece; lia).
        pose proof (workers_no_failure fuel (S index) chunk n file_offset) as Hnone.
        rewrite Ew in Hnone. simpl in Hnone. subst failed. cbn [result_bind length].
        rewrite (proj2 (Z.eqb_neq _ _)); [done|]. simpl. lia.
Qed.
End FileReads.

(** ** Host transfers *)

(** A mapped buffer inside its allocation; an import is of a whole one and
    shares its cells. *)
Fixpoint buffer_wf (b : Buffer) : Prop :=
  match b with
  | mkBuffer (mkMemory _ _ is_mapped n u c d src) o l =>
      0 <= o ∧ 0 < l ∧ o + l <= n ∧ n <= usize_max ∧ is_mapped = true ∧
      match src with
      | None => True
      | Some s => buffer_wf s ∧ offset s = 0 ∧ len s = n ∧
                  uses_cell (memory s) = u ∧ cache_cell (memory s) = c ∧ backing (memory s) = d
      end
  end.

(** The backing holds every byte of the allocation. *)
Definition backed (st : Store) (b : Buffer) : Prop :=
  Z.of_nat (length (contents st b)) = bytes (memory b).

(** Two handles to the same bytes: views or imports of one allocation. *)
Definition alias (a b : Buffer) : Prop :=
  backing (memory a) = backing (memory b) ∧ uses_cell (memory a) = uses_cell (memory b).

Lemma range_spec b off n : range b off n = Ok tt ↔ off + n <= len b ∧ off + n <= usize_max.
Proof.
  unfold range. destruct (checked_add off n) as [stop|] eqn:E.
  - apply checked_add_Some in E as [-> Hm]. case_bool; naive_solver lia.
  - split; [done|]. intros [_ Hm]. by rewrite checked_add_ok in E.
Qed.

Lemma range_wf b off n : buffer_wf b → off + n <= len b → 0 <= off → range b off n = Ok tt.
Proof.
  intros Hb Hr H0. apply range_spec. split; [done|]. destruct b as [[] ? ?]. simpl in *. lia.
Qed.

Section Transfers.
Context (control : nat → bool → Z → Z → Result unit).
Hypothesis control_ok : ∀ id flush off n, control id flush off n = Ok tt.

Lemma cache_control_step st b flush off n :
  buffer_wf b → 0 <= off → 0 <= n → off + n <= len b →
  (∀ s, source (memory b) = Some s → cache_control control st s flush (offset b + off) n = Ok tt) →
  cache_control control st b flush off n = Ok tt.
Proof using control_ok.
  intros Hb H0 Hn Hr Hs. pose proof (range_wf b off n Hb Hr H0) as Hrange.
  destruct b as [[id ds mp m u c d [s|]] o l]; simpl in Hb;
    destruct Hb as (Ho & Hl & Hb & Hm & -> & Hsrc); cbn [cache_control];
    rewrite Hrange; cbn [result_bind require_host_mapping mapped memory].
  - by apply Hs.
  - case_bool; [apply control_ok|done].
Qed.

Fixpoint cache_control_ok (st : Store) (b : Buffer) (flush : bool) (off n : Z) {struct b} :
  buffer_wf b → 0 <= off → 0 <= n → off + n <= len b → cache_control control st b flush off n = Ok tt.
Proof using control_ok.
  intros Hb H0 Hn Hr.
  destruct b as [[id ds mp m u c d [s|]] o l].
  - apply cache_control_step; try done. intros s' [= <-].
    destruct Hb as (Ho & Hl & Hb & Hm & Hmp & Hs & Ho' & Hl' & _). simpl in *.
    apply (cache_control_ok st s flush (o + off) n Hs); lia.
  - by apply cache_control_step.
Qed.

Lemma write_ok st b off new :
  buffer_wf b → leases st b = 0 → 0 <= off → off + Z.of_nat (length new) <= len b →
  write control st b off new
    = (set_data st (backing (memory b)) (write_bytes (contents st b) (offset b + off) new), Ok tt).
Proof using control_ok.
  intros Hb Hu H0 Hr. unfold write. rewrite range_wf, Hu by (done || lia). cbn [negb Z.eqb].
  rewrite !cache_control_ok by (done || lia). done.
Qed.

Lemma read_ok st b off n :
  buffer_wf b → leases st b = 0 → 0 <= off → 0 <= n → off + n <= len b →
  read control st b off n = Ok (read_bytes (contents st b) (offset b + off) n).
Proof using control_ok.
  intros Hb Hu H0 Hn Hr. unfold read. rewrite range_wf, Hu by (done || lia). cbn [negb Z.eqb result_bind].
  rewrite cache_control_ok by (done || lia). done.
Qed.

(** Host transfers through any alias reach the same bytes: after a write
    through one view or import, a read through another returns the written
    byte at every position of the range they share and the previous byte
    elsewhere; the written range reads back unchanged. *)
Theorem aliases_share_bytes st a b off new off' n :
  buffer_wf a → buffer_wf b → alias a b → backed st a → leases st a = 0 →
  0 <= off → off + Z.of_nat (length new) <= len a → 0 <= off' → 0 <= n → off' + n <= len b →
  ∃ st' found, write control st a off new = (st', Ok tt) ∧ read control st' b off' n = Ok found ∧
    read control st' a off (Z.of_nat (length new)) = Ok new ∧
    ∀ i, 0 <= i < n →
      found !! Z.to_nat i =
        let x := offset b + off' + i in
        if (offset a + off <=? x) && (x <? offset a + off + Z.of_nat (length new))
        then new !! Z.to_nat (x - (offset a + off)) else contents st b !! Z.to_nat x.
Proof using control_ok.
  intros Ha Hb [Hback Hcell] Hbk Hu H0 Hr H0' Hn Hr'.
  assert (0 <= offset a ∧ offset a + len a <= bytes (memory a)) as [Hoa Hla]
    by (destruct a as [[] ? ?]; simpl in *; lia).
  assert (0 <= offset b) as Hob by (destruct b as [[] ? ?]; simpl in *; lia).
  assert (contents st b = contents st a) as Hsame by (unfold contents; by rewrite Hback).
  eexists _, _. split_and!; [by apply write_ok| | |].
  - apply read_ok; try done. unfold leases in *. simpl. by rewrite <-Hcell.
  - rewrite read_ok; [|done|done|lia|lia|lia]. unfold contents at 1. simpl.
    rewrite lookup_insert_eq. simpl. rewrite read_write_same by (unfold backed in Hbk; lia). done.
  - intros i Hi. cbv zeta. unfold contents at 1. simpl. rewrite <-Hback, lookup_insert_eq. simpl.
    unfold read_bytes. rewrite lookup_take_lt, lookup_drop by lia.
    rewrite lookup_write_bytes by (unfold backed in Hbk; lia).
    replace (Z.of_nat (Z.to_nat (offset b + off') + Z.to_nat i)) with (offset b + off' + i) by lia.
    destruct (_ && _) eqn:E; to_prop; [f_equal; lia|]. rewrite Hsame. f_equal. lia.
Qed.

(** While any alias of an allocation carries a device lease, every host
    transfer of an in-range part of it is refused with [Busy] and changes
    nothing: writes, zeroing, reads, host transactions and both file reads. *)
Theorem leased_memory_refuses_the_host {T} st a b off new n f fo workers spawn (action : list Z → list Z * Result T) :
  buffer_wf b → alias a b → 0 < leases st a → 0 <= off → 0 <= n <= usize_max - fo →
  off + Z.of_nat (length new) <= len b → off + n <= len b → 1 <= workers <= 8 →
  write control st b off new = (st, busy) ∧
  zero control st b = (st, Err (Busy "memory is executing")) ∧
  read control st b off n = busy ∧
  with_host_bytes control st b action = (st, busy) ∧
  write_from_file control st b off n f fo = (st, busy) ∧
  write_from_file_parallel control spawn st b off n f fo workers = (st, busy).
Proof.
  intros Hb [_ Hcell] Hu H0 Hn Hr1 Hr2 Hw.
  assert (leases st b =? 0 = false) as Hne.
  { unfold leases in *. rewrite <-Hcell. apply Z.eqb_neq. lia. }
  assert (∀ fill, fill_from_file control st b off n fo fill = (st, busy)) as Hfill.
  { intros fill. unfold fill_from_file. rewrite range_wf by (done || lia).
    rewrite (proj2 (Z.ltb_ge _ _)) by lia. by rewrite Hne. }
  assert (write_from_file control st b off n f fo = (st, busy)) as Hseq.
  { unfold write_from_file. destruct (read_exact_at f fo n). apply Hfill. }
  split_and!; try done.
  - unfold write. rewrite range_wf by (done || lia). by rewrite Hne.
  - unfold zero. assert (require_host_mapping b = Ok tt) as ->
      by (destruct b as [[] ? ?]; unfold require_host_mapping; simpl in *; naive_solver).
    by rewrite Hne.
  - unfold read. rewrite range_wf by (done || lia). cbn [result_bind]. by rewrite Hne.
  - unfold with_host_bytes. by rewrite Hne.
  - unfold write_from_file_parallel.
    rewrite (proj2 (Z.leb_le 1 workers)), (proj2 (Z.leb_le workers 8)) by lia. cbn [andb negb].
    case_bool; [done|]. apply Hfill.
Qed.
End Transfers.

(** Reading a file in parallel is the same as reading it at once: for any
    number of workers, when no read or spawn fails, the resulting store and
    result are equal, also when the file ends inside the range. *)
Theorem parallel_file_read_is_sequential control spawn st b off n f fo workers :
  (∀ at_ k, fault f at_ k = None) → (∀ i, spawn i = None) →
  0 <= offset b → 0 <= off → 0 <= n → 0 <= fo → 1 <= workers <= 8 →
  write_from_file_parallel control spawn st b off n f fo workers
    = write_from_file control st b off n f fo.
Proof.
  intros Hf Hs Hb H0 Hn Hfo Hw. unfold write_from_file_parallel.
  rewrite (proj2 (Z.leb_le 1 workers)), (proj2 (Z.leb_le workers 8)) by lia. cbn [andb negb].
  destruct (_ || _) eqn:E; [done|]. to_prop. unfold write_from_file.
  destruct (read_exact_at f fo n) as [got result] eqn:Er.
  assert (0 < div_ceil n workers ∧ n <= workers * div_ceil n workers) as [Hc Hc'].
  { unfold div_ceil. pose proof (Z.div_mod (n + (workers - 1)) workers ltac:(lia)).
    pose proof (Z.mod_pos_bound (n + (workers - 1)) workers ltac:(lia)). nia. }
  destruct (workers_spec f spawn Hf Hs (Z.to_nat workers) 0 (div_ceil n workers) n fo
              (contents st b) (offset b + off) Hc Hfo ltac:(lia) ltac:(lia) Hn) as [Hd Hr].
  replace (Z.min (Z.of_nat 0 * _) n) with 0 in Hd, Hr by lia.
  rewrite !Z.add_0_r, Z.sub_0_r, Er in Hd. rewrite Z.add_0_r, Z.sub_0_r, Er in Hr.
  cbn [fst snd] in Hd, Hr. unfold fill_from_file. rewrite Hd, Hr.
  cbn [fst snd store_chunks foldl]. by rewrite Z.add_0_r.
Qed.

(** ** Allocation *)

Lemma check_Ok operation status u : check operation status = Ok u → status = 0.
Proof. unfold check. case_bool; [done|done]. Qed.

Lemma select_profile_sound owners host size scope ordinal profiles found :
  select_profile owners host size scope ordinal profiles = Ok (Some found) →
  ∃ i p, found = (scope, (ordinal + i)%nat) ∧ profiles !! i = Some (0, p) ∧
    profile_admits owners host size p = true ∧
    ∀ s, selected owners = Some s → s = found.
Proof.
  revert ordinal. induction profiles as [|[status p] rest IH]; intros ordinal; cbn [select_profile]; [done|].
  assert (select_profile owners host size scope (S ordinal) rest = Ok (Some found) →
    ∃ i q, found = (scope, (ordinal + i)%nat) ∧ ((status, p) :: rest) !! i = Some (0, q) ∧
      profile_admits owners host size q = true ∧ ∀ s, selected owners = Some s → s = found) as Hnext.
  { intros H. destruct (IH _ H) as (i & q & -> & Hi & Hq). exists (S i), q.
    split_and!; [f_equal; lia|done|apply Hq..]. }
  destruct (match selected owners with Some _ => _ | None => _ end) eqn:Esel; [done|].
  destruct (status =? STATUS_UNSUPPORTED); [done|].
  destruct (check _ status) as [u|] eqn:Ec; [|done]. cbn [result_bind]. apply check_Ok in Ec as ->.
  destruct (profile_admits owners host size p) eqn:Ep; [|done]. intros [= <-].
  exists 0%nat, p. split_and!; [f_equal; lia|done|done|]. intros s Hs. rewrite Hs in Esel.
  apply negb_false_iff, bool_decide_eq_true in Esel. done.
Qed.

(** A new allocation uses a profile that admits it: the chosen scope was
    reported, is a system scope unless the memory is device-only, and the
    chosen profile was queried successfully, has the roles, flags, placement
    and size the request needs, and is the requested one when one was named. *)
Theorem chosen_profile_admits native fabric size devs registered owners initial scope ordinal :
  choose_profile native fabric size devs registered owners initial = Ok (scope, ordinal) →
  NoDup devs ∧ 0 ≠ size ∧
  ∃ scopes s p,
    (if device_only owners then all_local native devs else system_scopes native) = Ok scopes ∧
    Ok s ∈ scopes ∧ scope_id s = scope ∧ (device_only owners = false → scope_system s = true) ∧
    scope_profiles s !! ordinal = Some (0, p) ∧ profile_admits owners registered size p = true ∧
    ∀ x, selected owners = Some x → x = (scope, ordinal).
Proof.
  unfold choose_profile. intros H.
  destruct (size =? 0) eqn:Ez; [done|]. to_prop. cbn [result_bind] in H.
  destruct (match initial with Some _ => _ | None => _ end) as [u|]; [|done]. cbn [result_bind] in H.
  destruct (devices_ok fabric devs) eqn:Ed; [|done]. cbn [result_bind] in H.
  destruct (match owner_source owners with Some _ => _ | None => _ end) as [u'|]; [|done].
  cbn [result_bind] in H.
  destruct (system_scopes native) as [sys|] eqn:Es; [|done]. cbn [result_bind] in H.
  destruct (if device_only owners then all_local native devs else Ok sys) as [scopes|] eqn:El; [|done].
  cbn [result_bind] in H.
  destruct (select_scope owners registered size scopes) as [[found|]|] eqn:Ef; [|done|done].
  cbn [result_bind ok_or] in H. injection H as ->.
  split; [|split; [lia|]].
  { unfold devices_ok in Ed. to_prop. by apply bool_decide_eq_true in H0. }
  assert (∃ s p, Ok s ∈ scopes ∧ scope_id s = scope ∧ (device_only owners = false → scope_system s = true) ∧
    scope_profiles s !! ordinal = Some (0, p) ∧ profile_admits owners registered size p = true ∧
    ∀ x, selected owners = Some x → x = (scope, ordinal)) as (s & p & Hs).
  { clear El. induction scopes as [|[s|] rest IH]; cbn [select_scope result_bind] in Ef; [done| |done].
    destruct (negb (device_only owners) && negb (scope_system s)) eqn:Esys.
    { destruct (IH Ef) as (s' & p & Hin & Hrest). exists s', p. split; [by right|done]. }
    destruct (select_profile _ _ _ _ _ _) as [[found|]|] eqn:Ep; [|..|done]; cbn [result_bind] in Ef.
    - injection Ef as ->. apply select_profile_sound in Ep as (i & p & [= -> ->] & Hi & Hp & Hsel).
      exists s, p. split_and!; [by left|done| |done|done|done].
      intros Hd. rewrite Hd in Esys. simpl in Esys. by apply negb_false_iff in Esys.
    - destruct (IH Ef) as (s' & p & Hin & Hrest). exists s', p. split; [by right|done]. }
  exists scopes, s, p. split; [|done]. by destruct (device_only owners).
Qed.

Lemma create_memory_ok control native fabric engine st fresh size devs host owners initial st' b :
  create_memory control native fabric engine st fresh size devs host owners initial = (st', Ok b) →
  device_only owners = false →
  is_whole_allocation b = true ∧ len b = size ∧ devices (memory b) = devs ∧ mapped (memory b) = true ∧
  match owner_source owners with
  | Some s => alias b s ∧ uses st' = uses st ∧ data st' = data st
  | None =>
      contents st' b = default (default (replicate (Z.to_nat size) 0) initial) host ∧ leases st' b = 0 ∧
      ∀ c, c ≠ fresh → uses st' !! c = uses st !! c ∧ data st' !! c = data st !! c
  end.
Proof.
  unfold create_memory. intros H Hd.
  destruct (let? (scope, ordinal) := choose_profile _ _ _ _ _ _ _ in _) as [u|]; [|done].
  rewrite Hd in H. destruct (let? _ := map native in _) as [u'|]; [|done].
  injection H as <- H. inv_ok. cbn [len is_whole_allocation offset memory].
  unfold is_whole_allocation, new_memory, new_cells, alias, imported, contents, leases.
  destruct (owner_source owners) as [s|]; simpl; rewrite ?Z.eqb_refl.
  - split_and!; try done; destruct (incoherent engine devs owners); done.
  - split_and!; try done.
    + destruct host as [pages|]; simpl; by rewrite lookup_insert_eq.
    + destruct host as [pages|]; simpl; destruct (incoherent engine devs owners); simpl;
        by rewrite lookup_insert_eq.
    + intros c Hc. destruct host as [pages|]; simpl; destruct (incoherent engine devs owners); simpl;
        by rewrite !lookup_insert_ne by done.
Qed.

(** Creating memory touches no cell but the new ones, whatever its outcome;
    a mapped result is the buffer over exactly these cells. *)
Lemma create_memory_frame control native fabric engine st fresh size devs host owners initial st' r :
  create_memory control native fabric engine st fresh size devs host owners initial = (st', r) →
  owner_source owners = None →
  (∀ c, c ≠ fresh → uses st' !! c = uses st !! c ∧ data st' !! c = data st !! c) ∧
  (device_only owners = false → ∀ b, r = Ok b →
     b = mkBuffer (mkMemory fresh devs true size fresh fresh fresh None) 0 size ∧ size ≠ 0 ∧
     data st' !! fresh = Some (default (default (replicate (Z.to_nat size) 0) initial) host)).
Proof.
  unfold create_memory. intros H Hs.
  destruct (let? (scope, ordinal) := choose_profile _ _ _ _ _ _ _ in _) as [u|] eqn:Ec; [|by simplify_eq].
  assert (size ≠ 0) as Hz.
  { unfold choose_profile in Ec. destruct (size =? 0) eqn:E0; to_prop; [done|done]. }
  unfold new_cells, new_memory, imported in H. rewrite Hs in H.
  assert (∀ ss : Store, ss = (if incoherent engine devs owners then mkStore (<[fresh := 0]> (uses st))
            (<[fresh := true]> (<[fresh := false]> (needs_cache st))) (data st)
            else mkStore (<[fresh := 0]> (uses st)) (<[fresh := false]> (needs_cache st)) (data st)) →
          ∀ c, c ≠ fresh → uses ss !! c = uses st !! c ∧ data ss !! c = data st !! c) as Hframe.
  { intros ss -> c Hc. destruct (incoherent _ _ _); simpl; by rewrite lookup_insert_ne. }
  specialize (Hframe _ eq_refl). simpl in H. destruct (device_only owners).
  { by simplify_eq. }
  destruct (let? _ := map native in _) as [u'|]; [|by simplify_eq].
  injection H as <- <-. split.
  - intros c Hc. destruct (Hframe c Hc) as [Hu Hd].
    destruct host as [pages|]; unfold set_data; simpl; by rewrite lookup_insert_ne.
  - intros _ b Hb. inv_ok. split_and!; [done|done|]. destruct host; simpl; by rewrite lookup_insert_eq.
Qed.

(** A write touches one allocation, keeps its length, and on success puts the
    bytes in place. *)
Lemma write_frame control st b off new st' r :
  write control st b off new = (st', r) →
  uses st' = uses st ∧ (∀ c, c ≠ backing (memory b) → data st' !! c = data st !! c) ∧
  (contents st' b = contents st b ∧ is_ok r = false ∨
   contents st' b = write_bytes (contents st b) (offset b + off) new ∧
   off + Z.of_nat (length new) <= len b).
Proof.
  unfold write. destruct (range b off _) as [u|] eqn:Er; [|intros [= <- <-]; by auto].
  destruct (negb _); [intros [= <- <-]; by auto|].
  destruct (cache_control control st b false off _); [|intros [= <- <-]; by auto].
  intros [= <- <-]. destruct u. apply range_spec in Er as [Hr _]. split; [done|]. split.
  - intros c Hc. simpl. by rewrite lookup_insert_ne.
  - right. split; [|done]. unfold contents. simpl. by rewrite lookup_insert_eq.
Qed.

(** A new whole buffer of the given bytes for the devices asked for, without a
    lease; every other allocation is as before. *)
Definition fresh_buffer (st st' : Store) (fresh : nat) (devs : list nat) (bytes : list Z) (b : Buffer) : Prop :=
  is_whole_allocation b = true ∧ len b = Z.of_nat (length bytes) ∧ devices (memory b) = devs ∧
  mapped (memory b) = true ∧ contents st' b = bytes ∧ leases st' b = 0 ∧
  ∀ c, c ≠ fresh → uses st' !! c = uses st !! c ∧ data st' !! c = data st !! c.

Lemma create_memory_fresh control native fabric engine st fresh size devs host owners initial st' b bytes :
  create_memory control native fabric engine st fresh size devs host owners initial = (st', Ok b) →
  device_only owners = false → owner_source owners = None → 0 <= size →
  default (default (replicate (Z.to_nat size) 0) initial) host = bytes → Z.of_nat (length bytes) = size →
  fresh_buffer st st' fresh devs bytes b.
Proof.
  intros H Hd Hs Hz Hb Hl. apply create_memory_ok in H as (Hw & Hlen & Hdev & Hm & H); [|done].
  rewrite Hs in H. destruct H as (Hc & Hle & Hrest). unfold fresh_buffer. rewrite Hlen, Hc, Hb. done.
Qed.

Lemma length_zeros size : 0 <= size → Z.of_nat (length (replicate (Z.to_nat size) 0)) = size.
Proof. rewrite length_replicate. lia. Qed.

Lemma under_ok {A} st reserved (k : Store * Result A) st' b :
  under st reserved k = (st', Ok b) → reserved = Ok tt ∧ k = (st', Ok b).
Proof. by destruct reserved as [[]|]. Qed.

(** Every allocation entry point that maps its memory returns a whole,
    unleased buffer over the devices asked for, zeroed or holding the given
    bytes, and leaves every other allocation alone; registered pages are
    rounded up to whole pages by less than a page, after the budget accepted
    the rounded size. *)
Theorem allocations_are_initialized control native fabric engine st fresh size devs o p reserved budget page bytes
    device is_coherent st' b :
  0 <= size →
  let zeros n := replicate (Z.to_nat n) 0 in
  let made r := r = (st', Ok b) in
  (made (allocate control native fabric engine st fresh size devs)
     ∨ made (allocate_shared control native fabric engine st fresh size devs)
     ∨ made (allocate_budgeted control native fabric engine st fresh size devs reserved)
     ∨ made (allocate_with_options control native fabric engine st fresh size devs o reserved)
     ∨ made (profile_allocate control native fabric engine st fresh p devs size reserved)
   → fresh_buffer st st' fresh devs (zeros size) b) ∧
  (made (allocate_owned control native fabric engine st fresh size device is_coherent reserved)
   → fresh_buffer st st' fresh [device] (zeros size) b) ∧
  (made (allocate_from control native fabric engine st fresh bytes devs)
   → fresh_buffer st st' fresh devs bytes b) ∧
  (made (allocate_registered control native fabric engine st fresh page size devs budget)
   → ∃ rounded, fresh_buffer st st' fresh devs (zeros rounded) b ∧ budget rounded = Ok tt ∧
       size <= rounded < size + page ∧ rounded mod page = 0).
Proof.
  intros Hz zeros made. subst zeros made. cbv beta. split_and!.
  - unfold allocate, allocate_access, allocate_shared, allocate_budgeted, allocate_with_options, profile_allocate.
    intros [H|[H|[H|[H|H]]]]; [| | | |case_match; [done|]]; try match type of H with under _ _ _ = _ => apply under_ok in H as [_ H] end;
      (eapply create_memory_fresh; [exact H|..]; simpl; auto using length_zeros).
  - unfold allocate_owned. intros H. apply under_ok in H as [_ H].
    eapply create_memory_fresh; [exact H|..]; simpl; auto using length_zeros.
  - intros H. eapply create_memory_fresh; [exact H|..]; simpl; auto with lia.
  - unfold allocate_registered. intros H. case_match eqn:E; [done|].
    apply orb_false_iff in E as [Hp%Z.leb_gt _]. case_match eqn:Hadd; [|done].
    apply checked_add_Some in Hadd as [-> _]. apply under_ok in H as [Hb H].
    set (r := (size + (page - 1)) / page * page) in *.
    assert (size <= r < size + page ∧ r mod page = 0) as [Hr Hm].
    { split; [|by apply Z_mod_mult]. pose proof (Z.div_mod (size + (page - 1)) page).
      pose proof (Z.mod_pos_bound (size + (page - 1)) page). lia. }
    exists r. split_and!; try done; try lia.
    eapply create_memory_fresh; [exact H|..]; simpl; auto using length_zeros with lia.
Qed.

(** ** Witnesses *)

Definition demo_control (id : nat) (flush : bool) (off n : Z) : Result unit := Ok tt.
Definition demo_memory : Memory := mkMemory 1 [0%nat] true 16 1 1 1 None.
Definition demo_buffer : Buffer := mkBuffer demo_memory 0 16.
Definition demo_view : Buffer := mkBuffer demo_memory 4 8.
(** An import of the same allocation for another device. *)
Definition demo_import : Buffer := mkBuffer (mkMemory 2 [1%nat] true 16 1 1 1 (Some demo_buffer)) 0 16.
Definition demo_store (n : Z) : Store := mkStore {[1%nat := n]} {[1%nat := true]} {[1%nat := replicate 16 7]}.
Definition demo_file : File := mkFile (seqZ 0 10) (λ _ _, None).
Definition demo_profile : Profile :=
  mkProfile 19 1 (mkConstruction 0 0 1 0) (mkConstruction 0 65536 1 0) (mkConstruction 0 4096 8 64).
Definition demo_native : Native :=
  mkNativeApi (Ok tt) (Ok [Ok (mkScope 5 true [(3, demo_profile); (0, demo_profile)])]) (λ _, Ok [])
    (λ _ _, Ok true) (Ok tt) (Ok (Some 65536)).

Lemma aliases_share_bytes_witness :
  ∃ st' found, write demo_control (demo_store 0) demo_view 2 [1; 2; 3] = (st', Ok tt) ∧
    read demo_control st' demo_import 5 3 = Ok found.
Proof.
  destruct (aliases_share_bytes demo_control ltac:(done) (demo_store 0) demo_view demo_import 2 [1; 2; 3] 5 3)
    as (st' & found & Hw & Hr & _); try (simpl; unfold usize_max; lia); try done.
  by exists st', found.
Defined.

Lemma leased_memory_refuses_the_host_witness :
  write demo_control (demo_store 1) demo_view 2 [1; 2; 3] = (demo_store 1, busy).
Proof.
  refine (proj1 (leased_memory_refuses_the_host (T := unit) demo_control (demo_store 1) demo_import demo_view
    2 [1; 2; 3] 4 demo_file 0 3 (λ _, None) (λ l, (l, Ok tt)) _ _ _ _ _ _ _ _));
    try (simpl; unfold usize_max; lia); try done.
Defined.

Lemma parallel_file_read_is_sequential_witness :
  write_from_file_parallel demo_control (λ _, None) (demo_store 0) demo_buffer 3 12 demo_file 1 5
    = write_from_file demo_control (demo_store 0) demo_buffer 3 12 demo_file 1.
Proof. apply parallel_file_read_is_sequential; try done; simpl; lia. Defined.

Lemma chosen_profile_admits_witness :
  NoDup [4%nat; 6%nat] ∧ 0 ≠ 128.
Proof.
  destruct (chosen_profile_admits demo_native (λ _, true) 128 [4%nat; 6%nat] false default_owners None 5 1)
    as (Hd & Hz & _); [vm_compute; reflexivity|done].
Defined.

Lemma allocations_are_initialized_witness :
  ∃ st' b, allocate_registered demo_control demo_native (λ _, true) (λ _, Gpu) (demo_store 0) 9 4096 5000 [4%nat]
             (λ n, if n <=? 8192 then Ok tt else busy) = (st', Ok b) ∧ len b = 8192.
Proof.
  eexists _, _. split; [vm_compute; reflexivity|].
  edestruct (allocations_are_initialized demo_control demo_native (λ _, true) (λ _, Gpu) (demo_store 0) 9 5000 [4%nat]
    default_options (mkAllocationProfile 0 0 true (mkConstruction 0 0 0 0)) (Ok tt)
    (λ n, if n <=? 8192 then Ok tt else busy) 4096 [] 0 true) as (_ & _ & _ & H); [lia|].
  destruct H as (r & Hb & _ & _ & _); [vm_compute; reflexivity|]. exact eq_refl.
Defined.
End NativeMemory.
