(* ===== verification/VirtualMemory.v ===== *)
(** * Virtual memory

    Stable addresses with replaceable backing, src/src/fabric/virtual_memory.rs:
    [reserve_virtual_memory], [VirtualMemory::update], [detach], [destroy] and
    the [release] they share with [Drop].

    The native mapping tables are not readable state of the program: a failed
    update may have installed any part of its request.  [installed] is the set
    of sources the tables may refer to, and the steps of [step] allow every
    outcome the interface documents.  The theorems show that the source of
    every mapping that may exist is leased, whatever calls fail and in
    whatever order, so that the host is refused access to it, and that a
    successful detach or destruction gives back exactly the leases taken. *)

From S2P Require Import Prelude NativeMemory.
Import NativeMemory.
Local Open Scope Z_scope.

Module VirtualMemory.

Definition u32_max : Z := 2 ^ 32 - 1.

(** [MappingUpdate]. *)
Record MappingUpdate : Type := mkUpdate {
  target_offset : Z; update_bytes : Z; buffer : option Buffer;
  source_access : Z; update_access : Z; source_offset : Z }.

(** [VirtualMemory]: [raw] is false once the native handle was given up. *)
Record VirtualMemory : Type := mkVirtual {
  raw : bool; groups : list nat; backing : list (list Buffer) }.

Section Virtual.
(** Devices by identity and the fabric of a device or buffer. *)
Context (fabric_device : nat → bool) (fabric_buffer : Buffer → bool).

(** [reserve_virtual_memory]: [created] is the native result (false: a null
    handle) and [group_of] the reported alias group of each consumer. *)
Fixpoint query_groups (group_of : nat → Result nat) (count : Z) (ordinals : list nat) : Result (list nat) :=
  match ordinals with
  | [] => Ok []
  | o :: rest =>
      let? group := group_of o in
      if count <=? Z.of_nat group then Err (Message "invalid reservation mapping group")
      else let? more := query_groups group_of count rest in Ok (group :: more)
  end.
Definition reserve_virtual_memory (accesses : list (option nat)) (created : Result bool)
    (group_of : nat → Result nat) : Result VirtualMemory :=
  let count := Z.of_nat (length accesses) in
  let? _ := if u32_max <? count then Err (Message "too many reservation consumers") else Ok tt in
  let? _ := if forallb (λ a, match a with Some d => fabric_device d | None => true end) accesses
            then Ok tt else Err (Message "reservation device belongs to another fabric") in
  let? present := created in
  let? _ := if present : bool then Ok tt else Err (missing "created memory reservation") in
  let? groups := query_groups group_of count (seq 0 (length accesses)) in
  Ok (mkVirtual true groups (replicate (length accesses) [])).

(** The group of an access ordinal. *)
Definition group_at (v : VirtualMemory) (ordinal : nat) : Result nat :=
  ok_or (groups v !! ordinal) (Message "invalid reservation access ordinal").

(** The loop of [update] over its request: a lease on every source. *)
Fixpoint retain_sources (st : Store) (updates : list MappingUpdate) (taken : list Buffer)
    : Store * Result (list Buffer) :=
  match updates with
  | [] => (st, Ok taken)
  | u :: rest =>
      match buffer u with
      | None => retain_sources st rest taken
      | Some b =>
          if negb (fabric_buffer b)
          then (drop_all st taken, Err (Message "mapping source belongs to another fabric"))
          else match retain_use st b with
               | Ok st => retain_sources st rest (taken ++ [b])
               | Err e => (drop_all st taken, Err e)
               end
      end
  end.

(** [update] up to the native call; [entry] is its presence in the library. *)
Definition prepare_update (st : Store) (v : VirtualMemory) (ordinal : nat) (updates : list MappingUpdate)
    (entry : bool) : Store * Result (nat * list Buffer) :=
  match group_at v ordinal with
  | Err e => (st, Err e)
  | Ok group =>
      if u32_max <? Z.of_nat (length updates) then (st, Err (Message "too many mapping updates"))
      else match retain_sources st updates [] with
           | (st, Err e) => (st, Err e)
           | (st, Ok leases) =>
               if entry then (st, Ok (group, leases))
               else (drop_all st leases, Err (missing "memory_reservation_update"))
           end
  end.

(** [update]: the proposals are retained before the native call, which returns
    [status]. *)
Definition update (st : Store) (v : VirtualMemory) (ordinal : nat) (updates : list MappingUpdate)
    (entry : bool) (status : Z) : Store * VirtualMemory * Result unit :=
  match prepare_update st v ordinal updates entry with
  | (st, Err e) => (st, v, Err e)
  | (st, Ok (group, leases)) =>
      (st, mkVirtual (raw v) (groups v) (alter (λ l, l ++ leases) group (backing v)),
       check "memory_reservation_update" status)
  end.

(** [detach]: only a checked removal releases the group. *)
Definition detach (st : Store) (v : VirtualMemory) (ordinal : nat) (status : Z)
    : Store * VirtualMemory * Result unit :=
  match group_at v ordinal with
  | Err e => (st, v, Err e)
  | Ok group =>
      match check "memory_reservation_detach" status with
      | Err e => (st, v, Err e)
      | Ok _ =>
          (drop_all st (default [] (backing v !! group)),
           mkVirtual (raw v) (groups v) (<[group := []]> (backing v)), Ok tt)
      end
  end.

(** [release]: a failed destruction forgets the backing, whose leases stay;
    the forgotten handles are the third result. *)
Definition release (v : VirtualMemory) (status : Z) : VirtualMemory * Result unit * list Buffer :=
  if raw v then
    (if status =? 0 then (mkVirtual false (groups v) (backing v), Ok tt, [])
     else (mkVirtual false (groups v) [], check "memory_reservation_destroy" status, concat (backing v)))
  else (v, Ok tt, []).

(** [destroy]: [release], then the drop of the value, which releases again
    before its fields, the backing among them, are dropped. *)
Definition destroy (st : Store) (v : VirtualMemory) (status : Z) : Store * Result unit * list Buffer :=
  let '(v, r, forgotten) := release v status in
  let '(v, _, forgotten') := release v status in
  (drop_all st (concat (backing v)), r, forgotten ++ forgotten').
End Virtual.

(** ** What may be mapped *)

(** [installed] gives the sources each group's tables may refer to, [forgotten]
    the handles leaked by failed destructions and [others] the leases of
    everyone else. *)
Record World : Type := mkWorld {
  store : Store;
  memory_ : option VirtualMemory;
  installed : nat → list Buffer;
  forgotten : list Buffer;
  others : list Buffer }.

Definition sources (updates : list MappingUpdate) : list Buffer := omap buffer updates.

Section Steps.
Context (fabric_device : nat → bool) (fabric_buffer : Buffer → bool).

Inductive step (w : World) : World → Prop :=
| S_update v ordinal updates entry status st v' r now :
    memory_ w = Some v →
    update fabric_buffer (store w) v ordinal updates entry status = (st, v', r) →
    (* the tables refer to old sources, or to proposals of a call that was made *)
    (∀ g b, b ∈ now g → b ∈ installed w g ∨
       ∃ leases, (prepare_update fabric_buffer (store w) v ordinal updates entry).2 = Ok (g, leases) ∧
         b ∈ sources updates) →
    step w (mkWorld st (Some v') now (forgotten w) (others w))
| S_detach v ordinal status st v' r now :
    memory_ w = Some v → detach (store w) v ordinal status = (st, v', r) →
    (* a successful call removes the whole group, a failed one any part of it *)
    (∀ g b, b ∈ now g → b ∈ installed w g ∧ ¬ (r = Ok tt ∧ group_at v ordinal = Ok g)) →
    step w (mkWorld st (Some v') now (forgotten w) (others w))
| S_destroy v status st r lost now :
    memory_ w = Some v → destroy (store w) v status = (st, r, lost) →
    (∀ g b, b ∈ now g → b ∈ installed w g ∧ r ≠ Ok tt) →
    step w (mkWorld st None now (forgotten w ++ lost) (others w))
| S_retain b st :
    retain_use (store w) b = Ok st →
    step w (mkWorld st (memory_ w) (installed w) (forgotten w) (b :: others w))
| S_drop i b :
    others w !! i = Some b →
    step w (mkWorld (drop_use (store w) b) (memory_ w) (installed w) (forgotten w) (delete i (others w))).

(** A new reservation maps nothing and holds no lease. *)
Definition initial (w : World) : Prop :=
  (∃ accesses created group_of v, memory_ w = Some v ∧
     reserve_virtual_memory fabric_device accesses created group_of = Ok v) ∧
  (∀ g, installed w g = []) ∧ forgotten w = [] ∧ others w = [] ∧ ∀ cell, cell_uses (store w) cell = 0.
Definition reachable (w : World) : Prop := ∃ w0, initial w0 ∧ rtc step w0 w.

(** The handles whose leases are live. *)
Definition retained (w : World) : list Buffer :=
  match memory_ w with Some v => concat (backing v) | None => [] end ++ forgotten w ++ others w.

Record inv (w : World) : Prop := {
  inv_leases : ∀ cell, cell_uses (store w) cell = uses_of cell (retained w);
  inv_groups : ∀ v g, memory_ w = Some v → g ∈ groups v → (g < length (backing v))%nat;
  inv_raw : ∀ v, memory_ w = Some v → raw v = true;
  inv_installed : ∀ g b, b ∈ installed w g →
    b ∈ forgotten w ∨ ∃ v, memory_ w = Some v ∧ b ∈ default [] (backing v !! g) }.

(** ** Leases of the backing *)

Lemma retain_sources_cell st updates taken st' r cell :
  retain_sources fabric_buffer st updates taken = (st', r) →
  match r with
  | Ok all => all = taken ++ sources updates ∧
      cell_uses st' cell = cell_uses st cell + uses_of cell (sources updates)
  | Err _ => cell_uses st' cell = cell_uses st cell - uses_of cell taken
  end.
Proof.
  revert st taken. induction updates as [|u updates IH]; intros st taken; cbn [retain_sources sources omap].
  { intros [= <- <-]. rewrite app_nil_r, uses_of_nil. split; [done|lia]. }
  destruct (buffer u) as [b|] eqn:Hb; unfold sources; cbn [omap list_omap]; rewrite Hb; fold (sources updates);
    [|by apply IH].
  case_bool; [intros [= <- <-]; by rewrite drop_all_cell|]. clear E.
  destruct (retain_use st b) as [st1|e] eqn:E; [|intros [= <- <-]; by rewrite drop_all_cell].
  intros H. specialize (IH _ _ H). rewrite (retain_use_cell st b st1 cell E) in IH. destruct r as [all|].
  - destruct IH as [-> IH]. rewrite <-app_assoc, uses_of_cons. split; [done|lia].
  - rewrite IH, uses_of_app, uses_of_cons, uses_of_nil. lia.
Qed.

Lemma prepare_update_cell st v ordinal updates entry st' r cell :
  prepare_update fabric_buffer st v ordinal updates entry = (st', r) →
  match r with
  | Ok (g, leases) => leases = sources updates ∧ g ∈ groups v ∧
      cell_uses st' cell = cell_uses st cell + uses_of cell leases
  | Err _ => cell_uses st' cell = cell_uses st cell
  end.
Proof.
  unfold prepare_update, group_at. destruct (groups v !! ordinal) as [g|] eqn:Hg; [|intros [= <- <-]; done].
  cbn [ok_or]. case_bool; [intros [= <- <-]; done|].
  destruct (retain_sources fabric_buffer st updates []) as [st1 [leases|e]] eqn:Hr;
    apply (retain_sources_cell _ _ _ _ _ cell) in Hr; cbn [app] in Hr.
  - destruct Hr as [-> Hr]. destruct entry; intros [= <- <-].
    + split_and!; [done|by eapply list_elem_of_lookup_2|done].
    + rewrite drop_all_cell. lia.
  - intros [= <- <-]. rewrite uses_of_nil in Hr. lia.
Qed.

Lemma uses_of_alter cell g k (B : list (list Buffer)) :
  (g < length B)%nat →
  uses_of cell (concat (alter (λ l, l ++ k) g B)) = uses_of cell (concat B) + uses_of cell k.
Proof.
  revert g. induction B as [|l B IH]; intros [|g] Hg; simpl in Hg; [lia..| |].
  - cbn [alter list_alter concat]. rewrite !uses_of_app. lia.
  - cbn [alter list_alter concat]. rewrite !uses_of_app. fold (alter (λ l, l ++ k) g B).
    rewrite IH by lia. lia.
Qed.

Lemma uses_of_clear cell g (B : list (list Buffer)) :
  uses_of cell (concat (<[g := []]> B)) = uses_of cell (concat B) - uses_of cell (default [] (B !! g)).
Proof.
  revert g. induction B as [|l B IH]; intros g; [destruct g; done|].
  destruct g as [|g]; simpl; rewrite !uses_of_app; [lia|].
  pose proof (IH g). change (list_lookup g B) with (B !! g). lia.
Qed.

Lemma query_groups_lt group_of count ordinals groups :
  query_groups group_of count ordinals = Ok groups → Forall (λ g, Z.of_nat g < count) groups.
Proof.
  revert groups. induction ordinals as [|o ordinals IH]; intros groups; cbn [query_groups]; intros H.
  - injection H as <-. constructor.
  - inv_ok. destruct (count <=? Z.of_nat a) eqn:Ec; to_prop; [done|]. inv_ok. constructor; [lia|by apply IH].
Qed.

Lemma concat_replicate_nil {A} n : concat (replicate n ([] : list A)) = [].
Proof. by induction n. Qed.

Lemma virtual_initial_inv w : initial w → inv w.
Proof.
  intros ((accesses & created & group_of & v & Hv & Hr) & Hi & Hf & Ho & Hu).
  unfold reserve_virtual_memory in Hr. inv_ok. apply query_groups_lt in E3. rewrite Forall_forall in E3.
  split; rewrite ?Hv.
  - intros cell. unfold retained. rewrite Hu, Hv, Hf, Ho. cbn [backing app]. rewrite app_nil_r.
    by rewrite concat_replicate_nil.
  - intros v' g [= <-] Hg. cbn in *. rewrite length_replicate. specialize (E3 g Hg). lia.
  - by intros v' [= <-].
  - intros g b Hb. rewrite Hi in Hb. by apply elem_of_nil in Hb.
Qed.

Lemma backing_snoc (B : list (list Buffer)) g k h b :
  b ∈ default [] (B !! h) → b ∈ default [] (alter (λ l, l ++ k) g B !! h).
Proof.
  destruct (decide (g = h)) as [->|Hne]; [|by rewrite list_lookup_alter_ne].
  rewrite list_lookup_alter_eq. destruct (B !! h); set_solver.
Qed.

Lemma update_inv w v ordinal updates entry status st v' r now :
  inv w → memory_ w = Some v →
  update fabric_buffer (store w) v ordinal updates entry status = (st, v', r) →
  (∀ g b, b ∈ now g → b ∈ installed w g ∨
     ∃ leases, (prepare_update fabric_buffer (store w) v ordinal updates entry).2 = Ok (g, leases) ∧
       b ∈ sources updates) →
  inv (mkWorld st (Some v') now (forgotten w) (others w)).
Proof.
  intros [Hl Hg Hr Hi] Hv. unfold update.
  destruct (prepare_update _ _ _ _ _ _) as [st1 [[g leases]|e]] eqn:Hp; intros [= <- <- <-] Hnow; cbn [snd] in Hnow.
  - assert (g < length (backing v))%nat as Hlt.
    { apply (Hg v); [done|]. by apply (prepare_update_cell _ _ _ _ _ _ _ 0) in Hp as (_ & ? & _). }
    split; cbn [store memory_ installed forgotten others].
    + intros cell. apply (prepare_update_cell _ _ _ _ _ _ _ cell) in Hp as (-> & _ & ->).
      rewrite Hl. unfold retained. rewrite Hv. cbn [memory_ forgotten others backing].
      rewrite !uses_of_app, uses_of_alter by done. lia.
    + intros v' h [= <-] Hh. cbn. rewrite length_alter. by apply (Hg v).
    + intros v' [= <-]. by apply (Hr v).
    + intros h b Hb. destruct (Hnow h b Hb) as [Hb'|(ls & [= <- <-] & Hs)].
      * destruct (Hi h b Hb') as [?|(v' & Hv' & Hin)]; [by left|]. rewrite Hv in Hv'. injection Hv' as <-.
        right. eexists. split; [done|]. by apply backing_snoc.
      * right. eexists. split; [done|]. cbn. apply (prepare_update_cell _ _ _ _ _ _ _ 0) in Hp as (-> & _ & _).
        rewrite list_lookup_alter_eq. destruct (lookup_lt_is_Some_2 (backing v) g Hlt) as [l Hl']. rewrite Hl'. simpl. apply elem_of_app. by right.
  - split; cbn [store memory_ installed forgotten others].
    + intros cell. apply (prepare_update_cell _ _ _ _ _ _ _ cell) in Hp as ->. rewrite Hl. unfold retained.
      by rewrite Hv.
    + intros v'. rewrite <-Hv. apply Hg.
    + intros v'. rewrite <-Hv. apply Hr.
    + intros h b Hb. destruct (Hnow h b Hb) as [Hb'|(ls & [=] & _)]. rewrite <-Hv. by apply Hi.
Qed.

Lemma detach_inv w v ordinal status st v' r now :
  inv w → memory_ w = Some v → detach (store w) v ordinal status = (st, v', r) →
  (∀ g b, b ∈ now g → b ∈ installed w g ∧ ¬ (r = Ok tt ∧ group_at v ordinal = Ok g)) →
  inv (mkWorld st (Some v') now (forgotten w) (others w)).
Proof.
  intros [Hl Hg Hr Hi] Hv Hd Hnow.
  assert (st = store w ∧ v' = v ∨ ∃ g, group_at v ordinal = Ok g ∧ r = Ok tt ∧
            st = drop_all (store w) (default [] (backing v !! g)) ∧
            v' = mkVirtual (raw v) (groups v) (<[g := []]> (backing v))) as [[-> ->]|(g & Hgr & -> & -> & ->)].
  { unfold detach in Hd. destruct (group_at v ordinal) as [g|]; [|left; by simplify_eq].
    destruct (check _ _); [right; exists g|left]; by simplify_eq. }
  - split; cbn [store memory_ installed forgotten others]; rewrite <-?Hv; try done.
    intros h b [Hb _]%Hnow. by apply Hi.
  - split; cbn [store memory_ installed forgotten others].
    + intros cell. rewrite drop_all_cell, Hl. unfold retained. rewrite Hv. cbn [memory_ forgotten others backing].
      rewrite !uses_of_app, uses_of_clear. lia.
    + intros v' h [= <-] Hh. cbn. rewrite length_insert. by apply (Hg v).
    + intros v' [= <-]. by apply (Hr v).
    + intros h b Hb. destruct (Hnow h b Hb) as [Hb' Hne]. destruct (Hi h b Hb') as [?|(v' & Hv' & Hin)]; [by left|].
      rewrite Hv in Hv'. injection Hv' as <-. right. eexists. split; [done|]. cbn.
      rewrite list_lookup_insert_ne; [done|]. intros ->. by apply Hne.
Qed.

Lemma destroy_cases st v status st' r lost :
  raw v = true → destroy st v status = (st', r, lost) →
  r = Ok tt ∧ st' = drop_all st (concat (backing v)) ∧ lost = [] ∨
  r ≠ Ok tt ∧ st' = st ∧ lost = concat (backing v).
Proof.
  unfold destroy, release. intros ->. destruct (status =? 0) eqn:E; cbn; intros [= <- <- <-].
  - by left.
  - right. unfold check. rewrite E, app_nil_r. done.
Qed.

Lemma destroy_inv w v status st r lost now :
  inv w → memory_ w = Some v → destroy (store w) v status = (st, r, lost) →
  (∀ g b, b ∈ now g → b ∈ installed w g ∧ r ≠ Ok tt) →
  inv (mkWorld st None now (forgotten w ++ lost) (others w)).
Proof.
  intros [Hl Hg Hr Hi] Hv Hd Hnow. apply destroy_cases in Hd; [|by apply Hr].
  split; cbn [store memory_ installed forgotten others]; try done.
  - intros cell. unfold retained in *. cbn [memory_ forgotten others]. specialize (Hl cell). rewrite Hv in Hl.
    rewrite !uses_of_app in *. destruct Hd as [(_ & -> & ->)|(_ & -> & ->)]; rewrite ?drop_all_cell, ?uses_of_nil; lia.
  - intros g b Hb. destruct (Hnow g b Hb) as [Hb' Hne]. left.
    destruct Hd as [[? _]|(_ & _ & ->)]; [done|]. rewrite elem_of_app.
    destruct (Hi g b Hb') as [?|(v' & Hv' & Hin)]; [by left|right].
    rewrite Hv in Hv'. injection Hv' as <-. destruct (backing v !! g) as [l|] eqn:El; [|by apply elem_of_nil in Hin].
    apply list_elem_of_In, in_concat. exists l. rewrite <-!list_elem_of_In. split; [by eapply list_elem_of_lookup_2|done].
Qed.

Lemma virtual_step_inv w w' : inv w → step w w' → inv w'.
Proof.
  intros Hinv Hs. destruct Hs.
  - by eapply update_inv.
  - by eapply detach_inv.
  - by eapply destroy_inv.
  - destruct Hinv as [Hl Hg Hr Hi]. split; try done. intros cell. unfold retained in *. cbn [memory_ forgotten others store].
    rewrite (retain_use_cell _ _ _ cell H), Hl, !uses_of_app, uses_of_cons. lia.
  - destruct Hinv as [Hl Hg Hr Hi]. split; try done. intros cell. unfold retained in *. cbn [memory_ forgotten others store].
    rewrite drop_use_cell, Hl, !uses_of_app.
    assert (uses_of cell (others w) = (if (uses_cell (memory b) =? cell)%nat then 1 else 0) + uses_of cell (delete i (others w))); [|lia].
    unfold uses_of at 1. rewrite (zsum_perm _ _ _ (delete_Permutation _ _ _ H)). done.
Qed.

Lemma virtual_reachable_inv w : reachable w → inv w.
Proof.
  intros (w0 & H0 & Hs). apply virtual_initial_inv in H0. induction Hs as [|w1 w2 w3 Hs _ IH]; [done|].
  apply IH. by eapply virtual_step_inv.
Qed.

(** While a mapping of a source may exist, the source is leased: after any
    sequence of updates, detaches and destructions, whichever of them failed
    and whatever part of a failed update was installed, every source the native
    tables may still refer to carries a device lease, so the host is refused
    access to its bytes through every alias. *)
Theorem mapped_sources_stay_leased control w g b alias_ off new n :
  reachable w → b ∈ installed w g → alias b alias_ →
  range alias_ off (Z.of_nat (length new)) = Ok tt → range alias_ off n = Ok tt →
  0 < leases (store w) b ∧
  write control (store w) alias_ off new = (store w, busy) ∧ read control (store w) alias_ off n = busy.
Proof.
  intros Hr Hb (_ & Hc) Hw Hrd. apply virtual_reachable_inv in Hr as [Hl _ _ Hi].
  assert (0 < leases (store w) b) as Hpos.
  { change (leases (store w) b) with (cell_uses (store w) (uses_cell (memory b))).
    rewrite Hl. apply (uses_of_elem _ b); [|done]. unfold retained.
    destruct (Hi g b Hb) as [Hf|(v & -> & Hin)]; [apply elem_of_app; right; apply elem_of_app; by left|].
    rewrite elem_of_app. left. destruct (backing v !! g) as [l|] eqn:El; [|by apply elem_of_nil in Hin].
    apply list_elem_of_In, in_concat. exists l. rewrite <-!list_elem_of_In. split; [by eapply list_elem_of_lookup_2|done]. }
  assert (leases (store w) alias_ ≠ 0) as Hne%Z.eqb_neq.
  { unfold leases in *. rewrite <-Hc. lia. }
  split; [done|]. unfold write, read. rewrite Hw, Hrd, Hne. done.
Qed.

(** Leases are given back exactly: at every reachable point the lease count
    of an allocation is the number of its handles retained by live groups, by
    failed destructions and by others; a successful detach releases the
    sources of its whole group and of no other, a successful destruction
    releases everything, and failures release nothing. *)
Theorem detach_returns_exactly_its_leases w v ordinal status st v' r cell :
  reachable w → memory_ w = Some v → detach (store w) v ordinal status = (st, v', r) →
  cell_uses (store w) cell = uses_of cell (concat (backing v) ++ forgotten w ++ others w) ∧
  (r ≠ Ok tt → st = store w ∧ v' = v) ∧
  (r = Ok tt → ∃ g, group_at v ordinal = Ok g ∧ backing v' !! g = Some [] ∧
     (∀ h, h ≠ g → backing v' !! h = backing v !! h) ∧
     cell_uses st cell = uses_of cell (concat (backing v') ++ forgotten w ++ others w)) ∧
  ∀ st' r' lost, destroy (store w) v status = (st', r', lost) →
    (r' = Ok tt ∧ lost = [] ∧ cell_uses st' cell = uses_of cell (forgotten w ++ others w)) ∨
    (r' ≠ Ok tt ∧ st' = store w ∧ lost = concat (backing v)).
Proof.
  intros Hre Hv Hd. apply virtual_reachable_inv in Hre as [Hl Hg Hr Hi]. specialize (Hl cell). unfold retained in Hl.
  rewrite Hv in Hl. split_and!; [done|..].
  - intros Hne. unfold detach in Hd. repeat (case_match; simplify_eq; try done).
  - intros ->. unfold detach in Hd. destruct (group_at v ordinal) as [g|] eqn:Eg; [|done].
    destruct (check _ _); [|done]. injection Hd as <- <-. exists g. cbn [backing].
    assert (g < length (backing v))%nat.
    { apply (Hg v); [done|]. unfold group_at in Eg. destruct (groups v !! ordinal) eqn:E; [|done].
      injection Eg as <-. by eapply list_elem_of_lookup_2. }
    split_and!; [done|by rewrite list_lookup_insert_eq|intros h Hh; by rewrite list_lookup_insert_ne|].
    rewrite drop_all_cell, !uses_of_app, uses_of_clear in *. lia.
  - intros st' r' lost Hd'. apply destroy_cases in Hd'; [|by apply Hr].
    destruct Hd' as [(-> & -> & ->)|(? & -> & ->)]; [left|by right].
    split_and!; try done. rewrite drop_all_cell, !uses_of_app in *. lia.
Qed.
End Steps.

(** ** Witnesses *)

Definition demo_target : Buffer := mkBuffer (mkMemory 1 [0%nat] true 16 1 1 1 None) 0 16.
Definition demo_map : MappingUpdate := mkUpdate 0 16 (Some demo_target) 0 3 0.
Definition demo_virtual : VirtualMemory := mkVirtual true [0%nat; 0%nat] [[]; []].
Definition demo_before : World :=
  mkWorld (mkStore ∅ ∅ {[1%nat := replicate 16 0]}) (Some demo_virtual) (λ _, []) [] [].
(** An update that failed after installing its source. *)
Definition demo_failed : World :=
  mkWorld (update (λ _, true) (store demo_before) demo_virtual 1 [demo_map] true 9).1.1
    (Some (mkVirtual true [0%nat; 0%nat] [[demo_target]; []])) (λ g, if (g =? 0)%nat then [demo_target] else []) [] [].

Lemma demo_reachable : reachable (λ _, true) (λ _, true) demo_failed.
Proof.
  exists demo_before. split.
  - split_and!; [|done..|].
    + exists [None; None], (Ok true), (λ _, Ok 0%nat), demo_virtual. split; reflexivity.
    + intros cell. unfold cell_uses. simpl. by rewrite lookup_empty.
  - apply rtc_once. refine (S_update (λ _, true) demo_before demo_virtual 1 [demo_map] true 9 _ _ _ _ eq_refl eq_refl _).
    intros g b. destruct (g =? 0)%nat eqn:E; to_prop; [subst|by intros ?%elem_of_nil].
    intros ->%list_elem_of_singleton. right. exists [demo_target]. split; [reflexivity|by left].
Defined.

Lemma mapped_sources_stay_leased_witness :
  write (λ _ _ _ _, Ok tt) (store demo_failed) demo_target 4 [1; 2] = (store demo_failed, busy).
Proof.
  refine (proj1 (proj2 (mapped_sources_stay_leased (λ _, true) (λ _, true) (λ _ _ _ _, Ok tt) demo_failed 0
    demo_target demo_target 4 [1; 2] 3 demo_reachable _ _ _ _))); [by left|done|reflexivity|reflexivity].
Defined.

Definition demo_detached : Store * VirtualMemory * Result unit :=
  detach (store demo_failed) (mkVirtual true [0%nat; 0%nat] [[demo_target]; []]) 0 0.

Lemma detach_returns_exactly_its_leases_witness :
  demo_detached.2 = Ok tt ∧ cell_uses demo_detached.1.1 1 = 0.
Proof.
  split; [reflexivity|].
  destruct (detach_returns_exactly_its_leases (λ _, true) (λ _, true) demo_failed
    (mkVirtual true [0%nat; 0%nat] [[demo_target]; []]) 0 0 demo_detached.1.1 demo_detached.1.2 (Ok tt) 1
    demo_reachable eq_refl eq_refl) as (_ & _ & H & _).
  destruct (H eq_refl) as (g & _ & _ & _ & ->). reflexivity.
Defined.
End VirtualMemory.
