(* ===== verification/NativeBatch.v ===== *)
(** * Recycled argument storage

    Private argument pages and completion fences of recorded batches and of
    the serial dispatcher: [GraphArena], [GpuBatchRecorder] and
    [GpuBatchStorage] of src/src/fabric/queue.rs and
    src/src/fabric/queue/serial.rs, over the memory model of NativeMemory.

    A [World] holds the live owners: recorders, recycled storage, batches (a
    batch lives as long as a prepared command, a completion or the queue's
    pending list holds it) and serial dispatchers.  The strong count of an
    allocation is computed from their handles.  [pages] records which
    allocations are argument pages and is read by no operation.

    The theorems show that the argument bytes of a live command never change,
    however storage is recycled, that no two live batches complete through
    the same fence, and that a serial dispatcher allocates one page and one
    fence in all and snapshots the bytes of its last call. *)

From S2P Require Import Prelude NativeMemory.
Import NativeMemory.
Local Open Scope Z_scope.

Module NativeBatch.

(** [GraphArena]. *)
Record GraphArena : Type := mkArena { page : option Buffer; used : Z; fence : option Buffer }.
Definition empty_arena : GraphArena := mkArena None 0 None.

(** A prepared child: the packed arguments in its page, and its fence. *)
Record Child : Type := mkChild { c_page : Buffer; c_offset : Z; c_bytes : list Z; c_fence : Buffer }.

(** [SerialGpuDispatcher]; of the last packed bytes the code keeps the length. *)
Record Dispatcher : Type := mkDispatcher {
  s_arena : GraphArena; maximum_argument_bytes : Z; failed : bool; uncertain : option Child;
  last_bytes : option (list Z); executions : Z; allocations : Z }.

(** [GpuBatchRecorder], [GpuBatchStorage], a finished batch, a dispatcher. *)
Inductive Owner : Type :=
| Recorder (arena : GraphArena) (children : list Child) (completion_fence : option Buffer)
| Storage (arena : GraphArena) (completion_fence : option Buffer)
| Batch (children : list Child) (batch_fence : Buffer)
| Serial (d : Dispatcher).

Record World : Type := mkWorld { store : Store; next : nat; owners : gmap nat Owner; pages : gset nat }.

(** The allocation behind a buffer. *)
Definition id_of (b : Buffer) : nat := memory_id (memory b).

(** Handles of allocation [m]: [Arc] clones held by an owner.  The buffers of a
    batch are deduplicated and do not include the fences of its children. *)
Definition is_handle (m : nat) (b : Buffer) : Z := if (id_of b =? m)%nat then 1 else 0.
Definition opt_handle (m : nat) (b : option Buffer) : Z := match b with Some b => is_handle m b | None => 0 end.
Definition arena_handles (m : nat) (a : GraphArena) : Z := opt_handle m (page a) + opt_handle m (fence a).
Definition child_handles (m : nat) (c : Child) : Z := is_handle m (c_page c) + is_handle m (c_fence c).
Definition handles (m : nat) (o : Owner) : Z :=
  match o with
  | Recorder a children cf => arena_handles m a + zsum (child_handles m) children + opt_handle m cf
  | Storage a cf => arena_handles m a + opt_handle m cf
  | Batch children f =>
      (if existsb (λ c, (id_of (c_page c) =? m)%nat) children then 1 else 0) + is_handle m f
  | Serial d => arena_handles m (s_arena d) + match uncertain d with Some c => child_handles m c | None => 0 end
  end.
Definition strong_count (w : World) (m : nat) : nat := Z.to_nat (msum (handles m) (owners w)).
Definition exclusive (w : World) (b : option Buffer) : bool :=
  match b with None => true | Some b => exclusively_owned b (strong_count w (id_of b)) end.

Section Batch.
Context (control : nat → bool → Z → Z → Result unit) (native : Native).
Context (fabric : nat → bool) (engine : nat → Engine) (device : nat).

Definition allocate_page (w : World) (size : Z) : World * Result Buffer :=
  let '(st, r) := allocate control native fabric engine (store w) (next w) size [device] in
  (mkWorld st (S (next w)) (owners w) ({[next w]} ∪ pages w), r).
Definition allocate_fence (w : World) : World * Result Buffer :=
  let '(st, r) := allocate_shared control native fabric engine (store w) (next w) 64 [device] in
  (mkWorld st (S (next w)) (owners w) (pages w), r).
Definition set_store (st : Store) (w : World) : World := mkWorld st (next w) (owners w) (pages w).
Definition set_owners (o : gmap nat Owner) (w : World) : World := mkWorld (store w) (next w) o (pages w).

(** [next_multiple_of(64)] of at least 64 bytes. *)
Definition slot_size (n : Z) : Z := (Z.max n 64 + 63) / 64 * 64.

(** The page of [GraphArena::pack], and the bytes allocated for it. *)
Definition new_page (w : World) (a : GraphArena) (size : Z) : World * GraphArena * Result (Buffer * Z) :=
  match allocate_page w (Z.max size (64 * 1024)) with
  | (w, Ok p) => (w, mkArena (Some p) 0 (fence a), Ok (p, len p))
  | (w, Err e) => (w, a, Err e)
  end.
Definition take_page (w : World) (a : GraphArena) (size : Z) : World * GraphArena * Result (Buffer * Z) :=
  match page a with
  | Some p => if len p - used a <? size then new_page w a size else (w, a, Ok (p, 0))
  | None => new_page w a size
  end.

(** [GraphArena::pack]: the page, the offset, the fence and the new bytes. *)
Definition pack (w : World) (a : GraphArena) (bytes : list Z)
    : World * GraphArena * Result (Buffer * Z * Buffer * Z) :=
  let size := slot_size (Z.of_nat (length bytes)) in
  let '(w, a, r) := take_page w a size in
  match r with
  | Err e => (w, a, Err e)
  | Ok (p, allocated) =>
      let offset := used a in
      match write control (store w) p offset bytes with
      | (st, Err e) => (set_store st w, a, Err e)
      | (st, Ok _) =>
          let w := set_store st w in
          let a := mkArena (page a) (used a + size) (fence a) in
          match fence a with
          | Some f => (w, a, Ok (p, offset, f, allocated))
          | None =>
              match allocate_fence w with
              | (w, Ok f) => (w, mkArena (page a) (used a) (Some f), Ok (p, offset, f, allocated + 64))
              | (w, Err e) => (w, a, Err e)
              end
          end
      end
  end.

(** [prepare_graph]: [rest] is the outcome of the steps after packing. *)
Definition prepare_graph (w : World) (a : GraphArena) (bytes : list Z) (rest : Result unit)
    : World * GraphArena * Result Child :=
  match pack w a bytes with
  | (w, a, Err e) => (w, a, Err e)
  | (w, a, Ok (p, offset, f, _)) => (w, a, let? _ := rest in Ok (mkChild p offset bytes f))
  end.

(** [Queue::record_batch] makes a new recorder; [pm4] is the queue's type. *)
Definition record_batch (w : World) (o : nat) (pm4 : bool) : World * Result unit :=
  if negb pm4 then (w, Err (Unsupported "kernel recording requires a PM4 queue"))
  else (set_owners (<[o := Recorder empty_arena [] None]> (owners w)) w, Ok tt).

(** [GpuBatchRecorder::dispatch]; [bytes] are the packed arguments. *)
Definition dispatch (w : World) (o : nat) (bytes : Result (list Z)) (rest : Result unit) : World * Result unit :=
  match owners w !! o, bytes with
  | Some (Recorder a children cf), Ok bytes =>
      let '(w, a, r) := prepare_graph w a bytes rest in
      match r with
      | Ok c => (set_owners (<[o := Recorder a (children ++ [c]) cf]> (owners w)) w, Ok tt)
      | Err e => (set_owners (<[o := Recorder a children cf]> (owners w)) w, Err e)
      end
  | _, Err e => (w, Err e)
  | _, _ => (w, Err (Message "not a recorder"))
  end.

(** The completion fence of [prepare_batch_inner_with_fence]. *)
Definition batch_fence (w : World) (completion_fence : option Buffer) : World * Result Buffer :=
  match completion_fence with
  | Some f =>
      match write control (store w) f 0 (le_bytes 4 0) with
      | (st, Ok _) => (set_store st w, Ok f)
      | (st, Err e) => (set_store st w, Err e)
      end
  | None => allocate_fence w
  end.

(** [prepare_batch] of the recorded commands: [encoded] is the outcome of
    building the indirect words and their storage, [address] that of asking
    for the address of the fence. *)
Definition prepare_batch (w : World) (children : list Child) (cf : option Buffer) (encoded address : Result unit)
    : World * Result Buffer :=
  match children, encoded with
  | [], _ => (w, Err (Message "empty native command batch"))
  | _, Err e => (w, Err e)
  | _, Ok _ => let '(w, r) := batch_fence w cf in (w, let? f := r in let? _ := address in Ok f)
  end.

(** [GpuBatchRecorder::finish] consumes the recorder; [new] names the batch. *)
Definition finish (w : World) (o new : nat) (encoded address : Result unit) : World * Result unit :=
  match owners w !! o with
  | Some (Recorder a children cf) =>
      match prepare_batch w children None encoded address with
      | (w, Ok f) => (set_owners (<[new := Batch children f]> (delete o (owners w))) w, Ok tt)
      | (w, Err e) => (set_owners (delete o (owners w)) w, Err e)
      end
  | _ => (w, Err (Message "not a recorder"))
  end.

(** [finish_recyclable_inner]. *)
Definition finish_recyclable (w : World) (o new : nat) (gfx9 reuse_fence : bool) (encoded address : Result unit)
    : World * Result unit :=
  match owners w !! o with
  | Some (Recorder a children cf) =>
      if negb gfx9
      then (set_owners (delete o (owners w)) w,
            Err (Unsupported "batch storage reuse requires qualified GFX9 cache protocol"))
      else match prepare_batch w children (if reuse_fence then cf else None) encoded address with
           | (w, Ok f) =>
               (set_owners (<[new := Batch children f]>
                  (<[o := Storage a (if reuse_fence then Some f else None)]> (owners w))) w, Ok tt)
           | (w, Err e) => (set_owners (delete o (owners w)) w, Err e)
           end
  | _ => (w, Err (Message "not a recorder"))
  end.

(** [GpuBatchStorage::record]: the storage handle is left empty. *)
Definition record (w : World) (o new : nat) : World * Result unit :=
  match owners w !! o with
  | Some (Storage a cf) =>
      if negb (exclusive w (page a) && exclusive w (fence a) && exclusive w cf)
      then (w, Err (Busy "batch recording storage is still retained"))
      else
        let '(st, r) := match fence a with
                        | Some f => write control (store w) f 0 (le_bytes 4 0)
                        | None => (store w, Ok tt) end in
        let w := set_store st w in
        match r with
        | Err e => (w, Err e)
        | Ok _ =>
            (set_owners (<[new := Recorder (mkArena (page a) 0 (fence a)) [] cf]>
               (<[o := Storage empty_arena None]> (owners w))) w, Ok tt)
        end
  | _ => (w, Err (Message "not storage"))
  end.

(** [Queue::serial_dispatcher]; [qualified] is the PM4 GFX9 protocol. *)
Definition serial_dispatcher (w : World) (o : nat) (qualified : bool) (maximum : Z) : World * Result unit :=
  if negb qualified
  then (w, Err (Unsupported "serial argument reuse requires the qualified GFX9 PM4 cache protocol"))
  else if negb ((1 <=? maximum) && (maximum <=? 4096))
  then (w, Err (Message "serial argument bound must be 1..4096 bytes"))
  else (set_owners (<[o := Serial (mkDispatcher empty_arena maximum false None None 0 0)]> (owners w)) w, Ok tt).

Definition present (b : option Buffer) : bool := match b with Some _ => true | None => false end.
Definition newly (before after : option Buffer) : Z := if negb (present before) && present after then 1 else 0.

(** [SerialGpuDispatcher::execute] up to the submission: [own_device] and
    [scratch_free] describe the kernel. *)
Definition execute_begin (w : World) (o : nat) (own_device scratch_free : bool) (packed : Result (list Z))
    (rest : Result unit) : World * Result unit :=
  match owners w !! o with
  | Some (Serial d) =>
      if failed d then (w, Err (DeviceLost "serial dispatcher has uncertain prior execution"))
      else if negb own_device then (w, Err (Message "kernel belongs to another native device"))
      else if negb scratch_free then (w, Err (Unsupported "serial dispatcher requires scratch-free kernels"))
      else match packed with
      | Err e => (w, Err e)
      | Ok bytes =>
          if maximum_argument_bytes d <? Z.of_nat (length bytes)
          then (w, Err (Message "serial arguments exceed configured bound"))
          else if negb (exclusive w (page (s_arena d)) && exclusive w (fence (s_arena d)))
          then (w, Err (Busy "serial dispatch backing is still retained"))
          else
            let a := mkArena (page (s_arena d)) 0 (fence (s_arena d)) in
            let '(w, a', r) := prepare_graph w a bytes rest in
            let count := allocations d + newly (page a) (page a') + newly (fence a) (fence a') in
            let keep c w := set_owners (<[o := Serial (mkDispatcher a' (maximum_argument_bytes d) (failed d) c
                               None (executions d) count)]> (owners w)) w in
            match r with
            | Err e => (keep None w, Err e)
            | Ok c =>
                match fence a' with
                | None => (keep None w, Err (Message "unreachable"))
                | Some f =>
                    let '(st, r) := write control (store w) f 0 (le_bytes 4 0) in
                    match r with
                    | Err e => (keep None (set_store st w), Err e)
                    | Ok _ => (keep (Some c) (set_store st w), Ok tt)
                    end
                end
            end
      end
  | _ => (w, Err (Message "not a dispatcher"))
  end.

(** The rest of [execute]: [outcome] of the submission and the wait. *)
Definition execute_end (w : World) (o : nat) (outcome : Result unit) : World * Result unit :=
  match owners w !! o with
  | Some (Serial (mkDispatcher a maximum false (Some c) last n count)) =>
      match outcome with
      | Err e => (set_owners (<[o := Serial (mkDispatcher a maximum true (Some c) last n count)]> (owners w)) w, Err e)
      | Ok _ =>
          (set_owners (<[o := Serial (mkDispatcher a maximum false None (Some (c_bytes c)) (n + 1) count)]>
             (owners w)) w, Ok tt)
      end
  | _ => (w, Err (Message "no submission"))
  end.

(** [SerialGpuDispatcher::argument_snapshot]: the observed bytes. *)
Definition argument_snapshot (w : World) (d : Dispatcher) (expected : Result (list Z)) : Result (list Z) :=
  if failed d then Err (DeviceLost "serial dispatcher execution is uncertain")
  else match last_bytes d with
  | None => Err (Message "no successful serial dispatch")
  | Some bytes =>
      let? expected := expected in
      if negb (Z.of_nat (length expected) =? Z.of_nat (length bytes))
      then Err (Message "serial snapshot argument extent differs")
      else let? p := ok_or (page (s_arena d)) (Message "missing serial argument storage") in
           read control (store w) p 0 (Z.of_nat (length bytes))
  end.

(** [stats]. *)
Definition retained_bytes (a : GraphArena) : Z :=
  match page a with Some p => len p | None => 0 end + match fence a with Some f => len f | None => 0 end.
Definition stats (d : Dispatcher) : Z * Z * Z := (executions d, allocations d, retained_bytes (s_arena d)).

(** ** Steps *)

(** Every owner acts on its own; [S_uses] are the leases of submissions, and
    [S_drop] is the end of an owner: the last prepared command, completion or
    pending entry of a batch. *)
Inductive step (w : World) : World → Prop :=
| S_record_batch o pm4 : owners w !! o = None → step w (record_batch w o pm4).1
| S_dispatch o bytes rest : step w (dispatch w o bytes rest).1
| S_finish o new encoded address : owners w !! new = None → step w (finish w o new encoded address).1
| S_recyclable o new gfx9 reuse encoded address :
    owners w !! new = None → step w (finish_recyclable w o new gfx9 reuse encoded address).1
| S_record o new : owners w !! new = None → step w (record w o new).1
| S_serial o qualified maximum : owners w !! o = None → step w (serial_dispatcher w o qualified maximum).1
| S_begin o own_device scratch_free packed rest :
    step w (execute_begin w o own_device scratch_free packed rest).1
| S_end o outcome : step w (execute_end w o outcome).1
| S_uses c n : step w (set_store (set_uses (store w) c n) w)
| S_drop o : step w (set_owners (delete o (owners w)) w).

Definition initial (w : World) : Prop := owners w = ∅ ∧ pages w = ∅.
Definition reachable (w : World) : Prop := ∃ w0, initial w0 ∧ rtc step w0 w.
End Batch.
End NativeBatch.
