(* ===== verification/NativeBatchTheorems.v ===== *)
(** * Recycled argument storage: theorems

    The invariant of NativeBatch and the theorems about argument bytes,
    completion fences and the serial dispatcher.  What an owner may overwrite
    is private to it: no other owner has a handle. *)

From S2P Require Import Prelude NativeMemory NativeBatch.
Import NativeMemory NativeBatch.
Local Open Scope Z_scope.

Module NativeBatchTheorems.
Section Theorems.
Context (control : nat → bool → Z → Z → Result unit) (native : Native).
Context (fabric : nat → bool) (engine : nat → Engine) (device : nat).
Notation step := (step control native fabric engine device).
Notation reachable := (reachable control native fabric engine device).
Notation pack := (pack control native fabric engine device).
Notation prepare_graph := (prepare_graph control native fabric engine device).

(** ** Buffers, handles and slices *)

Definition opt_list {A} (o : option A) : list A := match o with Some x => [x] | None => [] end.

(** The pages and the fences an owner has handles of. *)
Definition children_of (o : Owner) : list Child :=
  match o with
  | Recorder _ children _ | Batch children _ => children
  | Storage _ _ => []
  | Serial d => opt_list (uncertain d)
  end.
Definition arena_of (o : Owner) : GraphArena :=
  match o with Recorder a _ _ | Storage a _ => a | Serial d => s_arena d | Batch _ _ => empty_arena end.
Definition completion_of (o : Owner) : option Buffer :=
  match o with Recorder _ _ cf | Storage _ cf => cf | Batch _ f => Some f | Serial _ => None end.
Definition page_buffers (o : Owner) : list Buffer := opt_list (page (arena_of o)) ++ (c_page <$> children_of o).
Definition fence_buffers (o : Owner) : list Buffer := opt_list (fence (arena_of o)) ++ opt_list (completion_of o).

Definition child_fences (o : Owner) : list Buffer :=
  match o with
  | Recorder _ children _ => c_fence <$> children
  | Serial d => c_fence <$> opt_list (uncertain d)
  | Storage _ _ | Batch _ _ => []
  end.
Definition all_buffers (o : Owner) : list Buffer := page_buffers o ++ fence_buffers o ++ child_fences o.

(** What only this owner may reach: the storage it writes to. *)
Definition private_buffers (o : Owner) : list Buffer :=
  match o with
  | Recorder a _ cf => opt_list (page a) ++ opt_list (fence a) ++ opt_list cf
  | Serial d => opt_list (page (s_arena d)) ++ opt_list (fence (s_arena d))
  | Storage _ _ | Batch _ _ => []
  end.

(** A whole allocation of its own cells. *)
Definition good (w : World) (b : Buffer) : Prop :=
  ∃ id n, b = mkBuffer (mkMemory id [device] true n id id id None) 0 n ∧ (id < next w)%nat ∧ 0 < n ∧
    Z.of_nat (length (contents (store w) b)) = n.
Definition stored (st : Store) (p : Buffer) (off : Z) (bytes : list Z) : Prop :=
  0 <= off ∧ off + Z.of_nat (length bytes) <= len p ∧
  read_bytes (contents st p) off (Z.of_nat (length bytes)) = bytes.

Lemma is_handle_nonneg m b : 0 <= is_handle m b.
Proof. unfold is_handle. case_bool; lia. Qed.
Lemma opt_handle_nonneg m b : 0 <= opt_handle m b.
Proof. destruct b; simpl; [apply is_handle_nonneg|lia]. Qed.
Lemma arena_handles_nonneg m a : 0 <= arena_handles m a.
Proof. unfold arena_handles. pose proof (opt_handle_nonneg m (page a)). pose proof (opt_handle_nonneg m (fence a)). lia. Qed.
Lemma child_handles_nonneg m c : 0 <= child_handles m c.
Proof. unfold child_handles. pose proof (is_handle_nonneg m (c_page c)). pose proof (is_handle_nonneg m (c_fence c)). lia. Qed.
Lemma children_handles_nonneg m l : 0 <= zsum (child_handles m) l.
Proof. apply zsum_nonneg, Forall_forall. intros c _. apply child_handles_nonneg. Qed.

Lemma handles_nonneg m o : 0 <= handles m o.
Proof.
  destruct o as [a cs cf|a cf|cs f|d]; simpl; try pose proof (arena_handles_nonneg m a);
    try pose proof (opt_handle_nonneg m cf); try pose proof (children_handles_nonneg m cs).
  - lia.
  - lia.
  - pose proof (is_handle_nonneg m f). case_bool; lia.
  - pose proof (arena_handles_nonneg m (s_arena d)). destruct (uncertain d) as [c|]; [|lia].
    pose proof (child_handles_nonneg m c). lia.
Qed.

Lemma is_handle_zero m b : is_handle m b = 0 ↔ id_of b ≠ m.
Proof. unfold is_handle. case_bool; naive_solver. Qed.

Notation avoids m := (Forall (λ b, id_of b ≠ m)).

Lemma opt_handle_zero m o : opt_handle m o = 0 ↔ avoids m (opt_list o).
Proof. destruct o as [b|]; simpl; [by rewrite is_handle_zero, Forall_singleton|by rewrite Forall_nil]. Qed.

Lemma zero_sum a b : 0 <= a → 0 <= b → a + b = 0 ↔ a = 0 ∧ b = 0.
Proof. lia. Qed.

Lemma children_handles_zero m cs :
  zsum (child_handles m) cs = 0 ↔ avoids m (c_page <$> cs) ∧ avoids m (c_fence <$> cs).
Proof.
  induction cs as [|c cs IH]; [split; [by repeat constructor|done]|].
  rewrite zsum_cons, zero_sum, IH by (apply child_handles_nonneg || apply children_handles_nonneg).
  unfold child_handles. rewrite zero_sum, !is_handle_zero by apply is_handle_nonneg. cbn. rewrite !Forall_cons. tauto.
Qed.

Lemma batch_pages_zero m cs :
  (if existsb (λ c, (id_of (c_page c) =? m)%nat) cs then 1 else 0) = 0 ↔ avoids m (c_page <$> cs).
Proof.
  induction cs as [|c cs IH]; [split; [by constructor|done]|]. cbn. rewrite Forall_cons.
  destruct (id_of (c_page c) =? m)%nat eqn:E; to_prop; cbn; [naive_solver lia|]. rewrite IH. naive_solver.
Qed.

(** An owner has no handle of an allocation iff it mentions none. *)
Lemma handles_zero m o : handles m o = 0 ↔ avoids m (all_buffers o).
Proof.
  unfold all_buffers, page_buffers, fence_buffers.
  destruct o as [a cs cf|a cf|cs f|d]; cbn [handles arena_of children_of completion_of child_fences];
    unfold arena_handles; rewrite !Forall_app.
  - rewrite !zero_sum, children_handles_zero, !opt_handle_zero
      by auto using opt_handle_nonneg, children_handles_nonneg, Z.add_nonneg_nonneg. tauto.
  - rewrite !zero_sum, !opt_handle_zero by auto using opt_handle_nonneg, Z.add_nonneg_nonneg.
    cbn. rewrite Forall_nil. tauto.
  - rewrite zero_sum, is_handle_zero, batch_pages_zero by (apply is_handle_nonneg || (case_bool; lia)).
    cbn. rewrite Forall_singleton, Forall_nil. tauto.
  - destruct (uncertain d) as [c|]; cbn.
    + unfold child_handles. rewrite !zero_sum, !opt_handle_zero, !is_handle_zero
        by auto using opt_handle_nonneg, is_handle_nonneg, Z.add_nonneg_nonneg.
      rewrite !Forall_singleton, Forall_nil. tauto.
    + rewrite Z.add_0_r, zero_sum, !opt_handle_zero, !Forall_nil by apply opt_handle_nonneg. tauto.
Qed.

(** [exclusively_owned]: nobody else has a handle. *)
Lemma exclusive_others w i o b :
  owners w !! i = Some o → b ∈ all_buffers o → exclusive w (Some b) = true →
  ∀ j oj b', j ≠ i → owners w !! j = Some oj → b' ∈ all_buffers oj → id_of b' ≠ id_of b.
Proof.
  intros Hi Hb. cbn [exclusive]. unfold exclusively_owned, strong_count. intros Hx.
  apply andb_true_iff in Hx as [_ Hx%Nat.eqb_eq]. intros j oj b' Hj Hoj Hb'.
  assert (∀ k x, owners w !! k = Some x → 0 <= handles (id_of b) x) as Hnn by (intros; apply handles_nonneg).
  assert (handles (id_of b) o ≠ 0) as Hne.
  { rewrite handles_zero, Forall_forall. intros H. by apply (H b). }
  pose proof (handles_nonneg (id_of b) o).
  assert (handles (id_of b) oj = 0) as Hz by (by eapply msum_others; [done|exact Hi|lia|..]).
  apply handles_zero in Hz. rewrite Forall_forall in Hz. by apply Hz.
Qed.

Lemma private_all o b : b ∈ private_buffers o → b ∈ all_buffers o.
Proof. unfold all_buffers, page_buffers, fence_buffers. destruct o; cbn; set_solver. Qed.

(** ** The invariant *)

Definition arena_buffers (a : GraphArena) : list Buffer := opt_list (page a) ++ opt_list (fence a).

Definition serial_ok (d : Dispatcher) : Prop :=
  1 <= maximum_argument_bytes d <= 4096 ∧
  (∀ p, page (s_arena d) = Some p → len p = 64 * 1024) ∧ (∀ f, fence (s_arena d) = Some f → len f = 64) ∧
  allocations d = (if present (page (s_arena d)) then 1 else 0) + (if present (fence (s_arena d)) then 1 else 0).

Record owner_ok (w : World) (o : Owner) : Prop := {
  ok_good : ∀ b, b ∈ page_buffers o ++ fence_buffers o → good w b;
  ok_fresh : ∀ b, b ∈ all_buffers o → (id_of b < next w)%nat;
  ok_pages : ∀ b, b ∈ page_buffers o → id_of b ∈ pages w;
  ok_fences : ∀ b, b ∈ fence_buffers o → id_of b ∉ pages w;
  ok_children : ∀ c, c ∈ children_of o → stored (store w) (c_page c) (c_offset c) (c_bytes c);
  ok_used : match o with
            | Recorder a cs _ => 0 <= used a ∧ ∀ p, page a = Some p → used a <= len p ∧
                ∀ c, c ∈ cs → id_of (c_page c) = id_of p →
                  c_offset c + slot_size (Z.of_nat (length (c_bytes c))) <= used a
            | _ => True end;
  ok_serial : match o with
              | Serial d => serial_ok d ∧
                  (∀ c, uncertain d = Some c → page (s_arena d) = Some (c_page c) ∧ c_offset c = 0) ∧
                  ∀ bytes, last_bytes d = Some bytes →
                    ∃ p, page (s_arena d) = Some p ∧ stored (store w) p 0 bytes
              | _ => True end }.

Record inv (w : World) : Prop := {
  inv_owner : ∀ i o, owners w !! i = Some o → owner_ok w o;
  inv_private : ∀ i j o o' b b', owners w !! i = Some o → owners w !! j = Some o' → i ≠ j →
    b ∈ private_buffers o → b' ∈ all_buffers o' → id_of b ≠ id_of b';
  inv_fences : ∀ i j cs cs' f f', owners w !! i = Some (Batch cs f) → owners w !! j = Some (Batch cs' f') →
    id_of f = id_of f' → i = j;
  inv_pages : ∀ m, m ∈ pages w → (m < next w)%nat }.

(** ** Slices of a page *)

Lemma slot_size_spec n : 0 <= n → n <= slot_size n ∧ 64 <= slot_size n ∧ slot_size n <= Z.max n 64 + 63.
Proof.
  intros Hn. unfold slot_size. pose proof (Z.div_mod (Z.max n 64 + 63) 64).
  pose proof (Z.mod_pos_bound (Z.max n 64 + 63) 64). lia.
Qed.

Lemma stored_ext st st' p off bytes :
  contents st' p = contents st p → stored st p off bytes → stored st' p off bytes.
Proof. unfold stored. by intros ->. Qed.

Lemma good_len w b : good w b → len b = Z.of_nat (length (contents (store w) b)) ∧ 0 < len b ∧ offset b = 0.
Proof. intros (id & n & -> & _ & Hn & Hl). cbn in *. lia. Qed.

Lemma good_cell w b : good w b → backing (memory b) = id_of b ∧ (id_of b < next w)%nat.
Proof. by intros (id & n & -> & Hlt & _). Qed.

Lemma read_bytes_lookup l off n i :
  0 <= off → read_bytes l off n !! i = if (Z.of_nat i <? n) then l !! (Z.to_nat off + i)%nat else None.
Proof.
  intros Ho. unfold read_bytes. case_bool.
  - rewrite lookup_take_lt by lia. by rewrite lookup_drop.
  - apply lookup_take_ge. lia.
Qed.

(** A write leaves the slices before it alone, and stores its own. *)
Lemma stored_before st st' p off bytes at_ new :
  contents st' p = write_bytes (contents st p) at_ new → at_ + Z.of_nat (length new) <= Z.of_nat (length (contents st p)) →
  off + Z.of_nat (length bytes) <= at_ → stored st p off bytes → stored st' p off bytes.
Proof.
  intros Hc Hn Hle (H0 & H1 & H2). split_and!; try done. rewrite <-H2 at 2. apply list_eq. intros i.
  rewrite Hc, !read_bytes_lookup by done. case_bool; [|done].
  rewrite lookup_write_bytes by lia. case_bool; to_prop; [lia|done].
Qed.

Lemma stored_written st st' p off new :
  contents st' p = write_bytes (contents st p) off new → 0 <= off → off + Z.of_nat (length new) <= len p →
  off + Z.of_nat (length new) <= Z.of_nat (length (contents st p)) → stored st' p off new.
Proof.
  intros Hc H0 Hl Hn. split_and!; try done. apply list_eq. intros i. rewrite Hc, read_bytes_lookup by done.
  case_bool.
  - rewrite lookup_write_bytes by lia. rewrite (proj2 (andb_true_iff _ _)) by (split; [apply Z.leb_le|apply Z.ltb_lt]; lia).
    f_equal. lia.
  - symmetry. apply lookup_ge_None. lia.
Qed.

Lemma owner_ok_frame w w' o :
  owner_ok w o → (next w ≤ next w')%nat → (∀ m, (m < next w)%nat → m ∈ pages w' ↔ m ∈ pages w) →
  (∀ b, b ∈ page_buffers o ++ fence_buffers o →
     length (contents (store w') b) = length (contents (store w) b)) →
  (∀ b, b ∈ page_buffers o → contents (store w') b = contents (store w) b) →
  owner_ok w' o.
Proof.
  intros [Hg Hf Hp Hfe Hc Hu Hs] Hn Hpages Hlen Hcont.
  assert (∀ b, b ∈ page_buffers o ++ fence_buffers o → (id_of b < next w)%nat) as Hid.
  { intros b Hb. exact (proj2 (good_cell w b (Hg b Hb))). }
  split; try done.
  - intros b Hb. destruct (Hg b Hb) as (id & n & -> & Hlt & Hpos & Hl). exists id, n. split_and!; try done; [lia|].
    by rewrite Hlen.
  - intros b Hb. apply Hf in Hb. lia.
  - intros b Hb. apply Hpages; [|by apply Hp]. apply Hid, elem_of_app. by left.
  - intros b Hb. rewrite Hpages; [by apply Hfe|]. apply Hid, elem_of_app. by right.
  - intros c Hin. eapply stored_ext; [|by apply Hc]. apply Hcont. unfold page_buffers. apply elem_of_app. right.
    apply list_elem_of_fmap. by exists c.
  - destruct o as [| | |d]; try done. destruct Hs as (Hs & Hun & Hl). split_and!; [done|done|]. intros bytes Hb.
    destruct (Hl bytes Hb) as (p & Hpg & Hst). exists p. split; [done|]. eapply stored_ext; [|done]. apply Hcont.
    unfold page_buffers. cbn [arena_of]. rewrite Hpg. set_solver.
Qed.

(** ** Packing *)

(** What an allocation or a write does to a world without moving owners. *)
Record grows (w w' : World) : Prop := {
  grows_owners : owners w' = owners w;
  grows_next : (next w ≤ next w')%nat;
  grows_pages : ∀ m, (m < next w)%nat → m ∈ pages w' ↔ m ∈ pages w;
  grows_bound : (∀ m, m ∈ pages w → (m < next w)%nat) → ∀ m, m ∈ pages w' → (m < next w')%nat;
  grows_length : ∀ b, good w b → length (contents (store w') b) = length (contents (store w) b) }.

Lemma grows_refl w : grows w w.
Proof. split; auto. Qed.

Lemma good_grows w w' b : grows w w' → good w b → good w' b.
Proof.
  intros [_ Hn _ _ Hl] Hb. pose proof (Hl b Hb) as Hlen. destruct Hb as (id & n & -> & Hlt & Hpos & Hc).
  exists id, n. split_and!; try done; [lia|]. by rewrite Hlen.
Qed.

Lemma grows_trans w1 w2 w3 : grows w1 w2 → grows w2 w3 → grows w1 w3.
Proof.
  intros H12 H23. pose proof (good_grows w1 w2) as Hg. destruct H12 as [O1 N1 P1 B1 L1], H23 as [O2 N2 P2 B2 L2].
  split; [congruence|lia|..].
  - intros m Hm. rewrite P2 by lia. by apply P1.
  - auto.
  - intros b Hb. rewrite L2 by (apply Hg; [by split|done]). by apply L1.
Qed.

(** A new buffer of the given length, and everything else untouched. *)
Record allocated (w w' : World) (size : Z) (r : Result Buffer) : Prop := {
  al_grows : grows w w';
  al_frame : ∀ b, good w b → contents (store w') b = contents (store w) b;
  al_result : ∀ b, r = Ok b → good w' b ∧ len b = size ∧ id_of b = next w }.

Lemma allocation_spec w size w' st r owners_ ps :
  create_memory control native fabric engine (store w) (next w) size [device] None owners_ None = (st, r) →
  owner_source owners_ = None → device_only owners_ = false → 0 < size →
  (ps = pages w ∨ ps = {[next w]} ∪ pages w) → w' = mkWorld st (S (next w)) (owners w) ps →
  allocated w w' size r.
Proof.
  intros Hc Hs Hd Hsize Hps ->. apply create_memory_frame in Hc as [Hframe Hb]; [|done]. specialize (Hb Hd).
  assert (∀ b, good w b → contents st b = contents (store w) b) as Hcont.
  { intros b Hg. apply good_cell in Hg as [Hcell Hlt]. unfold contents.
    by rewrite (proj2 (Hframe (backing (memory b)) ltac:(lia))). }
  split; [split|..]; cbn [store owners next pages]; try done; try lia.
  - intros m Hm. destruct Hps as [->| ->]; [done|]. set_solver by lia.
  - intros Hlt m Hm. destruct Hps as [->| ->]; [apply Hlt in Hm; lia|].
    apply elem_of_union in Hm as [->%elem_of_singleton|Hm%Hlt]; lia.
  - intros b Hg. by rewrite Hcont.
  - intros b Hr. destruct (Hb b Hr) as (-> & _ & Hdata). cbn in *. split_and!; [|done|done].
    exists (next w), size. split_and!; [done|cbn; lia|done|]. unfold contents. cbn. rewrite Hdata. cbn.
    rewrite length_replicate. lia.
Qed.

Lemma allocate_page_spec w size w' r :
  0 < size → allocate_page control native fabric engine device w size = (w', r) →
  allocated w w' size r ∧ next w ∈ pages w'.
Proof.
  intros Hs. unfold allocate_page, allocate, allocate_access.
  destruct (create_memory _ _ _ _ _ _ _ _ _ _ _) as [st r'] eqn:Hc. intros [= <- <-].
  split; [eapply allocation_spec; eauto|cbn; set_solver].
Qed.

Lemma allocate_fence_spec w w' r :
  allocate_fence control native fabric engine device w = (w', r) →
  allocated w w' 64 r ∧ pages w' = pages w.
Proof.
  unfold allocate_fence, allocate_shared.
  destruct (create_memory _ _ _ _ _ _ _ _ _ _ _) as [st r'] eqn:Hc. intros [= <- <-].
  split; [|done]. apply (allocation_spec _ _ _ _ _ _ (pages w) Hc); auto; lia.
Qed.

(** A write through a good buffer. *)
Lemma write_spec w p off new st r :
  good w p → write control (store w) p off new = (st, r) →
  grows w (set_store st w) ∧
  (∀ b, good w b → id_of b ≠ id_of p → contents st b = contents (store w) b) ∧
  (contents st p = contents (store w) p ∧ is_ok r = false ∨
   contents st p = write_bytes (contents (store w) p) off new ∧ off + Z.of_nat (length new) <= len p).
Proof.
  intros Hp Hw. apply write_frame in Hw as (_ & Hframe & Hw). destruct (good_cell w p Hp) as [Hcell _].
  destruct (good_len w p Hp) as (_ & _ & Hoff). rewrite Hoff, Z.add_0_l in Hw.
  assert (∀ b, good w b → id_of b ≠ id_of p → contents st b = contents (store w) b) as Hother.
  { intros b Hb Hne. apply good_cell in Hb as [Hb _]. unfold contents. by rewrite Hframe by lia. }
  assert (∀ b, good w b → id_of b = id_of p → contents st b = contents st p ∧ contents (store w) b = contents (store w) p) as Hsame.
  { intros b Hb He. apply good_cell in Hb as [Hb _]. unfold contents. by rewrite Hb, He, Hcell. }
  split_and!; [|done|done]. split; try done. intros b Hb. cbn [store set_store].
  destruct (decide (id_of b = id_of p)) as [He|Hne]; [|by rewrite Hother].
  destruct (Hsame b Hb He) as [-> ->]. destruct Hw as [[-> _]|[-> _]]; [done|]. by rewrite length_write_bytes.
Qed.

Record arena_ok (w : World) (a : GraphArena) : Prop := {
  ar_page : ∀ p, page a = Some p → good w p ∧ id_of p ∈ pages w ∧ used a <= len p;
  ar_fence : ∀ f, fence a = Some f → good w f ∧ id_of f ∉ pages w;
  ar_used : 0 <= used a }.

Lemma arena_ok_grows w w' a : grows w w' → arena_ok w a → arena_ok w' a.
Proof.
  intros Hg [Hp Hf Hu]. split; [|..|done].
  - intros p Hpa. destruct (Hp p Hpa) as (Hgood & Hin & Hle). split_and!; [by eapply good_grows| |done].
    apply (grows_pages _ _ Hg); [by apply good_cell in Hgood as []|done].
  - intros f Hfa. destruct (Hf f Hfa) as (Hgood & Hin). split; [by eapply good_grows|].
    rewrite (grows_pages _ _ Hg); [done|by apply good_cell in Hgood as []].
Qed.

Lemma take_page_spec w a size w' a' r :
  arena_ok w a → 64 <= size → take_page control native fabric engine device w a size = (w', a', r) →
  grows w w' ∧ (∀ b, good w b → contents (store w') b = contents (store w) b) ∧ arena_ok w' a' ∧
  fence a' = fence a ∧
  (a' = a ∨ ∃ p, page a' = Some p ∧ id_of p = next w ∧ used a' = 0 ∧ len p = Z.max size (64 * 1024) ∧
     ∀ q, page a = Some q → len q - used a < size) ∧
  match r with Ok (p, _) => page a' = Some p ∧ used a' + size <= len p | Err _ => a' = a end.
Proof.
  intros Ha Hs.
  assert (∀ w' a' r, new_page control native fabric engine device w a size = (w', a', r) →
    (∀ q, page a = Some q → len q - used a < size) →
    grows w w' ∧ (∀ b, good w b → contents (store w') b = contents (store w) b) ∧ arena_ok w' a' ∧
    fence a' = fence a ∧
    (a' = a ∨ ∃ p, page a' = Some p ∧ id_of p = next w ∧ used a' = 0 ∧ len p = Z.max size (64 * 1024) ∧
       ∀ q, page a = Some q → len q - used a < size) ∧
    match r with Ok (p, _) => page a' = Some p ∧ used a' + size <= len p | Err _ => a' = a end) as Hnew.
  { clear w' a' r. intros w' a' r. unfold new_page. destruct (allocate_page _ _ _ _ _ _ _) as [w1 r1] eqn:Hal.
    apply allocate_page_spec in Hal as [[Hg Hc Hr] Hin]; [|lia].
    destruct r1 as [p|e]; intros [= <- <- <-] Hq.
    - destruct (Hr p eq_refl) as (Hgood & Hlen & Hid). pose proof (arena_ok_grows _ _ _ Hg Ha) as [_ Hf _].
      split_and!; try done.
      + split; cbn; [|done|lia]. intros p' [= <-]. split_and!; [done|by rewrite Hid|lia].
      + right. exists p. done.
      + cbn. lia.
    - split_and!; try done; [by eapply arena_ok_grows|by left]. }
  unfold take_page. destruct (page a) as [p|] eqn:Hp.
  - case_bool; [intros H; apply Hnew; [done|]; by intros q [= <-]|].
    intros [= <- <- <-]. split_and!; eauto using grows_refl with lia.
  - intros H. by apply Hnew.
Qed.

(** [GraphArena::pack] writes only above [used] or to a new page. *)
Lemma pack_spec w a bytes w' a' r :
  arena_ok w a → (∀ m, m ∈ pages w → (m < next w)%nat) → pack w a bytes = (w', a', r) →
  grows w w' ∧ arena_ok w' a' ∧
  (page a' = page a ∧ used a <= used a' ∨
   ∃ p, page a' = Some p ∧ (next w ≤ id_of p)%nat ∧
     len p = Z.max (slot_size (Z.of_nat (length bytes))) (64 * 1024) ∧
     ∀ q, page a = Some q → len q - used a < slot_size (Z.of_nat (length bytes))) ∧
  (fence a' = fence a ∨ ∃ f, fence a = None ∧ fence a' = Some f ∧ (next w ≤ id_of f)%nat ∧ len f = 64) ∧
  (∀ b, good w b → (∀ p, page a = Some p → id_of b ≠ id_of p) → contents (store w') b = contents (store w) b) ∧
  (∀ p off old, page a = Some p → off + Z.of_nat (length old) <= used a →
     stored (store w) p off old → stored (store w') p off old) ∧
  ∀ p off f n, r = Ok (p, off, f, n) →
    page a' = Some p ∧ fence a' = Some f ∧ stored (store w') p off bytes ∧
    off + slot_size (Z.of_nat (length bytes)) <= used a' ∧ (page a = Some p → used a <= off) ∧ (used a = 0 → off = 0).
Proof.
  intros Ha Hbound. destruct (slot_size_spec (Z.of_nat (length bytes))) as (Hsl & Hs64 & _); [lia|].
  unfold NativeBatch.pack. set (size := slot_size _) in *.
  destruct (take_page control native fabric engine device w a size) as [[w1 a1] r1] eqn:Ht.
  apply take_page_spec in Ht as (Hg1 & Hc1 & Ha1 & Hf1 & Hp1 & Hr1); [|done|done].
  assert (page a1 = page a ∧ used a <= used a1 ∨ ∃ p, page a1 = Some p ∧ (next w ≤ id_of p)%nat ∧
            len p = Z.max size (64 * 1024) ∧ ∀ q, page a = Some q → len q - used a < size) as Hp1'.
  { destruct Hp1 as [->|(p & Hp & Hid & _ & Hl & Hq)]; [by left|right]. exists p. split_and!; try done. lia. }
  destruct r1 as [[p alloc]|e].
  2:{ subst a1. intros [= <- <- <-]. split_and!; try done; [by left|intros b Hb _; by apply Hc1|].
      intros q off old Hq _ Hst. eapply stored_ext; [|done]. apply Hc1. by apply (ar_page _ _ Ha). }
  destruct Hr1 as [Hp Hfit]. destruct (ar_page _ _ Ha1 p Hp) as (Hgp & Hinp & _).
  destruct (write control (store w1) p (used a1) bytes) as [st rw] eqn:Hw.
  destruct (write_spec _ _ _ _ _ _ Hgp Hw) as (Hg2 & Hother & Hwrite).
  pose proof (grows_trans _ _ _ Hg1 Hg2) as Hg12. pose proof (arena_ok_grows _ _ _ Hg2 Ha1) as Ha2.
  assert (∀ b, good w b → (∀ p, page a = Some p → id_of b ≠ id_of p) → contents st b = contents (store w) b) as Hframe.
  { intros b Hb Hne. rewrite <-(Hc1 b Hb). apply Hother; [by eapply good_grows|].
    destruct Hp1 as [->|(p' & Hp' & Hid & _)]; [by apply Hne|]. rewrite Hp in Hp'. injection Hp' as <-.
    apply good_cell in Hb as [_ ?]. lia. }
  assert (∀ q off old, page a = Some q → off + Z.of_nat (length old) <= used a →
            stored (store w) q off old → stored st q off old) as Hkeep.
  { intros q off old Hq Hle Hst. pose proof (proj1 (ar_page _ _ Ha q Hq)) as Hgq.
    destruct Hp1 as [->|(p' & Hp' & Hid & _)].
    - rewrite Hp in Hq. injection Hq as <-. apply (stored_ext _ (store w1)) in Hst; [|by apply Hc1].
      destruct Hwrite as [[Hcont _]|[Hcont Hle']]; [by eapply stored_ext|].
      eapply stored_before; [done| |done|done]. pose proof (good_len _ _ Hgp) as (<- & _). done.
    - rewrite Hp in Hp'. injection Hp' as <-. eapply stored_ext; [|done]. rewrite <-(Hc1 q Hgq).
      apply Hother; [by eapply good_grows|]. apply good_cell in Hgq as [_ ?]. lia. }
  destruct rw as [u|e].
  2:{ intros [= <- <- <-]. split_and!; try done. left. done. }
  destruct Hwrite as [[_ ?]|[Hcont Hle]]; [done|].
  assert (stored st p (used a1) bytes) as Hst.
  { eapply stored_written; [done|by apply (ar_used _ _ Ha1)|done|].
    pose proof (good_len _ _ Hgp) as (<- & _). done. }
  set (a2 := mkArena (page a1) (used a1 + size) (fence a1)).
  assert (arena_ok (set_store st w1) a2) as Ha2'.
  { destruct Ha2 as [H1 H2 H3]. split; cbn; [|done|lia]. intros q Hq. rewrite Hp in Hq. injection Hq as <-.
    destruct (H1 p Hp) as (? & ? & _). split_and!; [done|done|lia]. }
  assert (page a2 = page a ∧ used a <= used a2 ∨ ∃ p, page a2 = Some p ∧ (next w ≤ id_of p)%nat ∧
            len p = Z.max size (64 * 1024) ∧ ∀ q, page a = Some q → len q - used a < size) as Hp2.
  { destruct Hp1' as [[? ?]|?]; [left; cbn; split; [done|lia]|by right]. }
  assert (used a = 0 → used a1 = 0) as Hzero.
  { destruct Hp1 as [->|(? & _ & _ & -> & _)]; done. }
  assert (page a = Some p → used a <= used a1) as Hoff.
  { intros Hpa. destruct Hp1' as [[_ ?]|(p' & Hp' & Hid & _)]; [done|]. rewrite Hp in Hp'. injection Hp' as <-.
    destruct (ar_page _ _ Ha p Hpa) as (Hgp' & _). apply good_cell in Hgp' as [_ ?]. lia. }
  assert (fence a2 = fence a) as Hf2 by exact Hf1. rewrite Hf2. destruct (fence a) as [f|] eqn:Hfa.
  - intros [= <- <- <-]. split_and!; try done.
    + by left.
    + intros ? ? ? ? [= <- <- <- _]. split_and!; try done; cbn; lia.
  - destruct (allocate_fence _ _ _ _ _ _) as [w3 r3] eqn:Hal. apply allocate_fence_spec in Hal as [[Hg3 Hc3 Hr3] Hps].
    assert (grows w w3) as Hg by (by eapply grows_trans).
    assert (∀ b, good w b → contents (store w3) b = contents st b) as Hc3'.
    { intros b Hb. rewrite Hc3; [done|]. by eapply good_grows. }
    assert (∀ b, good w b → (∀ p, page a = Some p → id_of b ≠ id_of p) →
              contents (store w3) b = contents (store w) b) as Hframe3.
    { intros b Hb Hne. rewrite Hc3' by done. by apply Hframe. }
    assert (∀ q off old, page a = Some q → off + Z.of_nat (length old) <= used a →
              stored (store w) q off old → stored (store w3) q off old) as Hkeep3.
    { intros q off old Hq Hle' Hs. eapply stored_ext; [apply Hc3'; by apply (ar_page _ _ Ha)|by apply Hkeep]. }
    pose proof (arena_ok_grows _ _ _ Hg3 Ha2') as Ha3.
    destruct r3 as [f|e]; intros [= <- <- <-].
    + destruct (Hr3 f eq_refl) as (Hgf & Hlf & Hidf). cbn in Hidf. split_and!; try done.
      * destruct Ha3 as [H1 H2 H3]. split; cbn; [done| |done]. intros f' [= <-]. split; [done|].
        rewrite Hps, Hidf. intros Hin. apply (grows_bound _ _ Hg12 Hbound) in Hin. cbn in Hin. lia.
      * right. exists f. split_and!; try done. pose proof (grows_next _ _ Hg1). lia.
      * intros ? ? ? ? [= <- <- <- _]. split_and!; try done; try (cbn; lia).
        eapply stored_ext; [|exact Hst]. rewrite Hc3; [done|]. by apply (ar_page _ _ Ha2').
    + split_and!; try done. left. cbn. congruence.
Qed.

(** ** Preservation *)

(** The owner [i] wrote to the allocations [written] and left the owners
    described by [changed]; [mine] is what it had handles of. *)
Record change (w w1 : World) (i : nat) (mine : list Buffer) (written : list nat)
    (m' : gmap nat Owner) (changed : nat → Owner → Prop) : Prop := {
  ch_grows : grows w w1;
  ch_frame : ∀ b, good w b → id_of b ∉ written → contents (store w1) b = contents (store w) b;
  ch_written : ∀ j oj b, j ≠ i → owners w !! j = Some oj → b ∈ all_buffers oj → id_of b ∉ written;
  ch_mine : ∀ j oj b b', j ≠ i → owners w !! j = Some oj → b ∈ private_buffers oj → b' ∈ mine → id_of b ≠ id_of b';
  ch_owners : ∀ j oj, m' !! j = Some oj → (j ≠ i ∧ owners w !! j = Some oj) ∨ changed j oj;
  ch_where : ∀ j oj, changed j oj → j = i ∨ owners w !! j = None;
  ch_ok : ∀ j oj, changed j oj → owner_ok w1 oj;
  ch_all : ∀ j oj b, changed j oj → b ∈ all_buffers oj → b ∈ mine ∨ (next w ≤ id_of b)%nat;
  ch_private : ∀ j oj b k ok b', changed j oj → b ∈ private_buffers oj → k ≠ i → owners w !! k = Some ok →
    b' ∈ all_buffers ok → id_of b ≠ id_of b';
  ch_apart : ∀ j oj b k ok b', changed j oj → changed k ok → j ≠ k → b ∈ private_buffers oj →
    b' ∈ all_buffers ok → id_of b ≠ id_of b';
  ch_batch : ∀ j cs f, changed j (Batch cs f) →
    ∀ k cs' f', (k ≠ i ∧ owners w !! k = Some (Batch cs' f')) ∨ changed k (Batch cs' f') → id_of f = id_of f' → j = k }.

Lemma inv_change w w1 i mine written m' changed :
  inv w → change w w1 i mine written m' changed → inv (set_owners m' w1).
Proof.
  intros [Ho Hp Hf Hb] [G F W M O Wh K A P Ap B]. pose proof G as [GO GN GP GB GL].
  split; cbn [owners set_owners].
  - intros j oj [[Hj Hoj]|Hj]%O.
    + assert (owner_ok w1 oj) as Hok; [|by destruct Hok; split].
      apply (owner_ok_frame w); [by eapply Ho|done|done|..].
      * intros b Hin. apply GL. by apply (ok_good _ _ (Ho j oj Hoj)).
      * intros b Hin. apply F; [apply (ok_good _ _ (Ho j oj Hoj)), elem_of_app; by left|].
        apply (W j oj b Hj Hoj). apply elem_of_app. by left.
    + destruct (K j oj Hj). by split.
  - intros j k oj ok b b' [[Hj Hoj]|Hj]%O [[Hk Hok]|Hk]%O Hne Hpb Hab.
    + by apply (Hp j k oj ok).
    + destruct (A k ok b' Hk Hab) as [Hm|Hge]; [by apply (M j oj)|].
      pose proof (ok_fresh _ _ (Ho j oj Hoj) b (private_all _ _ Hpb)). lia.
    + by apply (P j oj b k ok).
    + by apply (Ap j oj b k ok).
  - intros j k cs cs' f f' [[Hj Hoj]|Hj]%O Hk%O He.
    + destruct Hk as [[_ Hok]|Hk]; [by eapply Hf|]. symmetry. by eapply B; [exact Hk|left|].
    + by eapply B.
  - by apply GB.
Qed.

(** Handles of owner [i] never meet what others keep to themselves. *)
Lemma own_buffers w i o j oj b b' :
  inv w → owners w !! i = Some o → j ≠ i → owners w !! j = Some oj → b ∈ private_buffers oj →
  b' ∈ all_buffers o → id_of b ≠ id_of b'.
Proof. intros H Hi Hne Hj Hb Hb'. by apply (inv_private _ H j i oj o). Qed.

Lemma inv_new w i o :
  inv w → owners w !! i = None → owner_ok w o → all_buffers o = [] →
  inv (set_owners (<[i := o]> (owners w)) w).
Proof.
  intros Hinv Hi Hok Hall.
  assert (private_buffers o = []) as Hpr.
  { apply elem_of_nil_inv. intros b Hb%private_all. rewrite Hall in Hb. by apply elem_of_nil in Hb. }
  apply (inv_change w w i [] [] _ (λ j oj, j = i ∧ oj = o)); [done|]. split.
  - apply grows_refl.
  - done.
  - by intros j oj b _ _ _ ?%elem_of_nil.
  - by intros j oj b b' _ _ _ ?%elem_of_nil.
  - intros j oj [[<- <-]|[? ?]]%lookup_insert_Some; auto.
  - intros j oj [-> _]. auto.
  - by intros j oj [_ ->].
  - intros j oj b [_ ->]. rewrite Hall. by intros ?%elem_of_nil.
  - intros j oj b k ok b' [_ ->]. rewrite Hpr. by intros ?%elem_of_nil.
  - intros j oj b k ok b' [_ ->] _ _. rewrite Hpr. by intros ?%elem_of_nil.
  - intros j cs f [-> He]. exfalso. subst o. unfold all_buffers, fence_buffers in Hall. cbn in Hall.
    by apply app_eq_nil in Hall as [_ ?].
Qed.

(** [prepare_graph] on an arena: what it leaves, and the child it returns. *)
Record prepared (w : World) (a : GraphArena) (bytes : list Z) (w' : World) (a' : GraphArena) (r : Result Child) : Prop := {
  pr_grows : grows w w';
  pr_arena : arena_ok w' a';
  pr_page : page a' = page a ∧ used a <= used a' ∨
    ∃ p, page a' = Some p ∧ (next w ≤ id_of p)%nat ∧
      len p = Z.max (slot_size (Z.of_nat (length bytes))) (64 * 1024) ∧
      ∀ q, page a = Some q → len q - used a < slot_size (Z.of_nat (length bytes));
  pr_fence : fence a' = fence a ∨
    ∃ f, fence a = None ∧ fence a' = Some f ∧ (next w ≤ id_of f)%nat ∧ len f = 64;
  pr_frame : ∀ b, good w b → id_of b ∉ id_of <$> opt_list (page a) → contents (store w') b = contents (store w) b;
  pr_keep : ∀ p off old, page a = Some p → off + Z.of_nat (length old) <= used a →
    stored (store w) p off old → stored (store w') p off old;
  pr_child : ∀ c, r = Ok c →
    page a' = Some (c_page c) ∧ fence a' = Some (c_fence c) ∧ c_bytes c = bytes ∧
    stored (store w') (c_page c) (c_offset c) bytes ∧
    c_offset c + slot_size (Z.of_nat (length bytes)) <= used a' ∧ (used a = 0 → c_offset c = 0) }.

Lemma prepare_graph_spec w a bytes rest w' a' r :
  arena_ok w a → (∀ m, m ∈ pages w → (m < next w)%nat) → prepare_graph w a bytes rest = (w', a', r) →
  prepared w a bytes w' a' r.
Proof.
  intros Ha Hb. unfold NativeBatch.prepare_graph. destruct (pack w a bytes) as [[w1 a1] r1] eqn:Hp.
  destruct (pack_spec _ _ _ _ _ _ Ha Hb Hp) as (Hg & Ha1 & Hpg & Hf & Hfr & Hk & Hr). intros H.
  assert (w' = w1 ∧ a' = a1 ∧ ∀ c, r = Ok c → ∃ n, r1 = Ok (c_page c, c_offset c, c_fence c, n) ∧ c_bytes c = bytes)
    as (-> & -> & Hc).
  { destruct r1 as [[[[p off] f] n]|e]; simplify_eq; split_and!; try done.
    intros c Hc. destruct rest; [|done]. injection Hc as <-. by exists n. }
  split; try done.
  - intros b Hgb Hn. apply Hfr; [done|]. intros p Hp' He. apply Hn. rewrite Hp'. cbn. rewrite He. by left.
  - intros c (n & -> & Hbytes)%Hc. destruct (Hr _ _ _ _ eq_refl) as (? & ? & ? & ? & _ & ?). done.
Qed.

Lemma good_inj w b b' : good w b → good w b' → id_of b = id_of b' → b = b'.
Proof.
  intros (id & n & -> & _ & _ & Hn) (id' & n' & -> & _ & _ & Hn') He. cbn in He. subst id'.
  unfold contents in *. cbn in *. congruence.
Qed.

Lemma recorder_arena w a cs cf : owner_ok w (Recorder a cs cf) → arena_ok w a.
Proof.
  intros [Hg Hf Hp Hfe _ [Hu Hu'] _]. split; [|..|done].
  - intros p Hpa. unfold page_buffers in *. cbn [arena_of] in *. rewrite Hpa in *.
    split_and!; [apply Hg|apply Hp|by apply Hu']; cbn; set_solver.
  - intros f Hfa. unfold fence_buffers in *. cbn [arena_of] in *. rewrite Hfa in *. split; [apply Hg|apply Hfe]; set_solver.
Qed.

Lemma serial_arena w d :
  owner_ok w (Serial d) → arena_ok w (mkArena (page (s_arena d)) 0 (fence (s_arena d))).
Proof.
  intros [Hg Hf Hp Hfe _ _ _]. split; cbn; [| |lia].
  - intros p Hpa. unfold page_buffers in *. cbn [arena_of] in *. rewrite Hpa in *.
    assert (good w p) as Hgp by (apply Hg; set_solver). split_and!; [done|apply Hp; set_solver|].
    pose proof (good_len _ _ Hgp). lia.
  - intros f Hfa. unfold fence_buffers in *. cbn [arena_of] in *. rewrite Hfa in *. split; [apply Hg|apply Hfe]; set_solver.
Qed.

Lemma all_elim (P : Buffer → Prop) o :
  (∀ b, page (arena_of o) = Some b → P b) → (∀ b, fence (arena_of o) = Some b → P b) →
  (∀ b, completion_of o = Some b → P b) → (∀ c, c ∈ children_of o → P (c_page c)) →
  (∀ b, b ∈ child_fences o → P b) → ∀ b, b ∈ all_buffers o → P b.
Proof.
  intros H1 H2 H3 H4 H5 b. unfold all_buffers, page_buffers, fence_buffers. rewrite !elem_of_app.
  intros [[Hb|Hb]|[[Hb|Hb]|Hb]]; [| | | |by apply H5].
  - apply H1. destruct (page _); [by apply list_elem_of_singleton in Hb as ->|by apply elem_of_nil in Hb].
  - apply list_elem_of_fmap in Hb as (c & -> & Hc). by apply H4.
  - apply H2. destruct (fence _); [by apply list_elem_of_singleton in Hb as ->|by apply elem_of_nil in Hb].
  - apply H3. destruct (completion_of _); [by apply list_elem_of_singleton in Hb as ->|by apply elem_of_nil in Hb].
Qed.

(** Building and using [owner_ok] by kind of buffer. *)
Definition page_ok (w : World) (b : Buffer) : Prop := good w b ∧ id_of b ∈ pages w.
Definition fence_ok (w : World) (b : Buffer) : Prop := good w b ∧ id_of b ∉ pages w.
Definition child_ok (w : World) (c : Child) : Prop :=
  page_ok w (c_page c) ∧ stored (store w) (c_page c) (c_offset c) (c_bytes c).

Lemma owner_parts w o :
  owner_ok w o →
  (∀ b, page (arena_of o) = Some b → page_ok w b) ∧ (∀ b, fence (arena_of o) = Some b → fence_ok w b) ∧
  (∀ b, completion_of o = Some b → fence_ok w b) ∧ (∀ c, c ∈ children_of o → child_ok w c) ∧
  ∀ b, b ∈ child_fences o → (id_of b < next w)%nat.
Proof.
  intros [Hg Hf Hp Hfe Hc _ _]. unfold page_ok, fence_ok, child_ok, all_buffers, page_buffers, fence_buffers in *.
  split_and!.
  - intros b E. rewrite E in *. split; [apply Hg|apply Hp]; set_solver.
  - intros b E. rewrite E in *. split; [apply Hg|apply Hfe]; set_solver.
  - intros b E. rewrite E in *. split; [apply Hg|apply Hfe]; set_solver.
  - intros c Hin. assert (c_page c ∈ c_page <$> children_of o) by (apply list_elem_of_fmap; by exists c).
    split; [split; [apply Hg|apply Hp]; set_solver|by apply Hc].
  - intros b Hb. apply Hf. set_solver.
Qed.

Lemma owner_intro w o :
  (∀ b, page (arena_of o) = Some b → page_ok w b) → (∀ b, fence (arena_of o) = Some b → fence_ok w b) →
  (∀ b, completion_of o = Some b → fence_ok w b) → (∀ c, c ∈ children_of o → child_ok w c) →
  (∀ b, b ∈ child_fences o → (id_of b < next w)%nat) →
  match o with
  | Recorder a cs _ => 0 <= used a ∧ ∀ p, page a = Some p → used a <= len p ∧
      ∀ c, c ∈ cs → id_of (c_page c) = id_of p →
        c_offset c + slot_size (Z.of_nat (length (c_bytes c))) <= used a
  | _ => True end →
  match o with
  | Serial d => serial_ok d ∧ (∀ c, uncertain d = Some c → page (s_arena d) = Some (c_page c) ∧ c_offset c = 0) ∧
      ∀ bytes, last_bytes d = Some bytes → ∃ p, page (s_arena d) = Some p ∧ stored (store w) p 0 bytes
  | _ => True end → owner_ok w o.
Proof.
  intros H1 H2 H3 H4 H5 H6 H7.
  assert (∀ b, b ∈ page_buffers o → page_ok w b) as Hpage.
  { intros b. unfold page_buffers. rewrite elem_of_app. intros [Hb|Hb].
    - apply H1. destruct (page _); [by apply list_elem_of_singleton in Hb as ->|by apply elem_of_nil in Hb].
    - apply list_elem_of_fmap in Hb as (c & -> & Hc). by apply H4. }
  assert (∀ b, b ∈ fence_buffers o → fence_ok w b) as Hfence.
  { intros b. unfold fence_buffers. rewrite elem_of_app. intros [Hb|Hb].
    - apply H2. destruct (fence _); [by apply list_elem_of_singleton in Hb as ->|by apply elem_of_nil in Hb].
    - apply H3. destruct (completion_of _); [by apply list_elem_of_singleton in Hb as ->|by apply elem_of_nil in Hb]. }
  split; try done.
  - intros b [Hb|Hb]%elem_of_app; [by apply Hpage|by apply Hfence].
  - intros b. unfold all_buffers. rewrite !elem_of_app. intros [Hb|[Hb|Hb]]; [| |by apply H5].
    + exact (proj2 (good_cell _ _ (proj1 (Hpage b Hb)))).
    + exact (proj2 (good_cell _ _ (proj1 (Hfence b Hb)))).
  - intros b Hb. by apply Hpage.
  - intros b Hb. by apply Hfence.
  - intros c Hc. by apply H4.
Qed.

Lemma page_ok_grows w w' b : grows w w' → page_ok w b → page_ok w' b.
Proof.
  intros Hg [Hb Hin]. split; [by eapply good_grows|]. apply (grows_pages _ _ Hg); [|done].
  by apply good_cell in Hb as [].
Qed.
Lemma fence_ok_grows w w' b : grows w w' → fence_ok w b → fence_ok w' b.
Proof.
  intros Hg [Hb Hin]. split; [by eapply good_grows|]. rewrite (grows_pages _ _ Hg); [done|].
  by apply good_cell in Hb as [].
Qed.

(** A child of the owner survives packing: it lies below [used], or elsewhere. *)
Lemma child_prepared w a bytes w' a' r c :
  prepared w a bytes w' a' r → child_ok w c → (∀ p, page a = Some p → page_ok w p) →
  (∀ p, page a = Some p → id_of (c_page c) = id_of p →
     c_offset c + slot_size (Z.of_nat (length (c_bytes c))) <= used a) →
  child_ok w' c.
Proof.
  intros [Hg _ _ _ Hfr Hk _] [Hp Hst] Hpa Hle. split; [by eapply page_ok_grows|].
  destruct (decide (id_of (c_page c) ∈ id_of <$> opt_list (page a))) as [Hin|Hn].
  - destruct (page a) as [p|] eqn:Ep; cbn in Hin; [|by apply elem_of_nil in Hin].
    apply list_elem_of_singleton in Hin. assert (c_page c = p) as He.
    { by apply (good_inj w); [apply Hp|apply Hpa|]. }
    rewrite He in *. apply Hk; [done| |done]. specialize (Hle p eq_refl eq_refl).
    destruct (slot_size_spec (Z.of_nat (length (c_bytes c)))); lia.
  - eapply stored_ext; [|done]. apply Hfr; [apply Hp|done].
Qed.

(** Replacing one owner in place, when it wrote only to its own storage. *)
Lemma inv_replace w w1 i o o' :
  inv w → owners w !! i = Some o → grows w w1 → owner_ok w1 o' →
  (∀ b, good w b → id_of b ∉ id_of <$> private_buffers o → contents (store w1) b = contents (store w) b) →
  (∀ b, b ∈ all_buffers o' → b ∈ all_buffers o ∨ (next w ≤ id_of b)%nat) →
  (∀ b, b ∈ private_buffers o' → b ∈ private_buffers o ∨ (next w ≤ id_of b)%nat) →
  (∀ cs f, o' ≠ Batch cs f) →
  inv (set_owners (<[i := o']> (owners w1)) w1).
Proof.
  intros Hinv Hi Hg Hok Hfr Hall Hpr Hb. rewrite (grows_owners _ _ Hg).
  apply (inv_change w w1 i (all_buffers o) (id_of <$> private_buffers o) _ (λ j oj, j = i ∧ oj = o')); [done|].
  split; [done|done|..].
  - intros j oj b Hj Hoj Hbj (p & He & Hp)%list_elem_of_fmap. symmetry in He. revert He.
    by apply (inv_private _ Hinv i j o oj).
  - intros j oj b b' Hj Hoj Hbj Hb'. by apply (own_buffers w i o j oj).
  - intros j oj [[<- <-]|[? ?]]%lookup_insert_Some; auto.
  - intros j oj [-> _]. auto.
  - by intros j oj [_ ->].
  - intros j oj b [_ ->]. apply Hall.
  - intros j oj b k ok b' [_ ->] Hpb Hk Hok' Hb'. destruct (Hpr b Hpb) as [Hpo|Hge].
    + by apply (inv_private _ Hinv i k o ok).
    + pose proof (ok_fresh _ _ (inv_owner _ Hinv k ok Hok') b' Hb'). lia.
  - intros j oj b k ok b' [-> _] [-> _]. done.
  - intros j cs f [_ <-]. by destruct (Hb cs f).
Qed.

Lemma opt_list_Some {A} (o : option A) x : x ∈ opt_list o ↔ o = Some x.
Proof. destruct o; cbn; [rewrite list_elem_of_singleton|rewrite elem_of_nil]; naive_solver. Qed.

Lemma dispatch_inv w o bytes rest : inv w → inv (dispatch control native fabric engine device w o bytes rest).1.
Proof.
  intros Hinv. unfold dispatch. destruct (owners w !! o) as [[a cs cf| | |]|] eqn:Ho;
    try (destruct bytes; done). destruct bytes as [bytes|]; [|done].
  destruct (prepare_graph w a bytes rest) as [[w1 a1] r] eqn:Hp.
  pose proof (inv_owner _ Hinv o _ Ho) as Hok. pose proof (recorder_arena _ _ _ _ Hok) as Ha.
  apply prepare_graph_spec in Hp as Hpr; [|done|apply Hinv].
  destruct (owner_parts _ _ Hok) as (H1 & H2 & H3 & H4 & H5). cbn in H1, H2, H3, H4, H5.
  destruct Hpr as [Hg Ha1 Hpg Hfe Hfr Hk Hc] eqn:E. clear E. destruct (ok_used _ _ Hok) as [Hu0 Hu].
  set (cs' := match r with Ok c => cs ++ [c] | Err _ => cs end).
  assert (inv (set_owners (<[o := Recorder a1 cs' cf]> (owners w1)) w1)) as Hgoal; [|by destruct r].
  assert (∀ c, c ∈ cs' → c ∈ cs ∨ r = Ok c) as Hcs.
  { intros c. subst cs'. destruct r as [c'|]; [|by left]. rewrite elem_of_app, list_elem_of_singleton. naive_solver. }
  assert (∀ b, page a1 = Some b → page a = Some b ∨ (next w ≤ id_of b)%nat) as Hpa.
  { intros b Eb. destruct Hpg as [[He _]|(p & He & Hid & _)]; [left; congruence|right; congruence]. }
  assert (∀ b, fence a1 = Some b → fence a = Some b ∨ (next w ≤ id_of b)%nat) as Hfa.
  { intros b Eb. destruct Hfe as [He|(p & _ & He & Hid & _)]; [left; congruence|right; congruence]. }
  apply (inv_replace w w1 o (Recorder a cs cf)); try done.
  - apply owner_intro; cbn [arena_of completion_of children_of child_fences].
    + intros b Eb. destruct (ar_page _ _ Ha1 b Eb) as (? & ? & _). by split.
    + intros b Eb. by apply (ar_fence _ _ Ha1).
    + intros b Eb. eapply fence_ok_grows; [done|by apply H3].
    + intros c [Hin|Hr]%Hcs.
      * eapply child_prepared; [by split| |done|]; [by apply H4|]. intros p Ep He. by apply (Hu p).
      * destruct (Hc c Hr) as (Ep & _ & Hb & Hst & _). split; [|by rewrite Hb].
        destruct (ar_page _ _ Ha1 _ Ep) as (? & ? & _). by split.
    + intros b (c & -> & [Hin|Hr]%Hcs)%list_elem_of_fmap.
      * pose proof (grows_next _ _ Hg). assert (id_of (c_fence c) < next w)%nat; [|lia].
        apply H5, list_elem_of_fmap. by exists c.
      * destruct (Hc c Hr) as (_ & Ef & _). exact (proj2 (good_cell _ _ (proj1 (ar_fence _ _ Ha1 _ Ef)))).
    + split; [apply Ha1|]. intros p Ep. split; [by apply (ar_page _ _ Ha1)|]. intros c [Hin|Hr]%Hcs He.
      * destruct (Hpa p Ep) as [Ep'|Hge].
        -- destruct (Hu p Ep') as [_ Hle]. specialize (Hle c Hin He).
           destruct Hpg as [[_ ?]|(p' & Ep'' & Hid & _)]; [lia|].
           rewrite Ep in Ep''. injection Ep'' as <-. apply H1 in Ep' as [Hgp _]. apply good_cell in Hgp as [_ ?]. lia.
        -- apply H4 in Hin as [[Hgc _] _]. apply good_cell in Hgc as [_ ?]. lia.
      * destruct (Hc c Hr) as (_ & _ & -> & _ & ? & _). done.
    + done.
  - intros b Hb Hn. apply Hfr; [done|]. intros Hin. apply Hn. cbn. rewrite !fmap_app. set_solver.
  - apply all_elim; cbn [arena_of completion_of children_of child_fences]; unfold all_buffers, page_buffers, fence_buffers;
      cbn [arena_of completion_of children_of child_fences].
    + intros b [Eb|?]%Hpa; [left; rewrite Eb; set_solver|by right].
    + intros b [Eb|?]%Hfa; [left; rewrite Eb; set_solver|by right].
    + intros b Eb. left. rewrite Eb. set_solver.
    + intros c [Hin|Hr]%Hcs.
      * left. rewrite !elem_of_app, list_elem_of_fmap. left. right. by exists c.
      * destruct (Hc c Hr) as ([Eb|?]%Hpa & _); [left; rewrite Eb; set_solver|by right].
    + intros b (c & -> & [Hin|Hr]%Hcs)%list_elem_of_fmap.
      * left. rewrite !elem_of_app, !list_elem_of_fmap. right. right. by exists c.
      * destruct (Hc c Hr) as (_ & [Eb|?]%Hfa & _); [left; rewrite Eb; set_solver|by right].
  - intros b. cbn. rewrite !elem_of_app, !opt_list_Some. naive_solver.
Qed.

Lemma drop_inv w w1 i o :
  inv w → owners w !! i = Some o → grows w w1 →
  (∀ b, good w b → id_of b ∉ id_of <$> private_buffers o → contents (store w1) b = contents (store w) b) →
  inv (set_owners (delete i (owners w1)) w1).
Proof.
  intros Hinv Hi Hg Hfr. rewrite (grows_owners _ _ Hg).
  apply (inv_change w w1 i [] (id_of <$> private_buffers o) _ (λ _ _, False)); [done|]. split; try done.
  - intros j oj b Hj Hoj Hbj (p & He & Hp)%list_elem_of_fmap. symmetry in He. revert He.
    by apply (inv_private _ Hinv i j o oj).
  - by intros j oj b b' _ _ _ ?%elem_of_nil.
  - intros j oj [? ?]%lookup_delete_Some. auto.
Qed.

(** Changes that no owner sees. *)
Lemma inv_grow w w1 :
  inv w → grows w w1 → (∀ b, good w b → contents (store w1) b = contents (store w) b) → inv w1.
Proof.
  intros Hinv Hg Hfr. assert (set_owners (owners w) w1 = w1) as <-.
  { rewrite <-(grows_owners _ _ Hg). by destruct w1. }
  set (i := fresh (dom (owners w))).
  assert (owners w !! i = None) as Hi by (apply not_elem_of_dom, is_fresh).
  apply (inv_change w w1 i [] [] _ (λ _ _, False)); [done|]. split; try done; [naive_solver|..].
  - by intros j oj b _ _ _ ?%elem_of_nil.
  - by intros j oj b b' _ _ _ ?%elem_of_nil.
  - intros j oj Hj. left. split; [congruence|done].
Qed.

(** The fence of a batch: the recycled one, cleared, or a new one. *)
Lemma batch_fence_spec w cf w1 r :
  (∀ m, m ∈ pages w → (m < next w)%nat) → (∀ f, cf = Some f → fence_ok w f) →
  batch_fence control native fabric engine device w cf = (w1, r) →
  grows w w1 ∧
  (∀ b, good w b → id_of b ∉ id_of <$> opt_list cf → contents (store w1) b = contents (store w) b) ∧
  ∀ f, r = Ok f → fence_ok w1 f ∧ (cf = Some f ∨ (cf = None ∧ (next w ≤ id_of f)%nat)).
Proof.
  intros Hb Hcf. unfold batch_fence. destruct cf as [f|].
  - destruct (write control (store w) f 0 (le_bytes 4 0)) as [st rw] eqn:Hw. specialize (Hcf f eq_refl).
    destruct (write_spec _ _ _ _ _ _ (proj1 Hcf) Hw) as (Hg & Hother & _).
    intros H. assert (w1 = set_store st w ∧ ∀ f', r = Ok f' → f' = f) as [-> Hr].
    { destruct rw; simplify_eq; naive_solver. }
    split_and!; [done| |].
    + intros b Hgb Hn. apply Hother; [done|]. intros He. apply Hn. cbn. rewrite He. by left.
    + intros f' ->%Hr. split; [by eapply fence_ok_grows|by left].
  - intros [[Hg Hc Hr] Hps]%allocate_fence_spec. split_and!; [done|intros b Hgb _; by apply Hc|].
    intros f Hf. destruct (Hr f Hf) as (Hgf & _ & Hid). split; [split; [done|]|right; split; [done|lia]].
    rewrite Hps, Hid. intros Hin%Hb. lia.
Qed.

(** A recorder becomes a batch, leaving recyclable storage or nothing. *)
Lemma batch_inv w w1 i new a cs cf cf0 f left_ :
  inv w → owners w !! i = Some (Recorder a cs cf) → owners w !! new = None → (cf0 = cf ∨ cf0 = None) →
  grows w w1 →
  (∀ b, good w b → id_of b ∉ id_of <$> opt_list cf0 → contents (store w1) b = contents (store w) b) →
  fence_ok w1 f → (cf0 = Some f ∨ (cf0 = None ∧ (next w ≤ id_of f)%nat)) →
  (left_ = None ∨ ∃ cf', left_ = Some (Storage a cf') ∧ (cf' = None ∨ cf' = Some f)) →
  inv (set_owners (<[new := Batch cs f]> (partial_alter (λ _, left_) i (owners w1))) w1).
Proof.
  intros Hinv Hi Hnew Hcf Hg Hfr Hf Hsrc Hleft. rewrite (grows_owners _ _ Hg).
  set (o := Recorder a cs cf) in *. pose proof (inv_owner _ Hinv i o Hi) as Hok.
  destruct (owner_parts _ _ Hok) as (H1 & H2 & H3 & H4 & H5). cbn in H1, H2, H3, H4, H5.
  assert (new ≠ i) as Hni by congruence.
  assert (∀ b, b ∈ opt_list cf0 → b ∈ private_buffers o) as Hpriv.
  { intros b Hb. cbn. destruct Hcf as [->| ->]; [set_solver|by apply elem_of_nil in Hb]. }
  assert (∀ c, c ∈ cs → child_ok w1 c) as Hcs.
  { intros c Hc. destruct (H4 c Hc) as [[Hgp Hpp] Hst]. split; [by eapply page_ok_grows|].
    eapply stored_ext; [|done]. apply Hfr; [done|]. intros (b & He & Hb)%list_elem_of_fmap.
    apply opt_list_Some in Hb. destruct Hcf as [->| ->]; [|done]. apply H3 in Hb as [_ Hn]. by rewrite <-He in Hn. }
  apply (inv_change w w1 i (all_buffers o) (id_of <$> opt_list cf0) _
           (λ j oj, (j = i ∧ left_ = Some oj) ∨ (j = new ∧ oj = Batch cs f))); [done|].
  assert (∀ b, b ∈ all_buffers (Batch cs f) → b ∈ all_buffers o ∨ (next w ≤ id_of b)%nat) as Hall.
  { apply all_elim; cbn; try done.
    - intros b [= <-]. destruct Hsrc as [Hs|[_ ?]]; [left|by right].
      apply private_all, Hpriv, opt_list_Some, Hs.
    - intros c Hc. left. unfold all_buffers, page_buffers. cbn. rewrite !elem_of_app, list_elem_of_fmap.
      left. right. by exists c.
    - by intros b ?%elem_of_nil. }
  split; [done|done|..].
  - intros j oj b Hj Hoj Hbj (p & He & Hp)%list_elem_of_fmap. symmetry in He. revert He.
    by apply (inv_private _ Hinv i j o oj); [..|apply Hpriv|].
  - intros j oj b b' Hj Hoj Hbj Hb'. by apply (own_buffers w i o j oj).
  - intros j oj. rewrite lookup_insert_Some. intros [[<- <-]|[Hne Hj]]; [by right; right|].
    destruct (decide (j = i)) as [->|Hji].
    + rewrite lookup_partial_alter_eq in Hj. auto.
    + rewrite lookup_partial_alter_ne in Hj by done. auto.
  - intros j oj [[-> _]|[-> _]]; auto.
  - intros j oj [[_ Hl]|[_ ->]].
    + destruct Hleft as [->|(cf' & -> & Hcf')]; [done|]. injection Hl as <-. apply owner_intro; cbn; try done.
      * intros b Hb. eapply page_ok_grows; [done|by apply H1].
      * intros b Hb. eapply fence_ok_grows; [done|by apply H2].
      * intros b Hb. destruct Hcf' as [->| ->]; [done|by injection Hb as <-].
      * by intros b ?%elem_of_nil.
      * by intros b ?%elem_of_nil.
    + apply owner_intro; cbn; try done; [by intros b [= <-]|by intros b ?%elem_of_nil].
  - intros j oj b [[_ Hl]|[_ ->]]; [|apply Hall].
    destruct Hleft as [->|(cf' & -> & Hcf')]; [done|]. injection Hl as <-. revert b. apply all_elim; cbn; try done.
    + intros b Hb. left. unfold all_buffers, page_buffers. cbn. rewrite Hb. set_solver.
    + intros b Hb. left. unfold all_buffers, fence_buffers. cbn. rewrite Hb. set_solver.
    + intros b Hb. apply Hall. destruct Hcf' as [->| ->]; [done|]. injection Hb as <-.
      unfold all_buffers, fence_buffers. cbn. set_solver.
    + by intros b ?%elem_of_nil.
    + by intros b ?%elem_of_nil.
  - intros j oj b k ok b' [[_ Hl]|[_ ->]] Hb; [|by apply elem_of_nil in Hb].
    destruct Hleft as [->|(cf' & -> & _)]; [done|]. injection Hl as <-. by apply elem_of_nil in Hb.
  - intros j oj b k ok b' [[_ Hl]|[_ ->]] _ _ Hb; [|by apply elem_of_nil in Hb].
    destruct Hleft as [->|(cf' & -> & _)]; [done|]. injection Hl as <-. by apply elem_of_nil in Hb.
  - intros j cs1 f1 [[_ Hl]|[-> [= -> ->]]].
    { destruct Hleft as [->|(cf' & -> & _)]; done. }
    intros k cs' f' [[Hk Hok']|[[_ Hl]|[-> _]]] He; [|by destruct Hleft as [->|(cf' & -> & _)]|done].
    assert (f' ∈ all_buffers (Batch cs' f')) as Hf' by (unfold all_buffers, fence_buffers; cbn; set_solver).
    destruct Hsrc as [Hs|[_ Hge]].
    + exfalso. revert He. by apply (inv_private _ Hinv i k o (Batch cs' f')); [..|apply Hpriv, opt_list_Some|].
    + pose proof (ok_fresh _ _ (inv_owner _ Hinv k _ Hok') f' Hf'). lia.
Qed.

Lemma prepare_batch_spec w i a cs cf cf0 encoded address w1 r :
  inv w → owners w !! i = Some (Recorder a cs cf) → (cf0 = cf ∨ cf0 = None) →
  prepare_batch control native fabric engine device w cs cf0 encoded address = (w1, r) →
  grows w w1 ∧
  (∀ b, good w b → id_of b ∉ id_of <$> opt_list cf0 → contents (store w1) b = contents (store w) b) ∧
  ∀ f, r = Ok f → fence_ok w1 f ∧ (cf0 = Some f ∨ (cf0 = None ∧ (next w ≤ id_of f)%nat)).
Proof.
  intros Hinv Hi Hcf Hp.
  destruct (owner_parts _ _ (inv_owner _ Hinv i _ Hi)) as (_ & _ & H3 & _). cbn in H3.
  assert (w1 = w ∧ is_ok r = false ∨
          ∃ r0, batch_fence control native fabric engine device w cf0 = (w1, r0) ∧ ∀ f, r = Ok f → r0 = Ok f)
    as [[-> Hr]|(r0 & Hb & Hr)].
  { unfold prepare_batch in Hp. destruct cs; [left; by inversion Hp|].
    destruct encoded; [right|left; by inversion Hp].
    destruct (batch_fence _ _ _ _ _ _ _) as [w2 r0]. injection Hp as <- <-. exists r0. split; [done|].
    intros f. destruct r0, address; cbn; congruence. }
  - split_and!; [apply grows_refl|done|]. by intros f ->.
  - apply batch_fence_spec in Hb as (Hg & Hfr & Hf).
    + split_and!; [done|done|]. intros f ?%Hr. by apply Hf.
    + apply Hinv.
    + intros f Hf. apply H3. destruct Hcf as [->| ->]; [done|done].
Qed.

(** What a failed [finish] leaves: the recorder is gone. *)
Lemma consumed_inv w w1 i a cs cf cf0 :
  inv w → owners w !! i = Some (Recorder a cs cf) → (cf0 = cf ∨ cf0 = None) → grows w w1 →
  (∀ b, good w b → id_of b ∉ id_of <$> opt_list cf0 → contents (store w1) b = contents (store w) b) →
  inv (set_owners (delete i (owners w1)) w1).
Proof.
  intros Hinv Hi Hcf Hg Hfr. eapply drop_inv; [done|done|done|]. intros b Hb Hn. apply Hfr; [done|].
  intros Hin. apply Hn. cbn. destruct Hcf as [->| ->]; [|by apply elem_of_nil in Hin]. rewrite !fmap_app. set_solver.
Qed.

Lemma finish_inv w i new encoded address :
  inv w → owners w !! new = None → inv (finish control native fabric engine device w i new encoded address).1.
Proof.
  intros Hinv Hnew. unfold finish. destruct (owners w !! i) as [[a cs cf| | |]|] eqn:Hi; try done.
  destruct (prepare_batch _ _ _ _ _ _ _ _ _ _) as [w1 r] eqn:Hp.
  destruct (prepare_batch_spec _ _ _ _ _ None _ _ _ _ Hinv Hi (or_intror eq_refl) Hp) as (Hg & Hfr & Hr).
  destruct r as [f|e]; cbn [fst]; [|apply (consumed_inv w w1 i a cs cf None); auto].
  destruct (Hr f eq_refl) as [Hf Hsrc]. apply (batch_inv w w1 i new a cs cf None f None); auto.
Qed.

Lemma finish_recyclable_inv w i new gfx9 reuse encoded address :
  inv w → owners w !! new = None →
  inv (finish_recyclable control native fabric engine device w i new gfx9 reuse encoded address).1.
Proof.
  intros Hinv Hnew. unfold finish_recyclable. destruct (owners w !! i) as [[a cs cf| | |]|] eqn:Hi; try done.
  destruct gfx9; cbn [negb fst].
  2:{ eapply drop_inv; [done|done|apply grows_refl|done]. }
  set (cf0 := if reuse then cf else None).
  assert (cf0 = cf ∨ cf0 = None) as Hcf by (destruct reuse; auto).
  destruct (prepare_batch _ _ _ _ _ _ _ _ _ _) as [w1 r] eqn:Hp.
  destruct (prepare_batch_spec _ _ _ _ _ _ _ _ _ _ Hinv Hi Hcf Hp) as (Hg & Hfr & Hr).
  destruct r as [f|e]; cbn [fst]; [|apply (consumed_inv w w1 i a cs cf cf0); auto].
  destruct (Hr f eq_refl) as [Hf Hsrc].
  apply (batch_inv w w1 i new a cs cf cf0 f (Some (Storage a (if reuse then Some f else None)))); auto.
  right. eexists. split; [done|]. destruct reuse; auto.
Qed.

Lemma set_store_same w : set_store (store w) w = w.
Proof. by destruct w. Qed.

Lemma record_inv w i new : inv w → owners w !! new = None → inv (record control w i new).1.
Proof.
  intros Hinv Hnew. unfold record. destruct (owners w !! i) as [[|a cf| |]|] eqn:Hi; try done.
  destruct (exclusive w (page a) && exclusive w (fence a) && exclusive w cf) eqn:Hx; cbn [negb]; [|done].
  apply andb_true_iff in Hx as [[Hxp Hxf]%andb_true_iff Hxc].
  set (o := Storage a cf) in *. pose proof (inv_owner _ Hinv i o Hi) as Hok.
  destruct (owner_parts _ _ Hok) as (H1 & H2 & H3 & _). cbn in H1, H2, H3.
  assert (∀ b, b ∈ private_buffers (Recorder (mkArena (page a) 0 (fence a)) [] cf) →
            b ∈ all_buffers o ∧ exclusive w (Some b) = true) as Hex.
  { intros b. cbn. rewrite !elem_of_app, !opt_list_Some. unfold all_buffers, page_buffers, fence_buffers. cbn.
    intros [E|[E|E]]; rewrite E in *; split; try done; set_solver. }
  assert (∀ b j oj b', b ∈ private_buffers (Recorder (mkArena (page a) 0 (fence a)) [] cf) → j ≠ i →
            owners w !! j = Some oj → b' ∈ all_buffers oj → id_of b' ≠ id_of b) as Hother.
  { intros b j oj b' [Hb Hxb]%Hex. by apply (exclusive_others w i o b). }
  destruct (match fence a with Some f => _ | None => _ end) as [st r] eqn:Hw.
  assert (grows w (set_store st w) ∧ ∀ b, good w b → id_of b ∉ id_of <$> opt_list (fence a) →
            contents st b = contents (store w) b) as [Hg Hfr].
  { destruct (fence a) as [f|]; [|injection Hw as <- <-; by rewrite set_store_same; split; [apply grows_refl|]].
    destruct (write_spec _ _ _ _ _ _ (proj1 (H2 f eq_refl)) Hw) as (? & Ho & _). split; [done|].
    intros b Hb Hn. apply Ho; [done|]. intros He. apply Hn. cbn. rewrite He. by left. }
  assert (∀ b, b ∈ opt_list (fence a) → b ∈ private_buffers (Recorder (mkArena (page a) 0 (fence a)) [] cf)) as Hfp.
  { intros b Hb. cbn. set_solver. }
  assert (∀ j oj b, j ≠ i → owners w !! j = Some oj → b ∈ all_buffers oj → id_of b ∉ id_of <$> opt_list (fence a)) as Hwr.
  { intros j oj b Hj Hoj Hb (p & He & Hp)%list_elem_of_fmap. revert He. by apply (Hother p j oj b); [apply Hfp|..]. }
  assert (∀ o', o' = Storage empty_arena None ∨ o' = o → owner_ok (set_store st w) o') as Hsto.
  { intros o' [->| ->]; apply owner_intro; cbn; try done; try (by intros b ?%elem_of_nil).
    - intros b Hb. eapply page_ok_grows; [done|by apply H1].
    - intros b Hb. eapply fence_ok_grows; [done|by apply H2].
    - intros b Hb. eapply fence_ok_grows; [done|by apply H3]. }
  destruct r as [u|e]; cbn [fst].
  - apply (inv_change w (set_store st w) i (all_buffers o) (id_of <$> opt_list (fence a)) _
      (λ j oj, (j = i ∧ oj = Storage empty_arena None) ∨ (j = new ∧ oj = Recorder (mkArena (page a) 0 (fence a)) [] cf)));
      [done|]. split; [done|done|done|..].
    + intros j oj b b' Hj Hoj Hbj Hb'. by apply (own_buffers w i o j oj).
    + intros j oj. rewrite !lookup_insert_Some. intros [[<- <-]|[Hne [[<- <-]|[Hne' Hj]]]]; auto.
    + intros j oj [[-> _]|[-> _]]; auto.
    + intros j oj [[_ ->]|[_ ->]]; [apply Hsto; by left|]. apply owner_intro; cbn; try (by intros b ?%elem_of_nil).
      * intros b Hb. eapply page_ok_grows; [done|by apply H1].
      * intros b Hb. eapply fence_ok_grows; [done|by apply H2].
      * intros b Hb. eapply fence_ok_grows; [done|by apply H3].
      * split; [lia|]. intros p Hp. apply H1 in Hp as [Hgp _]. pose proof (good_len _ _ Hgp).
        split; [lia|by intros c ?%elem_of_nil].
      * done.
    + intros j oj b [[_ ->]|[_ ->]]; [by intros ?%elem_of_nil|]. intros Hb. left.
      unfold all_buffers, page_buffers, fence_buffers in *. cbn in *. rewrite app_nil_r in Hb. set_solver.
    + intros j oj b k ok b' [[_ ->]|[_ ->]] Hb Hk Hok' Hb'; [by apply elem_of_nil in Hb|].
      intros He. symmetry in He. revert He. by apply (Hother b k ok b').
    + intros j oj b k ok b' [[-> ->]|[-> ->]] [[-> ->]|[-> ->]] Hne Hb Hb';
        [done|by apply elem_of_nil in Hb|by apply elem_of_nil in Hb'|done].
    + intros j cs f [[_ ?]|[_ ?]]; done.
  - assert (set_owners (owners w) (set_store st w) = set_store st w) as <- by done.
    apply (inv_change w (set_store st w) i (all_buffers o) (id_of <$> opt_list (fence a)) _ (λ j oj, j = i ∧ oj = o));
      [done|]. split; [done|done|done|..].
    + intros j oj b b' Hj Hoj Hbj Hb'. by apply (own_buffers w i o j oj).
    + intros j oj Hj. destruct (decide (j = i)) as [->|]; [right; split; congruence|by left].
    + intros j oj [-> _]. auto.
    + intros j oj [_ ->]. apply Hsto. by right.
    + intros j oj b [_ ->]. auto.
    + intros j oj b k ok b' [_ ->]. by intros ?%elem_of_nil.
    + intros j oj b k ok b' [_ ->] _ _. by intros ?%elem_of_nil.
    + by intros j cs f [_ ?].
Qed.

(** ** The serial dispatcher *)

Lemma serial_inv w o qualified maximum :
  inv w → owners w !! o = None → inv (serial_dispatcher w o qualified maximum).1.
Proof.
  intros Hinv Ho. unfold serial_dispatcher. destruct qualified; [|done]. cbn [negb].
  destruct ((1 <=? maximum) && (maximum <=? 4096)) eqn:Hm; [|done]. cbn [negb fst]. to_prop.
  apply inv_new; [done|done| |done]. apply owner_intro; cbn; try done; by intros ? ?%elem_of_nil.
Qed.

Lemma newly_spec before after :
  after = before ∨ (before = None ∧ present after = true) →
  (if present before then 1 else 0) + newly before after = if present after then 1 else 0.
Proof. unfold newly. intros [->|[-> ->]]; [destruct before|]; reflexivity. Qed.

(** Small arguments never replace the page of a serial dispatcher. *)
Lemma serial_page w d bytes w1 a1 r :
  serial_ok d → Z.of_nat (length bytes) <= maximum_argument_bytes d →
  prepared w (mkArena (page (s_arena d)) 0 (fence (s_arena d))) bytes w1 a1 r →
  page a1 = page (s_arena d) ∨
  ∃ p, page (s_arena d) = None ∧ page a1 = Some p ∧ (next w ≤ id_of p)%nat ∧ len p = 64 * 1024.
Proof.
  intros (Hm & Hp & _) Hb [_ _ [[E _]|(p & E & Hid & Hl & Hq)] _ _ _ _]; [by left|right]. exists p.
  destruct (slot_size_spec (Z.of_nat (length bytes))) as (_ & _ & Hs); [lia|].
  split_and!; [|done|done|cbn in *; lia]. cbn in Hq. destruct (page (s_arena d)) as [q|]; [|done].
  specialize (Hq q eq_refl). specialize (Hp q eq_refl). lia.
Qed.

Lemma serial_ok_prepared w d bytes w1 a1 r c last n :
  serial_ok d → Z.of_nat (length bytes) <= maximum_argument_bytes d →
  prepared w (mkArena (page (s_arena d)) 0 (fence (s_arena d))) bytes w1 a1 r →
  serial_ok (mkDispatcher a1 (maximum_argument_bytes d) (failed d) c last n
    (allocations d + newly (page (s_arena d)) (page a1) + newly (fence (s_arena d)) (fence a1))).
Proof.
  intros Hok Hb Hpr. pose proof (serial_page _ _ _ _ _ _ Hok Hb Hpr) as Hpage.
  destruct Hpr as [_ _ _ Hfence _ _ _]. destruct Hok as (Hm & Hp & Hf & Ha). cbn in Hfence.
  unfold serial_ok. cbn. split_and!; [apply Hm|apply Hm|..].
  - intros p E. destruct Hpage as [E'|(q & _ & E' & _ & Hl)]; [apply Hp; congruence|congruence].
  - intros f E. destruct Hfence as [E'|(q & _ & E' & _ & Hl)]; [apply Hf; congruence|congruence].
  - rewrite Ha. rewrite <-(newly_spec (page (s_arena d)) (page a1)), <-(newly_spec (fence (s_arena d)) (fence a1)); [lia|..].
    + destruct Hfence as [->|(f & -> & -> & _)]; auto.
    + destruct Hpage as [->|(p & -> & -> & _)]; auto.
Qed.

(** Packing for a serial call, then writing at most its fence. *)
Lemma serial_keep_inv w i d bytes w1 a1 r w2 c n :
  inv w → owners w !! i = Some (Serial d) → Z.of_nat (length bytes) <= maximum_argument_bytes d →
  prepared w (mkArena (page (s_arena d)) 0 (fence (s_arena d))) bytes w1 a1 r → grows w1 w2 →
  (∀ b, good w1 b → id_of b ∉ id_of <$> opt_list (fence a1) → contents (store w2) b = contents (store w1) b) →
  (∀ x, c = Some x → r = Ok x) →
  inv (set_owners (<[i := Serial (mkDispatcher a1 (maximum_argument_bytes d) (failed d) c None n
    (allocations d + newly (page (s_arena d)) (page a1) + newly (fence (s_arena d)) (fence a1)))]> (owners w2)) w2).
Proof.
  intros Hinv Hi Hb Hpr Hg2 Hfr2 Hc. pose proof (inv_owner _ Hinv i _ Hi) as Hok.
  pose proof (ok_serial _ _ Hok) as (Hs & _ & _). pose proof (serial_page _ _ _ _ _ _ Hs Hb Hpr) as Hpage.
  pose proof (serial_ok_prepared _ _ _ _ _ _ c None n Hs Hb Hpr) as Hs'.
  destruct Hpr as [Hg Ha1 _ Hfence Hfr _ Hr]. cbn [page fence used] in *.
  assert (∀ b, page a1 = Some b → page_ok w1 b) as Hp1.
  { intros b Eb. destruct (ar_page _ _ Ha1 b Eb) as (? & ? & _). by split. }
  assert (∀ b, fence a1 = Some b → fence_ok w1 b) as Hf1 by apply (ar_fence _ _ Ha1).
  assert (∀ b, page a1 = Some b → page (s_arena d) = Some b ∨ (next w ≤ id_of b)%nat) as Hpa.
  { intros b Eb. destruct Hpage as [E|(p & _ & E & Hid & _)]; [left; congruence|right; congruence]. }
  assert (∀ b, fence a1 = Some b → fence (s_arena d) = Some b ∨ (next w ≤ id_of b)%nat) as Hfa.
  { intros b Eb. destruct Hfence as [E|(p & _ & E & Hid & _)]; [left; congruence|right; congruence]. }
  apply (inv_replace w w2 i (Serial d)); try done.
  - by eapply grows_trans.
  - apply owner_intro; cbn; try done.
    + intros b Eb. eapply page_ok_grows; [done|by apply Hp1].
    + intros b Eb. eapply fence_ok_grows; [done|by apply Hf1].
    + intros x Hx%opt_list_Some%Hc. destruct (Hr x Hx) as (Ep & _ & Hbytes & Hst & _). apply Hp1 in Ep.
      split; [by eapply page_ok_grows|]. rewrite Hbytes. eapply stored_ext; [|done]. apply Hfr2; [apply Ep|].
      intros (f & He & [_ Hn]%opt_list_Some%Hf1)%list_elem_of_fmap. apply Hn. rewrite <-He. apply Ep.
    + intros b (x & -> & Hx%opt_list_Some%Hc)%list_elem_of_fmap. destruct (Hr x Hx) as (_ & Ef & _).
      apply Hf1 in Ef as [[_ ?]%good_cell _]. pose proof (grows_next _ _ Hg2). lia.
    + split_and!; [done| |done]. intros x Hx%Hc. destruct (Hr x Hx) as (? & _ & _ & _ & _ & H0). auto.
  - intros b Hgb Hn. cbn in Hn. rewrite fmap_app, elem_of_app in Hn. rewrite Hfr2, Hfr; [done|done|tauto|by eapply good_grows|].
    intros (f & He & Ef%opt_list_Some)%list_elem_of_fmap. destruct (Hfa f Ef) as [Ef'|Hge].
    + apply Hn. right. rewrite Ef'. cbn. rewrite He. by left.
    + apply good_cell in Hgb as [_ ?]. lia.
  - apply all_elim; cbn; try done; unfold all_buffers, page_buffers, fence_buffers; cbn.
    + intros b [Eb|?]%Hpa; [left; rewrite Eb; set_solver|by right].
    + intros b [Eb|?]%Hfa; [left; rewrite Eb; set_solver|by right].
    + intros x Hx%opt_list_Some%Hc. destruct (Hr x Hx) as ([Eb|?]%Hpa & _); [left; rewrite Eb; set_solver|by right].
    + intros b (x & -> & Hx%opt_list_Some%Hc)%list_elem_of_fmap.
      destruct (Hr x Hx) as (_ & [Eb|?]%Hfa & _); [left; rewrite Eb; set_solver|by right].
  - intros b. cbn. rewrite !elem_of_app, !opt_list_Some. naive_solver.
Qed.

Lemma begin_inv w i own_device scratch_free packed rest :
  inv w → inv (execute_begin control native fabric engine device w i own_device scratch_free packed rest).1.
Proof.
  intros Hinv. unfold execute_begin. destruct (owners w !! i) as [[| | |d]|] eqn:Hi; try done.
  destruct (failed d) eqn:Hfd; [done|]. repeat (case_match; [done|]). destruct packed as [bytes|]; [|done].
  case_bool; [done|]. case_match; [done|].
  destruct (NativeBatch.prepare_graph _ _ _ _ _ _ _ _ _) as [[w1 a1] r] eqn:Hp. cbn [page fence].
  apply prepare_graph_spec in Hp; [|by eapply serial_arena, inv_owner|apply Hinv]. to_prop.
  assert (∀ c n, (∀ x, c = Some x → r = Ok x) → ∀ st rw, (st = store w1 ∨ ∃ f, fence a1 = Some f ∧
    write control (store w1) f 0 (le_bytes 4 0) = (st, rw)) →
    inv (set_owners (<[i := Serial (mkDispatcher a1 (maximum_argument_bytes d) false c None n
    (allocations d + newly (page (s_arena d)) (page a1) + newly (fence (s_arena d)) (fence a1)))]> (owners w1)) (set_store st w1))) as Hkeep.
  { intros c n Hc st rw Hw. rewrite <-Hfd. apply (serial_keep_inv w i d bytes w1 a1 r (set_store st w1)); try done; try lia.
    - destruct Hw as [->|(f & Ef & Hw)]; [rewrite set_store_same; apply grows_refl|].
      by apply (write_spec _ _ _ _ _ _ (proj1 (ar_fence _ _ (pr_arena _ _ _ _ _ _ Hp) f Ef)) Hw).
    - destruct Hw as [->|(f & Ef & Hw)]; [done|]. intros b Hb Hn. rewrite Ef in Hn. cbn in Hn.
      apply (write_spec _ _ _ _ _ _ (proj1 (ar_fence _ _ (pr_arena _ _ _ _ _ _ Hp) f Ef)) Hw); [done|].
      intros He. apply Hn. rewrite He. by left. }
  destruct r as [c|e].
  2:{ specialize (Hkeep None (executions d) ltac:(done) (store w1) (Ok tt) ltac:(by left)). by rewrite set_store_same in Hkeep. }
  destruct (fence a1) as [f|] eqn:Ef.
  2:{ specialize (Hkeep None (executions d) ltac:(done) (store w1) (Ok tt) ltac:(by left)). by rewrite set_store_same in Hkeep. }
  destruct (write control (store w1) f 0 (le_bytes 4 0)) as [st rw] eqn:Hw.
  destruct rw as [u|e]; cbn [fst].
  - eapply (Hkeep (Some c) (executions d)); [by intros x [= ->]|]. right. by exists f.
  - eapply (Hkeep None (executions d)); [done|]. right. by exists f.
Qed.

Lemma end_inv w i outcome : inv w → inv (execute_end w i outcome).1.
Proof.
  intros Hinv. unfold execute_end. destruct (owners w !! i) as [[| | |[a m [|] [c|] last n k]]|] eqn:Hi; try done.
  pose proof (inv_owner _ Hinv i _ Hi) as Hok. destruct (ok_serial _ _ Hok) as (Hs & Hun & Hl). cbn in Hun, Hl.
  destruct (Hun c eq_refl) as [Hp H0].
  pose proof (ok_children _ _ Hok c ltac:(cbn; set_solver)) as Hst. rewrite H0 in Hst.
  destruct (owner_parts _ _ Hok) as (H1 & H2 & H3 & H4 & H5). cbn in H1, H2, H3, H4, H5.
  destruct outcome as [u|e]; cbn [fst]; (eapply inv_replace; [done|exact Hi|apply grows_refl|..]); try done.
  - apply owner_intro; cbn; try done; try (by intros ? ?%elem_of_nil).
    split_and!; [done|done|]. intros bytes [= <-]. by exists (c_page c).
  - apply all_elim; cbn; try done; try (by intros ? ?%elem_of_nil);
      unfold all_buffers, page_buffers, fence_buffers; cbn; intros b ->; left; set_solver.
  - cbn. auto.
  - by apply owner_intro.
  - intros b. unfold all_buffers, page_buffers, fence_buffers. cbn. auto.
  - cbn. auto.
Qed.

Lemma uses_inv w c n : inv w → inv (set_store (set_uses (store w) c n) w).
Proof. intros H. by apply (inv_grow w); [|split|]. Qed.

Lemma batch_step_inv w w' : step w w' → inv w → inv w'.
Proof.
  intros Hs Hinv. destruct Hs.
  - unfold record_batch. destruct pm4; [|done]. apply inv_new; [done|done| |done]. by apply owner_intro; cbn; try done; try (by intros ? ?%elem_of_nil).
  - by apply dispatch_inv.
  - by apply finish_inv.
  - by apply finish_recyclable_inv.
  - by apply record_inv.
  - by apply serial_inv.
  - by apply begin_inv.
  - by apply end_inv.
  - by apply uses_inv.
  - destruct (owners w !! o) as [x|] eqn:Ho; [by eapply drop_inv; [..|apply grows_refl|]|].
    rewrite delete_id by done. by destruct w.
Qed.

Lemma batch_reachable_inv w : reachable w → inv w.
Proof.
  intros (w0 & [Ho Hp] & Hs). assert (inv w0) as H0.
  { split; intros *; rewrite ?Ho, ?Hp; try done. }
  clear Ho Hp. revert H0. induction Hs as [|w1 w2 w3 Hs _ IH]; [done|]. intros H. by eapply IH, batch_step_inv.
Qed.

(** ** Claims *)

(** The arguments of a live command never change: however pages are
    packed, recycled and reset, and whatever fails on the way, the page of
    every child that a recorder, a batch or an uncertain serial call still
    holds has the bytes the child was prepared with at the child's offset. *)
Theorem retained_arguments_are_stable w i o c :
  reachable w → owners w !! i = Some o → c ∈ children_of o →
  0 <= c_offset c ∧ c_offset c + Z.of_nat (length (c_bytes c)) <= len (c_page c) ∧
  read_bytes (contents (store w) (c_page c)) (c_offset c) (Z.of_nat (length (c_bytes c))) = c_bytes c.
Proof. intros Hr Hi Hc. exact (ok_children _ _ (inv_owner _ (batch_reachable_inv _ Hr) i o Hi) c Hc). Qed.

(** The completion fence of a live batch is its own: no other live batch
    completes through it, and no recorder or dispatcher, which would clear
    it, has it, although storage may keep it for reuse. *)
Theorem batch_fences_are_private w i j cs f :
  reachable w → owners w !! i = Some (Batch cs f) → j ≠ i →
  (∀ cs' f', owners w !! j = Some (Batch cs' f') → id_of f' ≠ id_of f) ∧
  (∀ o b, owners w !! j = Some o → b ∈ private_buffers o → id_of b ≠ id_of f).
Proof.
  intros Hr%batch_reachable_inv Hi Hj. split.
  - intros cs' f' Hoj He. apply Hj. by apply (inv_fences _ Hr j i cs' cs f' f).
  - intros o b Hoj Hb. apply (inv_private _ Hr j i o (Batch cs f)); try done.
    unfold all_buffers, fence_buffers. cbn. set_solver.
Qed.

(** A serial dispatcher owns at most one 64 KiB argument page and one
    64-byte fence, and makes no more than those two allocations in its life. *)
Theorem serial_storage_is_bounded w i d n k bytes :
  reachable w → owners w !! i = Some (Serial d) → stats d = (n, k, bytes) →
  0 <= k <= 2 ∧ 0 <= bytes <= 64 * 1024 + 64.
Proof.
  intros Hr Hi [= _ <- <-]. destruct (ok_serial _ _ (inv_owner _ (batch_reachable_inv _ Hr) i _ Hi)) as ((_ & Hp & Hf & ->) & _).
  unfold retained_bytes. destruct (page (s_arena d)) as [p|], (fence (s_arena d)) as [f|]; cbn;
    rewrite ?(Hp _ eq_refl), ?(Hf _ eq_refl); lia.
Qed.

(** A snapshot of a serial dispatcher shows the packed bytes of its last
    successful call. *)
Theorem serial_snapshot_is_last_call w i d expected observed :
  reachable w → owners w !! i = Some (Serial d) → argument_snapshot control w d expected = Ok observed →
  last_bytes d = Some observed.
Proof.
  intros Hr Hi. destruct (ok_serial _ _ (inv_owner _ (batch_reachable_inv _ Hr) i _ Hi)) as (_ & _ & Hl).
  unfold argument_snapshot. destruct (failed d); [done|]. destruct (last_bytes d) as [bytes|]; [|done].
  destruct (Hl bytes eq_refl) as (p & Hp & _ & _ & Hread). destruct expected as [expected|]; [|done]. cbn [result_bind].
  case_match; [done|]. rewrite Hp. cbn [ok_or result_bind]. unfold read.
  assert (good w p) as (_ & _ & Ho)%good_len.
  { apply (ok_good _ _ (inv_owner _ (batch_reachable_inv _ Hr) i _ Hi)). unfold page_buffers. cbn. rewrite Hp. set_solver. }
  destruct (range _ _ _); [|done]. cbn [result_bind]. case_match; [done|].
  destruct (cache_control _ _ _ _ _ _); [|done]. cbn [result_bind]. rewrite Ho, Z.add_0_l, Hread. by intros [= ->].
Qed.
End Theorems.

(** ** Concrete runs *)

Definition demo_page_profile : Profile :=
  mkProfile 19 1 (mkConstruction 0 0 1 0) (mkConstruction 0 65536 1 0) (mkConstruction 0 131072 8 64).
Definition demo_pages : Native :=
  mkNativeApi (Ok tt) (Ok [Ok (mkScope 5 true [(3, demo_page_profile); (0, demo_page_profile)])]) (λ _, Ok [])
    (λ _ _, Ok true) (Ok tt) (Ok (Some 131072)).
Notation on_demo f := (f demo_control demo_pages (λ _, true) (λ _, Gpu) 0%nat).
Notation demo_reachable := (on_demo reachable).

(** A batch is recorded and finished; once it is gone its storage is recycled
    for a second recorder, next to a serial dispatcher. *)
Definition demo_worlds : list (World → World) := [
  (λ w, (record_batch w 0 true).1);
  (λ w, (on_demo dispatch w 0 (Ok [1; 2; 3]) (Ok tt)).1);
  (λ w, (on_demo dispatch w 0 (Ok [7; 8]) (Ok tt)).1);
  (λ w, (on_demo finish_recyclable w 0 1 true true (Ok tt) (Ok tt)).1);
  (λ w, set_owners (delete 1%nat (owners w)) w);
  (λ w, (record demo_control w 0 2).1);
  (λ w, (on_demo dispatch w 2 (Ok [4; 5]) (Ok tt)).1);
  (λ w, (on_demo finish_recyclable w 2 3 true true (Ok tt) (Ok tt)).1);
  (λ w, (serial_dispatcher w 4 true 256).1);
  (λ w, (on_demo execute_begin w 4 true true (Ok [6; 6; 6]) (Ok tt)).1);
  (λ w, (execute_end w 4 (Ok tt)).1) ].
Definition demo_start : World := mkWorld (mkStore ∅ ∅ ∅) 0 ∅ ∅.
Definition demo_world : World := fold_left (λ w f, f w) demo_worlds demo_start.
Definition demo_owner (i : nat) : Owner := default (Storage empty_arena None) (owners demo_world !! i).
Definition demo_serial : Dispatcher :=
  match demo_owner 4 with Serial d => d | _ => mkDispatcher empty_arena 0 true None None 0 0 end.

Fixpoint runs (w : World) (fs : list (World → World)) : Prop :=
  match fs with [] => True | f :: fs => on_demo step w (f w) ∧ runs (f w) fs end.
Lemma runs_rtc fs w : runs w fs → rtc (on_demo step) w (fold_left (λ w f, f w) fs w).
Proof. revert w. induction fs as [|f fs IH]; intros w; [done|]. intros [Hs Hr]. eapply rtc_l; [done|by apply IH]. Qed.

Lemma demo_world_reachable : demo_reachable demo_world.
Proof.
  exists demo_start. split; [done|]. apply runs_rtc. unfold demo_worlds. cbn [runs].
  split; [by apply S_record_batch|]. do 2 (split; [by apply S_dispatch|]).
  split; [apply S_recyclable; vm_compute; reflexivity|]. split; [by apply S_drop|].
  split; [apply S_record; vm_compute; reflexivity|]. split; [by apply S_dispatch|].
  split; [apply S_recyclable; vm_compute; reflexivity|]. split; [apply S_serial; vm_compute; reflexivity|].
  split; [by apply S_begin|]. split; [by apply S_end|done].
Qed.

Definition demo_fence : Buffer := match demo_owner 3 with Batch _ f => f | _ => demo_buffer end.
Definition demo_child : Child := default (mkChild demo_buffer 0 [] demo_buffer) (head (children_of (demo_owner 3))).

Lemma demo_owner_at i : bool_decide (is_Some (owners demo_world !! i)) = true → owners demo_world !! i = Some (demo_owner i).
Proof. intros [o Ho]%bool_decide_eq_true. unfold demo_owner. by rewrite Ho. Qed.

Lemma retained_arguments_are_stable_witness :
  c_bytes demo_child = [4; 5] ∧
  read_bytes (contents (store demo_world) (c_page demo_child)) (c_offset demo_child) 2 = [4; 5].
Proof.
  assert (c_bytes demo_child = [4; 5]) as Hc by (vm_compute; reflexivity). split; [exact Hc|].
  pose proof (retained_arguments_are_stable _ _ _ _ _ demo_world 3%nat (demo_owner 3) demo_child demo_world_reachable)
    as (_ & _ & H); [apply demo_owner_at; vm_compute; reflexivity|apply list_elem_of_In; vm_compute; by left|].
  rewrite Hc in H. exact H.
Defined.

Lemma batch_fences_are_private_witness : ∀ b, b ∈ private_buffers (demo_owner 4) → id_of b ≠ id_of demo_fence.
Proof.
  destruct (batch_fences_are_private _ _ _ _ _ demo_world 3 4 (children_of (demo_owner 3)) demo_fence demo_world_reachable)
    as [_ H]; [rewrite demo_owner_at; vm_compute; reflexivity|done|].
  intros b Hb. apply (H (demo_owner 4)); [apply demo_owner_at; vm_compute; reflexivity|exact Hb].
Defined.

Lemma serial_storage_is_bounded_witness : 0 <= 2 <= 2 ∧ 0 <= 65600 <= 64 * 1024 + 64.
Proof.
  apply (serial_storage_is_bounded _ _ _ _ _ demo_world 4 demo_serial 1 2 65600 demo_world_reachable);
    [rewrite demo_owner_at; vm_compute; reflexivity|vm_compute; reflexivity].
Defined.

Lemma serial_snapshot_is_last_call_witness : last_bytes demo_serial = Some [6; 6; 6].
Proof.
  apply (serial_snapshot_is_last_call _ _ _ _ _ demo_world 4 demo_serial (Ok [6; 6; 6]) [6; 6; 6] demo_world_reachable);
    [rewrite demo_owner_at; vm_compute; reflexivity|vm_compute; reflexivity].
Defined.
End NativeBatchTheorems.
