(* ===== verification/Pm4.v ===== *)
(** * PM4 command words

    The word encoders of src/src/fabric/queue.rs: [header], [barrier],
    [completion_packet], [pad], the streams of [prepare_inner],
    [prepare_batch_inner_with_fence] and [prepare_wait], the marker of
    src/src/fabric/profile.rs and the splitting of long graphs by
    [batch_ranges].

    A stream is read back by [decode], which follows type-3 packet headers.
    The theorems show that every stream the encoders build is a whole number
    of packets and of eight-word groups, that the completion value is the data
    word of its fence packet, and that the batches of a graph cover its
    commands in order and never exceed the indirect-buffer limit. *)

From S2P Require Import Prelude.
Local Open Scope Z_scope.

Module Pm4.

(** [x as u32] and the two halves of an address. *)
Definition as_u32 (x : Z) : Z := x mod 2 ^ 32.
Definition low_half (address : Z) : Z := as_u32 address.
Definition high_half (address : Z) : Z := as_u32 (Z.shiftr address 32).

(** [header]: [(count - 2) as u32] is shifted within 32 bits. *)
Definition header (opcode count : Z) : Z :=
  Z.lor (Z.lor (Z.shiftl 3 30) (as_u32 (Z.shiftl (as_u32 (count - 2)) 16)))
    (as_u32 (Z.shiftl opcode 8)).

(** [CacheControl]. *)
Inductive CacheControl : Type := Gcr | Gfx9.
Global Instance cache_control_eq_dec : EqDecision CacheControl.
Proof. solve_decision. Defined.

Definition u32_max : Z := 2 ^ 32 - 1.

(** [barrier]. *)
Definition barrier (protocol : CacheControl) : list Z :=
  match protocol with
  | Gfx9 =>
      [header 0x46 2; Z.lor 7 (Z.shiftl 4 8); Z.lor (header 0x58 7) 2;
       foldr Z.lor 0 (Z.shiftl 1 <$> [18; 22; 23; 27; 29]);
       u32_max; 0xff; 0; 0; 0x0a]
  | Gcr =>
      [header 0x46 2; Z.lor 7 (Z.shiftl 4 8); header 0x58 8;
       0; u32_max; 0xff; 0; 0; 0x0a;
       Z.lor 1 (foldr Z.lor 0 (Z.shiftl 1 <$> [4; 5; 7; 8; 9; 14; 15]))]
  end.

(** [completion_packet]: the extended stream and the index of its value. *)
Definition completion_packet (words : list Z) (address : Z) (release : bool) : list Z * nat :=
  let start := length words in
  if release then
    (words ++
       [header 0x49 8;
        Z.lor 0x14 (Z.lor (Z.shiftl 5 8) (foldr Z.lor 0 (Z.shiftl 1 <$> [15; 16; 17; 21])));
        Z.shiftl 1 29; low_half address; high_half address; 1; 0; 0], (start + 5)%nat)
  else
    (words ++
       [header 0x37 5; Z.lor (Z.shiftl 2 8) (Z.shiftl 1 20);
        low_half address; high_half address; 1], (start + 4)%nat).

(** [pad]. *)
Definition pad_count (length : nat) : nat :=
  let count := (8 - length `mod` 8)%nat in if (count =? 1)%nat then (count + 8)%nat else count.
Definition pad (words : list Z) : list Z :=
  let count := pad_count (length words) in
  words ++ header 0x10 (Z.of_nat count) :: replicate (count - 1) 0.

(** The word-level fields of [PreparedInner]. *)
Record Template : Type := mkTemplate {
  words : list Z;
  dispatch_range : nat * nat;
  indirect_words : option (list Z);
  fence_word : nat }.

(** [PreparedGpu::dispatch_words]. *)
Definition dispatch_words (t : Template) : list Z :=
  match indirect_words t with
  | Some indirect => indirect
  | None => take ((dispatch_range t).2 - (dispatch_range t).1) (drop (dispatch_range t).1 (words t))
  end.

(** [Kernel::dispatch_words], after the native encoder filled at most 128
    words and reported their number. *)
Definition checked_dispatch (output : list Z) (count : Z) : Result (list Z) :=
  if 128 <? count then Err (Message "native command output overflow")
  else Ok (take (Z.to_nat count) output).

(** The stream of [prepare_inner] around the words of one dispatch. *)
Definition kernel_template (cache : CacheControl) (release : bool) (dispatch : list Z) (fence : Z)
    : Template :=
  let front := barrier cache in
  let dispatched := front ++ dispatch in
  let '(stream, fence_word) := completion_packet (dispatched ++ barrier cache) fence release in
  mkTemplate (pad stream) (length front, length dispatched) None fence_word.

(** The ring stream of a batch: one INDIRECT_BUFFER packet. *)
Definition indirect_packet (ib_address : Z) (length : nat) : list Z :=
  [header 0x3f 4; low_half ib_address; high_half ib_address;
   Z.lor (as_u32 (Z.of_nat length)) (Z.shiftl 1 23)].
Definition batch_template (cache : CacheControl) (release : bool) (indirect : list Z)
    (ib_address fence : Z) : Template :=
  let front := barrier cache in
  let dispatched := front ++ indirect_packet ib_address (length indirect) in
  let '(stream, fence_word) := completion_packet (dispatched ++ barrier cache) fence release in
  mkTemplate (pad stream) (length front, length dispatched) (Some indirect) fence_word.

(** The stream of [prepare_wait] on a PM4 queue. *)
Definition wait_template (cache : CacheControl) (release : bool) (address value output : Z)
    : Template :=
  let front :=
    [header 0x3c 7; Z.lor 5 (Z.shiftl 1 4); low_half address; high_half address; value; u32_max; 4]
      ++ barrier cache in
  let '(stream, fence_word) := completion_packet front output release in
  mkTemplate (pad stream) (0%nat, length front) None fence_word.

(** The padding [dispatch_one] puts at the end of the ring when a stream does
    not fit before it; [cursor] is the producer position in the ring. *)
Definition wrap_words (capacity cursor length : Z) : Z :=
  if capacity - cursor <? length then capacity - cursor else 0.

(** [MarkerApi::emit], after the native marker filled a 32-word packet and
    returned its status and count. *)
Definition emit (marker : Z → Z * list Z * Z) (address : Z) : Result (list Z) :=
  let '(status, packet, count) := marker address in
  if negb (status =? 0) || (count =? 0) || (32 <? count)
  then Err (Unsupported "GPU timestamp marker unavailable")
  else Ok (take (Z.to_nat count) packet).

(** One iteration of the loop of [prepare_batch_inner_with_fence] over its
    word stream; [profile] carries the marker and the timestamp address. *)
Definition batch_command (cache : CacheControl) (profile : option ((Z → Z * list Z * Z) * Z))
    (slot : Z) (dispatch : list Z) (dependency : bool) (indirect : list Z) : Result (list Z) :=
  let indirect := if dependency then indirect ++ barrier cache else indirect in
  match profile with
  | None => Ok (indirect ++ dispatch)
  | Some (marker, address) =>
      let? first := emit marker (address + slot * 16) in
      let? second := emit marker (address + slot * 16 + 8) in
      Ok (indirect ++ barrier cache ++ first ++ dispatch ++ barrier cache ++ second)
  end.
Fixpoint batch_stream (cache : CacheControl) (profile : option ((Z → Z * list Z * Z) * Z))
    (slot : Z) (commands : list (list Z * bool)) (indirect : list Z) : Result (list Z) :=
  match commands with
  | [] => Ok indirect
  | (dispatch, dependency) :: rest =>
      let? indirect := batch_command cache profile slot dispatch dependency indirect in
      batch_stream cache profile (slot + 1) rest indirect
  end.

Definition INDIRECT_WORD_LIMIT : Z := 2 ^ 20.

(** The indirect words of [prepare_batch_inner_with_fence], with its checks. *)
Definition indirect_stream (cache : CacheControl) (profile : option ((Z → Z * list Z * Z) * Z))
    (profile_start : Z) (commands : list (list Z * bool)) : Result (list Z) :=
  match commands with
  | [] => Err (Message "empty native command batch")
  | _ =>
      let? indirect := batch_stream cache profile profile_start commands [] in
      let indirect := pad indirect in
      if INDIRECT_WORD_LIMIT <=? Z.of_nat (length indirect)
      then Err (Unsupported "native batch exceeds indirect command capacity")
      else Ok indirect
  end.

(** [batch_ranges]: the size charged to one command, and the loop. *)
Definition charge (profiled : bool) (command : Z * bool) : option Z :=
  n ← checked_add command.1 (if command.2 then 10 else 0);
  n ← checked_add n (if profiled then 2 * (10 + 32) else 0);
  if n <? INDIRECT_WORD_LIMIT - 9 then Some n else None.
Fixpoint ranges_from (profiled : bool) (commands : list (Z * bool)) (start stop size : Z)
    (ranges : list (Z * Z)) : Result (list (Z * Z)) :=
  match commands with
  | [] => Ok (if start =? stop then ranges else ranges ++ [(start, stop)])
  | command :: rest =>
      match charge profiled command with
      | None => Err (Unsupported "native command exceeds indirect command capacity")
      | Some n =>
          if INDIRECT_WORD_LIMIT - 9 <=? size + n
          then ranges_from profiled rest stop (stop + 1) n (ranges ++ [(start, stop)])
          else ranges_from profiled rest start (stop + 1) (size + n) ranges
      end
  end.
Definition batch_ranges (commands : list (Z * bool)) (profiled : bool) : Result (list (Z * Z)) :=
  ranges_from profiled commands 0 0 0 [].

(** ** Reading a stream back *)

(** A type-3 packet: its opcode, the low flag bits of its header, its body. *)
Record Packet : Type := mkPacket { opcode : Z; flags : Z; body : list Z }.

Definition is_u32 (w : Z) : Prop := 0 <= w < 2 ^ 32.
Definition packet_wf (p : Packet) : Prop :=
  0 <= opcode p < 256 ∧ 0 <= flags p < 256 ∧
  1 <= Z.of_nat (length (body p)) <= 2 ^ 14 ∧ Forall is_u32 (body p).

Definition encode (p : Packet) : list Z :=
  Z.lor (header (opcode p) (Z.of_nat (length (body p)) + 1)) (flags p) :: body p.

(** Read one header: type, count, opcode and flags are bits 30-31, 16-29, 8-15
    and 0-7; the body is one word longer than the count. *)
Definition read_packet (words : list Z) : option (Packet * list Z) :=
  match words with
  | [] => None
  | w :: rest =>
      let n := Z.to_nat ((w / 2 ^ 16) mod 2 ^ 14 + 1) in
      if (w / 2 ^ 30 =? 3) && (n <=? length rest)%nat
      then Some (mkPacket ((w / 2 ^ 8) mod 2 ^ 8) (w mod 2 ^ 8) (take n rest), drop n rest)
      else None
  end.
Fixpoint decode_fuel (fuel : nat) (words : list Z) : option (list Packet) :=
  match words, fuel with
  | [], _ => Some []
  | _, O => None
  | _, S fuel => '(p, rest) ← read_packet words; ps ← decode_fuel fuel rest; Some (p :: ps)
  end.
Definition decode (words : list Z) : option (list Packet) := decode_fuel (length words) words.

(** The words are exactly the encoding of these packets. *)
Definition stream (words : list Z) (ps : list Packet) : Prop :=
  words = ps ≫= encode ∧ Forall packet_wf ps.

Lemma lor_shift a b n : 0 <= n → 0 <= b < 2 ^ n → Z.lor (Z.shiftl a n) b = a * 2 ^ n + b.
Proof.
  intros Hn Hb. assert (Z.land (Z.shiftl a n) b = 0) as Hland.
  { apply Z.bits_inj'. intros i Hi. rewrite Z.land_spec, Z.bits_0.
    destruct (decide (i < n)); [by rewrite Z.shiftl_spec_low by lia|].
    rewrite <-(Z.mod_small b (2 ^ n)), (Z.mod_pow2_bits_high b n i) by lia. by rewrite andb_false_r. }
  rewrite <-Z.lxor_lor, <-Z.add_nocarry_lxor by done. by rewrite Z.shiftl_mul_pow2.
Qed.

Lemma header_sum op count :
  0 <= op < 256 → 2 <= count < 2 ^ 14 + 2 →
  header op count = 3 * 2 ^ 30 + (count - 2) * 2 ^ 16 + op * 2 ^ 8.
Proof.
  intros Ho Hc. unfold header, as_u32. rewrite (Z.mod_small (count - 2)) by lia.
  rewrite !(Z.mod_small (Z.shiftl _ _)) by (rewrite Z.shiftl_mul_pow2; lia).
  rewrite (lor_shift 3 _ 30), (Z.shiftl_mul_pow2 _ 16) by (rewrite ?Z.shiftl_mul_pow2; lia).
  replace (3 * 2 ^ 30 + (count - 2) * 2 ^ 16)
    with (Z.shiftl (3 * 2 ^ 14 + (count - 2)) 16) by (rewrite Z.shiftl_mul_pow2; lia).
  rewrite lor_shift, ?Z.shiftl_mul_pow2 by (rewrite ?Z.shiftl_mul_pow2; lia). lia.
Qed.

Lemma encode_head p :
  packet_wf p →
  encode p = (3 * 2 ^ 30 + (Z.of_nat (length (body p)) - 1) * 2 ^ 16 + opcode p * 2 ^ 8 + flags p) :: body p.
Proof.
  intros (Ho & Hf & Hl & _). unfold encode. f_equal. rewrite header_sum by lia.
  replace (3 * 2 ^ 30 + _ + opcode p * 2 ^ 8)
    with (Z.shiftl (3 * 2 ^ 22 + (Z.of_nat (length (body p)) - 1) * 2 ^ 8 + opcode p) 8)
    by (rewrite Z.shiftl_mul_pow2; lia).
  rewrite lor_shift by lia. lia.
Qed.

Lemma encode_u32 p : packet_wf p → Forall is_u32 (encode p).
Proof.
  intros Hp. rewrite (encode_head p Hp). destruct Hp as (Ho & Hf & Hl & Hb).
  constructor; [unfold is_u32; lia|done].
Qed.

Lemma read_packet_encode p rest :
  packet_wf p → read_packet (encode p ++ rest) = Some (p, rest).
Proof.
  intros Hp. rewrite (encode_head p Hp). destruct Hp as (Ho & Hf & Hl & _).
  cbn [app read_packet]. set (w := 3 * 2 ^ 30 + _ + _ + _).
  assert (w / 2 ^ 30 = 3 ∧ (w / 2 ^ 16) mod 2 ^ 14 = Z.of_nat (length (body p)) - 1 ∧
          (w / 2 ^ 8) mod 2 ^ 8 = opcode p ∧ w mod 2 ^ 8 = flags p) as (-> & -> & -> & ->).
  { subst w. Z.to_euclidean_division_equations. lia. }
  rewrite Z.sub_add, Nat2Z.id, length_app, (proj2 (Nat.leb_le _ _)) by lia. simpl.
  rewrite take_app_length, drop_app_length. by destruct p.
Qed.

Lemma decode_fuel_stream ps fuel :
  Forall packet_wf ps → (length (ps ≫= encode) ≤ fuel)%nat → decode_fuel fuel (ps ≫= encode) = Some ps.
Proof.
  intros Hps. revert fuel. induction Hps as [|p ps Hp Hps IH]; intros fuel Hf; [by destruct fuel|].
  rewrite bind_cons in Hf |- *. rewrite length_app in Hf.
  destruct fuel as [|fuel]; [simpl in Hf; lia|].
  pose proof (read_packet_encode p (ps ≫= encode) Hp) as Hr.
  destruct (encode p ++ (ps ≫= encode)) as [|w ws] eqn:E; [done|].
  cbn [decode_fuel]. rewrite Hr. cbn. rewrite IH; [done|]. simpl in Hf. lia.
Qed.

Lemma decode_stream words ps : stream words ps → decode words = Some ps.
Proof. intros [-> Hps]. by apply decode_fuel_stream. Qed.

Lemma stream_app w1 w2 p1 p2 : stream w1 p1 → stream w2 p2 → stream (w1 ++ w2) (p1 ++ p2).
Proof.
  intros [-> H1] [-> H2]. split; [by rewrite bind_app|]. by apply Forall_app.
Qed.

Lemma stream_u32 words ps : stream words ps → Forall is_u32 words.
Proof.
  intros [-> Hps]. induction Hps as [|p ps Hp _ IH]; [constructor|].
  rewrite bind_cons. apply Forall_app. split; [by apply encode_u32|done].
Qed.

#[export] Hint Resolve stream_app stream_u32 : hrx.

(** ** The streams of the encoders *)

Global Instance is_u32_dec w : Decision (is_u32 w).
Proof. unfold is_u32. apply _. Defined.
Global Instance packet_wf_dec p : Decision (packet_wf p).
Proof. unfold packet_wf. apply _. Defined.

Definition barrier_packets (cache : CacheControl) : list Packet :=
  mkPacket 0x46 0 [0x407] ::
  match cache with
  | Gfx9 => [mkPacket 0x58 2 [0x28c40000; u32_max; 0xff; 0; 0; 0x0a]]
  | Gcr => [mkPacket 0x58 0 [0; u32_max; 0xff; 0; 0; 0x0a; 0xc3b1]]
  end.
(** The packet that stores [value] at [address]. *)
Definition completion (address value : Z) (release : bool) : Packet :=
  if release
  then mkPacket 0x49 0 [0x238514; 0x20000000; low_half address; high_half address; value; 0; 0]
  else mkPacket 0x37 0 [0x100200; low_half address; high_half address; value].
Definition nop (count : nat) : Packet := mkPacket 0x10 0 (replicate (count - 1) 0).

Lemma as_u32_u32 x : is_u32 (as_u32 x).
Proof. apply Z.mod_pos_bound. lia. Qed.

(** Compare words one by one. *)
Ltac words_eq :=
  cbn [mbind list_bind encode body opcode flags length app];
  repeat match goal with |- _ :: _ = _ :: _ => f_equal end; reflexivity.

Lemma barrier_stream cache : stream (barrier cache) (barrier_packets cache).
Proof.
  destruct cache; (split; [vm_compute; reflexivity|]);
    apply (bool_decide_unpack _); vm_compute; exact I.
Qed.

Lemma completion_wf address value release : is_u32 value → packet_wf (completion address value release).
Proof.
  intros Hv. destruct release; (split_and!; [simpl; lia..|]);
    repeat (constructor; [first [done|apply as_u32_u32|unfold is_u32; lia]|]); constructor.
Qed.

Lemma pad_count_bounds n : (2 ≤ pad_count n ≤ 9)%nat ∧ ((n + pad_count n) mod 8 = 0)%nat.
Proof.
  unfold pad_count. pose proof (Nat.mod_upper_bound n 8 ltac:(lia)) as Hm.
  pose proof (Nat.div_mod n 8 ltac:(lia)) as Hd.
  destruct (_ =? _)%nat eqn:E; to_prop; (split; [lia|]).
  - replace (n + _)%nat with ((n / 8 + 2) * 8)%nat by lia. apply Nat.Div0.mod_mul.
  - replace (n + _)%nat with ((n / 8 + 1) * 8)%nat by lia. apply Nat.Div0.mod_mul.
Qed.

Lemma length_pad w : length (pad w) = (length w + pad_count (length w))%nat.
Proof.
  unfold pad. rewrite length_app. simpl. rewrite length_replicate.
  pose proof (pad_count_bounds (length w)). lia.
Qed.

Lemma pad_stream w ps : stream w ps → stream (pad w) (ps ++ [nop (pad_count (length w))]).
Proof.
  intros Hs. apply stream_app; [done|]. pose proof (pad_count_bounds (length w)) as [Hp _].
  split.
  - simpl. unfold encode. simpl. rewrite length_replicate, app_nil_r, Z.lor_0_r. do 3 f_equal. lia.
  - constructor; [|constructor]. split_and!; simpl; rewrite ?length_replicate; try lia.
    apply Forall_replicate. unfold is_u32. lia.
Qed.

Lemma pad_insert w i v : (i < length w)%nat → pad (<[i := v]> w) = <[i := v]> (pad w).
Proof. intros Hi. unfold pad. by rewrite length_insert, insert_app_l. Qed.

(** A front part closed by its completion packet and padding. *)
Section Closed.
Context (front : list Z) (ps : list Packet) (address : Z) (release : bool).
Hypothesis Hfront : stream front ps.
Let stream_of : list Z := (completion_packet front address release).1.
Let index : nat := (completion_packet front address release).2.

Lemma completion_published value :
  is_u32 value →
  stream (<[index := value]> stream_of) (ps ++ [completion address value release]) ∧
  (index < length stream_of)%nat.
Proof using Hfront.
  intros Hv. pose proof (completion_wf address value release Hv) as Hwf.
  subst stream_of index. unfold completion_packet, completion in *.
  destruct release; simpl; rewrite length_app; simpl; (split; [|lia]).
  all: rewrite insert_app_r; apply stream_app; [done|]; split; [words_eq|].
  all: by constructor.
Qed.

Lemma closed_published value :
  is_u32 value →
  stream (<[index := value]> (pad stream_of))
    (ps ++ [completion address value release; nop (pad_count (length stream_of))]) ∧
  (index < length (pad stream_of))%nat ∧ (length (pad stream_of) mod 8 = 0)%nat.
Proof using Hfront.
  intros Hv. destruct (completion_published value Hv) as [Hs Hi].
  split_and!.
  - rewrite <-pad_insert by done. apply pad_stream in Hs. rewrite length_insert in Hs.
    by rewrite <-app_assoc in Hs.
  - rewrite length_pad. lia.
  - rewrite length_pad. apply pad_count_bounds.
Qed.

Lemma closed_index : pad stream_of !! index = Some 1.
Proof.
  subst stream_of index. unfold completion_packet, pad.
  destruct release; simpl; rewrite <-!app_assoc, lookup_app_r by lia;
    (rewrite Nat.add_comm, Nat.add_sub); done.
Qed.
End Closed.

Lemma indirect_packet_stream address n :
  Z.of_nat n < INDIRECT_WORD_LIMIT →
  stream (indirect_packet address n)
    [mkPacket 0x3f 0 [low_half address; high_half address; Z.of_nat n + 2 ^ 23]].
Proof.
  intros Hn. unfold INDIRECT_WORD_LIMIT in Hn. split.
  - unfold indirect_packet, as_u32. rewrite Z.mod_small, Z.lor_comm by lia.
    rewrite lor_shift, Z.mul_1_l, Z.add_comm by lia. words_eq.
  - constructor; [|constructor]. split_and!; simpl; try lia.
    repeat (constructor; [first [apply as_u32_u32|unfold is_u32; lia]|]). constructor.
Qed.

Definition wait_packet (address value : Z) : Packet :=
  mkPacket 0x3c 0 [0x15; low_half address; high_half address; value; u32_max; 4].
Lemma wait_packet_stream address value :
  is_u32 value →
  stream [header 0x3c 7; Z.lor 5 (Z.shiftl 1 4); low_half address; high_half address; value; u32_max; 4]
    [wait_packet address value].
Proof.
  intros Hv. split; [words_eq|]. constructor; [|constructor].
  split_and!; simpl; try lia.
  repeat (constructor; [first [done|apply as_u32_u32|unfold is_u32, u32_max; lia]|]). constructor.
Qed.

Lemma read_packet_inv words p rest :
  Forall is_u32 words → read_packet words = Some (p, rest) →
  words = encode p ++ rest ∧ packet_wf p ∧ Forall is_u32 rest.
Proof.
  intros Hw. destruct Hw as [|w ws Hu Hws]; [done|]. cbn [read_packet].
  set (n := Z.to_nat ((w / 2 ^ 16) mod 2 ^ 14 + 1)). destruct (_ && _) eqn:E; [|done]. to_prop.
  intros [= <- <-]. pose proof (Z.mod_pos_bound (w / 2 ^ 16) (2 ^ 14) ltac:(lia)) as Hn.
  assert (length (take n ws) = n) as Hlen by (rewrite length_take; lia).
  match goal with |- context [encode ?p] => assert (packet_wf p) as Hwf end.
  { split_and!; cbn [opcode flags body]; rewrite ?Hlen.
    1-4: pose proof (Z.mod_pos_bound (w / 2 ^ 8) (2 ^ 8) ltac:(lia));
         pose proof (Z.mod_pos_bound w (2 ^ 8) ltac:(lia)); lia.
    1-2: subst n; lia. by apply Forall_take. }
  split_and!; [|done|by apply Forall_drop]. rewrite (encode_head _ Hwf).
  cbn [opcode flags body app]. rewrite take_drop, Hlen. f_equal. subst n.
  rewrite Z2Nat.id, Z.add_simpl_r by lia. unfold is_u32 in Hu. clear Hwf Hlen Hn.
  Z.to_euclidean_division_equations. lia.
Qed.

Lemma decode_fuel_sound fuel words ps :
  Forall is_u32 words → decode_fuel fuel words = Some ps → stream words ps.
Proof.
  revert words ps. induction fuel as [|fuel IH]; intros [|w ws] ps Hw; cbn [decode_fuel].
  1,3: by intros [= <-]; repeat constructor. 1: done.
  destruct (read_packet (w :: ws)) as [[p rest]|] eqn:E; [|done]. cbn.
  destruct (read_packet_inv _ _ _ Hw E) as (-> & Hp & Hr).
  destruct (decode_fuel fuel rest) as [qs|] eqn:Ed; [|done]. cbn. intros [= <-].
  destruct (IH _ _ Hr Ed) as [-> Hqs]. split; [done|by constructor].
Qed.

Lemma decode_iff_stream words ps :
  Forall is_u32 words → decode words = Some ps ↔ stream words ps.
Proof. intros Hw. split; [by apply decode_fuel_sound|apply decode_stream]. Qed.

(** The words copied into the ring for one submission of a template, with its
    completion value ([PreparedGpu::dispatch_one]). *)
Definition published (t : Template) (value : Z) : list Z := <[fence_word t := value]> (words t).

Section Templates.
Context (cache : CacheControl) (release : bool).
Let bar := barrier_packets cache.

Lemma kernel_template_closed dispatch dps fence value :
  stream dispatch dps → is_u32 value →
  let t := kernel_template cache release dispatch fence in
  (∃ n, stream (published t value)
          (bar ++ dps ++ bar ++ [completion fence value release; nop n])) ∧
  (fence_word t < length (words t))%nat ∧ (length (words t) mod 8 = 0)%nat ∧
  words t !! fence_word t = Some 1.
Proof.
  intros Hd Hv. cbv zeta. unfold kernel_template, published.
  destruct (completion_packet _ fence release) as [w i] eqn:E. cbn [words fence_word].
  assert (stream ((barrier cache ++ dispatch) ++ barrier cache) ((bar ++ dps) ++ bar)) as Hf
    by (repeat apply stream_app; auto using barrier_stream).
  pose proof (closed_published _ _ fence release Hf value Hv) as (Hs & Hi & Hm).
  pose proof (closed_index ((barrier cache ++ dispatch) ++ barrier cache) fence release) as H1.
  rewrite E in Hs, Hi, Hm, H1. split_and!; try done. eexists. by rewrite <-!app_assoc in Hs.
Qed.

Lemma batch_template_closed indirect address fence value :
  Z.of_nat (length indirect) < INDIRECT_WORD_LIMIT → is_u32 value →
  let t := batch_template cache release indirect address fence in
  (∃ n, stream (published t value)
          (bar ++ [mkPacket 0x3f 0 [low_half address; high_half address; Z.of_nat (length indirect) + 2 ^ 23]]
             ++ bar ++ [completion fence value release; nop n])) ∧
  (fence_word t < length (words t))%nat ∧ (length (words t) mod 8 = 0)%nat ∧
  words t !! fence_word t = Some 1.
Proof.
  intros Hn Hv. apply indirect_packet_stream with (address := address) in Hn.
  pose proof (kernel_template_closed _ _ fence value Hn Hv) as Hk. revert Hk.
  unfold kernel_template, batch_template, published.
  by destruct (completion_packet _ fence release).
Qed.

Lemma wait_template_closed address point output value :
  is_u32 point → is_u32 value →
  let t := wait_template cache release address point output in
  (∃ n, stream (published t value)
          ([wait_packet address point] ++ bar ++ [completion output value release; nop n])) ∧
  (fence_word t < length (words t))%nat ∧ (length (words t) mod 8 = 0)%nat ∧
  words t !! fence_word t = Some 1.
Proof.
  intros Hp Hv. cbv zeta. unfold wait_template, published.
  destruct (completion_packet _ output release) as [w i] eqn:E. cbn [words fence_word].
  pose proof (stream_app _ _ _ _ (wait_packet_stream address point Hp) (barrier_stream cache)) as Hf.
  pose proof (closed_published _ _ output release Hf value Hv) as (Hs & Hi & Hm).
  pose proof (closed_index
    ([header 0x3c 7; Z.lor 5 (Z.shiftl 1 4); low_half address; high_half address; point; u32_max; 4]
      ++ barrier cache) output release) as H1.
  rewrite E in Hs, Hi, Hm, H1. split_and!; try done. eexists. by rewrite <-!app_assoc in Hs.
Qed.

(** The words another batch may embed: those of the dispatch alone, or the
    indirect words of a batch. *)
Lemma kernel_dispatch_words dispatch fence :
  dispatch_words (kernel_template cache release dispatch fence) = dispatch.
Proof.
  unfold kernel_template. destruct (completion_packet _ fence release) as [w i] eqn:E.
  unfold dispatch_words. cbn [indirect_words dispatch_range words fst snd].
  assert (∃ k, pad w = barrier cache ++ dispatch ++ k) as [k ->].
  { unfold completion_packet in E. unfold pad. destruct release; injection E as <- _;
      rewrite <-!app_assoc; eauto. }
  rewrite drop_app_length, length_app. replace (_ + _ - _)%nat with (length dispatch) by lia.
  apply take_app_length.
Qed.

Lemma batch_dispatch_words indirect address fence :
  dispatch_words (batch_template cache release indirect address fence) = indirect.
Proof. unfold batch_template. by destruct (completion_packet _ fence release). Qed.
End Templates.

(** ** Batches of a graph *)

(** Consecutive nonempty ranges from [start] to [stop]. *)
Fixpoint tiles (start stop : Z) (ranges : list (Z * Z)) : Prop :=
  match ranges with
  | [] => start = stop
  | (a, b) :: rest => a = start ∧ a < b ∧ tiles b stop rest
  end.

Lemma tiles_snoc start mid stop ranges :
  tiles start mid ranges → mid < stop → tiles start stop (ranges ++ [(mid, stop)]).
Proof.
  revert start. induction ranges as [|[a b] rest IH]; simpl; intros start Ht Hlt.
  - by subst.
  - destruct Ht as (-> & Hab & Ht). split_and!; auto.
Qed.

(** The commands of a range. *)
Definition part {A} (commands : list A) (range : Z * Z) : list A :=
  take (Z.to_nat (range.2 - range.1)) (drop (Z.to_nat range.1) commands).

Lemma tiles_part {A} (commands : list A) start ranges :
  0 <= start → tiles start (Z.of_nat (length commands)) ranges →
  ranges ≫= part commands = drop (Z.to_nat start) commands.
Proof.
  revert start. induction ranges as [|[a b] rest IH]; intros start H0; cbn [tiles].
  - intros ->. rewrite Nat2Z.id, drop_all. done.
  - intros (-> & Hab & Ht). rewrite bind_cons, (IH b) by (done || lia). unfold part.
    cbn [fst snd]. rewrite <-(take_drop (Z.to_nat (b - start)) (drop (Z.to_nat start) commands)) at 2.
    rewrite drop_drop. do 2 f_equal. lia.
Qed.

Lemma tiles_nonempty {A} (commands : list A) start ranges range :
  0 <= start → tiles start (Z.of_nat (length commands)) ranges → range ∈ ranges →
  part commands range ≠ [].
Proof.
  intros H0 Ht Hin. assert (0 <= range.1 < range.2 ∧ range.2 <= Z.of_nat (length commands)) as Hr.
  { revert start H0 Ht. induction ranges as [|[a b] rest IH]; [by apply elem_of_nil in Hin|].
    intros start H0 (-> & Hab & Ht). apply elem_of_cons in Hin as [->|Hin].
    - cbn [fst snd]. split; [lia|]. clear IH.
      revert b Hab Ht. induction rest as [|[c d] rest IH]; cbn [tiles]; intros b Hab Ht; [lia|].
      destruct Ht as (-> & Hcd & Ht). specialize (IH d ltac:(lia) Ht). lia.
    - apply (IH Hin b); [lia|done]. }
  intros Hp. apply (f_equal length) in Hp. unfold part in Hp.
  rewrite length_take, length_drop in Hp. simpl in Hp. lia.
Qed.

(** Words charged to commands. *)
Definition charged (profiled : bool) (command : Z * bool) : Z :=
  command.1 + (if command.2 then 10 else 0) + (if profiled then 84 else 0).

Lemma charge_Some profiled command n :
  charge profiled command = Some n → n = charged profiled command ∧ n < INDIRECT_WORD_LIMIT - 9.
Proof.
  unfold charge, charged. intros H. apply bind_Some in H as (m & Hm & H).
  apply bind_Some in H as (k & Hk & H). apply checked_add_Some in Hm as [-> _].
  apply checked_add_Some in Hk as [-> _]. destruct (_ <? _) eqn:E in H; [|done]. to_prop. simplify_eq. destruct profiled; simpl in *; lia.
Qed.

Section Ranges.
Context (profiled : bool) (commands : list (Z * bool)).
Hypothesis Hpositive : Forall (λ c, 0 <= c.1) commands.

Definition fits (range : Z * Z) : Prop :=
  zsum (charged profiled) (part commands range) < INDIRECT_WORD_LIMIT - 9.

Lemma part_snoc start stop c rest :
  0 <= start <= stop → drop (Z.to_nat stop) commands = c :: rest →
  part commands (start, stop + 1) = part commands (start, stop) ++ [c].
Proof.
  intros Hs Hd. unfold part. cbn [fst snd].
  replace (Z.to_nat (stop + 1 - start)) with (S (Z.to_nat (stop - start))) by lia.
  apply take_S_r. rewrite lookup_drop. replace (_ + _)%nat with (Z.to_nat stop) by lia.
  rewrite <-(Nat.add_0_r (Z.to_nat stop)), <-lookup_drop, Hd. done.
Qed.

Lemma ranges_from_spec rest start stop size acc ranges :
  drop (Z.to_nat stop) commands = rest →
  0 <= start <= stop → stop + Z.of_nat (length rest) = Z.of_nat (length commands) →
  tiles 0 start acc → Forall fits acc →
  size = zsum (charged profiled) (part commands (start, stop)) → size < INDIRECT_WORD_LIMIT - 9 →
  ranges_from profiled rest start stop size acc = Ok ranges →
  tiles 0 (Z.of_nat (length commands)) ranges ∧ Forall fits ranges.
Proof using Hpositive.
  revert start stop size acc. induction rest as [|c rest IH];
    intros start stop size acc Hd Hs Hn Ht Hf Hz Hl; cbn [ranges_from].
  - simpl in Hn. rewrite Z.add_0_r in Hn. rewrite <-Hn. intros [= <-].
    destruct (start =? stop) eqn:E; to_prop; [by subst|].
    split; [apply tiles_snoc; [done|lia]|]. apply Forall_app. split; [done|].
    constructor; [|constructor]. unfold fits. lia.
  - destruct (charge profiled c) as [n|] eqn:Ec; [|done].
    apply charge_Some in Ec as [-> Hc]. simpl in Hn.
    assert (drop (Z.to_nat (stop + 1)) commands = rest) as Hrest.
    { replace (Z.to_nat (stop + 1)) with (Z.to_nat stop + 1)%nat by lia.
      by rewrite <-drop_drop, Hd. }
    assert (stop = start → size = 0) as Hempty.
    { intros ->. rewrite Hz. unfold part. simpl. rewrite Z.sub_diag. done. }
    destruct (_ <=? _) eqn:E; to_prop; intros Hr.
    + eapply (IH stop (stop + 1)) in Hr; eauto; try lia.
      * apply tiles_snoc; [done|]. destruct (decide (start = stop)); [|lia].
        specialize (Hempty ltac:(lia)). lia.
      * apply Forall_app. split; [done|]. constructor; [|constructor]. unfold fits. lia.
      * rewrite (part_snoc stop stop c rest) by (done || lia). rewrite zsum_app.
        unfold part. simpl. rewrite Z.sub_diag. simpl. lia.
    + eapply (IH start (stop + 1)) in Hr; eauto; try lia.
      rewrite (part_snoc start stop c rest) by (done || lia). rewrite zsum_app. simpl. lia.
Qed.

Lemma batch_ranges_spec ranges :
  batch_ranges commands profiled = Ok ranges →
  tiles 0 (Z.of_nat (length commands)) ranges ∧ Forall fits ranges.
Proof using Hpositive.
  intros H. eapply (ranges_from_spec commands 0 0 0 []) in H; eauto; try done.
Qed.

Lemma ranges_from_error rest start stop size acc :
  is_ok (ranges_from profiled rest start stop size acc) = true ↔
  Forall (λ c, is_Some (charge profiled c)) rest.
Proof.
  revert start stop size acc. induction rest as [|c rest IH]; intros; cbn [ranges_from].
  - split; [constructor|done].
  - rewrite Forall_cons. destruct (charge profiled c) as [n|].
    + destruct (_ <=? _); rewrite IH; naive_solver.
    + simpl. split; [done|]. by intros [[? ?] _].
Qed.
End Ranges.

Lemma emit_bound marker a w : emit marker a = Ok w → (length w ≤ 32)%nat.
Proof.
  unfold emit. destruct (marker a) as [[status packet] count]. case_bool; [done|].
  intros [= <-]. rewrite length_take. lia.
Qed.

Lemma barrier_bound cache : (length (barrier cache) ≤ 10)%nat.
Proof. destruct cache; simpl; lia. Qed.

Definition size_of (c : list Z * bool) : Z * bool := (Z.of_nat (length c.1), c.2).

Definition marks (profile : option ((Z → Z * list Z * Z) * Z)) : Prop :=
  match profile with None => True | Some (marker, _) => ∀ a, is_ok (emit marker a) = true end.

Lemma batch_command_bound cache profile slot dispatch dependency indirect :
  marks profile →
  ∃ out, batch_command cache profile slot dispatch dependency indirect = Ok out ∧
    Z.of_nat (length out) <= Z.of_nat (length indirect) +
      charged (bool_decide (is_Some profile)) (size_of (dispatch, dependency)).
Proof.
  intros Hm. pose proof (barrier_bound cache) as Hb. unfold batch_command, charged, size_of.
  destruct profile as [[marker address]|]; cbn [fst snd].
  - rewrite (bool_decide_true (is_Some _)) by done. simpl in Hm.
    destruct (emit marker (address + slot * 16)) as [w1|] eqn:E1;
      [|specialize (Hm (address + slot * 16)); by rewrite E1 in Hm].
    destruct (emit marker (address + slot * 16 + 8)) as [w2|] eqn:E2;
      [|specialize (Hm (address + slot * 16 + 8)); by rewrite E2 in Hm].
    apply emit_bound in E1, E2. eexists. split; [done|].
    rewrite !length_app. destruct dependency; rewrite ?length_app; lia.
  - rewrite bool_decide_false by (by intros [? ?]). eexists. split; [done|].
    destruct dependency; rewrite !length_app; lia.
Qed.

Lemma batch_stream_bound cache profile slot commands indirect :
  marks profile →
  ∃ out, batch_stream cache profile slot commands indirect = Ok out ∧
    Z.of_nat (length out) <= Z.of_nat (length indirect) +
      zsum (charged (bool_decide (is_Some profile))) (size_of <$> commands).
Proof.
  intros Hm. revert slot indirect. induction commands as [|[d b] rest IH]; intros slot indirect.
  - exists indirect. simpl. split; [done|lia].
  - cbn [batch_stream]. destruct (batch_command_bound cache profile slot d b indirect Hm) as (mid & -> & Hmid).
    cbn [result_bind]. destruct (IH (slot + 1) mid) as (out & -> & Hout). exists out. split; [done|].
    rewrite fmap_cons, zsum_cons. lia.
Qed.

Lemma part_fmap {A B} (f : A → B) l r : part (f <$> l) r = f <$> part l r.
Proof. unfold part. by rewrite fmap_take, fmap_drop. Qed.

Lemma fitting_part_prepares cache profile commands range :
  marks profile → part commands range ≠ [] →
  fits (bool_decide (is_Some profile)) (size_of <$> commands) range →
  ∃ indirect, indirect_stream cache profile range.1 (part commands range) = Ok indirect ∧
    Z.of_nat (length indirect) < INDIRECT_WORD_LIMIT.
Proof.
  intros Hm Hne Hf. unfold fits in Hf. rewrite part_fmap in Hf.
  destruct (batch_stream_bound cache profile range.1 (part commands range) [] Hm) as (out & Ho & Hl).
  pose proof (pad_count_bounds (length out)) as [Hp _].
  assert (Z.of_nat (length (pad out)) < INDIRECT_WORD_LIMIT) as Hlen
    by (rewrite length_pad; simpl in Hl; lia).
  exists (pad out). split; [|done]. unfold indirect_stream.
  destruct (part commands range) as [|c cs] eqn:E; [done|]. rewrite Ho. cbn [result_bind].
  by rewrite (proj2 (Z.leb_gt _ _) Hlen).
Qed.

(** ** Theorems *)

(** The type of a prepared stream: 32-bit words, a whole number of eight-word
    groups, and a completion value inside. *)
Definition template_typed (t : Template) : Prop :=
  Forall is_u32 (words t) ∧ (length (words t) mod 8 = 0)%nat ∧
  (fence_word t < length (words t))%nat ∧ Forall is_u32 (dispatch_words t).

Lemma stream_typed t (ps : nat → list Packet) :
  (∃ n, stream (published t 1) (ps n)) →
  (fence_word t < length (words t))%nat ∧ (length (words t) mod 8 = 0)%nat ∧
    words t !! fence_word t = Some 1 →
  Forall is_u32 (dispatch_words t) → template_typed t.
Proof.
  intros [n Hs] (Hi & Hm & H1) Hd. unfold published in Hs. rewrite list_insert_id in Hs by done.
  split_and!; [by eapply stream_u32|done..].
Qed.

(** C37. Every stream the queue prepares is well typed: the streams of a kernel
    dispatch whose native words are packets, of an indirect batch and of a wait
    consist of 32-bit words in whole eight-word groups, the completion value is
    a word of the stream, and so are the words a batch may embed. *)
Theorem prepared_streams_are_typed cache release dispatch dps indirect address fence point :
  Forall is_u32 dispatch → decode dispatch = Some dps →
  Forall is_u32 indirect → Z.of_nat (length indirect) < INDIRECT_WORD_LIMIT → is_u32 point →
  template_typed (kernel_template cache release dispatch fence) ∧
  template_typed (batch_template cache release indirect address fence) ∧
  template_typed (wait_template cache release address point fence).
Proof.
  intros Hu Hd Hi Hl Hp. apply (decode_iff_stream _ _ Hu) in Hd.
  assert (is_u32 1) as H1 by (unfold is_u32; lia).
  destruct (kernel_template_closed cache release _ _ fence 1 Hd H1) as [Hk Hk'].
  destruct (batch_template_closed cache release _ address fence 1 Hl H1) as [Hb Hb'].
  destruct (wait_template_closed cache release address _ fence 1 Hp H1) as [Hw Hw'].
  split_and!.
  - eapply stream_typed; [exact Hk|done|]. by rewrite kernel_dispatch_words.
  - eapply stream_typed; [exact Hb|done|]. by rewrite batch_dispatch_words.
  - eapply stream_typed; [exact Hw|done|]. unfold wait_template, published in *.
    destruct (completion_packet _ fence release) as [w i]. destruct Hw as [n Hs].
    cbn [words fence_word] in *. rewrite list_insert_id in Hs by apply Hw'.
    apply Forall_take, Forall_drop. by eapply stream_u32.
Qed.

(** C36. Reading a published submission back gives its packets and nothing else.
    A dispatch or a batch is the barrier, its work (the packets of the dispatch,
    or one INDIRECT_BUFFER packet with the exact length of the batch), the
    barrier, the packet storing the submission's value at its fence, and
    padding; a wait starts with the packet naming the awaited fence and value,
    and continues with the barrier, the same store and padding. *)
Theorem submissions_decode cache release dispatch dps indirect address fence point value :
  Forall is_u32 dispatch → decode dispatch = Some dps →
  Z.of_nat (length indirect) < INDIRECT_WORD_LIMIT → is_u32 point → is_u32 value →
  let bar := barrier_packets cache in
  let ending n := [completion fence value release; nop n] in
  (∃ n, decode (published (kernel_template cache release dispatch fence) value)
        = Some (bar ++ dps ++ bar ++ ending n)) ∧
  (∃ n, decode (published (batch_template cache release indirect address fence) value)
        = Some (bar ++ [mkPacket 0x3f 0 [low_half address; high_half address;
                                         Z.of_nat (length indirect) + 2 ^ 23]] ++ bar ++ ending n)) ∧
  (∃ n, decode (published (wait_template cache release address point fence) value)
        = Some (wait_packet address point :: bar ++ ending n)).
Proof.
  intros Hu Hd Hl Hp Hv. apply (decode_iff_stream _ _ Hu) in Hd.
  destruct (kernel_template_closed cache release _ _ fence value Hd Hv) as [[n1 Hk] _].
  destruct (batch_template_closed cache release _ address fence value Hl Hv) as [[n2 Hb] _].
  destruct (wait_template_closed cache release address _ fence value Hp Hv) as [[n3 Hw] _].
  split_and!; eexists; apply decode_stream; [exact Hk|exact Hb|exact Hw].
Qed.

(** A graph's batches cover its commands once, in order and without an
    empty batch, and preparing each of them succeeds: its indirect words stay
    below the limit of the size field, so the capacity error cannot occur. *)
Theorem graph_batches_fit cache profile commands ranges :
  batch_ranges (size_of <$> commands) (bool_decide (is_Some profile)) = Ok ranges →
  marks profile →
  ranges ≫= part commands = commands ∧
  ∀ range, range ∈ ranges →
    part commands range ≠ [] ∧
    ∃ indirect, indirect_stream cache profile range.1 (part commands range) = Ok indirect ∧
      Z.of_nat (length indirect) < INDIRECT_WORD_LIMIT.
Proof.
  intros Hr Hm. apply batch_ranges_spec in Hr as [Ht Hf].
  2:{ apply Forall_fmap, Forall_forall. intros c _. simpl. lia. }
  rewrite length_fmap in Ht. split.
  { rewrite (tiles_part commands 0) by done. done. }
  intros range Hin. assert (part commands range ≠ []) as Hne.
  { eapply tiles_nonempty; eauto. lia. }
  split; [done|]. apply fitting_part_prepares; [done..|]. by eapply Forall_forall.
Qed.

(** ** Witnesses *)

Definition demo_packet : Packet := mkPacket 0x15 0 [4; 1; 1; 1].
Definition demo_dispatch : list Z := encode demo_packet.
Definition demo_marker (address : Z) : Z * list Z * Z := (0, [header 0x40 2; low_half address], 2).

Lemma prepared_streams_are_typed_witness :
  template_typed (kernel_template Gcr true demo_dispatch 4096) ∧
  template_typed (batch_template Gcr true (pad demo_dispatch) 8192 4096) ∧
  template_typed (wait_template Gcr true 8192 3 4096).
Proof.
  apply (prepared_streams_are_typed Gcr true demo_dispatch [demo_packet]).
  - by apply (bool_decide_unpack _).
  - reflexivity.
  - by apply (bool_decide_unpack _).
  - reflexivity.
  - split; [discriminate|reflexivity].
Defined.

Lemma submissions_decode_witness :
  ∃ n, decode (published (kernel_template Gfx9 false demo_dispatch 4096) 7)
       = Some (barrier_packets Gfx9 ++ [demo_packet] ++ barrier_packets Gfx9
                 ++ [completion 4096 7 false; nop n]).
Proof.
  apply (submissions_decode Gfx9 false demo_dispatch [demo_packet] [] 0 4096 0 7).
  - by apply (bool_decide_unpack _).
  - reflexivity.
  - reflexivity.
  - split; [discriminate|reflexivity].
  - split; [discriminate|reflexivity].
Defined.

Lemma graph_batches_fit_witness :
  [(0, 2)] ≫= part [(demo_dispatch, false); (demo_dispatch, true)]
    = [(demo_dispatch, false); (demo_dispatch, true)].
Proof.
  apply (graph_batches_fit Gcr (Some (demo_marker, 0)) [(demo_dispatch, false); (demo_dispatch, true)]).
  - vm_compute. reflexivity.
  - intros a. reflexivity.
Defined.

(** A graph longer than one indirect buffer is split before the command that
    would overflow it. *)
Example split_long_graph :
  batch_ranges [(600000, false); (400000, true); (100000, true)] false = Ok [(0, 2); (2, 3)].
Proof. vm_compute. reflexivity. Qed.

Example oversized_command :
  batch_ranges [(2 ^ 20 - 9, false)] false
    = Err (Unsupported "native command exceeds indirect command capacity").
Proof. vm_compute. reflexivity. Qed.
End Pm4.
