(* ===== verification/Sdma.v ===== *)
(** * SDMA transfers

    The SDMA side of native queues: src/src/fabric/queue/sdma.rs and the
    splitting of transfers in src/src/fabric/queue.rs ([transfer_range],
    [transfer_chunks], [prepare_transfer], [prepare_copy], [prepare_fill]).

    A command stream is read back by [decode] as a list of engine operations,
    whose effect on device memory is [run].  The theorems show that executing a
    prepared copy or fill changes exactly the requested bytes and the fence,
    that splitting loses no byte, and that every part fits its ring together
    with the padding of a wrap at any cursor. *)

From S2P Require Import Prelude Pm4 HostVisibility.
Import Pm4 HostVisibility.
Local Open Scope Z_scope.

Module Sdma.

(** [transfer_word_budget], [transfer_limit]. *)
Definition transfer_word_budget (ring_bytes : Z) : Z :=
  Z.land (saturating_sub (ring_bytes / 8) 1) (usize_max - 7).
Definition transfer_limit (ring_bytes : Z) : Result Z :=
  let packets := saturating_sub (transfer_word_budget ring_bytes) (10 + 4 + 14) / 7 in
  if packets =? 0 then Err (Unsupported "SDMA ring cannot hold a transfer")
  else Ok (Z.shiftl (Z.min packets (Z.shiftr u32_max 20)) 20).

(** [transfer_chunks]: [(0..length).step_by(limit)] with the remaining size. *)
Fixpoint chunks_from (fuel : nat) (offset length limit : Z) : list (Z * Z) :=
  match fuel with
  | O => []
  | S fuel =>
      if offset <? length
      then (offset, Z.min (length - offset) limit) :: chunks_from fuel (offset + limit) length limit
      else []
  end.
Definition transfer_chunks (length limit : Z) : list (Z * Z) :=
  chunks_from (Z.to_nat (length / limit + 1)) 0 length limit.

(** [transfer_range]. *)
Definition transfer_range (len offset length : Z) : Result unit :=
  if (length =? 0) || match checked_add offset length with None => true | Some stop => len <? stop end
  then Err (Message "native transfer range must be nonempty and in bounds")
  else Ok tt.

(** The reported format features of the queue. *)
Definition FEATURE_USER_GCR : Z := 1.
Definition FEATURE_FENCE_SYSTEM : Z := 2.
Definition FEATURE_MEMORY_SCOPE : Z := 4.
Definition FEATURE_FENCE_MEMORY_TYPE : Z := 8.
Definition has (features flag : Z) : bool := negb (Z.land features flag =? 0).

(** A native allocation: identity, length, device address, host mapping. *)
Record Buffer : Type := mkBuffer { identity : nat; len : Z; address : Z; host_mapped : bool }.
Global Instance buffer_eq_dec : EqDecision Buffer.
Proof. solve_decision. Defined.
Definition by_identity (a b : Buffer) : Prop := (identity a <= identity b)%nat.
Global Instance by_identity_dec a b : Decision (by_identity a b).
Proof. unfold by_identity. apply _. Defined.
(** [dedup_by] keeps the first of equal neighbours. *)
Fixpoint dedup (l : list Buffer) : list Buffer :=
  match l with
  | a :: (b :: _) as rest =>
      if (identity a =? identity b)%nat
      then match dedup rest with [] => [a] | _ :: kept => a :: kept end
      else a :: dedup rest
  | _ => l
  end.

(** [MemorySite], seen from the queue's device and family. *)
Inductive MemorySite : Type := Host | Device.

Section Queue.
Context (features ring_bytes : Z).
Context (visibility : Buffer → MemorySite → MemorySite → Result VisibilityFacts).

(** [sdma_scoped], [sdma_cache]. *)
Definition sdma_scoped : bool := has features FEATURE_MEMORY_SCOPE.
Definition sdma_cache (release : bool) : list Z :=
  if has features FEATURE_USER_GCR
  then [Z.lor 17 (Z.shiftl 1 8); 0; Z.shiftl (if release then 0x8040 else 0xc3c0) 16; 0; 0]
  else [].

(** [sdma_visibility]. *)
Definition transition_encodable (t : CacheTransition) : Result unit :=
  if decide (kind t = KUnknown) then Err (Unsupported "SDMA visibility is not qualified")
  else if bool_decide (executor t = XQueue) && negb (bool_decide (kind t = KNone))
          && (negb (bool_decide (kind t = KGlobal)) || negb (has features FEATURE_USER_GCR))
  then Err (Unsupported "SDMA cache transition is not encodable")
  else Ok tt.
Definition site_encodable (buffer : Buffer) (sites : MemorySite * MemorySite) : Result unit :=
  let? plan := visibility buffer sites.1 sites.2 in
  if negb (shared_backing_reachable plan) then Err (Unsupported "SDMA cannot reach shared backing")
  else let? _ := transition_encodable (release plan) in transition_encodable (acquire plan).
Definition sdma_visibility (buffer : Buffer) : Result unit :=
  let sites := if host_mapped buffer then [(Host, Device); (Device, Host)]
               else [(Device, Device); (Device, Device)] in
  foldr (λ s rest, let? _ := site_encodable buffer s in rest) (Ok tt) sites.

(** A prepared SDMA command: the word-level fields and the retained buffers. *)
Record Prepared : Type := mkPrepared { template : Template; buffers : list Buffer; fence : Buffer }.

(** [sdma_prepared]; [fence] is the allocated completion word. *)
Definition next_multiple_of (n m : nat) : nat := ((n + (m - 1)) / m * m)%nat.
Definition fence_header : Z :=
  let header := 5 in
  let header := if has features (Z.lor FEATURE_FENCE_MEMORY_TYPE FEATURE_FENCE_SYSTEM)
                then Z.lor header (Z.shiftl 3 16) else header in
  let header := if has features FEATURE_FENCE_SYSTEM then Z.lor header (Z.shiftl 1 20) else header in
  if sdma_scoped then Z.lor header (Z.shiftl 3 24) else header.
Definition sdma_prepared (words : list Z) (buffers : list Buffer) (fence : Result Buffer)
    : Result Prepared :=
  let? _ := foldr (λ b rest, let? _ := sdma_visibility b in rest) (Ok tt) buffers in
  let? fence := fence in
  let? _ := sdma_visibility fence in
  let words := words ++ sdma_cache true in
  let stop := length words in
  let words := words ++ [fence_header; low_half (address fence); high_half (address fence); 1] in
  let fence_word := (length words - 1)%nat in
  let words := words ++ replicate (next_multiple_of (length words) 8 - length words) 0 in
  if ring_bytes <=? Z.of_nat (length words) * 4
  then Err (Unsupported "prepared SDMA command exceeds queue capacity")
  else Ok (mkPrepared (mkTemplate words (0%nat, stop) None fence_word)
             (dedup (merge_sort by_identity buffers)) fence).

(** The copy packet and the loop of [prepare_sdma_copy]. *)
Definition scope_word : Z := if sdma_scoped then Z.lor (Z.shiftl 3 18) (Z.shiftl 3 26) else 0.
Definition copy_packet (src dst count : Z) : list Z :=
  [1; as_u32 count - 1; scope_word; low_half src; high_half src; low_half dst; high_half dst].
Fixpoint copy_loop (fuel : nat) (src dst remaining : Z) (words : list Z) : option (list Z) :=
  if remaining =? 0 then Some words
  else match fuel with
       | O => None
       | S fuel =>
           let count := Z.min remaining (Z.shiftl 1 20) in
           copy_loop fuel (src + count) (dst + count) (remaining - count)
             (words ++ copy_packet src dst count)
       end.
Definition loop_fuel (length : Z) : nat := Z.to_nat (length / 2 ^ 20 + 1).

(** [prepare_sdma_copy]; [None] would be an exhausted loop. *)
Definition prepare_sdma_copy (destination : Buffer) (destination_offset : Z) (source : Buffer)
    (source_offset length : Z) (fence : Result Buffer) : option (Result Prepared) :=
  match checked_add (address source) source_offset, checked_add (address destination) destination_offset with
  | None, _ => Some (Err (Message "SDMA source address overflow"))
  | _, None => Some (Err (Message "SDMA destination address overflow"))
  | Some src, Some dst =>
      if (src <? saturating_add dst length) && (dst <? saturating_add src length)
      then Some (Err (Message "SDMA copy ranges overlap"))
      else
        words ← copy_loop (loop_fuel length) src dst length (sdma_cache false);
        Some (sdma_prepared words [source; destination] fence)
  end.

(** The fill packet and the loop of [prepare_sdma_fill]. *)
Definition fill_packet (dst value count : Z) : list Z :=
  [Z.lor (Z.lor 11 (Z.shiftl 2 30)) (if sdma_scoped then Z.shiftl 3 24 else 0);
   low_half dst; high_half dst; value * 0x01010101; as_u32 count - 1].
Fixpoint fill_loop (fuel : nat) (dst value remaining : Z) (words : list Z) : option (list Z) :=
  if remaining =? 0 then Some words
  else match fuel with
       | O => None
       | S fuel =>
           let count := Z.min remaining (Z.shiftl 1 20) in
           fill_loop fuel (dst + count) value (remaining - count) (words ++ fill_packet dst value count)
       end.

(** [prepare_sdma_fill]; [pattern] is the allocation holding four copies of
    the byte, made only for unaligned ends. *)
Definition tail_copy (source : Z) (words : list Z) (tail : Z * Z) : list Z :=
  if tail.2 =? 0 then words else words ++ copy_packet source tail.1 tail.2.
Definition prepare_sdma_fill (destination : Buffer) (offset length value : Z)
    (pattern fence : Result Buffer) : option (Result Prepared) :=
  match checked_add (address destination) offset with
  | None => Some (Err (Message "SDMA fill address overflow"))
  | Some start =>
      let prefix := Z.min (Z.land (4 - Z.land start 3) 3) length in
      let middle := Z.land (length - prefix) (usize_max - 3) in
      let suffix := length - prefix - middle in
      let words := sdma_cache false in
      let tails :=
        if negb (prefix =? 0) || negb (suffix =? 0) then
          let? p := pattern in
          Ok (foldl (tail_copy (address p)) words [(start, prefix); (start + (prefix + middle), suffix)],
              [destination; p])
        else Ok (words, [destination]) in
      match tails with
      | Err e => Some (Err e)
      | Ok (words, buffers) =>
          words ← fill_loop (loop_fuel middle) (start + prefix) value middle words;
          Some (sdma_prepared words buffers fence)
      end
  end.

(** [prepare_sdma_wait], for the fence address and value of a completion. *)
Definition prepare_sdma_wait (point_address point : Z) (fence : Result Buffer) : Result Prepared :=
  let words :=
    [Z.lor 8 (Z.lor (Z.shiftl 5 28) (Z.shiftl 1 31)); low_half point_address; high_half point_address;
     point; u32_max; Z.lor (Z.lor (Z.shiftl 0xfff 16) 4) (if sdma_scoped then Z.shiftl 3 28 else 0)] in
  sdma_prepared (words ++ sdma_cache false) [] fence.

(** [prepare_transfer] on an SDMA queue: the parts in publication order; the
    last one carries the others as its prefix. *)
Fixpoint prepare_parts (prepare : Z → Z → option (Result Prepared)) (chunks : list (Z * Z))
    : option (Result (list Prepared)) :=
  match chunks with
  | [] => Some (Ok [])
  | (offset, bytes) :: rest =>
      part ← prepare offset bytes;
      match part with
      | Err e => Some (Err e)
      | Ok part => parts ← prepare_parts prepare rest; Some (result_map (cons part) parts)
      end
  end.
Definition prepare_transfer (length : Z) (prepare : Z → Z → option (Result Prepared))
    : option (Result (list Prepared)) :=
  match transfer_limit ring_bytes with
  | Err e => Some (Err e)
  | Ok limit => prepare_parts prepare (if length <=? limit then [(0, length)] else transfer_chunks length limit)
  end.

(** [prepare_copy], [prepare_copy_part]; [fences] gives the allocation made
    for the part at each offset. *)
Definition prepare_copy (destination : Buffer) (destination_offset : Z) (source : Buffer)
    (source_offset length : Z) (fences : Z → Result Buffer) : option (Result (list Prepared)) :=
  match transfer_range (len destination) destination_offset length,
        transfer_range (len source) source_offset length,
        checked_add (address destination) destination_offset,
        checked_add (address source) source_offset with
  | Err e, _, _, _ | _, Err e, _, _ => Some (Err e)
  | _, _, None, _ | _, _, _, None => Some (Err (Message "copy address overflow"))
  | Ok _, Ok _, Some dst, Some src =>
      if (dst <? saturating_add src length) && (src <? saturating_add dst length)
      then Some (Err (Message "native copy ranges overlap"))
      else prepare_transfer length (λ offset bytes,
        match transfer_range (len destination) (destination_offset + offset) bytes,
              transfer_range (len source) (source_offset + offset) bytes with
        | Err e, _ | _, Err e => Some (Err e)
        | Ok _, Ok _ =>
            prepare_sdma_copy destination (destination_offset + offset) source
              (source_offset + offset) bytes (fences offset)
        end)
  end.

(** [prepare_fill], [prepare_fill_part]. *)
Definition prepare_fill (destination : Buffer) (offset length value : Z)
    (patterns fences : Z → Result Buffer) : option (Result (list Prepared)) :=
  match transfer_range (len destination) offset length with
  | Err e => Some (Err e)
  | Ok _ =>
      prepare_transfer length (λ first bytes,
        match transfer_range (len destination) (offset + first) bytes with
        | Err e => Some (Err e)
        | Ok _ =>
            prepare_sdma_fill destination (offset + first) bytes value (patterns first) (fences first)
        end)
  end.
End Queue.

(** ** What the engine does with a stream *)

(** The operations of an SDMA stream. *)
Inductive Op : Type :=
| ONop
| OCopy (dst src count : Z)
| OFence (address value : Z)
| OPoll (address value : Z)
| OFill (dst pattern count : Z)
| OCache.

Definition join (low high : Z) : Z := low + high * 2 ^ 32.

(** Read one operation by the opcode in the low byte of its first word. *)
Definition read_op (words : list Z) : option (Op * list Z) :=
  match words with
  | [] => None
  | w :: rest =>
      match w mod 256, rest with
      | 0, _ => Some (ONop, rest)
      | 1, c :: _ :: sl :: sh :: dl :: dh :: rest => Some (OCopy (join dl dh) (join sl sh) (c + 1), rest)
      | 5, al :: ah :: v :: rest => Some (OFence (join al ah) v, rest)
      | 8, al :: ah :: v :: _ :: _ :: rest => Some (OPoll (join al ah) v, rest)
      | 11, dl :: dh :: p :: c :: rest => Some (OFill (join dl dh) p (c + 1), rest)
      | 17, _ :: _ :: _ :: _ :: rest => Some (OCache, rest)
      | _, _ => None
      end
  end.
Fixpoint decode_fuel (fuel : nat) (words : list Z) : option (list Op) :=
  match words, fuel with
  | [], _ => Some []
  | _, O => None
  | _, S fuel => '(op, rest) ← read_op words; ops ← decode_fuel fuel rest; Some (op :: ops)
  end.
Definition decode (words : list Z) : option (list Op) := decode_fuel (length words) words.

(** Device memory by byte address; the effect of one operation, and of all. *)
Definition memory : Type := Z → Z.
Definition byte_of (v i : Z) : Z := (v / 2 ^ (8 * i)) mod 256.
Definition within (start count x : Z) : bool := (start <=? x) && (x <? start + count).
Definition effect (m : memory) (op : Op) : memory :=
  match op with
  | ONop | OPoll _ _ | OCache => m
  | OCopy dst src count => λ x, if within dst count x then m (src + (x - dst)) else m x
  | OFence a v => λ x, if within a 4 x then byte_of v (x - a) else m x
  | OFill dst p count => λ x, if within dst count x then byte_of p ((x - dst) mod 4) else m x
  end.
Definition run (ops : list Op) (m : memory) : memory := foldl effect m ops.

(** The engine fills whole aligned words only. *)
Definition aligned (op : Op) : Prop :=
  match op with OFill dst _ count => dst mod 4 = 0 ∧ count mod 4 = 0 | _ => True end.

Global Instance aligned_dec op : Decision (aligned op).
Proof. destruct op; simpl; apply _. Defined.

(** [words] is exactly the operations [ops]. *)
Inductive reads : list Z → list Op → Prop :=
| reads_nil : reads [] []
| reads_cons words op rest ops :
    read_op words = Some (op, rest) → reads rest ops → reads words (op :: ops).

Lemma read_op_app words op rest k :
  read_op words = Some (op, rest) → read_op (words ++ k) = Some (op, rest ++ k).
Proof.
  destruct words as [|w ws]; [done|]. cbn [read_op app]. intros H.
  repeat (case_match; simplify_eq; try done).
Qed.

Lemma read_op_shorter words op rest :
  read_op words = Some (op, rest) → (length rest < length words)%nat.
Proof.
  destruct words as [|w ws]; [done|]. cbn [read_op]. intros H.
  repeat (case_match; simplify_eq; try done); simpl; lia.
Qed.

Lemma reads_app w1 w2 o1 o2 : reads w1 o1 → reads w2 o2 → reads (w1 ++ w2) (o1 ++ o2).
Proof.
  intros H1 H2. induction H1 as [|words op rest ops Hr _ IH]; [done|].
  simpl. econstructor; [by apply read_op_app|done].
Qed.

Lemma reads_decode words ops : reads words ops → decode words = Some ops.
Proof.
  intros H. unfold decode. assert (length words ≤ length words)%nat as Hf by done.
  revert Hf. generalize (length words) at 2 3 as fuel.
  induction H as [|words op rest ops Hr _ IH]; intros fuel Hf; [by destruct fuel|].
  pose proof (read_op_shorter _ _ _ Hr). destruct words as [|w ws]; [done|].
  destruct fuel as [|fuel]; [simpl in Hf; lia|]. cbn [decode_fuel]. rewrite Hr. cbn.
  rewrite (IH fuel) by (simpl in *; lia). done.
Qed.

Lemma run_app o1 o2 m : run (o1 ++ o2) m = run o2 (run o1 m).
Proof. apply foldl_app. Qed.

Lemma join_halves a : 0 <= a < 2 ^ 64 → join (low_half a) (high_half a) = a.
Proof.
  intros Ha. unfold join, low_half, high_half, as_u32. rewrite Z.shiftr_div_pow2 by lia.
  rewrite (Z.mod_small (a / 2 ^ 32)) by (split; [|apply Z.div_lt_upper_bound]; Z.to_euclidean_division_equations; lia).
  Z.to_euclidean_division_equations. lia.
Qed.

Lemma within_spec start count x : within start count x = true ↔ start <= x < start + count.
Proof. unfold within. rewrite andb_true_iff, Z.leb_le, Z.ltb_lt. done. Qed.
Lemma within_false start count x : within start count x = false ↔ ¬ (start <= x < start + count).
Proof. rewrite <-not_true_iff_false, within_spec. done. Qed.

Ltac case_within :=
  match goal with
  | |- context [within ?a ?n ?x] =>
      let E := fresh "E" in destruct (within a n x) eqn:E;
      [apply within_spec in E|apply within_false in E]
  end.

Section Streams.
Context (features ring_bytes : Z).
Context (visibility : Buffer → MemorySite → MemorySite → Result VisibilityFacts).

Lemma cache_reads release :
  ∃ ops, reads (sdma_cache features release) ops ∧ Forall aligned ops ∧ ∀ m, run ops m = m.
Proof.
  unfold sdma_cache. case_bool.
  - exists [OCache]. split_and!; [|by repeat constructor|done].
    econstructor; [by destruct release|constructor].
  - exists []. split_and!; [constructor|constructor|done].
Qed.

Lemma copy_reads src dst count :
  0 <= src < 2 ^ 64 → 0 <= dst < 2 ^ 64 → 0 < count <= 2 ^ 20 →
  reads (copy_packet features src dst count) [OCopy dst src count].
Proof.
  intros Hs Hd Hc. econstructor; [|constructor]. cbn [copy_packet read_op].
  change (1 mod 256) with 1. cbn iota. rewrite !join_halves by done.
  unfold as_u32. rewrite Z.mod_small, Z.sub_add by lia. done.
Qed.

Lemma fill_reads dst value count :
  0 <= dst < 2 ^ 64 → 0 < count <= 2 ^ 20 →
  reads (fill_packet features dst value count) [OFill dst (value * 0x01010101) count].
Proof.
  intros Hd Hc. econstructor; [|constructor]. unfold fill_packet. cbn [read_op].
  replace (Z.lor (Z.lor 11 (Z.shiftl 2 30)) (if sdma_scoped features then Z.shiftl 3 24 else 0) mod 256)
    with 11 by (by destruct (sdma_scoped features)).
  rewrite join_halves by done. unfold as_u32. rewrite Z.mod_small, Z.sub_add by lia. done.
Qed.

(** The copy loop terminates and copies the whole range. *)
Lemma copy_loop_spec fuel src dst remaining words :
  0 <= src → 0 <= dst → 0 <= remaining → src + remaining <= 2 ^ 64 → dst + remaining <= 2 ^ 64 →
  (src + remaining <= dst ∨ dst + remaining <= src ∨ remaining = 0) →
  remaining <= Z.of_nat fuel * 2 ^ 20 →
  ∃ out ops, copy_loop features fuel src dst remaining words = Some (words ++ out) ∧ reads out ops ∧
    Z.of_nat (length out) = 7 * ((remaining + (2 ^ 20 - 1)) / 2 ^ 20) ∧ Forall aligned ops ∧
    ∀ m x, run ops m x = if within dst remaining x then m (src + (x - dst)) else m x.
Proof.
  revert src dst remaining words.
  induction fuel as [|fuel IH]; intros src dst remaining words Hs Hd Hr Hs' Hd' Hsep Hf;
    cbn [copy_loop]; destruct (remaining =? 0) eqn:E; to_prop; try lia.
  1,2: exists [], []; rewrite app_nil_r; subst; split_and!;
       [done|constructor|reflexivity|constructor|]; intros m x; case_within; [lia|done].
  rewrite Z.shiftl_1_l. set (c := Z.min remaining (2 ^ 20)).
  destruct (IH (src + c) (dst + c) (remaining - c) (words ++ copy_packet features src dst c))
    as (out & ops & -> & Hreads & Hlen & Hops & Hrun); try lia.
  exists (copy_packet features src dst c ++ out), (OCopy dst src c :: ops). split_and!.
  - by rewrite app_assoc.
  - apply (reads_app _ _ [_]); [apply copy_reads; lia|done].
  - rewrite length_app, Nat2Z.inj_add, Hlen. simpl. subst c.
    Z.to_euclidean_division_equations. lia.
  - by constructor.
  - intros m x. simpl. rewrite Hrun. cbn [effect]. repeat case_within; try lia; try done.
    f_equal. lia.
Qed.

Lemma byte_of_repeated value i : 0 <= value < 256 → 0 <= i < 4 → byte_of (value * 0x01010101) i = value.
Proof.
  intros Hv Hi. unfold byte_of. assert (i = 0 ∨ i = 1 ∨ i = 2 ∨ i = 3) as [-> | [-> | [-> | ->]]] by lia;
    simpl; Z.to_euclidean_division_equations; lia.
Qed.

Lemma fill_loop_spec fuel dst value remaining words :
  0 <= dst → 0 <= remaining → dst + remaining <= 2 ^ 64 → 0 <= value < 256 →
  (remaining = 0 ∨ dst mod 4 = 0 ∧ remaining mod 4 = 0) →
  remaining <= Z.of_nat fuel * 2 ^ 20 →
  ∃ out ops, fill_loop features fuel dst value remaining words = Some (words ++ out) ∧ reads out ops ∧
    Z.of_nat (length out) = 5 * ((remaining + (2 ^ 20 - 1)) / 2 ^ 20) ∧ Forall aligned ops ∧
    ∀ m x, run ops m x = if within dst remaining x then value else m x.
Proof.
  revert dst remaining words.
  induction fuel as [|fuel IH]; intros dst remaining words Hd Hr Hd' Hv Hal Hf;
    cbn [fill_loop]; destruct (remaining =? 0) eqn:E; to_prop; try lia.
  1,2: exists [], []; rewrite app_nil_r; subst; split_and!;
       [done|constructor|reflexivity|constructor|]; intros m x; case_within; [lia|done].
  rewrite Z.shiftl_1_l. set (c := Z.min remaining (2 ^ 20)).
  destruct (IH (dst + c) (remaining - c) (words ++ fill_packet features dst value c))
    as (out & ops & -> & Hreads & Hlen & Hops & Hrun); try lia.
  { subst c. Z.to_euclidean_division_equations. lia. }
  exists (fill_packet features dst value c ++ out), (OFill dst (value * 0x01010101) c :: ops). split_and!.
  - by rewrite app_assoc.
  - apply (reads_app _ _ [_]); [apply fill_reads; lia|done].
  - rewrite length_app, Nat2Z.inj_add, Hlen. simpl. subst c.
    Z.to_euclidean_division_equations. lia.
  - constructor; [|done]. simpl. subst c. Z.to_euclidean_division_equations. lia.
  - intros m x. simpl. rewrite Hrun. cbn [effect]. repeat case_within; try lia; try done.
    apply byte_of_repeated; [done|]. apply Z.mod_pos_bound. lia.
Qed.
End Streams.

(** ** Prepared commands *)

Lemma next_multiple_bounds n :
  (n ≤ next_multiple_of n 8 < n + 8)%nat ∧ (next_multiple_of n 8 mod 8 = 0)%nat.
Proof.
  unfold next_multiple_of. split; [|apply Nat.Div0.mod_mul].
  pose proof (Nat.div_mod (n + (8 - 1)) 8 ltac:(lia)).
  pose proof (Nat.mod_upper_bound (n + (8 - 1)) 8 ltac:(lia)). lia.
Qed.

Lemma nops_reads n : reads (replicate n 0) (replicate n ONop) ∧ ∀ m, run (replicate n ONop) m = m.
Proof.
  induction n as [|n [IH Hr]]; [split; [constructor|done]|]. split; [|done].
  simpl. by econstructor.
Qed.

(** What a prepared command is made of. *)
Record prepared_from (features ring_bytes : Z) (front : list Z) (f : Buffer) (p : Prepared) : Prop := {
  from_words : ∃ n, words (template p) =
    (front ++ sdma_cache features true)
      ++ [fence_header features; low_half (address f); high_half (address f); 1] ++ replicate n 0;
  from_fence : fence_word (template p) = (length front + length (sdma_cache features true) + 3)%nat;
  from_length : length (words (template p)) =
    next_multiple_of (length front + length (sdma_cache features true) + 4) 8;
  from_ring : Z.of_nat (length (words (template p))) * 4 < ring_bytes;
  from_buffer : fence p = f }.

Section Prepared.
Context (features ring_bytes : Z).
Context (visibility : Buffer → MemorySite → MemorySite → Result VisibilityFacts).

Lemma sdma_prepared_Ok front buffers fence p :
  sdma_prepared features ring_bytes visibility front buffers fence = Ok p →
  ∃ f, fence = Ok f ∧ prepared_from features ring_bytes front f p.
Proof.
  unfold sdma_prepared. intros H.
  destruct (foldr _ _ buffers) as [[]|]; cbn [result_bind] in H; [|done].
  destruct fence as [f|]; cbn [result_bind] in H; [|done].
  destruct (sdma_visibility _ _ f) as [[]|]; cbn [result_bind] in H; [|done].
  destruct (_ <=? _) eqn:E in H; [done|]. to_prop. injection H as <-. exists f. split; [done|].
  constructor; cbn [template words fence_word fence]; [|..|exact E|done].
  - eexists. by rewrite <-app_assoc.
  - rewrite !length_app. simpl. lia.
  - rewrite length_app, length_replicate, !length_app.
    pose proof (next_multiple_bounds (length front + length (sdma_cache features true) + 4)) as [? _].
    simpl. lia.
Qed.

Lemma fence_header_opcode : fence_header features mod 256 = 5.
Proof.
  unfold fence_header, sdma_scoped. repeat case_bool; reflexivity.
Qed.

Lemma cache_length release : (length (sdma_cache features release) ≤ 5)%nat.
Proof. unfold sdma_cache. case_bool; simpl; lia. Qed.

(** The published stream performs its front and then stores the value. *)
Lemma prepared_runs front ops f p value :
  reads front ops → prepared_from features ring_bytes front f p → 0 <= address f < 2 ^ 64 →
  ∃ all, decode (published (template p) value) = Some all ∧ (Forall aligned ops → Forall aligned all) ∧
    ∀ m x, run all m x
      = if within (address f) 4 x then byte_of value (x - address f) else run ops m x.
Proof.
  intros Hr [[n Hw] Hf _ _] Ha. destruct (cache_reads features true) as (cops & Hc & Hca & Hcr).
  exists ((ops ++ cops) ++ OFence (address f) value :: replicate n ONop). split_and!.
  - apply reads_decode. unfold published. rewrite Hw, Hf, insert_app_r_alt by (rewrite length_app; lia).
    replace (_ - _)%nat with 3%nat by (rewrite length_app; lia). cbn [insert list_insert app].
    apply reads_app; [by apply reads_app|]. econstructor; [|apply nops_reads].
    cbn [read_op]. rewrite fence_header_opcode. cbn iota. by rewrite join_halves.
  - intros Hops. rewrite !Forall_app. split_and!; [done|done|].
    constructor; [done|]. by apply Forall_replicate.
  - intros m x. rewrite run_app, run_app, Hcr. cbn [run foldl effect].
    change (foldl effect ?a (replicate n ONop)) with (run (replicate n ONop) a).
    by rewrite (proj2 (nops_reads n)).
Qed.

Lemma prepared_length front f p :
  prepared_from features ring_bytes front f p →
  (length (words (template p)) mod 8 = 0)%nat ∧
  (length (words (template p)) ≤ next_multiple_of (length front + 9) 8)%nat ∧
  (fence_word (template p) < length (words (template p)))%nat.
Proof.
  intros [_ Hf Hl _]. rewrite Hf, Hl. pose proof (cache_length true).
  pose proof (next_multiple_bounds (length front + length (sdma_cache features true) + 4)).
  split_and!; [tauto| |lia]. unfold next_multiple_of.
  apply Nat.mul_le_mono_r, Nat.Div0.div_le_mono. lia.
Qed.
End Prepared.

(** ** One transfer *)

Lemma land_mask x k : 0 <= k <= 64 → 0 <= x <= usize_max →
  Z.land x (usize_max + 1 - 2 ^ k) = x - x mod 2 ^ k.
Proof.
  intros Hk Hx. replace (usize_max + 1 - 2 ^ k) with (Z.shiftl (Z.ones (64 - k)) k).
  2:{ rewrite Z.shiftl_mul_pow2, Z.ones_equiv, Z.mul_pred_l, <-Z.pow_add_r by lia.
      replace (64 - k + k) with 64 by lia. unfold usize_max. lia. }
  replace (x - x mod 2 ^ k) with (Z.shiftl (Z.shiftr x k) k).
  2:{ rewrite Z.shiftl_mul_pow2, Z.shiftr_div_pow2 by lia.
      pose proof (Z.div_mod x (2 ^ k) ltac:(lia)). lia. }
  apply Z.bits_inj'. intros i Hi. rewrite Z.land_spec, !Z.shiftl_spec by lia.
  destruct (decide (i < k)); [by rewrite !(Z.testbit_neg_r _ (i - k)) by lia; apply andb_false_r|].
  rewrite Z.shiftr_spec, Z.sub_add by lia.
  destruct (decide (i < 64)); [by rewrite Z.ones_spec_low, andb_true_r by lia|].
  rewrite <-(Z.mod_small x (2 ^ 64)), Z.mod_pow2_bits_high by (unfold usize_max in Hx; lia). done.
Qed.

Definition buffer_ok (b : Buffer) : Prop :=
  0 <= address b ∧ 0 <= len b ∧ address b + len b <= usize_max.

Lemma loop_fuel_enough n : 0 <= n → n <= Z.of_nat (loop_fuel n) * 2 ^ 20.
Proof. intros Hn. unfold loop_fuel. Z.to_euclidean_division_equations. lia. Qed.

(** A byte range [count] from [a] and one of [n] from [b] share nothing. *)
Definition apart (a count b n : Z) : Prop := a + count <= b ∨ b + n <= a.

Lemma saturated_apart src dst n :
  src + n <= usize_max → dst + n <= usize_max →
  (src <? saturating_add dst n) && (dst <? saturating_add src n) = false →
  apart src n dst n.
Proof. unfold apart, saturating_add. intros Hs Hd H. to_prop. destruct H as [H|H]; to_prop; lia. Qed.

(** The aligned body and the unaligned ends of a fill. *)
Lemma fill_split start n :
  0 <= start → 0 < n <= usize_max →
  let prefix := Z.min (Z.land (4 - Z.land start 3) 3) n in
  let middle := Z.land (n - prefix) (usize_max - 3) in
  0 <= prefix <= 3 ∧ 0 <= middle <= n - prefix ∧ n - prefix - middle <= 3 ∧
  (middle = 0 ∨ (start + prefix) mod 4 = 0 ∧ middle mod 4 = 0).
Proof.
  intros Hs Hn. cbv zeta.
  assert (∀ z, Z.land z 3 = z mod 4) as H3 by (intros z; apply (Z.land_ones z 2); lia).
  rewrite !H3. set (prefix := Z.min _ n).
  assert (0 <= prefix <= 3 ∧ prefix <= n) as Hp by (subst prefix; Z.to_euclidean_division_equations; lia).
  change (usize_max - 3) with (usize_max + 1 - 2 ^ 2). rewrite land_mask by lia.
  change (2 ^ 2) with 4. split_and!; try (Z.to_euclidean_division_equations; lia).
  destruct (decide (prefix = n)); [left; by replace (n - prefix) with 0 by lia|right].
  subst prefix. Z.to_euclidean_division_equations. lia.
Qed.

(** The copies of the pattern onto the unaligned ends. *)
Lemma tails_reads features value source t1 c1 t2 c2 words :
  0 <= source < 2 ^ 64 → 0 <= t1 → 0 <= t2 → 0 <= c1 <= 4 → 0 <= c2 <= 4 →
  t1 + c1 <= 2 ^ 64 → t2 + c2 <= 2 ^ 64 →
  ∃ out ops, foldl (tail_copy features source) words [(t1, c1); (t2, c2)] = words ++ out ∧
    reads out ops ∧ Forall aligned ops ∧ (length out ≤ 14)%nat ∧
    ∀ m x, apart t1 c1 source 4 → apart t2 c2 source 4 →
      (∀ i, 0 <= i < 4 → m (source + i) = value) →
      run ops m x = if within t1 c1 x then value else if within t2 c2 x then value else m x.
Proof.
  intros Hs Ht1 Ht2 Hc1 Hc2 H1 H2. cbn [foldl]. unfold tail_copy. cbn [fst snd].
  assert (∀ t c, 0 <= t → 0 < c <= 4 → t + c <= 2 ^ 64 →
            reads (copy_packet features source t c) [OCopy t source c]) as Hcopy
    by (intros; apply copy_reads; lia).
  destruct (c1 =? 0) eqn:E1, (c2 =? 0) eqn:E2; to_prop.
  - exists [], []. rewrite app_nil_r. split_and!; [done|constructor|constructor|simpl; lia|].
    intros m x _ _ _. repeat case_within; try lia. done.
  - exists (copy_packet features source t2 c2), [OCopy t2 source c2].
    split_and!; [done|apply Hcopy; lia|by repeat constructor|simpl; lia|].
    intros m x _ Ha Hm. cbn [run foldl effect]. repeat case_within; try lia; try done. apply Hm. lia.
  - exists (copy_packet features source t1 c1), [OCopy t1 source c1].
    split_and!; [done|apply Hcopy; lia|by repeat constructor|simpl; lia|].
    intros m x Ha _ Hm. cbn [run foldl effect]. repeat case_within; try lia; try done. apply Hm. lia.
  - exists (copy_packet features source t1 c1 ++ copy_packet features source t2 c2),
      [OCopy t1 source c1; OCopy t2 source c2].
    split_and!; [by rewrite app_assoc|apply (reads_app _ _ [_]); apply Hcopy; lia|
      by repeat constructor|simpl; lia|].
    intros m x Ha Hb Hm. cbn [run foldl effect]. unfold apart in *.
    repeat case_within; try lia; try done; try (apply Hm; lia).
Qed.

Section Transfer.
Context (features ring_bytes : Z).
Context (visibility : Buffer → MemorySite → MemorySite → Result VisibilityFacts).
Context (destination source : Buffer).
Hypothesis Hd : buffer_ok destination.
Hypothesis Hs : buffer_ok source.

(** Everything [prepare_sdma_copy] does before [sdma_prepared]. *)
Lemma copy_front d s n fence :
  0 <= d → 0 <= s → 0 <= n → d + n <= len destination → s + n <= len source →
  apart (address source + s) n (address destination + d) n →
  ∃ front ops,
    prepare_sdma_copy features ring_bytes visibility destination d source s n fence
      = Some (sdma_prepared features ring_bytes visibility front [source; destination] fence) ∧
    reads front ops ∧ Forall aligned ops ∧
    (Z.of_nat (length front) <= 5 + 7 * ((n + (2 ^ 20 - 1)) / 2 ^ 20)) ∧
    ∀ m x, run ops m x = if within (address destination + d) n x
                         then m (address source + s + (x - (address destination + d))) else m x.
Proof using Hd Hs.
  destruct Hd as (Hd1 & Hd2 & Hd3), Hs as (Hs1 & Hs2 & Hs3). intros H1 H2 H3 H4 H5 Hap.
  unfold usize_max in *. unfold prepare_sdma_copy.
  rewrite !checked_add_ok by (unfold usize_max; lia).
  destruct (_ && _) eqn:E.
  { exfalso. to_prop. unfold saturating_add, apart in *. lia. }
  destruct (cache_reads features false) as (cops & Hc & Hca & Hcr).
  destruct (copy_loop_spec features (loop_fuel n) (address source + s) (address destination + d) n
              (sdma_cache features false)) as (out & ops & -> & Hr & Hl & Ha & Hrun);
    try lia; [unfold apart in Hap; lia|by apply loop_fuel_enough|].
  eexists _, (cops ++ ops). split_and!; [done|by apply reads_app|by apply Forall_app| |].
  - rewrite length_app. pose proof (cache_length features false). lia.
  - intros m x. rewrite run_app, Hcr. apply Hrun.
Qed.

Lemma overlap_rejected d s n fence p :
  0 <= d → 0 <= s → d + n <= len destination → s + n <= len source →
  prepare_sdma_copy features ring_bytes visibility destination d source s n fence = Some (Ok p) →
  apart (address source + s) n (address destination + d) n.
Proof using Hd Hs.
  destruct Hd as (Hd1 & Hd2 & Hd3), Hs as (Hs1 & Hs2 & Hs3). intros H1 H2 H3 H4.
  unfold prepare_sdma_copy.
  destruct (checked_add (address source) s) as [x|] eqn:Ex; [|done].
  destruct (checked_add (address destination) d) as [y|] eqn:Ey; [|done].
  apply checked_add_Some in Ex as [-> _]. apply checked_add_Some in Ey as [-> _].
  destruct (_ && _) eqn:E; [done|]. intros _. by apply saturated_apart in E; [|lia..].
Qed.

Lemma sdma_copy_runs d s n fence p value :
  0 <= d → 0 <= s → 0 <= n → d + n <= len destination → s + n <= len source →
  prepare_sdma_copy features ring_bytes visibility destination d source s n fence = Some (Ok p) →
  (∀ f, fence = Ok f → 0 <= address f < 2 ^ 64) →
  ∃ f ops, fence = Ok f ∧ decode (published (template p) value) = Some ops ∧ Forall aligned ops ∧
    ∀ m x, run ops m x
      = if within (address f) 4 x then byte_of value (x - address f)
        else if within (address destination + d) n x
             then m (address source + s + (x - (address destination + d))) else m x.
Proof using Hd Hs.
  intros H1 H2 H3 H4 H5 Hp Hfence. pose proof (overlap_rejected d s n fence p H1 H2 H4 H5 Hp) as Hap.
  destruct (copy_front d s n fence H1 H2 H3 H4 H5 Hap) as (front & ops & Heq & Hr & Ha & _ & Hrun).
  rewrite Heq in Hp. injection Hp as Hp. apply sdma_prepared_Ok in Hp as (f & -> & Hfrom).
  destruct (prepared_runs features ring_bytes front ops f p value Hr Hfrom (Hfence f eq_refl))
    as (all & Hall & Hal & Hval).
  exists f, all. split_and!; [done|done|by apply Hal|]. intros m x. by rewrite Hval, Hrun.
Qed.

(** Everything [prepare_sdma_fill] does before [sdma_prepared]. *)
Lemma fill_front d n value q pattern fence :
  0 <= d → 0 < n → d + n <= len destination → 0 <= value < 256 → pattern = Ok q →
  0 <= address q < 2 ^ 64 →
  ∃ front ops buffers,
    prepare_sdma_fill features ring_bytes visibility destination d n value pattern fence
      = Some (sdma_prepared features ring_bytes visibility front buffers fence) ∧
    reads front ops ∧ Forall aligned ops ∧
    (Z.of_nat (length front) <= 19 + 5 * ((n + (2 ^ 20 - 1)) / 2 ^ 20)) ∧
    ∀ m x,
      apart (address destination + d) n (address q) 4 →
      (∀ i, 0 <= i < 4 → m (address q + i) = value) →
      run ops m x = if within (address destination + d) n x then value else m x.
Proof using Hd.
  destruct Hd as (Hd1 & Hd2 & Hd3). intros H1 H2 H3 Hv -> Hpat.
  unfold prepare_sdma_fill. cbn [result_bind]. set (start := address destination + d).
  rewrite (checked_add_ok (address destination) d) by lia. fold start.
  destruct (fill_split start n ltac:(lia) ltac:(lia)) as (Hpre & Hmid & Hsuf & Hal).
  set (prefix := Z.min _ _) in *. set (middle := Z.land (n - prefix) _) in *. set (suffix := n - prefix - middle) in *.
  unfold usize_max in Hd3. destruct (cache_reads features false) as (cops & Hc & Hca & Hcr).
  destruct (tails_reads features value (address q) start prefix (start + (prefix + middle)) suffix
              (sdma_cache features false)) as (ends & tops & Ht & Htr & Hta & Htl & Htrun); try lia.
  destruct (fill_loop_spec features (loop_fuel middle) (start + prefix) value middle
              (sdma_cache features false ++ ends)) as (out & ops & Ho & Hr & Hl & Hoa & Hrun);
    try lia; [by apply loop_fuel_enough; lia|].
  exists ((sdma_cache features false ++ ends) ++ out), ((cops ++ tops) ++ ops).
  exists (if negb (prefix =? 0) || negb (suffix =? 0) then [destination; q] else [destination]).
  split_and!.
  - destruct (negb (prefix =? 0) || negb (suffix =? 0)) eqn:E.
    + rewrite Ht, Ho. done.
    + to_prop. assert (ends = []) as Hnil.
      { cbn [foldl] in Ht. unfold tail_copy in Ht. cbn [fst snd] in Ht.
        rewrite !(proj2 (Z.eqb_eq _ _)) in Ht by done.
        apply (f_equal length) in Ht. rewrite length_app in Ht. destruct ends; [done|simpl in Ht; lia]. }
      rewrite Hnil, app_nil_r in Ho |- *. by rewrite Ho.
  - by repeat apply reads_app.
  - by rewrite !Forall_app.
  - rewrite !length_app. pose proof (cache_length features false). Z.to_euclidean_division_equations. lia.
  - intros m x Hap Hq. rewrite !run_app, Hcr, Hrun, Htrun by (done || unfold apart in *; lia).
    subst suffix. repeat case_within; try lia; done.
Qed.

Lemma sdma_fill_runs d n value q pattern fence p point :
  0 <= d → 0 < n → d + n <= len destination → 0 <= value < 256 → pattern = Ok q →
  0 <= address q < 2 ^ 64 →
  prepare_sdma_fill features ring_bytes visibility destination d n value pattern fence = Some (Ok p) →
  (∀ f, fence = Ok f → 0 <= address f < 2 ^ 64) →
  ∃ f ops, fence = Ok f ∧ decode (published (template p) point) = Some ops ∧ Forall aligned ops ∧
    ∀ m x,
      apart (address destination + d) n (address q) 4 →
      (∀ i, 0 <= i < 4 → m (address q + i) = value) →
      run ops m x
      = if within (address f) 4 x then byte_of point (x - address f)
        else if within (address destination + d) n x then value else m x.
Proof using Hd.
  intros H1 H2 H3 Hv Hpat Hq Hp Hfence.
  destruct (fill_front d n value q pattern fence H1 H2 H3 Hv Hpat Hq)
    as (front & ops & buffers & Heq & Hr & Ha & _ & Hrun).
  rewrite Heq in Hp. injection Hp as Hp. apply sdma_prepared_Ok in Hp as (f & -> & Hfrom).
  destruct (prepared_runs features ring_bytes front ops f p point Hr Hfrom (Hfence f eq_refl))
    as (all & Hall & Hal & Hval).
  exists f, all. split_and!; [done|done|by apply Hal|]. intros m x Hap Hm. by rewrite Hval, Hrun.
Qed.
End Transfer.

(** ** Whole transfers *)

(** Consecutive parts of at most [limit] bytes. *)
Fixpoint tiled (limit offset stop : Z) (chunks : list (Z * Z)) : Prop :=
  match chunks with
  | [] => offset = stop
  | (o, n) :: rest => o = offset ∧ 0 < n <= limit ∧ tiled limit (o + n) stop rest
  end.

Lemma chunks_from_tiled fuel offset length limit :
  0 < limit → 0 <= offset <= length → length - offset <= Z.of_nat fuel * limit →
  tiled limit offset length (chunks_from fuel offset length limit).
Proof.
  intros Hl. revert offset. induction fuel as [|fuel IH]; intros offset Ho Hf; simpl; [lia|].
  destruct (offset <? length) eqn:E; to_prop; [|simpl; lia].
  simpl. split_and!; [done|lia|lia|].
  destruct (decide (offset + limit <= length)).
  - replace (Z.min (length - offset) limit) with limit by lia. apply IH; lia.
  - replace (offset + Z.min (length - offset) limit) with length by lia.
    destruct fuel; simpl; [done|]. by rewrite (proj2 (Z.ltb_ge _ _)) by lia.
Qed.

Lemma transfer_chunks_tiled length limit :
  0 < limit → 0 <= length → tiled limit 0 length (transfer_chunks length limit).
Proof.
  intros Hl Hn. apply chunks_from_tiled; [done|lia|].
  pose proof (Z.div_mod length limit ltac:(lia)). pose proof (Z.mod_pos_bound length limit Hl).
  pose proof (Z.div_pos length limit Hn Hl). nia.
Qed.

Lemma tiled_bounds limit offset stop chunks o n :
  0 <= offset → tiled limit offset stop chunks → (o, n) ∈ chunks →
  offset <= o ∧ 0 < n <= limit ∧ o + n <= stop.
Proof.
  revert offset. induction chunks as [|[o' n'] rest IH]; intros offset H0 Ht Hin;
    [by apply elem_of_nil in Hin|].
  destruct Ht as (-> & Hn & Ht). assert (offset + n' <= stop) as Hstop.
  { clear -Ht. revert Ht. generalize (offset + n'). induction rest as [|[a b] rest IH]; simpl; intros z Ht; [lia|].
    destruct Ht as (-> & Hb & Ht). specialize (IH _ Ht). lia. }
  apply elem_of_cons in Hin as [[= -> ->]|Hin]; [lia|].
  specialize (IH (offset + n') ltac:(lia) Ht Hin). lia.
Qed.

Definition parts_of (limit length : Z) : list (Z * Z) :=
  if length <=? limit then [(0, length)] else transfer_chunks length limit.
Lemma parts_of_tiled limit length :
  0 < limit → 0 < length → tiled limit 0 length (parts_of limit length).
Proof.
  intros Hl Hn. unfold parts_of. case_bool; [simpl; lia|]. apply transfer_chunks_tiled; lia.
Qed.

(** Publish the parts in order, each with its completion value; the engine
    rejects an unaligned fill. *)
Fixpoint run_parts (submitted : list (Prepared * Z)) (m : memory) : option memory :=
  match submitted with
  | [] => Some m
  | (p, value) :: rest => 
      ops ← decode (published (template p) value);
      if decide (Forall aligned ops) then run_parts rest (run ops m) else None
  end.

(** Transfers whose parts each have the right effect: outside the [free]
    addresses nothing is said, inside the effect is [goal]. *)
Section Parts.
Context (prepare : Z → Z → option (Result Prepared)).
Context (start total limit : Z) (free : Z → Prop) (good : memory → Prop) (goal : memory → Z → Z).
Hypothesis step : ∀ o n p v m,
  0 <= o → 0 < n → o + n <= total → prepare o n = Some (Ok p) → good m →
  ∃ ops, decode (published (template p) v) = Some ops ∧ Forall aligned ops ∧ good (run ops m) ∧
    (∀ x, start <= x < start + total → goal (run ops m) x = goal m x) ∧
    ∀ x, free x → run ops m x = if within (start + o) n x then goal m x else m x.

Lemma run_parts_spec chunks o parts submitted m :
  0 <= o → tiled limit o total chunks → good m →
  prepare_parts prepare chunks = Some (Ok parts) → submitted.*1 = parts →
  ∃ m', run_parts submitted m = Some m' ∧
    ∀ x, free x → m' x = if within (start + o) (total - o) x then goal m x else m x.
Proof using step.
  revert o parts submitted m.
  induction chunks as [|[o' n] rest IH]; intros o parts submitted m Ho Ht Hg; cbn [prepare_parts].
  - intros [= <-] Hsub. apply fmap_nil_inv in Hsub as ->. exists m. split; [done|].
    intros x _. simpl in Ht. case_within; [lia|done].
  - pose proof (tiled_bounds limit o total _ o' n Ho Ht ltac:(by left)) as Hb.
    destruct Ht as (-> & Hn & Ht).
    destruct (prepare o n) as [[p|]|] eqn:Ep; [|done|done]. cbn.
    destruct (prepare_parts prepare rest) as [[ps|]|] eqn:Er; [|done|done].
    intros [= <-] Hsub. destruct submitted as [|[p' v] submitted]; [done|].
    simpl in Hsub. injection Hsub as -> Hsub.
    destruct (step o n p v m Ho ltac:(lia) ltac:(lia) Ep Hg) as (ops & Hops & Hal & Hg' & Hgoal & Hrun).
    cbn [run_parts]. rewrite Hops. cbn [mbind option_bind]. rewrite decide_True by done.
    destruct (IH (o + n) ps submitted (run ops m) ltac:(lia) Ht Hg' eq_refl Hsub) as (m' & Hm' & Hx).
    exists m'. split; [done|]. intros x Hfree. rewrite Hx, Hrun by done.
    repeat case_within; try lia; try done. apply Hgoal. lia.
Qed.

Lemma prepare_transfer_runs ring_bytes parts submitted m :
  0 < total → good m → (∀ l, transfer_limit ring_bytes = Ok l → l = limit ∧ 0 < l) →
  prepare_transfer ring_bytes total prepare = Some (Ok parts) → submitted.*1 = parts →
  ∃ m', run_parts submitted m = Some m' ∧
    ∀ x, free x → m' x = if within start total x then goal m x else m x.
Proof using step.
  intros Ht Hg Hl. unfold prepare_transfer. destruct (transfer_limit ring_bytes) as [l|]; [|done].
  destruct (Hl l eq_refl) as [-> Hpos]. fold (parts_of limit total). intros Hp Hsub.
  destruct (run_parts_spec _ 0 parts submitted m ltac:(lia) (parts_of_tiled limit total Hpos Ht) Hg Hp Hsub)
    as (m' & Hm' & Hx).
  exists m'. split; [done|]. intros x Hf. by rewrite Hx, Z.add_0_r, Z.sub_0_r.
Qed.
End Parts.

Lemma transfer_limit_Ok ring_bytes limit :
  0 <= ring_bytes <= usize_max → transfer_limit ring_bytes = Ok limit →
  ∃ packets budget, limit = packets * 2 ^ 20 ∧ 0 < packets ∧ budget mod 8 = 0 ∧
    7 * packets + 28 <= budget ∧ budget <= ring_bytes / 8 - 1.
Proof.
  unfold transfer_limit, transfer_word_budget, saturating_sub. intros Hr.
  assert (0 <= Z.max (ring_bytes / 8 - 1) 0 <= usize_max) as Hm by (Z.to_euclidean_division_equations; lia).
  change (usize_max - 7) with (usize_max + 1 - 2 ^ 3). rewrite land_mask by lia.
  change (2 ^ 3) with 8. set (budget := Z.max _ 0 - _).
  assert (budget mod 8 = 0 ∧ 0 <= budget <= Z.max (ring_bytes / 8 - 1) 0) as [Hb Hb'].
  { subst budget. split; [|Z.to_euclidean_division_equations; lia].
    rewrite Zminus_mod, Zmod_mod, Z.sub_diag. done. }
  case_bool; [done|]. intros [= <-]. rewrite Z.shiftl_mul_pow2 by lia.
  set (packets := Z.max _ 0 / 7) in *. change (Z.shiftr u32_max 20) with 4095.
  assert (0 < packets ∧ 7 * packets + 28 <= budget) as [Hp Hp'].
  { subst packets. clearbody budget. clear Hb. Z.to_euclidean_division_equations. lia. }
  exists (Z.min packets 4095), budget. split_and!; try lia.
Qed.

(** ** Theorems *)

Lemma transfer_range_Ok len offset length u :
  0 <= offset → 0 <= length → transfer_range len offset length = Ok u →
  0 < length ∧ offset + length <= len ∧ offset + length <= usize_max.
Proof.
  unfold transfer_range. intros Ho Hl H. destruct (_ || _) eqn:E in H; [done|]. to_prop.
  destruct (checked_add offset length) as [stop|] eqn:Es; [|done].
  apply checked_add_Some in Es as [-> Hm]. to_prop. lia.
Qed.

Lemma transfer_range_ok len offset length :
  0 < length → offset + length <= len → len <= usize_max → transfer_range len offset length = Ok tt.
Proof.
  intros Hl Hb Hm. unfold transfer_range. rewrite checked_add_ok by lia.
  by rewrite (proj2 (Z.eqb_neq _ _)), (proj2 (Z.ltb_ge _ _)) by lia.
Qed.

Section Theorems.
Context (features ring_bytes : Z).
Context (visibility : Buffer → MemorySite → MemorySite → Result VisibilityFacts).
Hypothesis Hring : 0 <= ring_bytes <= usize_max.

Lemma limit_positive l : transfer_limit ring_bytes = Ok l → 0 < l.
Proof using Hring. intros H. apply transfer_limit_Ok in H as (k & b & -> & Hk & _); [nia|done]. Qed.

(** A fence or pattern apart from the bytes of a transfer. *)
Definition apart_from (f : Buffer) (start length : Z) : Prop :=
  0 <= address f < 2 ^ 64 ∧ apart (address f) 4 start length.

Lemma copy_part_runs destination source d s total o n fence p v m :
  buffer_ok destination → buffer_ok source → 0 <= d → 0 <= s →
  d + total <= len destination → s + total <= len source →
  0 <= o → 0 < n → o + n <= total →
  apart (address source + s) total (address destination + d) total →
  (∀ f, fence = Ok f → apart_from f (address source + s) total ∧
                       apart_from f (address destination + d) total) →
  prepare_sdma_copy features ring_bytes visibility destination (d + o) source (s + o) n fence
    = Some (Ok p) →
  ∃ f ops, fence = Ok f ∧ decode (published (template p) v) = Some ops ∧ Forall aligned ops ∧
    (∀ x, address destination + d <= x < address destination + d + total →
       run ops m (address source + s + (x - (address destination + d)))
         = m (address source + s + (x - (address destination + d)))) ∧
    ∀ x, within (address f) 4 x = false →
      run ops m x = if within (address destination + d + o) n x
                    then m (address source + s + (x - (address destination + d))) else m x.
Proof.
  intros Hd Hs H1 H2 H3 H4 Ho Hn Hon Hap Hf Hp.
  assert (0 <= len destination ∧ 0 <= len source) as [? ?] by (destruct Hd, Hs; lia).
  destruct (sdma_copy_runs features ring_bytes visibility destination source Hd Hs
              (d + o) (s + o) n fence p v) as (f & ops & -> & Hops & Hal & Hrun); try lia; [done| |].
  { intros f ->. by apply (Hf f eq_refl). }
  destruct (Hf f eq_refl) as [[_ Ha1] [_ Ha2]]. unfold apart in *.
  exists f, ops. split_and!; [done|done|done| |].
  - intros x Hx. rewrite Hrun. by repeat case_within; try lia.
  - intros x Hx. rewrite Hrun, Hx, Z.add_assoc. case_within; [|done]. f_equal. lia.
Qed.

(** An SDMA copy moves exactly the requested bytes: once its parts are
    published in order, with any completion values, every destination byte
    holds the source byte at the same position and every other byte outside
    the fences is unchanged, however the copy was split. *)
Theorem sdma_copy_is_exact destination d source s length fences parts submitted m :
  buffer_ok destination → buffer_ok source → 0 <= d → 0 <= s → 0 <= length →
  prepare_copy features ring_bytes visibility destination d source s length fences = Some (Ok parts) →
  (∀ o f, fences o = Ok f → apart_from f (address source + s) length ∧
                            apart_from f (address destination + d) length) →
  submitted.*1 = parts →
  ∃ m', run_parts submitted m = Some m' ∧
    ∀ x, (∀ o f, fences o = Ok f → within (address f) 4 x = false) →
      m' x = if within (address destination + d) length x
             then m (address source + s + (x - (address destination + d))) else m x.
Proof using Hring.
  intros Hd Hs H1 H2 H3 Hp Hf Hsub. unfold prepare_copy in Hp.
  destruct (transfer_range (len destination) d length) as [[]|] eqn:Er1; [|done].
  destruct (transfer_range (len source) s length) as [[]|] eqn:Er2; [|done].
  apply transfer_range_Ok in Er1 as (Hpos & Hr1 & _); [|done..].
  apply transfer_range_Ok in Er2 as (_ & Hr2 & _); [|done..].
  assert (Hd' := Hd). assert (Hs' := Hs). destruct Hd' as (? & ? & ?), Hs' as (? & ? & ?).
  rewrite !checked_add_ok in Hp by lia. destruct (_ && _) eqn:Eo in Hp; [done|].
  rewrite andb_comm in Eo. apply saturated_apart in Eo; [|lia..].
  destruct (transfer_limit ring_bytes) as [limit|] eqn:El;
    [|unfold prepare_transfer in Hp; by rewrite El in Hp].
  refine (prepare_transfer_runs _ (address destination + d) length limit
    (λ x, ∀ o f, fences o = Ok f → within (address f) 4 x = false) (λ _, True)
    (λ m x, m (address source + s + (x - (address destination + d)))) _
    ring_bytes parts submitted m Hpos I _ Hp Hsub).
  - intros o n p v m0 Ho Hn Hon Hprep _.
    destruct (transfer_range (len destination) _ n); [|done].
    destruct (transfer_range (len source) _ n); [|done].
    destruct (copy_part_runs destination source d s length o n (fences o) p v m0)
      as (f & ops & Hfo & Hops & Hal & Hstable & Hrun); try done; [by apply Hf|].
    exists ops. split_and!; [done|done|done|done|]. intros x Hx. apply Hrun. by apply (Hx o).
  - intros l Hl. split; [congruence|by apply limit_positive].
Qed.

(** An SDMA fill writes the byte over exactly the requested range: the
    aligned words by fill packets, the unaligned ends from the pattern, and no
    fill packet is unaligned. *)
Theorem sdma_fill_is_exact destination d length value patterns fences parts submitted m :
  buffer_ok destination → 0 <= d → 0 <= length → 0 <= value < 256 →
  prepare_fill features ring_bytes visibility destination d length value patterns fences = Some (Ok parts) →
  (∀ o, ∃ q, patterns o = Ok q ∧ apart_from q (address destination + d) length ∧
     ∀ i, 0 <= i < 4 → m (address q + i) = value ∧
       ∀ o' f, fences o' = Ok f → within (address f) 4 (address q + i) = false) →
  (∀ o f, fences o = Ok f → 0 <= address f < 2 ^ 64) →
  submitted.*1 = parts →
  ∃ m', run_parts submitted m = Some m' ∧
    (∀ x, (∀ o f, fences o = Ok f → within (address f) 4 x = false) →
       m' x = if within (address destination + d) length x then value else m x).
Proof using Hring.
  intros Hd H1 H3 Hv Hp Hpat Hf Hsub. unfold prepare_fill in Hp.
  destruct (transfer_range (len destination) d length) as [[]|] eqn:Er1; [|done].
  apply transfer_range_Ok in Er1 as (Hpos & Hr1 & _); [|done..].
  destruct (transfer_limit ring_bytes) as [limit|] eqn:El;
    [|unfold prepare_transfer in Hp; by rewrite El in Hp].
  refine (prepare_transfer_runs _ (address destination + d) length limit
    (λ x, ∀ o f, fences o = Ok f → within (address f) 4 x = false)
    (λ m, ∀ o q i, patterns o = Ok q → 0 <= i < 4 → m (address q + i) = value)
    (λ _ _, value) _ ring_bytes parts submitted m Hpos _ _ Hp Hsub).
  - intros o n p v m0 Ho Hn Hon Hprep Hgood.
    destruct (transfer_range (len destination) _ n); [|done].
    destruct (Hpat o) as (q & Hq & [Hqa Hqd] & Hqm).
    destruct (sdma_fill_runs features ring_bytes visibility destination Hd (d + o) n value q
                (patterns o) (fences o) p v) as (f & ops & Hfo & Hops & Hal & Hrun);
      try done; try lia; [by apply Hf|].
    assert (∀ x, within (address f) 4 x = false →
              run ops m0 x = if within (address destination + d + o) n x then value else m0 x) as Hx.
    { intros x Hx. rewrite Hrun, Hx, Z.add_assoc; [done| |by eauto]. unfold apart in *. lia. }
    exists ops. split_and!; [done|done| |done|].
    + intros o' q' i Hq' Hi. destruct (Hpat o') as (q'' & Heq & [_ Hap] & Hqm').
      rewrite Heq in Hq'. simplify_eq. destruct (Hqm' i Hi) as [_ Hout].
      rewrite Hx by (by apply (Hout o)). case_within; [done|by eapply Hgood].
    + intros x Hfree. apply Hx. by apply (Hfree o).
  - intros o q i Hq Hi. destruct (Hpat o) as (q' & Heq & _ & Hqm). rewrite Heq in Hq. simplify_eq.
    by apply Hqm.
  - intros l Hl. split; [congruence|by apply limit_positive].
Qed.

(** A stream fits the ring at every cursor, with the padding of a wrap. *)
Definition fits_ring (p : Prepared) : Prop :=
  let n := Z.of_nat (length (words (template p))) in
  ∀ cursor, 0 <= cursor < ring_bytes / 4 → wrap_words (ring_bytes / 4) cursor n + n < ring_bytes / 4.

Lemma sdma_prepared_fits front buffers f limit n :
  transfer_limit ring_bytes = Ok limit → (∀ b, sdma_visibility features visibility b = Ok tt) →
  0 < n <= limit → Z.of_nat (length front) <= 19 + 7 * ((n + (2 ^ 20 - 1)) / 2 ^ 20) →
  ∃ p, sdma_prepared features ring_bytes visibility front buffers (Ok f) = Ok p ∧ fits_ring p.
Proof using Hring.
  intros Hl Hvis Hn Hfront. apply transfer_limit_Ok in Hl as (k & budget & -> & Hk & Hb & Hkb & Hbr); [|done].
  assert ((n + (2 ^ 20 - 1)) / 2 ^ 20 <= k) as Hpk by (Z.to_euclidean_division_equations; lia).
  pose proof (cache_length features true) as Hc.
  set (w := (length front + length (sdma_cache features true) + 4)%nat).
  assert (Z.of_nat (next_multiple_of w 8) <= budget) as Hw.
  { pose proof (next_multiple_bounds w) as [H1 H2]. apply (f_equal Z.of_nat) in H2.
    rewrite Nat2Z.inj_mod in H2. simpl in H2. Z.to_euclidean_division_equations. lia. }
  unfold sdma_prepared.
  replace (foldr _ (Ok tt) buffers) with (Ok tt : Result unit)
    by (induction buffers as [|b bs IH]; [done|]; cbn [foldr]; by rewrite Hvis, <-IH).
  cbn [result_bind]. rewrite Hvis. cbn [result_bind].
  match goal with |- context [if ?b then _ else _] => destruct b eqn:E end; to_prop.
  - exfalso. rewrite !length_app, length_replicate in E. simpl in E. fold w in E.
    pose proof (next_multiple_bounds w) as [H1 _].
    replace (length front + length (sdma_cache features true) + 4 +
      (next_multiple_of w 8 - w))%nat with (next_multiple_of w 8) in E by lia.
    clearbody w. clear Hfront. Z.to_euclidean_division_equations. lia.
  - eexists. split; [done|]. intros cursor Hcur. cbn [template words].
    rewrite !length_app, length_replicate. simpl. fold w.
    pose proof (next_multiple_bounds w) as [H1 _].
    replace (length front + length (sdma_cache features true) + 4 +
      (next_multiple_of w 8 - w))%nat with (next_multiple_of w 8) by lia.
    unfold wrap_words. clearbody w. clear Hfront E. case_bool; Z.to_euclidean_division_equations; lia.
Qed.

Lemma prepare_parts_all prepare limit chunks offset stop :
  (∀ o n, offset <= o → 0 < n <= limit → o + n <= stop → ∃ p, prepare o n = Some (Ok p) ∧ fits_ring p) →
  0 <= offset → tiled limit offset stop chunks →
  ∃ parts, prepare_parts prepare chunks = Some (Ok parts) ∧ Forall fits_ring parts.
Proof.
  revert offset. induction chunks as [|[o n] rest IH]; intros offset Hp Ho Ht.
  - by exists [].
  - pose proof (tiled_bounds limit offset stop _ o n Ho Ht ltac:(by left)) as Hb.
    destruct Ht as (-> & Hn & Ht). cbn [prepare_parts].
    destruct (Hp offset n) as (p & -> & Hfp); [lia..|]. cbn.
    destruct (IH (offset + n)) as (ps & -> & Hps); [|lia|done|].
    { intros o' n' Ho' Hn' Hs'. apply Hp; lia. }
    exists (p :: ps). split; [done|by constructor].
Qed.

Lemma prepare_transfer_all prepare limit total :
  transfer_limit ring_bytes = Ok limit → 0 < total →
  (∀ o n, 0 <= o → 0 < n <= limit → o + n <= total → ∃ p, prepare o n = Some (Ok p) ∧ fits_ring p) →
  ∃ parts, prepare_transfer ring_bytes total prepare = Some (Ok parts) ∧ Forall fits_ring parts.
Proof using Hring.
  intros Hl Ht Hp. unfold prepare_transfer. rewrite Hl. fold (parts_of limit total).
  apply (prepare_parts_all _ limit _ 0 total); [done|lia|].
  apply parts_of_tiled; [by apply limit_positive|done].
Qed.

(** Transfers always fit: when the ring can hold a transfer at all, every
    copy and fill of an in-bounds range is prepared, whatever its length, and
    each part fits the ring from any cursor including the padding of a wrap. *)
Theorem sdma_transfers_fit_the_ring destination source d s length value pattern f limit :
  transfer_limit ring_bytes = Ok limit → (∀ b, sdma_visibility features visibility b = Ok tt) →
  buffer_ok destination → buffer_ok source → 0 <= d → 0 <= s → 0 < length → 0 <= value < 256 →
  d + length <= len destination → s + length <= len source →
  apart (address source + s) length (address destination + d) length →
  0 <= address pattern < 2 ^ 64 →
  (∃ parts, prepare_copy features ring_bytes visibility destination d source s length (λ _, Ok f)
     = Some (Ok parts) ∧ Forall fits_ring parts) ∧
  (∃ parts, prepare_fill features ring_bytes visibility destination d length value
              (λ _, Ok pattern) (λ _, Ok f)
     = Some (Ok parts) ∧ Forall fits_ring parts).
Proof using Hring.
  intros Hl Hvis Hd Hs H1 H2 H3 Hv H4 H5 Hap Hpat.
  assert (Hd' := Hd). assert (Hs' := Hs). destruct Hd' as (? & ? & ?), Hs' as (? & ? & ?).
  unfold prepare_copy, prepare_fill. rewrite !transfer_range_ok, !checked_add_ok by lia. split.
  - destruct (_ && _) eqn:E.
    { exfalso. to_prop. unfold saturating_add, apart in *. lia. }
    apply (prepare_transfer_all _ limit); [done..|]. intros o n Ho Hn Hon.
    rewrite !transfer_range_ok by lia.
    destruct (copy_front features ring_bytes visibility destination source Hd Hs (d + o) (s + o) n (Ok f))
      as (front & ops & -> & _ & _ & Hlen & _); try lia; [unfold apart in *; lia|].
    destruct (sdma_prepared_fits front [source; destination] f limit n) as (p & -> & Hp); try done; [lia|].
    by exists p.
  - apply (prepare_transfer_all _ limit); [done..|]. intros o n Ho Hn Hon.
    rewrite !transfer_range_ok by lia.
    destruct (fill_front features ring_bytes visibility destination Hd (d + o) n value pattern
                (Ok pattern) (Ok f)) as (front & ops & buffers & -> & _ & _ & Hlen & _); try done; try lia.
    destruct (sdma_prepared_fits front buffers f limit n) as (p & -> & Hp); try done; [|by exists p].
    pose proof (Z.div_pos (n + (2 ^ 20 - 1)) (2 ^ 20)). lia.
Qed.
End Theorems.

(** ** Witnesses *)

Definition demo_transition : CacheTransition := mkTransition KNone XNone ONone 0 (mkNative 1 0 0 0 0).
Definition demo_facts (b : Buffer) (producer consumer : MemorySite) : Result VisibilityFacts :=
  Ok (mkFacts true demo_transition demo_transition SSystem SSystem None).
Definition demo_destination : Buffer := mkBuffer 0 0x400000 0x1000000 true.
Definition demo_source : Buffer := mkBuffer 1 0x400000 0x2000000 false.
Definition demo_fence : Buffer := mkBuffer 2 64 0x3000000 true.
Definition demo_pattern : Buffer := mkBuffer 3 64 0x3001000 true.

Lemma sdma_transfers_fit_the_ring_witness :
  ∃ parts, prepare_copy 5 4096 demo_facts demo_destination 3 demo_source 5 0x200001 (λ _, Ok demo_fence)
    = Some (Ok parts) ∧ Forall (fits_ring 4096) parts.
Proof.
  refine (proj1 (sdma_transfers_fit_the_ring 5 4096 demo_facts _ demo_destination demo_source 3 5
    0x200001 7 demo_pattern demo_fence (68 * 2 ^ 20) _ _ _ _ _ _ _ _ _ _ _ _));
    try (unfold buffer_ok, usize_max, apart; simpl; lia); try reflexivity.
  intros b. unfold sdma_visibility. by destruct (host_mapped b).
Defined.

(** The parts of a concrete copy and fill, for the witnesses below. *)
Definition demo_parts : list Prepared :=
  match prepare_copy 5 4096 demo_facts demo_destination 3 demo_source 5 100 (λ _, Ok demo_fence) with
  | Some (Ok parts) => parts | _ => [] end.
Definition demo_fill_parts : list Prepared :=
  match prepare_fill 1 4096 demo_facts demo_destination 3 100 9 (λ _, Ok demo_pattern) (λ _, Ok demo_fence) with
  | Some (Ok parts) => parts | _ => [] end.
Definition demo_memory (x : Z) : Z := if within 0x3001000 4 x then 9 else x mod 251.

Lemma sdma_copy_is_exact_witness :
  ∃ m', run_parts ((λ p, (p, 7)) <$> demo_parts) demo_memory = Some m' ∧ m' 0x1000010 = demo_memory 0x2000012.
Proof.
  destruct (sdma_copy_is_exact 5 4096 demo_facts ltac:(unfold usize_max; lia) demo_destination 3
    demo_source 5 100 (λ _, Ok demo_fence) demo_parts ((λ p, (p, 7)) <$> demo_parts) demo_memory)
    as (m' & Hrun & Hm'); try (unfold buffer_ok, usize_max; simpl; lia);
    try match goal with |- _ = _ => vm_compute; reflexivity end.
  - intros o f [= <-]. unfold apart_from, apart. simpl. lia.
  - exists m'. split; [done|]. rewrite Hm'; [reflexivity|]. intros o f [= <-]. reflexivity.
Defined.

Lemma sdma_fill_is_exact_witness :
  ∃ m', run_parts ((λ p, (p, 7)) <$> demo_fill_parts) demo_memory = Some m' ∧ m' 0x1000003 = 9.
Proof.
  destruct (sdma_fill_is_exact 1 4096 demo_facts ltac:(unfold usize_max; lia) demo_destination 3
    100 9 (λ _, Ok demo_pattern) (λ _, Ok demo_fence) demo_fill_parts
    ((λ p, (p, 7)) <$> demo_fill_parts) demo_memory)
    as (m' & Hrun & Hm'); try (unfold buffer_ok, usize_max; simpl; lia);
    try match goal with |- _ = _ => vm_compute; reflexivity end.
  - intros o. exists demo_pattern. split; [done|]. split; [unfold apart_from, apart; simpl; lia|].
    intros i Hi. unfold demo_memory. rewrite (proj2 (within_spec _ _ _)) by (cbn [address demo_pattern]; lia).
    split; [done|]. intros o' f [= <-]. apply within_false. cbn [address demo_fence demo_pattern]. lia.
  - intros o f [= <-]. simpl. lia.
  - exists m'. split; [done|]. rewrite Hm'; [reflexivity|]. intros o f [= <-]. reflexivity.
Defined.
End Sdma.
