(* ===== verification/Profile.v ===== *)
(** * Device profiles

    The timestamps of src/src/fabric/profile.rs: [ProfileCapture::read] decodes
    the markers of one execution, refuses stale counters, and
    [interval_totals] measures the union and the span of the intervals.

    Times are kept in ticks; the conversion to milliseconds is floating point
    and is not modelled.  The theorems show that the union counts every covered
    tick once, in any order of the intervals, that it never exceeds the span
    (the subtraction of the gaps cannot wrap), and that the samples of one
    capture are disjoint in time and numbered without gaps. *)

From S2P Require Import Prelude NativeMemory.
Local Open Scope Z_scope.

Module Profile.

(** [DeviceInterval]. *)
Record DeviceInterval : Type := mkInterval { label : string; start_tick : Z; end_tick : Z }.
Definition by_start (a b : DeviceInterval) : Prop := start_tick a <= start_tick b.
Global Instance by_start_dec a b : Decision (by_start a b).
Proof. unfold by_start. apply _. Defined.
Global Instance by_start_total : Total by_start.
Proof. intros a b. unfold by_start. lia. Qed.
Global Instance by_start_trans : Transitive by_start.
Proof. intros a b c. unfold by_start. lia. Qed.

(** One iteration of the loop of [interval_totals] over [(end, union)]. *)
Definition total_step (state : Z * Z) (i : DeviceInterval) : Z * Z :=
  let '(stop, union) := state in
  let start := Z.max stop (start_tick i) in
  (Z.max stop (end_tick i), if start <? end_tick i then union + (end_tick i - start) else union).
Definition unwritten (i : DeviceInterval) : bool := (start_tick i =? 0) || (end_tick i <? start_tick i).

(** [interval_totals]: the union and the span in ticks. *)
Definition interval_totals (intervals : list DeviceInterval) : Result (Z * Z) :=
  match merge_sort by_start intervals with
  | [] => Ok (0, 0)
  | (i :: _) as ordered =>
      if existsb unwritten ordered
      then Err (Message "unwritten, reversed, or wrapped GPU timestamps")
      else let first := start_tick i in
           let '(stop, union) := foldl total_step (first, 0) ordered in
           Ok (union, stop - first)
  end.

(** [as_chunks::<16>] zipped with the labels. *)
Fixpoint decode_intervals (bytes : list Z) (labels : list string) : list DeviceInterval :=
  match labels with
  | [] => []
  | l :: rest =>
      let chunk := take 16 bytes in
      if (length chunk =? 16)%nat
      then mkInterval l (from_le_bytes (take 8 chunk)) (from_le_bytes (drop 8 chunk))
             :: decode_intervals (drop 16 bytes) rest
      else []
  end.

(** [ProfileCapture]; [read] is the result of reading its buffer. *)
Record ProfileCapture : Type := mkCapture {
  labels : list string; recorder : Z; execution : Z; previous_end : Z }.
Definition max_end (l : list DeviceInterval) : Z := foldr (λ i n, Z.max (end_tick i) n) 0 l.

(** [ProfileCapture::new] with the bytes of its buffer: [load] and [allocated]
    are the outcomes of loading the marker entries and allocating the buffer,
    [next_recorder] is the process counter of captures. *)
Definition capture_new (next_recorder : Z) (labels : list string) (load allocated : Result unit)
    : Z * Result (ProfileCapture * Z) :=
  match labels with
  | [] => (next_recorder, Err (Message "empty profile"))
  | _ =>
      match (let? bytes := ok_or (checked_mul (Z.of_nat (length labels)) 16) (Message "profile size overflow") in
             let? _ := load in let? _ := allocated in Ok bytes) with
      | Err e => (next_recorder, Err e)
      | Ok bytes =>
          match checked_add next_recorder 1 with
          | None => (next_recorder, Err (Message "profile recorder identity exhausted"))
          | Some next => (next, Ok (mkCapture labels next_recorder 0 0, bytes))
          end
      end
  end.

(** [ProfileCapture::read]: the intervals, their union, their span and the
    sample number. *)
Definition read (c : ProfileCapture) (bytes : Result (list Z))
    : ProfileCapture * Result (list DeviceInterval * Z * Z * Z) :=
  match bytes with
  | Err e => (c, Err e)
  | Ok bytes =>
      let intervals := decode_intervals bytes (labels c) in
      match interval_totals intervals with
      | Err e => (c, Err e)
      | Ok (union, span) =>
          if existsb (λ i, start_tick i <=? previous_end c) intervals
          then (c, Err (Message "stale or reset GPU profile counter"))
          else
            let c := mkCapture (labels c) (recorder c) (execution c) (max_end intervals) in
            match checked_add (execution c) 1 with
            | None => (c, Err (Message "profile sample identity exhausted"))
            | Some n => (mkCapture (labels c) (recorder c) n (previous_end c), Ok (intervals, union, span, n))
            end
      end
  end.

(** ** The union of intervals *)

(** The ticks an interval covers, and those of a list. *)
Definition ticks (i : DeviceInterval) : gset Z :=
  list_to_set (seqZ (start_tick i) (end_tick i - start_tick i)).
Definition covered (l : list DeviceInterval) : gset Z := ⋃ (ticks <$> l).

Lemma elem_of_ticks i t : t ∈ ticks i ↔ start_tick i <= t < end_tick i.
Proof. unfold ticks. rewrite elem_of_list_to_set, elem_of_seqZ. lia. Qed.

Lemma elem_of_covered l t : t ∈ covered l ↔ ∃ i, i ∈ l ∧ start_tick i <= t < end_tick i.
Proof.
  unfold covered. rewrite elem_of_union_list. setoid_rewrite list_elem_of_fmap.
  setoid_rewrite <-elem_of_ticks. naive_solver.
Qed.

Lemma covered_perm l k : l ≡ₚ k → covered l = covered k.
Proof. intros Hp. apply set_eq. intros t. rewrite !elem_of_covered. by setoid_rewrite Hp. Qed.

Lemma size_segment a b : size (list_to_set (C := gset Z) (seqZ a (b - a))) = Z.to_nat (b - a).
Proof. rewrite size_list_to_set by apply NoDup_seqZ. by rewrite length_seqZ. Qed.

(** What the loop knows after the intervals [done], sorted by start. *)
Record measured (first : Z) (done : list DeviceInterval) (stop union : Z) : Prop := {
  measured_size : union = Z.of_nat (size (covered done));
  measured_within : ∀ t, t ∈ covered done → first <= t < stop;
  measured_first : first <= stop;
  measured_ends : ∀ i, i ∈ done → end_tick i <= stop;
  measured_stop : stop = first ∨ ∃ i, i ∈ done ∧ end_tick i = stop;
  measured_tail : ∀ s t, Forall (λ i, start_tick i <= s) done → s <= t < stop → first < stop → t ∈ covered done }.

Lemma covered_snoc l i : covered (l ++ [i]) = covered l ∪ ticks i.
Proof. apply set_eq. intros t. rewrite elem_of_union, elem_of_ticks, !elem_of_covered. set_solver. Qed.

Lemma total_step_measured first l stop union i stop' union' :
  measured first l stop union → first <= start_tick i <= end_tick i →
  Forall (λ j, start_tick j <= start_tick i) l →
  total_step (stop, union) i = (stop', union') → measured first (l ++ [i]) stop' union'.
Proof.
  intros [Hsize Hin Hfirst Hends Hstop Htail] Hi Hsorted [= <- <-].
  assert (covered (l ++ [i]) = covered l ∪ list_to_set (seqZ (Z.max stop (start_tick i))
            (end_tick i - Z.max stop (start_tick i)))) as Heq.
  { rewrite covered_snoc. apply set_eq. intros t.
    rewrite !elem_of_union, elem_of_ticks, elem_of_list_to_set, elem_of_seqZ.
    split; intros [Ht|Ht]; auto; [|right; lia].
    destruct (decide (t < stop)); [left|right; lia]. apply (Htail (start_tick i)); [done|lia..]. }
  split.
  - rewrite Heq, size_union, size_segment.
    + case_bool; lia.
    + intros t Ht. rewrite elem_of_list_to_set, elem_of_seqZ. apply Hin in Ht. lia.
  - intros t. rewrite covered_snoc, elem_of_union, elem_of_ticks. intros [Ht|Ht]; [apply Hin in Ht|]; lia.
  - lia.
  - intros j. rewrite elem_of_app, list_elem_of_singleton. intros [Hj| ->]; [apply Hends in Hj|]; lia.
  - destruct (Z.max_spec stop (end_tick i)) as [[_ ->]|[_ ->]].
    + right. exists i. set_solver.
    + destruct Hstop as [->|(j & Hj & <-)]; [by left|right; exists j; set_solver].
  - intros s t Hs Ht Hlt. rewrite covered_snoc, elem_of_union, elem_of_ticks.
    apply Forall_app in Hs as [Hs [Hsi _]%Forall_cons].
    destruct (decide (t < stop)) as [|]; [|right; lia].
    destruct (decide (first < stop)); [left; apply (Htail s); [done|lia..]|lia].
Qed.

Lemma totals_measured first l rest stop union stop' union' :
  measured first l stop union → StronglySorted by_start (l ++ rest) →
  Forall (λ i, first <= start_tick i <= end_tick i) rest →
  foldl total_step (stop, union) rest = (stop', union') → measured first (l ++ rest) stop' union'.
Proof.
  revert l stop union. induction rest as [|i rest IH]; intros l stop union Hm Hs Hr; cbn [foldl].
  { intros [= <- <-]. by rewrite app_nil_r. }
  destruct (total_step (stop, union) i) as [stop1 union1] eqn:Hstep. intros Hf.
  apply Forall_cons in Hr as [Hi Hr]. rewrite (cons_middle i l rest), app_assoc in Hs |- *.
  apply (IH (l ++ [i]) stop1 union1); try done.
  apply (total_step_measured _ _ _ _ _ _ _ Hm Hi); [|done].
  apply Forall_forall. intros j Hj. rewrite <-app_assoc in Hs.
  apply (StronglySorted_app_1_elem_of _ _ _ _ _ Hs); set_solver.
Qed.

Lemma written_ordered l i : existsb unwritten l = false → i ∈ l → start_tick i <= end_tick i.
Proof.
  intros Hw Hi. pose proof (existsb_false_elem _ _ _ Hw Hi) as E. unfold unwritten in E. to_prop. lia.
Qed.

Lemma interval_totals_Ok l :
  existsb unwritten l = false → l ≠ [] →
  ∃ first last, first ∈ l ∧ last ∈ l ∧
    interval_totals l = Ok (Z.of_nat (size (covered l)), end_tick last - start_tick first) ∧
    ∀ i, i ∈ l → start_tick first <= start_tick i ∧ end_tick i <= end_tick last.
Proof.
  intros Hw Hl. unfold interval_totals. pose proof (merge_sort_Permutation by_start l) as Hp.
  pose proof (StronglySorted_merge_sort by_start l) as Hs.
  destruct (merge_sort by_start l) as [|f rest] eqn:E.
  { by apply Permutation_nil in Hp. }
  assert (existsb unwritten (f :: rest) = false) as Hw'.
  { by rewrite (existsb_perm _ _ _ Hp). }
  rewrite Hw'. assert (Forall (λ i, start_tick f <= start_tick i <= end_tick i) (f :: rest)) as Hall.
  { apply Forall_forall. intros i Hi. split.
    - apply StronglySorted_inv in Hs as [_ Hs]. rewrite Forall_forall in Hs.
      apply elem_of_cons in Hi as [->|Hi]; [lia|by apply Hs].
    - by apply (written_ordered _ _ Hw'). }
  destruct (foldl total_step (start_tick f, 0) (f :: rest)) as [stop union] eqn:Hf.
  assert (measured (start_tick f) ([] ++ f :: rest) stop union) as [Hsize _ _ Hends Hstop _].
  { eapply totals_measured; try done. by split; set_solver by lia. }
  simpl in Hsize, Hends, Hstop. rewrite (covered_perm _ _ Hp) in Hsize. subst union.
  assert (∃ last, last ∈ f :: rest ∧ end_tick last = stop) as (last & Hlast & <-).
  { destruct Hstop as [->|?]; [|done]. exists f. split; [by left|].
    apply Forall_cons in Hall as [? _]. specialize (Hends f ltac:(by left)). lia. }
  rewrite Forall_forall in Hall. assert (∀ i, i ∈ l ↔ i ∈ f :: rest) as Hin by (intros; by rewrite Hp).
  exists f, last. split_and!; [apply Hin; by left|by apply Hin|done|].
  intros i Hi%Hin. split; [by apply Hall|by apply Hends].
Qed.

Lemma interval_totals_Err l :
  existsb unwritten l = true →
  interval_totals l = Err (Message "unwritten, reversed, or wrapped GPU timestamps").
Proof.
  intros Hw. unfold interval_totals. pose proof (merge_sort_Permutation by_start l) as Hp.
  assert (existsb unwritten (merge_sort by_start l) = true) as Hw'.
  { by rewrite (existsb_perm _ _ _ Hp). }
  destruct (merge_sort by_start l); [done|]. by rewrite Hw'.
Qed.

Lemma covered_span l first last :
  first ∈ l → (∀ i, i ∈ l → start_tick first <= start_tick i ∧ end_tick i <= end_tick last) →
  Z.of_nat (size (covered l)) <= Z.max 0 (end_tick last - start_tick first).
Proof.
  intros Hf Hall.
  assert (covered l ⊆ list_to_set (seqZ (start_tick first) (end_tick last - start_tick first))) as Hsub.
  { intros t. rewrite elem_of_covered, elem_of_list_to_set, elem_of_seqZ.
    intros (i & Hi & Ht). apply Hall in Hi. lia. }
  apply subseteq_size in Hsub. rewrite size_segment in Hsub. lia.
Qed.

(** The totals of a profile are exact: they are refused exactly when a
    marker was not written or an interval is reversed; otherwise the union is
    the number of ticks covered by at least one interval, whatever their order
    and overlap, the span runs from the earliest start to the latest end, and
    the union never exceeds the span, so the gaps do not wrap. *)
Theorem interval_totals_exact l :
  if existsb unwritten l
  then interval_totals l = Err (Message "unwritten, reversed, or wrapped GPU timestamps")
  else ∃ span, interval_totals l = Ok (Z.of_nat (size (covered l)), span) ∧
         Z.of_nat (size (covered l)) <= span ∧
         match l with
         | [] => span = 0
         | _ => ∃ first last, first ∈ l ∧ last ∈ l ∧ span = end_tick last - start_tick first ∧
                  ∀ i, i ∈ l → start_tick first <= start_tick i ∧ end_tick i <= end_tick last
         end.
Proof.
  destruct (existsb unwritten l) eqn:Hw; [by apply interval_totals_Err|].
  destruct (decide (l = [])) as [->|Hl]; [by exists 0|].
  destruct (interval_totals_Ok l Hw Hl) as (f & la & Hf & Hla & -> & Hall).
  eexists. split; [done|]. split; [|by destruct l; eauto 10].
  pose proof (covered_span l f la Hf Hall). destruct (Hall f Hf) as [_ Hend].
  pose proof (written_ordered _ _ Hw Hf). lia.
Qed.

(** ** Samples *)

(** The markers a complete execution leaves in the buffer. *)
Definition marker_bytes (l : list DeviceInterval) : list Z :=
  l ≫= λ i, le_bytes 8 (start_tick i) ++ le_bytes 8 (end_tick i).

Lemma decode_marker_bytes l :
  Forall (λ i, 0 <= start_tick i <= u64_max ∧ 0 <= end_tick i <= u64_max) l →
  decode_intervals (marker_bytes l) (label <$> l) = l.
Proof.
  induction 1 as [|i l [Hs He] _ IH]; [done|].
  unfold marker_bytes. rewrite bind_cons. cbn [fmap list_fmap decode_intervals]. cbv beta.
  rewrite !take_app_length', !drop_app_length' by (rewrite ?length_app, !length_le_bytes; done).
  rewrite length_app, !length_le_bytes. cbn [Nat.add Nat.eqb].
  rewrite !le_roundtrip, !Z.mod_small by (unfold u64_max in *; lia).
  unfold marker_bytes in IH. rewrite IH. by destruct i.
Qed.

Lemma length_decode_intervals bytes labels :
  Z.of_nat (length bytes) = 16 * Z.of_nat (length labels) →
  length (decode_intervals bytes labels) = length labels.
Proof.
  revert bytes. induction labels as [|l labels IH]; intros bytes Hb; cbn [decode_intervals length]; [done|].
  simpl length in Hb. rewrite length_take, (proj2 (Nat.eqb_eq _ _)) by lia.
  simpl. rewrite IH; [done|]. rewrite length_drop. lia.
Qed.

Lemma max_end_ge l i : i ∈ l → end_tick i <= max_end l.
Proof.
  induction l as [|j l IH]; [by intros ?%elem_of_nil|]. intros [->|Hi]%elem_of_cons; simpl; [lia|].
  specialize (IH Hi). lia.
Qed.

(** The samples returned by reading the buffer again and again. *)
Fixpoint samples (c : ProfileCapture) (inputs : list (Result (list Z)))
    : list (list DeviceInterval * Z * Z * Z) :=
  match inputs with
  | [] => []
  | bytes :: rest =>
      match read c bytes with
      | (c, Ok s) => s :: samples c rest
      | (c, Err _) => samples c rest
      end
  end.
Definition sample_intervals (s : list DeviceInterval * Z * Z * Z) : list DeviceInterval := s.1.1.1.

Lemma read_spec c bytes :
  let '(c', r) := read c bytes in
  labels c' = labels c ∧
  match r with
  | Err _ => execution c' = execution c ∧ (c' = c ∨ usize_max <= execution c)
  | Ok (l, union, span, n) =>
      ∃ b, bytes = Ok b ∧ l = decode_intervals b (labels c) ∧ interval_totals l = Ok (union, span) ∧
        n = execution c + 1 ∧ execution c' = n ∧ previous_end c' = max_end l ∧
        ∀ i, i ∈ l → previous_end c < start_tick i
  end.
Proof.
  unfold read. destruct bytes as [b|e]; [|by eauto].
  destruct (interval_totals _) as [[union span]|] eqn:E; [|by eauto].
  destruct (existsb _ _) eqn:Hs; [by eauto|]. cbn [execution labels].
  destruct (checked_add (execution c) 1) as [n|] eqn:En; cbn [labels execution previous_end].
  - apply checked_add_Some in En as [-> _]. split; [done|]. exists b. split_and!; try done.
    intros i Hi. pose proof (existsb_false_elem _ _ _ Hs Hi) as Hlt. cbv beta in Hlt. to_prop. lia.
  - split; [done|]. split; [done|]. right. unfold checked_add in En. case_bool; [done|]. lia.
Qed.

Lemma samples_exhausted c inputs : usize_max <= execution c → samples c inputs = [].
Proof.
  revert c. induction inputs as [|b inputs IH]; intros c Hc; [done|]. cbn [samples].
  pose proof (read_spec c b) as Hr. unfold read in *.
  destruct b as [b|]; [|by apply IH].
  destruct (interval_totals _) as [[union span]|]; [|by apply IH].
  destruct (existsb _ _); [by apply IH|]. cbn [execution labels] in *.
  destruct (checked_add (execution c) 1) as [n|] eqn:En; [|by apply IH].
  apply checked_add_Some in En as [-> ?]. lia.
Qed.

Lemma samples_spec c inputs k s :
  labels c ≠ [] →
  Forall (λ r, ∀ b, r = Ok b → Z.of_nat (length b) = 16 * Z.of_nat (length (labels c))) inputs →
  samples c inputs !! k = Some s →
  s.2 = execution c + Z.of_nat k + 1 ∧
  interval_totals (sample_intervals s) = Ok (s.1.1.2, s.1.2) ∧
  length (sample_intervals s) = length (labels c) ∧
  (∀ i, i ∈ sample_intervals s → previous_end c < start_tick i) ∧
  ∀ j s' i i', (j < k)%nat → samples c inputs !! j = Some s' → i ∈ sample_intervals s' →
    i' ∈ sample_intervals s → end_tick i < start_tick i'.
Proof.
  intros Hl. revert c k s Hl. induction inputs as [|b inputs IH]; intros c k s Hl Hb; [done|].
  apply Forall_cons in Hb as [Hb Hrest]. cbn [samples]. pose proof (read_spec c b) as Hr.
  destruct (read c b) as [c' [[[[l u] sp] n]|e]]; destruct Hr as [Hlab Hr].
  - destruct Hr as (bs & -> & -> & Htot & -> & Hex & Hprev & Hstart). rewrite <-Hlab in Hrest.
    destruct k as [|k]; cbn [lookup list_lookup].
    + intros [= <-]. cbn. split_and!; [lia|done|by apply length_decode_intervals, Hb|done|intros; lia].
    + intros Hs. destruct (IH c' k s) as (Hn & Ht & Hlen & Hst & Hord); [by rewrite Hlab|done|done|].
      rewrite Hex in Hn. rewrite Hprev in Hst. rewrite Hlab in Hlen.
      assert (∀ i i', i ∈ decode_intervals bs (labels c) → i' ∈ sample_intervals s →
                end_tick i < start_tick i') as Hhead.
      { intros i i' Hi Hi'. apply max_end_ge in Hi. apply Hst in Hi'. lia. }
      split_and!; [lia|done|done| |].
      * intros i Hi. destruct (decode_intervals bs (labels c)) as [|i0 l0] eqn:Ed.
        { apply (f_equal length) in Ed. rewrite length_decode_intervals in Ed by (by apply Hb).
          by destruct (labels c). }
        pose proof (Hhead i0 i ltac:(by left) Hi). pose proof (Hstart i0 ltac:(by left)).
        destruct (existsb unwritten (i0 :: l0)) eqn:Hw.
        { by rewrite interval_totals_Err in Htot. }
        pose proof (written_ordered _ i0 Hw ltac:(by left)). lia.
      * intros [|j] s' i i' Hj Hs' Hi Hi'; cbn [lookup list_lookup] in Hs'.
        -- injection Hs' as <-. by apply Hhead.
        -- by apply (Hord j s' i i'); [lia|..].
  - destruct Hr as (Hex & [->|Hmax]); [by apply IH|].
    intros Hs. rewrite samples_exhausted in Hs by lia. done.
Qed.

Lemma capture_new_Ok n n' names load allocated c size :
  capture_new n names load allocated = (n', Ok (c, size)) →
  names ≠ [] ∧ c = mkCapture names n 0 0 ∧ size = 16 * Z.of_nat (length names).
Proof.
  unfold capture_new. destruct names as [|x names]; [done|].
  destruct (checked_mul _ _) as [bytes|] eqn:Hb; [|done]. destruct load; [|done]. destruct allocated; [|done].
  cbn [ok_or result_bind]. destruct (checked_add n 1); [|done]. intros [= _ <- <-].
  apply checked_mul_Some in Hb as [-> _]. split_and!; [done|done|lia].
Qed.

(** The samples of one capture are numbered 1, 2, 3, ... without gaps, each
    has one interval per label, and every interval of a later sample starts
    after every interval of an earlier one has ended, whatever reads fail in
    between; a buffer holding a marker pair per label reads back as exactly
    these intervals. *)
Theorem profile_samples_are_ordered n n' names load allocated c size inputs :
  capture_new n names load allocated = (n', Ok (c, size)) →
  Forall (λ r, ∀ b, r = Ok b → Z.of_nat (length b) = size) inputs →
  (∀ k s, samples c inputs !! k = Some s →
     s.2 = Z.of_nat k + 1 ∧ length (sample_intervals s) = length names ∧
     ∀ j s' i i', (j < k)%nat → samples c inputs !! j = Some s' → i ∈ sample_intervals s' →
       i' ∈ sample_intervals s → end_tick i < start_tick i') ∧
  ∀ l, Forall (λ i, 0 <= start_tick i <= u64_max ∧ 0 <= end_tick i <= u64_max) l → label <$> l = names →
    decode_intervals (marker_bytes l) (labels c) = l.
Proof.
  intros Hnew Hin. apply capture_new_Ok in Hnew as (Hn & -> & ->). split.
  - intros k s Hs. destruct (samples_spec (mkCapture names n 0 0) _ _ _ Hn Hin Hs) as (Hk & _ & Hlen & _ & Hord).
    split_and!; [simpl in Hk; lia|done|done].
  - intros l Hl <-. by apply decode_marker_bytes.
Qed.

Definition demo_intervals (base : Z) : list DeviceInterval :=
  [mkInterval "a" (base + 1) (base + 5); mkInterval "b" (base + 3) (base + 9)].

Lemma profile_samples_are_ordered_witness :
  let inputs := [Ok (marker_bytes (demo_intervals 10)); Err (Busy "busy"); Ok (marker_bytes (demo_intervals 10));
                 Ok (marker_bytes (demo_intervals 30))] in
  length (samples (mkCapture ["a"; "b"] 7 0 0) inputs) = 2%nat ∧
  ∀ k s, samples (mkCapture ["a"; "b"] 7 0 0) inputs !! k = Some s → s.2 = Z.of_nat k + 1.
Proof.
  intros inputs. split; [vm_compute; reflexivity|]. intros k s Hs.
  refine (proj1 (proj1 (profile_samples_are_ordered 7 8 ["a"; "b"] (Ok tt) (Ok tt) (mkCapture ["a"; "b"] 7 0 0) 32 inputs _ _) k s Hs)).
  - reflexivity.
  - repeat constructor; intros b [= <-]; vm_compute; reflexivity.
Defined.
End Profile.
