(* ===== verification/NativeQueue.v ===== *)
(** * Native queues

    The producer side of a native queue, src/src/fabric/queue.rs:
    [Work::retire], [QueueInner::poll], [Completion::refresh],
    [PreparedGpu::dispatch_one], [dispatch_wait], [wait_for_capacity] and the
    dependency snapshot of [prepare_wait], over the lease counts of
    NativeMemory.

    A [World] holds every prepared command with its [Work] and every queue.
    The device consumes ring words and stores completion values on its own;
    its moves, the host's and those of other threads are the steps of [step],
    so the theorems hold for every interleaving.  [history] and [log] record
    what was published and are read by no operation.

    The theorems show that the ring is a FIFO whose frames the device reads
    intact, that the buffers of every unfinished submission stay leased, that
    cached retirement never runs ahead of the device and of the awaited
    points, and that a drained queue has released everything. *)

From S2P Require Import Prelude NativeMemory Pm4.
Import NativeMemory Pm4.
Local Open Scope Z_scope.

Module NativeQueue.

(** [Work] with its completion word. *)
Record Work : Type := mkWork {
  fence : Z;
  buffers : list Buffer;
  held : list Buffer;
  retired : Z;
  active : Z;
  dependencies : list (nat * Z) }.

(** [PreparedInner] and its queue; a command and its work share an identity. *)
Record Command : Type := mkCommand {
  queue_of : nat;
  template : Template;
  previous : Z;
  work : Work }.

(** [QueueInner] with [QueueState], the native mapping and the device side. *)
Record Queue : Type := mkQueue {
  capacity : Z;
  sdma : bool;
  alive : bool;
  ring : list Z;
  write : Z;
  pending : list (nat * Z);
  read : Z;
  executed : nat;
  history : list (nat * Z);
  log : list Z }.

Record World : Type := mkWorld {
  store : Store;
  commands : gmap nat Command;
  queues : gmap nat Queue;
  guards : list Buffer;
  next : nat }.

Definition set_work (c : Command) (k : Work) : Command :=
  mkCommand (queue_of c) (template c) (previous c) k.
Definition set_command (w : World) (id : nat) (c : Command) : World :=
  mkWorld (store w) (<[id := c]> (commands w)) (queues w) (guards w) (next w).
Definition set_store (w : World) (st : Store) : World :=
  mkWorld st (commands w) (queues w) (guards w) (next w).
Definition set_queue (w : World) (q : nat) (x : Queue) : World :=
  mkWorld (store w) (commands w) (<[q := x]> (queues w)) (guards w) (next w).
Definition set_pending (x : Queue) (l : list (nat * Z)) : Queue :=
  mkQueue (capacity x) (sdma x) (alive x) (ring x) (write x) l (read x) (executed x) (history x) (log x).

(** [Work::retire].  A dependency is retired first; the work's leases are
    dropped when the device has reached its latest submission. *)
Section Retire.
Context (retire : World → nat → Z → option (World * bool)).
Fixpoint retire_dependencies (w : World) (deps : list (nat * Z)) : option (World * bool) :=
  match deps with
  | [] => Some (w, true)
  | (id, point) :: rest =>
      '(w, done) ← retire w id point;
      if done : bool then retire_dependencies w rest else Some (w, false)
  end.
End Retire.
Definition settle (w : World) (id : nat) (c : Command) (completed : Z) : World :=
  let k := work c in
  if active k <=? completed
  then set_command (set_store w (drop_all (store w) (held k))) id
         (set_work c (mkWork (fence k) (buffers k) [] completed (active k) (dependencies k)))
  else set_command w id
         (set_work c (mkWork (fence k) (buffers k) (held k) completed (active k) (dependencies k))).
Fixpoint retire (fuel : nat) (w : World) (id : nat) (value : Z) : option (World * bool) :=
  match fuel with
  | O => None
  | S fuel =>
      c ← commands w !! id;
      if value <=? retired (work c) then Some (w, true)
      else
        let completed := fence (work c) in
        if value <=? completed then
          '(w, done) ← retire_dependencies (retire fuel) w (dependencies (work c));
          if done : bool then Some (settle w id c completed, true) else Some (w, false)
        else Some (w, false)
  end.

(** [QueueInner::poll] on queue [q]. *)
Definition poll (w : World) (q id : nat) (value : Z) : option (World * Result bool) :=
  '(w, done) ← retire (S id) w id value;
  x ← queues w !! q;
  Some (w, if done : bool then Ok true
           else if alive x then Ok false else Err (DeviceLost "PM4 queue failed with native status")).

(** The loop that pops the retired front of [pending]: the submissions left,
    also when a poll fails. *)
Fixpoint reap_from (w : World) (q : nat) (l : list (nat * Z))
    : option (World * list (nat * Z) * Result unit) :=
  match l with
  | [] => Some (w, [], Ok tt)
  | (id, value) :: rest =>
      '(w, r) ← poll w q id value;
      match r with
      | Err e => Some (w, l, Err e)
      | Ok false => Some (w, l, Ok tt)
      | Ok true => reap_from w q rest
      end
  end.
Definition reap (w : World) (q : nat) : option (World * Result unit) :=
  x ← queues w !! q;
  '(w, left_, r) ← reap_from w q (pending x);
  Some (set_queue w q (set_pending x left_), r).

(** [Completion::is_complete], [Completion::refresh]. *)
Definition is_complete (w : World) (id : nat) (value : Z) : bool :=
  match commands w !! id with Some c => value <=? retired (work c) | None => false end.
Definition refresh (w : World) (id : nat) (value : Z) : option (World * Result bool) :=
  c ← commands w !! id;
  '(w, r) ← poll w (queue_of c) id value;
  match r with
  | Err e => Some (w, Err e)
  | Ok false => Some (w, Ok false)
  | Ok true => '(w, r) ← reap w (queue_of c); Some (w, result_map (λ _, true) r)
  end.

(** The words of a publication: padding to the end of the ring when the frame
    does not fit before it, then the frame with its completion value. *)
Definition padding (is_sdma : bool) (wrap : Z) : list Z :=
  if wrap =? 0 then []
  else if is_sdma then replicate (Z.to_nat wrap) 0
       else header 0x10 wrap :: replicate (Z.to_nat wrap - 1) 0.
Definition ring_position (capacity write : Z) : Z := Z.land write (capacity - 1).

Definition publish (x : Queue) (id : nat) (value wrap published : Z) (frame : list Z) : Queue :=
  let cursor := ring_position (capacity x) (write x) in
  let ring := list_inserts (Z.to_nat cursor) (padding (sdma x) wrap) (ring x) in
  let start := if wrap =? 0 then cursor else 0 in
  let ring := list_inserts (Z.to_nat start) frame ring in
  mkQueue (capacity x) (sdma x) (alive x) ring published (pending x ++ [(id, value)])
    (read x) (executed x) (history x ++ [(id, value)]) (log x ++ padding (sdma x) wrap ++ frame).

(** The outcome of one iteration of [dispatch_one]: its completion, an error,
    or the submission to await before the next iteration. *)
Inductive Outcome : Type :=
| Published (value : Z)
| Failed (e : Error)
| Await (id : nat) (value : Z).


(** The state after the checks: leases, [active], the ring and the indices. *)
Definition commit (w : World) (id : nat) (c : Command) (x : Queue) (value wrap required : Z)
    : World * Outcome :=
  let scale := if sdma x then 4 else 1 in
  let published := write x + required in
  if u64_max <? published then (w, Failed (DeviceLost "native queue index exhausted"))
  else if u64_max <? published * scale then (w, Failed (DeviceLost "native queue byte index exhausted"))
  else
    let k := work c in
    let '(st, taken) := if bool_decide (held k = []) then retain_all (store w) (buffers k) []
                        else (store w, Ok (held k)) in
    match taken with
    | Err e => (set_store w st, Failed e)
    | Ok taken =>
        let k := mkWork (fence k) (buffers k) taken (retired k) value (dependencies k) in
        let c := mkCommand (queue_of c) (template c) value k in
        let x := publish x id value wrap published (<[fence_word (template c) := value]> (words (template c))) in
        (set_queue (set_command (set_store w st) id c) (queue_of c) x, Published value)
    end.

(** One iteration of [dispatch_one]. *)
Definition dispatch_one (w : World) (id : nat) (wait : bool) : option (World * Outcome) :=
  c ← commands w !! id;
  if 2 ^ 32 - 1 <? previous c + 1
  then Some (w, Failed (DeviceLost "prepared completion timeline exhausted"))
  else
    let value := previous c + 1 in
    let q := queue_of c in
    '(w, r) ← reap w q;
    match r with
    | Err e => Some (w, Failed e)
    | Ok _ =>
        c ← commands w !! id;
        x ← queues w !! q;
        let length := Z.of_nat (length (words (template c))) in
        let cursor := ring_position (capacity x) (write x) in
        let wrap := wrap_words (capacity x) cursor length in
        let required := wrap + length in
        let outstanding := Z.land ((write x - read x) mod 2 ^ 64) (capacity x - 1) in
        let full := if 4096 <=? Z.of_nat (List.length (pending x)) then Some "native queue submission capacity"%string
                    else if capacity x - outstanding <=? required then Some "native command ring is full"%string
                    else None in
        match full with
        | Some reason =>
            Some (w, if wait
                     then match pending x with
                          | [] => Failed (Busy "native command ring is full without pending work")
                          | (oldest, point) :: _ => Await oldest point
                          end
                     else Failed (Busy reason))
        | None => Some (commit w id c x value wrap required)
        end
    end.

(** The dependencies recorded by [prepare_wait]: the producer's pending prefix
    up to the awaited submission, or that submission alone. *)
Definition wait_dependencies (x : Queue) (id : nat) (value : Z) : list (nat * Z) :=
  match list_find (λ p, p = (id, value)) (pending x) with
  | Some (stop, _) => take (stop + 1) (pending x)
  | None => [(id, value)]
  end.

(** A newly prepared command. *)
Definition prepare (w : World) (q : nat) (t : Template) (bufs : list Buffer) (deps : list (nat * Z)) : World :=
  mkWorld (store w)
    (<[next w := mkCommand q t 0 (mkWork 0 bufs [] 0 0 deps)]> (commands w))
    (queues w) (guards w) (S (next w)).

(** The device consumes words, and stores the value of the next submission. *)
Definition consume (x : Queue) (n : Z) : Queue :=
  mkQueue (capacity x) (sdma x) (alive x) (ring x) (write x) (pending x) (read x + n) (executed x)
    (history x) (log x).
Definition store_fence (c : Command) (value : Z) : Command :=
  let k := work c in set_work c (mkWork value (buffers k) (held k) (retired k) (active k) (dependencies k)).
Definition execute (w : World) (q : nat) : option World :=
  x ← queues w !! q;
  '(id, value) ← history x !! executed x;
  c ← commands w !! id;
  Some (set_queue (set_command w id (store_fence c value)) q
    (mkQueue (capacity x) (sdma x) (alive x) (ring x) (write x) (pending x) (read x) (S (executed x))
       (history x) (log x))).
Definition fail (x : Queue) : Queue :=
  mkQueue (capacity x) (sdma x) false (ring x) (write x) (pending x) (read x) (executed x)
    (history x) (log x).

(** ** The ring as a FIFO *)

(** Every word from [lo] on is in its ring slot. *)
Definition fifo {A} (cap : Z) (ring log : list A) (lo : Z) : Prop :=
  ∀ i, lo <= i < Z.of_nat (length log) → ring !! Z.to_nat (i mod cap) = log !! Z.to_nat i.

Lemma fifo_append {A} cap (ring log : list A) lo k :
  0 < cap → 0 <= lo → Z.of_nat (length ring) = cap →
  Z.of_nat (length log) mod cap + Z.of_nat (length k) <= cap →
  Z.of_nat (length log) + Z.of_nat (length k) - lo <= cap →
  fifo cap ring log lo →
  fifo cap (list_inserts (Z.to_nat (Z.of_nat (length log) mod cap)) k ring) (log ++ k) lo.
Proof.
  intros Hc Hlo Hring Hfit Hroom Hf i Hi. rewrite length_app, Nat2Z.inj_add in Hi.
  set (n := Z.of_nat (length log)) in *. pose proof (Z.mod_pos_bound n cap Hc) as Hn.
  pose proof (Z.mod_pos_bound i cap Hc) as Hm.
  destruct (decide (i < n)) as [Hlt|Hge].
  - rewrite lookup_app_l by lia. rewrite <-Hf by lia.
    assert (i mod cap < n mod cap ∨ n mod cap + Z.of_nat (length k) <= i mod cap) as [Ho|Ho].
    { pose proof (Z.div_mod i cap ltac:(lia)) as Hdi. pose proof (Z.div_mod n cap ltac:(lia)) as Hdn.
      assert (n / cap = i / cap ∨ n / cap = i / cap + 1) as [E|E] by nia; rewrite E in Hdn; lia. }
    + by rewrite list_lookup_inserts_lt by lia.
    + by rewrite list_lookup_inserts_ge by lia.
  - assert (i mod cap = n mod cap + (i - n)) as ->.
    { symmetry. apply (Z.mod_unique_pos i cap (n / cap)); [lia|].
      pose proof (Z.div_mod n cap ltac:(lia)). lia. }
    rewrite lookup_app_r by lia. rewrite list_lookup_inserts by lia. f_equal. lia.
Qed.

Lemma ring_position_mod k w : 0 <= k → ring_position (2 ^ k) w = w mod 2 ^ k.
Proof.
  intros Hk. unfold ring_position. rewrite <-(Z.land_ones w k Hk). f_equal.
  by rewrite Z.ones_equiv, Z.sub_1_r.
Qed.

(** The bytes outstanding are computed from wrapped, masked indices. *)
Lemma outstanding_exact k w r :
  0 <= k → 0 <= r <= w → w - r < 2 ^ k → w <= u64_max → ring_position (2 ^ k) ((w - r) mod 2 ^ 64) = w - r.
Proof.
  intros Hk Hr Hd Hw. unfold u64_max in Hw. rewrite ring_position_mod by done.
  rewrite (Z.mod_small (w - r) (2 ^ 64)), Z.mod_small by lia. done.
Qed.

(** What the ring and the indices of a queue satisfy. *)
Record ring_ok (x : Queue) : Prop := {
  ring_capacity : ∃ k, 3 <= k ∧ capacity x = 2 ^ k;
  ring_length : Z.of_nat (length (ring x)) = capacity x;
  ring_log : Z.of_nat (length (log x)) = write x;
  ring_group : write x mod 8 = 0;
  ring_read : 0 <= read x <= write x;
  ring_room : write x - read x < capacity x;
  ring_index : write x <= u64_max;
  ring_fifo : fifo (capacity x) (ring x) (log x) (read x) }.

Lemma ring_wrap k write n :
  3 <= k → 0 <= write → write mod 8 = 0 → 0 < n →
  let cursor := ring_position (2 ^ k) write in
  let wrap := wrap_words (2 ^ k) cursor n in
  0 <= cursor < 2 ^ k ∧ 0 <= wrap ∧ wrap mod 8 = 0 ∧ cursor + wrap <= 2 ^ k ∧ (wrap = 0 ∨ wrap < n) ∧
  (wrap = 0 → cursor + n <= 2 ^ k) ∧ (wrap ≠ 0 → (write + wrap) mod 2 ^ k = 0).
Proof.
  intros Hk Hw H8 Hn. cbv zeta. rewrite ring_position_mod by lia.
  pose proof (Z.mod_pos_bound write (2 ^ k) ltac:(lia)) as Hc. set (cursor := write mod 2 ^ k) in *.
  assert (2 ^ k = 8 * 2 ^ (k - 3)) as Hpow by (change 8 with (2 ^ 3); rewrite <-Z.pow_add_r by lia; f_equal; lia).
  pose proof (Z.div_mod write (2 ^ k) ltac:(lia)) as Hdm. fold cursor in Hdm.
  assert (cursor mod 8 = 0) as Hc8.
  { replace cursor with (write + (- (2 ^ (k - 3) * (write / 2 ^ k))) * 8) by lia.
    by rewrite Z.mod_add by lia. }
  assert ((2 ^ k - cursor) mod 8 = 0) as Hd8.
  { rewrite Hpow. replace (8 * 2 ^ (k - 3) - cursor) with ((- cursor) + 2 ^ (k - 3) * 8) by lia.
    rewrite Z.mod_add by lia. by apply Z.mod_opp_l_z. }
  unfold wrap_words. case_bool; split_and!; try lia; try done.
  intros _. replace (write + (2 ^ k - cursor)) with ((write / 2 ^ k + 1) * 2 ^ k) by lia.
  apply Z.mod_mul. lia.
Qed.

Lemma padding_length is_sdma wrap : 0 <= wrap → Z.of_nat (length (padding is_sdma wrap)) = wrap.
Proof.
  intros Hw. unfold padding. destruct (wrap =? 0) eqn:E; to_prop; [by subst|].
  destruct is_sdma; simpl; rewrite length_replicate; lia.
Qed.

(** Publishing a frame that has room keeps the FIFO. *)
Lemma publish_ring_ok x id value frame :
  ring_ok x → (length frame mod 8 = 0)%nat → (0 < length frame)%nat →
  let n := Z.of_nat (length frame) in
  let wrap := wrap_words (capacity x) (ring_position (capacity x) (write x)) n in
  wrap + n < capacity x - (write x - read x) → write x + (wrap + n) <= u64_max →
  ring_ok (publish x id value wrap (write x + (wrap + n)) frame).
Proof.
  intros [[k [Hk Hcap]] Hlen Hlog H8 Hr Hroom Hidx Hf] Hm8 Hpos. cbv zeta. intros Hfull Hmax.
  set (n := Z.of_nat (length frame)) in *.
  rewrite Hcap in *. pose proof (ring_wrap k (write x) n Hk ltac:(lia) H8 ltac:(lia)) as Hw.
  cbv zeta in Hw. set (cursor := ring_position (2 ^ k) (write x)) in *.
  set (wrap := wrap_words (2 ^ k) cursor n) in *.
  destruct Hw as (Hcur & Hw0 & Hw8 & Hcw & Hwn & Hz & Hnz).
  assert (cursor = Z.of_nat (length (log x)) mod 2 ^ k) as Hcm by (rewrite Hlog; apply ring_position_mod; lia).
  pose proof (padding_length (sdma x) wrap Hw0) as Hpad.
  assert (n mod 8 = 0) as Hn8 by (subst n; rewrite <-(Nat2Z.inj_mod _ 8), Hm8; done).
  constructor; cbn [publish capacity ring log write read]; rewrite ?Hcap.
  - by exists k.
  - rewrite !length_inserts. by rewrite Hlen.
  - rewrite !length_app, !Nat2Z.inj_add, Hlog, Hpad. lia.
  - rewrite Z.add_mod, (Z.add_mod wrap), H8, Hw8, Hn8 by lia. done.
  - lia.
  - lia.
  - lia.
  - fold cursor. rewrite app_assoc.
    assert (fifo (2 ^ k) (list_inserts (Z.to_nat cursor) (padding (sdma x) wrap) (ring x))
              (log x ++ padding (sdma x) wrap) (read x)) as Hf1.
    { rewrite Hcm. by apply fifo_append; try lia. }
    replace (Z.to_nat (if wrap =? 0 then cursor else 0))
      with (Z.to_nat (Z.of_nat (length (log x ++ padding (sdma x) wrap)) mod 2 ^ k)).
    + apply fifo_append; try lia; [by rewrite length_inserts, Hlen|..|done];
        rewrite length_app, Nat2Z.inj_add, Hpad, Hlog; [|lia].
      destruct (decide (wrap = 0)) as [E|E]; [|rewrite (Hnz E); lia].
      rewrite E, Z.add_0_r, <-Hlog, <-Hcm. by apply Hz.
    + rewrite length_app, Nat2Z.inj_add, Hpad. f_equal. destruct (wrap =? 0) eqn:E; to_prop.
      * rewrite E, Z.add_0_r. by rewrite Hcm.
      * rewrite Hlog. by apply Hnz.
Qed.

Lemma consume_ring_ok x n : ring_ok x → 0 <= n → read x + n <= write x → ring_ok (consume x n).
Proof.
  intros [Hk Hlen Hlog H8 Hr Hroom Hidx Hf] Hn Hle.
  constructor; simpl; try done; try lia. intros i Hi. apply Hf. lia.
Qed.

(** ** The invariant *)

(** How many submissions of a command a list holds. *)
Definition count (id : nat) (l : list (nat * Z)) : Z :=
  zsum (λ p, if (p.1 =? id)%nat then 1 else 0) l.

Lemma count_concat id l k : count id (l ++ k) = count id l + count id k.
Proof. apply zsum_app. Qed.
Lemma count_nonneg id l : 0 <= count id l.
Proof. apply zsum_nonneg, Forall_forall. intros p _. case_bool; lia. Qed.
Lemma count_take_S id l i p :
  l !! i = Some p → count id (take (S i) l) = count id (take i l) + (if (p.1 =? id)%nat then 1 else 0).
Proof. intros Hi. rewrite (take_S_r _ _ _ Hi), count_concat. unfold count at 2. simpl. lia. Qed.
Lemma count_take_le id l i j : (i ≤ j)%nat → count id (take i l) <= count id (take j l).
Proof.
  intros Hij. rewrite <-(take_drop i (take j l)), count_concat, take_take, Nat.min_l by done.
  pose proof (count_nonneg id (drop i (take j l))). lia.
Qed.

(** A frame that can be published. *)
Definition template_ok (t : Template) : Prop :=
  (length (words t) mod 8 = 0)%nat ∧ (fence_word t < length (words t))%nat.

(** The part of a command's state that its submissions and the device decide. *)
Record command_ok (m : gmap nat Command) (id : nat) (c : Command) (x : Queue) : Prop := {
  ok_template : template_ok (template c);
  ok_previous : previous c = active (work c);
  ok_active : active (work c) = count id (history x);
  ok_fence : fence (work c) = count id (take (executed x) (history x));
  ok_dependencies : ∀ d p, (d, p) ∈ dependencies (work c) →
    (d < id)%nat ∧ ∃ cd, m !! d = Some cd ∧ p <= active (work cd) }.

Record queue_ok (m : gmap nat Command) (q : nat) (x : Queue) : Prop := {
  ok_ring : ring_ok x;
  ok_executed : (executed x <= length (history x))%nat;
  ok_pending : (length (pending x) <= 4096)%nat;
  ok_history : ∀ i id v, history x !! i = Some (id, v) →
    v = 1 + count id (take i (history x)) ∧ ∃ c, m !! id = Some c ∧ queue_of c = q }.

(** The cached retirement and the leases. *)
Record retire_ok (m : gmap nat Command) (id : nat) (c : Command) : Prop := {
  ok_retired : 0 <= retired (work c) <= fence (work c);
  ok_held : held (work c) = if retired (work c) <? active (work c) then buffers (work c) else [];
  ok_awaited : 0 < retired (work c) → ∀ d p cd, (d, p) ∈ dependencies (work c) →
    m !! d = Some cd → p <= retired (work cd) }.

Record inv (w : World) : Prop := {
  inv_next : ∀ id c, commands w !! id = Some c → (id < next w)%nat;
  inv_command : ∀ id c, commands w !! id = Some c →
    ∃ x, queues w !! queue_of c = Some x ∧ command_ok (commands w) id c x;
  inv_queue : ∀ q x, queues w !! q = Some x → queue_ok (commands w) q x;
  inv_retire : ∀ id c, commands w !! id = Some c → retire_ok (commands w) id c;
  inv_popped : ∀ q x, queues w !! q = Some x →
    ∃ n, pending x = drop n (history x) ∧
      ∀ i id v c, (i < n)%nat → history x !! i = Some (id, v) → commands w !! id = Some c →
        v <= retired (work c);
  inv_leases : ∀ cell, cell_uses (store w) cell =
    msum (λ c, uses_of cell (held (work c))) (commands w) + uses_of cell (guards w) }.

(** What retirement may change: only [retired], the leases and their counts. *)
Record evolves_command (c c' : Command) : Prop := {
  same_queue : queue_of c' = queue_of c;
  same_template : template c' = template c;
  same_previous : previous c' = previous c;
  same_fence : fence (work c') = fence (work c);
  same_buffers : buffers (work c') = buffers (work c);
  same_active : active (work c') = active (work c);
  same_dependencies : dependencies (work c') = dependencies (work c);
  more_retired : retired (work c) <= retired (work c') }.
Record evolves (w w' : World) : Prop := {
  same_queues : queues w' = queues w;
  same_guards : guards w' = guards w;
  same_next : next w' = next w;
  same_data : data (store w') = data (store w);
  evolves_forth : ∀ id c, commands w !! id = Some c →
    ∃ c', commands w' !! id = Some c' ∧ evolves_command c c';
  evolves_back : ∀ id c', commands w' !! id = Some c' →
    ∃ c, commands w !! id = Some c ∧ evolves_command c c' }.

Global Instance evolves_command_refl : Reflexive evolves_command.
Proof. intros c. by constructor. Qed.
Global Instance evolves_command_trans : Transitive evolves_command.
Proof. intros a b c [] []. constructor; congruence || lia. Qed.
Global Instance evolves_preorder : PreOrder evolves.
Proof.
  split.
  - intros w. constructor; try done; eauto using evolves_command_refl.
  - intros a b c H1 H2. destruct H1 as [Q1 G1 N1 D1 F1 B1], H2 as [Q2 G2 N2 D2 F2 B2].
    constructor; try congruence.
    + intros id x Hx. destruct (F1 _ _ Hx) as (y & Hy & Ey). destruct (F2 _ _ Hy) as (z & Hz & Ez).
      exists z. split; [done|]. by etrans.
    + intros id z Hz. destruct (B2 _ _ Hz) as (y & Hy & Ey). destruct (B1 _ _ Hy) as (x & Hx & Ex).
      exists x. split; [done|]. by etrans.
Qed.

(** ** Retirement keeps the invariant *)

Lemma evolves_command_ok w w' id c c' x :
  evolves w w' → evolves_command c c' → command_ok (commands w) id c x → command_ok (commands w') id c' x.
Proof.
  intros Hw Hc [Ht Hp Ha Hf Hd]. destruct Hc as [? Et Ep Ef ? Ea Ed ?].
  constructor; rewrite ?Et, ?Ep, ?Ea, ?Ef, ?Ed; try done.
  intros d p Hin. destruct (Hd d p Hin) as (Hlt & cd & Hcd & Hle). split; [done|].
  destruct (evolves_forth _ _ Hw _ _ Hcd) as (cd' & Hcd' & Hev). exists cd'.
  split; [done|]. by rewrite (same_active _ _ Hev).
Qed.

(** The parts of the invariant that retirement cannot affect. *)
Lemma evolves_static w w' :
  evolves w w' → inv w →
  (∀ id c, commands w' !! id = Some c → (id < next w')%nat) ∧
  (∀ id c, commands w' !! id = Some c → ∃ x, queues w' !! queue_of c = Some x ∧ command_ok (commands w') id c x) ∧
  (∀ q x, queues w' !! q = Some x → queue_ok (commands w') q x).
Proof.
  intros Hw Hinv. split_and!.
  - intros id c' Hc'. destruct (evolves_back _ _ Hw _ _ Hc') as (c & Hc & _).
    rewrite (same_next _ _ Hw). by eapply inv_next.
  - intros id c' Hc'. destruct (evolves_back _ _ Hw _ _ Hc') as (c & Hc & Hev).
    destruct (inv_command _ Hinv _ _ Hc) as (x & Hx & Hok). exists x.
    rewrite (same_queues _ _ Hw), (same_queue _ _ Hev). split; [done|]. by eapply evolves_command_ok.
  - intros q x Hx. rewrite (same_queues _ _ Hw) in Hx. destruct (inv_queue _ Hinv _ _ Hx) as [Hr He Hp Hh].
    constructor; try done. intros i id v Hi. destruct (Hh _ _ _ Hi) as (-> & c & Hc & Hq).
    split; [done|]. destruct (evolves_forth _ _ Hw _ _ Hc) as (c' & Hc' & Hev). exists c'.
    split; [done|]. by rewrite (same_queue _ _ Hev).
Qed.

Lemma evolves_popped w w' :
  evolves w w' → inv w → ∀ q x, queues w' !! q = Some x →
    ∃ n, pending x = drop n (history x) ∧
      ∀ i id v c, (i < n)%nat → history x !! i = Some (id, v) → commands w' !! id = Some c →
        v <= retired (work c).
Proof.
  intros Hw Hinv q x Hx. rewrite (same_queues _ _ Hw) in Hx.
  destruct (inv_popped _ Hinv _ _ Hx) as (n & Hn & Hp). exists n. split; [done|].
  intros i id v c' Hi Hh Hc'. destruct (evolves_back _ _ Hw _ _ Hc') as (c & Hc & Hev).
  specialize (Hp _ _ _ _ Hi Hh Hc). pose proof (more_retired _ _ Hev). lia.
Qed.

Definition settled (c : Command) : Command :=
  let k := work c in
  set_work c (mkWork (fence k) (buffers k) (if active k <=? fence k then [] else held k) (fence k)
                (active k) (dependencies k)).

Lemma settle_eq w id c :
  settle w id c (fence (work c)) =
    mkWorld (if active (work c) <=? fence (work c) then drop_all (store w) (held (work c)) else store w)
      (<[id := settled c]> (commands w)) (queues w) (guards w) (next w).
Proof. unfold settle, settled. by destruct (active (work c) <=? fence (work c)). Qed.

Lemma settled_evolves c : retired (work c) <= fence (work c) → evolves_command c (settled c).
Proof. intros Hr. by constructor. Qed.

Lemma data_drop_all st l : data (drop_all st l) = data st.
Proof. revert st. induction l as [|b l IH]; intros st; simpl; [done|]. by rewrite IH. Qed.

(** Replacing one command by one it evolves to. *)
Lemma evolves_insert w id c c' st :
  commands w !! id = Some c → evolves_command c c' → data st = data (store w) →
  evolves w (mkWorld st (<[id := c']> (commands w)) (queues w) (guards w) (next w)).
Proof.
  intros Hc Hev Hst. constructor; try done; simpl.
  - intros i x Hx. destruct (decide (i = id)) as [->|Hne].
    + rewrite lookup_insert_eq. exists c'. split; [done|]. congruence.
    + rewrite lookup_insert_ne by done. exists x. split; [done|reflexivity].
  - intros i x Hx. apply lookup_insert_Some in Hx as [[<- <-]|[Hne Hx]]; [by exists c|].
    exists x. split; [done|reflexivity].
Qed.

Lemma settle_evolves w id c :
  commands w !! id = Some c → retired (work c) <= fence (work c) →
  evolves w (settle w id c (fence (work c))).
Proof.
  intros Hc Hr. rewrite settle_eq. eapply evolves_insert; [done|by apply settled_evolves|].
  case_bool; [apply data_drop_all|done].
Qed.

Lemma settle_leases w id c cell :
  inv w → commands w !! id = Some c →
  cell_uses (if active (work c) <=? fence (work c) then drop_all (store w) (held (work c)) else store w) cell
  = msum (λ c, uses_of cell (held (work c))) (<[id := settled c]> (commands w)) + uses_of cell (guards w).
Proof.
  intros Hinv Hc. rewrite (msum_replace _ _ _ c) by done. unfold settled.
  cbn [set_work work held].
  pose proof (inv_leases _ Hinv cell) as Hl. destruct (active (work c) <=? fence (work c)).
  - rewrite drop_all_cell, Hl, uses_of_nil. lia.
  - lia.
Qed.

Lemma settle_inv w id c :
  inv w → commands w !! id = Some c → retired (work c) < fence (work c) →
  (∀ d p cd, (d, p) ∈ dependencies (work c) → commands w !! d = Some cd → p <= retired (work cd)) →
  inv (settle w id c (fence (work c))).
Proof.
  intros Hinv Hc Hlt Hdeps. pose proof (settle_evolves w id c Hc ltac:(lia)) as Hev.
  destruct (evolves_static _ _ Hev Hinv) as (Hn & Hcm & Hq).
  pose proof (evolves_popped _ _ Hev Hinv) as Hp.
  constructor; try done; rewrite settle_eq in *; cbn [commands store guards].
  - intros i x Hx. apply lookup_insert_Some in Hx as [[<- <-]|[Hne Hx]].
    + destruct (inv_retire _ Hinv _ _ Hc) as [[Hr0 Hr] Hh Ha]. constructor; cbn [settled set_work work retired fence held active buffers dependencies].
      * lia.
      * rewrite Hh. destruct (active (work c) <=? fence (work c)) eqn:E; to_prop.
        -- by rewrite (proj2 (Z.ltb_ge _ _)) by lia.
        -- by rewrite (proj2 (Z.ltb_lt (retired _) _)), (proj2 (Z.ltb_lt (fence _) _)) by lia.
      * intros _ d p cd Hin Hcd. simpl in Hcd. apply lookup_insert_Some in Hcd as [[<- <-]|[_ Hcd]]; [|by eapply Hdeps].
        destruct (inv_command _ Hinv _ _ Hc) as (y & _ & Hok).
        destruct (ok_dependencies _ _ _ _ Hok _ _ Hin). lia.
    + destruct (inv_retire _ Hinv _ _ Hx) as [Hr Hh Ha]. constructor; try done.
      intros Hpos d p cd Hin Hcd. simpl in Hcd. apply lookup_insert_Some in Hcd as [[<- <-]|[_ Hcd]]; [|by eapply Ha].
      specialize (Ha Hpos _ _ _ Hin Hc). simpl. lia.
  - intros cell. by apply settle_leases.
Qed.

(** Retirement from [w] to [w'] with result [b]: the invariant, what changed,
    that commands after [bound] were not touched, and what [b] promises. *)
Record retires (w w' : World) (bound : nat) (b : bool) (points : list (nat * Z)) : Prop := {
  retires_inv : inv w';
  retires_evolves : evolves w w';
  retires_frame : ∀ j, (bound <= j)%nat → commands w' !! j = commands w !! j;
  retires_done : b = true → ∀ d p c, (d, p) ∈ points → commands w' !! d = Some c → p <= retired (work c) }.

Lemma retire_dependencies_spec fuel w deps bound :
  (∀ w id v, (id < fuel)%nat → inv w → is_Some (commands w !! id) →
     ∃ w' b, retire fuel w id v = Some (w', b) ∧ retires w w' (S id) b [(id, v)]) →
  (∀ d p, (d, p) ∈ deps → (d < bound)%nat ∧ is_Some (commands w !! d)) → (bound <= fuel)%nat →
  inv w →
  ∃ w' b, retire_dependencies (retire fuel) w deps = Some (w', b) ∧ retires w w' bound b deps.
Proof.
  intros Hrec Hdeps Hb. revert w Hdeps. induction deps as [|[d p] rest IH]; intros w Hdeps Hinv.
  - exists w, true. split; [done|]. constructor; [done|reflexivity|done|].
    intros _ d p c Hin. by apply elem_of_nil in Hin.
  - cbn [retire_dependencies]. destruct (Hdeps d p ltac:(by left)) as [Hd Hsome].
    destruct (Hrec w d p ltac:(lia) Hinv Hsome) as (w1 & b & -> & [Hinv1 Hev1 Hfr1 Hb1]). cbn. destruct b.
    + destruct (IH w1) as (w2 & b2 & -> & [Hinv2 Hev2 Hfr2 Hb2]); [|done|].
      { intros d' p' Hin. destruct (Hdeps d' p' ltac:(by right)) as [Hlt [c' Hc']]. split; [done|].
        destruct (evolves_forth _ _ Hev1 _ _ Hc') as (c1 & Hc1 & _). by exists c1. }
      exists w2, b2. split; [done|]. constructor; [done|by etrans| |].
      { intros j Hj. rewrite Hfr2, Hfr1 by lia. done. }
      intros Htrue d' p' c Hin Hc. apply elem_of_cons in Hin as [[= -> ->]|Hin]; [|by eapply Hb2].
      destruct (evolves_back _ _ Hev2 _ _ Hc) as (c' & Hc' & He).
      specialize (Hb1 eq_refl d p _ ltac:(by left) Hc'). pose proof (more_retired _ _ He). lia.
    + exists w1, false. split; [done|]. constructor; try done. intros j Hj. apply Hfr1. lia.
Qed.

(** Retiring terminates: its fuel, one more than the identity, is enough
    because dependencies are older. *)
Lemma retire_spec fuel w id v :
  (id < fuel)%nat → inv w → is_Some (commands w !! id) →
  ∃ w' b, retire fuel w id v = Some (w', b) ∧ retires w w' (S id) b [(id, v)].
Proof.
  revert w id v. induction fuel as [|fuel IH]; intros w id v Hf Hinv [c Hc]; [lia|].
  cbn [retire]. rewrite Hc. cbn. destruct (v <=? retired (work c)) eqn:Er; to_prop.
  { exists w, true. split; [done|]. constructor; [done|reflexivity|done|].
    intros _ d p c' [= -> ->]%list_elem_of_singleton Hc'. simplify_eq. lia. }
  destruct (v <=? fence (work c)) eqn:Ef; to_prop.
  2:{ exists w, false. split; [done|]. by constructor. }
  destruct (inv_command _ Hinv _ _ Hc) as (x & Hx & Hok).
  destruct (retire_dependencies_spec fuel w (dependencies (work c)) id) as (w1 & b & -> & [Hinv1 Hev1 Hfr1 Hb1]);
    [by intros; apply IH| |lia|done|].
  { intros d p Hin. destruct (ok_dependencies _ _ _ _ Hok _ _ Hin) as (Hlt & cd & Hcd & _).
    split; [lia|by exists cd]. }
  cbn. assert (commands w1 !! id = Some c) as Hc1 by (by rewrite Hfr1). destruct b.
  2:{ exists w1, false. split; [done|]. constructor; try done. intros j Hj. apply Hfr1. lia. }
  exists (settle w1 id c (fence (work c))), true. split; [done|].
  constructor.
  - apply settle_inv; [done|done|lia|]. intros d p cd Hin Hcd. by eapply Hb1.
  - etrans; [done|]. apply settle_evolves; [done|lia].
  - intros j Hj. rewrite settle_eq. simpl. rewrite lookup_insert_ne by lia. apply Hfr1. lia.
  - intros _ d p c' [= -> ->]%list_elem_of_singleton. rewrite settle_eq. simpl.
    rewrite lookup_insert_eq. intros [= <-]. simpl. lia.
Qed.

(** ** Reaping *)

Lemma poll_spec w q id v :
  inv w → is_Some (commands w !! id) → is_Some (queues w !! q) →
  ∃ w' r, poll w q id v = Some (w', r) ∧ inv w' ∧ evolves w w' ∧
    (r = Ok true → ∀ c, commands w' !! id = Some c → v <= retired (work c)).
Proof.
  intros Hinv Hid [x Hx]. unfold poll.
  destruct (retire_spec (S id) w id v ltac:(lia) Hinv Hid) as (w' & b & -> & [Hi He _ Hb]). cbn.
  rewrite (same_queues _ _ He), Hx. cbn. eexists _, _. split_and!; [done|done|done|].
  intros Hr c Hc. apply (Hb ltac:(destruct b, (alive x); done) id v c); [by left|done].
Qed.

Lemma reap_from_spec w q l :
  inv w → is_Some (queues w !! q) → (∀ id v, (id, v) ∈ l → is_Some (commands w !! id)) →
  ∃ w' rest r, reap_from w q l = Some (w', rest, r) ∧ inv w' ∧ evolves w w' ∧
    ∃ n, rest = drop n l ∧ ∀ i id v c, (i < n)%nat → l !! i = Some (id, v) →
      commands w' !! id = Some c → v <= retired (work c).
Proof.
  intros Hinv Hq. revert w Hinv Hq. induction l as [|[id v] l IH]; intros w Hinv Hq Hl; cbn [reap_from].
  { exists w, [], (Ok tt). split_and!; [done|done|reflexivity|]. exists 0%nat. split; [done|]. intros; lia. }
  destruct (poll_spec w q id v Hinv (Hl id v ltac:(by left)) Hq) as (w1 & r & -> & Hinv1 & Hev1 & Hr1). cbn.
  assert (∀ s : Result unit, ∃ w' rest r, Some (w1, (id, v) :: l, s) = Some (w', rest, r) ∧ inv w' ∧ evolves w w' ∧
    ∃ n, rest = drop n ((id, v) :: l) ∧ ∀ i id' v' c, (i < n)%nat → ((id, v) :: l) !! i = Some (id', v') →
      commands w' !! id' = Some c → v' <= retired (work c)) as Hstop.
  { intros s. eexists _, _, _. split_and!; [done|done|done|]. exists 0%nat. split; [done|]. intros; lia. }
  destruct r as [[]|e]; [|apply Hstop..].
  destruct (IH w1 Hinv1) as (w2 & rest & r & -> & Hinv2 & Hev2 & n & -> & Hn).
  { by rewrite (same_queues _ _ Hev1). }
  { intros i u Hin. destruct (Hl i u ltac:(by right)) as [c Hc].
    destruct (evolves_forth _ _ Hev1 _ _ Hc) as (c' & Hc' & _). by exists c'. }
  exists w2, (drop n l), r. split_and!; [done|done|by etrans|]. exists (S n). split; [done|].
  intros [|i] id' v' c Hi Hlook Hc; simpl in Hlook.
  - injection Hlook as -> ->. destruct (evolves_back _ _ Hev2 _ _ Hc) as (c1 & Hc1 & He).
    specialize (Hr1 eq_refl _ Hc1). pose proof (more_retired _ _ He). lia.
  - eapply Hn; [|done..]. lia.
Qed.

(** Popping retired submissions of one queue. *)
Definition pops (w w' : World) (q : nat) : Prop :=
  ∃ w1 x n, evolves w w1 ∧ queues w1 !! q = Some x ∧
    w' = set_queue w1 q (set_pending x (drop n (pending x))).

Lemma pop_inv w q x n :
  inv w → queues w !! q = Some x →
  (∀ i id v c, (i < n)%nat → pending x !! i = Some (id, v) → commands w !! id = Some c →
     v <= retired (work c)) →
  inv (set_queue w q (set_pending x (drop n (pending x)))).
Proof.
  intros [Hn Hc Hq Hr Hp Hl] Hx Hpop. constructor; cbn [set_queue commands queues next store guards]; try done.
  - intros id c Hid. destruct (Hc id c Hid) as (y & Hy & [Ht Hpr Ha Hf Hd]).
    destruct (decide (queue_of c = q)) as [<-|Hne].
    + rewrite lookup_insert_eq. eexists. split; [done|]. simplify_eq. by constructor.
    + rewrite lookup_insert_ne by done. by exists y.
  - intros q' y Hy. apply lookup_insert_Some in Hy as [[<- <-]|[Hne Hy]]; [|by apply Hq].
    destruct (Hq q x Hx) as [Hring He Hpl Hh]. constructor; simpl; try done.
    + by destruct Hring.
    + rewrite length_drop. lia.
  - intros q' y Hy. apply lookup_insert_Some in Hy as [[<- <-]|[Hne Hy]]; [|exact (Hp q' y Hy)].
    destruct (Hp q x Hx) as (m & Hm & Hpop'). exists (m + n)%nat. simpl. split.
    { by rewrite Hm, drop_drop. }
    intros i id v c Hi Hhi Hcid. destruct (decide (i < m)%nat) as [Him|Him]; [by eapply Hpop'|].
    apply (Hpop (i - m)%nat id v c); [lia| |done]. rewrite Hm, lookup_drop. by rewrite <-Hhi; f_equal; lia.
Qed.

Lemma pending_known w q x id v :
  inv w → queues w !! q = Some x → (id, v) ∈ pending x →
  ∃ c, commands w !! id = Some c ∧ queue_of c = q ∧ v <= active (work c).
Proof.
  intros Hinv Hx Hin. destruct (inv_popped _ Hinv _ _ Hx) as (n & Hn & _). rewrite Hn in Hin.
  apply list_elem_of_lookup_1 in Hin as (i & Hi). rewrite lookup_drop in Hi.
  destruct (inv_queue _ Hinv _ _ Hx) as [_ _ _ Hh]. destruct (Hh _ _ _ Hi) as (-> & c & Hc & <-).
  exists c. split_and!; [done|done|]. destruct (inv_command _ Hinv _ _ Hc) as (y & Hy & Hok).
  rewrite Hx in Hy. injection Hy as <-. rewrite (ok_active _ _ _ _ Hok). pose proof (count_take_S id _ _ _ Hi) as Hs. simpl in Hs.
  rewrite Nat.eqb_refl in Hs. pose proof (count_take_le id (history x) (S (n + i)) (length (history x))) as Hle.
  rewrite (take_ge (history x) (length (history x))) in Hle by done.
  pose proof (lookup_lt_Some _ _ _ Hi). specialize (Hle ltac:(lia)). lia.
Qed.

Lemma reap_spec w q x :
  inv w → queues w !! q = Some x →
  ∃ w1 n r, reap w q = Some (set_queue w1 q (set_pending x (drop n (pending x))), r) ∧
    evolves w w1 ∧ inv w1 ∧ inv (set_queue w1 q (set_pending x (drop n (pending x)))).
Proof.
  intros Hinv Hx. unfold reap. rewrite Hx. cbn.
  destruct (reap_from_spec w q (pending x) Hinv ltac:(by exists x)) as (w1 & rest & r & -> & Hinv1 & Hev & n & -> & Hn).
  { intros id v Hin. destruct (pending_known w q x id v Hinv Hx Hin) as (c & Hc & _). by exists c. }
  cbn. exists w1, n, r. split_and!; [done|done|done|]. apply pop_inv; [done| |done].
  by rewrite (same_queues _ _ Hev).
Qed.

(** ** Publishing *)

(** The world after a successful commit. *)
Definition committed (w : World) (st : Store) (id : nat) (c : Command) (x : Queue) (value wrap required : Z)
    (taken : list Buffer) : World :=
  let k := work c in
  let c' := mkCommand (queue_of c) (template c) value
              (mkWork (fence k) (buffers k) taken (retired k) value (dependencies k)) in
  let x' := publish x id value wrap (write x + required)
              (<[fence_word (template c) := value]> (words (template c))) in
  set_queue (set_command (set_store w st) id c') (queue_of c) x'.

Lemma commit_cases w id c x value wrap required :
  inv w → commands w !! id = Some c →
  (∃ st e, commit w id c x value wrap required = (set_store w st, Failed e) ∧
     ∀ cell, cell_uses st cell = cell_uses (store w) cell) ∨
  (∃ st, commit w id c x value wrap required
           = (committed w st id c x value wrap required (buffers (work c)), Published value) ∧
     write x + required <= u64_max ∧
     ∀ cell, cell_uses st cell
       = cell_uses (store w) cell + uses_of cell (buffers (work c)) - uses_of cell (held (work c))).
Proof.
  intros Hinv Hc. unfold commit. destruct (u64_max <? _) eqn:E1.
  { left. exists (store w). eexists. split; [by destruct w|done]. }
  destruct (u64_max <? _ * _) eqn:E2.
  { left. exists (store w). eexists. split; [by destruct w|done]. }
  to_prop. destruct (inv_retire _ Hinv _ _ Hc) as [_ Hh _]. case_bool_decide as Hheld.
  - destruct (retain_all (store w) (buffers (work c)) []) as [st r] eqn:Er.
    pose proof (λ cell, retain_all_cell _ _ _ _ _ cell Er) as Hcell. destruct r as [taken|e].
    + right. destruct (Hcell 0%nat) as [Htaken _]. simpl in Htaken. subst taken. exists st.
      split_and!; [done|lia|]. intros cell. destruct (Hcell cell) as [_ ->]. rewrite Hheld, uses_of_nil. lia.
    + left. exists st, e. split; [done|]. intros cell. rewrite Hcell, uses_of_nil. lia.
  - right. assert (held (work c) = buffers (work c)) as Heq by (destruct (_ <? _) in Hh; [done|by rewrite Hh in Hheld]).
    exists (store w). rewrite Heq. split_and!; [done|lia|]. intros cell. lia.
Qed.

Lemma count_snoc id l j v : count id (l ++ [(j, v)]) = count id l + (if (j =? id)%nat then 1 else 0).
Proof. rewrite count_concat. unfold count at 2. simpl. lia. Qed.

Section Commit.
Context (w : World) (st : Store) (id : nat) (c : Command) (x : Queue).
Hypothesis Hinv : inv w.
Hypothesis Hc : commands w !! id = Some c.
Hypothesis Hx : queues w !! queue_of c = Some x.
Let n := Z.of_nat (length (words (template c))).
Let wrap := wrap_words (capacity x) (ring_position (capacity x) (write x)) n.
Hypothesis Hpending : (length (pending x) < 4096)%nat.
Hypothesis Hroom : wrap + n < capacity x - (write x - read x).
Hypothesis Hmax : write x + (wrap + n) <= u64_max.
Hypothesis Huses : ∀ cell, cell_uses st cell
  = cell_uses (store w) cell + uses_of cell (buffers (work c)) - uses_of cell (held (work c)).
Let value := previous c + 1.
Let w' := committed w st id c x value wrap (wrap + n) (buffers (work c)).
Let c' := mkCommand (queue_of c) (template c) value
  (mkWork (fence (work c)) (buffers (work c)) (buffers (work c)) (retired (work c)) value (dependencies (work c))).
Let x' := publish x id value wrap (write x + (wrap + n))
  (<[fence_word (template c) := value]> (words (template c))).

Lemma commit_ring : ring_ok x'.
Proof.
  destruct (inv_command _ Hinv _ _ Hc) as (y & Hy & [[Ht1 Ht2] _ _ _ _]).
  destruct (inv_queue _ Hinv _ _ Hx) as [Hring _ _ _]. subst x' n wrap.
  pose proof (publish_ring_ok x id value (<[fence_word (template c) := value]> (words (template c)))) as Hp.
  rewrite length_insert in Hp. apply Hp; [done|done|lia|done|done].
Qed.

Lemma commit_lookup i y :
  <[id := c']> (commands w) !! i = Some y →
  ∃ z, commands w !! i = Some z ∧ queue_of y = queue_of z ∧ template y = template z ∧
    fence (work y) = fence (work z) ∧ dependencies (work y) = dependencies (work z) ∧
    retired (work y) = retired (work z) ∧ active (work z) <= active (work y) ∧
    ((i = id ∧ y = c') ∨ (i ≠ id ∧ y = z)).
Proof.
  destruct (inv_command _ Hinv _ _ Hc) as (y0 & Hy0 & [_ Hprev _ _ _]).
  intros H. apply lookup_insert_Some in H as [[<- <-]|[Hne H]].
  - exists c. subst c' value. simpl. split_and!; try done; [lia|by left].
  - exists y. split_and!; try done. right. by split.
Qed.

Lemma commit_forth i z :
  commands w !! i = Some z →
  ∃ y, <[id := c']> (commands w) !! i = Some y ∧ queue_of y = queue_of z ∧
    active (work z) <= active (work y) ∧ retired (work y) = retired (work z).
Proof.
  destruct (inv_command _ Hinv _ _ Hc) as (y0 & Hy0 & [_ Hprev _ _ _]).
  intros H. destruct (decide (i = id)) as [->|Hne].
  - rewrite lookup_insert_eq. exists c'. simplify_eq. subst c' value. simpl. split_and!; try done. lia.
  - rewrite lookup_insert_ne by done. by exists z.
Qed.

Lemma commit_command i y :
  <[id := c']> (commands w) !! i = Some y →
  ∃ z, <[queue_of c := x']> (queues w) !! queue_of y = Some z ∧ command_ok (<[id := c']> (commands w)) i y z.
Proof.
  intros H. destruct (commit_lookup i y H) as (z & Hz & Eq & Et & Ef & Ed & _ & _ & Hcase).
  destruct (inv_command _ Hinv _ _ Hz) as (xz & Hxz & [Ht Hp Ha Hf Hd]).
  destruct (inv_queue _ Hinv _ _ Hx) as [_ He _ _].
  assert (∀ d p, (d, p) ∈ dependencies (work y) → (d < i)%nat ∧
            ∃ cd, <[id := c']> (commands w) !! d = Some cd ∧ p <= active (work cd)) as Hdeps.
  { intros d p Hin. rewrite Ed in Hin. destruct (Hd d p Hin) as (Hlt & cd & Hcd & Hle). split; [done|].
    destruct (commit_forth d cd Hcd) as (cd' & Hcd' & _ & Hac & _). exists cd'. split; [done|lia]. }
  destruct (decide (queue_of y = queue_of c)) as [Eqc|Nqc].
  - rewrite Eqc, lookup_insert_eq. exists x'. split; [done|].
    rewrite <-Eq, Eqc, Hx in Hxz. injection Hxz as <-.
    constructor; try done; try (by rewrite Et); subst x'; cbn [publish history executed].
    + destruct Hcase as [[-> ->]|[Hne ->]]; [done|done].
    + rewrite count_snoc, <-Ha. destruct Hcase as [[-> ->]|[Hne ->]].
      * rewrite Nat.eqb_refl. subst c' value. simpl. simplify_eq. lia.
      * rewrite (proj2 (Nat.eqb_neq _ _)) by done. lia.
    + by rewrite take_app_le, Ef by done.
  - rewrite lookup_insert_ne by done. exists xz. rewrite Eq. split; [done|].
    destruct Hcase as [[-> ->]|[Hne ->]]; [done|]. by constructor.
Qed.

Lemma commit_queue q y :
  <[queue_of c := x']> (queues w) !! q = Some y → queue_ok (<[id := c']> (commands w)) q y.
Proof.
  assert (∀ z r, queues w !! q = Some z → ∀ i j v, history z !! i = Some (j, v) → r = count j (take i (history z)) →
    v = 1 + r ∧ ∃ k, <[id := c']> (commands w) !! j = Some k ∧ queue_of k = q) as Hhist.
  { intros z r Hz i j v Hi ->. destruct (inv_queue _ Hinv _ _ Hz) as [_ _ _ Hh].
    destruct (Hh _ _ _ Hi) as (-> & k & Hk & Hq). split; [done|].
    destruct (commit_forth j k Hk) as (k' & Hk' & Eq & _). exists k'. split; [done|]. by rewrite Eq. }
  intros H. apply lookup_insert_Some in H as [[<- <-]|[Hne H]].
  - pose proof commit_ring as Hring. destruct (inv_queue _ Hinv _ _ Hx) as [_ He Hp _].
    destruct (inv_command _ Hinv _ _ Hc) as (z & Hz & Hok). rewrite Hx in Hz. injection Hz as <-.
    constructor; [done|..]; subst x'; cbn [publish executed history pending].
    + rewrite length_app. simpl. lia.
    + rewrite length_app. simpl. lia.
    + intros i j v Hi. apply lookup_app_Some in Hi as [Hi|[Hle Hi]].
      * rewrite take_app_le by (apply lookup_lt_Some in Hi; lia). by eapply Hhist.
      * destruct (i - length (history x))%nat as [|m] eqn:Em; [|by destruct m]. injection Hi as <- <-.
        replace i with (length (history x)) by lia. rewrite take_app_length. split.
        -- subst value. rewrite (ok_previous _ _ _ _ Hok), (ok_active _ _ _ _ Hok). lia.
        -- exists c'. by rewrite lookup_insert_eq.
  - destruct (inv_queue _ Hinv _ _ H) as [Hring He Hp _]. constructor; try done.
    intros i j v Hi. by eapply Hhist.
Qed.

Lemma commit_retire i y : <[id := c']> (commands w) !! i = Some y → retire_ok (<[id := c']> (commands w)) i y.
Proof.
  intros H. destruct (commit_lookup i y H) as (z & Hz & _ & _ & Ef & Ed & Er & _ & Hcase).
  destruct (inv_retire _ Hinv _ _ Hz) as [Hr Hh Ha]. constructor.
  - by rewrite Er, Ef.
  - destruct Hcase as [[-> ->]|[Hne ->]]; [|done]. rewrite Hc in Hz. injection Hz as <-.
    destruct (inv_command _ Hinv _ _ Hc) as (z & Hzz & Hok).
    assert (fence (work c) <= active (work c)) as Hfa.
    { rewrite (ok_fence _ _ _ _ Hok), (ok_active _ _ _ _ Hok).
      rewrite <-(take_drop (executed z) (history z)) at 2. rewrite count_concat.
      pose proof (count_nonneg id (drop (executed z) (history z))). lia. }
    subst c' value. cbn [work held retired active buffers].
    rewrite (ok_previous _ _ _ _ Hok). by rewrite (proj2 (Z.ltb_lt _ _)) by lia.
  - intros Hpos d p cd Hin Hcd. rewrite Er in Hpos. rewrite Ed in Hin.
    destruct (commit_lookup d cd Hcd) as (zd & Hzd & _ & _ & _ & _ & Erd & _). rewrite Erd. by eapply Ha.
Qed.

Lemma commit_inv : inv w'.
Proof.
  constructor; subst w'; unfold committed; cbn [set_queue set_command set_store commands queues next store guards].
  - intros i y H. destruct (commit_lookup i y H) as (z & Hz & _). by eapply inv_next.
  - apply commit_command.
  - apply commit_queue.
  - apply commit_retire.
  - intros q y H. apply lookup_insert_Some in H as [[<- <-]|[Hne H]].
    + destruct (inv_popped _ Hinv _ _ Hx) as (m & Hm & Hp). exists (m `min` length (history x))%nat.
      cbn [publish pending history]. split.
      { rewrite drop_app_le by lia. rewrite Hm. f_equal. destruct (decide (m <= length (history x))%nat).
        - by rewrite Nat.min_l.
        - rewrite Nat.min_r by lia. by rewrite !drop_ge by lia. }
      intros i j v k Hi Hj Hk. rewrite lookup_app_l in Hj by lia.
      destruct (commit_lookup j k Hk) as (z & Hz & _ & _ & _ & _ & Er & _). rewrite Er.
      eapply Hp; [|done..]. lia.
    + destruct (inv_popped _ Hinv _ _ H) as (m & Hm & Hp). exists m. split; [done|].
      intros i j v k Hi Hj Hk. destruct (commit_lookup j k Hk) as (z & Hz & _ & _ & _ & _ & Er & _).
      rewrite Er. by eapply Hp.
  - intros cell. rewrite Huses, (inv_leases _ Hinv cell), (msum_replace _ _ _ c) by done. simpl. lia.
Qed.
End Commit.

(** ** Steps *)

Lemma set_store_inv w st :
  (∀ cell, cell_uses st cell = cell_uses (store w) cell) → inv w → inv (set_store w st).
Proof. intros Hst [Hn Hc Hq Hr Hp Hl]. constructor; try done. intros cell. by rewrite Hst. Qed.

(** What reaping leaves: commands evolve and queues only lose pending
    submissions. *)
Record reaped (w w' : World) : Prop := {
  reaped_inv : inv w';
  reaped_commands : ∀ id c, commands w !! id = Some c → ∃ c', commands w' !! id = Some c' ∧ evolves_command c c';
  reaped_queues : ∀ q x', queues w' !! q = Some x' →
    ∃ x n, queues w !! q = Some x ∧ x' = set_pending x (drop n (pending x)) }.

Lemma reap_reaped w q x :
  inv w → queues w !! q = Some x → ∃ w' r, reap w q = Some (w', r) ∧ reaped w w' ∧ is_Some (queues w' !! q).
Proof.
  intros Hinv Hx. destruct (reap_spec w q x Hinv Hx) as (w1 & m & r & -> & Hev & Hinv1 & Hinv2).
  eexists _, _. split; [done|]. split; [|cbn [set_queue queues]; by rewrite lookup_insert_eq].
  constructor; [done|exact (evolves_forth _ _ Hev)|].
  intros p y Hy. cbn [set_queue queues] in Hy. apply lookup_insert_Some in Hy as [[<- <-]|[Hne Hy]].
  - by exists x, m.
  - rewrite (same_queues _ _ Hev) in Hy. exists y, 0%nat. split; [done|]. by destruct y.
Qed.

(** A submission that has room. *)
Record room (c : Command) (x : Queue) : Prop := {
  room_pending : (length (pending x) < 4096)%nat;
  room_ring :
    let n := Z.of_nat (length (words (template c))) in
    wrap_words (capacity x) (ring_position (capacity x) (write x)) n + n < capacity x - (write x - read x) }.

(** One iteration of [dispatch_one] reaps, and then either refuses without
    touching the queue or publishes one frame. *)
Lemma dispatch_one_cases w id wait w' o c :
  inv w → commands w !! id = Some c → dispatch_one w id wait = Some (w', o) →
  w' = w ∨
  ∃ w2 c2 x2, reaped w w2 ∧ commands w2 !! id = Some c2 ∧ queues w2 !! queue_of c2 = Some x2 ∧
    evolves_command c c2 ∧
    let n := Z.of_nat (length (words (template c2))) in
    let wrap := wrap_words (capacity x2) (ring_position (capacity x2) (write x2)) n in
    ((∃ st, w' = set_store w2 st ∧ (∀ v, o ≠ Published v) ∧
        ∀ cell, cell_uses st cell = cell_uses (store w2) cell) ∨
     (∃ st, w' = committed w2 st id c2 x2 (previous c2 + 1) wrap (wrap + n) (buffers (work c2)) ∧
        o = Published (previous c2 + 1) ∧ room c2 x2 ∧ write x2 + (wrap + n) <= u64_max ∧
        ∀ cell, cell_uses st cell = cell_uses (store w2) cell + uses_of cell (buffers (work c2))
                                    - uses_of cell (held (work c2)))).
Proof.
  intros Hinv Hc. unfold dispatch_one. rewrite Hc. cbn [mbind option_bind].
  case_bool; [by intros [= <- <-]; left|].
  destruct (inv_command _ Hinv _ _ Hc) as (x & Hx & Hok).
  destruct (reap_reaped w (queue_of c) x Hinv Hx) as (w2 & r & -> & Hre & [x2 Hx2]). cbn [mbind option_bind].
  destruct (reaped_commands _ _ Hre _ _ Hc) as (c2 & Hc2 & He2).
  intros H. right. exists w2, c2, x2. assert (queues w2 !! queue_of c2 = Some x2) as Hxq by (by rewrite (same_queue _ _ He2)).
  split_and!; [done..|]. cbv zeta.
  assert (∀ o', (∀ v, o' ≠ Published v) → Some (w2, o') = Some (w', o) →
    ∃ st, w' = set_store w2 st ∧ (∀ v, o ≠ Published v) ∧ ∀ cell, cell_uses st cell = cell_uses (store w2) cell) as Hrefuse.
  { intros o' Ho [= <- <-]. exists (store w2). split_and!; [by destruct w2|done|done]. }
  destruct r as [u|e]; [|left; by refine (Hrefuse _ _ H)].
  rewrite Hc2, Hx2 in H. cbn [mbind option_bind] in H.
  destruct (_ <=? Z.of_nat _) eqn:E1 in H.
  { left. destruct wait; [destruct (pending x2) as [|[]]|]; by refine (Hrefuse _ _ H). }
  destruct (_ - _ <=? _) eqn:E2 in H.
  { left. destruct wait; [destruct (pending x2) as [|[]]|]; by refine (Hrefuse _ _ H). }
  to_prop. injection H as H. rewrite <-(same_previous _ _ He2) in H.
  destruct (inv_queue _ (reaped_inv _ _ Hre) _ _ Hx2) as [[[k [Hk Hcap]] _ _ _ Hread Hroom Hidx _] _ _ _].
  match type of H with commit _ _ _ _ ?v ?r ?n = _ =>
    destruct (commit_cases w2 id c2 x2 v r n (reaped_inv _ _ Hre) Hc2)
      as [(st & e & Heq & Hst)|(st & Heq & Hmax & Hst)] end;
    rewrite Heq in H; injection H as <- <-; [left|right]; exists st.
  - by split_and!.
  - split_and!; try done. constructor; [lia|]. cbv zeta.
    fold (ring_position (capacity x2) ((write x2 - read x2) mod 2 ^ 64)) in E2.
    rewrite Hcap in E2 |- *. rewrite (outstanding_exact k (write x2) (read x2)) in E2 by (done || lia). exact E2.
Qed.

Lemma dispatch_one_inv w id wait w' o : inv w → dispatch_one w id wait = Some (w', o) → inv w'.
Proof.
  intros Hinv H. destruct (commands w !! id) as [c|] eqn:Hc; [|by unfold dispatch_one in H; rewrite Hc in H].
  destruct (dispatch_one_cases w id wait w' o c Hinv Hc H)
    as [->|(w2 & c2 & x2 & Hre & Hc2 & Hx2 & _ & [(st & -> & _ & Hst)|(st & -> & _ & [Hp Hr] & Hm & Hst)])].
  - done.
  - apply set_store_inv; [done|by destruct Hre].
  - by refine (commit_inv w2 st id c2 x2 (reaped_inv _ _ Hre) Hc2 Hx2 Hp Hr Hm Hst).
Qed.

Lemma refresh_inv w id v w' r : inv w → refresh w id v = Some (w', r) → inv w'.
Proof.
  intros Hinv. unfold refresh. destruct (commands w !! id) as [c|] eqn:Hc; [|done]. cbn [mbind option_bind].
  destruct (inv_command _ Hinv _ _ Hc) as (x & Hx & _).
  destruct (poll_spec w (queue_of c) id v Hinv ltac:(by exists c) ltac:(by exists x)) as (w1 & r1 & -> & Hinv1 & Hev1 & _).
  cbn [mbind option_bind]. destruct r1 as [[]|e]; [|by intros [= <- <-]..].
  rewrite <-(same_queues _ _ Hev1) in Hx.
  destruct (reap_spec w1 (queue_of c) x Hinv1 Hx) as (w2 & m & r2 & -> & _ & _ & Hinv2).
  cbn [mbind option_bind]. by intros [= <- <-].
Qed.

(** What [prepare] may be given: a queue, an encoded frame and points that
    were submitted. *)
Definition preparable (w : World) (q : nat) (t : Template) (deps : list (nat * Z)) : Prop :=
  is_Some (queues w !! q) ∧ template_ok t ∧
  ∀ d p, (d, p) ∈ deps → ∃ c, commands w !! d = Some c ∧ p <= active (work c).

Lemma prepare_inv w q t bufs deps : inv w → preparable w q t deps → inv (prepare w q t bufs deps).
Proof.
  intros [Hn Hc Hq Hr Hp Hl] ([x Hx] & Ht & Hdeps). set (c := mkCommand q t 0 (mkWork 0 bufs [] 0 0 deps)).
  assert (commands w !! next w = None) as Hfresh.
  { destruct (commands w !! next w) as [y|] eqn:E; [|done]. specialize (Hn _ _ E). lia. }
  assert (∀ d cd, commands w !! d = Some cd → <[next w := c]> (commands w) !! d = Some cd) as Hkeep.
  { intros d cd Hd. rewrite lookup_insert_ne; [done|]. intros <-. congruence. }
  assert (∀ l y, queues w !! l = Some y → ∀ i, (i <= length (history y))%nat → count (next w) (take i (history y)) = 0) as Hzero.
  { intros l y Hy i Hi. induction i as [|i IH]; [done|].
    destruct (lookup_lt_is_Some_2 (history y) i ltac:(lia)) as [[j v] Hj].
    rewrite (count_take_S _ _ _ _ Hj), IH by lia. simpl. destruct (ok_history _ _ _ (Hq _ _ Hy) _ _ _ Hj) as (_ & k & Hk & _).
    rewrite (proj2 (Nat.eqb_neq _ _)); [done|]. specialize (Hn _ _ Hk). lia. }
  constructor; unfold prepare; fold c; cbn [commands queues next store guards].
  - intros i y H. apply lookup_insert_Some in H as [[<- _]|[_ H]]; [lia|]. specialize (Hn _ _ H). lia.
  - intros i y H. apply lookup_insert_Some in H as [[<- <-]|[_ H]].
    + exists x. split; [done|]. pose proof (ok_executed _ _ _ (Hq _ _ Hx)) as He. constructor; simpl; try done.
      * rewrite <-(take_ge (history x) (length (history x))) by done. by rewrite (Hzero q x Hx).
      * by rewrite (Hzero q x Hx).
      * intros d p Hin. destruct (Hdeps d p Hin) as (cd & Hcd & Hle). split; [by eapply Hn|].
        exists cd. by split; [apply Hkeep|].
    + destruct (Hc _ _ H) as (z & Hz & [? ? ? ? Hd]). exists z. split; [done|]. constructor; try done.
      intros d p Hin. destruct (Hd d p Hin) as (Hlt & cd & Hcd & Hle). split; [done|].
      exists cd. by split; [apply Hkeep|].
  - intros l y Hy. destruct (Hq _ _ Hy) as [? ? ? Hh]. constructor; try done.
    intros i j v Hi. destruct (Hh _ _ _ Hi) as (Hv & k & Hk & Hkq). split; [done|]. exists k. by split; [apply Hkeep|].
  - intros i y H. apply lookup_insert_Some in H as [[<- <-]|[_ H]]; [by constructor|].
    destruct (Hr _ _ H) as [? ? Ha]. constructor; try done. intros Hpos d p cd Hin Hcd.
    destruct (Hc _ _ H) as (z & _ & Hok). destruct (ok_dependencies _ _ _ _ Hok _ _ Hin) as (_ & cd' & Hcd' & _).
    rewrite (Hkeep _ _ Hcd') in Hcd. injection Hcd as <-. by eapply Ha.
  - intros l y Hy. destruct (Hp _ _ Hy) as (m & Hm & Hpop). exists m. split; [done|].
    intros i j v k Hi Hj Hk. destruct (ok_history _ _ _ (Hq _ _ Hy) _ _ _ Hj) as (_ & k' & Hk' & _).
    rewrite (Hkeep _ _ Hk') in Hk. injection Hk as <-. by eapply Hpop.
  - intros cell. rewrite Hl, msum_insert by done. cbn [c work held]. rewrite uses_of_nil. lia.
Qed.

(** Replacing a queue by one with the same submissions. *)
Lemma queue_inv w q x y :
  inv w → queues w !! q = Some x → ring_ok y → history y = history x → pending y = pending x →
  executed y = executed x → inv (set_queue w q y).
Proof.
  intros [Hn Hc Hq Hr Hp Hl] Hx Hring Hh Hpend He.
  constructor; cbn [set_queue commands queues next store guards]; try done.
  - intros id c Hid. destruct (Hc _ _ Hid) as (z & Hz & Hok). destruct (decide (queue_of c = q)) as [E|E].
    + rewrite E, lookup_insert_eq. exists y. split; [done|]. rewrite E, Hx in Hz. injection Hz as <-.
      destruct Hok. by constructor; rewrite ?Hh, ?He.
    + rewrite lookup_insert_ne by done. by exists z.
  - intros l z Hz. apply lookup_insert_Some in Hz as [[<- <-]|[_ Hz]]; [|by apply Hq].
    destruct (Hq _ _ Hx). by constructor; rewrite ?Hh, ?He, ?Hpend.
  - intros l z Hz. apply lookup_insert_Some in Hz as [[<- <-]|[_ Hz]]; [|exact (Hp _ _ Hz)].
    destruct (Hp _ _ Hx) as (m & Hm). exists m. by rewrite Hh, Hpend.
Qed.

(** The device stores the value of the next submission. *)
Section Execute.
Context (w : World) (q : nat) (x : Queue) (id : nat) (v : Z) (c : Command).
Hypothesis Hinv : inv w.
Hypothesis Hx : queues w !! q = Some x.
Hypothesis Hh : history x !! executed x = Some (id, v).
Hypothesis Hc : commands w !! id = Some c.
Let m' := <[id := store_fence c v]> (commands w).
Let x' := mkQueue (capacity x) (sdma x) (alive x) (ring x) (write x) (pending x) (read x) (S (executed x))
            (history x) (log x).

Lemma execute_value : v = fence (work c) + 1 ∧ queue_of c = q.
Proof.
  destruct (ok_history _ _ _ (inv_queue _ Hinv _ _ Hx) _ _ _ Hh) as (Hv & c0 & Hc0 & Hqc).
  rewrite Hc in Hc0. injection Hc0 as <-.
  destruct (inv_command _ Hinv _ _ Hc) as (x0 & Hx0 & Hok). rewrite Hqc, Hx in Hx0. injection Hx0 as <-.
  rewrite (ok_fence _ _ _ _ Hok). split; [lia|done].
Qed.

(** Every command is as before, except for the stored value. *)
Lemma execute_back i y :
  m' !! i = Some y →
  ∃ z, commands w !! i = Some z ∧
    y = set_work z (mkWork (fence (work z) + (if (id =? i)%nat then 1 else 0)) (buffers (work z))
                      (held (work z)) (retired (work z)) (active (work z)) (dependencies (work z))).
Proof.
  intros Hy. apply lookup_insert_Some in Hy as [[<- <-]|[Hne Hy]].
  - exists c. rewrite Nat.eqb_refl. destruct execute_value as [-> _]. done.
  - exists y. rewrite (proj2 (Nat.eqb_neq _ _)), Z.add_0_r by done. split; [done|]. by destruct y as [? ? ? []].
Qed.

Lemma execute_forth i z :
  commands w !! i = Some z → ∃ y, m' !! i = Some y ∧ queue_of y = queue_of z ∧ active (work y) = active (work z).
Proof.
  intros Hz. subst m'. destruct (decide (i = id)) as [->|Hne].
  - rewrite lookup_insert_eq. eexists. split; [done|]. by simplify_eq.
  - rewrite lookup_insert_ne by done. by exists z.
Qed.

Lemma execute_command i y :
  m' !! i = Some y → ∃ z, <[q := x']> (queues w) !! queue_of y = Some z ∧ command_ok m' i y z.
Proof.
  intros Hy. destruct (execute_back _ _ Hy) as (z & Hz & ->). cbn [set_work queue_of].
  destruct (inv_command _ Hinv _ _ Hz) as (xz & Hxz & [Ht Hpr Ha Hf Hd]).
  assert (∀ d p, (d, p) ∈ dependencies (work z) → (d < i)%nat ∧ ∃ cd, m' !! d = Some cd ∧ p <= active (work cd)) as Hdeps.
  { intros d p Hin. destruct (Hd _ _ Hin) as (Hlt & cd & Hcd & Hle). split; [done|].
    destruct (execute_forth _ _ Hcd) as (cd' & Hcd' & _ & Eac). exists cd'. by rewrite Eac. }
  destruct (decide (queue_of z = q)) as [E|E].
  - rewrite E, lookup_insert_eq. eexists. split; [done|]. rewrite E, Hx in Hxz. injection Hxz as <-.
    constructor; try done. subst x'. cbn [set_work work fence history executed].
    by rewrite (count_take_S _ _ _ _ Hh), Hf.
  - rewrite lookup_insert_ne by done. exists xz. split; [done|]. constructor; try done.
    cbn [set_work work fence]. rewrite Hf. rewrite (proj2 (Nat.eqb_neq _ _)); [lia|]. intros <-.
    destruct execute_value as [_ Hq]. congruence.
Qed.

Lemma execute_queue l y : <[q := x']> (queues w) !! l = Some y → queue_ok m' l y.
Proof.
  assert (∀ x0, queues w !! l = Some x0 → ∀ i j u, history x0 !! i = Some (j, u) →
    u = 1 + count j (take i (history x0)) ∧ ∃ k, m' !! j = Some k ∧ queue_of k = l) as Hkeep.
  { intros x0 Hx0 i j u Hi. destruct (ok_history _ _ _ (inv_queue _ Hinv _ _ Hx0) _ _ _ Hi) as (Hu & k & Hk & Hkl).
    split; [done|]. destruct (execute_forth _ _ Hk) as (k' & Hk' & Ek & _). exists k'. by rewrite Ek. }
  intros Hy. apply lookup_insert_Some in Hy as [[<- <-]|[_ Hy]].
  - destruct (inv_queue _ Hinv _ _ Hx) as [Hring He Hpl _].
    constructor; simpl; try done; [by destruct Hring|apply lookup_lt_Some in Hh; lia|by apply (Hkeep x)].
  - destruct (inv_queue _ Hinv _ _ Hy). constructor; try done. by apply Hkeep.
Qed.

Lemma execute_retire i y : m' !! i = Some y → retire_ok m' i y.
Proof.
  intros Hy. destruct (execute_back _ _ Hy) as (z & Hz & ->).
  destruct (inv_retire _ Hinv _ _ Hz) as [Hret Hheld Haw].
  constructor; cbn [set_work work retired fence held active buffers dependencies]; [case_bool; lia|done|].
  intros Hpos d p cd Hin Hcd. destruct (execute_back _ _ Hcd) as (zd & Hzd & ->). exact (Haw Hpos d p zd Hin Hzd).
Qed.

Lemma execute_world_inv : inv (set_queue (set_command w id (store_fence c v)) q x').
Proof.
  constructor; cbn [set_queue set_command commands queues next store guards]; fold m'.
  - intros i y Hy. destruct (execute_back _ _ Hy) as (z & Hz & _). by eapply inv_next.
  - apply execute_command.
  - apply execute_queue.
  - apply execute_retire.
  - intros l y Hy. assert (∀ x0, queues w !! l = Some x0 → ∃ n, pending x0 = drop n (history x0) ∧
      ∀ i j u k, (i < n)%nat → history x0 !! i = Some (j, u) → m' !! j = Some k → u <= retired (work k)) as Hkeep.
    { intros x0 Hx0. destruct (inv_popped _ Hinv _ _ Hx0) as (n & Hn' & Hpop). exists n. split; [done|].
      intros i j u k Hi Hj Hk. destruct (execute_back _ _ Hk) as (z & Hz & ->). exact (Hpop i j u z Hi Hj Hz). }
    apply lookup_insert_Some in Hy as [[<- <-]|[_ Hy]]; [exact (Hkeep x Hx)|exact (Hkeep y Hy)].
  - intros cell. rewrite (inv_leases _ Hinv). subst m'. rewrite (msum_replace _ _ _ c) by done. simpl. lia.
Qed.
End Execute.

Lemma execute_inv w q w' : inv w → execute w q = Some w' → inv w'.
Proof.
  intros Hinv. unfold execute. destruct (queues w !! q) as [x|] eqn:Hx; [|done]. cbn [mbind option_bind].
  destruct (history x !! executed x) as [[id v]|] eqn:Hh; [|done]. cbn [mbind option_bind].
  destruct (commands w !! id) as [c|] eqn:Hc; [|done]. cbn [mbind option_bind]. intros [= <-].
  by apply execute_world_inv.
Qed.

(** ** Reachable worlds *)

Section Reachable.
(** The native cache operations of host transfers. *)
Context (control : nat → bool → Z → Z → Result unit).

Inductive step (w : World) : World → Prop :=
| step_prepare q t bufs deps : preparable w q t deps → step w (prepare w q t bufs deps)
| step_dispatch id wait w' o : dispatch_one w id wait = Some (w', o) → step w w'
| step_refresh id v w' r : refresh w id v = Some (w', r) → step w w'
| step_consume q x n :
    queues w !! q = Some x → 0 <= n → read x + n <= write x → step w (set_queue w q (consume x n))
| step_execute q w' : execute w q = Some w' → step w w'
| step_fail q x : queues w !! q = Some x → step w (set_queue w q (fail x))
| step_guard b st :
    retain_use (store w) b = Ok st → step w (mkWorld st (commands w) (queues w) (b :: guards w) (next w))
| step_release b g1 g2 :
    guards w = g1 ++ b :: g2 →
    step w (mkWorld (drop_use (store w) b) (commands w) (queues w) (g1 ++ g2) (next w))
| step_host b off new st r :
    NativeMemory.write control (store w) b off new = (st, r) → step w (set_store w st).

(** A queue as [create_queue] leaves it: the ring is a power of two of at
    least 4096 bytes. *)
Definition new_queue (cap : Z) (is_sdma : bool) (ring : list Z) : Queue :=
  mkQueue cap is_sdma true ring 0 [] 0 0 [] [].
Record initial (w : World) : Prop := {
  initial_commands : commands w = ∅;
  initial_guards : guards w = [];
  initial_uses : ∀ cell, cell_uses (store w) cell = 0;
  initial_queues : ∀ q x, queues w !! q = Some x →
    ∃ k is_sdma ring, 10 <= k ∧ Z.of_nat (length ring) = 2 ^ k ∧ x = new_queue (2 ^ k) is_sdma ring }.
Definition reachable (w : World) : Prop := ∃ w0, initial w0 ∧ rtc step w0 w.

Lemma initial_inv w : initial w → inv w.
Proof.
  intros [Hc Hg Hu Hq]. constructor.
  1,2,4: intros id c H; by rewrite Hc in H.
  - intros q x Hx. destruct (Hq q x Hx) as (k & s & ring & Hk & Hlen & ->). 
    pose proof (Z.pow_pos_nonneg 2 k ltac:(lia) ltac:(lia)).
    constructor; simpl; try done; [|lia].
    constructor; simpl; try done; try lia; [exists k; lia|]. intros i Hi. simpl in Hi. lia.
  - intros q x Hx. destruct (Hq q x Hx) as (k & s & ring & Hk & Hlen & ->). exists 0%nat. split; [done|]. intros; lia.
  - intros cell. rewrite Hu, Hc, Hg. done.
Qed.

Lemma host_write_cells st b off new st' r cell :
  NativeMemory.write control st b off new = (st', r) → cell_uses st' cell = cell_uses st cell.
Proof. unfold NativeMemory.write. intros H. repeat (case_match; simplify_eq; try done). Qed.

Lemma queue_step_inv w w' : step w w' → inv w → inv w'.
Proof.
  intros Hstep Hinv. destruct Hstep as [q t bufs deps Hp|id wait w' o Hd|id v w' r Hr|q x n Hx Hn Hle|q w' He
    |q x Hx|b st Hb|b g1 g2 Hg|b off new st r Hh].
  - by apply prepare_inv.
  - by eapply dispatch_one_inv.
  - by eapply refresh_inv.
  - eapply queue_inv; try done. apply consume_ring_ok; try done. by destruct (inv_queue _ Hinv _ _ Hx).
  - by eapply execute_inv.
  - eapply queue_inv; try done. destruct (inv_queue _ Hinv _ _ Hx) as [Hring _ _ _]. by destruct Hring.
  - destruct Hinv as [Hn Hc Hq Hr Hp Hl]. constructor; try done. intros cell. cbn [store commands guards].
    rewrite (retain_use_cell _ _ _ cell Hb), Hl, uses_of_cons. lia.
  - destruct Hinv as [Hn Hc Hq Hr Hp Hl]. constructor; try done. intros cell. cbn [store commands guards].
    rewrite drop_use_cell, Hl, Hg, !uses_of_app, uses_of_cons. lia.
  - apply set_store_inv; [|done]. intros cell. by eapply host_write_cells.
Qed.

Lemma queue_reachable_inv w : reachable w → inv w.
Proof.
  intros (w0 & H0 & Hr). apply initial_inv in H0. induction Hr as [|a b c Hab _ IH]; [done|].
  apply IH. by eapply queue_step_inv.
Qed.

(** The leases of an unfinished submission. *)
Lemma unfinished_active w q x i id v c :
  inv w → queues w !! q = Some x → history x !! i = Some (id, v) → (executed x <= i)%nat →
  commands w !! id = Some c → fence (work c) < v <= active (work c).
Proof.
  intros Hinv Hx Hi Hle Hc. destruct (ok_history _ _ _ (inv_queue _ Hinv _ _ Hx) _ _ _ Hi) as (-> & c0 & Hc0 & Hq).
  simplify_eq. destruct (inv_command _ Hinv _ _ Hc) as (y & Hy & Hok). rewrite Hx in Hy. injection Hy as <-.
  rewrite (ok_fence _ _ _ _ Hok), (ok_active _ _ _ _ Hok).
  pose proof (count_take_le id (history x) (executed x) i Hle).
  pose proof (count_take_S id _ _ _ Hi) as Hs. simpl in Hs. rewrite Nat.eqb_refl in Hs.
  pose proof (lookup_lt_Some _ _ _ Hi).
  pose proof (count_take_le id (history x) (S i) (length (history x)) ltac:(lia)) as Hle2.
  rewrite (take_ge (history x) (length (history x))) in Hle2 by done. lia.
Qed.

Lemma held_leased w id c b :
  inv w → commands w !! id = Some c → b ∈ held (work c) → 0 < leases (store w) b.
Proof.
  intros Hinv Hc Hb. change (leases (store w) b) with (cell_uses (store w) (uses_cell (memory b))).
  rewrite (inv_leases _ Hinv), (msum_delete _ _ _ _ Hc).
  pose proof (uses_of_elem _ b _ Hb eq_refl). pose proof (uses_of_nonneg (uses_cell (memory b)) (guards w)).
  pose proof (msum_nonneg (λ c, uses_of (uses_cell (memory b)) (held (work c))) (delete id (commands w))
    ltac:(intros; apply uses_of_nonneg)). lia.
Qed.

(** C25. The buffers of a submission the device has not finished stay leased:
    in every reachable world, for every submission published to a queue whose
    completion value the device has not stored, a host write through any alias
    of any of its buffers is refused and changes nothing. *)
Theorem unfinished_submissions_stay_leased w q x i id v c b b' off new :
  reachable w → queues w !! q = Some x → history x !! i = Some (id, v) → (executed x <= i)%nat →
  commands w !! id = Some c → b ∈ buffers (work c) →
  buffer_wf b' → alias b b' → 0 <= off → off + Z.of_nat (length new) <= len b' →
  0 < leases (store w) b ∧ NativeMemory.write control (store w) b' off new = (store w, busy).
Proof.
  intros Hr Hx Hi Hle Hc Hb Hwf Hal H0 Hlen. pose proof (queue_reachable_inv w Hr) as Hinv.
  pose proof (unfinished_active w q x i id v c Hinv Hx Hi Hle Hc) as Hact.
  assert (0 < leases (store w) b) as Hpos.
  { eapply held_leased; [done..|]. destruct (inv_retire _ Hinv _ _ Hc) as [Hret -> _].
    by rewrite (proj2 (Z.ltb_lt _ _)) by lia. }
  split; [done|]. unfold NativeMemory.write. rewrite range_wf by (done || lia).
  destruct Hal as [_ Hcell]. unfold leases in *. rewrite <-Hcell.
  by rewrite (proj2 (Z.eqb_neq _ _)) by lia.
Qed.

(** Cached completion is sound: when [is_complete] reports a submitted
    point of a command, the device has stored it, and every point the command
    waits for has been reported too. *)
Theorem completion_is_sound w id v :
  reachable w → is_complete w id v = true → 0 < v →
  ∃ c, commands w !! id = Some c ∧ v <= fence (work c) ∧
    ∀ d p, (d, p) ∈ dependencies (work c) → is_complete w d p = true.
Proof.
  intros Hr Hd Hv. pose proof (queue_reachable_inv w Hr) as Hinv. unfold is_complete in Hd.
  destruct (commands w !! id) as [c|] eqn:Hc; [|done]. to_prop. exists c.
  destruct (inv_retire _ Hinv _ _ Hc) as [Hret _ Haw]. split_and!; [done|lia|].
  intros d p Hin. destruct (inv_command _ Hinv _ _ Hc) as (x & _ & Hok).
  destruct (ok_dependencies _ _ _ _ Hok _ _ Hin) as (_ & cd & Hcd & _). unfold is_complete. rewrite Hcd.
  apply Z.leb_le. by eapply Haw; [lia|..].
Qed.
End Reachable.
End NativeQueue.
