(* ===== verification/NativeQueueTheorems.v ===== *)
(** * Theorems about native queues

    What NativeQueue's ring holds, and what retirement achieves.  The words the
    device reads are the frames of the submissions in order, each contiguous
    in the ring and readable as whole packets; reaping and dispatching always
    return; and once the device has stored every completion value, reaping a
    queue empties it and drops the leases of its commands. *)

From S2P Require Import Prelude NativeMemory Pm4 NativeQueue.
Import NativeMemory Pm4 NativeQueue.
Local Open Scope Z_scope.

Module NativeQueueTheorems.

(** ** The submissions as one stream of frames *)

(** The abstract queue: frames one after the other, with padding where a frame
    would cross the end of the ring. *)
Definition append_frame (is_sdma : bool) (cap : Z) (log frame : list Z) : list Z :=
  log ++ padding is_sdma (wrap_words cap (ring_position cap (Z.of_nat (length log))) (Z.of_nat (length frame)))
      ++ frame.
Definition frames (is_sdma : bool) (cap : Z) (l : list (list Z)) : list Z :=
  foldl (append_frame is_sdma cap) [] l.

(** The frame of one submission. *)
Definition frame_at (m : gmap nat Command) (p : nat * Z) : list Z :=
  match m !! p.1 with Some c => published (template c) p.2 | None => [] end.
Definition submitted (w : World) (x : Queue) : list (list Z) := frame_at (commands w) <$> history x.

(** A frame the ring can hold. *)
Definition frame_ok (cap : Z) (frame : list Z) : Prop :=
  (0 < length frame)%nat ∧ (length frame mod 8 = 0)%nat ∧ Z.of_nat (length frame) <= cap.

Definition log_ok (w : World) : Prop :=
  ∀ q x, queues w !! q = Some x →
    log x = frames (sdma x) (capacity x) (submitted w x) ∧ Forall (frame_ok (capacity x)) (submitted w x).

(** Steps that publish nothing. *)
Record quiet (w w' : World) : Prop := {
  quiet_queues : ∀ q x', queues w' !! q = Some x' → ∃ x, queues w !! q = Some x ∧
    log x' = log x ∧ sdma x' = sdma x ∧ capacity x' = capacity x ∧ history x' = history x;
  quiet_commands : ∀ id c, commands w !! id = Some c →
    ∃ c', commands w' !! id = Some c' ∧ template c' = template c }.

Lemma submitted_same w w' q x :
  inv w → queues w !! q = Some x →
  (∀ id c, commands w !! id = Some c → ∃ c', commands w' !! id = Some c' ∧ template c' = template c) →
  frame_at (commands w') <$> history x = submitted w x.
Proof.
  intros Hinv Hx Hc. unfold submitted. apply list_fmap_ext. intros i [id v] Hi.
  destruct (ok_history _ _ _ (inv_queue _ Hinv _ _ Hx) _ _ _ Hi) as (_ & c & Hcid & _).
  destruct (Hc _ _ Hcid) as (c' & Hc' & Ht). unfold frame_at. simpl. by rewrite Hcid, Hc', Ht.
Qed.

Lemma quiet_log w w' : inv w → quiet w w' → log_ok w → log_ok w'.
Proof.
  intros Hinv [Hq Hc] Hl q x' Hx'. destruct (Hq _ _ Hx') as (x & Hx & El & Es & Ec & Eh).
  destruct (Hl _ _ Hx) as [Hlog Hall]. unfold submitted. rewrite El, Es, Ec, Eh.
  rewrite (submitted_same w w' q x Hinv Hx Hc). done.
Qed.

Lemma reaped_quiet w w' : reaped w w' → quiet w w'.
Proof.
  intros [_ Hc Hq]. constructor.
  - intros q x' Hx'. destruct (Hq _ _ Hx') as (x & n & Hx & ->). by exists x.
  - intros id c Hid. destruct (Hc _ _ Hid) as (c' & Hc' & Hev). exists c'. split; [done|by apply same_template].
Qed.

Lemma evolves_quiet w w' : evolves w w' → quiet w w'.
Proof.
  intros Hev. constructor.
  - intros q x' Hx'. rewrite (same_queues _ _ Hev) in Hx'. by exists x'.
  - intros id c Hid. destruct (evolves_forth _ _ Hev _ _ Hid) as (c' & Hc' & He). exists c'.
    split; [done|by apply same_template].
Qed.

Lemma same_commands_quiet w w' : commands w' = commands w → queues w' = queues w → quiet w w'.
Proof.
  intros Hc Hq. constructor; rewrite ?Hc, ?Hq; [by intros q x Hx; exists x|by intros id c H; exists c].
Qed.

Lemma set_queue_quiet w q x y :
  queues w !! q = Some x → log y = log x → sdma y = sdma x → capacity y = capacity x → history y = history x →
  quiet w (set_queue w q y).
Proof.
  intros Hx El Es Ec Eh. constructor; cbn [set_queue queues commands]; [|by intros id c H; exists c].
  intros p z Hz. apply lookup_insert_Some in Hz as [[<- <-]|[_ Hz]]; [by exists x|by exists z].
Qed.

Lemma execute_quiet w q w' : execute w q = Some w' → quiet w w'.
Proof.
  unfold execute. destruct (queues w !! q) as [x|] eqn:Hx; [|done]. cbn [mbind option_bind].
  destruct (history x !! executed x) as [[id v]|]; [|done]. cbn [mbind option_bind].
  destruct (commands w !! id) as [c|] eqn:Hc; [|done]. cbn [mbind option_bind]. intros [= <-].
  constructor; cbn [set_queue set_command queues commands].
  - intros p z Hz. apply lookup_insert_Some in Hz as [[<- <-]|[_ Hz]]; [by exists x|by exists z].
  - intros i d Hd. destruct (decide (i = id)) as [->|Hne].
    + rewrite lookup_insert_eq. eexists. split; [done|]. by simplify_eq.
    + rewrite lookup_insert_ne by done. by exists d.
Qed.

Lemma prepare_quiet w q t bufs deps : inv w → quiet w (prepare w q t bufs deps).
Proof.
  intros Hinv. constructor; cbn [prepare queues commands]; [by intros l x Hx; exists x|].
  intros id c Hid.
  rewrite lookup_insert_ne; [by exists c|]. pose proof (inv_next _ Hinv _ _ Hid). lia.
Qed.

(** Publishing appends one frame. *)
Lemma committed_log w st id c x :
  inv w → commands w !! id = Some c → queues w !! queue_of c = Some x → room c x → log_ok w →
  let n := Z.of_nat (length (words (template c))) in
  let wrap := wrap_words (capacity x) (ring_position (capacity x) (write x)) n in
  log_ok (committed w st id c x (previous c + 1) wrap (wrap + n) (buffers (work c))).
Proof.
  intros Hinv Hc Hx [Hpend Hroom] Hl. cbv zeta in *. intros q y Hy.
  set (w' := committed _ _ _ _ _ _ _ _ _) in *.
  assert (∀ i z, commands w !! i = Some z → ∃ z', commands w' !! i = Some z' ∧ template z' = template z) as Hcm.
  { intros i z Hz. subst w'. cbn [committed set_queue set_command set_store commands].
    destruct (decide (i = id)) as [->|Hne].
    - rewrite lookup_insert_eq. eexists. split; [done|]. by simplify_eq.
    - rewrite lookup_insert_ne by done. by exists z. }
  subst w'. cbn [committed set_queue set_command set_store queues] in Hy.
  apply lookup_insert_Some in Hy as [[<- <-]|[Hne Hy]].
  - destruct (Hl _ _ Hx) as [Hlog Hall]. unfold submitted. cbn [publish history log sdma capacity].
    rewrite fmap_app, (submitted_same w _ _ x Hinv Hx Hcm). cbn [fmap list_fmap].
    match goal with |- context [frame_at ?m (id, ?v)] =>
      assert (frame_at m (id, v) = published (template c) (previous c + 1)) as -> end.
    { unfold frame_at. cbn [fst snd committed set_queue set_command set_store commands].
      by rewrite lookup_insert_eq. }
    destruct (inv_command _ Hinv _ _ Hc) as (x0 & _ & [[Ht1 Ht2] _ _ _ _]).
    destruct (ok_ring _ _ _ (inv_queue _ Hinv _ _ Hx)) as [[k [Hk Hcap]] _ Hlen _ Hrd Hrm _ _].
    split.
    + unfold frames. rewrite foldl_app. cbn [foldl]. fold (frames (sdma x) (capacity x) (submitted w x)).
      rewrite <-Hlog. unfold append_frame. rewrite Hlen. unfold published. rewrite length_insert. done.
    + apply Forall_app. split; [done|]. constructor; [|constructor]. unfold frame_ok, published.
      rewrite length_insert. split_and!; [lia|done|].
      assert (0 <= wrap_words (capacity x) (ring_position (capacity x) (write x)) (Z.of_nat (length (words (template c)))))
        by (unfold wrap_words; rewrite Hcap, ring_position_mod by lia;
            pose proof (Z.mod_pos_bound (write x) (2 ^ k) ltac:(lia)); case_bool; lia). lia.
  - destruct (Hl _ _ Hy) as [Hlog Hall]. unfold submitted in *.
    rewrite (submitted_same w _ _ y Hinv Hy Hcm). done.
Qed.

Lemma step_log control w w' : step control w w' → inv w → log_ok w → log_ok w'.
Proof.
  intros Hstep Hinv Hl. destruct Hstep as [q t bufs deps Hp|id wait w' o Hd|id v w' r Hr|q x n Hx Hn Hle|q w' He
    |q x Hx|b st Hb|b g1 g2 Hg|b off new st r Hh].
  - by apply (quiet_log w); [|apply prepare_quiet|].
  - destruct (commands w !! id) as [c|] eqn:Hc; [|by unfold dispatch_one in Hd; rewrite Hc in Hd].
    destruct (dispatch_one_cases w id wait w' o c Hinv Hc Hd)
      as [->|(w2 & c2 & x2 & Hre & Hc2 & Hx2 & _ & Hcase)]; [done|].
    assert (log_ok w2) as Hl2 by (apply (quiet_log w); [done|by apply reaped_quiet|done]).
    destruct Hcase as [(st & -> & _)|(st & -> & _ & Hroom & _)].
    + apply (quiet_log w2); [by destruct Hre|by apply same_commands_quiet|done].
    + apply committed_log; try done. by destruct Hre.
  - unfold refresh in Hr. destruct (commands w !! id) as [c|] eqn:Hc; [|done]. cbn [mbind option_bind] in Hr.
    destruct (inv_command _ Hinv _ _ Hc) as (x & Hx & _).
    destruct (poll_spec w (queue_of c) id v Hinv ltac:(by exists c) ltac:(by exists x)) as (w1 & r1 & Hpoll & Hinv1 & Hev1 & _).
    rewrite Hpoll in Hr. cbn [mbind option_bind] in Hr.
    assert (log_ok w1) as Hl1 by (apply (quiet_log w); [done|by apply evolves_quiet|done]).
    destruct r1 as [[]|e]; [|by injection Hr as <- <-..].
    rewrite <-(same_queues _ _ Hev1) in Hx.
    destruct (reap_reaped w1 (queue_of c) x Hinv1 Hx) as (w2 & r2 & Hreap & Hre & _). rewrite Hreap in Hr.
    cbn [mbind option_bind] in Hr. injection Hr as <- <-. apply (quiet_log w1); [done|by apply reaped_quiet|done].
  - apply (quiet_log w); [done|by eapply set_queue_quiet|done].
  - apply (quiet_log w); [done|by eapply execute_quiet|done].
  - apply (quiet_log w); [done|by eapply set_queue_quiet|done].
  - apply (quiet_log w); [done|by apply same_commands_quiet|done].
  - apply (quiet_log w); [done|by apply same_commands_quiet|done].
  - apply (quiet_log w); [done|by apply same_commands_quiet|done].
Qed.

Lemma reachable_log control w : reachable control w → log_ok w.
Proof.
  intros (w0 & H0 & Hr). pose proof (initial_inv w0 H0) as Hinv.
  assert (log_ok w0) as Hl.
  { intros q x Hx. destruct (initial_queues _ H0 q x Hx) as (k & s & ring & _ & _ & ->). by split. }
  clear H0. induction Hr as [|a b c Hab _ IH]; [done|].
  apply IH; [by eapply queue_step_inv|by eapply step_log].
Qed.

(** Each frame lies in one piece, at most after padding. *)
Lemma frames_contiguous is_sdma k l1 f l2 :
  3 <= k → Forall (frame_ok (2 ^ k)) (l1 ++ f :: l2) →
  ∃ before after, frames is_sdma (2 ^ k) (l1 ++ f :: l2) = before ++ f ++ after ∧
    Z.of_nat (length before) mod 2 ^ k + Z.of_nat (length f) <= 2 ^ k.
Proof.
  intros Hk Hall.
  assert (∀ l, Forall (frame_ok (2 ^ k)) l → Z.of_nat (length (frames is_sdma (2 ^ k) l)) mod 8 = 0) as Hmod.
  { intros l. induction l as [|g l IH] using rev_ind; intros Hl; [done|].
    apply Forall_app in Hl as [Hl [(Hg0 & Hg8 & _) _]%Forall_cons]. specialize (IH Hl).
    unfold frames. rewrite foldl_app. cbn [foldl]. fold (frames is_sdma (2 ^ k) l). unfold append_frame.
    pose proof (ring_wrap k (Z.of_nat (length (frames is_sdma (2 ^ k) l))) (Z.of_nat (length g)) Hk ltac:(lia) IH ltac:(lia))
      as (_ & Hw0 & Hw8 & _).
    rewrite !length_app, !Nat2Z.inj_add, padding_length by done.
    rewrite Z.add_mod, (Z.add_mod (wrap_words _ _ _)), IH, Hw8, <-(Nat2Z.inj_mod _ 8), Hg8 by lia. done. }
  apply Forall_app in Hall as [H1 [(Hf0 & Hf8 & Hfc) H2]%Forall_cons]. specialize (Hmod l1 H1).
  set (before := frames is_sdma (2 ^ k) l1) in *.
  pose proof (ring_wrap k (Z.of_nat (length before)) (Z.of_nat (length f)) Hk ltac:(lia) Hmod ltac:(lia)) as Hw.
  cbv zeta in Hw. rewrite ring_position_mod in Hw by lia.
  destruct Hw as (Hc & Hw0 & _ & _ & _ & Hz & Hnz).
  set (wrap := wrap_words _ _ _) in *.
  exists (before ++ padding is_sdma wrap). unfold frames. rewrite foldl_app. cbn [foldl].
  fold (frames is_sdma (2 ^ k) l1). fold before. unfold append_frame at 2.
  rewrite ring_position_mod by lia. fold wrap.
  assert (∀ l acc, ∃ tail, foldl (append_frame is_sdma (2 ^ k)) acc l = acc ++ tail) as Hext.
  { intros l. induction l as [|g l IH]; intros acc; [exists []; by rewrite app_nil_r|].
    cbn [foldl]. destruct (IH (append_frame is_sdma (2 ^ k) acc g)) as [tail ->]. unfold append_frame.
    eexists. by rewrite <-!app_assoc. }
  destruct (Hext l2 (before ++ padding is_sdma wrap ++ f)) as [tail ->]. exists tail. split; [by rewrite <-!app_assoc|].
  rewrite length_app, Nat2Z.inj_add, padding_length by done. destruct (decide (wrap = 0)) as [E|E].
  - rewrite E, Z.add_0_r. by apply Hz.
  - rewrite Hnz by done. lia.
Qed.

(** C26. The ring refines a FIFO of frames: in every reachable world the words
    a queue has published are the frames of its submissions in order, each in
    one piece of the ring; less than a ring of them is unread, and every
    unread word is in its slot, so nothing is overwritten before the device
    reads it. *)
Theorem ring_refines_fifo control w q x :
  reachable control w → queues w !! q = Some x →
  log x = frames (sdma x) (capacity x) (submitted w x) ∧
  Z.of_nat (length (log x)) = write x ∧ 0 <= read x <= write x ∧ write x - read x < capacity x ∧
  (∀ i, read x <= i < write x → ring x !! Z.to_nat (i mod capacity x) = log x !! Z.to_nat i) ∧
  ∀ l1 frame l2, submitted w x = l1 ++ frame :: l2 →
    ∃ before after, log x = before ++ frame ++ after ∧
      Z.of_nat (length before) mod capacity x + Z.of_nat (length frame) <= capacity x.
Proof.
  intros Hr Hx. destruct (reachable_log control w Hr q x Hx) as [Hlog Hall].
  destruct (ok_ring _ _ _ (inv_queue _ (queue_reachable_inv control w Hr) _ _ Hx))
    as [[k [Hk Hcap]] _ Hlen _ Hrd Hroom _ Hf].
  split_and!; try done; try lia.
  - intros i Hi. apply Hf. lia.
  - intros l1 f l2 Hs. rewrite Hs, Hcap in Hall. rewrite Hlog, Hs, Hcap. by apply frames_contiguous.
Qed.

(** ** Packets *)

Definition is_nop (p : Packet) : bool := opcode p =? 0x10.
Definition effective (ps : list Packet) : list Packet := filter (λ p, is_nop p = false) ps.

Lemma padding_stream k write n :
  3 <= k → 0 <= write → write mod 8 = 0 → 0 < n <= 2 ^ 14 →
  ∃ ps, stream (padding false (wrap_words (2 ^ k) (ring_position (2 ^ k) write) n)) ps ∧ effective ps = [].
Proof.
  intros Hk Hw H8 Hn. pose proof (ring_wrap k write n Hk Hw H8 ltac:(lia)) as (_ & Hw0 & Hw8 & _ & Hwn & _).
  set (wrap := wrap_words _ _ _) in *. unfold padding. destruct (wrap =? 0) eqn:E; to_prop.
  { exists []. split; [split; [done|constructor]|done]. }
  assert (8 <= wrap < 2 ^ 14) as Hb by (Z.to_euclidean_division_equations; lia).
  exists [nop (Z.to_nat wrap)]. split; [|done]. split.
  - cbn [mbind list_bind app]. unfold encode, nop. cbn [opcode flags body].
    rewrite length_replicate, Z.lor_0_r, app_nil_r. do 2 f_equal. lia.
  - constructor; [|constructor]. split_and!; cbn [nop opcode flags body]; rewrite ?length_replicate; try lia.
    apply Forall_replicate. unfold is_u32. lia.
Qed.

Lemma frames_stream k l :
  3 <= k → Forall (λ f, frame_ok (2 ^ k) f ∧ Z.of_nat (length f) <= 2 ^ 14 ∧ ∃ ps, stream f ps) l →
  ∃ ps, stream (frames false (2 ^ k) l) ps ∧ Z.of_nat (length (frames false (2 ^ k) l)) mod 8 = 0 ∧
    ∀ pss, Forall2 stream l pss → effective ps = effective (mjoin pss).
Proof.
  intros Hk. induction l as [|f l IH] using rev_ind; intros Hl.
  { exists []. split_and!; [split; [done|constructor]|done|]. intros pss H. by apply Forall2_nil_inv_l in H as ->. }
  apply Forall_app in Hl as [Hl [((Hf0 & Hf8 & _) & Hshort & qs & Hqs) _]%Forall_cons].
  destruct (IH Hl) as (ps & Hps & Hmod & Heff).
  set (before := frames false (2 ^ k) l) in *.
  destruct (padding_stream k (Z.of_nat (length before)) (Z.of_nat (length f)) Hk ltac:(lia) Hmod ltac:(lia))
    as (pad_ps & Hpad & Hnone).
  pose proof (ring_wrap k (Z.of_nat (length before)) (Z.of_nat (length f)) Hk ltac:(lia) Hmod ltac:(lia))
    as (_ & Hw0 & Hw8 & _).
  exists (ps ++ pad_ps ++ qs). unfold frames. rewrite foldl_app. cbn [foldl]. fold (frames false (2 ^ k) l). fold before.
  unfold append_frame. split_and!.
  - by repeat apply stream_app.
  - rewrite !length_app, !Nat2Z.inj_add, padding_length by done.
    rewrite Z.add_mod, (Z.add_mod (wrap_words _ _ _)), Hmod, Hw8, <-(Nat2Z.inj_mod _ 8), Hf8 by lia. done.
  - intros pss H. apply Forall2_app_inv_l in H as (p1 & p2 & H1 & H2 & ->).
    apply Forall2_cons_inv_l in H2 as (q1 & p3 & Hq & H3 & ->). apply Forall2_nil_inv_l in H3 as ->.
    unfold effective in *. rewrite join_app, !filter_app, (Heff p1 H1), Hnone.
    apply decode_stream in Hqs, Hq. simplify_eq. simpl. by rewrite app_nil_r.
Qed.

(** On a compute queue whose frames decode, everything published decodes:
    the whole log is a sequence of packets, and apart from NOP padding they are
    the packets of the submissions in order. *)
Theorem published_packets_in_order control w q x pss :
  reachable control w → queues w !! q = Some x → sdma x = false →
  Forall (λ f, Forall is_u32 f ∧ Z.of_nat (length f) <= 2 ^ 14) (submitted w x) →
  Forall2 (λ f ps, decode f = Some ps) (submitted w x) pss →
  ∃ ps, decode (log x) = Some ps ∧ effective ps = effective (mjoin pss).
Proof.
  intros Hr Hx Hs Hshort Hdec. destruct (reachable_log control w Hr q x Hx) as [Hlog Hall].
  destruct (ok_ring _ _ _ (inv_queue _ (queue_reachable_inv control w Hr) _ _ Hx)) as [[k [Hk Hcap]] _ _ _ _ _ _ _].
  rewrite Hs, Hcap in *.
  assert (Forall2 stream (submitted w x) pss) as Hst.
  { clear -Hshort Hdec. induction Hdec as [|f ps l k Hf _ IH]; [constructor|].
    apply Forall_cons in Hshort as [[Hu _] Hshort]. constructor; [by apply decode_iff_stream|by apply IH]. }
  destruct (frames_stream k (submitted w x) Hk) as (ps & Hps & _ & Heff).
  { apply Forall_forall. intros f Hin. rewrite Forall_forall in Hall, Hshort.
    split; [by apply Hall|]. split; [by apply Hshort|].
    apply list_elem_of_lookup_1 in Hin as [i Hi]. destruct (Forall2_lookup_l _ _ _ _ _ Hst Hi) as (qs & _ & Hqs). by exists qs. }
  exists ps. split; [rewrite Hlog; by apply decode_stream|by apply Heff].
Qed.

(** ** Draining *)

(** The device has stored every value. *)
Definition drained (w : World) : Prop :=
  ∀ id c, commands w !! id = Some c → fence (work c) = active (work c).

Lemma executed_drained w :
  inv w → (∀ q x, queues w !! q = Some x → executed x = length (history x)) → drained w.
Proof.
  intros Hinv He id c Hc. destruct (inv_command _ Hinv _ _ Hc) as (x & Hx & Hok).
  rewrite (ok_fence _ _ _ _ Hok), (ok_active _ _ _ _ Hok), (He _ _ Hx). by rewrite take_ge.
Qed.

Lemma evolves_drained w w' : evolves w w' → drained w → drained w'.
Proof.
  intros Hev Hd id c' Hc'. destruct (evolves_back _ _ Hev _ _ Hc') as (c & Hc & He).
  rewrite (same_fence _ _ He), (same_active _ _ He). by eapply Hd.
Qed.

(** Retiring a submitted point of a drained world succeeds. *)
Lemma drained_retires fuel w id v c :
  (id < fuel)%nat → inv w → drained w → commands w !! id = Some c → v <= active (work c) →
  ∃ w', retire fuel w id v = Some (w', true).
Proof.
  revert w id v c. induction fuel as [|fuel IH]; intros w id v c Hf Hinv Hd Hc Hv; [lia|].
  cbn [retire]. rewrite Hc. cbn [mbind option_bind]. case_bool; [by exists w|].
  rewrite (Hd _ _ Hc), (proj2 (Z.leb_le _ _)) by done.
  destruct (inv_command _ Hinv _ _ Hc) as (x & _ & Hok).
  assert (∃ w1, retire_dependencies (retire fuel) w (dependencies (work c)) = Some (w1, true)) as [w1 ->].
  { pose proof (ok_dependencies _ _ _ _ Hok) as Hdeps. clear Hc E. revert w Hinv Hd Hok Hdeps.
    induction (dependencies (work c)) as [|[d p] rest IHd]; intros w Hinv Hd Hok Hdeps; [by exists w|].
    cbn [retire_dependencies]. destruct (Hdeps d p ltac:(by left)) as (Hlt & cd & Hcd & Hle).
    destruct (IH w d p cd ltac:(lia) Hinv Hd Hcd Hle) as [w1 Hw1]. rewrite Hw1. cbn [mbind option_bind].
    destruct (retire_spec fuel w d p ltac:(lia) Hinv ltac:(by exists cd)) as (w1' & b & Hw1' & [Hi1 He1 _ _]).
    rewrite Hw1 in Hw1'. injection Hw1' as <- <-.
    apply IHd; [done|by eapply evolves_drained| |].
    - destruct Hok as [? ? ? ? Hds]. constructor; try done. intros d' p' Hin.
      destruct (Hds d' p' Hin) as (Hlt' & cd' & Hcd' & Hle'). split; [done|].
      destruct (evolves_forth _ _ He1 _ _ Hcd') as (cd2 & Hcd2 & Hev2). exists cd2.
      by rewrite (same_active _ _ Hev2).
    - intros d' p' Hin. destruct (Hdeps d' p' ltac:(by right)) as (Hlt' & cd' & Hcd' & Hle'). split; [done|].
      destruct (evolves_forth _ _ He1 _ _ Hcd') as (cd2 & Hcd2 & Hev2). exists cd2.
      by rewrite (same_active _ _ Hev2). }
  cbn [mbind option_bind]. eexists. done.
Qed.

Lemma drained_reaps w q l :
  inv w → drained w → is_Some (queues w !! q) →
  (∀ id v, (id, v) ∈ l → ∃ c, commands w !! id = Some c ∧ v <= active (work c)) →
  ∃ w', reap_from w q l = Some (w', [], Ok tt).
Proof.
  revert w. induction l as [|[id v] l IH]; intros w Hinv Hd [x Hx] Hl; [by exists w|].
  cbn [reap_from]. destruct (Hl id v ltac:(by left)) as (c & Hc & Hv).
  destruct (drained_retires (S id) w id v c ltac:(lia) Hinv Hd Hc Hv) as [w1 Hw1].
  destruct (retire_spec (S id) w id v ltac:(lia) Hinv ltac:(by exists c)) as (w1' & b & Hw1' & [Hi1 He1 _ _]).
  rewrite Hw1 in Hw1'. injection Hw1' as <- <-.
  unfold poll. rewrite Hw1. cbn [mbind option_bind]. rewrite (same_queues _ _ He1), Hx. cbn [mbind option_bind].
  apply IH; [done|by eapply evolves_drained|by rewrite (same_queues _ _ He1)|].
  intros id' v' Hin. destruct (Hl id' v' ltac:(by right)) as (c' & Hc' & Hv').
  destruct (evolves_forth _ _ He1 _ _ Hc') as (c2 & Hc2 & Hev2). exists c2. by rewrite (same_active _ _ Hev2).
Qed.

(** The latest submission of a command carries its latest value. *)
Lemma latest_point (l : list (nat * Z)) id :
  (∀ i j v, l !! i = Some (j, v) → v = 1 + count j (take i l)) → 0 < count id l →
  ∃ i, l !! i = Some (id, count id l).
Proof.
  intros Hl Hpos. induction l as [|[j v] l IH] using rev_ind; [done|].
  rewrite count_snoc in Hpos |- *. destruct (j =? id)%nat eqn:E; to_prop.
  - subst j. exists (length l). rewrite lookup_app_r, Nat.sub_diag by done. simpl.
    rewrite (Hl (length l) id v) by (rewrite lookup_app_r, Nat.sub_diag; done).
    rewrite take_app_length. do 2 f_equal. lia.
  - destruct IH as [i Hi].
    + intros i j' v' Hi. rewrite (Hl i j' v') by (by apply lookup_app_l_Some).
      apply lookup_lt_Some in Hi. by rewrite take_app_le by lia.
    + lia.
    + exists i. rewrite lookup_app_l by (by eapply lookup_lt_Some). rewrite Hi. do 2 f_equal. lia.
Qed.

(** Once the device has stored every completion value, reaping a queue
    succeeds, empties its pending list and drops every lease of its commands,
    also when the queue has failed since. *)
Theorem drained_queue_releases_everything control w q x :
  reachable control w → (∀ q x, queues w !! q = Some x → executed x = length (history x)) →
  queues w !! q = Some x →
  ∃ w' x', reap w q = Some (w', Ok tt) ∧ queues w' !! q = Some x' ∧ pending x' = [] ∧
    ∀ id c, commands w' !! id = Some c → queue_of c = q →
      held (work c) = [] ∧ is_complete w' id (active (work c)) = true.
Proof.
  intros Hr He Hx. pose proof (queue_reachable_inv control w Hr) as Hinv.
  pose proof (executed_drained w Hinv He) as Hd.
  destruct (drained_reaps w q (pending x) Hinv Hd ltac:(by exists x)) as [w1 Hw1].
  { intros id v Hin. destruct (pending_known w q x id v Hinv Hx Hin) as (c & Hc & _ & Hv). by exists c. }
  destruct (reap_spec w q x Hinv Hx) as (w1' & n & r & Hreap & Hev & _ & Hinv2).
  unfold reap in Hreap |- *. rewrite Hx in Hreap |- *. cbn [mbind option_bind] in Hreap |- *.
  rewrite Hw1 in Hreap |- *. cbn [mbind option_bind] in Hreap |- *.
  assert (inv (set_queue w1 q (set_pending x []))) as Hinv3.
  { replace (set_queue w1 q (set_pending x [])) with (set_queue w1' q (set_pending x (drop n (pending x))))
      by congruence. done. }
  eexists _, _. split; [done|]. cbn [set_queue queues]. rewrite lookup_insert_eq. split; [done|].
  split; [done|]. intros id c Hc Hq.
  assert (queues (set_queue w1 q (set_pending x [])) !! q = Some (set_pending x [])) as Hx3 by apply lookup_insert_eq.
  assert (active (work c) <= retired (work c)) as Hret.
  { destruct (inv_command _ Hinv3 _ _ Hc) as (x3 & Hx3' & Hok). rewrite Hq, Hx3 in Hx3'. injection Hx3' as <-.
    rewrite (ok_active _ _ _ _ Hok). destruct (inv_retire _ Hinv3 _ _ Hc) as [[Hr0 _] _ _].
    destruct (decide (0 < count id (history x))) as [Hpos|Hpos]; [|cbn [set_pending history]; lia].
    destruct (latest_point (history x) id) as [i Hi]; [|done|].
    { intros i j v Hi. by apply (ok_history _ _ _ (inv_queue _ Hinv _ _ Hx) _ _ _ Hi). }
    destruct (inv_popped _ Hinv3 _ _ Hx3) as (m & Hm & Hpop). cbn [set_pending pending history] in Hm, Hpop |- *.
    eapply (Hpop i); [|exact Hi|exact Hc]. apply (f_equal length) in Hm. rewrite length_drop in Hm. simpl in Hm.
    pose proof (lookup_lt_Some _ _ _ Hi). lia. }
  split.
  - destruct (inv_retire _ Hinv3 _ _ Hc) as [_ -> _]. by rewrite (proj2 (Z.ltb_ge _ _)).
  - unfold is_complete. rewrite Hc. by apply Z.leb_le.
Qed.

(** Publishing and refreshing always return: for a prepared command of a
    reachable world the recursion over awaited commands and the reaping loop
    end, so each call gives a completion, an error or a point to await. *)
Theorem queue_operations_return control w id wait v :
  reachable control w → is_Some (commands w !! id) →
  is_Some (dispatch_one w id wait) ∧ is_Some (refresh w id v).
Proof.
  intros Hr [c Hc]. pose proof (queue_reachable_inv control w Hr) as Hinv.
  destruct (inv_command _ Hinv _ _ Hc) as (x & Hx & _). split.
  - unfold dispatch_one. rewrite Hc. cbn [mbind option_bind]. case_bool; [done|].
    destruct (reap_reaped w (queue_of c) x Hinv Hx) as (w2 & r & -> & Hre & [x2 Hx2]). cbn [mbind option_bind].
    destruct (reaped_commands _ _ Hre _ _ Hc) as (c2 & Hc2 & _).
    destruct r; [|done]. rewrite Hc2, Hx2. cbn [mbind option_bind].
    destruct (_ <=? Z.of_nat _); [done|]. by destruct (_ - _ <=? _).
  - unfold refresh. rewrite Hc. cbn [mbind option_bind].
    destruct (poll_spec w (queue_of c) id v Hinv ltac:(by exists c) ltac:(by exists x)) as (w1 & r & -> & Hinv1 & Hev & _).
    cbn [mbind option_bind]. destruct r as [[]|]; [|done..]. rewrite <-(same_queues _ _ Hev) in Hx.
    destruct (reap_reaped w1 (queue_of c) x Hinv1 Hx) as (w2 & r2 & -> & _). done.
Qed.

(** The points recorded by a wait were submitted, so the wait can be prepared. *)
Lemma wait_dependencies_preparable w q x q' id v c t :
  inv w → queues w !! q = Some x → is_Some (queues w !! q') → commands w !! id = Some c →
  v <= active (work c) → template_ok t → preparable w q' t (wait_dependencies x id v).
Proof.
  intros Hinv Hx Hq Hc Hv Ht. split; [done|]. split; [done|]. intros d p Hin. unfold wait_dependencies in Hin.
  destruct (list_find _ (pending x)) as [[stop p0]|].
  - assert ((d, p) ∈ pending x) as Hpend
      by (rewrite <-(take_drop (stop + 1) (pending x)); apply elem_of_app; by left).
    destruct (pending_known w q x d p Hinv Hx Hpend) as (cd & Hcd & _ & Hle). by exists cd.
  - apply list_elem_of_singleton in Hin as [= -> ->]. by exists c.
Qed.

(** ** A submission, executed *)

Definition demo_queue : Queue := new_queue 1024 false (replicate 1024 0).
Definition demo_initial : World :=
  mkWorld (mkStore ∅ {[1%nat := true]} {[1%nat := replicate 16 7]}) ∅ {[0%nat := demo_queue]} [] 0.
Definition demo_template : Template := kernel_template Gcr false demo_dispatch 4096.
Definition demo_prepared : World := prepare demo_initial 0 demo_template [demo_view] [].
Definition demo_published : World :=
  match dispatch_one demo_prepared 0 false with Some (w, _) => w | None => demo_prepared end.
Definition demo_executed : World := default demo_published (execute demo_published 0).
Definition demo_retired : World :=
  match refresh demo_executed 0 1 with Some (w, _) => w | None => demo_executed end.
Definition queue_at (w : World) : Queue := default demo_queue (queues w !! 0%nat).
Definition command_at (w : World) : Command :=
  default (mkCommand 0 demo_template 0 (mkWork 0 [] [] 0 0 [])) (commands w !! 0%nat).

Lemma demo_initial_ok : initial demo_initial.
Proof.
  constructor; try done. intros q x Hx. unfold demo_initial in Hx. cbn [queues] in Hx.
  apply lookup_singleton_Some in Hx as [<- <-]. exists 10, false, (replicate 1024 0).
  split_and!; [lia|by rewrite length_replicate|done].
Qed.

Lemma demo_queue_prepared_reachable : rtc (step demo_control) demo_initial demo_prepared.
Proof.
  apply rtc_once, step_prepare. split; [by eexists|]. split; [vm_compute; split; [done|lia]|].
  intros d p Hin. by apply elem_of_nil in Hin.
Qed.

Lemma demo_dispatches : dispatch_one demo_prepared 0 false = Some (demo_published, Published 1).
Proof. vm_compute. reflexivity. Qed.
Lemma demo_executes : execute demo_published 0 = Some demo_executed.
Proof. vm_compute. reflexivity. Qed.
Lemma demo_refreshes : refresh demo_executed 0 1 = Some (demo_retired, Ok true).
Proof. vm_compute. reflexivity. Qed.

Lemma demo_published_reachable : reachable demo_control demo_published.
Proof.
  exists demo_initial. split; [apply demo_initial_ok|]. eapply rtc_r; [apply demo_queue_prepared_reachable|].
  eapply step_dispatch, demo_dispatches.
Qed.
Lemma demo_executed_reachable : reachable demo_control demo_executed.
Proof.
  destruct demo_published_reachable as (w0 & H0 & Hr). exists w0. split; [done|].
  eapply rtc_r; [exact Hr|]. eapply step_execute, demo_executes.
Qed.
Lemma demo_retired_reachable : reachable demo_control demo_retired.
Proof.
  destruct demo_executed_reachable as (w0 & H0 & Hr). exists w0. split; [done|].
  eapply rtc_r; [exact Hr|]. eapply step_refresh, demo_refreshes.
Qed.

(** The buffer is leased while the device works and released by [refresh]. *)
Example leased_then_released :
  (leases (store demo_published) demo_view, leases (store demo_executed) demo_view,
   leases (store demo_retired) demo_view, pending (queue_at demo_retired)) = (1, 1, 0, []).
Proof. vm_compute. reflexivity. Qed.

(** A ring that cannot hold a frame and its padding refuses it. *)
Example full_ring_refuses :
  let x := mkQueue 64 false true (replicate 64 0) 0 [] 0 0 [] [] in
  let w := prepare (mkWorld (mkStore ∅ ∅ ∅) ∅ {[0%nat := x]} [] 0) 0 demo_template [] [] in
  match dispatch_one w 0 false with
  | Some (w, Published 1) => snd <$> dispatch_one w 0 false
  | _ => None
  end = Some (Failed (Busy "native command ring is full")).
Proof. vm_compute. reflexivity. Qed.

(** ** Witnesses *)

Lemma ring_refines_fifo_witness :
  log (queue_at demo_published) = frames false 1024 (submitted demo_published (queue_at demo_published)).
Proof.
  refine (proj1 (ring_refines_fifo demo_control demo_published 0 (queue_at demo_published)
    demo_published_reachable _)). vm_compute. reflexivity.
Defined.

Lemma published_packets_in_order_witness :
  ∃ ps, decode (log (queue_at demo_published)) = Some ps ∧
    effective ps = effective (mjoin [default [] (decode (published demo_template 1))]).
Proof.
  apply (published_packets_in_order demo_control demo_published 0 (queue_at demo_published)).
  - apply demo_published_reachable.
  - vm_compute. reflexivity.
  - reflexivity.
  - apply (bool_decide_unpack _). vm_compute. exact I.
  - replace (submitted demo_published (queue_at demo_published)) with [published demo_template 1]
      by (vm_compute; reflexivity).
    constructor; [vm_compute; reflexivity|constructor].
Defined.

Lemma unfinished_submissions_stay_leased_witness :
  0 < leases (store demo_published) demo_view ∧
  NativeMemory.write demo_control (store demo_published) demo_buffer 0 [1] = (store demo_published, busy).
Proof.
  apply (unfinished_submissions_stay_leased demo_control demo_published 0 (queue_at demo_published) 0 0 1
    (command_at demo_published) demo_view demo_buffer 0 [1] demo_published_reachable);
    try (vm_compute; reflexivity); try (simpl; unfold usize_max; lia); try done.
  replace (buffers (work (command_at demo_published))) with [demo_view] by (vm_compute; reflexivity).
  by left.
Defined.

Lemma completion_is_sound_witness :
  ∃ c, commands demo_retired !! 0%nat = Some c ∧ 1 <= fence (work c) ∧
    ∀ d p, (d, p) ∈ dependencies (work c) → is_complete demo_retired d p = true.
Proof.
  apply (completion_is_sound demo_control demo_retired 0 1 demo_retired_reachable).
  - vm_compute. reflexivity.
  - lia.
Defined.

Lemma drained_queue_releases_everything_witness :
  ∃ w' x', reap demo_executed 0 = Some (w', Ok tt) ∧ queues w' !! 0%nat = Some x' ∧ pending x' = [].
Proof.
  destruct (drained_queue_releases_everything demo_control demo_executed 0 (queue_at demo_executed)
    demo_executed_reachable) as (w' & x' & Hreap & Hx' & Hp & _).
  - intros q x Hx. destruct q as [|q].
    + assert (queues demo_executed !! 0%nat = Some (queue_at demo_executed)) as Hq by (vm_compute; reflexivity).
      rewrite Hq in Hx. injection Hx as <-. vm_compute. reflexivity.
    + exfalso. assert (dom (queues demo_executed) = {[0%nat]}) as Hdom by (vm_compute; reflexivity).
      apply elem_of_dom_2 in Hx. rewrite Hdom in Hx. by apply elem_of_singleton in Hx.
  - vm_compute. reflexivity.
  - by exists w', x'.
Defined.

Lemma queue_operations_return_witness :
  is_Some (dispatch_one demo_retired 0 true) ∧ is_Some (refresh demo_retired 0 1).
Proof.
  apply (queue_operations_return demo_control demo_retired 0 true 1 demo_retired_reachable).
  exists (command_at demo_retired). vm_compute. reflexivity.
Defined.
End NativeQueueTheorems.
