(* ===== verification/Aql.v ===== *)
(** * AQL queues

    The serialized AQL producer of src/src/fabric/aql.rs: the sizing of its
    fixed scratch, the packets written by [AqlQueue::prepare], the retirement
    of a [Work] against its completion signal, [PreparedAql::dispatch],
    [AqlCompletion] and the drop of a queue.

    A [World] holds one queue, its prepared dispatches and the lease counts of
    NativeMemory.  The device fetches packets, decrements completion signals
    and writes timestamps on its own; host threads observe signals, which they
    load before they take a lock, and publish packets one by one.  [step]
    interleaves all of them.  [log], [fetched], [submitted] and [samples]
    record what happened and are read by no operation. *)

From S2P Require Import Prelude NativeMemory Pm4.
Import NativeMemory Pm4.
Local Open Scope Z_scope.

Module Aql.

Definition i64_max : Z := 2 ^ 63 - 1.
(** Arithmetic on [u64] without overflow checks. *)
Definition wrap64 (n : Z) : Z := n mod 2 ^ 64.

(** ** Scratch *)

(** What the endpoint reports of its topology. *)
Record Topology : Type := mkTopology {
  xcc_count : Z;
  shader_engine_count_per_xcc : Z;
  compute_unit_count : Z;
  maximum_scratch_wave_count_per_compute_unit : Z }.

(** [u64::next_multiple_of]. *)
Definition next_multiple_of (n m : Z) : Z := div_ceil n m * m.

(** The bytes and wave slots of the scratch of a queue. *)
Definition scratch_size (t : Topology) (maximum_private_bytes : Z) : Result (Z * Z) :=
  let engines := wrap64 (xcc_count t * shader_engine_count_per_xcc t) in
  if engines =? 0 then Err (Unsupported "empty AQL scratch topology")
  else
    let slots := wrap64 (wrap64 (div_ceil (compute_unit_count t) engines * engines)
                         * maximum_scratch_wave_count_per_compute_unit t) in
    let refused := Err (Unsupported "AQL scratch exceeds the 512 MiB admission limit") in
    match checked_mul (next_multiple_of (wrap64 (maximum_private_bytes * 64)) 1024) slots with
    | Some bytes =>
        if negb (bytes =? 0) && (bytes <=? 512 * 1024 * 1024) && (slots <=? u32_max)
        then Ok (bytes, slots) else refused
    | None => refused
    end.

(** ** Creation *)

(** [QueueCommand] and what a queue family reports. *)
Inductive QueueCommand : Type := CommandPm4 | CommandSdma | CommandAql | CommandOther.
Record Family : Type := mkFamily {
  command : QueueCommand;
  ordinal : Z;
  format_version : Z;
  user_publication : bool;
  system_release : bool;
  system_acquire : bool;
  format_features : Z }.
Global Instance QueueCommand_eq_dec : EqDecision QueueCommand.
Proof. solve_decision. Defined.

Section Features.
(** [AMDF_GPU_AQL_FORMAT_FEATURE_DISPATCH_TIMESTAMPS]. *)
Context (DISPATCH_TIMESTAMPS : Z).
Definition family_admits (timestamps : bool) (f : Family) : bool :=
  bool_decide (command f = CommandAql) && (format_version f =? 1) && user_publication f
  && system_release f && system_acquire f
  && (negb timestamps || negb (Z.land (format_features f) DISPATCH_TIMESTAMPS =? 0)).
Definition select_family (timestamps : bool) (families : list Family) : Result Family :=
  ok_or (snd <$> list_find (λ f, family_admits timestamps f) families)
    (Unsupported "no native AQL v1 family").
End Features.

(** [amdf_user_queue_mapping_info_t], as the queue checks it. *)
Record MappingInfo : Type := mkMappingInfo {
  is_aql : bool;
  info_version : Z;
  index_bits : Z;
  doorbell_bits : Z;
  ring_byte_length : Z;
  addresses : list Z }.
Definition check_mapping (i : MappingInfo) : Result unit :=
  if negb (is_aql i) || negb (info_version i =? 1) || negb (index_bits i =? 64)
     || negb (doorbell_bits i =? 64) || negb (is_power_of_two (ring_byte_length i))
     || (ring_byte_length i <? 128)
     || existsb (λ a, (a =? 0) || negb (a mod 8 =? 0)) (addresses i)
  then Err (Unsupported "unexpected AQL mapping contract") else Ok tt.

(** What [aql_queue_with_timestamps] obtains from the device, in order. *)
Record Creation : Type := mkCreation {
  is_gpu : bool;
  families : Result (list Family);
  clock_info : Z → Result unit;
  topology : Result Topology;
  scratch_memory : Z → Result unit;
  native_queue : Result bool;
  native_map : Result unit;
  mapping_info : Result MappingInfo }.

(** A created queue: its scratch, whether it is profiled, its ring slots. *)
Definition create (features : Z) (c : Creation) (maximum_private_bytes : Z) (timestamps : bool)
    : Result (option (Z * Z) * bool * Z) :=
  if negb (is_gpu c) then Err (Unsupported "AQL requires a GPU")
  else
    let? l := families c in
    let? family := select_family features timestamps l in
    let? _ := (if timestamps then clock_info c (ordinal family) else Ok tt) in
    let? scratch :=
      (if maximum_private_bytes =? 0 then Ok None
       else let? t := topology c in
            let? (bytes, slots) := scratch_size t maximum_private_bytes in
            let? _ := scratch_memory c bytes in
            Ok (Some (bytes, slots))) in
    let? present := native_queue c in
    if negb present then Err (missing "AQL queue")
    else
      let? _ := native_map c in
      let? info := mapping_info c in
      let? _ := check_mapping info in
      Ok (scratch, timestamps, ring_byte_length info / 64).

(** ** Packets *)

Record KernelInfo : Type := mkKernelInfo {
  private_bytes : Z;
  local_bytes : Z;
  descriptor_offset : Z;
  workgroup_size : Z * Z * Z }.

(** The launch checks of [prepare] on one axis and on all of them. *)
Definition axis_extent (grid block required : Z) : Result Z :=
  if (block =? 0) || (grid =? 0) || (negb (required =? 0) && negb (required =? block))
  then Err (Message "AQL launch geometry does not match kernel")
  else if grid * block <=? u32_max then Ok (grid * block)
       else Err (Message "AQL grid extent overflow").
Definition launch_extents (k : KernelInfo) (grid block : Z * Z * Z) : Result (Z * Z * Z) :=
  let '(gx, gy, gz) := grid in
  let '(bx, by_, bz) := block in
  let '(wx, wy, wz) := workgroup_size k in
  let? x := axis_extent gx bx wx in
  let? y := axis_extent gy by_ wy in
  let? z := axis_extent gz bz wz in
  if 1024 <? bx * by_ * bz then Err (Message "AQL workgroup exceeds gfx1151 capacity")
  else Ok (x, y, z).

(** The instruction-cache invalidation executed by the publication packet. *)
Definition invalidation (gfx9 : bool) : list Z :=
  if gfx9 then Pm4.barrier Gfx9
  else [0xc0065800; 0; u32_max; 0xff; 0; 0; 0x0a;
        Z.lor 1 (foldr Z.lor 0 (Z.shiftl 1 <$> [4; 5; 7; 8; 9; 14; 15]))].

Definition publish_packet (ib publication_words : Z) : list Z :=
  [Z.lor (Z.shiftl 1 16) (Z.shiftl 1 8); 0xc0023f00; as_u32 ib; as_u32 (Z.shiftr ib 32);
   Z.lor (Z.shiftl 1 23) (as_u32 publication_words); 10; 0; 0; 0; 0; 0; 0; 0; 0; 0; 0].

Definition dispatch_packet (k : KernelInfo) (block extents : Z * Z * Z)
    (descriptor kernarg signal_address : Z) : list Z :=
  let '(bx, by_, bz) := block in
  let '(ex, ey, ez) := extents in
  [foldr Z.lor 0 [2; Z.shiftl 1 8; Z.shiftl 2 9; Z.shiftl 2 11; Z.shiftl 3 16];
   Z.lor bx (Z.shiftl by_ 16); bz; ex; ey; ez; private_bytes k; local_bytes k;
   as_u32 descriptor; as_u32 (Z.shiftr descriptor 32);
   as_u32 kernarg; as_u32 (Z.shiftr kernarg 32); 0; 0;
   as_u32 signal_address; as_u32 (Z.shiftr signal_address 32)].

(** The clear kernel of a race detector keeps its packet but not its signal. *)
Definition clear_packet (packet : list Z) : list Z := <[14%nat := 0]> (<[15%nat := 0]> packet).

(** What [prepare] obtains from other components, in order: the owning device,
    the packed arguments with their buffers, the code address, the storage of
    arguments, publication and signal with their addresses, and the packets
    and buffers of the race detector's clear kernel. *)
Record Supply : Type := mkSupply {
  same_device : bool;
  specialized : Result KernelInfo;
  clear : Result (option (list (list Z) * list Buffer));
  packed : Result (list Z * list Buffer);
  kernarg : Result (Buffer * Z);
  code_address : Result Z;
  gfx9 : Result bool;
  publication : Result (Buffer * Z);
  signal_storage : Result (Buffer * Z) }.

(** [sort_by_key(identity)] then [dedup_by(same_backing)]; the sort is stable. *)
Definition by_identity (a b : Buffer) : Prop :=
  (memory_id (memory a) ≤ memory_id (memory b))%nat.
Global Instance by_identity_dec : RelDecision by_identity.
Proof. intros a b. unfold by_identity. apply _. Defined.
Fixpoint dedup_from (kept : Buffer) (l : list Buffer) : list Buffer :=
  match l with
  | [] => []
  | b :: rest =>
      if (memory_id (memory b) =? memory_id (memory kept))%nat then dedup_from kept rest
      else b :: dedup_from b rest
  end.
Definition dedup_backing (l : list Buffer) : list Buffer :=
  match l with [] => [] | b :: rest => b :: dedup_from b rest end.
Definition bound_buffers (l : list Buffer) : list Buffer := dedup_backing (merge_sort by_identity l).

(** The bytes the prepared dispatch keeps beside its bound arguments. *)
Definition storage_bytes (signal : Buffer) (bound arguments : list Buffer) : Z :=
  len signal + zsum len (filter (λ b, existsb (λ a,
    (memory_id (memory b) =? memory_id (memory a))%nat) arguments = false) bound).

(** [AqlQueue::prepare]: packets, retained buffers and storage. *)
Definition prepare (maximum_private_bytes : Z) (k : KernelInfo) (grid block : Z * Z * Z)
    (arguments : list Buffer) (s : Supply) : Result (list (list Z) * list Buffer * Z) :=
  if negb (same_device s) then Err (Message "AQL kernel belongs to another device")
  else if maximum_private_bytes <? private_bytes k
  then Err (Unsupported "kernel exceeds fixed AQL scratch capacity")
  else
    let? extents := launch_extents k grid block in
    let? k := specialized s in
    let? cleared := clear s in
    let? (_, buffers) := packed s in
    let? (kernarg_buffer, kernarg_address) := kernarg s in
    let? code := code_address s in
    let? descriptor := ok_or (checked_add code (descriptor_offset k))
                         (Message "AQL descriptor address overflow") in
    let? g := gfx9 s in
    let publication_words := Z.of_nat (length (invalidation g)) in
    let? (publication_buffer, ib) := publication s in
    if (2 ^ 48 <=? ib) || (2 ^ 48 <? ib + publication_words * 4)
    then Err (Unsupported "AQL publication IB is outside the 48-bit address domain")
    else
      let? (signal_buffer, signal_address) := signal_storage s in
      let '(cleared_packets, cleared_buffers) :=
        match cleared with
        | Some (ps, bs) => (clear_packet <$> option_list (last ps), bs)
        | None => ([], [])
        end in
      let bound := bound_buffers (buffers ++ cleared_buffers ++ [kernarg_buffer; publication_buffer]) in
      Ok ([publish_packet ib publication_words] ++ cleared_packets
            ++ [dispatch_packet k block extents descriptor kernarg_address signal_address],
          bound, storage_bytes signal_buffer bound arguments).

(** ** State *)

(** [Work]: the completion value and the timestamps of its signal, its
    buffers, the leases held on them, and the capture of a profiled queue. *)
Record Work : Type := mkWork {
  signal : Z;
  stamps : Z * Z;
  buffers : list Buffer;
  held : list Buffer;
  active : Z;
  retired : Z;
  timing : option nat }.

(** [PreparedAql]; its work has the same identity. *)
Record Prepared : Type := mkPrepared {
  packets : list (list Z);
  next : Z;
  work : Work }.

(** A [TimingCapture] with the submission it was returned for, if any. *)
Record Capture : Type := mkCapture {
  owner : option (nat * Z);
  sample : option (Z * Z) }.

(** A dispatch between [pending.push_back] and [producer.write = end]: what is
    left to be written, from which index. *)
Record Publication : Type := mkPublication {
  pub_id : nat;
  pub_point : Z;
  pub_index : Z;
  pub_left : list (list Z) }.

(** The life of a queue: in use, draining in [drop], destroyed, or leaked. *)
Inductive Phase : Type :=
| Open
| Draining (left_ : list (nat * Z))
| Destroyed
| Leaked.

(** [QueueState] with its producer and the shared mapping. *)
Record Queue : Type := mkQueue {
  capacity : Z;
  clock : bool;
  status : Result bool;
  ring : list (list Z);
  write : Z;
  write_index : Z;
  doorbell : Z;
  pending : list (nat * Z);
  publishing : option Publication;
  phase : Phase }.

(** The device side and the records of what happened; [doorbell] is -1 before
    the first packet. *)
Record Device : Type := mkDevice {
  read : Z;
  executed : nat;
  submitted : list (nat * Z * Z);
  samples : list (Z * Z);
  log : list (list Z);
  fetched : list (list Z) }.

Record World : Type := mkWorld {
  store : Store;
  prepared : gmap nat Prepared;
  queue : Queue;
  device : Device;
  captures : list Capture;
  others : list Buffer }.

Definition set_store (w : World) (st : Store) : World :=
  mkWorld st (prepared w) (queue w) (device w) (captures w) (others w).
Definition set_prepared (w : World) (id : nat) (p : Prepared) : World :=
  mkWorld (store w) (<[id := p]> (prepared w)) (queue w) (device w) (captures w) (others w).
Definition set_queue (w : World) (q : Queue) : World :=
  mkWorld (store w) (prepared w) q (device w) (captures w) (others w).
Definition set_device (w : World) (d : Device) : World :=
  mkWorld (store w) (prepared w) (queue w) d (captures w) (others w).
Definition set_captures (w : World) (l : list Capture) : World :=
  mkWorld (store w) (prepared w) (queue w) (device w) l (others w).
Definition set_work (p : Prepared) (k : Work) : Prepared := mkPrepared (packets p) (next p) k.
Definition set_pending (q : Queue) (l : list (nat * Z)) : Queue :=
  mkQueue (capacity q) (clock q) (status q) (ring q) (write q) (write_index q) (doorbell q) l
    (publishing q) (phase q).
Definition set_phase (q : Queue) (ph : Phase) : Queue :=
  mkQueue (capacity q) (clock q) (status q) (ring q) (write q) (write_index q) (doorbell q)
    (pending q) (publishing q) ph.

(** ** Retirement *)

(** [OnceLock::set], ignoring a cell already set. *)
Definition once_set (c : Capture) (t : Z * Z) : Capture :=
  mkCapture (owner c) (Some (default t (sample c))).
Definition capture_timing (w : World) (k : Work) : World :=
  match timing k with
  | Some c => set_captures w (alter (λ x, once_set x (stamps k)) c (captures w))
  | None => w
  end.

(** The critical section of [Work::refresh] with the completion count loaded
    before it. *)
Definition refresh_locked (w : World) (id : nat) (completed : Z) : option World :=
  p ← prepared w !! id;
  let k := work p in
  let r := Z.max (retired k) completed in
  if active k <=? completed
  then let w := capture_timing w k in
       Some (set_prepared (set_store w (drop_all (store w) (held k))) id
               (set_work p (mkWork (signal k) (stamps k) (buffers k) [] (active k) r (timing k))))
  else Some (set_prepared w id
               (set_work p (mkWork (signal k) (stamps k) (buffers k) (held k) (active k) r (timing k)))).

(** [i64::MAX.checked_sub(value)] filtered to be non-negative. *)
Definition completed_of (value : Z) : option Z :=
  let v := i64_max - value in
  if (v <=? i64_max) && (0 <=? v) then Some v else None.

(** [Work::refresh]. *)
Definition refresh (w : World) (id : nat) (point : Z) : option (World * Result bool) :=
  p ← prepared w !! id;
  if point <=? retired (work p) then Some (w, Ok true)
  else
    match completed_of (signal (work p)) with
    | None => Some (w, Err (DeviceLost "invalid AQL completion signal"))
    | Some completed =>
        if completed <? point then Some (w, Ok false)
        else w ← refresh_locked w id completed; Some (w, Ok true)
    end.

(** The loop that pops the retired front of [pending]. *)
Fixpoint reap_from (w : World) (l : list (nat * Z)) : option (World * list (nat * Z) * Result unit) :=
  match l with
  | [] => Some (w, [], Ok tt)
  | (id, point) :: rest =>
      '(w, r) ← refresh w id point;
      match r with
      | Err e => Some (w, l, Err e)
      | Ok false => Some (w, l, Ok tt)
      | Ok true => reap_from w rest
      end
  end.
Definition reap (w : World) : option (World * Result unit) :=
  '(w, left_, r) ← reap_from w (pending (queue w));
  Some (set_queue w (set_pending (queue w) left_), r).

(** [AqlCompletion::is_complete], [refresh] and [timing]. *)
Definition is_complete (w : World) (id : nat) (point : Z) : bool :=
  match prepared w !! id with Some p => point <=? retired (work p) | None => false end.
Definition completion_refresh (w : World) (id : nat) (point : Z) : option (World * Result bool) :=
  '(w, r) ← refresh w id point;
  match r with
  | Err e => Some (w, Err e)
  | Ok false =>
      Some (w, match status (queue w) with
               | Err e => Err e
               | Ok true => Ok false
               | Ok false => Err (DeviceLost "AQL queue status")
               end)
  | Ok true => '(w, r) ← reap w; Some (w, result_map (λ _, true) r)
  end.
Definition completion_timing (w : World) (id : nat) (point : Z) (capture : option nat)
    : option (World * Result (option (Z * Z))) :=
  match capture with
  | None => Some (w, Err (Unsupported "AQL dispatch timestamps were not enabled"))
  | Some c =>
      '(w, r) ← completion_refresh w id point;
      Some (w,
        match r with
        | Err e => Err e
        | Ok false => Ok None
        | Ok true =>
            match captures w !! c ≫= sample with
            | None => Err (Message "missing AQL timestamp capture")
            | Some (start_tick, end_tick) =>
                if (start_tick =? 0) || (end_tick <? start_tick)
                then Err (Message "unwritten, reset or wrapped AQL timestamps")
                else Ok (Some (start_tick, end_tick))
            end
        end)
  end.

(** ** Dispatch *)

(** The next point of a prepared dispatch's timeline. *)
Definition next_point (p : Prepared) : Result Z :=
  if next p + 1 <=? i64_max then Ok (next p + 1) else Err (DeviceLost "AQL timeline exhausted").

(** The capture of a profiled dispatch: installed, with the timestamps of the
    signal cleared. *)
Definition install_capture (w : World) (id : nat) (p : Prepared) : World * Prepared :=
  let k := work p in
  let p := set_work p (mkWork (signal k) (0, 0) (buffers k) (held k) (active k) (retired k)
                         (Some (length (captures w)))) in
  (set_prepared (set_captures w (captures w ++ [mkCapture None None])) id p, p).

(** The leases of a dispatch: those held, or new ones on every buffer. *)
Definition take_leases (st : Store) (k : Work) : Store * Result (list Buffer) :=
  if bool_decide (held k = []) then retain_all st (buffers k) [] else (st, Ok (held k)).

(** From [active.store] to the store of the write index. *)
Definition submit (w : World) (id : nat) (p : Prepared) (leases : list Buffer) (point stop : Z)
    (capture : option nat) : World :=
  let k := work p in
  let q := queue w in
  let d := device w in
  mkWorld (store w)
    (<[id := set_work p (mkWork (signal k) (stamps k) (buffers k) leases point (retired k) (timing k))]>
       (prepared w))
    (mkQueue (capacity q) (clock q) (status q) (ring q) (write q) stop (doorbell q)
       (pending q ++ [(id, point)]) (Some (mkPublication id point (write q) (packets p))) (phase q))
    (mkDevice (read d) (executed d) (submitted d ++ [(id, point, stop)]) (samples d) (log d) (fetched d))
    (match capture with
     | Some c => alter (λ x, mkCapture (Some (id, point)) (sample x)) c (captures w)
     | None => captures w
     end) (others w).

(** The part of [PreparedAql::dispatch] after the pending front was popped: the
    returned point and capture, or an error. *)
Definition begin_dispatch (w : World) (id : nat) : option (World * Result (Z * option nat)) :=
  p ← prepared w !! id;
  match next_point p with
  | Err e => Some (w, Err e)
  | Ok point =>
      let q := queue w in
      let stop := write q + Z.of_nat (length (packets p)) in
      if u64_max <? stop then Some (w, Err (DeviceLost "AQL ring index exhausted"))
      else if (length (pending q) =? 4096)%nat || (capacity q <? saturating_sub stop (read (device w)))
      then Some (w, Err (Busy "AQL ring or pending capacity exhausted"))
      else if clock q && (retired (work p) <? active (work p))
      then Some (w, Err (Busy "profiled AQL dispatch is still executing"))
      else
        let '(w, p) := if clock q then install_capture w id p else (w, p) in
        let capture := if clock q then timing (work p) else None in
        match take_leases (store w) (work p) with
        | (st, Err e) => Some (set_store w st, Err e)
        | (st, Ok leases) => Some (submit (set_store w st) id p leases point stop capture, Ok (point, capture))
        end
  end.

(** One iteration of the publication loop: the packet's words, its header
    last, then the doorbell. *)
Definition publish_next (w : World) : option World :=
  let q := queue w in
  let d := device w in
  u ← publishing q;
  match pub_left u with
  | [] => None
  | packet :: rest =>
      let slot := Z.land (pub_index u) (capacity q - 1) in
      Some (set_device (set_queue w
        (mkQueue (capacity q) (clock q) (status q) (<[Z.to_nat slot := packet]> (ring q)) (write q)
           (write_index q) (pub_index u) (pending q)
           (Some (mkPublication (pub_id u) (pub_point u) (pub_index u + 1) rest)) (phase q)))
        (mkDevice (read d) (executed d) (submitted d) (samples d) (log d ++ [packet]) (fetched d)))
  end.

(** The end of [dispatch]: the producer's cursor and the timeline. *)
Definition finish_dispatch (w : World) : option World :=
  let q := queue w in
  u ← publishing q;
  match pub_left u with
  | _ :: _ => None
  | [] =>
      p ← prepared w !! pub_id u;
      Some (set_prepared (set_queue w
        (mkQueue (capacity q) (clock q) (status q) (ring q) (write_index q) (write_index q) (doorbell q)
           (pending q) None (phase q))) (pub_id u) (mkPrepared (packets p) (pub_point u) (work p)))
  end.

Fixpoint publish_all (fuel : nat) (w : World) : option World :=
  match fuel with
  | O => finish_dispatch w
  | S fuel => w ← publish_next w; publish_all fuel w
  end.

(** [PreparedAql::dispatch]. *)
Definition dispatch (w : World) (id : nat) : option (World * Result (Z * option nat)) :=
  p ← prepared w !! id;
  match next_point p with
  | Err e => Some (w, Err e)
  | Ok _ =>
      '(w, r) ← reap w;
      match r with
      | Err e => Some (w, Err e)
      | Ok _ =>
          '(w, r) ← begin_dispatch w id;
          match r with
          | Err e => Some (w, Err e)
          | Ok c => w ← publish_all (length (packets p)) w; Some (w, Ok c)
          end
      end
  end.

(** A newly prepared dispatch. *)
Definition add_prepared (w : World) (id : nat) (l : list (list Z)) (bufs : list Buffer) : World :=
  set_prepared w id (mkPrepared l 0 (mkWork i64_max (0, 0) bufs [] 0 0 None)).

(** ** Drop *)

(** [Drop for QueueState]: draining starts with every pending submission; an
    iteration waits while the deadline has not [expired]; a lost device or an
    expired deadline leaks everything; a drained queue is destroyed, and its
    works with it, and leaked when the native destruction fails. *)
Definition drop_begin (w : World) : World :=
  set_queue w (set_phase (set_pending (queue w) []) (Draining (pending (queue w)))).
Definition drop_works (w : World) : World :=
  mkWorld (drop_all (store w) ((map_to_list (prepared w)) ≫= λ x, held (work x.2)))
    ((λ p, let k := work p in
           set_work p (mkWork (signal k) (stamps k) (buffers k) [] (active k) (retired k) (timing k)))
       <$> prepared w) (queue w) (device w) (captures w) (others w).
Definition drop_next (w : World) (expired destroyed : bool) : option World :=
  match phase (queue w) with
  | Draining [] =>
      let w := drop_works w in
      Some (set_queue w (set_phase (queue w) (if destroyed then Destroyed else Leaked)))
  | Draining ((id, point) :: rest) =>
      '(w, r) ← refresh w id point;
      match r with
      | Ok true => Some (set_queue w (set_phase (queue w) (Draining rest)))
      | Ok false => if expired then Some (set_queue w (set_phase (queue w) Leaked)) else Some w
      | Err _ => Some (set_queue w (set_phase (queue w) Leaked))
      end
  | _ => None
  end.

(** ** The device and other threads *)

(** The device fetches the packet at its read index once its doorbell rang,
    and completes submissions in order: every dispatch packet has its barrier
    bit set. *)
Definition fetch (w : World) : option World :=
  let q := queue w in
  let d := device w in
  if read d <=? doorbell q
  then packet ← ring q !! Z.to_nat (Z.land (read d) (capacity q - 1));
       Some (set_device w (mkDevice (read d + 1) (executed d) (submitted d) (samples d) (log d)
                             (fetched d ++ [packet])))
  else None.
Definition execute (w : World) (ticks : Z * Z) : option World :=
  let d := device w in
  '(id, point, stop) ← submitted d !! executed d;
  p ← prepared w !! id;
  if read d <? stop then None
  else
    let k := work p in
    let stamps := if clock (queue w) then ticks else stamps k in
    Some (set_device (set_prepared w id (set_work p
            (mkWork (signal k - 1) stamps (buffers k) (held k) (active k) (retired k) (timing k))))
          (mkDevice (read d) (S (executed d)) (submitted d) (samples d ++ [stamps]) (log d) (fetched d))).
Definition set_status (w : World) (s : Result bool) : World :=
  let q := queue w in
  set_queue w (mkQueue (capacity q) (clock q) s (ring q) (write q) (write_index q) (doorbell q)
                 (pending q) (publishing q) (phase q)).
Definition set_others (w : World) (st : Store) (l : list Buffer) : World :=
  mkWorld st (prepared w) (queue w) (device w) (captures w) l.

(** The producer lock of an open queue is free, or held by this thread. *)
Definition idle_producer (w : World) : Prop := phase (queue w) = Open ∧ publishing (queue w) = None.

(** One atomic move of a thread or of the device.  A refresh may use any
    completion count the signal had since it was loaded. *)
Inductive step (w : World) : World → Prop :=
| step_refresh id p completed w' :
    phase (queue w) = Open → prepared w !! id = Some p →
    0 <= completed <= i64_max - signal (work p) →
    refresh_locked w id completed = Some w' → step w w'
| step_pop id point rest :
    idle_producer w → pending (queue w) = (id, point) :: rest → is_complete w id point = true →
    step w (set_queue w (set_pending (queue w) rest))
| step_begin id w' r :
    idle_producer w → begin_dispatch w id = Some (w', r) → step w w'
| step_publish w' : publish_next w = Some w' → step w w'
| step_finish w' : finish_dispatch w = Some w' → step w w'
| step_prepare id l bufs :
    phase (queue w) = Open → prepared w !! id = None → l ≠ [] →
    step w (add_prepared w id l bufs)
| step_fetch w' : fetch w = Some w' → step w w'
| step_execute ticks w' : execute w ticks = Some w' → step w w'
| step_status s : step w (set_status w s)
| step_retain b st : retain_use (store w) b = Ok st → step w (set_others w st (b :: others w))
| step_release i b :
    others w !! i = Some b → step w (set_others w (drop_use (store w) b) (delete i (others w)))
| step_drop : idle_producer w → step w (drop_begin w)
| step_drain expired destroyed w' : drop_next w expired destroyed = Some w' → step w w'.

Definition new_queue (cap : Z) (profiled : bool) (slots : list (list Z)) : Queue :=
  mkQueue cap profiled (Ok true) slots 0 0 (-1) [] None Open.
Record initial (w : World) : Prop := {
  initial_capacity : ∃ k, 1 <= k ∧ capacity (queue w) = 2 ^ k;
  initial_queue : queue w = new_queue (capacity (queue w)) (clock (queue w)) (ring (queue w));
  initial_ring : Z.of_nat (length (ring (queue w))) = capacity (queue w);
  initial_device : device w = mkDevice 0 0 [] [] [] [];
  initial_prepared : prepared w = ∅;
  initial_captures : captures w = [];
  initial_leases : ∀ cell, cell_uses (store w) cell = uses_of cell (others w) }.
Definition reachable (w : World) : Prop := ∃ w0, initial w0 ∧ rtc step w0 w.

End Aql.
