(* ===== verification/AqlTheorems.v ===== *)
(** * AQL queues: theorems

    The invariant of the worlds of Aql under every interleaving of host threads
    and the device, and what it gives: the device fetches whole dispatches in
    submission order from ring slots that are never overwritten early, the
    buffers of every unfinished dispatch stay leased, a cached completion is
    never ahead of the device, a timing sample is the one the device wrote for
    that dispatch, a queue is destroyed only when the device has finished, and
    a drained queue has released every lease.  Packets decode to the launch
    they encode, and an admitted scratch covers every wave. *)

From S2P Require Import Prelude NativeMemory Pm4 Sdma NativeQueue Aql.
Import NativeMemory Aql.
Local Open Scope Z_scope.

Module AqlTheorems.

Notation count := NativeQueue.count.
Notation fifo := NativeQueue.fifo.

(** ** The invariant *)

(** The submissions without their packet ranges, and their packets. *)
Definition subs (d : Device) : list (nat * Z) := fst <$> submitted d.
Definition packets_of (m : gmap nat Prepared) (s : nat * Z * Z) : list (list Z) :=
  match m !! s.1.1 with Some p => packets p | None => [] end.
Definition completed (k : Work) : Z := i64_max - signal k.

Record ring_ok (q : Queue) (d : Device) : Prop := {
  rg_capacity : ∃ k, 1 <= k ∧ capacity q = 2 ^ k;
  rg_length : Z.of_nat (length (ring q)) = capacity q;
  rg_read : 0 <= read d <= Z.of_nat (length (log d));
  rg_room : write_index q - read d <= capacity q;
  rg_index : write_index q <= u64_max;
  rg_doorbell : doorbell q = Z.of_nat (length (log d)) - 1;
  rg_fetched : fetched d = take (Z.to_nat (read d)) (log d);
  rg_fifo : fifo (capacity q) (ring q) (log d) (read d);
  rg_producer :
    match publishing q with
    | None => write q = write_index q ∧ write_index q = Z.of_nat (length (log d))
    | Some u => pub_index u = Z.of_nat (length (log d)) ∧
                write_index q = pub_index u + Z.of_nat (length (pub_left u))
    end }.

(** The packets written and those left to be written are the submissions'. *)
Definition left_of (q : Queue) : list (list Z) :=
  match publishing q with None => [] | Some u => pub_left u end.
Record log_ok (w : World) : Prop := {
  lg_log : log (device w) ++ left_of (queue w) = submitted (device w) ≫= packets_of (prepared w);
  lg_stop : ∀ i s, submitted (device w) !! i = Some s →
    s.2 = Z.of_nat (length (take (S i) (submitted (device w)) ≫= packets_of (prepared w))) }.

(** The timeline of a prepared dispatch. *)
Definition next_of (q : Queue) (id : nat) (p : Prepared) : Z :=
  match publishing q with
  | Some u => if (pub_id u =? id)%nat then pub_point u else next p
  | None => next p
  end.
Record work_ok (q : Queue) (d : Device) (id : nat) (p : Prepared) : Prop := {
  wk_completed : completed (work p) = count id (take (executed d) (subs d));
  wk_active : active (work p) = count id (subs d);
  wk_next : next_of q id p = active (work p);
  wk_range : active (work p) <= i64_max;
  wk_retired : 0 <= retired (work p) <= completed (work p);
  wk_held : held (work p) = if retired (work p) <? active (work p) then buffers (work p) else [] }.

(** [l] is what is left of the submissions after those observed to be done. *)
Definition popped (w : World) (l : list (nat * Z)) : Prop :=
  ∃ n, l = drop n (subs (device w)) ∧
    ∀ i id v p, (i < n)%nat → subs (device w) !! i = Some (id, v) → prepared w !! id = Some p →
      v <= retired (work p).
Definition phase_ok (w : World) : Prop :=
  match phase (queue w) with
  | Open => popped w (pending (queue w)) ∧ (length (pending (queue w)) <= 4096)%nat
  | Draining l => popped w l ∧ publishing (queue w) = None
  | Destroyed => executed (device w) = length (submitted (device w))
  | Leaked => True
  end ∧ (phase (queue w) ≠ Open → publishing (queue w) = None).

(** The captures of a profiled queue; no two works share one. *)
Definition distinct_captures (m : gmap nat Prepared) : Prop :=
  ∀ id id' p p' c, m !! id = Some p → m !! id' = Some p' →
    timing (work p) = Some c → timing (work p') = Some c → id = id'.
Record captures_ok (w : World) : Prop := {
  cp_sample : ∀ c id v t, captures w !! c = Some (mkCapture (Some (id, v)) (Some t)) →
    ∃ i, subs (device w) !! i = Some (id, v) ∧ samples (device w) !! i = Some t;
  cp_owner : ∀ c id v s, captures w !! c = Some (mkCapture (Some (id, v)) s) →
    ∃ p, prepared w !! id = Some p ∧ 1 <= v <= active (work p) ∧
      (s = None → v = active (work p) ∧ retired (work p) < active (work p) ∧ timing (work p) = Some c);
  cp_timing : ∀ id p c, prepared w !! id = Some p → timing (work p) = Some c →
    ∃ x, captures w !! c = Some x ∧ ∀ id' v, owner x = Some (id', v) → id' = id ∧ v = active (work p);
  cp_distinct : distinct_captures (prepared w);
  cp_single : ∀ id p, prepared w !! id = Some p → active (work p) <= completed (work p) + 1;
  cp_stamps : ∀ id p c v i, prepared w !! id = Some p → timing (work p) = Some c →
    captures w !! c = Some (mkCapture (Some (id, v)) None) → subs (device w) !! i = Some (id, v) →
    (i < executed (device w))%nat → samples (device w) !! i = Some (stamps (work p)) }.

Record inv (w : World) : Prop := {
  inv_ring : ring_ok (queue w) (device w);
  inv_log : log_ok w;
  inv_subs : ∀ i id v, subs (device w) !! i = Some (id, v) →
    v = 1 + count id (take i (subs (device w))) ∧ is_Some (prepared w !! id);
  inv_publishing : ∀ u, publishing (queue w) = Some u → is_Some (prepared w !! pub_id u);
  inv_executed : (executed (device w) <= length (submitted (device w)))%nat;
  inv_samples : length (samples (device w)) = executed (device w);
  inv_work : ∀ id p, prepared w !! id = Some p → work_ok (queue w) (device w) id p;
  inv_phase : phase_ok w;
  inv_leases : ∀ cell, cell_uses (store w) cell =
    msum (λ p, uses_of cell (held (work p))) (prepared w) + uses_of cell (others w);
  inv_captures : clock (queue w) = true → captures_ok w }.

(** ** Submissions *)

Lemma count_take_bound id l i : count id (take i l) <= count id l.
Proof.
  destruct (decide (i <= length l)%nat).
  - rewrite <-(firstn_all l) at 2. by apply NativeQueue.count_take_le.
  - by rewrite take_ge by lia.
Qed.

Lemma length_subs d : length (subs d) = length (submitted d).
Proof. apply length_fmap. Qed.

(** The position of a submission is decided by its point. *)
Lemma executed_iff w i id v p :
  inv w → subs (device w) !! i = Some (id, v) → prepared w !! id = Some p →
  v <= completed (work p) ↔ (i < executed (device w))%nat.
Proof.
  intros Hinv Hi Hp. destruct (inv_subs _ Hinv _ _ _ Hi) as [Hv _].
  destruct (inv_work _ Hinv _ _ Hp) as [Hc _ _ _ _ _]. rewrite Hc. split; intros H.
  - destruct (decide (i < executed (device w))%nat); [done|].
    pose proof (NativeQueue.count_take_le id (subs (device w)) (executed (device w)) i ltac:(lia)). lia.
  - pose proof (NativeQueue.count_take_le id (subs (device w)) (S i) (executed (device w)) ltac:(lia)) as Hle.
    rewrite (NativeQueue.count_take_S _ _ _ _ Hi) in Hle. simpl in Hle. rewrite Nat.eqb_refl in Hle. lia.
Qed.

Lemma submission_unique w i j id v :
  inv w → subs (device w) !! i = Some (id, v) → subs (device w) !! j = Some (id, v) → i = j.
Proof.
  intros Hinv Hi Hj.
  assert (∀ i j, subs (device w) !! i = Some (id, v) → subs (device w) !! j = Some (id, v) → (i < j)%nat → False) as H.
  { intros a b Ha Hb Hab. destruct (inv_subs _ Hinv _ _ _ Ha) as [Hva _]. destruct (inv_subs _ Hinv _ _ _ Hb) as [Hvb _].
    pose proof (NativeQueue.count_take_le id (subs (device w)) (S a) b ltac:(lia)) as Hle.
    rewrite (NativeQueue.count_take_S _ _ _ _ Ha) in Hle. simpl in Hle. rewrite Nat.eqb_refl in Hle. lia. }
  destruct (Nat.lt_trichotomy i j) as [?|[?|?]]; [|done|]; exfalso; eauto.
Qed.

(** Every point up to the last one was submitted. *)
Lemma count_reaches id l v :
  (∀ i u, l !! i = Some (id, u) → u = 1 + count id (take i l)) → 1 <= v <= count id l →
  ∃ i, l !! i = Some (id, v).
Proof.
  induction l as [|[j u] l IH] using rev_ind; intros Hl Hv.
  - change (count id []) with 0 in Hv. lia.
  - rewrite NativeQueue.count_snoc in Hv. destruct (decide (v <= count id l)) as [Hle|Hgt].
    + destruct IH as [i Hi]; [|lia|].
      * intros i x Hi. pose proof (lookup_lt_Some _ _ _ Hi). specialize (Hl i x (lookup_app_l_Some _ _ _ _ Hi)).
        by rewrite take_app_le in Hl by lia.
      * exists i. by apply lookup_app_l_Some.
    + destruct (j =? id)%nat eqn:E; to_prop; [|lia]. subst j.
      assert (u = v) as ->; [|exists (length l); by rewrite lookup_app_r, Nat.sub_diag by lia].
      specialize (Hl (length l) u). rewrite lookup_app_r, Nat.sub_diag in Hl by lia. specialize (Hl eq_refl).
      rewrite take_app_length in Hl. lia.
Qed.

Lemma point_submitted w id p v :
  inv w → prepared w !! id = Some p → 1 <= v <= active (work p) →
  ∃ i, subs (device w) !! i = Some (id, v).
Proof.
  intros Hinv Hp Hv. rewrite (wk_active _ _ _ _ (inv_work _ Hinv _ _ Hp)) in Hv.
  eapply count_reaches; [|done]. intros i u Hi. by apply (inv_subs _ Hinv).
Qed.

Lemma completed_le_active w id p : inv w → prepared w !! id = Some p → completed (work p) <= active (work p).
Proof.
  intros Hinv Hp. destruct (inv_work _ Hinv _ _ Hp) as [-> -> _ _ _ _]. apply count_take_bound.
Qed.

(** ** Retirement *)

(** What an update of one work leaves of the packets of the submissions. *)
Lemma packets_of_insert m id p p' s :
  m !! id = Some p → packets p' = packets p → packets_of (<[id := p']> m) s = packets_of m s.
Proof.
  intros Hp He. unfold packets_of. destruct (decide (s.1.1 = id)) as [->|Hne].
  - by rewrite lookup_insert_eq, Hp.
  - by rewrite lookup_insert_ne.
Qed.

Lemma log_ok_ext w w' :
  log_ok w → log (device w') ++ left_of (queue w') = log (device w) ++ left_of (queue w) →
  submitted (device w') = submitted (device w) →
  (∀ s, s ∈ submitted (device w) → packets_of (prepared w') s = packets_of (prepared w) s) → log_ok w'.
Proof.
  intros [Hl Hs] El Es Ep.
  assert (∀ l, l ⊆ submitted (device w) → l ≫= packets_of (prepared w') = l ≫= packets_of (prepared w)) as Hb.
  { induction l as [|s l IH]; intros Hin; [done|]. rewrite !bind_cons, Ep, IH; set_solver. }
  constructor; rewrite Es, ?El.
  - by rewrite Hb.
  - intros i s Hi. rewrite Hb; [by apply Hs|]. intros x Hx. by eapply elem_of_take in Hx as (? & ? & _); eapply list_elem_of_lookup_2.
Qed.

Lemma distinct_captures_insert m id p p' :
  m !! id = Some p → timing (work p') = timing (work p) → distinct_captures m →
  distinct_captures (<[id := p']> m).
Proof.
  intros Hp Et Hd.
  assert (∀ i z, <[id := p']> m !! i = Some z → ∃ y, m !! i = Some y ∧ timing (work y) = timing (work z)) as Hsame.
  { intros i z Hi. apply lookup_insert_Some in Hi as [[<- <-]|[Hne Hi]]; [exists p|exists z]; done. }
  intros i j pi pj c Hi Hj Ei Ej. destruct (Hsame _ _ Hi) as (qi & Hqi & Eqi). destruct (Hsame _ _ Hj) as (qj & Hqj & Eqj).
  eapply Hd; [done|done|by rewrite Eqi|by rewrite Eqj].
Qed.

(** The state of a work after [refresh_locked]. *)
Definition observed (k : Work) (n : Z) : Work :=
  mkWork (signal k) (stamps k) (buffers k) (if active k <=? n then [] else held k) (active k)
    (Z.max (retired k) n) (timing k).
Definition observed_captures (w : World) (k : Work) (n : Z) : list Capture :=
  match timing k with
  | Some c => if active k <=? n then alter (λ x, once_set x (stamps k)) c (captures w) else captures w
  | None => captures w
  end.

Lemma refresh_locked_eq w id p n w' :
  prepared w !! id = Some p → refresh_locked w id n = Some w' →
  w' = mkWorld (if active (work p) <=? n then drop_all (store w) (held (work p)) else store w)
         (<[id := set_work p (observed (work p) n)]> (prepared w)) (queue w) (device w)
         (observed_captures w (work p) n) (others w).
Proof.
  intros Hp. unfold refresh_locked. rewrite Hp. cbn [mbind option_bind]. unfold observed, observed_captures, capture_timing.
  destruct (active (work p) <=? n); intros [= <-]; [|by destruct (timing (work p))].
  by destruct (timing (work p)).
Qed.

Lemma observed_work_ok q d id p n :
  work_ok q d id p → 0 <= n <= completed (work p) → work_ok q d id (set_work p (observed (work p) n)).
Proof.
  intros [Hc Ha Hn Hr Hret Hh] Hle. constructor; cbn [set_work observed work]; try done.
  - change (completed (observed (work p) n)) with (completed (work p)). cbn. lia.
  - cbn [retired active held buffers observed]. rewrite Hh. destruct (active (work p) <=? n) eqn:E; to_prop.
    + rewrite (proj2 (Z.ltb_ge _ _)) by lia. done.
    + destruct (retired (work p) <? active (work p)) eqn:E2; to_prop.
      * by rewrite (proj2 (Z.ltb_lt _ _)) by lia.
      * by rewrite (proj2 (Z.ltb_ge _ _)) by lia.
Qed.

(** What the recorded points need of an updated map of works. *)
Lemma popped_mono w w' l :
  popped w l → subs (device w') = subs (device w) →
  (∀ id v p', (id, v) ∈ subs (device w) → prepared w' !! id = Some p' →
     ∃ p, prepared w !! id = Some p ∧ retired (work p) <= retired (work p')) →
  popped w' l.
Proof.
  intros (n & -> & Hn) Es Hmono. exists n. rewrite Es. split; [done|].
  intros i id v p' Hi Hs Hp'. destruct (Hmono id v p') as (p & Hp & Hle); [by eapply list_elem_of_lookup_2|done|]. specialize (Hn _ _ _ _ Hi Hs Hp). lia.
Qed.

Lemma phase_ok_mono w w' :
  phase_ok w → queue w' = queue w → device w' = device w →
  (∀ id v p', (id, v) ∈ subs (device w) → prepared w' !! id = Some p' →
     ∃ p, prepared w !! id = Some p ∧ retired (work p) <= retired (work p')) →
  phase_ok w'.
Proof.
  intros [Hph Hpub] Eq Ed Hmono. unfold phase_ok. rewrite Eq, Ed. split; [|done].
  destruct (phase (queue w)); [|..|done].
  - destruct Hph as [Hp ?]. split; [|done]. eapply popped_mono; [done|by rewrite Ed|done].
  - destruct Hph as [Hp ?]. split; [|done]. eapply popped_mono; [done|by rewrite Ed|done].
  - done.
Qed.

Lemma refresh_locked_captures w id p n w' :
  inv w → prepared w !! id = Some p → 0 <= n <= completed (work p) →
  refresh_locked w id n = Some w' → captures_ok w → captures_ok w'.
Proof.
  intros Hinv Hp Hn Hw [Hs Ho Ht Hd Hone Hst]. rewrite (refresh_locked_eq _ _ _ _ _ Hp Hw). clear Hw w'.
  pose proof (completed_le_active _ _ _ Hinv Hp) as Hca. set (k := work p) in *.
  set (caps := observed_captures w k n).
  (* every capture keeps its owner; a sample is added only to this work's own *)
  assert (∀ c x, caps !! c = Some x → ∃ y, captures w !! c = Some y ∧ owner x = owner y ∧
    (x = y ∨ (timing k = Some c ∧ active k <= n ∧ x = once_set y (stamps k)))) as Hback.
  { intros c x. unfold caps, observed_captures. destruct (timing k) as [c0|] eqn:Et; [|intros Hx; exists x; auto].
    destruct (active k <=? n) eqn:E; to_prop; [|intros Hx; exists x; auto].
    rewrite list_lookup_alter. destruct (decide (c0 = c)) as [->|Hne].
    - intros [y [Hy ->]]%fmap_Some. exists y. split_and!; [done|done|right; done].
    - intros Hx; exists x; auto. }
  constructor; cbn [captures prepared device].
  - intros c i v t Hc. destruct (Hback _ _ Hc) as ([o s] & Hy & Hoe & [Heq|(Et & Hle & Heq)]); [rewrite <-Heq in Hy; by eapply Hs|].
    unfold once_set in Heq. simpl in Heq, Hoe. destruct s as [t1|]; simpl in Heq.
    { injection Heq as <- <-. by eapply Hs. }
    injection Heq as <- ->. destruct (Ht _ _ _ Hp Et) as (x & Hx & Hown). rewrite Hy in Hx. injection Hx as <-.
    destruct (Hown i v eq_refl) as [-> Hva]. fold k in Hva.
    destruct (Ho _ _ _ _ Hy) as (p0 & Hp0 & Hv & _). rewrite Hp in Hp0. injection Hp0 as <-. fold k in Hv.
    destruct (point_submitted _ _ _ v Hinv Hp Hv) as (j & Hj). exists j. split; [done|].
    eapply Hst; try done. eapply executed_iff; try done. fold k. lia.
  - intros c i v s Hc. destruct (Hback _ _ Hc) as ([o s0] & Hy & Hoe & Hcase). simpl in Hoe. subst o.
    destruct (Ho _ _ _ _ Hy) as (p0 & Hp0 & Hv & Hnone).
    destruct (decide (i = id)) as [->|Hne].
    + rewrite Hp in Hp0. injection Hp0 as <-. exists (set_work p (observed k n)). rewrite lookup_insert_eq.
      split; [done|]. cbn [set_work work observed active retired timing]. split; [done|]. intros ->.
      destruct Hcase as [[= <-]|(_ & _ & Heq)]; [|unfold once_set in Heq; by destruct s0].
      destruct (Hnone eq_refl) as (-> & Hlt & Et). split_and!; [done| |done]. fold k in Hlt, Et |- *.
      destruct (decide (active k <= n)) as [Hle|Hle]; [|lia].
      exfalso. revert Hc. unfold caps, observed_captures. rewrite Et, (proj2 (Z.leb_le _ _) Hle), list_lookup_alter_eq, Hy.
      done.
    + exists p0. rewrite lookup_insert_ne by done. split_and!; [done|lia|lia|]. intros ->.
      destruct Hcase as [[= <-]|(_ & _ & Heq)]; [auto|]. unfold once_set in Heq. by destruct s0.
  - intros i p0 c Hi Et. assert (∃ p1, prepared w !! i = Some p1 ∧ timing (work p1) = Some c ∧ active (work p1) = active (work p0)) as (p1 & Hp1 & Et1 & Ea).
    { apply lookup_insert_Some in Hi as [[<- <-]|[Hne Hi]]; [exists p|exists p0]; done. }
    destruct (Ht _ _ _ Hp1 Et1) as (y & Hy & Hown).
    assert (∃ x, caps !! c = Some x) as [x Hx].
    { unfold caps, observed_captures. destruct (timing k); [|eauto]. case_bool; [|eauto].
      rewrite list_lookup_alter. case_decide; subst; rewrite Hy; eauto. }
    exists x. split; [done|]. destruct (Hback _ _ Hx) as (y' & Hy' & Hoe & _). rewrite Hy in Hy'. injection Hy' as <-.
    rewrite Hoe, <-Ea. done.
  - by eapply distinct_captures_insert.
  - intros i p0 Hi. apply lookup_insert_Some in Hi as [[<- <-]|[Hne Hi]]; [exact (Hone _ _ Hp)|exact (Hone _ _ Hi)].
  - intros i p0 c v j Hi Et Hc Hj Hlt. destruct (Hback _ _ Hc) as ([o s0] & Hy & Hoe & Hcase).
    assert (captures w !! c = Some (mkCapture (Some (i, v)) None)) as Hc'.
    { destruct Hcase as [->|(_ & _ & Heq)]; [done|]. unfold once_set in Heq. by destruct s0. }
    apply lookup_insert_Some in Hi as [[<- <-]|[Hne Hi]]; [|by eapply Hst].
    cbn [set_work work observed stamps timing] in *. by eapply Hst.
Qed.

Lemma refresh_locked_inv w id p n w' :
  inv w → prepared w !! id = Some p → 0 <= n <= completed (work p) →
  refresh_locked w id n = Some w' → inv w'.
Proof.
  intros Hinv Hp Hn Hw. pose proof (refresh_locked_captures _ _ _ _ _ Hinv Hp Hn Hw) as Hcap.
  pose proof (inv_work _ Hinv _ _ Hp) as Hok. destruct Hinv as [Hr Hl Hs Hpb He Hsm Hwk Hph Hle Hc].
  rewrite (refresh_locked_eq _ _ _ _ _ Hp Hw) in Hcap |- *.
  constructor; cbn [queue device prepared store others captures]; try done.
  - eapply log_ok_ext; [done|done|done|]. intros s _. by eapply packets_of_insert.
  - intros i j v Hi. destruct (Hs _ _ _ Hi) as [? [p0 Hp0]]. split; [done|]. by apply lookup_insert_is_Some'; right; exists p0.
  - intros u Hu. by apply lookup_insert_is_Some'; right; apply Hpb.
  - intros i p0 Hi. apply lookup_insert_Some in Hi as [[<- <-]|[Hne Hi]]; [by apply observed_work_ok|by apply Hwk].
  - eapply phase_ok_mono; [done|done|done|]. cbn [prepared]. intros i u p0 _ Hi.
    apply lookup_insert_Some in Hi as [[<- <-]|[Hne Hi]]; [exists p|exists p0]; split; try done. cbn. lia.
  - intros cell. rewrite (msum_replace _ _ _ p) by done. cbn [set_work work observed held].
    destruct (active (work p) <=? n); [rewrite drop_all_cell, Hle, uses_of_nil; lia|]. rewrite Hle. lia.
  - intros Hclk. apply Hcap. by apply Hc.
Qed.

(** ** Dispatch *)

Lemma take_leases_spec q d id p st st' r :
  work_ok q d id p → take_leases st (work p) = (st', r) →
  match r with
  | Ok l => l = buffers (work p) ∧
      ∀ cell, cell_uses st' cell = cell_uses st cell + uses_of cell (buffers (work p)) - uses_of cell (held (work p))
  | Err _ => ∀ cell, cell_uses st' cell = cell_uses st cell
  end.
Proof.
  intros [_ _ _ _ _ Hh]. unfold take_leases. case_bool_decide as E.
  - intros H. destruct r as [l|e].
    + split; [by destruct (retain_all_cell _ _ _ _ _ 0%nat H) as [-> _]|]. intros cell.
      destruct (retain_all_cell _ _ _ _ _ cell H) as [_ ->]. rewrite E, uses_of_nil. lia.
    + intros cell. assert (cell_uses st' cell = cell_uses st cell - uses_of cell []) as ->
        by exact (retain_all_cell _ _ _ _ _ cell H). rewrite uses_of_nil. lia.
  - intros [= <- <-]. rewrite Hh in E |- *. destruct (_ <? _); [|done]. split; [done|]. intros cell. lia.
Qed.

(** A capture installed for a profiled dispatch whose work is retired. *)
Lemma install_capture_inv w id p w' p' :
  inv w → prepared w !! id = Some p → active (work p) <= retired (work p) →
  install_capture w id p = (w', p') → inv w'.
Proof.
  intros Hinv Hp Hret [= <- <-]. destruct Hinv as [Hr Hl Hs Hpb He Hsm Hwk Hph Hle Hc].
  set (p' := set_work p _).
  constructor; cbn [set_prepared set_captures queue device prepared store others captures]; try done.
  - eapply log_ok_ext; [done|done|done|]. intros s _. by eapply packets_of_insert.
  - intros i j v Hi. destruct (Hs _ _ _ Hi) as [? [p0 Hp0]]. split; [done|]. by apply lookup_insert_is_Some'; right; exists p0.
  - intros u Hu. by apply lookup_insert_is_Some'; right; apply Hpb.
  - intros i p0 Hi. apply lookup_insert_Some in Hi as [[<- <-]|[Hne Hi]]; [|by apply Hwk]. by destruct (Hwk _ _ Hp).
  - eapply phase_ok_mono; [done|done|done|]. cbn [prepared set_prepared set_captures]. intros i u p0 _ Hi.
    apply lookup_insert_Some in Hi as [[<- <-]|[Hne Hi]]; [exists p|exists p0]; done.
  - intros cell. rewrite (msum_replace _ _ _ p) by done. rewrite Hle. subst p'. cbn [set_work work held]. lia.
  - intros Hclk. destruct (Hc Hclk) as [Csa Cow Cti Cdi Csi Cst].
    assert (∀ c id v s, (captures w ++ [mkCapture None None]) !! c = Some (mkCapture (Some (id, v)) s) →
      captures w !! c = Some (mkCapture (Some (id, v)) s)) as Hold.
    { intros c i v s. rewrite lookup_app_Some. intros [?|[_ Hx]]; [done|].
      by apply list_lookup_singleton_Some in Hx as [_ [=]]. }
    constructor; cbn [set_prepared set_captures captures prepared device].
    + intros c i v t Hx%Hold. by eapply Csa.
    + intros c i v s Hx%Hold. destruct (Cow _ _ _ _ Hx) as (p0 & Hp0 & Hv & Hn). destruct (decide (i = id)) as [->|Hne].
      * rewrite Hp in Hp0. injection Hp0 as <-. exists p'. rewrite lookup_insert_eq. split_and!; [done|cbn; lia..|].
        intros E. destruct (Hn E) as (_ & ? & _). lia.
      * exists p0. by rewrite lookup_insert_ne.
    + intros i p0 c Hi Et. apply lookup_insert_Some in Hi as [[<- <-]|[Hne Hi]].
      * cbn in Et. injection Et as <-. exists (mkCapture None None). by rewrite lookup_app_r, Nat.sub_diag by lia.
      * destruct (Cti _ _ _ Hi Et) as (x & Hx & Hown). exists x. split; [by apply lookup_app_l_Some|done].
    + assert (∀ i p0, prepared w !! i = Some p0 → timing (work p0) ≠ Some (length (captures w))) as Hfresh.
      { intros i p0 Hi Et. destruct (Cti _ _ _ Hi Et) as (x & Hx & _). apply lookup_lt_Some in Hx. lia. }
      intros i j pi pj c Hi Hj Ei Ej. apply lookup_insert_Some in Hi as [[<- <-]|[Hni Hi]];
        apply lookup_insert_Some in Hj as [[<- <-]|[Hnj Hj]]; [done|cbn in Ei..|by eapply Cdi].
      * injection Ei as <-. by destruct (Hfresh _ _ Hj).
      * cbn in Ej. injection Ej as <-. by destruct (Hfresh _ _ Hi).
    + intros i p0 Hi. apply lookup_insert_Some in Hi as [[<- <-]|[Hne Hi]]; [exact (Csi _ _ Hp)|exact (Csi _ _ Hi)].
    + intros i p0 c v j Hi Et Hx%Hold Hj Hlt. apply lookup_insert_Some in Hi as [[<- <-]|[Hne Hi]]; [|by eapply Cst].
      destruct (Cow _ _ _ _ Hx) as (p1 & Hp1 & _ & Hn). rewrite Hp in Hp1. injection Hp1 as <-.
      destruct (Hn eq_refl) as (_ & ? & _). lia.
Qed.

Section Submit.
Context (w : World) (id : nat) (p : Prepared) (st : Store) (stop : Z) (capture : option nat).
Hypothesis Hinv : inv w.
Hypothesis Hidle : idle_producer w.
Hypothesis Hp : prepared w !! id = Some p.
Hypothesis Hpoint : next p + 1 <= i64_max.
Hypothesis Hstop : stop = write (queue w) + Z.of_nat (length (packets p)).
Hypothesis Hmax : stop <= u64_max.
Hypothesis Hroom : stop - read (device w) <= capacity (queue w).
Hypothesis Hpend : (length (pending (queue w)) < 4096)%nat.
Hypothesis Hst : ∀ cell, cell_uses st cell =
  cell_uses (store w) cell + uses_of cell (buffers (work p)) - uses_of cell (held (work p)).
Hypothesis Hcap : clock (queue w) = true →
  ∃ c, capture = Some c ∧ timing (work p) = Some c ∧ captures w !! c = Some (mkCapture None None) ∧
    active (work p) <= retired (work p).
Hypothesis Hnocap : clock (queue w) = false → capture = None.

Let w' := submit (set_store w st) id p (buffers (work p)) (next p + 1) stop capture.
Let p' := set_work p (mkWork (signal (work p)) (stamps (work p)) (buffers (work p)) (buffers (work p))
                        (next p + 1) (retired (work p)) (timing (work p))).

Lemma submit_prepared : prepared w' = <[id := p']> (prepared w).
Proof using Type. done. Qed.

Lemma submit_subs : subs (device w') = subs (device w) ++ [(id, next p + 1)].
Proof using Type. unfold subs. cbn. by rewrite fmap_app. Qed.

Lemma submit_next : next p = active (work p).
Proof.
  pose proof (wk_next _ _ _ _ (inv_work _ Hinv _ _ Hp)) as H. unfold next_of in H.
  by rewrite (proj2 Hidle) in H.
Qed.

Lemma submit_work i z : prepared w' !! i = Some z → work_ok (queue w') (device w') i z.
Proof.
  rewrite submit_prepared. pose proof submit_next as Hnx.
  assert (take (executed (device w')) (subs (device w')) = take (executed (device w)) (subs (device w))) as Ht.
  { rewrite submit_subs. cbn [w' submit device executed set_store]. rewrite take_app_le; [done|].
    rewrite length_subs. apply (inv_executed _ Hinv). }
  intros Hi. apply lookup_insert_Some in Hi as [[<- <-]|[Hne Hi]].
  - destruct (inv_work _ Hinv _ _ Hp) as [Hc Ha Hn Hr Hret Hh]. pose proof (completed_le_active _ _ _ Hinv Hp).
    constructor; rewrite ?Ht, ?submit_subs; cbn [p' set_work work completed active retired held buffers signal]; try done.
    + rewrite NativeQueue.count_snoc, Nat.eqb_refl, <-Ha. lia.
    + unfold next_of. cbn. by rewrite Nat.eqb_refl.
    + rewrite (proj2 (Z.ltb_lt _ _)); [done|]. lia.
  - destruct (inv_work _ Hinv _ _ Hi) as [Hc Ha Hn Hr Hret Hh]. constructor; rewrite ?Ht, ?submit_subs; try done.
    + rewrite NativeQueue.count_snoc, (proj2 (Nat.eqb_neq _ _)) by done. lia.
    + unfold next_of in *. cbn. rewrite (proj2 Hidle) in Hn. by rewrite (proj2 (Nat.eqb_neq _ _)).
Qed.

Lemma submit_log : log_ok w'.
Proof.
  destruct (inv_log _ Hinv) as [Hl Hs].
  pose proof (rg_producer _ _ (inv_ring _ Hinv)) as Hprod. rewrite (proj2 Hidle) in Hprod. destruct Hprod as [Hw Hwi].
  assert (∀ l, l ≫= packets_of (prepared w') = l ≫= packets_of (prepared w)) as Hb.
  { intros l. induction l as [|s l IH]; [done|]. rewrite !bind_cons, IH. f_equal. by eapply packets_of_insert. }
  unfold left_of in Hl. rewrite (proj2 Hidle), app_nil_r in Hl.
  assert (packets_of (prepared w) (id, next p + 1, stop) = packets p) as Hpk by (unfold packets_of; cbn; by rewrite Hp).
  constructor; rewrite ?Hb; cbn [w' submit device submitted set_store log].
  - rewrite bind_app, <-Hl. unfold left_of. cbn [w' submit queue publishing pub_left]. f_equal. cbn [mbind list_bind].
    by rewrite Hpk, app_nil_r.
  - intros i s Hi. rewrite Hb. apply lookup_app_Some in Hi as [Hi|[Hge Hi]].
    + rewrite take_app_le by (apply lookup_lt_Some in Hi; lia). by apply Hs.
    + apply list_lookup_singleton_Some in Hi as [Hi <-]. rewrite take_ge by (rewrite length_app; cbn; lia).
      rewrite bind_app, length_app, <-Hl. cbn [mbind list_bind snd]. rewrite Hpk, app_nil_r. lia.
Qed.

Lemma submit_popped : popped w' (pending (queue w')).
Proof.
  destruct (inv_phase _ Hinv) as [Hph _]. rewrite (proj1 Hidle) in Hph. destruct Hph as [(n & Hn & Hpop) _].
  exists (min n (length (subs (device w)))). rewrite submit_subs. split.
  - cbn [w' submit queue pending set_store]. rewrite drop_app_le by lia. f_equal. rewrite Hn.
    destruct (decide (n <= length (subs (device w)))%nat); [by rewrite Nat.min_l by lia|].
    rewrite Nat.min_r by lia. by rewrite !drop_ge by lia.
  - intros i j v z Hi Hj Hz. rewrite lookup_app_l in Hj by lia. rewrite submit_prepared in Hz.
    apply lookup_insert_Some in Hz as [[<- <-]|[_ Hz]]; [|apply (Hpop i j v z); [lia|done..]].
    cbn. apply (Hpop i id v p); [lia|done..].
Qed.

Lemma submit_captures : clock (queue w) = true → captures_ok w'.
Proof.
  intros Hclk. destruct (Hcap Hclk) as (c0 & Ecap & Et0 & Hc0 & Hret).
  destruct (inv_captures _ Hinv Hclk) as [Csa Cow Cti Cdi Csi Cst]. pose proof submit_next as Hnx.
  assert (∀ c x, captures w' !! c = Some x →
    (c = c0 ∧ x = mkCapture (Some (id, next p + 1)) None) ∨ (c ≠ c0 ∧ captures w !! c = Some x)) as Hback.
  { intros c x. cbn [w' submit captures set_store]. rewrite Ecap, list_lookup_alter. case_decide as E; [|auto].
    subst c. rewrite Hc0. cbn. intros [= <-]. by left. }
  pose proof (completed_le_active _ _ _ Hinv Hp) as Hca.
  destruct (inv_work _ Hinv _ _ Hp) as [Hc Ha Hn Hr Hrt Hh].
  assert (∀ v i, subs (device w') !! i = Some (id, v) → (i < executed (device w))%nat → v <= active (work p)) as Hbound.
  { intros v i Hi Hlt. rewrite submit_subs, lookup_app_l in Hi
      by (rewrite length_subs; pose proof (inv_executed _ Hinv); lia).
    etransitivity; [by eapply executed_iff|done]. }
  constructor; rewrite ?submit_prepared, ?submit_subs.
  - intros c i v t Hx. destruct (Hback _ _ Hx) as [[_ ?]|[_ Hy]]; [done|]. destruct (Csa _ _ _ _ Hy) as (j & Hj & Hsj).
    exists j. split; [by apply lookup_app_l_Some|done].
  - intros c i v s Hx. destruct (Hback _ _ Hx) as [[-> [= -> -> ->]]|[Hne Hy]].
    + exists p'. rewrite lookup_insert_eq. cbn. split_and!; [done|lia|lia|]. intros _. split_and!; [done|lia|done].
    + destruct (Cow _ _ _ _ Hy) as (p0 & Hp0 & Hv & Hnone). destruct (decide (i = id)) as [->|Hni].
      * rewrite Hp in Hp0. injection Hp0 as <-. exists p'. rewrite lookup_insert_eq. cbn. split_and!; [done|lia|lia|].
        intros E. destruct (Hnone E) as (_ & ? & _). lia.
      * exists p0. by rewrite lookup_insert_ne.
  - intros i z c Hz Et. apply lookup_insert_Some in Hz as [[<- <-]|[Hni Hz]].
    + cbn in Et. rewrite Et0 in Et. injection Et as <-. cbn [w' submit captures set_store].
      rewrite Ecap, list_lookup_alter_eq, Hc0. eexists. split; [done|]. cbn. by intros ? ? [= <- <-].
    + destruct (Cti _ _ _ Hz Et) as (x & Hx & Hown). destruct (decide (c = c0)) as [->|Hnc].
      * destruct Hni. by eapply Cdi.
      * exists x. cbn [w' submit captures set_store]. by rewrite Ecap, list_lookup_alter_ne.
  - by eapply distinct_captures_insert.
  - intros i z Hz. apply lookup_insert_Some in Hz as [[<- <-]|[_ Hz]]; [|by apply (Csi i)].
    change (completed (work p')) with (completed (work p)). cbn. lia.
  - intros i z c v j Hz Et Hx Hj Hlt.
    destruct (Hback _ _ Hx) as [[-> [= -> ->]]|[Hnc Hy]].
    + rewrite <-submit_subs in Hj. specialize (Hbound _ _ Hj Hlt). lia.
    + rewrite lookup_app_l in Hj by (rewrite length_subs; pose proof (inv_executed _ Hinv); cbn in Hlt; lia).
      apply lookup_insert_Some in Hz as [[<- <-]|[Hni Hz]]; [exact (Cst id p c v j Hp Et Hy Hj Hlt)|exact (Cst i z c v j Hz Et Hy Hj Hlt)].
Qed.

Lemma submit_ring : ring_ok (queue w') (device w').
Proof.
  destruct (inv_ring _ Hinv) as [Hc Hl Hr Hro Hi Hd Hf Hfi Hp0]. rewrite (proj2 Hidle) in Hp0. destruct Hp0 as [Hw Hwi].
  constructor; cbn [w' submit queue device set_store capacity ring read log write_index doorbell fetched publishing
    pub_index pub_left]; try done; lia.
Qed.

Lemma aql_submit_inv : inv w'.
Proof.
  constructor.
  - apply submit_ring.
  - apply submit_log.
  - rewrite submit_subs, submit_prepared. intros i j v Hi. apply lookup_app_Some in Hi as [Hi|[Hge Hi]].
    + rewrite take_app_le by (apply lookup_lt_Some in Hi; lia). destruct (inv_subs _ Hinv _ _ _ Hi) as [? [z Hz]].
      split; [done|]. by apply lookup_insert_is_Some'; right; exists z.
    + apply list_lookup_singleton_Some in Hi as [Hi [= <- <-]]. rewrite take_app_le, take_ge by lia. split.
      * rewrite submit_next, (wk_active _ _ _ _ (inv_work _ Hinv _ _ Hp)). lia.
      * by apply lookup_insert_is_Some'; left.
  - intros u [= <-]. rewrite submit_prepared. by apply lookup_insert_is_Some'; left.
  - cbn. rewrite length_app. pose proof (inv_executed _ Hinv). cbn. lia.
  - apply (inv_samples _ Hinv).
  - apply submit_work.
  - split.
    + cbn [w' submit queue phase set_store]. rewrite (proj1 Hidle). split; [apply submit_popped|].
      cbn. rewrite length_app. cbn. lia.
    + intros Hne. destruct Hne. exact (proj1 Hidle).
  - intros cell. rewrite submit_prepared, (msum_replace _ _ _ p) by done. cbn [w' submit store set_store others].
    rewrite Hst, (inv_leases _ Hinv). cbn [p' set_work work held]. lia.
  - apply submit_captures.
Qed.
End Submit.

Lemma aql_set_store_inv w st : inv w → (∀ cell, cell_uses st cell = cell_uses (store w) cell) → inv (set_store w st).
Proof.
  intros [Hr Hl Hs Hpb He Hsm Hwk Hph Hle Hc] Hst. constructor; try done.
  - by destruct Hl.
  - intros cell. cbn [set_store store prepared others]. by rewrite Hst.
  - intros Hclk. by destruct (Hc Hclk).
Qed.

(** What a successful [begin_dispatch] passed. *)
Lemma begin_dispatch_inv w id w' r :
  inv w → idle_producer w → begin_dispatch w id = Some (w', r) → inv w'.
Proof.
  intros Hinv Hidle. unfold begin_dispatch. destruct (prepared w !! id) as [p|] eqn:Hp; [|done]. cbn [mbind option_bind].
  unfold next_point. destruct (next p + 1 <=? i64_max) eqn:Hnp; [|by intros [= <- <-]]. to_prop.
  destruct (u64_max <? _) eqn:Hu; [by intros [= <- <-]|]. to_prop.
  destruct (_ || _) eqn:Hcap; [by intros [= <- <-]|]. to_prop. rename H into Hcap1, H0 into Hcap2.
  destruct (clock (queue w) && _) eqn:Hbusy; [by intros [= <- <-]|].
  assert (Hpend : (length (pending (queue w)) < 4096)%nat).
  { destruct (inv_phase _ Hinv) as [Hph _]. rewrite (proj1 Hidle) in Hph. destruct Hph. lia. }
  unfold saturating_sub in Hcap2.
  destruct (clock (queue w)) eqn:Hclk.
  - cbn [andb] in Hbusy. to_prop. destruct (install_capture w id p) as [w1 p1] eqn:Hic.
    pose proof (install_capture_inv _ _ _ _ _ Hinv Hp ltac:(lia) Hic) as Hinv1.
    assert (prepared w1 !! id = Some p1) as Hp1 by (injection Hic as <- <-; cbn; by rewrite lookup_insert_eq).
    assert (idle_producer w1) as Hidle1 by (by injection Hic as <- <-).
    destruct (take_leases (store w1) (work p1)) as [st [l|e]] eqn:Htl;
      pose proof (take_leases_spec _ _ _ _ _ _ _ (inv_work _ Hinv1 _ _ Hp1) Htl) as Hst.
    + destruct Hst as [-> Hst]. intros [= <- <-].
      injection Hic as <- <-. apply (aql_submit_inv _ _ _ _ _ _ Hinv1 Hidle1 Hp1); cbn; try done; try lia.
      intros _. eexists. split_and!; [done|done| |cbn; lia]. by rewrite lookup_app_r, Nat.sub_diag by lia.
    + intros [= <- <-]. by apply aql_set_store_inv.
  - destruct (take_leases (store w) (work p)) as [st [l|e]] eqn:Htl;
      pose proof (take_leases_spec _ _ _ _ _ _ _ (inv_work _ Hinv _ _ Hp) Htl) as Hst.
    + destruct Hst as [-> Hst]. intros [= <- <-].
      apply (aql_submit_inv _ _ _ _ _ _ Hinv Hidle Hp); try done; try lia. congruence.
    + intros [= <- <-]. by apply aql_set_store_inv.
Qed.

(** ** Publication *)

(** Moves that change neither the submissions nor the works keep all but the
    ring, the log and the timelines. *)
Lemma producer_inv w q d :
  inv w → ring_ok q d → log d ++ left_of q = log (device w) ++ left_of (queue w) →
  submitted d = submitted (device w) → executed d = executed (device w) → samples d = samples (device w) →
  (∀ id p, prepared w !! id = Some p → next_of q id p = next_of (queue w) id p) →
  clock q = clock (queue w) → phase q = phase (queue w) → pending q = pending (queue w) →
  (publishing (queue w) = None → publishing q = None) →
  (∀ u, publishing q = Some u → ∃ v, publishing (queue w) = Some v ∧ pub_id v = pub_id u) →
  inv (set_device (set_queue w q) d).
Proof.
  intros [Hr Hl Hs Hpb He Hsm Hwk Hph Hle Hc] Hring El Es Ee Esm Hnext Eclk Eph Epend Epub Eid.
  assert (subs d = subs (device w)) as Esub by (unfold subs; by rewrite Es).
  constructor; cbn [set_device set_queue queue device prepared store others captures];
    rewrite ?Es, ?Ee, ?Esm, ?Esub; try done.
  - eapply log_ok_ext; [exact Hl|done|done|done].
  - intros u Hu. destruct (Eid u Hu) as (v & Hv & <-). by apply Hpb.
  - intros id p Hp. destruct (Hwk _ _ Hp) as [H1 H2 H3 H4 H5 H6]. constructor; rewrite ?Ee, ?Esub; try done.
    by rewrite Hnext.
  - destruct Hph as [H1 H2]. unfold phase_ok. cbn [set_device set_queue queue device]. rewrite Eph, Epend, Es, Ee.
    split; [|intros Hne; by apply Epub, H2]. destruct (phase (queue w)); [| |done|done].
    + destruct H1 as [Hpop ?]. split; [|done]. eapply popped_mono; [exact Hpop|exact Esub|by intros id v p _ Hp; exists p].
    + destruct H1 as [Hpop ?]. split; [|by apply Epub]. eapply popped_mono; [exact Hpop|exact Esub|by intros id v p _ Hp; exists p].
  - rewrite Eclk. intros Hclk. destruct (Hc Hclk) as [C1 C2 C3 C4 C5 C6].
    constructor; cbn [set_device set_queue queue device prepared captures]; rewrite ?Esub, ?Esm, ?Ee; try done.
Qed.

Lemma position_mod cap i : (∃ k, 1 <= k ∧ cap = 2 ^ k) → Z.land i (cap - 1) = i mod cap ∧ 0 < cap.
Proof.
  intros (k & Hk & ->). split; [apply (NativeQueue.ring_position_mod k i); lia|].
  apply Z.pow_pos_nonneg; lia.
Qed.

Lemma publish_next_inv w w' : inv w → publish_next w = Some w' → inv w'.
Proof.
  intros Hinv. unfold publish_next. destruct (publishing (queue w)) as [u|] eqn:Hu; [|done]. cbn [mbind option_bind].
  destruct (pub_left u) as [|packet rest] eqn:Hleft; [done|]. intros [= <-].
  destruct (inv_ring _ Hinv) as [Hc Hl Hr Hro Hi Hd Hf Hfi Hp]. rewrite Hu, Hleft in Hp. destruct Hp as [Hix Hwi].
  destruct (position_mod _ (pub_index u) Hc) as [Hpos Hcap]. cbn [length] in Hwi.
  apply producer_inv; try done.
  - constructor; cbn; rewrite ?length_app, ?length_insert; cbn [length]; try done; try lia.
    + rewrite take_app_le by lia. done.
    + rewrite Hpos, Hix.
      change (<[?a := packet]> (ring (queue w))) with (list_inserts a [packet] (ring (queue w))).
      apply NativeQueue.fifo_append; cbn [length]; try done; try lia.
      pose proof (Z.mod_pos_bound (Z.of_nat (length (log (device w)))) (capacity (queue w)) Hcap). lia.
  - unfold left_of. cbn. rewrite Hu, Hleft, <-app_assoc. done.
  - intros id p _. unfold next_of. cbn. by rewrite Hu.
  - by rewrite Hu.
  - intros v [= <-]. by exists u.
Qed.

Lemma fetch_inv w w' : inv w → fetch w = Some w' → inv w'.
Proof.
  intros Hinv. unfold fetch. destruct (read (device w) <=? doorbell (queue w)) eqn:E; [|done]. to_prop.
  destruct (ring (queue w) !! _) as [packet|] eqn:Hpk; [|done]. cbn [mbind option_bind]. intros [= <-].
  destruct (inv_ring _ Hinv) as [Hc Hl Hr Hro Hi Hd Hf Hfi Hp]. destruct (position_mod _ (read (device w)) Hc) as [Hpos Hcap].
  rewrite Hpos, Hfi in Hpk by lia.
  replace w with (set_queue w (queue w)) at 1 by (by destruct w).
  apply producer_inv; try done; [|by intros u Hu; exists u].
  constructor; cbn; try done; try lia.
  - rewrite Hf. replace (Z.to_nat (read (device w) + 1)) with (S (Z.to_nat (read (device w)))) by lia.
    symmetry. by apply take_S_r.
  - intros i Hi'. apply Hfi. lia.
Qed.

Lemma finish_dispatch_inv w w' : inv w → finish_dispatch w = Some w' → inv w'.
Proof.
  intros Hinv. unfold finish_dispatch. destruct (publishing (queue w)) as [u|] eqn:Hu; [|done]. cbn [mbind option_bind].
  destruct (pub_left u) as [|? ?] eqn:Hleft; [|done]. destruct (prepared w !! pub_id u) as [p|] eqn:Hp; [|done].
  cbn [mbind option_bind]. intros [= <-]. set (p' := mkPrepared _ _ _). set (q := mkQueue _ _ _ _ _ _ _ _ _ _).
  assert (∀ id z, <[pub_id u := p']> (prepared w) !! id = Some z → ∃ y, prepared w !! id = Some y ∧ work z = work y
    ∧ next z = next_of (queue w) id y) as Hback.
  { intros id z Hz. apply lookup_insert_Some in Hz as [[<- <-]|[Hne Hz]]; [exists p|exists z].
    - unfold next_of. by rewrite Hu, Nat.eqb_refl.
    - unfold next_of. rewrite Hu, (proj2 (Nat.eqb_neq _ _)) by done. done. }
  destruct Hinv as [Hr Hl Hs Hpb He Hsm Hwk Hph Hle Hc].
  constructor; cbn [set_prepared set_queue queue device prepared store others captures]; try done.
  - destruct Hr as [H1 H2 H3 H4 H5 H6 H7 H8 H9]. rewrite Hu, Hleft in H9. destruct H9 as [H9 H10]. cbn [length] in H10.
    constructor; cbn; try done. lia.
  - eapply log_ok_ext; [done| |done|].
    + unfold left_of. cbn. by rewrite Hu, Hleft.
    + intros s _. by eapply packets_of_insert.
  - intros i j v Hi. destruct (Hs _ _ _ Hi) as [? [z Hz]]. split; [done|]. by apply lookup_insert_is_Some'; right; exists z.
  - intros id z Hz. destruct (Hback _ _ Hz) as (y & Hy & Ew & En). destruct (Hwk _ _ Hy) as [H1 H2 H3 H4 H5 H6].
    constructor; rewrite ?Ew; try done. unfold next_of. cbn. by rewrite En.
  - destruct Hph as [H1 H2]. split; [|done]. cbn [set_prepared set_queue queue device q phase pending].
    destruct (phase (queue w)); [| |done|done]; destruct H1 as [Hpop ?]; split; try done;
      (eapply popped_mono; [exact Hpop|done|]); intros id v z _ Hz; destruct (Hback _ _ Hz) as (y & Hy & Ew & _);
      exists y; split; [done|by rewrite Ew| done|by rewrite Ew].
  - intros cell. rewrite (msum_replace _ _ _ p) by done. rewrite Hle. cbn [p' work]. lia.
  - intros Hclk. destruct (Hc Hclk) as [C1 C2 C3 C4 C5 C6].
    constructor; cbn [set_prepared set_queue queue device prepared captures]; try done.
    + intros c i v s Hx. destruct (C2 _ _ _ _ Hx) as (y & Hy & Hv). destruct (decide (i = pub_id u)) as [->|Hne].
      * exists p'. rewrite lookup_insert_eq. rewrite Hp in Hy. injection Hy as <-. done.
      * exists y. by rewrite lookup_insert_ne.
    + intros i z c Hz Et. destruct (Hback _ _ Hz) as (y & Hy & Ew & _). rewrite Ew in *. by eapply C3.
    + by eapply distinct_captures_insert.
    + intros i z Hz. destruct (Hback _ _ Hz) as (y & Hy & Ew & _). rewrite Ew. by eapply C5.
    + intros i z c v j Hz Et. destruct (Hback _ _ Hz) as (y & Hy & Ew & _). rewrite Ew in *. by eapply C6.
Qed.

(** ** The device *)

Section Execute.
Context (w : World) (id : nat) (point stop : Z) (p : Prepared) (ticks : Z * Z).
Hypothesis Hinv : inv w.
Hypothesis Hsub : submitted (device w) !! executed (device w) = Some (id, point, stop).
Hypothesis Hp : prepared w !! id = Some p.
Let d := device w.
Let t := if clock (queue w) then ticks else stamps (work p).
Let k := work p.
Let p' := set_work p (mkWork (signal k - 1) t (buffers k) (held k) (active k) (retired k) (timing k)).
Let d' := mkDevice (read d) (S (executed d)) (submitted d) (samples d ++ [t]) (log d) (fetched d).
Let w' := set_device (set_prepared w id p') d'.

Lemma execute_prepared i z : prepared w' !! i = Some z → (id = i ∧ p' = z) ∨ (id ≠ i ∧ prepared w !! i = Some z).
Proof. apply lookup_insert_Some. Qed.

Lemma execute_sub : subs d !! executed d = Some (id, point).
Proof. unfold subs, d. by rewrite list_lookup_fmap, Hsub. Qed.

Lemma execute_point : point = completed k + 1.
Proof.
  destruct (inv_subs _ Hinv _ _ _ execute_sub) as [Hv _].
  unfold k. rewrite (wk_completed _ _ _ _ (inv_work _ Hinv _ _ Hp)). unfold d in Hv. lia.
Qed.

Lemma execute_work i z : prepared w' !! i = Some z → work_ok (queue w') (device w') i z.
Proof.
  intros Hz. assert (∀ j, count j (take (S (executed d)) (subs d)) =
    count j (take (executed d) (subs d)) + (if (id =? j)%nat then 1 else 0)) as Hcount.
  { intros j. by rewrite (NativeQueue.count_take_S _ _ _ _ execute_sub). }
  change (subs (device w')) with (subs d) in *.
  apply execute_prepared in Hz as [[<- <-]|[Hne Hz]].
  - destruct (inv_work _ Hinv _ _ Hp) as [H1 H2 H3 H4 H5 H6]. fold d in H1, H2. constructor; try done.
    + change (subs (device w')) with (subs d). cbn [w' set_device device d' executed]. rewrite Hcount, <-H1, Nat.eqb_refl.
      unfold completed. cbn. fold k. lia.
    + unfold completed in *. cbn. fold k in H5. lia.
  - destruct (inv_work _ Hinv _ _ Hz) as [H1 H2 H3 H4 H5 H6]. fold d in H1, H2. constructor; try done.
    change (subs (device w')) with (subs d). cbn [w' set_device device d' executed].
    rewrite Hcount, <-H1, (proj2 (Nat.eqb_neq _ _)) by done. lia.
Qed.

Lemma execute_captures : clock (queue w) = true → captures_ok w'.
Proof.
  intros Hclk. destruct (inv_captures _ Hinv Hclk) as [C1 C2 C3 C4 C5 C6].
  pose proof (inv_samples _ Hinv) as Hsm. pose proof (C5 _ _ Hp) as Hone. fold k in Hone.
  assert (∀ i z, prepared w' !! i = Some z → ∃ y, prepared w !! i = Some y ∧ timing (work z) = timing (work y) ∧
    active (work z) = active (work y) ∧ retired (work z) = retired (work y)) as Hback.
  { intros i z Hz. apply execute_prepared in Hz as [[<- <-]|[Hne Hz]]; [exists p|exists z]; done. }
  constructor; cbn [w' set_device set_prepared captures device prepared]; change (subs d') with (subs d);
    cbn [d' samples executed].
  - intros c i v s Hc. destruct (C1 _ _ _ _ Hc) as (j & Hj & Hs). exists j. split; [done|]. by apply lookup_app_l_Some.
  - intros c i v s Hc. destruct (C2 _ _ _ _ Hc) as (y & Hy & Hv). destruct (decide (i = id)) as [->|Hne].
    + exists p'. rewrite lookup_insert_eq. rewrite Hp in Hy. injection Hy as <-. done.
    + exists y. by rewrite lookup_insert_ne.
  - intros i z c Hz Et. destruct (Hback _ _ Hz) as (y & Hy & E1 & E2 & _). rewrite E1 in Et. rewrite E2. by eapply C3.
  - by eapply distinct_captures_insert.
  - intros i z Hz. apply execute_prepared in Hz as [[<- <-]|[Hne Hz]]; [|by eapply C5].
    unfold completed in *. cbn. lia.
  - intros i z c v j Hz Et Hc Hj Hlt. apply execute_prepared in Hz as [[<- <-]|[Hne Hz]].
    + destruct (C2 _ _ _ _ Hc) as (y & Hy & _ & Hnone). rewrite Hp in Hy. injection Hy as <-.
      destruct (Hnone eq_refl) as (Hv & _ & _). fold k in Hv. pose proof execute_point as Hpt.
      pose proof (wk_active _ _ _ _ (inv_work _ Hinv _ _ Hp)) as Hact. fold k in Hact.
      assert (completed k + 1 <= active k) as Hle.
      { rewrite Hact. unfold k. rewrite (wk_completed _ _ _ _ (inv_work _ Hinv _ _ Hp)).
        pose proof (NativeQueue.count_take_S id _ _ _ execute_sub) as HS. cbn in HS. rewrite Nat.eqb_refl in HS.
        pose proof (count_take_bound id (subs (device w)) (S (executed d))). fold d. fold d in H. lia. }
      assert (v = point) as -> by lia. pose proof (submission_unique _ _ _ _ _ Hinv Hj execute_sub) as ->.
      fold d in Hsm. by rewrite lookup_app_r, Hsm, Nat.sub_diag by (rewrite Hsm; lia).
    + apply lookup_app_l_Some. eapply C6; try done. destruct (decide (j = executed d)) as [->|?]; [|fold d; lia].
      rewrite execute_sub in Hj. congruence.
Qed.

Lemma aql_execute_world_inv : inv w'.
Proof.
  pose proof (lookup_lt_Some _ _ _ Hsub) as Hlt.
  destruct (inv_phase _ Hinv) as [Hph Hpub].
  constructor; try exact (execute_work); try exact execute_captures.
  - by destruct (inv_ring _ Hinv).
  - eapply log_ok_ext; [exact (inv_log _ Hinv)|done|done|]. intros s _. by eapply packets_of_insert.
  - intros i j v Hi. destruct (inv_subs _ Hinv _ _ _ Hi) as [? [z Hz]]. split; [done|].
    by apply lookup_insert_is_Some'; right; exists z.
  - intros u Hu. by apply lookup_insert_is_Some'; right; apply (inv_publishing _ Hinv).
  - cbn. fold d in Hlt. lia.
  - cbn. rewrite length_app. pose proof (inv_samples _ Hinv) as Hsm. cbn. unfold d. lia.
  - assert (∀ l, popped w l → popped w' l) as Hmono.
    { intros l Hl. eapply popped_mono; [exact Hl|done|]. intros i v z _ Hz.
      apply execute_prepared in Hz as [[<- <-]|[Hne Hz]]; [exists p|exists z]; done. }
    split; [|done]. cbn [w' set_device set_prepared queue device d' submitted executed].
    destruct (phase (queue w)); [destruct Hph; auto..| |done]. fold d in Hph, Hlt. lia.
  - intros cell. cbn [w' set_device set_prepared store prepared others].
    rewrite (msum_replace _ _ _ p) by done. rewrite (inv_leases _ Hinv). cbn [p' set_work work held]. fold k. lia.
Qed.
End Execute.

Lemma aql_execute_inv w ticks w' : inv w → execute w ticks = Some w' → inv w'.
Proof.
  intros Hinv. unfold execute. destruct (submitted (device w) !! _) as [[[id point] stop]|] eqn:Hs; [|done].
  cbn [mbind option_bind]. destruct (prepared w !! id) as [p|] eqn:Hp; [|done]. cbn [mbind option_bind].
  destruct (read (device w) <? stop); [done|]. intros [= <-]. by eapply aql_execute_world_inv.
Qed.

(** ** The other moves *)

(** A change of the pending submissions and the phase alone. *)
Lemma phase_inv w q :
  inv w → q = set_phase (set_pending (queue w) (pending q)) (phase q) → phase_ok (set_queue w q) →
  inv (set_queue w q).
Proof.
  intros [Hr Hl Hs Hpb He Hsm Hwk Hph Hle Hc] Hq Hok. rewrite Hq in Hok |- *. generalize dependent (pending q).
  generalize dependent (phase q). intros ph l _ Hok.
  constructor; try done.
  - by destruct Hr.
  - by destruct Hl.
  - intros id p Hp. by destruct (Hwk _ _ Hp).
  - intros Hclk. by destruct (Hc Hclk).
Qed.

Lemma set_status_inv w s : inv w → inv (set_status w s).
Proof.
  intros [Hr Hl Hs Hpb He Hsm Hwk Hph Hle Hc]. constructor; try done.
  - by destruct Hr.
  - by destruct Hl.
  - intros id p Hp. by destruct (Hwk _ _ Hp).
  - intros Hclk. by destruct (Hc Hclk).
Qed.

Lemma set_others_inv w st l :
  inv w → (∀ cell, cell_uses st cell = cell_uses (store w) cell + uses_of cell l - uses_of cell (others w)) →
  inv (set_others w st l).
Proof.
  intros [Hr Hl Hs Hpb He Hsm Hwk Hph Hle Hc] Hst. constructor; try done.
  - by destruct Hl.
  - intros cell. cbn [set_others store prepared others]. rewrite Hst, Hle. lia.
  - intros Hclk. by destruct (Hc Hclk).
Qed.

Lemma add_prepared_inv w id l bufs :
  inv w → prepared w !! id = None → inv (add_prepared w id l bufs).
Proof.
  intros Hinv Hid. pose proof Hinv as [Hr Hl Hs Hpb He Hsm Hwk Hph Hle Hc].
  assert (∀ s, s ∈ submitted (device w) → s.1.1 ≠ id) as Hnew.
  { intros [[i v] stop] Hin Hi. simpl in Hi. subst i. apply list_elem_of_lookup_1 in Hin as [j Hj].
    destruct (Hs j id v) as [_ [z Hz]]; [|congruence]. unfold subs. by rewrite list_lookup_fmap, Hj. }
  assert (count id (subs (device w)) = 0) as Hzero.
  { unfold subs. clear -Hnew. induction (submitted (device w)) as [|s l IH]; [done|].
    change (fst <$> s :: l) with ([s.1] ++ (fst <$> l)). rewrite NativeQueue.count_concat, IH by set_solver.
    unfold NativeQueue.count. simpl. rewrite (proj2 (Nat.eqb_neq _ _)); [done|]. apply Hnew. set_solver. }
  constructor; cbn [add_prepared set_prepared queue device prepared store others captures]; try done.
  - eapply log_ok_ext; [done|done|done|]. intros s Hin. cbn [add_prepared set_prepared prepared].
    unfold packets_of. rewrite lookup_insert_ne; [done|]. apply not_eq_sym. by apply Hnew.
  - intros i j v Hi. destruct (Hs _ _ _ Hi) as [? [z Hz]]. split; [done|]. by apply lookup_insert_is_Some'; right; exists z.
  - intros u Hu. by apply lookup_insert_is_Some'; right; apply Hpb.
  - intros i z Hz. apply lookup_insert_Some in Hz as [[<- <-]|[Hne Hz]]; [|by apply Hwk].
    assert (count id (take (executed (device w)) (subs (device w))) = 0) as Hz2.
    { pose proof (count_take_bound id (subs (device w)) (executed (device w))).
      pose proof (NativeQueue.count_nonneg id (take (executed (device w)) (subs (device w)))). lia. }
    constructor; unfold completed; cbn [work signal active retired held buffers next]; rewrite ?Hz2, ?Hzero; try lia.
    + unfold next_of. destruct (publishing (queue w)) as [u|] eqn:Hu; [|done].
      destruct (pub_id u =? id)%nat eqn:E; [|done]. to_prop. exfalso.
      destruct (Hpb u eq_refl) as [z Hz]. congruence.
    + done.
    + done.
  - eapply phase_ok_mono; [done|done|done|]. intros i v z Hin. cbn [add_prepared set_prepared prepared]. intros Hz. exists z. split; [|done].
    apply lookup_insert_Some in Hz as [[<- <-]|[Hne Hz]]; [|done]. apply list_elem_of_fmap in Hin as (s & Hs' & Hin).
    destruct (Hnew s Hin). by rewrite <-Hs'.
  - intros cell. rewrite msum_insert by done. rewrite Hle. cbn [work held]. rewrite uses_of_nil. lia.
  - intros Hclk. destruct (Hc Hclk) as [C1 C2 C3 C4 C5 C6].
    constructor; cbn [add_prepared set_prepared queue device prepared captures]; try done.
    + intros c i v s Hx. destruct (C2 _ _ _ _ Hx) as (y & Hy & Hv). exists y. rewrite lookup_insert_ne; [done|congruence].
    + intros i z c Hz Et. apply lookup_insert_Some in Hz as [[<- <-]|[Hne Hz]]; [done|by eapply C3].
    + intros i j pi pj c Hi Hj Ei Ej. apply lookup_insert_Some in Hi as [[<- <-]|[Hni Hi]]; [done|].
      apply lookup_insert_Some in Hj as [[<- <-]|[Hnj Hj]]; [done|by eapply C4].
    + intros i z Hz. apply lookup_insert_Some in Hz as [[<- <-]|[Hne Hz]]; [|by eapply C5]. done.
    + intros i z c v j Hz Et. apply lookup_insert_Some in Hz as [[<- <-]|[Hne Hz]]; [done|by eapply C6].
Qed.

(** ** Refreshing and popping *)

Lemma completed_of_signal k : 0 <= completed k <= i64_max → completed_of (signal k) = Some (completed k).
Proof.
  unfold completed_of, completed. intros [H1 H2].
  by rewrite (proj2 (Z.leb_le _ _) H2), (proj2 (Z.leb_le _ _) H1).
Qed.

(** What [refresh] changes when it answers [b]: retirement only. *)
Record refreshed (w w' : World) (id : nat) (v : Z) (b : bool) : Prop := {
  rf_inv : inv w';
  rf_queue : queue w' = queue w;
  rf_device : device w' = device w;
  rf_mono : ∀ i z, prepared w' !! i = Some z → ∃ y, prepared w !! i = Some y ∧ retired (work y) <= retired (work z);
  rf_done : b = true → ∃ p, prepared w' !! id = Some p ∧ v <= retired (work p) }.

Lemma work_completed_range w id p :
  inv w → prepared w !! id = Some p → 0 <= retired (work p) <= completed (work p) ∧ completed (work p) <= i64_max.
Proof.
  intros Hinv Hp. destruct (inv_work _ Hinv _ _ Hp) as [_ _ _ Hr Hret _].
  pose proof (completed_le_active _ _ _ Hinv Hp). lia.
Qed.

(** [refresh] never finds an invalid signal; it answers from the cache, or
    from the device's count. *)
Lemma refresh_cases w id v p :
  inv w → prepared w !! id = Some p →
  (refresh w id v = Some (w, Ok true) ∧ v <= retired (work p)) ∨
  (refresh w id v = Some (w, Ok false) ∧ completed (work p) < v) ∨
  (∃ w', refresh w id v = Some (w', Ok true) ∧ refresh_locked w id (completed (work p)) = Some w' ∧
     v <= completed (work p) ∧ 0 <= completed (work p)).
Proof.
  intros Hinv Hp. destruct (work_completed_range _ _ _ Hinv Hp) as [Hret Hmax].
  unfold refresh. rewrite Hp. cbn [mbind option_bind].
  destruct (v <=? retired (work p)) eqn:E1; to_prop; [by left|]. right.
  rewrite completed_of_signal by lia. destruct (completed (work p) <? v) eqn:E2; to_prop; [by left|]. right.
  destruct (refresh_locked w id (completed (work p))) as [w'|] eqn:Hw.
  - exists w'. split_and!; [done|done|lia|lia].
  - exfalso. revert Hw. unfold refresh_locked. rewrite Hp. cbn [mbind option_bind]. cbv zeta.
    destruct (active (work p) <=? _); intros [=].
Qed.

Lemma refresh_spec w id v p :
  inv w → prepared w !! id = Some p →
  ∃ w' b, refresh w id v = Some (w', Ok b) ∧ refreshed w w' id v b.
Proof.
  intros Hinv Hp. assert (∀ b, (b = true → v <= retired (work p)) → refreshed w w id v b) as Hsame.
  { intros b Hb. constructor; try done; [intros i z Hz; exists z; split; done || lia|].
    intros Ht. exists p. split; [done|by apply Hb]. }
  destruct (refresh_cases w id v p Hinv Hp) as [[-> Hv]|[[-> Hv]|(w' & -> & Hw & Hv & H0)]];
    [exists w, true; by auto|exists w, false; split; [done|by apply Hsame]|exists w', true]. split; [done|].
  pose proof (refresh_locked_inv _ _ _ _ _ Hinv Hp (conj H0 (Z.le_refl _)) Hw) as Hinv'.
  rewrite (refresh_locked_eq _ _ _ _ _ Hp Hw) in Hinv' |- *. constructor; cbn [queue device prepared]; try done.
  - intros i z Hz. apply lookup_insert_Some in Hz as [[<- <-]|[Hne Hz]]; [exists p|exists z]; split; try done; cbn; lia.
  - intros _. exists (set_work p (observed (work p) (completed (work p)))). rewrite lookup_insert_eq. split; [done|cbn; lia].
Qed.

Lemma popped_next w id v l :
  popped w ((id, v) :: l) → (∀ p, prepared w !! id = Some p → v <= retired (work p)) → popped w l.
Proof.
  intros (n & Hl & Hn) Hv. exists (S n). split.
  - rewrite <-Nat.add_1_r, <-drop_drop, <-Hl. done.
  - intros i j u p Hi Hj Hp. destruct (decide (i = n)) as [->|?]; [|eapply Hn; [|done..]; lia].
    assert (subs (device w) !! n = Some (id, v)) as Hs.
    { replace n with (n + 0)%nat by lia. rewrite <-lookup_drop, <-Hl. done. }
    rewrite Hs in Hj. simplify_eq. auto.
Qed.

(** A fully popped list of submissions: every work is retired. *)
Lemma popped_all w : inv w → popped w [] → ∀ id p, prepared w !! id = Some p → active (work p) <= retired (work p).
Proof.
  intros Hinv (n & Hl & Hn) id p Hp. destruct (decide (active (work p) <= 0)) as [?|Hpos].
  { destruct (work_completed_range _ _ _ Hinv Hp). lia. }
  destruct (point_submitted _ _ _ (active (work p)) Hinv Hp ltac:(lia)) as (i & Hi). eapply Hn; try done.
  apply lookup_lt_Some in Hi. symmetry in Hl. apply (f_equal length) in Hl. rewrite length_drop in Hl. cbn in Hl. lia.
Qed.

Lemma popped_all_executed w : inv w → popped w [] → executed (device w) = length (submitted (device w)).
Proof.
  intros Hinv Hpop. pose proof (inv_executed _ Hinv). destruct (decide (executed (device w) = length (submitted (device w)))); [done|].
  exfalso. destruct (lookup_lt_is_Some_2 (subs (device w)) (executed (device w))) as [[id v] Hs].
  { rewrite length_subs. lia. }
  destruct (inv_subs _ Hinv _ _ _ Hs) as [_ [p Hp]]. pose proof (popped_all _ Hinv Hpop _ _ Hp) as Hret.
  destruct (work_completed_range _ _ _ Hinv Hp) as [Hc _].
  assert (v <= active (work p)) as Hv.
  { rewrite (wk_active _ _ _ _ (inv_work _ Hinv _ _ Hp)). destruct (inv_subs _ Hinv _ _ _ Hs) as [-> _].
    pose proof (count_take_bound id (subs (device w)) (S (executed (device w)))) as Hb.
    rewrite (NativeQueue.count_take_S _ _ _ _ Hs) in Hb. cbn in Hb. rewrite Nat.eqb_refl in Hb. lia. }
  assert (v <= completed (work p)) as Hlt%(executed_iff _ _ _ _ _ Hinv Hs Hp) by lia. lia.
Qed.

(** ** Drop *)

(** By then no lease is left to drop. *)
Lemma drop_works_id w : inv w → popped w [] → drop_works w = w.
Proof.
  intros Hinv Hpop.
  assert (∀ id p, prepared w !! id = Some p → held (work p) = []) as Hheld.
  { intros id p Hp. pose proof (popped_all _ Hinv Hpop _ _ Hp).
    rewrite (wk_held _ _ _ _ (inv_work _ Hinv _ _ Hp)). by rewrite (proj2 (Z.ltb_ge _ _)). }
  unfold drop_works. destruct w as [st m q d c o]. cbn [store prepared queue device captures others] in *. f_equal.
  - assert (map_to_list m ≫= (λ x, held (work x.2)) = []) as ->; [|done].
    assert (∀ x, x ∈ map_to_list m → held (work x.2) = []) as Hall.
    { intros [id p] Hin. apply elem_of_map_to_list in Hin. by eapply Hheld. }
    clear -Hall. induction (map_to_list m) as [|x l IH]; [done|]. rewrite bind_cons, Hall, IH; set_solver.
  - apply map_eq. intros i. rewrite lookup_fmap. destruct (m !! i) as [p|] eqn:Hp; [|done]. cbn. f_equal.
    specialize (Hheld _ _ Hp). destruct p as [? ? [? ? ? h ? ? ?]]. cbn in *. by subst.
Qed.

Lemma refreshed_popped w w' id v b l :
  refreshed w w' id v b → popped w l → popped w' l.
Proof.
  intros Hr Hl. eapply popped_mono; [exact Hl|by rewrite (rf_device _ _ _ _ _ Hr)|].
  intros i u z _ Hz. destruct (rf_mono _ _ _ _ _ Hr _ _ Hz) as (y & Hy & Hle). by exists y.
Qed.

Lemma aql_set_phase_inv w ph :
  inv w → ph ≠ Open →
  publishing (queue w) = None →
  match ph with
  | Draining l => popped w l
  | Destroyed => executed (device w) = length (submitted (device w))
  | _ => True
  end → inv (set_queue w (set_phase (queue w) ph)).
Proof.
  intros Hinv Hph Hpub Hok. apply phase_inv; [done|by destruct (queue w)|]. split; [|by cbn].
  cbn [set_queue queue set_phase phase device publishing]. destruct ph; [done|by split|done|done].
Qed.

Lemma drop_next_inv w expired destroyed w' : inv w → drop_next w expired destroyed = Some w' → inv w'.
Proof.
  intros Hinv. pose proof (inv_phase _ Hinv) as [Hph Hpub]. unfold drop_next.
  destruct (phase (queue w)) as [|[|[id point] rest]| |] eqn:E; try done.
  - destruct Hph as [Hpop Hnone]. rewrite drop_works_id by done. cbv zeta. intros [= <-]. apply aql_set_phase_inv; try done.
    + by destruct destroyed.
    + destruct destroyed; [|done]. by apply popped_all_executed.
  - destruct Hph as [Hpop Hnone].
    assert (is_Some (prepared w !! id)) as [p Hp].
    { destruct Hpop as (n & Hn & _). apply (inv_subs _ Hinv (n + 0)%nat id point). by rewrite <-lookup_drop, <-Hn. }
    destruct (refresh_spec w id point p Hinv Hp) as (w1 & b & -> & Hr). cbn [mbind option_bind].
    pose proof (rf_inv _ _ _ _ _ Hr) as Hinv1.
    assert (publishing (queue w1) = None) as Hnone1 by (by rewrite (rf_queue _ _ _ _ _ Hr)).
    destruct b.
    + intros [= <-]. apply aql_set_phase_inv; try done. eapply popped_next; [by eapply refreshed_popped|].
      destruct (rf_done _ _ _ _ _ Hr eq_refl) as (p1 & Hp1 & Hle). intros p2 Hp2. by simplify_eq.
    + destruct expired; intros [= <-]; [|done]. by apply aql_set_phase_inv.
Qed.

Lemma aql_step_inv w w' : step w w' → inv w → inv w'.
Proof.
  intros Hstep Hinv. destruct Hstep.
  - by eapply refresh_locked_inv.
  - apply phase_inv; [done|by destruct (queue w)|]. destruct (inv_phase _ Hinv) as [Hph Hpub].
    destruct H as [Hopen Hnone]. rewrite Hopen in Hph. destruct Hph as [Hpop Hlen].
    split; cbn [set_queue queue set_pending phase pending device]; [|by rewrite Hopen]. rewrite Hopen.
    rewrite H0 in Hpop, Hlen. split; [|cbn in Hlen; lia]. eapply popped_next; [exact Hpop|].
    unfold is_complete in H1. intros p Hp. cbn in Hp. rewrite Hp in H1. by to_prop.
  - by eapply begin_dispatch_inv.
  - by eapply publish_next_inv.
  - by eapply finish_dispatch_inv.
  - by apply add_prepared_inv.
  - by eapply fetch_inv.
  - by eapply aql_execute_inv.
  - by apply set_status_inv.
  - apply set_others_inv; [done|]. intros cell. rewrite (retain_use_cell _ _ _ cell H), uses_of_cons. lia.
  - apply set_others_inv; [done|]. intros cell. rewrite drop_use_cell.
    unfold uses_of. rewrite (zsum_perm _ _ _ (delete_Permutation _ _ _ H)), zsum_cons. lia.
  - destruct H as [Hopen Hnone]. apply phase_inv; [done|by destruct (queue w)|].
    destruct (inv_phase _ Hinv) as [Hph _]. rewrite Hopen in Hph. split; [|done]. by split; [apply Hph|].
  - by eapply drop_next_inv.
Qed.

Lemma initial_aql_inv w : initial w → inv w.
Proof.
  intros [Hc Hq Hr Hd Hp Hcs Hl]. destruct w as [st m q d c o]. cbn [queue device prepared captures store others] in *.
  destruct q as [cap clk sta rg wr wi db pe pu ph]. cbn [capacity clock ring] in *. injection Hq as -> -> -> -> -> -> ->. subst m d c.
  constructor; cbn [queue device prepared captures store others]; try done.
  - destruct Hc as (k & Hk & ->). pose proof (Z.pow_pos_nonneg 2 k ltac:(lia) ltac:(lia)).
    constructor; cbn [capacity ring read log write_index doorbell fetched publishing write length]; try done; try lia.
    + by exists k.
    + intros i Hi. cbn [length] in Hi. lia.
  - split; [|done]. split; [|cbn; lia]. exists 0%nat. split; [done|]. intros i id v p Hi. lia.
Qed.

Lemma aql_reachable_inv w : reachable w → inv w.
Proof.
  intros (w0 & Hi%initial_aql_inv & Hs). induction Hs as [|w0 w1 w2 H1 _ IH]; [done|]. apply IH. by eapply aql_step_inv.
Qed.

(** ** Composed operations are sequences of moves *)

(** What a refresh and the popping loop may change: retirement only. *)
Record retires (w w' : World) : Prop := {
  rt_steps : rtc step w w';
  rt_inv : inv w';
  rt_queue : queue w' = queue w;
  rt_device : device w' = device w;
  rt_prepared : ∀ i y, prepared w !! i = Some y → ∃ z, prepared w' !! i = Some z ∧
    retired (work y) <= retired (work z) ∧ active (work z) = active (work y) ∧
    completed (work z) = completed (work y) ∧ packets z = packets y ∧ next z = next y }.

Lemma retires_refl w : inv w → retires w w.
Proof. intros Hinv. constructor; try done. intros i y Hy. exists y. split_and!; done || lia. Qed.

Lemma retires_trans w1 w2 w3 : retires w1 w2 → retires w2 w3 → retires w1 w3.
Proof.
  intros [S1 I1 Q1 D1 P1] [S2 I2 Q2 D2 P2]. constructor; [by etrans|done|congruence|congruence|].
  intros i y Hy. destruct (P1 _ _ Hy) as (z & Hz & ? & ? & ? & ? & ?).
  destruct (P2 _ _ Hz) as (u & Hu & ? & ? & ? & ? & ?). exists u. split_and!; try congruence. lia.
Qed.

Lemma is_complete_retires w w' id v : retires w w' → is_complete w id v = true → is_complete w' id v = true.
Proof.
  intros Hr. unfold is_complete. destruct (prepared w !! id) as [p|] eqn:Hp; [|done]. intros Hv. to_prop.
  destruct (rt_prepared _ _ Hr _ _ Hp) as (z & -> & Hle & _). apply Z.leb_le. lia.
Qed.

Lemma refresh_retires w id v p :
  inv w → phase (queue w) = Open → prepared w !! id = Some p →
  ∃ w' b, refresh w id v = Some (w', Ok b) ∧ retires w w' ∧
    (if b : bool then is_complete w' id v = true else completed (work p) < v).
Proof.
  intros Hinv Hopen Hp. unfold is_complete.
  destruct (refresh_cases w id v p Hinv Hp) as [[-> Hv]|[[-> Hv]|(w' & -> & Hw & Hv & H0)]].
  { exists w, true. rewrite Hp. split_and!; [done|by apply retires_refl|by apply Z.leb_le]. }
  { exists w, false. split_and!; [done|by apply retires_refl|done]. }
  exists w', true. split; [done|].
  pose proof (refresh_locked_inv _ _ _ _ _ Hinv Hp (conj H0 (Z.le_refl _)) Hw) as Hinv'.
  assert (step w w') as Hstep by (eapply step_refresh; [done|done|exact (conj H0 (Z.le_refl _))|done]).
  pose proof (refresh_locked_eq _ _ _ _ _ Hp Hw) as Heq. split.
  - constructor; [by apply rtc_once|done|by rewrite Heq|by rewrite Heq|].
    intros i y Hy. rewrite Heq. cbn [prepared]. destruct (decide (i = id)) as [->|Hne].
    + rewrite lookup_insert_eq. simplify_eq. eexists. split; [done|]. cbn. split_and!; done || lia.
    + rewrite lookup_insert_ne by done. exists y. split_and!; done || lia.
  - rewrite Heq. cbn [prepared]. rewrite lookup_insert_eq. cbn. apply Z.leb_le. lia.
Qed.

Lemma aql_reap_from_spec w l :
  inv w → phase (queue w) = Open → (∀ id v, (id, v) ∈ l → is_Some (prepared w !! id)) →
  ∃ w' n, reap_from w l = Some (w', drop n l, Ok tt) ∧ retires w w' ∧ (n <= length l)%nat ∧
    (∀ id v, (id, v) ∈ take n l → is_complete w' id v = true) ∧
    (∀ id v, l !! n = Some (id, v) → ∃ p, prepared w !! id = Some p ∧ completed (work p) < v).
Proof.
  revert w. induction l as [|[id v] l IH]; intros w Hinv Hopen Hall; cbn [reap_from].
  { exists w, 0%nat. split_and!; [done|by apply retires_refl|done|set_solver|done]. }
  destruct (Hall id v ltac:(set_solver)) as [p Hp].
  destruct (refresh_retires w id v p Hinv Hopen Hp) as (w1 & b & -> & Hr & Hb). cbn [mbind option_bind]. destruct b.
  - destruct (IH w1) as (w2 & n & -> & Hr2 & Hn & Hdone & Hstuck).
    { apply (rt_inv _ _ Hr). } { by rewrite (rt_queue _ _ Hr). }
    { intros i u Hin. destruct (Hall i u ltac:(set_solver)) as [y Hy]. destruct (rt_prepared _ _ Hr _ _ Hy) as (z & Hz & _). eauto. }
    exists w2, (S n). split_and!; [done|by eapply retires_trans|cbn; lia| |].
    + intros i u. cbn [take]. rewrite elem_of_cons. intros [[= -> ->]|Hin]; [by eapply is_complete_retires|by apply Hdone].
    + intros i u Hi. destruct (Hstuck i u Hi) as (z & Hz & Hlt). destruct (Hall i u) as [y Hy].
      { right. by eapply list_elem_of_lookup_2. }
      destruct (rt_prepared _ _ Hr _ _ Hy) as (z' & Hz' & _ & _ & Hc & _). simplify_eq. exists y. split; [done|]. lia.
  - exists w1, 0%nat. split_and!; [done|done|cbn; lia|set_solver|]. intros i u [= <- <-]. by exists p.
Qed.

Lemma pops_steps w n :
  idle_producer w → (∀ id v, (id, v) ∈ take n (pending (queue w)) → is_complete w id v = true) →
  rtc step w (set_queue w (set_pending (queue w) (drop n (pending (queue w))))).
Proof.
  revert w. induction n as [|n IH]; intros w Hidle Hall.
  { rewrite drop_0. destruct w as [? ? [] ? ? ?]. apply rtc_refl. }
  destruct (pending (queue w)) as [|[id v] rest] eqn:Hp.
  { rewrite drop_nil, <-Hp. destruct w as [? ? [] ? ? ?]. apply rtc_refl. }
  eapply rtc_l; [eapply step_pop; [done|exact Hp|apply Hall; set_solver]|].
  specialize (IH (set_queue w (set_pending (queue w) rest)) Hidle). apply IH.
  intros i u Hin. apply (Hall i u). cbn [take]. by right.
Qed.

Lemma pending_prepared w l id v : inv w → popped w l → (id, v) ∈ l → is_Some (prepared w !! id).
Proof.
  intros Hinv (n & -> & _) Hin. apply list_elem_of_lookup_1 in Hin as [i Hi]. rewrite lookup_drop in Hi.
  by destruct (inv_subs _ Hinv _ _ _ Hi).
Qed.

Lemma aql_reap_spec w :
  inv w → idle_producer w →
  ∃ w1 n, reap w = Some (set_queue w1 (set_pending (queue w) (drop n (pending (queue w)))), Ok tt) ∧
    retires w w1 ∧ (n <= length (pending (queue w)))%nat ∧
    rtc step w (set_queue w1 (set_pending (queue w) (drop n (pending (queue w))))) ∧
    (∀ id v, pending (queue w) !! n = Some (id, v) → ∃ p, prepared w !! id = Some p ∧ completed (work p) < v).
Proof.
  intros Hinv [Hopen Hnone]. unfold reap. destruct (aql_reap_from_spec w (pending (queue w)) Hinv Hopen) as (w1 & n & -> & Hr & Hn & Hd & Hs).
  { intros id v. apply pending_prepared; [done|]. destruct (inv_phase _ Hinv) as [Hph _]. rewrite Hopen in Hph. apply Hph. }
  cbn [mbind option_bind]. rewrite (rt_queue _ _ Hr). exists w1, n. split_and!; try done.
  etrans; [apply (rt_steps _ _ Hr)|]. rewrite <-(rt_queue _ _ Hr). apply pops_steps.
  - split; by rewrite (rt_queue _ _ Hr).
  - by rewrite (rt_queue _ _ Hr).
Qed.

Lemma rtc_step_inv w w' : inv w → rtc step w w' → inv w'.
Proof. intros Hinv Hs. induction Hs as [|? ? ? H1 _ IH]; [done|]. apply IH. by eapply aql_step_inv. Qed.

Lemma begin_dispatch_spec w id p :
  idle_producer w → prepared w !! id = Some p →
  ∃ w' r, begin_dispatch w id = Some (w', r) ∧
    match r with
    | Ok (v, c) => v = next p + 1 ∧ phase (queue w') = Open ∧
        publishing (queue w') = Some (mkPublication id v (write (queue w)) (packets p)) ∧
        submitted (device w') = submitted (device w) ++ [(id, v, write (queue w) + Z.of_nat (length (packets p)))] ∧
        log (device w') = log (device w) ∧ pending (queue w') = pending (queue w) ++ [(id, v)]
    | Err _ => queue w' = queue w ∧ device w' = device w
    end.
Proof.
  intros [Hopen Hnone] Hp. unfold begin_dispatch. rewrite Hp. cbn [mbind option_bind]. unfold next_point.
  destruct (next p + 1 <=? i64_max); [|by eexists _, _]. destruct (u64_max <? _); [by eexists _, _|].
  destruct (_ || _); [by eexists _, _|]. destruct (clock (queue w) && _); [by eexists _, _|].
  destruct (clock (queue w)); cbn [install_capture].
  - destruct (take_leases _ _) as [st [l|e]]; eexists _, _; split; [done|by cbn|done|done].
  - destruct (take_leases _ _) as [st [l|e]]; eexists _, _; split; [done|by cbn|done|done].
Qed.

Lemma publish_all_spec fuel w u :
  inv w → phase (queue w) = Open → publishing (queue w) = Some u → length (pub_left u) = fuel →
  ∃ w', publish_all fuel w = Some w' ∧ rtc step w w' ∧ idle_producer w' ∧
    log (device w') = log (device w) ++ pub_left u ∧ submitted (device w') = submitted (device w) ∧
    pending (queue w') = pending (queue w).
Proof.
  revert w u. induction fuel as [|fuel IH]; intros w u Hinv Hopen Hu Hlen; cbn [publish_all].
  - destruct (inv_publishing _ Hinv _ Hu) as [p Hp]. destruct (pub_left u) as [|? ?] eqn:Hl; [|done].
    assert (∃ w', finish_dispatch w = Some w' ∧ idle_producer w' ∧ device w' = device w ∧
      pending (queue w') = pending (queue w)) as (w' & Hf & Hi & Hd & Hpe).
    { unfold finish_dispatch. rewrite Hu. cbn [mbind option_bind]. rewrite Hl, Hp. cbn [mbind option_bind]. by eexists. }
    exists w'. rewrite Hd, app_nil_r. split_and!; try done. apply rtc_once. by apply step_finish.
  - destruct (pub_left u) as [|packet rest] eqn:Hl; [done|].
    destruct (publish_next w) as [w1|] eqn:H1.
    2: { exfalso. revert H1. unfold publish_next. rewrite Hu. cbn [mbind option_bind]. by rewrite Hl. }
    pose proof (publish_next_inv _ _ Hinv H1) as Hinv1. pose proof (step_publish _ _ H1) as Hstep.
    cbn [mbind option_bind]. revert H1. unfold publish_next. rewrite Hu. cbn [mbind option_bind]. rewrite Hl.
    intros [= Hw1].
    destruct (IH w1 (mkPublication (pub_id u) (pub_point u) (pub_index u + 1) rest)) as (w' & Hp & Hs & Hi & Hlog & Hsub & Hpe);
      [done|by rewrite <-Hw1|by rewrite <-Hw1|cbn in *; lia|].
    exists w'. split_and!; [done|by eapply rtc_l|done|rewrite Hlog, <-Hw1; cbn; by rewrite <-app_assoc|by rewrite Hsub, <-Hw1|by rewrite Hpe, <-Hw1].
Qed.

Lemma dispatch_spec w id p :
  inv w → idle_producer w → prepared w !! id = Some p →
  ∃ w' r, dispatch w id = Some (w', r) ∧ rtc step w w' ∧ idle_producer w' ∧
    match r with
    | Ok (v, c) => v = next p + 1 ∧
        subs (device w') = subs (device w) ++ [(id, v)] ∧ log (device w') = log (device w) ++ packets p ∧
        last (pending (queue w')) = Some (id, v)
    | Err _ => subs (device w') = subs (device w) ∧ log (device w') = log (device w)
    end.
Proof.
  intros Hinv Hidle Hp. unfold dispatch. rewrite Hp. cbn [mbind option_bind].
  destruct (next_point p) as [v0|e]; [|exists w, (Err e); split_and!; try done; apply rtc_refl].
  destruct (aql_reap_spec w Hinv Hidle) as (w1 & n & -> & Hr & _ & Hsteps & _). cbn [mbind option_bind].
  set (w2 := set_queue w1 _) in *. pose proof (rtc_step_inv _ _ Hinv Hsteps) as Hinv2.
  assert (device w2 = device w) as Hd2 by exact (rt_device _ _ Hr).
  assert (idle_producer w2) as Hidle2 by (split; apply Hidle).
  destruct (rt_prepared _ _ Hr _ _ Hp) as (p2 & Hp2 & _ & _ & _ & Epk & Enx).
  destruct (begin_dispatch_spec w2 id p2 Hidle2 Hp2) as (w3 & r & Hb & Hspec). rewrite Hb. cbn [mbind option_bind].
  pose proof (step_begin _ _ _ _ Hidle2 Hb) as Hstep. pose proof (begin_dispatch_inv _ _ _ _ Hinv2 Hidle2 Hb) as Hinv3.
  destruct r as [[v c]|e].
  - destruct Hspec as (Hv & Hopen & Hpub & Hsub & Hlog & Hpend).
    destruct (publish_all_spec _ w3 _ Hinv3 Hopen Hpub eq_refl) as (w4 & Hpa & Hs4 & Hi4 & Hl4 & Hsub4 & Hp4).
    cbn [pub_left] in Hpa, Hl4. rewrite <-Epk, Hpa. cbn [mbind option_bind]. exists w4, (Ok (v, c)).
    split_and!; [done| |done|congruence| | |].
    + etrans; [exact Hsteps|]. by eapply rtc_l.
    + unfold subs. by rewrite Hsub4, Hsub, fmap_app, Hd2.
    + by rewrite Hl4, Hlog, Hd2.
    + rewrite Hp4, Hpend. apply last_snoc.
  - destruct Hspec as [Hq3 Hd3]. exists w3, (Err e). split_and!; [done| | |by rewrite Hd3, Hd2|by rewrite Hd3, Hd2].
    + etrans; [exact Hsteps|]. by apply rtc_once.
    + unfold idle_producer. by rewrite Hq3.
Qed.

(** ** Theorems *)

(** The ring is a FIFO of whole dispatches: what the device has fetched is a
    prefix of the packets of the submissions in the order in which they were
    made, whatever the interleaving, and the producer is never more than the
    ring's capacity ahead of the device. *)
Theorem aql_ring_refines_fifo w :
  reachable w →
  fetched (device w) = take (Z.to_nat (read (device w))) (submitted (device w) ≫= packets_of (prepared w)) ∧
  write_index (queue w) - read (device w) <= capacity (queue w).
Proof.
  intros Hr%aql_reachable_inv. destruct (inv_ring _ Hr) as [_ _ Hread Hroom _ _ Hf _ _]. split; [|done].
  rewrite Hf, <-(lg_log _ (inv_log _ Hr)), take_app_le by lia. done.
Qed.

Lemma aql_held_leased w id p b :
  inv w → prepared w !! id = Some p → b ∈ held (work p) → 0 < leases (store w) b.
Proof.
  intros Hinv Hp Hb. change (leases (store w) b) with (cell_uses (store w) (uses_cell (memory b))).
  rewrite (inv_leases _ Hinv), (msum_delete _ _ _ _ Hp).
  pose proof (uses_of_elem _ b _ Hb eq_refl). pose proof (uses_of_nonneg (uses_cell (memory b)) (others w)).
  pose proof (msum_nonneg (λ p, uses_of (uses_cell (memory b)) (held (work p))) (delete id (prepared w))
    ltac:(intros; apply uses_of_nonneg)). lia.
Qed.

(** The buffers of an unfinished dispatch stay leased, under every
    interleaving: as long as the device has not completed a submission, a host
    write through any alias of any of its buffers is refused and changes
    nothing. *)
Theorem aql_unfinished_dispatches_stay_leased control w i id v stop p b b' off new :
  reachable w → submitted (device w) !! i = Some (id, v, stop) → (executed (device w) <= i)%nat →
  prepared w !! id = Some p → b ∈ buffers (work p) →
  buffer_wf b' → alias b b' → 0 <= off → off + Z.of_nat (length new) <= len b' →
  0 < leases (store w) b ∧ NativeMemory.write control (store w) b' off new = (store w, busy).
Proof.
  intros Hr%aql_reachable_inv Hi Hle Hp Hb Hwf Hal H0 Hlen.
  assert (subs (device w) !! i = Some (id, v)) as Hs by (unfold subs; by rewrite list_lookup_fmap, Hi).
  assert (0 < leases (store w) b) as Hpos.
  { eapply aql_held_leased; [done..|]. destruct (inv_work _ Hr _ _ Hp) as [Hc Ha _ _ Hret ->].
    rewrite (proj2 (Z.ltb_lt _ _)); [done|].
    assert (¬ v <= completed (work p)) as Hgt by (rewrite (executed_iff _ _ _ _ _ Hr Hs Hp); lia).
    destruct (inv_subs _ Hr _ _ _ Hs) as [Hv _]. pose proof (count_take_bound id (subs (device w)) (S i)) as Hb2.
    rewrite (NativeQueue.count_take_S _ _ _ _ Hs) in Hb2. cbn in Hb2. rewrite Nat.eqb_refl in Hb2. lia. }
  split; [done|]. unfold NativeMemory.write. rewrite range_wf by (done || lia).
  destruct Hal as [_ Hcell]. unfold leases in *. rewrite <-Hcell. by rewrite (proj2 (Z.eqb_neq _ _)) by lia.
Qed.

(** Cached completion is sound: a submitted point that [is_complete] reports
    is one the device has completed. *)
Theorem aql_completion_is_sound w i id v stop :
  reachable w → submitted (device w) !! i = Some (id, v, stop) → is_complete w id v = true →
  (i < executed (device w))%nat.
Proof.
  intros Hr%aql_reachable_inv Hi. unfold is_complete. destruct (prepared w !! id) as [p|] eqn:Hp; [|done].
  intros Hv. to_prop. assert (subs (device w) !! i = Some (id, v)) as Hs by (unfold subs; by rewrite list_lookup_fmap, Hi).
  apply (executed_iff _ _ _ _ _ Hr Hs Hp). destruct (work_completed_range _ _ _ Hr Hp). lia.
Qed.

(** A timing sample is that of its own dispatch: on a profiled queue, the
    ticks recorded in the capture returned for a submission are the ones the
    device wrote for that submission, however often the prepared dispatch was
    replayed since, and once the submission is reported complete its sample is
    recorded. *)
Theorem aql_samples_identify_their_dispatch w c id v s :
  reachable w → clock (queue w) = true → captures w !! c = Some (mkCapture (Some (id, v)) s) →
  ∃ i stop, submitted (device w) !! i = Some (id, v, stop) ∧
    (∀ t, s = Some t → (i < executed (device w))%nat ∧ samples (device w) !! i = Some t) ∧
    (is_complete w id v = true → is_Some s).
Proof.
  intros Hr%aql_reachable_inv Hclk Hc. destruct (inv_captures _ Hr Hclk) as [C1 C2 _ _ _ _].
  destruct (C2 _ _ _ _ Hc) as (p & Hp & Hv & Hnone). destruct (point_submitted _ _ _ v Hr Hp Hv) as (i & Hi).
  pose proof Hi as Hsub. unfold subs in Hsub. rewrite list_lookup_fmap in Hsub. apply fmap_Some in Hsub as ([[j u] stop] & Hsub & [= <- <-]).
  exists i, stop. split_and!; [done| |].
  - intros t ->. destruct (C1 _ _ _ _ Hc) as (k & Hk & Hs). pose proof (submission_unique _ _ _ _ _ Hr Hi Hk) as <-.
    split; [|done]. apply lookup_lt_Some in Hs. by rewrite (inv_samples _ Hr) in Hs.
  - unfold is_complete. rewrite Hp. intros Hle. to_prop. destruct s as [t|]; [by exists t|].
    destruct (Hnone eq_refl) as (-> & ? & _). lia.
Qed.

(** A dispatch returns, and is one submission: called on an open queue by the
    only producer, it either fails and submits nothing, or takes the next point
    of its timeline, is the last pending submission, and has published exactly
    its packets after all earlier ones. *)
Theorem aql_dispatch_submits_once w id p :
  reachable w → idle_producer w → prepared w !! id = Some p →
  ∃ w' r, dispatch w id = Some (w', r) ∧ reachable w' ∧ idle_producer w' ∧
    match r with
    | Ok (v, c) => v = next p + 1 ∧
        subs (device w') = subs (device w) ++ [(id, v)] ∧ log (device w') = log (device w) ++ packets p ∧
        last (pending (queue w')) = Some (id, v)
    | Err _ => subs (device w') = subs (device w) ∧ log (device w') = log (device w)
    end.
Proof.
  intros Hr Hidle Hp. destruct (dispatch_spec w id p (aql_reachable_inv w Hr) Hidle Hp) as (w' & r & Hd & Hs & Hi & Hm).
  exists w', r. split_and!; try done. destruct Hr as (w0 & H0 & Hs0). exists w0. split; [done|by etrans].
Qed.

(** A queue whose device has finished drains: popping leaves nothing pending,
    reports every submission complete and returns every lease, and only the
    leases of other users remain. *)
Theorem aql_drained_queue_releases_everything w :
  reachable w → idle_producer w → executed (device w) = length (submitted (device w)) →
  ∃ w', reap w = Some (w', Ok tt) ∧ pending (queue w') = [] ∧
    (∀ id p, prepared w' !! id = Some p → held (work p) = []) ∧
    (∀ cell, cell_uses (store w') cell = uses_of cell (others w')).
Proof.
  intros Hr%aql_reachable_inv Hidle Hex. destruct (aql_reap_spec w Hr Hidle) as (w1 & n & -> & Hret & Hn & Hsteps & Hstuck).
  eexists. split; [done|]. set (w' := set_queue w1 _) in *. pose proof (rtc_step_inv _ _ Hr Hsteps) as Hinv'.
  assert (n = length (pending (queue w))) as ->.
  { destruct (decide (n = length (pending (queue w)))) as [|Hne]; [done|]. exfalso.
    destruct (lookup_lt_is_Some_2 (pending (queue w)) n) as [[id v] Hl]; [lia|].
    destruct (Hstuck _ _ Hl) as (p & Hp & Hlt). destruct (inv_phase _ Hr) as [Hph _].
    rewrite (proj1 Hidle) in Hph. destruct Hph as [(m & Hm & _) _]. rewrite Hm, lookup_drop in Hl.
    pose proof (lookup_lt_Some _ _ _ Hl) as Hlen. rewrite length_subs, <-Hex in Hlen.
    apply (executed_iff _ _ _ _ _ Hr Hl Hp) in Hlen. lia. }
  assert (pending (queue w') = []) as Hnil by (cbn; by rewrite drop_ge).
  assert (∀ id p, prepared w' !! id = Some p → held (work p) = []) as Hheld.
  { intros id p Hp. destruct (inv_phase _ Hinv') as [Hph _]. rewrite Hnil in Hph.
    assert (phase (queue w') = Open) as Ho by apply Hidle. rewrite Ho in Hph.
    pose proof (popped_all _ Hinv' (proj1 Hph) _ _ Hp).
    rewrite (wk_held _ _ _ _ (inv_work _ Hinv' _ _ Hp)). by rewrite (proj2 (Z.ltb_ge _ _)). }
  split_and!; try done. intros cell. rewrite (inv_leases _ Hinv').
  assert (msum (λ p, uses_of cell (held (work p))) (prepared w') = 0) as ->; [|lia].
  apply msum_zero. intros id p Hp. by rewrite (Hheld _ _ Hp).
Qed.

(** The native queue is destroyed only after the device completed everything
    that was submitted to it. *)
Theorem aql_queue_destroyed_idle w :
  reachable w → phase (queue w) = Destroyed → executed (device w) = length (submitted (device w)).
Proof. intros Hr%aql_reachable_inv Hd. destruct (inv_phase _ Hr) as [Hph _]. by rewrite Hd in Hph. Qed.

(** ** Packets *)

(** A kernel dispatch packet, field by field. *)
Record Launch : Type := mkLaunch {
  kind : Z;
  ordered : bool;
  acquire_scope : Z;
  release_scope : Z;
  dimensions : Z;
  workgroup : Z * Z * Z;
  extent : Z * Z * Z;
  private_segment : Z;
  group_segment : Z;
  kernel_object : Z;
  kernarg_address : Z;
  completion_signal : Z }.
Definition decode (packet : list Z) : option Launch :=
  match packet with
  | [h; w1; bz; ex; ey; ez; pr; lo; d0; d1; k0; k1; _; _; s0; s1] =>
      Some (mkLaunch (Z.land h 255) (Z.testbit h 8) (Z.land (Z.shiftr h 9) 3) (Z.land (Z.shiftr h 11) 3)
        (Z.shiftr h 16) (w1 mod 2 ^ 16, w1 / 2 ^ 16, bz) (ex, ey, ez) pr lo
        (Sdma.join d0 d1) (Sdma.join k0 k1) (Sdma.join s0 s1))
  | _ => None
  end.

Lemma dispatch_packet_decodes k bx by_ bz e descriptor kernarg signal_address :
  0 <= bx < 2 ^ 16 → 0 <= descriptor < 2 ^ 64 → 0 <= kernarg < 2 ^ 64 → 0 <= signal_address < 2 ^ 64 →
  decode (dispatch_packet k (bx, by_, bz) e descriptor kernarg signal_address)
  = Some (mkLaunch 2 true 2 2 3 (bx, by_, bz) e (private_bytes k) (local_bytes k) descriptor kernarg signal_address).
Proof.
  intros Hx Hd Hk Hs. destruct e as [[ex ey] ez]. unfold dispatch_packet, decode.
  rewrite !Sdma.join_halves by done. rewrite Z.lor_comm, Pm4.lor_shift by lia.
  rewrite Z.add_comm, Z.mod_add, Z.mod_small, Z.div_add, Z.div_small by lia. done.
Qed.

Lemma axis_extent_ok grid block required e :
  axis_extent grid block required = Ok e →
  e = grid * block ∧ block ≠ 0 ∧ grid ≠ 0 ∧ e <= Pm4.u32_max ∧ (required = 0 ∨ required = block).
Proof.
  unfold axis_extent. destruct (_ || _) eqn:E; [done|]. to_prop. case_bool; [|done]. intros [= <-].
  split_and!; try done; try lia.
Qed.

(** Sorting and removing duplicates keeps a handle of every allocation. *)
Lemma dedup_from_covers kept l b :
  b ∈ l → memory_id (memory b) = memory_id (memory kept) ∨
    ∃ b', b' ∈ dedup_from kept l ∧ memory_id (memory b') = memory_id (memory b).
Proof.
  revert kept. induction l as [|x l IH]; intros kept Hin; [set_solver|]. cbn [dedup_from].
  destruct (_ =? _)%nat eqn:E; to_prop; apply elem_of_cons in Hin as [->|Hin].
  - by left.
  - by apply IH.
  - right. exists x. split; [by left|done].
  - destruct (IH x Hin) as [Hx|(b' & Hb & He)]; right; [exists x|exists b']; split; try done; [by left|by right].
Qed.

Lemma bound_buffers_covers l b :
  b ∈ l → ∃ b', b' ∈ bound_buffers l ∧ memory_id (memory b') = memory_id (memory b).
Proof.
  intros Hin. unfold bound_buffers. rewrite <-(merge_sort_Permutation by_identity l) in Hin.
  destruct (merge_sort by_identity l) as [|x m]; [set_solver|]. cbn [dedup_backing].
  apply elem_of_cons in Hin as [->|Hin]; [exists x; split; [by left|done]|].
  destruct (dedup_from_covers x m b Hin) as [Hx|(b' & Hb & He)]; [exists x|exists b']; split; try done; [by left|by right].
Qed.

(** What [prepare] returns is the launch it was asked for: the last packet is
    an ordered kernel dispatch of the requested workgroup over the requested
    grid, for the kernel's code, the packed arguments and the signal; the first
    is the publication packet, whose commands lie in the 48-bit domain; every
    bound buffer, those of a clear kernel included, is retained; and the launch
    has passed every check. *)
Theorem prepared_packets_encode_the_launch maximum k gx gy gz bx by_ bz arguments k' cleared bytes bufs
    kernarg_storage kernarg_at code g publication_storage ib signal_buffer signal_at ps bound storage :
  prepare maximum k (gx, gy, gz) (bx, by_, bz) arguments
    (mkSupply true (Ok k') (Ok cleared) (Ok (bytes, bufs)) (Ok (kernarg_storage, kernarg_at)) (Ok code) (Ok g)
       (Ok (publication_storage, ib)) (Ok (signal_buffer, signal_at))) = Ok (ps, bound, storage) →
  0 <= bx < 2 ^ 16 → 0 <= code → 0 <= descriptor_offset k' →
  0 <= kernarg_at < 2 ^ 64 → 0 <= signal_at < 2 ^ 64 →
  private_bytes k <= maximum ∧ bx * by_ * bz <= 1024 ∧
  ib + Z.of_nat (length (invalidation g)) * 4 <= 2 ^ 48 ∧
  hd_error ps = Some (publish_packet ib (Z.of_nat (length (invalidation g)))) ∧
  last ps ≫= decode = Some (mkLaunch 2 true 2 2 3 (bx, by_, bz) (gx * bx, gy * by_, gz * bz)
    (private_bytes k') (local_bytes k') (code + descriptor_offset k') kernarg_at signal_at) ∧
  (∀ b, b ∈ bufs ++ match cleared with Some c => c.2 | None => [] end ++ [kernarg_storage; publication_storage] →
    ∃ b', b' ∈ bound ∧ memory_id (memory b') = memory_id (memory b)).
Proof.
  intros Hprep Hb Hcode Hoff Hk Hs. revert Hprep. unfold prepare.
  cbn [same_device specialized clear packed kernarg code_address gfx9 publication signal_storage negb].
  destruct (maximum <? private_bytes k) eqn:Em; [done|]. to_prop.
  destruct (launch_extents k (gx, gy, gz) (bx, by_, bz)) as [e|] eqn:El; [|done]. cbn [result_bind].
  destruct (checked_add code (descriptor_offset k')) as [descriptor|] eqn:Ed; [|done]. cbn [ok_or result_bind].
  destruct (_ || _) eqn:E48; [done|]. to_prop.
  assert (e = (gx * bx, gy * by_, gz * bz) ∧ bx * by_ * bz <= 1024) as [-> Hwg].
  { revert El. unfold launch_extents. destruct (workgroup_size k) as [[wx wy] wz]. intros El. inv_ok.
    apply axis_extent_ok in E, E0, E1. revert El. case_bool; [done|]. intros [= <-]. split; [|lia].
    f_equal; [f_equal|]; naive_solver. }
  apply checked_add_Some in Ed as [-> Hov]. unfold usize_max in Hov.
  set (tail := dispatch_packet _ _ _ _ _ _). destruct (match cleared with Some _ => _ | None => _ end) as [cp cb] eqn:Ec.
  assert (cb = match cleared with Some c => c.2 | None => [] end) as -> by (by destruct cleared as [[? ?]|]; injection Ec as <- <-).
  intros [= <- <- _]. split_and!; try done; try lia.
  - rewrite app_comm_cons, last_snoc. cbn [mbind option_bind]. apply dispatch_packet_decodes; lia.
  - intros b. apply bound_buffers_covers.
Qed.

(** ** Scratch *)

Lemma div_ceil_spec a b : 0 <= a → 0 < b → a <= div_ceil a b * b < a + b.
Proof. intros Ha Hb. unfold div_ceil. Z.to_euclidean_division_equations. nia. Qed.

(** An admitted scratch covers every wave: on a topology whose counts fit 32
    bits, the slots are a multiple of the engines and enough for every wave of
    every compute unit, and each gets 64 private segments in whole kilobytes,
    within 512 MiB. *)
Theorem admitted_scratch_covers_every_wave t private bytes slots :
  let engines := xcc_count t * shader_engine_count_per_xcc t in
  scratch_size t private = Ok (bytes, slots) →
  0 <= engines → 0 <= compute_unit_count t → compute_unit_count t + engines <= 2 ^ 32 →
  0 <= maximum_scratch_wave_count_per_compute_unit t < 2 ^ 32 → 0 < private < 2 ^ 32 →
  compute_unit_count t * maximum_scratch_wave_count_per_compute_unit t <= slots ∧ slots mod engines = 0 ∧
  0 < slots <= Pm4.u32_max ∧ private * 64 * slots <= bytes ∧ bytes mod (1024 * slots) = 0 ∧
  0 < bytes <= 512 * 1024 * 1024.
Proof.
  intros engines. unfold scratch_size. fold engines. intros H He Hc Hce Hw Hp. revert H. cbv zeta.
  assert (wrap64 engines = engines) as -> by (apply Z.mod_small; lia). destruct (engines =? 0) eqn:E0; [done|]. to_prop.
  pose proof (div_ceil_spec (compute_unit_count t) engines Hc ltac:(lia)) as Hd.
  set (units := div_ceil (compute_unit_count t) engines * engines) in *.
  set (waves := maximum_scratch_wave_count_per_compute_unit t) in *.
  assert (0 <= units * waves < 2 ^ 64) as Huw by nia.
  unfold wrap64. rewrite (Z.mod_small units) by lia. rewrite (Z.mod_small (units * waves)) by done.
  rewrite (Z.mod_small (private * 64)) by lia.
  pose proof (div_ceil_spec (private * 64) 1024 ltac:(lia) ltac:(lia)) as Hn. unfold next_multiple_of.
  set (per := div_ceil (private * 64) 1024) in *.
  destruct (checked_mul (per * 1024) (units * waves)) as [n|] eqn:Hm; [|done]. apply checked_mul_Some in Hm as [-> _].
  destruct (_ && _) eqn:E; [|done]. to_prop. intros [= <- <-].
  assert (compute_unit_count t * waves <= units * waves) by (apply Z.mul_le_mono_nonneg_r; lia).
  assert (slots_engines : (units * waves) mod engines = 0).
  { unfold units. replace (div_ceil (compute_unit_count t) engines * engines * waves)
      with (div_ceil (compute_unit_count t) engines * waves * engines) by lia. apply Z.mod_mul. lia. }
  generalize dependent (units * waves). intros slots **.
  assert (0 < slots) by (destruct (Z.eq_dec slots 0) as [->|]; [rewrite Z.mul_0_r in *|]; lia).
  split_and!; try lia.
  - apply Z.mul_le_mono_nonneg_r; lia.
  - replace (per * 1024 * slots) with (per * (1024 * slots)) by lia. apply Z.mod_mul. lia.
Qed.

(** A created queue is a valid start: its ring has a power of two, and at
    least two, packet slots, so a new queue over it is [initial]. *)
Theorem created_queues_are_initial features c private timestamps scratch profiled slots (leased : Store) :
  create features c private timestamps = Ok (scratch, profiled, slots) →
  (∀ cell, cell_uses leased cell = 0) →
  profiled = timestamps ∧
  initial (mkWorld leased ∅ (new_queue slots profiled (replicate (Z.to_nat slots) [])) (mkDevice 0 0 [] [] [] []) [] []).
Proof.
  unfold create. destruct (negb (is_gpu c)); [done|]. intros H Hcells. inv_ok. revert H. case_bool; [done|]. intros H. inv_ok.
  split; [done|].
  match goal with H : check_mapping _ = _ |- _ => revert H end.
  unfold check_mapping. case_bool; [done|]. intros _.
  match goal with H : is_power_of_two _ = true |- _ => apply power_of_two_spec in H as (k & Hk & Hlen) end.
  rewrite Hlen in *. assert (7 <= k) as H7 by (apply (Z.pow_le_mono_r_iff 2); lia).
  assert (2 ^ k / 64 = 2 ^ (k - 6)) as -> by (change 64 with (2 ^ 6); rewrite <-Z.pow_sub_r by lia; done).
  constructor; cbn; try done.
  - exists (k - 6). split; [lia|done].
  - rewrite length_replicate. rewrite Z2Nat.id; [done|]. apply Z.pow_nonneg. lia.
Qed.

(** ** A concrete queue *)

Definition demo_packets : list (list Z) := [publish_packet 4096 8; replicate 16 7].
Definition demo_buffers : list Buffer := [demo_buffer].
Definition demo_initial (profiled : bool) : World :=
  mkWorld (demo_store 0) ∅ (new_queue 4 profiled (replicate 4 [])) (mkDevice 0 0 [] [] [] []) [] [].
Definition demo_ready (profiled : bool) : World :=
  add_prepared (demo_initial profiled) 0 demo_packets demo_buffers.
Definition or_else (w : World) (o : option World) : World := default w o.
Definition demo_dispatched (profiled : bool) : World :=
  or_else (demo_ready profiled) (fst <$> dispatch (demo_ready profiled) 0).
Definition demo_fetched (profiled : bool) : World :=
  or_else (demo_ready profiled) (fetch (demo_dispatched profiled) ≫= fetch).
Definition demo_executed (profiled : bool) : World :=
  or_else (demo_ready profiled) (execute (demo_fetched profiled) (5, 9)).
Definition demo_observed : World := or_else (demo_ready true) (refresh_locked (demo_executed true) 0 1).
Definition demo_refreshed : World :=
  or_else (demo_ready true) (fst <$> completion_refresh (demo_executed true) 0 1).
Definition demo_drained : World :=
  or_else (demo_ready false) (drop_next (drop_begin (demo_executed false)) false true).
Definition demo_destroyed : World := or_else (demo_ready false) (drop_next demo_drained false true).

Lemma aql_demo_initial_ok profiled : initial (demo_initial profiled).
Proof.
  constructor; try done. - by exists 2. - intros cell. change (uses_of cell (others (demo_initial profiled))) with 0.
  unfold cell_uses, demo_initial, demo_store. cbn [store uses].
  destruct (decide (cell = 1%nat)) as [->|Hne]; [done|]. by rewrite lookup_singleton_ne.
Qed.

Lemma demo_ready_reachable profiled : reachable (demo_ready profiled).
Proof.
  exists (demo_initial profiled). split; [apply aql_demo_initial_ok|]. apply rtc_once. by apply step_prepare.
Qed.

(** A composed operation that gives a known world reaches it. *)
Lemma demo_step w w' : reachable w → step w w' → reachable w'.
Proof. intros (w0 & H0 & Hs) H. exists w0. split; [done|]. by eapply rtc_r. Qed.

Lemma demo_dispatched_reachable profiled : reachable (demo_dispatched profiled).
Proof.
  destruct (demo_ready_reachable profiled) as (w0 & H0 & Hs). exists w0. split; [done|]. etrans; [exact Hs|].
  assert (inv (demo_ready profiled)) as Hinv by (apply aql_reachable_inv, demo_ready_reachable).
  destruct (dispatch_spec (demo_ready profiled) 0 (mkPrepared demo_packets 0 (mkWork i64_max (0, 0) demo_buffers [] 0 0 None)) Hinv)
    as (w' & r & Hd & Hst & _); [by destruct profiled|done|].
  unfold demo_dispatched, or_else. by rewrite Hd.
Qed.

Lemma aql_demo_executed_reachable profiled : reachable (demo_executed profiled).
Proof.
  assert (∃ w1, fetch (demo_dispatched profiled) = Some w1 ∧ fetch w1 = Some (demo_fetched profiled)) as (w1 & H1 & H2).
  { destruct profiled; eexists; split; vm_compute; reflexivity. }
  apply (demo_step (demo_fetched profiled));
    [|apply (step_execute _ (5, 9)); destruct profiled; vm_compute; reflexivity].
  apply (demo_step w1); [|exact (step_fetch _ _ H2)].
  apply (demo_step (demo_dispatched profiled)); [|exact (step_fetch _ _ H1)]. apply demo_dispatched_reachable.
Qed.

Lemma demo_refreshed_reachable : reachable demo_refreshed.
Proof.
  replace demo_refreshed with (set_queue demo_observed (set_pending (queue demo_observed) []))
    by (vm_compute; reflexivity).
  apply (demo_step demo_observed).
  - apply (demo_step (demo_executed true)); [apply aql_demo_executed_reachable|].
    apply (step_refresh _ 0 (mkPrepared demo_packets 1 (mkWork (i64_max - 1) (5, 9) demo_buffers demo_buffers 1 0 (Some 0%nat))) 1);
      [vm_compute; reflexivity..|split; vm_compute; discriminate|vm_compute; reflexivity].
  - apply (step_pop _ 0 1 []); [split|..]; vm_compute; reflexivity.
Qed.

Lemma demo_destroyed_reachable : reachable demo_destroyed.
Proof.
  apply (demo_step demo_drained); [|apply (step_drain _ false true); vm_compute; reflexivity].
  apply (demo_step (drop_begin (demo_executed false))); [|apply (step_drain _ false true); vm_compute; reflexivity].
  apply (demo_step (demo_executed false)); [apply aql_demo_executed_reachable|].
  apply step_drop. split; vm_compute; reflexivity.
Qed.

Lemma aql_ring_refines_fifo_witness :
  fetched (device (demo_fetched false)) = demo_packets ∧
  write_index (queue (demo_executed false)) - read (device (demo_executed false)) <= 4.
Proof.
  destruct (aql_ring_refines_fifo (demo_executed false) (aql_demo_executed_reachable false)) as [Hf Hroom].
  split; [|exact Hroom]. exact Hf.
Defined.

Lemma aql_unfinished_dispatches_stay_leased_witness :
  0 < leases (store (demo_dispatched false)) demo_buffer ∧
  NativeMemory.write demo_control (store (demo_dispatched false)) demo_view 0 [1] = (store (demo_dispatched false), busy).
Proof.
  apply (aql_unfinished_dispatches_stay_leased demo_control (demo_dispatched false) 0 0 1 2
    (mkPrepared demo_packets 1 (mkWork i64_max (0, 0) demo_buffers demo_buffers 1 0 None)) demo_buffer demo_view 0 [1]
    (demo_dispatched_reachable false)); try (vm_compute; reflexivity); try (simpl; unfold usize_max; lia); try done.
  by left.
Defined.

Lemma aql_completion_is_sound_witness : (0 < executed (device demo_refreshed))%nat.
Proof.
  apply (aql_completion_is_sound demo_refreshed 0 0 1 2 demo_refreshed_reachable); vm_compute; reflexivity.
Defined.

Lemma aql_samples_identify_their_dispatch_witness :
  ∃ i stop, submitted (device demo_refreshed) !! i = Some (0%nat, 1, stop) ∧
    samples (device demo_refreshed) !! i = Some (5, 9).
Proof.
  destruct (aql_samples_identify_their_dispatch demo_refreshed 0 0 1 (Some (5, 9)) demo_refreshed_reachable)
    as (i & stop & Hi & Hs & _); [vm_compute; reflexivity..|].
  exists i, stop. split; [exact Hi|]. exact (proj2 (Hs _ eq_refl)).
Defined.

Lemma aql_dispatch_submits_once_witness :
  ∃ w' r, dispatch (demo_executed true) 0 = Some (w', r) ∧ reachable w'.
Proof.
  destruct (aql_dispatch_submits_once (demo_executed true) 0
    (mkPrepared demo_packets 1 (mkWork (i64_max - 1) (5, 9) demo_buffers demo_buffers 1 0 (Some 0%nat)))
    (aql_demo_executed_reachable true)) as (w' & r & Hd & Hr & _); [split|..]; [vm_compute; reflexivity..|].
  exists w', r. split; [exact Hd|exact Hr].
Defined.

Lemma aql_drained_queue_releases_everything_witness :
  ∃ w', reap (demo_executed false) = Some (w', Ok tt) ∧ pending (queue w') = [].
Proof.
  destruct (aql_drained_queue_releases_everything (demo_executed false) (aql_demo_executed_reachable false))
    as (w' & Hr & Hp & _); [split|..]; [vm_compute; reflexivity..|]. exists w'. split; [exact Hr|exact Hp].
Defined.

Lemma aql_queue_destroyed_idle_witness :
  executed (device demo_destroyed) = length (submitted (device demo_destroyed)).
Proof. apply (aql_queue_destroyed_idle demo_destroyed demo_destroyed_reachable). vm_compute. reflexivity. Defined.

Definition demo_kernel : KernelInfo := mkKernelInfo 0 128 64 (64, 1, 1).
Definition demo_supply : Supply :=
  mkSupply true (Ok demo_kernel) (Ok None) (Ok ([], demo_buffers)) (Ok (demo_buffer, 0x7000)) (Ok 0x100000000)
    (Ok false) (Ok (demo_import, 0x9000)) (Ok (demo_view, 0xa000)).
Lemma prepared_packets_encode_the_launch_witness :
  last [publish_packet 0x9000 8; dispatch_packet demo_kernel (64, 1, 1) (640, 2, 1) 0x100000040 0x7000 0xa000] ≫= decode
  = Some (mkLaunch 2 true 2 2 3 (64, 1, 1) (10 * 64, 2 * 1, 1 * 1) 0 128 (0x100000000 + 64) 0x7000 0xa000).
Proof.
  refine (proj1 (proj2 (proj2 (proj2 (proj2 (prepared_packets_encode_the_launch 0 demo_kernel 10 2 1 64 1 1 [] demo_kernel None []
    demo_buffers demo_buffer 0x7000 0x100000000 false demo_import 0x9000 demo_view 0xa000 _ [demo_buffer; demo_import]
    40 _ _ _ _ _ _)))))); try (vm_compute; reflexivity); try lia; vm_compute; discriminate.
Defined.

Lemma admitted_scratch_covers_every_wave_witness :
  scratch_size (mkTopology 1 2 40 32) 256 = Ok (20971520, 1280) ∧ 256 * 64 * 1280 <= 20971520.
Proof.
  assert (scratch_size (mkTopology 1 2 40 32) 256 = Ok (20971520, 1280)) as H by (vm_compute; reflexivity).
  split; [exact H|]. apply (admitted_scratch_covers_every_wave _ _ _ _ H); cbn; lia.
Defined.
End AqlTheorems.
