(* ===== verification/NativeSession.v ===== *)
(** * Native sessions

    Synchronous stages over private native state,
    src/src/execution/native_session.rs: [Entered], [NativeCooperator] with its
    checkpoints, [NativeSession::run] and [run_cooperative].

    A stage is a tree of the calls it makes: checkpoints through any
    cooperator it can reach, from any thread, nested sessions, a value or a
    panic.  Its branches see every result, so a stage may ignore errors and
    catch panics.  Fence outcomes are part of the stage; whether submissions
    wait and whether a lease is granted are arbitrary functions of what
    happened so far.  [trace] lists the events, newest first.

    The theorems show that compute is handed over only directly after a
    successful fence, that every lease is given back after the final fence on
    every exit path and the thread's session list is restored, and that a
    session is quarantined exactly when one of its fences failed, even if the
    stage hid the failure. *)

From S2P Require Import Prelude.

Module NativeSession.

(** The result of a fence closure, and of code that may panic. *)
Inductive FenceResult : Type := FenceOk | FenceErr (e : Error) | FencePanic.
Inductive Outcome (V : Type) : Type := Value (v : V) | Panicked.
Global Arguments Value {V} _.
Global Arguments Panicked {V}.

(** What a stage does.  [Checkpoint c thread contended conditional fence k] is
    a call on cooperator [c]; [contended] says that its lock is held. *)
Inductive Stage (V : Type) : Type :=
| Return (v : V)
| Unwind
| Checkpoint (c thread : nat) (contended conditional : bool) (fence : FenceResult)
    (k : Outcome (Result bool) → Stage V)
| Nested (s : nat) (inner : nat → Stage V) (final : FenceResult) (k : Outcome (Result V) → Stage V).
Global Arguments Return {V} _.
Global Arguments Unwind {V}.
Global Arguments Checkpoint {V} _ _ _ _ _ _.
Global Arguments Nested {V} _ _ _ _.

(** [NativeSession]: its runtime, and whether its state is still owned. *)
Record Session : Type := mkSession { runtime : nat; owned : bool }.
(** [Cooperation]. *)
Record Cooperation : Type := mkCooperation { owner : nat; lease : bool; failure : option Error }.

Inductive Event : Type :=
| Acquired (c : nat)
| Fenced (c : nat) (ok : bool)
| Yielded (c : nat)
| FinalFence (c : nat) (ok : bool)
| Released (c : nat).

Global Instance event_eq_dec : EqDecision Event.
Proof. solve_decision. Defined.

Record State : Type := mkState {
  sessions : gmap nat Session;
  active : list nat;
  cooperations : list Cooperation;
  trace : list Event }.

Definition emit (e : Event) (st : State) : State :=
  mkState (sessions st) (active st) (cooperations st) (e :: trace st).
Definition set_cooperation (c : nat) (x : Cooperation) (st : State) : State :=
  mkState (sessions st) (active st) (<[c := x]> (cooperations st)) (trace st).
Definition set_active (l : list nat) (st : State) : State :=
  mkState (sessions st) l (cooperations st) (trace st).

Definition fence_ok (f : FenceResult) : bool := match f with FenceOk => true | _ => false end.

Section Session.
Context {V : Type}.
(** The calling thread, the answers of [has_waiters] and [NativeLease::acquire]. *)
Context (me : nat) (waiters : list Event → bool) (acquire : list Event → Result unit).

(** [checkpoint_inner]. *)
Definition checkpoint_inner (st : State) (c thread : nat) (contended conditional : bool) (fence : FenceResult)
    : State * Outcome (Result bool) :=
  if contended then (st, Value (Err (Busy "native checkpoint already active")))
  else match cooperations st !! c with
  | None => (st, Value (Err (Busy "native checkpoint outside its calling stage")))
  | Some x =>
      if negb (owner x =? thread) || negb (lease x)
      then (st, Value (Err (Busy "native checkpoint outside its calling stage")))
      else match failure x with
      | Some e => (st, Value (Err (Execution e)))
      | None =>
          if conditional && negb (waiters (trace st)) then (st, Value (Ok false))
          else
            let st := emit (Fenced c (fence_ok fence)) st in
            match fence with
            | FenceErr e => (set_cooperation c (mkCooperation (owner x) (lease x) (Some e)) st, Value (Err (Execution e)))
            | FencePanic =>
                (set_cooperation c (mkCooperation (owner x) (lease x)
                   (Some (DeviceLost "native checkpoint fence panicked"))) st, Panicked)
            | FenceOk =>
                if waiters (trace st) then (emit (Yielded c) st, Value (Ok true)) else (st, Value (Ok false))
            end
      end
  end.

(** [run_cooperative] up to the stage: the checks, [Entered::new] and
    [NativeLease::acquire]. *)
Definition enter (s : nat) (st : State) : State * Result nat :=
  match sessions st !! s with
  | None => (st, Err (DeviceLost "native session is quarantined"))
  | Some x =>
      if negb (owned x) then (st, Err (DeviceLost "native session is quarantined"))
      else if bool_decide (runtime x ∈ active st)
      then (st, Err (Busy "recursive native session in the same runtime"))
      else match acquire (trace st) with
           | Err e => (st, Err e)
           | Ok _ =>
               let c := length (cooperations st) in
               (emit (Acquired c)
                  (mkState (sessions st) (active st ++ [runtime x])
                     (cooperations st ++ [mkCooperation me true None]) (trace st)), Ok c)
           end
  end.

(** [Drop for Entered]. *)
Definition drop_entered (id : nat) (l : list nat) : list nat := filter (λ i, i ≠ id) l.

(** The rest of [run_cooperative]: the final fence, the checkpoint failure,
    quarantine, and the drops of the lease and of [Entered]. *)
Definition leave (s c : nat) (final : FenceResult) (outcome : Outcome V) (st : State)
    : State * Outcome (Result V) :=
  let st := emit (FinalFence c (fence_ok final)) st in
  let checkpoint_failure := cooperations st !! c ≫= failure in
  let failed := match checkpoint_failure with Some _ => true | None => false end || negb (fence_ok final) in
  let id := match sessions st !! s with Some x => runtime x | None => 0 end in
  let owners := if failed then alter (λ x, mkSession (runtime x) false) s (sessions st) else sessions st in
  let st := mkState owners (active st) (<[c := mkCooperation me false None]> (cooperations st)) (trace st) in
  let st := emit (Released c) st in
  let st := set_active (drop_entered id (active st)) st in
  (st, match outcome with
       | Panicked => Panicked
       | Value v =>
           match final with
           | FencePanic => Panicked
           | FenceErr e => Value (Err e)
           | FenceOk => Value match checkpoint_failure with Some e => Err (Execution e) | None => Ok v end
           end
       end).

(** Running a stage. *)
Fixpoint exec (p : Stage V) (st : State) : State * Outcome V :=
  match p with
  | Return v => (st, Value v)
  | Unwind => (st, Panicked)
  | Checkpoint c thread contended conditional fence k =>
      let '(st, r) := checkpoint_inner st c thread contended conditional fence in exec (k r) st
  | Nested s inner final k =>
      match enter s st with
      | (st, Err e) => exec (k (Value (Err e))) st
      | (st, Ok c) =>
          let '(st, o) := exec (inner c) st in
          let '(st, r) := leave s c final o st in exec (k r) st
      end
  end.

(** [run_cooperative]; [run] is a stage that ignores its cooperator. *)
Definition run_cooperative (s : nat) (stage : nat → Stage V) (final : FenceResult) (st : State)
    : State * Outcome (Result V) :=
  match enter s st with
  | (st, Err e) => (st, Value (Err e))
  | (st, Ok c) => let '(st, o) := exec (stage c) st in leave s c final o st
  end.
Definition run (s : nat) (stage : Stage V) (final : FenceResult) (st : State) : State * Outcome (Result V) :=
  run_cooperative s (λ _, stage) final st.

(** ** Invariants of a thread's sessions *)

Definition event_of (e : Event) : nat :=
  match e with Acquired c | Fenced c _ | Yielded c | FinalFence c _ | Released c => c end.

(** Newest first: a hand-over follows a successful fence of the same stage, and
    a release its final fence. *)
Fixpoint handoffs_fenced (t : list Event) : Prop :=
  match t with
  | [] => True
  | e :: rest =>
      match e with
      | Yielded c => head rest = Some (Fenced c true)
      | Released c => ∃ ok, head rest = Some (FinalFence c ok)
      | _ => True
      end ∧ handoffs_fenced rest
  end.

Record wf (st : State) : Prop := {
  wf_handoffs : handoffs_fenced (trace st);
  wf_fresh : ∀ e, e ∈ trace st → event_of e < length (cooperations st);
  wf_failure : ∀ c x, cooperations st !! c = Some x → lease x = true →
    (is_Some (failure x) ↔ Fenced c false ∈ trace st);
  wf_acquired : ∀ c x, cooperations st !! c = Some x → Acquired c ∈ trace st;
  wf_released : ∀ c x, cooperations st !! c = Some x → (lease x = false ↔ Released c ∈ trace st) }.

(** What running code may change: its own leases come back, the sessions of
    runtimes that are already entered are untouched. *)
Record evolves (st st' : State) : Prop := {
  evolves_active : active st' = active st;
  evolves_length : length (cooperations st) ≤ length (cooperations st');
  evolves_lease : ∀ c x x', cooperations st !! c = Some x → cooperations st' !! c = Some x' →
    lease x' = lease x ∧ owner x' = owner x;
  evolves_new : ∀ c x, length (cooperations st) ≤ c → cooperations st' !! c = Some x → lease x = false;
  evolves_sessions : ∀ s x, sessions st !! s = Some x → runtime x ∈ active st → sessions st' !! s = Some x }.

Lemma evolves_refl st : evolves st st.
Proof.
  split; try done; [by intros; simplify_eq|]. intros c x Hc Hx. apply lookup_lt_Some in Hx. lia.
Qed.

Lemma evolves_trans st1 st2 st3 : evolves st1 st2 → evolves st2 st3 → evolves st1 st3.
Proof.
  intros [A1 L1 E1 N1 S1] [A2 L2 E2 N2 S2]. split; [congruence|lia| | |].
  - intros c x x' Hx Hx'. destruct (lookup_lt_is_Some_2 (cooperations st2) c) as [y Hy].
    { apply lookup_lt_Some in Hx. lia. }
    destruct (E1 _ _ _ Hx Hy), (E2 _ _ _ Hy Hx'). split; congruence.
  - intros c x Hc Hx. destruct (decide (length (cooperations st2) ≤ c)); [by eapply N2|].
    destruct (lookup_lt_is_Some_2 (cooperations st2) c) as [y Hy]; [lia|].
    destruct (E2 _ _ _ Hy Hx) as [-> _]. by eapply N1.
  - intros s x Hs Ha. apply S2; [by apply S1|by rewrite A1].
Qed.

Lemma wf_none st c : wf st → cooperations st !! c = None → ∀ e, e ∈ trace st → event_of e ≠ c.
Proof. intros H Hc e He <-. apply lookup_ge_None in Hc. apply H in He. lia. Qed.

(** Adding an event of a known cooperation that is not a release. *)
Lemma wf_emit st e :
  wf st → event_of e < length (cooperations st) → handoffs_fenced (e :: trace st) →
  (∀ c, e ≠ Released c) → (∀ c, e ≠ Fenced c false) → wf (emit e st).
Proof.
  intros [H1 H2 H3 H4 H5] Hlt Hh Hr Hf. split; cbn [trace emit cooperations]; [done|..].
  - intros e' [->|He]%elem_of_cons; auto.
  - intros c x Hx Hl. rewrite (H3 c x Hx Hl), elem_of_cons. naive_solver.
  - intros c x Hx. rewrite elem_of_cons. eauto.
  - intros c x Hx. rewrite (H5 c x Hx), elem_of_cons. naive_solver.
Qed.

(** A failed fence is recorded in the cooperation. *)
Lemma wf_fail st c x e :
  wf st → cooperations st !! c = Some x → lease x = true →
  wf (set_cooperation c (mkCooperation (owner x) (lease x) (Some e)) (emit (Fenced c false) st)).
Proof.
  intros [H1 H2 H3 H4 H5] Hx Hl. pose proof (lookup_lt_Some _ _ _ Hx) as Hlt.
  split; cbn [trace emit cooperations set_cooperation]; [done|..].
  - intros e' [->|He]%elem_of_cons; rewrite length_insert; [done|auto].
  - intros c' x' Hx' Hl'. rewrite elem_of_cons. apply list_lookup_insert_Some in Hx' as [(<- & <- & _)|[Hne Hx']].
    + split; [by left|by eexists].
    + rewrite (H3 c' x' Hx' Hl'). naive_solver.
  - intros c' x' Hx'. rewrite elem_of_cons. right. apply list_lookup_insert_Some in Hx' as [(<- & _)|[_ Hx']]; eauto.
  - intros c' x' Hx'. rewrite elem_of_cons. apply list_lookup_insert_Some in Hx' as [(<- & <- & _)|[_ Hx']].
    + rewrite (H5 c x Hx). naive_solver.
    + rewrite (H5 c' x' Hx'). naive_solver.
Qed.

Lemma evolves_emit e st : evolves st (emit e st).
Proof. destruct (evolves_refl st). by split. Qed.

Lemma evolves_failure c x e st :
  cooperations st !! c = Some x →
  evolves st (set_cooperation c (mkCooperation (owner x) (lease x) e) st).
Proof.
  intros Hx. split; cbn [set_cooperation active cooperations sessions]; try done; [by rewrite length_insert|..].
  - intros c' y y' Hy Hy'. apply list_lookup_insert_Some in Hy' as [(<- & <- & _)|[_ Hy']]; by simplify_eq.
  - intros c' y Hc Hy. apply lookup_lt_Some in Hy. rewrite length_insert in Hy. lia.
Qed.

Lemma checkpoint_spec st c thread contended conditional fence st' r :
  wf st → checkpoint_inner st c thread contended conditional fence = (st', r) →
  wf st' ∧ evolves st st'.
Proof.
  intros Hwf. unfold checkpoint_inner.
  destruct contended; [intros [= <- _]; eauto using evolves_refl|].
  destruct (cooperations st !! c) as [x|] eqn:Hx; [|intros [= <- _]; eauto using evolves_refl].
  destruct (negb (owner x =? thread) || negb (lease x)) eqn:El; [intros [= <- _]; eauto using evolves_refl|].
  to_prop. pose proof (lookup_lt_Some _ _ _ Hx) as Hlt.
  destruct (failure x) eqn:Ef; [intros [= <- _]; eauto using evolves_refl|].
  destruct (conditional && _); [intros [= <- _]; eauto using evolves_refl|].
  destruct fence; cbn [fence_ok].
  - assert (wf (emit (Fenced c true) st)) as Hf by (apply wf_emit; try done; split; [done|by apply Hwf]).
    destruct (waiters _); intros [= <- _]; [|split; [done|apply evolves_emit]].
    split; [|eapply evolves_trans; apply evolves_emit].
    apply wf_emit; try done. split; [done|by apply Hf].
  - intros [= <- _]. split; [by apply wf_fail|]. eapply evolves_trans; [apply evolves_emit|by apply evolves_failure].
  - intros [= <- _]. split; [by apply wf_fail|]. eapply evolves_trans; [apply evolves_emit|by apply evolves_failure].
Qed.

Lemma enter_Err s st st' e : enter s st = (st', Err e) → st' = st.
Proof. unfold enter. repeat case_match; naive_solver. Qed.

Lemma enter_Ok s st st' c :
  enter s st = (st', Ok c) →
  ∃ x, sessions st !! s = Some x ∧ owned x = true ∧ runtime x ∉ active st ∧ c = length (cooperations st) ∧
    st' = emit (Acquired c) (mkState (sessions st) (active st ++ [runtime x])
            (cooperations st ++ [mkCooperation me true None]) (trace st)).
Proof.
  unfold enter. destruct (sessions st !! s) as [x|]; [|done]. destruct (owned x) eqn:Eo; [|done]. cbn [negb].
  case_bool_decide as Ha; [done|]. destruct (acquire (trace st)); [|done]. intros [= <- <-]. by exists x.
Qed.

Lemma wf_enter s st st' c : wf st → enter s st = (st', Ok c) → wf st'.
Proof.
  intros Hwf (x & _ & _ & _ & -> & ->)%enter_Ok. set (c := length (cooperations st)).
  assert (∀ e, e ∈ trace st → event_of e ≠ c) as Hnone by (apply wf_none; [done|by apply lookup_ge_None]).
  destruct Hwf as [H1 H2 H3 H4 H5]. split; cbn [trace emit cooperations]; [done|..].
  - intros e [->|He]%elem_of_cons; rewrite length_app; cbn; [lia|]. apply H2 in He. lia.
  - intros c' y Hy Hl. rewrite elem_of_cons. apply lookup_app_Some in Hy as [Hy|[Hge Hy]].
    + rewrite (H3 c' y Hy Hl). naive_solver.
    + apply list_lookup_singleton_Some in Hy as [Hz <-]. assert (c' = c) as -> by lia. cbn.
      split; [by intros []|]. intros [?|He%Hnone]; done.
  - intros c' y Hy. rewrite elem_of_cons. apply lookup_app_Some in Hy as [Hy|[Hge Hy]]; [right; eauto|].
    apply list_lookup_singleton_Some in Hy as [Hz _]. left. f_equal. lia.
  - intros c' y Hy. rewrite elem_of_cons. apply lookup_app_Some in Hy as [Hy|[Hge Hy]].
    + rewrite (H5 c' y Hy). naive_solver.
    + apply list_lookup_singleton_Some in Hy as [Hz <-]. assert (c' = c) as -> by lia. cbn.
      split; [done|]. intros [?|He%Hnone]; done.
Qed.

(** The state of the session while its stage runs. *)
Lemma entered s st st1 c st2 :
  enter s st = (st1, Ok c) → wf st2 → evolves st1 st2 →
  ∃ x y, sessions st !! s = Some x ∧ owned x = true ∧ runtime x ∉ active st ∧ c = length (cooperations st) ∧
    sessions st2 !! s = Some x ∧ active st2 = active st ++ [runtime x] ∧
    cooperations st2 !! c = Some y ∧ lease y = true ∧ (is_Some (failure y) ↔ Fenced c false ∈ trace st2).
Proof.
  intros He Hwf [A L E N S]. apply enter_Ok in He as (x & Hs & Ho & Ha & -> & ->).
  cbn [emit sessions active cooperations trace] in *. rewrite length_app in L. cbn in L.
  destruct (lookup_lt_is_Some_2 (cooperations st2) (length (cooperations st))) as [y Hy]; [lia|].
  destruct (E (length (cooperations st)) (mkCooperation me true None) y) as [Hl _]; [by rewrite lookup_app_r, Nat.sub_diag|done|].
  exists x, y. split_and!; try done.
  - apply S; [done|]. set_solver.
  - by apply (wf_failure _ Hwf _ y).
Qed.

(** Writing the cooperation back without its lease, after the final fence. *)
Lemma wf_leave st c y ok ss a :
  wf st → cooperations st !! c = Some y →
  wf (mkState ss a (<[c := mkCooperation me false None]> (cooperations st))
        (Released c :: FinalFence c ok :: trace st)).
Proof.
  intros [H1 H2 H3 H4 H5] Hy. pose proof (lookup_lt_Some _ _ _ Hy) as Hlt.
  split; cbn [trace cooperations].
  - split; [by exists ok|]. by split.
  - intros e. rewrite length_insert, !elem_of_cons. intros [->|[->|He]]; cbn; auto.
  - intros c' x Hx Hl. rewrite !elem_of_cons. apply list_lookup_insert_Some in Hx as [(<- & <- & _)|[_ Hx]]; [done|].
    rewrite (H3 c' x Hx Hl). naive_solver.
  - intros c' x Hx. rewrite !elem_of_cons. right; right.
    apply list_lookup_insert_Some in Hx as [(<- & _)|[_ Hx]]; eauto.
  - intros c' x Hx. rewrite !elem_of_cons. apply list_lookup_insert_Some in Hx as [(<- & <- & _)|[Hne Hx]].
    + split; [by left|done].
    + rewrite (H5 c' x Hx). naive_solver.
Qed.

Lemma drop_entered_snoc id l : id ∉ l → drop_entered id (l ++ [id]) = l.
Proof.
  intros Hid. unfold drop_entered. rewrite filter_app, filter_cons_False, filter_nil, app_nil_r by naive_solver.
  induction l as [|x l IH]; [done|]. rewrite not_elem_of_cons in Hid.
  rewrite filter_cons_True by naive_solver. f_equal. naive_solver.
Qed.

(** One session around its stage. *)
Lemma leave_spec s st st1 c st2 final o st' r :
  enter s st = (st1, Ok c) → wf st2 → evolves st1 st2 → leave s c final o st2 = (st', r) →
  wf st' ∧ evolves st st' ∧ trace st' = Released c :: FinalFence c (fence_ok final) :: trace st2 ∧
  ∃ x, sessions st !! s = Some x ∧
    sessions st' !! s = Some (mkSession (runtime x) (bool_decide (Fenced c false ∉ trace st2) && fence_ok final)) ∧
    (∀ v, r = Value (Ok v) → o = Value v ∧ fence_ok final = true ∧ Fenced c false ∉ trace st2).
Proof.
  intros He Hwf Hev. destruct (entered _ _ _ _ _ He Hwf Hev)
    as (x & y & Hs & Ho & Ha & -> & Hs2 & Ha2 & Hy & Hl & Hfail).
  unfold leave. cbn [emit set_active sessions active cooperations trace]. rewrite Hs2, Hy, Ha2.
  cbn [mbind option_bind]. rewrite drop_entered_snoc by done.
  set (failed := (match failure y with Some _ => true | None => false end || _)).
  assert (failed = negb (bool_decide (Fenced (length (cooperations st)) false ∉ trace st2) && fence_ok final)) as Hf.
  { subst failed. rewrite negb_andb. f_equal. destruct (failure y); case_bool_decide; naive_solver. }
  intros [= <- <-]. split_and!; [by eapply wf_leave| |done|].
  - apply enter_Ok in He as (x' & Hs' & _ & _ & _ & ->). destruct Hev as [_ L E N S].
    cbn [emit sessions active cooperations trace] in *. rewrite length_app in L. cbn in L.
    split; cbn [active cooperations sessions set_active emit]; [done|rewrite length_insert; lia|..].
    + intros c z z' Hz Hz'. pose proof (lookup_lt_Some _ _ _ Hz).
      apply list_lookup_insert_Some in Hz' as [(? & _ & _)|[_ Hz']]; [lia|].
      by apply (E c); [apply lookup_app_l_Some|].
    + intros c z Hc Hz. apply list_lookup_insert_Some in Hz as [(_ & <- & _)|[Hne Hz]]; [done|].
      apply (N c); [rewrite length_app; cbn; lia|done].
    + intros s' z Hz Hin. assert (s' ≠ s) by (intros ->; naive_solver).
      rewrite <-(S s' z Hz) by set_solver. destruct failed; [by rewrite lookup_alter_ne|done].
  - exists x. split; [done|]. cbn [sessions set_active emit]. split.
    + rewrite <-(negb_involutive (_ && _)), <-Hf. destruct failed; cbn [negb].
      * by rewrite lookup_alter_eq, Hs2.
      * rewrite Hs2. destruct x as [rt ow]. cbn in Ho. by subst.
    + intros v Hr. destruct o as [v'|]; [|done]. destruct final; try done.
      destruct (failure y) eqn:Ey; [done|]. injection Hr as ->. split_and!; [done|done|].
      intros Hin. apply Hfail in Hin as [? ?]. done.
Qed.

Lemma exec_spec p st st' o : wf st → exec p st = (st', o) → wf st' ∧ evolves st st'.
Proof.
  revert st st' o. induction p as [v| |c thread contended conditional fence k IH|s inner IHinner final k IHk];
    intros st st' o Hwf; cbn [exec].
  - intros [= <- _]. eauto using evolves_refl.
  - intros [= <- _]. eauto using evolves_refl.
  - destruct (checkpoint_inner _ _ _ _ _ _) as [st1 r] eqn:Hc. apply checkpoint_spec in Hc as [Hwf1 He1]; [|done].
    intros [Hwf2 He2]%IH; [|done]. split; [done|by eapply evolves_trans].
  - destruct (enter s st) as [st1 [c|e]] eqn:He.
    + destruct (exec (inner c) st1) as [st2 o2] eqn:Hx. destruct (leave s c final o2 st2) as [st3 r] eqn:Hl.
      apply IHinner in Hx as [Hwf2 He2]; [|by eapply wf_enter].
      destruct (leave_spec _ _ _ _ _ _ _ _ _ He Hwf2 He2 Hl) as (Hwf3 & He3 & _).
      intros [Hwf4 He4]%IHk; [|done]. split; [done|by eapply evolves_trans].
    + apply enter_Err in He as ->. by apply IHk.
Qed.

Lemma run_spec s stage final st st' r :
  wf st → run_cooperative s stage final st = (st', r) → wf st' ∧ evolves st st'.
Proof.
  intros Hwf. unfold run_cooperative. destruct (enter s st) as [st1 [c|e]] eqn:He.
  - destruct (exec (stage c) st1) as [st2 o] eqn:Hx. apply exec_spec in Hx as [Hwf2 He2]; [|by eapply wf_enter].
    intros Hl. by destruct (leave_spec _ _ _ _ _ _ _ _ _ He Hwf2 He2 Hl) as (? & ? & _).
  - intros [= <- _]. apply enter_Err in He as ->. eauto using evolves_refl.
Qed.

(** A thread's calls, one after the other. *)
Definition calls (l : list (nat * (nat → Stage V) * FenceResult)) (st : State) : State :=
  foldl (λ st call, (run_cooperative call.1.1 call.1.2 call.2 st).1) st l.

Lemma calls_spec l st : wf st → wf (calls l st) ∧ evolves st (calls l st).
Proof.
  revert st. induction l as [|call l IH]; intros st Hwf; cbn [calls foldl]; [eauto using evolves_refl|].
  destruct (run_cooperative call.1.1 call.1.2 call.2 st) as [st1 r] eqn:Hr. cbn [fst].
  apply run_spec in Hr as [Hwf1 He1]; [|done]. destruct (IH st1 Hwf1). split; [done|by eapply evolves_trans].
Qed.

Definition start (ss : gmap nat Session) : State := mkState ss [] [] [].

Lemma wf_start ss : wf (start ss).
Proof. split; cbn; [done|by intros e ?%elem_of_nil|done..]. Qed.

(** Sessions never hand compute over unfenced and never keep it: for any
    sessions and any stages, nested stages, caught panics and failing fences
    included, every yield of the compute lane directly follows a successful
    fence of that stage, and when the calls return every lease that was
    acquired has been released, directly after the final fence of its stage,
    and the thread's list of entered runtimes is empty again. *)
Theorem sessions_hand_over_fenced (ss : gmap nat Session) l :
  let st := calls l (start ss) in
  handoffs_fenced (trace st) ∧ active st = [] ∧
  (∀ c, Acquired c ∈ trace st → Released c ∈ trace st) ∧
  ∀ c x, cooperations st !! c = Some x → lease x = false.
Proof.
  intros st. assert (wf st ∧ evolves (start ss) st) as [[H1 H2 H3 H4 H5] [A L E N S]]
    by (apply calls_spec, wf_start).
  assert (∀ c x, cooperations st !! c = Some x → lease x = false) as Hl.
  { intros c x Hx. apply (N c); [cbn; lia|done]. }
  split_and!; try done. intros c Hc. apply H2 in Hc. cbn in Hc.
  destruct (lookup_lt_is_Some_2 _ _ Hc) as [x Hx]. by apply (H5 c x Hx), (Hl c x Hx).
Qed.

(** A session is quarantined exactly when one of its fences failed: after a
    stage ran, the session still owns its state if and only if the final fence
    and every checkpoint fence of this stage succeeded, even when the stage
    caught the panic or ignored the error; a success is returned only in that
    case, and a quarantined session refuses every further stage without any
    effect. *)
Theorem quarantine_iff_a_fence_failed ss l s stage final x st' r :
  let st := calls l (start ss) in
  let c := length (cooperations st) in
  sessions st !! s = Some x →
  run_cooperative s stage final st = (st', r) →
  if negb (owned x) then st' = st ∧ r = Value (Err (DeviceLost "native session is quarantined"))
  else match acquire (trace st) with
       | Err e => st' = st ∧ r = Value (Err e)
       | Ok _ =>
           owned <$> sessions st' !! s = Some (bool_decide (Fenced c false ∉ trace st') && fence_ok final) ∧
           ∀ v, r = Value (Ok v) → owned <$> sessions st' !! s = Some true
       end.
Proof.
  intros st c Hs Hrun. assert (wf st ∧ evolves (start ss) st) as [Hwf Hev] by (apply calls_spec, wf_start).
  unfold run_cooperative in Hrun. destruct (enter s st) as [st1 [c'|e]] eqn:He.
  2:{ injection Hrun as <- <-. pose proof He as He'. apply enter_Err in He' as ->. unfold enter in He. rewrite Hs in He.
      destruct (owned x); [|cbn; injection He as <-; done]. cbn [negb] in *. case_bool_decide as Hin.
      - rewrite (evolves_active _ _ Hev) in Hin. by apply elem_of_nil in Hin.
      - destruct (acquire (trace st)); by simplify_eq. }
  destruct (exec (stage c') st1) as [st2 o] eqn:Hx.
  apply exec_spec in Hx as [Hwf2 He2]; [|by eapply wf_enter].
  destruct (leave_spec _ _ _ _ _ _ _ _ _ He Hwf2 He2 Hrun) as (_ & _ & Ht & x' & Hs' & Hs3 & Hok).
  destruct (entered _ _ _ _ _ He Hwf2 He2) as (x'' & y & Hs'' & Ho & _ & Hc & _). change (c' = c) in Hc. subst c'.
  assert (x' = x ∧ x'' = x) as [-> ->] by (split; congruence). unfold enter in He. rewrite Hs, Ho in He. rewrite Ho. cbn [negb] in *.
  destruct (bool_decide (runtime x ∈ active st)); [done|]. destruct (acquire (trace st)); [|done].
  rewrite Hs3. cbn [fmap option_fmap option_map owned].
  assert (Fenced c false ∈ trace st' ↔ Fenced c false ∈ trace st2) as Hiff.
  { rewrite Ht, !elem_of_cons. naive_solver. }
  split.
  - do 2 f_equal. apply bool_decide_ext. by rewrite Hiff.
  - intros v Hv. destruct (Hok v Hv) as (_ & -> & Hn). by rewrite bool_decide_eq_true_2.
Qed.

(** A session entered on a runtime refuses other sessions of that runtime on
    the same thread. *)
Lemma recursive_session_refused s stage final x st :
  sessions st !! s = Some x → owned x = true → runtime x ∈ active st →
  run_cooperative s stage final st
    = (st, Value (Err (Busy "recursive native session in the same runtime"))).
Proof.
  intros Hs Ho Hin. unfold run_cooperative, enter. by rewrite Hs, Ho, bool_decide_eq_true_2.
Qed.
End Session.

(** ** Witnesses *)

(** A stage that yields once and then hides a panicking fence. *)
Definition demo_stage (c : nat) : Stage Z :=
  Checkpoint c 0 false false FenceOk (λ _,
    Checkpoint c 0 false true FencePanic (λ _,
      Nested 8 (λ _, Return 3%Z) FenceOk (λ _, Return 5%Z))).
Definition demo_sessions : gmap nat Session := {[7 := mkSession 0 true; 8 := mkSession 0 true]}.

Lemma quarantine_iff_a_fence_failed_witness :
  let run st := run_cooperative 0 (λ _, true) (λ _, Ok tt) 7 demo_stage FenceOk st in
  trace (run (start demo_sessions)).1
    = [Released 0; FinalFence 0 true; Fenced 0 false; Yielded 0; Fenced 0 true; Acquired 0] ∧
  owned <$> sessions (run (start demo_sessions)).1 !! 7 = Some false.
Proof.
  intros run. split; [vm_compute; reflexivity|]. unfold run.
  destruct (run_cooperative 0 (λ _, true) (λ _, Ok tt) 7 demo_stage FenceOk (start demo_sessions)) as [st' r] eqn:E.
  pose proof (quarantine_iff_a_fence_failed 0 (λ _, true) (λ _, Ok tt) demo_sessions [] 7 demo_stage FenceOk
    (mkSession 0 true) st' r ltac:(reflexivity) E) as H.
  cbn [negb owned fst calls foldl] in *. destruct H as [-> _].
  assert (Fenced 0 false ∈ trace st') as Hin.
  { apply (f_equal (λ p, trace p.1)) in E. cbn [fst] in E. rewrite <-E. vm_compute. repeat constructor. }
  by rewrite bool_decide_eq_false_2 by (by intros []).
Defined.
End NativeSession.
