(* ===== verification/SafeTensors.v ===== *)
(** * Indexed SafeTensors files

    Model of src/src/artifacts/safetensors.rs (indexing, bounds, page advice)
    and src/src/artifacts/mapped_pages.rs (chunked population).  Reading the
    header is the safetensors crate's; file contents are a list of bytes.  The
    theorems show that every indexed tensor lies inside the file so that lookups
    never run out of bounds, that page advice covers or stays inside the
    requested bytes, and that population visits every page chunk once and
    reports a real failure whatever the worker schedule. *)

From S2P Require Import Prelude Access.
Local Open Scope Z_scope.

Module SafeTensors.

(** [DType], [DType::bytes]. *)
Inductive DType : Type :=
| BOOL | F4 | F6_E2M3 | F6_E3M2 | U8 | I8 | F8_E5M2 | F8_E4M3 | F8_E8M0 | F8_E4M3FNUZ | F8_E5M2FNUZ
| I16 | U16 | F16 | BF16 | I32 | U32 | F32 | C64 | F64 | I64 | U64 | Unknown.
Global Instance dtype_eq_dec : EqDecision DType.
Proof. solve_decision. Defined.
Definition dtype_bytes (t : DType) : option Z :=
  match t with
  | F4 | F6_E2M3 | F6_E3M2 | Unknown => None
  | BOOL | U8 | I8 | F8_E5M2 | F8_E4M3 | F8_E8M0 | F8_E4M3FNUZ | F8_E5M2FNUZ => Some 1
  | I16 | U16 | F16 | BF16 => Some 2
  | I32 | U32 | F32 => Some 4
  | C64 | F64 | I64 | U64 => Some 8
  end.

(** [Entry]. *)
Record Entry : Type := mkEntry { dtype : DType; shape : list Z; offset : Z; bytes : Z }.

(** [Entry::elements], [rows], [row_bytes]. *)
Fixpoint elements_from (count : Z) (shape : list Z) : Result Z :=
  match shape with
  | [] => Ok count
  | d :: rest =>
      let? n := ok_or (checked_mul count d) (Message "SafeTensors element count overflow") in elements_from n rest
  end.
Definition elements (e : Entry) : Result Z := elements_from 1 (shape e).
Definition rows (e : Entry) : Z := default 1 (head (shape e)).
Definition row_bytes (e : Entry) : Result Z :=
  if (rows e =? 0) || negb (bytes e mod rows e =? 0)
  then Err (Message "tensor bytes are not a whole number of rows")
  else Ok (bytes e / rows e).

(** [Storage], [FileView]: [base] is the address of the bytes, [file] the
    descriptor kept for a mapped file. *)
Inductive Storage : Type := Owned (contents : list Z) | Mapped (contents : list Z).
Definition storage_bytes (s : Storage) : list Z := match s with Owned b | Mapped b => b end.
Definition storage_len (s : Storage) : Z := Z.of_nat (length (storage_bytes s)).
Record FileView : Type := mkFile {
  path : string;
  storage : Storage;
  base : Z;
  file : option nat;
  data : Z;
  entries : gmap string Entry }.

(** A tensor of the parsed header: [safetensors::tensor::TensorInfo]. *)
Record TensorInfo : Type := mkInfo { info_dtype : DType; info_shape : list Z; data_offsets : Z * Z }.

(** The loop over [metadata.tensors()]. *)
Fixpoint index_tensors (data_bytes : Z) (tensors : list (string * TensorInfo)) (m : gmap string Entry)
    : Result (gmap string Entry) :=
  match tensors with
  | [] => Ok m
  | (name, info) :: rest =>
      let '(lo, hi) := data_offsets info in
      if (hi <? lo) || (data_bytes <? hi) then
        Err (Message ("tensor " +:+ name +:+ " exceeds the SafeTensors data block"))
      else
        match m !! name with
        | Some _ => Err (Message ("duplicate tensor " +:+ name))
        | None => index_tensors data_bytes rest (<[name := mkEntry (info_dtype info) (info_shape info) lo (hi - lo)]> m)
        end
  end.

Section FileView.
(** [SafeTensors::read_metadata]. *)
Variable read_metadata : list Z → Result (Z * list (string * TensorInfo)).

(** [FileView::from_storage]. *)
Definition from_storage (p : string) (s : Storage) (base_address : Z) : Result FileView :=
  match read_metadata (storage_bytes s) with
  | Err e => Err (Message (p +:+ " is not SafeTensors: " +:+ error_to_string e))
  | Ok (header, tensors) =>
      let? d := ok_or (checked_add 8 header) (Message "SafeTensors header size overflow") in
      let? n := ok_or (checked_sub (storage_len s) d) (Message "SafeTensors header exceeds the file") in
      let? m := index_tensors n tensors ∅ in
      Ok (mkFile p s base_address None d m)
  end.

(** [FileView::read] and [FileView::map], after the file contents are available. *)
Definition read (p : string) (contents : list Z) (base_address : Z) : Result FileView :=
  from_storage p (Owned contents) base_address.
Definition map (p : string) (contents : list Z) (base_address : Z) (descriptor : nat) : Result FileView :=
  let? v := from_storage p (Mapped contents) base_address in
  Ok (mkFile (path v) (storage v) (base v) (Some descriptor) (data v) (entries v)).
End FileView.

(** [slice.get(start..end)]; indexing panics where this is [None]. *)
Definition get_slice (s : list Z) (lo hi : Z) : option (list Z) :=
  if (lo <=? hi) && (hi <=? Z.of_nat (length s))
  then Some (take (Z.to_nat (hi - lo)) (drop (Z.to_nat lo) s)) else None.

(** [Tensor], [FileView::contains], [FileView::get]; [None] is a panic. *)
Record Tensor : Type := mkTensor { t_dtype : DType; t_shape : list Z; t_bytes : list Z }.
Definition contains (v : FileView) (name : string) : bool := bool_decide (is_Some (entries v !! name)).
Definition get (v : FileView) (name : string) : option (Result Tensor) :=
  match entries v !! name with
  | None => Some (Err (Message ("missing tensor " +:+ name +:+ " in " +:+ path v)))
  | Some e =>
      let lo := data v + offset e in
      b ← get_slice (storage_bytes (storage v)) lo (lo + bytes e);
      Some (Ok (mkTensor (dtype e) (shape e) b))
  end.

(** [FileView::bytes]. *)
Definition entry_bytes (v : FileView) (e : Entry) : Result (list Z) :=
  let? lo := ok_or (checked_add (data v) (offset e)) (Message "SafeTensors offset overflow") in
  let? hi := ok_or (checked_add lo (bytes e)) (Message "SafeTensors range overflow") in
  ok_or (get_slice (storage_bytes (storage v)) lo hi) (Message "SafeTensors entry exceeds the file").

(** [FileView::file_range]. *)
Definition file_range (v : FileView) (e : Entry) (o n : Z) : Result (nat * Z) :=
  if match checked_add o n with Some hi => bytes e <? hi | None => true end
  then Err (Message "tensor subrange exceeds entry")
  else
    let? lo := ok_or (s ← checked_add (data v) (offset e); checked_add s o) (Message "SafeTensors offset overflow") in
    if match checked_add lo n with Some hi => storage_len (storage v) <? hi | None => true end
    then Err (Message "SafeTensors entry exceeds file")
    else
      let? f := ok_or (file v) (Unsupported "owned SafeTensors snapshots have no backing file") in
      Ok (f, lo).

(** [FileView::get_checked]; the [Debug] renderings of the message are elided. *)
Definition shape_matches (actual expected : list Z) : bool :=
  (length actual =? length expected)%nat
  && forallb (λ '(a, e), (e <? 0) || (e =? a)) (zip actual expected).
Definition get_checked (v : FileView) (name : string) (t : DType) (expected : list Z) : option (Result Tensor) :=
  r ← get v name;
  Some (let? tensor := r in
        if negb (bool_decide (t_dtype tensor = t)) || negb (shape_matches (t_shape tensor) expected)
        then Err (Message (name +:+ " has another type or shape in " +:+ path v))
        else Ok tensor).

(** [advise_pages]: [x & !mask] on 64-bit words. *)
Definition page_floor (x mask : Z) : Z := clear_mask x mask.
Definition advise_pages (map_base map_len range_base range_len page : Z) (outward : bool) : option (Z * Z) :=
  map_end ← checked_add map_base map_len;
  range_end ← checked_add range_base range_len;
  if (page =? 0) || negb (is_power_of_two page) || (range_base <? map_base) || (map_end <? range_end) then None
  else
    let mask := page - 1 in
    '(lo, hi) ←
      (if outward then hi ← checked_add range_end mask; Some (page_floor range_base mask, page_floor hi mask)
       else lo ← checked_add range_base mask; Some (page_floor lo mask, page_floor range_end mask));
    if lo <? hi then Some (lo, hi) else None.

(** [PagePreparation], [FileView::prepare_bytes] on a slice at [address];
    [page] is the page size and [populate] the population of mapped pages. *)
Inductive PagePreparation : Type := Resident | Populated | Advised.
Definition prepare_bytes (populate : Z → Z → Result bool) (page : Z) (v : FileView) (address len : Z)
    : Result PagePreparation :=
  if len =? 0 then Ok Resident
  else if (address <? base v) || match checked_add address len with
            | Some hi => base v + storage_len (storage v) <? hi | None => true end
  then Err (Message "page preparation range is outside its file")
  else
    match storage v with
    | Owned _ => Ok Resident
    | Mapped _ =>
        if page <=? 0 then Err (Io "page size unavailable")
        else
          let? (lo, hi) := ok_or (advise_pages (base v) (storage_len (storage v)) address len page true)
                              (Message "invalid page preparation range") in
          let? populated := populate lo (hi - lo) in
          Ok (if populated then Populated else Advised)
    end.

(** ** Mapped pages *)

(** An OS error code; [unsupported]: EINVAL, ENOSYS, EOPNOTSUPP. *)
Definition unsupported (code : Z) : bool := (code =? 22) || (code =? 38) || (code =? 95).

Definition chunk_bytes : Z := 16 * 2 ^ 20.
Definition max_workers : Z := 16.

(** [length.div_ceil(CHUNK_BYTES)] and the range of chunk [index]. *)
Definition chunk_count (len : Z) : Z := (len + chunk_bytes - 1) / chunk_bytes.
Definition chunk (begin len index : Z) : Z * Z :=
  (begin + index * chunk_bytes, Z.min chunk_bytes (len - index * chunk_bytes)).

(** The closure [run] of one worker on the chunks it takes from the counter:
    the first error, or the first real one. *)
Definition keep_error (previous error : option Z) : option Z :=
  match error with
  | None => previous
  | Some e => match previous with None => Some e | Some p => if unsupported p then Some e else Some p end
  end.
Definition worker (operation : Z → Z → option Z) (begin len : Z) (indices : list Z) : option Z :=
  foldl (λ acc i, keep_error acc (operation (chunk begin len i).1 (chunk begin len i).2)) None indices.

(** [chunks]: the calling thread's result, then the joined workers'. *)
Definition chunks (operation : Z → Z → option Z) (begin len : Z) (schedule : list (list Z)) : option Z :=
  foldl (λ acc indices, keep_error acc (worker operation begin len indices)) None schedule.

(** [populate]: [advise] is the fallback [madvise]. *)
Definition populate (operation : Z → Z → option Z) (advise : Z → Z → option Z) (begin len : Z)
    (schedule : list (list Z)) : Result bool :=
  match chunks operation begin len schedule with
  | None => Ok true
  | Some e =>
      if unsupported e then
        match advise begin len with None => Ok false | Some e => Err (Io (pretty e)) end
      else Err (Io (pretty e))
  end.

(** ** Indexed tensors lie in the file *)

Definition in_block (n : Z) (e : Entry) : Prop := 0 <= offset e ∧ 0 <= bytes e ∧ offset e + bytes e <= n.

Lemma index_tensors_spec n tensors m m' :
  Forall (λ t, 0 <= (data_offsets t.2).1) tensors → index_tensors n tensors m = Ok m' →
  (∀ name e, m !! name = Some e → in_block n e) → ∀ name e, m' !! name = Some e → in_block n e.
Proof.
  revert m. induction tensors as [|[name info] tensors IH]; intros m Hpos Hi Hm; simpl in Hi.
  { by injection Hi as <-. }
  apply Forall_cons in Hpos as [Hlo Hpos]. simpl in Hlo. destruct (data_offsets info) as [lo hi]. simpl in Hlo.
  destruct ((hi <? lo) || (n <? hi)) eqn:E; [done|]. to_prop. destruct (m !! name); [done|].
  eapply IH; [done|exact Hi|]. intros k e. rewrite lookup_insert_Some.
  intros [[<- <-]|[_ Hk]]; [unfold in_block; simpl; lia|eauto].
Qed.

Lemma from_storage_spec read_metadata p s b v :
  (∀ h ts, read_metadata (storage_bytes s) = Ok (h, ts) → 0 <= h ∧ Forall (λ t, 0 <= (data_offsets t.2).1) ts) →
  from_storage read_metadata p s b = Ok v →
  storage v = s ∧ base v = b ∧ path v = p ∧ 0 <= data v ∧ data v <= storage_len s
  ∧ ∀ name e, entries v !! name = Some e → in_block (storage_len s - data v) e.
Proof.
  intros Hmeta. unfold from_storage. destruct (read_metadata (storage_bytes s)) as [[h ts]|] eqn:Er; [|done].
  destruct (Hmeta h ts eq_refl) as [Hh Hts]. intros H. inv_ok. rename a into d, a0 into n, a1 into m.
  destruct (checked_add 8 h) as [d'|] eqn:Ed; [|done]. injection E as <-.
  destruct (checked_sub (storage_len s) d') as [n'|] eqn:En; [|done]. injection E0 as <-.
  apply checked_add_Some in Ed as [-> _]. apply checked_sub_Some in En as [-> ?]. simpl.
  split_and!; [done..|lia|lia|]. eapply index_tensors_spec; [exact Hts|done|].
  intros name e He. by rewrite lookup_empty in He.
Qed.

Lemma get_slice_Some s lo hi :
  0 <= lo <= hi → hi <= Z.of_nat (length s) →
  ∃ b, get_slice s lo hi = Some b ∧ Z.of_nat (length b) = hi - lo.
Proof.
  intros Hl Hh. unfold get_slice. rewrite !(proj2 (Z.leb_le _ _)) by lia. simpl. eexists. split; [done|].
  rewrite length_take, length_drop. lia.
Qed.

Lemma get_slice_sub s lo hi b o n :
  0 <= lo → get_slice s lo hi = Some b → 0 <= o → 0 <= n → o + n <= hi - lo →
  get_slice s (lo + o) (lo + o + n) = get_slice b o (o + n).
Proof.
  intros Hlo Hg Ho Hn Hb. unfold get_slice in *.
  destruct ((lo <=? hi) && (hi <=? Z.of_nat (length s))) eqn:E; [|done]. to_prop. injection Hg as <-.
  rewrite length_take, length_drop.
  rewrite !(proj2 (Z.leb_le _ _)) by lia. simpl. f_equal.
  replace (lo + o + n - (lo + o)) with n by lia. replace (o + n - o) with n by lia.
  rewrite skipn_firstn_comm, take_take, drop_drop. f_equal; [lia|]. f_equal. lia.
Qed.

(** Every indexed tensor lies inside its file: looking a name up never
    panics, the borrowed bytes have exactly the indexed length, [bytes] returns
    the same slice, and for a mapped file [file_range] gives the file position
    at which any subrange of the tensor's bytes is stored. *)
Theorem indexed_tensors_are_in_bounds read_metadata p contents b fd v name e :
  (∀ h ts, read_metadata contents = Ok (h, ts) → 0 <= h ∧ Forall (λ t, 0 <= (data_offsets t.2).1) ts) →
  Z.of_nat (length contents) <= usize_max →
  map read_metadata p contents b fd = Ok v → entries v !! name = Some e →
  ∃ bs, get v name = Some (Ok (mkTensor (dtype e) (shape e) bs)) ∧ Z.of_nat (length bs) = bytes e
    ∧ entry_bytes v e = Ok bs
    ∧ ∀ o n, 0 <= o → 0 <= n → o + n <= bytes e →
        ∃ lo, file_range v e o n = Ok (fd, lo) ∧ get_slice contents lo (lo + n) = get_slice bs o (o + n).
Proof.
  intros Hmeta Hlen Hmap He. unfold map in Hmap. inv_ok. rename a into v0. simpl in He.
  destruct (from_storage_spec _ _ _ _ _ Hmeta E) as (Hs & _ & Hp & Hd & Hdl & Hin).
  destruct (Hin _ _ He) as (Ho & Hb & Hob). unfold storage_len in *. simpl in *. rewrite Hs in *. simpl in *.
  destruct (get_slice_Some contents (data v0 + offset e) (data v0 + offset e + bytes e)) as (bs & Hg & Hl); [lia|lia|].
  exists bs. unfold get, entry_bytes, file_range, storage_len, checked_add. simpl. rewrite He. simpl. rewrite Hg. simpl.
  split_and!; [done|lia| |].
  - rewrite (proj2 (Z.leb_le (data v0 + offset e) _)) by lia. simpl. rewrite (proj2 (Z.leb_le _ _)) by lia. simpl. by rewrite Hg.
  - intros o n Hno Hn Hon. rewrite !(proj2 (Z.leb_le _ _)) by lia. rewrite (proj2 (Z.ltb_ge _ _)) by lia. simpl.
    rewrite !(proj2 (Z.leb_le _ _)) by lia. simpl. rewrite !(proj2 (Z.leb_le _ _)) by lia.
    rewrite (proj2 (Z.ltb_ge _ _)) by lia. simpl. eexists. split; [done|].
    eapply get_slice_sub; [|exact Hg|lia..]. lia.
Qed.

(** ** Pages *)

Lemma page_floor_spec x k :
  0 <= x <= usize_max → 0 <= k <= 64 → page_floor x (2 ^ k - 1) = x / 2 ^ k * 2 ^ k.
Proof. apply clear_mask_spec. Qed.

(** Page advice is aligned and safe: rounding outward covers the requested
    bytes with less than a page of slack at each end, and rounding inward
    selects only whole pages of the requested bytes, so discarding them never
    touches a neighbour. *)
Theorem page_advice_is_safe mb ml rb rl page outward lo hi :
  0 <= rb → 0 <= rl → page <= usize_max →
  advise_pages mb ml rb rl page outward = Some (lo, hi) →
  lo mod page = 0 ∧ hi mod page = 0 ∧ lo < hi ∧ mb <= rb ∧ rb + rl <= mb + ml
  ∧ (if outward then rb - page < lo <= rb ∧ rb + rl <= hi < rb + rl + page
     else rb <= lo ∧ hi <= rb + rl).
Proof.
  unfold advise_pages. intros Hrb Hrl Hpage Ha.
  destruct (checked_add mb ml) as [me|] eqn:Em; simpl in Ha; [|done].
  destruct (checked_add rb rl) as [re|] eqn:Er; simpl in Ha; [|done].
  apply checked_add_Some in Em as [-> _]. apply checked_add_Some in Er as [-> Hre].
  destruct ((page =? 0) || negb (is_power_of_two page) || (rb <? mb) || (mb + ml <? rb + rl)) eqn:E; [done|].
  apply orb_false_iff in E as [E E4]. apply orb_false_iff in E as [E E3]. apply orb_false_iff in E as [_ E2].
  apply negb_false_iff in E2. to_prop. destruct (power_of_two_spec page E2) as (k & Hk & ->).
  assert (Hk64 : k <= 64).
  { destruct (Z.le_gt_cases k 64); [done|]. assert (2 ^ 64 <= 2 ^ k) by (apply Z.pow_le_mono_r; lia).
    unfold usize_max in Hpage. lia. }
  assert (Hpos : 0 < 2 ^ k) by (apply Z.pow_pos_nonneg; lia).
  assert (Hfloor : ∀ x, 0 <= x <= usize_max → (page_floor x (2 ^ k - 1)) mod 2 ^ k = 0
    ∧ x - 2 ^ k < page_floor x (2 ^ k - 1) <= x).
  { intros x Hx. rewrite page_floor_spec by lia. split; [apply Z.mod_mul; lia|].
    pose proof (Z.mul_div_le x (2 ^ k) Hpos). pose proof (Z.mul_succ_div_gt x (2 ^ k) Hpos). lia. }
  destruct outward.
  - destruct (checked_add (rb + rl) (2 ^ k - 1)) as [x|] eqn:Ex; simpl in Ha; [|done].
    apply checked_add_Some in Ex as [-> Hx]. destruct (_ <? _) eqn:Elt; [|done]. injection Ha as <- <-. to_prop.
    destruct (Hfloor rb) as [? ?]; [lia|]. destruct (Hfloor (rb + rl + (2 ^ k - 1))) as [? ?]; [lia|].
    split_and!; done || lia.
  - destruct (checked_add rb (2 ^ k - 1)) as [x|] eqn:Ex; simpl in Ha; [|done].
    apply checked_add_Some in Ex as [-> Hx]. destruct (_ <? _) eqn:Elt; [|done]. injection Ha as <- <-. to_prop.
    destruct (Hfloor (rb + (2 ^ k - 1))) as [? ?]; [lia|]. destruct (Hfloor (rb + rl)) as [? ?]; [lia|].
    split_and!; done || lia.
Qed.

(** ** Population *)

(** What a kept error says about the errors seen. *)
Definition error_ok (seen : list (option Z)) (kept : option Z) : Prop :=
  match kept with
  | None => Forall (λ e, e = None) seen
  | Some e => Some e ∈ seen ∧ (unsupported e = true → ∀ e', Some e' ∈ seen → unsupported e' = true)
  end.

Lemma keep_error_ok seen1 seen2 a b :
  error_ok seen1 a → error_ok seen2 b → error_ok (seen1 ++ seen2) (keep_error a b).
Proof.
  unfold error_ok, keep_error. intros Ha Hb. destruct b as [e|]; [destruct a as [p|]|].
  - destruct Ha as [Hp Hpu], Hb as [He Heu]. destruct (unsupported p) eqn:Ep.
    + split; [apply elem_of_app; by right|]. intros Hu e' [?|?]%elem_of_app; auto.
    + split; [apply elem_of_app; by left|]. by rewrite Ep.
  - destruct Hb as [He Heu]. split; [apply elem_of_app; by right|].
    intros Hu e' [Hin|?]%elem_of_app; [|auto]. rewrite Forall_forall in Ha. by apply Ha in Hin.
  - destruct a as [p|].
    + destruct Ha as [Hp Hpu]. split; [apply elem_of_app; by left|].
      intros Hu e' [?|Hin]%elem_of_app; [auto|]. rewrite Forall_forall in Hb. by apply Hb in Hin.
    + apply Forall_app. done.
Qed.

Definition outcomes (operation : Z → Z → option Z) (begin len : Z) (indices : list Z) : list (option Z) :=
  (λ i, operation (chunk begin len i).1 (chunk begin len i).2) <$> indices.

Lemma worker_ok operation begin len indices :
  error_ok (outcomes operation begin len indices) (worker operation begin len indices).
Proof.
  unfold worker. induction indices as [|i l IH] using rev_ind; [constructor|].
  rewrite foldl_snoc. unfold outcomes. rewrite fmap_app. apply keep_error_ok; [exact IH|].
  simpl. destruct (operation _ _) as [e|]; simpl; [|by repeat constructor].
  split; [by left|]. intros Hu e' ?%list_elem_of_singleton. congruence.
Qed.

Lemma chunks_ok operation begin len schedule :
  error_ok (outcomes operation begin len (concat schedule)) (chunks operation begin len schedule).
Proof.
  unfold chunks. induction schedule as [|w l IH] using rev_ind; [constructor|].
  rewrite foldl_snoc, concat_app. unfold outcomes. rewrite fmap_app. simpl. rewrite app_nil_r.
  apply keep_error_ok; [exact IH|apply worker_ok].
Qed.

(** The chunk list covers the range contiguously. *)
Definition all_indices (len : Z) : list Z := Z.of_nat <$> seq 0 (Z.to_nat (chunk_count len)).

Lemma chunk_count_bounds len :
  0 <= len → 0 <= chunk_count len ∧ (chunk_count len - 1) * chunk_bytes < len <= chunk_count len * chunk_bytes
             ∨ len = 0 ∧ chunk_count len = 0.
Proof.
  intros Hl. destruct (Z.eq_dec len 0) as [->|]; [by right|left]. unfold chunk_count.
  assert (0 < chunk_bytes) by done.
  pose proof (Z.mul_div_le (len + chunk_bytes - 1) chunk_bytes ltac:(lia)).
  pose proof (Z.mul_succ_div_gt (len + chunk_bytes - 1) chunk_bytes ltac:(lia)).
  split; [apply Z.div_pos; lia|lia].
Qed.

Lemma chunks_cover len begin x :
  0 <= len → begin <= x < begin + len →
  ∃ i, i ∈ all_indices len ∧ in_range x (mkRange (chunk begin len i).1 ((chunk begin len i).1 + (chunk begin len i).2))
    ∧ ∀ j, j ∈ all_indices len →
        in_range x (mkRange (chunk begin len j).1 ((chunk begin len j).1 + (chunk begin len j).2)) → j = i.
Proof.
  intros Hl Hx. destruct (chunk_count_bounds len Hl) as [[Hc Hb]|[-> _]]; [|lia].
  assert (Hpos : 0 < chunk_bytes) by done.
  set (i := (x - begin) / chunk_bytes).
  pose proof (Z.mul_div_le (x - begin) chunk_bytes ltac:(lia)) as Hlo.
  pose proof (Z.mul_succ_div_gt (x - begin) chunk_bytes ltac:(lia)) as Hhi. fold i in Hlo, Hhi.
  assert (0 <= i) by (apply Z.div_pos; lia).
  assert (Hmem : ∀ j, j ∈ all_indices len ↔ 0 <= j < chunk_count len).
  { intros j. unfold all_indices. rewrite list_elem_of_fmap. setoid_rewrite elem_of_seq. split.
    - intros (n & -> & Hn). lia.
    - intros Hj. exists (Z.to_nat j). lia. }
  exists i. unfold in_range, chunk. simpl. split_and!; [apply Hmem; nia|lia|lia|].
  intros j Hj [H1 H2]. apply Hmem in Hj. nia.
Qed.

(** Chunked population is complete under every schedule: each byte of the
    mapping lies in exactly one chunk; when the workers together take every
    chunk once, population reports success exactly if every chunk succeeded,
    falls back to advice only if every failure was the unsupported one, and
    otherwise returns a real failure. *)
Theorem population_is_complete operation advise begin len schedule :
  0 <= len → concat schedule ≡ₚ all_indices len →
  (∀ x, begin <= x < begin + len → ∃ i, i ∈ all_indices len ∧
     in_range x (mkRange (chunk begin len i).1 ((chunk begin len i).1 + (chunk begin len i).2))
     ∧ ∀ j, j ∈ all_indices len →
         in_range x (mkRange (chunk begin len j).1 ((chunk begin len j).1 + (chunk begin len j).2)) → j = i)
  ∧ (populate operation advise begin len schedule = Ok true ↔
     ∀ i, i ∈ all_indices len → operation (chunk begin len i).1 (chunk begin len i).2 = None)
  ∧ (populate operation advise begin len schedule = Ok false →
     ∀ i e, i ∈ all_indices len → operation (chunk begin len i).1 (chunk begin len i).2 = Some e → unsupported e = true).
Proof.
  intros Hl Hperm. split; [intros x; by apply chunks_cover|].
  pose proof (chunks_ok operation begin len schedule) as Hok. unfold populate.
  assert (Hseen : ∀ o, o ∈ outcomes operation begin len (concat schedule) ↔
    ∃ i, o = operation (chunk begin len i).1 (chunk begin len i).2 ∧ i ∈ all_indices len).
  { intros o. unfold outcomes. rewrite list_elem_of_fmap. by setoid_rewrite Hperm. }
  destruct (chunks operation begin len schedule) as [e|]; simpl in Hok.
  - destruct Hok as [He Hu]. apply Hseen in He as (i & Hi & Him). split.
    + split; [|intros Hall; rewrite Hall in Hi by done; done].
      destruct (unsupported e); [destruct (advise begin len)|]; done.
    + destruct (unsupported e); [|done]. intros _ j e' Hj Hop. apply Hu; [done|]. apply Hseen. by exists j.
  - rewrite Forall_forall in Hok. split; [|done]. split; [|done]. intros _ i Hi. apply Hok, Hseen. by exists i.
Qed.

(** ** Concrete files *)

Definition demo_metadata (b : list Z) : Result (Z * list (string * TensorInfo)) :=
  Ok (0, [("w", mkInfo U8 [2] (1, 3))]).
Definition demo_contents : list Z := [0; 0; 0; 0; 0; 0; 0; 0; 10; 11; 12].
Definition demo_entry : Entry := mkEntry U8 [2] 1 2.
Definition demo_view : FileView := mkFile "model" (Mapped demo_contents) 4096 (Some 3%nat) 8 {["w" := demo_entry]}.

Lemma indexed_tensors_are_in_bounds_witness :
  map demo_metadata "model" demo_contents 4096 3 = Ok demo_view
  ∧ get demo_view "w" = Some (Ok (mkTensor U8 [2] [11; 12]))
  ∧ ∃ bs, entry_bytes demo_view demo_entry = Ok bs.
Proof.
  split; [vm_compute; reflexivity|]. split; [vm_compute; reflexivity|].
  destruct (indexed_tensors_are_in_bounds demo_metadata "model" demo_contents 4096 3 demo_view "w" demo_entry)
    as (bs & _ & _ & H & _).
  - intros h ts [= <- <-]. split; [lia|]. repeat constructor. simpl. lia.
  - vm_compute. discriminate.
  - vm_compute. reflexivity.
  - vm_compute. reflexivity.
  - exists bs. exact H.
Defined.

Lemma page_advice_is_safe_witness :
  advise_pages 4096 16384 5000 9000 4096 false = Some (8192, 12288)
  ∧ 5000 <= 8192 ∧ 12288 <= 14000.
Proof.
  split; [vm_compute; reflexivity|].
  destruct (page_advice_is_safe 4096 16384 5000 9000 4096 false 8192 12288) as (_ & _ & _ & _ & _ & H);
    [lia|lia|unfold usize_max; lia|vm_compute; reflexivity|exact H].
Defined.

Lemma population_is_complete_witness :
  populate (λ _ _, None) (λ _ _, None) 0 (chunk_bytes + 1) [[1]; [0]] = Ok true
  ∧ (∀ i, i ∈ all_indices (chunk_bytes + 1) → (λ _ _ : Z, @None Z) (chunk 0 (chunk_bytes + 1) i).1 0 = None).
Proof.
  split; [vm_compute; reflexivity|].
  destruct (population_is_complete (λ _ _, None) (λ _ _, None) 0 (chunk_bytes + 1) [[1]; [0]]) as (_ & [H _] & _).
  - vm_compute. discriminate.
  - vm_compute. apply perm_swap.
  - intros i Hi. exact (H ltac:(vm_compute; reflexivity) i Hi).
Defined.

End SafeTensors.
