(* ===== verification/Onnx.v ===== *)
(** * ONNX graphs

    src/src/artifacts/onnx.rs: the indexes of a parsed model, the accessors of
    nodes and tensors, and the shape arithmetic of broadcasting.  The protobuf
    runtime is an argument of [from_bytes]; of the generated messages
    (src/src/artifacts/onnx_proto.rs) the fields that the reader uses are
    modelled.  A float is its bit pattern.  OnnxTheorems has the theorems. *)

From S2P Require Import Prelude.
From stdpp Require Import strings gmap.
Local Open Scope Z_scope.

Module Onnx.

(** ** Messages *)

(** [TensorProto]; [data_location] is the number of the enumeration. *)
Record TensorProto : Type := mkTensorProto {
  dims : list Z;
  data_type : Z;
  float_data : list Z;
  int64_data : list Z;
  t_name : string;
  raw_data : list Z;
  data_location : Z }.

(** [AttributeProto]. *)
Record AttributeProto : Type := mkAttributeProto {
  a_name : string;
  a_f : Z;
  a_i : Z;
  a_s : list Z;
  a_t : option TensorProto;
  a_ints : list Z }.

(** [NodeProto]. *)
Record NodeProto : Type := mkNodeProto {
  n_input : list string;
  n_output : list string;
  n_name : string;
  n_op_type : string;
  n_domain : string;
  attribute : list AttributeProto }.

(** [Dimension] with its [Value], and [Dimension::dim_value]. *)
Inductive Dimension : Type := DimValue (v : Z) | DimParam (p : string) | NoDim.
Definition dim_value (d : Dimension) : Z := match d with DimValue v => v | _ => 0 end.

(** [TypeProto]: a tensor type with its optional shape, or another kind, for
    which [TypeProto::tensor_type] answers the default tensor type. *)
Inductive TypeProto : Type := TensorType (shape : option (list Dimension)) | OtherType.
Definition tensor_type_shape (t : TypeProto) : option (list Dimension) :=
  match t with TensorType shape => shape | OtherType => None end.

Record ValueInfoProto : Type := mkValueInfoProto { v_name : string; type_ : option TypeProto }.

(** [GraphProto] and [ModelProto]. *)
Record GraphProto : Type := mkGraphProto {
  g_node : list NodeProto;
  g_name : string;
  g_initializer : list TensorProto;
  g_input : list ValueInfoProto;
  g_output : list ValueInfoProto }.
Record ModelProto : Type := mkModelProto {
  opset_import : list (string * Z);
  graph : option GraphProto }.

(** ** Models *)

(** [Model]; [Node] and [Tensor] wrap their message. *)
Record Model : Type := mkModel {
  m_name : string;
  inputs : list string;
  input_shapes : gmap string (list (option Z));
  outputs : list string;
  opsets : list (string * Z);
  nodes : list NodeProto;
  initializers : gmap string TensorProto;
  initializer_order : list string;
  producers : gmap string nat;
  consumers : gmap string (list nat) }.

(** [usize::try_from] of an [i64]. *)
Definition try_usize (v : Z) : option Z := if 0 <=? v then Some v else None.

(** The loop over the initializers. *)
Fixpoint index_initializers (ts : list TensorProto) (m : gmap string TensorProto) (order : list string)
    : Result (gmap string TensorProto * list string) :=
  match ts with
  | [] => Ok (m, order)
  | t :: rest =>
      if String.eqb (t_name t) "" then Err (Message "unnamed ONNX initializer")
      else
        match m !! t_name t with
        | Some _ => Err (Message ("duplicate ONNX initializer " +:+ t_name t))
        | None => index_initializers rest (<[t_name t := t]> m) (order ++ [t_name t])
        end
  end.

(** The two inner loops over the values of a node; empty names are skipped. *)
Definition named (l : list string) : list string := filter (λ s, s ≠ "") l.
Fixpoint index_outputs (index : nat) (outs : list string) (p : gmap string nat)
    : Result (gmap string nat) :=
  match outs with
  | [] => Ok p
  | o :: rest =>
      match p !! o with
      | Some _ => Err (Message ("duplicate ONNX value " +:+ o))
      | None => index_outputs index rest (<[o := index]> p)
      end
  end.
Fixpoint index_inputs (index : nat) (ins : list string) (c : gmap string (list nat))
    : gmap string (list nat) :=
  match ins with
  | [] => c
  | i :: rest => index_inputs index rest (<[i := default [] (c !! i) ++ [index]]> c)
  end.

(** The loop over the nodes. *)
Fixpoint index_nodes (index : nat) (ns : list NodeProto) (p : gmap string nat) (c : gmap string (list nat))
    : Result (gmap string nat * gmap string (list nat)) :=
  match ns with
  | [] => Ok (p, c)
  | n :: rest =>
      let? p := index_outputs index (named (n_output n)) p in
      index_nodes (S index) rest p (index_inputs index (named (n_input n)) c)
  end.

(** The shape of an input: a dimension that is not a positive number is unknown. *)
Definition known_dim (d : Dimension) : option Z :=
  v ← try_usize (dim_value d); if 0 <? v then Some v else None.
Definition value_shape (v : ValueInfoProto) : list (option Z) :=
  match type_ v with
  | None => []
  | Some t => match tensor_type_shape t with None => [] | Some dim => known_dim <$> dim end
  end.
Definition index_shapes (vs : list ValueInfoProto) : gmap string (list (option Z)) :=
  foldl (λ m v, <[v_name v := value_shape v]> m) ∅ vs.

(** [Model::from_graph]. *)
Definition from_graph (g : GraphProto) (opsets : list (string * Z)) : Result Model :=
  let? (inits, order) := index_initializers (g_initializer g) ∅ [] in
  let? (p, c) := index_nodes 0 (g_node g) ∅ ∅ in
  Ok (mkModel (g_name g) (v_name <$> g_input g) (index_shapes (g_input g)) (v_name <$> g_output g)
        opsets (g_node g) inits order p c).

(** [Model::from_bytes] and [Model::load]; [parse] is the protobuf runtime and
    [read] the file system. *)
Definition from_bytes (parse : list Z → string + ModelProto) (bytes : list Z) : Result Model :=
  match parse bytes with
  | inl error => Err (Message ("invalid ONNX protobuf: " +:+ error))
  | inr m =>
      let? g := ok_or (graph m) (Message "missing ONNX graph") in
      from_graph g (opset_import m)
  end.
Definition load (read : string → string + list Z) (parse : list Z → string + ModelProto) (path : string)
    : Result Model :=
  match read path with
  | inl error => Err (error_context (Io error) ("reading " +:+ path))
  | inr bytes =>
      match from_bytes parse bytes with
      | Ok m => Ok m
      | Err error => Err (error_context error ("parsing " +:+ path))
      end
  end.

(** [Model::input_shape], [Model::initializer]. *)
Definition input_shape (m : Model) (name : string) : Result (list (option Z)) :=
  ok_or (input_shapes m !! name) (Message ("missing ONNX input " +:+ name)).
Definition initializer (m : Model) (name : string) : Result TensorProto :=
  ok_or (initializers m !! name) (Message ("missing ONNX initializer " +:+ name)).

(** [Model::initializers]; [None] is the failed [expect]. *)
Definition initializer_list (m : Model) : option (list (string * TensorProto)) :=
  mapM (λ name, pair name <$> initializers m !! name) (initializer_order m).

(** [Model::producer] and [Model::consumers]; the inner [None] of [producer] is
    no producer, the outer one is an index out of bounds. *)
Definition producer (m : Model) (value : string) : option (option NodeProto) :=
  match producers m !! value with
  | None => Some None
  | Some index => Some <$> nodes m !! index
  end.
Definition consumer_list (m : Model) (value : string) : option (list NodeProto) :=
  mapM (λ index : nat, nodes m !! index) (default [] (consumers m !! value)).

(** ** Nodes *)

(** [Node::attribute] and [Node::has]. *)
Definition find_attribute (n : NodeProto) (name : string) : option AttributeProto :=
  snd <$> list_find (λ a, a_name a = name) (attribute n).
Definition has (n : NodeProto) (name : string) : bool := bool_decide (is_Some (find_attribute n name)).

(** [Node::output]. *)
Definition output (n : NodeProto) : Result string :=
  match n_output n with
  | [o] => if String.eqb o "" then Err (Message (n_op_type n +:+ " must have one output")) else Ok o
  | _ => Err (Message (n_op_type n +:+ " must have one output"))
  end.

(** [Node::validate_attributes]: the [any] with its set of names. *)
Fixpoint bad_attribute (allowed : list string) (names : gset string) (l : list AttributeProto) : bool :=
  match l with
  | [] => false
  | a :: rest =>
      negb (bool_decide (a_name a ∈ allowed))
      || bool_decide (a_name a ∈ names)
      || bad_attribute allowed ({[a_name a]} ∪ names) rest
  end.
Definition validate_attributes (n : NodeProto) (allowed : list string) : Result () :=
  if bad_attribute allowed ∅ (attribute n)
  then Err (Message (n_op_type n +:+ " has an unknown or duplicate attribute"))
  else Ok ().

(** [Node::integer], [Node::integers], [Node::tensor]. *)
Definition integer (n : NodeProto) (name : string) (def : Z) : Z :=
  match find_attribute n name with Some a => a_i a | None => def end.
Definition integers (n : NodeProto) (name : string) (def : list Z) : list Z :=
  match find_attribute n name with Some a => a_ints a | None => def end.
Definition tensor (n : NodeProto) (name : string) : Result TensorProto :=
  ok_or (a ← find_attribute n name; a_t a) (Message ("missing tensor attribute " +:+ name)).

(** Bytes accepted by [String::from_utf8]: no overlong forms, no surrogates,
    nothing above U+10FFFF. *)
Definition between (a b x : Z) : bool := (a <=? x) && (x <=? b).
Definition tail (x : Z) : bool := between 128 191 x.
Fixpoint utf8 (l : list Z) : bool :=
  match l with
  | [] => true
  | a :: rest =>
      if between 0 127 a then utf8 rest
      else if between 194 223 a then
        match rest with b :: rest => tail b && utf8 rest | _ => false end
      else if between 224 239 a then
        match rest with
        | b :: c :: rest =>
            between (if a =? 224 then 160 else 128) (if a =? 237 then 159 else 191) b && tail c && utf8 rest
        | _ => false
        end
      else if between 240 244 a then
        match rest with
        | b :: c :: d :: rest =>
            between (if a =? 240 then 144 else 128) (if a =? 244 then 143 else 191) b
            && tail c && tail d && utf8 rest
        | _ => false
        end
      else false
  end.
Definition of_bytes (l : list Z) : string :=
  foldr (λ b s, String (Ascii.ascii_of_N (Z.to_N b)) s) "" l.

(** [Node::text]. *)
Definition text (n : NodeProto) (name def : string) : Result string :=
  match find_attribute n name with
  | None => Ok def
  | Some a => if utf8 (a_s a) then Ok (of_bytes (a_s a)) else Err (Message (name +:+ " is not UTF-8"))
  end.

(** ** Floats *)

(** The fields of a 32-bit and a 64-bit pattern: sign, exponent, fraction. *)
Definition f32_fields (b : Z) : Z * Z * Z := (b / 2 ^ 31, b / 2 ^ 23 mod 2 ^ 8, b mod 2 ^ 23).
Definition f64_fields (b : Z) : Z * Z * Z := (b / 2 ^ 63, b / 2 ^ 52 mod 2 ^ 11, b mod 2 ^ 52).
Definition f64_pattern (s e f : Z) : Z := s * 2 ^ 63 + e * 2 ^ 52 + f.

(** [f32::is_finite], and [f64::from] an [f32]: subnormal values become normal
    and a NaN becomes quiet. *)
Definition f32_is_finite (b : Z) : bool := negb (b / 2 ^ 23 mod 2 ^ 8 =? 255).
Definition widen (b : Z) : Z :=
  let '(s, e, f) := f32_fields b in
  if e =? 255 then f64_pattern s 2047 (if f =? 0 then 0 else Z.lor (f * 2 ^ 29) (2 ^ 51))
  else if e =? 0 then
    if f =? 0 then f64_pattern s 0 0
    else let k := Z.log2 f in f64_pattern s (k + 874) ((f - 2 ^ k) * 2 ^ (52 - k))
  else f64_pattern s (e + 896) (f * 2 ^ 29).

(** [Node::float]. *)
Definition float (n : NodeProto) (name : string) (def : Z) : Z :=
  match find_attribute n name with Some a => widen (a_f a) | None => def end.

(** ** Tensors

    [Tensor] and [TensorView] both wrap a message and have the same methods. *)

(** [Tensor::shape]: the iterator stops at the first negative dimension. *)
Definition shape (t : TensorProto) : Result (list Z) :=
  ok_or (mapM try_usize (dims t)) (Message (t_name t +:+ " has an invalid dimension")).

(** [try_fold(1usize, ..)] with [checked_mul], shared with [broadcast_index]. *)
Fixpoint count_from (n : Z) (ds : list Z) (e : Error) : Result Z :=
  match ds with
  | [] => Ok n
  | d :: rest => let? n := ok_or (checked_mul n d) e in count_from n rest e
  end.

(** [Tensor::count]. *)
Definition count (t : TensorProto) : Result Z :=
  let? sh := shape t in count_from 1 sh (Message (t_name t +:+ " element count overflow")).

(** [as_chunks::<n>().0]. *)
Fixpoint chunks (n k : nat) (l : list Z) : list (list Z) :=
  match k with O => [] | S k => take n l :: chunks n k (drop n l) end.
Definition as_chunks (n : nat) (l : list Z) : list (list Z) := chunks n (length l / n) l.

(** [i64::from_le_bytes]. *)
Definition signed64 (v : Z) : Z := if v <? 2 ^ 63 then v else v - 2 ^ 64.

(** The bytes of [count] elements of a nonempty [raw_data]. *)
Definition raw_chunks (t : TensorProto) (n : nat) (count : Z) : Result (list (list Z)) :=
  let? bytes := ok_or (checked_mul count (Z.of_nat n)) (Message "ONNX tensor byte count overflow") in
  if Z.of_nat (length (raw_data t)) =? bytes then Ok (as_chunks n (raw_data t))
  else Err (Message (t_name t +:+ " is truncated")).

(** [Tensor::f32s] and [Tensor::f64s]. *)
Definition f32s (t : TensorProto) : Result (list Z) :=
  if negb (data_type t =? 1) || negb (data_location t =? 0)
  then Err (Message (t_name t +:+ " is not embedded float32"))
  else
    let? count := count t in
    let? values := if bool_decide (raw_data t = []) then Ok (float_data t)
                   else result_map (map from_le_bytes) (raw_chunks t 4 count) in
    if negb (Z.of_nat (length values) =? count) || existsb (λ v, negb (f32_is_finite v)) values
    then Err (Message (t_name t +:+ " has invalid float values"))
    else Ok values.
Definition f64s (t : TensorProto) : Result (list Z) := result_map (map widen) (f32s t).

(** [Tensor::i64s]. *)
Definition i64s (t : TensorProto) : Result (list Z) :=
  if negb (data_type t =? 7) || negb (data_location t =? 0)
  then Err (Message (t_name t +:+ " is not embedded int64"))
  else
    let? count := count t in
    let? values := if bool_decide (raw_data t = []) then Ok (int64_data t)
                   else result_map (map (λ b, signed64 (from_le_bytes b))) (raw_chunks t 8 count) in
    if negb (Z.of_nat (length values) =? count)
    then Err (Message (t_name t +:+ " is truncated"))
    else Ok values.

(** ** Shapes *)

(** [axis]; the sum of a negative value and a rank cannot overflow. *)
Definition axis (value rank : Z) : Result Z :=
  if negb (rank <=? isize_max) then Err (Message "rank overflow")
  else
    let resolved := if value <? 0 then value + rank else value in
    ok_or (a ← try_usize resolved; if a <? rank then Some a else None)
      (Message ("axis " +:+ pretty value +:+ " is invalid for rank " +:+ pretty rank)).

(** [strides], from the last dimension: the strides and the next stride. *)
Fixpoint strides_from (sh : list Z) : Result (list Z * Z) :=
  match sh with
  | [] => Ok ([], 1)
  | d :: rest =>
      let? (out, stride) := strides_from rest in
      let? next := ok_or (checked_mul stride d) (Message "shape stride overflow") in
      Ok (stride :: out, next)
  end.
Definition strides (sh : list Z) : Result (list Z) := result_map fst (strides_from sh).

(** [broadcast]: the dimension of an operand at a distance from the right. *)
Definition dim_from_right (sh : list Z) (from_right : nat) : Z :=
  if (from_right <=? length sh)%nat then default 1 (sh !! (length sh - from_right)%nat) else 1.
Definition broadcast_dim (a b : Z) : option Z :=
  if (a =? b) || (a =? 1) || (b =? 1) then Some (Z.max a b) else None.
Definition broadcast (left right : list Z) : Result (list Z) :=
  let rank := Nat.max (length left) (length right) in
  ok_or
    (mapM (λ index, broadcast_dim (dim_from_right left (rank - index)) (dim_from_right right (rank - index)))
       (seq 0 rank))
    (Message "cannot broadcast").

(** The loop of [broadcast_index] over the input's dimensions; [None] is an
    index out of bounds or a division by zero. *)
Definition checked_div (a b : Z) : option Z := if b =? 0 then None else Some (a / b).
Definition checked_rem (a b : Z) : option Z := if b =? 0 then None else Some (a mod b).
Fixpoint broadcast_loop (index : Z) (offset : nat) (output input ostrides istrides : list Z)
    (todo : list nat) (result : Z) : option (Result Z) :=
  match todo with
  | [] => Some (Ok result)
  | k :: rest =>
      od ← output !! (offset + k)%nat;
      id ← input !! k;
      if negb (id =? 1) && negb (id =? od) then Some (Err (Message "input is not broadcast-compatible"))
      else
        os ← ostrides !! (offset + k)%nat;
        q ← checked_div index os;
        coordinate ← checked_rem q od;
        if id =? 1 then broadcast_loop index offset output input ostrides istrides rest result
        else
          st ← istrides !! k;
          match (term ← checked_mul coordinate st; checked_add result term) with
          | Some result => broadcast_loop index offset output input ostrides istrides rest result
          | None => Some (Err (Message "broadcast index overflow"))
          end
  end.

(** [broadcast_index]. *)
Definition broadcast_index (index : Z) (output input : list Z) : option (Result Z) :=
  if (length output <? length input)%nat then Some (Err (Message "broadcast input rank exceeds output rank"))
  else
    match count_from 1 output (Message "broadcast output size overflow") with
    | Err e => Some (Err e)
    | Ok count =>
        if count <=? index then Some (Err (Message "broadcast index exceeds output"))
        else
          match strides output, strides input with
          | Err e, _ => Some (Err e)
          | Ok _, Err e => Some (Err e)
          | Ok os, Ok st =>
              broadcast_loop index (length output - length input) output input os st
                (seq 0 (length input)) 0
          end
    end.

(** The examples of the unit test. *)
Example axes_are_checked : axis (-1) 4 = Ok 3 ∧ is_ok (axis 4 4) = false.
Proof. done. Qed.
Example broadcasts_are_checked :
  broadcast [2; 1; 4] [3; 4] = Ok [2; 3; 4] ∧ is_ok (broadcast [2] [3]) = false
  ∧ broadcast_index 23 [2; 3; 4] [3; 1] = Some (Ok 2)
  ∧ (is_ok <$> broadcast_index 24 [2; 3; 4] [3; 1]) = Some false.
Proof. vm_compute. done. Qed.
Example zero_dimensions :
  f32s (mkTensorProto [2; 0; 3] 1 [] [] "onnx::Resize_787" [] 0) = Ok []
  ∧ is_ok (f32s (mkTensorProto [0] 1 [1065353216] [] "invalid" [] 0)) = false
  ∧ is_ok (shape (mkTensorProto [0; -1] 1 [] [] "invalid" [] 0)) = false
  ∧ f64s (mkTensorProto [] 1 [1075838976] [] "scalar" [] 0) = Ok [4612811918334230528].
Proof. vm_compute. done. Qed.

End Onnx.
