(* ===== verification/OnnxTheorems.v ===== *)
(** * Theorems on ONNX graphs

    Broadcasting addresses the element of each operand that row-major
    coordinates select, and never panics; decoding inverts the little-endian
    encoding and widening is exact; the indexes of a model describe its graph
    and exactly the well-formed graphs are accepted. *)

From S2P Require Import Prelude Access BufferView Tensor Onnx.
From stdpp Require Import strings gmap list.
Local Open Scope Z_scope.

Module OnnxTheorems.
Import Onnx.
Local Notation P := (foldr Z.mul 1).
Local Notation position := Tensor.position.
Local Notation in_shape := Tensor.in_shape.
Local Notation positive := (Forall (Z.lt 0)).

(** ** Products and strides *)

Lemma P_positive sh : positive sh → 0 < P sh.
Proof. induction 1; simpl; lia. Qed.

Lemma P_nonneg sh : Forall (Z.le 0) sh → 0 <= P sh.
Proof. induction 1; simpl; lia. Qed.

Lemma nonneg_positive sh : Forall (Z.le 0) sh → 0 < P sh → positive sh.
Proof.
  induction 1 as [|d sh Hd Hsh IH]; simpl; intros Hp; [constructor|].
  pose proof (P_nonneg sh Hsh). constructor; [nia|apply IH; nia].
Qed.

Lemma count_from_spec n ds e c : count_from n ds e = Ok c → c = n * P ds.
Proof.
  revert n. induction ds as [|d ds IH]; intros n; simpl; [intros [= <-]; lia|].
  destruct (checked_mul n d) as [n'|] eqn:E; simpl; [|done]. apply checked_mul_Some in E as [-> _].
  intros ->%IH. lia.
Qed.

Lemma count_from_ok n ds e :
  0 < n → positive ds → n * P ds <= usize_max → count_from n ds e = Ok (n * P ds).
Proof.
  intros Hn Hds. revert n Hn. induction Hds as [|d ds Hd Hds IH]; intros n Hn Hle; simpl in *; [f_equal; lia|].
  pose proof (P_positive ds Hds). rewrite (proj2 (checked_mul_Some n d (n * d))) by (split; [done|nia]).
  simpl. rewrite IH by nia. f_equal. lia.
Qed.

(** The product of the dimensions after each one. *)
Fixpoint suffixes (sh : list Z) : list Z :=
  match sh with [] => [] | _ :: rest => P rest :: suffixes rest end.

Lemma strides_from_spec sh ss n : strides_from sh = Ok (ss, n) → ss = suffixes sh ∧ n = P sh.
Proof.
  revert ss n. induction sh as [|d sh IH]; intros ss n; simpl; [by intros [= <- <-]|].
  destruct (strides_from sh) as [[out st]|] eqn:E; simpl; [|done].
  destruct (IH _ _ eq_refl) as [-> ->].
  destruct (checked_mul (P sh) d) as [m|] eqn:Em; simpl; [|done]. apply checked_mul_Some in Em as [-> _].
  intros [= <- <-]. split; [done|lia].
Qed.

Lemma strides_from_ok sh : positive sh → P sh <= usize_max → strides_from sh = Ok (suffixes sh, P sh).
Proof.
  induction 1 as [|d sh Hd Hsh IH]; simpl; [done|]. intros Hle. pose proof (P_positive sh Hsh).
  rewrite IH by nia. simpl. rewrite (proj2 (checked_mul_Some (P sh) d (d * P sh))) by lia. done.
Qed.

Lemma strides_spec sh ss : strides sh = Ok ss → ss = suffixes sh.
Proof.
  unfold strides. destruct (strides_from sh) as [[out n]|] eqn:E; simpl; [|done].
  intros [= <-]. by apply strides_from_spec in E as [-> _].
Qed.

Lemma strides_ok sh : positive sh → P sh <= usize_max → strides sh = Ok (suffixes sh).
Proof. intros Hp Hle. unfold strides. by rewrite strides_from_ok. Qed.

Lemma suffixes_lookup sh k d : sh !! k = Some d → suffixes sh !! k = Some (P (drop (S k) sh)).
Proof. revert k. induction sh as [|x sh IH]; intros [|k] Hk; try done. by apply IH. Qed.

Lemma P_drop_le sh k : positive sh → P (drop k sh) <= P sh.
Proof.
  intros Hp. revert k. induction Hp as [|d sh Hd Hp IH]; intros k.
  { by rewrite drop_nil. }
  destruct k as [|k]; [done|]. simpl. specialize (IH k). pose proof (P_positive sh Hp). nia.
Qed.

(** ** Coordinates *)

Lemma position_bound sh idx : in_shape sh idx → 0 <= position sh idx < P sh.
Proof. induction 1; simpl; nia. Qed.

Lemma in_shape_positive sh idx : in_shape sh idx → positive sh.
Proof. induction 1; constructor; [lia|done]. Qed.

Lemma P_lookup sh k d : sh !! k = Some d → ∃ q, P sh = q * (d * P (drop (S k) sh)).
Proof.
  revert k. induction sh as [|x sh IH]; intros [|k] Hk; try done; simpl in *.
  - injection Hk as ->. exists 1. rewrite drop_0. lia.
  - destruct (IH k Hk) as [q Hq]. exists (x * q). rewrite Hq. simpl. lia.
Qed.

(** Dividing by the stride and reducing recovers a coordinate. *)
Lemma coordinate sh idx k d x :
  in_shape sh idx → sh !! k = Some d → idx !! k = Some x →
  (position sh idx / P (drop (S k) sh)) mod d = x.
Proof.
  intros H. revert k. induction H as [|d' y sh idx Hy Hs IH]; intros [|k] Hd Hx; try done; simpl in *.
  - simplify_eq. rewrite drop_0. pose proof (position_bound _ _ Hs).
    rewrite Z.div_add_l by lia. rewrite (Z.div_small (position _ _)) by lia. rewrite Z.add_0_r.
    by apply Z.mod_small.
  - rewrite <-(IH k Hd Hx). destruct (P_lookup _ _ _ Hd) as [q Hq]. rewrite Hq.
    pose proof (in_shape_positive _ _ Hs) as Hpos.
    assert (0 < P (drop (S k) sh)) by (apply P_positive, Forall_drop, Hpos).
    assert (0 < d) by (by eapply (Forall_lookup_1 _ _ _ _ Hpos)).
    change (match sh with [] => [] | _ :: l => drop k l end) with (drop (S k) sh).
    replace (y * (q * (d * P (drop (S k) sh)))) with ((y * q * d) * P (drop (S k) sh)) by lia.
    rewrite Z.div_add_l by lia. rewrite Z.add_comm. apply Z_mod_plus_full.
Qed.

(** ** Broadcasting *)

(** An operand that broadcasts to an output, and the coordinates it is read at. *)
Definition compatible (output input : list Z) : Prop :=
  (length input <= length output)%nat
  ∧ Forall2 (λ o d, d = 1 ∨ d = o) (drop (length output - length input) output) input.
Definition pinned (d x : Z) : Z := if d =? 1 then 0 else x.
Definition restrict (input idx : list Z) : list Z :=
  zip_with pinned input (drop (length idx - length input) idx).

Lemma restrict_in_shape output input idx :
  compatible output input → in_shape output idx → in_shape input (restrict input idx).
Proof.
  intros [Hl Hc] Hi. unfold restrict. rewrite <-(Forall2_length _ _ _ Hi).
  apply (Forall2_drop _ _ _ (length output - length input)%nat) in Hi.
  revert Hi Hc. generalize (drop (length output - length input) output) (drop (length output - length input) idx).
  clear Hl. intros os is' Hi Hc. revert is' Hi. induction Hc as [|o d os input Hod Hc IH]; intros is' Hi.
  { constructor. }
  inversion Hi as [|? x ? xs Hx Hxs]; subst. simpl. constructor; [|by apply IH].
  unfold pinned. destruct (d =? 1) eqn:E; to_prop; lia.
Qed.

Lemma compatible_product output input :
  positive output → compatible output input → positive input ∧ P input <= P output.
Proof.
  intros Hp [_ Hc]. pose proof (P_drop_le output (length output - length input) Hp) as Hle.
  apply (Forall_drop _ (length output - length input)) in Hp. revert Hp Hc Hle.
  generalize (drop (length output - length input) output). intros os Hp Hc Hle.
  enough (positive input ∧ P input <= P os) by naive_solver lia. clear Hle.
  induction Hc as [|o d os input Hod Hc IH]; [by split|].
  apply Forall_cons in Hp as [Ho Hos]. destruct (IH Hos) as [Hi Hle]. pose proof (P_positive _ Hos).
  pose proof (P_positive _ Hi). split; [constructor; [lia|done]|]. simpl. destruct Hod as [->| ->]; nia.
Qed.

Lemma position_step input cs k d c :
  input !! k = Some d → cs !! k = Some c →
  position (drop k input) (drop k cs)
  = c * P (drop (S k) input) + position (drop (S k) input) (drop (S k) cs).
Proof. intros Hd Hc. rewrite (drop_S input d k Hd), (drop_S cs c k Hc). done. Qed.

Lemma checked_div_ok a b : b ≠ 0 → checked_div a b = Some (a / b).
Proof. intros Hb. unfold checked_div. by rewrite (proj2 (Z.eqb_neq b 0)). Qed.

Lemma checked_rem_ok a b : b ≠ 0 → checked_rem a b = Some (a mod b).
Proof. intros Hb. unfold checked_rem. by rewrite (proj2 (Z.eqb_neq b 0)). Qed.

(** The loop adds up the position of the restricted coordinates. *)
Lemma broadcast_loop_ok output input idx n k r :
  compatible output input → in_shape output idx → P output <= usize_max →
  length input = (k + n)%nat → 0 <= r →
  r + position (drop k input) (drop k (restrict input idx)) = position input (restrict input idx) →
  broadcast_loop (position output idx) (length output - length input) output input
    (suffixes output) (suffixes input) (seq k n) r = Some (Ok (position input (restrict input idx))).
Proof.
  intros Hc Hi Hle. pose proof (restrict_in_shape _ _ _ Hc Hi) as Hcs.
  destruct (compatible_product _ _ (in_shape_positive _ _ Hi) Hc) as [Hpi Hpp].
  pose proof (position_bound _ _ Hcs) as Hb. pose proof (Forall2_length _ _ _ Hi) as Hli.
  pose proof (Forall2_length _ _ _ Hcs) as Hlc. destruct Hc as [Hl Hc].
  revert k r. induction n as [|n IH]; intros k r Hk Hr Heq.
  { simpl. do 2 f_equal. rewrite (drop_ge input k) in Heq by lia. simpl in Heq. lia. }
  destruct (lookup_lt_is_Some_2 input k) as [d Hd]; [lia|].
  destruct (lookup_lt_is_Some_2 (restrict input idx) k) as [c Hcc]; [lia|].
  destruct (Forall2_lookup_r _ _ _ _ _ Hc Hd) as (o & Ho & Hod). rewrite lookup_drop in Ho.
  destruct (lookup_lt_is_Some_2 idx (length output - length input + k)) as [x Hx]; [lia|].
  assert (c = pinned d x) as ->.
  { unfold restrict in Hcc. rewrite lookup_zip_with, Hd, lookup_drop, <-Hli, Hx in Hcc. by injection Hcc. }
  pose proof (coordinate _ _ _ _ _ Hi Ho Hx) as Hco. pose proof (in_shape_positive _ _ Hi) as Hpo.
  assert (0 < P (drop (S (length output - length input + k)) output)) by (apply P_positive, Forall_drop, Hpo).
  assert (0 < o) by (by eapply (Forall_lookup_1 _ _ _ _ Hpo)).
  pose proof (position_step _ _ _ _ _ Hd Hcc) as Hstep. rewrite Hstep in Heq.
  assert (Hrest : 0 <= position (drop (S k) input) (drop (S k) (restrict input idx)))
    by (apply position_bound, Forall2_drop, Hcs).
  assert (0 < P (drop (S k) input)) by (apply P_positive, Forall_drop, Hpi).
  pose proof (Forall2_lookup_lr _ _ _ _ _ _ Hi Ho Hx) as Hxb. simpl in Hxb.
  simpl seq. cbn [broadcast_loop]. rewrite Ho, Hd. simpl.
  replace (negb (d =? 1) && negb (d =? o)) with false by (destruct (d =? 1) eqn:?, (d =? o) eqn:?; to_prop; lia || done).
  rewrite (suffixes_lookup _ _ _ Ho). simpl.
  rewrite checked_div_ok by lia. simpl. rewrite checked_rem_ok by lia. simpl. rewrite Hco.
  unfold pinned in Heq. destruct (d =? 1) eqn:E; [apply IH; lia|].
  rewrite (suffixes_lookup _ _ _ Hd). simpl.
  rewrite (proj2 (checked_mul_Some x (P (drop (S k) input)) _)) by (split; [done|nia]). simpl.
  rewrite checked_add_ok by nia. apply IH; [lia|nia|lia].
Qed.

Lemma broadcast_index_ok output input idx :
  compatible output input → in_shape output idx → P output <= usize_max →
  broadcast_index (position output idx) output input = Some (Ok (position input (restrict input idx))).
Proof.
  intros Hc Hi Hle. pose proof (in_shape_positive _ _ Hi) as Hp.
  destruct (compatible_product _ _ Hp Hc) as [Hpi Hpp]. pose proof (position_bound _ _ Hi).
  unfold broadcast_index. replace (length output <? length input)%nat with false
    by (symmetry; apply Nat.ltb_ge, Hc).
  rewrite count_from_ok, Z.mul_1_l by (lia || done). rewrite (proj2 (Z.leb_gt _ _)) by lia.
  rewrite !strides_ok by (lia || done). by apply broadcast_loop_ok.
Qed.

(** Every lookup of the loop is in bounds and every divisor positive; a loop
    that succeeds has compared every dimension. *)
Lemma broadcast_loop_total index output input n k r :
  (length input <= length output)%nat → positive output → length input = (k + n)%nat →
  ∃ v, broadcast_loop index (length output - length input) output input
         (suffixes output) (suffixes input) (seq k n) r = Some v
  ∧ (is_ok v = true →
     Forall2 (λ o d, d = 1 ∨ d = o) (drop (length output - length input + k) output) (drop k input)).
Proof.
  intros Hl Hp. revert k r. induction n as [|n IH]; intros k r Hk.
  { eexists. split; [done|]. intros _. rewrite !drop_ge by lia. constructor. }
  destruct (lookup_lt_is_Some_2 input k) as [d Hd]; [lia|].
  destruct (lookup_lt_is_Some_2 output (length output - length input + k)) as [o Ho]; [lia|].
  assert (0 < P (drop (S (length output - length input + k)) output)) by (apply P_positive, Forall_drop, Hp).
  assert (0 < o) by (by eapply (Forall_lookup_1 _ _ _ _ Hp)).
  simpl seq. cbn [broadcast_loop]. rewrite Ho, Hd. simpl.
  destruct (negb (d =? 1) && negb (d =? o)) eqn:Ec; [by eexists|].
  rewrite (suffixes_lookup _ _ _ Ho). simpl.
  rewrite checked_div_ok by lia. simpl. rewrite checked_rem_ok by lia. simpl.
  assert (Hod : d = 1 ∨ d = o) by (destruct (d =? 1) eqn:?, (d =? o) eqn:?; to_prop; naive_solver).
  rewrite (drop_S _ _ _ Ho), (drop_S _ _ _ Hd), <-Nat.add_succ_r.
  destruct (d =? 1).
  { destruct (IH (S k) r) as (v & -> & Hv); [lia|]. exists v. split; [done|]. intros Hok. constructor; auto. }
  rewrite (suffixes_lookup _ _ _ Hd). simpl.
  match goal with |- context [match ?m with Some _ => _ | None => _ end] => destruct m as [r'|] end;
    [|by eexists].
  destruct (IH (S k) r') as (v & -> & Hv); [lia|]. exists v. split; [done|]. intros Hok. constructor; auto.
Qed.

Lemma broadcast_index_total index output input :
  0 <= index → Forall (Z.le 0) output →
  ∃ v, broadcast_index index output input = Some v
  ∧ (is_ok v = true → compatible output input ∧ positive output ∧ index < P output <= usize_max).
Proof.
  intros Hix Hnn. unfold broadcast_index.
  destruct (length output <? length input)%nat eqn:El; [by eexists|]. to_prop.
  destruct (count_from 1 output _) as [c|e] eqn:Ec; [|by eexists].
  destruct (c <=? index) eqn:Ei; [by eexists|]. to_prop. apply count_from_spec in Ec as Hc.
  rewrite Z.mul_1_l in Hc. subst c. pose proof (nonneg_positive _ Hnn ltac:(lia)) as Hp.
  destruct (strides output) as [os|] eqn:Es; [|by eexists].
  destruct (strides input) as [st|] eqn:Et; [|by eexists].
  apply strides_spec in Et as ->. unfold strides in Es.
  destruct (strides_from output) as [[os' m]|] eqn:Ef; simpl in Es; [|done]. injection Es as <-.
  assert (P output <= usize_max).
  { destruct output as [|d rest]; [done|]. simpl in Ef. destruct (strides_from rest) as [[? ?]|] eqn:Er; [|done].
    apply strides_from_spec in Er as [-> ->]. simpl in Ef.
    destruct (checked_mul (P rest) d) eqn:Em; [|done]. apply checked_mul_Some in Em. simpl. lia. }
  apply strides_from_spec in Ef as [-> _].
  destruct (broadcast_loop_total index output input (length input) 0 0 ltac:(lia) Hp eq_refl) as (v & -> & Hv).
  exists v. split; [done|]. intros Hok. split_and!; [|done|lia|done].
  split; [lia|]. specialize (Hv Hok). by rewrite Nat.add_0_r in Hv.
Qed.

(** The dimensions of a broadcast. *)
Lemma dim_from_right_lookup sh k d : sh !! k = Some d → dim_from_right sh (length sh - k) = d.
Proof.
  intros Hk. pose proof (lookup_lt_Some _ _ _ Hk). unfold dim_from_right.
  rewrite (proj2 (Nat.leb_le _ _)) by lia. replace (length sh - (length sh - k))%nat with k by lia. by rewrite Hk.
Qed.

Lemma dim_from_right_positive sh n : positive sh → 0 < dim_from_right sh n.
Proof.
  intros Hp. unfold dim_from_right. case_bool; [|lia]. destruct (sh !! _) as [d|] eqn:Ed; [|done].
  simpl. by eapply (Forall_lookup_1 _ _ _ _ Hp).
Qed.

Lemma broadcast_lookup left right out :
  broadcast left right = Ok out →
  length out = Nat.max (length left) (length right)
  ∧ ∀ i o, out !! i = Some o →
      broadcast_dim (dim_from_right left (length out - i)) (dim_from_right right (length out - i)) = Some o.
Proof.
  unfold broadcast. destruct (mapM _ _) as [l|] eqn:E; simpl; [|done]. intros [= <-].
  apply mapM_Some in E. pose proof (Forall2_length _ _ _ E) as Hl. rewrite length_seq in Hl.
  split; [done|]. intros i o Ho. destruct (Forall2_lookup_r _ _ _ _ _ E Ho) as (j & Hj & Hd).
  apply lookup_seq in Hj as [-> _]. by rewrite <-Hl.
Qed.

Lemma broadcast_dim_comm a b : broadcast_dim a b = broadcast_dim b a.
Proof.
  unfold broadcast_dim. rewrite Z.max_comm, (Z.eqb_sym a b), <-!orb_assoc, (orb_comm (a =? 1)). done.
Qed.

Lemma broadcast_comm left right : broadcast left right = broadcast right left.
Proof.
  unfold broadcast. rewrite (Nat.max_comm (length right)). f_equal. apply mapM_ext.
  intros i. apply broadcast_dim_comm.
Qed.

Lemma broadcast_compatible left right out :
  positive left → positive right → broadcast left right = Ok out → compatible out left ∧ positive out.
Proof.
  intros Hl Hr Hb. destruct (broadcast_lookup _ _ _ Hb) as [Hlen Ho]. split; [split; [lia|]|].
  - apply Forall2_same_length_lookup_2; [rewrite length_drop; lia|].
    intros k o d Hk Hd. rewrite lookup_drop in Hk. apply Ho in Hk as H.
    pose proof (lookup_lt_Some _ _ _ Hd).
    replace (length out - (length out - length left + k))%nat with (length left - k)%nat in H by lia.
    rewrite (dim_from_right_lookup _ _ _ Hd) in H.
    pose proof (dim_from_right_positive right (length left - k) Hr).
    assert (0 < d) by (by eapply (Forall_lookup_1 _ _ _ _ Hl)).
    unfold broadcast_dim in H. case_bool; [|done]. injection H as <-. lia.
  - apply Forall_lookup_2. intros i o Hi. apply Ho in Hi.
    pose proof (dim_from_right_positive left (length out - i) Hl). unfold broadcast_dim in Hi.
    case_bool; [|done]. injection Hi as <-. lia.
Qed.

(** C28. Both operands of a broadcast with positive dimensions are addressed at the
    row-major position of the output's coordinates, each pinned to zero where
    the operand has extent one and dropped where it has no dimension; the
    position is inside the operand. *)
Theorem broadcast_reads_operands left right out idx :
  positive left → positive right → broadcast left right = Ok out → P out <= usize_max →
  in_shape out idx →
  Forall (λ operand,
    in_shape operand (restrict operand idx)
    ∧ broadcast_index (position out idx) out operand
      = Some (Ok (position operand (restrict operand idx)))) [left; right].
Proof.
  intros Hl Hr Hb Hle Hi. destruct (broadcast_compatible _ _ _ Hl Hr Hb) as [Hcl _].
  rewrite broadcast_comm in Hb. destruct (broadcast_compatible _ _ _ Hr Hl Hb) as [Hcr _].
  repeat constructor; eauto using restrict_in_shape, broadcast_index_ok.
Qed.

Lemma broadcast_reads_operands_witness :
  Forall (λ operand,
    in_shape operand (restrict operand [1; 2; 3])
    ∧ broadcast_index (position [2; 3; 4] [1; 2; 3]) [2; 3; 4] operand
      = Some (Ok (position operand (restrict operand [1; 2; 3])))) [[2; 1; 4]; [3; 1]].
Proof.
  apply (broadcast_reads_operands [2; 1; 4] [3; 1] [2; 3; 4] [1; 2; 3]); try done;
    repeat constructor; lia || done.
Defined.

(** Every flat index of the output is the position of coordinates. *)
Lemma position_surjective sh i : positive sh → 0 <= i < P sh → ∃ idx, in_shape sh idx ∧ position sh idx = i.
Proof.
  intros Hp. revert i. induction Hp as [|d sh Hd Hp IH]; intros i Hi; simpl in *.
  { exists []. split; [constructor|simpl; lia]. }
  pose proof (P_positive _ Hp). destruct (IH (i mod P sh)) as (idx & Hs & Hx); [by apply Z.mod_pos_bound|].
  exists (i / P sh :: idx). split.
  - constructor; [|done]. split; [apply Z.div_pos; lia|apply Z.div_lt_upper_bound; lia].
  - simpl. rewrite Hx, Z.mul_comm. symmetry. apply Z.div_mod. lia.
Qed.

(** [broadcast_index] never panics, accepts exactly the indices of the output
    and the operands that broadcast to it, and then answers an element of the
    operand. *)
Theorem broadcast_index_accepts index output input :
  0 <= index → Forall (Z.le 0) output →
  ∃ v, broadcast_index index output input = Some v
  ∧ (is_ok v = true ↔ compatible output input ∧ index < P output <= usize_max)
  ∧ ∀ i, v = Ok i → 0 <= i < P input.
Proof.
  intros Hix Hnn. destruct (broadcast_index_total index output input Hix Hnn) as (v & Hv & Hok).
  assert (Hback : compatible output input ∧ index < P output <= usize_max →
                  ∃ i, v = Ok i ∧ 0 <= i < P input).
  { intros (Hc & Hi & Hm). pose proof (nonneg_positive _ Hnn ltac:(lia)) as Hp.
    destruct (position_surjective output index Hp ltac:(lia)) as (idx & Hs & <-).
    rewrite (broadcast_index_ok _ _ _ Hc Hs Hm) in Hv. injection Hv as <-. eexists. split; [done|].
    by eapply position_bound, restrict_in_shape. }
  exists v. split_and!; [done| |].
  - split; [intros H; destruct (Hok H) as (? & ? & ?); done|]. by intros (i & -> & _)%Hback.
  - intros i ->. destruct (Hok eq_refl) as (Hc & _ & Hb). destruct (Hback (conj Hc Hb)) as (j & [= ->] & Hj). done.
Qed.

Lemma broadcast_index_accepts_witness :
  ∃ v, broadcast_index 23 [2; 3; 4] [3; 1] = Some v
  ∧ (is_ok v = true ↔ compatible [2; 3; 4] [3; 1] ∧ 23 < P [2; 3; 4] <= usize_max)
  ∧ ∀ i, v = Ok i → 0 <= i < P [3; 1].
Proof. apply (broadcast_index_accepts 23 [2; 3; 4] [3; 1]); [lia|]. repeat constructor; lia. Defined.

(** An empty dimension broadcasts against extent one to extent one, and the
    empty operand is then rejected: the restriction to positive dimensions in
    [broadcast_reads_operands] is needed. *)
Lemma empty_dimension_is_lost :
  broadcast [0] [1] = Ok [1] ∧ broadcast_index 0 [1] [0] = Some (Err (Message "input is not broadcast-compatible")).
Proof. done. Qed.

(** A resolved axis is the given one, counted from the end when negative. *)
Lemma axis_spec value rank a :
  0 <= rank →
  axis value rank = Ok a ↔
  rank <= isize_max ∧ 0 <= a < rank ∧ a = (if value <? 0 then value + rank else value).
Proof.
  intros Hr. unfold axis, try_usize. destruct (rank <=? isize_max) eqn:E; simpl; to_prop.
  - set (r := if value <? 0 then value + rank else value). destruct (0 <=? r) eqn:E1; simpl; to_prop; [|naive_solver lia].
    destruct (r <? rank) eqn:E2; simpl; to_prop; naive_solver lia.
  - naive_solver lia.
Qed.

(** ** Decoding *)

(** The value of a finite pattern, in units of the least subnormal. *)
Definition scaled (fraction_bits : Z) (fields : Z * Z * Z) : Z :=
  let '(s, e, f) := fields in
  (if s =? 0 then 1 else -1) * (if e =? 0 then f else (2 ^ fraction_bits + f) * 2 ^ (e - 1)).
Definition f32_value (b : Z) : Z := scaled 23 (f32_fields b).
Definition f64_value (b : Z) : Z := scaled 52 (f64_fields b).

Lemma f64_fields_pattern s e f :
  0 <= e < 2 ^ 11 → 0 <= f < 2 ^ 52 → f64_fields (f64_pattern s e f) = (s, e, f).
Proof.
  intros He Hf. unfold f64_fields, f64_pattern.
  assert (s * 2 ^ 63 + e * 2 ^ 52 + f = (s * 2 ^ 11 + e) * 2 ^ 52 + f) as -> by lia.
  f_equal; [f_equal|].
  - change (2 ^ 63) with (2 ^ 52 * 2 ^ 11). rewrite <-Z.div_div by lia.
    rewrite Z.div_add_l, (Z.div_small f), Z.add_0_r by lia. rewrite Z.div_add_l, (Z.div_small e) by lia. lia.
  - rewrite Z.div_add_l, (Z.div_small f), Z.add_0_r by lia. rewrite Z.add_comm, Z_mod_plus_full. by apply Z.mod_small.
  - rewrite Z.add_comm, Z_mod_plus_full. by apply Z.mod_small.
Qed.

(** Widening a finite value is exact: the units differ by [2 ^ 925]. *)
Lemma widen_exact b : f32_is_finite b = true → f64_value (widen b) = f32_value b * 2 ^ 925.
Proof.
  unfold f32_is_finite, widen, f64_value, f32_value. destruct (f32_fields b) as [[s e] f] eqn:Ef.
  unfold f32_fields in Ef. injection Ef as Hs He Hf. rewrite He. intros Hfin. to_prop.
  pose proof (Z.mod_pos_bound (b / 2 ^ 23) (2 ^ 8) ltac:(lia)) as Hbe.
  pose proof (Z.mod_pos_bound b (2 ^ 23) ltac:(lia)) as Hbf. rewrite He in Hbe. rewrite Hf in Hbf.
  rewrite (proj2 (Z.eqb_neq e 255) Hfin). destruct (e =? 0) eqn:E0; to_prop.
  - destruct (f =? 0) eqn:E1; to_prop.
    + rewrite E0, E1. rewrite f64_fields_pattern by lia. unfold scaled. by rewrite Z.eqb_refl, !Z.mul_0_r.
    + pose proof (Z.log2_spec f ltac:(lia)) as Hk. pose proof (Z.log2_nonneg f).
      pose proof (Z.log2_lt_pow2 f 23 ltac:(lia)) as Hlt. set (k := Z.log2 f) in *.
      rewrite Z.pow_succ_r in Hk by lia. assert (k < 23) by (apply Hlt; lia).
      assert (Hp : 2 ^ k * 2 ^ (52 - k) = 2 ^ 52) by (rewrite <-Z.pow_add_r by lia; f_equal; lia).
      assert (0 < 2 ^ (52 - k)) by (apply Z.pow_pos_nonneg; lia).
      rewrite f64_fields_pattern by nia. unfold scaled. rewrite E0, (proj2 (Z.eqb_neq (k + 874) 0)) by lia.
      simpl (0 =? 0). cbv iota. rewrite <-Hp.
      replace (2 ^ k * 2 ^ (52 - k) + (f - 2 ^ k) * 2 ^ (52 - k)) with (f * 2 ^ (52 - k)) by ring.
      assert (Hq : 2 ^ (52 - k) * 2 ^ (k + 874 - 1) = 2 ^ 925) by (rewrite <-Z.pow_add_r by lia; f_equal; lia).
      rewrite <-Hq. generalize (2 ^ (52 - k)) (2 ^ (k + 874 - 1)). intros. ring.
  - rewrite f64_fields_pattern by lia. unfold scaled. rewrite (proj2 (Z.eqb_neq (e + 896) 0)) by lia.
    rewrite (proj2 (Z.eqb_neq e 0) E0).
    assert (Hq : 2 ^ (e + 896 - 1) * 2 ^ 29 = 2 ^ (e - 1) * 2 ^ 925)
      by (rewrite <-!Z.pow_add_r by lia; f_equal; lia).
    replace (2 ^ 52 + f * 2 ^ 29) with ((2 ^ 23 + f) * 2 ^ 29) by lia.
    rewrite <-!Z.mul_assoc. do 2 f_equal. rewrite (Z.mul_comm (2 ^ 29)). exact Hq.
Qed.

(** Chunks of equal blocks are the blocks. *)
Lemma as_chunks_concat n (bs : list (list Z)) :
  (0 < n)%nat → Forall (λ b, length b = n) bs → as_chunks n (concat bs) = bs.
Proof.
  intros Hn Hb. unfold as_chunks.
  assert (Hl : length (concat bs) = (length bs * n)%nat).
  { induction Hb as [|b bs Hb' Hb IH]; simpl; [done|]. rewrite length_app. lia. }
  rewrite Hl, Nat.div_mul by lia. clear Hl. induction Hb as [|b bs Hb' Hb IH]; simpl; [done|].
  by rewrite take_app_length', drop_app_length', IH.
Qed.

Lemma length_concat_blocks n (vs : list Z) : length (concat (le_bytes n <$> vs)) = (length vs * n)%nat.
Proof.
  induction vs as [|v vs IH]; [done|]. rewrite fmap_cons. cbn [concat length].
  rewrite length_app, length_le_bytes, IH. lia.
Qed.

Lemma raw_chunks_encoded t n vs :
  (0 < n)%nat → raw_data t = concat (le_bytes n <$> vs) → Z.of_nat (length vs) * Z.of_nat n <= usize_max →
  raw_chunks t n (Z.of_nat (length vs)) = Ok (le_bytes n <$> vs).
Proof.
  intros Hn Hr Hle. unfold raw_chunks. rewrite (proj2 (checked_mul_Some _ _ _) (conj eq_refl Hle)). simpl.
  rewrite Hr, length_concat_blocks, Nat2Z.inj_mul, Z.eqb_refl, as_chunks_concat; [done|done|].
  apply Forall_fmap, Forall_true. intros v. apply length_le_bytes.
Qed.

Lemma encoded_nonempty n vs : (0 < n)%nat → vs ≠ [] → concat (le_bytes n <$> vs) ≠ [].
Proof.
  intros Hn Hv H%(f_equal length). rewrite length_concat_blocks in H. destruct vs; [done|simpl in H; lia].
Qed.

Lemma signed64_wrap v : - 2 ^ 63 <= v < 2 ^ 63 → signed64 (v mod 2 ^ 64) = v.
Proof.
  intros Hv. unfold signed64. destruct (Z.le_gt_cases 0 v) as [H|H].
  - rewrite Z.mod_small by lia. case_bool; lia.
  - assert (v mod 2 ^ 64 = v + 2 ^ 64) as ->
      by (rewrite <-(Z_mod_plus_full v 1), Z.mod_small; lia).
    case_bool; lia.
Qed.

(** An embedded tensor whose raw bytes encode as many values as its dimensions
    say decodes to those values, as floats and as integers. *)
Theorem embedded_tensors_decode t vs :
  count t = Ok (Z.of_nat (length vs)) → data_location t = 0 → vs ≠ [] →
  Z.of_nat (length vs) * 8 <= usize_max →
  (data_type t = 1 → Forall (λ v, 0 <= v < 2 ^ 32 ∧ f32_is_finite v = true) vs →
   raw_data t = concat (le_bytes 4 <$> vs) →
   f32s t = Ok vs ∧ ∃ ws, f64s t = Ok ws ∧ f64_value <$> ws = (λ v, f32_value v * 2 ^ 925) <$> vs)
  ∧ (data_type t = 7 → Forall (λ v, - 2 ^ 63 <= v < 2 ^ 63) vs →
     raw_data t = concat (le_bytes 8 <$> vs) → i64s t = Ok vs).
Proof.
  intros Hc Hloc Hne Hle. split.
  - intros Ht Hvs Hr.
    assert (Hf : f32s t = Ok vs).
    { unfold f32s. rewrite Ht, Hloc, Hc. cbn [negb orb Z.eqb Pos.eqb result_bind].
      rewrite bool_decide_eq_false_2 by (rewrite Hr; apply encoded_nonempty; [lia|done]).
      rewrite (raw_chunks_encoded t 4 vs) by (lia || done). cbn [result_map result_bind].
      assert (map from_le_bytes (le_bytes 4 <$> vs) = vs) as ->.
      { change (map ?f ?l) with (f <$> l). rewrite <-list_fmap_compose. rewrite <-(list_fmap_id vs) at 2. apply list_fmap_ext. intros i v Hv.
        unfold compose. rewrite le_roundtrip. apply Z.mod_small. exact (proj1 (Forall_lookup_1 _ _ _ _ Hvs Hv)). }
      rewrite Z.eqb_refl. simpl. replace (existsb _ vs) with false; [done|]. symmetry.
      apply not_true_iff_false. rewrite existsb_exists. intros (v & Hv & Hn).
      apply list_elem_of_In in Hv. rewrite Forall_forall in Hvs. destruct (Hvs v Hv) as [_ H].
      by rewrite H in Hn. }
    split; [done|]. exists (widen <$> vs). unfold f64s. rewrite Hf. split; [done|].
    rewrite <-list_fmap_compose. apply list_fmap_ext. intros i v Hv. apply widen_exact.
    exact (proj2 (Forall_lookup_1 _ _ _ _ Hvs Hv)).
  - intros Ht Hvs Hr. unfold i64s. rewrite Ht, Hloc, Hc. cbn [negb orb Z.eqb Pos.eqb result_bind].
    rewrite bool_decide_eq_false_2 by (rewrite Hr; apply encoded_nonempty; [lia|done]).
    rewrite (raw_chunks_encoded t 8 vs) by (lia || done). cbn [result_map result_bind].
    assert (map (λ b, signed64 (from_le_bytes b)) (le_bytes 8 <$> vs) = vs) as ->.
    { change (map ?f ?l) with (f <$> l). rewrite <-list_fmap_compose. rewrite <-(list_fmap_id vs) at 2.
      apply list_fmap_ext. intros i v Hv. unfold compose. rewrite le_roundtrip.
      apply signed64_wrap. exact (Forall_lookup_1 _ _ _ _ Hvs Hv). }
    by rewrite Z.eqb_refl.
Qed.

(** What is decoded has the declared number of elements. *)
Lemma f32s_count t vs :
  f32s t = Ok vs → count t = Ok (Z.of_nat (length vs)) ∧ Forall (λ v, f32_is_finite v = true) vs.
Proof.
  unfold f32s. destruct (_ || _); [done|]. destruct (count t) as [c|] eqn:Ec; simpl; [|done].
  match goal with |- context [result_bind ?r _] => destruct r as [l|]; simpl; [|done] end.
  destruct (negb (Z.of_nat (length l) =? c) || _) eqn:E; [done|]. intros [= <-].
  apply orb_false_iff in E as [E1 E2]. to_prop. split; [by rewrite E1|].
  apply Forall_forall. intros v Hv. destruct (f32_is_finite v) eqn:Ev; [done|].
  assert (existsb (λ v, negb (f32_is_finite v)) l = true) as E3; [|by rewrite E3 in E2].
  apply existsb_exists. exists v. rewrite Ev. by split; [apply list_elem_of_In|].
Qed.

Lemma embedded_tensors_decode_witness :
  (let t := mkTensorProto [1; 2] 1 [] [] "bias" (concat (le_bytes 4 <$> [1065353216; 1])) 0 in
   f32s t = Ok [1065353216; 1]
   ∧ ∃ ws, f64s t = Ok ws ∧ f64_value <$> ws = (λ v, f32_value v * 2 ^ 925) <$> [1065353216; 1])
  ∧ i64s (mkTensorProto [2] 7 [] [] "axes" (concat (le_bytes 8 <$> [-1; 3])) 0) = Ok [-1; 3].
Proof.
  split.
  - apply (embedded_tensors_decode _ [1065353216; 1]); try done. repeat constructor; lia || done.
  - apply (embedded_tensors_decode _ [-1; 3]); try done. repeat constructor; lia.
Defined.

(** ** Indexes *)

(** The initializers keep their order, and the map holds each under its name. *)
Lemma index_initializers_spec ts m order m' order' :
  index_initializers ts m order = Ok (m', order') →
  order' = order ++ (t_name <$> ts)
  ∧ (∀ t, t ∈ ts → m' !! t_name t = Some t)
  ∧ (∀ n t, m !! n = Some t → m' !! n = Some t)
  ∧ (∀ n t, m' !! n = Some t → m !! n = Some t ∨ (t ∈ ts ∧ t_name t = n)).
Proof.
  revert m order. induction ts as [|t ts IH]; intros m order; simpl.
  { intros [= <- <-]. rewrite app_nil_r. split_and!; [done|by intros ? ?%elem_of_nil|done|by left]. }
  destruct (String.eqb _ _); [done|]. destruct (m !! t_name t) eqn:E; [done|].
  intros (-> & Hin & Hkeep & Hback)%IH. split_and!.
  - by rewrite <-app_assoc.
  - intros u [->|Hu]%elem_of_cons; [|by apply Hin]. apply Hkeep, lookup_insert_eq.
  - intros n u Hn. apply Hkeep. rewrite lookup_insert_ne; [done|]. by intros <-; rewrite E in Hn.
  - intros n u Hu. destruct (Hback n u Hu) as [H|[H1 H2]]; [|right; split; [by right|done]].
    apply lookup_insert_Some in H as [[<- <-]|[_ H]]; [right; split; [by left|done]|by left].
Qed.

Lemma index_initializers_ok ts m order :
  is_ok (index_initializers ts m order) = true ↔
  Forall (λ t, t_name t ≠ "") ts ∧ NoDup (t_name <$> ts) ∧ ∀ t, t ∈ ts → m !! t_name t = None.
Proof.
  revert m order. induction ts as [|t ts IH]; intros m order; simpl.
  { split; [|done]. intros _. split_and!; [constructor|constructor|by intros ? ?%elem_of_nil]. }
  destruct (String.eqb_spec (t_name t) "") as [He|He]; simpl.
  { split; [done|]. intros [Hf _]. by inversion Hf. }
  destruct (m !! t_name t) as [u|] eqn:E; simpl.
  { split; [done|]. intros (_ & _ & H). rewrite (H t) in E by (by left). done. }
  rewrite IH, Forall_cons, NoDup_cons. split.
  - intros (Hf & Hn & Hm).
    assert (Hfresh : ∀ u, u ∈ ts → t_name u ≠ t_name t).
    { intros u Hu Heq. specialize (Hm u Hu). rewrite Heq, lookup_insert_eq in Hm. done. }
    split_and!; try done.
    + intros (u & Hu & Hi)%list_elem_of_fmap. by eapply Hfresh.
    + intros u [->|Hu]%elem_of_cons; [done|]. specialize (Hm u Hu).
      by rewrite lookup_insert_ne in Hm by (symmetry; by apply Hfresh).
  - intros ((_ & Hf) & (Hnin & Hn) & Hm). split_and!; [done|done|]. intros u Hu.
    rewrite lookup_insert_ne; [apply Hm; by right|]. intros Heq. apply Hnin. rewrite Heq. by apply list_elem_of_fmap_2.
Qed.

Lemma elem_of_named v l : v ∈ named l ↔ v ≠ "" ∧ v ∈ l.
Proof. unfold named. by rewrite list_elem_of_filter. Qed.

(** A value is indexed at the node that outputs it. *)
Lemma index_outputs_spec i outs p p' :
  index_outputs i outs p = Ok p' →
  ∀ v j, p' !! v = Some j ↔ p !! v = Some j ∨ (j = i ∧ v ∈ outs).
Proof.
  revert p. induction outs as [|o outs IH]; intros p; simpl.
  { intros [= <-] v j. split; [by left|]. by intros [?|[_ ?%elem_of_nil]]. }
  destruct (p !! o) eqn:E; [done|]. intros H v j. rewrite (IH _ H), lookup_insert_Some, elem_of_cons. split.
  - intros [[[<- <-]|[_ ?]]|[-> ?]]; auto.
  - intros [Hv|[-> [->|Hv]]]; [left; right; split; [by intros ->; rewrite E in Hv|done]|by left; left|by right].
Qed.

Lemma index_outputs_ok i outs p :
  is_ok (index_outputs i outs p) = true ↔ NoDup outs ∧ ∀ o, o ∈ outs → p !! o = None.
Proof.
  revert p. induction outs as [|o outs IH]; intros p; simpl.
  { split; [|done]. intros _. split; [constructor|by intros ? ?%elem_of_nil]. }
  destruct (p !! o) as [j|] eqn:E; simpl.
  { split; [done|]. intros [_ H]. rewrite (H o) in E by (by left). done. }
  rewrite IH, NoDup_cons. split.
  - intros [Hn Hp]. assert (Ho : o ∉ outs) by (intros H%Hp; by rewrite lookup_insert_eq in H).
    split_and!; try done. intros x [->|Hx]%elem_of_cons; [done|]. specialize (Hp x Hx).
    by rewrite lookup_insert_ne in Hp by (intros ->; done).
  - intros [[Ho Hn] Hp]. split; [done|]. intros x Hx.
    rewrite lookup_insert_ne by (intros ->; done). apply Hp. by right.
Qed.

(** How often a value is read by a node, and the nodes that read it. *)
Definition reads (v : string) (n : NodeProto) : nat := length (filter (λ s, s = v) (named (n_input n))).
Fixpoint reader_indexes (v : string) (i : nat) (ns : list NodeProto) : list nat :=
  match ns with [] => [] | n :: ns => replicate (reads v n) i ++ reader_indexes v (S i) ns end.
Fixpoint readers (v : string) (ns : list NodeProto) : list NodeProto :=
  match ns with [] => [] | n :: ns => replicate (reads v n) n ++ readers v ns end.

Lemma index_inputs_spec i ins c v :
  default [] (index_inputs i ins c !! v)
  = default [] (c !! v) ++ replicate (length (filter (λ s, s = v) ins)) i.
Proof.
  revert c. induction ins as [|s ins IH]; intros c; simpl; [by rewrite app_nil_r|].
  rewrite IH, filter_cons. destruct (decide (s = v)) as [->|Hne]; simpl.
  - rewrite lookup_insert_eq. simpl. by rewrite <-app_assoc.
  - by rewrite lookup_insert_ne.
Qed.

Lemma index_nodes_spec i ns p c p' c' :
  index_nodes i ns p c = Ok (p', c') →
  (∀ v j, p' !! v = Some j ↔ p !! v = Some j
     ∨ ∃ k n, j = (i + k)%nat ∧ ns !! k = Some n ∧ v ≠ "" ∧ v ∈ n_output n)
  ∧ ∀ v, default [] (c' !! v) = default [] (c !! v) ++ reader_indexes v i ns.
Proof.
  revert i p c. induction ns as [|n ns IH]; intros i p c; simpl.
  { intros [= <- <-]. split; [naive_solver|]. intros v. by rewrite app_nil_r. }
  destruct (index_outputs i (named (n_output n)) p) as [q|] eqn:E; simpl; [|done].
  intros [Hp Hc]%IH. split.
  - intros v j. rewrite Hp, (index_outputs_spec _ _ _ _ E), elem_of_named. split.
    + intros [[?|(-> & ? & ?)]|(k & m & -> & ? & ? & ?)]; [by left| |].
      * right. exists 0%nat, n. split_and!; done || lia.
      * right. exists (S k), m. split_and!; done || lia.
    + intros [?|([|k] & m & -> & Hk & ? & ?)]; [by left; left| |].
      * simpl in Hk. simplify_eq. left. right. split_and!; done || lia.
      * right. exists k, m. split_and!; done || lia.
  - intros v. rewrite Hc, index_inputs_spec, <-app_assoc. done.
Qed.

Lemma index_nodes_ok i ns p c :
  is_ok (index_nodes i ns p c) = true ↔
  NoDup (ns ≫= λ n, named (n_output n)) ∧ ∀ v, v ∈ (ns ≫= λ n, named (n_output n)) → p !! v = None.
Proof.
  revert i p c. induction ns as [|n ns IH]; intros i p c; simpl.
  { split; [|done]. intros _. split; [constructor|by intros ? ?%elem_of_nil]. }
  pose proof (index_outputs_ok i (named (n_output n)) p) as Ho.
  destruct (index_outputs i (named (n_output n)) p) as [q|] eqn:E; simpl in *.
  - pose proof (index_outputs_spec _ _ _ _ E) as Hq. rewrite IH, NoDup_app.
    destruct (proj1 Ho eq_refl) as [Hn Hp].
    assert (Hqn : ∀ v, q !! v = None ↔ p !! v = None ∧ v ∉ named (n_output n)).
    { intros v. rewrite !eq_None_not_Some. split.
      - intros H. split; [intros [j Hj]; apply H; exists j; apply Hq; by left|].
        intros Hv. apply H. exists i. apply Hq. by right.
      - intros [H1 H2] [j [Hj|[_ Hv]]%Hq]; [apply H1; by exists j|done]. }
    setoid_rewrite Hqn. setoid_rewrite elem_of_app. naive_solver.
  - split; [done|]. intros [Hn Hp]. apply NoDup_app in Hn as (Hn & _ & _).
    assert (false = true); [|done]. apply Ho. split; [done|]. intros o Hi. apply Hp, elem_of_app. by left.
Qed.

Lemma reader_lookups v pre ns :
  mapM (λ i : nat, (pre ++ ns) !! i) (reader_indexes v (length pre) ns) = Some (readers v ns).
Proof.
  apply mapM_Some. revert pre. induction ns as [|n ns IH]; intros pre; simpl; [constructor|].
  apply Forall2_app.
  - apply Forall2_replicate. by rewrite lookup_app_r, Nat.sub_diag by lia.
  - specialize (IH (pre ++ [n])). rewrite length_app, <-app_assoc in IH. simpl in IH.
    by rewrite Nat.add_1_r in IH.
Qed.

(** The indexes of a model describe its graph: initializers are listed in
    order and found under their names; the producer of a value is the node that
    outputs it; its consumers are the nodes that read it, in order and once per
    use.  None of the accessors panics. *)
Theorem indexes_describe_the_graph g ops m :
  from_graph g ops = Ok m →
  initializer_list m = Some ((λ t, (t_name t, t)) <$> g_initializer g)
  ∧ (∀ n t, initializers m !! n = Some t ↔ t ∈ g_initializer g ∧ t_name t = n)
  ∧ (∀ v, ∃ r, producer m v = Some r
       ∧ ∀ i n, g_node g !! i = Some n → (v ≠ "" ∧ v ∈ n_output n) ↔ r = Some n ∧ producers m !! v = Some i)
  ∧ ∀ v, consumer_list m v = Some (readers v (g_node g)).
Proof.
  unfold from_graph. destruct (index_initializers _ _ _) as [[im order]|] eqn:Ei; simpl; [|done].
  destruct (index_nodes _ _ _ _) as [[p c]|] eqn:En; simpl; [|done]. intros [= <-].
  apply index_initializers_spec in Ei as (-> & Hin & _ & Hback). apply index_nodes_spec in En as [Hp Hc].
  split_and!; unfold initializer_list, producer, consumer_list; simpl.
  - apply mapM_Some, Forall2_fmap_2, Forall_Forall2_diag, Forall_forall. intros t Ht. by rewrite Hin.
  - intros n t. split; [|by intros [? <-]; apply Hin]. intros [H|H]%Hback; [by apply lookup_empty_Some in H|done].
  - intros v. destruct (p !! v) as [j|] eqn:E.
    + apply Hp in E as H. destruct H as [H|(k & n & -> & Hk & Hv)]; [by apply lookup_empty_Some in H|].
      simpl in *. rewrite Hk. eexists. split; [done|]. intros i u Hi. split.
      * intros Hu. assert (p !! v = Some i) as Hi' by (apply Hp; right; by exists i, u).
        rewrite E in Hi'. simplify_eq. done.
      * intros [[= ->] [= <-]]. simplify_eq. done.
    + eexists. split; [done|]. intros i n Hi. split; [|by intros [? ?]]. intros Hv. exfalso.
      assert (p !! v = Some i) as Hi' by (apply Hp; right; by exists i, n). by rewrite E in Hi'.
  - intros v. rewrite Hc. apply (reader_lookups v [] (g_node g)).
Qed.

Definition example_graph : GraphProto :=
  mkGraphProto
    [mkNodeProto ["x"; "w"; ""] ["h"] "" "Gemm" "" []; mkNodeProto ["h"; "h"] ["y"; ""] "" "Mul" "" []]
    "g" [mkTensorProto [1] 1 [0] [] "w" [] 0] [mkValueInfoProto "x" None] [mkValueInfoProto "y" None].

Lemma indexes_describe_the_graph_witness :
  ∃ m, from_graph example_graph [] = Ok m
  ∧ consumer_list m "h" = Some (readers "h" (g_node example_graph))
  ∧ length (readers "h" (g_node example_graph)) = 2%nat.
Proof.
  eexists. split; [reflexivity|]. split; [|reflexivity].
  exact (proj2 (proj2 (proj2 (indexes_describe_the_graph example_graph [] _ eq_refl))) "h").
Defined.

(** Exactly the graphs whose initializers are named and distinct and whose
    nonempty outputs are distinct are accepted. *)
Theorem from_graph_accepts g ops :
  is_ok (from_graph g ops) = true ↔
  Forall (λ t, t_name t ≠ "") (g_initializer g)
  ∧ NoDup (t_name <$> g_initializer g)
  ∧ NoDup (g_node g ≫= λ n, named (n_output n)).
Proof.
  pose proof (index_initializers_ok (g_initializer g) ∅ []) as H1.
  pose proof (index_nodes_ok 0 (g_node g) ∅ ∅) as H2. unfold from_graph.
  destruct (index_initializers _ _ _) as [[im order]|]; simpl in *; [|naive_solver].
  destruct (index_nodes _ _ _ _) as [[p c]|]; simpl in *; naive_solver.
Qed.

Lemma bad_attribute_spec allowed names l :
  bad_attribute allowed names l = false ↔
  NoDup (a_name <$> l) ∧ ∀ a, a ∈ l → a_name a ∈ allowed ∧ a_name a ∉ names.
Proof.
  revert names. induction l as [|a l IH]; intros names; simpl.
  { split; [|done]. intros _. split; [constructor|by intros ? ?%elem_of_nil]. }
  rewrite !orb_false_iff, negb_false_iff, bool_decide_eq_true, bool_decide_eq_false, IH, NoDup_cons. split.
  - intros [[Ha Hn] [Hd Hl]]. split_and!; [|done|].
    + intros (u & Hu & Hi)%list_elem_of_fmap. destruct (Hl u Hi) as [_ H]. set_solver.
    + intros u [->|Hu]%elem_of_cons; [done|]. destruct (Hl u Hu). set_solver.
  - intros [[Hf Hd] Hl]. destruct (Hl a) as [? ?]; [by left|]. split_and!; try done. intros u Hu.
    destruct (Hl u) as [? ?]; [by right|]. split; [done|]. rewrite elem_of_union, elem_of_singleton.
    intros [Heq|?]; [|done]. apply Hf. rewrite <-Heq. by apply list_elem_of_fmap_2.
Qed.

(** Attributes are accepted exactly when they are allowed and distinct. *)
Lemma validate_attributes_spec n allowed :
  is_ok (validate_attributes n allowed) = true ↔
  NoDup (a_name <$> attribute n) ∧ ∀ a, a ∈ attribute n → a_name a ∈ allowed.
Proof.
  unfold validate_attributes. pose proof (bad_attribute_spec allowed ∅ (attribute n)) as H.
  destruct (bad_attribute _ _ _); simpl; [|set_solver]. split; [done|]. intros [Hd Ha].
  assert (true = false); [|done]. apply H. set_solver.
Qed.

End OnnxTheorems.
