(* ===== verification/Hub.v ===== *)
(** * Model files of the Hub

    src/src/artifacts/hf.rs: files of a repository resolved through the local
    cache, and downloaded when they are missing and downloading is allowed.
    The client library, the file system behind [bundle::file_digest], the
    environment and the terminal are arguments; the progress bar only prints
    and is not modelled. *)

From S2P Require Import Prelude.
From stdpp Require Import strings.
Local Open Scope Z_scope.

Module Hub.

(** [Repository], [HubFile], [Resolver] and their builders. *)
Record Repository : Type := mkRepository { owner : string; r_name : string; revision : option string }.
Record HubFile : Type := mkHubFile { f_name : string; f_sha256 : option string }.
Record Resolver : Type := mkResolver { repository : Repository; r_offline : bool; r_progress : option bool }.

Definition repository_new (owner name : string) : Repository := mkRepository owner name None.
Definition at_revision (r : Repository) (rev : string) : Repository :=
  mkRepository (owner r) (r_name r) (Some rev).
Definition file_new (name : string) : HubFile := mkHubFile name None.
Definition sha256 (f : HubFile) (digest : string) : HubFile := mkHubFile (f_name f) (Some digest).
Definition resolver_new (r : Repository) : Resolver := mkResolver r false None.
Definition offline (r : Resolver) (b : bool) : Resolver := mkResolver (repository r) b (r_progress r).
Definition progress (r : Resolver) (b : bool) : Resolver := mkResolver (repository r) (r_offline r) (Some b).

(** [eq_ignore_ascii_case] and [environment_true]; [var] is [std::env::var]. *)
Definition to_upper (c : Ascii.ascii) : Ascii.ascii :=
  let n := Ascii.nat_of_ascii c in
  if ((97 <=? n) && (n <=? 122))%nat then Ascii.ascii_of_nat (n - 32) else c.
Fixpoint upper (s : string) : string :=
  match s with EmptyString => EmptyString | String c s => String (to_upper c) (upper s) end.
Definition eq_ignore_ascii_case (a b : string) : bool := String.eqb (upper a) (upper b).
Definition environment_true (var : string → option string) (name : string) : bool :=
  match var name with
  | Some value => existsb (eq_ignore_ascii_case value) ["1"; "ON"; "YES"; "TRUE"]
  | None => false
  end.

(** A request to the client: [local_files_only] stays in the cache.  An answer
    is a path, [HFError::LocalEntryNotFound] or another error. *)
Record Request : Type := mkRequest {
  q_owner : string;
  q_name : string;
  filename : string;
  q_revision : option string;
  local_files_only : bool;
  show : bool }.
Inductive Answer : Type := Found (path : string) | LocalEntryNotFound | Failed (error : string).

Section Resolver.
(** The state of the cache and the network, the client's effect on it, and the
    digest of a file in it. *)
Context {W : Type} (client : Result ()) (send : W → Request → W * Answer)
  (file_digest : W → string → Result string) (var : string → option string) (is_terminal : bool).

(** The state of the world with the requests sent so far. *)
Definition Net : Type := W * list Request.
Definition request (w : Net) (q : Request) : Net * Answer :=
  let '(v, a) := send w.1 q in ((v, w.2 ++ [q]), a).

(** [Resolver::fetch_error]; the text of [LocalEntryNotFound] is the client's. *)
Definition fetch_error (r : Resolver) (f : HubFile) (error : string) : Error :=
  Message ("cannot fetch " +:+ owner (repository r) +:+ "/" +:+ r_name (repository r) +:+ "/" +:+ f_name f
    +:+ match revision (repository r) with Some rev => " at " +:+ rev | None => "" end +:+ ": " +:+ error).

(** [Resolver::verify]. *)
Definition verify (w : Net) (f : HubFile) (path : string) : Result string :=
  match f_sha256 f with
  | None => Ok path
  | Some expected =>
      match file_digest w.1 path with
      | Err e => Err (error_context e ("hashing " +:+ path))
      | Ok actual =>
          if String.eqb actual expected then Ok path
          else Err (Message (path +:+ " has SHA-256 " +:+ actual +:+ ", expected " +:+ expected))
      end
  end.

(** [Resolver::show_progress]. *)
Definition show_progress (r : Resolver) : bool :=
  match r_progress r with
  | Some b => b
  | None => is_terminal && negb (environment_true var "HF_HUB_DISABLE_PROGRESS_BARS")
  end.

(** [Resolver::local]. *)
Definition local (w : Net) (r : Resolver) (f : HubFile) : Net * Result (option string) :=
  match client with
  | Err e => (w, Err e)
  | Ok _ =>
      let '(w, a) := request w (mkRequest (owner (repository r)) (r_name (repository r)) (f_name f)
                                  (revision (repository r)) true false) in
      match a with
      | Found path => (w, result_map Some (verify w f path))
      | LocalEntryNotFound => (w, Ok None)
      | Failed error => (w, Err (fetch_error r f error))
      end
  end.

(** [Resolver::resolve]; an entry not found by a download is rendered by the client. *)
Definition resolve (not_found : string) (w : Net) (r : Resolver) (f : HubFile) : Net * Result string :=
  let '(w, cached) := local w r f in
  match cached with
  | Err e => (w, Err e)
  | Ok (Some path) => (w, Ok path)
  | Ok None =>
      if r_offline r || environment_true var "HF_HUB_OFFLINE"
      then (w, Err (Message (owner (repository r) +:+ "/" +:+ r_name (repository r) +:+ "/" +:+ f_name f
                     +:+ " is not in the Hugging Face cache, and downloading is off")))
      else
        match client with
        | Err e => (w, Err e)
        | Ok _ =>
            let '(w, a) := request w (mkRequest (owner (repository r)) (r_name (repository r)) (f_name f)
                                        (revision (repository r)) false (show_progress r)) in
            match a with
            | Found path => (w, verify w f path)
            | LocalEntryNotFound => (w, Err (fetch_error r f not_found))
            | Failed error => (w, Err (fetch_error r f error))
            end
        end
  end.

(** [Resolver::resolve_all]: collecting stops at the first error. *)
Fixpoint resolve_all (not_found : string) (w : Net) (r : Resolver) (files : list HubFile)
    : Net * Result (list string) :=
  match files with
  | [] => (w, Ok [])
  | f :: files =>
      let '(w, a) := resolve not_found w r f in
      match a with
      | Err e => (w, Err e)
      | Ok path =>
          let '(w, rest) := resolve_all not_found w r files in
          (w, result_map (cons path) rest)
      end
  end.

(** ** What is resolved *)

(** The files of a world are stable: requests add to the cache and leave the
    contents of the paths that were already answered. *)
Definition stable : Prop :=
  ∀ v q path d, file_digest v path = Ok d → file_digest (send v q).1 path = Ok d.

Lemma request_log w q : (request w q).1.2 = w.2 ++ [q].
Proof. unfold request. by destruct (send w.1 q). Qed.

Lemma request_digest w q path d :
  stable → file_digest w.1 path = Ok d → file_digest (request w q).1.1 path = Ok d.
Proof. intros Hs Hd. unfold request. pose proof (Hs w.1 q path d Hd). by destruct (send w.1 q). Qed.

Lemma verify_ok w f path p :
  verify w f path = Ok p → p = path ∧ ∀ d, f_sha256 f = Some d → file_digest w.1 path = Ok d.
Proof.
  unfold verify. destruct (f_sha256 f) as [x|]; [|by intros [= <-]].
  destruct (file_digest w.1 path) as [a|]; [|done]. destruct (String.eqb_spec a x) as [->|]; [|done].
  intros [= <-]. split; [done|]. by intros d [= ->].
Qed.

(** The requests of one resolution: the cache first, then at most one download,
    which an offline resolver never sends. *)
Definition asks (r : Resolver) (f : HubFile) (l : list Request) : Prop :=
  Forall (λ q, filename q = f_name f ∧ q_revision q = revision (repository r)) l
  ∧ (length l <= 2)%nat
  ∧ (∀ q, l !! 0%nat = Some q → local_files_only q = true)
  ∧ (r_offline r || environment_true var "HF_HUB_OFFLINE" = true → Forall (λ q, local_files_only q = true) l).

Lemma resolve_spec nf w r f :
  ∃ l, (resolve nf w r f).1.2 = w.2 ++ l ∧ asks r f l
  ∧ (stable → ∀ path d, file_digest w.1 path = Ok d → file_digest (resolve nf w r f).1.1 path = Ok d)
  ∧ ∀ path, (resolve nf w r f).2 = Ok path →
      ∀ d, f_sha256 f = Some d → file_digest (resolve nf w r f).1.1 path = Ok d.
Proof.
  unfold resolve, local. destruct client as [[]|e] eqn:Ec.
  2: { exists []. simpl. rewrite app_nil_r. split_and!; try done. split_and!; simpl; [constructor|lia|done|by constructor]. }
  set (q1 := mkRequest _ _ _ _ true false). pose proof (request_log w q1) as Hl.
  pose proof (request_digest w q1) as Hg. destruct (request w q1) as [w1 a1] eqn:E1. simpl in Hl, Hg.
  assert (Ha1 : asks r f [q1])
    by (split_and!; [by repeat constructor|simpl; lia|by intros q [= <-]|by repeat constructor]).
  destruct a1 as [p| |er].
  - destruct (verify w1 f p) as [p'|e] eqn:Ev; simpl; exists [q1]; split_and!; try done; [eauto| |eauto].
    apply verify_ok in Ev as [-> Hv]. by intros path [= <-].
  - destruct (r_offline r || environment_true var "HF_HUB_OFFLINE") eqn:Eo; simpl.
    { exists [q1]. split_and!; [done|done|eauto|done]. }
    set (q2 := mkRequest _ _ _ _ false _). pose proof (request_log w1 q2) as Hl2.
    pose proof (request_digest w1 q2) as Hg2. destruct (request w1 q2) as [w2 a2] eqn:E2. simpl in Hl2, Hg2.
    assert (Ha2 : asks r f [q1; q2])
      by (split_and!; [by repeat constructor|simpl; lia|by intros q [= <-]|by rewrite Eo]).
    exists [q1; q2]. rewrite Hl, <-app_assoc in Hl2.
    destruct a2 as [p| |er]; simpl; (split_and!; [done|done|eauto|]); try done.
    intros path Hv%verify_ok. by destruct Hv as [-> Hv].
  - simpl. exists [q1]. split_and!; [done|done|eauto|done].
Qed.

(** Every file that is resolved has its expected digest at the end; files are
    answered in request order; the cache is asked before the network, and a
    resolver that is offline, by its own setting or by the environment, never
    sends a download. *)
Theorem resolved_files_are_verified nf w r files :
  stable →
  ∃ l, (resolve_all nf w r files).1.2 = w.2 ++ concat l
  ∧ (∃ n, Forall2 (asks r) (take n files) l)
  ∧ (r_offline r || environment_true var "HF_HUB_OFFLINE" = true →
     Forall (λ q, local_files_only q = true) (concat l))
  ∧ ∀ paths, (resolve_all nf w r files).2 = Ok paths →
      Forall2 (λ f path, ∀ d, f_sha256 f = Some d →
        file_digest (resolve_all nf w r files).1.1 path = Ok d) files paths.
Proof.
  intros Hs.
  enough (H : ∃ l, (resolve_all nf w r files).1.2 = w.2 ++ concat l
    ∧ (∃ n, Forall2 (asks r) (take n files) l)
    ∧ (∀ path d, file_digest w.1 path = Ok d → file_digest (resolve_all nf w r files).1.1 path = Ok d)
    ∧ ∀ paths, (resolve_all nf w r files).2 = Ok paths →
        Forall2 (λ f path, ∀ d, f_sha256 f = Some d →
          file_digest (resolve_all nf w r files).1.1 path = Ok d) files paths).
  { destruct H as (l & Hl & [n Hn] & _ & Hp). exists l. split_and!; [done|by exists n| |done].
    intros Ho. apply Forall_concat, Forall_forall. intros x Hx.
    destruct (list_elem_of_lookup_1 _ _ Hx) as [i Hi].
    destruct (Forall2_lookup_r _ _ _ _ _ Hn Hi) as (f & _ & _ & _ & _ & Ha). by apply Ha. }
  revert w. induction files as [|f files IH]; intros w; simpl.
  { exists []. simpl. rewrite app_nil_r. split_and!; [done|by exists 0%nat; constructor|done|].
    intros paths [= <-]. constructor. }
  destruct (resolve_spec nf w r f) as (l1 & Hl1 & Ha & Hd & Hv).
  destruct (resolve nf w r f) as [w1 [path|e]]; simpl in *.
  2: { exists [l1]. simpl. rewrite app_nil_r. split_and!; [done|exists 1%nat; rewrite firstn_cons, take_0; constructor; [done|constructor]|by apply Hd|done]. }
  destruct (IH w1) as (l & Hl & [n Hn] & Hk & Hp).
  destruct (resolve_all nf w1 r files) as [w2 [rest|e]]; simpl in *; exists (l1 :: l); simpl;
    (split_and!; [by rewrite Hl, Hl1, app_assoc|exists (S n); by constructor|by eauto|]); [|done].
  intros paths [= <-]. constructor; [by eauto|by apply Hp].
Qed.
End Resolver.

(** A cache that downloads what it does not have. *)
Definition example_send (v : list string) (q : Request) : list string * Answer :=
  if bool_decide (filename q ∈ v) then (v, Found (filename q))
  else if local_files_only q then (v, LocalEntryNotFound)
  else (filename q :: v, Found (filename q)).
Definition example_digest (v : list string) (path : string) : Result string :=
  if bool_decide (path ∈ v) then Ok (path +:+ "#") else Err (Io "missing").
Definition example_resolver : Resolver := resolver_new (repository_new "o" "r").
Definition example_files : list HubFile := [sha256 (file_new "a") "a#"; file_new "b"].
Definition example_run : Net * Result (list string) :=
  resolve_all (Ok ()) example_send example_digest (λ _, None) false "none" (["a"], []) example_resolver example_files.

Lemma resolved_files_are_verified_witness :
  example_run.2 = Ok ["a"; "b"]
  ∧ map local_files_only example_run.1.2 = [true; true; false]
  ∧ ∃ l, example_run.1.2 = concat l
    ∧ (∃ n, Forall2 (asks (λ _, None) example_resolver) (take n example_files) l).
Proof.
  split; [vm_compute; reflexivity|]. split; [vm_compute; reflexivity|].
  destruct (resolved_files_are_verified (Ok ()) example_send example_digest (λ _, None) false "none"
    (["a"], []) example_resolver example_files) as (l & Hl & Hn & _); [|by exists l].
  intros v q path d. unfold example_digest, example_send.
  destruct (bool_decide (path ∈ v)) eqn:E; [|done]. intros [= <-]. apply bool_decide_eq_true in E.
  destruct (bool_decide (filename q ∈ v)); [|destruct (local_files_only q)]; simpl;
    rewrite bool_decide_eq_true_2; done || (by right).
Defined.

(** The boolean values of the unit test. *)
Example documented_booleans :
  forallb (λ value, environment_true (λ _, Some value) "X") ["1"; "ON"; "on"; "YES"; "yes"; "TRUE"; "true"] = true.
Proof. done. Qed.

End Hub.
