(* ===== verification/Resident.v ===== *)
(** * Resident exchanges

    src/src/fabric/resident.rs: a single exchange between a GPU and an NPU
    program that start on a word written by the host.  The session is a state
    machine driven by its owner; the two devices poll, run and retire at their
    own pace.  The theorems are about every interleaving: no device runs before
    both were accepted, the decision is written once, and storage is released
    only when neither device can reach it. *)

From S2P Require Import Prelude.
Local Open Scope Z_scope.

Module Resident.

(** ** The startup allocation *)

(** [Engine] and the commands of a queue family. *)
Inductive Engine : Type := Gpu | Xdna | OtherEngine.
Inductive QueueCommand : Type := Pm4 | Aql | XdnaCommand | OtherCommand.
Global Instance engine_eq_dec : EqDecision Engine.
Proof. solve_decision. Defined.
Record Family : Type := mkFamily { command : QueueCommand; ordinal : Z }.

Definition starts (f : Family) : bool :=
  match command f with Pm4 | Aql | XdnaCommand => true | OtherCommand => false end.

Section Startup.
(** The devices, allocation profiles, buffers and prepared releases of the
    native layer, with the calls that produce them. *)
Context {Device Profile Buffer Release : Type} (engine : Device → Engine)
  (allocation_profiles : Device → Device → Result (list Profile))
  (allocate : Profile → Z → Result Buffer) (zero : Buffer → Result ())
  (queue_capabilities : Device → Result (list Family))
  (prepare_release : Buffer → Device → Z → Result Release).

(** The loop over the families of one device. *)
Fixpoint publications (b : Buffer) (d : Device) (l : list Family) (acc : list Release)
    : Result (list Release) :=
  match l with
  | [] => Ok acc
  | f :: rest =>
      if starts f
      then let? r := prepare_release b d (ordinal f) in publications b d rest (acc ++ [r])
      else publications b d rest acc
  end.
Fixpoint publish_devices (b : Buffer) (ds : list Device) (acc : list Release) : Result (list Release) :=
  match ds with
  | [] => Ok acc
  | d :: rest =>
      let? families := queue_capabilities d in
      let? acc := publications b d families acc in
      publish_devices b rest acc
  end.

(** [ResidentStartup::new]. *)
Definition startup_new (gpu npu : Device) : Result (Buffer * list Release) :=
  if negb (bool_decide (engine gpu = Gpu)) || negb (bool_decide (engine npu = Xdna))
  then Err (Unsupported "resident startup requires a GPU and an NPU")
  else
    let? profiles := allocation_profiles gpu npu in
    let? profile := ok_or (head profiles) (Unsupported "resident startup requires coherent GPU backing") in
    let? buffer := allocate profile 64 in
    let? _ := zero buffer in
    let? publication := publish_devices buffer [gpu; npu] [] in
    Ok (buffer, publication).

(** The families of a device that can start a program. *)
Definition covered (b : Buffer) (d : Device) (rs : list Release) : Prop :=
  ∃ l, queue_capabilities d = Ok l
  ∧ ∀ f, f ∈ l → starts f = true → ∃ r, prepare_release b d (ordinal f) = Ok r ∧ r ∈ rs.

Lemma publications_cover b d l acc rs :
  publications b d l acc = Ok rs →
  (∀ r, r ∈ acc → r ∈ rs)
  ∧ ∀ f, f ∈ l → starts f = true → ∃ r, prepare_release b d (ordinal f) = Ok r ∧ r ∈ rs.
Proof.
  revert acc. induction l as [|f l IH]; intros acc; simpl.
  { intros [= <-]. split; [done|]. by intros ? ?%elem_of_nil. }
  destruct (starts f) eqn:Es.
  - destruct (prepare_release b d (ordinal f)) as [r|] eqn:Er; simpl; [|done].
    intros [Ha Hl]%IH. split; [intros x Hx; apply Ha, elem_of_app; by left|].
    intros g [->|Hg]%elem_of_cons Hs; [|by apply Hl]. exists r. split; [done|].
    apply Ha, elem_of_app. right. by apply list_elem_of_singleton.
  - intros [Ha Hl]%IH. split; [done|]. intros g [->|Hg]%elem_of_cons Hs; [by rewrite Es in Hs|by apply Hl].
Qed.

Lemma publish_devices_cover b ds acc rs :
  publish_devices b ds acc = Ok rs → (∀ r, r ∈ acc → r ∈ rs) ∧ ∀ d, d ∈ ds → covered b d rs.
Proof.
  revert acc. induction ds as [|d ds IH]; intros acc; simpl.
  { intros [= <-]. split; [done|]. by intros ? ?%elem_of_nil. }
  destruct (queue_capabilities d) as [l|] eqn:Eq; simpl; [|done].
  destruct (publications b d l acc) as [acc'|] eqn:Ep; simpl; [|done].
  apply publications_cover in Ep as [Ha Hl]. intros [Hk Hd]%IH. split; [eauto|].
  intros x [->|Hx]%elem_of_cons; [|by apply Hd]. exists l. split; [done|].
  intros f Hf Hs. destruct (Hl f Hf Hs) as (r & Hr & Hin). eauto.
Qed.

(** A startup word is released to every queue family of both devices that can
    start a program. *)
Lemma startup_reaches_every_queue gpu npu b rs :
  startup_new gpu npu = Ok (b, rs) → covered b gpu rs ∧ covered b npu rs.
Proof.
  unfold startup_new. destruct (_ || _); [done|].
  destruct (allocation_profiles gpu npu) as [ps|]; cbn [result_bind]; [|done].
  destruct (ok_or (head ps) _) as [p|]; cbn [result_bind]; [|done].
  destruct (allocate p 64) as [b'|]; cbn [result_bind]; [|done].
  destruct (zero b') as [[]|]; cbn [result_bind]; [|done].
  destruct (publish_devices b' [gpu; npu] []) as [rs'|] eqn:E; cbn [result_bind]; [|done].
  intros [= <- <-]. apply publish_devices_cover in E as [_ E]. split; apply E; set_solver.
Qed.
End Startup.

(** ** The session *)

(** Where a device's program is: not accepted, polling the startup word,
    exchanging payload, or retired. *)
Inductive Part : Type := Absent | Polling | Running | Retired.
Global Instance part_eq_dec : EqDecision Part.
Proof. solve_decision. Defined.

(** What the session's [owners] are: held, dropped, or forgotten. *)
Inductive Owners : Type := Held | Released | Quarantined.

(** [ResidentSession] with the startup word and the devices.  [gpu_done] and
    [npu_done] tell that a completion is held; [stores] are the values written to
    the word, in order. *)
Record World : Type := mkWorld {
  stores : list Z;
  gpu : Part;
  npu : Part;
  gpu_done : bool;
  npu_done : bool;
  decision : option Z;
  poisoned : bool;
  owners : Owners }.

Definition word (w : World) : Z := default 0 (last (stores w)).
Definition initial : World := mkWorld [] Absent Absent false false None false Held.

Definition RUN : Z := 1.
Definition ABORT : Z := 2.

(** [ResidentStartup::publish]: the store, then the prepared releases, whose
    outcomes are [actions]. *)
Fixpoint execute_all (actions : list (Result ())) : Result () :=
  match actions with [] => Ok () | r :: rest => let? _ := r in execute_all rest end.
Definition publish (w : World) (value : Z) (actions : list (Result ())) : World * Result () :=
  (mkWorld (stores w ++ [value]) (gpu w) (npu w) (gpu_done w) (npu_done w) (decision w) (poisoned w) (owners w),
   execute_all actions).

Definition set_decision (w : World) (d : Z) : World :=
  mkWorld (stores w) (gpu w) (npu w) (gpu_done w) (npu_done w) (Some d) (poisoned w) (owners w).
Definition poison (w : World) : World :=
  mkWorld (stores w) (gpu w) (npu w) (gpu_done w) (npu_done w) (decision w) true (owners w).
Definition set_owners (w : World) (o : Owners) : World :=
  mkWorld (stores w) (gpu w) (npu w) (gpu_done w) (npu_done w) (decision w) (poisoned w) o.
Definition accept_gpu (w : World) : World :=
  mkWorld (stores w) Polling (npu w) true (npu_done w) (decision w) (poisoned w) (owners w).
Definition accept_npu (w : World) : World :=
  mkWorld (stores w) (gpu w) Polling (gpu_done w) true (decision w) (poisoned w) (owners w).

(** [ResidentSession::ready], [decide], [abort]. *)
Definition ready (w : World) : Result () :=
  if poisoned w || bool_decide (is_Some (decision w))
  then Err (Busy "resident startup is already decided or failed") else Ok ().
Definition decide (w : World) (value : Z) (actions : list (Result ())) : World * Result () :=
  match ready w with
  | Err e => (w, Err e)
  | Ok _ =>
      let '(w, r) := publish (set_decision w value) value actions in
      (if is_ok r then w else poison w, r)
  end.
Definition abort (w : World) (actions : list (Result ())) : World * Result () := decide w ABORT actions.

(** [ResidentSession::submit_gpu] and [submit_npu]; [outcome] is the native
    dispatch, and a rejected dispatch starts nothing. *)
Definition submit_gpu (w : World) (outcome : Result ()) (actions : list (Result ())) : World * Result () :=
  match ready w with
  | Err e => (w, Err e)
  | Ok _ =>
      if gpu_done w then (w, Err (Busy "GPU participant already submitted"))
      else match outcome with
           | Ok _ => (accept_gpu w, Ok ())
           | Err error => ((abort w actions).1, Err error)
           end
  end.
Definition submit_npu (w : World) (outcome : Result ()) (actions : list (Result ())) : World * Result () :=
  match ready w with
  | Err e => (w, Err e)
  | Ok _ =>
      if npu_done w then (w, Err (Busy "NPU participant already submitted"))
      else match outcome with
           | Ok _ => (accept_npu w, Ok ())
           | Err error => ((abort w actions).1, Err error)
           end
  end.

(** [ResidentSession::start]. *)
Definition start (w : World) (actions : list (Result ())) : World * Result () :=
  match ready w with
  | Err e => (w, Err e)
  | Ok _ =>
      if negb (gpu_done w) || negb (npu_done w)
      then (w, Err (Busy "both resident participants must be accepted before RUN"))
      else decide w RUN actions
  end.

(** [ResidentSession::is_complete]: [&&] stops at the first [false], [?] at the
    first error. *)
Definition is_complete (w : World) (gpu_result npu_result : Result bool) : Result bool :=
  if negb (bool_decide (is_Some (decision w))) then Ok false
  else
    let? g := if gpu_done w then gpu_result else Ok true in
    if g then (if npu_done w then npu_result else Ok true) else Ok false.

(** [ResidentSession::wait_timeout]; both joins are attempted.  The arguments
    are the outcomes of the native waits. *)
Definition wait_timeout (w : World) (gpu_result npu_result : Result bool) : World * Result bool :=
  match decision w with
  | None => (w, Err (Busy "resident startup remains undecided"))
  | Some _ =>
      let g := if gpu_done w then gpu_result else Ok true in
      let n := if npu_done w then npu_result else Ok true in
      let w := if negb (is_ok g) || negb (is_ok n) then poison w else w in
      (w, let? g := g in if g then n else Ok false)
  end.

(** [Drop for ResidentSession]: the owners are dropped, or forgotten. *)
Definition drop_session (w : World) (actions : list (Result ())) (gpu_result npu_result : Result bool) : World :=
  let w := match decision w with None => (abort w actions).1 | Some _ => w end in
  let '(w, r) := wait_timeout w gpu_result npu_result in
  let retired := match r with Ok b => b | Err _ => false end in
  set_owners w (if negb retired || poisoned w then Quarantined else Released).

(** ** Interleavings *)

(** A native wait that answers [true] has seen its device retire. *)
Definition honest (p : Part) (r : Result bool) : Prop := r = Ok true → p = Retired.

(** One call of the owner while the session is held. *)
Inductive host : World → World → Prop :=
| host_submit_gpu w outcome actions : owners w = Held → host w (submit_gpu w outcome actions).1
| host_submit_npu w outcome actions : owners w = Held → host w (submit_npu w outcome actions).1
| host_start w actions : owners w = Held → host w (start w actions).1
| host_abort w actions : owners w = Held → host w (abort w actions).1
| host_wait w g n :
    owners w = Held → honest (gpu w) g → honest (npu w) n → host w (wait_timeout w g n).1
| host_drop w actions g n :
    owners w = Held → honest (gpu w) g → honest (npu w) n → host w (drop_session w actions g n).

(** A program polls the word before it touches payload: it runs after RUN and
    retires after ABORT.  A native failure may retire it at any time. *)
Inductive device (word : Z) : Part → Part → Prop :=
| device_run : word = RUN → device word Polling Running
| device_abort : word = ABORT → device word Polling Retired
| device_finish : device word Running Retired
| device_fail : device word Polling Retired.

Definition set_gpu (w : World) (p : Part) : World :=
  mkWorld (stores w) p (npu w) (gpu_done w) (npu_done w) (decision w) (poisoned w) (owners w).
Definition set_npu (w : World) (p : Part) : World :=
  mkWorld (stores w) (gpu w) p (gpu_done w) (npu_done w) (decision w) (poisoned w) (owners w).

Inductive step : World → World → Prop :=
| step_host w w' : host w w' → step w w'
| step_gpu w p : device (word w) (gpu w) p → step w (set_gpu w p)
| step_npu w p : device (word w) (npu w) p → step w (set_npu w p).

(** States reachable from a new session. *)
Inductive reachable : World → Prop :=
| reachable_initial : reachable initial
| reachable_step w w' : reachable w → step w w' → reachable w'.

(** ** The invariant *)

Definition quiet (p : Part) : Prop := p = Absent ∨ p = Retired.
Record inv (w : World) : Prop := mkInv {
  inv_stores : stores w = match decision w with None => [] | Some d => [d] end;
  inv_values : decision w = None ∨ decision w = Some RUN ∨ decision w = Some ABORT;
  inv_run : decision w = Some RUN → gpu_done w = true ∧ npu_done w = true;
  inv_gpu : gpu w = Absent ↔ gpu_done w = false;
  inv_npu : npu w = Absent ↔ npu_done w = false;
  inv_running : gpu w = Running ∨ npu w = Running → decision w = Some RUN;
  inv_poisoned : poisoned w = true → is_Some (decision w);
  inv_closed : owners w ≠ Held → is_Some (decision w);
  inv_released : owners w = Released → quiet (gpu w) ∧ quiet (npu w) }.

Lemma word_decision w : inv w → word w = match decision w with None => 0 | Some d => d end.
Proof. intros H. unfold word. rewrite (inv_stores w H). by destruct (decision w). Qed.

Lemma ready_ok w : inv w → is_ok (ready w) = true ↔ decision w = None.
Proof.
  intros H. unfold ready. destruct (poisoned w) eqn:Ep; simpl.
  - destruct (inv_poisoned w H Ep) as [d ->]. done.
  - case_bool_decide as E; simpl; [destruct E as [d ->]; done|]. split; [|done]. intros _. by apply eq_None_not_Some.
Qed.

(** What a decision changes. *)
Lemma decide_cases w v actions :
  inv w → (v = RUN → gpu_done w = true ∧ npu_done w = true) → v = RUN ∨ v = ABORT →
  let w' := (decide w v actions).1 in
  (decision w = None → decision w' = Some v ∧ stores w' = [v])
  ∧ (is_Some (decision w) → w' = w)
  ∧ gpu w' = gpu w ∧ npu w' = npu w ∧ gpu_done w' = gpu_done w ∧ npu_done w' = npu_done w
  ∧ owners w' = owners w ∧ inv w'.
Proof.
  intros H Hr Hv. simpl. unfold decide. pose proof (ready_ok w H) as Hk.
  destruct (ready w) as [[]|e]; simpl in Hk |- *.
  - pose proof (proj1 Hk eq_refl) as Hn. pose proof (inv_stores w H) as Hs. rewrite Hn in Hs.
    destruct (execute_all actions); simpl; rewrite Hs;
      (split_and!; try done; [by intros [? ?]; simplify_eq|]); destruct H; constructor; simpl; try done; try naive_solver.
  - split_and!; try done. intros Hn. by apply Hk in Hn.
Qed.

Lemma decide_inv w v actions :
  inv w → (v = RUN → gpu_done w = true ∧ npu_done w = true) → v = RUN ∨ v = ABORT → inv (decide w v actions).1.
Proof.
  intros H Hr Hv. by destruct (decide_cases w v actions H Hr Hv) as (_ & _ & _ & _ & _ & _ & _ & Hi).
Qed.

Lemma abort_inv w actions : inv w → inv (abort w actions).1.
Proof. intros H. apply decide_inv; [done|done|by right]. Qed.

Lemma submit_gpu_inv w outcome actions : inv w → inv (submit_gpu w outcome actions).1.
Proof.
  intros H. unfold submit_gpu. pose proof (ready_ok w H) as Hk. destruct (ready w); simpl in Hk |- *; [|done].
  pose proof (proj1 Hk eq_refl) as Hn. destruct (gpu_done w) eqn:Eg; [done|].
  destruct outcome; simpl; [|by apply abort_inv].
  destruct H as [Hs Hv Hr Ig In Hrun Hp Hc Hl].
  constructor; simpl; [done|done|by rewrite Hn|by split|done| |done|done|].
  - intros [?|Hx]; [done|]. apply Hrun. by right.
  - intros Ho. destruct Hc as [d E]; [by rewrite Ho|by rewrite Hn in E].
Qed.

Lemma submit_npu_inv w outcome actions : inv w → inv (submit_npu w outcome actions).1.
Proof.
  intros H. unfold submit_npu. pose proof (ready_ok w H) as Hk. destruct (ready w); simpl in Hk |- *; [|done].
  pose proof (proj1 Hk eq_refl) as Hn. destruct (npu_done w) eqn:Eg; [done|].
  destruct outcome; simpl; [|by apply abort_inv].
  destruct H as [Hs Hv Hr Ig In Hrun Hp Hc Hl].
  constructor; simpl; [done|done|by rewrite Hn|done|by split| |done|done|].
  - intros [Hx|?]; [|done]. apply Hrun. by left.
  - intros Ho. destruct Hc as [d E]; [by rewrite Ho|by rewrite Hn in E].
Qed.

Lemma start_inv w actions : inv w → inv (start w actions).1.
Proof.
  intros H. unfold start. destruct (ready w); simpl; [|done].
  destruct (negb (gpu_done w) || negb (npu_done w)) eqn:E; simpl; [done|]. to_prop.
  apply decide_inv; [done|done|by left].
Qed.

(** A wait only poisons; when it answers [true], what was accepted has retired. *)
Lemma poison_inv w : inv w → is_Some (decision w) → inv (poison w).
Proof. intros [] Hd. by constructor. Qed.

Lemma wait_cases w g n :
  inv w → honest (gpu w) g → honest (npu w) n →
  let w' := (wait_timeout w g n).1 in
  (w' = w ∨ w' = poison w) ∧ inv w'
  ∧ ((wait_timeout w g n).2 = Ok true → quiet (gpu w) ∧ quiet (npu w)).
Proof.
  intros H Hg Hn. simpl. unfold wait_timeout. destruct (decision w) as [d|] eqn:Ed; simpl; [|by split_and!; [left| |]].
  split_and!.
  - destruct (_ || _); auto.
  - destruct (_ || _); [|done]. apply poison_inv; [done|by rewrite Ed].
  - unfold quiet, honest in *. intros Hr. pose proof (inv_gpu w H) as Ig. pose proof (inv_npu w H) as In.
    destruct (gpu_done w), (npu_done w); [destruct g as [[]|]|destruct g as [[]|]| |];
      simpl in Hr; try done; (split; [first [by right; apply Hg|by left; apply Ig]
                                     |first [by right; apply Hn|by left; apply In]]).
Qed.

(** A drop decides, and releases only after both joins. *)
Lemma drop_cases w actions g n :
  inv w → honest (gpu w) g → honest (npu w) n → inv (drop_session w actions g n).
Proof.
  intros H Hg Hn. unfold drop_session.
  set (w1 := match decision w with None => (abort w actions).1 | Some _ => w end).
  assert (inv w1 ∧ is_Some (decision w1) ∧ gpu w1 = gpu w ∧ npu w1 = npu w) as (H1 & Hd & Eg & En).
  { subst w1. destruct (decision w) as [d|] eqn:Ed; [by rewrite Ed|].
    destruct (decide_cases w ABORT actions H) as (Ha & _ & ? & ? & _ & _ & _ & Hi); [done|by right|].
    split_and!; try done. unfold abort. by rewrite (proj1 (Ha Ed)). }
  rewrite <-Eg in Hg. rewrite <-En in Hn. destruct (wait_cases w1 g n H1 Hg Hn) as (Hw & Hi & Hq).
  destruct (wait_timeout w1 g n) as [w2 r]. simpl in *.
  assert (is_Some (decision w2)) by (destruct Hw as [->| ->]; done).
  assert (gpu w2 = gpu w1 ∧ npu w2 = npu w1) as [E1 E2] by (destruct Hw as [->| ->]; done).
  destruct Hi. constructor; simpl; try done.
  rewrite E1, E2. destruct r as [[]|]; simpl; [|done|done]. intros _. by apply Hq.
Qed.

Lemma device_inv (w : World) d p q :
  inv w → device (word w) p q → (p = Absent ↔ d = false) →
  (q = Absent ↔ d = false) ∧ (q = Running → decision w = Some RUN) ∧ (quiet p → quiet q).
Proof.
  intros H Hd Hp. pose proof (word_decision w H) as Hw. unfold quiet.
  assert (Hnew : word w = RUN → decision w = Some RUN).
  { rewrite Hw. destruct (decision w) as [x|] eqn:E; [by intros ->|]. unfold RUN. lia. }
  destruct Hd; split_and!; naive_solver.
Qed.

Lemma resident_step_inv w w' : inv w → step w w' → inv w'.
Proof.
  intros H Hs. revert H. destruct Hs as [w1 w2 Hh|w1 p Hd|w1 p Hd]; intros H.
  - revert H. destruct Hh as [| | | |w1 g n _ Hg Hn|]; intros Hi;
      eauto using submit_gpu_inv, submit_npu_inv, start_inv, abort_inv, drop_cases.
    by destruct (wait_cases w1 g n Hi Hg Hn) as (_ & ? & _).
  - destruct (device_inv w1 _ _ _ H Hd (inv_gpu w1 H)) as (? & ? & ?).
    destruct H. constructor; simpl; try done; naive_solver.
  - destruct (device_inv w1 _ _ _ H Hd (inv_npu w1 H)) as (? & ? & ?).
    destruct H. constructor; simpl; try done; naive_solver.
Qed.

Lemma resident_reachable_inv w : reachable w → inv w.
Proof.
  induction 1 as [|w w' _ IH Hs]; [|by eapply resident_step_inv].
  constructor; simpl; try done; try naive_solver.
Qed.

(** C24. Whatever the owner calls, fails or drops and however the devices interleave,
    the startup word is written at most once; a device exchanges payload only
    after both were accepted and RUN was written; and the owners are dropped
    only when neither device can reach them, after a decision was published. *)
Theorem resident_sessions_are_safe w :
  reachable w →
  (length (stores w) <= 1)%nat
  ∧ (gpu w = Running ∨ npu w = Running → stores w = [RUN] ∧ gpu w ≠ Absent ∧ npu w ≠ Absent)
  ∧ (owners w = Released → quiet (gpu w) ∧ quiet (npu w))
  ∧ (owners w ≠ Held → stores w ≠ []).
Proof.
  intros H%resident_reachable_inv. pose proof (inv_stores w H) as Hs. split_and!.
  - rewrite Hs. destruct (decision w); simpl; lia.
  - intros Hr%(inv_running w H). destruct (inv_run w H Hr) as [Hg Hn]. rewrite Hs, Hr. split_and!; [done| |].
    + intros E%(inv_gpu w H). by rewrite Hg in E.
    + intros E%(inv_npu w H). by rewrite Hn in E.
  - apply H.
  - intros Ho%(inv_closed w H). rewrite Hs. by destruct Ho as [d ->].
Qed.

(** A run of an exchange, up to the GPU program's start. *)
Definition example_world : World :=
  let w := (submit_npu initial (Ok ()) []).1 in
  let w := (submit_gpu w (Ok ()) []).1 in
  set_gpu (start w []).1 Running.

Lemma example_reachable : reachable example_world.
Proof.
  unfold example_world. eapply reachable_step; [|apply step_gpu, device_run; reflexivity].
  eapply reachable_step; [|apply step_host, host_start; reflexivity].
  eapply reachable_step; [|apply step_host, host_submit_gpu; reflexivity].
  eapply reachable_step; [|apply step_host, host_submit_npu; reflexivity]. constructor.
Qed.

Lemma resident_sessions_are_safe_witness : stores example_world = [RUN] ∧ gpu example_world = Running.
Proof.
  split; [|reflexivity].
  apply (proj1 (proj2 (resident_sessions_are_safe example_world example_reachable))). left. reflexivity.
Defined.

(** A rejected participant rolls back the other: ABORT is published unless a
    decision already was. *)
Lemma rejection_publishes_abort w e actions :
  reachable w →
  (is_ok (ready w) = true → gpu_done w = false →
     stores (submit_gpu w (Err e) actions).1 = [ABORT] ∧ (submit_gpu w (Err e) actions).2 = Err e)
  ∧ (is_ok (ready w) = true → npu_done w = false →
     stores (submit_npu w (Err e) actions).1 = [ABORT] ∧ (submit_npu w (Err e) actions).2 = Err e).
Proof.
  intros H%resident_reachable_inv. pose proof (ready_ok w H) as Hk.
  destruct (decide_cases w ABORT actions H) as (Ha & _); [done|by right|].
  unfold submit_gpu, submit_npu. destruct (ready w) as [[]|]; simpl in *; [|by split].
  destruct (Ha (proj1 Hk eq_refl)) as [_ Hs].
  split; intros _ Hd; rewrite Hd; simpl; by rewrite <-Hs.
Qed.

(** Once a decision is published, every accepted program can retire without
    its peer and without a failure. *)
Inductive program (word : Z) : Part → Part → Prop :=
| program_run : word = RUN → program word Polling Running
| program_abort : word = ABORT → program word Polling Retired
| program_finish : program word Running Retired.

Lemma decided_programs_retire w :
  reachable w → is_Some (decision w) →
  Forall (λ p, p = Absent ∨ rtc (program (word w)) p Retired) [gpu w; npu w].
Proof.
  intros H%resident_reachable_inv Hd.
  assert (Hp : ∀ p, p = Absent ∨ rtc (program (word w)) p Retired).
  { intros []; [by left|right|right|by right].
    - rewrite (word_decision w H). destruct (inv_values w H) as [E|[E|E]]; rewrite E.
      + rewrite E in Hd. by destruct Hd.
      + eapply rtc_l; [by apply program_run|]. apply rtc_once. constructor.
      + apply rtc_once. by apply program_abort.
    - apply rtc_once. constructor. }
  constructor; [apply Hp|]. constructor; [apply Hp|constructor].
Qed.

End Resident.
