(* ===== verification/Source.v ===== *)
(** * Translation units

    src/src/loom/source.rs: C/C++ sources with their virtual headers, and the
    lexical normalization of virtual paths.  The theorems show that a virtual
    path has one canonical spelling, which never leaves its root, and that a
    normalized source has distinct canonical paths and distinct identities. *)

From S2P Require Import Prelude.
From Stdlib Require Import Ascii.
From stdpp Require Import strings gmap sorting.
Local Open Scope string_scope.

Module Source.

(** [CxxStandard] and its spelling, [CxxFpModel]. *)
Inductive CxxStandard : Type := C23 | Cpp26.
Definition as_str (s : CxxStandard) : string := match s with C23 => "c23" | Cpp26 => "c++26" end.
Inductive CxxFpModel : Type := Precise | Fast.

(** [CxxSource]; the process-local preamble is not part of it. *)
Record CxxSource : Type := mkCxxSource {
  identifier : string;
  contents : string;
  standard : CxxStandard;
  headers : gmap string string;
  include_paths : list string;
  defines : list (string * string);
  roots : list string;
  fp_model : CxxFpModel;
  source_identifiers : gmap string string }.

(** [CxxSource::new]. *)
Definition cxx_new (identifier contents : string) : CxxSource :=
  mkCxxSource identifier contents Cpp26 ∅ [] [] [] Precise ∅.

(** [str::contains] of a character. *)
Fixpoint contains (c : Ascii.ascii) (s : string) : bool :=
  match s with EmptyString => false | String d s => Ascii.eqb c d || contains c s end.
Definition nul : Ascii.ascii := Ascii.Ascii false false false false false false false false.
Definition slash : Ascii.ascii := "/"%char.
Definition backslash : Ascii.ascii := "\"%char.

(** The bindings of a [BTreeMap] in iteration order: by the bytes of the key. *)
Definition key_le (a b : string * string) : Prop := String.leb a.1 b.1 = true.
Global Instance key_le_dec : RelDecision key_le := λ a b, decide (String.leb a.1 b.1 = true).
Definition bindings (m : gmap string string) : list (string * string) := merge_sort key_le (map_to_list m).

(** [CxxSource::validate] and [Source::validate]. *)
Definition bad_name (s : string) : bool := String.eqb s "" || contains nul s.
Definition cxx_validate (s : CxxSource) : Result () :=
  if bad_name (identifier s) || existsb (λ b, bad_name b.1) (bindings (headers s))
     || existsb (contains nul) (include_paths s)
  then Err (Message "invalid C/C++ source identifier or include path") else Ok ().
Inductive Source : Type := Loom (identifier contents : string) | Cxx (source : CxxSource).
Definition validate (s : Source) : Result () :=
  match s with
  | Loom identifier _ => if bad_name identifier then Err (Message "invalid Loom source identifier") else Ok ()
  | Cxx source => cxx_validate source
  end.

(** [str::split('/')] and [join("/")]. *)
Fixpoint split (s : string) : list string :=
  match s with
  | EmptyString => [""]
  | String c s =>
      if Ascii.eqb c slash then "" :: split s
      else match split s with part :: rest => String c part :: rest | [] => [String c ""] end
  end.
Definition join (parts : list string) : string := String.concat "/" parts.

(** The loop of [virtual_path]; [parts] grows at its end. *)
Fixpoint walk_parts (parts todo : list string) : option (list string) :=
  match todo with
  | [] => Some parts
  | part :: todo =>
      if String.eqb part "" || String.eqb part "." then walk_parts parts todo
      else if String.eqb part ".." then
        match parts with [] => None | _ => walk_parts (removelast parts) todo end
      else walk_parts (parts ++ [part]) todo
  end.

(** [path.starts_with('/')]. *)
Definition absolute (s : string) : bool := match s with String c _ => Ascii.eqb c slash | _ => false end.
Definition spell (a : bool) (parts : list string) : string := (if a then "/" else "") +:+ join parts.

(** [virtual_path]. *)
Definition virtual_path (path : string) : Result string :=
  if contains nul path || contains backslash path then Err (Message "invalid virtual include path")
  else
    let? parts := ok_or (walk_parts [] (split path)) (Message "virtual include escapes its source root") in
    Ok (spell (absolute path) parts).

(** The loops of [normalize] over the headers, the include paths (updated in
    place) and the identities, and its check of logical names. *)
Fixpoint normal_headers (self : string) (l : list (string * string)) (m : gmap string string)
    : Result (gmap string string) :=
  match l with
  | [] => Ok m
  | (path, contents) :: rest =>
      let? path := virtual_path path in
      if String.eqb path "" || String.eqb path "/" || String.eqb path self || bool_decide (is_Some (m !! path))
      then Err (Message "empty or aliased virtual header path")
      else normal_headers self rest (<[path := contents]> m)
  end.
Fixpoint normal_paths (l : list string) : list string * Result () :=
  match l with
  | [] => ([], Ok ())
  | path :: rest =>
      match virtual_path path with
      | Err e => (path :: rest, Err e)
      | Ok path => let '(rest, r) := normal_paths rest in (path :: rest, r)
      end
  end.
Fixpoint normal_identifiers (l : list (string * string)) (m : gmap string string)
    : Result (gmap string string) :=
  match l with
  | [] => Ok m
  | (path, name) :: rest =>
      if bad_name name then Err (Message "invalid or aliased source identifier mapping")
      else
        let? path := virtual_path path in
        if bool_decide (is_Some (m !! path)) then Err (Message "invalid or aliased source identifier mapping")
        else normal_identifiers rest (<[path := name]> m)
  end.
Definition logical (identifiers : gmap string string) (path : string) : string :=
  default path (identifiers !! path).
Fixpoint distinct (identifiers : gmap string string) (l : list string) (seen : gset string) : bool :=
  match l with
  | [] => true
  | path :: rest =>
      if bool_decide (logical identifiers path ∈ seen) then false
      else distinct identifiers rest ({[logical identifiers path]} ∪ seen)
  end.

Definition set_identifier (s : CxxSource) (i : string) : CxxSource :=
  mkCxxSource i (contents s) (standard s) (headers s) (include_paths s) (defines s) (roots s) (fp_model s) (source_identifiers s).
Definition set_headers (s : CxxSource) (h : gmap string string) : CxxSource :=
  mkCxxSource (identifier s) (contents s) (standard s) h (include_paths s) (defines s) (roots s) (fp_model s) (source_identifiers s).
Definition set_include_paths (s : CxxSource) (l : list string) : CxxSource :=
  mkCxxSource (identifier s) (contents s) (standard s) (headers s) l (defines s) (roots s) (fp_model s) (source_identifiers s).
Definition set_source_identifiers (s : CxxSource) (m : gmap string string) : CxxSource :=
  mkCxxSource (identifier s) (contents s) (standard s) (headers s) (include_paths s) (defines s) (roots s) (fp_model s) m.

(** The paths whose identities must differ: the source, then its headers. *)
Definition paths (s : CxxSource) : list string := identifier s :: (bindings (headers s)).*1.

(** [CxxSource::normalize]: the source as it is left, also on an error. *)
Definition normalize (s : CxxSource) : CxxSource * Result () :=
  match (let? _ := cxx_validate s in virtual_path (identifier s)) with
  | Err e => (s, Err e)
  | Ok i =>
      let s := set_identifier s i in
      if String.eqb i "" || String.eqb i "/" then (s, Err (Message "source identifier must name a file"))
      else
        match normal_headers i (bindings (headers s)) ∅ with
        | Err e => (s, Err e)
        | Ok h =>
            let s := set_headers s h in
            let '(l, r) := normal_paths (include_paths s) in
            let s := set_include_paths s l in
            match (let? _ := r in normal_identifiers (bindings (source_identifiers s)) ∅) with
            | Err e => (s, Err e)
            | Ok ids =>
                if distinct ids (paths s) ∅ then (set_source_identifiers s ids, Ok ())
                else (s, Err (Message "source identifier mapping merges distinct sources"))
            end
        end
  end.

(** The examples of the unit test. *)
Example virtual_paths_are_lexical :
  virtual_path "/src/./nested/../factor.h" = Ok "/src/factor.h"
  ∧ is_ok (virtual_path "../secret.h") = false ∧ is_ok (virtual_path "/../../secret.h") = false.
Proof. done. Qed.
Example aliases_are_rejected :
  is_ok (normalize (set_headers (cxx_new "src/kernel.cpp" "")
    (<["src/nested/../factor.h" := "1"]> (<["src/factor.h" := "2"]> ∅)))).2 = false.
Proof. vm_compute. done. Qed.

(** ** Canonical paths *)

Local Arguments Ascii.eqb : simpl never.

(** A component that names something, and the canonical spellings. *)
Definition clean (p : string) : Prop := p ≠ "" ∧ p ≠ "." ∧ p ≠ ".." ∧ contains slash p = false.
Definition plain (p : string) : Prop := contains nul p = false ∧ contains backslash p = false.

Lemma split_nonempty s : split s ≠ [].
Proof. destruct s as [|c s]; simpl; [done|]. destruct (Ascii.eqb c slash), (split s); done. Qed.

(** Splitting keeps every character but the separators. *)
Lemma split_contains d s :
  contains d s = false → Forall (λ p, contains d p = false ∧ contains slash p = false) (split s).
Proof.
  induction s as [|c s IH]; simpl; intros H; [by repeat constructor|].
  apply orb_false_iff in H as [Hc Hs]. specialize (IH Hs). destruct (Ascii.eqb c slash) eqn:E.
  - constructor; [by split|done].
  - destruct (split s) as [|p rest] eqn:Ep; [by apply split_nonempty in Ep|].
    apply Forall_cons in IH as [[H1 H2] H3]. constructor; [|done]. simpl.
    by rewrite Hc, H1, Ascii.eqb_sym, E, H2.
Qed.

Lemma contains_app c s t : contains c (s +:+ t) = contains c s || contains c t.
Proof. induction s as [|d s IH]; simpl; [done|]. by rewrite IH, orb_assoc. Qed.

Lemma split_app p s : contains slash p = false → split (p +:+ "/" +:+ s) = p :: split s.
Proof.
  induction p as [|c p IH]; simpl; intros H; [done|]. apply orb_false_iff in H as [Hc Hp].
  rewrite Ascii.eqb_sym, Hc. by rewrite IH.
Qed.

Lemma split_one p : contains slash p = false → split p = [p].
Proof.
  induction p as [|c p IH]; simpl; intros H; [done|]. apply orb_false_iff in H as [Hc Hp].
  rewrite Ascii.eqb_sym, Hc. by rewrite IH.
Qed.

Lemma join_cons p q l : join (p :: q :: l) = p +:+ "/" +:+ join (q :: l).
Proof. done. Qed.

Lemma split_join parts : parts ≠ [] → Forall (λ p, contains slash p = false) parts → split (join parts) = parts.
Proof.
  intros Hne H. induction H as [|p parts Hp H IH]; [done|]. destruct parts as [|q rest]; [by apply split_one|].
  rewrite join_cons, split_app by done. by rewrite IH.
Qed.

Lemma join_contains c parts :
  c ≠ slash → Forall (λ p, contains c p = false) parts → contains c (join parts) = false.
Proof.
  intros Hc H. induction H as [|p parts Hp H IH]; [done|]. destruct parts as [|q rest]; [done|].
  rewrite join_cons, !contains_app, Hp, IH. simpl. rewrite orb_false_r.
  apply Ascii.eqb_neq in Hc. unfold slash in Hc. by rewrite Hc.
Qed.

Lemma walk_parts_keeps (Q : string → Prop) parts todo out :
  Forall (λ p, clean p ∧ Q p) parts → Forall (λ p, Q p ∧ contains slash p = false) todo →
  walk_parts parts todo = Some out → Forall (λ p, clean p ∧ Q p) out.
Proof.
  intros Hp Ht. revert parts Hp. induction Ht as [|p todo [Hq Hs] Ht IH]; intros parts Hp; simpl.
  { by intros [= <-]. }
  destruct (String.eqb_spec p ""); [by apply IH|]. destruct (String.eqb_spec p "."); [by apply IH|]. simpl.
  destruct (String.eqb_spec p "..").
  - destruct parts as [|x l] eqn:E; [done|]. rewrite <-E in *. apply IH.
    assert (parts ≠ []) as Hne by (by rewrite E).
    rewrite (app_removelast_last "" Hne) in Hp. by apply Forall_app in Hp as [? _].
  - apply IH. apply Forall_app. split; [done|]. by repeat constructor.
Qed.

Lemma walk_parts_clean parts todo : Forall clean todo → walk_parts parts todo = Some (parts ++ todo)%list.
Proof.
  intros H. revert parts. induction H as [|p todo (H1 & H2 & H3 & _) H IH]; intros parts; simpl.
  { by rewrite app_nil_r. }
  apply String.eqb_neq in H1, H2, H3. rewrite H1, H2, H3. simpl. by rewrite IH, <-app_assoc.
Qed.

(** What [virtual_path] answers is canonical, and canonical spellings are fixed. *)
Definition canonical (q : string) : Prop :=
  ∃ a parts, q = spell a parts ∧ Forall (λ p, clean p ∧ plain p) parts.

Lemma spell_absolute a parts : Forall (λ p, clean p ∧ plain p) parts → absolute (spell a parts) = a.
Proof.
  intros Hp. unfold spell. destruct a; [done|].
  destruct parts as [|x [|y rest]]; [done| |]; apply Forall_cons in Hp as [[(Hx & _ & _ & Hs) _] _];
    (destruct x as [|c x]; [done|]); simpl in *; apply orb_false_iff in Hs as [Hs _];
    by rewrite Ascii.eqb_sym.
Qed.

Lemma virtual_path_canonical p q : virtual_path p = Ok q → canonical q ∧ absolute q = absolute p.
Proof.
  unfold virtual_path. destruct (contains nul p || contains backslash p) eqn:E; [done|].
  apply orb_false_iff in E as [En Eb]. destruct (walk_parts [] (split p)) as [parts|] eqn:Ew; simpl; [|done].
  intros [= <-]. assert (Hp : Forall (λ p, clean p ∧ plain p) parts).
  { eapply (walk_parts_keeps plain); [|  |exact Ew]; [constructor|].
    pose proof (split_contains _ _ En) as H1. pose proof (split_contains _ _ Eb) as H2.
    rewrite Forall_forall in H1, H2. apply Forall_forall. intros x Hx.
    destruct (H1 x Hx), (H2 x Hx). by repeat split. }
  split; [by exists (absolute p), parts|by apply spell_absolute].
Qed.

Lemma spell_plain a parts : Forall (λ p, clean p ∧ plain p) parts → plain (spell a parts).
Proof.
  intros H. unfold plain, spell. rewrite !contains_app.
  rewrite !join_contains; [by destruct a|done| |done|];
    (eapply Forall_impl; [exact H|]; intros ? [_ [? ?]]; done).
Qed.

Lemma spell_split a parts :
  Forall (λ p, clean p ∧ plain p) parts → walk_parts [] (split (spell a parts)) = Some parts.
Proof.
  intros H.
  assert (Hc : Forall clean parts) by (eapply Forall_impl; [exact H|]; by intros ? [? _]).
  assert (Hw : walk_parts [] (split (join parts)) = Some parts).
  { destruct parts as [|x l]; [done|]. rewrite split_join; [by apply walk_parts_clean|done|].
    eapply Forall_impl; [exact Hc|]. by intros ? (_ & _ & _ & ?). }
  unfold spell. by destruct a.
Qed.

Lemma canonical_fixed q : canonical q → virtual_path q = Ok q.
Proof.
  intros (a & parts & -> & H). unfold virtual_path. destruct (spell_plain a parts H) as [-> ->]. simpl.
  by rewrite spell_split, spell_absolute.
Qed.

Lemma spell_inj a parts a' parts' :
  Forall (λ p, clean p ∧ plain p) parts → Forall (λ p, clean p ∧ plain p) parts' →
  spell a parts = spell a' parts' → a = a' ∧ parts = parts'.
Proof.
  intros H H' E. pose proof (spell_absolute a parts H) as Ha. pose proof (spell_split a parts H) as Hs.
  rewrite E in Ha, Hs. rewrite spell_absolute in Ha by done. rewrite spell_split in Hs by done. naive_solver.
Qed.

(** A virtual path is resolved to its one canonical spelling: absolute when it
    was, made of components that name something, without characters a host
    would interpret, and resolving to itself. *)
Theorem virtual_paths_are_canonical p q :
  virtual_path p = Ok q →
  virtual_path q = Ok q
  ∧ ∃ parts, q = spell (absolute p) parts ∧ Forall (λ x, clean x ∧ plain x) parts
    ∧ ∀ a parts', q = spell a parts' → Forall (λ x, clean x ∧ plain x) parts' → parts' = parts.
Proof.
  intros H. destruct (virtual_path_canonical p q H) as [Hc Ha]. split; [by apply canonical_fixed|].
  destruct Hc as (a & parts & -> & Hp). rewrite spell_absolute in Ha by done. subst a.
  exists parts. split_and!; try done. intros a parts' E Hp'. by destruct (spell_inj _ _ _ _ Hp Hp' E).
Qed.

Lemma virtual_paths_are_canonical_witness :
  virtual_path "/src/./nested/../factor.h" = Ok "/src/factor.h"
  ∧ virtual_path "/src/factor.h" = Ok "/src/factor.h".
Proof.
  split; [reflexivity|]. exact (proj1 (virtual_paths_are_canonical "/src/./nested/../factor.h" _ eq_refl)).
Defined.

(** ** Normalized sources *)

Lemma bindings_perm m : bindings m ≡ₚ map_to_list m.
Proof. apply merge_sort_Permutation. Qed.

Lemma elem_of_bindings m k v : (k, v) ∈ bindings m ↔ m !! k = Some v.
Proof. by rewrite bindings_perm, elem_of_map_to_list. Qed.

Lemma bindings_nodup m : NoDup (bindings m).*1.
Proof. rewrite bindings_perm. apply NoDup_fst_map_to_list. Qed.

Lemma list_to_map_bindings m : list_to_map (bindings m) = m.
Proof.
  rewrite <-(list_to_map_to_list m) at 2. apply list_to_map_proper; [apply bindings_nodup|apply bindings_perm].
Qed.

Lemma length_bindings m : length (bindings m) = size m.
Proof. by rewrite bindings_perm, length_map_to_list. Qed.

Lemma no_binding (l : list (string * string)) (Q : string → bool) :
  (∀ k v, (k, v) ∈ l → Q k = false) → existsb (λ b, Q b.1) l = false.
Proof.
  intros H. apply not_true_iff_false. rewrite existsb_exists. intros ([k v] & Hi & Hq).
  apply list_elem_of_In in Hi. simpl in Hq. by rewrite (H k v Hi) in Hq.
Qed.

Definition file_path (self q : string) : Prop := q ≠ "" ∧ q ≠ "/" ∧ q ≠ self.

Lemma normal_headers_spec self l m m' :
  normal_headers self l m = Ok m' →
  size m' = (size m + length l)%nat
  ∧ (∀ q v, m !! q = Some v → m' !! q = Some v)
  ∧ (∀ k v, (k, v) ∈ l → ∃ q, virtual_path k = Ok q ∧ m' !! q = Some v)
  ∧ (∀ q v, m' !! q = Some v → m !! q = Some v ∨ (file_path self q ∧ ∃ k, virtual_path k = Ok q)).
Proof.
  revert m. induction l as [|[k v] l IH]; intros m; simpl.
  { intros [= <-]. split_and!; [lia|done|by intros ? ? ?%elem_of_nil|by left]. }
  destruct (virtual_path k) as [q|] eqn:Ek; simpl; [|done].
  destruct (String.eqb_spec q ""); [done|]. destruct (String.eqb_spec q "/"); [done|].
  destruct (String.eqb_spec q self); [done|]. simpl. case_bool_decide as Em; [done|].
  apply eq_None_not_Some in Em. intros (Hs & Hk & Hl & Hb)%IH. split_and!.
  - rewrite Hs, map_size_insert_None by done. lia.
  - intros x y Hx. apply Hk. rewrite lookup_insert_ne; [done|]. intros <-. by rewrite Em in Hx.
  - intros x y [[= -> ->]|Hx]%elem_of_cons; [|by apply Hl]. exists q. split; [done|].
    apply Hk, lookup_insert_eq.
  - intros x y [Hx|?]%Hb; [|by right]. apply lookup_insert_Some in Hx as [[<- <-]|[_ ?]]; [|by left].
    right. split; [done|]. by exists k.
Qed.

Lemma normal_headers_fixed self l m :
  Forall (λ b, virtual_path b.1 = Ok b.1 ∧ file_path self b.1 ∧ m !! b.1 = None) l → NoDup l.*1 →
  normal_headers self l m = Ok (list_to_map l ∪ m).
Proof.
  revert m. induction l as [|[k v] l IH]; intros m Hl Hn; simpl; [by rewrite map_empty_union|].
  apply Forall_cons in Hl as [(Hv & (H1 & H2 & H3) & Hm) Hl]. apply NoDup_cons in Hn as [Hk Hn].
  simpl in *. rewrite Hv. simpl. apply String.eqb_neq in H1, H2, H3. rewrite H1, H2, H3. simpl.
  rewrite bool_decide_eq_false_2 by (rewrite Hm; by intros [? ?]).
  rewrite IH.
  - f_equal. rewrite <-insert_union_l, insert_union_r; [done|]. by apply not_elem_of_list_to_map_1.
  - apply Forall_forall. intros [x y] Hx. rewrite Forall_forall in Hl. destruct (Hl _ Hx) as (? & ? & ?).
    split_and!; try done. simpl in *. rewrite lookup_insert_ne; [done|]. intros <-. apply Hk.
    by apply (list_elem_of_fmap_2 fst l (k, y)).
  - done.
Qed.

Lemma normal_identifiers_spec l m m' :
  normal_identifiers l m = Ok m' →
  ∀ q v, m' !! q = Some v → m !! q = Some v ∨ (bad_name v = false ∧ ∃ k, virtual_path k = Ok q).
Proof.
  revert m. induction l as [|[k v] l IH]; intros m; simpl; [intros [= <-]; by left|].
  destruct (bad_name v) eqn:Eb; [done|]. destruct (virtual_path k) as [q|] eqn:Ek; simpl; [|done].
  case_bool_decide; [done|]. intros Hm x y Hx. destruct (IH _ Hm x y Hx) as [Hx'|?]; [|by right].
  apply lookup_insert_Some in Hx' as [[<- <-]|[_ ?]]; [|by left]. right. split; [done|]. by exists k.
Qed.

Lemma normal_identifiers_fixed l m :
  Forall (λ b, virtual_path b.1 = Ok b.1 ∧ bad_name b.2 = false ∧ m !! b.1 = None) l → NoDup l.*1 →
  normal_identifiers l m = Ok (list_to_map l ∪ m).
Proof.
  revert m. induction l as [|[k v] l IH]; intros m Hl Hn; simpl; [by rewrite map_empty_union|].
  apply Forall_cons in Hl as [(Hv & Hb & Hm) Hl]. apply NoDup_cons in Hn as [Hk Hn].
  simpl in *. rewrite Hb, Hv. simpl. rewrite bool_decide_eq_false_2 by (rewrite Hm; by intros [? ?]).
  rewrite IH.
  - f_equal. rewrite <-insert_union_l, insert_union_r; [done|]. by apply not_elem_of_list_to_map_1.
  - apply Forall_forall. intros [x y] Hx. rewrite Forall_forall in Hl. destruct (Hl _ Hx) as (? & ? & ?).
    split_and!; try done. simpl in *. rewrite lookup_insert_ne; [done|]. intros <-. apply Hk.
    by apply (list_elem_of_fmap_2 fst l (k, y)).
  - done.
Qed.

Lemma normal_paths_spec l l' : normal_paths l = (l', Ok ()) → Forall canonical l'.
Proof.
  revert l'. induction l as [|p l IH]; intros l'; simpl; [intros [= <-]; constructor|].
  destruct (virtual_path p) as [q|] eqn:Ep; [|done]. destruct (normal_paths l) as [rest r].
  intros [= <- ->]. constructor; [by apply (virtual_path_canonical p q)|by apply IH].
Qed.

Lemma normal_paths_fixed l : Forall canonical l → normal_paths l = (l, Ok ()).
Proof. induction 1 as [|p l Hp Hl IH]; simpl; [done|]. by rewrite (canonical_fixed p Hp), IH. Qed.

Lemma distinct_spec ids l seen :
  distinct ids l seen = true ↔ NoDup (logical ids <$> l) ∧ ∀ x, x ∈ l → logical ids x ∉ seen.
Proof.
  revert seen. induction l as [|p l IH]; intros seen; simpl.
  { split; [|done]. intros _. split; [constructor|by intros ? ?%elem_of_nil]. }
  rewrite NoDup_cons. case_bool_decide as E.
  { split; [done|]. intros [_ H]. destruct (H p); [by left|done]. }
  rewrite IH. split.
  - intros [Hn Hs]. split_and!; [|done|].
    + intros (x & Hx & Hi)%list_elem_of_fmap. destruct (Hs x Hi). set_solver.
    + intros x [->|Hx]%elem_of_cons; [done|]. specialize (Hs x Hx). set_solver.
  - intros [[Hp Hn] Hs]. split; [done|]. intros x Hx. rewrite elem_of_union, elem_of_singleton.
    intros [Hq|Hq]; [|by destruct (Hs x); [by right|]]. apply Hp. rewrite <-Hq. by apply list_elem_of_fmap_2.
Qed.

Local Arguments distinct : simpl never.

Lemma canonical_plain q : canonical q → contains nul q = false.
Proof. intros (a & parts & -> & H). by apply spell_plain. Qed.

(** A normalized source: canonical paths, and an identity for each. *)
Record normal (s : CxxSource) : Prop := mkNormal {
  normal_identifier : canonical (identifier s) ∧ identifier s ≠ "" ∧ identifier s ≠ "/";
  normal_header : ∀ k v, headers s !! k = Some v → canonical k ∧ file_path (identifier s) k;
  normal_include : Forall canonical (include_paths s);
  normal_name : ∀ k v, source_identifiers s !! k = Some v → canonical k ∧ bad_name v = false;
  normal_logical : NoDup (logical (source_identifiers s) <$> paths s) }.

Lemma normal_fixed s : normal s → normalize s = (s, Ok ()).
Proof.
  intros [(Hi & Hi1 & Hi2) Hh Hp Hn Hl]. unfold normalize.
  assert (cxx_validate s = Ok ()) as ->.
  { unfold cxx_validate, bad_name at 1. apply String.eqb_neq in Hi1 as ->. rewrite canonical_plain by done. simpl.
    rewrite (no_binding _ bad_name).
    - simpl. replace (existsb _ _) with false; [done|]. symmetry. apply not_true_iff_false.
      rewrite existsb_exists. intros (x & Hx%list_elem_of_In & Hc). rewrite Forall_forall in Hp.
      by rewrite (canonical_plain x (Hp x Hx)) in Hc.
    - intros k v Hk%elem_of_bindings. destruct (Hh k v Hk) as [Hc (H1 & _)]. unfold bad_name.
      apply String.eqb_neq in H1 as ->. by rewrite canonical_plain. }
  simpl. rewrite (canonical_fixed _ Hi). apply String.eqb_neq in Hi1, Hi2. rewrite Hi1, Hi2. simpl.
  rewrite normal_headers_fixed, map_union_empty, list_to_map_bindings.
  2: { apply Forall_forall. intros [k v] Hk%elem_of_bindings. destruct (Hh k v Hk). split_and!; [by apply canonical_fixed|done|done]. }
  2: apply bindings_nodup.
  rewrite normal_paths_fixed by done. simpl.
  rewrite normal_identifiers_fixed, map_union_empty, list_to_map_bindings.
  2: { apply Forall_forall. intros [k v] Hk%elem_of_bindings. destruct (Hn k v Hk). split_and!; [by apply canonical_fixed|done|done]. }
  2: apply bindings_nodup.
  rewrite ?map_union_empty. replace (distinct _ _ _) with true; [by destruct s|]. symmetry. apply distinct_spec.
  split; [by destruct s|]. set_solver.
Qed.

Lemma normalize_normal s s' :
  normalize s = (s', Ok ()) →
  normal s' ∧ size (headers s') = size (headers s)
  ∧ ∀ k v, headers s !! k = Some v → ∃ q, virtual_path k = Ok q ∧ headers s' !! q = Some v.
Proof.
  unfold normalize. destruct (cxx_validate s) as [[]|]; simpl; [|done].
  destruct (virtual_path (identifier s)) as [i|] eqn:Ei; [|done].
  destruct (String.eqb_spec i ""); [done|]. destruct (String.eqb_spec i "/"); [done|]. simpl.
  destruct (normal_headers i _ ∅) as [h|] eqn:Eh; [|done].
  destruct (normal_paths (include_paths s)) as [l r] eqn:El. destruct r as [[]|]; simpl; [|done].
  destruct (normal_identifiers _ ∅) as [ids|] eqn:En; [|done].
  destruct (distinct ids _ ∅) eqn:Ed; [|done]. intros [= <-].
  apply normal_headers_spec in Eh as (Hs & _ & Hl & Hb). apply distinct_spec in Ed as [Hd _].
  rewrite map_size_empty, length_bindings in Hs. split_and!; [|done|].
  - constructor; simpl; [|intros k v Hk|by eapply normal_paths_spec|intros k v Hk|done].
    + split; [by apply (virtual_path_canonical _ _ Ei)|done].
    + apply Hb in Hk as [Hk|[Hf [x Hx]]]; [by apply lookup_empty_Some in Hk|].
      split; [by apply (virtual_path_canonical _ _ Hx)|done].
    + destruct (normal_identifiers_spec _ _ _ En k v Hk) as [H|[Hv [x Hx]]]; [by apply lookup_empty_Some in H|].
      split; [by apply (virtual_path_canonical _ _ Hx)|done].
  - intros k v Hk. apply Hl. by apply elem_of_bindings.
Qed.

(** A source that normalizes keeps every header under its canonical path, with
    no two merged and none shadowing the source; every file has its own
    identity; and normalizing again changes nothing. *)
Theorem normalized_sources_are_unambiguous s s' :
  normalize s = (s', Ok ()) →
  normalize s' = (s', Ok ())
  ∧ size (headers s') = size (headers s)
  ∧ (∀ k v, headers s !! k = Some v → ∃ q, virtual_path k = Ok q ∧ headers s' !! q = Some v)
  ∧ headers s' !! identifier s' = None
  ∧ ∀ x y, x ∈ paths s' → y ∈ paths s' →
      logical (source_identifiers s') x = logical (source_identifiers s') y → x = y.
Proof.
  intros H. destruct (normalize_normal s s' H) as (Hn & Hs & Hk). split_and!; [by apply normal_fixed|done|done| |].
  - destruct (headers s' !! identifier s') as [v|] eqn:E; [|done].
    destruct (normal_header s' Hn _ _ E) as [_ (_ & _ & ?)]. done.
  - intros x y Hx Hy E. destruct (list_elem_of_lookup_1 _ _ Hx) as [i Hi].
    destruct (list_elem_of_lookup_1 _ _ Hy) as [j Hj].
    assert (i = j) as ->; [|by simplify_eq].
    apply (NoDup_lookup _ _ _ (logical (source_identifiers s') x) (normal_logical s' Hn));
      rewrite list_lookup_fmap; [by rewrite Hi|rewrite Hj; simpl; by rewrite E].
Qed.

Definition example_source : CxxSource :=
  set_headers (cxx_new "src/./kernel.cpp" "") {["src/nested/../factor.h" := "1"]}.

Lemma normalized_sources_are_unambiguous_witness :
  normalize (normalize example_source).1 = ((normalize example_source).1, Ok ())
  ∧ headers (normalize example_source).1 !! "src/factor.h" = Some "1".
Proof.
  split; [|vm_compute; reflexivity].
  apply (normalized_sources_are_unambiguous example_source). vm_compute. reflexivity.
Defined.

(** ** Linked inputs *)

(** The loop of [Compiler::sources] (src/src/loom.rs): inputs are validated,
    translation units normalized, and identifiers distinct. *)
Definition source_identifier (s : Source) : string :=
  match s with Loom identifier _ => identifier | Cxx unit => identifier unit end.
Definition normal_source (s : Source) : Result Source :=
  let? _ := validate s in
  match s with
  | Cxx unit => match normalize unit with (unit, Ok _) => Ok (Cxx unit) | (_, Err e) => Err e end
  | Loom _ _ => Ok s
  end.
Fixpoint normal_sources (l : list Source) (seen : gset string) : Result (list Source) :=
  match l with
  | [] => Ok []
  | s :: rest =>
      let? s := normal_source s in
      if bool_decide (source_identifier s ∈ seen) then Err (Message "duplicate source identifier")
      else let? rest := normal_sources rest ({[source_identifier s]} ∪ seen) in Ok (s :: rest)
  end.
Definition sources (l : list Source) : Result (list Source) :=
  match l with
  | [] => Err (Message "a compilation module requires source inputs")
  | _ => normal_sources l ∅
  end.

(** The callbacks of an import (src/src/loom/native.rs): the contents of an
    included path, and the identity reported for a path. *)
Definition include_source (headers : gmap string string) (path : string) : option string :=
  match virtual_path path with Ok key => headers !! key | Err _ => None end.
Definition map_source_path (identifiers : gmap string string) (path : string) : string :=
  logical identifiers path.

(** An import of a normalized source finds every header under every spelling of
    its path, and nothing else. *)
Lemma includes_resolve s s' path v :
  normalize s = (s', Ok ()) →
  (headers s !! path = Some v → include_source (headers s') path = Some v)
  ∧ (include_source (headers s') path = Some v →
     ∃ q, virtual_path path = Ok q ∧ headers s' !! q = Some v ∧ q ≠ identifier s').
Proof.
  intros H. destruct (normalize_normal s s' H) as (Hn & _ & Hk). unfold include_source. split.
  - intros Hp. destruct (Hk path v Hp) as (q & -> & Hq). done.
  - destruct (virtual_path path) as [q|]; [|done]. intros Hq. exists q. split_and!; [done|done|].
    by destruct (normal_header s' Hn q v Hq) as [_ (_ & _ & ?)].
Qed.

Lemma normal_sources_spec l seen l' :
  normal_sources l seen = Ok l' →
  NoDup (source_identifier <$> l') ∧ (∀ s, s ∈ l' → source_identifier s ∉ seen)
  ∧ Forall (λ s, match s with Cxx unit => normal unit | Loom _ _ => True end) l' ∧ length l' = length l.
Proof.
  revert seen l'. induction l as [|s l IH]; intros seen l'; simpl.
  { intros [= <-]. split_and!; [constructor|by intros ? ?%elem_of_nil|constructor|done]. }
  destruct (normal_source s) as [t|] eqn:Et; simpl; [|done]. case_bool_decide as Es; [done|].
  destruct (normal_sources l _) as [rest|] eqn:Er; simpl; [|done]. intros [= <-].
  destruct (IH _ _ Er) as (Hd & Hf & Hn & Hl). split_and!; [| | |simpl; by rewrite Hl].
  - rewrite fmap_cons. apply NoDup_cons. split; [|done]. intros (x & Hx & Hi)%list_elem_of_fmap.
    apply (Hf x Hi). rewrite <-Hx. set_solver.
  - intros x [->|Hx]%elem_of_cons; [done|]. specialize (Hf x Hx). set_solver.
  - constructor; [|done]. unfold normal_source in Et. destruct (validate s); simpl in Et; [|done].
    destruct s as [i c|unit]; [by injection Et as <-|]. destruct (normalize unit) as [u [[]|]] eqn:Eu; [|done].
    injection Et as <-. by apply (normalize_normal unit).
Qed.

(** The accepted inputs of a module are normalized and have distinct
    identifiers. *)
Lemma sources_are_distinct l l' :
  sources l = Ok l' →
  NoDup (source_identifier <$> l') ∧ length l' = length l
  ∧ Forall (λ s, match s with Cxx unit => normal unit | Loom _ _ => True end) l'.
Proof.
  unfold sources. destruct l as [|s l]; [done|]. intros (Hd & _ & Hn & Hl)%normal_sources_spec. done.
Qed.

End Source.
