(* ===== verification/Xdna.v ===== *)
(** * XDNA programs

    src/src/fabric/xdna.rs: a bound NPU entry with its queue of at most 128
    invocations, the leases on its bindings, and the composition of native
    transactions.  Native calls are outcomes; the device retires invocations in
    order at its own pace.  The theorems show that every binding stays leased
    while an invocation may run, and that a wrapped transaction is the original
    one with its records around the body and its header updated. *)

From S2P Require Import Prelude.
From stdpp Require Import sorting.
Local Open Scope Z_scope.

Module Xdna.

(** ** Transactions *)

(** A slice of bytes, and [copy_from_slice] into one. *)
Definition slice (from len : nat) (b : list Z) : list Z := take len (drop from b).
Definition splice (from len : nat) (x b : list Z) : list Z := take from b ++ x ++ drop (from + len) b.

Definition u32_max : Z := 2 ^ 32 - 1.
(** [u32::checked_add]. *)
Definition checked_add32 (a b : Z) : option Z := if a + b <=? u32_max then Some (a + b) else None.

Definition zlen (b : list Z) : Z := Z.of_nat (length b).
Definition invalid : Error := Message "invalid or oversized AIE2P transaction 0.1".

(** The header check: magic, a column count of 1 to 8, version and length. *)
Definition valid_header (o : list Z) : bool :=
  (16 <=? length o)%nat && bool_decide (take 4 o = [0; 1; 4; 6]) && bool_decide (o !! 5%nat = Some 1)
  && match o !! 4%nat with Some c => negb (c =? 0) && (c <=? 8) | None => false end
  && (from_le_bytes (slice 12 4 o) =? zlen o).

(** [compose_transaction]. *)
Definition compose_transaction (original prefix : list Z) (prefix_operations : Z)
    (suffix : list Z) (suffix_operations : Z) : Result (list Z) :=
  if negb (valid_header original) then Err invalid
  else
    let? length_ := ok_or (n ← checked_add (zlen original) (zlen prefix); n ← checked_add n (zlen suffix);
                           if n <=? u32_max then Some n else None) invalid in
    let? operations := ok_or (n ← checked_add32 (from_le_bytes (slice 8 4 original)) prefix_operations;
                              checked_add32 n suffix_operations) invalid in
    let bytes := take 16 original ++ prefix ++ drop 16 original ++ suffix in
    let bytes := splice 8 4 (le_bytes 4 operations) bytes in
    Ok (splice 12 4 (le_bytes 4 length_) bytes).

(** ** The queue *)

(** [State] and [Program]; a lease is the buffer it holds, [cached] the atomic
    copy of [retired].  [live] are the invocations the device has not finished,
    oldest first, and [last_point] the newest point it gave out. *)
Record Program : Type := mkProgram {
  buffers : list Z;
  pending : list Z;
  leases : list Z;
  retired : Z;
  cached : Z;
  live : list Z;
  last_point : Z;
  charges : list Z }.

Definition new_program (bufs : list Z) : Program := mkProgram bufs [] [] 0 0 [] 0 [].

(** The outcome of [hrx_fabric_xdna_wait]. *)
Inductive Waited : Type := Done | Deadline | Failed (e : Error).

Definition set_leases (p : Program) (l : list Z) : Program :=
  mkProgram (buffers p) (pending p) l (retired p) (cached p) (live p) (last_point p) (charges p).
Definition set_pending (p : Program) (l : list Z) : Program :=
  mkProgram (buffers p) l (leases p) (retired p) (cached p) (live p) (last_point p) (charges p).
Definition set_live (p : Program) (l : list Z) : Program :=
  mkProgram (buffers p) (pending p) (leases p) (retired p) (cached p) l (last_point p) (charges p).

(** [Program::wait]. *)
Fixpoint pop_retired (submission : Z) (l : list Z) : list Z :=
  match l with
  | [] => []
  | point :: rest => if point <=? submission then pop_retired submission rest else l
  end.
Definition wait (p : Program) (submission : Z) (native : Waited) : Program * Result bool :=
  if submission <=? retired p then (p, Ok true)
  else
    match native with
    | Deadline => (p, Ok false)
    | Failed e => (p, Err e)
    | Done =>
        let left := pop_retired submission (pending p) in
        (mkProgram (buffers p) left (if bool_decide (left = []) then [] else leases p)
           submission submission (live p) (last_point p) (charges p), Ok true)
    end.

(** [XdnaCompletion::is_complete], [wait_timeout] and [wait]; a completion is
    its submission. *)
Definition is_complete (p : Program) (submission : Z) : bool := submission <=? cached p.
Definition completion_wait (p : Program) (submission : Z) (native : Waited) : Program * Result () :=
  let '(p, r) := wait p submission native in (p, result_map (λ _, ()) r).

(** The leases of [dispatch]; [outcomes] are the results of [retain_use]. *)
Fixpoint retain_all (bufs : list Z) (outcomes : list (Result ())) (acc : list Z) : Result (list Z) :=
  match bufs, outcomes with
  | [], _ => Ok acc
  | b :: bufs, Ok _ :: outcomes => retain_all bufs outcomes (acc ++ [b])
  | _ :: _, Err e :: _ => Err e
  | _ :: _, [] => Err (DeviceLost "no outcome")
  end.

(** [XdnaProgram::dispatch]; [native] is the zero-timeout wait on the oldest
    invocation and [submitted] the point of the accepted one. *)
Definition CAPACITY : nat := 128.
Definition make_room (p : Program) (native : Waited) : Program * Result () :=
  if (length (pending p) =? CAPACITY)%nat
  then
    match pending p with
    | [] => (p, Ok ())
    | oldest :: _ =>
        let '(p, r) := wait p oldest native in
        (p, let? b := r in
            if b then Ok () else Err (Busy "XDNA pending invocation capacity exhausted"))
    end
  else (p, Ok ()).
Definition take_leases (p : Program) (outcomes : list (Result ())) : Program * Result () :=
  if bool_decide (leases p = [])
  then match retain_all (buffers p) outcomes [] with
       | Ok l => (set_leases p l, Ok ())
       | Err e => (set_leases p [], Err e)
       end
  else (p, Ok ()).
Definition submit (p : Program) (submitted : Result Z) : Program * Result Z :=
  match submitted with
  | Err e => (if bool_decide (pending p = []) then set_leases p [] else p, Err e)
  | Ok point =>
      (mkProgram (buffers p) (pending p ++ [point]) (leases p) (retired p) (cached p)
         (live p ++ [point]) point (charges p), Ok point)
  end.
Definition dispatch (p : Program) (native : Waited) (outcomes : list (Result ())) (submitted : Result Z)
    : Program * Result Z :=
  match make_room p native with
  | (p, Err e) => (p, Err e)
  | (p, Ok _) =>
      match take_leases p outcomes with
      | (p, Err e) => (p, Err e)
      | (p, Ok _) => submit p submitted
      end
  end.

(** [sort_by_key] and [dedup_by] on the identities of buffers. *)
Fixpoint dedup (l : list Z) : list Z :=
  match l with
  | a :: rest => match rest with b :: _ => if a =? b then dedup rest else a :: dedup rest | [] => [a] end
  | [] => []
  end.
Definition distinct_buffers (l : list Z) : list Z := dedup (merge_sort Z.le l).

(** [XdnaProgram::wrap_transaction] of a program that is not [shared]:
    [addresses] are the results of [device_address] on the retained buffers,
    [original] the command read back, [reserved] the budget's answer when there
    is a budget, [replaced] the native replacement. *)
Fixpoint all_ok (l : list (Result ())) : Result () :=
  match l with [] => Ok () | r :: rest => let? _ := r in all_ok rest end.
Definition wrap_transaction (p : Program) (shared : bool) (prefix : list Z) (prefix_operations : Z)
    (suffix : list Z) (suffix_operations : Z) (retained : list Z) (addresses : list (Result ()))
    (original : Result (list Z)) (reserved : option (Result ())) (replaced : Result ())
    : Program * Result (list Z) :=
  if shared then (p, Err (Busy "XDNA command is shared"))
  else if negb (bool_decide (pending p = [])) || negb (retired p =? 0)
  then (p, Err (Busy "XDNA command has already been submitted"))
  else
    match (let? _ := all_ok addresses in
           let? original := original in
           let? bytes := compose_transaction original prefix prefix_operations suffix suffix_operations in
           let? _ := default (Ok ()) reserved in Ok bytes) with
    | Err e => (p, Err e)
    | Ok bytes =>
        let charged := match reserved with Some _ => charges p ++ [zlen bytes] | None => charges p end in
        (mkProgram (distinct_buffers (buffers p ++ retained)) (pending p) (leases p) (retired p) (cached p)
           (live p) (last_point p) charged, let? _ := replaced in Ok bytes)
    end.

(** [Drop for Program]: [native] is the bounded wait on the newest invocation
    and [closed] whether the native program was closed.  What it owns is
    released, or forgotten. *)
Inductive Dropped : Type := Released | Quarantined.
Definition drop_program (p : Program) (native : Waited) (closed : bool) : Program * Dropped :=
  let '(p, r) := match last (pending p) with
                 | Some submission =>
                     let '(p, r) := wait p submission native in
                     (p, match r with Ok b => b | Err _ => false end)
                 | None => (p, true)
                 end in
  (p, if negb r || negb closed then Quarantined else Released).

(** ** Preparation *)

(** [XdnaBinding] of a buffer: its identity, whether it is a whole allocation,
    its length and its device address. *)
Record Binding : Type := mkBinding {
  buffer : Z;
  whole : bool;
  buffer_len : Z;
  device_address : Result Z;
  offset : Z;
  b_length : Z }.
(** The native binding: offset, length and address. *)
Record Native : Type := mkNative { n_buffer : Z; n_offset : Z; n_length : Z; n_address : Z }.

Definition check_binding (b : Binding) : Result Native :=
  if negb (whole b) then Err (Unsupported "XDNA bindings require a whole buffer")
  else if (b_length b =? 0)
          || match checked_add (offset b) (b_length b) with Some stop => buffer_len b <? stop | None => true end
  then Err (Message "XDNA binding range is out of bounds")
  else
    let? base := device_address b in
    let? address := ok_or (checked_add base (offset b)) (Message "XDNA binding address overflow") in
    Ok (mkNative (buffer b) (offset b) (b_length b) address).
Fixpoint check_bindings (l : list Binding) : Result (list Native) :=
  match l with
  | [] => Ok []
  | b :: rest => let? n := check_binding b in let? rest := check_bindings rest in Ok (n :: rest)
  end.

(** [Device::prepare_xdna]; [matches_] tells that the artifact's target is the
    device's, [loaded] is the bridge with the symbol, and [opened] the native
    status with whether it made a program. *)
Definition prepare_xdna (matches_ : bool) (columns : Z) (bindings : list Binding) (loaded : Result ())
    (opened : Result () * bool) : Result Program :=
  if negb matches_ then Err (Unsupported "artifact and XDNA target differ")
  else if negb ((1 <=? columns) && (columns <=? 8)) || (u32_max <? Z.of_nat (length bindings))
  then Err (Message "invalid XDNA context width or binding count")
  else
    let? native := check_bindings bindings in
    let? _ := loaded in
    let '(status, made) := opened in
    if negb made then let? _ := status in Err (Unsupported "libamdf ABI is missing XDNA program")
    else let? _ := status in Ok (new_program (distinct_buffers (map buffer bindings))).

(** ** Interleavings *)

(** A native wait that succeeds has seen every invocation up to its point
    retire. *)
Definition honest (p : Program) (submission : Z) (native : Waited) : Prop :=
  native = Done → Forall (λ q, submission < q) (live p).

(** A call of a client, or the device retiring its oldest invocation.  Native
    points are positive and increase. *)
Inductive step : Program → Program → Prop :=
| step_wait p submission native :
    submission <= last_point p → honest p submission native →
    step p (wait p submission native).1
| step_dispatch p native outcomes submitted :
    (∀ oldest, head (pending p) = Some oldest → honest p oldest native) →
    (∀ point, submitted = Ok point → last_point p < point) →
    step p (dispatch p native outcomes submitted).1
| step_wrap p shared prefix pn suffix sn retained addresses original reserved replaced :
    step p (wrap_transaction p shared prefix pn suffix sn retained addresses original reserved replaced).1
| step_retire p oldest rest : live p = oldest :: rest → step p (set_live p rest).

Inductive reachable : Program → Prop :=
| reachable_new bufs : reachable (new_program (distinct_buffers bufs))
| reachable_step p p' : reachable p → step p p' → reachable p'.

(** ** The invariant *)

Lemma dedup_elem l x : x ∈ dedup l ↔ x ∈ l.
Proof.
  induction l as [|a [|b rest] IH]; simpl in *; [done|done|].
  destruct (Z.eqb_spec a b) as [->|Hne].
  - rewrite IH. set_solver.
  - rewrite elem_of_cons, IH, (elem_of_cons (b :: rest)). done.
Qed.

Lemma dedup_nodup l : Sorted Z.le l → NoDup (dedup l).
Proof.
  induction l as [|a [|b rest] IH]; simpl in *; intros Hs; [constructor|apply NoDup_singleton|].
  pose proof (Sorted_inv Hs) as [Hs' Hh]. destruct (Z.eqb_spec a b) as [->|Hne]; [by apply IH|].
  constructor; [|by apply IH]. intros Hin%(dedup_elem (b :: rest)).
  assert (Hb : ∀ x, x ∈ b :: rest → b <= x).
  { apply Sorted_StronglySorted in Hs'; [|intros ???; lia]. inversion Hs' as [|? ? _ Hf]; subst.
    intros x [->|Hx]%elem_of_cons; [lia|]. rewrite Forall_forall in Hf. by apply Hf. }
  inversion Hh; subst. specialize (Hb a Hin). lia.
Qed.

Lemma distinct_buffers_spec l : NoDup (distinct_buffers l) ∧ ∀ x, x ∈ distinct_buffers l ↔ x ∈ l.
Proof.
  unfold distinct_buffers. split; [apply dedup_nodup, Sorted_merge_sort; apply _|].
  intros x. by rewrite dedup_elem, merge_sort_Permutation.
Qed.

Record inv (p : Program) : Prop := mkInv {
  inv_sorted : StronglySorted Z.lt (pending p);
  inv_newest : Forall (λ q, q <= last_point p) (pending p);
  inv_retired : Forall (Z.lt (retired p)) (pending p);
  inv_cached : cached p = retired p ∧ retired p <= last_point p;
  inv_live : ∀ q, q ∈ live p → q ∈ pending p;
  inv_leases : leases p = if bool_decide (pending p = []) then [] else buffers p;
  inv_capacity : (length (pending p) <= CAPACITY)%nat;
  inv_buffers : NoDup (buffers p) }.

Lemma pop_retired_spec s l :
  StronglySorted Z.lt l →
  StronglySorted Z.lt (pop_retired s l) ∧ (∀ q, q ∈ pop_retired s l ↔ q ∈ l ∧ s < q)
  ∧ (length (pop_retired s l) <= length l)%nat
  ∧ (∀ q rest, l = q :: rest → q <= s → (length (pop_retired s l) < length l)%nat).
Proof.
  induction 1 as [|a l Hl IH Ha]; simpl; [split_and!; [constructor|set_solver|done|done]|].
  destruct IH as (H1 & H2 & H3 & _). destruct (Z.leb_spec a s).
  - split_and!; [done| |lia|lia]. intros q. rewrite H2, elem_of_cons. intuition lia.
  - split_and!; [by constructor| |done|intros ? ? [= -> ->] ?; lia].
    intros q. rewrite Forall_forall in Ha. split; [|by intros [? _]]. intros Hq. split; [done|].
    apply elem_of_cons in Hq as [->|Hq]; [done|]. specialize (Ha q Hq). lia.
Qed.

(** What a wait leaves. *)
Lemma wait_inv p s native :
  inv p → s <= last_point p → honest p s native →
  let p' := (wait p s native).1 in
  inv p' ∧ last_point p' = last_point p ∧ live p' = live p ∧ buffers p' = buffers p
  ∧ ((wait p s native).2 = Ok true →
     (∀ q, q ∈ live p → s < q) ∧ ∀ q rest, pending p = q :: rest → q <= s → (length (pending p') < length (pending p))%nat).
Proof.
  intros H Hs Hh. simpl. unfold wait. destruct (Z.leb_spec s (retired p)) as [Hr|Hr]; simpl.
  { split_and!; try done. intros _. pose proof (inv_retired p H) as Hq. rewrite Forall_forall in Hq. split.
    - intros q Hl%(inv_live p H). specialize (Hq q Hl). lia.
    - intros q rest E Hle. specialize (Hq q). rewrite E in Hq. specialize (Hq ltac:(by left)). lia. }
  destruct native as [| |e]; simpl; [|by split_and!|by split_and!].
  destruct (pop_retired_spec s (pending p) (inv_sorted p H)) as (H1 & H2 & H3 & H4).
  specialize (Hh eq_refl). rewrite Forall_forall in Hh.
  pose proof (inv_newest p H) as Hn. rewrite Forall_forall in Hn. split_and!; try done.
  constructor; simpl; try done.
  - apply Forall_forall. intros q [Hq _]%H2. by apply Hn.
  - apply Forall_forall. by intros q [_ ?]%H2.
  - intros q Hq. apply H2. split; [by apply (inv_live p H)|by apply Hh].
  - case_bool_decide as E; [done|]. rewrite (inv_leases p H). case_bool_decide as E'; [|done].
    destruct E. by rewrite E'.
  - pose proof (inv_capacity p H). lia.
  - apply H.
Qed.

Lemma make_room_inv p native :
  inv p → (∀ oldest, head (pending p) = Some oldest → honest p oldest native) →
  let p' := (make_room p native).1 in
  inv p' ∧ last_point p' = last_point p ∧ buffers p' = buffers p
  ∧ (is_ok (make_room p native).2 = true → (length (pending p') < CAPACITY)%nat).
Proof.
  intros H Hh. simpl. unfold make_room. pose proof (inv_capacity p H) as Hc.
  destruct (Nat.eqb_spec (length (pending p)) CAPACITY) as [Hl|Hl]; [|split_and!; try done; simpl; lia].
  destruct (pending p) as [|q rest] eqn:Ep; [done|].
  assert (q <= last_point p) as Hq
    by (pose proof (inv_newest p H) as Hn; rewrite Ep in Hn; by apply Forall_cons in Hn as [? _]).
  destruct (wait_inv p q native H Hq (Hh q eq_refl)) as (Hi & Hlp & _ & Hb & Hw).
  destruct (wait p q native) as [p' [[]|e]]; simpl in *; (split_and!; try done).
  intros _. destruct (Hw eq_refl) as [_ Hlt]. specialize (Hlt q rest Ep ltac:(lia)). rewrite Ep in Hlt.
  simpl in *. lia.
Qed.

Lemma retain_all_ok bufs outcomes acc l : retain_all bufs outcomes acc = Ok l → l = acc ++ bufs.
Proof.
  revert outcomes acc. induction bufs as [|b bufs IH]; intros outcomes acc; simpl.
  { intros [= <-]. by rewrite app_nil_r. }
  destruct outcomes as [|[[]|e] outcomes]; [done| |done]. intros ->%IH. by rewrite <-app_assoc.
Qed.

(** A submission needs every binding leased. *)
Lemma xdna_submit_inv p submitted :
  inv p ∨ (∃ q, inv q ∧ pending q = [] ∧ p = set_leases q (buffers q)) →
  leases p = buffers p → (length (pending p) < CAPACITY)%nat →
  (∀ point, submitted = Ok point → last_point p < point) →
  inv (submit p submitted).1.
Proof.
  intros Hp Hl Hc Hm. unfold submit.
  assert (Hq : ∃ q, inv q ∧ pending p = pending q ∧ buffers p = buffers q ∧ retired p = retired q
    ∧ cached p = cached q ∧ live p = live q ∧ last_point p = last_point q ∧ set_leases p (leases q) = q).
  { destruct Hp as [Hp|(q & Hq & _ & ->)]; [exists p; by destruct p|exists q; by destruct q]. }
  destruct Hq as (q & Hq & E1 & E2 & E3 & E4 & E5 & E6 & E7).
  destruct submitted as [point|e]; simpl.
  - specialize (Hm point eq_refl). pose proof (inv_newest q Hq) as Hn. rewrite <-E1, <-E6 in Hn.
    pose proof (inv_retired q Hq) as Hr. rewrite <-E1, <-E3 in Hr. destruct (inv_cached q Hq) as [Hc1 Hc2].
    constructor; simpl.
    + rewrite E1. pose proof (inv_sorted q Hq) as Hs. rewrite E1, E6 in *. clear -Hs Hn Hm.
      induction Hs as [|a l Hl IH Ha]; simpl; [repeat constructor|].
      apply Forall_cons in Hn as [Hna Hn]. constructor; [by apply IH|]. apply Forall_app. split; [done|].
      constructor; [lia|constructor].
    + apply Forall_app. split; [|by repeat constructor]. eapply Forall_impl; [exact Hn|]. simpl. lia.
    + apply Forall_app. split; [done|]. constructor; [lia|constructor].
    + lia.
    + intros x. rewrite E5, E1, !elem_of_app. intros [Hx|Hx]; [left; by apply (inv_live q Hq)|by right].
    + rewrite bool_decide_eq_false_2; [done|]. by destruct (pending p).
    + rewrite length_app. simpl. lia.
    + rewrite E2. apply Hq.
  - destruct Hp as [Hp|(q' & Hq' & Hn & ->)].
    + case_bool_decide as E; [|done]. destruct Hp as [A1 A2 A3 A4 A5 A6 A7 A8].
      constructor; simpl; try done. by rewrite bool_decide_eq_true_2.
    + simpl. rewrite bool_decide_eq_true_2 by done. destruct Hq' as [A1 A2 A3 A4 A5 A6 A7 A8].
      constructor; simpl; try done. by rewrite bool_decide_eq_true_2.
Qed.

Lemma xdna_dispatch_inv p native outcomes submitted :
  inv p → (∀ oldest, head (pending p) = Some oldest → honest p oldest native) →
  (∀ point, submitted = Ok point → last_point p < point) → inv (dispatch p native outcomes submitted).1.
Proof.
  intros H Hh Hm. unfold dispatch. destruct (make_room_inv p native H Hh) as (Hi & Hlp & Hb & Hc).
  destruct (make_room p native) as [q [[]|e]]; simpl in *; [|done]. specialize (Hc eq_refl).
  rewrite <-Hlp in Hm. unfold take_leases. pose proof (inv_leases q Hi) as Hl.
  destruct (bool_decide (leases q = [])) eqn:El;
    [apply bool_decide_eq_true in El|apply bool_decide_eq_false in El].
  - assert (pending q = [] ∨ buffers q = []) as Hcase.
    { rewrite El in Hl. case_bool_decide as E; [by left|by right]. }
    destruct (retain_all (buffers q) outcomes []) as [l|e] eqn:Er; simpl.
    + apply retain_all_ok in Er. simpl in Er. subst l. apply xdna_submit_inv; try done.
      destruct Hcase as [Hn|Hn]; [right; by exists q|left].
      replace (set_leases q (buffers q)) with q; [done|]. clear -El Hn. destruct q; simpl in *. by subst.
    + rewrite <-El. by destruct q.
  - simpl. apply xdna_submit_inv; [by left| |done|done]. rewrite Hl in *. by case_bool_decide.
Qed.

Lemma wrap_inv p sh a pn b sn ret ad o r re :
  inv p → inv (wrap_transaction p sh a pn b sn ret ad o r re).1.
Proof.
  intros H. unfold wrap_transaction. destruct sh; [done|].
  destruct (bool_decide (pending p = [])) eqn:Ep; simpl; [|done]. apply bool_decide_eq_true in Ep.
  destruct (negb (retired p =? 0)); [done|].
  match goal with |- context [match ?m with Ok _ => _ | Err _ => _ end] => destruct m as [bytes|e]; [|done] end.
  destruct H as [A1 A2 A3 A4 A5 A6 A7 A8]. constructor; simpl; try done.
  - rewrite A6, Ep. done.
  - apply distinct_buffers_spec.
Qed.

Lemma xdna_reachable_inv p : reachable p → inv p.
Proof.
  induction 1 as [bufs|p p' _ IH Hs].
  { constructor; simpl; try done; [constructor|lia|apply distinct_buffers_spec]. }
  revert IH. destruct Hs as [p s native Hl Hh|p native outcomes submitted Hh Hm| |p oldest rest El]; intros IH.
  - by destruct (wait_inv p s native IH Hl Hh).
  - by apply xdna_dispatch_inv.
  - by apply wrap_inv.
  - destruct IH as [A1 A2 A3 A4 A5 A6 A7 A8]. constructor; simpl; try done.
    intros q Hq. apply A5. rewrite El. by right.
Qed.

(** C27. However clients dispatch, wait and wrap, while the device may still run an
    invocation every binding is leased, once; at most 128 invocations are
    pending; a completion that reports retirement has retired; and a dropped
    program releases what it owns only when no invocation is left. *)
Theorem bindings_stay_leased p native closed :
  reachable p →
  (live p ≠ [] → leases p = buffers p) ∧ NoDup (buffers p)
  ∧ (length (pending p) <= 128)%nat
  ∧ (∀ c, is_complete p c = true → c ∉ live p)
  ∧ ((∀ q, last (pending p) = Some q → honest p q native) →
     (drop_program p native closed).2 = Released → live p = []).
Proof.
  intros H%xdna_reachable_inv. split_and!.
  - intros Hl. rewrite (inv_leases p H). case_bool_decide as E; [|done].
    destruct (live p) as [|q l] eqn:El; [done|]. pose proof (inv_live p H q) as Hq. rewrite El, E in Hq.
    specialize (Hq ltac:(by left)). by apply elem_of_nil in Hq.
  - apply H.
  - apply H.
  - intros c Hc%Z.leb_le Hin%(inv_live p H). destruct (inv_cached p H) as [E _].
    pose proof (inv_retired p H) as Hr. rewrite Forall_forall in Hr. specialize (Hr c Hin). lia.
  - intros Hh. unfold drop_program. destruct (last (pending p)) as [q|] eqn:El; simpl.
    + assert (Hq : q ∈ pending p) by (apply last_Some_elem_of in El; done).
      pose proof (inv_newest p H) as Hn. rewrite Forall_forall in Hn.
      destruct (wait_inv p q native H (Hn q Hq) (Hh q eq_refl)) as (_ & _ & _ & _ & Hw).
      destruct (wait p q native) as [p' [[]|e]]; simpl in *; [|done|done]. intros _.
      destruct (Hw eq_refl) as [Hgt _]. destruct (live p) as [|x l] eqn:Ex; [done|exfalso].
      specialize (Hgt x ltac:(by left)). pose proof (inv_live p H x) as Hx. rewrite Ex in Hx.
      specialize (Hx ltac:(by left)). apply last_Some in El as [l' El]. rewrite El in Hx.
      pose proof (inv_sorted p H) as Hs. rewrite El in Hs. apply elem_of_app in Hx as [Hx|Hx].
      * apply StronglySorted_app_1_elem_of with (x1 := x) (x2 := q) in Hs; [lia|done|by left].
      * apply list_elem_of_singleton in Hx. lia.
    + intros _. apply last_None in El. destruct (live p) as [|x l] eqn:Ex; [done|].
      pose proof (inv_live p H x) as Hx. rewrite Ex, El in Hx. specialize (Hx ltac:(by left)).
      by apply elem_of_nil in Hx.
Qed.

(** A program with two bindings, dispatched twice, whose first invocation has
    retired. *)
Definition example_program : Program :=
  let p := new_program (distinct_buffers [7; 3; 7]) in
  let p := (dispatch p Done [Ok (); Ok ()] (Ok 1)).1 in
  let p := (dispatch p Deadline [] (Ok 2)).1 in
  set_live p [2].

Lemma example_reachable_program : reachable example_program.
Proof.
  unfold example_program. eapply reachable_step; [|apply (step_retire _ 1); reflexivity].
  eapply reachable_step; [|apply step_dispatch; [|by intros ? [= <-]]].
  2: by intros oldest _.
  eapply reachable_step; [apply reachable_new|apply step_dispatch; [done|by intros ? [= <-]]].
Qed.

Lemma bindings_stay_leased_witness : leases example_program = [3; 7] ∧ pending example_program = [1; 2].
Proof.
  split; [|vm_compute; reflexivity].
  transitivity (buffers example_program); [|vm_compute; reflexivity].
  apply (bindings_stay_leased example_program Done true example_reachable_program). vm_compute. discriminate.
Defined.

(** ** Transactions *)

Lemma length_slice from len b : (from + len <= length b)%nat → length (slice from len b) = len.
Proof. intros H. unfold slice. rewrite length_take, length_drop. lia. Qed.

(** The two header updates rewrite eight bytes. *)
Lemma splice_header (x y b : list Z) :
  length x = 4%nat → length y = 4%nat → (16 <= length b)%nat →
  splice 12 4 y (splice 8 4 x b) = take 8 b ++ x ++ y ++ drop 16 b.
Proof.
  intros Hx Hy Hb. unfold splice.
  assert (length (take 8 b) = 8%nat) as H8 by (rewrite length_take; lia).
  rewrite (app_assoc (take 8 b) x). rewrite take_app_length' by (rewrite length_app; lia).
  rewrite <-app_assoc. do 3 f_equal. rewrite drop_app_ge by (rewrite length_app; lia).
  rewrite drop_drop, length_app, H8, Hx. f_equal.
Qed.

Lemma valid_header_spec o :
  valid_header o = true ↔
  (16 <= length o)%nat ∧ take 4 o = [0; 1; 4; 6] ∧ o !! 5%nat = Some 1
  ∧ (∃ c, o !! 4%nat = Some c ∧ c ≠ 0 ∧ c <= 8) ∧ from_le_bytes (slice 12 4 o) = zlen o.
Proof.
  unfold valid_header. rewrite !andb_true_iff, !bool_decide_eq_true, Nat.leb_le, Z.eqb_eq.
  destruct (o !! 4%nat) as [c|].
  - rewrite andb_true_iff, negb_true_iff, Z.eqb_neq, Z.leb_le. naive_solver.
  - naive_solver.
Qed.

(** A composed transaction: the header with new counts, then the body between
    the added records. *)
Definition composed (o prefix suffix : list Z) (ops n : Z) : list Z :=
  take 8 o ++ le_bytes 4 ops ++ le_bytes 4 n ++ prefix ++ drop 16 o ++ suffix.

Lemma compose_splices o prefix suffix ops n :
  (16 <= length o)%nat →
  splice 12 4 (le_bytes 4 n) (splice 8 4 (le_bytes 4 ops) (take 16 o ++ prefix ++ drop 16 o ++ suffix))
  = composed o prefix suffix ops n.
Proof.
  intros Hl. assert (length (take 16 o) = 16%nat) as H16 by (rewrite length_take; lia).
  rewrite splice_header by (rewrite ?length_le_bytes, ?length_app; lia). unfold composed.
  rewrite take_app_le by lia. rewrite take_take. do 4 f_equal. by rewrite drop_app_length'.
Qed.

Lemma composed_valid o prefix suffix ops :
  let n := zlen o + zlen prefix + zlen suffix in
  valid_header o = true → n <= u32_max → 0 <= ops <= u32_max →
  let b := composed o prefix suffix ops n in
  valid_header b = true ∧ zlen b = n ∧ from_le_bytes (slice 8 4 b) = ops.
Proof.
  intros n (Hl & Hm & H5 & (c & H4 & Hc0 & Hc8) & Hlen)%valid_header_spec Hn Ho b.
  assert (length (take 8 o) = 8%nat) as H8 by (rewrite length_take; lia).
  pose proof (length_le_bytes 4 ops) as Lo. pose proof (length_le_bytes 4 n) as Ln.
  assert (Hz : zlen b = n).
  { unfold b, composed, n, zlen. rewrite !length_app, H8, Lo, length_le_bytes, length_drop. lia. }
  assert (S8 : slice 8 4 b = le_bytes 4 ops).
  { unfold slice, b, composed. rewrite drop_app_length' by done. by rewrite take_app_length'. }
  assert (S12 : slice 12 4 b = le_bytes 4 n).
  { unfold slice, b, composed. rewrite (app_assoc (take 8 o)).
    rewrite drop_app_length' by (rewrite length_app; lia). by rewrite take_app_length'. }
  assert (Hw : ∀ v, 0 <= v <= u32_max → from_le_bytes (le_bytes 4 v) = v).
  { intros v Hv. rewrite le_roundtrip. apply Z.mod_small. unfold u32_max in Hv. lia. }
  assert (0 <= n) by (unfold n, zlen; lia).
  split_and!; [|done|by rewrite S8, Hw]. apply valid_header_spec. split_and!.
  - unfold b, composed. rewrite !length_app, H8, Lo, length_le_bytes. lia.
  - unfold b, composed. rewrite take_app_le by lia. rewrite take_take. exact Hm.
  - unfold b, composed. rewrite lookup_app_l by lia. by rewrite lookup_take_lt by lia.
  - exists c. unfold b, composed. rewrite lookup_app_l by lia. by rewrite lookup_take_lt by lia.
  - rewrite S12, Hz. apply Hw. lia.
Qed.

(** A wrapped transaction keeps the original header up to its counts and the
    original body between the added records; its counts are those of what it
    holds, and it can be wrapped again.  The wrapping is refused exactly when
    the header is invalid or a count does not fit. *)
Theorem wrapped_transactions_are_composed o prefix pn suffix sn :
  0 <= pn → 0 <= sn → Forall (λ x, 0 <= x) (slice 8 4 o) →
  let n := zlen o + zlen prefix + zlen suffix in
  let ops := from_le_bytes (slice 8 4 o) + pn + sn in
  let b := composed o prefix suffix ops n in
  if valid_header o && (n <=? u32_max) && (ops <=? u32_max)
  then compose_transaction o prefix pn suffix sn = Ok b
     ∧ valid_header b = true ∧ zlen b = n ∧ from_le_bytes (slice 8 4 b) = ops
  else compose_transaction o prefix pn suffix sn = Err invalid.
Proof.
  intros Hp Hs Hf n ops b. unfold compose_transaction. destruct (valid_header o) eqn:Ev; cbn [negb andb]; [|done].
  assert (Hops : 0 <= from_le_bytes (slice 8 4 o)) by (clear -Hf; induction Hf; simpl; lia).
  assert (0 <= zlen prefix ∧ 0 <= zlen suffix) as [Hzp Hzs] by (unfold zlen; lia).
  assert (u32_max <= usize_max) as Hmax by done. subst n ops. unfold checked_add, checked_add32.
  repeat (case_bool; cbn [andb result_bind ok_or mbind option_bind]; try done; try lia).
  rewrite compose_splices by (by apply valid_header_spec in Ev as [? _]).
  split; [done|]. apply composed_valid; [done|lia|lia].
Qed.

Definition example_transaction : list Z :=
  [0; 1; 4; 6; 1; 1; 0; 0] ++ le_bytes 4 2 ++ le_bytes 4 24 ++ [11; 22; 33; 44; 55; 66; 77; 88].

Lemma wrapped_transactions_are_composed_witness :
  compose_transaction example_transaction [9; 8; 7; 6] 1 [5; 4; 3; 2] 3
  = Ok (composed example_transaction [9; 8; 7; 6] [5; 4; 3; 2] 6 32).
Proof.
  apply (wrapped_transactions_are_composed example_transaction [9; 8; 7; 6] 1 [5; 4; 3; 2] 3); [lia|lia|].
  vm_compute. repeat constructor; discriminate.
Defined.

(** Accepted bindings stay inside their buffers. *)
Lemma check_bindings_bounds l ns :
  check_bindings l = Ok ns →
  Forall2 (λ b n, n_buffer n = buffer b ∧ n_offset n = offset b ∧ n_length n = b_length b
    ∧ b_length b ≠ 0 ∧ offset b + b_length b <= buffer_len b
    ∧ ∃ base, device_address b = Ok base ∧ n_address n = base + offset b ∧ n_address n <= usize_max) l ns.
Proof.
  revert ns. induction l as [|b l IH]; intros ns; simpl; [intros [= <-]; constructor|].
  destruct (check_binding b) as [n|] eqn:E; simpl; [|done].
  destruct (check_bindings l) as [rest|]; simpl; [|done]. intros [= <-]. constructor; [|by apply IH].
  unfold check_binding in E. destruct (negb (whole b)); [done|].
  destruct (checked_add (offset b) (b_length b)) as [stop|] eqn:Es; [|by rewrite orb_true_r in E].
  apply checked_add_Some in Es as [-> _].
  destruct ((b_length b =? 0) || (buffer_len b <? offset b + b_length b)) eqn:Eb; [done|]. to_prop.
  destruct (device_address b) as [base|]; simpl in E; [|done].
  destruct (checked_add base (offset b)) as [a|] eqn:Ea; simpl in E; [|done].
  apply checked_add_Some in Ea as [-> ?]. injection E as <-. simpl. split_and!; try done. by exists base.
Qed.

End Xdna.
