(* ===== verification/GpuStorage.v ===== *)
(** * GPU-published storage rings

    src/src/fabric/storage.rs: an io_uring instance over registered pages whose
    requests a GPU program publishes.  Creation checks the native layout and
    restricts the ring before it is enabled; an execution retires when the GPU
    is done and the kernel has completed every request.  The counters of the
    ring are 32-bit words read one at a time while the GPU and the kernel go on. *)

From S2P Require Import Prelude.
Local Open Scope Z_scope.

Module GpuStorage.

(** ** Creation *)

Inductive StorageProgress : Type := Sqpoll | Wait.
Global Instance progress_eq_dec : EqDecision StorageProgress.
Proof. solve_decision. Defined.
(** [StorageOptions] without its budget, and its default. *)
Record StorageOptions : Type := mkOptions { progress : StorageProgress; entries : Z; idle_milliseconds : Z }.
Definition default_options : StorageOptions := mkOptions Sqpoll 8 1.

(** What [io_uring_setup] answers: entry counts and control offsets. *)
Record Parameters : Type := mkParameters {
  sq_entries : Z;
  cq_entries : Z;
  sq_head : Z;
  sq_tail : Z;
  sq_flags : Z;
  sq_dropped : Z;
  cq_head : Z;
  cq_tail : Z;
  cq_overflow : Z;
  cqes : Z }.

Record StorageLayout : Type := mkLayout {
  submission_entries : Z;
  submission_tail : Z;
  completion_entries : Z;
  completion_head : Z;
  completion_tail : Z;
  submission_mask : Z;
  completion_mask : Z }.

(** The sizes of the two halves of the ring memory. *)
Definition round (page n : Z) : Z := (n + page - 1) / page * page.
Definition control_of (page : Z) (o : StorageOptions) : Z := round page (entries o * 64).
Definition control_bytes_of (page : Z) (o : StorageOptions) : Z := page + round page (entries o * 2 * 16).

(** The flags of the setup call. *)
Definition setup_flags (p : StorageProgress) : Z :=
  Z.lor (Z.lor (Z.lor 16384 65536) 64)
    match p with Sqpoll => 2 | Wait => Z.lor (Z.lor (Z.shiftl 1 12) (Z.shiftl 1 13)) (Z.shiftl 1 9) end.

Definition valid_options (gpu : bool) (files : nat) (o : StorageOptions) : bool :=
  gpu && negb (files =? 0)%nat && (Z.of_nat files <=? 1024) && is_power_of_two (entries o)
  && (2 <=? entries o) && (entries o <=? 4096) && negb (idle_milliseconds o =? 0).

(** [Files]: a file's metadata tells whether it is regular, then it is cloned. *)
Fixpoint clone_files (l : list (Result bool * Result ())) : Result () :=
  match l with
  | [] => Ok ()
  | (metadata, clone) :: rest =>
      let? regular := metadata in
      if negb regular then Err (Unsupported "storage requires regular files")
      else let? _ := clone in clone_files rest
  end.

Definition valid_offset (control_bytes offset : Z) : bool :=
  (offset mod 4 =? 0) && (offset + 4 <=? control_bytes).
Definition offsets (p : Parameters) : list Z :=
  [sq_head p; sq_tail p; sq_flags p; sq_dropped p; cq_head p; cq_tail p; cq_overflow p].
Definition check_parameters (o : StorageOptions) (page : Z) (p : Parameters) : Result () :=
  if negb (sq_entries p =? entries o) || negb (cq_entries p =? entries o * 2)
     || (control_bytes_of page o <? cqes p + cq_entries p * 16)
  then Err (Unsupported "unexpected io_uring storage requirements")
  else if forallb (valid_offset (control_bytes_of page o)) (offsets p) then Ok ()
  else Err (Unsupported "invalid native ring offsets").

Definition layout_of (control : Z) (p : Parameters) : StorageLayout :=
  mkLayout 0 (control + sq_tail p) (control + cqes p) (control + cq_head p) (control + cq_tail p)
    (sq_entries p - 1) (cq_entries p - 1).

(** [StorageRing::register]: the operation with what it registers. *)
Inductive Operation : Type :=
| RegisterBuffers
| RegisterFiles (count : nat)
| RegisterEventfd
| RegisterRestrictions (l : list (Z * Z))
| EnableRings.
Definition ENABLE_RINGS : Z := 12.
(** A restriction's kind (registration, request, allowed flags, required flags)
    and value; requests 4 and 5 are READ_FIXED and WRITE_FIXED, flag 1 is a
    fixed file. *)
Definition restrictions : list (Z * Z) := [(1, 4); (1, 5); (2, 1); (3, 1); (0, ENABLE_RINGS)].
Definition registrations (o : StorageOptions) (files : nat) : list Operation :=
  [RegisterBuffers; RegisterFiles files]
  ++ (if decide (progress o = Wait) then [RegisterEventfd] else [])
  ++ [RegisterRestrictions restrictions; EnableRings].

(** Calls in order until one fails; the operations that succeeded. *)
Fixpoint register_all (native : Operation → Result ()) (l : list Operation) : list Operation * Result () :=
  match l with
  | [] => ([], Ok ())
  | op :: rest =>
      match native op with
      | Err e => ([], Err e)
      | Ok _ => let '(done, r) := register_all native rest in (op :: done, r)
      end
  end.

(** The outcome of the setup call: parameters, or an error that tells whether
    the kernel lacks the feature. *)
Inductive Setup : Type := Made (p : Parameters) | Lacking (error : string) | Broken (error : string).

Record Ring : Type := mkRing { ring_bytes : Z; ring_page : Z; parameters : Parameters; layout : StorageLayout }.

(** [StorageRing::new]: the operations registered, and the ring.  [allocate]
    answers for a size; [retained] is the kernel's use of the memory and
    [eventfd] the notification. *)
Definition new (gpu : bool) (files : list (Result bool * Result ())) (owned : bool) (address : Result ())
    (o : StorageOptions) (page : Z) (allocate : Z → Result ()) (setup : Setup) (retained eventfd : Result ())
    (native : Operation → Result ()) : list Operation * Result Ring :=
  match (if negb (valid_options gpu (length files) o) then Err (Message "invalid GPU storage ring configuration")
         else if negb owned then Err (Unsupported "storage payload requires owned registered host pages")
         else
           let? _ := address in
           let? _ := clone_files files in
           if page <=? 0 then Err (Unsupported "host page size unavailable")
           else
             let? _ := allocate (control_of page o + control_bytes_of page o) in
             match setup with
             | Lacking e => Err (Unsupported ("caller-owned io_uring ring unavailable: " +:+ e))
             | Broken e => Err (Io e)
             | Made p =>
                 let? _ := check_parameters o page p in
                 let? _ := retained in
                 let? _ := if decide (progress o = Wait) then eventfd else Ok () in
                 Ok (mkRing (control_of page o + control_bytes_of page o) page p (layout_of (control_of page o) p))
             end) with
  | Err e => ([], Err e)
  | Ok ring =>
      let '(done, r) := register_all native (registrations o (length files)) in
      (done, let? _ := r in Ok ring)
  end.

(** ** Service *)

(** [StorageRing::wake] in wait mode, on the words it reads in order: the
    submissions passed to [io_uring_enter], whether it polls, and its answer.
    Interrupted calls are [None]. *)
Definition wrapping_sub (a b : Z) : Z := (a - b) mod 2 ^ 32.
Record Words : Type := mkWords { w_completed : Z; w_tail : Z; w_head : Z }.
Record Service : Type := mkService { entered : option Z; polled : bool }.
Definition wake_wait (issuer : bool) (read : Result ()) (w : Words) (enter : option (Result ()))
    (later : Z * Z * Z) (poll : option (Result ())) : Service * Result () :=
  if negb issuer then (mkService None false, Err (Message "wait-mode storage must be serviced by its creating thread"))
  else
    match read with
    | Err e => (mkService None false, Err e)
    | Ok _ =>
        if w_tail w =? w_completed w then (mkService None false, Ok ())
        else
          let n := wrapping_sub (w_tail w) (w_head w) in
          match enter with
          | None => (mkService (Some n) false, Ok ())
          | Some (Err e) => (mkService (Some n) false, Err e)
          | Some (Ok _) =>
              let '(completed, flags, head) := later in
              if (completed =? w_completed w) && (Z.land flags 4 =? 0) && negb (head =? w_completed w)
              then (mkService (Some n) true, match poll with Some (Err e) => Err e | _ => Ok () end)
              else (mkService (Some n) false, Ok ())
          end
    end.

(** [StorageRing::wake] with a kernel poller: a sleeping one is woken. *)
Definition wake_sqpoll (flags tail head : Z) (enter : option (Result ())) : Service * Result () :=
  if negb (Z.land flags 1 =? 0) && negb (tail =? head)
  then (mkService (Some 0) false, match enter with Some (Err e) => Err e | _ => Ok () end)
  else (mkService None false, Ok ()).

(** ** Execution *)

(** The ring as the GPU and the kernel see it: requests published, taken and
    completed so far, and whether the GPU program is done.  The words in memory
    are the counts modulo [2 ^ 32]. *)
Record Device : Type := mkDevice { published : Z; taken : Z; completed : Z; gpu_done : bool }.
Definition to_word (n : Z) : Z := n mod 2 ^ 32.

(** [StorageRing::drained] on the words it reads. *)
Definition drained (tail head completed : Z) : bool := (tail =? head) && (tail =? completed).

(** Where [wait_timeout] is: outside, after [wake], after [refresh], and inside
    [drained] after its first and its second word. *)
Inductive Phase : Type :=
| Outside | Woken | Refreshed (gpu : bool) | SawTail (tail : Z) | SawHead (tail head : Z).

(** [StorageExecution]: [uses] tells that the uses of memory and payload are
    held, [owners] whether the owners are held, given back or forgotten. *)
Inductive Owners : Type := Held | Released | Quarantined.
Record World : Type := mkWorld {
  device : Device;
  phase : Phase;
  retired : bool;
  uses : bool;
  owners : Owners }.

Definition set_device (w : World) (d : Device) : World := mkWorld d (phase w) (retired w) (uses w) (owners w).
Definition set_phase (w : World) (p : Phase) : World := mkWorld (device w) p (retired w) (uses w) (owners w).
Definition set_owners (w : World) (o : Owners) : World := mkWorld (device w) (phase w) (retired w) (uses w) o.

(** [StorageRing::dispatch] of an initially empty ring: both uses are taken,
    then the command is accepted. *)
Definition dispatch (memory_use payload_use accepted : Result ()) : Result World :=
  let? _ := memory_use in
  let? _ := payload_use in
  let? _ := accepted in
  Ok (mkWorld (mkDevice 0 0 0 false) Outside false true Held).

(** The end of a turn of [wait_timeout]: a drained ring retires the execution
    and clears the uses; otherwise the loop ends or starts again. *)
Definition end_turn (w : World) (done : bool) : World :=
  if done then mkWorld (device w) Outside true false (owners w) else set_phase w Outside.

(** [StorageExecution::into_ring], and [Drop] after its bounded wait. *)
Definition into_ring (w : World) : World * Result () :=
  if negb (retired w) then (w, Err (Busy "storage execution has not retired")) else (set_owners w Released, Ok ()).
Definition drop_execution (w : World) : World :=
  match owners w with
  | Held => set_owners w (if retired w then Released else Quarantined)
  | _ => w
  end.

(** One step of the owner: a call of [wait_timeout] up to its next read, or the
    end of the execution.  An error of [wake] or [refresh] leaves the loop. *)
Inductive host : World → World → Prop :=
| host_wake w : retired w = false → owners w = Held → phase w = Outside → host w (set_phase w Woken)
| host_refresh w gpu :
    phase w = Woken → (gpu = true → gpu_done (device w) = true) → host w (set_phase w (Refreshed gpu))
| host_fail w : phase w = Woken → host w (set_phase w Outside)
| host_busy w : phase w = Refreshed false → host w (end_turn w false)
| host_tail w : phase w = Refreshed true → host w (set_phase w (SawTail (to_word (published (device w)))))
| host_head w tail :
    phase w = SawTail tail → host w (set_phase w (SawHead tail (to_word (taken (device w)))))
| host_turn w tail head :
    phase w = SawHead tail head → host w (end_turn w (drained tail head (to_word (completed (device w)))))
| host_into_ring w : owners w = Held → phase w = Outside → host w (into_ring w).1
| host_drop w : phase w = Outside → host w (drop_execution w).

(** The GPU publishes within the capacities of the queues and finishes; the
    kernel takes and completes requests. *)
Inductive native (n : Z) : Device → Device → Prop :=
| native_publish d :
    gpu_done d = false → published d - taken d < n → published d - completed d < 2 * n →
    native n d (mkDevice (published d + 1) (taken d) (completed d) false)
| native_finish d : native n d (mkDevice (published d) (taken d) (completed d) true)
| native_take d : taken d < published d → native n d (mkDevice (published d) (taken d + 1) (completed d) (gpu_done d))
| native_complete d :
    completed d < taken d → native n d (mkDevice (published d) (taken d) (completed d + 1) (gpu_done d)).

Inductive step (n : Z) : World → World → Prop :=
| step_host w w' : host w w' → step n w w'
| step_native w d : native n (device w) d → step n w (set_device w d).

Inductive reachable (n : Z) : World → Prop :=
| reachable_initial m p a w : dispatch m p a = Ok w → reachable n w
| reachable_step w w' : reachable n w → step n w w' → reachable n w'.

(** ** Layout *)

Lemma round_bounds page n : 0 < page → 0 <= n → n <= round page n.
Proof.
  intros Hp Hn. unfold round. pose proof (Z.div_mod (n + page - 1) page ltac:(lia)) as H.
  pose proof (Z.mod_pos_bound (n + page - 1) page Hp). nia.
Qed.

Lemma check_parameters_ok o page p :
  check_parameters o page p = Ok () →
  sq_entries p = entries o ∧ cq_entries p = entries o * 2
  ∧ cqes p + cq_entries p * 16 <= control_bytes_of page o
  ∧ ∀ x, x ∈ offsets p → x mod 4 = 0 ∧ x + 4 <= control_bytes_of page o.
Proof.
  unfold check_parameters.
  destruct (negb (sq_entries p =? entries o) || negb (cq_entries p =? entries o * 2) || _) eqn:E; [done|]. to_prop.
  destruct (forallb _ _) eqn:Ef; [|done]. intros _. split_and!; [done|done|lia|].
  intros x Hx. rewrite forallb_forall in Ef. specialize (Ef x (proj1 (list_elem_of_In _ _) Hx)).
  unfold valid_offset in Ef. to_prop. done.
Qed.

Lemma register_all_ok native l done : register_all native l = (done, Ok ()) → done = l.
Proof.
  revert done. induction l as [|op l IH]; intros done; simpl; [by intros [= <-]|].
  destruct (native op); [|done]. destruct (register_all native l) as [d r]. intros [= <- ->]. by rewrite (IH d).
Qed.

Lemma register_all_prefix native l : (register_all native l).1 `prefix_of` l.
Proof.
  induction l as [|op l IH]; simpl; [done|]. destruct (native op); [|apply prefix_nil].
  destruct (register_all native l) as [d r]. simpl in *. by apply prefix_cons.
Qed.

(** A ring is enabled only after its restrictions, which admit the two fixed
    requests with fixed files and nothing else, and a ring that is made was
    enabled.  Its memory holds the submission entries below the control half,
    and in that half the completion entries and every control word, aligned. *)
Theorem rings_are_restricted_and_in_bounds gpu files owned address o page allocate setup retained eventfd native done r :
  new gpu files owned address o page allocate setup retained eventfd native = (done, r) →
  (∀ before after, done = before ++ EnableRings :: after → RegisterRestrictions restrictions ∈ before)
  ∧ ∀ ring, r = Ok ring →
      EnableRings ∈ done
      ∧ submission_entries (layout ring) + entries o * 64 <= control_of page o
      ∧ control_of page o <= completion_entries (layout ring) - cqes (parameters ring)
      ∧ completion_entries (layout ring) + entries o * 2 * 16 <= ring_bytes ring
      ∧ Forall (λ x, x mod 4 = 0 ∧ control_of page o + x + 4 <= ring_bytes ring) (offsets (parameters ring))
      ∧ submission_mask (layout ring) = entries o - 1 ∧ completion_mask (layout ring) = entries o * 2 - 1.
Proof.
  unfold new.
  match goal with |- match ?m with Ok _ => _ | Err _ => _ end = _ → _ => destruct m as [ring|e] eqn:Em end.
  2: { intros [= <- <-]. split; [|done]. by intros [|] ? ?. }
  destruct (register_all native _) as [d r'] eqn:Er. intros [= <- <-]. split.
  - pose proof (register_all_prefix native (registrations o (length files))) as Hp. rewrite Er in Hp.
    destruct Hp as [k Hk]. simpl in Hk. intros before after ->. unfold registrations in Hk.
    destruct (decide (progress o = Wait)); simpl in Hk;
      repeat (destruct before as [|? before]; simpl in Hk; [by simplify_eq|]); simplify_eq; set_solver.
  - intros ring' Hr. destruct r' as [[]|]; simpl in Hr; [|done]. injection Hr as <-.
    apply register_all_ok in Er as ->. destruct (valid_options _ _ _) eqn:Ev; simpl in Em; [|done].
    destruct owned; simpl in Em; [|done]. destruct address as [[]|]; simpl in Em; [|done].
    destruct (clone_files files) as [[]|]; simpl in Em; [|done]. destruct (Z.leb_spec page 0); [done|].
    destruct (allocate _) as [[]|]; simpl in Em; [|done]. destruct setup as [p| |]; [|done|done].
    destruct (check_parameters o page p) as [[]|] eqn:Ec; simpl in Em; [|done].
    destruct retained as [[]|]; simpl in Em; [|done].
    destruct (if decide (progress o = Wait) then eventfd else Ok ()) as [[]|]; simpl in Em; [|done].
    injection Em as <-. apply check_parameters_ok in Ec as (H1 & H2 & H3 & H4). simpl.
    unfold valid_options in Ev. to_prop.
    pose proof (round_bounds page (entries o * 64) ltac:(lia) ltac:(lia)).
    split_and!; try lia.
    + unfold registrations. set_solver.
    + unfold control_of. lia.
    + apply Forall_forall. intros x Hx. destruct (H4 x Hx). split; [done|lia].
Qed.

Definition example_parameters : Parameters := mkParameters 8 16 0 4 8 12 16 20 24 64.
Lemma rings_are_restricted_and_in_bounds_witness :
  ∃ done ring,
    new true [(Ok true, Ok ())] true (Ok ()) default_options 4096 (λ _, Ok ()) (Made example_parameters)
      (Ok ()) (Ok ()) (λ _, Ok ()) = (done, Ok ring)
    ∧ EnableRings ∈ done ∧ submission_mask (layout ring) = 7.
Proof.
  eexists _, _. split; [vm_compute; reflexivity|]. split.
  - apply (proj2 (rings_are_restricted_and_in_bounds true [(Ok true, Ok ())] true (Ok ()) default_options 4096
      (λ _, Ok ()) (Made example_parameters) (Ok ()) (Ok ()) (λ _, Ok ()) _ _ eq_refl) _ eq_refl).
  - vm_compute. reflexivity.
Defined.

(** ** Retirement *)

Definition bounded (n : Z) (d : Device) : Prop :=
  0 <= completed d <= taken d ∧ taken d <= published d <= completed d + 2 * n.

(** What the owner has seen of a device that no longer publishes. *)
Definition seen (w : World) : Prop :=
  match phase w with
  | Outside | Woken | Refreshed false => True
  | Refreshed true => gpu_done (device w) = true
  | SawTail tail => gpu_done (device w) = true ∧ tail = to_word (published (device w))
  | SawHead tail head =>
      gpu_done (device w) = true ∧ tail = to_word (published (device w))
      ∧ (head = tail → taken (device w) = published (device w))
  end.
Definition finished (d : Device) : Prop := gpu_done d = true ∧ completed d = published d.

Record inv (n : Z) (w : World) : Prop := mkInv {
  inv_bounded : bounded n (device w);
  inv_seen : seen w;
  inv_retired : retired w = true → finished (device w);
  inv_uses : uses w = negb (retired w);
  inv_owners : owners w = Released → retired w = true }.

(** Two counts that differ by less than the width are equal when their words are. *)
Lemma to_word_inj a b : a <= b < a + 2 ^ 32 → to_word a = to_word b → a = b.
Proof.
  unfold to_word. intros H E. pose proof (Z.div_mod a (2 ^ 32) ltac:(lia)).
  pose proof (Z.div_mod b (2 ^ 32) ltac:(lia)). nia.
Qed.

Lemma gpu_storage_host_inv n w w' : 0 <= n <= 4096 → inv n w → host w w' → inv n w'.
Proof.
  intros Hn [Hb Hs Hr Hu Ho] Hh. unfold bounded in Hb.
  destruct Hh as [w H1 H2 H3|w gpu H1 H2|w H1|w H1|w H1|w tail H1|w tail head H1|w H1 H2|w H1];
    pose proof Hs as Hseen; unfold seen in Hs; try rewrite H1 in Hs.
  - by constructor.
  - constructor; try done. unfold seen. simpl. by destruct gpu; [apply H2|].
  - by constructor.
  - by constructor.
  - by constructor.
  - destruct Hs as [Hg ->]. constructor; try done. unfold seen. simpl. split_and!; try done.
    intros E. apply to_word_inj; [lia|done].
  - destruct Hs as (Hg & -> & Ht). unfold drained.
    destruct (Z.eqb_spec (to_word (published (device w))) head) as [E|E]; simpl; [|by constructor].
    destruct (Z.eqb_spec (to_word (published (device w))) (to_word (completed (device w)))) as [E2|E2]; simpl;
      [|by constructor].
    assert (completed (device w) = published (device w)) by (apply to_word_inj; [lia|done]).
    by constructor.
  - unfold into_ring. destruct (retired w) eqn:E; cbn [negb fst]; constructor; simpl; rewrite ?E; done.
  - unfold drop_execution. destruct (owners w) eqn:Eo; [|constructor; rewrite ?Eo; done|constructor; rewrite ?Eo; done].
    constructor; simpl; try done. by destruct (retired w).
Qed.

Lemma native_inv n w d : inv n w → native n (device w) d → inv n (set_device w d).
Proof.
  intros [Hb Hs Hr Hu Ho] Hd. unfold bounded, seen, finished in *. remember (device w) as d0 eqn:E. clear E.
  assert (Hd' : 0 <= completed d <= taken d ∧ taken d <= published d <= completed d + 2 * n
    ∧ (gpu_done d0 = true → gpu_done d = true ∧ published d = published d0
         ∧ (taken d0 = published d0 → taken d = taken d0) ∧ (completed d0 = published d0 → completed d = completed d0))).
  { destruct Hd; simpl; split_and!; try lia; intros Hg; rewrite ?Hg; split_and!; congruence || lia. }
  destruct Hd' as (H1 & H2 & H3). constructor; unfold bounded, seen, finished; simpl; [done| |by intuition congruence|done|done].
  destruct (phase w) as [| |[]| |]; [done|done|by apply H3|done| |]; intuition congruence.
Qed.

Lemma gpu_storage_reachable_inv n w : 0 <= n <= 4096 → reachable n w → inv n w.
Proof.
  intros Hn. induction 1 as [m p a w Hd|w w' _ IH Hs].
  - unfold dispatch in Hd. destruct m as [[]|]; [|done]. destruct p as [[]|]; [|done]. destruct a as [[]|]; [|done].
    injection Hd as <-. constructor; simpl; try done. unfold bounded. simpl. lia.
  - destruct Hs; [by eapply gpu_storage_host_inv|by apply native_inv].
Qed.

(** Files, ring pages and payload stay used until the GPU is done and the kernel
    has completed every published request, although the 32-bit counters wrap and
    are read one at a time while both go on; the owners are given back only
    then, and otherwise forgotten. *)
Theorem executions_retire_drained n w :
  0 <= n <= 4096 → reachable n w →
  (uses w = false ∨ retired w = true ∨ owners w = Released →
   gpu_done (device w) = true ∧ completed (device w) = published (device w) ∧ taken (device w) = published (device w))
  ∧ (owners w = Held → retired w = false → uses w = true).
Proof.
  intros Hn H. destruct (gpu_storage_reachable_inv n w Hn H) as [Hb Hs Hr Hu Ho]. split.
  - intros Hc. assert (retired w = true) as E.
    { destruct Hc as [Hc|[Hc|Hc]]; [|done|by apply Ho]. rewrite Hu in Hc. by apply negb_false_iff in Hc. }
    destruct (Hr E) as [? ?]. unfold bounded in Hb. split_and!; try done. lia.
  - intros _ E. by rewrite Hu, E.
Qed.

(** A run with one request, to its retirement. *)
Definition example_end : World := mkWorld (mkDevice 1 1 1 true) Outside true false Held.

Lemma example_run_reachable : reachable 8 example_end.
Proof.
  set (w0 := mkWorld (mkDevice 0 0 0 false) Outside false true Held).
  assert (H0 : reachable 8 w0) by (by apply (reachable_initial 8 (Ok ()) (Ok ()) (Ok ()))).
  eapply reachable_step in H0; [|apply step_native; apply native_publish; simpl; reflexivity].
  eapply reachable_step in H0; [|apply step_native; apply native_take; simpl; reflexivity].
  eapply reachable_step in H0; [|apply step_native; apply native_complete; simpl; reflexivity].
  eapply reachable_step in H0; [|apply step_native; apply native_finish].
  eapply reachable_step in H0; [|apply step_host, host_wake; reflexivity].
  eapply reachable_step in H0; [|apply step_host, (host_refresh _ true); [reflexivity|done]].
  eapply reachable_step in H0; [|apply step_host, host_tail; reflexivity].
  eapply reachable_step in H0; [|apply step_host, host_head; reflexivity].
  eapply reachable_step in H0; [|apply step_host, host_turn; reflexivity].
  exact H0.
Qed.

Lemma executions_retire_drained_witness :
  retired example_end = true ∧ completed (device example_end) = published (device example_end).
Proof.
  split; [reflexivity|].
  apply (executions_retire_drained 8 example_end ltac:(lia) example_run_reachable). right. left. reflexivity.
Defined.
End GpuStorage.
