(* ===== verification/KernelCache.v ===== *)
(** * Loaded kernels

    [Kernels], [Pending] and [KeyedKernels] of src/src/loom.rs: a cache of loaded
    executables by artifact identity, with requests that are built in batches.
    Compilation and loading are outcomes.  The critical sections interleave: a
    batch loads one kernel at a time while other threads request, and the build
    lock admits one batch or one direct load.  The theorems show that a kernel
    is loaded once, that a request is never lost, and that resolving one answers
    its kernel or a failure of its batch. *)

From S2P Require Import Prelude.
From stdpp Require Import gmap strings.
Local Open Scope Z_scope.

Module KernelCache.

(** A request: its artifact identity, source and specialization. *)
Record Request : Type := mkRequest { key : string; source : string; spec : string }.

(** [Loaded]. *)
Record Loaded : Type := mkLoaded {
  device : option Z;
  ready : gmap string Z;
  waiting : list Request;
  active : gset string }.
Definition empty : Loaded := mkLoaded None ∅ [] ∅.

Definition set_ready (s : Loaded) (m : gmap string Z) : Loaded := mkLoaded (device s) m (waiting s) (active s).
Definition set_waiting (s : Loaded) (l : list Request) : Loaded := mkLoaded (device s) (ready s) l (active s).

(** [Loaded::claim_device]. *)
Definition claim_device (s : Loaded) (d : Z) : Loaded * Result () :=
  match device s with
  | Some owner =>
      (s, if owner =? d then Ok ()
          else Err (Message "a kernel cache serves one device: an executable loaded on another is not dispatchable here"))
  | None => (mkLoaded (Some d) (ready s) (waiting s) (active s), Ok ())
  end.

(** [Kernels::request] under the lock. *)
Definition is_known (s : Loaded) (k : string) : bool :=
  bool_decide (is_Some (ready s !! k)) || bool_decide (k ∈ active s) || existsb (λ r, String.eqb (key r) k) (waiting s).
Definition request (s : Loaded) (r : Request) : Loaded :=
  if is_known s (key r) then s else set_waiting s (waiting s ++ [r]).

(** The critical sections of [Cache::build_with]: taking the batch, publishing
    one kernel, and returning what was not built. *)
Definition take_batch (s : Loaded) (d : Z) : Loaded * Result (list Request) :=
  match claim_device s d with
  | (s, Err e) => (s, Err e)
  | (s, Ok _) =>
      (mkLoaded (device s) (ready s) [] (active s ∪ list_to_set (key <$> waiting s)), Ok (waiting s))
  end.
Definition publish (s : Loaded) (k : string) (kernel : Z) : Loaded := set_ready s (<[k := kernel]> (ready s)).
Definition return_unbuilt (s : Loaded) (unbuilt : list Request) : Loaded :=
  mkLoaded (device s) (ready s) (unbuilt ++ waiting s) ∅.

(** [Cache::build_with] without interference; [outcome] compiles and loads. *)
Fixpoint load_batch (s : Loaded) (l : list Request) (outcome : Request → Result Z)
    (unbuilt : list Request) (failure : option Error) : Loaded * list Request * option Error :=
  match l with
  | [] => (s, unbuilt, failure)
  | r :: rest =>
      match outcome r with
      | Ok kernel => load_batch (publish s (key r) kernel) rest outcome unbuilt failure
      | Err e => load_batch s rest outcome (unbuilt ++ [r]) (Some (default e failure))
      end
  end.
Definition build_with (s : Loaded) (d : Z) (outcome : Request → Result Z) : Loaded * Result () :=
  match take_batch s d with
  | (s, Err e) => (s, Err e)
  | (s, Ok []) => (s, Ok ())
  | (s, Ok l) =>
      let '(s, unbuilt, failure) := load_batch s l outcome [] None in
      (return_unbuilt s unbuilt, match failure with Some e => Err e | None => Ok () end)
  end.

(** [Pending::built] and [Pending::resolve]. *)
Definition built (s : Loaded) (k : string) : option Z := ready s !! k.
Definition resolve (s : Loaded) (k : string) (d : Z) (outcome : Request → Result Z) : Loaded * Result Z :=
  match built s k with
  | Some kernel => (s, Ok kernel)
  | None =>
      let '(s, r) := build_with s d outcome in
      (s, match built s k with
          | Some kernel => Ok kernel
          | None => Err (match r with Err e => e | Ok _ => Message "kernel was never requested" end)
          end)
  end.

(** [Kernels::get_module]: the lookup, and the publication under the build lock. *)
Definition get_hit (s : Loaded) (d : Z) (k : string) : Loaded * Result (option Z) :=
  match claim_device s d with
  | (s, Err e) => (s, Err e)
  | (s, Ok _) => (s, Ok (ready s !! k))
  end.
Definition publish_direct (s : Loaded) (k : string) (kernel : Z) : Loaded :=
  mkLoaded (device s) (<[k := kernel]> (ready s)) (filter (λ r, key r ≠ k) (waiting s)) (active s).
Definition get_module (s : Loaded) (d : Z) (k : string) (outcome : Result Z) : Loaded * Result Z :=
  match get_hit s d k with
  | (s, Err e) => (s, Err e)
  | (s, Ok (Some kernel)) => (s, Ok kernel)
  | (s, Ok None) =>
      match outcome with
      | Err e => (s, Err e)
      | Ok kernel => (publish_direct s k kernel, Ok kernel)
      end
  end.

(** [KeyedKernels]: caller keys name artifacts. *)
Definition Index : Type := gmap string string.

(** [request_or_insert_with] and [get_or_insert_with]; [factory] makes the
    request of a missing key, [direct] compiles and loads it and [outcome] a
    batch. *)
Definition request_or_insert_with (s : Loaded) (keys : Index) (d : Z) (k : string) (factory : Result Request)
    : Loaded * Index * Result string :=
  match claim_device s d with
  | (s, Err e) => (s, keys, Err e)
  | (s, Ok _) =>
      match keys !! k with
      | Some artifact => (s, keys, Ok artifact)
      | None =>
          match factory with
          | Err e => (s, keys, Err e)
          | Ok r => (request s r, <[k := key r]> keys, Ok (key r))
          end
      end
  end.
Definition get_or_insert_with (s : Loaded) (keys : Index) (d : Z) (k : string) (factory : Result Request)
    (direct : Result Z) (outcome : Request → Result Z) : Loaded * Index * Result Z :=
  match claim_device s d with
  | (s, Err e) => (s, keys, Err e)
  | (s, Ok _) =>
      match keys !! k with
      | Some artifact =>
          match ready s !! artifact with
          | Some kernel => (s, keys, Ok kernel)
          | None => let '(s, r) := resolve s artifact d outcome in (s, keys, r)
          end
      | None =>
          match factory with
          | Err e => (s, keys, Err e)
          | Ok r =>
              match get_module s d (key r) direct with
              | (s, Err e) => (s, keys, Err e)
              | (s, Ok kernel) => (s, <[k := key r]> keys, Ok kernel)
              end
          end
      end
  end.

(** ** Interleavings *)

(** Who holds the build lock: nobody, a batch with its remaining requests and
    those not built, or a direct load. *)
Inductive Holder : Type := Free | Batch (todo unbuilt : list Request) | Direct (k : string).

(** The cache with its build lock, and how often each identity was loaded. *)
Record World : Type := mkWorld { loaded : Loaded; holder : Holder; loads : gmap string nat }.
Definition initial : World := mkWorld empty Free ∅.
Definition load_count (w : World) (k : string) : nat := default 0%nat (loads w !! k).
Definition count_load (m : gmap string nat) (k : string) : gmap string nat :=
  <[k := S (default 0%nat (m !! k))]> m.

Inductive step : World → World → Prop :=
| step_request w r : step w (mkWorld (request (loaded w) r) (holder w) (loads w))
| step_claim w d : step w (mkWorld (claim_device (loaded w) d).1 (holder w) (loads w))
| step_take w d s l :
    holder w = Free → take_batch (loaded w) d = (s, Ok l) → l ≠ [] → step w (mkWorld s (Batch l []) (loads w))
| step_built w r todo unbuilt kernel :
    holder w = Batch (r :: todo) unbuilt →
    step w (mkWorld (publish (loaded w) (key r) kernel) (Batch todo unbuilt) (count_load (loads w) (key r)))
| step_failed w r todo unbuilt :
    holder w = Batch (r :: todo) unbuilt → step w (mkWorld (loaded w) (Batch todo (unbuilt ++ [r])) (loads w))
| step_return w unbuilt :
    holder w = Batch [] unbuilt → step w (mkWorld (return_unbuilt (loaded w) unbuilt) Free (loads w))
| step_direct w k :
    holder w = Free → ready (loaded w) !! k = None → step w (mkWorld (loaded w) (Direct k) (loads w))
| step_direct_built w k kernel :
    holder w = Direct k →
    step w (mkWorld (publish_direct (loaded w) k kernel) Free (count_load (loads w) k))
| step_direct_failed w k : holder w = Direct k → step w (mkWorld (loaded w) Free (loads w)).

Inductive reachable : World → Prop :=
| reachable_initial : reachable initial
| reachable_step w w' : reachable w → step w w' → reachable w'.

(** ** The invariant *)

Definition batch_keys (h : Holder) : list string :=
  match h with Batch todo unbuilt => key <$> (todo ++ unbuilt) | _ => [] end.
Definition known (s : Loaded) (k : string) : Prop :=
  is_Some (ready s !! k) ∨ k ∈ active s ∨ k ∈ key <$> waiting s.

(** What is waiting or in a batch is distinct and not loaded; the requests of a
    batch are the active ones that are not loaded. *)
Record inv (w : World) : Prop := mkInv {
  inv_distinct : NoDup (batch_keys (holder w) ++ (key <$> waiting (loaded w)));
  inv_unloaded : ∀ k, k ∈ batch_keys (holder w) ++ (key <$> waiting (loaded w)) → ready (loaded w) !! k = None;
  inv_batch : ∀ k, k ∈ batch_keys (holder w) → k ∈ active (loaded w);
  inv_active : ∀ k, k ∈ active (loaded w) → k ∈ batch_keys (holder w) ∨ is_Some (ready (loaded w) !! k);
  inv_free : (∀ t u, holder w ≠ Batch t u) → active (loaded w) = ∅;
  inv_direct : ∀ k, holder w = Direct k → ready (loaded w) !! k = None;
  inv_loads : ∀ k, load_count w k = if bool_decide (is_Some (ready (loaded w) !! k)) then 1%nat else 0%nat }.

Lemma is_known_spec s k : is_known s k = true ↔ known s k.
Proof.
  unfold is_known, known. rewrite !orb_true_iff, !bool_decide_eq_true, existsb_exists, list_elem_of_fmap.
  split.
  - intros [[?|?]|(r & Hr%list_elem_of_In & E%String.eqb_eq)]; [by auto|by auto|]. right. right. by exists r.
  - intros [?|[?|(r & E & Hr)]]; [by auto|by auto|]. right. exists r.
    split; [by apply list_elem_of_In|by apply String.eqb_eq].
Qed.

Lemma load_count_insert m k k' :
  default 0%nat (count_load m k !! k') = if decide (k = k') then S (default 0%nat (m !! k)) else default 0%nat (m !! k').
Proof.
  unfold count_load. destruct (decide (k = k')) as [->|Hne]; [by rewrite lookup_insert_eq|by rewrite lookup_insert_ne].
Qed.

Lemma claim_device_keeps s d :
  ready (claim_device s d).1 = ready s ∧ waiting (claim_device s d).1 = waiting s
  ∧ active (claim_device s d).1 = active s.
Proof. unfold claim_device. by destruct (device s). Qed.

Lemma request_inv w r : inv w → inv (mkWorld (request (loaded w) r) (holder w) (loads w)).
Proof.
  intros H. unfold request. destruct (is_known (loaded w) (key r)) eqn:E; [by destruct w, H|].
  assert (Hn : ¬ known (loaded w) (key r)) by (rewrite <-is_known_spec, E; done). unfold known in Hn.
  assert (Hr : ready (loaded w) !! key r = None) by (apply eq_None_not_Some; tauto).
  assert (Hb : key r ∉ batch_keys (holder w)).
  { intros Hb. apply Hn. right. left. by apply (inv_batch w H). }
  destruct H as [H1 H2 H3 H4 H5 H6 H7]. constructor; simpl; try done.
  - rewrite fmap_app, app_assoc. apply NoDup_app. split_and!; [done| |apply NoDup_singleton].
    intros x Hx [->|[]%elem_of_nil]%elem_of_cons. apply elem_of_app in Hx as [Hx|Hx]; tauto.
  - intros k. rewrite fmap_app, app_assoc, elem_of_app. intros [Hk|Hk]; [by apply H2|].
    simpl in Hk. by apply list_elem_of_singleton in Hk as ->.
Qed.

Lemma ready_insert_count w k kernel k' :
  inv w → ready (loaded w) !! k = None →
  default 0%nat (count_load (loads w) k !! k')
  = if bool_decide (is_Some ((<[k := kernel]> (ready (loaded w))) !! k')) then 1%nat else 0%nat.
Proof.
  intros H Hk. rewrite load_count_insert. pose proof (inv_loads w H) as Hl. unfold load_count in Hl.
  destruct (decide (k = k')) as [->|Hne].
  - rewrite lookup_insert_eq, Hl, Hk. done.
  - by rewrite lookup_insert_ne by done.
Qed.

Lemma take_inv w d s l :
  inv w → holder w = Free → take_batch (loaded w) d = (s, Ok l) → inv (mkWorld s (Batch l []) (loads w)).
Proof.
  intros [H1 H2 H3 H4 H5 H6 H7] Hh Ht. unfold take_batch in Ht.
  destruct (claim_device_keeps (loaded w) d) as (E1 & E2 & E3).
  destruct (claim_device (loaded w) d) as [s0 [[]|e]]; [|done]. simpl in *. injection Ht as <- <-.
  rewrite Hh in *. simpl in *. assert (Ha : active (loaded w) = ∅) by (by apply H5). rewrite E1, E2, E3, Ha.
  constructor; simpl; rewrite ?app_nil_r; try done.
  - intros k Hk. apply elem_of_union. right. by apply elem_of_list_to_set.
  - intros k. rewrite elem_of_union, elem_of_list_to_set. intros [?|?]; [set_solver|by left].
  - intros Hb. by destruct (Hb (waiting (loaded w)) []).
Qed.

Lemma built_inv w r todo unbuilt kernel :
  inv w → holder w = Batch (r :: todo) unbuilt →
  inv (mkWorld (publish (loaded w) (key r) kernel) (Batch todo unbuilt) (count_load (loads w) (key r))).
Proof.
  intros H Hh. assert (Hr : ready (loaded w) !! key r = None).
  { apply (inv_unloaded w H). rewrite Hh. simpl. by left. }
  pose proof (ready_insert_count w (key r) kernel) as Hc.
  destruct H as [H1 H2 H3 H4 H5 H6 H7]. rewrite Hh in *. simpl in *. apply NoDup_cons in H1 as [Hn H1].
  constructor; simpl; try done.
  - intros k Hk. rewrite lookup_insert_ne; [apply H2; by right|]. by intros <-.
  - intros k Hk. apply H3. by right.
  - intros k Hk. destruct (H4 k Hk) as [[->|?]%elem_of_cons|?]; [right; by rewrite lookup_insert_eq|by left|].
    right. destruct (decide (key r = k)) as [<-|]; [by rewrite lookup_insert_eq|by rewrite lookup_insert_ne].
  - intros Hb. by destruct (Hb todo unbuilt).
  - intros k. apply Hc; [by constructor; rewrite ?Hh; simpl; first [apply NoDup_cons|done]|done].
Qed.

Lemma failed_inv w r todo unbuilt :
  inv w → holder w = Batch (r :: todo) unbuilt → inv (mkWorld (loaded w) (Batch todo (unbuilt ++ [r])) (loads w)).
Proof.
  intros [H1 H2 H3 H4 H5 H6 H7] Hh. rewrite Hh in *.
  assert (Hp : batch_keys (Batch todo (unbuilt ++ [r])) ≡ₚ batch_keys (Batch (r :: todo) unbuilt)).
  { simpl. apply (fmap_Permutation key _ (r :: (todo ++ unbuilt))). rewrite app_assoc. symmetry. apply Permutation_cons_append. }
  constructor; simpl loaded; simpl holder; simpl loads; try done.
  - by rewrite Hp.
  - intros k. rewrite Hp. apply H2.
  - intros k. rewrite Hp. apply H3.
  - intros k. rewrite Hp. apply H4.
  - intros Hb. by destruct (Hb todo (unbuilt ++ [r])).
Qed.

Lemma return_inv w unbuilt :
  inv w → holder w = Batch [] unbuilt → inv (mkWorld (return_unbuilt (loaded w) unbuilt) Free (loads w)).
Proof.
  intros [H1 H2 H3 H4 H5 H6 H7] Hh. rewrite Hh in *. simpl in *.
  constructor; simpl; rewrite ?fmap_app; try done.
  intros k. by rewrite elem_of_nil.
Qed.

Lemma direct_built_inv w k kernel :
  inv w → holder w = Direct k →
  inv (mkWorld (publish_direct (loaded w) k kernel) Free (count_load (loads w) k)).
Proof.
  intros H Hh. pose proof (inv_direct w H k Hh) as Hk. pose proof (ready_insert_count w k kernel) as Hc.
  assert (Ha : active (loaded w) = ∅) by (apply (inv_free w H); by rewrite Hh).
  pose proof (inv_distinct w H) as H1. pose proof (inv_unloaded w H) as H2. rewrite Hh in H1, H2. simpl in *.
  constructor; simpl; try done.
  - eapply (sublist_NoDup _ (key <$> waiting (loaded w))); [done|]. apply fmap_sublist, sublist_filter.
  - intros k' (r & -> & [Hr Hi]%list_elem_of_filter)%list_elem_of_fmap.
    rewrite lookup_insert_ne by done. apply H2. by apply list_elem_of_fmap_2.
  - intros k'. by rewrite elem_of_nil.
  - rewrite Ha. set_solver.
  - intros k'. by apply Hc.
Qed.

Lemma kernels_step_inv w w' : inv w → step w w' → inv w'.
Proof.
  intros H Hs. revert H. destruct Hs as [w r|w d|w d s l Hf Ht Hl|w r todo un kernel Hh|w r todo un Hh|w un Hh|w k Hf Hk|w k kernel Hh|w k Hh]; intros H.
  - by apply request_inv.
  - destruct (claim_device_keeps (loaded w) d) as (E1 & E2 & E3). destruct H.
    constructor; simpl; rewrite ?E1, ?E2, ?E3; done.
  - by eapply take_inv.
  - by apply built_inv.
  - by apply failed_inv.
  - by apply return_inv.
  - destruct H as [H1 H2 H3 H4 H5 H6 H7]. rewrite Hf in *. simpl in *. constructor; simpl; try done.
    + intros _. by apply H5.
    + by intros k' [= <-].
  - by apply direct_built_inv.
  - destruct H as [H1 H2 H3 H4 H5 H6 H7]. rewrite Hh in *. simpl in *. constructor; simpl; try done.
    intros _. by apply H5.
Qed.

Lemma kernels_reachable_inv w : reachable w → inv w.
Proof.
  induction 1 as [|w w' _ IH Hs]; [|by eapply kernels_step_inv].
  constructor; simpl; try done; try apply NoDup_nil_2; intros k; set_solver.
Qed.

(** Requests are kept: what is known stays known. *)
Lemma known_waiting s s' k :
  (∀ x, is_Some (ready s !! x) → is_Some (ready s' !! x)) →
  (k ∈ active s → known s' k) → (k ∈ key <$> waiting s → known s' k) → known s k → known s' k.
Proof. unfold known. intros H1 H2 H3 [?|[?|?]]; [left; by apply H1|by apply H2|by apply H3]. Qed.

Lemma insert_ready_some (m : gmap string Z) k v x : is_Some (m !! x) → is_Some (<[k := v]> m !! x).
Proof. intros H. destruct (decide (k = x)) as [->|]; [by rewrite lookup_insert_eq|by rewrite lookup_insert_ne]. Qed.

Lemma step_known w w' k : inv w → step w w' → known (loaded w) k → known (loaded w') k.
Proof.
  intros H Hs. revert H. destruct Hs as [w r|w d|w d s l Hf Ht Hl|w r todo un kernel Hh|w r todo un Hh|w un Hh|w k' Hf Hk|w k' kernel Hh|w k' Hh];
    intros H Hk'; simpl; try done.
  - unfold request. destruct (is_known _ _); [done|]. revert Hk'. unfold known. simpl. rewrite fmap_app, elem_of_app. tauto.
  - destruct (claim_device_keeps (loaded w) d) as (E1 & E2 & E3). unfold known in *. by rewrite E1, E2, E3.
  - unfold take_batch in Ht. destruct (claim_device_keeps (loaded w) d) as (E1 & E2 & E3).
    destruct (claim_device (loaded w) d) as [s0 [[]|e]]; [|done]. simpl in *. injection Ht as <- <-.
    unfold known in *. simpl. rewrite E1, E2, E3, elem_of_union, elem_of_list_to_set. tauto.
  - revert Hk'. apply known_waiting; unfold known; simpl; [intros x; apply insert_ready_some|tauto|tauto].
  - revert Hk'. apply known_waiting; unfold known; simpl; [done| |].
    + intros Ha. destruct (inv_active w H k Ha) as [Hb|?]; [|by left]. rewrite Hh in Hb. simpl in Hb.
      right. right. rewrite fmap_app, elem_of_app. by left.
    + intros Hw. right. right. rewrite fmap_app, elem_of_app. by right.
  - revert Hk'. apply known_waiting; unfold known; simpl; [intros x; apply insert_ready_some|tauto|].
    intros (r & -> & Hr)%list_elem_of_fmap. destruct (decide (key r = k')) as [<-|Hne].
    + left. by rewrite lookup_insert_eq.
    + right. right. apply list_elem_of_fmap_2. by apply list_elem_of_filter.
Qed.

(** C33. In every interleaving of requests, batches and direct loads, an executable
    is loaded at most once for each identity, exactly when it is ready; requests
    wait once and are not already loaded; and a known identity stays known. *)
Theorem kernels_load_once w w' :
  reachable w → rtc step w w' →
  (∀ k, load_count w' k = if bool_decide (is_Some (ready (loaded w') !! k)) then 1%nat else 0%nat)
  ∧ NoDup (key <$> waiting (loaded w'))
  ∧ (∀ k, k ∈ key <$> waiting (loaded w') → ready (loaded w') !! k = None)
  ∧ ∀ k, known (loaded w) k → known (loaded w') k.
Proof.
  intros Hr Hs. assert (reachable w' ∧ ∀ k, known (loaded w) k → known (loaded w') k) as [Hw Hk].
  { revert Hr. induction Hs as [w|w w1 w2 Hstep _ IH]; intros Hr; [done|].
    destruct IH as [Hr2 Hk]; [by eapply reachable_step|]. split; [done|].
    intros k Hk0. apply Hk. apply (step_known w w1); [by apply kernels_reachable_inv|done|done]. }
  destruct (kernels_reachable_inv w' Hw) as [H1 H2 H3 H4 H5 H6 H7]. split_and!; try done.
  - by apply NoDup_app in H1 as (_ & _ & ?).
  - intros k Hi. apply H2, elem_of_app. by right.
Qed.

Lemma rtc_load_once_witness_run :
  ∃ w, rtc step initial w ∧ ready (loaded w) !! "a" = Some 7 ∧ key <$> waiting (loaded w) = ["b"].
Proof.
  set (ra := mkRequest "a" "" ""). set (rb := mkRequest "b" "" "").
  eexists. split.
  - eapply rtc_l; [apply (step_request _ ra)|]. eapply rtc_l; [apply (step_request _ rb)|].
    eapply rtc_l; [eapply (step_take _ 0); [reflexivity|vm_compute; reflexivity|done]|].
    eapply rtc_l; [eapply (step_built _ _ _ _ 7); reflexivity|].
    eapply rtc_l; [eapply step_failed; reflexivity|].
    eapply rtc_l; [eapply step_return; reflexivity|]. apply rtc_refl.
  - split; vm_compute; reflexivity.
Qed.

Lemma kernels_load_once_witness :
  ∃ w, ready (loaded w) !! "a" = Some 7 ∧ load_count w "a" = 1%nat ∧ NoDup (key <$> waiting (loaded w)).
Proof.
  destruct rtc_load_once_witness_run as (w & Hs & Ha & _). exists w. split; [exact Ha|].
  destruct (kernels_load_once initial w reachable_initial Hs) as (Hc & Hn & _).
  split; [|exact Hn]. rewrite (Hc "a"), Ha. reflexivity.
Defined.

(** ** Resolving *)

(** Loading a batch is a run of its steps. *)
Lemma load_batch_steps outcome l s un f m s' un' f' :
  load_batch s l outcome un f = (s', un', f') →
  (∃ m', rtc step (mkWorld s (Batch l un) m) (mkWorld s' (Batch [] un') m'))
  ∧ (∀ x, is_Some (ready s !! x) → is_Some (ready s' !! x))
  ∧ (f' = None → un' = un ∧ f = None ∧ ∀ r, r ∈ l → is_Some (ready s' !! key r)).
Proof.
  revert s un f m. induction l as [|r l IH]; intros s un f m; simpl.
  { intros [= <- <- <-]. split_and!; [exists m; apply rtc_refl|done|]. intros ->. split_and!; try done. set_solver. }
  destruct (outcome r) as [kernel|e] eqn:Eo.
  - intros Hl. destruct (IH _ _ _ (count_load m (key r)) Hl) as ([m' Hs] & Hm & Hf). split_and!.
    + exists m'. eapply rtc_l; [|exact Hs]. by apply (step_built (mkWorld s (Batch (r :: l) un) m)).
    + intros x Hx. apply Hm. simpl. by apply insert_ready_some.
    + intros H. destruct (Hf H) as (-> & -> & Hr). split_and!; try done.
      intros x [->|Hx]%elem_of_cons; [|by apply Hr]. apply Hm. simpl. by rewrite lookup_insert_eq.
  - intros Hl. destruct (IH _ _ _ m Hl) as ([m' Hs] & Hm & Hf). split_and!.
    + exists m'. eapply rtc_l; [|exact Hs]. by apply (step_failed (mkWorld s (Batch (r :: l) un) m)).
    + done.
    + intros H. by destruct (Hf H) as (_ & ? & _).
Qed.

(** Building is a run of steps; one that succeeds has loaded everything known. *)
Lemma build_with_steps w d outcome s' r :
  reachable w → holder w = Free → build_with (loaded w) d outcome = (s', r) →
  (∃ m, rtc step w (mkWorld s' Free m))
  ∧ (r = Ok () → ∀ k, known (loaded w) k → is_Some (ready s' !! k)).
Proof.
  intros Hr Hf Hb. pose proof (kernels_reachable_inv w Hr) as Hi. destruct w as [s h m]. simpl in *. subst h.
  assert (Ha : active s = ∅) by (by apply (inv_free _ Hi)). unfold build_with in Hb.
  destruct (claim_device_keeps s d) as (E1 & E2 & E3).
  assert (Hclaim : step (mkWorld s Free m) (mkWorld (claim_device s d).1 Free m)) by apply (step_claim (mkWorld s Free m)).
  destruct (take_batch s d) as [s1 [l|e]] eqn:Et.
  2: { injection Hb as <- <-. split; [|done]. unfold take_batch in Et.
       destruct (claim_device s d) as [s0 [[]|e']]; simplify_eq. exists m. by apply rtc_once. }
  pose proof Et as Et'. unfold take_batch in Et'. destruct (claim_device s d) as [s0 [[]|e']]; [|done].
  simpl in *. injection Et' as <- Hl. destruct l as [|r0 l0] eqn:El.
  - injection Hb as <- <-. rewrite E2 in Hl. split.
    + exists m. apply rtc_once. revert Hclaim. destruct s0; simpl in *. subst. rewrite Hl. simpl.
      by rewrite union_empty_r_L.
    + intros _ k [?|[?|?]]; simpl; [by rewrite E1|set_solver|]. rewrite Hl in *. set_solver.
  - rewrite <-El in *. destruct (load_batch _ l outcome [] None) as [[s2 un] f] eqn:Elb.
    injection Hb as <- <-. destruct (load_batch_steps _ _ _ _ _ m _ _ _ Elb) as ([m' Hs] & Hm & Hok). split.
    + exists m'. eapply rtc_l; [eapply (step_take (mkWorld s Free m) d); [done|exact Et|by rewrite El]|].
      eapply rtc_r; [exact Hs|]. by apply (step_return (mkWorld s2 (Batch [] un) m')).
    + destruct f as [e|]; [done|]. intros _ k Hk. destruct (Hok eq_refl) as (_ & _ & Hl').
      destruct Hk as [?|[?|(x & -> & Hx)%list_elem_of_fmap]]; simpl.
      * apply Hm. simpl. by rewrite E1.
      * set_solver.
      * apply Hl'. by rewrite <-Hl, E2.
Qed.

(** A request that was made is answered: resolving it gives the loaded kernel,
    or the failure that its build reports, and the cache moves as by steps of
    its critical sections. *)
Theorem resolve_answers_requests w k d outcome s' r :
  reachable w → holder w = Free → known (loaded w) k → resolve (loaded w) k d outcome = (s', r) →
  (∃ m, rtc step w (mkWorld s' Free m))
  ∧ match r with
    | Ok kernel => ready s' !! k = Some kernel
    | Err e => (build_with (loaded w) d outcome).2 = Err e
    end.
Proof.
  intros Hr Hf Hk. unfold resolve, built. destruct (ready (loaded w) !! k) as [kernel|] eqn:E.
  - intros [= <- <-]. split; [|done]. exists (loads w). destruct w. simpl in *. subst. apply rtc_refl.
  - destruct (build_with (loaded w) d outcome) as [s2 r2] eqn:Eb.
    destruct (build_with_steps w d outcome s2 r2 Hr Hf Eb) as [Hs Hok]. intros [= <- <-]. split; [done|].
    destruct (ready s2 !! k) as [kernel|] eqn:E2; [done|]. destruct r2 as [[]|e]; [|done].
    destruct (Hok eq_refl k Hk) as [x Hx]. by rewrite E2 in Hx.
Qed.

Lemma resolve_answers_requests_witness :
  let w := mkWorld (request empty (mkRequest "a" "" "")) Free ∅ in
  (∃ m, rtc step w (mkWorld (resolve (loaded w) "a" 0 (λ _, Ok 7)).1 Free m))
  ∧ ready (resolve (loaded w) "a" 0 (λ _, Ok 7)).1 !! "a" = Some 7.
Proof.
  intros w.
  apply (resolve_answers_requests w "a" 0 (λ _, Ok 7) (resolve (loaded w) "a" 0 (λ _, Ok 7)).1 (Ok 7)).
  - eapply reachable_step; [apply reachable_initial|]. apply (step_request initial).
  - reflexivity.
  - right. right. by left.
  - vm_compute. reflexivity.
Defined.

(** ** The caller's index *)

(** Indexed keys name known artifacts. *)
Definition indexed (s : Loaded) (keys : Index) : Prop := ∀ k a, keys !! k = Some a → known s a.

Lemma claim_known s d k : known s k ↔ known (claim_device s d).1 k.
Proof. destruct (claim_device_keeps s d) as (E1 & E2 & E3). unfold known. by rewrite E1, E2, E3. Qed.

Lemma request_known s r : known (request s r) (key r).
Proof.
  unfold request. destruct (is_known s (key r)) eqn:E; [by apply is_known_spec|]. right. right. simpl.
  rewrite fmap_app, elem_of_app. right. by left.
Qed.

Lemma request_or_insert_indexed s keys d k factory s' keys' r :
  indexed s keys → request_or_insert_with s keys d k factory = (s', keys', r) →
  indexed s' keys' ∧ ∀ a, r = Ok a → keys' !! k = Some a ∧ known s' a.
Proof.
  intros Hx. unfold request_or_insert_with. pose proof (claim_known s d) as Hc.
  destruct (claim_device s d) as [s0 [[]|e]]; simpl in Hc.
  2: { intros [= <- <- <-]. split; [|done]. intros x a Ha. apply Hc. by eapply Hx. }
  assert (Hx0 : indexed s0 keys) by (intros x a Ha; apply Hc; by eapply Hx).
  destruct (keys !! k) as [a|] eqn:Ek.
  { intros [= <- <- <-]. split; [done|]. intros b [= <-]. split; [done|]. by eapply Hx0. }
  destruct factory as [q|e]; [|by intros [= <- <- <-]]. intros [= <- <- <-].
  assert (Hk : ∀ a, known s0 a → known (request s0 q) a).
  { intros a Ha. unfold request. destruct (is_known _ _); [done|]. revert Ha. unfold known. simpl.
    rewrite fmap_app, elem_of_app. tauto. }
  split; [|intros a [= <-]; split; [apply lookup_insert_eq|apply request_known]].
  intros x a [[<- <-]|[_ Ha]]%lookup_insert_Some; [apply request_known|]. apply Hk. by eapply Hx0.
Qed.
End KernelCache.
