(* ===== verification/Sanitizer.v ===== *)
(** * Sanitizer runtime

    src/src/fabric/sanitizer.rs: the shadow of the addressable bytes of a
    dispatch, the layout of the race shadow, the table of instrumented sites and
    the decoding of the report channel.  The theorems show that the shadow admits
    exactly the bytes of the given allocations, and that decoding a channel never
    panics, terminates and reads every published packet once. *)

From S2P Require Import Prelude Onnx.
From stdpp Require Import gmap sorting.
Local Open Scope Z_scope.

Module Sanitizer.

(** ** Address shadow *)

(** [sort_unstable] on pairs. *)
Definition range_le (a b : Z * Z) : Prop := a.1 < b.1 ∨ (a.1 = b.1 ∧ a.2 <= b.2).
Global Instance range_le_dec : RelDecision range_le.
Proof. intros a b. unfold range_le. apply _. Defined.
Global Instance range_le_total : Total range_le.
Proof. intros a b. unfold range_le. lia. Qed.
Global Instance range_le_trans : Transitive range_le.
Proof. intros a b c. unfold range_le. lia. Qed.

(** The merging loop; [merged] is kept with its last range first. *)
Fixpoint merge_ranges (l merged : list (Z * Z)) : Result (list (Z * Z)) :=
  match l with
  | [] => Ok merged
  | (start, len) :: rest =>
      if negb (start mod 8 =? 0) || (len =? 0)
      then Err (Unsupported "address sanitizer allocations must start on an 8-byte boundary and be nonempty")
      else
        match checked_add start len with
        | None => Err (Message "address sanitizer allocation overflow")
        | Some stop =>
            match merged with
            | (first, last) :: older =>
                if start <=? last then merge_ranges rest ((first, Z.max last stop) :: older)
                else merge_ranges rest ((start, stop) :: merged)
            | [] => merge_ranges rest [(start, stop)]
            end
        end
  end.

(** [bytes[first..last].fill(0)] and [bytes[last] = v]; [None] is a panic. *)
Definition fill (first last : Z) (v : Z) (b : list Z) : option (list Z) :=
  if (0 <=? first) && (first <=? last) && (last <=? Z.of_nat (length b))
  then Some (take (Z.to_nat first) b ++ replicate (Z.to_nat (last - first)) v ++ drop (Z.to_nat last) b)
  else None.
Definition set_at (i v : Z) (b : list Z) : option (list Z) :=
  if (0 <=? i) && (i <? Z.of_nat (length b)) then Some (<[Z.to_nat i := v]> b) else None.

(** The loop that marks the merged ranges. *)
Definition mark_one (base start stop : Z) (b : list Z) : option (list Z) :=
  let first := (start - base) / 8 in
  let last := (stop - base) / 8 in
  b ← fill first last 0 b;
  if negb (stop mod 8 =? 0) then set_at last (stop mod 8) b else Some b.
Fixpoint mark_ranges (base : Z) (l : list (Z * Z)) (b : list Z) : option (list Z) :=
  match l with
  | [] => Some b
  | (start, stop) :: rest => b ← mark_one base start stop b; mark_ranges base rest b
  end.

(** [address_shadow]; the outer [option] is a panic. *)
Definition address_shadow (ranges : list (Z * Z)) (maximum : Z) : option (Result (Z * Z * list Z)) :=
  match merge_ranges (merge_sort range_le ranges) [] with
  | Err e => Some (Err e)
  | Ok reversed =>
      let merged := reverse reversed in
      match head merged, last merged with
      | Some (base, _), Some (_, newest) =>
          match checked_add newest 7 with
          | None => Some (Err (Message "address sanitizer window overflow"))
          | Some n =>
              let stop := clear_mask n 7 in
              let size := (stop - base) / 8 in
              if size <=? maximum
              then b ← mark_ranges base merged (replicate (Z.to_nat size) 255); Some (Ok (base, stop, b))
              else Some (Err (Message "address shadow exceeds configured byte limit"))
          end
      | _, _ => Some (Err (Message "empty address sanitizer window"))
      end
  end.

(** ** Race shadow *)

Definition u32_max : Z := 2 ^ 32 - 1.
Definition checked_mul32 (a b : Z) : option Z := if a * b <=? u32_max then Some (a * b) else None.
Fixpoint product32 (n : Z) (l : list Z) : option Z :=
  match l with [] => Some n | v :: rest => n ← checked_mul32 n v; product32 n rest end.
Definition corrupt : Error := Message "invalid sanitizer runtime record".

(** [race_layout]: the workgroups, the bytes of each and of all. *)
Definition race_layout (local_bytes : Z) (grid : list Z) (maximum : Z) : Result (Z * Z * Z) :=
  let? capacity := ok_or (n ← product32 1 grid; if n =? 0 then None else Some n)
                     (Message "race shadow workgroup count overflow or zero") in
  let? stride := ok_or (n ← checked_mul ((local_bytes + 3) / 4) 8; checked_add n 8) corrupt in
  let? size := ok_or (n ← checked_mul stride capacity;
                      if (n <=? maximum) && (n / 4 <=? u32_max - 63) then Some n else None)
                 (Message "race shadow exceeds configured byte limit") in
  Ok (capacity, stride, size).

(** ** Records *)

(** [u16_at], [u32_at], [u64_at] read [n] bytes; [region] a subslice. *)
Definition read_at (n : nat) (b : list Z) (offset : Z) : Result Z :=
  if (0 <=? offset) && (offset + Z.of_nat n <=? Z.of_nat (length b))
  then Ok (from_le_bytes (take n (drop (Z.to_nat offset) b))) else Err corrupt.
Definition u16_at := read_at 2.
Definition u32_at := read_at 4.
Definition u64_at := read_at 8.
Definition region (b : list Z) (offset len : Z) : Result (list Z) :=
  let? stop := ok_or (checked_add offset len) corrupt in
  if stop <=? Z.of_nat (length b) then Ok (take (Z.to_nat len) (drop (Z.to_nat offset) b)) else Err corrupt.

(** [SanitizerSite]. *)
Record SanitizerSite : Type := mkSite {
  operation_kind : Z;
  source_name : option string;
  site_start : option (Z * Z);
  site_end : option (Z * Z);
  predicate_payload : list Z }.

(** One row of the site table: its identifier and record. *)
Definition parse_row (strings payload row : list Z) : Result (Z * SanitizerSite) :=
  let? flags := u32_at row 8 in
  let with_source := Z.testbit flags 1 in
  let? name := if with_source
               then let? at_ := u32_at row 20 in
                    let? len := u32_at row 24 in
                    let? text := region strings at_ len in
                    if Onnx.utf8 text then Ok (Some (Onnx.of_bytes text)) else Err corrupt
               else Ok None in
  let? operation := u32_at row 4 in
  let? start := if with_source then let? a := u32_at row 28 in let? b := u32_at row 32 in Ok (Some (a, b)) else Ok None in
  let? stop := if with_source then let? a := u32_at row 36 in let? b := u32_at row 40 in Ok (Some (a, b)) else Ok None in
  let? data := if Z.testbit flags 0
               then let? at_ := u32_at row 12 in let? len := u32_at row 16 in region payload at_ len
               else Ok [] in
  let? id := u32_at row 0 in
  Ok (id, mkSite operation name start stop data).
Fixpoint parse_rows (strings payload : list Z) (rows : list (list Z)) (sites : gmap Z SanitizerSite)
    : Result (gmap Z SanitizerSite) :=
  match rows with
  | [] => Ok sites
  | row :: rest =>
      let? (id, site) := parse_row strings payload row in
      match sites !! id with
      | Some _ => Err corrupt
      | None => parse_rows strings payload rest (<[id := site]> sites)
      end
  end.

(** [parse_sites]. *)
Definition parse_sites (b : list Z) : Result (gmap Z SanitizerSite) :=
  if bool_decide (b = []) then Ok ∅
  else if (length b <? 32)%nat then Err (Unsupported "unexpected sanitizer site table ABI")
  else
    let? magic := u32_at b 0 in
    let? row_bytes := u16_at b 6 in
    if negb (magic =? 1414091596) || negb (bool_decide (b !! 4%nat = Some 1))
       || negb (bool_decide (b !! 5%nat = Some 32)) || negb (row_bytes =? 48)
    then Err (Unsupported "unexpected sanitizer site table ABI")
    else
      let? rows := u32_at b 8 in
      let? table_end := ok_or (n ← checked_mul rows 48; checked_add 32 n) corrupt in
      if Z.of_nat (length b) <? table_end then Err corrupt
      else
        let? so := u32_at b 12 in
        let? sl := u32_at b 16 in
        let? strings := region b so sl in
        let? po := u32_at b 20 in
        let? pl := u32_at b 24 in
        let? payload := region b po pl in
        parse_rows strings payload
          (Onnx.as_chunks 48 (take (Z.to_nat (table_end - 32)) (drop 32 b))) ∅.

(** [SanitizerCheck] and [SanitizerAccess]. *)
Inductive SanitizerCheck : Type :=
| InvalidAccess | DataRace | IntegerOverflow | DivideByZero | Alignment | FloatNanContract
| Unreachable | Assertion | UnknownCheck (code : Z).
Inductive SanitizerAccess : Type := Read | Write | ReadWrite | Atomic | UnknownAccess (code : Z).
(** [SanitizerAccess::from_native]. *)
Definition from_native (code : Z) : SanitizerAccess :=
  if code =? 1 then Read else if code =? 2 then Write else if code =? 3 then ReadWrite
  else if code =? 4 then Atomic else UnknownAccess code.

(** [SanitizerAddress], [SanitizerRace] and [SanitizerReport]. *)
Record SanitizerAddress : Type := mkAddress {
  access : SanitizerAccess; fault_address : Z; access_bytes : Z; shadow_address : Z; shadow_value : Z }.
Record SanitizerRace : Type := mkRace {
  memory_space : Z;
  current_access : SanitizerAccess;
  prior_access : SanitizerAccess;
  current_atomic : bool;
  prior_atomic : bool;
  race_bytes : Z;
  memory_address : Z;
  prior_site_id : Z;
  prior_site : option SanitizerSite;
  race_shadow_address : Z;
  race_shadow_value : Z;
  current_workgroup : Z * Z * Z;
  current_workitem : Z * Z * Z;
  prior_workgroup : Z * Z * Z;
  prior_workitem : Z * Z * Z;
  current_workitem_linear : bool;
  prior_workitem_linear : bool }.
Record SanitizerReport : Type := mkReport {
  check : SanitizerCheck;
  site_id : Z;
  operands : Z * Z;
  dispatch_address : Z;
  workgroup_x : Z;
  workitem_x : Z;
  site : option SanitizerSite;
  race : option SanitizerRace;
  address : option SanitizerAddress }.

(** The check of a race or of an operation. *)
Definition race_check (code : Z) : SanitizerCheck := if code =? 1 then DataRace else UnknownCheck code.
Definition operation_check (code : Z) : SanitizerCheck :=
  if code =? 1 then IntegerOverflow else if code =? 2 then DivideByZero else if code =? 3 then Alignment
  else if code =? 4 then FloatNanContract else if code =? 5 then Unreachable else if code =? 6 then Assertion
  else UnknownCheck code.
(** The access of an address report, whose codes differ from those of a race. *)
Definition access_of (code : Z) : SanitizerAccess :=
  if code =? 1 then Read else if code =? 2 then Write else if code =? 3 then Atomic else UnknownAccess code.

(** The length and record size of a packet of a kind. *)
Definition expected (kind : Z) : option (Z * Z) :=
  if (kind =? 1) || (kind =? 5) then Some (128, 64) else if kind =? 4 then Some (192, 120) else None.

(** The header checks of a packet at [offset]; its kind and length. *)
Definition packet_header (packet : list Z) (offset : Z) : Result (Z * Z) :=
  let? len := u32_at packet 0 in
  let? kind := u16_at packet 6 in
  let? (total, record) := ok_or (expected kind) corrupt in
  if negb (len =? total) || (Z.of_nat (length packet) <? len) then Err corrupt
  else
    let? a := u16_at packet 4 in
    let? b := u32_at packet 12 in
    let? c := u64_at packet 16 in
    let? d := u64_at packet 40 in
    let? e := u32_at packet 64 in
    let? f := u32_at packet 68 in
    if negb (a =? 64) || negb (b =? 1) || negb (c =? offset) || negb (d =? 1) || negb (e =? record) || negb (f =? 0)
    then Err corrupt else Ok (kind, len).

(** Three coordinates. *)
Definition coordinates (packet : list Z) (offset : Z) : Result (Z * Z * Z) :=
  let? x := u32_at packet offset in
  let? y := u32_at packet (offset + 4) in
  let? z := u32_at packet (offset + 8) in
  Ok (x, y, z).

Definition decode_race (packet : list Z) (sites : gmap Z SanitizerSite) : Result SanitizerRace :=
  let? flags := u32_at packet 76 in
  let? prior := u64_at packet 104 in
  let? space := u32_at packet 80 in
  let? current := u32_at packet 84 in
  let? before := u32_at packet 88 in
  let? bytes := u32_at packet 92 in
  let? memory := u64_at packet 112 in
  let? shadow := u64_at packet 120 in
  let? value := u64_at packet 128 in
  let? cg := coordinates packet 136 in
  let? ci := coordinates packet 148 in
  let? pg := coordinates packet 160 in
  let? pi := coordinates packet 172 in
  Ok (mkRace space (from_native current) (from_native before) (Z.testbit flags 0) (Z.testbit flags 1) bytes memory
        prior (sites !! prior) shadow value cg ci pg pi (Z.testbit flags 3) (Z.testbit flags 2)).
Definition decode_address (packet : list Z) : Result SanitizerAddress :=
  let? code := u32_at packet 72 in
  let? fault := u64_at packet 80 in
  let? bytes := u64_at packet 88 in
  let? shadow := u64_at packet 104 in
  let? value := u64_at packet 112 in
  Ok (mkAddress (access_of code) fault bytes shadow value).
Definition decode_packet (packet : list Z) (kind : Z) (sites : gmap Z SanitizerSite) : Result SanitizerReport :=
  let? id := u64_at packet (if kind =? 5 then 80 else 96) in
  let? check := if kind =? 1 then Ok InvalidAccess
                else let? code := u32_at packet 72 in
                     Ok (if kind =? 4 then race_check code else operation_check code) in
  let? race := if kind =? 4 then let? r := decode_race packet sites in Ok (Some r) else Ok None in
  let? address := if kind =? 1 then let? a := decode_address packet in Ok (Some a) else Ok None in
  let? operands := if kind =? 5 then let? a := u64_at packet 88 in let? b := u64_at packet 96 in Ok (a, b)
                   else Ok (0, 0) in
  let? dispatch := u64_at packet 24 in
  let? group := u32_at packet 32 in
  let? item := u32_at packet 36 in
  Ok (mkReport check id operands dispatch group item (sites !! id) race address).

(** The loop over the packets; [None] is out of fuel or a slice out of bounds. *)
Fixpoint decode_loop (fuel : nat) (b : list Z) (sites : gmap Z SanitizerSite) (head offset : Z)
    (reports : list SanitizerReport) : option (Result (list SanitizerReport)) :=
  match fuel with
  | O => None
  | S fuel =>
      if head <=? offset then Some (Ok reports)
      else if Z.of_nat (length b) <? 64 + head then None
      else
        let packet := take (Z.to_nat (head - offset)) (drop (Z.to_nat (64 + offset)) b) in
        match (let? (kind, len) := packet_header packet offset in
               let? r := decode_packet packet kind sites in Ok (r, len)) with
        | Err e => Some (Err e)
        | Ok (r, len) => decode_loop fuel b sites head (offset + len) (reports ++ [r])
        end
  end.

(** [decode]: the reports and the number dropped. *)
Definition decode (b : list Z) (capacity : Z) (sites : gmap Z SanitizerSite)
    : option (Result (list SanitizerReport * Z)) :=
  if negb (Z.of_nat (length b) =? 64 + capacity) then Some (Err corrupt)
  else
    match (let? size := u32_at b 0 in
           let? version := u32_at b 4 in
           let? room := u64_at b 24 in
           let? tail := u64_at b 32 in
           let? head := u64_at b 40 in
           if negb (size =? 64) || negb (version =? 0) || negb (room =? capacity) || negb (tail =? 0)
              || (capacity <? head) || negb (head mod 64 =? 0)
           then Err corrupt else Ok head) with
    | Err e => Some (Err e)
    | Ok head =>
        r ← decode_loop (S (length b)) b sites head 0 [];
        Some (let? reports := r in let? dropped := u64_at b 48 in Ok (reports, dropped))
    end.

(** [Feedback::drain] on the channel's bytes: decoded, then reset; a channel that
    does not decode is left. *)
Definition reset (b : list Z) : list Z :=
  take 32 b ++ replicate 24 0 ++ take 8 (drop 56 b) ++ replicate (length b - 64) 0.
Definition drain (b : list Z) (capacity : Z) (sites : gmap Z SanitizerSite)
    : option (list Z * Result (list SanitizerReport * Z)) :=
  r ← decode b capacity sites;
  Some (if is_ok r then reset b else b, r).

(** ** The shadow admits the allocations *)

(** Bytes of allocations given by length, and of ranges given by their end. *)
Definition covered (ranges : list (Z * Z)) (a : Z) : Prop := ∃ s n, (s, n) ∈ ranges ∧ s <= a < s + n.
Definition within (l : list (Z * Z)) (a : Z) : Prop := ∃ s e, (s, e) ∈ l ∧ s <= a < e.

(** What a shadow byte admits of its eight bytes: all, or the first few. *)
Definition allows (v o : Z) : Prop := v = 0 ∨ (0 < v < 8 ∧ o < v).
Definition admits (base : Z) (b : list Z) (a : Z) : Prop :=
  ∃ v, b !! Z.to_nat ((a - base) / 8) = Some v ∧ allows v (a mod 8).

(** Aligned ranges, each ending before the next starts. *)
Definition good (p : Z * Z) : Prop := p.1 mod 8 = 0 ∧ 0 <= p.1 < p.2 ∧ p.2 <= usize_max.
Definition apart (l : list (Z * Z)) : Prop :=
  ∀ i p q, l !! i = Some p → l !! S i = Some q → p.2 < q.1.
Definition apart_down (l : list (Z * Z)) : Prop :=
  ∀ i p q, l !! i = Some p → l !! S i = Some q → q.2 < p.1.

Lemma apart_reverse l : apart_down l → apart (reverse l).
Proof.
  intros H i p q Hp Hq. pose proof (lookup_lt_Some _ _ _ Hq) as Hl. rewrite length_reverse in Hl.
  rewrite reverse_lookup in Hp by lia. rewrite reverse_lookup in Hq by lia.
  apply (H (length l - S (S i))%nat); [done|]. rewrite <-Hp. f_equal. lia.
Qed.

Lemma within_cons p l a : within (p :: l) a ↔ p.1 <= a < p.2 ∨ within l a.
Proof.
  unfold within. destruct p as [s e]. simpl. setoid_rewrite elem_of_cons. split.
  - intros (s' & e' & [[= -> ->]|H] & Ha); [by left|right; by exists s', e'].
  - intros [Ha|(s' & e' & H & Ha)]; [exists s, e|exists s', e']; auto.
Qed.

(** Merging keeps the bytes. *)
Lemma merge_ranges_spec l acc out :
  Sorted range_le l → Forall (λ r, 0 <= r.1 ∧ 0 <= r.2) l →
  (∀ s e x, head acc = Some (s, e) → x ∈ l → s <= x.1) →
  Forall good acc → apart_down acc → merge_ranges l acc = Ok out →
  Forall good out ∧ apart_down out ∧ ∀ a, within out a ↔ within acc a ∨ covered l a.
Proof.
  intros Hs. revert acc. induction Hs as [|[start len] l Hs IH Hh]; intros acc Hn Hlo Hg Ha; simpl.
  { intros [= <-]. split_and!; try done. intros a. unfold covered. split; [by left|].
    intros [?|(s & n & ?%elem_of_nil & _)]; done. }
  apply Forall_cons in Hn as [[Hn1 Hn2] Hn]. simpl in Hn1, Hn2.
  destruct (negb (start mod 8 =? 0) || (len =? 0)) eqn:E; [done|]. to_prop.
  destruct (checked_add start len) as [stop|] eqn:Ec; [|done]. apply checked_add_Some in Ec as [-> Hmax].
  assert (Hge : ∀ x, x ∈ l → start <= x.1).
  { assert (Hss : StronglySorted range_le ((start, len) :: l)) by (apply Sorted_StronglySorted; [apply _|by constructor]).
    inversion Hss as [|? ? _ Hf]; subst. rewrite Forall_forall in Hf. intros x Hx.
    specialize (Hf x Hx). unfold range_le in Hf. simpl in Hf. lia. }
  assert (Hcov : ∀ a, covered ((start, len) :: l) a ↔ start <= a < start + len ∨ covered l a).
  { intros a. unfold covered. setoid_rewrite elem_of_cons. split.
    - intros (s & n & [[= -> ->]|Hi] & Hb); [by left|right; by exists s, n].
    - intros [Hb|(s & n & Hi & Hb)]; [exists start, len|exists s, n]; auto. }
  assert (Hgood : good (start, start + len)) by (unfold good; simpl; lia).
  destruct acc as [|[first last] older].
  - intros Hm. assert (Hnil : apart_down [(start, start + len)]) by (intros [|i] p q ? ?; done).
    destruct (IH [(start, start + len)] Hn) as (G & A & W); [|by constructor|done|done|].
    { intros s e x [= <- <-]. apply Hge. }
    split_and!; try done. intros a. rewrite W, Hcov, within_cons. unfold within. simpl. set_solver.
  - apply Forall_cons in Hg as [Hgf Hgo].
    assert (first <= start) by (apply (Hlo first last (start, len) eq_refl); by left).
    destruct (Z.leb_spec start last) as [Hle|Hgt]; intros Hm.
    + assert (Hdown : apart_down ((first, Z.max last (start + len)) :: older)).
      { intros [|i] p q Hp Hq; [|by apply (Ha (S i))]. simpl in Hp. injection Hp as <-.
        by apply (Ha 0%nat (first, last) q). }
      destruct (IH ((first, Z.max last (start + len)) :: older) Hn) as (G & A & W); [| |done|done|].
      { intros s e x [= <- <-] Hx. specialize (Hge x Hx). lia. }
      { constructor; [|done]. unfold good in *. simpl in *. lia. }
      split_and!; try done. intros a. rewrite W, Hcov, !within_cons. simpl. unfold good in Hgf. simpl in Hgf.
      assert (first <= a < Z.max last (start + len) ↔ first <= a < last ∨ start <= a < start + len) by lia. tauto.
    + assert (Hdown : apart_down ((start, start + len) :: (first, last) :: older)).
      { intros [|i] p q Hp Hq; [|by apply (Ha i)]. simpl in *. simplify_eq. done. }
      destruct (IH ((start, start + len) :: (first, last) :: older) Hn) as (G & A & W);
        [|by constructor; [|constructor]|done|done|].
      { intros s e x [= <- <-]. apply Hge. }
      split_and!; try done. intros a. rewrite W, Hcov, within_cons. simpl. tauto.
Qed.

Lemma fill_lookup first last v b :
  0 <= first <= last → last <= Z.of_nat (length b) →
  ∃ b', fill first last v b = Some b' ∧ length b' = length b
  ∧ ∀ g, 0 <= g → b' !! Z.to_nat g = if (first <=? g) && (g <? last) then Some v else b !! Z.to_nat g.
Proof.
  intros H1 H2. unfold fill. rewrite (proj2 (Z.leb_le 0 first)), (proj2 (Z.leb_le first last)) by lia.
  rewrite (proj2 (Z.leb_le last _)) by lia. simpl. eexists. split; [done|].
  assert (Hl : length (take (Z.to_nat first) b) = Z.to_nat first) by (rewrite length_take; lia). split.
  - rewrite !length_app, Hl, length_replicate, length_drop. lia.
  - intros g Hg. destruct (Z.leb_spec first g); simpl.
    + rewrite lookup_app_r by lia. rewrite Hl. destruct (Z.ltb_spec g last).
      * rewrite lookup_app_l by (rewrite length_replicate; lia). apply lookup_replicate_2. lia.
      * rewrite lookup_app_r by (rewrite length_replicate; lia). rewrite length_replicate, lookup_drop. f_equal. lia.
    + rewrite lookup_app_l by lia. by apply lookup_take_lt; lia.
Qed.

(** What marking a range writes. *)
Lemma mark_one_lookup base s e b :
  s mod 8 = 0 → base mod 8 = 0 → base <= s < e → (e - base + 7) / 8 <= Z.of_nat (length b) →
  ∃ b', mark_one base s e b = Some b' ∧ length b' = length b
  ∧ ∀ g, 0 <= g → b' !! Z.to_nat g =
      if ((s - base) / 8 <=? g) && (g <? (e - base) / 8) then Some 0
      else if negb (e mod 8 =? 0) && (g =? (e - base) / 8) then Some (e mod 8) else b !! Z.to_nat g.
Proof.
  intros Hs Hb Hse Hl. unfold mark_one.
  assert (Hdiv : (s - base) / 8 <= (e - base) / 8 <= (e - base + 7) / 8)
    by (split; apply Z.div_le_mono; lia).
  assert (0 <= (s - base) / 8) by (apply Z.div_pos; lia).
  destruct (fill_lookup ((s - base) / 8) ((e - base) / 8) 0 b ltac:(lia) ltac:(lia)) as (b1 & -> & Hl1 & Hg1). simpl.
  destruct (Z.eqb_spec (e mod 8) 0) as [E|E]; simpl.
  - exists b1. done.
  - unfold set_at. assert ((e - base) / 8 < Z.of_nat (length b1)).
    { rewrite Hl1. assert ((e - base) mod 8 ≠ 0).
      { rewrite Zminus_mod, Hb, Z.sub_0_r, Z.mod_mod by lia. done. }
      pose proof (Z.div_mod (e - base) 8 ltac:(lia)). pose proof (Z.mod_pos_bound (e - base) 8 ltac:(lia)).
      pose proof (Z.div_mod (e - base + 7) 8 ltac:(lia)). pose proof (Z.mod_pos_bound (e - base + 7) 8 ltac:(lia)). lia. }
    rewrite (proj2 (Z.leb_le 0 _)), (proj2 (Z.ltb_lt _ _)) by lia. simpl. eexists. split; [done|].
    rewrite length_insert. split; [done|]. intros g Hg. destruct (Z.eqb_spec g ((e - base) / 8)) as [->|Hne].
    + rewrite (proj2 (Z.ltb_ge ((e - base) / 8) _)) by lia. rewrite andb_false_r.
      apply list_lookup_insert_eq. lia.
    + rewrite list_lookup_insert_ne by lia. by apply Hg1.
Qed.

(** A marked range adds its bytes to those admitted before it. *)
Lemma mark_one_admits base s e b a :
  s mod 8 = 0 → base mod 8 = 0 → base <= s < e → (e - base + 7) / 8 <= Z.of_nat (length b) →
  (∀ g, (s - base) / 8 <= g < Z.of_nat (length b) → b !! Z.to_nat g = Some 255) →
  base <= a < base + 8 * Z.of_nat (length b) →
  ∀ b', mark_one base s e b = Some b' → admits base b' a ↔ admits base b a ∨ s <= a < e.
Proof.
  intros Hs Hb Hse Hl Hff Ha b' Hm.
  destruct (mark_one_lookup base s e b Hs Hb Hse Hl) as (b1 & Hm1 & _ & Hg). rewrite Hm in Hm1.
  injection Hm1 as <-. unfold admits.
  assert (Hq : ∃ q, a - base = 8 * q + a mod 8 ∧ 0 <= a mod 8 < 8 ∧ 0 <= q < Z.of_nat (length b)).
  { exists ((a - base) / 8). pose proof (Z.div_mod (a - base) 8 ltac:(lia)).
    assert ((a - base) mod 8 = a mod 8) by (rewrite Zminus_mod, Hb, Z.sub_0_r; by apply Z.mod_mod).
    pose proof (Z.mod_pos_bound a 8 ltac:(lia)). lia. }
  destruct Hq as (q & Hq & Ho & Hql).
  assert (Hdiv : (a - base) / 8 = q) by (symmetry; apply (Z.div_unique _ 8 q (a mod 8)); lia).
  assert (Hse' : ∃ ks ke, s - base = 8 * ks ∧ e - base = 8 * ke + e mod 8 ∧ 0 <= e mod 8 < 8
    ∧ (s - base) / 8 = ks ∧ (e - base) / 8 = ke).
  { exists ((s - base) / 8), ((e - base) / 8). pose proof (Z.div_mod (s - base) 8 ltac:(lia)).
    pose proof (Z.div_mod (e - base) 8 ltac:(lia)). pose proof (Z.mod_pos_bound e 8 ltac:(lia)).
    assert ((s - base) mod 8 = 0) by (rewrite Zminus_mod, Hb, Hs; done).
    assert ((e - base) mod 8 = e mod 8) by (rewrite Zminus_mod, Hb, Z.sub_0_r; by apply Z.mod_mod). lia. }
  destruct Hse' as (ks & ke & Es & Ee & Hem & Ds & De). specialize (Hg q ltac:(lia)). rewrite Hdiv, Hg, Ds, De in *.
  destruct ((ks <=? q) && (q <? ke)) eqn:E1.
  { to_prop. split; [intros _; right; lia|]. intros _. exists 0. split; [done|by left]. }
  destruct (negb (e mod 8 =? 0) && (q =? ke)) eqn:E2.
  - apply andb_true_iff in E2 as [E2 E3]. to_prop. subst q. rewrite (Hff ke) by lia. unfold allows. split.
    + intros (v & [= <-] & Hv). right. lia.
    + intros [(v & [= <-] & Hv)|Hv]; [lia|]. exists (e mod 8). split; [done|]. right. lia.
  - split; [by left|]. intros [?|Hr]; [done|exfalso]. apply andb_false_iff in E1, E2.
    destruct E1 as [E1|E1]; to_prop; [lia|]. destruct E2 as [E2|E2]; to_prop; lia.
Qed.

Lemma apart_cons p l : apart (p :: l) → apart l ∧ ∀ q, head l = Some q → p.2 < q.1.
Proof.
  intros H. split; [intros i; apply (H (S i))|]. intros q Hq. destruct l as [|x l]; [done|].
  injection Hq as ->. by apply (H 0%nat).
Qed.

(** Marking the merged ranges never panics and admits exactly their bytes. *)
Lemma mark_ranges_admits base size l b :
  base mod 8 = 0 → length b = Z.to_nat size → 0 <= size →
  Forall (λ p, p.1 mod 8 = 0 ∧ base <= p.1 < p.2 ∧ p.2 <= base + 8 * size) l → apart l →
  (∀ p g, head l = Some p → (p.1 - base) / 8 <= g < size → b !! Z.to_nat g = Some 255) →
  ∃ b', mark_ranges base l b = Some b' ∧ length b' = length b
  ∧ ∀ a, base <= a < base + 8 * size → admits base b' a ↔ admits base b a ∨ within l a.
Proof.
  intros Hb Hl Hsz Hg. revert b Hl. induction Hg as [|[s e] l (Hs & Hse & Hmax) Hg IH]; intros b Hl Hap Hff.
  { exists b. split_and!; try done. intros a _. unfold within. set_solver. }
  simpl in Hs, Hse, Hmax. destruct (apart_cons _ _ Hap) as [Hap' Hnext].
  assert (Hroom : (e - base + 7) / 8 <= Z.of_nat (length b)).
  { rewrite Hl, Z2Nat.id by done. apply Z.lt_succ_r, Z.div_lt_upper_bound; lia. }
  destruct (mark_one_lookup base s e b Hs Hb Hse Hroom) as (b1 & Hm & Hl1 & Hlook).
  destruct (IH b1) as (b' & Hm' & Hl' & Had); [congruence|done| |].
  { intros p g Hp Hgr. specialize (Hnext p Hp). simpl in Hnext.
    assert (Hp1 : p.1 mod 8 = 0).
    { destruct l as [|x l]; [done|]. injection Hp as ->. by apply Forall_cons in Hg as [(? & _) _]. }
    pose proof (Z.div_mod (p.1 - base) 8 ltac:(lia)) as Hd.
    assert ((p.1 - base) mod 8 = 0) as Hz by (rewrite Zminus_mod, Hb, Hp1; done).
    pose proof (Z.div_mod (e - base) 8 ltac:(lia)). pose proof (Z.mod_pos_bound (e - base) 8 ltac:(lia)).
    assert ((e - base) / 8 < g) by lia.
    assert ((s - base) / 8 <= (e - base) / 8) by (apply Z.div_le_mono; lia).
    assert (0 <= (s - base) / 8) by (apply Z.div_pos; lia).
    rewrite Hlook by lia. rewrite (proj2 (Z.ltb_ge g _)) by lia. rewrite andb_false_r.
    rewrite (proj2 (Z.eqb_neq g _)) by lia. rewrite andb_false_r. apply (Hff (s, e)); [done|simpl; lia]. }
  exists b'. simpl. rewrite Hm. simpl. split_and!; [done|congruence|]. intros a Ha.
  rewrite (Had a Ha), within_cons. simpl.
  rewrite (mark_one_admits base s e b a Hs Hb Hse Hroom) with (b' := b1); [tauto| |lia|done].
  intros g Hgr. apply (Hff (s, e)); [done|simpl; lia].
Qed.

Lemma admits_blank base n a : ¬ admits base (replicate n 255) a.
Proof. intros (v & [-> _]%lookup_replicate & [?|?]); lia. Qed.

Lemma apart_bounds l f q :
  Forall good l → apart l → head l = Some f → last l = Some q → ∀ p, p ∈ l → f.1 <= p.1 ∧ p.2 <= q.2.
Proof.
  intros Hg. revert f. induction Hg as [|x l Hx Hg IH]; [done|]. intros f Hap [= <-] Hq p Hin.
  destruct (apart_cons _ _ Hap) as [Hap' Hnext]. destruct l as [|y l].
  { apply list_elem_of_singleton in Hin as ->. injection Hq as <-. lia. }
  specialize (Hnext y eq_refl). specialize (IH y Hap' eq_refl Hq). unfold good in Hx.
  apply elem_of_cons in Hin as [->|Hin].
  - destruct (IH y) as [_ Hy]; [by left|]. apply Forall_cons in Hg as [(_ & Hy' & _) _]. lia.
  - destruct (IH p Hin). lia.
Qed.

(** The window of a shadow. *)
Lemma window_stop newest n :
  0 <= newest → checked_add newest 7 = Some n →
  clear_mask n 7 mod 8 = 0 ∧ newest <= clear_mask n 7 < newest + 8.
Proof.
  intros Hn [-> Hle]%checked_add_Some. change 7 with (2 ^ 3 - 1) at 2 4 6.
  rewrite clear_mask_spec by lia. change (2 ^ 3) with 8. split; [apply Z.mod_mul; lia|].
  pose proof (Z.div_mod (newest + 7) 8 ltac:(lia)). pose proof (Z.mod_pos_bound (newest + 7) 8 ltac:(lia)). lia.
Qed.

(** C30. The shadow of a dispatch never panics, covers every allocation, is bounded
    by the configured size, and admits exactly the bytes of the allocations:
    tails shorter than a granule and gaps between allocations are refused. *)
Theorem shadows_admit_allocations ranges maximum :
  Forall (λ r, 0 <= r.1 ∧ 0 <= r.2) ranges →
  ∃ r, address_shadow ranges maximum = Some r
  ∧ ∀ base stop b, r = Ok (base, stop, b) →
      Z.of_nat (length b) = (stop - base) / 8 ∧ (stop - base) / 8 <= maximum
      ∧ (∀ a, covered ranges a → base <= a < stop)
      ∧ ∀ a, base <= a < stop → admits base b a ↔ covered ranges a.
Proof.
  intros Hn. unfold address_shadow.
  destruct (merge_ranges (merge_sort range_le ranges) []) as [out|e] eqn:Em; [|by eexists].
  destruct (merge_ranges_spec _ [] out (Sorted_merge_sort range_le ranges)) as (Hg & Hap & Hw);
    [by rewrite merge_sort_Permutation|done|constructor|done|done|].
  assert (Hw' : ∀ a, within (reverse out) a ↔ covered ranges a).
  { intros a. transitivity (within out a); [unfold within; by setoid_rewrite elem_of_reverse|]. rewrite Hw.
    unfold covered, within. setoid_rewrite merge_sort_Permutation. set_solver. }
  apply apart_reverse in Hap. assert (Hg' : Forall good (reverse out)) by (by rewrite reverse_Permutation).
  destruct (head (reverse out)) as [[base e0]|] eqn:Eh; [|by eexists].
  destruct (last (reverse out)) as [[s0 newest]|] eqn:El; [|by eexists].
  destruct (checked_add newest 7) as [n|] eqn:Ec; [|by eexists]. cbv zeta.
  destruct (Z.leb_spec ((clear_mask n 7 - base) / 8) maximum) as [Hmax|]; [|by eexists].
  pose proof (apart_bounds _ _ _ Hg' Hap Eh El) as Hbounds. simpl in Hbounds.
  assert (Hbase : good (base, e0)) by (by eapply Forall_forall; [exact Hg'|]; apply head_Some_elem_of).
  assert (Hnew : good (s0, newest)) by (by eapply Forall_forall; [exact Hg'|]; apply last_Some_elem_of).
  unfold good in Hbase, Hnew. simpl in Hbase, Hnew.
  destruct (window_stop newest n ltac:(lia) Ec) as [Hal Hwin]. set (stop := clear_mask n 7) in *.
  assert (Hbn : base <= s0) by (apply (Hbounds (s0, newest)); by apply last_Some_elem_of).
  assert (Hsz : stop - base = 8 * ((stop - base) / 8)).
  { pose proof (Z.div_mod (stop - base) 8 ltac:(lia)) as Hd.
    assert ((stop - base) mod 8 = 0) by (rewrite Zminus_mod, Hal, (proj1 Hbase); done). lia. }
  assert (0 <= (stop - base) / 8) by (apply Z.div_pos; lia).
  destruct (mark_ranges_admits base ((stop - base) / 8) (reverse out)
    (replicate (Z.to_nat ((stop - base) / 8)) 255)) as (b & -> & Hl & Had); try done.
  - lia.
  - by rewrite length_replicate.
  - apply Forall_forall. intros [s e] Hi. destruct (Hbounds _ Hi). rewrite Forall_forall in Hg'.
    specialize (Hg' _ Hi). unfold good in Hg'. simpl in *. lia.
  - intros p g _ Hgr. apply lookup_replicate_2. lia.
  - simpl. eexists. split; [done|]. intros ? ? ? [= <- <- <-].
    rewrite Hl, length_replicate. split_and!; [lia|done| |].
    + intros a (s & e & Hi & Ha)%Hw'. destruct (Hbounds _ Hi). simpl in *. lia.
    + intros a Ha. rewrite Had by lia. rewrite Hw'. pose proof (admits_blank base (Z.to_nat ((stop - base) / 8)) a). tauto.
Qed.

Definition shadow_example : option (Result (Z * Z * list Z)) := address_shadow [(64, 13); (96, 8); (72, 4)] 100.

Lemma shadows_admit_allocations_witness :
  shadow_example = Some (Ok (64, 104, [0; 5; 255; 255; 0]))
  ∧ (admits 64 [0; 5; 255; 255; 0] 76 ↔ covered [(64, 13); (96, 8); (72, 4)] 76).
Proof.
  split; [vm_compute; reflexivity|].
  destruct (shadows_admit_allocations [(64, 13); (96, 8); (72, 4)] 100) as (r & Hr & Hb).
  - repeat (apply Forall_cons; split; [simpl; lia|]). constructor.
  - assert (Hx : shadow_example = Some (Ok (64, 104, [0; 5; 255; 255; 0]))) by (vm_compute; reflexivity).
    unfold shadow_example in Hx. rewrite Hr in Hx. injection Hx as ->.
    apply (Hb 64 104 [0; 5; 255; 255; 0] eq_refl). lia.
Defined.

(** ** Race shadow *)

Lemma product32_bound n l m : 0 <= n <= u32_max → Forall (Z.le 0) l → product32 n l = Some m →
  m = n * foldr Z.mul 1 l ∧ 0 <= m <= u32_max.
Proof.
  intros Hn Hl. revert n Hn. induction Hl as [|v l Hv Hl IH]; intros n Hn; simpl; [intros [= <-]; lia|].
  unfold checked_mul32. destruct (Z.leb_spec (n * v) u32_max); simpl; [|done].
  intros H1. destruct (IH (n * v) ltac:(nia) H1). lia.
Qed.

(** Each workgroup of the grid has its slot of the race shadow, with an entry
    for every word of local memory and a header, inside the configured size. *)
Lemma race_layout_bounds local_bytes grid maximum capacity stride size :
  0 <= local_bytes → Forall (Z.le 0) grid → race_layout local_bytes grid maximum = Ok (capacity, stride, size) →
  capacity = foldr Z.mul 1 grid ∧ 0 < capacity <= u32_max ∧ size = stride * capacity ∧ size <= maximum
  ∧ 2 * local_bytes + 8 <= stride ∧ size / 4 + 63 <= u32_max.
Proof.
  intros Hl Hg. unfold race_layout.
  destruct (product32 1 grid) as [n|] eqn:Ep; cbn [mbind option_bind ok_or result_bind]; [|done].
  apply product32_bound in Ep as [-> Hb]; [|done|done].
  destruct (Z.eqb_spec (1 * foldr Z.mul 1 grid) 0); cbn [ok_or result_bind]; [done|].
  destruct (checked_mul ((local_bytes + 3) / 4) 8) as [w|] eqn:Ew; cbn [mbind option_bind ok_or result_bind]; [|done].
  apply checked_mul_Some in Ew as [-> _].
  destruct (checked_add _ 8) as [st|] eqn:Ea; cbn [mbind option_bind ok_or result_bind]; [|done].
  apply checked_add_Some in Ea as [-> _].
  destruct (checked_mul _ _) as [sz|] eqn:Es; cbn [mbind option_bind ok_or result_bind]; [|done].
  apply checked_mul_Some in Es as [-> _]. case_bool; cbn [ok_or result_bind]; [|done]. intros [= <- <- <-].
  pose proof (Z.div_mod (local_bytes + 3) 4 ltac:(lia)). pose proof (Z.mod_pos_bound (local_bytes + 3) 4 ltac:(lia)).
  split_and!; lia.
Qed.

(** ** Report channels *)

Definition packet_at (b : list Z) (head offset : Z) : list Z :=
  take (Z.to_nat (head - offset)) (drop (Z.to_nat (64 + offset)) b).

(** The reports of consecutive packets from an offset up to the head. *)
Inductive tiles (b : list Z) (sites : gmap Z SanitizerSite) (head : Z) : Z → list SanitizerReport → Prop :=
| tiles_end : tiles b sites head head []
| tiles_next offset kind len r rest :
    offset < head → packet_header (packet_at b head offset) offset = Ok (kind, len) →
    decode_packet (packet_at b head offset) kind sites = Ok r → 128 <= len →
    tiles b sites head (offset + len) rest → tiles b sites head offset (r :: rest).

Lemma packet_header_length p offset kind len :
  packet_header p offset = Ok (kind, len) → 128 <= len <= Z.of_nat (length p).
Proof.
  unfold packet_header. destruct (u32_at p 0) as [n|]; cbn [result_bind]; [|done].
  destruct (u16_at p 6) as [k|]; cbn [result_bind]; [|done].
  destruct (expected k) as [[total record]|] eqn:Ee; cbn [result_bind ok_or]; [|done].
  destruct (negb (n =? total) || (Z.of_nat (length p) <? n)) eqn:E; [done|]. to_prop. intros Hr.
  assert (n = len) as <-.
  { repeat match type of Hr with result_bind ?r _ = _ => destruct r; cbn [result_bind] in Hr; [|done] end.
    case_bool; [done|]. by injection Hr. }
  unfold expected in Ee. repeat case_bool; simplify_eq; lia.
Qed.

Lemma decode_loop_total fuel b sites head offset reports :
  64 + head <= Z.of_nat (length b) → 0 <= offset <= head → head - offset < Z.of_nat fuel →
  ∃ r, decode_loop fuel b sites head offset reports = Some r
  ∧ ∀ out, r = Ok out → ∃ new, out = reports ++ new ∧ tiles b sites head offset new.
Proof.
  intros Hb. revert offset reports. induction fuel as [|fuel IH]; intros offset reports Ho Hf; [lia|]. simpl.
  destruct (Z.leb_spec head offset) as [Hle|Hlt].
  { eexists. split; [done|]. intros out [= <-]. exists []. rewrite app_nil_r. split; [done|].
    assert (offset = head) as -> by lia. constructor. }
  rewrite (proj2 (Z.ltb_ge _ _)) by lia. fold (packet_at b head offset).
  destruct (packet_header (packet_at b head offset) offset) as [[kind len]|e] eqn:Eh; cbn [result_bind]; [|by eexists].
  destruct (decode_packet (packet_at b head offset) kind sites) as [r|e] eqn:Ed; cbn [result_bind]; [|by eexists].
  pose proof (packet_header_length _ _ _ _ Eh) as Hlen.
  assert (Z.of_nat (length (packet_at b head offset)) <= head - offset) by (unfold packet_at; rewrite length_take; lia).
  destruct (IH (offset + len) (reports ++ [r]) ltac:(lia) ltac:(lia)) as (v & -> & Hv).
  exists v. split; [done|]. intros out Hout. destruct (Hv out Hout) as (new & -> & Ht).
  exists (r :: new). rewrite <-app_assoc. split; [done|]. eapply tiles_next; [done|done|done|lia|done].
Qed.

Lemma from_le_nonneg l : Forall (Z.le 0) l → 0 <= from_le_bytes l.
Proof. induction 1; simpl; lia. Qed.

(** Decoding a channel never panics and terminates; when it succeeds, its
    reports are those of the packets that tile the published bytes. *)
Theorem decoded_reports_tile_the_channel b capacity sites :
  0 <= capacity → Forall (Z.le 0) b →
  ∃ r, decode b capacity sites = Some r
  ∧ ∀ reports dropped, r = Ok (reports, dropped) →
      ∃ head, u64_at b 40 = Ok head ∧ head <= capacity ∧ tiles b sites head 0 reports.
Proof.
  intros Hc Hnn. unfold decode. destruct (Z.eqb_spec (Z.of_nat (length b)) (64 + capacity)) as [Hl|]; cbn [negb]; [|by eexists].
  destruct (u32_at b 0); cbn [result_bind]; [|by eexists]. destruct (u32_at b 4); cbn [result_bind]; [|by eexists].
  destruct (u64_at b 24); cbn [result_bind]; [|by eexists]. destruct (u64_at b 32); cbn [result_bind]; [|by eexists].
  destruct (u64_at b 40) as [head|] eqn:Eh; cbn [result_bind]; [|by eexists].
  match goal with |- context [if ?c then _ else _] => destruct c eqn:E; [by eexists|] end. to_prop.
  assert (0 <= head).
  { unfold u64_at, read_at in Eh. case_bool; [|done]. injection Eh as <-.
    by apply from_le_nonneg, Forall_take, Forall_drop. }
  destruct (decode_loop_total (S (length b)) b sites head 0 [] ltac:(lia) ltac:(lia) ltac:(lia)) as (r & -> & Hr).
  simpl. eexists. split; [done|]. intros reports dropped Hok. destruct r as [l|]; simpl in Hok; [|done].
  destruct (u64_at b 48); simpl in Hok; [|done]. injection Hok as -> _. exists head.
  destruct (Hr reports eq_refl) as (new & Heq & Ht). simpl in Heq. subst. split_and!; [done|lia|done].
Qed.

(** An empty channel of 128 bytes. *)
Definition example_channel : list Z :=
  le_bytes 4 64 ++ le_bytes 4 0 ++ replicate 16 0 ++ le_bytes 8 128 ++ replicate 160 0.

Lemma decoded_reports_tile_the_channel_witness :
  decode example_channel 128 ∅ = Some (Ok ([], 0))
  ∧ ∃ head, u64_at example_channel 40 = Ok head ∧ head <= 128 ∧ tiles example_channel ∅ head 0 [].
Proof.
  split; [vm_compute; reflexivity|].
  destruct (decoded_reports_tile_the_channel example_channel 128 ∅) as (r & Hr & Ht); [lia| |].
  - apply Forall_forall. intros x Hx. vm_compute in Hx. set_solver by lia.
  - assert (Hd : decode example_channel 128 ∅ = Some (Ok ([], 0))) by (vm_compute; reflexivity).
    rewrite Hr in Hd. injection Hd as ->. exact (Ht [] 0 eq_refl).
Defined.

(** What a reset channel holds: its header, then zeroes. *)
Lemma length_reset b : (64 <= length b)%nat → length (reset b) = length b.
Proof.
  intros H. unfold reset. rewrite !length_app, !length_replicate, !length_take, length_drop. lia.
Qed.

Lemma read_reset_low n b offset :
  (64 <= length b)%nat → 0 <= offset → offset + Z.of_nat n <= 32 → read_at n (reset b) offset = read_at n b offset.
Proof.
  intros Hl Ho Hn. unfold read_at. rewrite length_reset by done. unfold reset.
  rewrite drop_app_le by (rewrite length_take; lia). rewrite take_app_le by (rewrite length_drop, length_take; lia).
  replace 32%nat with (Z.to_nat offset + (32 - Z.to_nat offset))%nat by lia.
  by rewrite <-take_drop_commute, take_take, Nat.min_l by lia.
Qed.

Lemma from_le_zero n : from_le_bytes (replicate n 0) = 0.
Proof. induction n as [|n IH]; simpl; [done|]. lia. Qed.

Lemma read_reset_zero n b offset :
  (64 <= length b)%nat → 32 <= offset → offset + Z.of_nat n <= 56 → read_at n (reset b) offset = Ok 0.
Proof.
  intros Hl Ho Hn. unfold read_at. rewrite length_reset by done.
  rewrite (proj2 (Z.leb_le 0 offset)), (proj2 (Z.leb_le _ _)) by lia. simpl. f_equal. unfold reset.
  rewrite drop_app_ge by (rewrite length_take; lia). rewrite length_take, Nat.min_l by lia.
  rewrite drop_app_le by (rewrite length_replicate; lia). rewrite take_app_le by (rewrite length_drop, length_replicate; lia).
  rewrite drop_replicate, take_replicate. apply from_le_zero.
Qed.

(** A channel that was drained holds no reports and no drop count. *)
Lemma drained_channels_are_empty b capacity sites b' reports dropped :
  0 <= capacity → drain b capacity sites = Some (b', Ok (reports, dropped)) →
  decode b' capacity sites = Some (Ok ([], 0)).
Proof.
  intros Hc. unfold drain. destruct (decode b capacity sites) as [r|] eqn:Ed; simpl; [|done].
  intros [= <- ->]. cbn [is_ok]. unfold decode in Ed.
  destruct (Z.eqb_spec (Z.of_nat (length b)) (64 + capacity)) as [Hl|]; cbn [negb] in Ed; [|done].
  assert (H64 : (64 <= length b)%nat) by lia. unfold decode. rewrite length_reset by done. rewrite Hl, Z.eqb_refl. cbn [negb].
  unfold u32_at, u64_at in *. rewrite !read_reset_low by lia. rewrite !read_reset_zero by lia.
  destruct (read_at 4 b 0) as [x|]; cbn [result_bind] in *; [|done].
  destruct (read_at 4 b 4) as [y|]; cbn [result_bind] in *; [|done].
  destruct (read_at 8 b 24) as [z|]; cbn [result_bind] in *; [|done].
  destruct (read_at 8 b 32) as [t|]; cbn [result_bind] in *; [|done].
  destruct (read_at 8 b 40) as [h|]; cbn [result_bind] in *; [|done].
  destruct (negb (x =? 64) || negb (y =? 0) || negb (z =? capacity)) eqn:E; simpl in Ed; [done|].
  rewrite (proj2 (Z.ltb_ge capacity 0)) by lia. reflexivity.
Qed.
End Sanitizer.
