(* ===== verification/Storage.v ===== *)
(** * Storage sessions

    GPU-authored file I/O of src/src/storage/mod.rs: physical extents and the
    registration of files, admission by [StorageSession::submit], the worker of
    [Worker::run] with the retrying loop of [Worker::execute], failure, tickets,
    leases and the drop of a session.

    A [World] holds one session.  A [Request] is identified by its position in
    the list of all requests; it is retained while a ticket, the pending queue
    or the worker's batch names it, which is what the weak references of the
    slots observe.  [payload] is the registered allocation by address and [disk]
    the bytes of every file by identity; the kernel transfers bytes of a batch
    in any order, in pieces, and interleaved with admission.  The bytes a write
    was given are kept in its request and read by no operation. *)

From S2P Require Import Prelude.
Local Open Scope Z_scope.

Module Storage.

(** ** Extents *)

Inductive StorageMode : Type := Buffered | Direct.
Global Instance StorageMode_eq_dec : EqDecision StorageMode.
Proof. solve_decision. Defined.

Record Extent : Type := mkExtent {
  file : nat;
  offset : Z;
  bytes : Z;
  writing : bool }.
Record Physical : Type := mkPhysical {
  p_offset : Z;
  p_bytes : Z;
  p_skip : Z }.

Definition physical (e : Extent) (size alignment capacity : Z) : Result Physical :=
  match checked_add (offset e) (bytes e) with
  | None => Err (Message "file extent overflow")
  | Some stop =>
      if (bytes e =? 0) || (capacity <? bytes e) || (negb (writing e) && (size <? stop))
      then Err (Message "file extent exceeds its file or payload slot")
      else
        let mask := alignment - 1 in
        if writing e && (negb (Z.land (offset e) mask =? 0) || negb (Z.land (bytes e) (alignment - 1) =? 0))
        then Err (Message "direct writes require aligned file offsets and lengths")
        else
          let start := clear_mask (offset e) mask in
          match checked_add stop mask with
          | None => Err (Message "aligned extent overflow")
          | Some padded =>
              let n := clear_mask padded mask - start in
              if capacity <? n then Err (Message "aligned read exceeds payload slot")
              else Ok (mkPhysical start n (offset e - start))
          end
  end.

(** ** Registration *)

Definition O_ACCMODE : Z := 3.
Definition O_RDONLY : Z := 0.
Definition O_WRONLY : Z := 1.
Definition O_APPEND : Z := 0x400.
Definition O_DIRECT : Z := 0x4000.
Definition O_PATH : Z := 0x200000.

(** What the file system answers for a descriptor: its metadata, its flags, the
    identity of its reopened copy or the outcome of a clone, and the direct-I/O
    alignments when it reports both. *)
Record Descriptor : Type := mkDescriptor {
  is_regular : bool;
  length_ : Z;
  identity_ : Z * Z;
  flags : Result Z;
  reopened : Result (Z * Z);
  cloned : Result unit;
  dio_alignment : option (Z * Z) }.

(** [RegisteredFile]; [size] is its atomic byte count. *)
Record RegisteredFile : Type := mkFile {
  size : Z;
  alignment : Z;
  writable : bool;
  readable : bool;
  identity : Z * Z }.

Definition direct_alignment (page : Z) (d : Descriptor) : Result Z :=
  let unreported := Err (Unsupported "filesystem does not report direct-I/O alignment") in
  match dio_alignment d with
  | None => unreported
  | Some (mem, off) =>
      if (mem =? 0) || (off =? 0) then unreported
      else
        let a := Z.max mem off in
        if negb (is_power_of_two mem) || negb (is_power_of_two off) || (page <? a)
        then Err (Unsupported "direct-I/O alignment exceeds registered-page alignment")
        else Ok a
  end.

Definition register (page : Z) (mode : StorageMode) (d : Descriptor) : Result RegisteredFile :=
  if negb (is_regular d) then Err (Unsupported "storage requires a regular file")
  else
    let? f := flags d in
    let access := Z.land f O_ACCMODE in
    if negb (Z.land f O_APPEND =? 0)
    then Err (Unsupported "storage does not accept append-only descriptors")
    else
      let? _ :=
        (if bool_decide (mode = Direct) || negb (Z.land f O_DIRECT =? 0)
         then let? actual := reopened d in
              if bool_decide (actual = identity_ d) then Ok tt
              else Err (Message "storage file identity changed")
         else cloned d) in
      let? a := (if bool_decide (mode = Direct) then direct_alignment page d else Ok 1) in
      Ok (mkFile (length_ d) a (negb (access =? O_RDONLY))
            (negb (access =? O_WRONLY) && (Z.land f O_PATH =? 0)) (identity_ d)).

(** The checks of [StorageSession::new] on its configuration and files. *)
Fixpoint register_all (page : Z) (mode : StorageMode) (l : list Descriptor) : Result (list RegisteredFile) :=
  match l with
  | [] => Ok []
  | d :: rest =>
      let? f := register page mode d in
      let? fs := register_all page mode rest in
      Ok (f :: fs)
  end.
Definition open_session (page : Z) (mode : StorageMode) (slot_count slot_bytes : Z) (l : list Descriptor)
    : Result (list RegisteredFile) :=
  if page <=? 0 then Err (Unsupported "host page size unavailable")
  else if (slot_count =? 0) || (64 <? slot_count) || (slot_bytes =? 0) || (Z.shiftl 64 20 <? slot_bytes)
          || negb (slot_bytes mod page =? 0)
  then Err (Message "storage needs 1..=64 slots of page-aligned size, at most 64 MiB each")
  else
    let? fs := register_all page mode l in
    if (length fs =? 0)%nat || (1024 <? length fs)%nat then Err (Message "storage needs 1..=1024 files")
    else
      let? _ := ok_or (checked_mul slot_bytes slot_count) (Message "storage capacity overflow") in
      Ok fs.

(** [StorageSession::read_chunk_bytes]. *)
Definition read_chunk_bytes (slot_bytes : Z) (fs : list RegisteredFile) : Z :=
  saturating_sub slot_bytes (foldr Z.max 1 (alignment <$> fs) - 1).

(** ** State *)

Record Request : Type := mkRequest {
  extent : Extent;
  phys : Physical;
  slot : nat;
  given : list Z;
  outcome : option (Result Z) }.

(** The loop variables of [Worker::execute]: the completed bytes and the result
    of every job, the jobs of the current attempt by index, what the kernel has
    returned of it so far, and the entries issued before it. *)
Record Batch : Type := mkBatch {
  jobs : list nat;
  completed : list Z;
  results : list Z;
  remaining : list nat;
  returned : list (option Z);
  issued : nat }.

(** The service thread: waiting for work, executing a batch, or gone. *)
Inductive Worker : Type :=
| Waiting
| Executing (b : Batch)
| Exited.

(** [StorageStatistics] less its clocks and ring counters. *)
Record StorageStatistics : Type := mkCounters {
  logical_requests : Z;
  physical_requests : Z;
  shared_reads : Z;
  completed_bytes : Z;
  errors : Z;
  peak_slots : nat;
  peak_outstanding : nat }.

Record World : Type := mkWorld {
  slot_bytes : Z;
  files : list RegisteredFile;
  requests : list Request;
  tickets : list nat;
  pending : list nat;
  slots : list (option nat);
  stop : bool;
  failed : option Error;
  worker : Worker;
  counters : StorageStatistics;
  payload : Z → Z;
  disk : Z * Z → Z → Z }.

Definition batch_jobs (k : Worker) : list nat :=
  match k with Executing b => jobs b | _ => [] end.

(** Whether a strong reference to a request is left. *)
Definition is_retained (w : World) (id : nat) : bool :=
  bool_decide (id ∈ tickets w ++ pending w ++ batch_jobs (worker w)).
Definition upgrade (w : World) (s : option nat) : option nat :=
  id ← s; if is_retained w id then Some id else None.

(** ** Admission *)

(** [std::io::Error::from_raw_os_error]. *)
Definition os_error (code : Z) : Error := Io (pretty code).
Definition EBADF : Z := 9.
Definition EIO : Z := 5.

Definition is_failed (o : option (Result Z)) : bool :=
  match o with Some (Err _) => true | _ => false end.
Definition extents_overlap (a b : Extent) : bool :=
  (offset a <? offset b + bytes b) && (offset b <? offset a + bytes a).

(** The scan of the retained requests: share, refuse or admit. *)
Inductive ScanResult : Type :=
| Share (id : nat)
| Conflict
| Clear.
Definition same_file (w : World) (a b : Extent) : bool :=
  match files w !! file a, files w !! file b with
  | Some f, Some g => bool_decide (identity f = identity g)
  | _, _ => false
  end.
Fixpoint scan_retained (w : World) (e : Extent) (l : list nat) : ScanResult :=
  match l with
  | [] => Clear
  | id :: rest =>
      match requests w !! id with
      | None => scan_retained w e rest
      | Some r =>
          let other := extent r in
          if same_file w other e then
            if negb (writing e) && negb (writing other) && (offset other =? offset e)
               && (bytes other =? bytes e) && negb (is_failed (outcome r))
            then Share id
            else if (writing e || writing other) && extents_overlap e other then Conflict
                 else scan_retained w e rest
          else scan_retained w e rest
      end
  end.
Definition free_slot (w : World) : option nat :=
  fst <$> list_find (λ s, upgrade w s = None) (slots w).

Definition set_counters (w : World) (c : StorageStatistics) : World :=
  mkWorld (slot_bytes w) (files w) (requests w) (tickets w) (pending w) (slots w) (stop w) (failed w)
    (worker w) c (payload w) (disk w).
Definition set_tickets (w : World) (l : list nat) : World :=
  mkWorld (slot_bytes w) (files w) (requests w) l (pending w) (slots w) (stop w) (failed w)
    (worker w) (counters w) (payload w) (disk w).
Definition count_shared (c : StorageStatistics) : StorageStatistics :=
  mkCounters (logical_requests c + 1) (physical_requests c) (shared_reads c + 1) (completed_bytes c)
    (errors c) (peak_slots c) (peak_outstanding c).
Definition count_admitted (c : StorageStatistics) (live : nat) : StorageStatistics :=
  mkCounters (logical_requests c + 1) (physical_requests c) (shared_reads c) (completed_bytes c)
    (errors c) (Nat.max (peak_slots c) live) (peak_outstanding c).

(** Bytes written from an address. *)
Definition store_bytes (m : Z → Z) (base : Z) (l : list Z) : Z → Z :=
  λ a, if (base <=? a) && (a <? base + Z.of_nat (length l)) then default 0 (l !! Z.to_nat (a - base)) else m a.

(** The request in its slot, pending. *)
Definition place (w : World) (s : nat) (e : Extent) (p : Physical) (new : list Z) : World :=
  let id := length (requests w) in
  let w := mkWorld (slot_bytes w) (files w) (requests w ++ [mkRequest e p s new None]) (id :: tickets w)
             (pending w ++ [id]) (<[s := Some id]> (slots w)) (stop w) (failed w) (worker w) (counters w)
             (store_bytes (payload w) (Z.of_nat s * slot_bytes w) new) (disk w) in
  set_counters w (count_admitted (counters w) (length (omap (upgrade w) (slots w)))).

(** [StorageSession::submit]; [write_ok] is the outcome of the host write into
    the slot, which obeys the device leases on the payload. *)
Definition submit (write_ok : Result unit) (w : World) (e : Extent) (new : list Z) : World * Result nat :=
  match files w !! file e with
  | None => (w, Err (Message "unregistered file index"))
  | Some f =>
      if (writing e && negb (writable f)) || (negb (writing e) && negb (readable f))
      then (w, Err (os_error EBADF))
      else
        match physical e (size f) (alignment f) (slot_bytes w) with
        | Err x => (w, Err x)
        | Ok p =>
            match failed w with
            | Some x => (w, Err (Execution x))
            | None =>
                if stop w then (w, Err Cancelled)
                else
                  match scan_retained w e (omap (upgrade w) (slots w)) with
                  | Share id => (set_counters (set_tickets w (id :: tickets w)) (count_shared (counters w)), Ok id)
                  | Conflict => (w, Err (Busy "overlapping storage write is still retained"))
                  | Clear =>
                      match free_slot w with
                      | None => (w, Err (Busy "all storage payload slots are retained"))
                      | Some s =>
                          if writing e then
                            match write_ok with
                            | Err x => (w, Err x)
                            | Ok _ => (place w s e p new, Ok (length (requests w)))
                            end
                          else (place w s e p [], Ok (length (requests w)))
                      end
                  end
            end
        end
  end.
Definition read (w : World) (f : nat) (off n : Z) : World * Result nat :=
  submit (Ok tt) w (mkExtent f off n false) [].
Definition write (write_ok : Result unit) (w : World) (f : nat) (off : Z) (new : list Z) : World * Result nat :=
  submit write_ok w (mkExtent f off (Z.of_nat (length new)) true) new.

(** ** Outcomes *)

Definition set_requests (w : World) (l : list Request) : World :=
  mkWorld (slot_bytes w) (files w) l (tickets w) (pending w) (slots w) (stop w) (failed w)
    (worker w) (counters w) (payload w) (disk w).
Definition set_worker (w : World) (k : Worker) : World :=
  mkWorld (slot_bytes w) (files w) (requests w) (tickets w) (pending w) (slots w) (stop w) (failed w)
    k (counters w) (payload w) (disk w).
Definition set_state (w : World) (l : list nat) (s : bool) (f : option Error) : World :=
  mkWorld (slot_bytes w) (files w) (requests w) (tickets w) l (slots w) s f
    (worker w) (counters w) (payload w) (disk w).
Definition set_files (w : World) (l : list RegisteredFile) : World :=
  mkWorld (slot_bytes w) l (requests w) (tickets w) (pending w) (slots w) (stop w) (failed w)
    (worker w) (counters w) (payload w) (disk w).
Definition count_errors (c : StorageStatistics) (n : nat) : StorageStatistics :=
  mkCounters (logical_requests c) (physical_requests c) (shared_reads c) (completed_bytes c)
    (errors c + Z.of_nat n) (peak_slots c) (peak_outstanding c).

(** [*request.outcome = Some(o)]. *)
Definition set_outcome (o : Result Z) (id : nat) (l : list Request) : list Request :=
  alter (λ r, mkRequest (extent r) (phys r) (slot r) (given r) (Some o)) id l.
Definition fail_all (w : World) (l : list nat) (e : Error) : World :=
  set_counters (set_requests w (foldl (λ rs id, set_outcome (Err e) id rs) (requests w) l))
    (count_errors (counters w) (length l)).
(** Every pending request fails; none is left. *)
Definition fail_pending (w : World) (e : Error) : World :=
  let w := fail_all w (pending w) e in
  set_state w [] (stop w) (failed w).

(** [stop_after_failure]. *)
Definition stop_after_failure (w : World) (e : Error) : World :=
  fail_pending (set_state w (pending w) true (Some (default e (failed w)))) e.

(** ** The worker *)

(** Taking the pending requests: the worker leaves when it was stopped and
    nothing is pending. *)
Definition take_batch (w : World) : option World :=
  match worker w with
  | Waiting =>
      match pending w with
      | [] => if stop w then Some (set_worker w Exited) else None
      | l => Some (set_worker (set_state w [] (stop w) (failed w))
                    (Executing (mkBatch l (replicate (length l) 0) (replicate (length l) 0)
                                  (seq 0 (length l)) (replicate (length l) None) 0)))
      end
  | _ => None
  end.

(** The descriptor of one attempt of [execute_batch]: identity of the file,
    file offset, payload address, length and direction. *)
Record StorageAttempt : Type := mkAttempt {
  a_file : Z * Z;
  a_offset : Z;
  a_address : Z;
  a_length : Z;
  a_writing : bool }.
Definition attempt (w : World) (b : Batch) (i : nat) : option StorageAttempt :=
  id ← jobs b !! i;
  r ← requests w !! id;
  f ← files w !! file (extent r);
  c ← completed b !! i;
  Some (mkAttempt (identity f) (p_offset (phys r) + c) (Z.of_nat (slot r) * slot_bytes w + c)
          (p_bytes (phys r) - c) (writing (extent r))).

(** The kernel moves the first [n] bytes of an attempt. *)
Definition copy_range (source target : Z → Z) (from to n : Z) : Z → Z :=
  λ a, if (to <=? a) && (a <? to + n) then source (a - to + from) else target a.
Definition transfer (w : World) (a : StorageAttempt) (n : Z) : World :=
  mkWorld (slot_bytes w) (files w) (requests w) (tickets w) (pending w) (slots w) (stop w) (failed w)
    (worker w) (counters w)
    (if a_writing a then payload w
     else copy_range (disk w (a_file a)) (payload w) (a_offset a) (a_address a) n)
    (if a_writing a
     then λ f, if bool_decide (f = a_file a)
               then copy_range (payload w) (disk w f) (a_address a) (a_offset a) n else disk w f
     else disk w).

(** One completion of the current attempt: [result] bytes, or an error that may
    have [moved] some. *)
Definition complete_entry (w : World) (j : nat) (result moved : Z) : option World :=
  match worker w with
  | Executing b =>
      i ← remaining b !! j;
      match returned b !! j with
      | Some None =>
          a ← attempt w b i;
          if (result <=? a_length a) && (moved <=? a_length a) && ((result <? 0) || (moved =? result))
          then Some (set_worker (transfer w a moved)
                 (Executing (mkBatch (jobs b) (completed b) (results b) (remaining b)
                               (<[j := Some result]> (returned b)) (issued b))))
          else None
      | _ => None
      end
  | _ => None
  end.

(** The classification of a finished attempt by [Worker::execute]: the new
    completed bytes and results, the jobs to retry, and whether one failed. *)
Record Round : Type := mkRound {
  rd_completed : list Z;
  rd_results : list Z;
  rd_retry : list nat;
  rd_failed : bool }.
(** A job's extent as the loop needs it: required bytes, alignment, writing. *)
Record Job : Type := mkJob { required : Z; job_alignment : Z; job_writing : bool }.
Definition classify_one (job : Job) (i : nat) (result : Z) (s : Round) : Round :=
  if result <? 0
  then mkRound (rd_completed s) (<[i := result]> (rd_results s)) (rd_retry s) true
  else
    let c := default 0 (rd_completed s !! i) + result in
    let completed := <[i := c]> (rd_completed s) in
    let results := <[i := c]> (rd_results s) in
    if required job <=? c then mkRound completed results (rd_retry s) (rd_failed s)
    else if (result =? 0) || negb (c mod job_alignment job =? 0)
    then mkRound completed (if job_writing job then <[i := - EIO]> results else results) (rd_retry s) true
    else mkRound completed results (rd_retry s ++ [i]) (rd_failed s).
Fixpoint classify (js : list Job) (l : list (nat * Z)) (s : Round) : Round :=
  match l with
  | [] => s
  | (i, result) :: rest =>
      match js !! i with
      | Some job => classify js rest (classify_one job i result s)
      | None => classify js rest s
      end
  end.
Definition job_of (w : World) (id : nat) : Job :=
  match requests w !! id with
  | Some r => mkJob (p_skip (phys r) + bytes (extent r))
                (from_option alignment 1 (files w !! file (extent r))) (writing (extent r))
  | None => mkJob 0 1 false
  end.

(** [Worker::execute] as a function of the results of each attempt. *)
Fixpoint execute (fuel : nat) (kernel : nat → list (nat * Z) → Result (list Z)) (js : list Job)
    (completed results : list Z) (remaining : list nat) : option (Result (list Z)) :=
  match remaining, fuel with
  | [], _ => Some (Ok results)
  | _, O => None
  | _, S fuel =>
      match kernel fuel ((λ i, (i, default 0 (completed !! i))) <$> remaining) with
      | Err e => Some (Err e)
      | Ok returned =>
          let s := classify js (zip remaining returned) (mkRound completed results [] false) in
          if rd_failed s then Some (Ok (rd_results s))
          else execute fuel kernel js (rd_completed s) (rd_results s) (rd_retry s)
      end
  end.

(** The outcome of a job with its final result. *)
Definition job_outcome (r : Request) (result : Z) : Result Z :=
  if result <? 0 then Err (os_error (- result))
  else if result <? p_skip (phys r) + bytes (extent r) then Err (Io "incomplete storage extent")
       else Ok result.

(** A successful write extends every registration of its file. *)
Definition extend_files (fs : list RegisteredFile) (e : Extent) : list RegisteredFile :=
  match fs !! file e with
  | None => fs
  | Some f =>
      (λ g, if bool_decide (identity g = identity f)
            then mkFile (Z.max (size g) (offset e + bytes e)) (alignment g) (writable g) (readable g) (identity g)
            else g) <$> fs
  end.
Definition count_result (c : StorageStatistics) (o : Result Z) : StorageStatistics :=
  match o with
  | Ok n => mkCounters (logical_requests c) (physical_requests c) (shared_reads c) (completed_bytes c + n)
              (errors c) (peak_slots c) (peak_outstanding c)
  | Err _ => count_errors c 1
  end.

(** Publishing the result of one job. *)
Definition finish_job (w : World) (id : nat) (result : Z) : World :=
  match requests w !! id with
  | None => w
  | Some r =>
      let o := job_outcome r result in
      let w := set_counters w (count_result (counters w) o) in
      let w := set_requests w (set_outcome o id (requests w)) in
      match o with
      | Ok _ => if writing (extent r) then set_files w (extend_files (files w) (extent r)) else w
      | Err e => set_state w (pending w) true (Some (default e (failed w)))
      end
  end.
Definition count_batch (c : StorageStatistics) (n entries : nat) : StorageStatistics :=
  mkCounters (logical_requests c) (physical_requests c + Z.of_nat entries) (shared_reads c)
    (completed_bytes c) (errors c) (peak_slots c) (Nat.max (peak_outstanding c) n).

(** The end of [run]'s iteration: after a failure everything pending fails and
    the worker leaves, otherwise it drops its batch and goes on. *)
Definition finish_batch (w : World) (b : Batch) (entries : nat) (rs : list Z) : World :=
  let w := set_counters w (count_batch (counters w) (length (jobs b)) entries) in
  let w := foldl (λ w x, finish_job w x.1 x.2) w (zip (jobs b) rs) in
  match failed w with
  | Some e => set_worker (fail_pending w e) Exited
  | None => set_worker w Waiting
  end.

(** The end of an attempt, when every entry has returned. *)
Definition all_returned (l : list (option Z)) : option (list Z) := mapM id l.
Definition finish_attempt (w : World) : option World :=
  match worker w with
  | Executing b =>
      rs ← all_returned (returned b);
      let entries := (issued b + length (remaining b))%nat in
      let s := classify (job_of w <$> jobs b) (zip (remaining b) rs)
                 (mkRound (completed b) (results b) [] false) in
      if rd_failed s || bool_decide (rd_retry s = [])
      then Some (finish_batch w b entries (rd_results s))
      else Some (set_worker w (Executing (mkBatch (jobs b) (rd_completed s) (rd_results s) (rd_retry s)
                   (replicate (length (rd_retry s)) None) entries)))
  | _ => None
  end.

(** A failing [execute_batch], before or after its entries were [dispatched]:
    the batch and everything pending fail. *)
Definition fail_batch (w : World) (dispatched : bool) (e : Error) : option World :=
  match worker w with
  | Executing b =>
      let entries := (issued b + if dispatched then length (remaining b) else 0)%nat in
      let w := set_counters w (count_batch (counters w) (length (jobs b)) entries) in
      let w := fail_all (set_state w (pending w) true (Some e)) (jobs b ++ pending w) e in
      Some (set_worker (set_state w [] (stop w) (failed w)) Exited)
  | _ => None
  end.

(** ** Tickets and leases *)

(** [ReadTicket::is_complete]; [wait_timeout] once its wait has ended. *)
Definition is_complete (w : World) (id : nat) : bool :=
  match requests w !! id with Some r => bool_decide (is_Some (outcome r)) | None => false end.
Definition wait_timeout (w : World) (id : nat) : World * Result (option nat) :=
  match requests w !! id ≫= outcome with
  | None => (w, Ok None)
  | Some (Err e) => (w, Err (Execution e))
  | Some (Ok _) => (set_tickets w (id :: tickets w), Ok (Some id))
  end.
(** [ReadLease::offset], [ReadLease::read]. *)
Definition lease_offset (w : World) (r : Request) : Z :=
  Z.of_nat (slot r) * slot_bytes w + p_skip (phys r).
Definition lease_read (read_ok : Result unit) (w : World) (id : nat) (n : Z) : Result (list Z) :=
  match requests w !! id with
  | None => Err (Message "storage readback length mismatch")
  | Some r =>
      if n =? bytes (extent r)
      then let? _ := read_ok in
           Ok ((λ k, payload w (lease_offset w r + Z.of_nat k)) <$> seq 0 (Z.to_nat n))
      else Err (Message "storage readback length mismatch")
  end.

(** ** Stream transfers *)

(** Dropping the lease at a position of [tickets]. *)
Definition drop_lease (w : World) (i : nat) : World := set_tickets w (delete i (tickets w)).

(** [ReadLease::enqueue] with the lease at position [i]: the stream's domain,
    the outcome of slicing the payload, of the submission with its event, and
    of the synchronization after a failed submission.  A transfer keeps the
    lease; a failed synchronization leaks it. *)
Definition lease_enqueue (same_domain : bool) (sliced submitted synchronized : Result unit) (w : World) (i : nat)
    : World * Result nat :=
  if negb same_domain then (drop_lease w i, Err (Message "storage and stream belong to different native domains"))
  else
    match sliced with
    | Err e => (drop_lease w i, Err e)
    | Ok _ =>
        match submitted with
        | Ok _ => (w, Ok i)
        | Err e =>
            match synchronized with
            | Ok _ => (drop_lease w i, Err e)
            | Err failure => (stop_after_failure w failure, Err e)
            end
        end
    end.

(** [StorageTransfer]: its lease until it is released.  [transfer_fail] is
    [StorageTransfer::fail]. *)
Definition transfer_fail (w : World) (t : option nat) (e : Error) : World * Error :=
  match t with
  | Some _ => (stop_after_failure w e, Execution e)
  | None => (w, e)
  end.
Definition transfer_release (w : World) (t : option nat) : World :=
  match t with Some i => drop_lease w i | None => w end.
(** [StorageTransfer::is_complete] and [wait], by the answer of the event. *)
Definition transfer_is_complete (event : Result bool) (w : World) (t : option nat)
    : World * option nat * Result bool :=
  match event with
  | Err e => let (w, e) := transfer_fail w t e in (w, t, Err e)
  | Ok true => (transfer_release w t, None, Ok true)
  | Ok false => (w, t, Ok false)
  end.
Definition transfer_wait (event : Result unit) (w : World) (t : option nat) : World * option nat * Result unit :=
  match event with
  | Err e => let (w, e) := transfer_fail w t e in (w, t, Err e)
  | Ok _ => (transfer_release w t, None, Ok tt)
  end.
(** [Drop for StorageTransfer]: a lease whose event failed is leaked. *)
Definition transfer_drop (event : Result unit) (w : World) (t : option nat) : World :=
  match t with
  | Some _ => (transfer_wait event w t).1.1
  | None => w
  end.

(** ** Moves *)

Definition close (w : World) : World := set_state w (pending w) true (failed w).
Inductive step (w : World) : World → Prop :=
| step_submit write_ok e new w' r :
    (writing e = true → Z.of_nat (length new) = bytes e) → 0 <= offset e → 0 <= bytes e →
    submit write_ok w e new = (w', r) → step w w'
| step_clone id : id ∈ tickets w → step w (set_tickets w (id :: tickets w))
| step_drop i id : tickets w !! i = Some id → step w (set_tickets w (delete i (tickets w)))
| step_take w' : take_batch w = Some w' → step w w'
| step_entry j result moved w' : complete_entry w j result moved = Some w' → step w w'
| step_attempt w' : finish_attempt w = Some w' → step w w'
| step_fail dispatched e w' : fail_batch w dispatched e = Some w' → step w w'
| step_transfer_failed e : step w (stop_after_failure w e)
| step_close : step w (close w).

Record initial (w : World) : Prop := {
  initial_slot_bytes : 0 < slot_bytes w;
  initial_files : Forall (λ f, 0 <= size f ∧ ∃ k, 0 <= k <= 63 ∧ alignment f = 2 ^ k) (files w);
  initial_requests : requests w = [];
  initial_tickets : tickets w = [];
  initial_pending : pending w = [];
  initial_slots : Forall (λ s, s = None) (slots w);
  initial_state : stop w = false ∧ failed w = None ∧ worker w = Waiting;
  initial_counters : counters w = mkCounters 0 0 0 0 0 0 0 }.
Definition reachable (w : World) : Prop := ∃ w0, initial w0 ∧ rtc step w0 w.
End Storage.
