(* ===== verification/StorageTheorems.v ===== *)
(** * Storage sessions: theorems

    Physical extents cover exactly what they must, the retry loop of a batch
    ends, and in every reachable session, under every interleaving of
    admissions, tickets, kernel transfers and failures: retained requests own
    distinct slots and never conflict, a completed read holds the file's bytes
    and a completed write has reached the file for as long as it is retained,
    every accepted request is answered, and the error counter is exact. *)

From S2P Require Import Prelude Storage.
Import Storage.
Local Open Scope Z_scope.

Module StorageTheorems.

(** ** Extents *)

Lemma storage_land_mask x k : 0 <= k → Z.land x (2 ^ k - 1) = x mod 2 ^ k.
Proof. intros Hk. rewrite <-Z.land_ones by done. f_equal. by rewrite Z.ones_equiv, Z.sub_1_r. Qed.

(** What a physical extent is of its logical one. *)
Record covers (e : Extent) (p : Physical) (capacity : Z) : Prop := {
  cv_bytes : 0 < bytes e;
  cv_start : 0 <= p_offset p ∧ p_offset p + p_skip p = offset e;
  cv_skip : 0 <= p_skip p;
  cv_end : p_skip p + bytes e <= p_bytes p;
  cv_capacity : p_bytes p <= capacity;
  cv_write : writing e = true → p_skip p = 0 ∧ p_bytes p = bytes e }.

(** A physical extent is the least aligned one around the logical extent: it
    starts and ends on the file's alignment, contains the logical extent with
    less than one alignment of padding on either side, fits the slot, and is
    the logical extent itself for a write; a read lies within the file. *)
Theorem physical_is_least_aligned_cover e size a k capacity p :
  physical e size a capacity = Ok p → a = 2 ^ k → 0 <= k <= 63 → 0 <= offset e → 0 <= bytes e →
  covers e p capacity ∧ p_offset p mod a = 0 ∧ p_bytes p mod a = 0 ∧ p_skip p < a ∧
  p_bytes p < p_skip p + bytes e + a ∧ (writing e = false → offset e + bytes e <= size).
Proof.
  intros H -> Hk Ho Hb. revert H. unfold physical.
  destruct (checked_add (offset e) (bytes e)) as [stop|] eqn:E1; [|done]. apply checked_add_Some in E1 as [-> Hmax].
  destruct (_ || _) eqn:E2; [done|]. to_prop. destruct (writing e && _) eqn:E3; [done|].
  destruct (checked_add _ (2 ^ k - 1)) as [padded|] eqn:E4; [|done]. apply checked_add_Some in E4 as [-> Hpad].
  destruct (capacity <? _) eqn:E5; [done|]. intros [= <-]. to_prop.
  pose proof (Z.pow_pos_nonneg 2 k ltac:(lia) ltac:(lia)) as Hpow.
  assert (2 ^ k <= usize_max) as Hu by (unfold usize_max; assert (2 ^ k <= 2 ^ 63) by (apply Z.pow_le_mono_r; lia); lia).
  rewrite !clear_mask_spec in * by lia. cbn [p_offset p_bytes p_skip].
  set (x := offset e) in *. set (n := bytes e) in *. set (m := 2 ^ k) in *.
  pose proof (Z.div_mod x m ltac:(lia)) as Hx. pose proof (Z.mod_pos_bound x m Hpow) as Hxm.
  pose proof (Z.div_mod (x + n + (m - 1)) m ltac:(lia)) as Hy. pose proof (Z.mod_pos_bound (x + n + (m - 1)) m Hpow) as Hym.
  assert (writing e = true → x mod m = 0 ∧ n mod m = 0) as Hw.
  { intros Hw. rewrite Hw in E3. destruct E3 as [?|E3]; [done|]. to_prop. subst m x n. rewrite !storage_land_mask in * by lia. by split. }
  assert (writing e = true → x - x / m * m = 0 ∧ (x + n + (m - 1)) / m * m - x / m * m = n) as Hwr.
  { intros Hw'. destruct (Hw Hw') as [Hx0 Hn0]. pose proof (Z.div_mod n m ltac:(lia)) as Hn. split; [lia|].
    assert ((x + n + (m - 1)) / m = x / m + n / m) as ->; [|lia].
    symmetry. apply (Z.div_unique_pos _ _ _ (m - 1)); lia. }
  assert (0 <= x / m) by (apply Z.div_pos; lia).
  split_and!; [constructor; cbn [p_offset p_bytes p_skip]; fold x n; try done; try nia|..].
  - apply Z.mod_mul. lia.
  - rewrite <-Z.mul_sub_distr_r. apply Z.mod_mul. lia.
  - lia.
  - lia.
  - intros Hw'. rewrite Hw' in *. destruct H0 as [?|?]; [done|]. to_prop. lia.
Qed.

(** ** The retry loop *)

Lemma classify_one_length job i r s :
  length (rd_completed (classify_one job i r s)) = length (rd_completed s) ∧
  length (rd_results (classify_one job i r s)) = length (rd_results s).
Proof.
  unfold classify_one. repeat case_match; cbn [rd_completed rd_results]; rewrite ?length_insert; done.
Qed.

Lemma classify_length js l s :
  length (rd_completed (classify js l s)) = length (rd_completed s) ∧
  length (rd_results (classify js l s)) = length (rd_results s).
Proof.
  revert s. induction l as [|[i r] l IH]; intros s; [done|]. cbn [classify]. destruct (js !! i) as [job|]; [|apply IH].
  destruct (IH (classify_one job i r s)) as [-> ->]. apply classify_one_length.
Qed.

Lemma classify_one_other job i r s j :
  i ≠ j → rd_completed (classify_one job i r s) !! j = rd_completed s !! j ∧
    rd_results (classify_one job i r s) !! j = rd_results s !! j.
Proof.
  intros Hne. unfold classify_one. repeat case_match; cbn [rd_completed rd_results];
    by rewrite ?list_lookup_insert_ne by done.
Qed.

(** A job outside the attempt keeps its bytes and its result. *)
Lemma classify_other js l s i :
  i ∉ l.*1 → rd_completed (classify js l s) !! i = rd_completed s !! i ∧
    rd_results (classify js l s) !! i = rd_results s !! i.
Proof.
  revert s. induction l as [|[j r] l IH]; intros s Hin; [done|]. cbn [classify].
  rewrite fmap_cons, not_elem_of_cons in Hin. destruct Hin as [Hne Hin].
  destruct (js !! j) as [job|]; [|by apply IH]. destruct (IH (classify_one job j r s) Hin) as [-> ->].
  by apply classify_one_other.
Qed.

Lemma classify_one_at job i r s c v :
  rd_completed s !! i = Some c → rd_results s !! i = Some v →
  rd_completed (classify_one job i r s) !! i = Some (c + Z.max 0 r) ∧
  ∃ v', rd_results (classify_one job i r s) !! i = Some v' ∧ (0 <= v' → v' = c + r ∧ 0 <= r).
Proof.
  intros Hc Hv. pose proof (lookup_lt_Some _ _ _ Hc) as Hlc. pose proof (lookup_lt_Some _ _ _ Hv) as Hlv.
  unfold classify_one. rewrite Hc. cbn [default]. destruct (r <? 0) eqn:E; to_prop; cbn [rd_completed rd_results].
  - rewrite Hc, Z.max_l, Z.add_0_r, list_lookup_insert_eq by lia. split; [done|]. exists r. split; [done|lia].
  - rewrite Z.max_r by lia.
    assert (<[i := c + r]> (rd_completed s) !! i = Some (c + r)) as Hc' by (by apply list_lookup_insert_eq).
    assert (<[i := c + r]> (rd_results s) !! i = Some (c + r)) as Hv' by (by apply list_lookup_insert_eq).
    destruct (_ <=? _); [cbn [rd_completed rd_results]; split; [done|]; exists (c + r); done|].
    destruct (_ || _); cbn [rd_completed rd_results]; (split; [done|]); [|exists (c + r); done].
    destruct (job_writing job); [|exists (c + r); done]. exists (- EIO).
    rewrite list_lookup_insert_eq by (by rewrite length_insert). split; [done|]. unfold EIO. lia.
Qed.

(** A job of the attempt: its bytes grow by what was returned, and a result
    that is no error is the number of bytes it has. *)
Lemma classify_at js l s i r job c v :
  NoDup l.*1 → (i, r) ∈ l → js !! i = Some job → rd_completed s !! i = Some c → rd_results s !! i = Some v →
  rd_completed (classify js l s) !! i = Some (c + Z.max 0 r) ∧
  ∃ v', rd_results (classify js l s) !! i = Some v' ∧ (0 <= v' → v' = c + r ∧ 0 <= r).
Proof.
  revert s v. induction l as [|[j q] l IH]; intros s v Hnd Hin Hjob Hc Hv; [by apply elem_of_nil in Hin|].
  rewrite fmap_cons in Hnd. apply NoDup_cons in Hnd as [Hj Hnd]. cbn [classify].
  apply elem_of_cons in Hin as [[= <- <-]|Hin].
  - rewrite Hjob. destruct (classify_other js l (classify_one job i r s) i Hj) as [-> ->]. by eapply classify_one_at.
  - assert (i ≠ j) as Hne. { intros ->. apply Hj. apply list_elem_of_fmap. by exists (j, r). }
    destruct (js !! j) as [job'|]; [|by eapply IH].
    destruct (classify_one_other job' j q s i ltac:(done)) as [E1 E2].
    eapply IH; [done|done|done|by rewrite E1|by rewrite E2].
Qed.

(** The jobs retried are jobs of the attempt that made progress. *)
Lemma classify_retry js l s :
  ∃ m, rd_retry (classify js l s) = rd_retry s ++ m ∧ m `sublist_of` l.*1 ∧
    ∀ i, i ∈ m → ∃ r, (i, r) ∈ l ∧ 0 < r.
Proof.
  revert s. induction l as [|[j q] l IH]; intros s.
  { exists []. cbn. rewrite app_nil_r. split_and!; [done|done|set_solver]. }
  cbn [classify]. rewrite fmap_cons. destruct (js !! j) as [job|].
  2: { destruct (IH s) as (m & -> & Hm & Hp). exists m. split_and!; [done|by apply sublist_cons|].
       intros i Hi. destruct (Hp i Hi) as (r & ? & ?). exists r. split; [by right|done]. }
  destruct (IH (classify_one job j q s)) as (m & -> & Hm & Hp).
  assert (rd_retry (classify_one job j q s) = rd_retry s ∨
    (rd_retry (classify_one job j q s) = rd_retry s ++ [j] ∧ 0 < q)) as [->|[-> Hq]].
  { unfold classify_one. destruct (q <? 0) eqn:E1; [by left|]. destruct (_ <=? _); [by left|].
    destruct (_ || _) eqn:E2; [by left|]. right. to_prop. split; [done|lia]. }
  - exists m. split_and!; [done|by apply sublist_cons|].
    intros i Hi. destruct (Hp i Hi) as (r & ? & ?). exists r. split; [by right|done].
  - exists (j :: m). rewrite <-app_assoc. split_and!; [done|by apply sublist_skip|].
    intros i Hi. apply elem_of_cons in Hi as [->|Hi]; [exists q; split; [by left|done]|].
    destruct (Hp i Hi) as (r & ? & ?). exists r. split; [by right|done].
Qed.

(** The bytes left to some jobs. *)
Definition left_bytes (limits completed : list Z) (l : list nat) : Z :=
  zsum (λ i, default 0 (limits !! i) - default 0 (completed !! i)) l.

Lemma left_bytes_decreases limits before after l m :
  m `sublist_of` l →
  (∀ i, i ∈ l → default 0 (before !! i) <= default 0 (limits !! i)) →
  (∀ i, i ∈ m → default 0 (before !! i) < default 0 (after !! i)) →
  left_bytes limits after m + Z.of_nat (length m) <= left_bytes limits before l.
Proof.
  unfold left_bytes. induction 1 as [|x m l _ IH|x m l _ IH]; intros Hb Hlt; cbn [length]; [done|..]; rewrite ?zsum_cons.
  - specialize (IH ltac:(set_solver) ltac:(set_solver)). specialize (Hlt x ltac:(set_solver)). lia.
  - specialize (IH ltac:(set_solver) ltac:(set_solver)). specialize (Hb x ltac:(set_solver)). lia.
Qed.

(** The retry loop ends: when the kernel answers every entry with at most the
    bytes left of it, [Worker::execute] returns within as many attempts as
    there are bytes to move, plus one. *)
Theorem retries_end fuel kernel js limits completed results remaining :
  (∀ n l rs, kernel n l = Ok rs → length rs = length l ∧
     ∀ j i c r, l !! j = Some (i, c) → rs !! j = Some r → r <= default 0 (limits !! i) - c) →
  length completed = length js → length results = length js → NoDup remaining →
  (∀ i, i ∈ remaining → (i < length js)%nat ∧ default 0 (completed !! i) <= default 0 (limits !! i)) →
  left_bytes limits completed remaining < Z.of_nat fuel →
  is_Some (execute fuel kernel js completed results remaining).
Proof.
  intros Hk. revert completed results remaining. induction fuel as [|fuel IH]; intros completed results remaining Hlc Hlr Hnd Hin Hfuel.
  { exfalso. assert (0 <= left_bytes limits completed remaining); [|lia].
    apply zsum_nonneg, Forall_forall. intros i Hi. destruct (Hin i Hi). lia. }
  destruct remaining as [|i0 rem]; [by eexists|]. cbn [execute]. set (remaining := i0 :: rem) in *.
  destruct (kernel fuel _) as [rs|e] eqn:E; [|by eexists]. apply Hk in E as [Hlen Hle]. rewrite length_fmap in Hlen.
  set (s := classify js _ _). destruct (rd_failed s); [by eexists|].
  destruct (classify_length js (zip remaining rs) (mkRound completed results [] false)) as [L1 L2].
  destruct (classify_retry js (zip remaining rs) (mkRound completed results [] false)) as (m & Em & Hsub & Hpos).
  fold s in L1, L2, Em. cbn [rd_completed rd_results rd_retry] in L1, L2, Em. rewrite app_nil_l in Em. rewrite Em.
  assert ((zip remaining rs).*1 = remaining) as Hfst by (apply fst_zip; lia). rewrite Hfst in Hsub.
  assert (∀ i, i ∈ m → default 0 (completed !! i) < default 0 (rd_completed s !! i) <= default 0 (limits !! i)) as Hprog.
  { intros i Hi. destruct (Hpos i Hi) as (r & Hir & Hr). apply list_elem_of_lookup_1 in Hir as [j Hj].
    apply lookup_zip_with_Some in Hj as (i' & r' & [= <- <-] & Hj1 & Hj2).
    destruct (Hin i) as [Hlt _]; [by eapply list_elem_of_lookup_2|].
    destruct (lookup_lt_is_Some_2 js i Hlt) as [job Hjob].
    destruct (lookup_lt_is_Some_2 completed i ltac:(lia)) as [c Hc]. destruct (lookup_lt_is_Some_2 results i ltac:(lia)) as [v Hv].
    destruct (classify_at js (zip remaining rs) (mkRound completed results [] false) i r job c v) as [Hat _]; try done.
    { by rewrite Hfst. } { apply list_elem_of_lookup_2 with j. apply lookup_zip_with_Some. by exists i, r. }
    fold s in Hat. rewrite Hat, Hc. simpl. rewrite Z.max_r by lia. split; [lia|].
    specialize (Hle j i c r). rewrite list_lookup_fmap, Hj1 in Hle. cbn in Hle. rewrite Hc in Hle. specialize (Hle eq_refl Hj2). lia. }
  pose proof (left_bytes_decreases limits completed (rd_completed s) remaining m Hsub) as Hdec.
  destruct m as [|i1 m']; [destruct fuel; by eexists|].
  apply IH; [lia|lia|by eapply sublist_NoDup| |].
  - intros i Hi. split; [|by apply Hprog]. apply Hin. by eapply elem_of_sublist.
  - cbn [length] in Hdec. specialize (Hdec ltac:(intros i Hi; by apply Hin) ltac:(intros i Hi; by apply Hprog)). lia.
Qed.

(** ** The invariant *)

Definition live (w : World) (id : nat) : Prop := id ∈ tickets w ++ pending w ++ batch_jobs (worker w).
Definition ident (w : World) (e : Extent) : option (Z * Z) := identity <$> files w !! file e.
Definition address (w : World) (r : Request) (k : Z) : Z := Z.of_nat (slot r) * slot_bytes w + k.

(** The bytes of a write are in its slot. *)
Definition staged (w : World) (r : Request) : Prop :=
  writing (extent r) = true → ∀ k, 0 <= k < bytes (extent r) →
    payload w (address w r k) = default 0 (given r !! Z.to_nat k).
(** The first [c] physical bytes of a request have moved; of the padding of a
    read nothing is said. *)
Definition progress (w : World) (r : Request) (c : Z) : Prop :=
  ∀ f, ident w (extent r) = Some f →
  ∀ k, p_skip (phys r) <= k < p_skip (phys r) + bytes (extent r) → k < c →
    if writing (extent r) then disk w f (p_offset (phys r) + k) = default 0 (given r !! Z.to_nat k)
    else payload w (address w r k) = disk w f (p_offset (phys r) + k).

Record request_ok (w : World) (r : Request) : Prop := {
  rq_covers : covers (extent r) (phys r) (slot_bytes w);
  rq_file : is_Some (ident w (extent r));
  rq_given : writing (extent r) = true → Z.of_nat (length (given r)) = bytes (extent r) }.

Definition failures (l : list Request) : Z := zsum (λ r, if is_failed (outcome r) then 1 else 0) l.
Definition file_ok (f : RegisteredFile) : Prop := 0 <= size f ∧ ∃ k, 0 <= k <= 63 ∧ alignment f = 2 ^ k.

(** Everything but the worker's batch; [open] are the unanswered requests. *)
Record core (w : World) (open : list nat) : Prop := {
  co_slot : 0 < slot_bytes w;
  co_files : Forall file_ok (files w);
  co_request : ∀ id r, requests w !! id = Some r → request_ok w r;
  co_live : ∀ id, live w id → ∃ r, requests w !! id = Some r ∧ slots w !! slot r = Some (Some id);
  co_open : NoDup open ∧ ∀ id r, requests w !! id = Some r → outcome r = None ↔ id ∈ open;
  co_compatible : ∀ a b ra rb, live w a → live w b → a ≠ b → requests w !! a = Some ra → requests w !! b = Some rb →
    ident w (extent ra) = ident w (extent rb) → extents_overlap (extent ra) (extent rb) = true →
    writing (extent ra) = false ∧ writing (extent rb) = false;
  co_staged : ∀ id r, live w id → requests w !! id = Some r → staged w r;
  co_done : ∀ id r n, live w id → requests w !! id = Some r → outcome r = Some (Ok n) →
    progress w r (p_skip (phys r) + bytes (extent r));
  co_errors : errors (counters w) = failures (requests w) }.

Record batch_ok (w : World) (b : Batch) : Prop := {
  bt_completed : length (completed b) = length (jobs b);
  bt_results_length : length (results b) = length (jobs b);
  bt_returned_length : length (returned b) = length (remaining b);
  bt_remaining : NoDup (remaining b) ∧ ∀ i, i ∈ remaining b → (i < length (jobs b))%nat;
  bt_known : ∀ id, id ∈ jobs b → is_Some (requests w !! id);
  bt_progress : ∀ i id r c, jobs b !! i = Some id → requests w !! id = Some r → completed b !! i = Some c →
    0 <= c <= p_bytes (phys r) ∧ progress w r c;
  bt_entry : ∀ j i id r c res, remaining b !! j = Some i → returned b !! j = Some (Some res) →
    jobs b !! i = Some id → requests w !! id = Some r → completed b !! i = Some c →
    c + res <= p_bytes (phys r) ∧ (0 <= res → progress w r (c + res));
  bt_result : ∀ i c v, completed b !! i = Some c → results b !! i = Some v → 0 <= v → v = c }.

Record inv (w : World) : Prop := {
  inv_core : core w (pending w ++ batch_jobs (worker w));
  inv_batch : ∀ b, worker w = Executing b → batch_ok w b;
  inv_failed : is_Some (failed w) → stop w = true;
  inv_exit : worker w = Exited → pending w = [] ∧ stop w = true }.

(** Worlds that agree on what the invariant says of requests. *)
Record agrees (w w' : World) : Prop := {
  ag_slot_bytes : slot_bytes w' = slot_bytes w;
  ag_files : files w' = files w;
  ag_requests : requests w' = requests w;
  ag_slots : slots w' = slots w;
  ag_payload : payload w' = payload w;
  ag_disk : disk w' = disk w;
  ag_errors : errors (counters w') = errors (counters w) }.

Lemma agrees_progress w w' r c : agrees w w' → progress w r c → progress w' r c.
Proof.
  intros [E1 E2 _ _ E3 E4 _] Hp f. unfold ident, address. rewrite E1, E2, E3, E4. apply Hp.
Qed.

Lemma core_agrees w w' open : core w open → agrees w w' → (∀ id, live w' id → live w id) → core w' open.
Proof.
  intros [H1 H2 H3 H4 H5 H6 H7 H8 H9] Ha Hl. pose proof Ha as [E1 E2 E3 E4 E5 E6 E7].
  constructor; unfold ident, staged, address in *; rewrite ?E1, ?E2, ?E3, ?E4, ?E5, ?E6, ?E7; try done.
  - intros id r Hr. destruct (H3 id r Hr) as [A1 A2 A3]. unfold ident in *. constructor; unfold ident; rewrite ?E1, ?E2; done.
  - intros id Hid. apply H4. auto.
  - intros a b ra rb Ha' Hb'. eapply H6; auto.
  - intros id r Hid Hr Hw. eapply H7; eauto.
  - intros id r n Hid Hr Ho. eapply agrees_progress; [done|]. eapply H8; eauto.
Qed.

Lemma core_perm w open open' : core w open → open' ≡ₚ open → core w open'.
Proof.
  intros [H1 H2 H3 H4 [H5 H5'] H6 H7 H8 H9] Hp. constructor; try done.
  split; [by rewrite Hp|]. intros id r Hr. by rewrite Hp, (H5' id r Hr).
Qed.

Lemma batch_agrees w w' b : batch_ok w b → agrees w w' → batch_ok w' b.
Proof.
  intros [B1 B2 B3 B4 B5 B6 B7 B8] Ha. pose proof (ag_requests _ _ Ha) as Er. constructor; rewrite ?Er; try done.
  - intros i id r c Hi Hr Hc. destruct (B6 i id r c Hi Hr Hc). split; [done|by eapply agrees_progress].
  - intros j i id r c res Hj Hret Hi Hr Hc. destruct (B7 j i id r c res Hj Hret Hi Hr Hc) as [? Hp].
    split; [done|]. intros H0. by eapply agrees_progress; [|apply Hp].
Qed.

(** Two retained requests are in different slots. *)
Lemma live_slots_differ w open a b ra rb :
  core w open → live w a → live w b → a ≠ b → requests w !! a = Some ra → requests w !! b = Some rb →
  slot ra ≠ slot rb.
Proof.
  intros Hc Ha Hb Hne Hra Hrb E. destruct (co_live _ _ Hc _ Ha) as (r1 & Hr1 & Hs1).
  destruct (co_live _ _ Hc _ Hb) as (r2 & Hr2 & Hs2). simplify_eq. rewrite E in Hs1. congruence.
Qed.

(** Bytes of one slot are not bytes of another. *)
Lemma slots_disjoint w r r' k k' :
  0 < slot_bytes w → slot r ≠ slot r' → 0 <= k < slot_bytes w → 0 <= k' < slot_bytes w →
  address w r k ≠ address w r' k'.
Proof.
  intros Hs Hne Hk Hk' E. apply Hne. unfold address in E. apply Nat2Z.inj.
  assert (Z.of_nat (slot r) = (Z.of_nat (slot r) * slot_bytes w + k) / slot_bytes w) as ->
    by (rewrite Z.add_comm, Z.div_add, Z.div_small by lia; lia).
  rewrite E, Z.add_comm, Z.div_add, Z.div_small by lia. lia.
Qed.

(** ** Transfers *)

Section Transfer.
Context (w : World) (open : list nat) (id : nat) (r : Request) (f : Z * Z) (c n : Z).
Hypothesis Hcore : core w open.
Hypothesis Hlive : live w id.
Hypothesis Hr : requests w !! id = Some r.
Hypothesis Hf : ident w (extent r) = Some f.
Hypothesis Hc : 0 <= c.
Hypothesis Hn : c + n <= p_bytes (phys r).
Let a := mkAttempt f (p_offset (phys r) + c) (address w r c) (p_bytes (phys r) - c) (writing (extent r)).
Let w' := transfer w a n.

(** Addresses outside the slot, and bytes outside the extent, are untouched. *)
Lemma transfer_payload x :
  writing (extent r) = true ∨ x < address w r c ∨ address w r (c + n) <= x → payload w' x = payload w x.
Proof.
  intros Hx. cbn [w' transfer payload a a_writing]. destruct (writing (extent r)); [done|].
  unfold copy_range. cbn [a a_address]. destruct (_ && _) eqn:E; [|done]. to_prop. unfold address in *.
  destruct Hx as [?|[?|?]]; [done|lia|lia].
Qed.

Lemma transfer_disk g x :
  writing (extent r) = false ∨ g ≠ f ∨ x < p_offset (phys r) + c ∨ p_offset (phys r) + c + n <= x →
  disk w' g x = disk w g x.
Proof.
  intros Hx. cbn [w' transfer disk a a_writing a_file]. destruct (writing (extent r)); [|done].
  case_bool_decide as E; [|done]. subst g. unfold copy_range. cbn [a a_offset]. destruct (_ && _) eqn:E; [|done]. to_prop.
  destruct Hx as [?|[?|[?|?]]]; done || lia.
Qed.

Lemma transfer_address z k : address w' z k = address w z k.
Proof using Type. done. Qed.

Lemma transfer_other j z d :
  live w j → j ≠ id → requests w !! j = Some z → progress w z d → progress w' z d.
Proof.
  intros Hj Hne Hz Hp g Hg k Hk Hd. specialize (Hp g Hg k Hk Hd). rewrite transfer_address.
  destruct (co_request _ _ Hcore _ _ Hz) as [[Zb Zs Zk Ze Zc Zw] _ _].
  destruct (co_request _ _ Hcore _ _ Hr) as [[Rb Rs Rk Re Rc Rw] _ _].
  assert (disk w' g (p_offset (phys z) + k) = disk w g (p_offset (phys z) + k)) as Hdisk.
  { apply transfer_disk. destruct (writing (extent r)) eqn:Ew; [|by left]. right.
    destruct (decide (g = f)) as [->|?]; [right|by left]. destruct (Rw eq_refl) as [Rs0 Rb0].
    destruct (decide (p_offset (phys z) + k < p_offset (phys r) + c)) as [?|H1]; [by left|right].
    destruct (decide (p_offset (phys r) + c + n <= p_offset (phys z) + k)) as [?|H2]; [done|exfalso].
    destruct (co_compatible _ _ Hcore id j r z Hlive Hj ltac:(done) Hr Hz) as [? _]; [by rewrite Hf, <-Hg| |congruence].
    unfold extents_overlap. apply andb_true_iff. split; apply Z.ltb_lt; lia. }
  rewrite Hdisk. destruct (writing (extent z)); [done|]. rewrite <-Hp. apply transfer_payload.
  destruct (writing (extent r)) eqn:Ew; [by left|]. right.
  pose proof (live_slots_differ _ _ _ _ _ _ Hcore Hlive Hj ltac:(done) Hr Hz) as Hs.
  destruct (decide (address w z k < address w r c)) as [?|H1]; [by left|right].
  destruct (decide (address w r (c + n) <= address w z k)) as [?|H2]; [done|exfalso].
  apply (slots_disjoint w r z (address w z k - address w r 0) k (co_slot _ _ Hcore) Hs); unfold address in *; lia.
Qed.

Lemma transfer_staged j z : live w j → requests w !! j = Some z → staged w z → staged w' z.
Proof.
  intros Hj Hz Hs Hw k Hk. rewrite transfer_address, <-(Hs Hw k Hk). apply transfer_payload.
  destruct (writing (extent r)) eqn:Ew; [by left|]. right. destruct (decide (j = id)) as [->|Hne]; [congruence|].
  destruct (co_request _ _ Hcore _ _ Hz) as [[Zb Zs Zk Ze Zc Zw] _ _].
  destruct (co_request _ _ Hcore _ _ Hr) as [[Rb Rs Rk Re Rc Rw] _ _].
  pose proof (live_slots_differ _ _ _ _ _ _ Hcore Hlive Hj ltac:(done) Hr Hz) as Hd.
  destruct (decide (address w z k < address w r c)) as [?|H1]; [by left|right].
  destruct (decide (address w r (c + n) <= address w z k)) as [?|H2]; [done|exfalso].
  apply (slots_disjoint w r z (address w z k - address w r 0) k (co_slot _ _ Hcore) Hd); unfold address in *; lia.
Qed.

(** The request's own progress: what had moved stays, and [n] bytes follow. *)
Lemma transfer_own : progress w r c → progress w' r c.
Proof.
  intros Hp g Hg k Hk Hd. specialize (Hp g Hg k Hk Hd). rewrite transfer_address.
  assert (disk w' g (p_offset (phys r) + k) = disk w g (p_offset (phys r) + k)) as Ed
    by (apply transfer_disk; right; right; left; lia).
  assert (payload w' (address w r k) = payload w (address w r k)) as Ep
    by (apply transfer_payload; right; left; unfold address; lia).
  rewrite Ed, Ep. exact Hp.
Qed.

Lemma transfer_extends : progress w r c → progress w' r (c + n).
Proof.
  intros Hp g Hg k Hk Hd. destruct (decide (k < c)) as [Hlt|Hge]; [by apply transfer_own|].
  rewrite transfer_address. pose proof (co_staged _ _ Hcore _ _ Hlive Hr) as Hst.
  assert (g = f) as -> by (unfold ident in *; cbn in Hg; congruence).
  cbn [w' transfer payload disk a a_writing a_file a_offset a_address]. destruct (writing (extent r)) eqn:E.
  - rewrite bool_decide_true by done. unfold copy_range.
    rewrite (proj2 (andb_true_iff _ _)) by (split; [apply Z.leb_le|apply Z.ltb_lt]; lia).
    destruct (co_request _ _ Hcore _ _ Hr) as [[Rb Rs Rk Re Rc Rw] _ _].
    destruct (Rw E) as [Rs0 _]. rewrite <-(Hst E k ltac:(lia)). f_equal. unfold address. lia.
  - unfold copy_range, address. rewrite (proj2 (andb_true_iff _ _)) by (split; [apply Z.leb_le|apply Z.ltb_lt]; lia).
    f_equal. lia.
Qed.

Lemma transfer_core : outcome r = None → core w' open.
Proof.
  intros Ho. destruct Hcore as [H1 H2 H3 H4 H5 H6 H7 H8 H9]. constructor; try done.
  - intros j z Hz. by destruct (H3 j z Hz).
  - intros j z Hj Hz. apply (transfer_staged j); [done|done|by eapply H7].
  - intros j z m Hj Hz Hm. apply (transfer_other j); [done| |done|by eapply H8].
    intros ->. cbn in Hz. rewrite Hr in Hz. injection Hz as <-. congruence.
Qed.
End Transfer.

Lemma attempt_spec w b i a :
  attempt w b i = Some a → ∃ id r f c, jobs b !! i = Some id ∧ requests w !! id = Some r ∧
    ident w (extent r) = Some f ∧ completed b !! i = Some c ∧
    a = mkAttempt f (p_offset (phys r) + c) (address w r c) (p_bytes (phys r) - c) (writing (extent r)).
Proof.
  unfold attempt. destruct (jobs b !! i) as [id|] eqn:E1; [|done]. cbn [mbind option_bind].
  destruct (requests w !! id) as [r|] eqn:E2; [|done]. cbn [mbind option_bind].
  destruct (files w !! _) as [g|] eqn:E3; [|done]. cbn [mbind option_bind].
  destruct (completed b !! i) as [c|] eqn:E4; [|done]. cbn [mbind option_bind]. intros [= <-].
  exists id, r, (identity g), c. unfold ident. rewrite E3. done.
Qed.

(** A batch's jobs are retained, distinct and unanswered. *)
Lemma batch_job_open w b i id r :
  inv w → worker w = Executing b → jobs b !! i = Some id → requests w !! id = Some r →
  live w id ∧ outcome r = None ∧ ∀ j, jobs b !! j = Some id → j = i.
Proof.
  intros Hinv Hb Hi Hr. destruct (co_open _ _ (inv_core _ Hinv)) as [Hnd Hopen]. rewrite Hb in *. cbn [batch_jobs] in *.
  assert (id ∈ jobs b) as Hin by (by eapply list_elem_of_lookup_2). split_and!.
  - unfold live. rewrite Hb. cbn [batch_jobs]. set_solver.
  - apply (Hopen id r Hr). set_solver.
  - intros j Hj. apply NoDup_app in Hnd as (_ & _ & Hnd). by eapply NoDup_lookup.
Qed.

Lemma complete_entry_inv w j result moved w' :
  inv w → complete_entry w j result moved = Some w' → inv w'.
Proof.
  intros Hinv. unfold complete_entry. destruct (worker w) as [|b|] eqn:Hb; [done| |done].
  destruct (remaining b !! j) as [i|] eqn:Hj; [|done]. cbn [mbind option_bind].
  destruct (returned b !! j) as [[?|]|] eqn:Hret; [done| |done].
  destruct (attempt w b i) as [a|] eqn:Ha; [|done]. cbn [mbind option_bind].
  destruct (_ && _) eqn:E; [|done]. intros [= <-].
  destruct (attempt_spec _ _ _ _ Ha) as (id & r & f & c & Hi & Hr & Hf & Hcc & ->). cbn [a_length] in E. to_prop.
  rename H into Hres, H1 into Hmov, H0 into Heq.
  destruct (batch_job_open _ _ _ _ _ Hinv Hb Hi Hr) as (Hlive & Hout & Huniq).
  destruct (inv_batch _ Hinv b Hb) as [B1 B2 B3 B4 B5 B6 B7 B8].
  destruct (B6 _ _ _ _ Hi Hr Hcc) as [Hc Hprog]. pose proof (inv_core _ Hinv) as Hcore.
  assert (c + moved <= p_bytes (phys r)) as Hfit by lia.
  set (a := mkAttempt _ _ _ _ _). set (b' := mkBatch _ _ _ _ _ _).
  assert (core (transfer w a moved) (pending w ++ batch_jobs (worker w))) as Hcore'.
  { apply (transfer_core w _ id r f c moved); done || lia. }
  assert (∀ i' id' z d, jobs b !! i' = Some id' → requests w !! id' = Some z → i' ≠ i →
    progress w z d → progress (transfer w a moved) z d) as Hother.
  { intros i' id' z d Hi' Hz Hne Hp. destruct (batch_job_open _ _ _ _ _ Hinv Hb Hi' Hz) as (Hl' & _ & _).
    apply (transfer_other w (pending w ++ batch_jobs (worker w)) id r f c moved Hcore Hlive Hr Hf (proj1 Hc) Hfit id'); try done.
    intros ->. by apply Hne, Huniq. }
  constructor.
  - cbn [set_worker transfer pending worker batch_jobs b' jobs]. rewrite Hb in Hcore'. cbn [batch_jobs] in Hcore'.
    eapply core_agrees; [exact Hcore'|done|]. unfold live. cbn. by rewrite Hb.
  - intros b0 [= <-]. constructor; cbn [b' completed results returned remaining jobs]; try done.
    + by rewrite length_insert.
    + intros i' id' z d Hi' Hz Hd. destruct (B6 _ _ _ _ Hi' Hz Hd) as [Hd1 Hd2]. split; [done|].
      destruct (decide (i' = i)) as [->|Hne]; [|by eapply Hother].
      change (requests w !! id' = Some z) in Hz. assert (id' = id) as -> by congruence.
      assert (z = r) as -> by congruence. assert (d = c) as -> by congruence.
      apply (transfer_own w r f c moved); done || lia.
    + intros j' i' id' z d res Hj' Hret' Hi' Hz Hd.
      apply list_lookup_insert_Some in Hret' as [(<- & [= <-] & _)|[Hne Hret']].
      * change (requests w !! id' = Some z) in Hz. assert (i' = i) as -> by congruence.
        assert (id' = id) as -> by congruence.
        assert (z = r) as -> by congruence. assert (d = c) as -> by congruence.
        split; [lia|]. intros H0.
        assert (moved = result) as -> by (destruct Heq; to_prop; lia).
        apply (transfer_extends w (pending w ++ batch_jobs (worker w)) id r f c result); done || lia.
      * assert (i' ≠ i) as Hni. { intros ->. apply Hne. destruct B4 as [Hnd _]. by eapply NoDup_lookup. }
        destruct (B7 _ _ _ _ _ _ Hj' Hret' Hi' Hz Hd) as [? Hp]. split; [done|]. intros H0.
        eapply Hother; [done|done|done|by apply Hp].
  - apply (inv_failed _ Hinv).
  - done.
Qed.

(** ** Answers *)

(** The request with an outcome; everything else of it stays. *)
Definition answer (o : Result Z) (r : Request) : Request :=
  mkRequest (extent r) (phys r) (slot r) (given r) (Some o).

Lemma set_outcome_lookup o id l j r' :
  set_outcome o id l !! j = Some r' →
  (j ≠ id ∧ l !! j = Some r') ∨ (j = id ∧ ∃ r, l !! id = Some r ∧ r' = answer o r).
Proof.
  unfold set_outcome. destruct (decide (j = id)) as [->|Hne].
  - rewrite list_lookup_alter_eq. intros (r & Hr & ->)%fmap_Some. right. split; [done|]. by exists r.
  - rewrite list_lookup_alter_ne by done. by left.
Qed.

Lemma set_outcome_insert o id l r : l !! id = Some r → set_outcome o id l = <[id := answer o r]> l.
Proof.
  intros Hr. unfold set_outcome. apply list_eq. intros j. destruct (decide (j = id)) as [->|Hne].
  - rewrite list_lookup_alter_eq, list_lookup_insert_eq by (by eapply lookup_lt_Some). by rewrite Hr.
  - by rewrite list_lookup_alter_ne, list_lookup_insert_ne by done.
Qed.

Lemma failures_set_outcome o id l r :
  l !! id = Some r → outcome r = None →
  failures (set_outcome o id l) = failures l + (if o is Err _ then 1 else 0).
Proof.
  intros Hr Ho. unfold failures. rewrite (set_outcome_insert _ _ _ _ Hr).
  rewrite (zsum_perm _ l _ (delete_Permutation l id r Hr)).
  rewrite (zsum_perm _ _ _ (insert_Permutation l id r (answer o r) Hr)), !zsum_cons.
  rewrite Ho. cbn [answer outcome is_failed]. destruct o; lia.
Qed.

(** Answering an open request. *)
Lemma answer_core w w' id r open o :
  core w (id :: open) → requests w !! id = Some r →
  (∀ n, o = Ok n → progress w r (p_skip (phys r) + bytes (extent r))) →
  slot_bytes w' = slot_bytes w → (∀ e, ident w' e = ident w e) → Forall file_ok (files w') →
  requests w' = set_outcome o id (requests w) → slots w' = slots w → payload w' = payload w → disk w' = disk w →
  errors (counters w') = errors (counters w) + (if o is Err _ then 1 else 0) →
  (∀ j, live w' j → live w j) → core w' open.
Proof.
  intros [H1 H2 H3 H4 [H5 H5'] H6 H7 H8 H9] Hr Hok E1 E2 Hfiles E3 E4 E5 E6 E7 Hl.
  assert (outcome r = None) as Ho by (apply (H5' id r Hr); by left).
  apply NoDup_cons in H5 as [Hni Hnd].
  assert (∀ j z, requests w' !! j = Some z → ∃ y, requests w !! j = Some y ∧ extent z = extent y ∧ phys z = phys y ∧
    slot z = slot y ∧ given z = given y ∧ ((j ≠ id ∧ z = y) ∨ (j = id ∧ y = r ∧ z = answer o r))) as Hback.
  { intros j z Hz. rewrite E3 in Hz. apply set_outcome_lookup in Hz as [[Hne Hz]|(-> & y & Hy & ->)].
    - exists z. split_and!; try done. by left.
    - exists y. split_and!; try done. right. by simplify_eq. }
  assert (∀ z y c, extent z = extent y → phys z = phys y → slot z = slot y → given z = given y →
    progress w y c → progress w' z c) as Hprog.
  { intros z y c Ee Eph Esl Eg Hp f. unfold address. rewrite E1, E2, E5, E6, Ee, Eph, Esl, Eg. apply Hp. }
  constructor; rewrite ?E1, ?E4, ?E7; try done.
  - intros j z Hz. destruct (Hback _ _ Hz) as (y & Hy & Ee & Eph & Esl & Eg & _). destruct (H3 _ _ Hy) as [A1 A2 A3].
    constructor; rewrite ?E1, ?E2, ?Ee, ?Eph, ?Eg; done.
  - intros j Hj. destruct (H4 _ (Hl _ Hj)) as (y & Hy & Hs). rewrite E3. destruct (decide (j = id)) as [->|Hne].
    + exists (answer o y). unfold set_outcome. by rewrite list_lookup_alter_eq, Hy.
    + exists y. unfold set_outcome. by rewrite list_lookup_alter_ne.
  - split; [done|]. intros j z Hz. destruct (Hback _ _ Hz) as (y & Hy & _ & _ & _ & _ & [[Hne ->]|(-> & -> & ->)]).
    + rewrite (H5' _ _ Hy), elem_of_cons. naive_solver.
    + cbn. split; [done|]. intros Hin. by destruct (Hni Hin).
  - intros a b ra rb Ha Hb Hne Hra Hrb. destruct (Hback _ _ Hra) as (ya & Hya & -> & _). destruct (Hback _ _ Hrb) as (yb & Hyb & -> & _).
    rewrite !E2. intros. eapply (H6 a b ya yb); eauto.
  - intros j z Hj Hz. destruct (Hback _ _ Hz) as (y & Hy & Ee & Eph & Esl & Eg & _). intros Hw k Hk. unfold address.
    rewrite Ee in Hw, Hk. rewrite E1, E5, Esl, Eg. exact (H7 _ _ (Hl _ Hj) Hy Hw k Hk).
  - intros j z n Hj Hz Hn. destruct (Hback _ _ Hz) as (y & Hy & Ee & Eph & Esl & Eg & Hcase). rewrite Eph, Ee. eapply Hprog; try done.
    destruct Hcase as [[Hne ->]|(-> & -> & ->)]; [by eapply H8; eauto|]. cbn in Hn. injection Hn as ->. by eapply Hok.
  - rewrite E3, (failures_set_outcome _ _ _ _ Hr Ho), H9. done.
Qed.

(** Failing requests one after the other. *)
Definition fail_one (w : World) (id : nat) (e : Error) : World :=
  set_counters (set_requests w (set_outcome (Err e) id (requests w))) (count_errors (counters w) 1).

Lemma fail_all_cons w id l e : fail_all w (id :: l) e = fail_all (fail_one w id e) l e.
Proof.
  unfold fail_all, fail_one, set_counters, set_requests, count_errors. cbn. f_equal. f_equal. lia.
Qed.

Lemma fail_all_core l w open e :
  core w (l ++ open) → (∀ id, id ∈ l → is_Some (requests w !! id)) → core (fail_all w l e) open.
Proof.
  revert w. induction l as [|id l IH]; intros w Hc Hk.
  - eapply core_agrees; [exact Hc| |done]. constructor; try done. cbn. lia.
  - rewrite fail_all_cons. destruct (Hk id ltac:(set_solver)) as [r Hr]. apply IH.
    + eapply (answer_core w _ id r _ (Err e)); try done; apply Hc.
    + intros j Hj. destruct (Hk j ltac:(set_solver)) as [y Hy]. cbn. unfold set_outcome.
      destruct (decide (j = id)) as [->|Hne]; [rewrite list_lookup_alter_eq, Hr; eauto|rewrite list_lookup_alter_ne, Hy by done; eauto].
Qed.

(** Worlds that differ in outcomes, sizes, counters and queues only. *)
Record answers (w w' : World) : Prop := {
  an_slot_bytes : slot_bytes w' = slot_bytes w;
  an_ident : ∀ e, ident w' e = ident w e;
  an_payload : payload w' = payload w;
  an_disk : disk w' = disk w;
  an_back : ∀ j z, requests w' !! j = Some z → ∃ y, requests w !! j = Some y ∧ extent z = extent y ∧
    phys z = phys y ∧ slot z = slot y ∧ given z = given y;
  an_forth : ∀ j, is_Some (requests w !! j) → is_Some (requests w' !! j) }.

Lemma answers_refl w w' :
  slot_bytes w' = slot_bytes w → files w' = files w → payload w' = payload w → disk w' = disk w →
  requests w' = requests w → answers w w'.
Proof.
  intros E1 E2 E3 E4 E5. constructor; try done; [intros e; unfold ident; by rewrite E2|..]; rewrite E5; [|done].
  intros j z Hz. by exists z.
Qed.

Lemma answers_trans w1 w2 w3 : answers w1 w2 → answers w2 w3 → answers w1 w3.
Proof.
  intros [A1 A2 A3 A4 A5 A6] [B1 B2 B3 B4 B5 B6]. constructor; try congruence; [|auto].
  intros j z Hz. destruct (B5 _ _ Hz) as (y & Hy & ? & ? & ? & ?). destruct (A5 _ _ Hy) as (x & Hx & ? & ? & ? & ?).
  exists x. split_and!; congruence.
Qed.

Lemma answers_progress w w' z y c :
  answers w w' → extent z = extent y → phys z = phys y → slot z = slot y → given z = given y →
  progress w y c → progress w' z c.
Proof.
  intros [A1 A2 A3 A4 _ _] Ee Eph Esl Eg Hp f. unfold address. rewrite A1, A2, A3, A4, Ee, Eph, Esl, Eg. apply Hp.
Qed.

Lemma batch_answers w w' b : batch_ok w b → answers w w' → batch_ok w' b.
Proof.
  intros [B1 B2 B3 B4 B5 B6 B7 B8] Ha. pose proof (an_back _ _ Ha) as Hback. constructor; try done.
  - intros id Hid. apply (an_forth _ _ Ha). auto.
  - intros i id z c Hi Hz Hc. destruct (Hback _ _ Hz) as (y & Hy & Ee & Eph & Esl & Eg). rewrite Eph.
    destruct (B6 i id y c Hi Hy Hc). split; [done|]. by eapply answers_progress.
  - intros j i id z c res Hj Hret Hi Hz Hc. destruct (Hback _ _ Hz) as (y & Hy & Ee & Eph & Esl & Eg). rewrite Eph.
    destruct (B7 j i id y c res Hj Hret Hi Hy Hc) as [? Hp]. split; [done|]. intros H0. eapply answers_progress; eauto.
Qed.

Lemma set_outcome_answers w w' o id :
  slot_bytes w' = slot_bytes w → (∀ e, ident w' e = ident w e) → payload w' = payload w → disk w' = disk w →
  requests w' = set_outcome o id (requests w) → answers w w'.
Proof.
  intros E1 E2 E3 E4 E5. constructor; try done; rewrite E5.
  - intros j z Hz. apply set_outcome_lookup in Hz as [[Hne Hz]|(-> & y & Hy & ->)]; [exists z|exists y]; done.
  - intros j [y Hy]. destruct (decide (j = id)) as [->|Hne]; unfold set_outcome.
    + rewrite list_lookup_alter_eq, Hy. eauto.
    + rewrite list_lookup_alter_ne, Hy by done. eauto.
Qed.

Lemma fail_all_answers l w e : answers w (fail_all w l e).
Proof.
  revert w. induction l as [|id l IH]; intros w; [by apply answers_refl|]. rewrite fail_all_cons.
  eapply answers_trans; [|apply IH]. by eapply set_outcome_answers.
Qed.

Lemma open_known w id : inv w → id ∈ pending w ++ batch_jobs (worker w) → is_Some (requests w !! id).
Proof.
  intros Hinv Hin. destruct (co_live _ _ (inv_core _ Hinv) id) as (r & Hr & _); [|eauto].
  unfold live. set_solver.
Qed.

(** ** Failures *)

Lemma stop_after_failure_inv w e : inv w → inv (stop_after_failure w e).
Proof.
  intros Hinv. unfold stop_after_failure, fail_pending. set (w1 := set_state w (pending w) true _).
  assert (answers w (fail_all w1 (pending w1) e)) as Ha.
  { eapply answers_trans; [|apply fail_all_answers]. by apply answers_refl. }
  constructor.
  - cbn [set_state pending worker fail_all set_counters set_requests]. rewrite app_nil_l.
    assert (core (fail_all w1 (pending w1) e) (batch_jobs (worker w))) as Hc.
    { apply fail_all_core.
      - eapply core_agrees; [apply (inv_core _ Hinv)|done|done].
      - intros id Hin. apply (open_known w); [done|]. set_solver. }
    eapply core_agrees; [exact Hc|done|]. intros id. unfold live. cbn. set_solver.
  - intros b Hb. eapply batch_answers; [by apply (inv_batch _ Hinv)|].
    eapply answers_trans; [exact Ha|]. by apply answers_refl.
  - done.
  - by split.
Qed.

Lemma fail_batch_inv w dispatched e w' : inv w → fail_batch w dispatched e = Some w' → inv w'.
Proof.
  intros Hinv. unfold fail_batch. destruct (worker w) as [|b|] eqn:Hb; [done| |done]. intros [= <-].
  set (w1 := set_counters w _). set (w2 := set_state w1 _ true _).
  assert (core (fail_all w2 (jobs b ++ pending w1) e) []) as Hc.
  { apply fail_all_core.
    - rewrite app_nil_r. pose proof (inv_core _ Hinv) as Hc. rewrite Hb in Hc. cbn [batch_jobs] in Hc.
      eapply core_agrees; [exact (core_perm _ _ _ Hc (Permutation_app_comm _ _))|done|done].
    - intros id Hin. apply (open_known w); [done|]. rewrite Hb. cbn [batch_jobs]. cbn in Hin. set_solver. }
  constructor; [|done|done|done].
  eapply core_agrees; [exact Hc|done|]. intros id. unfold live. cbn. set_solver.
Qed.

(** ** Finishing a batch *)

Lemma progress_le w r c d : progress w r c → d <= c → progress w r d.
Proof. intros Hp Hd f Hf k Hk Hlt. apply Hp; [done|done|lia]. Qed.

Lemma extend_files_ident fs e w w' :
  files w = fs → files w' = extend_files fs e → ∀ x, ident w' x = ident w x.
Proof.
  intros E1 E2 x. unfold ident. rewrite E1, E2. unfold extend_files. destruct (fs !! file e) as [f|]; [|done].
  rewrite list_lookup_fmap. destruct (fs !! file x) as [g|]; [|done]. cbn. by case_bool_decide.
Qed.

Lemma extend_files_ok fs e : Forall file_ok fs → Forall file_ok (extend_files fs e).
Proof.
  intros Hall. unfold extend_files. destruct (fs !! file e) as [f|]; [|done].
  apply Forall_fmap. eapply Forall_impl; [exact Hall|]. intros g [Hs Ha]. cbn. case_bool_decide; [|by split].
  split; [cbn; lia|done].
Qed.

(** What publishing one result keeps. *)
Record finishes (w w' : World) : Prop := {
  fi_answers : answers w w';
  fi_slots : slots w' = slots w;
  fi_queues : tickets w' = tickets w ∧ pending w' = pending w ∧ worker w' = worker w;
  fi_failed : (is_Some (failed w) → stop w = true) → is_Some (failed w') → stop w' = true }.

Lemma finish_job_spec w id res r open :
  core w (id :: open) → requests w !! id = Some r →
  (∀ n, job_outcome r res = Ok n → progress w r (p_skip (phys r) + bytes (extent r))) →
  core (finish_job w id res) open ∧ finishes w (finish_job w id res).
Proof.
  intros Hc Hr Hok. unfold finish_job. rewrite Hr. destruct (job_outcome r res) as [n|e] eqn:Eo.
  - destruct (writing (extent r)).
    + split.
      * eapply (answer_core w _ id r open (Ok n)); try done.
        { by eapply extend_files_ident. } { apply extend_files_ok, Hc. } { cbn. lia. }
      * constructor; try done. eapply (set_outcome_answers _ _ (Ok n)); try done. by eapply extend_files_ident.
    + split.
      * eapply (answer_core w _ id r open (Ok n)); try done; [apply Hc|cbn; lia].
      * constructor; try done. by eapply (set_outcome_answers _ _ (Ok n)).
  - split.
    + eapply (answer_core w _ id r open (Err e)); try done. apply Hc.
    + constructor; try done. by eapply (set_outcome_answers _ _ (Err e)).
Qed.

Lemma finishes_trans w1 w2 w3 : finishes w1 w2 → finishes w2 w3 → finishes w1 w3.
Proof.
  intros [A1 A2 (A3 & A4 & A5) A6] [B1 B2 (B3 & B4 & B5) B6].
  constructor; [by eapply answers_trans|congruence|split_and!; congruence|auto].
Qed.

Lemma finish_jobs_spec l w open :
  core w (l.*1 ++ open) →
  (∀ id res, (id, res) ∈ l → ∃ r, requests w !! id = Some r ∧
     ∀ n, job_outcome r res = Ok n → progress w r (p_skip (phys r) + bytes (extent r))) →
  core (foldl (λ w x, finish_job w x.1 x.2) w l) open ∧ finishes w (foldl (λ w x, finish_job w x.1 x.2) w l).
Proof.
  revert w. induction l as [|[id res] l IH]; intros w Hc Hl; cbn [foldl].
  { split; [done|]. constructor; try done. by apply answers_refl. }
  destruct (Hl id res ltac:(set_solver)) as (r & Hr & Hok).
  destruct (finish_job_spec w id res r (l.*1 ++ open) Hc Hr Hok) as [Hc1 Hf1].
  destruct (IH (finish_job w id res) Hc1) as [Hc2 Hf2].
  - intros j q Hj. destruct (Hl j q ltac:(set_solver)) as (y & Hy & Hq).
    destruct (an_forth _ _ (fi_answers _ _ Hf1) j) as [z Hz]; [eauto|].
    destruct (an_back _ _ (fi_answers _ _ Hf1) _ _ Hz) as (y' & Hy' & Ee & Eph & Esl & Eg). simplify_eq.
    exists z. split; [done|]. intros n Hn. rewrite Eph, Ee. eapply answers_progress; [apply Hf1|done..|].
    apply (Hq n). by unfold job_outcome in *; rewrite <-Eph, <-Ee.
  - split; [done|]. by eapply finishes_trans.
Qed.

(** The state of every job after an attempt. *)
Lemma classified w b rs i id r :
  batch_ok w b → all_returned (returned b) = Some rs → jobs b !! i = Some id → requests w !! id = Some r →
  let s := classify (job_of w <$> jobs b) (zip (remaining b) rs) (mkRound (completed b) (results b) [] false) in
  ∃ c v, rd_completed s !! i = Some c ∧ rd_results s !! i = Some v ∧ 0 <= c <= p_bytes (phys r) ∧
    progress w r c ∧ (0 <= v → v = c).
Proof.
  intros [B1 B2 B3 B4 B5 B6 B7 B8] Hrs Hi Hr. cbv zeta. apply mapM_Some in Hrs.
  pose proof (Forall2_length _ _ _ Hrs) as Hlen. pose proof (lookup_lt_Some _ _ _ Hi) as Hlt.
  assert ((zip (remaining b) rs).*1 = remaining b) as Hfst by (apply fst_zip; lia).
  destruct (lookup_lt_is_Some_2 (completed b) i ltac:(lia)) as [c Hc].
  destruct (lookup_lt_is_Some_2 (results b) i ltac:(lia)) as [v Hv].
  destruct (B6 _ _ _ _ Hi Hr Hc) as [Hcr Hcp].
  destruct (decide (i ∈ remaining b)) as [Hin|Hout].
  - apply list_elem_of_lookup_1 in Hin as [j Hj].
    destruct (lookup_lt_is_Some_2 rs j) as [res Hres]; [apply lookup_lt_Some in Hj; lia|].
    destruct (Forall2_lookup_r _ _ _ _ _ Hrs Hres) as (o & Ho & Hoe). cbn in Hoe. subst o.
    destruct (classify_at (job_of w <$> jobs b) (zip (remaining b) rs) (mkRound (completed b) (results b) [] false)
      i res (job_of w id) c v) as (Hc' & v' & Hv' & Hvv); try done.
    { rewrite Hfst. apply B4. } { apply list_elem_of_lookup_2 with j. apply lookup_zip_with_Some. by exists i, res. }
    { by rewrite list_lookup_fmap, Hi. }
    destruct (B7 _ _ _ _ _ _ Hj Ho Hi Hr Hc) as [Hfit Hp].
    exists (c + Z.max 0 res), v'. split_and!; [done|done|lia|lia| |].
    + destruct (decide (0 <= res)); [rewrite Z.max_r by lia; by apply Hp|]. rewrite Z.max_l by lia. by rewrite Z.add_0_r.
    + intros H0. destruct (Hvv H0). lia.
  - destruct (classify_other (job_of w <$> jobs b) (zip (remaining b) rs) (mkRound (completed b) (results b) [] false) i) as [-> ->];
      [by rewrite Hfst|]. exists c, v. split_and!; try done; [lia|lia|]. intros H0. by eapply B8.
Qed.

Lemma finish_batch_inv w b entries rs :
  inv w → worker w = Executing b → length rs = length (jobs b) →
  (∀ i id r v, jobs b !! i = Some id → requests w !! id = Some r → rs !! i = Some v →
     ∃ c, progress w r c ∧ (0 <= v → v = c)) →
  inv (finish_batch w b entries rs).
Proof.
  intros Hinv Hb Hlen Hres. unfold finish_batch. set (w1 := set_counters w _).
  pose proof (inv_core _ Hinv) as Hcore. rewrite Hb in Hcore. cbn [batch_jobs] in Hcore.
  assert ((zip (jobs b) rs).*1 = jobs b) as Hfst by (apply fst_zip; lia).
  destruct (finish_jobs_spec (zip (jobs b) rs) w1 (pending w)) as [Hc2 [Fa Fs (Ft & Fp & Fw) Ff]].
  { rewrite Hfst. eapply core_agrees; [exact (core_perm _ _ _ Hcore (Permutation_app_comm _ _))|done|done]. }
  { intros id v Hin. apply list_elem_of_lookup_1 in Hin as [i Hi]. apply lookup_zip_with_Some in Hi as (id' & v' & [= <- <-] & Hi & Hv).
    destruct (open_known w id Hinv) as [r Hr].
    { rewrite Hb. cbn [batch_jobs]. apply list_elem_of_lookup_2 in Hi. set_solver. }
    exists r. split; [done|]. intros n Hn. destruct (Hres _ _ _ _ Hi Hr Hv) as (c & Hp & Hc).
    assert (progress w1 r c) as Hp1 by exact Hp. apply (progress_le w1 r c); [done|]. revert Hn. unfold job_outcome.
    destruct (v <? 0) eqn:E1; [done|]. destruct (v <? p_skip (phys r) + bytes (extent r)) eqn:E2; [done|]. to_prop. intros _. rewrite <-Hc; lia. }
  set (w2 := foldl _ w1 _) in *. specialize (Ff (inv_failed _ Hinv)).
  destruct (failed w2) as [e|] eqn:Ef.
  - assert (stop w2 = true) as Hstop by (apply Ff; eauto).
    assert (core (fail_all w2 (pending w2) e) []) as Hc3.
    { apply fail_all_core; [by rewrite app_nil_r, Fp|]. intros id Hin. rewrite Fp in Hin. cbn in Hin.
      apply (an_forth _ _ Fa). apply (open_known w); [done|]. set_solver. }
    constructor; [|done|by intros _; exact Hstop|intros _; split; [done|exact Hstop]].
    eapply core_agrees; [exact Hc3|done|]. intros id. unfold live. cbn. set_solver.
  - constructor; [|done|intros [e He]; cbn in He; rewrite Ef in He; done|done].
    cbn [set_worker pending worker batch_jobs]. rewrite app_nil_r, Fp.
    eapply core_agrees; [exact Hc2|done|]. intros id. unfold live. cbn. set_solver.
Qed.

Lemma finish_attempt_inv w w' : inv w → finish_attempt w = Some w' → inv w'.
Proof.
  intros Hinv. unfold finish_attempt. destruct (worker w) as [|b|] eqn:Hb; [done| |done].
  destruct (all_returned (returned b)) as [rs|] eqn:Hrs; [|done]. cbn [mbind option_bind].
  pose proof (inv_batch _ Hinv b Hb) as Hbok. pose proof Hbok as [B1 B2 B3 B4 B5 B6 B7 B8].
  destruct (classify_length (job_of w <$> jobs b) (zip (remaining b) rs) (mkRound (completed b) (results b) [] false)) as [L1 L2].
  pose proof (λ i id r Hi Hr, classified w b rs i id r Hbok Hrs Hi Hr) as Hcl. cbv zeta in Hcl.
  set (s := classify _ _ _) in *. cbn [rd_completed rd_results] in L1, L2.
  destruct (rd_failed s || _) eqn:Efin.
  - intros [= <-]. apply finish_batch_inv; [done|done|lia|].
    intros i id r v Hi Hr Hv. destruct (Hcl i id r Hi Hr) as (c & v' & _ & Hv' & _ & Hp & Hvc).
    rewrite Hv in Hv'. injection Hv' as <-. by exists c.
  - intros [= <-]. destruct (classify_retry (job_of w <$> jobs b) (zip (remaining b) rs) (mkRound (completed b) (results b) [] false))
      as (m & Em & Hsub & _). fold s in Em. cbn [rd_retry] in Em. rewrite app_nil_l in Em. rewrite Em.
    apply mapM_Some in Hrs. pose proof (Forall2_length _ _ _ Hrs) as Hlen. rewrite fst_zip in Hsub by lia.
    constructor; [| |apply (inv_failed _ Hinv)|done].
    + cbn [set_worker pending worker batch_jobs jobs]. pose proof (inv_core _ Hinv) as Hc. rewrite Hb in Hc. cbn [batch_jobs] in Hc.
      eapply core_agrees; [exact Hc|done|]. intros id. unfold live. cbn. by rewrite Hb.
    + intros b' [= <-]. constructor; cbn [jobs completed results remaining returned]; try done; try lia.
      * apply length_replicate.
      * split; [by eapply sublist_NoDup; [apply B4|]|]. intros i Hi. apply B4. by eapply elem_of_sublist.
      * intros i id r c Hi Hr Hc. destruct (Hcl i id r Hi Hr) as (c' & v & Hc' & _ & Hcr & Hp & _).
        rewrite Hc in Hc'. injection Hc' as <-. by split.
      * intros j i id r c res Hj Hret. apply lookup_replicate in Hret as [? _]. done.
      * intros i c v Hc Hv Hv0. destruct (lookup_lt_is_Some_2 (jobs b) i) as [id Hi].
        { apply lookup_lt_Some in Hc. lia. }
        destruct (B5 id) as [r Hr]; [by eapply list_elem_of_lookup_2|].
        destruct (Hcl i id r Hi Hr) as (c' & v' & Hc' & Hv' & _ & _ & Hvc). simplify_eq. auto.
Qed.

Definition first_attempt (l : list nat) : Batch :=
  mkBatch l (replicate (length l) 0) (replicate (length l) 0) (seq 0 (length l)) (replicate (length l) None) 0.

Lemma first_attempt_ok w l :
  (∀ id, id ∈ l → is_Some (requests w !! id)) → (∀ id r, requests w !! id = Some r → request_ok w r) →
  batch_ok w (first_attempt l).
Proof.
  intros Hl Hok. constructor; cbn [first_attempt jobs completed results remaining returned];
    rewrite ?length_replicate, ?length_seq; try done.
  - split; [apply NoDup_seq|]. intros i Hi. apply elem_of_seq in Hi. lia.
  - intros i id r c _ Hr Hcc. apply lookup_replicate in Hcc as [-> _].
    destruct (Hok _ _ Hr) as [[Rb Rs Rk Re Rc Rw] _ _]. split; [lia|]. intros f _ k Hk Hlt. lia.
  - intros j i id r c res _ Hret. apply lookup_replicate in Hret as [? _]. done.
  - intros i c v Hcc Hv _. apply lookup_replicate in Hcc as [-> _]. apply lookup_replicate in Hv as [-> _]. done.
Qed.

Lemma take_batch_inv w w' : inv w → take_batch w = Some w' → inv w'.
Proof.
  intros Hinv Ht. pose proof (inv_core _ Hinv) as Hc.
  assert (worker w = Waiting) as Hw by (unfold take_batch in Ht; by destruct (worker w)).
  rewrite Hw in Hc. cbn [batch_jobs] in Hc. rewrite app_nil_r in Hc.
  assert ((pending w = [] ∧ stop w = true ∧ w' = set_worker w Exited) ∨
    w' = set_worker (set_state w [] (stop w) (failed w)) (Executing (first_attempt (pending w)))) as [(Hp & Hs & ->)| -> ].
  { unfold take_batch in Ht. rewrite Hw in Ht. destruct (pending w); [left|right].
    - destruct (stop w); [|done]. by injection Ht as <-.
    - by injection Ht as <-. }
  - constructor; [|done|done|done]. cbn [set_worker pending worker batch_jobs]. rewrite Hp.
    rewrite Hp in Hc. eapply core_agrees; [exact Hc|done|]. intros id. unfold live. cbn. by rewrite Hw.
  - constructor; [| |apply (inv_failed _ Hinv)|done].
    + cbn [set_worker set_state pending worker batch_jobs jobs first_attempt]. rewrite app_nil_l.
      eapply core_agrees; [exact Hc|done|]. intros id. unfold live. cbn. rewrite Hw. cbn. set_solver.
    + intros b [= <-]. apply (batch_agrees w); [|by constructor]. apply first_attempt_ok; [|apply (co_request _ _ Hc)].
      intros id Hid. apply (open_known w); [done|]. set_solver.
Qed.

(** ** Admission *)

Lemma retained_live w id : is_retained w id = true ↔ live w id.
Proof. unfold is_retained. by rewrite bool_decide_eq_true. Qed.

Lemma upgrade_Some w s id : upgrade w s = Some id ↔ s = Some id ∧ live w id.
Proof.
  unfold upgrade. destruct s as [i|]; cbn; [|naive_solver]. destruct (is_retained w i) eqn:E.
  - apply retained_live in E. naive_solver.
  - split; [done|]. intros [[= ->] Hl%retained_live]. congruence.
Qed.

Lemma scan_share w e l id : scan_retained w e l = Share id → id ∈ l.
Proof.
  induction l as [|j l IH]; cbn [scan_retained]; [done|]. intros H. rewrite elem_of_cons. repeat case_match; naive_solver.
Qed.

Lemma scan_clear w e l id r :
  scan_retained w e l = Clear → id ∈ l → requests w !! id = Some r → same_file w (extent r) e = true →
  (writing e || writing (extent r)) && extents_overlap e (extent r) = false.
Proof.
  induction l as [|j l IH]; cbn [scan_retained]; [intros _ Hin; by apply elem_of_nil in Hin|].
  intros H Hin Hr Hs. apply elem_of_cons in Hin as [->|Hin].
  - rewrite Hr, Hs in H. destruct (negb _ && _ && _ && _ && _); [done|]. by destruct (_ && extents_overlap _ _).
  - apply IH; try done. destruct (requests w !! j); [|done]. repeat case_match; done.
Qed.

Lemma overlaps_sym a b : extents_overlap a b = extents_overlap b a.
Proof. unfold extents_overlap. apply andb_comm. Qed.

Lemma ident_same_file w a b f :
  ident w a = Some f → ident w b = Some f → same_file w a b = true.
Proof.
  unfold ident, same_file. destruct (files w !! file a) as [x|]; [|done]. destruct (files w !! file b) as [y|]; [|done].
  cbn. intros [= <-] [= <-]. by apply bool_decide_true.
Qed.

Section Place.
Context (w : World) (s : nat) (e : Extent) (p : Physical) (new : list Z) (x : option nat) (f : Z * Z).
Hypothesis Hinv : inv w.
Hypothesis Hcov : covers e p (slot_bytes w).
Hypothesis Hfile : ident w e = Some f.
Hypothesis Hnew : Z.of_nat (length new) = if writing e then bytes e else 0.
Hypothesis Hclear : scan_retained w e (omap (upgrade w) (slots w)) = Clear.
Hypothesis Hslot : slots w !! s = Some x.
Hypothesis Hfree : upgrade w x = None.
Hypothesis Hopen : worker w ≠ Exited.
Let id := length (requests w).
Let r := mkRequest e p s new None.
Let w' := place w s e p new.
Let Hcore := inv_core _ Hinv.

Lemma place_live j : live w' j ↔ j = id ∨ live w j.
Proof using Type. unfold live. cbn. rewrite !elem_of_cons, !elem_of_app, list_elem_of_singleton. fold id. tauto. Qed.

Lemma live_lt j : live w j → (j < id)%nat.
Proof using Hcore. intros Hj. destruct (co_live _ _ Hcore j Hj) as (z & Hz & _). by apply lookup_lt_Some in Hz. Qed.

Lemma place_requests j z : requests w' !! j = Some z → (j = id ∧ z = r) ∨ ((j < id)%nat ∧ requests w !! j = Some z).
Proof using Type.
  cbn. intros Hz. apply lookup_app_Some in Hz as [Hz|[Hge Hz]].
  - right. split; [by apply lookup_lt_Some in Hz|done].
  - apply list_lookup_singleton_Some in Hz as [Hz <-]. left. split; [fold id in Hge, Hz; lia|done].
Qed.

(** A retained request is in another slot, so its bytes stay. *)
Lemma place_payload j z k :
  live w j → requests w !! j = Some z → 0 <= k < slot_bytes w → payload w' (address w z k) = payload w (address w z k).
Proof using Hcore Hcov Hnew Hslot Hfree.
  intros Hj Hz Hk. cbn [w' place set_counters payload]. unfold store_bytes. destruct (_ && _) eqn:E; [|done]. exfalso. to_prop.
  destruct Hcov as [Cb Cs Ck Ce Cc Cw].
  assert (slot z ≠ slot r) as Hne.
  { cbn. intros Hzs. destruct (co_live _ _ Hcore j Hj) as (y & Hy & Hs). rewrite Hz in Hy. injection Hy as <-. rewrite Hzs, Hslot in Hs. injection Hs as ->.
    assert (upgrade w (Some j) = Some j) as Hu by (by apply upgrade_Some). congruence. }
  apply (slots_disjoint w z r k (address w z k - address w r 0) (co_slot _ _ Hcore) Hne); [done| |unfold address; lia].
  unfold address in *. cbn in *. destruct (writing e); lia.
Qed.

Lemma place_progress j z c :
  live w j → requests w !! j = Some z → progress w z c → progress w' z c.
Proof using Hcore Hcov Hnew Hslot Hfree.
  intros Hj Hz Hp g Hg k Hk Hc. specialize (Hp g Hg k Hk Hc). change (disk w') with (disk w).
  destruct (writing (extent z)); [done|]. rewrite <-Hp. change (address w' z k) with (address w z k).
  destruct (co_request _ _ Hcore _ _ Hz) as [[Zb Zs Zk Ze Zc Zw] _ _]. apply (place_payload j); [done|done|lia].
Qed.

Lemma place_core : core w' (id :: pending w ++ batch_jobs (worker w)).
Proof.
  pose proof Hcore as [H1 H2 H3 H4 [H5 H5'] H6 H7 H8 H9]. pose proof Hcov as [Cb Cs Ck Ce Cc Cw].
  assert (∀ j z, live w' j → requests w' !! j = Some z → (j = id ∧ z = r) ∨ (live w j ∧ requests w !! j = Some z)) as Hcase.
  { intros j z Hj Hz. apply place_live in Hj. apply place_requests in Hz as [[-> ->]|[Hlt Hz]]; [by left|].
    destruct Hj as [->|Hj]; [lia|by right]. }
  assert (∀ j z, live w j → requests w !! j = Some z → ident w (extent z) = ident w e →
    extents_overlap e (extent z) = true → writing e = false ∧ writing (extent z) = false) as Hnoclash.
  { intros j z Hj Hz Hid Hov. destruct (H4 _ Hj) as (y & Hy & Hs).
    assert (j ∈ omap (upgrade w) (slots w)) as Hin.
    { apply list_elem_of_omap. exists (Some j). split; [by eapply list_elem_of_lookup_2|by apply upgrade_Some]. }
    rewrite Hfile in Hid. pose proof (scan_clear _ _ _ _ _ Hclear Hin Hz (ident_same_file _ _ _ _ Hid Hfile)) as Hsc.
    rewrite Hov, andb_true_r in Hsc. by apply orb_false_iff in Hsc. }
  constructor; try done.
  - intros j z Hz. apply place_requests in Hz as [[_ ->]|[_ Hz]]; [|by destruct (H3 _ _ Hz)].
    constructor; [done|by exists f|]. cbn. intros Hw. by rewrite Hw in Hnew.
  - intros j Hj. apply place_live in Hj as [->|Hj].
    + exists r. cbn. split; [by rewrite lookup_app_r, Nat.sub_diag by done|].
      apply list_lookup_insert_eq. by eapply lookup_lt_Some.
    + destruct (H4 _ Hj) as (z & Hz & Hs). exists z. cbn. split; [by apply lookup_app_l_Some|].
      rewrite list_lookup_insert_ne; [done|]. intros Hzs. rewrite <-Hzs, Hslot in Hs. injection Hs as ->.
      assert (upgrade w (Some j) = Some j) as Hu by (by apply upgrade_Some). congruence.
  - split.
    + apply NoDup_cons. split; [|done]. intros Hin. assert (live w id) as Hl%live_lt by (unfold live; set_solver). lia.
    + intros j z Hz. rewrite elem_of_cons. apply place_requests in Hz as [[-> ->]|[Hlt Hz]]; [cbn; tauto|].
      rewrite (H5' _ _ Hz). split; [tauto|]. intros [->|?]; [lia|done].
  - intros a b ra rb Ha Hb Hne Hra Hrb Hid Hov.
    destruct (Hcase _ _ Ha Hra) as [[-> ->]|[La Ra]]; destruct (Hcase _ _ Hb Hrb) as [[-> ->]|[Lb Rb]]; [done| | |by eapply (H6 a b)].
    + by eapply Hnoclash.
    + rewrite overlaps_sym in Hov. destruct (Hnoclash _ _ La Ra) as [? ?]; done.
  - intros j z Hj Hz Hw k Hk. destruct (Hcase _ _ Hj Hz) as [[-> ->]|[Lj Rj]].
    + cbn [w' place set_counters payload address slot slot_bytes r given]. cbn in Hw, Hk. rewrite Hw in Hnew. unfold store_bytes, address. cbn.
      rewrite (proj2 (andb_true_iff _ _)) by (split; [apply Z.leb_le|apply Z.ltb_lt]; lia). do 2 f_equal. lia.
    + change (address w' z k) with (address w z k). rewrite <-(H7 _ _ Lj Rj Hw k Hk).
      destruct (H3 _ _ Rj) as [[Zb Zs Zk Ze Zc Zw] _ _]. apply (place_payload j); [done|done|lia].
  - intros j z n Hj Hz Hn. destruct (Hcase _ _ Hj Hz) as [[-> ->]|[Lj Rj]]; [done|].
    apply (place_progress j); [done|done|by eapply H8].
  - cbn [w' place set_counters counters count_admitted errors requests]. unfold failures. rewrite zsum_app, H9.
    unfold failures. cbn [zsum foldr r outcome is_failed]. lia.
Qed.

Lemma place_inv : inv w'.
Proof.
  constructor.
  - eapply core_perm; [apply place_core|]. cbn. fold id. rewrite <-app_assoc. apply Permutation_sym, Permutation_middle.
  - intros b Hb. change (worker w = Executing b) in Hb. destruct (inv_batch _ Hinv b Hb) as [B1 B2 B3 B4 B5 B6 B7 B8].
    assert (∀ i j z, jobs b !! i = Some j → requests w' !! j = Some z → live w j ∧ requests w !! j = Some z) as Hold.
    { intros i j z Hi Hz. assert (live w j) as Hl.
      { unfold live. rewrite Hb. cbn. apply list_elem_of_lookup_2 in Hi. set_solver. }
      split; [done|]. apply place_requests in Hz as [[-> _]|[_ Hz]]; [|done]. apply live_lt in Hl. lia. }
    constructor; try done.
    + intros j Hj. destruct (B5 j Hj) as [z Hz]. exists z. cbn. by apply lookup_app_l_Some.
    + intros i j z c Hi Hz Hc. destruct (Hold _ _ _ Hi Hz) as [Hl Hz']. destruct (B6 _ _ _ _ Hi Hz' Hc). split; [done|].
      by apply (place_progress j).
    + intros q i j z c res Hq Hret Hi Hz Hc. destruct (Hold _ _ _ Hi Hz) as [Hl Hz'].
      destruct (B7 _ _ _ _ _ _ Hq Hret Hi Hz' Hc) as [? Hp]. split; [done|]. intros H0. apply (place_progress j); auto.
  - apply (inv_failed _ Hinv).
  - intros Hx. by destruct Hopen.
Qed.
End Place.

(** What an accepted submission was. *)
Lemma submit_cases write_ok w e new w' r :
  submit write_ok w e new = (w', r) →
  (∃ x, r = Err x ∧ w' = w) ∨
  ∃ f p, files w !! file e = Some f ∧ physical e (size f) (alignment f) (slot_bytes w) = Ok p ∧
    stop w = false ∧
    ((∃ id, r = Ok id ∧ scan_retained w e (omap (upgrade w) (slots w)) = Share id ∧
        w' = set_counters (set_tickets w (id :: tickets w)) (count_shared (counters w))) ∨
     (∃ s x, r = Ok (length (requests w)) ∧ scan_retained w e (omap (upgrade w) (slots w)) = Clear ∧
        slots w !! s = Some x ∧ upgrade w x = None ∧ w' = place w s e p (if writing e then new else []))).
Proof.
  unfold submit. destruct (files w !! file e) as [f|] eqn:Hf; [|intros [= <- <-]; left; eauto].
  destruct (_ || _); [intros [= <- <-]; left; eauto|].
  destruct (physical e _ _ _) as [p|x] eqn:Hp; [|intros [= <- <-]; left; eauto].
  destruct (failed w) as [x|]; [intros [= <- <-]; left; eauto|].
  destruct (stop w) eqn:Hs; [intros [= <- <-]; left; eauto|].
  destruct (scan_retained w e _) as [id| |] eqn:Hsc.
  - intros [= <- <-]. right. exists f, p. split_and!; try done. left. by exists id.
  - intros [= <- <-]. left. eauto.
  - destruct (free_slot w) as [s|] eqn:Hfs; [|intros [= <- <-]; left; eauto].
    unfold free_slot in Hfs. apply fmap_Some in Hfs as ([s' x] & Hfind & Es). cbn in Es. subst s'.
    apply list_find_Some in Hfind as (Hslot & Hup & _).
    destruct (writing e) eqn:Hw.
    + destruct write_ok as [u|y]; [|intros [= <- <-]; left; eauto]. intros [= <- <-]. right. exists f, p. split_and!; try done.
      right. by exists s, x.
    + intros [= <- <-]. right. exists f, p. split_and!; try done. right. by exists s, x.
Qed.

Lemma set_tickets_inv w l : inv w → (∀ id, id ∈ l → live w id) → ∀ c, errors c = errors (counters w) →
  inv (set_counters (set_tickets w l) c).
Proof.
  intros Hinv Hl c Hc. constructor; [| |apply (inv_failed _ Hinv)|apply (inv_exit _ Hinv)].
  - eapply core_agrees; [apply (inv_core _ Hinv)|by constructor|]. intros id. unfold live at 1. cbn.
    rewrite elem_of_app. intros [Hid|Hid]; [by apply Hl|]. unfold live. set_solver.
  - intros b Hb. apply (batch_agrees w); [by apply (inv_batch _ Hinv)|by constructor].
Qed.

Lemma storage_submit_inv write_ok w e new w' r :
  inv w → (writing e = true → Z.of_nat (length new) = bytes e) → 0 <= offset e → 0 <= bytes e →
  submit write_ok w e new = (w', r) → inv w'.
Proof.
  intros Hinv Hnew Ho Hb Hs. apply submit_cases in Hs as [(x & _ & ->)|(f & p & Hf & Hp & Hstop & Hcase)]; [done|].
  pose proof (inv_core _ Hinv) as Hcore.
  destruct (proj1 (Forall_lookup _ _) (co_files _ _ Hcore) _ _ Hf) as (_ & k & Hk & Ha).
  destruct (physical_is_least_aligned_cover _ _ _ k _ _ Hp Ha Hk Ho Hb) as [Hcov _].
  destruct Hcase as [(id & _ & Hsc & ->)|(s & x & _ & Hsc & Hslot & Hfree & ->)].
  - apply set_tickets_inv; [done| |done]. intros j Hj. apply elem_of_cons in Hj as [->|Hj]; [|unfold live; set_solver].
    apply scan_share, list_elem_of_omap in Hsc as (y & _ & Hu). by apply upgrade_Some in Hu as [_ ?].
  - apply (place_inv w s e p _ x (identity f)); try done.
    + unfold ident. by rewrite Hf.
    + destruct (writing e); [by apply Hnew|done].
    + intros Hx. destruct (inv_exit _ Hinv Hx). congruence.
Qed.

Lemma storage_step_inv w w' : step w w' → inv w → inv w'.
Proof.
  intros Hstep Hinv. destruct Hstep as [ok e new w' r Hn Ho Hb Hs|id Hid|i id Hi|w' Ht|j res moved w' He|w' Ha|d e w' Hf|e|].
  - by eapply storage_submit_inv.
  - apply (set_tickets_inv w (id :: tickets w) Hinv); [|done]. intros j Hj. apply elem_of_cons in Hj as [->|Hj]; unfold live; set_solver.
  - apply (set_tickets_inv w (delete i (tickets w)) Hinv); [|done]. intros j Hj. unfold live.
    assert (j ∈ tickets w); [|set_solver]. apply (elem_of_delete_cons _ _ _ _ Hi). by right.
  - by eapply take_batch_inv.
  - by eapply complete_entry_inv.
  - by eapply finish_attempt_inv.
  - by eapply fail_batch_inv.
  - by apply stop_after_failure_inv.
  - constructor; [| |done|intros Hx; split; [apply (inv_exit _ Hinv Hx)|done]].
    + eapply core_agrees; [apply (inv_core _ Hinv)|by constructor|done].
    + intros b Hb. apply (batch_agrees w); [by apply (inv_batch _ Hinv)|by constructor].
Qed.

Lemma initial_storage_inv w : initial w → inv w.
Proof.
  intros [H1 H2 H3 H4 H5 H6 (H7 & H8 & H9) H10]. constructor; rewrite ?H5, ?H9; try done; [|by rewrite H8; intros [? ?]].
  assert (∀ id, ¬ live w id) as Hno by (intros id; unfold live; rewrite H4, H5, H9; cbn; set_solver).
  constructor; rewrite ?H3, ?H10; try done.
  - intros id Hid. by destruct (Hno id).
  - split; [constructor|done].
Qed.

Lemma storage_reachable_inv w : reachable w → inv w.
Proof.
  intros (w0 & Hi%initial_storage_inv & Hs). induction Hs as [|w0 w1 w2 H1 _ IH]; [done|]. apply IH. by eapply storage_step_inv.
Qed.

(** ** Theorems *)

(** Requests whose ticket is held own their payload: any two of them are in
    different slots, and if they touch overlapping bytes of one file then both
    only read. *)
Theorem retained_requests_never_conflict w a b ra rb :
  reachable w → a ∈ tickets w → b ∈ tickets w → a ≠ b →
  requests w !! a = Some ra → requests w !! b = Some rb →
  slot ra ≠ slot rb ∧
  (ident w (extent ra) = ident w (extent rb) → extents_overlap (extent ra) (extent rb) = true →
    writing (extent ra) = false ∧ writing (extent rb) = false).
Proof.
  intros Hr%storage_reachable_inv Ha Hb Hne Hra Hrb. pose proof (inv_core _ Hr) as Hc.
  assert (live w a ∧ live w b) as [La Lb] by (unfold live; set_solver).
  split; [exact (live_slots_differ _ _ _ _ _ _ Hc La Lb Hne Hra Hrb)|]. exact (co_compatible _ _ Hc a b ra rb La Lb Hne Hra Hrb).
Qed.

(** C21. Storage is exact: in every reachable session, whatever the kernel's short
    transfers and retries, a lease of a completed read yields the bytes its
    file has at the requested offset, and the file holds the bytes a completed
    write was given, for as long as the request is retained. *)
Theorem completed_requests_hold_their_bytes w id r f n :
  reachable w → id ∈ tickets w → requests w !! id = Some r → ident w (extent r) = Some f →
  outcome r = Some (Ok n) →
  if writing (extent r)
  then ∀ k, 0 <= k < bytes (extent r) → disk w f (offset (extent r) + k) = default 0 (given r !! Z.to_nat k)
  else lease_read (Ok tt) w id (bytes (extent r)) =
         Ok ((λ k, disk w f (offset (extent r) + Z.of_nat k)) <$> seq 0 (Z.to_nat (bytes (extent r)))).
Proof.
  intros Hr%storage_reachable_inv Hin Hreq Hf Ho. pose proof (inv_core _ Hr) as Hc.
  assert (live w id) as Hl by (unfold live; set_solver).
  pose proof (co_done _ _ Hc _ _ _ Hl Hreq Ho f Hf) as Hd.
  destruct (co_request _ _ Hc _ _ Hreq) as [[Rb [Rs Ro] Rk Re Rc Rw] _ _].
  destruct (writing (extent r)) eqn:Ew.
  - destruct (Rw eq_refl) as [Rs0 _]. intros k Hk. rewrite <-(Hd k ltac:(lia) ltac:(lia)). f_equal. lia.
  - unfold lease_read. rewrite Hreq, Z.eqb_refl. cbn [result_bind]. f_equal. apply list_fmap_ext. intros i k Hik. apply lookup_seq in Hik as [-> Hk].
    unfold lease_offset. replace (offset (extent r) + Z.of_nat (0 + i))
      with (p_offset (phys r) + (p_skip (phys r) + Z.of_nat (0 + i))) by lia.
    rewrite <-(Hd (p_skip (phys r) + Z.of_nat (0 + i))) by lia. f_equal. unfold address. lia.
Qed.

(** C22. No accepted request is lost: a request without an outcome is pending or in
    the worker's batch, once; when the worker has left, every request has been
    answered. *)
Theorem accepted_requests_are_answered w id r :
  reachable w → requests w !! id = Some r →
  (outcome r = None ↔ id ∈ pending w ++ batch_jobs (worker w)) ∧
  NoDup (pending w ++ batch_jobs (worker w)) ∧ (worker w = Exited → is_Some (outcome r)).
Proof.
  intros Hr%storage_reachable_inv Hreq. destruct (co_open _ _ (inv_core _ Hr)) as [Hnd Hopen].
  split_and!; [by apply Hopen|done|]. intros Hx. destruct (inv_exit _ Hr Hx) as [Hp _].
  destruct (outcome r) eqn:Ho; [eauto|]. apply (Hopen id r Hreq) in Ho. rewrite Hp, Hx in Ho. by apply elem_of_nil in Ho.
Qed.

(** Stream transfers are moves of the session: whatever the stream answers, the
    state after submitting, observing, waiting for or dropping a transfer is
    reached by dropping a lease or stopping after a failure, and the lease of a
    transfer is released only when its event has completed. *)
Theorem transfers_release_on_completion w i id :
  tickets w !! i = Some id →
  (∀ d a b c, rtc step w (lease_enqueue d a b c w i).1 ∧
     (is_ok (lease_enqueue d a b c w i).2 = true → (lease_enqueue d a b c w i).1 = w)) ∧
  (∀ e, rtc step w (transfer_is_complete e w (Some i)).1.1 ∧
     ((transfer_is_complete e w (Some i)).1.2 = None ↔ e = Ok true)) ∧
  (∀ e, rtc step w (transfer_drop e w (Some i)) ∧
     (id ∉ tickets (transfer_drop e w (Some i)) → e = Ok tt)).
Proof.
  intros Hi. assert (rtc step w (drop_lease w i)) as Hd by (by eapply rtc_once, step_drop).
  assert (∀ e, rtc step w (stop_after_failure w e)) as Hs by (intros e; apply rtc_once; constructor).
  split_and!.
  - intros [] [] [] []; cbn; (split; [first [done|apply Hd|apply Hs]|done]).
  - intros [[]|e]; cbn; (split; [first [done|apply Hd|apply Hs]|]); split; congruence.
  - intros [[]|e]; cbn; (split; [first [done|apply Hd|apply Hs]|]); [done|]. intros []. by eapply list_elem_of_lookup_2.
Qed.

(** The error counter counts requests: it is the number of requests that ended
    in an error, however many tickets share them. *)
Theorem error_counter_is_exact w : reachable w → errors (counters w) = failures (requests w).
Proof. intros Hr%storage_reachable_inv. apply (co_errors _ _ (inv_core _ Hr)). Qed.

(** ** A session

    One file of 64 bytes with four-byte direct alignment and two slots: an
    unaligned read whose first transfer is short, and a write. *)

Definition demo_file : RegisteredFile := mkFile 64 4 true true (1, 2).
Definition demo_0 : World :=
  mkWorld 16 [demo_file] [] [] [] [None; None] false None Waiting (mkCounters 0 0 0 0 0 0 0)
    (λ _, 0) (λ _ a, 100 + a).
Definition demo_1 : World := (read demo_0 0 5 6).1.
Definition demo_2 : World := (write (Ok tt) demo_1 0 16 [1; 2; 3; 4]).1.
Definition demo_3 : World := default demo_2 (take_batch demo_2).
Definition demo_4 : World := default demo_3 (complete_entry demo_3 0 4 4).
Definition demo_5 : World := default demo_4 (complete_entry demo_4 1 4 4).
Definition demo_6 : World := default demo_5 (finish_attempt demo_5).
Definition demo_7 : World := default demo_6 (complete_entry demo_6 0 4 4).
Definition demo_8 : World := default demo_7 (finish_attempt demo_7).

Lemma default_present {A} (o : option A) d : bool_decide (is_Some o) = true → o = Some (default d o).
Proof. intros [x ->]%bool_decide_eq_true. done. Qed.

Lemma storage_demo_initial : initial demo_0.
Proof.
  constructor; try done; [|by repeat constructor]. repeat constructor; [done|]. exists 2. split; [lia|done].
Qed.

Lemma storage_demo_retained : reachable demo_2.
Proof.
  exists demo_0. split; [exact storage_demo_initial|]. apply (rtc_l _ _ demo_1).
  { eapply (step_submit _ (Ok tt) (mkExtent 0 5 6 false) []); [done..|]. apply surjective_pairing. }
  apply rtc_once. eapply (step_submit _ (Ok tt) (mkExtent 0 16 4 true) [1; 2; 3; 4]); [done..|]. apply surjective_pairing.
Qed.

Lemma storage_demo_reachable : reachable demo_8.
Proof.
  destruct storage_demo_retained as (w0 & Hi & Hs). exists w0. split; [exact Hi|]. etrans; [exact Hs|].
  apply (rtc_l _ _ demo_3); [apply step_take, default_present; vm_compute; reflexivity|].
  apply (rtc_l _ _ demo_4); [apply (step_entry _ 0 4 4), default_present; vm_compute; reflexivity|].
  apply (rtc_l _ _ demo_5); [apply (step_entry _ 1 4 4), default_present; vm_compute; reflexivity|].
  apply (rtc_l _ _ demo_6); [apply step_attempt, default_present; vm_compute; reflexivity|].
  apply (rtc_l _ _ demo_7); [apply (step_entry _ 0 4 4), default_present; vm_compute; reflexivity|].
  apply rtc_once, step_attempt, default_present. vm_compute. reflexivity.
Qed.

Definition demo_read : Request := mkRequest (mkExtent 0 5 6 false) (mkPhysical 4 8 1) 0 [] (Some (Ok 8)).
Definition demo_write : Request :=
  mkRequest (mkExtent 0 16 4 true) (mkPhysical 16 4 0) 1 [1; 2; 3; 4] (Some (Ok 4)).

Lemma storage_demo_tickets : 0%nat ∈ tickets demo_8 ∧ 1%nat ∈ tickets demo_8.
Proof. split; apply (bool_decide_eq_true_1 _); vm_compute; reflexivity. Qed.
Lemma storage_demo_read : requests demo_8 !! 0%nat = Some demo_read.
Proof. vm_compute. reflexivity. Qed.
Lemma storage_demo_write : requests demo_8 !! 1%nat = Some demo_write.
Proof. vm_compute. reflexivity. Qed.
Lemma storage_demo_ident e : file e = 0%nat → ident demo_8 e = Some (1, 2).
Proof. unfold ident. intros ->. vm_compute. reflexivity. Qed.

(** After the retry the read's lease yields bytes 5 to 10 of the file. *)
Lemma completed_requests_hold_their_bytes_witness :
  lease_read (Ok tt) demo_8 0 6 = Ok ((λ k, disk demo_8 (1, 2) (5 + Z.of_nat k)) <$> seq 0 6) ∧
  (∀ k, 0 <= k < 4 → disk demo_8 (1, 2) (16 + k) = default 0 ([1; 2; 3; 4] !! Z.to_nat k)).
Proof.
  split.
  - exact (completed_requests_hold_their_bytes demo_8 0 demo_read (1, 2) 8 storage_demo_reachable
             (proj1 storage_demo_tickets) storage_demo_read (storage_demo_ident (extent demo_read) eq_refl) eq_refl).
  - exact (completed_requests_hold_their_bytes demo_8 1 demo_write (1, 2) 4 storage_demo_reachable
             (proj2 storage_demo_tickets) storage_demo_write (storage_demo_ident (extent demo_write) eq_refl) eq_refl).
Defined.
Example storage_demo_bytes : lease_read (Ok tt) demo_8 0 6 = Ok [105; 106; 107; 108; 109; 110].
Proof. vm_compute. reflexivity. Qed.

Lemma transfers_release_on_completion_witness :
  (∀ e, rtc step demo_8 (transfer_drop e demo_8 (Some 0%nat)) ∧
     (1%nat ∉ tickets (transfer_drop e demo_8 (Some 0%nat)) → e = Ok tt)).
Proof.
  refine (proj2 (proj2 (transfers_release_on_completion demo_8 0 1 _))). vm_compute. reflexivity.
Defined.

Lemma retained_requests_never_conflict_witness : slot demo_read ≠ slot demo_write.
Proof.
  exact (proj1 (retained_requests_never_conflict demo_8 0 1 demo_read demo_write storage_demo_reachable
    (proj1 storage_demo_tickets) (proj2 storage_demo_tickets) ltac:(done) storage_demo_read storage_demo_write)).
Defined.

Lemma accepted_requests_are_answered_witness :
  outcome (mkRequest (mkExtent 0 5 6 false) (mkPhysical 4 8 1) 0 [] None) = None ↔
  0%nat ∈ pending demo_2 ++ batch_jobs (worker demo_2).
Proof.
  refine (proj1 (accepted_requests_are_answered demo_2 0 _ storage_demo_retained _)). vm_compute; reflexivity.
Defined.

Lemma error_counter_is_exact_witness : errors (counters demo_8) = 0.
Proof. rewrite (error_counter_is_exact demo_8 storage_demo_reachable). vm_compute. reflexivity. Defined.

(** A kernel that moves at most four bytes at a time. *)
Lemma retries_end_witness :
  is_Some (execute 9 (λ _ l, Ok ((λ x, Z.min 4 (default 0 ([8] !! x.1) - x.2)) <$> l)) [mkJob 7 4 false] [0] [0] [0%nat]).
Proof.
  apply (retries_end 9 _ [mkJob 7 4 false] [8]); [|done|done|by repeat constructor; set_solver| |vm_compute; reflexivity].
  - intros n l rs [= <-]. rewrite length_fmap. split; [done|]. intros j i c r Hl Hr.
    rewrite list_lookup_fmap, Hl in Hr. injection Hr as <-. cbn. lia.
  - intros i ->%list_elem_of_singleton. cbn. split; [lia|lia].
Defined.
End StorageTheorems.
