(* ===== verification/RawGraph.v ===== *)
(** * Recorded GPU graphs

    [Graph] of src/src/runtime.rs: commands recorded under checked dependency
    edges, of which only the largest predecessor is kept, and [finish], which
    turns them into an ordered command list with barriers.  Preparing a native
    command is foreign code.  The theorems show that the barriers kept by
    [finish] separate every command from everything it was recorded after. *)

From S2P Require Import Prelude Access.
Local Open Scope Z_scope.

Module Raw.

(** [View]: the owning buffer by identity, device and size, and a range of it. *)
Record Buffer : Type := mkBuffer { identity : Z; device_id : nat; bytes : Z }.
Record RawView : Type := mkRawView { owner : Buffer; offset : Z; length : Z }.

(** [View::slice], [View::is_empty]. *)
Definition slice (v : RawView) (o n : Z) : Result RawView :=
  let? _ := checked_span o n (length v) in Ok (mkRawView (owner v) (offset v + o) n).
Definition is_empty (v : RawView) : bool := length v =? 0.

(** [Node]: branded with its recording. *)
Record Node : Type := mkNode { node_graph : nat; index : Z }.

Definition u32_max : Z := 2 ^ 32 - 1.

(** [owns]. *)
Definition owns (device : nat) (b : Buffer) : Result unit :=
  if (device =? device_id b)%nat then Ok tt else Err (Message "buffer belongs to another device").

(** [validate_launch]: [try_fold] of a [u32] [checked_mul], at most 1024 lanes. *)
Fixpoint lanes (n : Z) (block : list Z) : option Z :=
  match block with
  | [] => Some n
  | b :: rest => if n * b <=? u32_max then lanes (n * b) rest else None
  end.
Definition validate_launch (grid block : list Z) : Result unit :=
  if bool_decide (0 ∈ grid) || bool_decide (0 ∈ block)
     || match lanes 1 block with None => true | Some n => 1024 <? n end
  then Err (Message "invalid GPU launch dimensions") else Ok tt.

(** [validate_export_launch]; [workgroup] is the compiled size, 0 when free. *)
Definition validate_export_launch (workgroup grid block : list Z) : Result unit :=
  let? _ := validate_launch grid block in
  if existsb (λ '(expected, actual), negb (expected =? 0) && negb (expected =? actual)) (zip workgroup block)
  then Err (Message "workgroup size disagrees with compiled size") else Ok tt.

Section Graph.
(** [Kernel] stands for a kernel with its grid, block and constants. *)
Context {Command Kernel : Type}.
(** Native command preparation. *)
Variable prepare_fill : RawView → Z → Result Command.
Variable prepare_copy : RawView → RawView → Result Command.
Variable prepare_dispatch : Kernel → list RawView → Result Command.

(** [Recorded], [Graph]. *)
Inductive Recorded : Type := Prepared (command : Command) | Join.
Record Graph : Type := mkGraph {
  id : nat;
  device : nat;
  nodes : list (Recorded * option Z);
  bindings : gmap Z Z }.

(** [Stream::owned_graph]. *)
Definition owned_graph (id device : nat) : Graph := mkGraph id device [] ∅.

(** [Graph::binding_bytes], [Graph::retain_bindings]. *)
Definition binding_bytes (g : Graph) : Z := map_fold (λ _ n total, n + total) 0 (bindings g).
Definition retain_bindings (views : list RawView) (g : Graph) : Graph :=
  mkGraph (id g) (device g) (nodes g)
    (foldl (λ m v, <[identity (owner v) := bytes (owner v)]> m) (bindings g) views).

(** [Graph::validate_dependencies]. *)
Definition node_count (g : Graph) : Z := Z.of_nat (List.length (nodes g)).
Definition foreign (g : Graph) (n : Node) : bool :=
  negb (node_graph n =? id g)%nat || (node_count g <=? index n).
Definition validate_dependencies (after : list Node) (g : Graph) : Result unit :=
  if existsb (foreign g) after then Err (Message "dependency node belongs to another graph")
  else if u32_max <=? node_count g then Err (Message "graph node capacity exceeded")
  else Ok tt.

(** [after.iter().map(|node| node.index).max()]. *)
Fixpoint latest (after : list Node) : option Z :=
  match after with
  | [] => None
  | n :: rest => Some (match latest rest with None => index n | Some m => Z.max (index n) m end)
  end.

(** [Graph::record]. *)
Definition record (r : Recorded) (after : list Node) (g : Graph) : Graph * Node :=
  (mkGraph (id g) (device g) (nodes g ++ [(r, latest after)]) (bindings g),
   mkNode (id g) (node_count g mod 2 ^ 32)).

(** [Graph::fill], [copy], [dispatch], [join]. *)
Definition fill (after : list Node) (dst : RawView) (pattern : Z) (g : Graph) : Result (Graph * Node) :=
  let? _ := validate_dependencies after g in
  let? _ := owns (device g) (owner dst) in
  if is_empty dst then Err (Message "empty graph fill")
  else
    let? command := prepare_fill dst pattern in
    Ok (record (Prepared command) after (retain_bindings [dst] g)).
Definition copy (after : list Node) (dst src : RawView) (g : Graph) : Result (Graph * Node) :=
  let? _ := validate_dependencies after g in
  let? _ := owns (device g) (owner dst) in
  let? _ := owns (device g) (owner src) in
  if negb (length dst =? length src) || is_empty dst
  then Err (Message "graph copy requires equal nonempty spans")
  else
    let? command := prepare_copy dst src in
    Ok (record (Prepared command) after (retain_bindings [dst; src] g)).
Definition dispatch (after : list Node) (kernel : Kernel) (views : list RawView) (g : Graph)
    : Result (Graph * Node) :=
  let? _ := validate_dependencies after g in
  let? command := prepare_dispatch kernel views in
  Ok (record (Prepared command) after (retain_bindings views g)).
Definition join (after : list Node) (g : Graph) : Result (Graph * Node) :=
  let? _ := validate_dependencies after g in Ok (record Join after g).

(** [finish_inner], its loop: [completed] is the first node that may still run
    when the next command is issued. *)
Definition barrier (completed : Z) (dependency : option Z) : bool :=
  match dependency with Some n => completed <=? n | None => false end.
Fixpoint order (index completed : Z) (ns : list (Recorded * option Z)) : list (Command * bool) :=
  match ns with
  | [] => []
  | (Join, _) :: rest => order (index + 1) completed rest
  | (Prepared command, dependency) :: rest =>
      let b := barrier completed dependency in
      (command, b) :: order (index + 1) (if b then index else completed) rest
  end.
Definition finish (g : Graph) : list (Command * bool) := order 0 0 (nodes g).

(** ** Barriers *)

Definition is_prepared (n : Recorded * option Z) : Prop := ∃ c, n.1 = Prepared c.
Global Instance is_prepared_dec n : Decision (is_prepared n).
Proof. destruct n as [[c|] d]; [left; by exists c|right; by intros [c Hc]]. Defined.

(** Where the command of node [i] stands among the finished commands. *)
Definition position (ns : list (Recorded * option Z)) (i : nat) : nat :=
  List.length (filter is_prepared (take i ns)).

Lemma position_S n ns i :
  position (n :: ns) (S i) = ((if decide (is_prepared n) then 1 else 0) + position ns i)%nat.
Proof. unfold position. simpl. rewrite filter_cons. by case_decide. Qed.

Lemma position_mono ns i k n :
  ns !! i = Some n → is_prepared n → (i < k)%nat → (position ns i < position ns k)%nat.
Proof.
  revert i k. induction ns as [|m ns IH]; intros [|i] [|k] Hi Hn Hlt; try done; try lia.
  - injection Hi as ->. rewrite position_S, decide_True by done. unfold position at 1. simpl. lia.
  - rewrite !position_S. specialize (IH i k Hi Hn ltac:(lia)). lia.
Qed.

Lemma position_le ns j k : (j ≤ k)%nat → (position ns j ≤ position ns k)%nat.
Proof.
  revert j k. induction ns as [|n ns IH]; intros [|j] [|k] Hle; try (unfold position; simpl; lia).
  rewrite !position_S. specialize (IH j k ltac:(lia)). lia.
Qed.

(** Node [k] is issued behind a barrier. *)
Definition barrier_at (ns : list (Recorded * option Z)) (out : list (Command * bool)) (k : nat) : Prop :=
  ∃ c d, ns !! k = Some (Prepared c, d) ∧ out !! position ns k = Some (c, true).

Lemma barrier_at_cons n ns out idx completed k :
  out = order idx completed (n :: ns) →
  barrier_at ns (match n with
    | (Join, _) => order (idx + 1) completed ns
    | (Prepared _, d) => order (idx + 1) (if barrier completed d then idx else completed) ns end) k →
  barrier_at (n :: ns) out (S k).
Proof.
  intros -> (c & d & Hk & Ho). exists c, d. split; [done|]. rewrite position_S.
  by destruct n as [[c'|] d'].
Qed.

(** A dependency is behind a barrier, or was complete from the start. *)
Lemma order_covers ns idx completed j c d :
  ns !! j = Some (Prepared c, Some d) →
  d < completed ∨ ∃ k, (k ≤ j)%nat ∧ (k = j ∨ d < idx + Z.of_nat k)
    ∧ barrier_at ns (order idx completed ns) k.
Proof.
  revert idx completed j. induction ns as [|n ns IH]; intros idx completed [|j] Hj; try done.
  - injection Hj as ->. destruct (Z.leb_spec completed d) as [Hle|]; [|by left].
    right. exists 0%nat. split_and!; [done|by left|]. exists c, (Some d). split; [done|].
    unfold position. simpl. rewrite (proj2 (Z.leb_le _ _) Hle). done.
  - simpl in Hj.
    specialize (IH (idx + 1) (match n with
      | (Prepared _, d') => if barrier completed d' then idx else completed | _ => completed end) j Hj).
    destruct IH as [Hd|(k & Hkj & Hdk & Hb)].
    + destruct n as [[c'|] d']; [|by left]. destruct (barrier completed d') eqn:Eb; [|by left].
      right. exists 0%nat. split_and!; [lia|right; lia|]. exists c', d'. split; [done|].
      unfold position. simpl. by rewrite Eb.
    + right. exists (S k). split_and!; [lia|destruct Hdk; [left|right]; lia|].
      eapply barrier_at_cons; [done|]. by destruct n as [[]].
Qed.

(** Everything up to the recorded predecessor is behind a barrier. *)
Lemma finish_separates g i j ci di c d :
  nodes g !! i = Some (Prepared ci, di) → nodes g !! j = Some (Prepared c, Some d) →
  Z.of_nat i <= d < Z.of_nat j →
  ∃ k b, (position (nodes g) i < k ≤ position (nodes g) j)%nat ∧ finish g !! k = Some (b, true).
Proof.
  intros Hi Hj Hd. destruct (order_covers (nodes g) 0 0 j c d Hj) as [?|(k & Hkj & Hdk & b & db & Hk & Ho)];
    [lia|].
  exists (position (nodes g) k), b. split; [|done]. split; [|by apply position_le].
  eapply position_mono; [done|by eexists|]. destruct Hdk; lia.
Qed.

(** ** Recording *)

Lemma latest_max after n : n ∈ after → ∃ m, latest after = Some m ∧ index n <= m.
Proof.
  induction after as [|x after IH]; [by intros ?%elem_of_nil|].
  intros [->|Hn]%elem_of_cons; simpl.
  - destruct (latest after); eexists; split; try done; lia.
  - destruct (IH Hn) as (m & -> & Hm). eexists. split; [done|]. lia.
Qed.

Lemma latest_in after m : latest after = Some m → ∃ n, n ∈ after ∧ index n = m.
Proof.
  revert m. induction after as [|x after IH]; intros m; simpl; [done|].
  destruct (latest after) as [k|]; intros [= <-].
  - destruct (IH k eq_refl) as (n & Hn & Hk). destruct (Z.max_spec (index x) k) as [[_ ->]|[_ ->]].
    + exists n. split; [by right|done].
    + exists x. split; [by left|done].
  - exists x. split; [by left|done].
Qed.

(** Dependencies accepted by [validate_dependencies] are earlier nodes. *)
Lemma validate_dependencies_Ok after g n :
  validate_dependencies after g = Ok tt → n ∈ after → node_graph n = id g ∧ index n < node_count g.
Proof.
  unfold validate_dependencies. intros H Hn. destruct (existsb _ _) eqn:E; [done|].
  assert (foreign g n = false) as Hf.
  { destruct (foreign g n) eqn:Ef; [|done].
    rewrite (proj2 (existsb_exists _ _)) in E; [done|]. exists n. split; [|done].
    by apply list_elem_of_In. }
  unfold foreign in Hf. to_prop. done.
Qed.

(** A recording and the predecessors each node was given: any sequence of
    successful operations, with node indices in the range of [u32]. *)
Inductive recording : Graph → list (list Node) → Prop :=
| recording_new id device : recording (owned_graph id device) []
| recording_fill g hist after dst pattern g' n :
    recording g hist → Forall (λ n, 0 <= index n) after →
    fill after dst pattern g = Ok (g', n) → recording g' (hist ++ [after])
| recording_copy g hist after dst src g' n :
    recording g hist → Forall (λ n, 0 <= index n) after →
    copy after dst src g = Ok (g', n) → recording g' (hist ++ [after])
| recording_dispatch g hist after kernel views g' n :
    recording g hist → Forall (λ n, 0 <= index n) after →
    dispatch after kernel views g = Ok (g', n) → recording g' (hist ++ [after])
| recording_join g hist after g' n :
    recording g hist → Forall (λ n, 0 <= index n) after →
    join after g = Ok (g', n) → recording g' (hist ++ [after]).

(** What a successful operation does. *)
Definition appends (r : Recorded) (after : list Node) (g g' : Graph) (n : Node) : Prop :=
  nodes g' = nodes g ++ [(r, latest after)] ∧ id g' = id g
    ∧ n = mkNode (id g) (node_count g) ∧ validate_dependencies after g = Ok tt.

Lemma record_appends r after g views :
  validate_dependencies after g = Ok tt →
  appends r after g (record r after (retain_bindings views g)).1 (record r after (retain_bindings views g)).2.
Proof.
  intros Hv. split_and!; [done|done| |done]. simpl. f_equal.
  unfold validate_dependencies, u32_max, node_count in *.
  destruct (existsb _ _), (Z.leb_spec (2 ^ 32 - 1) (Z.of_nat (List.length (nodes g)))); try done.
  apply Z.mod_small. unfold retain_bindings. simpl. lia.
Qed.

Lemma fill_appends after dst pattern g g' n : fill after dst pattern g = Ok (g', n) →
  ∃ command, appends (Prepared command) after g g' n.
Proof.
  unfold fill. intros H. inv_ok. destruct (is_empty dst); [done|]. inv_ok.
  destruct_unit. eexists. by apply (record_appends (Prepared _) _ _ [dst]).
Qed.

Lemma copy_appends after dst src g g' n : copy after dst src g = Ok (g', n) →
  ∃ command, appends (Prepared command) after g g' n.
Proof.
  unfold copy. intros H. inv_ok. destruct (_ || _); [done|]. inv_ok.
  destruct_unit. eexists. by apply (record_appends (Prepared _) _ _ [dst; src]).
Qed.

Lemma dispatch_appends after kernel views g g' n :
  dispatch after kernel views g = Ok (g', n) →
  ∃ command, appends (Prepared command) after g g' n.
Proof.
  unfold dispatch. intros H. inv_ok.
  destruct_unit. eexists. by apply (record_appends (Prepared _) _ _ views).
Qed.

Lemma join_appends after g g' n : join after g = Ok (g', n) → appends Join after g g' n.
Proof.
  unfold join. intros H. inv_ok.
  destruct_unit. by apply (record_appends Join _ _ []).
Qed.

(** Node [j] was recorded after node [i]. *)
Definition follows (hist : list (list Node)) (j i : nat) : Prop :=
  ∃ after n, hist !! j = Some after ∧ n ∈ after ∧ index n = Z.of_nat i.

(** The kept predecessors are those of the history, all earlier. *)
Record faithful (g : Graph) (hist : list (list Node)) : Prop := {
  faithful_kept : snd <$> nodes g = latest <$> hist;
  faithful_earlier : ∀ j after n, hist !! j = Some after → n ∈ after → 0 <= index n < Z.of_nat j }.

Lemma faithful_append r g hist after g' n :
  faithful g hist → Forall (λ n, 0 <= index n) after → appends r after g g' n →
  faithful g' (hist ++ [after]).
Proof.
  intros [Hk He] Hpos (Hn & _ & _ & Hv). split.
  - rewrite Hn, !fmap_app, Hk. done.
  - intros j a m Hj Hm. apply lookup_snoc_Some in Hj as [[_ Hj]|[-> <-]]; [by eapply He|].
    rewrite Forall_forall in Hpos. split; [by apply Hpos|].
    destruct (validate_dependencies_Ok _ _ m Hv Hm) as [_ Hlt]. unfold node_count in Hlt.
    apply (f_equal List.length) in Hk. rewrite !length_fmap in Hk. lia.
Qed.

Lemma recording_faithful g hist : recording g hist → faithful g hist.
Proof.
  assert (Hex : ∀ g hist after g' n, faithful g hist → Forall (λ n, 0 <= index n) after →
    (∃ c, appends (Prepared c) after g g' n) → faithful g' (hist ++ [after])).
  { intros * Hf Hp [c Ha]. by eapply faithful_append. }
  induction 1; eauto using faithful_append, fill_appends, copy_appends, dispatch_appends, join_appends.
  split; [done|]. intros j after n Hj. by rewrite lookup_nil in Hj.
Qed.

(** A transitive predecessor is at or before the kept one. *)
Lemma follows_kept g hist j i :
  faithful g hist → tc (follows hist) j i →
  ∃ d, latest <$> hist !! j = Some (Some d) ∧ Z.of_nat i <= d < Z.of_nat j.
Proof.
  intros [_ He] Htc.
  assert (Hdown : ∀ j i, tc (follows hist) j i → (i < j)%nat).
  { induction 1 as [j' i' (a & n & Hj & Hn & Hi)|j' m i' (a & n & Hj & Hn & Hi) _ IH];
      specialize (He _ _ _ Hj Hn); lia. }
  assert (Hfirst : ∃ m, follows hist j m ∧ (i ≤ m)%nat).
  { inversion Htc as [? ? Hf|? m ? Hf Hr]; subst; [by exists i|]. exists m. split; [done|].
    apply Hdown in Hr. lia. }
  destruct Hfirst as (m & (a & n & Hj & Hn & Hi) & Hle).
  destruct (latest_max a n Hn) as (d & Hd & Hnd). exists d. split; [by rewrite Hj; simpl; rewrite Hd|].
  destruct (latest_in a d Hd) as (x & Hx & Hxd). specialize (He _ _ _ Hj Hx). lia.
Qed.

Lemma faithful_separates g hist i j ci di cj dj :
  faithful g hist → nodes g !! i = Some (Prepared ci, di) → nodes g !! j = Some (Prepared cj, dj) →
  tc (follows hist) j i →
  ∃ k c, (position (nodes g) i < k ≤ position (nodes g) j)%nat ∧ finish g !! k = Some (c, true).
Proof.
  intros Hf Hi Hj Htc. destruct (follows_kept g hist j i Hf Htc) as (d & Hd & Hle).
  destruct Hf as [Hk _]. apply (f_equal (.!! j)) in Hk. rewrite !list_lookup_fmap, Hj, Hd in Hk.
  simpl in Hk. injection Hk as ->. by eapply finish_separates.
Qed.
Lemma recording_separates g hist i j ci di cj dj :
  recording g hist → nodes g !! i = Some (Prepared ci, di) → nodes g !! j = Some (Prepared cj, dj) →
  tc (follows hist) j i →
  ∃ k c, (position (nodes g) i < k ≤ position (nodes g) j)%nat ∧ finish g !! k = Some (c, true).
Proof. intros Hrec. by apply faithful_separates, recording_faithful. Qed.

(** ** Recordings without joins *)

(** The nodes with these indices. *)
Definition as_nodes (id : nat) (l : list nat) : list Node := (λ i, mkNode id (Z.of_nat i)) <$> l.
(** Without joins positions are indices. *)
Lemma position_all (ns : list (Recorded * option Z)) i :
  (∀ j n, ns !! j = Some n → is_prepared n) → (i ≤ List.length ns)%nat → position ns i = i.
Proof.
  revert i. induction ns as [|n ns IH]; intros [|i] Hall Hi; simpl in *; try done; try lia.
  rewrite position_S, decide_True by (by apply (Hall 0%nat)). f_equal.
  apply IH; [|lia]. intros j m Hj. by apply (Hall (S j)).
Qed.
(** Edges between indices are kept as edges between nodes. *)
Lemma as_nodes_follows id (ds : list (list nat)) j i :
  tc (λ x y, ∃ l, ds !! x = Some l ∧ y ∈ l) j i → tc (follows (as_nodes id <$> ds)) j i.
Proof.
  intros H. eapply (tc_congruence (λ x, x)); [|exact H].
  intros x y (l & Hl & Hy). exists (as_nodes id l), (mkNode id (Z.of_nat y)).
  rewrite list_lookup_fmap, Hl. split_and!; [done| |done].
  by apply (list_elem_of_fmap_2 (λ i, mkNode id (Z.of_nat i))).
Qed.

End Graph.
Global Arguments Recorded : clear implicits.
Global Arguments Graph : clear implicits.

(** C9. Keeping only the largest predecessor of each node and only the barriers
    [finish] computes loses no ordering: in every recording, through joins too,
    a command that transitively follows another one is separated from it by a
    barrier in the finished command order. *)
Theorem finish_separates_dependencies {Command Kernel}
    (prepare_fill : RawView → Z → Result Command) (prepare_copy : RawView → RawView → Result Command)
    (prepare_dispatch : Kernel → list RawView → Result Command) g hist i j ci di cj dj :
  recording prepare_fill prepare_copy prepare_dispatch g hist →
  nodes g !! i = Some (Prepared ci, di) → nodes g !! j = Some (Prepared cj, dj) →
  tc (follows hist) j i →
  ∃ k c, (position (nodes g) i < k ≤ position (nodes g) j)%nat ∧ finish g !! k = Some (c, true).
Proof. apply recording_separates. Qed.

(** A fill, a join on it, an unrelated fill, and a fill after the join. *)
Definition demo_fill (v : RawView) (pattern : Z) : Result Z := Ok pattern.
Definition demo_copy (dst src : RawView) : Result Z := Ok 0.
Definition demo_dispatch (k : unit) (vs : list RawView) : Result Z := Ok 0.
Definition demo_raw (o : Z) : RawView := mkRawView (mkBuffer 1 0 64) o 8.
Definition demo_node (n : Z) : Node := mkNode 0 n.
Definition demo_ns : list (Recorded Z * option Z) :=
  [(Prepared 1, None); (Join, Some 0); (Prepared 2, None); (Prepared 3, Some 1)].
Definition demo_graph (n : nat) : Graph Z :=
  mkGraph 0 0 (take n demo_ns) (if (n =? 0)%nat then ∅ else {[1 := 64]}).

Lemma demo_recording :
  recording demo_fill demo_copy demo_dispatch (demo_graph 4) [[]; [demo_node 0]; []; [demo_node 1]].
Proof.
  pose proof (recording_new demo_fill demo_copy demo_dispatch 0 0) as H0.
  apply (recording_fill _ _ _ _ _ [] (demo_raw 0) 1 (demo_graph 1) (demo_node 0)) in H0;
    [|constructor|reflexivity].
  apply (recording_join _ _ _ _ _ [demo_node 0] (demo_graph 2) (demo_node 1)) in H0;
    [|repeat constructor; simpl; lia|reflexivity].
  apply (recording_fill _ _ _ _ _ [] (demo_raw 8) 2 (demo_graph 3) (demo_node 2)) in H0;
    [|constructor|reflexivity].
  apply (recording_fill _ _ _ _ _ [demo_node 1] (demo_raw 16) 3 (demo_graph 4) (demo_node 3)) in H0;
    [exact H0|repeat constructor; simpl; lia|reflexivity].
Qed.

Lemma finish_separates_dependencies_witness :
  finish (demo_graph 4) = [(1, false); (2, false); (3, true)]
  ∧ ∃ k c, (0 < k ≤ 2)%nat ∧ finish (demo_graph 4) !! k = Some (c, true).
Proof.
  split; [reflexivity|].
  apply (finish_separates_dependencies demo_fill demo_copy demo_dispatch (demo_graph 4) _ 0 3 1 None 3 (Some 1)
    demo_recording eq_refl eq_refl).
  apply tc_l with 1%nat; [|apply tc_once]; do 2 eexists; split_and!; [reflexivity|by left|reflexivity| | |];
    [reflexivity|by left|reflexivity].
Defined.

End Raw.
