(* ===== verification/Stream.v ===== *)
(** * Streams

    [Stream], [Inner], [Buffer], [Event], [Submission], [Readback] and
    [GraphExec] of src/src/runtime.rs: allocation with its pool, staged
    transfers, cached commands, the timeline of published work, budget
    reservations and replayed graphs.

    A [World] is one stream with the memory and the device it submits to.  Its
    buffers may belong to other streams of the device.  Host code runs one call
    at a time; between calls the device executes published entries in the order
    of each engine, and the queues forget executed entries at any time.  The
    outcome of every call into the native layer is an argument: an [Env] gives
    the result of each [Call].  Validating a launch and encoding its arguments
    is modelled in the files on dispatch; here a prepared command is the list of
    its parts, each a list of byte operations, with the backing it retains.
    Recorded graphs keep the nodes and dependencies of the file on recorded
    graphs; the commands of a batch between two barriers may overlap, so a launch
    takes what the device makes of each batch, which is constrained only by the
    barriers. *)

From S2P Require Import Prelude Access BTreeMap Sdma RawGraph.
Local Open Scope Z_scope.

Module Stream.

(** ** Memory *)

(** Every backing allocation by identity; contents by backing and offset. *)
Definition Memory : Type := nat → Z → Z.
Record Native : Type := mkNative {
  n_len : Z;
  n_device_only : bool;
  n_charge : option nat }.

(** [Buffer], [View]. *)
Record Buffer : Type := mkBuffer {
  native : nat;
  bytes : Z;
  owner : nat;
  device : nat;
  reservation : option nat;
  poolable : bool }.
Global Instance buffer_eq_dec : EqDecision Buffer.
Proof. solve_decision. Defined.
Record View : Type := mkView { v_owner : Buffer; v_offset : Z; v_length : Z }.

(** [Buffer::binding], [View::slice], [Buffer::try_slice]. *)
Definition binding (b : Buffer) : View := mkView b 0 (bytes b).
Definition slice (v : View) (offset length : Z) : Result View :=
  let? _ := checked_span offset length (v_length v) in Ok (mkView (v_owner v) (v_offset v + offset) length).
Definition try_slice (b : Buffer) (offset length : Z) : Result View := slice (binding b) offset length.

(** A kernel invocation as the dispatch cache compares it: the entry, the grid,
    the block, the constants and the bound ranges. *)
Record Launch : Type := mkLaunch {
  l_kernel : nat;
  l_grid : list Z;
  l_block : list Z;
  l_constants : list Z;
  l_bindings : list (nat * Z * Z) }.
Global Instance launch_eq_dec : EqDecision Launch.
Proof. solve_decision. Defined.

(** Byte operations of the device. *)
Inductive Work : Type :=
| Fill (b : nat) (offset length value : Z)
| Copy (d : nat) (d_offset : Z) (s : nat) (s_offset length : Z)
| Run (l : Launch).

Definition in_range (offset length a : Z) : bool := (offset <=? a) && (a <? offset + length).
Definition write_bytes (m : Memory) (b : nat) (offset : Z) (l : list Z) : Memory :=
  λ b' a, if (b' =? b)%nat && in_range offset (Z.of_nat (length l)) a
          then default 0 (l !! Z.to_nat (a - offset)) else m b' a.
Definition read_bytes (m : Memory) (b : nat) (offset n : Z) : list Z :=
  (λ k, m b (offset + Z.of_nat k)) <$> seq 0 (Z.to_nat n).

(** What a kernel computes from the bytes of its bound ranges: their new bytes. *)
Definition Effect : Type := Launch → list (list Z) → list (list Z).
Definition store_outputs (m : Memory) (l : list (nat * Z * Z)) (outputs : list (list Z)) : Memory :=
  foldl (λ m x, write_bytes m x.1.1.1 x.1.1.2 (take (Z.to_nat x.1.2) x.2)) m (zip l outputs).
Definition apply (effect : Effect) (m : Memory) (x : Work) : Memory :=
  match x with
  | Fill b offset length value => λ b' a, if (b' =? b)%nat && in_range offset length a then value else m b' a
  | Copy d d_offset s s_offset length =>
      λ b' a, if (b' =? d)%nat && in_range d_offset length a then m s (a - d_offset + s_offset) else m b' a
  | Run l => store_outputs m (l_bindings l) (effect l ((λ x, read_bytes m x.1.1 x.1.2 x.2) <$> l_bindings l))
  end.

(** ** State *)

(** [Command]: its engine (0 compute, 1 SDMA, 2 AQL), parts, retained backing
    and private bytes. *)
Record Command : Type := mkCommand {
  c_engine : nat;
  c_parts : list (list Work);
  c_natives : list nat;
  c_storage : Z }.

(** A published part, and [Completion]: an engine and a point of the timeline. *)
Record Entry : Type := mkEntry {
  e_engine : nat;
  e_point : nat;
  e_works : list Work;
  e_natives : list nat }.
Record Completion : Type := mkCompletion { k_engine : nat; k_point : nat }.

(** [CachedDispatch], [CachedTransfer]. *)
Record CachedDispatch : Type := mkDispatch { d_launch : Launch; d_command : Command }.
Record CachedTransfer : Type := mkTransfer {
  t_destination : nat;
  t_offset : Z;
  t_length : Z;
  t_source : option (nat * Z);
  t_value : Z;
  t_command : Command }.

(** [StreamOptions] with the facts of the device: whether kernels go to AQL,
    the transfer limit of an SDMA queue if there is one, whether allocations
    are device local, and whether a budget is attached. *)
Record Config : Type := mkConfig {
  stream_id : nat;
  device_id : nat;
  aql : bool;
  sdma : option Z;
  device_local : bool;
  budgeted : bool;
  effect : Effect }.

(** The device: allocations, budget reservations by identity, contents, the
    published entries not yet executed, the executed ones still leased, and
    [StreamTimeline]. *)
Record Device : Type := mkDevice {
  natives : list Native;
  charges : list Z;
  memory : Memory;
  inflight : list Entry;
  retired : list Entry;
  published : nat;
  latest : option Completion }.

(** [Inner]'s pool of released backing and its command caches. *)
Record Inner : Type := mkInner {
  free : list nat;
  dispatch_cache : list CachedDispatch;
  transfer_cache : list CachedTransfer }.

(** [Stream]; [locals] are the buffers owned by the running call. *)
Record Pools : Type := mkPools {
  locals : list Buffer;
  staging : list Buffer;
  staging_pool : list Buffer;
  scratch : list (Z * list Buffer);
  scratch_bytes : Z;
  scratch_limit : Z;
  uses : list nat }.

(** [Graph] while recording, with its nodes and their dependencies. *)
Record Recording : Type := mkRecording { r_graph : Raw.Graph Command; r_uses : list nat }.
Definition node_command (n : Raw.Recorded Command * option Z) : option Command :=
  match n.1 with Raw.Prepared c => Some c | Raw.Join => None end.
Definition r_commands (r : Recording) : list Command := omap node_command (Raw.nodes (r_graph r)).

(** What [GraphExec] submits: a command, or a batch of commands, cut into
    phases by the barriers between them. *)
Inductive Replay : Type := Single (c : Command) | Batched (phases : list (list Command)).
Definition command_works (c : Command) : list Work := concat (c_parts c).
Definition batch (phases : list (list Command)) : Command :=
  mkCommand 0 [concat phases ≫= command_works] (concat phases ≫= c_natives) (zsum c_storage (concat phases)).
Definition replay_command (r : Replay) : Command := match r with Single c => c | Batched phases => batch phases end.

(** [GraphExec], [Readback]. *)
Record GraphExec : Type := mkGraph {
  g_stream : nat;
  g_replays : list Replay;
  g_last : option Completion;
  g_failed : bool;
  g_uses : list nat }.
Definition g_commands (g : GraphExec) : list Command := replay_command <$> g_replays g.
Record Readback : Type := mkReadback { rb_buffer : Buffer; rb_length : Z }.

(** What the application owns, and the reservations that were leaked. *)
Record Client : Type := mkClient {
  handles : list Buffer;
  readbacks : list Readback;
  recordings : list Recording;
  graphs : list GraphExec;
  leaked : list nat;
  dropped : bool }.

Record World : Type := mkWorld {
  config : Config;
  dev : Device;
  inner : Inner;
  pools : Pools;
  client : Client }.

Definition set_dev (d : Device) (w : World) : World := mkWorld (config w) d (inner w) (pools w) (client w).
Definition set_inner (i : Inner) (w : World) : World := mkWorld (config w) (dev w) i (pools w) (client w).
Definition set_pools (p : Pools) (w : World) : World := mkWorld (config w) (dev w) (inner w) p (client w).
Definition set_client (c : Client) (w : World) : World := mkWorld (config w) (dev w) (inner w) (pools w) c.
Definition set_locals (l : list Buffer) (w : World) : World :=
  let p := pools w in
  set_pools (mkPools l (staging p) (staging_pool p) (scratch p) (scratch_bytes p) (scratch_limit p) (uses p)) w.
Definition set_uses (l : list nat) (w : World) : World :=
  let p := pools w in
  set_pools (mkPools (locals p) (staging p) (staging_pool p) (scratch p) (scratch_bytes p) (scratch_limit p) l) w.
Definition set_staging (l pool : list Buffer) (w : World) : World :=
  let p := pools w in
  set_pools (mkPools (locals p) l pool (scratch p) (scratch_bytes p) (scratch_limit p) (uses p)) w.
Definition set_scratch (m : list (Z * list Buffer)) (n limit : Z) (w : World) : World :=
  let p := pools w in
  set_pools (mkPools (locals p) (staging p) (staging_pool p) m n limit (uses p)) w.
Definition set_handles (l : list Buffer) (w : World) : World :=
  let c := client w in
  set_client (mkClient l (readbacks c) (recordings c) (graphs c) (leaked c) (dropped c)) w.
Definition set_readbacks (l : list Readback) (w : World) : World :=
  let c := client w in
  set_client (mkClient (handles c) l (recordings c) (graphs c) (leaked c) (dropped c)) w.
Definition set_graphs (r : list Recording) (l : list GraphExec) (w : World) : World :=
  let c := client w in
  set_client (mkClient (handles c) (readbacks c) r l (leaked c) (dropped c)) w.
Definition set_leaked (l : list nat) (d : bool) (w : World) : World :=
  let c := client w in
  set_client (mkClient (handles c) (readbacks c) (recordings c) (graphs c) l d) w.
Definition set_memory (m : Memory) (w : World) : World :=
  let d := dev w in
  set_dev (mkDevice (natives d) (charges d) m (inflight d) (retired d) (published d) (latest d)) w.

(** Every buffer, and every reference to a backing but those of the buffers. *)
Definition scratch_buffers (m : list (Z * list Buffer)) : list Buffer := m ≫= snd.
Definition buffers (w : World) : list Buffer :=
  locals (pools w) ++ staging (pools w) ++ staging_pool (pools w) ++ scratch_buffers (scratch (pools w))
  ++ handles (client w) ++ (rb_buffer <$> readbacks (client w)).
Definition cached_natives (i : Inner) : list nat :=
  (dispatch_cache i ≫= λ e, c_natives (d_command e)) ++ (transfer_cache i ≫= λ e, c_natives (t_command e)).
Definition graph_natives (c : Client) : list nat :=
  (recordings c ≫= λ r, r_commands r ≫= c_natives) ++ (graphs c ≫= λ g, g_commands g ≫= c_natives).
Definition references (w : World) : list nat :=
  cached_natives (inner w) ++ graph_natives (client w)
  ++ (inflight (dev w) ≫= e_natives) ++ (retired (dev w) ≫= e_natives).

(** ** Fallible state *)

Definition M (A : Type) : Type := World → World * Result A.
Definition ret {A} (a : A) : M A := λ w, (w, Ok a).
Definition fail {A} (e : Error) : M A := λ w, (w, Err e).
Definition bind {A B} (m : M A) (k : A → M B) : M B :=
  λ w, match m w with (w, Ok a) => k a w | (w, Err e) => (w, Err e) end.
Definition lift {A} (r : Result A) : M A := λ w, (w, r).
Definition gets {A} (f : World → A) : M A := λ w, (w, Ok (f w)).
Definition modify (f : World → World) : M unit := λ w, (f w, Ok tt).
Notation "'let!' x := m 'in' k" := (bind m (λ x, k))
  (at level 10, x pattern, m at level 100, k at level 200) : hrx_scope.

(** The results of the native calls of one operation, by call site, and the
    private bytes of the command it prepares. *)
Inductive Call : Type :=
| CReserve | CAllocate | CWrite | CRead | CValidate | CPrepare | CFence | CPart (i : nat)
| CDispatch | CBusyWait | CRedispatch | CWait | CRefresh.
Record Env : Type := mkEnv { outcome : Call → Result unit; storage : nat }.

(** ** The timeline *)

(** The device executes an entry; waiting for a completion ends when its engine
    has executed everything up to that point. *)
Definition execute (f : Effect) (m : Memory) (e : Entry) : Memory := foldl (apply f) m (e_works e).
Definition covered (k : Completion) (e : Entry) : Prop :=
  e_engine e = k_engine k ∧ (e_point e <= k_point k)%nat.
Global Instance covered_dec k e : Decision (covered k e).
Proof. unfold covered. apply _. Defined.
Definition run_until (k : Completion) (w : World) : World :=
  let d := dev w in
  let done := filter (covered k) (inflight d) in
  set_dev (mkDevice (natives d) (charges d) (foldl (execute (effect (config w))) (memory d) done)
             (filter (λ e, ¬ covered k e) (inflight d)) (retired d ++ done) (published d) (latest d)) w.

(** [Completion::wait], [Completion::refresh]. *)
Definition wait_for (r : Result unit) (k : Completion) : M unit :=
  let! _ := lift r in modify (run_until k).
Definition refresh (r : Result unit) (k : Completion) : M bool :=
  let! _ := lift r in
  gets (λ w, forallb (λ e, negb (e_point e =? k_point k)%nat) (inflight (dev w))).

(** [Inner::wait]. *)
Definition inner_wait (r : Result unit) : M unit := λ w,
  match latest (dev w) with
  | Some k => wait_for r k w
  | None => (w, Ok tt)
  end.

(** Publication of one part with its place in the timeline. *)
Definition publish (c : Command) (works : list Work) (w : World) : World :=
  let d := dev w in
  set_dev (mkDevice (natives d) (charges d) (memory d)
             (inflight d ++ [mkEntry (c_engine c) (published d) works (c_natives c)]) (retired d)
             (S (published d)) (Some (mkCompletion (c_engine c) (published d)))) w.
Fixpoint submit_parts (env : Env) (c : Command) (i : nat) (parts : list (list Work)) : M unit :=
  match parts with
  | [] => ret tt
  | part :: rest =>
      let! _ := lift (outcome env (CPart i)) in
      let! _ := modify (publish c part) in
      submit_parts env c (S i) rest
  end.

(** [Inner::submit]: a change of engine waits for the previous one. *)
Definition fence (env : Env) (c : Command) : M unit := λ w,
  match latest (dev w) with
  | Some k => if (k_engine k =? c_engine c)%nat then (w, Ok tt) else wait_for (outcome env CFence) k w
  | None => (w, Ok tt)
  end.
Definition submit (env : Env) (c : Command) : M unit :=
  let! _ := fence env c in
  if (c_engine c =? 2)%nat then
    match outcome env CDispatch with
    | Err (Busy _) =>
        let! _ := inner_wait (outcome env CBusyWait) in
        let! _ := lift (outcome env CRedispatch) in
        modify (publish c (concat (c_parts c)))
    | Err e => fail e
    | Ok _ => modify (publish c (concat (c_parts c)))
    end
  else submit_parts env c 0 (c_parts c).

(** ** Buffers *)

Definition MIB64 : Z := 64 * 1024 * 1024.

(** [Buffer::drop], of a buffer already taken from its place: its owner forgets
    the cached commands that bind it and may keep its backing. *)
Definition binds (b : nat) (e : CachedDispatch) : Prop := b ∈ (l_bindings (d_launch e)).*1.*1.
Global Instance binds_dec b e : Decision (binds b e).
Proof. unfold binds. apply _. Defined.
Definition transfers (b : nat) (e : CachedTransfer) : Prop :=
  b = t_destination e ∨ fst <$> t_source e = Some b.
Global Instance transfers_dec b e : Decision (transfers b e).
Proof. unfold transfers. apply _. Defined.
Definition evict (b : Buffer) (w : World) : World :=
  set_inner (mkInner (free (inner w)) (filter (λ e, ¬ binds (native b) e) (dispatch_cache (inner w)))
               (filter (λ e, ¬ transfers (native b) e) (transfer_cache (inner w)))) w.
Definition length_of (w : World) (n : nat) : Z := from_option n_len 0 (natives (dev w) !! n).
(** [fabric::Buffer::exclusively_owned], of the dropped buffer's backing. *)
Definition exclusively_owned (w : World) (n : nat) : bool :=
  bool_decide (n ∉ (native <$> buffers w) ++ free (inner w) ++ references w).
Definition drop_buffer (w : World) (b : Buffer) : World :=
  if (owner b =? stream_id (config w))%nat then
    let w := evict b w in
    let pool := free (inner w) in
    if poolable b && bool_decide (reservation b = None) && exclusively_owned w (native b) && (bytes b <=? MIB64)
       && (length pool <? 16)%nat && (bytes b <=? saturating_sub MIB64 (zsum (length_of w) pool))
    then set_inner (mkInner (pool ++ [native b]) (dispatch_cache (inner w)) (transfer_cache (inner w))) w
    else w
  else w.

(** A call that ends drops the buffers it still owns. *)
Definition drop_locals (w : World) : World := foldl drop_buffer (set_locals [] w) (locals (pools w)).
Definition call {A} (m : M A) : M A := λ w, let (w, r) := m w in (drop_locals w, r).
Definition own (b : Buffer) : M Buffer :=
  let! _ := modify (λ w, set_locals (b :: locals (pools w)) w) in ret b.
Definition disown (b : Buffer) : M unit :=
  modify (λ w, set_locals (filter (λ x, native x ≠ native b) (locals (pools w))) w).
(** The call returns its buffer. *)
Definition give (b : Buffer) : M Buffer :=
  let! _ := disown b in
  let! _ := modify (λ w, set_handles (b :: handles (client w)) w) in ret b.

(** ** Allocation *)

(** [Stream::reserve]. *)
Definition reserve (env : Env) (n : Z) : M (option nat) := λ w,
  if budgeted (config w) then
    match outcome env CReserve with
    | Err e => (w, Err e)
    | Ok _ =>
        let d := dev w in
        (set_dev (mkDevice (natives d) (charges d ++ [Z.max n 1]) (memory d) (inflight d) (retired d) (published d)
                    (latest d)) w, Ok (Some (length (charges d))))
    end
  else (w, Ok None).

(** A fresh backing of the fabric. *)
Definition new_native (env : Env) (n : Z) (device_only : bool) (charge : option nat) : M nat :=
  let! _ := lift (outcome env CAllocate) in
  let! backing := gets (λ w, length (natives (dev w))) in
  let! _ := modify (λ w, let d := dev w in
    set_dev (mkDevice (natives d ++ [mkNative n device_only charge]) (charges d) (memory d) (inflight d) (retired d)
               (published d) (latest d)) w) in
  ret backing.
Definition new_buffer (backing : nat) (n : Z) (charge : option nat) (poolable : bool) : M Buffer :=
  let! c := gets config in own (mkBuffer backing n (stream_id c) (device_id c) charge poolable).

(** [fabric::Buffer::write], [fabric::Buffer::read]. *)
Definition host_write (env : Env) (backing : nat) (offset : Z) (l : list Z) : M unit :=
  let! _ := lift (outcome env CWrite) in
  modify (λ w, set_memory (write_bytes (memory (dev w)) backing offset l) w).
Definition host_read (env : Env) (backing : nat) (offset n : Z) : M (list Z) :=
  let! _ := lift (outcome env CRead) in
  gets (λ w, read_bytes (memory (dev w)) backing offset n).
Definition device_only (backing : nat) : M bool :=
  gets (λ w, from_option n_device_only false (natives (dev w) !! backing)).

(** [Stream::allocate_staging], [Stream::allocate_shared]. *)
Definition allocate_staging (env : Env) (n : Z) : M Buffer :=
  let! charge := reserve env n in
  let! backing := new_native env n false charge in
  new_buffer backing n charge false.
Definition allocate_shared (env : Env) (n : Z) : M Buffer := allocate_staging env (Z.max n 1).

(** ** Commands *)

(** [BudgetUses::retain]. *)
Definition retain_use (l : list nat) (v : View) : list nat :=
  match reservation (v_owner v) with
  | Some r => if bool_decide (r ∈ l) then l else r :: l
  | None => l
  end.
Definition retain (views : list View) : M unit :=
  modify (λ w, set_uses (foldl retain_use (uses (pools w)) views) w).

(** [owns]. *)
Definition owns (b : Buffer) : M unit := λ w,
  if (device_id (config w) =? device b)%nat then (w, Ok tt) else (w, Err (Message "buffer belongs to another device")).

(** The parts of a transfer: an SDMA queue publishes its chunks one by one, the
    compute queue as one batch. *)
Definition COMPUTE_LIMIT : Z := 2 ^ 32 - 256.
Definition spans (limit : option Z) (n : Z) : list (list (Z * Z)) :=
  match limit with
  | Some limit => (λ c, [c]) <$> Sdma.parts_of limit n
  | None => [Sdma.parts_of COMPUTE_LIMIT n]
  end.
Definition works_of (f : Z → Z → Work) (l : list (list (Z * Z))) : list (list Work) :=
  (λ part : list (Z * Z), (λ c : Z * Z, f c.1 c.2) <$> part) <$> l.
Definition engine_of (limit : option Z) : nat := match limit with Some _ => 1 | None => 0 end.
(** [Queue::prepare_fill], [Queue::prepare_copy] on the queue with that limit. *)
Definition native_fill (env : Env) (limit : option Z) (v : View) (value : Z) : M Command := λ w,
  let b := native (v_owner v) in
  (w, let? _ := Sdma.transfer_range (length_of w b) (v_offset v) (v_length v) in
      let? _ := outcome env CPrepare in
      Ok (mkCommand (engine_of limit)
            (works_of (λ o n, Fill b (v_offset v + o) n value) (spans limit (v_length v))) [b] (Z.of_nat (storage env)))).
Definition ranges_meet (d : nat) (d_offset : Z) (s : nat) (s_offset n : Z) : bool :=
  (d =? s)%nat && (d_offset <? s_offset + n) && (s_offset <? d_offset + n).
Definition native_copy (env : Env) (limit : option Z) (dst src : View) : M Command := λ w,
  let d := native (v_owner dst) in
  let s := native (v_owner src) in
  (w, let? _ := Sdma.transfer_range (length_of w d) (v_offset dst) (v_length dst) in
      let? _ := Sdma.transfer_range (length_of w s) (v_offset src) (v_length dst) in
      if ranges_meet d (v_offset dst) s (v_offset src) (v_length dst)
      then Err (Message "native copy ranges overlap")
      else
        let? _ := outcome env CPrepare in
        Ok (mkCommand (engine_of limit)
              (works_of (λ o n, Copy d (v_offset dst + o) s (v_offset src + o) n) (spans limit (v_length dst)))
              [d; s] (Z.of_nat (storage env)))).

(** The transfer cache: at most 128 commands, the oldest leaves first. *)
Definition push_transfer (e : CachedTransfer) (w : World) : World :=
  let l := transfer_cache (inner w) in
  set_inner (mkInner (free (inner w)) (dispatch_cache (inner w))
               ((if (length l =? 128)%nat then drop 1 l else l) ++ [e])) w.
Definition find_transfer (p : CachedTransfer → bool) : M (option Command) :=
  gets (λ w, (λ x, t_command x.2) <$> list_find (λ e, p e = true) (transfer_cache (inner w))).
(** [Inner::prepare_fill], [Inner::prepare_copy]. *)
Definition same_fill (dst : View) (value : Z) (e : CachedTransfer) : bool :=
  (t_destination e =? native (v_owner dst))%nat && (t_offset e =? v_offset dst) && (t_length e =? v_length dst)
  && bool_decide (t_source e = None) && (t_value e =? value).
Definition same_copy (dst src : View) (e : CachedTransfer) : bool :=
  (t_destination e =? native (v_owner dst))%nat && (t_offset e =? v_offset dst) && (t_length e =? v_length dst)
  && bool_decide (t_source e = Some (native (v_owner src), v_offset src)).
Definition prepare_fill (env : Env) (dst : View) (value : Z) : M Command :=
  let! _ := owns (v_owner dst) in
  let! found := find_transfer (same_fill dst value) in
  match found with
  | Some c => ret c
  | None =>
      let! c := gets config in
      let! command := native_fill env (sdma c) dst value in
      let! _ := (if (owner (v_owner dst) =? stream_id c)%nat
                 then modify (push_transfer (mkTransfer (native (v_owner dst)) (v_offset dst) (v_length dst) None
                                               value command))
                 else ret tt) in
      ret command
  end.
Definition prepare_copy (env : Env) (dst src : View) : M Command :=
  let! _ := owns (v_owner dst) in
  let! _ := owns (v_owner src) in
  if negb (v_length dst =? v_length src) then fail (Message "copy requires equal spans")
  else
    let! found := find_transfer (same_copy dst src) in
    match found with
    | Some c => ret c
    | None =>
        let! c := gets config in
        let! command := native_copy env (sdma c) dst src in
        let! _ := (if (owner (v_owner dst) =? stream_id c)%nat && (owner (v_owner src) =? stream_id c)%nat
                   then modify (push_transfer (mkTransfer (native (v_owner dst)) (v_offset dst) (v_length dst)
                                                 (Some (native (v_owner src), v_offset src)) 0 command))
                   else ret tt) in
        ret command
    end.

(** [Stream::fill], [Stream::copy]. *)
Definition fill (env : Env) (dst : View) (value : Z) : M unit :=
  let! _ := retain [dst] in
  let! command := prepare_fill env dst value in
  submit env command.
Definition copy (env : Env) (dst src : View) : M unit :=
  let! _ := retain [dst; src] in
  let! command := prepare_copy env dst src in
  submit env command.

(** ** Staged transfers *)

Definition STAGING_LIMIT : Z := MIB64.
Definition total (l : list Buffer) : Z := zsum bytes l.

(** The position of the first smallest buffer that satisfies [ok]. *)
Fixpoint smallest (ok : Buffer → bool) (l : list Buffer) : option (nat * Z) :=
  match l with
  | [] => None
  | b :: rest =>
      let other := prod_map S (λ n, n) <$> smallest ok rest in
      if ok b then
        match other with
        | Some (j, n) => if n <? bytes b then Some (j, n) else Some (0%nat, bytes b)
        | None => Some (0%nat, bytes b)
        end
      else other
  end.

(** [Stream::reclaim_staging]: the room made in the pool for one buffer, with
    the buffers dropped for it; [None] is the [unwrap] of an empty pool. *)
Fixpoint make_room (fuel : nat) (pool : list Buffer) (cached n : Z) : option (list Buffer * Z * list Buffer) :=
  if (8 <=? length pool)%nat || (saturating_sub STAGING_LIMIT cached <? n) then
    match fuel, smallest (λ _, true) pool with
    | S fuel, Some (i, size) =>
        '(pool', cached', evicted) ← make_room fuel (swap_remove i pool) (cached - size) n;
        Some (pool', cached', option_list (pool !! i) ++ evicted)
    | _, _ => None
    end
  else Some (pool, cached, []).
Fixpoint reclaim_loop (l pool : list Buffer) (cached : Z) : option (list Buffer * list Buffer) :=
  match l with
  | [] => Some (pool, [])
  | b :: rest =>
      if STAGING_LIMIT <? bytes b then
        '(pool', evicted) ← reclaim_loop rest pool cached; Some (pool', b :: evicted)
      else
        '(pool1, cached1, evicted1) ← make_room (length pool) pool cached (bytes b);
        '(pool', evicted) ← reclaim_loop rest (pool1 ++ [b]) (cached1 + bytes b);
        Some (pool', evicted1 ++ evicted)
  end.
Definition reclaim_staging (w : World) : World :=
  match reclaim_loop (staging (pools w)) (staging_pool (pools w)) (total (staging_pool (pools w))) with
  | Some (pool, evicted) => foldl drop_buffer (set_staging [] pool w) evicted
  | None => w
  end.

(** [Stream::synchronize]. *)
Definition synchronize (env : Env) : M unit :=
  let! _ := inner_wait (outcome env CWait) in
  let! _ := modify reclaim_staging in
  modify (set_uses []).

(** [Stream::copy_staging], [stage], [unstage]. *)
Definition copy_staging (env : Env) (dst src : View) : M unit :=
  let! command := native_copy env None dst src in
  let! _ := retain [dst; src] in
  let! _ := submit env command in
  let! _ := inner_wait (outcome env CWait) in
  modify (set_uses []).
Definition stage (env : Env) (dst : View) (l : list Z) : M unit :=
  let! dst := lift (slice dst 0 (Z.of_nat (length l))) in
  match l with
  | [] => ret tt
  | _ =>
      let! b := allocate_staging env (Z.of_nat (length l)) in
      let! _ := host_write env (native b) 0 l in
      copy_staging env dst (binding b)
  end.
Definition unstage (env : Env) (src : View) (n : Z) : M (list Z) :=
  let! src := lift (slice src 0 n) in
  if n =? 0 then ret []
  else
    let! b := allocate_staging env n in
    let! _ := copy_staging env (binding b) src in
    host_read env (native b) 0 n.

(** [Stream::allocate_initialized]; [env'] serves the staging of its data. *)
Definition take_free (n : Z) : M (option nat) := λ w,
  let l := free (inner w) in
  match list_find (λ b, length_of w b = n) l with
  | Some (i, b) =>
      (set_inner (mkInner (swap_remove i l) (dispatch_cache (inner w)) (transfer_cache (inner w))) w, Ok (Some b))
  | None => (w, Ok None)
  end.
Definition write_data (env : Env) (backing : nat) (data : option (list Z)) : M unit :=
  match data with Some l => host_write env backing 0 l | None => ret tt end.
Definition allocate_initialized (env env' : Env) (n : Z) (data : option (list Z)) : M Buffer :=
  let! c := gets config in
  match sdma c with
  | Some _ =>
      let! b := allocate_shared env n in
      let! _ := write_data env (native b) data in
      ret b
  | None =>
      let! charge := reserve env n in
      let! reused := (match charge with None => take_free n | Some _ => ret None end) in
      let! backing :=
        match reused with
        | Some backing =>
            let! hidden := device_only backing in
            let! _ := (if hidden then ret tt else write_data env backing data) in
            ret backing
        | None =>
            let! backing := new_native env n (device_local c) charge in
            let! _ := (if device_local c then ret tt
                       else match data with
                            | Some l => modify (λ w, set_memory (write_bytes (memory (dev w)) backing 0 l) w)
                            | None => ret tt end) in
            ret backing
        end in
      let! b := new_buffer backing n charge true in
      let! hidden := device_only backing in
      let! _ :=
        match data with
        | Some l => if hidden then let! v := lift (try_slice b 0 n) in stage env' v l else ret tt
        | None => ret tt
        end in
      ret b
  end.

(** [Stream::allocate], [allocate_from], [allocate_zeroed]. *)
Definition allocate (env : Env) (n : Z) : M Buffer :=
  call (let! b := allocate_initialized env env (Z.max n 1) None in give b).
Definition allocate_from (env env' : Env) (l : list Z) : M Buffer :=
  match l with
  | [] => fail (Message "initial data must be nonempty")
  | _ => call (let! b := allocate_initialized env env' (Z.of_nat (length l)) (Some l) in give b)
  end.
(** [Inner::fill_now]. *)
Definition fill_now (env : Env) (dst : View) (value : Z) : M unit :=
  let! command := native_fill env None dst value in
  let! _ := submit env command in
  inner_wait (outcome env CWait).
Definition allocate_zeroed (env env' : Env) (n : Z) : M Buffer :=
  call (
    let! b := allocate_initialized env env (Z.max n 1) None in
    let! hidden := device_only (native b) in
    let! _ := (if hidden then let! v := lift (try_slice b 0 (bytes b)) in fill_now env' v 0
               else let! _ := lift (outcome env' CWrite) in
                    modify (λ w, set_memory (apply (effect (config w)) (memory (dev w))
                                               (Fill (native b) 0 (bytes b) 0)) w)) in
    give b).
Definition shared (env : Env) (n : Z) : M Buffer := call (let! b := allocate_shared env n in give b).
(** [Stream::storage_buffer], of backing registered elsewhere. *)
Definition storage_buffer (r : Result unit) (backing : nat) : M Buffer :=
  let! _ := lift r in
  let! c := gets config in
  let! n := gets (λ w, length_of w backing) in
  let b := mkBuffer backing n (stream_id c) (device_id c) None false in
  let! _ := modify (λ w, set_handles (b :: handles (client w)) w) in
  ret b.

(** [Stream::upload_blocking], [read_blocking]. *)
Definition upload_blocking (env env' : Env) (dst : View) (l : list Z) : M unit :=
  call (
    let! _ := owns (v_owner dst) in
    let! _ := lift (checked_span 0 (Z.of_nat (length l)) (v_length dst)) in
    let! _ := synchronize env in
    let! hidden := device_only (native (v_owner dst)) in
    if hidden then stage env' dst l else host_write env (native (v_owner dst)) (v_offset dst) l).
Definition read_blocking (env env' : Env) (src : View) (n : Z) : M (list Z) :=
  call (
    let! _ := owns (v_owner src) in
    let! _ := lift (checked_span 0 n (v_length src)) in
    let! _ := synchronize env in
    let! hidden := device_only (native (v_owner src)) in
    if hidden then unstage env' src n else host_read env (native (v_owner src)) (v_offset src) n).

(** [Stream::upload_chunk]. *)
Definition pressed (w : World) (n : Z) : bool :=
  (8 <=? length (staging (pools w)))%nat || (STAGING_LIMIT <? saturating_add (total (staging (pools w))) n).
Definition take_staging (env : Env) (n : Z) : M Buffer := λ w,
  let pool := staging_pool (pools w) in
  match (x ← smallest (λ b, n <=? bytes b) pool; b ← pool !! x.1; Some (x.1, b)) with
  | Some (i, b) => own b (set_staging (staging (pools w)) (swap_remove i pool) w)
  | None => allocate_staging env n w
  end.
Definition upload_chunk (env : Env) (dst : View) (l : list Z) : M unit :=
  let n := Z.of_nat (length l) in
  let! full := gets (λ w, pressed w n) in
  let! _ := (if full then synchronize env else ret tt) in
  let! b := take_staging env n in
  let! _ := host_write env (native b) 0 l in
  let! to := lift (slice dst 0 n) in
  let! from := lift (try_slice b 0 n) in
  let! _ := copy env to from in
  let! _ := disown b in
  modify (λ w, set_staging (staging (pools w) ++ [b]) (staging_pool (pools w)) w).
(** [bytes.chunks(STAGING_LIMIT)]. *)
Fixpoint byte_chunks (fuel : nat) (l : list Z) : list (list Z) :=
  match fuel, l with
  | S fuel, _ :: _ =>
      if Z.of_nat (length l) <=? STAGING_LIMIT then [l]
      else take (Z.to_nat STAGING_LIMIT) l :: byte_chunks fuel (drop (Z.to_nat STAGING_LIMIT) l)
  | _, _ => []
  end.
Fixpoint upload_chunks (envs : nat → Env) (dst : View) (index : nat) (l : list (list Z)) : M unit :=
  match l with
  | [] => ret tt
  | chunk :: rest =>
      let! part := lift (slice dst (Z.of_nat index * STAGING_LIMIT) (Z.of_nat (length chunk))) in
      let! _ := upload_chunk (envs index) part chunk in
      upload_chunks envs dst (S index) rest
  end.
(** [Stream::upload]. *)
Definition upload (envs : nat → Env) (dst : View) (l : list Z) : M unit :=
  call (
    let! _ := owns (v_owner dst) in
    let! _ := lift (checked_span 0 (Z.of_nat (length l)) (v_length dst)) in
    upload_chunks envs dst 0 (byte_chunks (length l) l)).

(** [Stream::read]; [Readback::wait] and its drop, of the readback at [i]. *)
Definition read (env : Env) (src : View) : M unit :=
  call (
    let! b := allocate_staging env (Z.max (v_length src) 1) in
    let! _ := (if v_length src =? 0 then ret tt
               else let! to := lift (try_slice b 0 (v_length src)) in copy env to src) in
    let! _ := disown b in
    modify (λ w, set_readbacks (mkReadback b (v_length src) :: readbacks (client w)) w)).
Definition take_readback (i : nat) : M (option Readback) := λ w,
  match readbacks (client w) !! i with
  | Some r =>
      (set_locals (rb_buffer r :: locals (pools w)) (set_readbacks (delete i (readbacks (client w))) w), Ok (Some r))
  | None => (w, Ok None)
  end.
Definition readback_drop (i : nat) : M unit := call (let! _ := take_readback i in ret tt).
Definition readback_wait (env : Env) (i : nat) : M (list Z) :=
  call (
    let! taken := take_readback i in
    match taken with
    | None => ret []
    | Some r =>
        let! c := gets config in
        if negb (owner (rb_buffer r) =? stream_id c)%nat then fail (Message "readback belongs to another stream")
        else
          let! _ := synchronize env in
          host_read env (native (rb_buffer r)) 0 (rb_length r)
    end).

(** ** Dispatch *)

Definition DISPATCH_CACHE_ENTRIES : nat := 1024.
Definition DISPATCH_CACHE_BYTES : Z := 2 ^ 24.

Definition range_of (v : View) : nat * Z * Z := (native (v_owner v), v_offset v, v_length v).
Fixpoint owns_all (views : list View) : M unit :=
  match views with
  | [] => ret tt
  | v :: rest => let! _ := owns (v_owner v) in owns_all rest
  end.
(** [Inner::prepare_dispatch]: kernel and launch checks, the owners, and the
    native preparation of the packed arguments. *)
Definition prepare_dispatch (env : Env) (l : Launch) (views : list View) : M Command :=
  let! _ := lift (outcome env CValidate) in
  let! _ := owns_all views in
  let! _ := lift (outcome env CPrepare) in
  let! c := gets config in
  ret (mkCommand (if aql c then 2 else 0) [[Run l]] (l_bindings l).*1.*1 (Z.of_nat (storage env))).

(** The eviction loop of [Stream::dispatch], oldest first. *)
Fixpoint trim (l : list CachedDispatch) (retained n : Z) : list CachedDispatch :=
  match l with
  | [] => []
  | e :: rest =>
      if (DISPATCH_CACHE_ENTRIES <=? length l)%nat || (DISPATCH_CACHE_BYTES <? retained + n)
      then trim rest (retained - c_storage (d_command e)) n
      else l
  end.
Definition cache_dispatch (l : Launch) (c : Command) (w : World) : World :=
  let n := c_storage c in
  if DISPATCH_CACHE_BYTES <? n then w
  else
    let cache := dispatch_cache (inner w) in
    set_inner (mkInner (free (inner w))
                 (trim cache (zsum (λ e, c_storage (d_command e)) cache) n ++ [mkDispatch l c])
                 (transfer_cache (inner w))) w.
(** [Stream::dispatch]. *)
Definition dispatch (env : Env) (kernel : nat) (grid block constants : list Z) (views : list View) : M unit :=
  let l := mkLaunch kernel grid block constants (range_of <$> views) in
  let! _ := retain views in
  let! c := gets config in
  if forallb (λ v, (owner (v_owner v) =? stream_id c)%nat) views then
    let! found := gets (λ w, (λ x, d_command x.2) <$> list_find (λ e, d_launch e = l) (dispatch_cache (inner w))) in
    match found with
    | Some command => submit env command
    | None =>
        let! command := prepare_dispatch env l views in
        let! _ := submit env command in
        modify (cache_dispatch l command)
    end
  else
    let! command := prepare_dispatch env l views in
    submit env command.

(** ** Scratch *)

Definition pop {A} (l : list A) : list A := take (pred (length l)) l.
Definition pop_scratch (size : Z) (m : list (Z * list Buffer)) : list (Z * list Buffer) :=
  let popped := BTree.entry_or size [] pop m in
  if (length (default [] (BTree.get size popped)) =? 0)%nat then BTree.remove size popped else popped.
(** [Stream::scratch]; a list of the map is never empty. *)
Definition take_scratch (n : Z) (w : World) : option (Buffer * World) :=
  let p := pools w in
  '(size, l) ← BTree.first_in (Z.max n 1) (Z.max (saturating_mul n 2) 1) (scratch p);
  b ← list.last l;
  Some (b, set_scratch (pop_scratch size (scratch p)) (scratch_bytes p - bytes b) (scratch_limit p) w).
Definition get_scratch (env : Env) (n : Z) : M Buffer := λ w,
  match take_scratch n w with
  | Some (b, w) => (set_handles (b :: handles (client w)) w, Ok b)
  | None => allocate env n w
  end.
(** The application drops the handle at [i]. *)
Definition without_handle (i : nat) (w : World) : World := set_handles (delete i (handles (client w))) w.
Definition drop_handle (i : nat) (w : World) : World :=
  match handles (client w) !! i with
  | Some b => drop_buffer (without_handle i w) b
  | None => w
  end.
(** [Stream::recycle]. *)
Definition keep_scratch (b : Buffer) (w : World) : World :=
  let p := pools w in
  set_scratch (BTree.entry_or (bytes b) [] (λ l, l ++ [b]) (scratch p)) (scratch_bytes p + bytes b) (scratch_limit p) w.
Definition recycle (i : nat) : M unit := λ w,
  match handles (client w) !! i with
  | None => (w, Ok tt)
  | Some b =>
      if negb (owner b =? stream_id (config w))%nat
      then (drop_handle i w, Err (Message "scratch belongs to another stream"))
      else if bytes b <=? saturating_sub (scratch_limit (pools w)) (scratch_bytes (pools w))
      then (keep_scratch b (without_handle i w), Ok tt)
      else (drop_handle i w, Ok tt)
  end.
(** [Stream::set_scratch_limit]: the largest sizes leave first. *)
Fixpoint shrink_scratch (fuel : nat) (m : list (Z * list Buffer)) (held limit : Z)
    : list (Z * list Buffer) * Z * list Buffer :=
  match fuel, list.last m with
  | S fuel, Some (_, l) =>
      if limit <? held then
        let '(m', held', evicted) := shrink_scratch fuel (pop m) (held - total l) limit in (m', held', l ++ evicted)
      else (m, held, [])
  | _, _ => (m, held, [])
  end.
Definition set_scratch_limit (limit : Z) (w : World) : World :=
  let p := pools w in
  let '(m, held, evicted) := shrink_scratch (length (scratch p)) (scratch p) (scratch_bytes p) limit in
  foldl drop_buffer (set_scratch m held limit w) evicted.

(** ** Events *)

(** [Event]: the stream it was recorded on and the snapshot of its timeline. *)
Record Event : Type := mkEvent { ev_device : nat; ev_stream : nat; ev_done : option Completion }.
Definition record_event : M Event :=
  gets (λ w, mkEvent (device_id (config w)) (stream_id (config w)) (latest (dev w))).
(** [Event::is_complete], [Event::synchronize]; of another stream's event the
    call only learns its [answer]. *)
Definition event_is_complete (env : Env) (answer : bool) (ev : Event) : M bool :=
  let! c := gets config in
  match ev_done ev with
  | None => ret true
  | Some k =>
      if (ev_stream ev =? stream_id c)%nat then refresh (outcome env CRefresh) k
      else let! _ := lift (outcome env CRefresh) in ret answer
  end.
Definition event_wait (env : Env) (ev : Event) : M unit :=
  let! c := gets config in
  match ev_done ev with
  | Some k => if (ev_stream ev =? stream_id c)%nat then wait_for (outcome env CWait) k else lift (outcome env CWait)
  | None => ret tt
  end.
(** [Stream::wait_event]. *)
Definition wait_event (env : Env) (ev : Event) : M unit :=
  let! c := gets config in
  if negb (ev_device ev =? device_id c)%nat then fail (Message "event belongs to another device")
  else
    match ev_done ev with
    | Some k =>
        if (k_engine k =? 0)%nat && negb (aql c) && bool_decide (sdma c = None) then
          let! _ := lift (outcome env CPrepare) in
          submit env (mkCommand 0 [[]] [] (Z.of_nat (storage env)))
        else event_wait env ev
    | None => ret tt
    end.
(** [Submission::is_complete]. *)
Definition submission_is_complete (env : Env) : M bool :=
  let! ev := record_event in
  let! done := event_is_complete env true ev in
  if done then
    let! _ := modify reclaim_staging in
    let! _ := modify (set_uses []) in
    ret true
  else ret false.

(** ** Graphs *)

(** [Stream::owned_graph]. *)
Definition begin_graph (id : nat) (w : World) : World :=
  set_graphs (mkRecording (Raw.owned_graph id (device_id (config w))) [] :: recordings (client w)) (graphs (client w)) w.
(** A view as the recording keeps it. *)
Definition raw_view (v : View) : Raw.RawView :=
  let b := v_owner v in Raw.mkRawView (Raw.mkBuffer (Z.of_nat (native b)) (device b) (bytes b)) (v_offset v) (v_length v).
(** The recording at [i]: [Graph::validate_dependencies], and
    [Graph::retain_bindings] followed by [Graph::record]. *)
Definition no_recording : Error := Message "no such recording".
Definition validate_after (i : nat) (after : list Raw.Node) : M unit := λ w,
  (w, let? r := ok_or (recordings (client w) !! i) no_recording in Raw.validate_dependencies after (r_graph r)).
Definition record_node (i : nat) (n : Raw.Recorded Command) (after : list Raw.Node) (views : list View) : M Raw.Node := λ w,
  match recordings (client w) !! i with
  | None => (w, Err no_recording)
  | Some r =>
      let '(g, node) := Raw.record n after (Raw.retain_bindings (raw_view <$> views) (r_graph r)) in
      (set_graphs (<[i := mkRecording g (foldl retain_use (r_uses r) views)]> (recordings (client w)))
         (graphs (client w)) w, Ok node)
  end.
(** [Graph::fill], [Graph::copy], [Graph::dispatch], [Graph::join]. *)
Definition graph_fill (env : Env) (i : nat) (after : list Raw.Node) (dst : View) (value : Z) : M Raw.Node :=
  let! _ := validate_after i after in
  let! _ := owns (v_owner dst) in
  if v_length dst =? 0 then fail (Message "empty graph fill")
  else
    let! c := prepare_fill env dst value in
    record_node i (Raw.Prepared c) after [dst].
Definition graph_copy (env : Env) (i : nat) (after : list Raw.Node) (dst src : View) : M Raw.Node :=
  let! _ := validate_after i after in
  let! _ := owns (v_owner dst) in
  let! _ := owns (v_owner src) in
  if negb (v_length dst =? v_length src) || (v_length dst =? 0)
  then fail (Message "graph copy requires equal nonempty spans")
  else
    let! c := prepare_copy env dst src in
    record_node i (Raw.Prepared c) after [dst; src].
Definition graph_dispatch (env : Env) (i : nat) (after : list Raw.Node) (kernel : nat) (grid block constants : list Z)
    (views : list View) : M Raw.Node :=
  let! _ := validate_after i after in
  let! c := prepare_dispatch env (mkLaunch kernel grid block constants (range_of <$> views)) views in
  record_node i (Raw.Prepared c) after views.
Definition graph_join (i : nat) (after : list Raw.Node) : M Raw.Node :=
  let! _ := validate_after i after in
  record_node i Raw.Join after [].

(** [Graph::finish_inner]: the commands in order with their barriers; on compute
    alone consecutive ones become batches of the given [sizes], otherwise each
    is submitted by itself. *)
Fixpoint split_phases (l : list (Command * bool)) : list Command * list (list Command) :=
  match l with
  | [] => ([], [])
  | (c, barrier) :: rest =>
      let '(p, ps) := split_phases rest in if barrier : bool then ([], (c :: p) :: ps) else (c :: p, ps)
  end.
Definition phases (l : list (Command * bool)) : list (list Command) := let '(p, ps) := split_phases l in p :: ps.
Fixpoint batches (sizes : list nat) (l : list (Command * bool)) : list Replay :=
  match sizes with
  | [] => match l with [] => [] | _ => [Batched (phases l)] end
  | n :: rest => Batched (phases (take n l)) :: batches rest (drop n l)
  end.
Definition finish_graph (r : Result (list nat)) (i : nat) : M unit := λ w,
  match recordings (client w) !! i with
  | None => (w, Ok tt)
  | Some g =>
      let w' := set_graphs (delete i (recordings (client w))) (graphs (client w)) w in
      let ordered := Raw.finish (r_graph g) in
      match r with
      | Err e => (w', Err e)
      | Ok sizes =>
          let c := config w in
          let l := if negb (aql c) && bool_decide (sdma c = None) then batches sizes ordered else Single <$> ordered.*1 in
          (set_graphs (recordings (client w')) (mkGraph (stream_id c) l None false (r_uses g) :: graphs (client w)) w',
           Ok tt)
      end
  end.

(** The bytes a byte operation reads or writes, and those it leaves as they are
    whatever they hold. *)
Definition uses_byte (x : Work) (n : nat) (a : Z) : bool :=
  match x with
  | Fill b offset length _ => (n =? b)%nat && in_range offset length a
  | Copy d d_offset s s_offset length =>
      ((n =? d)%nat && in_range d_offset length a) || ((n =? s)%nat && in_range s_offset length a)
  | Run l => existsb (λ r : nat * Z * Z, (n =? r.1.1)%nat && in_range r.1.2 r.2 a) (l_bindings l)
  end.
Definition spares (f : Effect) (x : Work) (n : nat) (a : Z) : Prop := ∀ m, apply f m x n a = m n a.
(** Commands that do not race: neither changes a byte the other uses. *)
Definition independent (f : Effect) (c d : Command) : Prop :=
  ∀ x y n a, x ∈ command_works c → y ∈ command_works d →
    (uses_byte x n a = true → spares f y n a) ∧ (uses_byte y n a = true → spares f x n a).
Fixpoint race_free (f : Effect) (phase : list Command) : Prop :=
  match phase with [] => True | c :: rest => Forall (independent f c) rest ∧ race_free f rest end.
(** What the device makes of the commands of a phase, between which there is no
    barrier: commands that do not race, one after the other in any order; if
    some race, anything to the bytes they use. *)
Definition scribble (phase : list Command) (x : Work) : Prop :=
  ∃ c y n a v, c ∈ phase ∧ y ∈ command_works c ∧ uses_byte y n a = true ∧ x = Fill n a 1 v.
Definition overlapped (f : Effect) (phase : list Command) (ws : list Work) : Prop :=
  (∃ cs, cs ≡ₚ phase ∧ ws = cs ≫= command_works) ∨ (¬ race_free f phase ∧ Forall (scribble phase) ws).
Definition admissible (f : Effect) (orders : nat → list Work) (l : list Replay) : Prop :=
  ∀ k phases, l !! k = Some (Batched phases) → ∃ parts, Forall2 (overlapped f) phases parts ∧ orders k = concat parts.

(** [Stream::launch] of the graph at [i]; [orders] is what the device makes of
    each batch. *)
Definition set_graph (i : nat) (failed : bool) (done : option Completion) (w : World) : World :=
  set_graphs (recordings (client w))
    (alter (λ g, mkGraph (g_stream g) (g_replays g) done failed (g_uses g)) i (graphs (client w))) w.
Definition chosen (order : list Work) (r : Replay) : Command :=
  match r with
  | Single c => c
  | Batched phases => mkCommand 0 [order] (c_natives (batch phases)) (c_storage (batch phases))
  end.
Fixpoint submit_all (envs : nat → Env) (orders : nat → list Work) (i : nat) (l : list Replay) : M unit :=
  match l with
  | [] => ret tt
  | r :: rest => let! _ := submit (envs i) (chosen (orders i) r) in submit_all envs orders (S i) rest
  end.
Definition launch (envs : nat → Env) (orders : nat → list Work) (i : nat) : M unit := λ w,
  match graphs (client w) !! i with
  | None => (w, Ok tt)
  | Some g =>
      if negb (g_stream g =? stream_id (config w))%nat then (w, Err (Message "graph belongs to another stream"))
      else if g_failed g then (w, Err (DeviceLost "graph has an unretired failed launch"))
      else
        (let! _ := modify (set_graph i true (g_last g)) in
         let! _ := submit_all envs orders 0 (g_replays g) in
         let! done := gets (λ w, latest (dev w)) in
         modify (set_graph i false done)) w
  end.

(** [Drop for GraphExec]: an unretired launch keeps its reservations. *)
Definition graph_drop (env : Env) (i : nat) (w : World) : World :=
  match graphs (client w) !! i with
  | None => w
  | Some g =>
      let gone := set_graphs (recordings (client w)) (delete i (graphs (client w))) in
      let leak := λ w : World, set_leaked (g_uses g ++ leaked (client w)) (dropped (client w)) w in
      if g_failed g then gone (leak w)
      else
        match g_last g with
        | None => gone w
        | Some k => match outcome env CWait with Ok _ => gone (run_until k w) | Err _ => gone (leak w) end
        end
  end.
Definition recording_drop (i : nat) (w : World) : World :=
  set_graphs (delete i (recordings (client w))) (graphs (client w)) w.

(** [Drop for Stream]: what may still be in use is leaked. *)
Definition stream_drop (env : Env) (w : World) : World :=
  let (w, drained) := inner_wait (outcome env CWait) w in
  let p := pools w in
  let lost := match drained with
              | Ok _ => []
              | Err _ => uses p ++ omap reservation (staging p)
              end in
  let gone := (match drained with Ok _ => staging p | Err _ => [] end)
              ++ staging_pool p ++ scratch_buffers (scratch p) in
  let w := set_leaked (lost ++ leaked (client w)) true (set_pools (mkPools (locals p) [] [] [] 0 (scratch_limit p) []) w) in
  foldl drop_buffer w gone.

(** ** Moves *)

(** The device executes the oldest entry of an engine; a queue forgets an
    executed entry. *)
Definition device_step (engine : nat) (w : World) : option World :=
  '(i, e) ← list_find (λ e, e_engine e = engine) (inflight (dev w));
  let d := dev w in
  Some (set_dev (mkDevice (natives d) (charges d) (execute (effect (config w)) (memory d) e) (delete i (inflight d))
          (retired d ++ [e]) (published d) (latest d)) w).
Definition reap (i : nat) (w : World) : World :=
  let d := dev w in
  set_dev (mkDevice (natives d) (charges d) (memory d) (inflight d) (delete i (retired d)) (published d) (latest d)) w.
(** A buffer of another stream on the device. *)
Definition import (n : Z) (other : nat) (hidden : bool) : M Buffer :=
  let! backing := new_native (mkEnv (λ _, Ok tt) 0%nat) n hidden None in
  let! c := gets config in
  let b := mkBuffer backing n other (device_id c) None true in
  let! _ := modify (λ w, set_handles (b :: handles (client w)) w) in
  ret b.

(** One move of the world: a call of the application with views of buffers it
    owns, a drop, or a move of the device.  The list names the backing a move
    loses track of: that of a charged zero fill whose final wait failed, which
    [allocate_zeroed] drops with its reservation although it may still run. *)
Definition owned (w : World) (v : View) : Prop :=
  v_owner v ∈ handles (client w) ∧ 0 <= v_offset v ∧ 0 <= v_length v.
Inductive move (w : World) : list nat → World → Prop :=
| step_allocate env n : dropped (client w) = false → move w [] (allocate env n w).1
| step_allocate_from env env' l : dropped (client w) = false → move w [] (allocate_from env env' l w).1
| step_allocate_zeroed env env' n :
    dropped (client w) = false → (budgeted (config w) = true → outcome env' CWait = Ok tt) →
    move w [] (allocate_zeroed env env' n w).1
| step_lost_fill env env' n :
    dropped (client w) = false → budgeted (config w) = true → outcome env' CWait ≠ Ok tt →
    move w [length (natives (dev w))] (allocate_zeroed env env' n w).1
| step_shared env n : dropped (client w) = false → move w [] (shared env n w).1
| step_storage r b :
    dropped (client w) = false → b ∈ handles (client w) → from_option n_charge None (natives (dev w) !! native b) = None →
    move w [] (storage_buffer r (native b) w).1
| step_import n other hidden : other ≠ stream_id (config w) → move w [] (import n other hidden w).1
| step_drop i : move w [] (drop_handle i w)
| step_synchronize env : dropped (client w) = false → move w [] (synchronize env w).1
| step_wait_event env ev :
    dropped (client w) = false → move w [] (wait_event env ev w).1
| step_event_wait env ev : move w [] (event_wait env ev w).1
| step_submission env : dropped (client w) = false → move w [] (submission_is_complete env w).1
| step_upload_blocking env env' dst l :
    dropped (client w) = false → owned w dst → move w [] (upload_blocking env env' dst l w).1
| step_read_blocking env env' src n :
    dropped (client w) = false → owned w src → 0 <= n → move w [] (read_blocking env env' src n w).1
| step_fill env dst v : dropped (client w) = false → owned w dst → move w [] (fill env dst v w).1
| step_copy env dst src : dropped (client w) = false → owned w dst → owned w src → move w [] (copy env dst src w).1
| step_upload envs dst l : dropped (client w) = false → owned w dst → move w [] (upload envs dst l w).1
| step_dispatch env k g b c views :
    dropped (client w) = false → Forall (owned w) views → move w [] (dispatch env k g b c views w).1
| step_scratch env n : dropped (client w) = false → move w [] (get_scratch env n w).1
| step_recycle i : dropped (client w) = false → move w [] (recycle i w).1
| step_limit n : dropped (client w) = false → move w [] (set_scratch_limit n w)
| step_read env src : dropped (client w) = false → owned w src → move w [] (read env src w).1
| step_readback_wait env i : dropped (client w) = false → move w [] (readback_wait env i w).1
| step_readback_drop i : move w [] (readback_drop i w).1
| step_begin id : dropped (client w) = false → move w [] (begin_graph id w)
| step_graph_fill env i after dst v : owned w dst → move w [] (graph_fill env i after dst v w).1
| step_graph_copy env i after dst src : owned w dst → owned w src → move w [] (graph_copy env i after dst src w).1
| step_graph_dispatch env i after k g b c views :
    Forall (owned w) views → move w [] (graph_dispatch env i after k g b c views w).1
| step_graph_join i after : move w [] (graph_join i after w).1
| step_finish r i : move w [] (finish_graph r i w).1
| step_launch envs orders i :
    dropped (client w) = false →
    (∀ g, graphs (client w) !! i = Some g → admissible (effect (config w)) orders (g_replays g)) →
    move w [] (launch envs orders i w).1
| step_graph_drop env i : move w [] (graph_drop env i w)
| step_recording_drop i : move w [] (recording_drop i w)
| step_stream_drop env : dropped (client w) = false → move w [] (stream_drop env w)
| step_device e w' : device_step e w = Some w' → move w [] w'
| step_reap i : move w [] (reap i w).

(** [Device::stream_with_options]. *)
Record initial (w : World) : Prop := {
  initial_sdma : ∀ limit, sdma (config w) = Some limit → 0 < limit;
  initial_device : natives (dev w) = [] ∧ inflight (dev w) = [] ∧ retired (dev w) = [] ∧ latest (dev w) = None;
  initial_inner : inner w = mkInner [] [] [];
  initial_pools : pools w = mkPools [] [] [] [] 0 (256 * 1024 * 1024) [];
  initial_client : client w = mkClient [] [] [] [] [] false }.
Definition step (w w' : World) : Prop := ∃ lost, move w lost w'.
Definition reachable (w : World) : Prop := ∃ w0, initial w0 ∧ rtc step w0 w.
(** A reachable stream with the backing it has lost track of. *)
Inductive reached : list nat → World → Prop :=
| reached_initial w : initial w → reached [] w
| reached_move lost w l w' : reached lost w → move w l w' → reached (l ++ lost) w'.
End Stream.
