(* ===== verification/StreamMemory.v ===== *)
(** * Streams: memory

    The algebra of device memory behind the stream model: operations respect
    pointwise equality, leave other backing alone and commute with host writes
    to it, and the parts of a transfer together are the whole transfer. *)

From S2P Require Import Prelude Access Sdma Stream.
Import Stream.
Local Open Scope Z_scope.

Module StreamMemory.

(** ** Pointwise equality *)

Definition meq : relation Memory := pointwise_relation nat (pointwise_relation Z eq).
Global Instance meq_equivalence : Equivalence meq.
Proof. unfold meq. apply _. Qed.

Lemma read_bytes_ext m m' b o n : (∀ a, m b a = m' b a) → read_bytes m b o n = read_bytes m' b o n.
Proof. intros H. unfold read_bytes. apply list_fmap_ext. intros i x _. apply H. Qed.

Global Instance write_bytes_proper : Proper (meq ==> eq ==> eq ==> eq ==> meq) write_bytes.
Proof. intros m m' Hm b ? <- o ? <- l ? <- b' a. unfold write_bytes. by rewrite (Hm b' a). Qed.

Global Instance store_outputs_proper : Proper (meq ==> eq ==> eq ==> meq) store_outputs.
Proof.
  intros m m' Hm l ? <- outs ? <-. unfold store_outputs. generalize (zip l outs). intros xs. revert m m' Hm.
  induction xs as [|x xs IH]; intros m m' Hm; cbn [foldl]; [done|]. apply IH. by apply write_bytes_proper.
Qed.

Global Instance apply_proper f : Proper (meq ==> eq ==> meq) (apply f).
Proof.
  intros m m' Hm x ? <-. destruct x as [b o n v|d dof s so n|l]; cbn [apply].
  - intros b' a. by rewrite (Hm b' a).
  - intros b' a. by rewrite (Hm b' a), (Hm s _).
  - assert ((λ x, read_bytes m x.1.1 x.1.2 x.2) <$> l_bindings l = (λ x, read_bytes m' x.1.1 x.1.2 x.2) <$> l_bindings l)
      as -> by (apply list_fmap_ext; intros i x _; apply read_bytes_ext; intros a; apply Hm).
    by apply store_outputs_proper.
Qed.

Lemma foldl_apply_proper f l m m' : meq m m' → meq (foldl (apply f) m l) (foldl (apply f) m' l).
Proof. revert m m'. induction l as [|x l IH]; intros m m' Hm; [done|]. cbn. apply IH. by apply apply_proper. Qed.

Global Instance execute_proper f : Proper (meq ==> eq ==> meq) (execute f).
Proof. intros m m' Hm e ? <-. by apply foldl_apply_proper. Qed.

Lemma foldl_execute_proper f l m m' : meq m m' → meq (foldl (execute f) m l) (foldl (execute f) m' l).
Proof. revert m m'. induction l as [|x l IH]; intros m m' Hm; [done|]. cbn. apply IH. by apply execute_proper. Qed.

(** ** Locality *)

(** The backing an operation reads or writes. *)
Definition touches (x : Work) : list nat :=
  match x with
  | Fill b _ _ _ => [b]
  | Copy d _ s _ _ => [d; s]
  | Run l => (l_bindings l).*1.*1
  end.

(** Memory with the contents of one backing replaced. *)
Definition patch (m : Memory) (n : nat) (g : Z → Z) : Memory := λ b a, if (b =? n)%nat then g a else m b a.

Lemma write_bytes_other m b o l n a : n ≠ b → write_bytes m b o l n a = m n a.
Proof. intros Hne. unfold write_bytes. by rewrite (proj2 (Nat.eqb_neq _ _)). Qed.

Lemma write_bytes_patch m b o l n g :
  n ≠ b → meq (write_bytes (patch m n g) b o l) (patch (write_bytes m b o l) n g).
Proof.
  intros Hne b' a. unfold write_bytes, patch. destruct (Nat.eqb_spec b' n) as [->|]; [|done].
  by rewrite (proj2 (Nat.eqb_neq _ _) Hne).
Qed.

Lemma store_outputs_other m l outs n a :
  n ∉ l.*1.*1 → store_outputs m l outs n a = m n a.
Proof.
  unfold store_outputs. revert m outs. induction l as [|x l IH]; intros m outs Hn; [done|].
  destruct outs as [|o outs]; [done|]. cbn [zip zip_with foldl]. cbn in Hn. rewrite IH by set_solver.
  apply write_bytes_other. set_solver.
Qed.

Lemma store_outputs_patch m l outs n g :
  n ∉ l.*1.*1 → meq (store_outputs (patch m n g) l outs) (patch (store_outputs m l outs) n g).
Proof.
  intros Hn. revert m outs. induction l as [|x l IH]; intros m outs; [done|].
  destruct outs as [|o outs]; [done|]. unfold store_outputs in *. cbn [zip zip_with foldl]. cbn in Hn.
  rewrite <-IH by set_solver. apply store_outputs_proper; [|done..]. apply write_bytes_patch. set_solver.
Qed.

Lemma apply_other f m x n a : n ∉ touches x → apply f m x n a = m n a.
Proof.
  destruct x as [b o k v|d dof s so k|l]; cbn [apply touches]; intros Hn.
  - rewrite (proj2 (Nat.eqb_neq n b)) by set_solver. done.
  - rewrite (proj2 (Nat.eqb_neq n d)) by set_solver. done.
  - by apply store_outputs_other.
Qed.

Lemma copy_other f m d p s q k n a : n ≠ d → apply f m (Copy d p s q k) n a = m n a.
Proof. intros Hne. cbn [apply]. by rewrite (proj2 (Nat.eqb_neq n d)). Qed.

Lemma apply_patch f m x n g : n ∉ touches x → meq (apply f (patch m n g) x) (patch (apply f m x) n g).
Proof.
  destruct x as [b o k v|d dof s so k|l]; cbn [apply touches]; intros Hn.
  - intros b' a. unfold patch. destruct (Nat.eqb_spec b' n) as [->|]; [|done].
    by rewrite (proj2 (Nat.eqb_neq n b)) by set_solver.
  - intros b' a. unfold patch. rewrite (proj2 (Nat.eqb_neq s n)) by set_solver.
    destruct (Nat.eqb_spec b' n) as [->|]; [|done]. by rewrite (proj2 (Nat.eqb_neq n d)) by set_solver.
  - assert ((λ x, read_bytes (patch m n g) x.1.1 x.1.2 x.2) <$> l_bindings l =
            (λ x, read_bytes m x.1.1 x.1.2 x.2) <$> l_bindings l) as ->.
    { apply list_fmap_ext. intros i x Hx%list_elem_of_lookup_2. apply read_bytes_ext. intros a. unfold patch.
      assert (x.1.1 ∈ (l_bindings l).*1.*1) by (by do 2 apply list_elem_of_fmap_2).
      by rewrite (proj2 (Nat.eqb_neq x.1.1 n)) by set_solver. }
    by apply store_outputs_patch.
Qed.

Definition entry_touches (e : Entry) : list nat := e_works e ≫= touches.

Lemma works_other f l m n a : n ∉ l ≫= touches → foldl (apply f) m l n a = m n a.
Proof.
  revert m. induction l as [|x l IH]; intros m Hn; [done|]. cbn in Hn. apply not_elem_of_app in Hn as [H1 H2].
  cbn [foldl]. rewrite IH by done. by apply apply_other.
Qed.
Lemma works_patch f l m n g :
  n ∉ l ≫= touches → meq (foldl (apply f) (patch m n g) l) (patch (foldl (apply f) m l) n g).
Proof.
  revert m. induction l as [|x l IH]; intros m Hn; [done|]. cbn in Hn. apply not_elem_of_app in Hn as [H1 H2].
  cbn [foldl]. etrans; [apply foldl_apply_proper, apply_patch, H1|]. by apply IH.
Qed.
Lemma entries_other f l m n a : n ∉ l ≫= entry_touches → foldl (execute f) m l n a = m n a.
Proof.
  revert m. induction l as [|x l IH]; intros m Hn; [done|]. cbn in Hn. apply not_elem_of_app in Hn as [H1 H2].
  cbn [foldl]. rewrite IH by done. by apply works_other.
Qed.
Lemma entries_patch f l m n g :
  n ∉ l ≫= entry_touches → meq (foldl (execute f) (patch m n g) l) (patch (foldl (execute f) m l) n g).
Proof.
  revert m. induction l as [|x l IH]; intros m Hn; [done|]. cbn in Hn. apply not_elem_of_app in Hn as [H1 H2].
  cbn [foldl]. etrans; [apply foldl_execute_proper, works_patch, H1|]. by apply IH.
Qed.

(** A host update of one backing as a function of its old contents. *)
Definition update_at (m : Memory) (n : nat) (u : (Z → Z) → Z → Z) : Memory := patch m n (u (m n)).

Lemma entries_update f l m n u :
  n ∉ l ≫= entry_touches → Proper (pointwise_relation Z eq ==> pointwise_relation Z eq) u →
  meq (foldl (execute f) (update_at m n u) l) (update_at (foldl (execute f) m l) n u).
Proof.
  intros Hn Hu. unfold update_at. rewrite entries_patch by done. intros b a. unfold patch.
  destruct (b =? n)%nat; [|done]. apply Hu. intros x. by rewrite entries_other.
Qed.

Definition put (o : Z) (l : list Z) (c : Z → Z) : Z → Z :=
  λ a, if in_range o (Z.of_nat (length l)) a then default 0 (l !! Z.to_nat (a - o)) else c a.
Global Instance put_proper o l : Proper (pointwise_relation Z eq ==> pointwise_relation Z eq) (put o l).
Proof. intros c c' Hc a. unfold put. by rewrite (Hc a). Qed.
Lemma write_bytes_update m n o l : meq (write_bytes m n o l) (update_at m n (put o l)).
Proof.
  intros b a. unfold write_bytes, update_at, patch, put. destruct (Nat.eqb_spec b n) as [->|]; [|done].
  by destruct (in_range _ _ _).
Qed.

(** Memories that agree on some backing; operations confined to it keep that. *)
Definition agree (V : nat → Prop) (m m' : Memory) : Prop := ∀ n a, V n → m n a = m' n a.
Lemma write_bytes_agree V m m' b o l : agree V m m' → agree V (write_bytes m b o l) (write_bytes m' b o l).
Proof. intros Hm n a Hn. unfold write_bytes. case_match; [done|]. by apply Hm. Qed.
Lemma store_outputs_agree V m m' l outs : agree V m m' → agree V (store_outputs m l outs) (store_outputs m' l outs).
Proof.
  unfold store_outputs. revert m m'. induction (zip l outs) as [|x xs IH]; intros m m' Hm; cbn [foldl]; [done|].
  by apply IH, write_bytes_agree.
Qed.
Lemma apply_agree V f m m' x : (∀ n, n ∈ touches x → V n) → agree V m m' → agree V (apply f m x) (apply f m' x).
Proof.
  intros Hx Hm. destruct x as [b o k v|d p s q k|l]; cbn [apply touches] in *.
  - intros n a Hn. by rewrite (Hm n a Hn).
  - intros n a Hn. rewrite (Hm n a Hn). case_match; [|done]. apply Hm, Hx. right. by left.
  - assert ((λ x, read_bytes m x.1.1 x.1.2 x.2) <$> l_bindings l = (λ x, read_bytes m' x.1.1 x.1.2 x.2) <$> l_bindings l) as ->.
    { apply list_fmap_ext. intros i x Hi. apply read_bytes_ext. intros a. apply Hm, Hx.
      by apply list_elem_of_fmap_2, list_elem_of_fmap_2, list_elem_of_lookup_2 with i. }
    by apply store_outputs_agree.
Qed.
Lemma works_agree V f l m m' :
  (∀ n, n ∈ l ≫= touches → V n) → agree V m m' → agree V (foldl (apply f) m l) (foldl (apply f) m' l).
Proof.
  revert m m'. induction l as [|x l IH]; intros m m' Hl Hm; cbn [foldl]; [done|]. cbn in Hl. apply IH.
  - intros n Hn. apply Hl, elem_of_app. by right.
  - apply apply_agree; [|done]. intros n Hn. apply Hl, elem_of_app. by left.
Qed.

(** ** Transfers *)

Lemma concat_works_of g limit n :
  concat (works_of g (spans limit n)) =
  (λ c : Z * Z, g c.1 c.2) <$> Sdma.parts_of (default COMPUTE_LIMIT limit) n.
Proof.
  unfold works_of, spans. destruct limit as [limit|]; cbn [from_option id]; [|apply app_nil_r].
  change (id limit) with limit; induction (Sdma.parts_of limit n) as [|c l IH]; [done|]. cbn in *. by rewrite IH.
Qed.

Lemma in_range_split o n k a : 0 <= n → 0 <= k → in_range o (n + k) a = in_range o n a || in_range (o + n) k a.
Proof. intros Hn Hk. unfold in_range. lia. Qed.

Lemma fill_parts f m b o v limit first stop l :
  Sdma.tiled limit first stop l → 0 < limit →
  first <= stop ∧
  meq (foldl (apply f) m ((λ c : Z * Z, Fill b (o + c.1) c.2 v) <$> l)) (apply f m (Fill b (o + first) (stop - first) v)).
Proof.
  intros Ht Hl. revert m first Ht. induction l as [|[x n] l IH]; intros m first; cbn [Sdma.tiled fmap list_fmap foldl].
  - intros ->. split; [done|]. intros b' a. cbn [apply]. replace (in_range (o + stop) (stop - stop) a) with false by (unfold in_range; lia).
    by rewrite andb_false_r.
  - intros (-> & Hn & Ht). destruct (IH (apply f m (Fill b (o + first) n v)) _ Ht) as [Hs E]. split; [lia|].
    etrans; [exact E|]. intros b' a. cbn [apply fst snd]. replace (stop - first) with (n + (stop - (first + n))) by lia.
    rewrite in_range_split by lia. rewrite Z.add_assoc. destruct (b' =? b)%nat; [|done].
    cbn [andb]. by destruct (in_range (o + first + n) _ a), (in_range (o + first) n a).
Qed.

Lemma copy_parts f m d p s q limit first stop len l :
  Sdma.tiled limit first stop l → 0 < limit → 0 <= first → stop <= len → ranges_meet d p s q len = false →
  first <= stop ∧
  meq (foldl (apply f) m ((λ c : Z * Z, Copy d (p + c.1) s (q + c.1) c.2) <$> l))
      (apply f m (Copy d (p + first) s (q + first) (stop - first))).
Proof.
  intros Ht Hl. revert m first Ht. induction l as [|[x n] l IH]; intros m first; cbn [Sdma.tiled fmap list_fmap foldl].
  - intros -> _ _ _. split; [done|]. intros b' a. cbn [apply]. replace (in_range (p + stop) (stop - stop) a) with false by (unfold in_range; lia).
    by rewrite andb_false_r.
  - intros (-> & Hn & Ht) H0 Hlen Hm. destruct (IH (apply f m (Copy d (p + first) s (q + first) n)) _ Ht) as [Hs E]; [lia..|done|].
    split; [lia|]. etrans; [exact E|]. intros b' a. cbn [apply fst snd]. replace (stop - first) with (n + (stop - (first + n))) by lia.
    rewrite in_range_split by lia. rewrite !Z.add_assoc. destruct (Nat.eqb_spec b' d) as [->|]; [|done].
    cbn [andb]. destruct (in_range (p + first + n) _ a) eqn:E2.
    + match goal with |- context [(s =? d)%nat && ?x] => assert (((s =? d)%nat && x) = false) as -> end.
      { destruct (Nat.eqb_spec s d) as [->|]; [|done]. cbn [andb]. unfold ranges_meet, in_range in *. rewrite Nat.eqb_refl in Hm. lia. }
      assert (in_range (p + first) n a = false) as -> by (unfold in_range in *; lia). cbn [orb]. f_equal. lia.
    + rewrite orb_false_r. done.
Qed.

Lemma fill_command f m b o v limit n :
  (∀ l, limit = Some l → 0 < l) → 0 < n →
  meq (foldl (apply f) m (concat (works_of (λ x k, Fill b (o + x) k v) (spans limit n)))) (apply f m (Fill b o n v)).
Proof.
  intros Hl Hn. rewrite concat_works_of.
  assert (0 < default COMPUTE_LIMIT limit) as H0 by (destruct limit; [by apply Hl|done]).
  destruct (fill_parts f m b o v _ 0 n _ (Sdma.parts_of_tiled _ n H0 Hn) H0) as [_ E].
  by rewrite Z.add_0_r, Z.sub_0_r in E.
Qed.
Lemma copy_command f m d p s q limit n :
  (∀ l, limit = Some l → 0 < l) → 0 < n → ranges_meet d p s q n = false →
  meq (foldl (apply f) m (concat (works_of (λ x k, Copy d (p + x) s (q + x) k) (spans limit n)))) (apply f m (Copy d p s q n)).
Proof.
  intros Hl Hn Hr. rewrite concat_works_of.
  assert (0 < default COMPUTE_LIMIT limit) as H0 by (destruct limit; [by apply Hl|done]).
  destruct (copy_parts f m d p s q _ 0 n n _ (Sdma.parts_of_tiled _ n H0 Hn) H0) as [_ E]; [lia..|done|].
  by rewrite !Z.add_0_r, Z.sub_0_r in E.
Qed.
End StreamMemory.
