(* ===== verification/StreamOverlap.v ===== *)
(** * Streams: commands that overlap

    The commands of a replayed batch between two barriers may overlap.  Byte
    operations that do not race commute, so a batch whose phases are free of
    races does what its commands do in recorded order, whatever the device
    makes of it; edges that order the conflicting commands of a recording leave
    none. *)

From S2P Require Import Prelude Access BTreeMap Sdma RawGraph Stream StreamMemory.
Import Stream StreamMemory.
Local Open Scope Z_scope.

Module StreamOverlap.

(** ** Footprints *)

(** Memories that hold the same bytes where [U] says. *)
Definition same_at (U : nat → Z → bool) (m m' : Memory) : Prop := ∀ n a, U n a = true → m n a = m' n a.

Lemma in_range_true o n a : in_range o n a = true ↔ o <= a < o + n.
Proof. unfold in_range. by rewrite andb_true_iff, Z.leb_le, Z.ltb_lt. Qed.
Lemma read_bytes_same m m' b o n :
  (∀ a, in_range o n a = true → m b a = m' b a) → read_bytes m b o n = read_bytes m' b o n.
Proof.
  intros H. unfold read_bytes. apply list_fmap_ext. intros i k Hk. apply lookup_seq in Hk as [-> Hk]. apply H.
  apply in_range_true. lia.
Qed.
Lemma write_bytes_outside m b o l n a :
  (n =? b)%nat && in_range o (Z.of_nat (length l)) a = false → write_bytes m b o l n a = m n a.
Proof. intros H. unfold write_bytes. by rewrite H. Qed.
Lemma write_bytes_same U m m' b o l : same_at U m m' → same_at U (write_bytes m b o l) (write_bytes m' b o l).
Proof. intros H n a Hu. unfold write_bytes. case_match; [done|by apply H]. Qed.
Lemma store_outputs_same U m m' l outs : same_at U m m' → same_at U (store_outputs m l outs) (store_outputs m' l outs).
Proof.
  unfold store_outputs. revert m m'. generalize (zip l outs). intros z. induction z as [|x z IH]; intros m m' H; [done|].
  cbn [foldl]. by apply IH, write_bytes_same.
Qed.
Lemma store_outputs_outside m l outs n a :
  existsb (λ r : nat * Z * Z, (n =? r.1.1)%nat && in_range r.1.2 r.2 a) l = false → store_outputs m l outs n a = m n a.
Proof.
  unfold store_outputs. revert m outs. induction l as [|r l IH]; intros m [|o outs] H; try done. cbn [zip foldl] in H |- *.
  cbn [existsb] in H. apply orb_false_iff in H as [H1 H2]. cbn [zip_with foldl]. rewrite IH by done. apply write_bytes_outside. cbn.
  apply andb_false_iff in H1 as [->|H1]; [done|]. apply andb_false_iff. right. apply not_true_iff_false.
  intros Ha%in_range_true. rewrite length_take in Ha. apply not_true_iff_false in H1. apply H1, in_range_true. lia.
Qed.

(** A byte operation changes only bytes it uses, and depends only on them. *)
Lemma apply_unused f m x n a : uses_byte x n a = false → apply f m x n a = m n a.
Proof.
  destruct x as [b o len v|d p s q len|l]; cbn [uses_byte apply].
  - by intros ->.
  - rewrite orb_false_iff. by intros [-> _].
  - apply store_outputs_outside.
Qed.
Lemma apply_used f m m' x : same_at (uses_byte x) m m' → same_at (uses_byte x) (apply f m x) (apply f m' x).
Proof.
  intros H. destruct x as [b o len v|d p s q len|l]; cbn [apply].
  - intros n a Hu. cbn [uses_byte] in Hu. by rewrite Hu.
  - intros n a Hu. case_match eqn:E; [|by apply H]. apply H. cbn [uses_byte]. apply andb_true_iff in E as [_ E%in_range_true].
    rewrite Nat.eqb_refl. apply orb_true_iff. right. apply andb_true_iff. split; [done|]. apply in_range_true. lia.
  - replace ((λ x : nat * Z * Z, read_bytes m' x.1.1 x.1.2 x.2) <$> l_bindings l)
      with ((λ x : nat * Z * Z, read_bytes m x.1.1 x.1.2 x.2) <$> l_bindings l); [by apply store_outputs_same|].
    apply list_fmap_ext. intros i r Hr. apply read_bytes_same. intros a Ha. apply H. cbn [uses_byte].
    apply existsb_exists. exists r. split; [apply list_elem_of_In; by eapply list_elem_of_lookup_2|]. by rewrite Nat.eqb_refl, Ha.
Qed.
Lemma uses_byte_touches x n a : uses_byte x n a = true → n ∈ touches x.
Proof.
  destruct x as [b o len v|d p s q len|l]; cbn [uses_byte touches].
  - rewrite andb_true_iff, Nat.eqb_eq. intros [-> _]. by left.
  - rewrite orb_true_iff, !andb_true_iff, !Nat.eqb_eq. intros [[-> _]|[-> _]]; [by left|right; by left].
  - intros (r & Hr & Hn)%existsb_exists. apply andb_true_iff in Hn as [->%Nat.eqb_eq _].
    apply list_elem_of_fmap_2, list_elem_of_fmap_2. by apply list_elem_of_In.
Qed.

(** ** Commuting *)

Section Commute.
Context (f : Effect).

Definition apart (x y : Work) : Prop :=
  ∀ n a, (uses_byte x n a = true → spares f y n a) ∧ (uses_byte y n a = true → spares f x n a).
Lemma apply_apart m x y : apart x y → meq (apply f (apply f m x) y) (apply f (apply f m y) x).
Proof.
  intros H n a. assert (∀ u v, apart u v → uses_byte u n a = true → apply f (apply f m v) u n a = apply f (apply f m u) v n a) as Hone.
  { intros u v Huv Hu. destruct (Huv n a) as [Hv _]. rewrite (Hv Hu (apply f m u)). apply apply_used; [|done].
    intros n' a' Hu'. destruct (Huv n' a') as [Hv' _]. by apply Hv'. }
  assert (apart y x) as H' by (intros n' a'; destruct (H n' a'); done).
  destruct (uses_byte x n a) eqn:Hx; [symmetry; by apply Hone|].
  destruct (uses_byte y n a) eqn:Hy; [by apply Hone|]. by rewrite !apply_unused.
Qed.
Lemma works_apart_one m x l :
  Forall (apart x) l → meq (foldl (apply f) (apply f m x) l) (apply f (foldl (apply f) m l) x).
Proof.
  intros Hl. revert m. induction Hl as [|y l Hy _ IH]; intros m; [done|]. cbn [foldl].
  etrans; [apply foldl_apply_proper, (apply_apart m x y Hy)|]. apply IH.
Qed.
Lemma works_apart m l k :
  Forall (λ x, Forall (apart x) k) l → meq (foldl (apply f) m (l ++ k)) (foldl (apply f) m (k ++ l)).
Proof.
  intros Hl. revert m. induction Hl as [|x l Hx _ IH]; intros m; [by rewrite app_nil_r|]. cbn [app foldl].
  etrans; [apply IH|]. rewrite !foldl_app. cbn [foldl]. apply foldl_apply_proper, works_apart_one. done.
Qed.

Lemma independent_sym c d : independent f c d → independent f d c.
Proof. intros H x y n a Hx Hy. destruct (H y x n a Hy Hx). done. Qed.
Lemma independent_apart c d :
  independent f c d → Forall (λ x, Forall (apart x) (command_works d)) (command_works c).
Proof. intros H. apply Forall_forall. intros x Hx. apply Forall_forall. intros y Hy n a. by apply H. Qed.

Definition works_all (l : list Command) : list Work := l ≫= command_works.
Lemma works_all_app l k : works_all (l ++ k) = works_all l ++ works_all k.
Proof. apply bind_app. Qed.

Lemma race_free_perm l k : l ≡ₚ k → race_free f l → race_free f k.
Proof.
  induction 1 as [|c l k Hp IH|c d l|l1 l2 l3 _ IH1 _ IH2]; cbn [race_free]; [done| | |auto].
  - intros [H1 H2]. split; [by rewrite <-Hp|auto].
  - intros (H1 & H2 & H3). inversion_clear H1 as [|? ? Hcd Hc]. split_and!; [|done..]. constructor; [by apply independent_sym|done].
Qed.
(** Commands that do not race leave the same memory in any order. *)
Lemma works_perm l k m :
  l ≡ₚ k → race_free f l → meq (foldl (apply f) m (works_all l)) (foldl (apply f) m (works_all k)).
Proof.
  intros Hp. revert m. induction Hp as [|c l k Hp IH|c d l|l1 l2 l3 H1 IH1 H2 IH2]; intros m; cbn [race_free].
  - done.
  - intros [_ H2]. unfold works_all. cbn [mbind list_bind]. rewrite !foldl_app. by apply IH.
  - intros (H1 & _). inversion_clear H1 as [|? ? Hcd _]. unfold works_all. cbn [mbind list_bind]. rewrite !app_assoc, !(foldl_app _ (_ ++ _)).
    apply foldl_apply_proper, works_apart. by apply independent_apart.
  - intros Hr. etrans; [by apply IH1|]. by apply IH2, (race_free_perm l1).
Qed.
End Commute.

(** ** Batches *)

Lemma overlapped_recorded f phase ws m :
  overlapped f phase ws → race_free f phase → meq (foldl (apply f) m ws) (foldl (apply f) m (works_all phase)).
Proof.
  intros [(cs & Hp & ->)|[Hn _]] Hr; [|done]. apply works_perm; [done|]. by apply (race_free_perm f phase).
Qed.
Lemma overlapped_touches f phase ws n : overlapped f phase ws → n ∈ ws ≫= touches → n ∈ works_all phase ≫= touches.
Proof.
  intros H (x & Hn & Hx)%list_elem_of_bind. apply list_elem_of_bind. destruct H as [(cs & Hp & ->)|[_ H]].
  - exists x. split; [done|]. unfold works_all. by rewrite <-Hp.
  - rewrite Forall_forall in H. destruct (H x Hx) as (c & y & n' & a & v & Hc & Hy & Hu & ->).
    apply list_elem_of_singleton in Hn as ->. exists y. split; [by eapply uses_byte_touches|].
    apply list_elem_of_bind. eauto.
Qed.
Lemma phases_recorded f ps parts m :
  Forall2 (overlapped f) ps parts → Forall (race_free f) ps →
  meq (foldl (apply f) m (concat parts)) (foldl (apply f) m (works_all (concat ps))).
Proof.
  intros H. revert m. induction H as [|p ws ps parts Hp _ IH]; intros m Hr; [done|]. inversion_clear Hr as [|? ? Hr1 Hr2].
  cbn [concat]. rewrite works_all_app, !foldl_app. etrans; [by apply IH|]. by apply foldl_apply_proper, overlapped_recorded.
Qed.
Lemma phases_touches f ps parts n :
  Forall2 (overlapped f) ps parts → n ∈ concat parts ≫= touches → n ∈ works_all (concat ps) ≫= touches.
Proof.
  induction 1 as [|p ws ps parts Hp _ IH]; [done|]. cbn [concat]. rewrite works_all_app, !bind_app, !elem_of_app.
  intros [Hn|Hn]; [left; by eapply overlapped_touches|right; auto].
Qed.

(** What a launch submits, and what was recorded. *)
Definition launched (orders : nat → list Work) (l : list Replay) : list Command :=
  imap (λ k r, chosen (orders k) r) l.
Definition graph_race_free (f : Effect) (r : Replay) : Prop :=
  match r with Single _ => True | Batched ps => Forall (race_free f) ps end.
Lemma admissible_cons f orders r l :
  admissible f orders (r :: l) → admissible f (orders ∘ S) l ∧
    match r with Single _ => True | Batched ps => ∃ parts, Forall2 (overlapped f) ps parts ∧ orders 0%nat = concat parts end.
Proof.
  intros H. split; [intros k ps Hk; by apply (H (S k))|]. destruct r as [c|ps]; [done|]. by apply (H 0%nat).
Qed.
Lemma chosen_touches f order r n :
  match r with Single _ => True | Batched ps => ∃ parts, Forall2 (overlapped f) ps parts ∧ order = concat parts end →
  n ∈ command_works (chosen order r) ≫= touches → n ∈ command_works (replay_command r) ≫= touches.
Proof.
  destruct r as [c|ps]; [done|]. intros (parts & Hp & ->). unfold command_works at 1, batch. cbn. rewrite app_nil_r.
  intros Hn. unfold command_works at 1. cbn. rewrite app_nil_r. by apply (phases_touches f ps parts).
Qed.
Lemma launched_recorded f orders l m :
  admissible f orders l → Forall (graph_race_free f) l →
  meq (foldl (apply f) m (works_all (launched orders l))) (foldl (apply f) m (works_all (replay_command <$> l))).
Proof.
  revert orders m. induction l as [|r l IH]; intros orders m Ha Hr; [done|]. inversion_clear Hr as [|? ? Hr1 Hr2].
  apply admissible_cons in Ha as [Ha Hc]. unfold launched. rewrite imap_cons, fmap_cons. unfold works_all. cbn [mbind list_bind].
  rewrite !foldl_app. etrans; [apply (IH (orders ∘ S)); done|]. apply foldl_apply_proper.
  destruct r as [c|ps]; [done|]. destruct Hc as (parts & Hp & ->). unfold command_works, batch. cbn. rewrite !app_nil_r.
  by apply phases_recorded.
Qed.
(** There is always something admissible: the recorded order. *)
Lemma recorded_admissible f l :
  admissible f (λ k, match l !! k with Some (Batched ps) => works_all (concat ps) | _ => [] end) l.
Proof.
  intros k ps Hk. rewrite Hk. exists (works_all <$> ps). clear Hk. split.
  - induction ps as [|p ps IH]; [constructor|]. constructor; [left; by exists p|done].
  - induction ps as [|p ps IH]; [done|]. cbn [concat fmap list_fmap]. by rewrite works_all_app, IH.
Qed.

(** ** Phases and barriers *)

(** A command of one batch: where it stands in its phases, and the barriers
    before it. *)
Lemma split_phases_concat l : (split_phases l).1 ++ concat (split_phases l).2 = l.*1.
Proof.
  induction l as [|[c b] l IH]; [done|]. cbn [split_phases]. destruct (split_phases l) as [p ps]. cbn in IH.
  destruct b; cbn; by rewrite <-IH.
Qed.
Lemma phases_concat l : concat (phases l) = l.*1.
Proof. unfold phases. rewrite <-split_phases_concat. by destruct (split_phases l). Qed.
Lemma batches_commands sizes l : works_all (replay_command <$> batches sizes l) = works_all l.*1.
Proof.
  assert (∀ l, command_works (batch (phases l)) = works_all l.*1) as Hb.
  { intros k. unfold command_works, batch. cbn. by rewrite app_nil_r, phases_concat. }
  revert l. induction sizes as [|n sizes IH]; intros l; cbn [batches].
  - destruct l as [|x l]; [done|]. unfold works_all at 1. cbn [fmap list_fmap mbind list_bind replay_command]. by rewrite app_nil_r, Hb.
  - unfold works_all at 1. cbn [fmap list_fmap mbind list_bind replay_command]. rewrite Hb. fold (works_all (replay_command <$> batches sizes (drop n l))).
    rewrite IH. by rewrite <-works_all_app, <-fmap_app, take_drop.
Qed.

(** Commands of one phase have no barrier between them: a relation that holds
    between any two commands without a barrier holds inside every phase. *)
Section Pairs.
Context (R : Command → Command → Prop).
Fixpoint pairs (l : list Command) : Prop := match l with [] => True | c :: rest => Forall (R c) rest ∧ pairs rest end.
Definition unbarred (l : list (Command * bool)) : Prop :=
  ∀ i j c d b b', (i < j)%nat → l !! i = Some (c, b) → l !! j = Some (d, b') →
    (∀ k x, (i < k ≤ j)%nat → l !! k ≠ Some (x, true)) → R c d.
Lemma unbarred_tail x l : unbarred (x :: l) → unbarred l.
Proof.
  intros H i j c d b b' Hij Hi Hj Hk. apply (H (S i) (S j) c d b b'); [lia|done|done|]. intros [|k] y Hky; [lia|]. cbn. apply Hk. lia.
Qed.
Lemma split_phases_first l k c :
  (split_phases l).1 !! k = Some c →
  ∃ b, l !! k = Some (c, b) ∧ ∀ k' x, (k' ≤ k)%nat → l !! k' ≠ Some (x, true).
Proof.
  revert k. induction l as [|[d b] l IH]; intros k; [done|]. cbn [split_phases]. destruct (split_phases l) as [p ps] eqn:E. cbn in IH.
  destruct b; [done|]. cbn. destruct k as [|k]; cbn.
  - intros [= ->]. exists false. split; [done|]. intros [|k'] x Hk; [done|lia].
  - intros Hk. destruct (IH k Hk) as (b & Hb & Hno). exists b. split; [done|]. intros [|k'] x Hle; [done|]. apply Hno. lia.
Qed.
Lemma split_phases_pairs l : unbarred l → pairs (split_phases l).1 ∧ Forall pairs (split_phases l).2.
Proof.
  induction l as [|[c b] l IH]; intros H; [done|]. cbn [split_phases]. pose proof (unbarred_tail _ _ H) as Ht.
  pose proof (split_phases_first l) as Hf. destruct (split_phases l) as [p ps]. cbn in IH, Hf. destruct (IH Ht) as [H1 H2].
  assert (pairs (c :: p)) as Hc.
  { split; [|done]. apply Forall_lookup. intros k d Hk. destruct (Hf k d Hk) as (b' & Hb & Hno).
    apply (H 0%nat (S k) c d b b'); [lia|done|done|]. intros [|k'] x Hle; [lia|]. cbn. apply Hno. lia. }
  destruct b; cbn; [split; [done|by constructor]|done].
Qed.
Lemma unbarred_sub l k : unbarred (l ++ k) → unbarred l ∧ unbarred k.
Proof.
  intros H. split.
  - intros i j c d b b' Hij Hi Hj Hk. apply (H i j c d b b' Hij); [by apply lookup_app_l_Some..|].
    intros k' x Hle. rewrite lookup_app_l; [by apply Hk|]. apply lookup_lt_Some in Hj. lia.
  - induction l as [|x l IH]; [done|]. apply IH. by apply unbarred_tail in H.
Qed.
Lemma batches_pairs sizes l :
  unbarred l → Forall (λ r, match r with Single _ => True | Batched ps => Forall pairs ps end) (batches sizes l).
Proof.
  assert (∀ l, unbarred l → Forall pairs (phases l)) as Hp.
  { intros k Hk. unfold phases. destruct (split_phases_pairs k Hk). destruct (split_phases k). by constructor. }
  revert l. induction sizes as [|n sizes IH]; intros l H; cbn [batches].
  - destruct l; [constructor|]. constructor; [by apply Hp|constructor].
  - rewrite <-(take_drop n l) in H. apply unbarred_sub in H as [H1 H2]. constructor; [by apply Hp|by apply IH].
Qed.
End Pairs.
Lemma race_free_pairs f l : pairs (independent f) l → race_free f l.
Proof. induction l as [|c l IH]; [done|]. intros [H1 H2]. split; auto. Qed.

(** ** Recorded edges *)

(** Where a finished command was recorded. *)
Lemma finish_node (ns : list (Raw.Recorded Command * option Z)) idx completed p c b :
  Raw.order idx completed ns !! p = Some (c, b) → ∃ i d, ns !! i = Some (Raw.Prepared c, d) ∧ Raw.position ns i = p.
Proof.
  revert idx completed p. induction ns as [|[[x|] d] ns IH]; intros idx completed p; cbn [Raw.order]; [done|..].
  - destruct p as [|p].
    + intros [= -> _]. by exists 0%nat, d.
    + intros (i & e & Hi & Hp)%IH. exists (S i), e. split; [done|]. rewrite Raw.position_S, decide_True by (by exists x). by rewrite Hp.
  - intros (i & e & Hi & Hp)%IH. exists (S i), e. split; [done|]. rewrite Raw.position_S, decide_False by (by intros [x Hx]). done.
Qed.
(** A graph recorded with edges that order its conflicting commands, directly or
    through other nodes, has no race in any of its batches: the contract of
    [Graph::dispatch] is enough for a launch to do what was recorded. *)
Theorem ordered_recordings_race_nowhere f g hist sizes :
  Raw.faithful g hist →
  (∀ i j c d e e', (i < j)%nat → Raw.nodes g !! i = Some (Raw.Prepared c, e) → Raw.nodes g !! j = Some (Raw.Prepared d, e') →
     independent f c d ∨ tc (Raw.follows hist) j i) →
  Forall (graph_race_free f) (batches sizes (Raw.finish g)).
Proof.
  intros Hf Ho. eapply Forall_impl; [apply (batches_pairs (independent f))|].
  - intros i j c d b b' Hij Hi Hj Hno. destruct (finish_node _ _ _ _ _ _ Hi) as (x & e & Hx & Ex), (finish_node _ _ _ _ _ _ Hj) as (y & e' & Hy & Ey).
    assert (x < y)%nat as Hxy.
    { destruct (decide (x < y)%nat); [done|]. pose proof (Raw.position_le (Raw.nodes g) y x ltac:(lia)). lia. }
    destruct (Ho x y c d e e' Hxy Hx Hy) as [|Htc]; [done|].
    destruct (Raw.faithful_separates g hist x y c e d e' Hf Hx Hy Htc) as (k & z & Hk & Hz). exfalso. apply (Hno k z); [lia|done].
  - cbn. intros [c|ps] Hp; [done|]. eapply Forall_impl; [exact Hp|]. apply race_free_pairs.
Qed.
End StreamOverlap.
