(* ===== verification/StreamInvariant.v ===== *)
(** * Streams: the invariant

    What holds of a stream between calls and inside them: the timeline is in
    order and on one engine, host-side buffers own their backing alone, cached
    and recorded commands are what was asked for, and the reservations of
    unfinished work are held.  The contents of one backing may be watched while
    a readback owns it.  Every primitive of the model preserves the invariant. *)

From S2P Require Import Prelude Access BTreeMap Sdma Stream StreamMemory.
Import Stream StreamMemory.
Local Open Scope Z_scope.

Module StreamInvariant.

Local Arguments scratch_buffers : simpl never.
Local Arguments cached_natives : simpl never.

(** Membership in appended lists, propositionally. *)
Ltac mem :=
  repeat first [rewrite elem_of_app in * | rewrite elem_of_cons in * | rewrite elem_of_nil in *]; tauto.

(** ** Definitions *)

(** Memory once everything published has executed. *)
Definition settled (w : World) : Memory :=
  foldl (execute (effect (config w))) (memory (dev w)) (inflight (dev w)).
Definition charge_of (w : World) (n : nat) : option nat := from_option n_charge None (natives (dev w) !! n).
Definition rb_natives (w : World) : list nat := native <$> (rb_buffer <$> readbacks (client w)).
Definition local_natives (w : World) : list nat := native <$> locals (pools w).
Definition pool_natives (w : World) : list nat := native <$> staging_pool (pools w).
(** Backing the application cannot name, and backing it can. *)
Definition hidden (w : World) : list nat :=
  local_natives w ++ (native <$> staging (pools w)) ++ pool_natives w ++ rb_natives w ++ free (inner w).
Definition exposed (w : World) : list nat :=
  (native <$> scratch_buffers (scratch (pools w))) ++ (native <$> handles (client w)) ++ graph_natives (client w).
Definition busy (w : World) : list nat := inflight (dev w) ≫= e_natives.

Definition cmd_ok (c : Command) : Prop :=
  ∀ n, n ∈ concat (c_parts c) ≫= touches → n ∈ c_natives c.
Definition entry_ok (e : Entry) : Prop := ∀ n, n ∈ entry_touches e → n ∈ e_natives e.

Record timeline (d : Device) : Prop := {
  tl_entries : Forall entry_ok (inflight d);
  tl_sorted : StronglySorted lt (e_point <$> inflight d);
  tl_latest : match latest d with
              | None => inflight d = []
              | Some k =>
                  (k_point k < published d)%nat ∧ (∀ e, e ∈ inflight d → covered k e) ∧
                  (inflight d ≠ [] → ∃ e, e ∈ inflight d ∧ e_point e = k_point k)
              end }.

Record layout (w : World) : Prop := {
  ly_known : ∀ n, n ∈ hidden w ++ exposed w ++ references w → (n < length (natives (dev w)))%nat;
  ly_hidden : NoDup (hidden w);
  ly_apart : ∀ n, n ∈ hidden w → n ∉ exposed w;
  ly_idle : ∀ n, n ∈ pool_natives w → n ∉ busy w;
  ly_free : ∀ n, n ∈ free (inner w) → n ∉ references w ∧ charge_of w n = None;
  ly_charge : ∀ b, b ∈ buffers w → reservation b = charge_of w (native b) }.

Definition transfer_ok (c : Config) (e : CachedTransfer) : Prop :=
  0 < t_length e ∧ c_engine (t_command e) = engine_of (sdma c) ∧
  match t_source e with
  | None =>
      c_parts (t_command e) =
        works_of (λ o n, Fill (t_destination e) (t_offset e + o) n (t_value e)) (spans (sdma c) (t_length e)) ∧
      c_natives (t_command e) = [t_destination e]
  | Some (s, q) =>
      ranges_meet (t_destination e) (t_offset e) s q (t_length e) = false ∧
      c_parts (t_command e) =
        works_of (λ o n, Copy (t_destination e) (t_offset e + o) s (q + o) n) (spans (sdma c) (t_length e)) ∧
      c_natives (t_command e) = [t_destination e; s]
  end.
Definition dispatch_ok (c : Config) (e : CachedDispatch) : Prop :=
  c_engine (d_command e) = (if aql c then 2 else 0)%nat ∧
  c_parts (d_command e) = [[Run (d_launch e)]] ∧ c_natives (d_command e) = (l_bindings (d_launch e)).*1.*1.
Definition graph_commands (c : Client) : list Command :=
  (recordings c ≫= r_commands) ++ (graphs c ≫= g_commands).
Record commands (w : World) : Prop := {
  cm_sdma : ∀ l, sdma (config w) = Some l → 0 < l;
  cm_transfers : Forall (transfer_ok (config w)) (transfer_cache (inner w));
  cm_dispatches : Forall (dispatch_ok (config w)) (dispatch_cache (inner w));
  cm_graphs : Forall cmd_ok (graph_commands (client w)) }.

(** A reservation that outlives the entry: the stream's uses, a leak, or a graph
    that may not let go of it before the entry has executed. *)
Definition held (w : World) (point : nat) (r : nat) : Prop :=
  r ∈ uses (pools w) ∨ r ∈ leaked (client w) ∨
  ∃ g, g ∈ graphs (client w) ∧ r ∈ g_uses g ∧
       (g_failed g = true ∨ ∃ k, g_last g = Some k ∧ (point <= k_point k)%nat).
(** The reservations of unfinished work, but for the backing in [lost]: that of
    zero fills whose final wait failed. *)
Record charged (lost : list nat) (w : World) : Prop := {
  ch_entries : ∀ e n r, e ∈ inflight (dev w) → n ∈ e_natives e → n ∉ lost → charge_of w n = Some r →
    held w (e_point e) r;
  ch_recordings : ∀ g c n r, g ∈ recordings (client w) → c ∈ r_commands g → n ∈ c_natives c →
    charge_of w n = Some r → r ∈ r_uses g;
  ch_graphs : ∀ g c n r, g ∈ graphs (client w) → c ∈ g_commands g → n ∈ c_natives c →
    charge_of w n = Some r → r ∈ g_uses g;
  ch_last : ∀ g k, g ∈ graphs (client w) → g_last g = Some k →
    (k_point k < published (dev w))%nat ∧
    ∀ e, e ∈ inflight (dev w) → (e_point e <= k_point k)%nat → e_engine e = k_engine k }.

(** The contents of a backing that a readback may own. *)
Definition watched (watch : option (nat * (Z → Z))) (w : World) : Prop :=
  match watch with
  | None => True
  | Some (n, c) => (n < length (natives (dev w)))%nat ∧ (n ∈ rb_natives w → ∀ a, settled w n a = c a)
  end.
(** What the invariant is relative to: the watched contents and the lost backing. *)
Definition Watch : Type := option (nat * (Z → Z)) * list nat.
Record inv (watch : Watch) (w : World) : Prop := {
  inv_time : timeline (dev w);
  inv_layout : layout w;
  inv_commands : commands w;
  inv_charged : charged watch.2 w;
  inv_watched : watched watch.1 w }.

(** ** The timeline *)

Lemma filter_downward {A} (P : A → Prop) `{!∀ x, Decision (P x)} (l : list A) :
  StronglySorted (λ x y, P y → P x) l → l = filter P l ++ filter (λ x, ¬ P x) l.
Proof.
  induction 1 as [|x l _ IH Hx]; [done|]. destruct (decide (P x)) as [Hp|Hp].
  - rewrite filter_cons_True, filter_cons_False by naive_solver. cbn. by rewrite <-IH.
  - assert (filter P l = []) as E.
    { apply elem_of_nil_inv. intros y [Hy Hin]%list_elem_of_filter. rewrite Forall_forall in Hx. by apply Hp, (Hx y). }
    rewrite filter_cons_False, filter_cons_True, E by done. cbn. f_equal.
    rewrite E in IH. by rewrite <-IH at 1.
Qed.

Lemma StronglySorted_fmap {A B} (R : relation B) (f : A → B) l :
  StronglySorted R (f <$> l) ↔ StronglySorted (λ x y, R (f x) (f y)) l.
Proof.
  induction l as [|x l IH]; [split; constructor|]. rewrite fmap_cons. split; inversion 1; subst; constructor;
    rewrite ?Forall_fmap in *; try done; by apply IH.
Qed.
Lemma StronglySorted_weaken {A} (R S : relation A) (l : list A) :
  (∀ x y, x ∈ l → y ∈ l → R x y → S x y) → StronglySorted R l → StronglySorted S l.
Proof.
  intros H Hs. induction Hs as [|x l _ IH Hx]; constructor.
  - apply IH. intros y z Hy Hz. apply H; set_solver.
  - rewrite Forall_forall in *. intros y Hy. apply H; [set_solver..|by apply Hx].
Qed.

Lemma run_until_prefix d k :
  timeline d → inflight d = filter (covered k) (inflight d) ++ filter (λ e, ¬ covered k e) (inflight d).
Proof.
  intros [_ Hs Hl]. apply filter_downward. rewrite (StronglySorted_fmap lt e_point) in Hs. refine (StronglySorted_weaken _ _ _ _ Hs).
  intros x y Hx Hy Hlt [He Hp]. destruct (latest d) as [j|]; [|rewrite Hl in Hx; set_solver].
  destruct Hl as (_ & Hc & _). destruct (Hc x Hx), (Hc y Hy). split; [congruence|lia].
Qed.

Lemma timeline_suffix d done rest nn cc m rr :
  timeline d → inflight d = done ++ rest →
  timeline (mkDevice nn cc m rest rr (published d) (latest d)).
Proof.
  intros [He Hs Hl] E. constructor; cbn [inflight latest published].
  - rewrite E in He. by apply Forall_app in He as [_ ?].
  - rewrite E, fmap_app in Hs. by apply StronglySorted_app in Hs as (_ & _ & ?).
  - destruct (latest d) as [k|]; [|rewrite Hl in E; by destruct done, rest]. destruct Hl as (H1 & H2 & H3).
    split_and!; [done|intros e Hin; apply H2; rewrite E; set_solver|]. intros Hne.
    destruct H3 as (e & Hin & Hp); [rewrite E; by destruct done, rest|]. rewrite E in Hin. apply elem_of_app in Hin as [Hin|Hin]; [|eauto].
    destruct rest as [|r rest]; [done|]. exfalso. rewrite E, fmap_app in Hs. apply StronglySorted_app in Hs as (Hlt & _ & _).
    assert (e_point e < e_point r)%nat by (apply Hlt; [by apply list_elem_of_fmap_2|set_solver]).
    destruct (H2 r) as [_ ?]; [rewrite E; set_solver|]. lia.
Qed.

(** ** Worlds that execute *)

Section Inv.
Context (watch : Watch).
Local Notation inv := (inv watch).

Section Shrink.
Context (w : World) (done rest rr : list Entry).
Hypothesis Hinv : inv w.
Hypothesis Hsplit : inflight (dev w) = done ++ rest.
Hypothesis Hret : ∀ e, e ∈ rr → e ∈ retired (dev w) ++ done.
Let d := dev w.
Let w' := set_dev (mkDevice (natives d) (charges d) (foldl (execute (effect (config w))) (memory d) done) rest rr
                     (published d) (latest d)) w.

Lemma shrink_settled : settled w' = settled w.
Proof. unfold settled. cbn. by rewrite Hsplit, foldl_app. Qed.

Lemma shrink_references n : n ∈ references w' → n ∈ references w.
Proof. unfold references. cbn. rewrite Hsplit. set_unfold. naive_solver. Qed.

Lemma shrink_inv : inv w'.
Proof.
  destruct Hinv as [Ht Hl Hc Hch Hw]. constructor.
  - by apply (timeline_suffix _ done rest).
  - destruct Hl as [L1 L2 L3 L4 L5 L6]. constructor; try done.
    + intros n Hn. apply L1. rewrite !elem_of_app in *. destruct Hn as [|[]]; auto using shrink_references.
    + intros n Hn Hb. apply (L4 n Hn). unfold busy in *. cbn in Hb. rewrite Hsplit. set_solver.
    + intros n Hn. destruct (L5 n Hn) as [H1 H2]. split; [|done]. intros Hr. by apply H1, shrink_references.
  - by destruct Hc.
  - destruct Hch as [C1 C2 C3 C4]. constructor; try done.
    + intros e n r He. apply (C1 e). fold d. unfold d. rewrite Hsplit. set_solver.
    + intros g k Hg Hk. destruct (C4 g k Hg Hk) as [H1 H2]. split; [done|]. intros e He. apply H2. fold d. unfold d. rewrite Hsplit. set_solver.
  - unfold watched in *. destruct watch as [[[n c]|] lost]; [|done]. by rewrite shrink_settled.
Qed.
End Shrink.

Lemma run_until_settled k w : inv w → settled (run_until k w) = settled w.
Proof.
  intros Hi. apply (shrink_settled w (filter (covered k) (inflight (dev w))) _ (retired (dev w) ++ filter (covered k) (inflight (dev w)))).
  apply run_until_prefix, Hi.
Qed.
Lemma run_until_inv k w : inv w → inv (run_until k w).
Proof.
  intros Hi. apply (shrink_inv w (filter (covered k) (inflight (dev w)))); [done|apply run_until_prefix, Hi|done].
Qed.

Lemma device_step_prefix e w i x :
  timeline (dev w) → list_find (λ y, e_engine y = e) (inflight (dev w)) = Some (i, x) →
  i = 0%nat ∧ inflight (dev w) = [x] ++ delete i (inflight (dev w)).
Proof.
  intros [_ _ Hl] Hf. apply list_find_Some in Hf as (Hx & He & Hmin).
  destruct (latest (dev w)) as [k|]; [|by rewrite Hl in Hx]. destruct Hl as (_ & Hc & _).
  destruct i as [|i]; [|exfalso].
  - split; [done|]. destruct (inflight (dev w)); [done|]. by injection Hx as ->.
  - destruct (lookup_lt_is_Some_2 (inflight (dev w)) 0) as [y Hy]; [apply lookup_lt_Some in Hx; lia|].
    apply (Hmin 0%nat y Hy); [lia|]. destruct (Hc y); [by eapply list_elem_of_lookup_2|].
    destruct (Hc x); [by eapply list_elem_of_lookup_2|]. congruence.
Qed.
Lemma device_step_inv e w w' : inv w → device_step e w = Some w' → inv w' ∧ settled w' = settled w.
Proof.
  intros Hi. unfold device_step. intros ([i x] & Hf & [= <-])%bind_Some.
  destruct (device_step_prefix e w i x (inv_time _ _ Hi) Hf) as [-> E].
  split; [apply (shrink_inv w [x])|apply (shrink_settled w [x])]; done.
Qed.
Lemma reap_inv i w : inv w → inv (reap i w).
Proof.
  intros Hi. apply (shrink_inv w []); [done..|]. intros e He. rewrite app_nil_r.
  eapply elem_of_sublist; [exact He|]. apply sublist_delete.
Qed.

Lemma wait_drains w : timeline (dev w) →
  match latest (dev w) with Some k => inflight (dev (run_until k w)) = [] | None => inflight (dev w) = [] end.
Proof.
  intros [_ _ Hl]. destruct (latest (dev w)) as [k|]; [|done]. destruct Hl as (_ & Hc & _). cbn.
  apply elem_of_nil_inv. intros e [Hn He]%list_elem_of_filter. by apply Hn, Hc.
Qed.

(** ** Publication *)

Section Publish.
Context (w : World) (c : Command) (works : list Work).
Hypothesis Hinv : inv w.
Hypothesis Hworks : ∀ n, n ∈ works ≫= touches → n ∈ c_natives c.
Hypothesis Huse : ∀ n, n ∈ c_natives c → n ∈ exposed w ++ local_natives w.
Hypothesis Hengine : ∀ e, e ∈ inflight (dev w) → e_engine e = c_engine c.
Hypothesis Hheld : ∀ n r, n ∈ c_natives c → n ∉ watch.2 → charge_of w n = Some r → held w (published (dev w)) r.
Let w' := publish c works w.

Lemma publish_settled : settled w' = foldl (apply (effect (config w))) (settled w) works.
Proof. unfold settled. cbn. by rewrite foldl_app. Qed.

Lemma hidden_local_apart n : n ∈ local_natives w →
  n ∉ (native <$> staging (pools w)) ++ pool_natives w ++ rb_natives w ++ free (inner w).
Proof.
  intros Hl. destruct Hinv as [_ [_ L _ _ _ _] _ _ _]. unfold hidden in L. apply NoDup_app in L as (_ & L & _). by apply L.
Qed.
Lemma used_apart n : n ∈ c_natives c → n ∉ pool_natives w ++ rb_natives w ++ free (inner w).
Proof.
  intros Hn Hh. apply Huse, elem_of_app in Hn as [He|Hl].
  - apply (ly_apart _ (inv_layout _ _ Hinv) n); [|done]. unfold hidden. set_solver.
  - apply (hidden_local_apart n Hl). rewrite !elem_of_app in *. tauto.
Qed.

Lemma publish_references n : n ∈ references w' ↔ n ∈ references w ∨ n ∈ c_natives c.
Proof.
  unfold references. cbn. rewrite bind_app, !elem_of_app. cbn. rewrite app_nil_r. tauto.
Qed.

Lemma publish_entry_inv : inv w'.
Proof.
  pose proof used_apart as Hap. destruct Hinv as [[T1 T2 T3] [L1 L2 L3 L4 L5 L6] Hc [C1 C2 C3 C4] Hw].
  assert (∀ e, e ∈ inflight (dev w) → (e_point e < published (dev w))%nat) as Hlt.
  { intros e He. destruct (latest (dev w)) as [k|]; [|rewrite T3 in He; set_solver].
    destruct T3 as (? & Hc' & _). destruct (Hc' e He). lia. }
  constructor.
  - constructor; cbn.
    + apply Forall_app. split; [done|]. apply Forall_singleton. done.
    + rewrite fmap_app. apply StronglySorted_app_2; [|done|repeat constructor].
      intros x y (e & -> & He)%list_elem_of_fmap ->%list_elem_of_singleton. cbn. by apply Hlt.
    + split_and!; [lia| |].
      * intros e [He| ->%list_elem_of_singleton]%elem_of_app; [|by split]. split; [by apply Hengine|]. cbn. apply Nat.lt_le_incl. by apply Hlt.
      * intros _. eexists. split; [apply elem_of_app; right; by apply list_elem_of_singleton|done].
  - constructor; try done.
    + intros n Hn. rewrite !elem_of_app in Hn. destruct Hn as [|[|Hn]]; [apply L1; rewrite !elem_of_app; auto..|].
      apply publish_references in Hn as [Hn|Hn]; [apply L1; rewrite !elem_of_app; auto|]. apply L1. rewrite !elem_of_app.
      apply Huse, elem_of_app in Hn as [Hn|Hn]; [auto|]. left. by apply elem_of_app; left.
    + intros n Hn Hb. unfold busy in Hb. cbn in Hb. rewrite bind_app in Hb. apply elem_of_app in Hb as [Hb|Hb]; [by apply (L4 n)|].
      cbn in Hb. rewrite app_nil_r in Hb. apply (Hap n Hb). rewrite !elem_of_app. auto.
    + intros n Hn. destruct (L5 n Hn) as [H1 H2]. split; [|done]. intros [Hr|Hr]%publish_references; [by apply H1|].
      apply (Hap n Hr). rewrite !elem_of_app. auto.
  - by destruct Hc.
  - constructor; try done.
    + intros e n r He Hn Hlost Hch. cbn in He. apply elem_of_app in He as [He|He].
      * by apply (C1 e n r).
      * apply list_elem_of_singleton in He as ->. by apply (Hheld n r).
    + intros g k Hg Hk. destruct (C4 g k Hg Hk) as [H1 H2]. cbn. split; [lia|]. intros e [He| ->%list_elem_of_singleton]%elem_of_app Hp; [by apply H2|].
      cbn in Hp. lia.
  - unfold watched in *. destruct watch as [[[n cc]|] lost]; [|done]. destruct Hw as [H1 H2]. split; [done|].
    intros Hn a. rewrite publish_settled, works_other; [by apply H2|]. intros Ht%Hworks. apply (Hap n Ht). rewrite !elem_of_app. auto.
Qed.
End Publish.

(** ** Uses and memory *)

Lemma set_uses_inv l w :
  inv w → (∀ r, r ∈ uses (pools w) → r ∈ l) ∨ inflight (dev w) = [] → inv (set_uses l w).
Proof.
  intros [Ht [L1 L2 L3 L4 L5 L6] [Q1 Q2 Q3 Q4] [C1 C2 C3 C4] Hw] Hl. constructor; try done.
  constructor; try done. intros e n r He Hn Hlost Hch. destruct Hl as [Hl|Hl]; [|cbn in He; rewrite Hl in He; set_solver].
  destruct (C1 e n r He Hn Hlost Hch) as [?|[?|?]]; [left; by apply Hl|by right; left|by right; right].
Qed.

Lemma retain_use_elem l v r : r ∈ retain_use l v ↔ r ∈ l ∨ reservation (v_owner v) = Some r.
Proof. unfold retain_use. destruct (reservation _) as [x|]; [|naive_solver]. case_bool_decide; set_solver. Qed.
Lemma retain_uses_elem views l r :
  r ∈ foldl retain_use l views ↔ r ∈ l ∨ ∃ v, v ∈ views ∧ reservation (v_owner v) = Some r.
Proof.
  revert l. induction views as [|v views IH]; intros l; cbn [foldl]; [set_solver|]. rewrite IH, retain_use_elem. set_solver.
Qed.
Lemma retain_inv views w : inv w → inv (retain views w).1.
Proof. intros Hi. apply set_uses_inv; [done|]. left. intros r Hr. apply retain_uses_elem. by left. Qed.

Section Host.
Context (w : World) (n : nat) (u : (Z → Z) → Z → Z) (m : Memory).
Hypothesis Hinv : inv w.
Hypothesis Hidle : n ∉ busy w.
Hypothesis Hu : Proper (pointwise_relation Z eq ==> pointwise_relation Z eq) u.
Hypothesis Hm : meq m (update_at (memory (dev w)) n u).

Lemma host_settled : meq (settled (set_memory m w)) (update_at (settled w) n u).
Proof.
  unfold settled. cbn. etrans; [apply foldl_execute_proper, Hm|]. apply entries_update; [|done].
  intros Hn. apply Hidle. unfold busy. destruct Hinv as [[T1 _ _] _ _ _ _].
  apply list_elem_of_bind in Hn as (e & Hn & He). apply list_elem_of_bind. exists e. split; [|done].
  rewrite Forall_forall in T1. by apply (T1 e He).
Qed.

Lemma host_inv : n ∉ rb_natives w → inv (set_memory m w).
Proof.
  intros Hrb. pose proof host_settled as Hs. destruct Hinv as [[T1 T2 T3] [L1 L2 L3 L4 L5 L6] [Q1 Q2 Q3 Q4] [C1 C2 C3 C4] Hw]. constructor; try done.
  unfold watched in *. destruct watch as [[[x c]|] lost]; [|done]. destruct Hw as [H1 H2]. split; [done|]. intros Hx a.
  etrans; [apply (Hs x a)|]. unfold update_at, patch. destruct (Nat.eqb_spec x n) as [->|]; [done|]. by apply H2.
Qed.
End Host.

(** ** New backing *)

(** A backing nothing refers to yet. *)
Definition fresh (w : World) (n : nat) : Prop :=
  (n < length (natives (dev w)))%nat ∧ n ∉ hidden w ++ exposed w ++ references w.
Definition unwatched (n : nat) : Prop := match watch.1 with Some (x, _) => x ≠ n | None => True end.

Definition add_native (x : Native) (w : World) : World :=
  let d := dev w in
  set_dev (mkDevice (natives d ++ [x]) (charges d) (memory d) (inflight d) (retired d) (published d) (latest d)) w.
Lemma charge_of_add x w n : (n < length (natives (dev w)))%nat → charge_of (add_native x w) n = charge_of w n.
Proof. intros Hn. unfold charge_of. cbn. by rewrite lookup_app_l. Qed.
Lemma known_of w n : inv w → n ∈ hidden w ++ exposed w ++ references w → (n < length (natives (dev w)))%nat.
Proof. intros Hi. apply (ly_known _ (inv_layout _ _ Hi)). Qed.
Lemma reference_busy w n : n ∈ busy w → n ∈ references w.
Proof. unfold busy, references. rewrite !elem_of_app. auto. Qed.
Lemma reference_graph w n : n ∈ graph_natives (client w) → n ∈ references w.
Proof. unfold references. rewrite !elem_of_app. auto. Qed.
Lemma recording_native (c : Client) g x n :
  g ∈ recordings c → x ∈ r_commands g → n ∈ c_natives x → n ∈ graph_natives c.
Proof.
  intros Hg Hx Hn. unfold graph_natives. apply elem_of_app. left. apply list_elem_of_bind. exists g. split; [|done].
  apply list_elem_of_bind. by exists x.
Qed.
Lemma graph_native (c : Client) g x n :
  g ∈ graphs c → x ∈ g_commands g → n ∈ c_natives x → n ∈ graph_natives c.
Proof.
  intros Hg Hx Hn. unfold graph_natives. apply elem_of_app. right. apply list_elem_of_bind. exists g. split; [|done].
  apply list_elem_of_bind. by exists x.
Qed.
Lemma entry_native w e n : e ∈ inflight (dev w) → n ∈ e_natives e → n ∈ busy w.
Proof. intros He Hn. apply list_elem_of_bind. by exists e. Qed.
Lemma buffer_native w b : b ∈ buffers w → native b ∈ hidden w ++ exposed w.
Proof.
  unfold buffers, hidden, exposed, local_natives, pool_natives, rb_natives. rewrite !elem_of_app.
  intros [H|[H|[H|[H|[H|H]]]]]; apply (list_elem_of_fmap_2 native) in H; tauto.
Qed.
Lemma known_buffer w b : inv w → b ∈ buffers w → (native b < length (natives (dev w)))%nat.
Proof.
  intros Hi Hb%buffer_native. apply (known_of w _ Hi). rewrite !elem_of_app in *. tauto.
Qed.

Section AddNative.
Context (w : World) (x : Native).
Hypothesis Hinv : inv w.
Let w' := add_native x w.

Lemma add_native_inv : inv w'.
Proof.
  pose proof (λ n, known_of w n Hinv) as Hk. pose proof (λ b, known_buffer w b Hinv) as Hb.
  assert (∀ n, n ∈ references w → charge_of w' n = charge_of w n) as Hr.
  { intros n Hn. apply charge_of_add, Hk. rewrite !elem_of_app. auto. }
  destruct Hinv as [[T1 T2 T3] [L1 L2 L3 L4 L5 L6] [Q1 Q2 Q3 Q4] [C1 C2 C3 C4] Hw]. constructor; try done.
  - constructor; try done.
    + intros n Hn. specialize (L1 n Hn). cbn. rewrite length_app. cbn. lia.
    + intros n Hn. destruct (L5 n Hn) as [H1 H2]. split; [done|]. rewrite <-H2. apply charge_of_add, L1. unfold hidden. rewrite !elem_of_app. tauto.
    + intros b Hin. rewrite (L6 b Hin). symmetry. by apply charge_of_add, Hb.
  - constructor; try done.
    + intros e n r He Hn Hlost Hch. rewrite Hr in Hch by (apply reference_busy; by eapply entry_native). by apply (C1 e n r).
    + intros g c n r Hg Hc Hn Hch. rewrite Hr in Hch by (apply reference_graph; by eapply recording_native). by apply (C2 g c n r).
    + intros g c n r Hg Hc Hn Hch. rewrite Hr in Hch by (apply reference_graph; by eapply graph_native). by apply (C3 g c n r).
  - unfold watched in *. destruct watch as [[[n c]|] lost]; [|done]. destruct Hw as [H1 H2]. split; [|done]. cbn. rewrite length_app. cbn. lia.
Qed.
Lemma add_native_fresh : fresh w' (length (natives (dev w))).
Proof.
  split; [cbn; rewrite length_app; cbn; lia|]. intros Hn. apply (Nat.lt_irrefl (length (natives (dev w)))). by apply (known_of w _ Hinv).
Qed.
Lemma add_native_unwatched : unwatched (length (natives (dev w))).
Proof.
  unfold unwatched. destruct Hinv as [_ _ _ _ Hw]. unfold watched in Hw. destruct watch as [[[n c]|] lost]; [|done]. destruct Hw. cbn. lia.
Qed.
End AddNative.

Lemma add_charge_inv w l :
  inv w → let d := dev w in
  inv (set_dev (mkDevice (natives d) l (memory d) (inflight d) (retired d) (published d) (latest d)) w).
Proof.
  intros [[T1 T2 T3] [L1 L2 L3 L4 L5 L6] [Q1 Q2 Q3 Q4] [C1 C2 C3 C4] Hw]. by constructor.
Qed.

(** ** Moving buffers *)

Record same (w w' : World) : Prop := {
  sm_config : config w' = config w;
  sm_dev : dev w' = dev w;
  sm_inner : inner w' = inner w;
  sm_uses : uses (pools w') = uses (pools w);
  sm_recordings : recordings (client w') = recordings (client w);
  sm_graphs : graphs (client w') = graphs (client w);
  sm_leaked : leaked (client w') = leaked (client w) }.

Lemma same_settled w w' : same w w' → settled w' = settled w.
Proof. intros [E1 E2 _ _ _ _ _]. unfold settled. by rewrite E1, E2. Qed.
Lemma same_references w w' : same w w' → references w' = references w.
Proof. intros [E1 E2 E3 E4 E5 E6 E7]. unfold references, graph_natives. by rewrite E2, E3, E5, E6. Qed.

Lemma move_inv w w' :
  inv w → same w w' → NoDup (hidden w') → (∀ n, n ∈ hidden w' → n ∉ exposed w') →
  (∀ n, n ∈ hidden w' ++ exposed w' → n ∈ hidden w ++ exposed w) →
  (∀ b, b ∈ buffers w' → b ∈ buffers w) → (∀ n, n ∈ pool_natives w' → n ∉ busy w) →
  (∀ n, n ∈ rb_natives w' → n ∈ rb_natives w ∨ unwatched n) → inv w'.
Proof.
  intros Hi Hs Hnd Hap Hsub Hb Hp Hrb. pose proof (same_settled w w' Hs) as Es. pose proof (same_references w w' Hs) as Er.
  destruct Hs as [E1 E2 E3 E4 E5 E6 E7]. destruct Hi as [[T1 T2 T3] [L1 L2 L3 L4 L5 L6] [Q1 Q2 Q3 Q4] [C1 C2 C3 C4] Hw].
  constructor.
  - by rewrite E2.
  - constructor; try done; unfold busy, charge_of; rewrite ?E2; try done.
    + intros n Hn. apply L1. rewrite app_assoc, elem_of_app in Hn |- *. destruct Hn as [Hn|Hn]; [left; by apply Hsub|right; by rewrite <-Er].
    + intros n Hn. rewrite E3 in Hn. rewrite Er. by apply L5.
    + intros b Hin. by apply L6, Hb.
  - constructor; unfold graph_commands; rewrite ?E1, ?E3, ?E5, ?E6; done.
  - unfold charge_of in *. constructor; unfold held, charge_of; rewrite ?E2, ?E4, ?E5, ?E6, ?E7; done.
  - unfold watched, unwatched in *. destruct watch as [[[x c]|] lost]; [|done]. rewrite E2, Es. destruct Hw as [H1 H2]. split; [done|].
    intros Hx. destruct (Hrb x Hx); [by apply H2|done].
Qed.

(** Some hidden backing leaves. *)
Lemma hidden_leave w l H' :
  inv w → hidden w ≡ₚ l ++ H' →
  NoDup H' ∧ (∀ n, n ∈ H' → n ∈ hidden w ∧ n ∉ exposed w ∧ n ∉ l).
Proof.
  intros Hi Hp. pose proof (ly_hidden _ (inv_layout _ _ Hi)) as Hnd. rewrite Hp in Hnd. apply NoDup_app in Hnd as (_ & Hd & Hn).
  split; [done|]. intros n Hin. assert (n ∈ hidden w) as Hh by (rewrite Hp; apply elem_of_app; by right).
  split_and!; [done|by apply (ly_apart _ (inv_layout _ _ Hi))|]. intros Hl. by apply (Hd n Hl).
Qed.

Lemma filter_all {A} (P : A → Prop) `{!∀ x, Decision (P x)} (l : list A) : Forall P l → filter P l = l.
Proof. induction 1 as [|x l Hx _ IH]; [done|]. rewrite filter_cons_True by done. by rewrite IH. Qed.
Lemma filter_native (l : list Buffer) b :
  NoDup (native <$> l) → b ∈ l → l ≡ₚ b :: filter (λ x, native x ≠ native b) l.
Proof.
  induction l as [|x l IH]; intros Hnd Hin; [by apply elem_of_nil in Hin|]. apply NoDup_cons in Hnd as [Hx Hnd].
  apply elem_of_cons in Hin as [->|Hin].
  - rewrite filter_cons_False by naive_solver. f_equiv. rewrite filter_all; [done|]. apply Forall_forall. intros y Hy E.
    apply Hx. rewrite <-E. by apply list_elem_of_fmap_2.
  - rewrite filter_cons_True; [rewrite (IH Hnd Hin) at 1; apply perm_swap|].
    intros E. apply Hx. rewrite E. by apply list_elem_of_fmap_2.
Qed.

Definition push_local (b : Buffer) (w : World) : World := set_locals (b :: locals (pools w)) w.
Lemma push_local_inv b w :
  inv w → fresh w (native b) → reservation b = charge_of w (native b) → inv (push_local b w).
Proof.
  intros Hi [Hk Hf] Hr. rewrite !not_elem_of_app in Hf. destruct Hf as (F1 & F2 & F3).
  destruct Hi as [[T1 T2 T3] [L1 L2 L3 L4 L5 L6] [Q1 Q2 Q3 Q4] [C1 C2 C3 C4] Hw]. constructor; try done. constructor; try done.
  - intros n Hn. change (n ∈ (native b :: hidden w) ++ exposed w ++ references w) in Hn. cbn in Hn.
    apply elem_of_cons in Hn as [->|Hn]; [done|by apply L1].
  - change (NoDup (native b :: hidden w)). by constructor.
  - intros n Hn. change (n ∈ native b :: hidden w) in Hn. apply elem_of_cons in Hn as [->|Hn]; [done|by apply L3].
  - intros x Hx. change (x ∈ b :: buffers w) in Hx. apply elem_of_cons in Hx as [->|Hx]; [done|by apply L6].
Qed.

(** The running call passes on one of its buffers. *)
Definition pop_local (b : Buffer) (w : World) : World :=
  set_locals (filter (λ x, native x ≠ native b) (locals (pools w))) w.
Lemma pop_local_hidden b w :
  inv w → b ∈ locals (pools w) → hidden w ≡ₚ [native b] ++ hidden (pop_local b w).
Proof.
  intros Hi Hb. unfold hidden at 2, local_natives. cbn. unfold hidden, local_natives.
  pose proof (ly_hidden _ (inv_layout _ _ Hi)) as Hnd. unfold hidden in Hnd. apply NoDup_app in Hnd as (Hnd & _ & _).
  rewrite (filter_native _ b Hnd Hb) at 1. done.
Qed.
Lemma pop_local_buffers b w x : inv w → b ∈ locals (pools w) → x ∈ b :: buffers (pop_local b w) ↔ x ∈ buffers w.
Proof.
  intros Hi Hb. unfold buffers at 1. cbn. unfold buffers. pose proof (ly_hidden _ (inv_layout _ _ Hi)) as Hnd. unfold hidden in Hnd.
  apply NoDup_app in Hnd as (Hnd & _ & _).
  assert (x ∈ locals (pools w) ↔ x = b ∨ x ∈ filter (λ y, native y ≠ native b) (locals (pools w))) as E
    by (rewrite (filter_native _ b Hnd Hb) at 1; apply elem_of_cons).
  rewrite elem_of_cons, !elem_of_app, E. tauto.
Qed.

Definition give_handle (b : Buffer) (w : World) : World :=
  let w := pop_local b w in set_handles (b :: handles (client w)) w.
Lemma give_inv b w : inv w → b ∈ locals (pools w) → inv (give_handle b w).
Proof.
  intros Hi Hb. pose proof (pop_local_hidden b w Hi Hb) as Hp. destruct (hidden_leave w _ _ Hi Hp) as [Hnd Hin].
  assert (∀ n, n ∈ exposed (give_handle b w) → n = native b ∨ n ∈ exposed w) as He.
  { intros n. unfold exposed, graph_natives. cbn. mem. }
  apply (move_inv w); try done.
  - intros n Hn Hx. destruct (Hin n Hn) as (_ & H1 & H2). apply He in Hx as [->|Hx]; [|done]. apply H2. by apply list_elem_of_singleton.
  - intros n. rewrite !elem_of_app. intros [Hn|[->|Hn]%He]; [left; by apply Hin| |by right]. left. rewrite Hp. by left.
  - intros x Hx. apply (pop_local_buffers b w x Hi Hb). unfold buffers in Hx. cbn in Hx. unfold buffers. cbn.
    mem.
  - intros n Hn. by apply (ly_idle _ (inv_layout _ _ Hi)).
  - intros n Hn. by left.
Qed.

Definition push_staging (b : Buffer) (w : World) : World :=
  let w := pop_local b w in set_staging (staging (pools w) ++ [b]) (staging_pool (pools w)) w.
Lemma push_staging_inv b w : inv w → b ∈ locals (pools w) → inv (push_staging b w).
Proof.
  intros Hi Hb. pose proof (pop_local_hidden b w Hi Hb) as Hp.
  assert (hidden (push_staging b w) ≡ₚ hidden w) as Hh.
  { rewrite Hp. unfold hidden, local_natives, pool_natives, rb_natives. cbn. rewrite fmap_app. cbn. solve_Permutation. }
  apply (move_inv w); try done.
  - rewrite Hh. apply (ly_hidden _ (inv_layout _ _ Hi)).
  - intros n. rewrite Hh. apply (ly_apart _ (inv_layout _ _ Hi)).
  - intros n. rewrite !elem_of_app. rewrite Hh. done.
  - intros x Hx. apply (pop_local_buffers b w x Hi Hb). unfold buffers in Hx. cbn in Hx. unfold buffers. cbn.
    mem.
  - intros n Hn. by apply (ly_idle _ (inv_layout _ _ Hi)).
  - intros n Hn. by left.
Qed.

Definition push_readback (b : Buffer) (n : Z) (w : World) : World :=
  let w := pop_local b w in set_readbacks (mkReadback b n :: readbacks (client w)) w.
Lemma push_readback_inv b n w :
  inv w → b ∈ locals (pools w) → unwatched (native b) → inv (push_readback b n w).
Proof.
  intros Hi Hb Hu. pose proof (pop_local_hidden b w Hi Hb) as Hp.
  assert (hidden (push_readback b n w) ≡ₚ hidden w) as Hh.
  { rewrite Hp. unfold hidden, local_natives, pool_natives, rb_natives. cbn. solve_Permutation. }
  apply (move_inv w); try done.
  - rewrite Hh. apply (ly_hidden _ (inv_layout _ _ Hi)).
  - intros x. rewrite Hh. apply (ly_apart _ (inv_layout _ _ Hi)).
  - intros x. rewrite !elem_of_app. rewrite Hh. done.
  - intros x Hx. apply (pop_local_buffers b w x Hi Hb). unfold buffers in Hx. cbn in Hx. unfold buffers. cbn.
    mem.
  - intros x Hn. by apply (ly_idle _ (inv_layout _ _ Hi)).
  - intros x Hx. unfold rb_natives in Hx. cbn in Hx. apply elem_of_cons in Hx as [->|Hx]; [by right|by left].
Qed.

Lemma take_pool_inv i b w :
  inv w → staging_pool (pools w) !! i = Some b →
  inv (push_local b (set_staging (staging (pools w)) (swap_remove i (staging_pool (pools w))) w)).
Proof.
  intros Hi Hb. pose proof (swap_remove_perm _ _ _ Hb) as Hp. set (l := swap_remove i _) in *. clearbody l. set (w' := push_local _ _).
  assert (hidden w' ≡ₚ hidden w) as Hh.
  { unfold hidden, local_natives, pool_natives, rb_natives. cbn. rewrite Hp. cbn. solve_Permutation. }
  apply (move_inv w); try done.
  - rewrite Hh. apply (ly_hidden _ (inv_layout _ _ Hi)).
  - intros x. rewrite Hh. apply (ly_apart _ (inv_layout _ _ Hi)).
  - intros x. rewrite !elem_of_app. rewrite Hh. done.
  - intros x. unfold buffers. cbn. rewrite Hp. mem.
  - intros x Hx. apply (ly_idle _ (inv_layout _ _ Hi)). unfold pool_natives in *. cbn in Hx. rewrite Hp. by right.
  - intros x Hx. by left.
Qed.

Lemma take_readback_inv i r w :
  inv w → readbacks (client w) !! i = Some r →
  inv (set_locals (rb_buffer r :: locals (pools w)) (set_readbacks (delete i (readbacks (client w))) w)).
Proof.
  intros Hi Hr. pose proof (delete_Permutation _ _ _ Hr) as Hp. set (l := delete i _) in *. clearbody l. set (w' := set_locals _ _).
  assert (hidden w' ≡ₚ hidden w) as Hh.
  { unfold hidden, local_natives, pool_natives, rb_natives. cbn. rewrite Hp. cbn. solve_Permutation. }
  apply (move_inv w); try done.
  - rewrite Hh. apply (ly_hidden _ (inv_layout _ _ Hi)).
  - intros x. rewrite Hh. apply (ly_apart _ (inv_layout _ _ Hi)).
  - intros x. rewrite !elem_of_app. rewrite Hh. done.
  - intros x. unfold buffers. cbn. rewrite Hp. cbn. mem.
  - intros x Hx. by apply (ly_idle _ (inv_layout _ _ Hi)).
  - intros x Hx. left. unfold rb_natives in *. cbn in Hx. rewrite Hp. by right.
Qed.

(** Lists that only lose elements. *)
Lemma leave_inv w w' H :
  inv w → same w w' → hidden w ≡ₚ H ++ hidden w' → (∀ n, n ∈ exposed w' → n ∈ exposed w) →
  (∀ b, b ∈ buffers w' → b ∈ buffers w) → (∀ n, n ∈ pool_natives w' → n ∉ busy w) →
  (∀ n, n ∈ rb_natives w' → n ∈ rb_natives w) → inv w'.
Proof.
  intros Hi Hs Hp He Hb Hpool Hrb. destruct (hidden_leave w _ _ Hi Hp) as [Hnd Hin]. apply (move_inv w); try done.
  - intros n Hn Hx. destruct (Hin n Hn) as (_ & H1 & _). by apply H1, He.
  - intros n. rewrite !elem_of_app. intros [Hn|Hn]; [left; by apply Hin|right; by apply He].
  - intros n Hn. left. by apply Hrb.
Qed.

(** ** Dropping buffers *)

(** What is known of a buffer taken from its place. *)
Definition loose (w : World) (b : Buffer) : Prop :=
  (native b < length (natives (dev w)))%nat ∧ reservation b = charge_of w (native b).
Lemma loose_buffer w b : inv w → b ∈ buffers w → loose w b.
Proof. intros Hi Hb. split; [by apply (known_buffer w)|]. by apply (ly_charge _ (inv_layout _ _ Hi)). Qed.

Lemma evict_references b w n : n ∈ references (evict b w) → n ∈ references w.
Proof.
  unfold references, cached_natives, evict, graph_natives. cbn. rewrite !elem_of_app.
  intros [[Hn|Hn]|Hn]; [left; left|left; right|by right]; apply list_elem_of_bind in Hn as (e & Hn & [_ He]%list_elem_of_filter);
    apply list_elem_of_bind; eauto.
Qed.
Lemma evict_inv b w : inv w → inv (evict b w).
Proof.
  intros [[T1 T2 T3] [L1 L2 L3 L4 L5 L6] [Q1 Q2 Q3 Q4] [C1 C2 C3 C4] Hw]. constructor; try done.
  - constructor; try done.
    + intros n Hn. apply L1. rewrite !elem_of_app in *. destruct Hn as [Hn|[Hn|Hn]]; [by left|right; by left|]. right; right. by apply (evict_references b).
    + intros n Hn. destruct (L5 n Hn) as [H1 H2]. split; [|done]. intros Hr. by apply H1, (evict_references b).
  - constructor; cbn; try done; (apply Forall_forall; intros e [_ He]%list_elem_of_filter);
      [rewrite Forall_forall in Q2|rewrite Forall_forall in Q3]; auto.
Qed.

Lemma push_free_inv n w :
  inv w → (n < length (natives (dev w)))%nat → charge_of w n = None →
  n ∉ (native <$> buffers w) ++ free (inner w) ++ references w →
  inv (set_inner (mkInner (free (inner w) ++ [n]) (dispatch_cache (inner w)) (transfer_cache (inner w))) w).
Proof.
  intros Hi Hk Hch Hx. set (w' := set_inner _ w). rewrite !not_elem_of_app in Hx. destruct Hx as (X1 & X2 & X3).
  assert (hidden w' = hidden w ++ [n]) as Hh.
  { unfold hidden, local_natives, pool_natives, rb_natives. cbn. by rewrite !app_assoc. }
  assert (n ∉ hidden w) as Xh.
  { intros Hin. unfold hidden, local_natives, pool_natives, rb_natives in Hin. unfold buffers in X1. rewrite !fmap_app in X1. mem. }
  assert (n ∉ exposed w) as Xe.
  { intros Hin. unfold exposed in Hin. unfold buffers in X1. rewrite !fmap_app in X1.
    pose proof (reference_graph w n). mem. }
  destruct Hi as [[T1 T2 T3] [L1 L2 L3 L4 L5 L6] [Q1 Q2 Q3 Q4] [C1 C2 C3 C4] Hw]. constructor; try done.
  constructor; try done.
  - intros x Hin. rewrite Hh in Hin. change (x ∈ (hidden w ++ [n]) ++ exposed w ++ references w) in Hin.
    rewrite !elem_of_app, list_elem_of_singleton in Hin. destruct Hin as [[Hin| ->]|[Hin|Hin]]; [|done|..];
      apply L1; rewrite !elem_of_app; auto.
  - rewrite Hh. apply NoDup_app. split_and!; [done|intros y Hy ->%list_elem_of_singleton; done|apply NoDup_singleton].
  - intros x. rewrite Hh, elem_of_app, list_elem_of_singleton. intros [Hin| ->]; [by apply L3|done].
  - intros x. cbn. rewrite elem_of_app, list_elem_of_singleton. intros [Hin| ->]; [by apply L5|done].
Qed.

Lemma drop_buffer_inv b w : inv w → loose w b → inv (drop_buffer w b).
Proof.
  intros Hi [Hk Hr]. unfold drop_buffer. destruct (owner b =? _)%nat; [|done]. pose proof (evict_inv b w Hi) as He.
  destruct (_ && _) eqn:E; [|done]. to_prop. unfold exclusively_owned in *. repeat match goal with H : bool_decide _ = true |- _ => apply bool_decide_eq_true in H end.
  apply push_free_inv; try done. change (charge_of w (native b) = None). by rewrite <-Hr.
Qed.
Lemma drop_buffer_frame b w :
  config (drop_buffer w b) = config w ∧ dev (drop_buffer w b) = dev w ∧ pools (drop_buffer w b) = pools w ∧
  client (drop_buffer w b) = client w.
Proof. unfold drop_buffer. repeat case_match; done. Qed.
Lemma drop_buffers_frame l w :
  let w' := foldl drop_buffer w l in
  config w' = config w ∧ dev w' = dev w ∧ pools w' = pools w ∧ client w' = client w.
Proof.
  revert w. induction l as [|b l IH]; intros w; [done|]. cbn [foldl]. destruct (IH (drop_buffer w b)) as (-> & -> & -> & ->).
  apply drop_buffer_frame.
Qed.
Lemma drop_buffers_inv l w : inv w → Forall (loose w) l → inv (foldl drop_buffer w l).
Proof.
  revert w. induction l as [|b l IH]; intros w Hi Hl; [done|]. inversion_clear Hl as [|? ? Hb Hl']. cbn [foldl].
  apply IH; [by apply drop_buffer_inv|]. eapply Forall_impl; [exact Hl'|]. intros x. unfold loose, charge_of.
  by destruct (drop_buffer_frame b w) as (_ & -> & _).
Qed.
Lemma drop_buffers_settled l w : settled (foldl drop_buffer w l) = settled w.
Proof. unfold settled. destruct (drop_buffers_frame l w) as (-> & -> & _). done. Qed.

Lemma drop_locals_inv w : inv w → inv (drop_locals w).
Proof.
  intros Hi. unfold drop_locals. assert (Forall (loose w) (locals (pools w))) as Hl.
  { apply Forall_forall. intros b Hb. apply (loose_buffer w b Hi). unfold buffers. mem. }
  apply drop_buffers_inv; [|done]. apply (leave_inv w _ (local_natives w)); try done.
  - intros b. unfold buffers. cbn. mem.
  - apply (ly_idle _ (inv_layout _ _ Hi)).
Qed.

Lemma take_free_inv w i n :
  inv w → free (inner w) !! i = Some n →
  let w' := set_inner (mkInner (swap_remove i (free (inner w))) (dispatch_cache (inner w)) (transfer_cache (inner w))) w in
  inv w' ∧ fresh w' n ∧ charge_of w' n = None.
Proof.
  intros Hi Hn w'. pose proof (swap_remove_perm _ _ _ Hn) as Hp. unfold w'. set (l := swap_remove i _) in *. clearbody l. clear w'.
  set (w' := set_inner _ w).
  assert (hidden w ≡ₚ [n] ++ hidden w') as Hh.
  { unfold hidden, local_natives, pool_natives, rb_natives. cbn. rewrite Hp. solve_Permutation. }
  destruct (hidden_leave w _ _ Hi Hh) as [Hnd Hin]. assert (n ∈ free (inner w)) as Hf by (by eapply list_elem_of_lookup_2).
  assert (n ∈ hidden w) as Hnh by (rewrite Hh; by left).
  pose proof (ly_apart _ (inv_layout _ _ Hi) n Hnh) as Hne. destruct (ly_free _ (inv_layout _ _ Hi) n Hf) as [Hr Hch].
  assert (fresh w' n) as Hfr.
  { split; [apply (known_of w n Hi); mem|]. rewrite !not_elem_of_app. split_and!; [|done..]. intros Hx.
    destruct (Hin n Hx) as (_ & _ & H3). apply H3. by left. }
  split_and!; [|done..]. destruct Hi as [[T1 T2 T3] [L1 L2 L3 L4 L5 L6] [Q1 Q2 Q3 Q4] [C1 C2 C3 C4] Hw]. constructor; try done.
  constructor; try done.
  - intros x Hx. apply L1. rewrite !elem_of_app in *. destruct Hx as [Hx|]; [left; by apply Hin|auto].
  - intros x Hx. by apply Hin.
  - intros x Hx. apply L5. cbn in Hx. rewrite Hp. by right.
Qed.

(** ** Caches *)

Lemma free_apart w n : inv w → n ∈ free (inner w) → n ∉ exposed w ++ local_natives w.
Proof.
  intros Hi Hf. pose proof (inv_layout _ _ Hi) as Hl. rewrite not_elem_of_app. split.
  - apply (ly_apart _ Hl). unfold hidden. mem.
  - intros Hx. pose proof (ly_hidden _ Hl) as Hnd. unfold hidden in Hnd. apply NoDup_app in Hnd as (_ & Hd & _).
    apply (Hd n Hx). mem.
Qed.

Lemma cache_inv w dc tc :
  inv w → Forall (transfer_ok (config w)) tc → Forall (dispatch_ok (config w)) dc →
  (∀ n, n ∈ cached_natives (mkInner (free (inner w)) dc tc) →
     n ∈ cached_natives (inner w) ∨ n ∈ exposed w ++ local_natives w) →
  inv (set_inner (mkInner (free (inner w)) dc tc) w).
Proof.
  intros Hi Htc Hdc Hn. set (w' := set_inner _ w). pose proof (λ n, free_apart w n Hi) as Hf. pose proof (λ n, known_of w n Hi) as Hk.
  assert (∀ n, n ∈ references w' → n ∈ references w ∨ n ∈ exposed w ++ local_natives w) as Hr.
  { intros n. unfold references, w'. cbn. rewrite !elem_of_app. intros [H|[H|H]].
    - destruct (Hn n H); mem.
    - left. right. by left.
    - left. right. by right. }
  destruct Hi as [[T1 T2 T3] [L1 L2 L3 L4 L5 L6] [Q1 Q2 Q3 Q4] [C1 C2 C3 C4] Hw]. constructor; try done. constructor; try done.
  - intros n Hin. change (n ∈ hidden w ++ exposed w ++ references w') in Hin. apply Hk. rewrite !elem_of_app in *.
    destruct Hin as [|[|Hin%Hr]]; [by left|by right; left|]. unfold hidden. mem.
  - intros n Hin. destruct (L5 n Hin) as [H1 H2]. split; [|done]. intros [H|H]%Hr; [done|]. by apply (Hf n Hin).
Qed.

(** ** Handles and scratch *)

Lemma push_handle_inv b w :
  inv w → loose w b → native b ∉ hidden w → inv (set_handles (b :: handles (client w)) w).
Proof.
  intros Hi [Hk Hr] Hh. set (w' := set_handles _ w).
  assert (∀ n, n ∈ exposed w' → n = native b ∨ n ∈ exposed w) as He.
  { intros n. unfold exposed, graph_natives. cbn. mem. }
  destruct Hi as [[T1 T2 T3] [L1 L2 L3 L4 L5 L6] [Q1 Q2 Q3 Q4] [C1 C2 C3 C4] Hw]. constructor; try done. constructor; try done.
  - intros n Hin. rewrite !elem_of_app in Hin. destruct Hin as [Hin|[[->|Hin]%He|Hin]]; [|done|..]; apply L1; rewrite !elem_of_app; auto.
  - intros n Hin [->|Hx]%He; [done|]. by apply (L3 n).
  - intros x. unfold buffers. cbn. intros Hx. rewrite !elem_of_app, elem_of_cons in Hx.
    destruct (decide (x = b)) as [->|Hne]; [done|]. apply L6. unfold buffers. mem.
Qed.

Lemma without_handle_inv i b w :
  inv w → handles (client w) !! i = Some b → inv (without_handle i w) ∧ loose (without_handle i w) b.
Proof.
  intros Hi Hb. pose proof (delete_Permutation _ _ _ Hb) as Hp. split.
  - apply (leave_inv w _ []); try done.
    + intros n. unfold exposed, graph_natives. cbn. rewrite !elem_of_app. rewrite (Hp : handles _ ≡ₚ _) at 2. cbn. mem.
    + intros x. unfold buffers. cbn. rewrite !elem_of_app. rewrite (Hp : handles _ ≡ₚ _) at 2. mem.
    + apply (ly_idle _ (inv_layout _ _ Hi)).
  - apply (loose_buffer w b Hi). unfold buffers. apply list_elem_of_lookup_2 in Hb. mem.
Qed.

Lemma drop_stream_handle_inv i w : inv w → inv (drop_handle i w).
Proof.
  intros Hi. unfold drop_handle. destruct (handles (client w) !! i) as [b|] eqn:E; [|done].
  destruct (without_handle_inv i b w Hi E). by apply drop_buffer_inv.
Qed.

Lemma scratch_buffers_cons k l m x : x ∈ scratch_buffers ((k, l) :: m) ↔ x ∈ l ∨ x ∈ scratch_buffers m.
Proof. unfold scratch_buffers. cbn. by rewrite elem_of_app. Qed.
Lemma scratch_push m k b x :
  x ∈ scratch_buffers (BTree.entry_or k [] (λ l, l ++ [b]) m) ↔ x = b ∨ x ∈ scratch_buffers m.
Proof.
  induction m as [|[k' l] m IH]; cbn [BTree.entry_or app]; [rewrite scratch_buffers_cons; mem|].
  destruct (k <? k'); [rewrite !scratch_buffers_cons; mem|]. destruct (k =? k'); rewrite !scratch_buffers_cons; [mem|].
  rewrite IH. tauto.
Qed.
Lemma pop_sub {A} (l : list A) x : x ∈ pop l → x ∈ l.
Proof. intros Hx. eapply elem_of_sublist; [exact Hx|]. apply sublist_take. Qed.
Lemma scratch_pop m k x : x ∈ scratch_buffers (pop_scratch k m) → x ∈ scratch_buffers m.
Proof.
  unfold pop_scratch. intros Hx. assert (x ∈ scratch_buffers (BTree.entry_or k [] pop m)) as Hin.
  { case_match; [|done]. revert Hx. generalize (BTree.entry_or k [] pop m). intros n. induction n as [|[k' l] n IH]; cbn [BTree.remove]; [done|].
    destruct (k =? k'); rewrite !scratch_buffers_cons; [auto|]. intros [|]; auto. }
  clear Hx. induction m as [|[k' l] m IH]; cbn [BTree.entry_or] in Hin; [done|]. rewrite scratch_buffers_cons.
  destruct (k <? k'); [rewrite !scratch_buffers_cons in Hin; destruct Hin as [Hin|Hin]; [by apply elem_of_nil in Hin|done]|].
  destruct (k =? k'); rewrite !scratch_buffers_cons in Hin; destruct Hin; auto using pop_sub.
Qed.
End Inv.
End StreamInvariant.
