(* ===== verification/StreamCalls.v ===== *)
(** * Streams: calls

    The invariant through the operations of a stream: staging and its reuse,
    transfers, dispatches, graphs and drops.  A call is described by a triple:
    from states with the invariant it ends with the invariant whether or not it
    fails, and when it succeeds the settled memory is the one of the call's
    sequential meaning. *)

From S2P Require Import Prelude Access BTreeMap Sdma Stream StreamMemory StreamInvariant.
Import Stream StreamMemory StreamInvariant.
Local Open Scope Z_scope.

Module StreamCalls.
Local Arguments scratch_buffers : simpl never.
Local Arguments cached_natives : simpl never.

Section Calls.
Context (watch : Watch).
Local Notation inv := (inv watch).

(** ** Scratch *)

Lemma scratch_moved_inv w m n limit hs :
  inv w →
  (∀ b, b ∈ scratch_buffers m ++ hs → b ∈ scratch_buffers (scratch (pools w)) ++ handles (client w)) →
  inv (set_handles hs (set_scratch m n limit w)).
Proof.
  intros Hi Hb. apply (leave_inv watch w _ []); try done.
  - intros x. unfold exposed, graph_natives. cbn. rewrite !elem_of_app.
    intros [Hx|[Hx|Hx]]; [..|by right; right]; apply list_elem_of_fmap in Hx as (b & -> & Hx);
      (destruct (proj1 (elem_of_app _ _ _) (Hb b ltac:(mem))) as [H|H]; apply (list_elem_of_fmap_2 native) in H; tauto).
  - intros b. unfold buffers. cbn. specialize (Hb b). mem.
  - apply (ly_idle _ (inv_layout _ _ Hi)).
Qed.

Lemma keep_scratch_inv i b w :
  inv w → handles (client w) !! i = Some b → inv (keep_scratch b (without_handle i w)).
Proof.
  intros Hi Hb. apply (scratch_moved_inv w _ _ _ (delete i (handles (client w))) Hi). intros x. rewrite elem_of_app, scratch_push.
  assert (b ∈ handles (client w)) by (by eapply list_elem_of_lookup_2).
  intros [[->|Hx]|Hx]; [mem..|]. assert (x ∈ handles (client w)) by (eapply elem_of_sublist; [exact Hx|apply sublist_delete]). mem.
Qed.

Lemma take_scratch_inv n w b w' :
  inv w → take_scratch n w = Some (b, w') → inv (set_handles (b :: handles (client w')) w').
Proof.
  unfold take_scratch. intros Hi ([size l] & Hf & H)%bind_Some. apply bind_Some in H as (x & Hx & [= <- <-]).
  apply BTree.first_in_Some in Hf as (Hin & _).
  assert (x ∈ scratch_buffers (scratch (pools w))) as Hxs.
  { apply list_elem_of_bind. exists (size, l). split; [|exact Hin]. by apply last_Some_elem_of. }
  apply (scratch_moved_inv w _ _ _ (x :: handles (client w)) Hi). intros y. rewrite elem_of_app, elem_of_cons.
  intros [Hy%scratch_pop|[->|Hy]]; mem.
Qed.

Lemma shrink_scratch_elem fuel m held limit m' held' evicted b :
  shrink_scratch fuel m held limit = (m', held', evicted) →
  b ∈ scratch_buffers m' ++ evicted → b ∈ scratch_buffers m.
Proof.
  revert m held m' held' evicted. induction fuel as [|fuel IH]; intros m held m' held' evicted; cbn [shrink_scratch].
  { intros [= <- <- <-]. mem. }
  destruct (list.last m) as [[k l]|] eqn:El; [|intros [= <- <- <-]; mem]. destruct (limit <? held); [|intros [= <- <- <-]; mem].
  destruct (shrink_scratch fuel _ _ _) as [[m1 h1] e1] eqn:E. intros [= <- <- <-] Hb. apply last_Some in El as [rest ->].
  unfold scratch_buffers at 1. rewrite bind_app. cbn. rewrite app_nil_r.
  assert (pop (rest ++ [(k, l)]) = rest) as Ep.
  { unfold pop. rewrite length_app. cbn. rewrite Nat.add_1_r. cbn. by rewrite take_app_length. }
  rewrite Ep in E. specialize (IH _ _ _ _ _ E). unfold scratch_buffers in *. mem.
Qed.
Lemma set_scratch_limit_inv n w : inv w → inv (set_scratch_limit n w).
Proof.
  intros Hi. unfold set_scratch_limit. destruct (shrink_scratch _ _ _ _) as [[m h] e] eqn:E.
  pose proof (λ b, shrink_scratch_elem _ _ _ _ _ _ _ b E) as Hs. apply drop_buffers_inv.
  - assert (set_scratch m h n w = set_handles (handles (client w)) (set_scratch m h n w)) as ->
      by (destruct w as [? ? ? ? []]; done).
    apply (scratch_moved_inv w m h n (handles (client w)) Hi). intros b. specialize (Hs b). mem.
  - apply Forall_forall. intros b Hb. apply (loose_buffer watch w b Hi). unfold buffers. specialize (Hs b). mem.
Qed.

(** ** Staging *)

Lemma smallest_Some ok l i n : smallest ok l = Some (i, n) → ∃ b, l !! i = Some b ∧ bytes b = n ∧ ok b = true.
Proof.
  revert i n. induction l as [|b l IH]; intros i n; cbn [smallest]; [done|].
  destruct (smallest ok l) as [[j k]|] eqn:E; cbn.
  - destruct (ok b) eqn:Eo; [destruct (k <? bytes b)|]; intros [= <- <-]; eauto.
  - destruct (ok b) eqn:Eo; [|done]. intros [= <- <-]. cbn. eauto.
Qed.

Lemma make_room_perm fuel pool cached n pool' cached' evicted :
  make_room fuel pool cached n = Some (pool', cached', evicted) → pool ≡ₚ pool' ++ evicted.
Proof.
  revert pool cached pool' cached' evicted. induction fuel as [|fuel IH]; intros pool cached pool' cached' evicted;
    cbn [make_room]; (case_match; [|intros [= <- <- <-]; by rewrite app_nil_r]); [done|].
  destruct (smallest _ pool) as [[i size]|] eqn:E; [|done]. intros ([[p c] e] & Hm & [= <- <- <-])%bind_Some.
  apply smallest_Some in E as (b & Hb & _ & _). rewrite Hb. cbn [option_list]. pose proof (swap_remove_perm _ _ _ Hb) as Hp.
  rewrite Hp, (IH _ _ _ _ _ Hm). solve_Permutation.
Qed.
Lemma reclaim_loop_perm l pool cached pool' evicted :
  reclaim_loop l pool cached = Some (pool', evicted) → l ++ pool ≡ₚ pool' ++ evicted.
Proof.
  revert pool cached pool' evicted. induction l as [|b l IH]; intros pool cached pool' evicted; cbn [reclaim_loop].
  { intros [= <- <-]. by rewrite app_nil_r. }
  case_match.
  - intros ([p e] & Hl & [= <- <-])%bind_Some. cbn. rewrite (IH _ _ _ _ Hl). solve_Permutation.
  - intros ([[p1 c1] e1] & Hm & Hrest)%bind_Some. apply bind_Some in Hrest as ([p e] & Hl & [= <- <-]).
    apply make_room_perm in Hm. apply IH in Hl. rewrite Hm. transitivity ((l ++ p1 ++ [b]) ++ e1); [solve_Permutation|].
    rewrite Hl. solve_Permutation.
Qed.

Lemma reclaim_inv w : inv w → inflight (dev w) = [] → inv (reclaim_staging w).
Proof.
  intros Hi He. unfold reclaim_staging. destruct (reclaim_loop _ _ _) as [[pool evicted]|] eqn:E; [|done].
  apply reclaim_loop_perm in E. apply drop_buffers_inv.
  - apply (leave_inv watch w _ (native <$> evicted)); try done.
    + unfold hidden, local_natives, pool_natives, rb_natives. cbn.
      transitivity ((native <$> locals (pools w)) ++ (native <$> (staging (pools w) ++ staging_pool (pools w)))
                    ++ (native <$> (rb_buffer <$> readbacks (client w))) ++ free (inner w)); [rewrite fmap_app; solve_Permutation|].
      rewrite E, fmap_app. solve_Permutation.
    + intros b. unfold buffers. cbn. intros Hb. assert (b ∈ pool → b ∈ staging (pools w) ++ staging_pool (pools w)) by (rewrite E; mem). mem.
    + intros n _. unfold busy. rewrite He. apply not_elem_of_nil.
  - apply Forall_forall. intros b Hb. apply (loose_buffer watch w b Hi). unfold buffers.
    assert (b ∈ staging (pools w) ++ staging_pool (pools w)) by (rewrite E; mem). mem.
Qed.
Lemma reclaim_frame w :
  config (reclaim_staging w) = config w ∧ dev (reclaim_staging w) = dev w ∧ client (reclaim_staging w) = client w ∧
  locals (pools (reclaim_staging w)) = locals (pools w) ∧ uses (pools (reclaim_staging w)) = uses (pools w).
Proof.
  unfold reclaim_staging. case_match; [|done]. case_match. destruct (drop_buffers_frame l0 (set_staging [] l w)) as (-> & -> & -> & ->).
  done.
Qed.

(** ** Specifications of calls *)

(** From [w] the call keeps the invariant when it fails and establishes [Q]
    when it succeeds. *)
Definition wp {A} (c : M A) (Q : A → World → Prop) (w : World) : Prop :=
  match c w with (w', Ok a) => Q a w' | (w', Err _) => inv w' end.

Lemma wp_bind {A B} (m : M A) (k : A → M B) Q w :
  wp m (λ a, wp (k a) Q) w → wp (bind m k) Q w.
Proof. unfold wp, bind. by destruct (m w) as [w' [a|e]]. Qed.
Lemma wp_mono {A} (c : M A) (P Q : A → World → Prop) w : wp c P w → (∀ a w', P a w' → Q a w') → wp c Q w.
Proof. unfold wp. destruct (c w) as [w' [a|e]]; auto. Qed.
Lemma wp_lift {A} (r : Result A) (Q : A → World → Prop) w : inv w → (∀ a, r = Ok a → Q a w) → wp (lift r) Q w.
Proof. intros Hi H. unfold wp, lift. destruct r; auto. Qed.
Lemma wp_gets {A} (f : World → A) (Q : A → World → Prop) w : Q (f w) w → wp (gets f) Q w.
Proof. done. Qed.
Lemma wp_modify f (Q : unit → World → Prop) w : Q tt (f w) → wp (modify f) Q w.
Proof. done. Qed.
Lemma wp_ret {A} (a : A) (Q : A → World → Prop) w : Q a w → wp (ret a) Q w.
Proof. done. Qed.
Lemma owns_wp b (Q : unit → World → Prop) w : inv w → Q tt w → wp (owns b) Q w.
Proof. intros Hi HQ. unfold wp, owns. by destruct (_ =? _)%nat. Qed.
Lemma wp_result {A} (c : M A) Q w : (∀ a w', Q a w' → inv w') → wp c Q w → inv (c w).1.
Proof. unfold wp. destruct (c w) as [w' [a|e]]; cbn; eauto. Qed.
Lemma wp_ok {A} (c : M A) Q w w' a : wp c Q w → c w = (w', Ok a) → Q a w'.
Proof. unfold wp. intros H E. by rewrite E in H. Qed.

(** What a call that only runs the device keeps. *)
Record ran (w w' : World) : Prop := {
  ran_config : config w' = config w;
  ran_inner : inner w' = inner w;
  ran_pools : pools w' = pools w;
  ran_client : client w' = client w;
  ran_natives : natives (dev w') = natives (dev w) }.
Global Instance ran_preorder : PreOrder ran.
Proof. split; [done|]. intros x y z [] []. constructor; congruence. Qed.
Lemma ran_charge w w' n : ran w w' → charge_of w' n = charge_of w n.
Proof. intros [_ _ _ _ E]. unfold charge_of. by rewrite E. Qed.
Lemma ran_usable w w' : ran w w' → exposed w' ++ local_natives w' = exposed w ++ local_natives w.
Proof. intros [_ _ Ep Ec _]. unfold exposed, local_natives. by rewrite Ep, Ec. Qed.

Lemma wait_for_wp r k w :
  inv w → wp (wait_for r k) (λ _ w', inv w' ∧ ran w w' ∧ settled w' = settled w ∧ w' = run_until k w) w.
Proof.
  intros Hi. apply wp_bind, wp_lift; [done|]. intros a _. unfold wp, modify.
  split_and!; [by apply run_until_inv|done|by eapply run_until_settled|done].
Qed.
Lemma inner_wait_wp r w :
  inv w → wp (inner_wait r) (λ _ w', inv w' ∧ ran w w' ∧ settled w' = settled w ∧ inflight (dev w') = []) w.
Proof.
  intros Hi. pose proof (wait_drains w (inv_time _ _ Hi)) as Hd. unfold wp, inner_wait. destruct (latest (dev w)) as [k|]; [|done].
  pose proof (wait_for_wp r k w Hi) as H. unfold wp in H. destruct (wait_for r k w) as [w' [a|e]]; [|done].
  destruct H as (H1 & H2 & H3 & ->). done.
Qed.
Lemma fence_wp env c w :
  inv w → wp (fence env c) (λ _ w', inv w' ∧ ran w w' ∧ settled w' = settled w ∧
                                    ∀ e, e ∈ inflight (dev w') → e_engine e = c_engine c) w.
Proof.
  intros Hi. pose proof (tl_latest _ (inv_time _ _ Hi)) as Hl. pose proof (wait_drains w (inv_time _ _ Hi)) as Hd.
  unfold wp, fence. destruct (latest (dev w)) as [k|]; [|rewrite Hd; by split_and!; [..|intros e He%elem_of_nil]].
  destruct (Nat.eqb_spec (k_engine k) (c_engine c)) as [E|E].
  - split_and!; [done..|]. intros e He. destruct Hl as (_ & Hc & _). destruct (Hc e He). congruence.
  - pose proof (wait_for_wp (outcome env CFence) k w Hi) as H. unfold wp in H. destruct (wait_for _ k w) as [w' [a|e]]; [|done].
    destruct H as (H1 & H2 & H3 & ->). split_and!; [done..|]. intros e He. rewrite Hd in He. by apply elem_of_nil in He.
Qed.

(** A command may be published: its works stay within its backing, which the
    application or the call owns, and whose reservations are held. *)
Definition stays (w : World) (r : nat) : Prop :=
  r ∈ uses (pools w) ∨ r ∈ leaked (client w) ∨ ∃ g, g ∈ graphs (client w) ∧ r ∈ g_uses g ∧ g_failed g = true.
Record submittable (w : World) (c : Command) : Prop := {
  sb_works : cmd_ok c;
  sb_uses : ∀ n, n ∈ c_natives c → n ∈ exposed w ++ local_natives w;
  sb_charges : ∀ n r, n ∈ c_natives c → n ∉ watch.2 → charge_of w n = Some r → stays w r }.
Lemma ran_submittable w w' c : ran w w' → submittable w c → submittable w' c.
Proof.
  intros Hr [S1 S2 S3]. constructor; [done| |].
  - intros n. rewrite (ran_usable _ _ Hr). apply S2.
  - intros n r Hn Hlost. rewrite (ran_charge _ _ _ Hr). intros Hch. specialize (S3 n r Hn Hlost Hch). unfold stays in *.
    by rewrite (ran_pools _ _ Hr), (ran_client _ _ Hr).
Qed.

Lemma publish_step w c works :
  inv w → submittable w c → (∀ n, n ∈ works ≫= touches → n ∈ c_natives c) →
  (∀ e, e ∈ inflight (dev w) → e_engine e = c_engine c) →
  inv (publish c works w) ∧ ran w (publish c works w) ∧
  settled (publish c works w) = foldl (apply (effect (config w))) (settled w) works ∧
  ∀ e, e ∈ inflight (dev (publish c works w)) → e_engine e = c_engine c.
Proof.
  intros Hi [S1 S2 S3] Hw He. split_and!; [|done|by apply (publish_settled w c works)|].
  - apply publish_entry_inv; try done. intros n r Hn Hlost Hch. destruct (S3 n r Hn Hlost Hch) as [?|[?|(g & Hg & Hr & Hf)]];
      [by left|by right; left|right; right; eauto].
  - intros e. cbn. rewrite elem_of_app, list_elem_of_singleton. intros [Hin| ->]; [by apply He|done].
Qed.

Lemma submit_parts_wp env c parts i w :
  inv w → submittable w c → (∀ n, n ∈ concat parts ≫= touches → n ∈ c_natives c) →
  (∀ e, e ∈ inflight (dev w) → e_engine e = c_engine c) →
  wp (submit_parts env c i parts)
    (λ _ w', inv w' ∧ ran w w' ∧ settled w' = foldl (apply (effect (config w))) (settled w) (concat parts)) w.
Proof.
  revert i w. induction parts as [|p parts IH]; intros i w Hi Hs Hw He; [done|]. cbn [submit_parts].
  apply wp_bind, wp_lift; [done|]. intros _ _. cbn [concat] in Hw. rewrite bind_app in Hw.
  destruct (publish_step w c p Hi Hs) as (H1 & H2 & H3 & H4); [intros n Hn; apply Hw; mem|done|].
  apply wp_bind. unfold wp at 1, modify. eapply wp_mono; [apply IH|]; [done|by eapply ran_submittable|intros n Hn; apply Hw; mem|done|].
  intros _ w' (I1 & I2 & I3). split_and!; [done|by etrans|]. cbn [concat]. rewrite foldl_app, <-H3. exact I3.
Qed.

Lemma submit_wp env c w :
  inv w → submittable w c →
  wp (submit env c)
    (λ _ w', inv w' ∧ ran w w' ∧ settled w' = foldl (apply (effect (config w))) (settled w) (concat (c_parts c))) w.
Proof.
  intros Hi Hs. apply wp_bind. eapply wp_mono; [by apply fence_wp|]. cbn beta. intros _ w1 (H1 & R1 & E1 & He).
  pose proof (ran_submittable _ _ _ R1 Hs) as Hs1.
  assert (∀ w2, inv w2 → ran w1 w2 → settled w2 = settled w1 → (∀ e, e ∈ inflight (dev w2) → e_engine e = c_engine c) →
    wp (modify (publish c (concat (c_parts c))))
      (λ _ w', inv w' ∧ ran w w' ∧ settled w' = foldl (apply (effect (config w))) (settled w) (concat (c_parts c))) w2) as Hp.
  { intros w2 H2 R2 E2 He2. destruct (publish_step w2 c (concat (c_parts c)) H2) as (I1 & I2 & I3 & _);
      [by eapply ran_submittable|apply Hs|done|].
    unfold wp, modify. split_and!; [done|by etrans; [exact R1|]; etrans|]. rewrite I3, E2, E1. by rewrite (ran_config _ _ R2), (ran_config _ _ R1). }
  case_match.
  - destruct (outcome env CDispatch) as [u|e]; [by apply Hp|]. destruct e; try done.
    apply wp_bind. eapply wp_mono; [by apply inner_wait_wp|]. cbn beta. intros _ w2 (H2 & R2 & E2 & Hd).
    apply wp_bind, wp_lift; [done|]. intros _ _. apply Hp; try done. intros e Hin. rewrite Hd in Hin. by apply elem_of_nil in Hin.
  - eapply wp_mono; [apply submit_parts_wp; [done|done|apply Hs|done]|]. cbn beta. intros _ w' (I1 & I2 & I3).
    split_and!; [done|by etrans|]. by rewrite I3, E1, (ran_config _ _ R1).
Qed.

(** ** Transfers *)

(** A view the call may use: of a buffer of the application or of the call. *)
Definition usable (w : World) (v : View) : Prop := v_owner v ∈ handles (client w) ++ locals (pools w).
Lemma usable_buffer w v : usable w v → v_owner v ∈ buffers w.
Proof. unfold usable, buffers. mem. Qed.
Lemma usable_native w v : usable w v → native (v_owner v) ∈ exposed w ++ local_natives w.
Proof.
  unfold usable, exposed, local_natives. rewrite !elem_of_app. intros [H|H]; apply (list_elem_of_fmap_2 native) in H; tauto.
Qed.
Lemma usable_charge w v r : inv w → usable w v → charge_of w (native (v_owner v)) = Some r → reservation (v_owner v) = Some r.
Proof. intros Hi Hu%usable_buffer <-. by apply (ly_charge _ (inv_layout _ _ Hi)). Qed.

(** What preparing a command keeps. *)
Record prepared (w w' : World) : Prop := {
  pr_config : config w' = config w;
  pr_dev : dev w' = dev w;
  pr_pools : pools w' = pools w;
  pr_client : client w' = client w }.
Global Instance prepared_preorder : PreOrder prepared.
Proof. split; [done|]. intros x y z [] []. constructor; congruence. Qed.
Lemma prepared_settled w w' : prepared w w' → settled w' = settled w.
Proof. intros [E1 E2 _ _]. unfold settled. by rewrite E1, E2. Qed.

Lemma transfer_range_nonzero len o n : Sdma.transfer_range len o n = Ok tt → n ≠ 0.
Proof. unfold Sdma.transfer_range. intros H ->. cbn in H. discriminate. Qed.

Definition fill_command_of (c : Config) (dst : View) (value : Z) (x : Command) : Prop :=
  c_engine x = engine_of (sdma c) ∧ c_natives x = [native (v_owner dst)] ∧
  c_parts x = works_of (λ o n, Fill (native (v_owner dst)) (v_offset dst + o) n value) (spans (sdma c) (v_length dst)).
Definition copy_command_of (c : Config) (dst src : View) (x : Command) : Prop :=
  c_engine x = engine_of (sdma c) ∧ c_natives x = [native (v_owner dst); native (v_owner src)] ∧
  ranges_meet (native (v_owner dst)) (v_offset dst) (native (v_owner src)) (v_offset src) (v_length dst) = false ∧
  c_parts x = works_of (λ o n, Copy (native (v_owner dst)) (v_offset dst + o) (native (v_owner src)) (v_offset src + o) n)
                (spans (sdma c) (v_length dst)).

Lemma push_transfer_inv e w :
  inv w → transfer_ok (config w) e → (∀ n, n ∈ c_natives (t_command e) → n ∈ exposed w ++ local_natives w) →
  inv (push_transfer e w).
Proof.
  intros Hi He Hn. pose proof (inv_commands _ _ Hi) as Hc. unfold push_transfer. set (l := if (_ =? _)%nat then _ else _).
  assert (l `sublist_of` transfer_cache (inner w)) as Hl by (unfold l; case_match; [apply sublist_drop|done]).
  apply cache_inv; [done| |apply Hc|].
  - apply Forall_app. split; [|by apply Forall_singleton]. apply Forall_forall. intros x Hx.
    pose proof (cm_transfers _ Hc) as Ht. rewrite Forall_forall in Ht. apply Ht. by eapply elem_of_sublist.
  - intros n. unfold cached_natives. cbn. rewrite bind_app. rewrite !elem_of_app. cbn. rewrite app_nil_r.
    intros [H|[H|H]]; [by left; left| |by right; apply elem_of_app, Hn]. left. right. apply list_elem_of_bind in H as (x & Hx & Hin).
    apply list_elem_of_bind. exists x. split; [done|]. by eapply elem_of_sublist.
Qed.

Lemma found_transfer p w c :
  inv w → (λ x : nat * CachedTransfer, t_command x.2) <$> list_find (λ e, p e = true) (transfer_cache (inner w)) = Some c →
  ∃ e, t_command e = c ∧ p e = true ∧ transfer_ok (config w) e.
Proof.
  intros Hi ([i e] & Hf & ->)%fmap_Some. apply list_find_Some in Hf as (Hl & Hp & _). exists e. split_and!; [done..|].
  pose proof (cm_transfers _ (inv_commands _ _ Hi)) as H. rewrite Forall_forall in H. apply H. by eapply list_elem_of_lookup_2.
Qed.

Lemma prepare_fill_wp env dst value w :
  inv w → usable w dst → 0 <= v_length dst →
  wp (prepare_fill env dst value)
    (λ c w', inv w' ∧ prepared w w' ∧ 0 < v_length dst ∧ fill_command_of (config w) dst value c) w.
Proof.
  intros Hi Hu Hlen. unfold prepare_fill. apply wp_bind, owns_wp; [done|].
  apply wp_bind, wp_gets. destruct (_ <$> _) as [c|] eqn:E.
  - destruct (found_transfer _ w c Hi E) as (e & <- & Hs & H1 & H2 & H3). unfold wp, ret. unfold same_fill in Hs. to_prop.
    repeat match goal with H : bool_decide _ = true |- _ => apply bool_decide_eq_true in H end.
    match goal with H : t_source e = None |- _ => rewrite H in H3 end. destruct H3 as [K1 K2].
    split_and!; [done..|lia|]. unfold fill_command_of. destruct e; cbn in *; subst. by split_and!.
  - apply wp_bind, wp_gets, wp_bind. unfold wp at 1, native_fill.
    destruct (Sdma.transfer_range _ _ _) as [[]|] eqn:Er; [|done]. destruct (outcome env CPrepare); [|done]. cbn [result_bind].
    apply transfer_range_nonzero in Er. set (c := mkCommand _ _ _ _). apply wp_bind.
    destruct (_ =? _)%nat; [|apply wp_ret, wp_ret; split_and!; [done..|lia|done]]. apply wp_modify, wp_ret. split_and!; [|done|lia|done].
    apply push_transfer_inv; [done| |].
    + split_and!; [cbn; lia|done..].
    + intros n. cbn. intros ->%list_elem_of_singleton. by apply usable_native.
Qed.

Lemma prepare_copy_wp env dst src w :
  inv w → usable w dst → usable w src → 0 <= v_length dst →
  wp (prepare_copy env dst src)
    (λ c w', inv w' ∧ prepared w w' ∧ 0 < v_length dst ∧ v_length src = v_length dst ∧
             copy_command_of (config w) dst src c) w.
Proof.
  intros Hi Hu Hv Hlen. unfold prepare_copy. apply wp_bind, owns_wp; [done|].
  apply wp_bind, owns_wp; [done|]. destruct (v_length dst =? v_length src) eqn:El; [|done]. cbn [negb]. to_prop.
  apply wp_bind, wp_gets. destruct (_ <$> _) as [c|] eqn:E.
  - destruct (found_transfer _ w c Hi E) as (e & <- & Hs & H1 & H2 & H3). unfold wp, ret. unfold same_copy in Hs. to_prop.
    repeat match goal with H : bool_decide _ = true |- _ => apply bool_decide_eq_true in H end.
    match goal with H : t_source e = Some _ |- _ => rewrite H in H3 end. destruct H3 as (K1 & K2 & K3).
    split_and!; [done..|lia|lia|]. unfold copy_command_of. destruct e; cbn in *; subst. by split_and!.
  - apply wp_bind, wp_gets, wp_bind. unfold wp at 1, native_copy.
    destruct (Sdma.transfer_range _ (v_offset dst) _) as [[]|] eqn:Er; [|done]. cbn [result_bind].
    destruct (Sdma.transfer_range _ (v_offset src) _) as [[]|]; [|done]. cbn [result_bind].
    destruct (ranges_meet _ _ _ _ _) eqn:Em; [done|]. destruct (outcome env CPrepare); [|done]. cbn [result_bind].
    apply transfer_range_nonzero in Er. set (c := mkCommand _ _ _ _). apply wp_bind.
    destruct (_ && _); [|apply wp_ret, wp_ret; split_and!; [done..|lia|lia|done]]. apply wp_modify, wp_ret. split_and!; [|done|lia|lia|done].
    apply push_transfer_inv; [done| |].
    + split_and!; [cbn; lia|done..].
    + intros n. cbn. rewrite elem_of_cons, list_elem_of_singleton. intros [-> | ->]; by apply usable_native.
Qed.

(** What issuing work keeps: everything but the uses, the caches and the
    timeline. *)
Definition without_uses (p : Pools) : Pools :=
  mkPools (locals p) (staging p) (staging_pool p) (scratch p) (scratch_bytes p) (scratch_limit p) [].
Record issued (w w' : World) : Prop := {
  is_config : config w' = config w;
  is_client : client w' = client w;
  is_pools : without_uses (pools w') = without_uses (pools w);
  is_natives : natives (dev w') = natives (dev w) }.
Global Instance issued_preorder : PreOrder issued.
Proof. split; [done|]. intros x y z [] []. constructor; congruence. Qed.
Lemma ran_issued w w' : ran w w' → issued w w'.
Proof. intros [E1 E2 E3 E4 E5]. constructor; [done..| |done]. by rewrite E3. Qed.
Lemma prepared_issued w w' : prepared w w' → issued w w'.
Proof. intros [E1 E2 E3 E4]. constructor; [done..| |]; [by rewrite E3|by rewrite E2]. Qed.
Lemma uses_issued l w : issued w (set_uses l w).
Proof. done. Qed.
Lemma issued_locals w w' : issued w w' → locals (pools w') = locals (pools w).
Proof. intros [_ _ E _]. by injection E. Qed.
Lemma issued_usable w w' v : issued w w' → usable w v → usable w' v.
Proof. intros Hi. unfold usable. by rewrite (is_client _ _ Hi), (issued_locals _ _ Hi). Qed.

Lemma works_touch g l n t : (∀ o k, touches (g o k) = t) → n ∈ concat (works_of g l) ≫= touches → n ∈ t.
Proof.
  intros Hg (x & Hn & Hx)%list_elem_of_bind. apply list_elem_of_In, in_concat in Hx as (part & Hp & Hx).
  apply list_elem_of_In in Hp, Hx. unfold works_of in Hp. apply list_elem_of_fmap in Hp as (q & -> & _).
  apply list_elem_of_fmap in Hx as (c & -> & _). by rewrite Hg in Hn.
Qed.

(** A command over the backing of retained views may be submitted. *)
Lemma views_submittable w (views : list View) c :
  inv w → Forall (usable w) views → cmd_ok c →
  (∀ n, n ∈ c_natives c → ∃ v, v ∈ views ∧ n = native (v_owner v)) →
  (∀ v r, v ∈ views → reservation (v_owner v) = Some r → r ∈ uses (pools w)) → submittable w c.
Proof.
  intros Hi Hv Hc Hn Hr. rewrite Forall_forall in Hv. constructor; [done| |].
  - intros n (v & Hin & ->)%Hn. by apply usable_native, Hv.
  - intros n r (v & Hin & ->)%Hn _ Hch. left. apply (Hr v r Hin). by apply (usable_charge w v r Hi (Hv v Hin)).
Qed.

Lemma retain_wp views w (Q : unit → World → Prop) :
  inv w →
  (∀ w', inv w' → issued w w' → settled w' = settled w → client w' = client w → dev w' = dev w →
     (∀ v r, v ∈ views → reservation (v_owner v) = Some r → r ∈ uses (pools w')) → Q tt w') →
  wp (retain views) Q w.
Proof.
  intros Hi HQ. apply wp_modify. apply HQ; try done.
  - by apply (retain_inv watch views w).
  - intros v r Hv Hr. cbn. apply retain_uses_elem. right. eauto.
Qed.

Lemma submit_views_wp env views c w (Q : unit → World → Prop) :
  inv w → Forall (usable w) views → cmd_ok c →
  (∀ n, n ∈ c_natives c → ∃ v, v ∈ views ∧ n = native (v_owner v)) →
  (∀ v r, v ∈ views → reservation (v_owner v) = Some r → r ∈ uses (pools w)) →
  (∀ w', inv w' → ran w w' →
     settled w' = foldl (apply (effect (config w))) (settled w) (concat (c_parts c)) → Q tt w') →
  wp (submit env c) Q w.
Proof.
  intros Hi Hv Hc Hn Hr HQ. eapply wp_mono; [apply submit_wp; [done|]|].
  - by apply (views_submittable w views).
  - intros [] w' (H1 & H2 & H3). by apply HQ.
Qed.

Lemma fill_wp env dst value w :
  inv w → usable w dst → 0 <= v_length dst →
  wp (fill env dst value)
    (λ _ w', inv w' ∧ issued w w' ∧ 0 < v_length dst ∧
             meq (settled w') (apply (effect (config w)) (settled w)
                                 (Fill (native (v_owner dst)) (v_offset dst) (v_length dst) value))) w.
Proof.
  intros Hi Hu Hl. apply wp_bind, retain_wp; [done|]. intros w1 H1 I1 E1 _ _ Hr. apply wp_bind.
  eapply wp_mono; [apply prepare_fill_wp; [done|by eapply issued_usable|done]|]. cbn beta. intros c w2 (H2 & P2 & Hlen & He & Hn & Hp).
  assert (issued w w2) as I2 by (etrans; [exact I1|by apply prepared_issued]).
  apply (submit_views_wp env [dst]); [done| | | | |].
  - apply Forall_singleton. by eapply issued_usable.
  - intros n. rewrite Hp, Hn. by apply works_touch.
  - intros n. rewrite Hn. intros ->%list_elem_of_singleton. exists dst. split; [by left|done].
  - intros v r Hv Hrv. rewrite (pr_pools _ _ P2). by apply (Hr v).
  - intros w3 H3 R3 E3. split_and!; [done|etrans; [exact I2|by apply ran_issued]|done|].
    rewrite E3, Hp, (prepared_settled _ _ P2), E1, (is_config _ _ I2), (is_config _ _ I1).
    apply fill_command; [apply (cm_sdma _ (inv_commands _ _ Hi))|done].
Qed.

Lemma copy_wp env dst src w :
  inv w → usable w dst → usable w src → 0 <= v_length dst →
  wp (copy env dst src)
    (λ _ w', inv w' ∧ issued w w' ∧ 0 < v_length dst ∧ v_length src = v_length dst ∧
             meq (settled w') (apply (effect (config w)) (settled w)
               (Copy (native (v_owner dst)) (v_offset dst) (native (v_owner src)) (v_offset src) (v_length dst)))) w.
Proof.
  intros Hi Hu Hv Hl. apply wp_bind, retain_wp; [done|]. intros w1 H1 I1 E1 _ _ Hr. apply wp_bind.
  eapply wp_mono; [apply prepare_copy_wp; [done|by eapply issued_usable..|done]|]. cbn beta.
  intros c w2 (H2 & P2 & Hlen & Heq & He & Hn & Hm & Hp).
  assert (issued w w2) as I2 by (etrans; [exact I1|by apply prepared_issued]).
  apply (submit_views_wp env [dst; src]); [done| | | | |].
  - repeat constructor; by eapply issued_usable.
  - intros n. rewrite Hp, Hn. by apply works_touch.
  - intros n. rewrite Hn. rewrite elem_of_cons, list_elem_of_singleton. intros [-> | ->]; [exists dst|exists src]; (split; [|done]); [by left|right; by left].
  - intros v r Hin Hrv. rewrite (pr_pools _ _ P2). by apply (Hr v).
  - intros w3 H3 R3 E3. split_and!; [done|etrans; [exact I2|by apply ran_issued]|done|done|].
    rewrite E3, Hp, (prepared_settled _ _ P2), E1, (is_config _ _ I2), (is_config _ _ I1).
    apply copy_command; [apply (cm_sdma _ (inv_commands _ _ Hi))|done|done].
Qed.

(** ** Host access and allocation *)

Lemma host_write_wp env n o l w (Q : unit → World → Prop) :
  inv w → n ∉ busy w → n ∉ rb_natives w →
  (∀ w', w' = set_memory (write_bytes (memory (dev w)) n o l) w → inv w' →
     meq (settled w') (write_bytes (settled w) n o l) → Q tt w') →
  wp (host_write env n o l) Q w.
Proof.
  intros Hi Hb Hrb HQ. apply wp_bind, wp_lift; [done|]. intros _ _. apply wp_modify, HQ; [done| |].
  - apply (host_inv watch w n (put o l)); [done|done|apply _|apply write_bytes_update|done].
  - etrans; [apply (host_settled watch w n (put o l)); [done|done|apply _|apply write_bytes_update]|].
    symmetry. apply write_bytes_update.
Qed.

Lemma local_apart w b : inv w → b ∈ locals (pools w) → native b ∉ rb_natives w ++ pool_natives w ++ free (inner w).
Proof.
  intros Hi Hb. assert (native b ∈ local_natives w) as Hl by (by apply list_elem_of_fmap_2).
  pose proof (hidden_local_apart watch w Hi (native b) Hl). mem.
Qed.

(** What allocating keeps. *)
Record grown (w w' : World) : Prop := {
  gr_config : config w' = config w;
  gr_client : client w' = client w;
  gr_inflight : inflight (dev w') = inflight (dev w);
  gr_natives : natives (dev w) `prefix_of` natives (dev w');
  gr_uses : uses (pools w') = uses (pools w) }.
Lemma prefix_known w w' n :
  natives (dev w) `prefix_of` natives (dev w') → (n < length (natives (dev w)))%nat → (n < length (natives (dev w')))%nat.
Proof. intros [k ->]. rewrite length_app. lia. Qed.

Lemma reserve_wp env n w (Q : option nat → World → Prop) :
  inv w →
  (∀ r w', inv w' → natives (dev w') = natives (dev w) → inflight (dev w') = inflight (dev w) → settled w' = settled w →
     config w' = config w → inner w' = inner w → pools w' = pools w → client w' = client w →
     (budgeted (config w) = false → r = None) → Q r w') →
  wp (reserve env n) Q w.
Proof.
  intros Hi HQ. unfold wp, reserve. destruct (budgeted (config w)) eqn:Eb; [|by apply HQ].
  destruct (outcome env CReserve); [|done]. apply HQ; try done. by apply add_charge_inv.
Qed.

Lemma new_native_wp env n hid charge w (Q : nat → World → Prop) :
  inv w →
  (∀ w', w' = add_native (mkNative n hid charge) w → inv w' → fresh w' (length (natives (dev w))) →
     unwatched watch (length (natives (dev w))) → charge_of w' (length (natives (dev w))) = charge →
     Q (length (natives (dev w))) w') →
  wp (new_native env n hid charge) Q w.
Proof.
  intros Hi HQ. apply wp_bind, wp_lift; [done|]. intros _ _. apply wp_bind, wp_gets, wp_bind, wp_modify, wp_ret.
  apply HQ; [done|by apply add_native_inv|by eapply add_native_fresh|by eapply add_native_unwatched|].
  unfold charge_of. cbn. by rewrite lookup_app_r, Nat.sub_diag by lia.
Qed.

Lemma new_buffer_wp backing n charge pl w (Q : Buffer → World → Prop) :
  inv w → fresh w backing → charge_of w backing = charge →
  (∀ b, let w' := push_local b w in
     b = mkBuffer backing n (stream_id (config w)) (device_id (config w)) charge pl → inv w' → Q b w') →
  wp (new_buffer backing n charge pl) Q w.
Proof.
  intros Hi Hf Hc HQ. apply wp_bind, wp_gets, wp_bind, wp_modify, wp_ret. apply HQ; [done|]. by apply push_local_inv.
Qed.

Record staged (w : World) (n : Z) (b : Buffer) (w' : World) : Prop := {
  st_inv : inv w';
  st_grown : grown w w';
  st_inner : inner w' = inner w;
  st_locals : locals (pools w') = b :: locals (pools w);
  st_settled : settled w' = settled w;
  st_bytes : bytes b = n;
  st_owner : owner b = stream_id (config w) ∧ device b = device_id (config w);
  st_idle : native b ∉ busy w' }.
Lemma allocate_staging_wp env n w :
  inv w →
  wp (allocate_staging env n)
    (λ b w', staged w n b w' ∧ native b = length (natives (dev w)) ∧ unwatched watch (native b) ∧
             without_uses (pools w') = without_uses (set_locals (b :: locals (pools w)) w).(pools)) w.
Proof.
  intros Hi. apply wp_bind, reserve_wp; [done|]. intros r w1 H1 N1 F1 S1 C1 I1 P1 L1 _.
  apply wp_bind, new_native_wp; [done|]. intros w2 -> H2 Hf Hu Hc.
  apply new_buffer_wp; [done..|]. intros b w3 Eb H3.
  assert (native b = length (natives (dev w))) as En by (rewrite Eb; cbn; by rewrite N1).
  split_and!; [|done|rewrite En, <-N1; done|].
  - constructor; [done| | | | | | |].
    + constructor; cbn; [done|done|done| |by rewrite P1]. rewrite <-N1. by eexists.
    + done.
    + cbn. by rewrite P1.
    + rewrite <-S1. done.
    + by rewrite Eb.
    + rewrite Eb. cbn. by rewrite C1.
    + intros Hb. destruct Hf as [_ Hf]. rewrite !not_elem_of_app in Hf. apply (proj2 (proj2 Hf)). rewrite N1, <-En. apply reference_busy. exact Hb.
  - unfold without_uses. cbn. by rewrite P1.
Qed.

(** ** Synchronization *)

Record synced (w w' : World) : Prop := {
  sy_inv : inv w';
  sy_config : config w' = config w;
  sy_client : client w' = client w;
  sy_natives : natives (dev w') = natives (dev w);
  sy_locals : locals (pools w') = locals (pools w);
  sy_settled : settled w' = settled w;
  sy_idle : inflight (dev w') = [] }.

Lemma reclaimed w : inv w → inflight (dev w) = [] → synced w (set_uses [] (reclaim_staging w)).
Proof.
  intros Hi He. destruct (reclaim_frame w) as (E1 & E2 & E3 & E4 & E5). pose proof (reclaim_inv w Hi He) as Hr. constructor; try done.
  - apply set_uses_inv; [done|]. right. by rewrite E2.
  - cbn. by rewrite E2.
  - unfold settled. cbn. by rewrite E1, E2.
  - cbn. by rewrite E2.
Qed.
Lemma synchronize_wp env w : inv w → wp (synchronize env) (λ _ w', synced w w') w.
Proof.
  intros Hi. apply wp_bind. eapply wp_mono; [by apply inner_wait_wp|]. cbn beta. intros _ w1 (H1 & R1 & S1 & D1).
  apply wp_bind, wp_modify, wp_modify. destruct (reclaimed w1 H1 D1) as [K1 K2 K3 K4 K5 K6 K7]. destruct R1 as [R1 R2 R3 R4 R5].
  constructor; congruence.
Qed.

(** ** Staged transfers *)

Lemma native_copy_wp env limit dst src w :
  inv w → 0 <= v_length dst → (∀ l, limit = Some l → 0 < l) →
  wp (native_copy env limit dst src)
    (λ c w', w' = w ∧ 0 < v_length dst ∧ c_natives c = [native (v_owner dst); native (v_owner src)] ∧ cmd_ok c ∧
       ∀ f m, meq (foldl (apply f) m (concat (c_parts c)))
                (apply f m (Copy (native (v_owner dst)) (v_offset dst) (native (v_owner src)) (v_offset src) (v_length dst)))) w.
Proof.
  intros Hi Hl Hlim. unfold wp, native_copy.
  destruct (Sdma.transfer_range _ (v_offset dst) _) as [[]|] eqn:Er; [|done]. cbn [result_bind].
  destruct (Sdma.transfer_range _ (v_offset src) _) as [[]|]; [|done]. cbn [result_bind].
  destruct (ranges_meet _ _ _ _ _) eqn:Em; [done|]. destruct (outcome env CPrepare); [|done]. cbn [result_bind].
  apply transfer_range_nonzero in Er. split_and!; [done|lia|done| |].
  - intros n. cbn [c_parts c_natives]. by apply works_touch.
  - intros f m. cbn [c_parts]. apply copy_command; [done|lia|done].
Qed.

Lemma copy_staging_wp env dst src w :
  inv w → usable w dst → usable w src → 0 <= v_length dst →
  wp (copy_staging env dst src)
    (λ _ w', inv w' ∧ issued w w' ∧ inflight (dev w') = [] ∧
       meq (settled w') (apply (effect (config w)) (settled w)
         (Copy (native (v_owner dst)) (v_offset dst) (native (v_owner src)) (v_offset src) (v_length dst)))) w.
Proof.
  intros Hi Hu Hv Hl. apply wp_bind. eapply wp_mono; [by apply (native_copy_wp env None)|]. cbn beta.
  intros c ? (-> & Hlen & Hn & Hok & Hm). apply wp_bind, retain_wp; [done|]. intros w1 H1 I1 E1 _ _ Hr. apply wp_bind.
  apply (submit_views_wp env [dst; src]); [done| |done| |done|].
  - repeat constructor; by eapply issued_usable.
  - intros n. rewrite Hn. rewrite elem_of_cons, list_elem_of_singleton. intros [-> | ->]; [exists dst|exists src]; (split; [|done]); [by left|right; by left].
  - intros w2 H2 R2 E2. apply wp_bind. eapply wp_mono; [by apply inner_wait_wp|]. cbn beta. intros _ w3 (H3 & R3 & E3 & D3).
    apply wp_modify. split_and!; [by apply set_uses_inv; [|right]| |done|].
    + etrans; [exact I1|]. etrans; [by apply ran_issued|]. etrans; [by apply ran_issued|]. apply uses_issued.
    + change (settled (set_uses [] w3)) with (settled w3). rewrite E3, E2, E1, (is_config _ _ I1). apply Hm.
Qed.

(** Memory below the backing allocated so far. *)
Definition below (w : World) (m m' : Memory) : Prop :=
  ∀ n a, (n < length (natives (dev w)))%nat → m n a = m' n a.

Lemma copied m d p b l :
  d ≠ b → ∀ f n a, n ≠ b →
  apply f (write_bytes m b 0 l) (Copy d p b 0 (Z.of_nat (length l))) n a = write_bytes m d p l n a.
Proof.
  intros Hne f n a Hn. cbn [apply]. unfold write_bytes at 3. destruct ((n =? d)%nat && _) eqn:E.
  - to_prop. unfold write_bytes. rewrite Nat.eqb_refl. unfold in_range in *. cbn [andb].
    replace ((0 <=? a - p + 0) && (a - p + 0 <? 0 + Z.of_nat (length l))) with true by lia. f_equal. f_equal. lia.
  - by apply write_bytes_other.
Qed.

Record delivered (w : World) (d : nat) (p : Z) (l : list Z) (w' : World) : Prop := {
  dl_inv : inv w';
  dl_config : config w' = config w;
  dl_client : client w' = client w;
  dl_natives : natives (dev w) `prefix_of` natives (dev w');
  dl_locals : ∀ b, b ∈ locals (pools w) → b ∈ locals (pools w');
  dl_settled : below w (settled w') (write_bytes (settled w) d p l) }.

Lemma write_nothing m d p : meq (write_bytes m d p []) m.
Proof.
  intros n a. unfold write_bytes. replace (in_range p (Z.of_nat (length (@nil Z))) a) with false by (unfold in_range; change (Z.of_nat (length (@nil Z))) with 0; lia).
  by rewrite andb_false_r.
Qed.

Lemma stream_slice_Ok v o n v' :
  slice v o n = Ok v' → v' = mkView (v_owner v) (v_offset v + o) n ∧ o + n <= v_length v.
Proof.
  unfold slice. intros H. destruct (checked_span _ _ _) as [[]|] eqn:E; [|done]. injection H as <-. apply checked_span_Ok in E as [_ ?]. done.
Qed.

Lemma stage_wp env dst l w :
  inv w → usable w dst → wp (stage env dst l) (λ _ w', delivered w (native (v_owner dst)) (v_offset dst) l w') w.
Proof.
  intros Hi Hu. apply wp_bind, wp_lift; [done|]. intros v (-> & _)%stream_slice_Ok. rewrite Z.add_0_r.
  destruct l as [|x l]; [apply wp_ret; constructor; try done; intros n a _; symmetry; apply write_nothing|].
  set (k := x :: l) in *. clearbody k. apply wp_bind. eapply wp_mono; [by apply allocate_staging_wp|]. cbn beta.
  intros b w1 ([H1 G1 N1 L1 S1 B1 O1 D1] & Hb & _ & _). assert (b ∈ locals (pools w1)) as Hbl by (rewrite L1; by left).
  apply wp_bind, host_write_wp; [done|done|pose proof (local_apart w1 b H1 Hbl); mem|]. intros w2 E2 H2 S2.
  assert (locals (pools w2) = locals (pools w1)) as L2 by (by rewrite E2).
  assert (usable w2 (mkView (v_owner dst) (v_offset dst) (Z.of_nat (length k)))) as U2.
  { unfold usable in *. cbn. rewrite L2, L1, E2. cbn. rewrite (gr_client _ _ G1). mem. }
  assert (native (v_owner dst) < length (natives (dev w)))%nat as Hk by (apply (known_buffer watch w _ Hi), usable_buffer, Hu).
  eapply wp_mono; [apply copy_staging_wp; [done|done| |cbn; lia]|].
  { unfold usable. cbn. rewrite L2, L1. mem. }
  cbn beta. cbn [v_owner v_offset v_length binding]. intros _ w3 (H3 & I3 & _ & S3). constructor.
  - done.
  - by rewrite (is_config _ _ I3), E2, <-(gr_config _ _ G1).
  - by rewrite (is_client _ _ I3), E2, <-(gr_client _ _ G1).
  - rewrite (is_natives _ _ I3), E2. apply (gr_natives _ _ G1).
  - intros y Hy. rewrite (issued_locals _ _ I3), L2, L1. by right.
  - intros n a Hn. rewrite (S3 n a). etrans; [apply (apply_proper _ _ _ S2 _ _ eq_refl)|]. rewrite S1. apply copied; lia.
Qed.

(** ** Uploads *)

Lemma take_staging_wp env n w :
  inv w → wp (take_staging env n)
    (λ b w', inv w' ∧ config w' = config w ∧ client w' = client w ∧ natives (dev w) `prefix_of` natives (dev w') ∧
       locals (pools w') = b :: locals (pools w) ∧ settled w' = settled w ∧ native b ∉ busy w' ∧
       (native b ∈ hidden w ∨ native b = length (natives (dev w)))) w.
Proof.
  intros Hi. unfold take_staging. unfold wp. destruct (x ← _; _) as [[i b]|] eqn:E.
  - apply bind_Some in E as ([j z] & _ & H). apply bind_Some in H as (b' & Hb & [= <- <-]). cbn in Hb.
    pose proof (take_pool_inv watch j b' w Hi Hb) as H1. cbn. split_and!; try done.
    + assert (native b' ∈ pool_natives w) by (apply list_elem_of_fmap_2; by eapply list_elem_of_lookup_2).
      by apply (ly_idle _ (inv_layout _ _ Hi)).
    + left. unfold hidden, pool_natives. assert (native b' ∈ native <$> staging_pool (pools w)) by (apply list_elem_of_fmap_2; by eapply list_elem_of_lookup_2). mem.
  - pose proof (allocate_staging_wp env n w Hi) as H. unfold wp in H. destruct (allocate_staging env n w) as [w' [b|e]]; [|done].
    destruct H as ([H1 G1 N1 L1 S1 B1 O1 D1] & Hb & _ & _). split_and!; try done; try apply G1. by right.
Qed.

(** The backing the application can observe. *)
Definition visible (c : Client) : list nat := (native <$> handles c) ++ graph_natives c.
Lemma visible_exposed w n : n ∈ visible (client w) → n ∈ exposed w.
Proof. unfold visible, exposed. mem. Qed.
Lemma visible_known w n : inv w → n ∈ visible (client w) → (n < length (natives (dev w)))%nat.
Proof. intros Hi Hn%visible_exposed. apply (known_of watch w n Hi). mem. Qed.
Lemma handle_visible w v : v_owner v ∈ handles (client w) → native (v_owner v) ∈ visible (client w).
Proof. intros H. apply elem_of_app. left. by apply list_elem_of_fmap_2. Qed.
Lemma handle_usable w v : v_owner v ∈ handles (client w) → usable w v.
Proof. unfold usable. mem. Qed.
Definition seen (w : World) (m m' : Memory) : Prop := ∀ n a, n ∈ visible (client w) → m n a = m' n a.

Record uploaded (w : World) (d : nat) (p : Z) (l : list Z) (w' : World) : Prop := {
  up_inv : inv w';
  up_config : config w' = config w;
  up_client : client w' = client w;
  up_settled : seen w (settled w') (write_bytes (settled w) d p l) }.

Lemma local_hidden w b : b ∈ locals (pools w) → native b ∈ hidden w.
Proof. intros Hb. unfold hidden. apply elem_of_app. left. by apply list_elem_of_fmap_2. Qed.

Lemma upload_chunk_wp env dst l w :
  inv w → v_owner dst ∈ handles (client w) →
  wp (upload_chunk env dst l) (λ _ w', uploaded w (native (v_owner dst)) (v_offset dst) l w') w.
Proof.
  intros Hi Hd. apply wp_bind, wp_gets, wp_bind.
  assert (∀ w1, inv w1 → config w1 = config w → client w1 = client w → settled w1 = settled w →
    wp (let! b := take_staging env (Z.of_nat (length l)) in
        let! _ := host_write env (native b) 0 l in
        let! to := lift (slice dst 0 (Z.of_nat (length l))) in
        let! from := lift (try_slice b 0 (Z.of_nat (length l))) in
        let! _ := copy env to from in
        let! _ := disown b in
        modify (λ w, set_staging (staging (pools w) ++ [b]) (staging_pool (pools w)) w))
      (λ _ w', uploaded w (native (v_owner dst)) (v_offset dst) l w') w1) as Hrest.
  - intros w1 H1 C1 K1 S1. apply wp_bind. eapply wp_mono; [by apply take_staging_wp|]. cbn beta.
    intros b w2 (H2 & C2 & K2 & _ & L2 & S2 & I2 & _). assert (b ∈ locals (pools w2)) as Hb by (rewrite L2; by left).
    apply wp_bind, host_write_wp; [done|done|pose proof (local_apart w2 b H2 Hb); mem|]. intros w3 E3 H3 S3.
    apply wp_bind, wp_lift; [done|]. intros to (-> & _)%stream_slice_Ok. apply wp_bind, wp_lift; [done|].
    intros from (-> & _)%stream_slice_Ok. rewrite Z.add_0_r. cbn [binding v_owner v_offset]. apply wp_bind.
    eapply wp_mono; [apply copy_wp; [done| | |cbn; lia]|].
    + apply handle_usable. cbn. rewrite E3. cbn. by rewrite K2, K1.
    + unfold usable. cbn. rewrite E3. cbn. rewrite L2. mem.
    + cbn beta. cbn [v_owner v_offset v_length]. intros _ w4 (H4 & I4 & _ & _ & S4). apply wp_bind, wp_modify, wp_modify.
      assert (b ∈ locals (pools w4)) as Hb4 by (rewrite (issued_locals _ _ I4), E3; done).
      assert (client w4 = client w) as K4 by (rewrite (is_client _ _ I4), E3; cbn; congruence).
      constructor; [by apply (push_staging_inv watch b w4)| |done|].
      * rewrite <-C1, <-C2. cbn. by rewrite (is_config _ _ I4), E3.
      * intros n a Hn. change (settled w4 n a = write_bytes (settled w) (native (v_owner dst)) (v_offset dst) l n a).
        rewrite (S4 n a). etrans; [apply (apply_proper _ _ _ S3 _ _ eq_refl)|]. rewrite S2, S1.
        assert (∀ x, x ∈ visible (client w) → x ≠ native b) as Hne.
        { intros x Hx ->. apply (ly_apart _ (inv_layout _ _ H4) (native b)); [by apply local_hidden|].
          apply visible_exposed. by rewrite K4. }
        apply copied; [by apply Hne, handle_visible|by apply Hne].
  - case_match; [|by apply wp_ret, Hrest]. eapply wp_mono; [by apply synchronize_wp|]. intros _ w1 [K1 K2 K3 K4 K5 K6 K7]. by apply Hrest.
Qed.

Lemma stream_write_app m d p a b :
  meq (write_bytes (write_bytes m d p a) d (p + Z.of_nat (length a)) b) (write_bytes m d p (a ++ b)).
Proof.
  intros n x. unfold write_bytes. destruct (n =? d)%nat; [|done]. cbn [andb]. unfold in_range. rewrite length_app, Nat2Z.inj_add.
  destruct ((p + Z.of_nat (length a) <=? x) && (x <? p + Z.of_nat (length a) + Z.of_nat (length b))) eqn:E1.
  - to_prop. replace ((p <=? x) && (x <? p + (Z.of_nat (length a) + Z.of_nat (length b)))) with true by lia.
    rewrite lookup_app_r by lia. f_equal. f_equal. lia.
  - destruct ((p <=? x) && (x <? p + Z.of_nat (length a))) eqn:E2.
    + clear E1. to_prop. pose proof (Nat2Z.is_nonneg (length b)). replace ((p <=? x) && (x <? p + (Z.of_nat (length a) + Z.of_nat (length b)))) with true by lia.
      by rewrite lookup_app_l by lia.
    + apply andb_false_iff in E1, E2.
      by replace ((p <=? x) && (x <? p + (Z.of_nat (length a) + Z.of_nat (length b)))) with false by lia.
Qed.

Lemma upload_chunks_wp envs dst fuel l index w :
  inv w → v_owner dst ∈ handles (client w) → (length l <= fuel)%nat →
  wp (upload_chunks envs dst index (byte_chunks fuel l))
    (λ _ w', uploaded w (native (v_owner dst)) (v_offset dst + Z.of_nat index * STAGING_LIMIT) l w') w.
Proof.
  revert l index w. induction fuel as [|fuel IH]; intros l index w Hi Hd Hl.
  { destruct l; [|cbn in Hl; lia]. apply wp_ret. constructor; [done..|]. intros n a _. symmetry. apply write_nothing. }
  cbn [byte_chunks]. destruct l as [|x l].
  { apply wp_ret. constructor; [done..|]. intros n a _. symmetry. apply write_nothing. }
  set (k := x :: l) in *. assert (0 < length k)%nat as Hk by (cbn; lia). clearbody k. clear x l.
  destruct (Z.of_nat (length k) <=? STAGING_LIMIT) eqn:El; to_prop; cbn [upload_chunks].
  - apply wp_bind, wp_lift; [done|]. intros v (-> & _)%stream_slice_Ok. apply wp_bind.
    eapply wp_mono; [by apply upload_chunk_wp|]. cbn beta. cbn [v_owner v_offset]. intros _ w' Hup. by apply wp_ret.
  - set (c := take (Z.to_nat STAGING_LIMIT) k). set (r := drop (Z.to_nat STAGING_LIMIT) k).
    assert (Z.of_nat (length c) = STAGING_LIMIT) as Hc.
    { unfold c. rewrite length_take. unfold STAGING_LIMIT, MIB64 in *. lia. }
    assert (length r <= fuel)%nat as Hr by (unfold r; rewrite length_drop; unfold STAGING_LIMIT, MIB64 in *; lia).
    assert (k = c ++ r) as Ek by (unfold c, r; by rewrite take_drop). clearbody c r.
    apply wp_bind, wp_lift; [done|]. intros v (-> & _)%stream_slice_Ok. apply wp_bind.
    eapply wp_mono; [by apply upload_chunk_wp|]. cbn beta. cbn [v_owner v_offset]. intros _ w1 [U1 U2 U3 U4].
    eapply wp_mono; [apply IH; [done|by rewrite U3|done]|]. intros _ w2 [V1 V2 V3 V4]. constructor; [done|congruence|congruence|].
    intros n a Hn. rewrite (V4 n a) by (by rewrite U3). rewrite Ek, <-(stream_write_app _ _ _ _ _ n a), Hc.
    replace (v_offset dst + Z.of_nat (S index) * STAGING_LIMIT) with (v_offset dst + Z.of_nat index * STAGING_LIMIT + STAGING_LIMIT) by lia.
    unfold write_bytes at 1 2. case_match; [done|]. by apply U4.
Qed.

(** ** Calls *)

Lemma wp_call {A} (c : M A) (Q : A → World → Prop) w :
  wp c (λ a w', Q a (drop_locals w')) w → wp (call c) Q w.
Proof. unfold wp, call. destruct (c w) as [w' [a|e]]; [done|]. apply drop_locals_inv. Qed.
Lemma drop_locals_frame w :
  config (drop_locals w) = config w ∧ dev (drop_locals w) = dev w ∧ client (drop_locals w) = client w ∧
  settled (drop_locals w) = settled w ∧ locals (pools (drop_locals w)) = [].
Proof.
  unfold drop_locals. destruct (drop_buffers_frame (locals (pools w)) (set_locals [] w)) as (E1 & E2 & E3 & E4).
  split_and!; [done..| |by rewrite E3]. unfold settled. by rewrite E1, E2.
Qed.
Lemma uploaded_drop w d p l w' : uploaded w d p l w' → uploaded w d p l (drop_locals w').
Proof.
  intros [U1 U2 U3 U4]. destruct (drop_locals_frame w') as (E1 & E2 & E3 & E4 & E5).
  constructor; [by apply drop_locals_inv|congruence|congruence|]. by rewrite E4.
Qed.

Lemma upload_wp envs dst l w :
  inv w → v_owner dst ∈ handles (client w) →
  wp (upload envs dst l) (λ _ w', uploaded w (native (v_owner dst)) (v_offset dst) l w') w.
Proof.
  intros Hi Hd. apply wp_call, wp_bind, owns_wp; [done|]. apply wp_bind, wp_lift; [done|]. intros _ _.
  eapply wp_mono; [by apply upload_chunks_wp|]. cbn beta. intros _ w' H. apply uploaded_drop. by rewrite Z.add_0_r in H.
Qed.

Lemma delivered_uploaded w d p l w' : inv w → delivered w d p l w' → uploaded w d p l w'.
Proof.
  intros Hi [D1 D2 D3 D4 D5 D6]. constructor; try done. intros n a Hn. apply D6. by apply visible_known.
Qed.

Lemma upload_blocking_wp env env' dst l w :
  inv w → v_owner dst ∈ handles (client w) →
  wp (upload_blocking env env' dst l) (λ _ w', uploaded w (native (v_owner dst)) (v_offset dst) l w') w.
Proof.
  intros Hi Hd. apply wp_call, wp_bind, owns_wp; [done|]. apply wp_bind, wp_lift; [done|]. intros _ _.
  apply wp_bind. eapply wp_mono; [by apply synchronize_wp|]. intros _ w1 [K1 K2 K3 K4 K5 K6 K7].
  assert (v_owner dst ∈ handles (client w1)) as Hd1 by (by rewrite K3). apply wp_bind, wp_gets. case_match.
  - eapply wp_mono; [apply stage_wp; [done|by apply handle_usable]|]. intros _ w2 H2%delivered_uploaded; [|done].
    apply uploaded_drop. destruct H2 as [U1 U2 U3 U4]. constructor; [done|congruence|congruence|].
    intros n a Hn. rewrite <-K6. apply U4. by rewrite K3.
  - apply host_write_wp; [done|unfold busy; rewrite K7; apply not_elem_of_nil| |].
    + intros Hrb. apply (ly_apart _ (inv_layout _ _ K1) (native (v_owner dst))); [unfold hidden; mem|]. by apply visible_exposed, handle_visible.
    + intros w2 E2 H2 S2. apply uploaded_drop. constructor; [done|by rewrite E2|by rewrite E2|]. intros n a _. rewrite (S2 n a). by rewrite K6.
Qed.
End Calls.
End StreamCalls.
