(* ===== verification/StreamOperations.v ===== *)
(** * Streams: operations

    The calls that allocate, read, dispatch and replay, with their effect on the
    settled memory and the invariant they keep, and the calls that give back. *)

From S2P Require Import Prelude Access BTreeMap Sdma RawGraph Stream StreamMemory StreamOverlap StreamInvariant StreamCalls.
Import Stream StreamMemory StreamOverlap StreamInvariant StreamCalls.
Local Open Scope Z_scope.

Module StreamOperations.
Local Arguments scratch_buffers : simpl never.
Local Arguments cached_natives : simpl never.

Section Ops.
Context (watch : Watch).
Local Notation inv := (inv watch).
Local Notation wp := (wp watch).

(** ** Reads *)

Lemma host_read_wp env n o k w (Q : list Z → World → Prop) :
  inv w → Q (read_bytes (memory (dev w)) n o k) w → wp (host_read env n o k) Q w.
Proof. intros Hi HQ. apply wp_bind, wp_lift; [done|]. intros _ _. by apply wp_gets. Qed.

Lemma idle_memory w : inflight (dev w) = [] → memory (dev w) = settled w.
Proof. intros E. unfold settled. by rewrite E. Qed.

Lemma read_copied f m b p d q n :
  d ≠ b → 0 <= n → read_bytes (apply f m (Copy b p d q n)) b p n = read_bytes m d q n.
Proof.
  intros Hne Hn. unfold read_bytes. apply list_fmap_ext. intros i k Hk. apply lookup_seq in Hk as [-> Hk]. cbn [apply Nat.add].
  assert (0 <= Z.of_nat i < n) as Hin by lia.
  rewrite Nat.eqb_refl. unfold in_range. replace ((p <=? p + Z.of_nat i) && (p + Z.of_nat i <? p + n)) with true by lia.
  cbn [andb]. f_equal. lia.
Qed.

Lemma unstage_wp env src n w :
  inv w → v_owner src ∈ handles (client w) → 0 <= n →
  wp (unstage env src n)
    (λ l w', inv w' ∧ config w' = config w ∧ client w' = client w ∧
             l = read_bytes (settled w) (native (v_owner src)) (v_offset src) n ∧ seen w (settled w') (settled w)) w.
Proof.
  intros Hi Hs Hn. apply wp_bind, wp_lift; [done|]. intros v (-> & _)%stream_slice_Ok. rewrite Z.add_0_r.
  destruct (Z.eqb_spec n 0) as [->|Hn0]; [by apply wp_ret|]. apply wp_bind. eapply wp_mono; [by apply allocate_staging_wp|].
  cbn beta. intros b w1 ([H1 G1 N1 L1 S1 B1 O1 D1] & Hb & _ & _). assert (b ∈ locals (pools w1)) as Hbl by (rewrite L1; by left).
  apply wp_bind. eapply wp_mono; [apply copy_staging_wp; [done| | |cbn; lia]|].
  { unfold usable. cbn. mem. }
  { apply handle_usable. cbn. by rewrite (gr_client _ _ G1). }
  cbn beta. cbn [v_owner v_offset v_length binding]. intros _ w2 (H2 & I2 & D2 & S2).
  assert (∀ x, x ∈ visible (client w) → x ≠ native b) as Hne by (intros x Hx%(visible_known watch w x Hi) ->; lia).
  apply host_read_wp; [done|]. rewrite (idle_memory w2 D2). split_and!; [done| | | |].
  - by rewrite (is_config _ _ I2), (gr_config _ _ G1).
  - by rewrite (is_client _ _ I2), (gr_client _ _ G1).
  - rewrite B1 in S2. rewrite (read_bytes_ext _ _ _ _ _ (S2 (native b))), read_copied; [by rewrite S1| |lia].
    by apply Hne, handle_visible.
  - intros x a Hx. rewrite (S2 x a), S1. apply copy_other. by apply Hne.
Qed.

Lemma seen_drop w w' m : seen w (settled w') m → seen w (settled (drop_locals w')) m.
Proof. by destruct (drop_locals_frame w') as (_ & _ & _ & -> & _). Qed.

Lemma read_blocking_wp env env' src n w :
  inv w → v_owner src ∈ handles (client w) → 0 <= n →
  wp (read_blocking env env' src n)
    (λ l w', inv w' ∧ config w' = config w ∧ client w' = client w ∧
             l = read_bytes (settled w) (native (v_owner src)) (v_offset src) n ∧ seen w (settled w') (settled w)) w.
Proof.
  intros Hi Hs Hn. apply wp_call, wp_bind, owns_wp; [done|]. apply wp_bind, wp_lift; [done|]. intros _ _.
  apply wp_bind. eapply wp_mono; [by apply synchronize_wp|]. intros _ w1 [K1 K2 K3 K4 K5 K6 K7].
  assert (v_owner src ∈ handles (client w1)) as Hs1 by (by rewrite K3). apply wp_bind, wp_gets.
  pose proof drop_locals_frame as Hf. case_match.
  - eapply wp_mono; [by apply unstage_wp|]. cbn beta. intros l w2 (U1 & U2 & U3 & -> & U5). destruct (Hf w2) as (E1 & _ & E3 & _ & _).
    split_and!; [by apply drop_locals_inv|congruence|congruence|by rewrite K6|]. apply seen_drop. unfold seen in *. by rewrite K3, K6 in U5.
  - apply host_read_wp; [done|]. rewrite (idle_memory w1 K7), K6. destruct (Hf w1) as (E1 & _ & E3 & _ & _).
    split_and!; [by apply drop_locals_inv|congruence|congruence|done|]. apply seen_drop. by rewrite K6.
Qed.

Lemma read_wp env src w :
  inv w → v_owner src ∈ handles (client w) → 0 <= v_length src →
  wp (read env src)
    (λ _ w', ∃ b, inv w' ∧ config w' = config w ∧ handles (client w') = handles (client w) ∧
       readbacks (client w') = mkReadback b (v_length src) :: readbacks (client w) ∧
       owner b = stream_id (config w) ∧ (length (natives (dev w)) <= native b)%nat ∧
       read_bytes (settled w') (native b) 0 (v_length src) =
         read_bytes (settled w) (native (v_owner src)) (v_offset src) (v_length src) ∧
       seen w (settled w') (settled w)) w.
Proof.
  intros Hi Hs Hl. apply wp_call, wp_bind. eapply wp_mono; [by apply allocate_staging_wp|]. cbn beta.
  intros b w1 ([H1 G1 N1 L1 S1 B1 O1 D1] & Hb & Hu & _). assert (b ∈ locals (pools w1)) as Hbl by (rewrite L1; by left).
  assert (∀ x, x ∈ visible (client w) → x ≠ native b) as Hne by (intros x Hx%(visible_known watch w x Hi) ->; lia).
  assert (∀ w2, inv w2 → config w2 = config w → client w2 = client w → b ∈ locals (pools w2) →
    read_bytes (settled w2) (native b) 0 (v_length src) =
      read_bytes (settled w) (native (v_owner src)) (v_offset src) (v_length src) → seen w (settled w2) (settled w) →
    wp (let! _ := disown b in modify (λ w, set_readbacks (mkReadback b (v_length src) :: readbacks (client w)) w))
      (λ _ w', ∃ b, inv (drop_locals w') ∧ config (drop_locals w') = config w ∧ handles (client (drop_locals w')) = handles (client w) ∧
       readbacks (client (drop_locals w')) = mkReadback b (v_length src) :: readbacks (client w) ∧
       owner b = stream_id (config w) ∧ (length (natives (dev w)) <= native b)%nat ∧
       read_bytes (settled (drop_locals w')) (native b) 0 (v_length src) =
         read_bytes (settled w) (native (v_owner src)) (v_offset src) (v_length src) ∧
       seen w (settled (drop_locals w')) (settled w)) w2) as Hend.
  - intros w2 H2 C2 K2 Hb2 R2 S2. apply wp_bind, wp_modify, wp_modify. exists b. set (w3 := set_readbacks _ _).
    destruct (drop_locals_frame w3) as (E1 & _ & E3 & E4 & _). rewrite E1, E3, E4. split_and!; try done.
    + apply drop_locals_inv. by apply (push_readback_inv watch b (v_length src) w2).
    + cbn. by rewrite K2.
    + cbn. by rewrite K2.
    + apply O1.
    + lia.
  - apply wp_bind. destruct (Z.eqb_spec (v_length src) 0) as [E0|E0].
    + apply wp_ret, Hend; [done|apply G1|apply G1|done|by rewrite E0|by rewrite S1].
    + apply wp_bind, wp_lift; [done|]. intros v (-> & _)%stream_slice_Ok. cbn [binding v_owner v_offset].
      eapply wp_mono; [apply copy_wp; [done|unfold usable; cbn; mem|apply handle_usable; by rewrite (gr_client _ _ G1)|cbn; lia]|].
      cbn beta. cbn [v_owner v_offset v_length]. intros _ w2 (H2 & I2 & _ & _ & S2). apply Hend; [done| | | | |].
      * by rewrite (is_config _ _ I2), (gr_config _ _ G1).
      * by rewrite (is_client _ _ I2), (gr_client _ _ G1).
      * by rewrite (issued_locals _ _ I2).
      * rewrite (read_bytes_ext _ _ _ _ _ (S2 (native b))), read_copied; [by rewrite S1| |lia]. by apply Hne, handle_visible.
      * intros x a Hx. rewrite (S2 x a), S1. apply copy_other. by apply Hne.
Qed.

Lemma take_readback_wp i w (Q : option Readback → World → Prop) :
  inv w → (readbacks (client w) !! i = None → Q None w) →
  (∀ r w', readbacks (client w) !! i = Some r → inv w' → config w' = config w → settled w' = settled w →
     handles (client w') = handles (client w) → dev w' = dev w → Q (Some r) w') →
  wp (take_readback i) Q w.
Proof.
  intros Hi H0 H1. unfold StreamCalls.wp, take_readback. destruct (readbacks (client w) !! i) as [r|] eqn:E; [|by apply H0].
  apply (H1 r); try done. by apply take_readback_inv.
Qed.
Lemma readback_drop_wp i w : inv w → wp (readback_drop i) (λ _ w', inv w') w.
Proof.
  intros Hi. apply wp_call, wp_bind, take_readback_wp; [done|..]; intros; apply wp_ret; by apply drop_locals_inv.
Qed.
Lemma readback_wait_wp env i r w :
  inv w → readbacks (client w) !! i = Some r →
  wp (readback_wait env i)
    (λ l w', inv w' ∧ l = read_bytes (settled w) (native (rb_buffer r)) 0 (rb_length r) ∧ settled w' = settled w) w.
Proof.
  intros Hi Hr. apply wp_call, wp_bind, take_readback_wp; [done|by rewrite Hr|].
  intros r' w1 Hr' H1 C1 S1 K1 D1. rewrite Hr in Hr'. injection Hr' as <-. apply wp_bind, wp_gets.
  case_match; [done|]. apply wp_bind. eapply wp_mono; [by apply synchronize_wp|]. intros _ w2 [K2 K3 K4 K5 K6 K7 K8].
  apply host_read_wp; [done|]. rewrite (idle_memory w2 K8), K7, S1. split_and!; [by apply drop_locals_inv|done|].
  destruct (drop_locals_frame w2) as (_ & _ & _ & -> & _). by rewrite K7.
Qed.
Lemma readback_wait_inv env i w : inv w → inv (readback_wait env i w).1.
Proof.
  intros Hi. destruct (readbacks (client w) !! i) as [r|] eqn:E.
  - eapply (wp_result watch); [|by eapply readback_wait_wp]. by intros a w' (? & _).
  - eapply (wp_result watch (readback_wait env i) (λ _ w', inv w')); [done|]. apply wp_call, wp_bind, take_readback_wp; [done|..].
    + intros _. apply wp_ret. by apply drop_locals_inv.
    + intros r w' Hr. by rewrite E in Hr.
Qed.

(** ** Dispatch *)

Lemma trim_sub l retained n e : e ∈ trim l retained n → e ∈ l.
Proof.
  revert retained. induction l as [|x l IH]; intros retained; cbn [trim]; [done|]. destruct (_ || _); [|done]. intros He. right. by eapply IH.
Qed.
Lemma cache_dispatch_inv l c w :
  inv w → dispatch_ok (config w) (mkDispatch l c) → (∀ n, n ∈ c_natives c → n ∈ exposed w ++ local_natives w) →
  inv (cache_dispatch l c w).
Proof.
  intros Hi Hc Hn. unfold cache_dispatch. case_match; [done|]. pose proof (inv_commands _ _ Hi) as Hcm.
  apply cache_inv; [done|apply Hcm| |].
  - apply Forall_app. split; [|by apply Forall_singleton]. apply Forall_forall. intros x Hx%trim_sub.
    pose proof (cm_dispatches _ Hcm) as Hd. rewrite Forall_forall in Hd. by apply Hd.
  - intros n. unfold cached_natives. cbn. rewrite bind_app. rewrite !elem_of_app. cbn. rewrite app_nil_r.
    intros [[H'|H']|H']; [|by right; apply elem_of_app, Hn|by left; right]. left. left.
    apply list_elem_of_bind in H' as (x & Hx & Hin%trim_sub). apply list_elem_of_bind. by exists x.
Qed.

Lemma owns_all_wp views (Q : unit → World → Prop) w : inv w → Q tt w → wp (owns_all views) Q w.
Proof.
  intros Hi HQ. induction views as [|v views IH]; [done|]. cbn [owns_all]. by apply wp_bind, owns_wp.
Qed.
Lemma prepare_dispatch_wp env l views w (Q : Command → World → Prop) :
  inv w → (∀ c, dispatch_ok (config w) (mkDispatch l c) → Q c w) → wp (prepare_dispatch env l views) Q w.
Proof.
  intros Hi HQ. apply wp_bind, wp_lift; [done|]. intros _ _. apply wp_bind, owns_all_wp; [done|].
  apply wp_bind, wp_lift; [done|]. intros _ _. apply wp_bind, wp_gets, wp_ret, HQ. done.
Qed.
Lemma dispatch_cmd_ok c l x : dispatch_ok c (mkDispatch l x) → cmd_ok x.
Proof.
  intros (_ & Hp & Hn) n. cbn in Hp, Hn. rewrite Hp, Hn. cbn. rewrite app_nil_r. done.
Qed.
Lemma range_natives views n : n ∈ (range_of <$> views).*1.*1 → ∃ v, v ∈ views ∧ n = native (v_owner v).
Proof.
  intros (x & -> & Hx)%list_elem_of_fmap. apply list_elem_of_fmap in Hx as (y & -> & Hy).
  apply list_elem_of_fmap in Hy as (v & -> & Hv). by exists v.
Qed.

Lemma dispatch_wp env k g b c views w :
  inv w → Forall (owned w) views →
  wp (dispatch env k g b c views)
    (λ _ w', inv w' ∧ issued w w' ∧
       settled w' = apply (effect (config w)) (settled w) (Run (mkLaunch k g b c (range_of <$> views)))) w.
Proof.
  intros Hi Hv. set (l := mkLaunch k g b c (range_of <$> views)). apply wp_bind, retain_wp; [done|].
  intros w1 H1 I1 E1 K1 _ Hr.
  assert (Forall (usable w1) views) as Hu.
  { eapply Forall_impl; [exact Hv|]. intros v (Ho & _). apply (issued_usable w); [done|]. by apply handle_usable. }
  assert (∀ x, dispatch_ok (config w1) (mkDispatch l x) → ∀ n, n ∈ c_natives x → ∃ v, v ∈ views ∧ n = native (v_owner v)) as Hn.
  { intros x (_ & _ & Hx) n. cbn in Hx. rewrite Hx. apply range_natives. }
  assert (∀ x (Q : unit → World → Prop), dispatch_ok (config w1) (mkDispatch l x) →
    (∀ w2, inv w2 → ran w1 w2 → settled w2 = apply (effect (config w)) (settled w) (Run l) → Q tt w2) → wp (submit env x) Q w1) as Hsub.
  { intros x Q Hx HQ. apply (submit_views_wp watch env views); [done|done|by eapply dispatch_cmd_ok|by apply Hn|done|].
    intros w2 H2 R2 S2. apply HQ; [done..|]. destruct Hx as (_ & Hp & _). cbn in Hp. rewrite S2, Hp, E1, (is_config _ _ I1). done. }
  apply wp_bind, wp_gets. case_match.
  - apply wp_bind, wp_gets. destruct ((λ x : nat * CachedDispatch, d_command x.2) <$> _) as [x|] eqn:Ef.
    + apply Hsub.
      * apply fmap_Some in Ef as ([i e] & Hf & ->). apply list_find_Some in Hf as (Hl & Hd & _).
        pose proof (cm_dispatches _ (inv_commands _ _ H1)) as Ha. rewrite Forall_forall in Ha.
        specialize (Ha e ltac:(by eapply list_elem_of_lookup_2)). destruct e as [dl dc]. cbn in Hd |- *. fold l in Hd. by rewrite Hd in Ha.
      * intros w2 H2 R2 S2. split_and!; [done|etrans; [exact I1|by apply ran_issued]|done].
    + apply wp_bind, prepare_dispatch_wp; [done|]. intros x Hx. apply wp_bind, Hsub; [done|]. intros w2 H2 R2 S2. apply wp_modify.
      assert (issued w2 (cache_dispatch l x w2)) as I3 by (unfold cache_dispatch; by case_match).
      split_and!.
      * apply cache_dispatch_inv; [done|by rewrite (ran_config _ _ R2)|]. intros n (v & Hin & ->)%(Hn x Hx). rewrite (ran_usable _ _ R2).
        rewrite Forall_forall in Hu. by apply usable_native, Hu.
      * etrans; [exact I1|]. etrans; [by apply ran_issued|done].
      * rewrite <-S2. unfold cache_dispatch. by case_match.
  - apply wp_bind, prepare_dispatch_wp; [done|]. intros x Hx. apply Hsub; [done|]. intros w2 H2 R2 S2.
    split_and!; [done|etrans; [exact I1|by apply ran_issued]|done].
Qed.

(** ** Allocation *)

Lemma read_written m b o l : read_bytes (write_bytes m b o l) b o (Z.of_nat (length l)) = l.
Proof.
  unfold read_bytes. rewrite Nat2Z.id. apply list_eq. intros i. rewrite list_lookup_fmap. destruct (decide (i < length l)%nat) as [Hi|Hi].
  - rewrite lookup_seq_lt by done. cbn. unfold write_bytes. rewrite Nat.eqb_refl. unfold in_range.
    assert (0 <= Z.of_nat i < Z.of_nat (length l)) as Hin by lia.
    replace ((o <=? o + Z.of_nat i) && (o + Z.of_nat i <? o + Z.of_nat (length l))) with true by lia. cbn [andb].
    replace (Z.to_nat (o + Z.of_nat i - o)) with i by lia. destruct (lookup_lt_is_Some_2 l i Hi) as [x ->]. done.
  - rewrite !lookup_ge_None_2; [done|lia|rewrite length_seq; lia].
Qed.

(** The bytes an allocation was initialized with. *)
Definition holds (m : Memory) (b : nat) (data : option (list Z)) : Prop :=
  ∀ l, data = Some l → read_bytes m b 0 (Z.of_nat (length l)) = l.

Record backed (w : World) (n : nat) (w' : World) : Prop := {
  bk_inv : inv w';
  bk_fresh : fresh w' n;
  bk_config : config w' = config w;
  bk_client : client w' = client w;
  bk_locals : locals (pools w') = locals (pools w);
  bk_settled : seen w (settled w') (settled w) }.

Lemma fresh_invisible w n : fresh w n → n ∉ visible (client w).
Proof. intros [_ Hf] Hn%visible_exposed. apply Hf. mem. Qed.
Lemma fresh_write m n w : fresh w n → fresh (set_memory m w) n.
Proof. done. Qed.

Lemma write_data_wp env n data w (Q : unit → World → Prop) :
  inv w → n ∉ busy w → n ∉ rb_natives w → n ∉ visible (client w) →
  (∀ w', inv w' → (fresh w n → fresh w' n) → config w' = config w → inner w' = inner w → pools w' = pools w → client w' = client w →
     natives (dev w') = natives (dev w) →
     seen w (settled w') (settled w) → holds (settled w') n data → busy w' = busy w → Q tt w') →
  wp (write_data env n data) Q w.
Proof.
  intros Hi Hb Hrb Hv HQ. destruct data as [l|]; [|by apply wp_ret, HQ].
  apply host_write_wp; [done..|]. intros w' -> H' S'. apply HQ; try done.
  - intros x a Hx. rewrite (S' x a). apply write_bytes_other. by intros ->.
  - intros ? [= <-]. etrans; [apply read_bytes_ext, (S' n)|]. apply read_written.
Qed.

Lemma fresh_idle w n : fresh w n → n ∉ busy w ∧ n ∉ rb_natives w ∧ n ∉ visible (client w).
Proof.
  intros Hf. pose proof (fresh_invisible w n Hf). destruct Hf as [_ Hf]. split_and!; [|unfold hidden in Hf; mem|done].
  intros Hb%reference_busy. apply Hf. mem.
Qed.

(** The backing of an allocation: one of the pool, or a new one. *)
Lemma take_free_wp n w (Q : option nat → World → Prop) :
  inv w → Q None w → (∀ b w', backed w b w' → charge_of w' b = None → settled w' = settled w → Q (Some b) w') →
  wp (take_free n) Q w.
Proof.
  intros Hi H0 H1. unfold StreamCalls.wp, take_free. destruct (list_find _ _) as [[i b]|] eqn:E; [|done].
  apply list_find_Some in E as (Hl & _ & _). destruct (take_free_inv watch w i b Hi Hl) as (I1 & I2 & I3).
  by apply H1.
Qed.

Record allocated (w : World) (n : Z) (data : option (list Z)) (b : Buffer) (w' : World) : Prop := {
  al_inv : inv w';
  al_config : config w' = config w;
  al_client : client w' = client w;
  al_local : b ∈ locals (pools w');
  al_charge : budgeted (config w) = false → reservation b = None;
  al_bytes : bytes b = Z.max n 1;
  al_settled : seen w (settled w') (settled w);
  al_data : holds (settled w') (native b) data;
  al_idle : data = None → native b ∉ busy w' }.

Lemma allocate_shared_wp env n w : inv w → wp (allocate_shared env n) (λ b w', allocated w n None b w') w.
Proof.
  intros Hi. unfold allocate_shared, allocate_staging. apply wp_bind, reserve_wp; [done|]. intros r w1 H1 N1 F1 S1 C1 I1 P1 L1 Hr.
  apply wp_bind, new_native_wp; [done|]. intros w2 -> H2 Hf Hu Hc. apply new_buffer_wp; [done..|]. intros b w3 Eb H3.
  constructor; try done.
  - by left.
  - intros E. rewrite Eb. cbn. by apply Hr.
  - rewrite Eb. cbn. lia.
  - intros x a _. by rewrite <-S1.
  - intros _ Hb. destruct (fresh_idle _ _ Hf) as [H' _]. apply H'. rewrite Eb in Hb. exact Hb.
Qed.

Lemma allocate_initialized_wp env env' n data w :
  inv w → 1 <= n → wp (allocate_initialized env env' n data) (λ b w', allocated w n data b w') w.
Proof.
  intros Hi Hn. apply wp_bind, wp_gets. destruct (sdma (config w)) as [limit|].
  { apply wp_bind. eapply wp_mono; [by apply allocate_shared_wp|]. cbn beta. intros b w1 [A1 A2 A3 A4 A5 A6 A7 A8 A9].
    specialize (A9 eq_refl). pose proof (local_apart watch w1 b A1 A4) as Hap. apply wp_bind, write_data_wp; [done|done|mem| |].
    { intros Hv%visible_exposed. by apply (ly_apart _ (inv_layout _ _ A1) (native b)); [apply local_hidden|]. }
    intros w2 H2 _ C2 N2 P2 K2 _ S2 D2 B2. apply wp_ret. constructor; try done; try congruence.
    intros x a Hx. rewrite (S2 x a) by (by rewrite A3). by apply A7. }
  apply wp_bind, reserve_wp; [done|]. intros r w1 H1 N1 F1 S1 C1 I1 P1 K1 Hr.
  assert (∀ b w2, backed w1 b w2 → charge_of w2 b = r →
    (from_option n_device_only false (natives (dev w2) !! b) = false → holds (settled w2) b data) →
    wp (let! b := new_buffer b n r true in
        let! hid := device_only (native b) in
        let! _ := match data with
                  | Some l => if hid then let! v := lift (try_slice b 0 n) in stage env' v l else ret tt
                  | None => ret tt end in
        ret b) (λ b w', allocated w n data b w') w2) as Hend.
  { intros b w2 [B1 B2 B3 B4 B5 B6] Hch Hd. apply wp_bind, new_buffer_wp; [done..|]. intros buf w3 Eb H3.
    assert (native buf = b) as En by (by rewrite Eb). apply wp_bind, wp_gets, wp_bind.
    assert (∀ w4, inv w4 → config w4 = config w2 → client w4 = client w2 → buf ∈ locals (pools w4) →
      seen w (settled w4) (settled w) → holds (settled w4) b data → (data = None → busy w4 = busy w2) →
      allocated w n data buf w4) as Hdone.
    { intros w4 H4 C4 K4 L4 S4 D4 B4'. constructor; [done|congruence|congruence|done| | |done|by rewrite En|
        intros Ed; rewrite (B4' Ed), En; by apply (fresh_idle w2)].
      - intros E. rewrite Eb. cbn. by apply Hr.
      - rewrite Eb. cbn. lia. }
    assert (seen w (settled w3) (settled w)) as S3.
    { intros x a Hx. change (settled w3) with (settled w2). rewrite (B6 x a) by (by rewrite K1). by rewrite S1. }
    destruct data as [l|]; [|apply wp_ret, wp_ret, Hdone; try done; by left].
    match goal with |- context [if ?x then _ else _] => destruct x eqn:Eh end.
    - apply wp_bind, wp_lift; [done|]. intros v (-> & _)%stream_slice_Ok.
      eapply wp_mono; [apply stage_wp; [done|unfold usable; cbn; mem]|]. cbn beta. cbn [v_owner v_offset binding].
      intros _ w4 [D1 D2 D3 D4 D5 D6]. apply wp_ret, Hdone; try done.
      + apply D5. by left.
      + intros x a Hx. rewrite (D6 x a).
        * rewrite write_bytes_other; [by apply S3|]. intros ->. apply (fresh_invisible w2 b B2). rewrite <-En, B4, K1. done.
        * apply (visible_known watch w3); [done|]. change (client w3) with (client w2). by rewrite B4, K1.
      + intros ? [= <-]. rewrite En in D6. rewrite (read_bytes_ext _ (write_bytes (settled w3) b 0 l)); [apply read_written|].
        intros a. apply D6. apply B2.
    - apply wp_ret, wp_ret, Hdone; try done; [by left|]. rewrite En in Eh. by apply Hd. }
  apply wp_bind.
  assert (∀ (Q : option nat → World → Prop),
    (∀ b w', backed w1 b w' → charge_of w' b = r → settled w' = settled w1 → Q (Some b) w') → Q None w1 →
    wp (match r with None => take_free n | Some _ => ret None end) Q w1) as Htake.
  { intros Q Hs H0. destruct r as [r|]; [by apply wp_ret|]. apply take_free_wp; [done..|]. intros b w' Hb Hch Hse. by apply Hs. }
  apply Htake.
  - intros b w2 [B1 B2 B3 B4 B5 B6] Hch S2. apply wp_bind, wp_bind, wp_gets, wp_bind. match goal with |- context [if ?x then _ else _] => destruct x eqn:Eh end.
    + apply wp_ret, wp_ret. apply Hend; [done|done|by rewrite Eh].
    + destruct (fresh_idle w2 b B2) as (F2 & F3 & F4). apply write_data_wp; [done..|]. intros w3 H3 Fr3 C3 _ P3 K3 N3 S3 D3 _. apply wp_ret, Hend.
      * constructor; try congruence; [by apply Fr3|]. intros x a Hx. rewrite (S3 x a) by (by rewrite B4). by apply B6.
      * unfold charge_of. by rewrite N3.
      * done.
  - apply wp_bind, wp_bind, new_native_wp; [done|]. intros w2 E2 H2 Hf _ Hch.
    set (nn := length (natives (dev w1))) in *. apply wp_bind.
    assert (from_option n_device_only false (natives (dev w2) !! nn) = device_local (config w)) as Ehid.
    { rewrite E2. cbn. unfold nn. by rewrite lookup_app_r, Nat.sub_diag by lia. }
    assert (backed w1 nn w2) as Hb2.
    { constructor; try done; rewrite E2; try done. }
    destruct (device_local (config w)) eqn:Edl; [apply wp_ret, wp_ret; apply Hend; [done|done|by rewrite Ehid]|].
    destruct data as [l|]; [|apply wp_ret, wp_ret; apply Hend; [done|done|done]].
    destruct (fresh_idle w2 nn Hf) as (F2 & F3 & F4).
    assert (wp (host_write (mkEnv (λ _, Ok tt) 0%nat) nn 0 l) (λ _ w3, inv w3 ∧ fresh w3 nn ∧ config w3 = config w2 ∧ pools w3 = pools w2 ∧
              client w3 = client w2 ∧ natives (dev w3) = natives (dev w2) ∧ meq (settled w3) (write_bytes (settled w2) nn 0 l)) w2) as Hw.
    { apply host_write_wp; [done..|]. intros w3 -> H3 S3. done. }
    apply wp_modify. destruct Hw as (H3 & Fr3 & C3 & P3 & K3 & N3 & S3). apply wp_ret, Hend.
    + destruct Hb2 as [B1 B2 B3 B4 B5 B6]. constructor; try congruence. intros x a Hx. rewrite (S3 x a), write_bytes_other; [by apply B6|].
      intros ->. by rewrite <-B4 in Hx.
    + unfold charge_of. rewrite N3. exact Hch.
    + intros _ ? [= <-]. rewrite (read_bytes_ext _ _ _ _ _ (S3 nn)). apply read_written.
Qed.

(** ** Graphs *)

(** The application's recordings, graphs and leaks change. *)
Lemma graphs_inv w w' :
  inv w → config w' = config w → dev w' = dev w → inner w' = inner w → pools w' = pools w →
  handles (client w') = handles (client w) → readbacks (client w') = readbacks (client w) →
  (∀ n, n ∈ graph_natives (client w') → n ∈ exposed w) → Forall cmd_ok (graph_commands (client w')) →
  (∀ e r, e ∈ inflight (dev w) → held w (e_point e) r → held w' (e_point e) r) →
  (∀ g c n r, g ∈ recordings (client w') → c ∈ r_commands g → n ∈ c_natives c → charge_of w n = Some r → r ∈ r_uses g) →
  (∀ g c n r, g ∈ graphs (client w') → c ∈ g_commands g → n ∈ c_natives c → charge_of w n = Some r → r ∈ g_uses g) →
  (∀ g k, g ∈ graphs (client w') → g_last g = Some k →
    (k_point k < published (dev w))%nat ∧
    ∀ e, e ∈ inflight (dev w) → (e_point e <= k_point k)%nat → e_engine e = k_engine k) →
  inv w'.
Proof.
  intros Hi Ec Ed Ei Ep Eh Erb Hn Hok Hheld Hr Hg Hl. pose proof (λ n, free_apart watch w n Hi) as Hfa.
  assert (hidden w' = hidden w) as Hh by (unfold hidden, local_natives, pool_natives, rb_natives; by rewrite Ep, Ei, Erb).
  assert (∀ n, n ∈ exposed w' → n ∈ exposed w) as He.
  { intros n. unfold exposed at 1. rewrite Ep, Eh. intros Hx. rewrite !elem_of_app in Hx.
    destruct Hx as [Hx|[Hx|Hx]]; [unfold exposed; mem..|by apply Hn]. }
  assert (∀ n, n ∈ references w' → n ∈ references w ∨ n ∈ exposed w) as Href.
  { intros n. unfold references at 1. rewrite Ed, Ei. intros Hx. rewrite !elem_of_app in Hx.
    destruct Hx as [Hx|[Hx|Hx]]; [left; unfold references; mem|right; by apply Hn|left; unfold references; mem]. }
  assert (buffers w' = buffers w) as Hb by (unfold buffers; by rewrite Ep, Eh, Erb).
  assert (∀ n, charge_of w' n = charge_of w n) as Hc by (intros n; unfold charge_of; by rewrite Ed).
  assert (settled w' = settled w) as Es by (unfold settled; by rewrite Ec, Ed).
  destruct Hi as [[T1 T2 T3] [L1 L2 L3 L4 L5 L6] [Q1 Q2 Q3 Q4] [C1 C2 C3 C4] Hw]. constructor.
  - by rewrite Ed.
  - constructor; rewrite ?Hh, ?Hb, ?Ed, ?Ei; try done.
    + intros n. rewrite !elem_of_app. intros [Hx|[Hx|Hx]]; apply L1; rewrite !elem_of_app;
        [by left|right; left; by apply He|]. destruct (Href n Hx); auto.
    + intros n Hx Hy. by apply (L3 n Hx), He.
    + intros n. unfold pool_natives, busy. rewrite Ep, Ed. apply L4.
    + intros n Hx. rewrite Hc. destruct (L5 n Hx) as [H1 H2]. split; [|done]. intros [Hy|Hy]%Href; [done|]. apply (Hfa n Hx). mem.
    + intros b Hx. rewrite Hc. by apply L6.
  - constructor; rewrite ?Ec, ?Ei; try done.
  - constructor; rewrite ?Ed; try done.
    + intros e n r H1 H2 H0. rewrite Hc. intros H3. apply Hheld; [done|]. by apply (C1 e n r).
    + intros g c n r. rewrite Hc. apply Hr.
    + intros g c n r. rewrite Hc. apply Hg.
  - unfold watched, rb_natives in *. destruct watch as [[[n c]|] lost]; [|done]. by rewrite Ed, Es, Erb.
Qed.

Lemma graph_natives_elem c n :
  n ∈ graph_natives c ↔ (∃ g x, g ∈ recordings c ∧ x ∈ r_commands g ∧ n ∈ c_natives x) ∨
                        (∃ g x, g ∈ graphs c ∧ x ∈ g_commands g ∧ n ∈ c_natives x).
Proof.
  unfold graph_natives. rewrite elem_of_app, !list_elem_of_bind. setoid_rewrite list_elem_of_bind. naive_solver.
Qed.
Lemma graph_commands_ok c :
  Forall cmd_ok (graph_commands c) ↔
  (∀ g x, g ∈ recordings c → x ∈ r_commands g → cmd_ok x) ∧ (∀ g x, g ∈ graphs c → x ∈ g_commands g → cmd_ok x).
Proof.
  unfold graph_commands. rewrite Forall_app, !Forall_forall. setoid_rewrite list_elem_of_bind. naive_solver.
Qed.
Lemma exposed_graph w n : n ∈ graph_natives (client w) → n ∈ exposed w.
Proof. intros H. unfold exposed. mem. Qed.

(** Graphs that only lose members, while nothing unfinished depends on them. *)
Lemma fewer_graphs_inv w rs gs lk dr :
  let w' := set_client (mkClient (handles (client w)) (readbacks (client w)) rs gs lk dr) w in
  inv w → (∀ g, g ∈ rs → g ∈ recordings (client w)) → (∀ g, g ∈ gs → g ∈ graphs (client w)) →
  (∀ e r, e ∈ inflight (dev w) → held w (e_point e) r → held w' (e_point e) r) → inv w'.
Proof.
  intros w' Hi Hr Hg Hh. destruct (inv_charged _ _ Hi) as [C1 C2 C3 C4].
  destruct (proj1 (graph_commands_ok _) (cm_graphs _ (inv_commands _ _ Hi))) as [K1 K2].
  apply (graphs_inv w); try done.
  - intros n [(g & x & H1 & H2 & H3)|(g & x & H1 & H2 & H3)]%graph_natives_elem; apply exposed_graph, graph_natives_elem;
      [left|right]; exists g, x; split_and!; auto.
  - apply graph_commands_ok. split; intros g x H1; [apply (K1 g)|apply (K2 g)]; auto.
  - intros g c n r H1. apply (C2 g c n r). by apply Hr.
  - intros g c n r H1. apply (C3 g c n r). by apply Hg.
  - intros g k H1. apply (C4 g k). by apply Hg.
Qed.

Lemma delete_elem {A} (l : list A) i x : x ∈ delete i l → x ∈ l.
Proof. intros H. eapply elem_of_sublist; [exact H|apply sublist_delete]. Qed.

Lemma begin_graph_inv id w : inv w → inv (begin_graph id w).
Proof.
  intros Hi. destruct (inv_charged _ _ Hi) as [C1 C2 C3 C4].
  destruct (proj1 (graph_commands_ok _) (cm_graphs _ (inv_commands _ _ Hi))) as [K1 K2]. apply (graphs_inv w); try done.
  - intros n [(g & x & H1 & H2 & H3)|(g & x & H1 & H2 & H3)]%graph_natives_elem; apply exposed_graph, graph_natives_elem; [|right; eauto 6].
    cbn in H1. apply elem_of_cons in H1 as [->|H1]; [by apply elem_of_nil in H2|left; eauto 6].
  - apply graph_commands_ok. split; [|done]. intros g x [->|H1]%elem_of_cons H2; [by apply elem_of_nil in H2|by apply (K1 g)].
  - intros g c n r [->|H1]%elem_of_cons H2; [by apply elem_of_nil in H2|by apply (C2 g c n r)].
Qed.

Lemma alter_elem {A} (f : A → A) (l : list A) (i : nat) y : y ∈ alter f i l → y ∈ l ∨ ∃ x, l !! i = Some x ∧ y = f x.
Proof.
  intros [j Hj]%list_elem_of_lookup_1. destruct (decide (j = i)) as [->|Hne].
  - rewrite list_lookup_alter_eq in Hj. apply fmap_Some in Hj as (x & Hx & ->). right. eauto.
  - rewrite list_lookup_alter_ne in Hj by done. left. by eapply list_elem_of_lookup_2.
Qed.

(** The commands of a recording with one more node, and of a finished one. *)
Definition node_commands (n : Raw.Recorded Command) : list Command := match n with Raw.Prepared c => [c] | Raw.Join => [] end.
Lemma record_commands n after views r u :
  r_commands (mkRecording (Raw.record n after (Raw.retain_bindings views (r_graph r))).1 u) = r_commands r ++ node_commands n.
Proof. unfold r_commands. cbn. rewrite omap_app. by destruct n. Qed.
Lemma order_commands idx completed (ns : list (Raw.Recorded Command * option Z)) :
  (Raw.order idx completed ns).*1 = omap node_command ns.
Proof.
  revert idx completed. induction ns as [|[[c|] d] ns IH]; intros idx completed; [done|..]; cbn; by rewrite IH.
Qed.
Lemma finish_commands r : (Raw.finish (r_graph r)).*1 = r_commands r.
Proof. apply order_commands. Qed.

Lemma insert_elem {A} (l : list A) (i : nat) x y : y ∈ <[i := x]> l → y ∈ l ∨ y = x.
Proof. intros [j [(-> & -> & _)|[_ Hj]]%list_lookup_insert_Some]%list_elem_of_lookup_1; [by right|left; by eapply list_elem_of_lookup_2]. Qed.
Lemma record_node_inv i n after views w :
  inv w → Forall (usable w) views → locals (pools w) = [] →
  (∀ c, c ∈ node_commands n → cmd_ok c ∧ ∀ x, x ∈ c_natives c → ∃ v, v ∈ views ∧ x = native (v_owner v)) →
  inv (record_node i n after views w).1.
Proof.
  intros Hi Hv Hloc Hc. unfold record_node. destruct (recordings (client w) !! i) as [g0|] eqn:E0; [|done].
  apply list_elem_of_lookup_2 in E0. rewrite Forall_forall in Hv. destruct (inv_charged _ _ Hi) as [C1 C2 C3 C4].
  pose proof (record_commands n after (raw_view <$> views) g0 (foldl retain_use (r_uses g0) views)) as Hr.
  destruct (Raw.record n after _) as [g1 node]. cbn [fst] in Hr |- *. set (r1 := mkRecording g1 _) in *.
  destruct (proj1 (graph_commands_ok _) (cm_graphs _ (inv_commands _ _ Hi))) as [K1 K2]. apply (graphs_inv w); try done.
  - intros x [(g & c & H1 & H2 & H3)|(g & c & H1 & H2 & H3)]%graph_natives_elem; [|apply exposed_graph, graph_natives_elem; right; eauto 6].
    cbn in H1. apply insert_elem in H1 as [H1| ->]; [apply exposed_graph, graph_natives_elem; left; eauto 6|].
    rewrite Hr in H2. apply elem_of_app in H2 as [H2|H2]; [apply exposed_graph, graph_natives_elem; left; by exists g0, c|].
    destruct (Hc c H2) as [_ Hn]. destruct (Hn x H3) as (v & Hin & ->). specialize (Hv v Hin). apply usable_native in Hv.
    unfold local_natives in Hv. rewrite Hloc in Hv. by rewrite app_nil_r in Hv.
  - apply graph_commands_ok. split; [|done]. intros g c H1 H2. cbn in H1. apply insert_elem in H1 as [H1| ->]; [by apply (K1 g)|].
    rewrite Hr in H2. apply elem_of_app in H2 as [H2|H2]; [by apply (K1 g0)|by apply Hc].
  - intros g c x r H1 H2 H3 H4. cbn in H1. apply insert_elem in H1 as [H1| ->]; [by apply (C2 g c x r)|].
    rewrite Hr in H2. cbn. apply retain_uses_elem. apply elem_of_app in H2 as [H2|H2]; [left; by apply (C2 g0 c x r)|].
    destruct (Hc c H2) as [_ Hn]. destruct (Hn x H3) as (v & Hin & ->). right. exists v. split; [done|].
    by apply (usable_charge watch w v r Hi (Hv v Hin)).
Qed.
Lemma record_prepared_inv i c after views w :
  inv w → Forall (usable w) views → locals (pools w) = [] → cmd_ok c →
  (∀ n, n ∈ c_natives c → ∃ v, v ∈ views ∧ n = native (v_owner v)) → inv (record_node i (Raw.Prepared c) after views w).1.
Proof. intros Hi Hv Hl Hc Hn. apply record_node_inv; [done..|]. by intros x ->%list_elem_of_singleton. Qed.
Lemma record_node_wp i n after views w :
  inv (record_node i n after views w).1 → wp (record_node i n after views) (λ _ w', inv w') w.
Proof. unfold StreamCalls.wp. by destruct (record_node i n after views w) as [w' [a|e]]. Qed.
Lemma validate_after_wp {A} i after (k : M A) (Q : A → World → Prop) w :
  inv w → wp k Q w → wp (let! _ := validate_after i after in k) Q w.
Proof. intros Hi Hk. unfold StreamCalls.wp, bind, validate_after in *. by destruct (let? r := _ in _). Qed.

Lemma graph_fill_inv env i after dst v w :
  inv w → locals (pools w) = [] → owned w dst → inv (graph_fill env i after dst v w).1.
Proof.
  intros Hi Hl (Ho & H0 & H1). eapply (wp_result watch (graph_fill env i after dst v) (λ _ w', inv w')); [done|].
  apply validate_after_wp; [done|]. apply wp_bind, owns_wp; [done|]. case_match; [done|]. apply wp_bind.
  eapply wp_mono; [apply prepare_fill_wp; [done|by apply handle_usable|done]|]. cbn beta. intros c w1 (I1 & P1 & Hlen & He & Hn & Hp).
  apply record_node_wp, record_prepared_inv; [done| |by rewrite (pr_pools _ _ P1)| |].
  - apply Forall_singleton. apply handle_usable. by rewrite (pr_client _ _ P1).
  - intros n. rewrite Hp, Hn. by apply works_touch.
  - intros n. rewrite Hn. intros ->%list_elem_of_singleton. exists dst. split; [by left|done].
Qed.
Lemma graph_copy_inv env i after dst src w :
  inv w → locals (pools w) = [] → owned w dst → owned w src → inv (graph_copy env i after dst src w).1.
Proof.
  intros Hi Hl (Ho & H0 & H1) (So & S0 & S1). eapply (wp_result watch (graph_copy env i after dst src) (λ _ w', inv w')); [done|].
  apply validate_after_wp; [done|]. apply wp_bind, owns_wp; [done|]. apply wp_bind, owns_wp; [done|]. case_match; [done|]. apply wp_bind.
  eapply wp_mono; [apply prepare_copy_wp; [done|by apply handle_usable..|done]|]. cbn beta.
  intros c w1 (I1 & P1 & Hlen & _ & He & Hn & _ & Hp). apply record_node_wp, record_prepared_inv; [done| |by rewrite (pr_pools _ _ P1)| |].
  - repeat constructor; apply handle_usable; by rewrite (pr_client _ _ P1).
  - intros n. rewrite Hp, Hn. by apply works_touch.
  - intros n. rewrite Hn. rewrite elem_of_cons, list_elem_of_singleton. intros [-> | ->]; [exists dst|exists src]; (split; [|done]); [by left|right; by left].
Qed.
Lemma graph_dispatch_inv env i after k g b c views w :
  inv w → locals (pools w) = [] → Forall (owned w) views → inv (graph_dispatch env i after k g b c views w).1.
Proof.
  intros Hi Hl Hv. eapply (wp_result watch (graph_dispatch env i after k g b c views) (λ _ w', inv w')); [done|].
  apply validate_after_wp; [done|]. apply wp_bind, prepare_dispatch_wp; [done|]. intros x Hx.
  apply record_node_wp, record_prepared_inv; [done| |done|by eapply dispatch_cmd_ok|].
  - eapply Forall_impl; [exact Hv|]. intros v (Ho & _). by apply handle_usable.
  - intros n. destruct Hx as (_ & _ & Hx). cbn in Hx. rewrite Hx. apply range_natives.
Qed.
Lemma graph_join_inv i after w : inv w → locals (pools w) = [] → inv (graph_join i after w).1.
Proof.
  intros Hi Hl. eapply (wp_result watch (graph_join i after) (λ _ w', inv w')); [done|]. apply validate_after_wp; [done|].
  apply record_node_wp, record_node_inv; [done|constructor|done|]. by intros c ?%elem_of_nil.
Qed.

Lemma batch_natives ps n : n ∈ c_natives (batch ps) → ∃ c, c ∈ concat ps ∧ n ∈ c_natives c.
Proof. intros (c & H1 & H2)%list_elem_of_bind. by exists c. Qed.
Lemma batch_ok ps : Forall cmd_ok (concat ps) → cmd_ok (batch ps).
Proof.
  intros Hl n. unfold batch. cbn. rewrite app_nil_r. intros (x & Hn & Hx)%list_elem_of_bind.
  apply list_elem_of_bind in Hx as (c & Hx & Hc). apply list_elem_of_bind. exists c. split; [|done].
  rewrite Forall_forall in Hl. apply (Hl c Hc n). apply list_elem_of_bind. by exists x.
Qed.
Lemma batches_elem sizes (l : list (Command * bool)) x :
  Forall cmd_ok l.*1 → x ∈ replay_command <$> batches sizes l → cmd_ok x ∧ ∀ n, n ∈ c_natives x → ∃ c, c ∈ l.*1 ∧ n ∈ c_natives c.
Proof.
  assert (∀ k : list (Command * bool), Forall cmd_ok k.*1 → cmd_ok (batch (phases k)) ∧
    ∀ n, n ∈ c_natives (batch (phases k)) → ∃ c, c ∈ k.*1 ∧ n ∈ c_natives c) as Hb.
  { intros k Hk. split; [apply batch_ok; by rewrite phases_concat|]. intros n. rewrite <-(phases_concat k). apply batch_natives. }
  revert l. induction sizes as [|k sizes IH]; intros l Hl; cbn [batches].
  - destruct l as [|c l]; [by intros ?%elem_of_nil|]. intros ->%list_elem_of_singleton. by apply Hb.
  - cbn [fmap list_fmap replay_command]. intros [->|Hx]%elem_of_cons.
    + destruct (Hb (take k l)) as [H1 H2]; [rewrite fmap_take; by apply Forall_take|]. split; [done|].
      intros n (c & Hc & Hn)%H2. exists c. split; [|done]. rewrite fmap_take in Hc. eapply elem_of_sublist; [exact Hc|apply sublist_take].
    + destruct (IH (drop k l)) as [H1 H2]; [rewrite fmap_drop; by apply Forall_drop|done|]. split; [done|].
      intros n (c & Hc & Hn)%H2. exists c. split; [|done]. rewrite fmap_drop in Hc. eapply elem_of_sublist; [exact Hc|apply sublist_drop].
Qed.

Lemma recording_drop_inv i w : inv w → inv (recording_drop i w).
Proof. intros Hi. apply (fewer_graphs_inv w); try done. intros g. apply delete_elem. Qed.

Lemma finish_graph_inv r i w : inv w → inv (finish_graph r i w).1.
Proof.
  intros Hi. unfold finish_graph. destruct (recordings (client w) !! i) as [g|] eqn:Eg; [|done].
  destruct r as [sizes|e]; cbn [fst]; [|by apply (recording_drop_inv i w)].
  set (l := if _ && _ then _ else _).
  assert (g ∈ recordings (client w)) as Hg by (by eapply list_elem_of_lookup_2). destruct (inv_charged _ _ Hi) as [C1 C2 C3 C4].
  destruct (proj1 (graph_commands_ok _) (cm_graphs _ (inv_commands _ _ Hi))) as [K1 K2].
  assert (∀ x, x ∈ replay_command <$> l → cmd_ok x ∧ ∀ n, n ∈ c_natives x → ∃ c, c ∈ r_commands g ∧ n ∈ c_natives c) as Hl.
  { intros x Hx. unfold l in Hx. rewrite <-finish_commands. destruct (_ && _).
    - apply (batches_elem sizes); [|done]. apply Forall_forall. intros y. rewrite finish_commands. by apply K1.
    - rewrite <-list_fmap_compose in Hx. apply list_elem_of_fmap in Hx as (y & -> & Hy). cbn. split; [|eauto].
      rewrite finish_commands in Hy. by apply (K1 g). }
  clearbody l. apply (graphs_inv w); try done.
  - intros n Hn. apply exposed_graph, graph_natives_elem. apply graph_natives_elem in Hn as [(g' & x & H1 & H2 & H3)|(g' & x & H1 & H2 & H3)].
    + left. exists g', x. split_and!; [|done..]. cbn in H1. by eapply delete_elem.
    + cbn in H1. apply elem_of_cons in H1 as [->|H1]; [|right; eauto 6]. destruct (Hl x H2) as [_ Hx]. destruct (Hx n H3) as (c & Hc & Hn).
      left. eauto 6.
  - apply graph_commands_ok. split.
    + intros g' x H1%delete_elem. by apply K1.
    + intros g' x [->|H1]%elem_of_cons H2; [by apply Hl|by apply (K2 g')].
  - intros e r _ [H|[H|(g' & H1 & H2 & H3)]]; [by left|by right; left|]. right; right. exists g'. split_and!; [by right|done..].
  - intros g' c n r H1%delete_elem. by apply C2.
  - intros g' c n r [->|H1]%elem_of_cons H2 H3 H4; [|by apply (C3 g' c n r)]. destruct (Hl c H2) as [_ Hx]. destruct (Hx n H3) as (c' & Hc & Hn).
    by apply (C2 g c' n r).
  - intros g' k [->|H1]%elem_of_cons H2; [done|by apply (C4 g')].
Qed.

(** *** Replay *)

(** The flags of the graph at [i] change. *)
Lemma set_graph_inv i failed done w g :
  inv w → graphs (client w) !! i = Some g →
  (∀ e r, e ∈ inflight (dev w) → r ∈ g_uses g →
     (g_failed g = true ∨ ∃ k, g_last g = Some k ∧ (e_point e <= k_point k)%nat) →
     failed = true ∨ ∃ k, done = Some k ∧ (e_point e <= k_point k)%nat) →
  (∀ k, done = Some k → (k_point k < published (dev w))%nat ∧
     ∀ e, e ∈ inflight (dev w) → (e_point e <= k_point k)%nat → e_engine e = k_engine k) →
  inv (set_graph i failed done w).
Proof.
  intros Hi Hg Hf Hd. destruct (inv_charged _ _ Hi) as [C1 C2 C3 C4].
  destruct (proj1 (graph_commands_ok _) (cm_graphs _ (inv_commands _ _ Hi))) as [K1 K2].
  assert (g ∈ graphs (client w)) as Hin by (by eapply list_elem_of_lookup_2).
  assert (∀ y, y ∈ graphs (client (set_graph i failed done w)) →
    y ∈ graphs (client w) ∨ y = mkGraph (g_stream g) (g_replays g) done failed (g_uses g)) as Hy.
  { intros y Hy. cbn in Hy. apply alter_elem in Hy as [Hy|(x & Hx & ->)]; [by left|]. rewrite Hg in Hx. injection Hx as <-. by right. }
  apply (graphs_inv w); try done.
  - intros n Hn. apply exposed_graph, graph_natives_elem. apply graph_natives_elem in Hn as [Hn|(g' & x & H1 & H2 & H3)]; [by left|].
    right. destruct (Hy g' H1) as [H| ->]; [by exists g', x|by exists g, x].
  - apply graph_commands_ok. split; [done|]. intros g' x H1 H2. destruct (Hy g' H1) as [H| ->]; [by apply (K2 g')|by apply (K2 g)].
  - intros e r He [H|[H|(g' & H1 & H2 & H3)]]; [by left|by right; left|]. right; right.
    apply list_elem_of_lookup_1 in H1 as [j Hj]. destruct (decide (j = i)) as [->|Hne].
    + rewrite Hg in Hj. injection Hj as <-. exists (mkGraph (g_stream g) (g_replays g) done failed (g_uses g)). split_and!; [|done|by eapply Hf].
      cbn. apply (list_elem_of_lookup_2 _ i). by rewrite list_lookup_alter_eq, Hg.
    + exists g'. split_and!; [|done..]. cbn. apply (list_elem_of_lookup_2 _ j). by rewrite list_lookup_alter_ne.
  - intros g' c n r H1 H2. destruct (Hy g' H1) as [H| ->]; [by apply (C3 g' c n r)|by apply (C3 g c n r)].
  - intros g' k H1 H2. destruct (Hy g' H1) as [H| ->]; [by apply (C4 g')|]. by apply Hd.
Qed.

Lemma submit_all_wp envs orders i l w :
  inv w → Forall (submittable watch w) (imap (λ k r, chosen (orders (i + k)%nat) r) l) →
  wp (submit_all envs orders i l)
    (λ _ w', inv w' ∧ ran w w' ∧
             settled w' = foldl (apply (effect (config w))) (settled w) (works_all (imap (λ k r, chosen (orders (i + k)%nat) r) l))) w.
Proof.
  revert i w. induction l as [|c l IH]; intros i w Hi Hs; [done|]. rewrite imap_cons in Hs |- *.
  rewrite Nat.add_0_r in Hs |- *. inversion_clear Hs as [|? ? Hc Hl]. cbn [submit_all].
  assert (imap ((λ k r, chosen (orders (i + k)%nat) r) ∘ S) l = imap (λ k r, chosen (orders (S i + k)%nat) r) l) as El.
  { apply imap_ext. intros k r _. cbn. by rewrite Nat.add_succ_r. }
  rewrite El in Hl |- *. apply wp_bind. eapply wp_mono; [by apply submit_wp|]. cbn beta. intros _ w1 (H1 & R1 & E1).
  eapply wp_mono; [apply IH; [done|]|].
  - eapply Forall_impl; [exact Hl|]. intros x. by apply ran_submittable.
  - cbn beta. intros _ w2 (H2 & R2 & E2). split_and!; [done|by etrans|]. unfold works_all. cbn [mbind list_bind]. unfold command_works at 1.
    rewrite foldl_app, <-E1, E2. by rewrite (ran_config _ _ R1).
Qed.

(** What the application can name: its handles and the commands it recorded. *)
Definition names (c : Client) : list Buffer * list Recording * list (list Replay) :=
  (handles c, recordings c, g_replays <$> graphs c).
Lemma set_graph_names i failed done w : names (client (set_graph i failed done w)) = names (client w).
Proof.
  unfold names. cbn. f_equal. generalize (graphs (client w)). intros l. revert i.
  induction l as [|g l IH]; intros [|i]; cbn; [done..|]. f_equal. apply IH.
Qed.
Lemma launch_wp envs orders i g w :
  inv w → graphs (client w) !! i = Some g → admissible (effect (config w)) orders (g_replays g) →
  wp (launch envs orders i)
    (λ _ w', inv w' ∧ config w' = config w ∧ pools w' = pools w ∧ names (client w') = names (client w) ∧
       settled w' = foldl (apply (effect (config w))) (settled w) (works_all (launched orders (g_replays g)))) w.
Proof.
  intros Hi Hg Ha. unfold StreamCalls.wp, launch. rewrite Hg. destruct (negb _); [done|]. destruct (g_failed g); [done|].
  match goal with |- match ?prog w with _ => _ end => change (wp prog (λ _ w', inv w' ∧ config w' = config w ∧ pools w' = pools w ∧ names (client w') = names (client w) ∧
       settled w' = foldl (apply (effect (config w))) (settled w) (works_all (launched orders (g_replays g)))) w) end.
  assert (g ∈ graphs (client w)) as Hin by (by eapply list_elem_of_lookup_2).
  destruct (inv_charged _ _ Hi) as [C1 C2 C3 C4]. destruct (proj1 (graph_commands_ok _) (cm_graphs _ (inv_commands _ _ Hi))) as [K1 K2].
  apply wp_bind, wp_modify. set (w1 := set_graph i true (g_last g) w).
  assert (inv w1) as H1.
  { apply (set_graph_inv i true (g_last g) w g); [done|done|by left|]. intros k Hk. by apply (C4 g k). }
  set (g1 := mkGraph (g_stream g) (g_replays g) (g_last g) true (g_uses g)).
  assert (graphs (client w1) !! i = Some g1) as Hg1 by (cbn; by rewrite list_lookup_alter_eq, Hg).
  assert (g1 ∈ graphs (client w1)) as Hin1 by (by eapply list_elem_of_lookup_2).
  apply wp_bind. eapply wp_mono; [apply submit_all_wp; [done|]|].
  - apply Forall_lookup. intros k c Hc. rewrite list_lookup_imap in Hc. apply fmap_Some in Hc as (r & Hr & ->). cbn [Nat.add].
    assert (replay_command r ∈ g_commands g) as Hrc by (apply list_elem_of_fmap_2; by eapply list_elem_of_lookup_2).
    assert (c_natives (chosen (orders k) r) = c_natives (replay_command r)) as En by (by destruct r).
    constructor.
    + intros n Hn. rewrite En. apply (K2 g _ Hin Hrc). apply (chosen_touches (effect (config w)) (orders k)); [|exact Hn].
      destruct r as [x|ps]; [done|]. by apply Ha.
    + intros n. rewrite En. intros Hn. apply elem_of_app. left. apply exposed_graph, graph_natives_elem. right. by exists g1, (replay_command r).
    + intros n q. rewrite En. intros Hn _ Hch. right; right. exists g1. split_and!; [done| |done]. by apply (C3 g (replay_command r) n q).
  - cbn beta. intros _ w2 (H2 & R2 & E2). apply wp_bind, wp_gets, wp_modify.
    assert (graphs (client w2) !! i = Some g1) as Hg2 by (by rewrite (ran_client _ _ R2)).
    destruct (inv_time _ _ H2) as [_ _ Tl]. split_and!.
    + apply (set_graph_inv i false (latest (dev w2)) w2 g1); [done|done| |].
      * intros e r He _ _. right. destruct (latest (dev w2)) as [k|]; [|rewrite Tl in He; by apply elem_of_nil in He].
        exists k. split; [done|]. destruct Tl as (_ & Hc & _). by destruct (Hc e He).
      * intros k Hk. rewrite Hk in Tl. destruct Tl as (T1 & T2 & _). split; [done|]. intros e He _. by destruct (T2 e He).
    + cbn. by rewrite (ran_config _ _ R2).
    + cbn. by rewrite (ran_pools _ _ R2).
    + rewrite set_graph_names, (ran_client _ _ R2). apply set_graph_names.
    + etrans; [|exact E2]. done.
Qed.
Lemma launch_inv envs orders i w :
  inv w → (∀ g, graphs (client w) !! i = Some g → admissible (effect (config w)) orders (g_replays g)) →
  inv (launch envs orders i w).1.
Proof.
  intros Hi Ha. destruct (graphs (client w) !! i) as [g|] eqn:Eg.
  - eapply (wp_result watch); [|apply (launch_wp envs orders i g); [done|done|by apply Ha]]. by intros a w' (? & _).
  - unfold launch. by rewrite Eg.
Qed.

Lemma graph_drop_inv env i w : inv w → inv (graph_drop env i w).
Proof.
  intros Hi. unfold graph_drop. destruct (graphs (client w) !! i) as [g|] eqn:Eg; [|done].
  assert (∀ y, y ∈ graphs (client w) → y = g ∨ y ∈ delete i (graphs (client w))) as Hd.
  { intros y Hy. by apply (elem_of_delete_cons _ _ _ _ Eg). }
  assert (inv (set_graphs (recordings (client w)) (delete i (graphs (client w)))
                 (set_leaked (g_uses g ++ leaked (client w)) (dropped (client w)) w))) as Hleak.
  { apply (fewer_graphs_inv w); [done|done|intros y; apply delete_elem|].
    intros e r He [H|[H|(y & H1 & H2 & H3)]]; [by left|right; left; cbn; mem|].
    destruct (Hd y H1) as [->|Hy]; [right; left; cbn; mem|right; right; eauto]. }
  destruct (g_failed g) eqn:Ef; [done|]. destruct (g_last g) as [k|] eqn:El.
  - destruct (outcome env CWait); [|done]. pose proof (run_until_inv watch k w Hi) as Hk.
    apply (fewer_graphs_inv (run_until k w)); [done|done|intros y; apply delete_elem|].
    intros e r He [H|[H|(y & H1 & H2 & H3)]]; [by left|by right; left|]. destruct (Hd y H1) as [->|Hy]; [exfalso|right; right; eauto].
    destruct H3 as [H3|(k' & Hk' & Hp)]; [congruence|]. rewrite El in Hk'. injection Hk' as <-. cbn in He.
    apply list_elem_of_filter in He as [Hn He]. apply Hn. split; [|done].
    apply (ch_last _ _ (inv_charged _ _ Hi) g k); [by eapply list_elem_of_lookup_2|done..].
  - apply (fewer_graphs_inv w); [done|done|intros y; apply delete_elem|].
    intros e r He [H|[H|(y & H1 & H2 & H3)]]; [by left|by right; left|]. destruct (Hd y H1) as [->|Hy]; [exfalso|right; right; eauto].
    destruct H3 as [H3|(k' & Hk' & Hp)]; congruence.
Qed.

(** ** Drops *)

Lemma stream_drop_inv env w : inv w → inv (stream_drop env w).
Proof.
  intros Hi. unfold stream_drop. pose proof (inner_wait_wp watch (outcome env CWait) w Hi) as Hw. unfold StreamCalls.wp in Hw.
  destruct (inner_wait (outcome env CWait) w) as [w1 r]. assert (inv w1) as H1 by (destruct r; [apply Hw|done]).
  assert (r = Ok tt → inflight (dev w1) = []) as Hd by (intros ->; apply Hw).
  set (p := pools w1). set (lost := match r with Ok _ => [] | Err _ => uses p ++ omap reservation (staging p) end).
  set (gone := (match r with Ok _ => staging p | Err _ => [] end) ++ staging_pool p ++ scratch_buffers (scratch p)).
  set (w2 := set_client (mkClient (handles (client w1)) (readbacks (client w1)) (recordings (client w1)) (graphs (client w1))
                           (lost ++ leaked (client w1)) true) w1).
  assert (inv w2) as H2.
  { apply (fewer_graphs_inv w1); [done..|]. intros e x He [H|[H|H]]; [by left|right; left; cbn; mem|by right; right]. }
  assert (inv (set_uses [] w2)) as H3.
  { destruct r as [[]|e]; [apply set_uses_inv; [done|right; by apply Hd]|].
    destruct H2 as [Ht [L1 L2 L3 L4 L5 L6] [Q1 Q2 Q3 Q4] [C1 C2 C3 C4] Hwt]. constructor; try done. constructor; try done.
    intros x n c Hx Hn Hx0 Hch. destruct (C1 x n c Hx Hn Hx0 Hch) as [H|[H|H]]; [|by right; left|by right; right].
    right; left. cbn in H |- *. unfold lost. mem. }
  apply drop_buffers_inv.
  - apply (leave_inv watch (set_uses [] w2) _ ((native <$> staging p) ++ (native <$> staging_pool p))); try done.
    + unfold hidden, local_natives, pool_natives, rb_natives. cbn. solve_Permutation.
    + intros n. unfold exposed, graph_natives. cbn. mem.
    + intros b. unfold buffers. cbn. mem.
    + intros n. unfold pool_natives. cbn. by intros ?%elem_of_nil.
  - apply Forall_forall. intros b Hb. apply (loose_buffer watch w1 b H1). unfold buffers. unfold gone in Hb. subst p. destruct r; mem.
Qed.

(** ** Allocating calls *)

Lemma give_allocated_wp n data b w0 w (Q : Buffer → World → Prop) :
  allocated w0 n data b w →
  (∀ w', inv w' → config w' = config w0 → client w' = client (set_handles (b :: handles (client w0)) w0) →
     locals (pools w') = [] → seen w0 (settled w') (settled w0) → holds (settled w') (native b) data →
     native b ∉ visible (client w0) → bytes b = Z.max n 1 → Q b w') →
  wp (give b) (λ a w', Q a (drop_locals w')) w.
Proof.
  intros [A1 A2 A3 A4 A5 A6 A7 A8 _] HQ. apply wp_bind, wp_modify, wp_bind, wp_modify, wp_ret.
  set (w1 := set_handles _ _). destruct (drop_locals_frame w1) as (E1 & E2 & E3 & E4 & E5). apply HQ; try done.
  - apply drop_locals_inv. by apply (give_inv watch b w).
  - by rewrite E1.
  - rewrite E3. cbn. by rewrite A3.
  - rewrite E4. exact A7.
  - rewrite E4. exact A8.
  - intros Hv. apply (ly_apart _ (inv_layout _ _ A1) (native b)); [by apply local_hidden|]. apply visible_exposed. by rewrite A3.
Qed.

Definition given (w : World) (n : Z) (data : option (list Z)) (b : Buffer) (w' : World) : Prop :=
  inv w' ∧ config w' = config w ∧ client w' = client (set_handles (b :: handles (client w)) w) ∧ locals (pools w') = [] ∧
  seen w (settled w') (settled w) ∧ holds (settled w') (native b) data ∧ native b ∉ visible (client w) ∧ bytes b = Z.max n 1.
Lemma allocate_wp env n w : inv w → wp (allocate env n) (given w n None) w.
Proof.
  intros Hi. apply wp_call, wp_bind. eapply wp_mono; [apply allocate_initialized_wp; [done|lia]|]. intros b w1 H1.
  apply (give_allocated_wp _ None b w _ _ H1). intros w' I1 I2 I3 I4 I5 I6 I7 I8. unfold given. split_and!; try done; lia.
Qed.
Lemma allocate_from_wp env env' l w : inv w → wp (allocate_from env env' l) (given w (Z.of_nat (length l)) (Some l)) w.
Proof.
  intros Hi. destruct l as [|x l]; [done|]. unfold allocate_from. assert (1 <= Z.of_nat (length (x :: l))) as Hlen by (cbn; lia). set (k := x :: l) in *. clearbody k.
  apply wp_call, wp_bind. eapply wp_mono; [apply allocate_initialized_wp; [done|lia]|]. intros b w1 H1.
  apply (give_allocated_wp _ (Some k) b w _ _ H1). intros w' I1 I2 I3 I4 I5 I6 I7 I8. unfold given. split_and!; try done; lia.
Qed.
Lemma shared_wp env n w : inv w → wp (shared env n) (given w n None) w.
Proof.
  intros Hi. apply wp_call, wp_bind. eapply wp_mono; [by apply allocate_shared_wp|]. cbn beta. intros b w1 H1.
  apply (give_allocated_wp _ None b w _ _ H1). intros w' I1 I2 I3 I4 I5 I6 I7 I8. unfold given. split_and!; try done; lia.
Qed.

(** The zero fill of a device-local allocation.  Its reservation is not among
    the stream's uses, so a charged fill is followed to the end of its wait. *)
Lemma native_fill_wp env dst value w :
  inv w → 0 <= v_length dst →
  wp (native_fill env None dst value)
    (λ c w', w' = w ∧ 0 < v_length dst ∧ c_engine c = 0%nat ∧ c_natives c = [native (v_owner dst)] ∧ cmd_ok c ∧
       (∃ part, c_parts c = [part]) ∧
       ∀ f m, meq (foldl (apply f) m (concat (c_parts c)))
                (apply f m (Fill (native (v_owner dst)) (v_offset dst) (v_length dst) value))) w.
Proof.
  intros Hi Hl. unfold StreamCalls.wp, native_fill.
  destruct (Sdma.transfer_range _ _ _) as [[]|] eqn:Er; [|done]. cbn [result_bind].
  destruct (outcome env CPrepare); [|done]. cbn [result_bind]. apply transfer_range_nonzero in Er. split_and!; [done|lia|done|done| |by eexists|].
  - intros n. cbn [c_parts c_natives]. by apply works_touch.
  - intros f m. cbn [c_parts]. apply fill_command; [done|lia].
Qed.

Lemma set_uses_submit env c l w :
  c_engine c = 0%nat →
  submit env c (set_uses l w) = (set_uses l (submit env c w).1, (submit env c w).2).
Proof.
  intros He. unfold submit, bind, fence, wait_for, bind, lift, modify. rewrite He. cbn [dev set_uses set_pools].
  assert (∀ parts i w, submit_parts env c i parts (set_uses l w) =
    (set_uses l (submit_parts env c i parts w).1, (submit_parts env c i parts w).2)) as Hp.
  { induction parts as [|p parts IH]; intros i u; [done|]. cbn [submit_parts]. unfold bind, lift, modify.
    destruct (outcome env (CPart i)); [|done]. apply (IH (S i) (publish c p u)). }
  destruct (latest (dev w)) as [k|]; [|apply Hp]. destruct (_ =? _)%nat; [apply Hp|]. destruct (outcome env CFence); [|done].
  apply (Hp _ _ (run_until k w)).
Qed.

(** Calls that leave a part of the world alone. *)
Definition leaves {A B} (f : World → B) (m : M A) : Prop := ∀ w, f (m w).1 = f w.
Lemma leaves_bind {A B C} (f : World → C) (m : M A) (k : A → M B) :
  leaves f m → (∀ a, leaves f (k a)) → leaves f (bind m k).
Proof. intros Hm Hk w. unfold bind. specialize (Hm w). destruct (m w) as [w' [a|e]]; [|done]. by rewrite (Hk a w'). Qed.
Lemma leaves_modify {B} (f : World → B) g : (∀ w, f (g w) = f w) → leaves f (modify g).
Proof. intros H w. apply H. Qed.
Lemma leaves_if {A B} (f : World → B) (b : bool) (m m' : M A) : leaves f m → leaves f m' → leaves f (if b then m else m').
Proof. by destruct b. Qed.

Section Pools.
Context {B : Type} (f : Pools → B).
Let h (w : World) : B := f (pools w).

Lemma leaves_wait r k : leaves h (wait_for r k).
Proof. by apply leaves_bind; [|intros []; apply leaves_modify]. Qed.
Lemma leaves_inner_wait r : leaves h (inner_wait r).
Proof. intros w. unfold inner_wait. case_match; [|done]. apply leaves_wait. Qed.
Lemma leaves_submit env c : leaves h (submit env c).
Proof.
  apply leaves_bind.
  - intros w. unfold fence. repeat case_match; try done. apply leaves_wait.
  - intros _. apply leaves_if.
    + case_match; [by apply leaves_modify|]. case_match; try done. apply leaves_bind; [apply leaves_inner_wait|]. intros _.
      apply leaves_bind; [done|]. intros _. by apply leaves_modify.
    + generalize 0%nat. induction (c_parts c) as [|p parts IH]; intros i; [done|]. cbn [submit_parts]. apply leaves_bind; [done|].
      intros _. apply leaves_bind; [by apply leaves_modify|]. intros _. apply IH.
Qed.
End Pools.

Lemma submit_single_fails env c part w w' e :
  c_engine c = 0%nat → c_parts c = [part] → submit env c w = (w', Err e) → w' = w ∨ ∃ k, w' = run_until k w.
Proof.
  intros He Hp. unfold submit, bind at 1, fence. rewrite He, Hp. cbn [Nat.eqb]. cbn [submit_parts]. unfold bind, lift, modify.
  destruct (latest (dev w)) as [k|].
  - destruct (_ =? _)%nat.
    + destruct (outcome env (CPart 0)); intros [= <- <-]; by left.
    + unfold wait_for, bind, lift, modify. destruct (outcome env CFence); [|intros [= <- <-]; by left].
      destruct (outcome env (CPart 0)); intros [= <- <-]. right. by exists k.
  - destruct (outcome env (CPart 0)); intros [= <- <-]; by left.
Qed.

Lemma fill_now_wp env dst value w :
  inv w → usable w dst → 0 <= v_length dst →
  reservation (v_owner dst) = None ∨ outcome env CWait = Ok tt ∨ native (v_owner dst) ∈ watch.2 →
  wp (fill_now env dst value)
    (λ _ w', inv w' ∧ config w' = config w ∧ client w' = client w ∧ locals (pools w') = locals (pools w) ∧
       meq (settled w') (apply (effect (config w)) (settled w)
                           (Fill (native (v_owner dst)) (v_offset dst) (v_length dst) value))) w.
Proof.
  intros Hi Hu Hl Hr. apply wp_bind. eapply wp_mono; [by apply native_fill_wp|]. cbn beta.
  intros c ? (-> & Hlen & He & Hn & Hok & [part Hp] & Hm).
  set (old := uses (pools w)). set (l := foldl retain_use old [dst]).
  assert (∀ x u, x = uses (pools u) → u = set_uses x u) as Eta by (intros x [? ? ? [] ?] ->; done).
  assert (inv (set_uses l w)) as Hl1 by (by apply (retain_inv watch [dst] w)).
  assert (submittable watch (set_uses l w) c) as Hs.
  { apply (views_submittable watch (set_uses l w) [dst]); [done|by apply Forall_singleton|done| |].
    - intros n. rewrite Hn. intros ->%list_elem_of_singleton. exists dst. split; [by left|done].
    - intros v r ->%list_elem_of_singleton Hrv. cbn. apply retain_use_elem. by right. }
  pose proof (submit_wp watch env c (set_uses l w) Hl1 Hs) as Hsub. unfold StreamCalls.wp in Hsub. rewrite (set_uses_submit env c l w He) in Hsub.
  pose proof (leaves_submit uses env c w) as Hus. apply wp_bind. unfold StreamCalls.wp at 1.
  destruct (submit env c w) as [w1 [[]|e]] eqn:E1; cbn [fst snd] in Hsub, Hus.
  2:{ destruct (submit_single_fails _ _ _ _ _ _ He Hp E1) as [->|[k ->]]; [done|by apply run_until_inv]. }
  destruct Hsub as (H1 & [R1 R2 R3 R4 R5] & S1).
  pose proof (inner_wait_wp watch (outcome env CWait) _ H1) as Hw. pose proof (leaves_inner_wait uses (outcome env CWait) w1) as Huw.
  assert (inner_wait (outcome env CWait) (set_uses l w1) =
    (set_uses l (inner_wait (outcome env CWait) w1).1, (inner_wait (outcome env CWait) w1).2)) as Ecomm.
  { unfold inner_wait, wait_for, bind, lift, modify. cbn [dev set_uses set_pools]. destruct (latest (dev w1)); [|done].
    by destruct (outcome env CWait). }
  unfold StreamCalls.wp in Hw. rewrite Ecomm in Hw. unfold StreamCalls.wp.
  destruct (inner_wait (outcome env CWait) w1) as [w2 [[]|e]] eqn:E2; cbn [fst snd] in Hw, Huw.
  - destruct Hw as (H2 & [Q1 Q2 Q3 Q4 Q5] & S2 & D2). assert (inv w2) as H2'.
    { rewrite (Eta old w2) by (unfold old; cbn in Hus, Huw; by rewrite Huw, Hus). change (set_uses old w2) with (set_uses old (set_uses l w2)). apply set_uses_inv; [done|by right]. }
    split_and!; [done|cbn in *; congruence|cbn in *; congruence|cbn in *; congruence|].
    change (settled w2) with (settled (set_uses l w2)). rewrite S2, S1. apply Hm.
  - destruct Hr as [Hr|[Hr|Hr]].
    + assert (l = old) as El by (unfold l; cbn; unfold retain_use; by rewrite Hr). rewrite El in Hw.
      assert (w2 = w1) as ->.
      { unfold inner_wait, wait_for, bind, lift, modify in E2. destruct (latest (dev w1)); [|congruence]. destruct (outcome env CWait); congruence. }
      rewrite (Eta old w1) by (unfold old; by rewrite Hus). done.
    + exfalso. unfold inner_wait, wait_for, bind, lift, modify in E2. rewrite Hr in E2. by destruct (latest (dev w1)).
    + assert (submittable watch w c) as Hs'.
      { destruct Hs as [X1 X2 X3]. constructor; [done|exact X2|]. intros n r. rewrite Hn. intros ->%list_elem_of_singleton. by intros []. }
      assert (inv w1) as H1' by apply (wp_ok watch _ _ _ _ _ (submit_wp watch env c w Hi Hs') E1).
      pose proof (inner_wait_wp watch (outcome env CWait) w1 H1') as Hw'. unfold StreamCalls.wp in Hw'. by rewrite E2 in Hw'.
Qed.

(** Charged backing is never reused. *)
Lemma allocate_initialized_fresh env env' n w w1 b :
  budgeted (config w) = true → allocate_initialized env env' n None w = (w1, Ok b) → native b = length (natives (dev w)).
Proof.
  intros Hb. unfold allocate_initialized, bind at 1, gets at 1. destruct (sdma (config w)) as [limit|].
  - unfold bind at 1, allocate_shared, allocate_staging, bind at 1, reserve. rewrite Hb. destruct (outcome env CReserve); [|done].
    unfold bind at 1, new_native, bind at 1, lift. destruct (outcome env CAllocate); [|done]. cbn. by intros [= _ <-].
  - unfold bind at 1, reserve. rewrite Hb. destruct (outcome env CReserve); [|done]. unfold bind at 1, ret at 1.
    unfold bind at 1, bind at 1, new_native, bind at 1, lift. destruct (outcome env CAllocate); [|done]. cbn.
    destruct (device_local (config w)); cbn; by intros [= _ <-].
Qed.
Lemma allocate_zeroed_wp env env' n w :
  inv w → (budgeted (config w) = true → outcome env' CWait = Ok tt ∨ length (natives (dev w)) ∈ watch.2) →
  wp (allocate_zeroed env env' n)
    (λ b w', given w n None b w' ∧ ∀ a, 0 <= a < bytes b → settled w' (native b) a = 0) w.
Proof.
  intros Hi Hb. apply wp_call, wp_bind.
  assert (wp (allocate_initialized env env (Z.max n 1) None)
    (λ b w', allocated w (Z.max n 1) None b w' ∧ (budgeted (config w) = true → native b = length (natives (dev w)))) w) as Halloc.
  { pose proof (allocate_initialized_wp env env (Z.max n 1) None w Hi ltac:(lia)) as H. unfold StreamCalls.wp in H |- *.
    destruct (allocate_initialized env env (Z.max n 1) None w) as [w1 [b|e]] eqn:E; [|done]. split; [done|]. intros Hbud.
    by eapply allocate_initialized_fresh. }
  eapply wp_mono; [exact Halloc|]. intros b w1 [H1 Hfresh].
  assert (reservation b = None ∨ outcome env' CWait = Ok tt ∨ native b ∈ watch.2) as Hr.
  { destruct (budgeted (config w)) eqn:E; [right|left; by apply (al_charge _ _ _ _ _ H1)].
    destruct (Hb eq_refl) as [?|Hlost]; [by left|right]. by rewrite (Hfresh eq_refl). }
  destruct H1 as [A1 A2 A3 A4 A5 A6 A7 A8 A9]. specialize (A9 eq_refl). apply wp_bind, wp_gets, wp_bind.
  assert (native b ∉ visible (client w)) as Hvis.
  { intros Hv. apply (ly_apart _ (inv_layout _ _ A1) (native b)); [by apply local_hidden|]. apply visible_exposed. by rewrite A3. }
  assert (∀ w2, inv w2 → config w2 = config w1 → client w2 = client w1 → b ∈ locals (pools w2) →
    meq (settled w2) (apply (effect (config w1)) (settled w1) (Fill (native b) 0 (bytes b) 0)) →
    wp (give b) (λ a w', (given w n None a (drop_locals w') ∧ ∀ x, 0 <= x < bytes a → settled (drop_locals w') (native a) x = 0)) w2) as Hend.
  { intros w2 H2 C2 K2 L2 S2. assert (seen w (settled w2) (settled w)) as Hal.
    { intros x a Hx. rewrite (S2 x a). cbn [apply]. rewrite (proj2 (Nat.eqb_neq x (native b))) by (by intros ->). by apply A7. }
    apply wp_bind, wp_modify, wp_bind, wp_modify, wp_ret. set (w3 := set_handles _ _).
    destruct (drop_locals_frame w3) as (E1 & E2 & E3 & E4 & E5). split.
    - unfold given. rewrite E1, E3, E4. split_and!; try done.
      + apply drop_locals_inv. by apply (give_inv watch b w2).
      + cbn. congruence.
      + cbn. by rewrite K2, A3.
      + lia.
    - intros x Hx. rewrite E4. change (settled w3) with (settled w2). rewrite (S2 (native b) x). cbn [apply]. rewrite Nat.eqb_refl.
      unfold in_range. by replace ((0 <=? x) && (x <? 0 + bytes b)) with true by lia. }
  match goal with |- context [if ?x then _ else _] => destruct x end.
  - apply wp_bind, wp_lift; [done|]. intros v (-> & _)%stream_slice_Ok. cbn [binding v_owner v_offset].
    eapply wp_mono; [apply fill_now_wp; [done|unfold usable; cbn; mem|cbn [v_length]; lia|done]|]. cbn beta. cbn [v_owner v_offset v_length].
    intros _ w2 (H2 & C2 & K2 & L2 & S2). apply Hend; try done. by rewrite L2.
  - apply wp_bind, wp_lift; [done|]. intros _ _. apply wp_modify.
    pose proof (local_apart watch w1 b A1 A4) as Hap. set (u := λ (c : Z → Z) a, if in_range 0 (bytes b) a then 0 else c a).
    set (m := apply _ _ _). assert (meq m (update_at (memory (dev w1)) (native b) u)) as Hm.
    { intros x a. unfold m, update_at, patch, u. cbn [apply]. destruct (Nat.eqb_spec x (native b)) as [->|]; [|done]. cbn [andb]. done. }
    assert (Proper (pointwise_relation Z eq ==> pointwise_relation Z eq) u) as Hu.
    { intros c c' Hc a. unfold u. by rewrite (Hc a). }
    apply Hend; try done.
    + apply (host_inv watch w1 (native b) u); try done. mem.
    + intros x a. rewrite (host_settled watch w1 (native b) u m A1 A9 Hu Hm x a). unfold update_at, patch, u. cbn [apply].
      by destruct (Nat.eqb_spec x (native b)) as [->|].
Qed.
End Ops.
End StreamOperations.
