(* ===== verification/StreamTheorems.v ===== *)
(** * Streams: theorems

    Every move keeps the invariant, and what follows for every reachable stream:
    its operations have their sequential meaning on the settled memory, readbacks
    return what their source held when they were queued, engines never overlap,
    reservations outlive the work that uses them, but for zero fills whose wait
    failed, and pooled backing is unreferenced. *)

From S2P Require Import Prelude Access BTreeMap Sdma RawGraph Stream StreamMemory StreamOverlap StreamInvariant StreamCalls StreamOperations.
Import Stream StreamMemory StreamOverlap StreamInvariant StreamCalls StreamOperations.
Local Open Scope Z_scope.

Module StreamTheorems.
Local Arguments scratch_buffers : simpl never.
Local Arguments cached_natives : simpl never.

Section Moves.
Context (watch : Watch).
Local Notation inv := (inv watch).
Local Notation wp := (wp watch).

(** ** Events *)

Lemma event_wait_wp env ev w : inv w → wp (event_wait env ev) (λ _ w', inv w' ∧ settled w' = settled w) w.
Proof.
  intros Hi. apply wp_bind, wp_gets. destruct (ev_done ev) as [k|]; [|by apply wp_ret]. case_match.
  - eapply wp_mono; [by apply wait_for_wp|]. by intros a w' (? & _ & ? & _).
  - by apply wp_lift.
Qed.
Lemma barrier_submittable w n : submittable watch w (mkCommand 0 [[]] [] n).
Proof. constructor; cbn; intros ?; [done|by intros ?%elem_of_nil|by intros ? ?%elem_of_nil]. Qed.
Lemma wait_event_wp env ev w : inv w → wp (wait_event env ev) (λ _ w', inv w' ∧ settled w' = settled w) w.
Proof.
  intros Hi. apply wp_bind, wp_gets. destruct (negb _); [done|]. destruct (ev_done ev) as [k|]; [|by apply wp_ret].
  case_match; [|by apply event_wait_wp]. apply wp_bind, wp_lift; [done|]. intros _ _.
  eapply wp_mono; [apply submit_wp; [done|apply barrier_submittable]|]. cbn beta. by intros a w' (? & _ & ?).
Qed.

(** The latest entry has executed only when everything has. *)
Lemma latest_done d k :
  timeline d → latest d = Some k → forallb (λ e, negb (e_point e =? k_point k)%nat) (inflight d) = true → inflight d = [].
Proof.
  intros [_ _ Hl] E Hf. rewrite E in Hl. destruct Hl as (_ & _ & Hl). destruct (inflight d) as [|e l]; [done|]. exfalso.
  destruct Hl as (x & Hx & Hp); [done|]. rewrite forallb_forall in Hf. specialize (Hf x). rewrite <-list_elem_of_In in Hf.
  specialize (Hf Hx). rewrite Hp, Nat.eqb_refl in Hf. done.
Qed.
Lemma submission_wp env w :
  inv w → wp (submission_is_complete env) (λ b w', inv w' ∧ settled w' = settled w ∧ (b = true → inflight (dev w') = [])) w.
Proof.
  intros Hi. apply wp_bind, wp_gets, wp_bind, wp_bind, wp_gets. cbn [ev_done ev_stream]. rewrite Nat.eqb_refl.
  pose proof (tl_latest _ (inv_time _ _ Hi)) as Hl.
  assert (∀ b : bool, (b = true → inflight (dev w) = []) →
    wp (if b then let! _ := modify reclaim_staging in let! _ := modify (set_uses []) in ret true else ret false)
       (λ b w', inv w' ∧ settled w' = settled w ∧ (b = true → inflight (dev w') = [])) w) as Hend.
  { intros [] Hb; [|by apply wp_ret]. apply wp_bind, wp_modify, wp_bind, wp_modify, wp_ret.
    by destruct (reclaimed watch w Hi (Hb eq_refl)) as [? ? ? ? ? ? ?]. }
  destruct (latest (dev w)) as [k|] eqn:E; [|by apply wp_ret, (Hend true)].
  apply wp_bind, wp_lift; [done|]. intros _ _. apply wp_gets. exact (Hend _ (latest_done _ _ (inv_time _ _ Hi) E)).
Qed.

(** ** Handles *)

Lemma storage_buffer_wp r b w :
  inv w → b ∈ handles (client w) → charge_of w (native b) = None →
  wp (storage_buffer r (native b)) (λ _ w', inv w' ∧ settled w' = settled w) w.
Proof.
  intros Hi Hb Hc. apply wp_bind, wp_lift; [done|]. intros _ _. apply wp_bind, wp_gets, wp_bind, wp_gets, wp_bind, wp_modify, wp_ret.
  assert (b ∈ buffers w) as Hbb by (unfold buffers; mem). split; [|done]. apply push_handle_inv; [done| |].
  - split; [exact (known_buffer watch w b Hi Hbb)|]. exact (eq_sym Hc).
  - cbn. intros Hh. apply (ly_apart _ (inv_layout _ _ Hi) _ Hh), visible_exposed, elem_of_app. left. by apply list_elem_of_fmap_2.
Qed.
Lemma import_wp n other hid w : inv w → wp (import n other hid) (λ _ w', inv w') w.
Proof.
  intros Hi. apply wp_bind, new_native_wp; [done|]. intros w' E H' [Hk Hf] _ Hc. apply wp_bind, wp_gets, wp_bind, wp_modify, wp_ret.
  apply push_handle_inv; [done|split; [done|by cbn; rewrite Hc]|]. cbn. mem.
Qed.
Lemma get_scratch_inv env n w : inv w → inv (get_scratch env n w).1.
Proof.
  intros Hi. unfold get_scratch. destruct (take_scratch n w) as [[b w']|] eqn:E; [by eapply take_scratch_inv|].
  eapply (wp_result watch); [|by apply allocate_wp]. by intros a w' (? & _).
Qed.
Lemma recycle_inv i w : inv w → inv (recycle i w).1.
Proof.
  intros Hi. unfold recycle. destruct (handles (client w) !! i) as [b|] eqn:E; [|done]. case_match; [by apply drop_stream_handle_inv|].
  case_match; [by apply keep_scratch_inv|by apply drop_stream_handle_inv].
Qed.

(** ** Between calls nothing is owned by a call *)

Local Notation idle := (λ w, locals (pools w) : list Buffer).
Lemma call_idle {A} (m : M A) w : locals (pools (call m w).1) = [].
Proof. unfold call. destruct (m w) as [w' r]. cbn. apply drop_locals_frame. Qed.
Lemma drop_handle_locals i w : locals (pools (drop_handle i w)) = locals (pools w).
Proof. unfold drop_handle. case_match; [|done]. by destruct (drop_buffer_frame b (without_handle i w)) as (_ & _ & -> & _). Qed.
Lemma leaves_gets {A B} (f : World → B) (g : World → A) : leaves f (gets g).
Proof. done. Qed.
Lemma leaves_lift {A B} (f : World → B) (r : Result A) : leaves f (lift r).
Proof. done. Qed.
Lemma leaves_ret {A B} (f : World → B) (a : A) : leaves f (ret a).
Proof. done. Qed.
Lemma leaves_fail {A B} (f : World → B) e : leaves f (@fail A e).
Proof. done. Qed.
Create HintDb idle.
Ltac keep :=
  repeat first
    [ solve [auto with idle nocore] | apply (leaves_submit locals) | apply (leaves_wait locals) | apply (leaves_inner_wait locals)
    | apply leaves_bind; [|intros ?] | apply leaves_if | apply leaves_modify; done
    | match goal with |- leaves _ (match ?x with _ => _ end) => destruct x end | done ].
Lemma owns_locals b : leaves idle (owns b).
Proof. intros w. unfold owns. by case_match. Qed.
Local Hint Resolve owns_locals : idle.
Lemma owns_all_locals views : leaves idle (owns_all views).
Proof. induction views as [|v views IH]; [done|]. cbn [owns_all]. by apply leaves_bind; [apply owns_locals|]. Qed.
Local Hint Resolve owns_all_locals : idle.
Lemma prepare_fill_locals env dst v : leaves idle (prepare_fill env dst v).
Proof. unfold prepare_fill. keep. Qed.
Local Hint Resolve prepare_fill_locals : idle.
Lemma prepare_copy_locals env dst src : leaves idle (prepare_copy env dst src).
Proof. unfold prepare_copy. keep. Qed.
Local Hint Resolve prepare_copy_locals : idle.
Lemma prepare_dispatch_locals env l views : leaves idle (prepare_dispatch env l views).
Proof. unfold prepare_dispatch. keep. Qed.
Local Hint Resolve prepare_dispatch_locals : idle.
Lemma reclaim_locals : leaves idle (modify reclaim_staging).
Proof. apply leaves_modify. intros w. by destruct (reclaim_frame w) as (_ & _ & _ & ? & _). Qed.
Local Hint Resolve reclaim_locals : idle.
Lemma cache_dispatch_locals l c : leaves idle (modify (cache_dispatch l c)).
Proof. apply leaves_modify. intros w. unfold cache_dispatch. by case_match. Qed.
Local Hint Resolve cache_dispatch_locals : idle.
Lemma fill_locals env dst v : leaves idle (fill env dst v).
Proof. unfold fill, retain. keep. Qed.
Lemma copy_locals env dst src : leaves idle (copy env dst src).
Proof. unfold copy, retain. keep. Qed.
Lemma dispatch_locals env k g b c views : leaves idle (dispatch env k g b c views).
Proof. unfold dispatch, retain. keep. Qed.
Lemma synchronize_locals env : leaves idle (synchronize env).
Proof. unfold synchronize. keep. Qed.
Lemma event_wait_locals env ev : leaves idle (event_wait env ev).
Proof. unfold event_wait. keep. Qed.
Local Hint Resolve event_wait_locals : idle.
Lemma wait_event_locals env ev : leaves idle (wait_event env ev).
Proof. unfold wait_event. keep. Qed.
Lemma submission_locals env : leaves idle (submission_is_complete env).
Proof. unfold submission_is_complete, event_is_complete. keep. Qed.
Lemma submit_all_locals envs orders i l : leaves idle (submit_all envs orders i l).
Proof. revert i. induction l as [|c l IH]; intros i; [done|]. cbn [submit_all]. keep. Qed.
Local Hint Resolve submit_all_locals : idle.
Lemma launch_locals envs orders i : leaves idle (launch envs orders i).
Proof.
  intros w. unfold launch. repeat case_match; try done.
  refine (leaves_bind idle _ _ _ _ w); [by apply leaves_modify|]. intros _. keep.
Qed.
Lemma finish_locals r i : leaves idle (finish_graph r i).
Proof. intros w. unfold finish_graph. repeat case_match; done. Qed.
Lemma graph_drop_locals env i w : locals (pools (graph_drop env i w)) = locals (pools w).
Proof. unfold graph_drop. repeat case_match; done. Qed.
Lemma stream_drop_locals env w : locals (pools (stream_drop env w)) = locals (pools w).
Proof.
  unfold stream_drop. pose proof (leaves_inner_wait locals (outcome env CWait) w) as H.
  destruct (inner_wait _ w) as [w1 r]. cbn in H. set (l := _ ++ _ ++ _). set (w2 := set_leaked _ _ _).
  by destruct (drop_buffers_frame l w2) as (_ & _ & -> & _).
Qed.
Lemma set_scratch_limit_locals n w : locals (pools (set_scratch_limit n w)) = locals (pools w).
Proof.
  unfold set_scratch_limit. destruct (shrink_scratch _ _ _ _) as [[m h] e].
  by destruct (drop_buffers_frame e (set_scratch m h n w)) as (_ & _ & -> & _).
Qed.
Lemma validate_after_locals i after : leaves idle (validate_after i after).
Proof. done. Qed.
Local Hint Resolve validate_after_locals : idle.
Lemma record_node_locals i n after views : leaves idle (record_node i n after views).
Proof. intros w. unfold record_node. by repeat case_match. Qed.
Local Hint Resolve record_node_locals : idle.
Lemma graph_fill_locals env i after dst v : leaves idle (graph_fill env i after dst v).
Proof. unfold graph_fill. keep. Qed.
Lemma graph_copy_locals env i after dst src : leaves idle (graph_copy env i after dst src).
Proof. unfold graph_copy. keep. Qed.
Lemma graph_dispatch_locals env i after k g b c views : leaves idle (graph_dispatch env i after k g b c views).
Proof. unfold graph_dispatch. keep. Qed.
Lemma graph_join_locals i after : leaves idle (graph_join i after).
Proof. unfold graph_join. keep. Qed.
Lemma get_scratch_locals env n w : locals (pools w) = [] → locals (pools (get_scratch env n w).1) = [].
Proof.
  intros Hl. unfold get_scratch. destruct (take_scratch n w) as [[b w']|] eqn:E; [|apply call_idle].
  unfold take_scratch in E. apply bind_Some in E as ([size l] & _ & E). by apply bind_Some in E as (x & _ & [= <- <-]).
Qed.
Lemma recycle_locals i w : locals (pools (recycle i w).1) = locals (pools w).
Proof. unfold recycle. repeat case_match; try done; apply drop_handle_locals. Qed.
Lemma allocate_from_idle env env' l w : locals (pools w) = [] → locals (pools (allocate_from env env' l w).1) = [].
Proof. intros Hl. destruct l; [done|]. apply call_idle. Qed.
Lemma device_step_locals e w w' : device_step e w = Some w' → locals (pools w') = locals (pools w).
Proof. by intros ([i x] & _ & [= <-])%bind_Some. Qed.

(** ** Every move *)

Lemma move_idle w l w' : locals (pools w) = [] → move w l w' → locals (pools w') = [].
Proof.
  intros Hl. destruct 1; try apply call_idle; try done.
  - by apply allocate_from_idle.
  - by destruct r.
  - by rewrite drop_handle_locals.
  - by rewrite (synchronize_locals env w).
  - by rewrite (wait_event_locals env ev w).
  - by rewrite (event_wait_locals env ev w).
  - by rewrite (submission_locals env w).
  - by rewrite (fill_locals env dst v w).
  - by rewrite (copy_locals env dst src w).
  - by rewrite (dispatch_locals env k g b c views w).
  - by apply get_scratch_locals.
  - by rewrite recycle_locals.
  - by rewrite set_scratch_limit_locals.
  - by rewrite (graph_fill_locals env i after dst v w).
  - by rewrite (graph_copy_locals env i after dst src w).
  - by rewrite (graph_dispatch_locals env i after k g b c views w).
  - by rewrite (graph_join_locals i after w).
  - by rewrite (finish_locals r i w).
  - by rewrite (launch_locals envs orders i w).
  - by rewrite graph_drop_locals.
  - by rewrite stream_drop_locals.
  - by rewrite (device_step_locals e w).
Qed.

Ltac by_wp H := eapply (wp_result watch); [|apply H; first [done | by apply handle_usable]]; cbn beta; intros ? ? Hq;
  first [exact Hq | solve [destruct Hq; done] | solve [destruct Hq as (? & ? & _); done] | solve [destruct Hq as [[? _] _]; done]].
Lemma stream_move_inv w l w' :
  inv w → locals (pools w) = [] → move w l w' → (∀ n, n ∈ l → n ∈ watch.2) → inv w'.
Proof.
  intros Hi Hl Hm Hlost. destruct Hm; unfold owned in *; repeat match goal with H : _ ∧ _ |- _ => destruct H end.
  - by_wp (allocate_wp watch).
  - by_wp (allocate_from_wp watch).
  - eapply (wp_result watch); [|apply (allocate_zeroed_wp watch); [done|by left; auto]]. by intros ? ? [[? _] _].
  - eapply (wp_result watch); [|apply (allocate_zeroed_wp watch); [done|]]; [by intros ? ? [[? _] _]|].
    intros _. right. apply Hlost. by left.
  - by_wp (shared_wp watch).
  - by_wp (storage_buffer_wp).
  - by_wp (import_wp).
  - by apply drop_stream_handle_inv.
  - by_wp (synchronize_wp watch).
  - by_wp wait_event_wp.
  - by_wp event_wait_wp.
  - by_wp submission_wp.
  - by_wp (upload_blocking_wp watch).
  - by_wp (read_blocking_wp watch).
  - by_wp (fill_wp watch).
  - by_wp (copy_wp watch).
  - by_wp (upload_wp watch).
  - by_wp (dispatch_wp watch).
  - by apply get_scratch_inv.
  - by apply recycle_inv.
  - by apply set_scratch_limit_inv.
  - by_wp (read_wp watch).
  - by apply readback_wait_inv.
  - by_wp (readback_drop_wp watch).
  - by apply begin_graph_inv.
  - by apply graph_fill_inv.
  - by apply graph_copy_inv.
  - by apply graph_dispatch_inv.
  - by apply graph_join_inv.
  - by apply finish_graph_inv.
  - by apply launch_inv.
  - by apply graph_drop_inv.
  - by apply recording_drop_inv.
  - by apply stream_drop_inv.
  - by eapply device_step_inv.
  - by apply reap_inv.
Qed.
End Moves.

(** More backing may be lost. *)
Lemma inv_lose o lost lost' w : inv (o, lost) w → (∀ n, n ∈ lost → n ∈ lost') → inv (o, lost') w.
Proof.
  intros [H1 H2 H3 [C1 C2 C3 C4] H5] Hl. constructor; try done. constructor; try done. intros e n r He Hn Hnot. apply (C1 e n r He Hn).
  intros Hin. by apply Hnot, Hl.
Qed.
Lemma move_inv_lost o lost w l w' :
  inv (o, lost) w → locals (pools w) = [] → move w l w' → inv (o, l ++ lost) w' ∧ locals (pools w') = [].
Proof.
  intros Hi Hl Hm. split; [|by eapply move_idle]. apply (stream_move_inv (o, l ++ lost) w l); [|done|done|].
  - apply (inv_lose o lost); [done|]. intros n. mem.
  - intros n. cbn. mem.
Qed.
Lemma stream_steps_inv o lost w w' :
  rtc step w w' → inv (o, lost) w → locals (pools w) = [] → ∃ lost', inv (o, lost') w' ∧ locals (pools w') = [].
Proof.
  intros H. revert lost. induction H as [|w w1 w' [l Hs] _ IH]; intros lost Hi Hl; [by exists lost|].
  destruct (move_inv_lost o lost w l w1 Hi Hl Hs). by apply (IH (l ++ lost)).
Qed.

Lemma initial_stream_inv w : initial w → inv (None, []) w ∧ locals (pools w) = [].
Proof.
  intros [I1 (I2 & I3 & I4 & I5) I6 I7 I8].
  assert (∀ n : nat, n ∉ hidden w ++ exposed w ++ references w) as Hno.
  { intros n. unfold hidden, exposed, references, local_natives, pool_natives, rb_natives, graph_natives. rewrite I3, I4, I6, I7, I8.
    unfold cached_natives, scratch_buffers. cbn. apply not_elem_of_nil. }
  assert (hidden w = []) as Hh.
  { apply elem_of_nil_inv. intros n Hn. apply (Hno n). mem. }
  assert (∀ n, n ∉ free (inner w)) as Hf by (rewrite I6; intros n; apply not_elem_of_nil).
  split; [|by rewrite I7]. constructor; [constructor|constructor|constructor|constructor|done].
  - by rewrite I3.
  - rewrite I3. constructor.
  - by rewrite I5.
  - intros n Hn. by destruct (Hno n).
  - rewrite Hh. constructor.
  - rewrite Hh. by intros n ?%elem_of_nil.
  - unfold pool_natives. rewrite I7. by intros n ?%elem_of_nil.
  - intros n Hn. by destruct (Hf n).
  - unfold buffers. rewrite I7, I8. unfold scratch_buffers. cbn. by intros b ?%elem_of_nil.
  - done.
  - by rewrite I6.
  - by rewrite I6.
  - unfold graph_commands. by rewrite I8.
  - rewrite I3. by intros e n r ?%elem_of_nil.
  - rewrite I8. by intros g c n r ?%elem_of_nil.
  - rewrite I8. by intros g c n r ?%elem_of_nil.
  - rewrite I8. by intros g k ?%elem_of_nil.
Qed.
Lemma reachable_stream_inv w : reachable w → ∃ lost, inv (None, lost) w ∧ locals (pools w) = [].
Proof. intros (w0 & H0 & Hs). destruct (initial_stream_inv w0 H0). by apply (stream_steps_inv None [] w0). Qed.
Lemma reached_stream_inv lost w : reached lost w → inv (None, lost) w ∧ locals (pools w) = [].
Proof.
  induction 1 as [w H0|lost w l w' _ [Hi Hl] Hm]; [by apply initial_stream_inv|]. by apply (move_inv_lost None lost w).
Qed.
Lemma reachable_steps w w' : reachable w → rtc step w w' → reachable w'.
Proof. intros (w0 & H0 & Hs) H. exists w0. split; [done|]. by etrans. Qed.
(** Moves that lose nothing. *)
Lemma calm w w' : move w [] w' → step w w'.
Proof. by exists []. Qed.
Lemma inv_watch o lost w : inv (None, lost) w → watched o w → inv (o, lost) w.
Proof. intros [H1 H2 H3 H4 _] Hw. by constructor. Qed.

(** ** Sequential meaning *)

(** The data calls, the world they may be called in, and what each means to a
    memory without queues, staging, caches or engines. *)
Inductive Op : Type :=
| OFill (env : Env) (dst : View) (value : Z)
| OCopy (env : Env) (dst src : View)
| OUpload (envs : nat → Env) (dst : View) (l : list Z)
| OUploadBlocking (env env' : Env) (dst : View) (l : list Z)
| ODispatch (env : Env) (kernel : nat) (grid block constants : list Z) (views : list View)
| OLaunch (envs : nat → Env) (orders : nat → list Work) (i : nat).
Definition run_op (o : Op) : M unit :=
  match o with
  | OFill env dst value => fill env dst value
  | OCopy env dst src => copy env dst src
  | OUpload envs dst l => upload envs dst l
  | OUploadBlocking env env' dst l => upload_blocking env env' dst l
  | ODispatch env k g b c views => dispatch env k g b c views
  | OLaunch envs orders i => launch envs orders i
  end.
Definition callable (w : World) (o : Op) : Prop :=
  dropped (client w) = false ∧
  match o with
  | OFill _ dst _ | OUpload _ dst _ | OUploadBlocking _ _ dst _ => owned w dst
  | OCopy _ dst src => owned w dst ∧ owned w src
  | ODispatch _ _ _ _ _ views => Forall (owned w) views
  | OLaunch _ orders i =>
      ∃ g, graphs (client w) !! i = Some g ∧ admissible (effect (config w)) orders (g_replays g)
  end.
Definition meaning (f : Effect) (recorded : list (list Replay)) (m : Memory) (o : Op) : Memory :=
  match o with
  | OFill _ dst value => apply f m (Fill (native (v_owner dst)) (v_offset dst) (v_length dst) value)
  | OCopy _ dst src =>
      apply f m (Copy (native (v_owner dst)) (v_offset dst) (native (v_owner src)) (v_offset src) (v_length dst))
  | OUpload _ dst l | OUploadBlocking _ _ dst l => write_bytes m (native (v_owner dst)) (v_offset dst) l
  | ODispatch _ k g b c views => apply f m (Run (mkLaunch k g b c (range_of <$> views)))
  | OLaunch _ orders i => foldl (apply f) m (works_all (launched orders (default [] (recorded !! i))))
  end.
Definition recorded (w : World) : list (list Replay) := g_replays <$> graphs (client w).
(** A launch as its recorded commands one after the other, and the graphs for
    which that is the same. *)
Definition sequential (f : Effect) (recorded : list (list Replay)) (m : Memory) (o : Op) : Memory :=
  match o with
  | OLaunch _ _ i => foldl (apply f) m (works_all (replay_command <$> default [] (recorded !! i)))
  | _ => meaning f recorded m o
  end.
Definition races_nowhere (f : Effect) (recorded : list (list Replay)) (o : Op) : Prop :=
  match o with OLaunch _ _ i => Forall (graph_race_free f) (default [] (recorded !! i)) | _ => True end.

Lemma names_visible c c' : names c' = names c → visible c' = visible c.
Proof.
  intros [= E1 E2 E3]. unfold visible, graph_natives. rewrite E1, E2. f_equal. f_equal.
  assert (∀ l, (l ≫= λ g, g_commands g ≫= c_natives) = (g_replays <$> l) ≫= λ x, (replay_command <$> x) ≫= c_natives) as H.
  { intros l. induction l as [|g l IH]; [done|]. cbn. by rewrite IH. }
  by rewrite !H, E3.
Qed.
Lemma names_eq (c c' : Client) : c' = c → names c' = names c.
Proof. by intros ->. Qed.

Section Meaning.
Context (lost : list nat).
Local Notation inv := (inv (None, lost)).

Record kept (w w' : World) : Prop := {
  kp_inv : inv w';
  kp_config : config w' = config w;
  kp_names : names (client w') = names (client w) }.

Lemma run_op_wp o w :
  inv w → callable w o →
  wp (None, lost) (run_op o)
    (λ _ w', kept w w' ∧ seen w (settled w') (meaning (effect (config w)) (recorded w) (settled w) o)) w.
Proof.
  intros Hi [_ Hc]. destruct o as [env dst v|env dst src|envs dst l|env env' dst l|env k g b c views|envs orders i]; cbn [run_op meaning].
  - destruct Hc as (H0 & H1 & H2). eapply wp_mono; [apply (fill_wp (None, lost)); [done|by apply handle_usable|done]|]. cbn beta.
    intros _ w' (I1 & [I2 I3 _ _] & _ & S1). split; [constructor; auto using names_eq|]. intros n a _. apply S1.
  - destruct Hc as ((H0 & H1 & H2) & (H3 & H4 & H5)). eapply wp_mono; [apply (copy_wp (None, lost)); [done|by apply handle_usable..|done]|]. cbn beta.
    intros _ w' (I1 & [I2 I3 _ _] & _ & _ & S1). split; [constructor; auto using names_eq|]. intros n a _. apply S1.
  - destruct Hc as (H0 & _). eapply wp_mono; [by apply (upload_wp (None, lost))|]. intros _ w' [U1 U2 U3 U4].
    split; [constructor; auto using names_eq|done].
  - destruct Hc as (H0 & _). eapply wp_mono; [by apply (upload_blocking_wp (None, lost))|]. intros _ w' [U1 U2 U3 U4].
    split; [constructor; auto using names_eq|done].
  - eapply wp_mono; [by apply (dispatch_wp (None, lost))|]. cbn beta. intros _ w' (I1 & [I2 I3 _ _] & S1).
    split; [constructor; auto using names_eq|]. by rewrite S1.
  - destruct Hc as (g & Hg & Ha). eapply wp_mono; [by apply (launch_wp (None, lost))|]. cbn beta. intros _ w' (I1 & I2 & _ & I4 & S1).
    split; [by constructor|]. unfold recorded. rewrite list_lookup_fmap, Hg. cbn. by rewrite S1.
Qed.

Lemma meaning_seen w o m m' :
  inv w → callable w o → seen w m m' →
  seen w (meaning (effect (config w)) (recorded w) m o) (meaning (effect (config w)) (recorded w) m' o).
Proof.
  intros Hi [_ Hc] Hm. assert (agree (λ n, n ∈ visible (client w)) m m') as Ha by exact Hm.
  change (agree (λ n, n ∈ visible (client w)) (meaning (effect (config w)) (recorded w) m o) (meaning (effect (config w)) (recorded w) m' o)).
  destruct o as [env dst v|env dst src|envs dst l|env env' dst l|env k g b c views|envs orders i]; cbn [meaning].
  - apply apply_agree; [|done]. intros n ->%list_elem_of_singleton. by apply handle_visible, Hc.
  - apply apply_agree; [|done]. destruct Hc as [Hd Hs]. intros n [->|[->|[]%elem_of_nil]%elem_of_cons]%elem_of_cons; apply handle_visible; [apply Hd|apply Hs].
  - by apply write_bytes_agree.
  - by apply write_bytes_agree.
  - apply apply_agree; [|done]. intros n (v & Hv & ->)%range_natives. rewrite Forall_forall in Hc. by apply handle_visible, Hc.
  - apply works_agree; [|done]. destruct Hc as (g & Hg & Had). intros n. unfold recorded. rewrite list_lookup_fmap, Hg. cbn.
    assert (g ∈ graphs (client w)) as Hin by (by eapply list_elem_of_lookup_2).
    destruct (proj1 (graph_commands_ok _) (cm_graphs _ (inv_commands _ _ Hi))) as [_ K2].
    intros (x & Hn & Hx)%list_elem_of_bind. apply list_elem_of_bind in Hx as (c & Hx & Hcm). apply elem_of_app. right.
    apply list_elem_of_lookup_1 in Hcm as [k Hk]. unfold launched in Hk. rewrite list_lookup_imap in Hk. apply fmap_Some in Hk as (r & Hr & ->).
    assert (replay_command r ∈ g_commands g) as Hrc by (apply list_elem_of_fmap_2; by eapply list_elem_of_lookup_2).
    apply (graph_native _ g (replay_command r)); [done..|]. apply (K2 g _ Hin Hrc).
    apply (chosen_touches (effect (config w)) (orders k)); [destruct r as [y|ps]; [done|by apply Had]|].
    apply list_elem_of_bind. by exists x.
Qed.

(** The calls of a program in order, with anything between them the device and
    the queues may do. *)
Inductive quiet (w : World) : World → Prop :=
| quiet_device e w' : device_step e w = Some w' → quiet w w'
| quiet_reap i : quiet w (reap i w)
| quiet_synchronize env w' : synchronize env w = (w', Ok tt) → quiet w w'.
Inductive runs : World → list Op → World → Prop :=
| runs_nil w : runs w [] w
| runs_op w o l w1 w2 : callable w o → run_op o w = (w1, Ok tt) → runs w1 l w2 → runs w (o :: l) w2
| runs_quiet w l w1 w2 : quiet w w1 → runs w1 l w2 → runs w l w2.

Lemma quiet_kept w w' : inv w → quiet w w' → kept w w' ∧ settled w' = settled w.
Proof.
  intros Hi [e u Hd|i|env u Hs].
  - destruct (device_step_inv (None, lost) e w u Hi Hd) as [H1 H2]. split; [|done]. constructor; [done|..];
      by apply bind_Some in Hd as ([j x] & _ & [= <-]).
  - split; [|done]. constructor; [by apply reap_inv|done..].
  - pose proof (synchronize_wp (None, lost) env w Hi) as H. apply (wp_ok (None, lost) _ _ _ _ _ H) in Hs as [S1 S2 S3 S4 S5 S6 S7].
    split; [constructor; auto using names_eq|done].
Qed.
Lemma kept_seen w w' m m' : kept w w' → seen w' m m' ↔ seen w m m'.
Proof. intros [_ _ K]. unfold seen. by rewrite (names_visible _ _ K). Qed.
Lemma kept_recorded w w' : kept w w' → effect (config w') = effect (config w) ∧ recorded w' = recorded w.
Proof. intros [_ E K]. rewrite E. split; [done|]. by injection K. Qed.
Lemma kept_trans w w1 w2 : kept w w1 → kept w1 w2 → kept w w2.
Proof. intros [K1 K2 K3] [L1 L2 L3]. constructor; congruence. Qed.
Lemma runs_meaning w l w' m :
  runs w l w' → inv w → seen w (settled w) m →
  kept w w' ∧ seen w (settled w') (foldl (meaning (effect (config w)) (recorded w)) m l).
Proof.
  intros H. revert m. induction H as [w|w o l w1 w2 Hc Ho Hr IH|w l w1 w2 Hq Hr IH]; intros m Hi Hm; cbn [foldl].
  - split; [by constructor|done].
  - destruct (wp_ok (None, lost) _ _ _ _ _ (run_op_wp o w Hi Hc) Ho) as [K1 S1]. destruct (kept_recorded _ _ K1) as [E1 E2].
    pose proof (meaning_seen w o _ _ Hi Hc Hm) as S0.
    destruct (IH (meaning (effect (config w)) (recorded w) m o) (kp_inv _ _ K1)) as [K2 S2].
    { apply (kept_seen w w1); [done|]. intros n a Hn. etrans; [by apply S1|by apply S0]. }
    rewrite E1, E2 in S2. split; [by eapply kept_trans|]. by apply (kept_seen w w1).
  - destruct (quiet_kept w w1 Hi Hq) as [K1 S1]. destruct (kept_recorded _ _ K1) as [E1 E2].
    destruct (IH m (kp_inv _ _ K1)) as [K2 S2]; [rewrite S1; by apply (kept_seen w w1)|].
    rewrite E1, E2 in S2. split; [by eapply kept_trans|]. by apply (kept_seen w w1).
Qed.

Lemma meaning_proper f r o m m' : meq m m' → meq (meaning f r m o) (meaning f r m' o).
Proof. intros Hm. destruct o; cbn [meaning]; try (by rewrite Hm); by apply foldl_apply_proper. Qed.
Lemma sequential_meaning w o m :
  callable w o → races_nowhere (effect (config w)) (recorded w) o →
  meq (meaning (effect (config w)) (recorded w) m o) (sequential (effect (config w)) (recorded w) m o).
Proof.
  intros [_ Hc] Hr. destruct o as [| | | | |envs orders i]; try done. cbn [meaning sequential races_nowhere] in Hr |- *.
  destruct Hc as (g & Hg & Ha). unfold recorded in Hr |- *. rewrite list_lookup_fmap, Hg in Hr |- *. by apply launched_recorded.
Qed.
Lemma kept_callable w w' o : kept w w' → races_nowhere (effect (config w)) (recorded w) o →
  races_nowhere (effect (config w')) (recorded w') o.
Proof. intros K. by destruct (kept_recorded w w' K) as [-> ->]. Qed.
Lemma runs_sequential w l w' m :
  runs w l w' → inv w → Forall (races_nowhere (effect (config w)) (recorded w)) l →
  meq (foldl (meaning (effect (config w)) (recorded w)) m l) (foldl (sequential (effect (config w)) (recorded w)) m l).
Proof.
  intros H. revert m. induction H as [w|w o l w1 w2 Hc Ho Hr IH|w l w1 w2 Hq Hr IH]; intros m Hi Hl; [done|..].
  - inversion_clear Hl as [|? ? Hl1 Hl2]. destruct (wp_ok (None, lost) _ _ _ _ _ (run_op_wp o w Hi Hc) Ho) as [K1 _].
    destruct (kept_recorded _ _ K1) as [E1 E2]. rewrite E1, E2 in IH. cbn [foldl].
    etrans; [|apply (IH (sequential (effect (config w)) (recorded w) m o) (kp_inv _ _ K1) Hl2)].
    assert (∀ m m', meq m m' → meq (foldl (meaning (effect (config w)) (recorded w)) m l)
                                   (foldl (meaning (effect (config w)) (recorded w)) m' l)) as Hp.
    { clear. induction l as [|o l IH]; intros m m' Hm; [done|]. cbn [foldl]. by apply IH, meaning_proper. }
    by apply Hp, sequential_meaning.
  - destruct (quiet_kept w w1 Hi Hq) as [K1 _]. destruct (kept_recorded _ _ K1) as [E1 E2]. rewrite E1, E2 in IH.
    by apply IH; [apply K1|].
Qed.
End Meaning.

(** C11. Whatever the engines, the caches, the staging pool and the device do between
    them, the calls of a program take effect in the order of the program: a
    blocking read returns what the same calls, executed one after the other on a
    plain memory, leave in the range.  The commands of a launched batch between
    two barriers may overlap, and a launch does what the device makes of them;
    when no phase of the launched graphs has a race, that is what their commands
    do one after the other in recorded order. *)
Theorem stream_calls_are_sequential w ops w' env env' src n w'' l :
  reachable w → runs w ops w' → owned w' src → 0 <= n →
  read_blocking env env' src n w' = (w'', Ok l) →
  l = read_bytes (foldl (meaning (effect (config w)) (recorded w)) (settled w) ops) (native (v_owner src)) (v_offset src) n ∧
  (Forall (races_nowhere (effect (config w)) (recorded w)) ops →
   l = read_bytes (foldl (sequential (effect (config w)) (recorded w)) (settled w) ops) (native (v_owner src)) (v_offset src) n).
Proof.
  intros (lost & Hi & _)%reachable_stream_inv Hr Ho Hn Hl. destruct (runs_meaning lost w ops w' (settled w) Hr Hi) as [K S]; [done|].
  pose proof (read_blocking_wp (None, lost) env env' src n w' (kp_inv _ _ _ K) (proj1 Ho) Hn) as Hw.
  destruct (wp_ok (None, lost) _ _ _ _ _ Hw Hl) as (_ & _ & _ & -> & _).
  assert (read_bytes (settled w') (native (v_owner src)) (v_offset src) n
    = read_bytes (foldl (meaning (effect (config w)) (recorded w)) (settled w) ops) (native (v_owner src)) (v_offset src) n) as ->.
  { apply read_bytes_ext. intros a. apply S. rewrite <-(names_visible _ _ (kp_names _ _ _ K)). by apply handle_visible, Ho. }
  split; [done|]. intros Hrace. apply read_bytes_ext. intros a. by apply (runs_sequential lost w ops w').
Qed.

(** C12. A readback returns the bytes its source held, in the order of the calls,
    when it was queued: whatever the program, the device and other readbacks do
    afterwards, as long as the readback is still there to be waited for. *)
Theorem readback_returns_its_source env src w w1 w2 env' i b w3 l :
  reachable w → dropped (client w) = false → owned w src → read env src w = (w1, Ok tt) →
  head (readbacks (client w1)) = Some b → rtc step w1 w2 →
  readbacks (client w2) !! i = Some b → readback_wait env' i w2 = (w3, Ok l) →
  l = read_bytes (settled w) (native (v_owner src)) (v_offset src) (v_length src).
Proof.
  intros Hre Hdr (Ho & H0 & H1) Hread Hb Hs Hi Hwait. destruct (reachable_stream_inv w Hre) as (lost & Hinv & Hl).
  destruct (wp_ok (None, lost) _ _ _ _ _ (read_wp (None, lost) env src w Hinv Ho H1) Hread) as (buf & I1 & _ & _ & E & _ & _ & S1 & _).
  rewrite E in Hb. injection Hb as <-. set (watch := Some (native buf, settled w1 (native buf))).
  assert (inv (watch, lost) w1 ∧ locals (pools w1) = []) as [J1 L1].
  { split; [|replace w1 with (read env src w).1 by (by rewrite Hread); apply call_idle]. apply inv_watch; [done|]. split; [|done].
    apply (known_buffer (None, lost) w1 buf I1). unfold buffers. rewrite E. cbn. mem. }
  destruct (stream_steps_inv watch lost w1 w2 Hs J1 L1) as (lost2 & J2 & L2).
  destruct (wp_ok (watch, lost2) _ _ _ _ _ (readback_wait_wp (watch, lost2) env' i _ w2 J2 Hi) Hwait) as (_ & -> & _). cbn [rb_buffer rb_length].
  rewrite <-S1. apply read_bytes_ext. destruct (inv_watched _ _ J2) as [_ Hw]. apply Hw.
  apply list_elem_of_fmap. exists buf. split; [done|]. apply list_elem_of_fmap. exists (mkReadback buf (v_length src)).
  split; [done|]. by eapply list_elem_of_lookup_2.
Qed.

(** Work executes in the order it was published, whichever engine moves: at most
    one engine of a stream has unfinished entries at any time. *)
Theorem execution_follows_publication w e w' :
  reachable w → device_step e w = Some w' →
  ∃ x, inflight (dev w) = x :: inflight (dev w') ∧ e_engine x = e ∧ Forall (λ y, e_engine y = e) (inflight (dev w)) ∧
       memory (dev w') = execute (effect (config w)) (memory (dev w)) x.
Proof.
  intros (lost & Hi & _)%reachable_stream_inv ([i x] & Hf & [= <-])%bind_Some. destruct (device_step_prefix e w i x (inv_time _ _ Hi) Hf) as [-> E].
  apply list_find_Some in Hf as (Hx & Hxe & _). exists x. split_and!; [exact E|done| |done].
  pose proof (tl_latest _ (inv_time _ _ Hi)) as Hl. apply list_elem_of_lookup_2 in Hx.
  destruct (latest (dev w)) as [k|]; [|rewrite Hl in Hx; by apply elem_of_nil in Hx]. destruct Hl as (_ & Hc & _).
  apply Forall_forall. intros y Hy. destruct (Hc y Hy) as [-> _]. destruct (Hc x Hx) as [<- _]. done.
Qed.

(** C20. The budget reservation of a backing that unfinished work uses is held by the
    stream, by a graph that has not let go of it, or is kept for good, with one
    exception: the backing in [lost], that of charged zero-filling allocations
    whose final wait failed, after which the call drops its buffer and the
    reservation while the fill may still run.  Everything else the stream does
    keeps the charge, and a backing offered for reuse is referred to by nothing
    and carries no reservation. *)
Theorem unfinished_work_stays_charged lost w :
  reached lost w →
  (∀ e n r, e ∈ inflight (dev w) → n ∈ e_natives e → n ∉ lost → charge_of w n = Some r → held w (e_point e) r) ∧
  (∀ n, n ∈ free (inner w) → n ∉ references w ∧ n ∉ native <$> buffers w ∧ charge_of w n = None) ∧ NoDup (free (inner w)).
Proof.
  intros [Hi Hl]%reached_stream_inv. pose proof (inv_layout _ _ Hi) as Hy. split_and!.
  - apply (ch_entries _ _ (inv_charged _ _ Hi)).
  - intros n Hn. destruct (ly_free _ Hy n Hn) as [H1 H2]. split_and!; [done| |done].
    intros (b & -> & Hb)%list_elem_of_fmap. pose proof (buffer_native w b Hb) as Hbn.
    pose proof (ly_hidden _ Hy) as Hnd. unfold hidden in Hnd, Hbn. rewrite !app_assoc in Hnd. apply NoDup_app in Hnd as (_ & Hd & _).
    pose proof (ly_apart _ Hy (native b)) as Hap. unfold hidden in Hap.
    unfold buffers in Hb. rewrite !elem_of_app in Hb.
    assert (native b ∉ exposed w) as Hne by (apply Hap; mem).
    unfold exposed in Hne. rewrite !not_elem_of_app in Hne. destruct Hne as (X1 & X2 & _).
    assert (∀ l, b ∈ l → native b ∈ native <$> l) as Hin by (intros l; apply list_elem_of_fmap_2).
    destruct Hb as [Hb|[Hb|[Hb|[Hb|[Hb|Hb]]]]]; apply Hin in Hb; [| | |done|done|]; apply (Hd (native b)); try done;
      unfold local_natives, pool_natives, rb_natives; mem.
  - pose proof (ly_hidden _ Hy) as Hnd. unfold hidden in Hnd. rewrite !app_assoc in Hnd. by apply NoDup_app in Hnd as (_ & _ & ?).
Qed.

(** ** A stream with device-local allocations and a budget *)

Lemma run_ok {A} (m : M A) w a : (m w).2 = Ok a → m w = ((m w).1, Ok a).
Proof. intros <-. apply surjective_pairing. Qed.
Definition all_ok : Env := mkEnv (λ _, Ok tt) 0.
Definition failing_wait : Env := mkEnv (λ x, match x with CWait => Err (DeviceLost "timed out") | _ => Ok tt end) 0.
Definition demo0 : World :=
  mkWorld (mkConfig 0 0 false None true true (λ _ l, l)) (mkDevice [] [] (λ _ _, 0) [] [] 0 None) (mkInner [] [] [])
    (mkPools [] [] [] [] 0 (256 * 1024 * 1024) []) (mkClient [] [] [] [] [] false).
Lemma demo0_initial : initial demo0.
Proof. by constructor. Qed.
Definition demo1 : World := (allocate all_ok 4 demo0).1.
Definition demo_buffer : Buffer := mkBuffer 0 4 0 0 (Some 0%nat) true.
Lemma stream_demo1_reachable : reachable demo1.
Proof. exists demo0. split; [exact demo0_initial|]. apply rtc_once, calm, step_allocate. reflexivity. Qed.
Definition demo_fill : Op := OFill all_ok (binding demo_buffer) 7.
Definition demo_upload : Op := OUpload (λ _, all_ok) (mkView demo_buffer 1 2) [1; 2].
Definition demo2 : World := (run_op demo_fill demo1).1.
Definition demo3 : World := default demo2 (device_step 0 demo2).
Definition demo4 : World := (run_op demo_upload demo3).1.
Lemma owned_demo (w : World) (o n : Z) :
  handles (client w) = [demo_buffer] → 0 <= o → 0 <= n → owned w (mkView demo_buffer o n).
Proof. intros E Ho Hn. unfold owned. rewrite E. split_and!; [by left|done|done]. Qed.

Lemma demo2_ok : run_op demo_fill demo1 = (demo2, Ok tt).
Proof. unfold demo2. apply run_ok. vm_compute. reflexivity. Qed.
Lemma demo3_ok : device_step 0 demo2 = Some demo3.
Proof. vm_compute. reflexivity. Qed.
Lemma demo4_ok : run_op demo_upload demo3 = (demo4, Ok tt).
Proof. unfold demo4. apply run_ok. vm_compute. reflexivity. Qed.
Lemma demo_handles :
  handles (client demo1) = [demo_buffer] ∧ handles (client demo3) = [demo_buffer] ∧ handles (client demo4) = [demo_buffer] ∧
  dropped (client demo1) = false ∧ dropped (client demo3) = false.
Proof. vm_compute. split_and!; reflexivity. Qed.
Lemma demo_runs : runs demo1 [demo_fill; demo_upload] demo4.
Proof.
  destruct demo_handles as (H1 & H3 & H4 & D1 & D3).
  refine (runs_op demo1 demo_fill _ demo2 demo4 _ demo2_ok _); [split; [exact D1|by apply owned_demo]|].
  refine (runs_quiet demo2 _ demo3 demo4 (quiet_device demo2 0 demo3 demo3_ok) _).
  refine (runs_op demo3 demo_upload _ demo4 demo4 _ demo4_ok _); [split; [exact D3|by apply owned_demo]|]. apply runs_nil.
Qed.

(** A graph of two fills that may overlap and one that follows both, launched
    with the first two exchanged. *)
Definition piece (o n : Z) : View := mkView demo_buffer o n.
Definition graph0 : World := begin_graph 3 demo4.
Definition graph1 : World := (graph_fill all_ok 0 [] (piece 0 2) 1 graph0).1.
Definition graph2 : World := (graph_fill all_ok 0 [] (piece 2 2) 2 graph1).1.
Definition graph3 : World := (graph_fill all_ok 0 [Raw.mkNode 3 0; Raw.mkNode 3 1] (piece 1 2) 3 graph2).1.
Definition graph4 : World := (finish_graph (Ok []) 0 graph3).1.
Definition fill_of (o n v : Z) : Command := mkCommand 0 [[Fill 0 o n v]] [0%nat] 0.
Definition demo_batch : Replay := Batched [[fill_of 0 2 1; fill_of 2 2 2]; [fill_of 1 2 3]].
Definition demo_order (k : nat) : list Work := [Fill 0 2 2 2; Fill 0 0 2 1; Fill 0 1 2 3].
Definition demo_launch : Op := OLaunch (λ _, all_ok) demo_order 0.
Definition graph5 : World := (run_op demo_launch graph4).1.
Lemma stream_demo4_reachable : reachable demo4.
Proof.
  destruct demo_handles as (H1 & H3 & _ & D1 & D3). apply (reachable_steps demo1 demo4 stream_demo1_reachable).
  apply rtc_l with demo2; [refine (calm _ _ (step_fill demo1 all_ok (binding demo_buffer) 7 D1 _)); by apply owned_demo|].
  apply rtc_l with demo3; [exact (calm _ _ (step_device demo2 0 demo3 demo3_ok))|]. apply rtc_once.
  refine (calm _ _ (step_upload demo3 (λ _, all_ok) (mkView demo_buffer 1 2) [1; 2] D3 _)). by apply owned_demo.
Qed.
Lemma demo_graph_handles :
  dropped (client demo4) = false ∧ handles (client graph0) = [demo_buffer] ∧ handles (client graph1) = [demo_buffer] ∧
  handles (client graph2) = [demo_buffer] ∧ handles (client graph5) = [demo_buffer] ∧ dropped (client graph4) = false.
Proof. vm_compute. split_and!; reflexivity. Qed.
Lemma graph4_reachable : reachable graph4.
Proof.
  destruct demo_graph_handles as (D & H0 & H1 & H2 & _). apply (reachable_steps demo4 graph4 stream_demo4_reachable).
  apply rtc_l with graph0; [exact (calm _ _ (step_begin demo4 3 D))|].
  apply rtc_l with graph1; [refine (calm _ _ (step_graph_fill graph0 all_ok 0 [] (piece 0 2) 1 _)); by apply owned_demo|].
  apply rtc_l with graph2; [refine (calm _ _ (step_graph_fill graph1 all_ok 0 [] (piece 2 2) 2 _)); by apply owned_demo|].
  apply rtc_l with graph3; [refine (calm _ _ (step_graph_fill graph2 all_ok 0 [Raw.mkNode 3 0; Raw.mkNode 3 1] (piece 1 2) 3 _)); by apply owned_demo|].
  apply rtc_once. exact (calm _ _ (step_finish graph3 (Ok []) 0)).
Qed.
Lemma graph4_recorded : recorded graph4 = [[demo_batch]].
Proof. vm_compute. reflexivity. Qed.
Lemma demo_admissible f : admissible f demo_order [demo_batch].
Proof.
  intros [|k] ps; [|done]. intros [= <-]. exists [[Fill 0 2 2 2; Fill 0 0 2 1]; [Fill 0 1 2 3]]. split; [|done].
  constructor; [|constructor; [|constructor]]; left; [exists [fill_of 2 2 2; fill_of 0 2 1]|exists [fill_of 1 2 3]]; (split; [|done]);
    [apply perm_swap|done].
Qed.
Lemma fills_independent f o n v o' n' v' : o + n <= o' → independent f (fill_of o n v) (fill_of o' n' v').
Proof.
  intros H x y k a ->%list_elem_of_singleton ->%list_elem_of_singleton. cbn [uses_byte].
  split; rewrite andb_true_iff; intros [_ Ha%in_range_true] m; apply apply_unused; cbn [uses_byte]; apply andb_false_iff; right;
    apply not_true_iff_false; rewrite in_range_true; lia.
Qed.
Lemma demo_race_free f : graph_race_free f demo_batch.
Proof.
  constructor; [|constructor; [|constructor]]; (split; [|done]); [|constructor]. apply Forall_singleton. by apply fills_independent.
Qed.
Lemma graph4_launchable : ∃ g, graphs (client graph4) !! 0%nat = Some g ∧ g_replays g = [demo_batch].
Proof.
  pose proof graph4_recorded as E. unfold recorded in E. destruct (graphs (client graph4)) as [|g l]; [done|].
  injection E as E1 _. by exists g.
Qed.
Lemma graph_runs : runs graph4 [demo_launch] graph5.
Proof.
  destruct demo_graph_handles as (_ & _ & _ & _ & _ & D). destruct graph4_launchable as (g & Hg & Er).
  refine (runs_op graph4 demo_launch _ graph5 graph5 _ _ (runs_nil graph5)).
  - split; [exact D|]. exists g. split; [exact Hg|]. rewrite Er. apply demo_admissible.
  - unfold graph5. apply run_ok. vm_compute. reflexivity.
Qed.

Lemma stream_calls_are_sequential_witness :
  read_blocking all_ok all_ok (binding demo_buffer) 4 graph5 =
    ((read_blocking all_ok all_ok (binding demo_buffer) 4 graph5).1, Ok [1; 3; 3; 2]) ∧
  [1; 3; 3; 2] = read_bytes (foldl (sequential (effect (config graph4)) (recorded graph4)) (settled graph4) [demo_launch]) 0 0 4.
Proof.
  assert (read_blocking all_ok all_ok (binding demo_buffer) 4 graph5 =
    ((read_blocking all_ok all_ok (binding demo_buffer) 4 graph5).1, Ok [1; 3; 3; 2])) as E.
  { apply run_ok. vm_compute. reflexivity. }
  split; [exact E|].
  refine (proj2 (stream_calls_are_sequential graph4 [demo_launch] graph5 all_ok all_ok (binding demo_buffer) 4 _ _
            graph4_reachable graph_runs _ _ E) _); [|done|].
  - by apply owned_demo; [apply demo_graph_handles|..].
  - constructor; [|constructor]. cbn [races_nowhere demo_launch]. rewrite graph4_recorded. constructor; [apply demo_race_free|constructor].
Defined.

(** The buffer is read back and then overwritten before the readback is waited
    for. *)
Definition demo_read : World := (read all_ok (binding demo_buffer) demo2).1.
Definition demo_over : World := (fill all_ok (binding demo_buffer) 9 demo_read).1.
Definition demo_readback : Readback := mkReadback (mkBuffer 1 4 0 0 (Some 1%nat) false) 4.
Lemma demo2_handles : handles (client demo2) = [demo_buffer] ∧ dropped (client demo2) = false.
Proof. vm_compute. split; reflexivity. Qed.
Lemma stream_demo2_reachable : reachable demo2.
Proof.
  destruct demo_handles as (H1 & _ & _ & D1 & _). apply (reachable_steps demo1 demo2 stream_demo1_reachable). apply rtc_once.
  refine (calm _ _ (step_fill demo1 all_ok (binding demo_buffer) 7 D1 _)). by apply owned_demo.
Qed.
Lemma demo_read_ok :
  read all_ok (binding demo_buffer) demo2 = (demo_read, Ok tt) ∧ head (readbacks (client demo_read)) = Some demo_readback ∧
  handles (client demo_read) = [demo_buffer] ∧ dropped (client demo_read) = false.
Proof. split; [unfold demo_read; apply run_ok; vm_compute; reflexivity|]. vm_compute. split_and!; reflexivity. Qed.
Lemma demo_wait_ok :
  readbacks (client demo_over) !! 0%nat = Some demo_readback ∧
  readback_wait all_ok 0 demo_over = ((readback_wait all_ok 0 demo_over).1, Ok [7; 7; 7; 7]).
Proof. split; [vm_compute; reflexivity|]. apply run_ok. vm_compute. reflexivity. Qed.
Lemma readback_returns_its_source_witness :
  [7; 7; 7; 7] = read_bytes (settled demo2) 0 0 4.
Proof.
  refine (readback_returns_its_source all_ok (binding demo_buffer) demo2 demo_read demo_over all_ok 0 demo_readback _ _
    stream_demo2_reachable (proj2 demo2_handles) _ (proj1 demo_read_ok) (proj1 (proj2 demo_read_ok)) _ (proj1 demo_wait_ok) (proj2 demo_wait_ok)).
  - apply owned_demo; [apply demo2_handles|done|done].
  - apply rtc_once. destruct demo_read_ok as (_ & _ & H & D).
    refine (calm _ _ (step_fill demo_read all_ok (binding demo_buffer) 9 D _)). by apply owned_demo.
Defined.

Lemma execution_follows_publication_witness : ∃ x, inflight (dev demo2) = x :: inflight (dev demo3) ∧ e_engine x = 0%nat.
Proof.
  destruct (execution_follows_publication demo2 0 demo3 stream_demo2_reachable demo3_ok) as (x & H1 & H2 & _). exists x. split; [exact H1|exact H2].
Defined.
(** A zero fill whose wait fails, then a fill of another buffer: the second
    fill's reservation is held. *)
Definition lost1 : World := (allocate_zeroed all_ok failing_wait 4 demo0).1.
Definition lost2 : World := (allocate all_ok 4 lost1).1.
Definition lost_buffer : Buffer := mkBuffer 1 4 0 0 (Some 1%nat) true.
Definition lost3 : World := (fill all_ok (binding lost_buffer) 7 lost2).1.
Lemma lost_facts :
  dropped (client lost1) = false ∧ dropped (client lost2) = false ∧ handles (client lost2) = [lost_buffer] ∧
  inflight (dev lost3) = [mkEntry 0 0 [Fill 0 0 4 0] [0%nat]; mkEntry 0 1 [Fill 1 0 4 7] [1%nat]] ∧ charge_of lost3 1 = Some 1%nat.
Proof. vm_compute. split_and!; reflexivity. Qed.
Lemma lost3_reached : reached [0%nat] lost3.
Proof.
  destruct lost_facts as (D1 & D2 & H2 & _).
  refine (reached_move [0%nat] lost2 [] lost3 (reached_move [0%nat] lost1 [] lost2
    (reached_move [] demo0 [0%nat] lost1 (reached_initial demo0 demo0_initial) _) _) _).
  - by refine (step_lost_fill demo0 all_ok failing_wait 4 _ _ _).
  - exact (step_allocate lost1 all_ok 4 D1).
  - refine (step_fill lost2 all_ok (binding lost_buffer) 7 D2 _). unfold owned. rewrite H2. split_and!; [by left|done|done].
Qed.
Lemma unfinished_work_stays_charged_witness : held lost3 1 1.
Proof.
  destruct (unfinished_work_stays_charged [0%nat] lost3 lost3_reached) as [H _]. destruct lost_facts as (_ & _ & _ & E & C). rewrite E in H.
  apply (H (mkEntry 0 1 [Fill 1 0 4 7] [1%nat]) 1%nat 1%nat); [right; by left|by left|by intros ?%list_elem_of_singleton|exact C].
Defined.

(** [Inner::fill_now] submits without retaining the reservation of its buffer.
    When the wait of a charged [allocate_zeroed] fails, the buffer and its
    reservation are dropped while the zero fill is still unfinished: the budget
    no longer accounts for memory the device is writing. *)
Theorem failed_zero_fill_releases_its_charge :
  let w := (allocate_zeroed all_ok failing_wait 4 demo0).1 in
  initial demo0 ∧ (allocate_zeroed all_ok failing_wait 4 demo0).2 = Err (DeviceLost "timed out") ∧
  buffers w = [] ∧
  ∃ e r, e ∈ inflight (dev w) ∧ 0%nat ∈ e_natives e ∧ charge_of w 0 = Some r ∧ ¬ held w (e_point e) r.
Proof.
  intros w. split_and!; [exact demo0_initial|vm_compute; reflexivity|vm_compute; reflexivity|].
  assert (inflight (dev w) = [mkEntry 0 0 [Fill 0 0 4 0] [0%nat]]) as -> by (vm_compute; reflexivity).
  exists (mkEntry 0 0 [Fill 0 0 4 0] [0%nat]), 0%nat. split_and!; [by left|by left|vm_compute; reflexivity|].
  unfold held. assert (uses (pools w) = [] ∧ leaked (client w) = [] ∧ graphs (client w) = []) as (-> & -> & ->)
    by (vm_compute; split_and!; reflexivity).
  intros [H|[H|(g & H & _)]]; by apply elem_of_nil in H.
Qed.
End StreamTheorems.
