(* ===== verification/StreamBounds.v ===== *)
(** * Streams: bounds

    The command caches, the pool of released backing and the staging buffers of
    a stream stay within their limits, on the error paths too, and reclaiming
    staging buffers always finds one to evict while the pool is over its limit. *)

From S2P Require Import Prelude Access BTreeMap Sdma Stream StreamMemory StreamInvariant StreamCalls StreamOperations StreamTheorems.
Import Stream StreamMemory StreamInvariant StreamCalls StreamOperations.
Local Open Scope Z_scope.

Module StreamBounds.
Local Arguments total : simpl never.

Definition stored (e : CachedDispatch) : Z := c_storage (d_command e).
Record bounds (i : Inner) (st pool : list Buffer) : Prop := {
  bd_transfers : (length (transfer_cache i) <= 128)%nat;
  bd_dispatches : (length (dispatch_cache i) <= DISPATCH_CACHE_ENTRIES)%nat;
  bd_stored : zsum stored (dispatch_cache i) <= DISPATCH_CACHE_BYTES;
  bd_storage : Forall (λ e, 0 <= stored e) (dispatch_cache i);
  bd_free : (length (free i) <= 16)%nat;
  bd_staging : (length st <= 8)%nat;
  bd_pool : (length pool <= 8)%nat;
  bd_pooled : total pool <= STAGING_LIMIT;
  bd_staged : total st + total pool <= 2 * STAGING_LIMIT;
  bd_bytes : Forall (λ b, 0 <= bytes b) (st ++ pool) }.
Definition bounded (w : World) : Prop := bounds (inner w) (staging (pools w)) (staging_pool (pools w)).

(** ** Compositional preservation *)

Definition keeps {A} (m : M A) : Prop := ∀ w, bounded w → bounded (m w).1.
Create HintDb bounded.
Lemma keeps_bind {A B} (m : M A) (k : A → M B) : keeps m → (∀ a, keeps (k a)) → keeps (bind m k).
Proof. intros H1 H2 w Hw. unfold bind. specialize (H1 w Hw). destruct (m w) as [w' [a|e]]; [by apply H2|done]. Qed.
Lemma keeps_modify f : (∀ w, bounded w → bounded (f w)) → keeps (modify f).
Proof. intros H w. apply H. Qed.
Lemma keeps_if {A} (b : bool) (m m' : M A) : keeps m → keeps m' → keeps (if b then m else m').
Proof. by destruct b. Qed.
Ltac hold :=
  repeat first
    [ solve [auto with bounded nocore] | apply keeps_bind; [|intros ?] | apply keeps_if
    | match goal with |- keeps (match ?x with _ => _ end) => destruct x end | solve [intros ? ?; assumption] ].

(** ** Caches *)

Lemma filter_sum {A} (f : A → Z) (P : A → Prop) `{!∀ x, Decision (P x)} l :
  Forall (λ x, 0 <= f x) l → zsum f (filter P l) <= zsum f l.
Proof.
  induction 1 as [|x l Hx _ IH]; [done|]. destruct (decide (P x)); [rewrite filter_cons_True by done|rewrite filter_cons_False by done];
    rewrite ?zsum_cons; lia.
Qed.
Lemma evict_bounded b w : bounded w → bounded (evict b w).
Proof.
  intros [B1 B2 B3 B4 B5 B6 B7 B8 B9 B10]. constructor; try done; cbn.
  - pose proof (length_filter (λ e, ¬ transfers (native b) e) (transfer_cache (inner w))). lia.
  - pose proof (length_filter (λ e, ¬ binds (native b) e) (dispatch_cache (inner w))). lia.
  - etrans; [by apply filter_sum|done].
  - apply Forall_forall. intros e [_ He]%list_elem_of_filter. rewrite Forall_forall in B4. by apply B4.
Qed.
Lemma drop_buffer_bounded b w : bounded w → bounded (drop_buffer w b).
Proof.
  intros Hw. unfold drop_buffer. case_match; [|done]. pose proof (evict_bounded b w Hw) as He. case_match eqn:E; [|done]. to_prop.
  destruct He as [B1 B2 B3 B4 B5 B6 B7 B8 B9 B10]. constructor; try done. cbn in *. rewrite length_app. cbn. lia.
Qed.
Lemma drop_buffers_bounded l w : bounded w → bounded (foldl drop_buffer w l).
Proof. revert w. induction l as [|b l IH]; intros w Hw; [done|]. cbn [foldl]. by apply IH, drop_buffer_bounded. Qed.
Lemma call_bounded {A} (m : M A) : keeps m → keeps (call m).
Proof. intros H w Hw. unfold call. specialize (H w Hw). destruct (m w) as [w' r]. by apply drop_buffers_bounded. Qed.
Local Hint Resolve call_bounded : bounded.

Lemma push_transfer_bounded e w : bounded w → bounded (push_transfer e w).
Proof.
  intros [B1 B2 B3 B4 B5 B6 B7 B8 B9 B10]. constructor; try done. unfold push_transfer. cbn. rewrite length_app. cbn.
  destruct (Nat.eqb_spec (length (transfer_cache (inner w))) 128) as [E|E]; [rewrite length_drop|]; lia.
Qed.
Lemma push_transfer_keeps e : keeps (modify (push_transfer e)).
Proof. apply keeps_modify, push_transfer_bounded. Qed.
Local Hint Resolve push_transfer_keeps : bounded.

Lemma trim_bounds l n :
  Forall (λ e, 0 <= stored e) l → n <= DISPATCH_CACHE_BYTES →
  let k := trim l (zsum stored l) n in
  (length k < DISPATCH_CACHE_ENTRIES)%nat ∧ zsum stored k + n <= DISPATCH_CACHE_BYTES ∧ Forall (λ e, 0 <= stored e) k.
Proof.
  intros Hl Hn. induction Hl as [|e l He Hl IH]; [cbn; unfold DISPATCH_CACHE_ENTRIES; split_and!; [lia|lia|done]|].
  cbn [trim]. rewrite zsum_cons. unfold DISPATCH_CACHE_ENTRIES in *. destruct (_ || _) eqn:E.
  - replace (stored e + zsum stored l - c_storage (d_command e)) with (zsum stored l) by (unfold stored; lia). exact IH.
  - apply orb_false_iff in E as [E1 E2]. apply Nat.leb_gt in E1. apply Z.ltb_ge in E2. rewrite zsum_cons. split_and!; [done|lia|by constructor].
Qed.
Lemma cache_dispatch_bounded l c w : 0 <= c_storage c → bounded w → bounded (cache_dispatch l c w).
Proof.
  intros Hc Hw. unfold cache_dispatch. destruct (Z.ltb_spec DISPATCH_CACHE_BYTES (c_storage c)) as [|Hle]; [done|].
  destruct Hw as [B1 B2 B3 B4 B5 B6 B7 B8 B9 B10]. destruct (trim_bounds _ _ B4 Hle) as (T1 & T2 & T3). fold stored.
  constructor; try done; cbn [inner dispatch_cache set_inner].
  - rewrite length_app. cbn. lia.
  - rewrite zsum_app, zsum_cons. change (zsum stored []) with 0. change (stored (mkDispatch l c)) with (c_storage c).
    change (λ e, c_storage (d_command e)) with stored. lia.
  - apply Forall_app. split; [done|]. by apply Forall_singleton.
Qed.

(** ** Staging *)

Lemma smallest_all l : l ≠ [] → is_Some (smallest (λ _, true) l).
Proof. destruct l as [|b l]; [done|]. intros _. cbn [smallest]. destruct (_ <$> _) as [[j n]|]; [case_match|]; eauto. Qed.
Lemma make_room_bounds fuel pool n :
  (length pool <= fuel)%nat → Forall (λ b, 0 <= bytes b) pool → total pool <= STAGING_LIMIT → n <= STAGING_LIMIT →
  ∃ pool' evicted, make_room fuel pool (total pool) n = Some (pool', total pool', evicted) ∧
    (length pool' < 8)%nat ∧ total pool' + n <= STAGING_LIMIT ∧ total pool' <= total pool ∧ Forall (λ b, 0 <= bytes b) pool'.
Proof.
  revert pool. induction fuel as [|fuel IH]; intros pool Hf Hb Ht Hn; cbn [make_room].
  - destruct pool; [|cbn in Hf; lia]. replace (_ || _) with false by (cbn; unfold saturating_sub, STAGING_LIMIT, MIB64, total in *; cbn in *; lia).
    exists [], []. cbn in *. split_and!; [done|lia|unfold total; cbn; lia|done|done].
  - destruct (_ || _) eqn:E.
    + assert (pool ≠ []) as Hne.
      { intros ->. unfold saturating_sub, total in E. cbn in E. lia. }
      destruct (smallest_all pool Hne) as [[i size] Hs]. rewrite Hs. apply smallest_Some in Hs as (b & Hi & <- & _).
      pose proof (swap_remove_perm _ _ _ Hi) as Hp. set (rest := swap_remove i pool) in *. clearbody rest.
      assert (total pool = bytes b + total rest) as Et by (unfold total; by rewrite (zsum_perm _ _ _ Hp)).
      assert (length pool = S (length rest)) as El by (by rewrite Hp).
      rewrite Hp in Hb. inversion_clear Hb as [|? ? Hb0 Hb1].
      destruct (IH rest) as (pool' & ev & E' & R1 & R2 & R3 & R4); [lia|done|lia|done|].
      replace (total pool - bytes b) with (total rest) by lia. rewrite E'. cbn. eexists _, _. split_and!; [done..|lia|done].
    + apply orb_false_iff in E as [E1 E2]. apply Nat.leb_gt in E1. apply Z.ltb_ge in E2. exists pool, []. unfold saturating_sub in E2.
      split_and!; [done|done|lia|lia|done].
Qed.
Lemma reclaim_loop_bounds l pool :
  Forall (λ b, 0 <= bytes b) (l ++ pool) → (length pool <= 8)%nat → total pool <= STAGING_LIMIT →
  ∃ pool' evicted, reclaim_loop l pool (total pool) = Some (pool', evicted) ∧
    (length pool' <= 8)%nat ∧ total pool' <= STAGING_LIMIT ∧ Forall (λ b, 0 <= bytes b) pool'.
Proof.
  revert pool. induction l as [|b l IH]; intros pool Hb Hl Ht; cbn [reclaim_loop]; [by eexists _, _|].
  apply Forall_app in Hb as [Hb Hp]. inversion_clear Hb as [|? ? Hb0 Hb1]. destruct (Z.ltb_spec STAGING_LIMIT (bytes b)) as [Hgt|Hle].
  - destruct (IH pool) as (pool' & ev & -> & H); [by apply Forall_app|done|done|]. by eexists _, _.
  - destruct (make_room_bounds (length pool) pool (bytes b)) as (p1 & e1 & -> & R1 & R2 & R3 & R4); [done..|]. cbn.
    assert (total (p1 ++ [b]) = total p1 + bytes b) as Et by (unfold total; rewrite zsum_app; cbn; lia).
    destruct (IH (p1 ++ [b])) as (pool' & ev & E & H).
    + apply Forall_app. split; [done|]. apply Forall_app. split; [done|by apply Forall_singleton].
    + rewrite length_app. cbn. lia.
    + lia.
    + rewrite <-Et, E. cbn. by eexists _, _.
Qed.
(** After reclaiming nothing is staged. *)
Lemma reclaim_bounded w : bounded w → bounded (reclaim_staging w) ∧ staging (pools (reclaim_staging w)) = [].
Proof.
  intros [B1 B2 B3 B4 B5 B6 B7 B8 B9 B10]. unfold reclaim_staging.
  destruct (reclaim_loop_bounds _ _ B10 B7 B8) as (pool & ev & -> & R1 & R2 & R3).
  destruct (drop_buffers_frame ev (set_staging [] pool w)) as (_ & _ & -> & _). split; [|done].
  apply drop_buffers_bounded. constructor; try done; cbn [pools set_staging set_pools staging staging_pool length]; [lia|].
  change (total []) with 0. unfold STAGING_LIMIT, MIB64 in *. lia.
Qed.
Lemma reclaim_keeps : keeps (modify reclaim_staging).
Proof. apply keeps_modify. intros w Hw. by apply reclaim_bounded. Qed.
Local Hint Resolve reclaim_keeps : bounded.

(** ** Calls *)

Lemma keeps_leaves {A} (m : M A) :
  leaves (λ w, (inner w, staging (pools w), staging_pool (pools w))) m → keeps m.
Proof. intros H w Hw. specialize (H w). unfold bounded in *. injection H as -> -> ->. done. Qed.
Lemma owns_keeps b : keeps (owns b).
Proof. apply keeps_leaves. intros w. unfold owns. by case_match. Qed.
Lemma owns_all_keeps views : keeps (owns_all views).
Proof. induction views as [|v views IH]; cbn [owns_all]; [by intros w|]. by apply keeps_bind; [apply owns_keeps|]. Qed.
Local Hint Resolve owns_keeps owns_all_keeps : bounded.
Lemma wait_for_keeps r k : keeps (wait_for r k).
Proof. unfold wait_for. hold. Qed.
Local Hint Resolve wait_for_keeps : bounded.
Lemma inner_wait_keeps r : keeps (inner_wait r).
Proof. intros w Hw. unfold inner_wait. case_match; [by apply wait_for_keeps|done]. Qed.
Local Hint Resolve inner_wait_keeps : bounded.
Lemma fence_keeps env c : keeps (fence env c).
Proof. intros w Hw. unfold fence. repeat case_match; try done. by apply wait_for_keeps. Qed.
Lemma submit_parts_keeps env c i parts : keeps (submit_parts env c i parts).
Proof. revert i. induction parts as [|p parts IH]; intros i; cbn [submit_parts]; hold. Qed.
Local Hint Resolve fence_keeps submit_parts_keeps : bounded.
Lemma submit_keeps env c : keeps (submit env c).
Proof. unfold submit. hold. Qed.
Lemma reserve_keeps env n : keeps (reserve env n).
Proof. intros w Hw. unfold reserve. repeat case_match; done. Qed.
Lemma new_native_keeps env n h c : keeps (new_native env n h c).
Proof. unfold new_native. hold. Qed.
Lemma new_buffer_keeps b n c p : keeps (new_buffer b n c p).
Proof. unfold new_buffer, own. hold. Qed.
Local Hint Resolve submit_keeps reserve_keeps new_native_keeps new_buffer_keeps : bounded.
Lemma allocate_staging_keeps env n : keeps (allocate_staging env n).
Proof. unfold allocate_staging. hold. Qed.
Lemma host_write_keeps env b o l : keeps (host_write env b o l).
Proof. unfold host_write. hold. Qed.
Lemma host_read_keeps env b o n : keeps (host_read env b o n).
Proof. unfold host_read. hold. Qed.
Lemma native_copy_keeps env limit dst src : keeps (native_copy env limit dst src).
Proof. by intros w. Qed.
Lemma native_fill_keeps env limit dst v : keeps (native_fill env limit dst v).
Proof. by intros w. Qed.
Lemma give_keeps b : keeps (give b).
Proof. unfold give, disown. hold. Qed.
Lemma retain_keeps views : keeps (retain views).
Proof. unfold retain. hold. Qed.
Local Hint Resolve allocate_staging_keeps host_write_keeps host_read_keeps native_copy_keeps native_fill_keeps give_keeps retain_keeps : bounded.
Lemma prepare_fill_keeps env dst v : keeps (prepare_fill env dst v).
Proof. unfold prepare_fill, find_transfer. hold. Qed.
Lemma prepare_copy_keeps env dst src : keeps (prepare_copy env dst src).
Proof. unfold prepare_copy, find_transfer. hold. Qed.
Local Hint Resolve prepare_fill_keeps prepare_copy_keeps : bounded.
Lemma fill_keeps env dst v : keeps (fill env dst v).
Proof. unfold fill. hold. Qed.
Lemma copy_keeps env dst src : keeps (copy env dst src).
Proof. unfold copy. hold. Qed.
Lemma synchronize_keeps env : keeps (synchronize env).
Proof. unfold synchronize. hold. Qed.
Lemma copy_staging_keeps env dst src : keeps (copy_staging env dst src).
Proof. unfold copy_staging. hold. Qed.
Local Hint Resolve fill_keeps copy_keeps synchronize_keeps copy_staging_keeps : bounded.
Lemma stage_keeps env dst l : keeps (stage env dst l).
Proof. unfold stage. hold. Qed.
Lemma unstage_keeps env src n : keeps (unstage env src n).
Proof. unfold unstage. hold. Qed.
Lemma take_free_keeps n : keeps (take_free n).
Proof.
  intros w Hw. unfold take_free. destruct (list_find _ _) as [[i b]|] eqn:E; [|done]. apply list_find_Some in E as (Hi & _ & _).
  destruct Hw as [B1 B2 B3 B4 B5 B6 B7 B8 B9 B10]. constructor; try done. cbn. pose proof (swap_remove_perm _ _ _ Hi) as Hp.
  apply Permutation_length in Hp. cbn in Hp. lia.
Qed.
Lemma write_data_keeps env b data : keeps (write_data env b data).
Proof. unfold write_data. hold. Qed.
Local Hint Resolve stage_keeps unstage_keeps take_free_keeps write_data_keeps : bounded.
Lemma allocate_initialized_keeps env env' n data : keeps (allocate_initialized env env' n data).
Proof. unfold allocate_initialized, allocate_shared, device_only. hold. Qed.
Lemma fill_now_keeps env dst v : keeps (fill_now env dst v).
Proof. unfold fill_now. hold. Qed.
Local Hint Resolve allocate_initialized_keeps fill_now_keeps : bounded.
Lemma allocate_keeps env n : keeps (allocate env n).
Proof. unfold allocate. apply call_bounded. hold. Qed.
Lemma allocate_from_keeps env env' l : keeps (allocate_from env env' l).
Proof. unfold allocate_from. destruct l; [by intros w|]. apply call_bounded. hold. Qed.
Lemma allocate_zeroed_keeps env env' n : keeps (allocate_zeroed env env' n).
Proof. unfold allocate_zeroed, device_only. apply call_bounded. hold. Qed.
Lemma shared_keeps env n : keeps (shared env n).
Proof. unfold shared, allocate_shared. apply call_bounded. hold. Qed.
Lemma upload_blocking_keeps env env' dst l : keeps (upload_blocking env env' dst l).
Proof. unfold upload_blocking, device_only. apply call_bounded. hold. Qed.
Lemma read_blocking_keeps env env' src n : keeps (read_blocking env env' src n).
Proof. unfold read_blocking, device_only. apply call_bounded. hold. Qed.
Lemma read_keeps env src : keeps (read env src).
Proof. unfold read, disown. apply call_bounded. hold. Qed.
Lemma take_readback_keeps i : keeps (take_readback i).
Proof. intros w Hw. unfold take_readback. by case_match. Qed.
Local Hint Resolve take_readback_keeps : bounded.
Lemma readback_wait_keeps env i : keeps (readback_wait env i).
Proof. unfold readback_wait. apply call_bounded. hold. Qed.
Lemma readback_drop_keeps i : keeps (readback_drop i).
Proof. unfold readback_drop. apply call_bounded. hold. Qed.
Lemma event_wait_keeps env ev : keeps (event_wait env ev).
Proof. unfold event_wait. hold. Qed.
Local Hint Resolve event_wait_keeps : bounded.
Lemma wait_event_keeps env ev : keeps (wait_event env ev).
Proof. unfold wait_event. hold. Qed.
Lemma submission_keeps env : keeps (submission_is_complete env).
Proof. unfold submission_is_complete, event_is_complete, refresh. hold. Qed.
Lemma prepare_dispatch_keeps env l views : keeps (prepare_dispatch env l views).
Proof. unfold prepare_dispatch. hold. Qed.
Local Hint Resolve prepare_dispatch_keeps : bounded.
Lemma dispatch_cached_keeps env l c : 0 <= c_storage c → keeps (let! _ := submit env c in modify (cache_dispatch l c)).
Proof. intros Hc. apply keeps_bind; [apply submit_keeps|]. intros _ w. by apply cache_dispatch_bounded. Qed.
Lemma prepare_dispatch_storage env l views w w' c : prepare_dispatch env l views w = (w', Ok c) → 0 <= c_storage c.
Proof.
  unfold prepare_dispatch, bind, lift, gets, ret. destruct (outcome env CValidate); [|done]. destruct (owns_all views w) as [w1 []]; [|done].
  destruct (outcome env CPrepare); [|done]. intros [= <- <-]. apply Nat2Z.is_nonneg.
Qed.
Lemma dispatch_keeps env k g b c views : keeps (dispatch env k g b c views).
Proof.
  unfold dispatch. apply keeps_bind; [apply retain_keeps|]. intros _. apply keeps_bind; [by intros w|]. intros cfg. apply keeps_if; [|hold].
  apply keeps_bind; [by intros w|]. intros [x|]; [apply submit_keeps|]. intros w Hw. set (l := mkLaunch _ _ _ _ _). unfold bind at 1.
  pose proof (prepare_dispatch_keeps env l views w Hw) as Hp. destruct (prepare_dispatch env l views w) as [w1 [x|e]] eqn:E; [|done].
  apply (dispatch_cached_keeps env l x); [by eapply prepare_dispatch_storage|done].
Qed.

(** A staging buffer on its way from the pool, or fresh. *)
Lemma total_cons b l : total (b :: l) = bytes b + total l.
Proof. done. Qed.
Lemma take_staging_bounded env n w :
  0 <= n → bounded w → total (staging (pools w)) + n <= STAGING_LIMIT →
  let w' := (take_staging env n w).1 in
  bounded w' ∧ staging (pools w') = staging (pools w) ∧
  ∀ b, (take_staging env n w).2 = Ok b →
    0 <= bytes b ∧ bytes b + total (staging (pools w)) + total (staging_pool (pools w')) <= 2 * STAGING_LIMIT.
Proof.
  intros Hn Hw Ht. unfold take_staging. destruct (x ← _; _) as [[i b]|] eqn:E.
  - apply bind_Some in E as ([j s] & Hs & E). apply bind_Some in E as (b' & Hb & [= <- <-]). cbn in Hb.
    pose proof (swap_remove_perm _ _ _ Hb) as Hp. set (rest := swap_remove j _) in *. clearbody rest.
    destruct Hw as [B1 B2 B3 B4 B5 B6 B7 B8 B9 B10]. apply Forall_app in B10 as [B10 B11]. rewrite Hp in B11.
    inversion_clear B11 as [|? ? Hb0 Hb1]. pose proof (Permutation_length Hp) as El. cbn in El.
    assert (total (staging_pool (pools w)) = bytes b' + total rest) as Et by (unfold total; by rewrite (zsum_perm _ _ _ Hp)).
    cbn. split_and!; [|done|].
    + constructor; try done; cbn [pools set_staging set_pools set_locals staging staging_pool]; [lia|lia|lia|by apply Forall_app].
    + intros b [= <-]. lia.
  - cbn zeta. split_and!; [by apply allocate_staging_keeps| |].
    + unfold allocate_staging, bind, reserve, new_native, bind, lift, gets, modify, ret, new_buffer, own, bind.
      repeat (case_match; simplify_eq; try done).
    + intros b. pose proof (bd_pooled _ _ _ Hw) as Hp.
      unfold allocate_staging, bind, reserve, new_native, bind, lift, gets, modify, ret, new_buffer, own, bind.
      destruct (budgeted (config w)); [destruct (outcome env CReserve); [|done]|]; (destruct (outcome env CAllocate); [|done]); cbn; intros [= <-]; cbn; lia.
Qed.

(** Room for a buffer among the staged ones, which calls in between leave. *)
Definition staged_of (w : World) : list Buffer * list Buffer := (staging (pools w), staging_pool (pools w)).
Definition room (b : Buffer) (w : World) : Prop :=
  bounded w ∧ (length (staging (pools w)) < 8)%nat ∧ 0 <= bytes b ∧
  bytes b + total (staging (pools w)) + total (staging_pool (pools w)) <= 2 * STAGING_LIMIT.
Lemma room_bind {A B} b (m : M A) (k : A → M B) w :
  keeps m → leaves staged_of m → room b w → (∀ a w', room b w' → bounded (k a w').1) → bounded (bind m k w).1.
Proof.
  intros Hm Hl (H1 & H2 & H3 & H4) Hk. specialize (Hm w H1). specialize (Hl w). unfold bind. destruct (m w) as [w' [a|e]]; [|done].
  apply Hk. cbn in Hl. injection Hl as E1 E2. unfold room. rewrite E1, E2. done.
Qed.
Lemma push_staged_bounded b w :
  room b w → bounded (set_staging (staging (pools w) ++ [b]) (staging_pool (pools w)) w).
Proof.
  intros ([B1 B2 B3 B4 B5 B6 B7 B8 B9 B10] & H1 & H2 & H3). constructor; try done; cbn [pools set_staging set_pools staging staging_pool].
  - rewrite length_app. cbn. lia.
  - unfold total at 1. rewrite zsum_app. cbn. fold (total (staging (pools w))). lia.
  - apply Forall_app in B10 as [B10 B11]. apply Forall_app. split; [|done]. apply Forall_app. split; [done|by apply Forall_singleton].
Qed.
Lemma owns_staged b : leaves staged_of (owns b).
Proof. intros w. unfold owns. by case_match. Qed.
Lemma copy_staged env dst src : leaves staged_of (copy env dst src).
Proof.
  unfold copy. apply leaves_bind; [by intros w|]. intros _. apply leaves_bind; [|intros c; apply (leaves_submit (λ p, (staging p, staging_pool p)))].
  unfold prepare_copy. apply leaves_bind; [apply owns_staged|]. intros _. apply leaves_bind; [apply owns_staged|]. intros _.
  apply leaves_if; [done|]. apply leaves_bind; [done|]. intros [c|]; [done|]. apply leaves_bind; [done|]. intros cfg.
  apply leaves_bind; [done|]. intros c. apply leaves_bind; [|done]. by apply leaves_if.
Qed.
Lemma upload_chunk_keeps env dst l : Z.of_nat (length l) <= STAGING_LIMIT → keeps (upload_chunk env dst l).
Proof.
  intros Hn w Hw. unfold upload_chunk. set (n := Z.of_nat (length l)) in *. assert (0 <= n) as H0 by lia. clearbody n.
  unfold bind at 1, gets at 1. set (rest := λ _ : unit, _).
  assert (∀ w1, bounded w1 → (length (staging (pools w1)) < 8)%nat → total (staging (pools w1)) + n <= STAGING_LIMIT → bounded (rest tt w1).1) as Hrest.
  { intros w1 H1 Hlen Htot. unfold rest. unfold bind at 1. destruct (take_staging_bounded env n w1 H0 H1 Htot) as (T1 & T2 & T3).
    destruct (take_staging env n w1) as [w2 [b|e]]; [|done]. cbn in T1, T2. destruct (T3 b eq_refl) as [T4 T5]. cbn in T5.
    assert (room b w2) as Hroom by (unfold room; rewrite T2; done). clear T1 T2 T3 T4 T5.
    apply (room_bind b); [apply host_write_keeps|by unfold host_write; apply leaves_bind; [|intros ?; apply leaves_modify]|done|]. intros _ w3 R3.
    apply (room_bind b); [by intros u|done|done|]. intros to w4 R4. apply (room_bind b); [by intros u|done|done|]. intros from w5 R5.
    apply (room_bind b); [apply copy_keeps|apply copy_staged|done|]. intros _ w6 R6.
    apply (room_bind b); [by intros u|done|done|]. intros _ w7 R7. by apply push_staged_bounded. }
  destruct (pressed w n) eqn:Ep.
  - unfold synchronize, bind. pose proof (inner_wait_keeps (outcome env CWait) w Hw) as H1.
    destruct (inner_wait (outcome env CWait) w) as [w1 [[]|e]]; [|done]. unfold modify. cbn in H1. destruct (reclaim_bounded w1 H1) as [R1 R2].
    apply Hrest; [exact R1|cbn; rewrite R2; cbn; lia|cbn; rewrite R2; change (total []) with 0; lia].
  - unfold pressed in Ep. apply orb_false_iff in Ep as [E1 E2]. apply Nat.leb_gt in E1. apply Z.ltb_ge in E2. apply (Hrest w Hw E1).
    unfold saturating_add, STAGING_LIMIT, MIB64, usize_max in *. lia.
Qed.
Lemma byte_chunks_bounded fuel l : Forall (λ c, Z.of_nat (length c) <= STAGING_LIMIT) (byte_chunks fuel l).
Proof.
  revert l. induction fuel as [|fuel IH]; intros l; cbn [byte_chunks]; [done|]. destruct l as [|x l]; [done|].
  set (k := x :: l). clearbody k. destruct (Z.leb_spec (Z.of_nat (length k)) STAGING_LIMIT); [by apply Forall_singleton|].
  constructor; [|apply IH]. rewrite length_take. unfold STAGING_LIMIT, MIB64 in *. lia.
Qed.
Lemma upload_keeps envs dst l : keeps (upload envs dst l).
Proof.
  apply call_bounded. apply keeps_bind; [apply owns_keeps|]. intros _. apply keeps_bind; [by intros w|]. intros _.
  pose proof (byte_chunks_bounded (length l) l) as Hc. generalize 0%nat. induction Hc as [|c cs Hc _ IH]; intros i; cbn [upload_chunks]; [by intros w|].
  apply keeps_bind; [by intros w|]. intros part. apply keeps_bind; [by apply upload_chunk_keeps|]. intros _. apply IH.
Qed.

(** ** Every move *)

Lemma drop_handle_bounded i w : bounded w → bounded (drop_handle i w).
Proof. intros Hw. unfold drop_handle. case_match; [|done]. by apply drop_buffer_bounded. Qed.
Lemma recycle_keeps i : keeps (recycle i).
Proof. intros w Hw. unfold recycle. repeat case_match; try done; by apply drop_handle_bounded. Qed.
Lemma get_scratch_keeps env n : keeps (get_scratch env n).
Proof.
  intros w Hw. unfold get_scratch. destruct (take_scratch n w) as [[b w']|] eqn:E; [|by apply allocate_keeps].
  unfold take_scratch in E. apply bind_Some in E as ([size l] & _ & E). by apply bind_Some in E as (x & _ & [= <- <-]).
Qed.
Lemma set_scratch_limit_bounded n w : bounded w → bounded (set_scratch_limit n w).
Proof.
  intros Hw. unfold set_scratch_limit. destruct (shrink_scratch _ _ _ _) as [[m h] e]. by apply drop_buffers_bounded.
Qed.
Lemma validate_after_keeps i after : keeps (validate_after i after).
Proof. by intros w Hw. Qed.
Lemma record_node_keeps i n after views : keeps (record_node i n after views).
Proof. intros w Hw. unfold record_node. by repeat case_match. Qed.
Lemma graph_fill_keeps env i after dst v : keeps (graph_fill env i after dst v).
Proof.
  apply keeps_bind; [apply validate_after_keeps|]. intros _. apply keeps_bind; [hold|]. intros _. case_match; [hold|].
  apply keeps_bind; [hold|]. intros c. apply record_node_keeps.
Qed.
Lemma graph_copy_keeps env i after dst src : keeps (graph_copy env i after dst src).
Proof.
  apply keeps_bind; [apply validate_after_keeps|]. intros _. do 2 (apply keeps_bind; [hold|]; intros _). case_match; [hold|].
  apply keeps_bind; [hold|]. intros c. apply record_node_keeps.
Qed.
Lemma graph_dispatch_keeps env i after k g b c views : keeps (graph_dispatch env i after k g b c views).
Proof.
  apply keeps_bind; [apply validate_after_keeps|]. intros _. apply keeps_bind; [hold|]. intros x. apply record_node_keeps.
Qed.
Lemma graph_join_keeps i after : keeps (graph_join i after).
Proof. apply keeps_bind; [apply validate_after_keeps|]. intros _. apply record_node_keeps. Qed.
Lemma submit_all_keeps envs orders i l : keeps (submit_all envs orders i l).
Proof. revert i. induction l as [|c l IH]; intros i; cbn [submit_all]; hold. Qed.
Lemma launch_keeps envs orders i : keeps (launch envs orders i).
Proof.
  intros w Hw. unfold launch. repeat case_match; try done. match goal with |- bounded (?m w).1 => enough (keeps m) as Hk by (by apply Hk) end.
  apply keeps_bind; [by intros u|]. intros _. apply keeps_bind; [apply submit_all_keeps|]. intros _. hold.
Qed.
Lemma finish_graph_keeps r i : keeps (finish_graph r i).
Proof. intros w Hw. unfold finish_graph. by repeat case_match. Qed.
Lemma graph_drop_bounded env i w : bounded w → bounded (graph_drop env i w).
Proof. intros Hw. unfold graph_drop. by repeat case_match. Qed.
Lemma stream_drop_bounded env w : bounded w → bounded (stream_drop env w).
Proof.
  intros Hw. unfold stream_drop. pose proof (inner_wait_keeps (outcome env CWait) w Hw) as H.
  destruct (inner_wait (outcome env CWait) w) as [w1 r]. apply drop_buffers_bounded.
  destruct H as [B1 B2 B3 B4 B5 B6 B7 B8 B9 B10]. constructor; try done; cbn; lia.
Qed.
Lemma storage_buffer_keeps r b : keeps (storage_buffer r b).
Proof. unfold storage_buffer. hold. Qed.
Lemma import_keeps n other h : keeps (import n other h).
Proof. unfold import. hold. Qed.

Lemma step_bounded w w' : bounded w → step w w' → bounded w'.
Proof.
  intros Hw [lost Hm]. destruct Hm.
  - by apply allocate_keeps.
  - by apply allocate_from_keeps.
  - by apply allocate_zeroed_keeps.
  - by apply allocate_zeroed_keeps.
  - by apply shared_keeps.
  - by apply storage_buffer_keeps.
  - by apply import_keeps.
  - by apply drop_handle_bounded.
  - by apply synchronize_keeps.
  - by apply wait_event_keeps.
  - by apply event_wait_keeps.
  - by apply submission_keeps.
  - by apply upload_blocking_keeps.
  - by apply read_blocking_keeps.
  - by apply fill_keeps.
  - by apply copy_keeps.
  - by apply upload_keeps.
  - by apply dispatch_keeps.
  - by apply get_scratch_keeps.
  - by apply recycle_keeps.
  - by apply set_scratch_limit_bounded.
  - by apply read_keeps.
  - by apply readback_wait_keeps.
  - by apply readback_drop_keeps.
  - done.
  - by apply graph_fill_keeps.
  - by apply graph_copy_keeps.
  - by apply graph_dispatch_keeps.
  - by apply graph_join_keeps.
  - by apply finish_graph_keeps.
  - by apply launch_keeps.
  - by apply graph_drop_bounded.
  - done.
  - by apply stream_drop_bounded.
  - by match goal with H : device_step _ _ = Some _ |- _ => apply bind_Some in H as ([i x] & _ & [= <-]) end.
  - done.
Qed.
Lemma initial_bounded w : initial w → bounded w.
Proof. intros [_ _ I1 I2 _]. unfold bounded. rewrite I1, I2. constructor; cbn; try done; lia. Qed.
Lemma reachable_bounded w : reachable w → bounded w.
Proof. intros (w0 & H0 & Hs). apply initial_bounded in H0. induction Hs as [|x y z Hxy _ IH]; [done|]. apply IH. by eapply step_bounded. Qed.

(** C38. On every path of every call, failures included, a stream keeps at most 128
    cached transfers, 1024 cached dispatches of 16 MiB together, 16 released
    allocations and 8 staging buffers in flight; its staging pool holds at most
    8 buffers of 64 MiB together, staged and pooled buffers at most 128 MiB;
    and reclaiming the staged buffers never looks for one to evict in an empty
    pool. *)
Theorem stream_caches_are_bounded w :
  reachable w →
  (length (transfer_cache (inner w)) <= 128)%nat ∧
  (length (dispatch_cache (inner w)) <= 1024)%nat ∧ zsum stored (dispatch_cache (inner w)) <= 16 * 1024 * 1024 ∧
  (length (free (inner w)) <= 16)%nat ∧
  (length (staging (pools w)) <= 8)%nat ∧ (length (staging_pool (pools w)) <= 8)%nat ∧
  total (staging_pool (pools w)) <= 64 * 1024 * 1024 ∧
  total (staging (pools w)) + total (staging_pool (pools w)) <= 128 * 1024 * 1024 ∧
  is_Some (reclaim_loop (staging (pools w)) (staging_pool (pools w)) (total (staging_pool (pools w)))).
Proof.
  intros [B1 B2 B3 B4 B5 B6 B7 B8 B9 B10]%reachable_bounded. split_and!; try done.
  destruct (reclaim_loop_bounds _ _ B10 B7 B8) as (pool & ev & -> & _). eauto.
Qed.
Lemma stream_caches_are_bounded_witness :
  length (transfer_cache (inner StreamTheorems.demo2)) = 1%nat ∧ (length (staging (pools StreamTheorems.demo2)) <= 8)%nat.
Proof.
  split; [vm_compute; reflexivity|].
  exact (proj1 (proj2 (proj2 (proj2 (proj2 (stream_caches_are_bounded _ StreamTheorems.stream_demo2_reachable)))))).
Defined.
End StreamBounds.
