(* ===== verification/Target.v ===== *)
(** * Deployment targets

    [Target] of src/src/target.rs, with the fallible state used by the files on
    bundles and model sessions. *)

From Stdlib Require Import Ascii.
From S2P Require Import Prelude.
Local Open Scope Z_scope.

(** ** Fallible state *)

Module St.
Definition St (S A : Type) : Type := S → S * Result A.
Section St.
Context {S : Type}.
Definition ret {A} (a : A) : St S A := λ s, (s, Ok a).
Definition fail {A} (e : Error) : St S A := λ s, (s, Err e).
Definition bind {A B} (m : St S A) (k : A → St S B) : St S B :=
  λ s, match m s with (s, Ok a) => k a s | (s, Err e) => (s, Err e) end.
Definition lift {A} (r : Result A) : St S A := λ s, (s, r).
Definition gets {A} (f : S → A) : St S A := λ s, (s, Ok (f s)).
Definition modify (f : S → S) : St S unit := λ s, (f s, Ok tt).
(** A fallible suffix whose failure runs a handler ([Drop] of a guard). *)
Definition guarded {A} (on_error : S → S) (m : St S A) : St S A :=
  λ s, match m s with (s, Ok a) => (s, Ok a) | (s, Err e) => (on_error s, Err e) end.

(** What holds after a success ([Q]) and after a failure ([R]). *)
Definition wp {A} (m : St S A) (Q : A → S → Prop) (R : S → Prop) (s : S) : Prop :=
  match m s with (s', Ok a) => Q a s' | (s', Err _) => R s' end.
Lemma bind_wp {A B} (m : St S A) (k : A → St S B) Q R s :
  wp m (λ a, wp (k a) Q R) R s → wp (bind m k) Q R s.
Proof. unfold wp, bind. by destruct (m s) as [s' [a|e]]. Qed.
Lemma mono_wp {A} (m : St S A) (Q Q' : A → S → Prop) (R R' : S → Prop) s :
  wp m Q R s → (∀ a s', Q a s' → Q' a s') → (∀ s', R s' → R' s') → wp m Q' R' s.
Proof. unfold wp. intros H H1 H2. destruct (m s) as [s' [a|e]]; auto. Qed.
Lemma lift_wp {A} (r : Result A) (Q : A → S → Prop) (R : S → Prop) s :
  R s → (∀ a, r = Ok a → Q a s) → wp (lift r) Q R s.
Proof. unfold wp, lift. destruct r; auto. Qed.
Lemma guarded_wp {A} h (m : St S A) Q R s : wp m Q (λ s', R (h s')) s → wp (guarded h m) Q R s.
Proof. unfold wp, guarded. by destruct (m s) as [s' [a|e]]. Qed.
Lemma run_wp {A} (m : St S A) Q R s s' r : wp m Q R s → m s = (s', r) → match r with Ok a => Q a s' | Err _ => R s' end.
Proof. unfold wp. intros H E. rewrite E in H. by destruct r. Qed.
End St.
End St.
Notation "'let^' x := m 'in' k" := (St.bind m (λ x, k))
  (at level 10, x pattern, m at level 100, k at level 200) : hrx_scope.

(** ** Strings *)

(** [str::strip_prefix], [str::starts_with]. *)
Fixpoint strip_prefix (prefix s : string) : option string :=
  match prefix, s with
  | EmptyString, _ => Some s
  | String c prefix, String d s => if Ascii.eqb c d then strip_prefix prefix s else None
  | _, _ => None
  end.
Definition starts_with (prefix s : string) : bool := bool_decide (is_Some (strip_prefix prefix s)).
Fixpoint all_bytes (p : Ascii.ascii → bool) (s : string) : bool :=
  match s with
  | EmptyString => true
  | String c s => p c && all_bytes p s
  end.
Definition between (lo hi c : Ascii.ascii) : bool :=
  (Ascii.nat_of_ascii lo <=? Ascii.nat_of_ascii c)%nat && (Ascii.nat_of_ascii c <=? Ascii.nat_of_ascii hi)%nat.
Definition is_digit (c : Ascii.ascii) : bool := between "0"%char "9"%char c.
Definition is_lower_hex (c : Ascii.ascii) : bool := is_digit c || between "a"%char "f"%char c.

Lemma strip_prefix_app prefix s : strip_prefix prefix (prefix +:+ s) = Some s.
Proof.
  induction prefix as [|c prefix IH]; [done|]. change (String c prefix +:+ s) with (String c (prefix +:+ s)). cbn [strip_prefix].
  by rewrite Ascii.eqb_refl.
Qed.
Lemma strip_prefix_Some prefix s rest : strip_prefix prefix s = Some rest → s = prefix +:+ rest.
Proof.
  revert s. induction prefix as [|c prefix IH]; intros s; cbn [strip_prefix]; [by intros [= ->]|].
  destruct s as [|d s]; [done|]. destruct (Ascii.eqb_spec c d) as [->|]; [|done]. intros H%IH. by subst s.
Qed.

(** ** Targets *)

Module Target.
Definition XDNA : string := "amd.xdna.strix_halo.17f0_11".
(** [Target::new]. *)
Definition new (key : string) : Result string :=
  if String.eqb key XDNA then Ok key
  else if negb (all_bytes (λ c, negb (Ascii.eqb c ":"%char)) key)
  then Err (Message "expected a bare AMDGPU target, found feature-suffixed name")
  else
    let suffix := default EmptyString (strip_prefix "gfx" key) in
    if negb ((3 <=? String.length suffix)%nat && (String.length suffix <=? 4)%nat) || negb (all_bytes is_lower_hex suffix)
    then Err (Message "invalid AMDGPU target")
    else Ok key.
(** [Target::is_xdna], [artifact_format], [artifact_filename]. *)
Definition is_xdna (key : string) : bool := starts_with "amd.xdna." key.
Definition artifact_format (key : string) : string := if is_xdna key then "xdna" else "amdgpu-hsaco".
Definition artifact_filename (key : string) : string := if is_xdna key then "kernel.xdna" else "kernel.hsaco".
(** [Target::manifest_key]. *)
Definition PLATFORM : string := "x86_64-unknown-linux-gnu-".
Definition manifest_key (key : string) : string := PLATFORM +:+ key.
(** [Target::subgroup_size], [Target::loom_record]. *)
Definition subgroup_size (key : string) : Z := if starts_with "gfx9" key then 64 else 32.
Definition loom_record (key symbol : string) : string :=
  let family := if starts_with "gfx11" key then "gfx11-generic" else key in
  "amdgpu.target<" +:+ family +:+ "> @" +:+ symbol +:+ " {subgroup_size = " +:+ pretty (subgroup_size key) +:+ "}".
(** [Manifest::gpu_target] of src/src/bundle.rs. *)
Definition of_manifest_key (target : string) : Result string :=
  match strip_prefix PLATFORM target with
  | Some key => new key
  | None => Err (Message "unsupported bundle platform")
  end.

(** A target survives its bundle identifier, and a key accepted as a target is
    its own rendering. *)
Theorem manifest_key_round_trip key t : new key = Ok t → of_manifest_key (manifest_key t) = Ok t ∧ t = key.
Proof.
  intros H. assert (t = key) as ->.
  { unfold new in H. repeat case_match; congruence. }
  unfold of_manifest_key, manifest_key. by rewrite strip_prefix_app.
Qed.
Example new_examples :
  new "gfx1151" = Ok "gfx1151" ∧ is_ok (new "gfx906:xnack+") = false ∧ is_ok (new "gfx11-generic") = false ∧
  is_ok (new "gfx1") = false ∧ loom_record "gfx1151" "t" = "amdgpu.target<gfx11-generic> @t {subgroup_size = 32}" ∧
  loom_record "gfx906" "t" = "amdgpu.target<gfx906> @t {subgroup_size = 64}".
Proof. vm_compute. repeat split. Qed.
End Target.
