(* ===== verification/Bundle.v ===== *)
(** * Runtime bundles

    [Manifest], [install], [prepare] and [collect] of src/src/bundle.rs over a
    directory tree.  Hashing, unpacking, rendering and downloading are
    arguments; the outcome of every system call is an argument too.  While a
    process waits for a lock, other processes may change the directory in any
    way; what a process does while it holds the lock of a digest is one
    transition, since the entries of that digest change under its lock only. *)

From Stdlib Require Import Ascii.
From S2P Require Import Prelude Target.
Local Open Scope Z_scope.

Module Bundle.

(** ** Directory trees *)

(** A regular file, a directory with its entries in the order [read_dir] lists
    them, or a symbolic link; access times where the file system has them, of a
    link its own. *)
Inductive Node : Type :=
| NFile (data : list Z) (accessed : option Z)
| NDir (accessed : option Z) (entries : list (string * Node))
| NLink (accessed : option Z).
Definition Disk : Type := list (string * Node).
Fixpoint assoc {A} (k : string) (l : list (string * A)) : option A :=
  match l with
  | [] => None
  | (k', v) :: rest => if String.eqb k k' then Some v else assoc k rest
  end.
Definition without {A} (k : string) (l : list (string * A)) : list (string * A) := filter (λ e, e.1 ≠ k) l.
Definition with_entry {A} (k : string) (v : A) (l : list (string * A)) : list (string * A) := without k l ++ [(k, v)].
Definition child (name : string) (n : Node) : option Node :=
  match n with NDir _ l => assoc name l | _ => None end.

(** ** Lookup *)

Lemma assoc_app {A} k (l l' : list (string * A)) : assoc k (l ++ l') = match assoc k l with Some v => Some v | None => assoc k l' end.
Proof. induction l as [|[k' v] l IH]; [done|]. cbn [assoc app]. by destruct (String.eqb k k'). Qed.
Lemma assoc_without {A} k k' (l : list (string * A)) : assoc k (without k' l) = if String.eqb k k' then None else assoc k l.
Proof.
  unfold without. induction l as [|[x v] l IH]; [by destruct (String.eqb k k')|]. destruct (decide (x = k')) as [->|Hne].
  - rewrite filter_cons_False by (cbn; naive_solver). rewrite IH. cbn [assoc]. by destruct (String.eqb_spec k k').
  - rewrite filter_cons_True by done. cbn [assoc]. destruct (String.eqb_spec k x) as [->|]; [|done].
    by rewrite (proj2 (String.eqb_neq x k')).
Qed.
Lemma assoc_with_entry {A} k k' (v : A) l : assoc k (with_entry k' v l) = if String.eqb k k' then Some v else assoc k l.
Proof.
  unfold with_entry. rewrite assoc_app, assoc_without. cbn [assoc]. destruct (String.eqb k k'); [done|]. by destruct (assoc k l).
Qed.
Lemma assoc_in {A} k (v : A) l : assoc k l = Some v → (k, v) ∈ l.
Proof.
  induction l as [|[k' v'] l IH]; [done|]. cbn [assoc]. destruct (String.eqb_spec k k') as [->|]; [intros [= ->]; by left|].
  intros H. right. by apply IH.
Qed.

Lemma string_length_app s t : String.length (s +:+ t) = (String.length s + String.length t)%nat.
Proof. induction s as [|c s IH]; [done|]. change (String c s +:+ t) with (String c (s +:+ t)). cbn. by rewrite IH. Qed.
Lemma append_lock_ne (s t : string) : t ≠ "" → String.eqb s (s +:+ t) = false.
Proof.
  intros Ht. apply String.eqb_neq. intros E. apply (f_equal String.length) in E. rewrite string_length_app in E.
  destruct t; [done|]. cbn in E. lia.
Qed.

(** ** Manifests *)

Record Manifest : Type := mkManifest {
  schema : Z;
  target : string;
  revision : string;
  url : string;
  archive_sha256 : string;
  files : list (string * string) }.

Definition valid_digest (s : string) : bool := (String.length s =? 64)%nat && all_bytes is_lower_hex s.
Definition name_byte (c : ascii) : bool :=
  is_digit c || between "a"%char "z"%char c || between "A"%char "Z"%char c
  || Ascii.eqb c "."%char || Ascii.eqb c "_"%char || Ascii.eqb c "-"%char.
Definition valid_name (s : string) : bool :=
  negb (String.eqb s "") && negb (String.eqb s ".") && negb (String.eqb s "..") && all_bytes name_byte s.
(** [Manifest::validate]. *)
Definition REQUIRED : list string := ["libamdf.so"; "libhrx_fabric.so"; "libloomc.so"].
Definition declares (m : Manifest) (name : string) : bool := bool_decide (is_Some (assoc name (files m))).
Definition validate (m : Manifest) : Result unit :=
  if negb (schema m =? 1) then Err (Message "unsupported runtime manifest schema or target")
  else
    let? _ := Target.of_manifest_key (target m) in
    if negb (valid_digest (archive_sha256 m)) || (length (files m) =? 0)%nat
    then Err (Message "invalid bundle digest or empty bundle")
    else if negb (forallb (λ e, valid_name e.1 && valid_digest e.2) (files m)) then Err (Message "invalid bundle entry")
    else if negb (forallb (declares m) REQUIRED) then Err (Message "bundle is missing a library")
    else Ok tt.

(** ** Processes *)

(** The calls of one operation that may fail. *)
Inductive Site : Type :=
| SCreate | SLock (name : string) | SVerify (phase : nat) (name : string) | SArchive | STemp | SEntry (i : nat)
| SManifest | SRemove (name : string) | SSync | SRename | SRoot | SFlush.
(** Outcomes; what others do while a lock is awaited; the name of a temporary
    directory and what a failed removal leaves of it; the entries removed before
    [remove_dir_all] fails; whether a link leads nowhere. *)
Record Env : Type := mkEnv {
  io : Site → Result unit;
  others : string → Disk → Disk;
  temporary : string;
  leftover : option Node;
  removed : list string;
  dangling : bool }.

(** An entry of an archive. *)
Record Unpacked : Type := mkUnpacked {
  u_name : Result string;
  u_regular : bool;
  u_data : Result (list Z) }.

(** [Lock::acquire]: a link is refused, a missing file is created. *)
Definition with_lock (name : string) (d : Disk) : Disk :=
  match assoc name d with None => with_entry name (NFile [] None) d | Some _ => d end.
Definition locked (env : Env) (name : string) (d : Disk) : Disk := others env name (with_lock name d).
Definition acquire (env : Env) (name : string) : St.St Disk unit :=
  let^ _ := St.lift (io env (SLock name)) in
  let^ n := St.gets (assoc name) in
  match n with
  | Some (NLink _) | Some (NDir _ _) => St.fail (Io "lock")
  | _ => St.modify (locked env name)
  end.

Local Set Default Proof Using "Type".
Section Bundle.
(** [Sha256], the archive reader and [serde_json]. *)
Context (digest : list Z → string) (decode : list Z → Result (list (Result Unpacked)))
        (render : Manifest → Result (list Z)).

(** [Manifest::verify] of a directory, with [file_digest]. *)
Fixpoint verify_files (read : string → Result unit) (l : list (string * string)) (dir : option Node) : Result unit :=
  match l with
  | [] => Ok tt
  | (name, expected) :: rest =>
      match dir ≫= child name with
      | None => Err (Io "not found")
      | Some (NFile data _) =>
          let? _ := read name in
          if String.eqb (digest data) expected then verify_files read rest dir
          else Err (Message "runtime integrity check failed")
      | Some _ => Err (Message "runtime integrity check failed")
      end
  end.
Definition verify (read : string → Result unit) (m : Manifest) (dir : option Node) : Result unit :=
  let? _ := validate m in verify_files read (files m) dir.
Definition verifies (env : Env) (phase : nat) (m : Manifest) (d : Disk) : bool :=
  is_ok (verify (λ name, io env (SVerify phase name)) m (assoc (archive_sha256 m) d)).

(** The loop over the archive of [Manifest::install]. *)
Fixpoint unpack (env : Env) (m : Manifest) (i : nat) (seen : Disk) (l : list (Result Unpacked)) : Result Disk :=
  match l with
  | [] => Ok seen
  | r :: rest =>
      let? e := r in
      let? name := u_name e in
      if negb (valid_name name) || negb (u_regular e) || negb (declares m name) || bool_decide (is_Some (assoc name seen))
      then Err (Message "unexpected runtime archive entry")
      else
        let? _ := io env (SEntry i) in
        let? data := u_data e in
        unpack env m (S i) (seen ++ [(name, NFile data None)]) rest
  end.
(** [TempDir::drop]. *)
Definition cleanup (env : Env) (d : Disk) : Disk :=
  match leftover env with
  | None => without (temporary env) d
  | Some n => with_entry (temporary env) n d
  end.
(** [remove_dir_all] of what may be in the way. *)
Definition remove_existing (env : Env) (name : string) : St.St Disk unit :=
  let^ old := St.gets (assoc name) in
  match old with
  | None => St.ret tt
  | Some (NFile _ _) => St.fail (Io "not a directory")
  | Some (NLink _) =>
      if dangling env then St.ret tt
      else let^ _ := St.lift (io env (SRemove name)) in St.modify (without name)
  | Some (NDir a l) =>
      match io env (SRemove name) with
      | Ok _ => St.modify (without name)
      | Err e =>
          let^ _ := St.modify (with_entry name (NDir a (filter (λ e, e.1 ∉ removed env) l))) in
          St.fail e
      end
  end.
(** [publish]: the rename needs a free name. *)
Definition publish (env : Env) (name : string) (n : Node) : St.St Disk unit :=
  let^ _ := St.lift (io env SRename) in
  let^ blocking := St.gets (assoc name) in
  match blocking with
  | Some _ => St.fail (Io "rename")
  | None => St.modify (λ d, with_entry name n (without (temporary env) d))
  end.
(** [Manifest::install]. *)
Definition install (env : Env) (m : Manifest) (archive : list Z) : St.St Disk string :=
  let key := archive_sha256 m in
  let^ _ := St.lift (validate m) in
  let^ _ := St.lift (io env SCreate) in
  let^ _ := acquire env (key +:+ ".lock") in
  let^ found := St.gets (verifies env 0 m) in
  if found then St.ret key
  else
    let^ _ := St.lift (io env SArchive) in
    if negb (String.eqb (digest archive) key) then St.fail (Message "runtime archive SHA-256 mismatch")
    else
      let^ _ := St.lift (io env STemp) in
      let^ _ := St.modify (with_entry (temporary env) (NDir None [])) in
      let^ _ := St.guarded (cleanup env) (
        let^ entries := St.lift (let? l := decode archive in unpack env m 0 [] l) in
        let^ _ := St.lift (verify (λ name, io env (SVerify 1 name)) m (Some (NDir None entries))) in
        let^ json := St.lift (render m) in
        let^ _ := St.lift (io env SManifest) in
        let^ _ := remove_existing env key in
        let^ _ := St.lift (io env SSync) in
        publish env key (NDir None (with_entry "manifest.json" (NFile json None) entries))) in
      let^ _ := St.lift (io env SRoot) in
      St.ret key.
(** [prepare]; local files and downloads are arguments. *)
Definition prepare (open fetch : string → Result (list Z)) (env : Env) (m : Manifest) (offline : bool) : St.St Disk string :=
  let key := archive_sha256 m in
  let^ _ := St.lift (validate m) in
  let^ found := St.gets (verifies env 2 m) in
  if found then St.ret key
  else
    let^ _ := St.lift (io env SCreate) in
    let^ _ := acquire env (key +:+ ".download.lock") in
    let^ found := St.gets (verifies env 3 m) in
    if found then St.ret key
    else if offline then St.fail (Message "runtime bundle is missing or corrupt")
    else
      let^ archive := St.lift (
        match strip_prefix "file://" (url m) with
        | Some path => open path
        | None => if starts_with "https://" (url m) then fetch (url m)
                  else Err (Message "runtime bundle URL must use HTTPS or file://")
        end) in
      let^ _ := St.lift (io env SFlush) in
      install env m archive.

(** ** Verification *)

(** Every declared file is there, regular, with its digest; [intact] leaves out
    the file the installation itself writes. *)
Definition all_verified (m : Manifest) (dir : option Node) : Prop :=
  ∀ name hash, (name, hash) ∈ files m → ∃ data a, dir ≫= child name = Some (NFile data a) ∧ digest data = hash.
Definition intact (m : Manifest) (dir : option Node) : Prop :=
  ∀ name hash, (name, hash) ∈ files m → name ≠ "manifest.json" →
    ∃ data a, dir ≫= child name = Some (NFile data a) ∧ digest data = hash.
Lemma verify_files_intact read l dir :
  verify_files read l dir = Ok tt →
  ∀ name hash, (name, hash) ∈ l → ∃ data a, dir ≫= child name = Some (NFile data a) ∧ digest data = hash.
Proof.
  induction l as [|[n h] l IH]; [by intros _ ? ? ?%elem_of_nil|]. cbn [verify_files].
  destruct (dir ≫= child n) as [[data a| |]|] eqn:E; [|done..]. destruct (read n) as [[]|]; [|done]. cbn [result_bind].
  destruct (String.eqb_spec (digest data) h) as [<-|]; [|done]. intros H name hash [[= -> ->]|Hin]%elem_of_cons; [eauto|by apply IH].
Qed.
Lemma verify_all read m dir : verify read m dir = Ok tt → all_verified m dir.
Proof. unfold verify. destruct (validate m); [|done]. intros H. exact (verify_files_intact _ _ _ H). Qed.
Lemma verify_intact read m dir : verify read m dir = Ok tt → intact m dir.
Proof. intros H name hash Hin _. by apply (verify_all _ _ _ H). Qed.
(** [verify] fails only on damage, or when a file cannot be read. *)
Lemma all_verified_verifies read m dir :
  validate m = Ok tt → (∀ name, read name = Ok tt) → all_verified m dir → verify read m dir = Ok tt.
Proof.
  intros Hv Hr Hi. unfold verify. rewrite Hv. cbn. unfold all_verified in Hi. revert Hi.
  induction (files m) as [|[n h] l IH]; intros Hi; [done|]. cbn [verify_files].
  destruct (Hi n h) as (data & a & -> & <-); [by left|]. rewrite Hr, String.eqb_refl. apply IH. intros. apply Hi. by right.
Qed.
Lemma intact_with_manifest m json entries :
  intact m (Some (NDir None entries)) →
  intact m (Some (NDir None (with_entry "manifest.json" (NFile json None) entries))).
Proof.
  intros Hi name hash Hin Hne. destruct (Hi name hash Hin Hne) as (data & a & H & Hd). exists data, a. split; [|done]. cbn in *.
  rewrite assoc_with_entry. by rewrite (proj2 (String.eqb_neq name "manifest.json")).
Qed.

(** ** Installation *)

(** Only declared names are unpacked. *)
Lemma unpack_declared env m i seen l entries name n :
  unpack env m i seen l = Ok entries → assoc name entries = Some n → is_Some (assoc name seen) ∨ declares m name = true.
Proof.
  revert i seen. induction l as [|r l IH]; intros i seen; cbn [unpack]; [intros [= <-] ->; eauto|].
  destruct r as [e|]; [|done]. cbn [result_bind]. destruct (u_name e) as [x|]; [|done]. cbn [result_bind].
  destruct (_ || _) eqn:E; [done|]. destruct (io env (SEntry i)); [|done]. cbn [result_bind]. destruct (u_data e) as [data|]; [|done].
  cbn [result_bind]. intros H Hn. destruct (IH _ _ H Hn) as [[v Hv]|Hd]; [|by right]. rewrite assoc_app in Hv.
  destruct (assoc name seen); [eauto|]. cbn [assoc] in Hv. destruct (String.eqb_spec name x) as [->|]; [|done]. right. to_prop. done.
Qed.

Record published (m : Manifest) (dir : option Node) : Prop := {
  pb_intact : intact m dir;
  pb_declared : ∀ name n, dir ≫= child name = Some n → declares m name = true ∨ name = "manifest.json" }.
(** What is left of a directory: nothing new. *)
Definition remains (old dir : option Node) : Prop :=
  ∀ name n, dir ≫= child name = Some n → ∃ o, old = Some o ∧ is_Some (child name o).

Lemma validate_digest m : validate m = Ok tt → valid_digest (archive_sha256 m) = true.
Proof.
  unfold validate. destruct (negb (schema m =? 1)); [done|]. destruct (Target.of_manifest_key _); [|done]. cbn [result_bind].
  destruct (valid_digest _); [done|]. by cbn.
Qed.
Lemma remains_refl d : remains d d.
Proof. intros name n H. destruct d as [o|]; [|done]. exists o. split; [done|]. by exists n. Qed.
Lemma acquire_wp env name d (Q : unit → Disk → Prop) (R : Disk → Prop) :
  R d → Q tt (locked env name d) → St.wp (acquire env name) Q R d.
Proof.
  intros HR HQ. apply St.bind_wp, St.lift_wp; [done|]. intros _ _. unfold St.wp, St.bind, St.gets. by destruct (assoc name d) as [[]|].
Qed.
Lemma remove_existing_wp env name d (Q : unit → Disk → Prop) (R : Disk → Prop) :
  R d → (∀ d', (∀ x, x ≠ name → assoc x d' = assoc x d) → (assoc name d' = None ∨ assoc name d' = assoc name d) → Q tt d') →
  (∀ d', (∀ x, x ≠ name → assoc x d' = assoc x d) → remains (assoc name d) (assoc name d') → R d') →
  St.wp (remove_existing env name) Q R d.
Proof.
  intros HR HQ HR'. unfold remove_existing. apply St.bind_wp. unfold St.wp at 1, St.gets.
  assert (∀ x, x ≠ name → assoc x (without name d) = assoc x d) as Hother.
  { intros x Hx. rewrite assoc_without. by rewrite (proj2 (String.eqb_neq x name)). }
  assert (Q tt (without name d)) as HQ1.
  { apply HQ; [done|]. left. by rewrite assoc_without, String.eqb_refl. }
  destruct (assoc name d) as [[data a|a l|]|] eqn:E; [done| | |by apply HQ; auto].
  - destruct (io env (SRemove name)); [done|]. unfold St.wp, St.bind, St.modify. cbn. apply HR'.
    + intros x Hx. rewrite assoc_with_entry. by rewrite (proj2 (String.eqb_neq x name)).
    + rewrite assoc_with_entry, String.eqb_refl. intros x n Hn. cbn in Hn. apply assoc_in in Hn as [_ Hin]%list_elem_of_filter.
      exists (NDir a l). split; [done|]. cbn. clear -Hin. induction l as [|[k v] l IH]; [by apply elem_of_nil in Hin|]. cbn [assoc].
      destruct (String.eqb_spec x k); [eauto|]. apply elem_of_cons in Hin as [[= -> ->]|Hin]; [done|by apply IH].
  - destruct (dangling env); [apply HQ; auto|]. apply St.bind_wp, St.lift_wp; [done|]. intros _ _. exact HQ1.
Qed.

Definition fate (m : Manifest) (d1 d' : Disk) : Prop :=
  remains (assoc (archive_sha256 m) d1) (assoc (archive_sha256 m) d') ∨ published m (assoc (archive_sha256 m) d').
Lemma install_wp env m archive d :
  valid_digest (temporary env) = false →
  St.wp (install env m archive)
    (λ p d', p = archive_sha256 m ∧ intact m (assoc p d'))
    (λ d', fate m d d' ∨ fate m (locked env (archive_sha256 m +:+ ".lock") d) d') d.
Proof.
  intros Htmp. set (key := archive_sha256 m). assert (fate m d d) as Hd by (left; apply remains_refl).
  apply St.bind_wp, St.lift_wp; [by left|]. intros [] Hv. apply validate_digest in Hv.
  assert (key ≠ temporary env) as Hk by (intros E; unfold key in E; rewrite <-E, Hv in Htmp; done).
  apply St.bind_wp, St.lift_wp; [by left|]. intros _ _. apply St.bind_wp, acquire_wp; [by left|].
  set (d1 := locked _ _ _). apply (St.mono_wp _ (λ p d', p = key ∧ intact m (assoc p d')) _ (fate m d1));
    [|done|by right]. assert (fate m d1 d1) as Hd1 by (left; apply remains_refl).
  apply St.bind_wp. unfold St.wp at 1, St.gets. destruct (verifies env 0 m d1) eqn:Ev.
  { unfold St.wp, St.ret. split; [done|]. unfold verifies in Ev. destruct (verify _ _ _) as [[]|] eqn:E; [|done]. by eapply verify_intact. }
  apply St.bind_wp, St.lift_wp; [done|]. intros _ _. destruct (negb _); [done|]. apply St.bind_wp, St.lift_wp; [done|]. intros _ _.
  apply St.bind_wp. unfold St.wp at 1, St.modify. set (d2 := with_entry _ _ d1).
  assert (∀ d', fate m d1 d' → fate m d1 (cleanup env d')) as Hclean.
  { intros d'. unfold fate, cleanup. destruct (leftover env); rewrite ?assoc_with_entry, ?assoc_without; fold key;
      by rewrite (proj2 (String.eqb_neq key (temporary env))). }
  assert (∀ d', assoc key d' = assoc key d2 → fate m d1 d') as Hsame.
  { intros d' E. left. fold key. rewrite E. unfold d2. rewrite assoc_with_entry, (proj2 (String.eqb_neq key _)) by done. apply remains_refl. }
  apply St.bind_wp, St.guarded_wp, St.bind_wp, St.lift_wp; [by apply Hclean, Hsame|]. intros entries Hun.
  apply St.bind_wp, St.lift_wp; [by apply Hclean, Hsame|]. intros [] Hver%verify_intact.
  apply St.bind_wp, St.lift_wp; [by apply Hclean, Hsame|]. intros json _.
  apply St.bind_wp, St.lift_wp; [by apply Hclean, Hsame|]. intros _ _.
  apply St.bind_wp, remove_existing_wp; [by apply Hclean, Hsame| |].
  2:{ intros d3 _ Hr. apply Hclean. left. fold key. fold key in Hr. unfold d2 in Hr. rewrite assoc_with_entry, (proj2 (String.eqb_neq key _)) in Hr by done. done. }
  intros d3 Ho Hkey. fold key in Hkey. assert (fate m d1 d3) as Hd3.
  { destruct Hkey as [E|E]; [|by apply Hsame]. left. fold key. rewrite E. intros x n Hx. done. }
  apply St.bind_wp, St.lift_wp; [by apply Hclean|]. intros _ _. apply St.bind_wp, St.lift_wp; [by apply Hclean|]. intros _ _.
  apply St.bind_wp. unfold St.wp at 1, St.gets. fold key. destruct (assoc key d3); [exact (Hclean d3 Hd3)|]. unfold St.wp at 1, St.modify.
  set (d4 := with_entry key _ _). assert (published m (assoc key d4)) as Hp.
  { unfold d4. rewrite assoc_with_entry, String.eqb_refl. destruct (decode archive) as [l|]; [|done]. cbn [result_bind] in Hun. constructor.
    - by apply intact_with_manifest.
    - intros name n Hc. cbn in Hc. rewrite assoc_with_entry in Hc. destruct (String.eqb_spec name "manifest.json") as [->|]; [by right|left].
      destruct (unpack_declared _ _ _ _ _ _ _ _ Hun Hc) as [[? ?]|]; done. }
  apply St.bind_wp, St.lift_wp; [by right|]. intros _ _. unfold St.wp, St.ret. split; [done|apply Hp].
Qed.

Lemma prepare_wp open fetch env m offline d :
  valid_digest (temporary env) = false →
  St.wp (prepare open fetch env m offline) (λ p d', p = archive_sha256 m ∧ intact m (assoc p d')) (λ _, True) d.
Proof.
  intros Htmp. assert (∀ e p u, verifies e p m u = true → intact m (assoc (archive_sha256 m) u)) as Hver.
  { intros e p u. unfold verifies. destruct (verify _ _ _) as [[]|] eqn:E; [|done]. intros _. by eapply verify_intact. }
  unfold prepare. apply St.bind_wp, St.lift_wp; [done|]. intros _ _. apply St.bind_wp. unfold St.wp at 1, St.gets.
  destruct (verifies env 2 m d) eqn:E2; [split; [done|by eapply Hver]|].
  apply St.bind_wp, St.lift_wp; [done|]. intros _ _. apply St.bind_wp, acquire_wp; [done|]. set (d1 := locked _ _ _).
  apply St.bind_wp. unfold St.wp at 1, St.gets. destruct (verifies env 3 m d1) eqn:E3; [split; [done|by eapply Hver]|].
  destruct offline; [done|]. apply St.bind_wp, St.lift_wp; [done|]. intros archive _. apply St.bind_wp, St.lift_wp; [done|]. intros _ _.
  eapply St.mono_wp; [by apply install_wp|done|done].
Qed.

(** C17. A path returned by [prepare] or by [install] names a directory in which
    every declared file but one called manifest.json, which the installation
    itself writes, is regular and has the declared digest: whatever the archive,
    the download, the processes that ran while a lock was awaited and failing
    system calls do.  The name of the temporary directory is assumed not to be
    a digest (the tempfile crate's names start with a dot). *)
Theorem prepared_bundles_are_intact open fetch env m offline archive d d' path :
  valid_digest (temporary env) = false →
  prepare open fetch env m offline d = (d', Ok path) ∨ install env m archive d = (d', Ok path) →
  path = archive_sha256 m ∧
  ∀ name hash, (name, hash) ∈ files m → name ≠ "manifest.json" →
    ∃ data a, assoc path d' ≫= child name = Some (NFile data a) ∧ digest data = hash.
Proof.
  intros Htmp [H|H].
  - exact (St.run_wp _ _ _ _ _ _ (prepare_wp open fetch env m offline d Htmp) H).
  - exact (St.run_wp _ _ _ _ _ _ (install_wp env m archive d Htmp) H).
Qed.

(** An installation that fails publishes nothing of the archive: what the
    directory of the digest holds afterwards was there before, or is the complete
    verified bundle with no undeclared file. *)
Theorem failed_installs_publish_nothing env m archive d d' e :
  valid_digest (temporary env) = false → install env m archive d = (d', Err e) →
  let key := archive_sha256 m in
  remains (assoc key d) (assoc key d') ∨ remains (assoc key (locked env (key +:+ ".lock") d)) (assoc key d') ∨
  published m (assoc key d').
Proof.
  intros Htmp H key. pose proof (St.run_wp _ _ _ _ _ _ (install_wp env m archive d Htmp) H) as Hw. cbn beta iota in Hw.
  unfold fate in Hw. fold key in Hw. tauto.
Qed.
End Bundle.

(** ** Collection *)

Definition accessed_of (n : Node) : option Z := match n with NFile _ a | NDir a _ | NLink a => a end.
Fixpoint latest (l : list Z) : option Z :=
  match l with
  | [] => None
  | t :: rest => Some (match latest rest with Some t' => Z.max t t' | None => t end)
  end.
Definition last_access (n : Node) : option Z :=
  match n with
  | NDir own l => match latest (omap (λ e, accessed_of e.2) l) with Some t => Some t | None => own end
  | _ => accessed_of n
  end.
(** Listing a directory reads it. *)
Definition touch (now : Z) (n : Node) : Node := match n with NDir _ l => NDir (Some now) l | _ => n end.



(** ** What a sweep leaves *)






(** ** Sweeps among other processes and failing calls *)









(** A sweep is not a use of what it spares: the access time it evicts by is that
    of the files, which the sweep does not read. *)
Lemma touch_keeps_access now a l n :
  n ∈ l.*2 → is_Some (accessed_of n) → last_access (touch now (NDir a l)) = last_access (NDir a l).
Proof.
  intros Hin [t Ht]. cbn. assert (t ∈ omap (λ e, accessed_of e.2) l) as Ho.
  { apply list_elem_of_omap. apply list_elem_of_fmap in Hin as (e & -> & He). by exists e. }
  destruct (omap _ l) as [|t' l']; [by apply elem_of_nil in Ho|]. done.
Qed.

(** ** Examples *)

Definition hex_a : string := "aaaaaaaaaaaaaaaaaaaaaaaaaaaaaaaaaaaaaaaaaaaaaaaaaaaaaaaaaaaaaaaa".
Definition hex_b : string := "bbbbbbbbbbbbbbbbbbbbbbbbbbbbbbbbbbbbbbbbbbbbbbbbbbbbbbbbbbbbbbbb".
Definition hex_c : string := "cccccccccccccccccccccccccccccccccccccccccccccccccccccccccccccccc".
Definition toy_digest (l : list Z) : string := match l with [1] => hex_a | [2] => hex_b | _ => hex_c end.
Definition toy_file (name : string) : Result Unpacked := Ok (mkUnpacked (Ok name) true (Ok [2])).
Definition toy_env : Env := mkEnv (λ _, Ok tt) (λ _ d, d) ".tmp" None [] false.
Definition toy_manifest (extra : list (string * string)) : Manifest :=
  mkManifest 1 "x86_64-unknown-linux-gnu-gfx1151" "" "file:///bundle" hex_a
    ([("libamdf.so", hex_b); ("libhrx_fabric.so", hex_b); ("libloomc.so", hex_b)] ++ extra).
Definition toy_decode (l : list Z) : Result (list (Result Unpacked)) :=
  Ok (toy_file <$> ["libamdf.so"; "libhrx_fabric.so"; "libloomc.so"]).
Definition toy_decode_manifest (l : list Z) : Result (list (Result Unpacked)) :=
  Ok (toy_file <$> ["libamdf.so"; "libhrx_fabric.so"; "libloomc.so"; "manifest.json"]).
Definition toy_prepare : St.St Disk string :=
  prepare toy_digest toy_decode (λ _, Ok [3]) (λ _, Ok [1]) (λ _, Ok [1]) toy_env (toy_manifest []) false.

Lemma prepared_bundles_are_intact_witness :
  ∃ data a, assoc hex_a (toy_prepare []).1 ≫= child "libamdf.so" = Some (NFile data a) ∧ toy_digest data = hex_b.
Proof.
  assert (toy_prepare [] = ((toy_prepare []).1, Ok hex_a)) as E by (vm_compute; reflexivity).
  refine (proj2 (prepared_bundles_are_intact toy_digest toy_decode (λ _, Ok [3]) (λ _, Ok [1]) (λ _, Ok [1]) toy_env
    (toy_manifest []) false [1] [] (toy_prepare []).1 hex_a _ (or_introl E)) "libamdf.so" hex_b _ _).
  - vm_compute. reflexivity.
  - by left.
  - done.
Defined.

Definition toy_broken : St.St Disk string :=
  install toy_digest (λ _, Ok [toy_file "evil"]) (λ _, Ok [3]) toy_env (toy_manifest []) [1].
Lemma failed_installs_publish_nothing_witness : remains None (assoc hex_a (toy_broken []).1).
Proof.
  destruct (failed_installs_publish_nothing toy_digest (λ _, Ok [toy_file "evil"]) (λ _, Ok [3]) toy_env (toy_manifest []) [1] []
    (toy_broken []).1 (Message "unexpected runtime archive entry")) as [H|[H|H]].
  - vm_compute. reflexivity.
  - vm_compute. reflexivity.
  - exact H.
  - exact H.
  - assert (assoc hex_a (toy_broken []).1 = None) as -> by (vm_compute; reflexivity). intros name n Hn. discriminate Hn.
Defined.


(** A manifest may declare a file named manifest.json.  Its installation then
    overwrites the verified file with the rendered manifest and still succeeds:
    the returned directory does not verify. *)
Theorem declared_manifest_is_overwritten :
  let m := toy_manifest [("manifest.json", hex_b)] in
  let r := install toy_digest toy_decode_manifest (λ _, Ok [3]) toy_env m [1] [] in
  validate m = Ok tt ∧ r.2 = Ok hex_a ∧
  verify toy_digest (λ _, Ok tt) m (assoc hex_a r.1) = Err (Message "runtime integrity check failed").
Proof. vm_compute. repeat split. Qed.
End Bundle.
