(* ===== verification/ScratchPlan.v ===== *)
(** * Scratch plans

    [ScratchPlanner] of src/src/loom/model.rs: temporaries with inclusive
    lifetimes are assigned to reusable slots, best fit first.  Keys are ordered
    and distinct, so they are represented by their rank. *)

From S2P Require Import Prelude BTreeMap.
Local Open Scope Z_scope.

Module ScratchPlan.

Record ScratchLifetime : Type := mkLifetime { sl_bytes : Z; sl_first : Z; sl_last : Z }.
(** [ScratchPlanner]: values by ascending key. *)
Definition ScratchPlanner : Type := list (Z * ScratchLifetime).
(** [ScratchPlanner::insert]. *)
Definition insert (key bytes first last : Z) (p : ScratchPlanner) : ScratchPlanner * Result unit :=
  if bytes =? 0 then (p, Err (Message "scratch values must be nonempty"))
  else if last <? first then (p, Err (Message "scratch lifetime ends before it begins"))
  else
    (BTree.insert key (mkLifetime bytes first last) p,
     match BTree.get key p with
     | Some _ => Err (Message "duplicate scratch value")
     | None => Ok tt
     end).

(** The order of [finish]: earlier first, then larger, then by key. *)
Definition before (x y : Z * ScratchLifetime) : Prop :=
  sl_first x.2 < sl_first y.2 ∨
  (sl_first x.2 = sl_first y.2 ∧
   (sl_bytes y.2 < sl_bytes x.2 ∨ (sl_bytes x.2 = sl_bytes y.2 ∧ x.1 <= y.1))).
Global Instance before_dec x y : Decision (before x y).
Proof. unfold before. apply _. Defined.
Global Instance before_trans : Transitive before.
Proof. intros x y z. unfold before. lia. Qed.
Global Instance before_total : Total before.
Proof. intros x y. unfold before. lia. Qed.

(** [BTreeSet<usize>] in ascending order. *)
Fixpoint add (x : nat) (l : list nat) : list nat :=
  match l with
  | [] => [x]
  | y :: rest => if (x <? y)%nat then x :: l else if (x =? y)%nat then l else y :: add x rest
  end.
(** [filter(slots[slot] >= bytes).min_by_key(slots[slot])]: the first smallest. *)
Fixpoint best (slots : list Z) (bytes : Z) (free : list nat) : option nat :=
  match free with
  | [] => None
  | s :: rest =>
      let size := default 0 (slots !! s) in
      if bytes <=? size then
        match best slots bytes rest with
        | Some t => if default 0 (slots !! t) <? size then Some t else Some s
        | None => Some s
        end
      else best slots bytes rest
  end.

(** The state of the loop of [finish]. *)
Record Planning : Type := mkPlanning {
  active : list (Z * nat);
  free : list nat;
  slots : list Z;
  assigned : list (Z * nat) }.
Definition expire (first : Z) (s : Planning) : Planning :=
  mkPlanning (filter (λ a, first <= a.1) (active s))
    (foldl (λ l x, add x l) (free s) (filter (λ a, ¬ first <= a.1) (active s)).*2) (slots s) (assigned s).
Definition place (value : Z * ScratchLifetime) (s : Planning) : Planning :=
  let '(key, l) := value in
  match best (slots s) (sl_bytes l) (free s) with
  | Some slot =>
      mkPlanning (active s ++ [(sl_last l, slot)]) (filter (λ x, x ≠ slot) (free s)) (slots s)
        (BTree.insert key slot (assigned s))
  | None =>
      let slot := length (slots s) in
      mkPlanning (active s ++ [(sl_last l, slot)]) (free s) (slots s ++ [sl_bytes l]) (BTree.insert key slot (assigned s))
  end.
Definition plan_step (s : Planning) (value : Z * ScratchLifetime) : Planning :=
  place value (expire (sl_first value.2) s).
(** [ScratchPlanner::finish], [ScratchPlan::slot]. *)
Record Plan : Type := mkPlan { assignments : list (Z * nat); plan_slots : list Z }.
Definition finish (p : ScratchPlanner) : Plan :=
  let s := foldl plan_step (mkPlanning [] [] [] []) (merge_sort before p) in
  mkPlan (assigned s) (slots s).
Definition slot (plan : Plan) (key : Z) : Result nat :=
  ok_or (BTree.get key (assignments plan)) (Message "scratch value was not planned").

(** ** Correctness *)

Lemma add_elem x l y : y ∈ add x l ↔ y = x ∨ y ∈ l.
Proof.
  induction l as [|z l IH]; cbn [add]; [set_solver|]. destruct (Nat.ltb_spec x z); [set_solver|].
  destruct (Nat.eqb_spec x z) as [->|]; set_solver.
Qed.
Lemma adds_elem xs l y : y ∈ foldl (λ l x, add x l) l xs ↔ y ∈ xs ∨ y ∈ l.
Proof. revert l. induction xs as [|x xs IH]; intros l; cbn [foldl]; [set_solver|]. rewrite IH, add_elem. set_solver. Qed.
Lemma best_Some slots bytes l s : best slots bytes l = Some s → s ∈ l ∧ bytes <= default 0 (slots !! s).
Proof.
  revert s. induction l as [|x l IH]; intros s; cbn [best]; [done|]. destruct (Z.leb_spec bytes (default 0 (slots !! x))).
  - destruct (best slots bytes l) as [t|] eqn:E; [destruct (_ <? _)|]; intros [= <-]; [|split; [by left|done]..].
    destruct (IH t eq_refl). split; [by right|done].
  - intros Hs. destruct (IH s Hs). split; [by right|done].
Qed.
(** Best fit: no free slot that fits is smaller. *)
Lemma best_least slots bytes l s x :
  best slots bytes l = Some s → x ∈ l → bytes <= default 0 (slots !! x) → default 0 (slots !! s) <= default 0 (slots !! x).
Proof.
  revert s. induction l as [|y l IH]; intros s; cbn [best]; [by intros _ ?%elem_of_nil|]. destruct (Z.leb_spec bytes (default 0 (slots !! y))).
  - destruct (best slots bytes l) as [t|] eqn:E.
    + destruct (Z.ltb_spec (default 0 (slots !! t)) (default 0 (slots !! y))); intros [= <-] [->|Hin]%elem_of_cons Hx; try lia;
        specialize (IH t eq_refl Hin Hx); lia.
    + intros [= <-] [->|Hin]%elem_of_cons Hx; [done|]. exfalso. clear -E Hin Hx. induction l as [|z l IH]; [by apply elem_of_nil in Hin|].
      cbn [best] in E. apply elem_of_cons in Hin as [->|Hin].
      * destruct (Z.leb_spec bytes (default 0 (slots !! z))); [|lia]. destruct (best slots bytes l); [case_match|]; done.
      * destruct (bytes <=? _); [destruct (best slots bytes l); [case_match|]; done|]. by apply IH.
  - intros Hs [->|Hin]%elem_of_cons Hx; [lia|by apply (IH s)].
Qed.

(** Lifetimes that share no step. *)
Definition apart (l l' : ScratchLifetime) : Prop := sl_last l < sl_first l' ∨ sl_last l' < sl_first l.

(** The loop after the values of [done], none of which starts after [t]. *)
Record planned (done : list (Z * ScratchLifetime)) (t : Z) (s : Planning) : Prop := {
  pl_sorted : BTree.sorted (assigned s);
  pl_keys : ∀ k x, BTree.get k (assigned s) = Some x → k ∈ done.*1;
  pl_fits : ∀ k l, (k, l) ∈ done → ∃ x size, BTree.get k (assigned s) = Some x ∧ slots s !! x = Some size ∧ sl_bytes l <= size;
  pl_started : ∀ k l, (k, l) ∈ done → sl_first l <= t;
  pl_active : ∀ k l x, (k, l) ∈ done → BTree.get k (assigned s) = Some x → (sl_last l, x) ∈ active s ∨ sl_last l < t;
  pl_unique : NoDup (active s).*2;
  pl_known : ∀ x, x ∈ (active s).*2 ++ free s → (x < length (slots s))%nat;
  pl_free : ∀ x, x ∈ free s → x ∉ (active s).*2;
  pl_idle : ∀ k l x, (k, l) ∈ done → BTree.get k (assigned s) = Some x → x ∈ free s → sl_last l < t;
  pl_apart : ∀ k l k' l' x, (k, l) ∈ done → (k', l') ∈ done → k ≠ k' →
    BTree.get k (assigned s) = Some x → BTree.get k' (assigned s) = Some x → apart l l' }.

Lemma fmap_sublist {A B} (f : A → B) (l k : list A) : l `sublist_of` k → f <$> l `sublist_of` f <$> k.
Proof. induction 1; cbn; by constructor. Qed.
Lemma expire_planned done t t' s : planned done t s → t <= t' → planned done t' (expire t' s).
Proof.
  intros [P1 P2 P3 P4 P5 P6 P7 P8 P9 P10] Ht. unfold expire.
  assert (∀ a x, (a, x) ∈ active s → (a, x) ∈ filter (λ a, t' <= a.1) (active s) ∨ a < t') as Hsplit.
  { intros a x Hin. destruct (decide (t' <= a)); [left; by apply list_elem_of_filter|right; lia]. }
  assert (∀ x, x ∈ (filter (λ a, ¬ t' <= a.1) (active s)).*2 → ∃ a, (a, x) ∈ active s ∧ a < t') as Hgone.
  { intros x ([a y] & -> & [Ha Hin]%list_elem_of_filter)%list_elem_of_fmap. exists a. cbn in *. split; [done|lia]. }
  assert (∀ a b x, (a, x) ∈ active s → (b, x) ∈ active s → a = b) as Huniq.
  { intros a b x [i Hi]%list_elem_of_lookup_1 [j Hj]%list_elem_of_lookup_1.
    assert (i = j) as -> by (eapply NoDup_lookup; [exact P6|by rewrite list_lookup_fmap, Hi|by rewrite list_lookup_fmap, Hj]). congruence. }
  assert ((filter (λ a, t' <= a.1) (active s)).*2 `sublist_of` (active s).*2) as Hsub by (apply fmap_sublist, sublist_filter).
  constructor; cbn [active free slots assigned]; try done.
  - intros k l Hin. specialize (P4 k l Hin). lia.
  - intros k l x Hin Hk. destruct (P5 k l x Hin Hk) as [Ha|Ha]; [by apply Hsplit|right; lia].
  - by eapply sublist_NoDup.
  - intros x. rewrite elem_of_app, adds_elem. intros [Hx|[(a & Hx & _)%Hgone|Hx]]; apply P7, elem_of_app.
    + left. by eapply elem_of_sublist.
    + left. apply list_elem_of_fmap. by exists (a, x).
    + by right.
  - intros x. rewrite adds_elem. intros Hx Hin. assert (x ∈ (active s).*2) as Hact by (by eapply elem_of_sublist).
    destruct Hx as [(a & Ha & Hlt)%Hgone|Hx]; [|by apply (P8 x)].
    apply list_elem_of_fmap in Hin as ([b y] & -> & [Hb Hin]%list_elem_of_filter). cbn in *. pose proof (Huniq _ _ _ Ha Hin). lia.
  - intros k l x Hin Hk. rewrite adds_elem. intros [(a & Ha & Hlt)%Hgone|Hx].
    + destruct (P5 k l x Hin Hk) as [Hb|Hb]; [|lia]. pose proof (Huniq _ _ _ Ha Hb). lia.
    + specialize (P9 k l x Hin Hk Hx). lia.
Qed.

Lemma insert_get {V} k (v : V) m k' : BTree.sorted m → BTree.get k' (BTree.insert k v m) = if decide (k' = k) then Some v else BTree.get k' m.
Proof.
  intros Hs. unfold BTree.insert. by rewrite BTree.get_entry_or.
Qed.

(** A value takes slot [x]: nothing that used it reaches the value's start. *)
Lemma take_slot done t k l x s act fr sl :
  planned done t s → k ∉ done.*1 → sl_first l = t →
  (x < length sl)%nat → (∃ size, sl !! x = Some size ∧ sl_bytes l <= size) → slots s `prefix_of` sl →
  act = active s ++ [(sl_last l, x)] → x ∉ (active s).*2 →
  (∀ y, y ∈ fr → y ∈ free s ∧ y ≠ x) →
  (∀ k' l', (k', l') ∈ done → BTree.get k' (assigned s) = Some x → sl_last l' < t) →
  planned (done ++ [(k, l)]) t (mkPlanning act fr sl (BTree.insert k x (assigned s))).
Proof.
  intros [P1 P2 P3 P4 P5 P6 P7 P8 P9 P10] Hk Hf Hx Hsize Hpre -> Hact Hfr Hold.
  assert (∀ k' y, BTree.get k' (BTree.insert k x (assigned s)) = Some y →
    (k' = k ∧ y = x) ∨ (k' ≠ k ∧ BTree.get k' (assigned s) = Some y)) as Hget.
  { intros k' y. rewrite insert_get by done. case_decide; [intros [= <-]; by left|by right]. }
  assert (∀ k' l', (k', l') ∈ done → k' ≠ k) as Hne.
  { intros k' l' Hin ->. apply Hk, list_elem_of_fmap. by exists (k, l'). }
  assert (∀ k' l', (k', l') ∈ done ++ [(k, l)] → (k', l') ∈ done ∨ (k' = k ∧ l' = l)) as Hin.
  { intros k' l' [H|[= -> ->]%list_elem_of_singleton]%elem_of_app; auto. }
  constructor; cbn [active free slots assigned].
  - by apply BTree.entry_or_sorted.
  - intros k' y [[-> _]|[_ H]]%Hget; rewrite fmap_app; apply elem_of_app; [right; by left|left; by eapply P2].
  - intros k' l' [H|[-> ->]]%Hin.
    + destruct (P3 k' l' H) as (y & size & H1 & H2 & H3). exists y, size. rewrite insert_get by done.
      rewrite decide_False by (by eapply Hne). split_and!; [done|by eapply prefix_lookup_Some|done].
    + destruct Hsize as (size & H1 & H2). exists x, size. rewrite insert_get by done. by rewrite decide_True.
  - intros k' l' [H|[-> ->]]%Hin; [by eapply P4|lia].
  - intros k' l' y Hd Hy. apply Hin in Hd as [H|[-> ->]]; apply Hget in Hy as [[E ->]|[E Hy]]; try done.
    + by apply Hne in H.
    + destruct (P5 k' l' y H Hy); [left; apply elem_of_app; by left|by right].
    + left. apply elem_of_app. right. by left.
  - rewrite fmap_app. apply NoDup_app. split_and!; [done| |apply NoDup_singleton]. intros y Hy ->%list_elem_of_singleton. done.
  - intros y. rewrite fmap_app, !elem_of_app. pose proof (prefix_length _ _ Hpre) as Hlen.
    intros [[Hy| ->%list_elem_of_singleton]|[Hy _]%Hfr]; [|done|]; (eapply Nat.lt_le_trans; [apply P7, elem_of_app; eauto|done]).
  - intros y [Hy Hyx]%Hfr. rewrite fmap_app. intros [Hin'| ->%list_elem_of_singleton]%elem_of_app; [by apply (P8 y)|done].
  - intros k' l' y Hd Hy [Hfree Hyx]%Hfr. apply Hget in Hy as [[-> ->]|[E Hy]]; [done|]. apply Hin in Hd as [H|[-> ->]]; [by eapply P9|done].
  - intros k1 l1 k2 l2 y H1 H2 Hkk G1 G2. unfold apart. apply Hget in G1 as [[-> ->]|[E1 G1]], G2 as [[-> E]|[E2 G2]]; try done.
    + apply Hin in H1 as [H1|[_ ->]]; [by apply Hne in H1|]. apply Hin in H2 as [H2|[-> _]]; [|done].
      specialize (Hold k2 l2 H2 G2). lia.
    + subst y. apply Hin in H2 as [H2|[_ ->]]; [by apply Hne in H2|]. apply Hin in H1 as [H1|[-> _]]; [|done].
      specialize (Hold k1 l1 H1 G1). lia.
    + apply Hin in H1 as [H1|[-> _]]; [|done]. apply Hin in H2 as [H2|[-> _]]; [|done]. by apply (P10 k1 l1 k2 l2 y).
Qed.
Lemma plan_step_planned done t k l s :
  planned done t s → k ∉ done.*1 → t <= sl_first l → planned (done ++ [(k, l)]) (sl_first l) (plan_step s (k, l)).
Proof.
  intros Hp Hk Ht. apply (expire_planned _ _ _ _ Hp) in Ht. unfold plan_step. cbn [snd]. set (s1 := expire (sl_first l) s) in *.
  clearbody s1. clear Hp s. unfold place. destruct (best (slots s1) (sl_bytes l) (free s1)) as [x|] eqn:E.
  - apply best_Some in E as [Hfree Hfit]. assert (x < length (slots s1))%nat as Hx by (apply (pl_known _ _ _ Ht), elem_of_app; by right).
    destruct (lookup_lt_is_Some_2 (slots s1) x Hx) as [size Hsize]. rewrite Hsize in Hfit. cbn in Hfit.
    apply (take_slot done (sl_first l) k l x s1); try done; [by eauto|by apply (pl_free _ _ _ Ht)| |].
    + intros y [Hne Hy]%list_elem_of_filter. done.
    + intros k' l' Hd Hg. by apply (pl_idle _ _ _ Ht k' l' x).
  - apply (take_slot done (sl_first l) k l (length (slots s1)) s1); try done.
    + rewrite length_app. cbn. lia.
    + exists (sl_bytes l). split; [by rewrite lookup_app_r, Nat.sub_diag by lia|done].
    + by exists [sl_bytes l].
    + intros Hin. apply (Nat.lt_irrefl (length (slots s1))), (pl_known _ _ _ Ht), elem_of_app. by left.
    + intros y Hy. split; [done|]. intros ->. apply (Nat.lt_irrefl (length (slots s1))), (pl_known _ _ _ Ht), elem_of_app. by right.
    + intros k' l' Hd Hg. destruct (pl_fits _ _ _ Ht k' l' Hd) as (y & size & G & Hs & _). rewrite Hg in G. injection G as <-.
      apply lookup_lt_Some in Hs. lia.
Qed.
Lemma finish_planned l done t s :
  planned done t s → NoDup (done ++ l).*1 → StronglySorted before l → (∀ x, x ∈ l → t <= sl_first x.2) →
  ∃ t', planned (done ++ l) t' (foldl plan_step s l).
Proof.
  revert done t s. induction l as [|[k v] l IH]; intros done t s Hp Hnd Hs Ht; cbn [foldl].
  { exists t. by rewrite app_nil_r. }
  inversion_clear Hs as [|? ? Hs' Hall]. rewrite Forall_forall in Hall.
  assert (k ∉ done.*1) as Hk.
  { rewrite fmap_app in Hnd. apply NoDup_app in Hnd as (_ & Hd & _). intros Hin. apply (Hd k Hin). by left. }
  destruct (IH (done ++ [(k, v)]) (sl_first v) (plan_step s (k, v))) as [t' H'].
  - apply (plan_step_planned done t); [done|done|]. apply (Ht (k, v)). by left.
  - by rewrite <-app_assoc.
  - done.
  - intros x Hx. specialize (Hall x Hx). unfold before in Hall. cbn in Hall. lia.
  - exists t'. by rewrite <-app_assoc in H'.
Qed.

(** C19. Every value is planned, into a slot that holds it; two values that share a
    slot are never alive at the same step. *)
Theorem plans_never_overlap p :
  NoDup p.*1 →
  let plan := finish p in
  (∀ k l, (k, l) ∈ p → ∃ x size, slot plan k = Ok x ∧ plan_slots plan !! x = Some size ∧ sl_bytes l <= size) ∧
  (∀ k l k' l' x, (k, l) ∈ p → (k', l') ∈ p → k ≠ k' → slot plan k = Ok x → slot plan k' = Ok x → apart l l').
Proof.
  intros Hnd plan. pose proof (merge_sort_Permutation before p) as Hperm.
  assert (planned [] (foldr (λ x n, Z.min (sl_first x.2) n) 0 (merge_sort before p)) (mkPlanning [] [] [] [])) as H0.
  { constructor; cbn; try (by intros; set_solver); [by exists 0|constructor]. }
  destruct (finish_planned (merge_sort before p) [] _ _ H0) as [t [_ _ P3 _ _ _ _ _ _ P10]].
  - cbn. by rewrite Hperm.
  - apply (StronglySorted_merge_sort before).
  - generalize (merge_sort before p). intros m. induction m as [|y m IH]; intros x; [by intros ?%elem_of_nil|]. cbn.
    intros [->|Hx]%elem_of_cons; [lia|]. specialize (IH x Hx). lia.
  - unfold slot, plan, finish. cbn [assignments plan_slots]. set (s := foldl _ _ _) in *. cbn [app] in P3, P10. split.
    + intros k l Hin. rewrite <-Hperm in Hin. destruct (P3 k l Hin) as (x & size & -> & H1 & H2). exists x, size. done.
    + intros k l k' l' x H1 H2 Hne E1 E2. rewrite <-Hperm in H1, H2. apply (P10 k l k' l' x); try done.
      * destruct (BTree.get k (assigned s)); [|done]. cbn in E1. congruence.
      * destruct (BTree.get k' (assigned s)); [|done]. cbn in E2. congruence.
Qed.
Definition demo_values : ScratchPlanner := [(0, mkLifetime 8 0 1); (1, mkLifetime 16 1 2); (2, mkLifetime 4 2 3); (3, mkLifetime 7 3 3)].
Lemma plans_never_overlap_witness :
  slot (finish demo_values) 0 = Ok 0%nat ∧ slot (finish demo_values) 2 = Ok 0%nat ∧ apart (mkLifetime 8 0 1) (mkLifetime 4 2 3).
Proof.
  assert (slot (finish demo_values) 0 = Ok 0%nat ∧ slot (finish demo_values) 2 = Ok 0%nat) as [E1 E2] by (vm_compute; split; reflexivity).
  split; [exact E1|]. split; [exact E2|].
  assert (NoDup demo_values.*1) as Hnd by compute_done.
  refine (proj2 (plans_never_overlap demo_values Hnd) 0 _ 2 _ 0%nat _ _ _ E1 E2); [by left|right; right; by left|done].
Defined.
End ScratchPlan.
