(* ===== verification/BenchmarkStatistics.v ===== *)
(** * Benchmark statistics

    src/src/benchmark_statistics.rs: nearest-rank percentiles of timing samples
    and the collector of named stages.  A sample is the bit pattern of a 64-bit
    float, compared by [f64::total_cmp]; floating-point sums are not modelled. *)

From S2P Require Import Prelude BTreeMap Target Stream.
From stdpp Require Import sorting.
Local Open Scope Z_scope.

Module BenchmarkStatistics.

(** ** Samples *)

(** [f64::is_finite] and [sample < 0.0] on bit patterns. *)
Definition is_finite (bits : Z) : bool := negb (Z.land (Z.shiftr bits 52) 2047 =? 2047).
Definition is_negative (bits : Z) : bool := Z.testbit bits 63 && negb (bits =? 2 ^ 63).
(** The key by which [f64::total_cmp] orders: a negative pattern has its other
    bits flipped. *)
Definition total_key (bits : Z) : Z := if Z.testbit bits 63 then 2 ^ 63 - 1 - bits else bits.
Definition total_le (x y : Z) : Prop := total_key x <= total_key y.
Global Instance total_le_dec : RelDecision total_le := λ x y, Z.le_dec _ _.
Global Instance total_le_total : Total total_le.
Proof. intros x y. unfold total_le. lia. Qed.
Global Instance total_le_trans : Transitive total_le.
Proof. intros x y z. unfold total_le. lia. Qed.

(** [percentile]; [None] is the failed assertion. *)
Definition div_ceil (n d : Z) : Z := (n + d - 1) / d.
Definition percentile (sorted : list Z) (percent : Z) : option Z :=
  if (length sorted =? 0)%nat || negb ((1 <=? percent) && (percent <=? 100)) then None
  else sorted !! Z.to_nat (div_ceil (Z.of_nat (length sorted) * percent) 100 - 1).
Record Distribution : Type := mkDistribution { median_ms : Z; p95_ms : Z }.
(** [Distribution::from_samples]; its percentiles exist. *)
Definition valid_sample (x : Z) : bool := is_finite x && negb (is_negative x).
Definition from_samples (samples : list Z) : Result Distribution :=
  if (length samples =? 0)%nat || negb (forallb valid_sample samples)
  then Err (Message "benchmark samples must be finite, nonnegative, and nonempty")
  else
    let sorted := merge_sort total_le samples in
    Ok (mkDistribution (default 0 (percentile sorted 50)) (default 0 (percentile sorted 95))).

(** ** Stages *)

(** [StageTimings]: samples in order under each name. *)
Definition StageTimings : Type := list (string * list Z).
Fixpoint push_sample (name : string) (x : Z) (t : StageTimings) : StageTimings :=
  match t with
  | [] => [(name, [x])]
  | (k, l) :: rest =>
      match String.compare name k with
      | Lt => (name, [x]) :: t
      | Eq => (k, l ++ [x]) :: rest
      | Gt => (k, l) :: push_sample name x rest
      end
  end.
Definition push (name : string) (x : Z) (t : StageTimings) : StageTimings * Result unit :=
  if negb (is_finite x) || is_negative x then (t, Err (Message "invalid benchmark duration"))
  else (push_sample name x t, Ok tt).
(** [StageTimings::measure]: the stage runs between two waits. *)
Definition measure {A} (before after : Stream.Env) (name : string) (stage : Stream.M A) (elapsed : Z) (t : StageTimings)
    : Stream.World → Stream.World * (StageTimings * Result A) := λ w,
  match Stream.synchronize before w with
  | (w, Err e) => (w, (t, Err e))
  | (w, Ok _) =>
      match stage w with
      | (w, Err e) => (w, (t, Err e))
      | (w, Ok a) =>
          match Stream.synchronize after w with
          | (w, Err e) => (w, (t, Err e))
          | (w, Ok _) => (w, (push_sample name elapsed t, Ok a))
          end
      end
  end.
(** [StageTimings::distributions]. *)
Fixpoint distributions (t : StageTimings) : Result (list (string * Distribution)) :=
  match t with
  | [] => Ok []
  | (name, l) :: rest =>
      let? d := from_samples l in let? ds := distributions rest in Ok ((name, d) :: ds)
  end.
Definition is_empty (t : StageTimings) : bool := (length t =? 0)%nat.

(** ** Nearest rank *)

Definition at_most (v : Z) (l : list Z) : Z := Z.of_nat (length (filter (λ x, total_le x v) l)).
Definition below (v : Z) (l : list Z) : Z := Z.of_nat (length (filter (λ x, ¬ total_le v x) l)).

Lemma rank_bounds n p : 0 < n → 1 <= p <= 100 →
  0 <= div_ceil (n * p) 100 - 1 < n ∧ n * p <= 100 * div_ceil (n * p) 100 ∧ 100 * (div_ceil (n * p) 100 - 1) < n * p.
Proof.
  intros Hn Hp. unfold div_ceil. pose proof (Z.div_mod (n * p + 100 - 1) 100 ltac:(lia)).
  pose proof (Z.mod_pos_bound (n * p + 100 - 1) 100 ltac:(lia)). assert (0 < n * p) by nia. assert (n * p <= n * 100) by nia. lia.
Qed.
Lemma percentile_Some l p : l ≠ [] → 1 <= p <= 100 → is_Some (percentile l p).
Proof.
  intros Hl Hp. unfold percentile. destruct l as [|x l]; [done|]. replace ((1 <=? p) && (p <=? 100)) with true by lia. cbn [length Nat.eqb orb negb].
  apply lookup_lt_is_Some. pose proof (rank_bounds (Z.of_nat (length (x :: l))) p). cbn [length] in *. lia.
Qed.
Lemma percentile_Inv l p v :
  percentile l p = Some v → l ≠ [] ∧ 1 <= p <= 100 ∧ l !! Z.to_nat (div_ceil (Z.of_nat (length l) * p) 100 - 1) = Some v.
Proof.
  unfold percentile. destruct l as [|x l]; [done|]. cbn [length Nat.eqb orb].
  destruct ((1 <=? p) && (p <=? 100)) eqn:E; [|done]. cbn [negb]. intros H. split_and!; [done|lia|lia|done].
Qed.
Lemma sorted_split l i v :
  StronglySorted total_le l → l !! i = Some v →
  (∀ x, x ∈ take i l → total_le x v) ∧ (∀ x, x ∈ drop i l → total_le v x).
Proof.
  intros Hs Hi. rewrite <-(take_drop i l) in Hs. rewrite (drop_S _ _ _ Hi) in Hs |- *. apply StronglySorted_app in Hs as (H1 & H2 & H3).
  split.
  - intros x Hx. apply H1; [done|by left].
  - intros x [->|Hx]%elem_of_cons; [unfold total_le; lia|]. apply StronglySorted_inv in H3 as [_ H3]. rewrite Forall_forall in H3. by apply H3.
Qed.
Lemma filter_none {A} (P : A → Prop) `{!∀ x, Decision (P x)} (l : list A) : (∀ x, x ∈ l → ¬ P x) → filter P l = [].
Proof.
  induction l as [|x l IH]; intros Hn; [done|]. rewrite filter_cons_False by (apply Hn; by left). apply IH. intros y Hy. apply Hn. by right.
Qed.
Lemma filter_whole {A} (P : A → Prop) `{!∀ x, Decision (P x)} (l : list A) : (∀ x, x ∈ l → P x) → filter P l = l.
Proof.
  induction l as [|x l IH]; intros Hn; [done|]. rewrite filter_cons_True by (apply Hn; by left). f_equal. apply IH. intros y Hy. apply Hn. by right.
Qed.
(** The nearest-rank percentile of a list: a sample with at least [p] percent of
    the samples at most as large and fewer than [p] percent smaller. *)
Definition nearest_rank (l : list Z) (p v : Z) : Prop :=
  v ∈ l ∧ Z.of_nat (length l) * p <= 100 * at_most v l ∧ 100 * below v l < Z.of_nat (length l) * p.
Lemma percentile_nearest_rank l p v : percentile (merge_sort total_le l) p = Some v → nearest_rank l p v.
Proof.
  intros (Hne & Hp & Hv)%percentile_Inv. pose proof (merge_sort_Permutation total_le l) as Hperm.
  pose proof (StronglySorted_merge_sort total_le l) as Hs. set (s := merge_sort total_le l) in *. clearbody s.
  assert (length s = length l) as Hlen by (by apply Permutation_length). rewrite Hlen in Hv.
  assert (0 < Z.of_nat (length l)) as Hpos by (rewrite <-Hlen; destruct s; cbn; [done|lia]).
  pose proof (rank_bounds _ p Hpos Hp) as (B1 & B2 & B3). set (k := div_ceil _ _) in *. clearbody k. set (i := Z.to_nat (k - 1)) in *.
  destruct (sorted_split s i v Hs Hv) as [H1 H2]. pose proof (lookup_lt_Some _ _ _ Hv) as Hi. split_and!.
  - rewrite <-Hperm. by eapply list_elem_of_lookup_2.
  - assert (Z.of_nat i + 1 <= at_most v l); [|lia]. unfold at_most. rewrite <-Hperm.
    rewrite <-(take_drop i s), filter_app, length_app, filter_whole by done. rewrite (drop_S _ _ _ Hv), filter_cons_True by (unfold total_le; lia).
    cbn [length]. rewrite length_take. lia.
  - assert (below v l <= Z.of_nat i); [|lia]. unfold below. rewrite <-Hperm.
    rewrite <-(take_drop i s), filter_app, length_app, (filter_none _ (drop i s)).
    + pose proof (length_filter (λ x, ¬ total_le v x) (take i s)). rewrite length_take in *. cbn. lia.
    + intros x Hx. pose proof (H2 x Hx). tauto.
Qed.

(** A summary holds the nearest-rank median and 95th percentile of its samples,
    and exists for every nonempty list of finite, nonnegative samples. *)
Theorem distributions_are_nearest_rank l :
  match from_samples l with
  | Ok d => Forall (λ x, valid_sample x = true) l ∧ nearest_rank l 50 (median_ms d) ∧ nearest_rank l 95 (p95_ms d)
  | Err _ => l = [] ∨ Exists (λ x, valid_sample x = false) l
  end.
Proof.
  unfold from_samples. destruct l as [|x l]; [by left|]. set (k := x :: l). cbn [length Nat.eqb orb].
  destruct (forallb valid_sample k) eqn:E; cbn [negb].
  - assert (merge_sort total_le k ≠ []) as Hne.
    { intros E'. pose proof (merge_sort_Permutation total_le k) as H. rewrite E' in H. by apply Permutation_nil_cons in H. }
    assert (∀ p, 1 <= p <= 100 → nearest_rank k p (default 0 (percentile (merge_sort total_le k) p))) as Hp.
    { intros p Hp. destruct (percentile_Some _ p Hne Hp) as [v Hv]. rewrite Hv. by apply percentile_nearest_rank. }
    split_and!; [|by apply Hp|by apply Hp]. apply Forall_forall. intros y Hy. rewrite forallb_forall in E. apply E. by apply list_elem_of_In.
  - right. apply Exists_exists. clearbody k. clear x l. induction k as [|y k IH]; [done|]. cbn [forallb] in E.
    destruct (valid_sample y) eqn:Ey; [|exists y; split; [by left|done]]. destruct (IH E) as (z & Hz & Ez). exists z. split; [by right|done].
Qed.
Example percentile_examples :
  percentile (Z.of_nat <$> seq 1 100) 50 = Some 50 ∧ percentile (Z.of_nat <$> seq 1 100) 95 = Some 95 ∧
  percentile (Z.of_nat <$> seq 1 50) 50 = Some 25 ∧ percentile (Z.of_nat <$> seq 1 50) 95 = Some 48 ∧ percentile [7] 95 = Some 7.
Proof. by vm_compute. Qed.
End BenchmarkStatistics.
