(* ===== verification/ModelSession.v ===== *)
(** * Model sessions

    [ModelSession] and [Region] of src/src/loom/model.rs: a client of one stream
    that owns allocations, kernels, recorded graphs and a readback buffer.  The
    session is the state of the model; its calls are those of the file on
    streams.  A session records through [AccessGraph] of
    src/src/access_graph.rs: the dependencies of each command are inferred from
    the declared accesses of the commands before it, by the interval frontier,
    and given to the recording of the stream.  What the compiler loads, the
    clock, and what the device makes of the batches of a replay are arguments. *)

From S2P Require Import Prelude Access DependencyFrontier RawGraph Target Stream BenchmarkStatistics.
Import Stream BenchmarkStatistics.
Local Open Scope Z_scope.

Module ModelSession.

(** ** Data *)

Record Region : Type := mkRegion { r_session : nat; r_allocation : nat; r_offset : Z; r_bytes : Z }.
(** [Region::slice]. *)
Definition region_slice (r : Region) (offset bytes : Z) : Result Region :=
  match checked_add offset bytes with
  | None => Err (Message "model region size overflow")
  | Some stop =>
      if r_bytes r <? stop then Err (Message "model region exceeds its parent")
      else
        match checked_add (r_offset r) offset with
        | None => Err (Message "model region offset overflow")
        | Some first => Ok (mkRegion (r_session r) (r_allocation r) first bytes)
        end
  end.
Record Binding : Type := mkBinding { b_region : Region; b_access : Access }.
Record KernelId : Type := mkKernelId { k_session : nat; k_index : nat }.
Inductive Arguments : Type := Indices (l : list Z) | Packed (l : list Z).
Record ModelDispatch : Type := mkModelDispatch {
  d_kernel : KernelId;
  d_arguments : Arguments;
  d_grid : list Z;
  d_bindings : list Binding }.
Inductive ModelCommand : Type := MFill (r : Region) (value : Z) | MDispatch (d : ModelDispatch).
(** [PreparedCommand]. *)
Inductive Prepared : Type :=
| PFill (r : Region) (value : Z)
| PDispatch (k : KernelId) (constants grid : list Z) (bindings : list Binding).
Inductive Placement : Type := OnDevice | OnHost.
Record Allocation : Type := mkAllocation { a_buffer : Buffer; a_placement : Placement; a_immutable : bool }.
(** A loaded kernel: its entry and its compiled workgroup size. *)
Record LoadedKernel : Type := mkLoaded { lk_entry : nat; lk_block : list Z }.

(** [ModelSession]; graphs newest first, as the stream keeps its graphs. *)
Record Session : Type := mkSession {
  s_id : nat;
  allocations : list Allocation;
  kernels : list LoadedKernel;
  recorded_graphs : list (Z * list Prepared);
  readback : option Buffer;
  failed : bool;
  world : World }.
Definition set_world (w : World) (s : Session) : Session :=
  mkSession (s_id s) (allocations s) (kernels s) (recorded_graphs s) (readback s) (failed s) w.
Definition set_failed (b : bool) (s : Session) : Session :=
  mkSession (s_id s) (allocations s) (kernels s) (recorded_graphs s) (readback s) b (world s).
Definition set_allocations (l : list Allocation) (s : Session) : Session :=
  mkSession (s_id s) l (kernels s) (recorded_graphs s) (readback s) (failed s) (world s).
Definition set_kernels (l : list LoadedKernel) (s : Session) : Session :=
  mkSession (s_id s) (allocations s) l (recorded_graphs s) (readback s) (failed s) (world s).
Definition set_recorded (l : list (Z * list Prepared)) (s : Session) : Session :=
  mkSession (s_id s) (allocations s) (kernels s) l (readback s) (failed s) (world s).
Definition set_readback (b : option Buffer) (s : Session) : Session :=
  mkSession (s_id s) (allocations s) (kernels s) (recorded_graphs s) b (failed s) (world s).

(** ** Checks *)

Definition S_ (A : Type) : Type := St.St Session A.
Definition on_stream {A} (m : M A) : S_ A := λ s, let (w, r) := m (world s) in (set_world w s, r).
Definition on_world (f : World → World) : S_ unit := St.modify (λ s, set_world (f (world s)) s).
(** [let result = ..; if result.is_err() { self.failed = true; } result]. *)
Definition failing {A} (m : S_ A) : S_ A := St.guarded (set_failed true) m.
(** [ModelSession::usable]. *)
Definition usable : S_ unit := λ s,
  (s, if failed s then Err (Message "model session is unusable after a GPU failure") else Ok tt).
(** [ModelSession::validate_region], [view], [views]. *)
Definition validate_region (s : Session) (r : Region) : Result Allocation :=
  if negb (r_session r =? s_id s)%nat then Err (Message "model region belongs to another session")
  else
    match allocations s !! r_allocation r with
    | None => Err (Message "invalid model allocation")
    | Some a =>
        match checked_add (r_offset r) (r_bytes r) with
        | None => Err (Message "model region size overflow")
        | Some stop => if bytes (a_buffer a) <? stop then Err (Message "model region exceeds its allocation") else Ok a
        end
    end.
Definition view (s : Session) (r : Region) : Result View :=
  let? a := validate_region s r in try_slice (a_buffer a) (r_offset r) (r_bytes r).
Fixpoint views (s : Session) (l : list Binding) : Result (list View) :=
  match l with
  | [] => Ok []
  | b :: rest => let? v := view s (b_region b) in let? vs := views s rest in Ok (v :: vs)
  end.
(** [ModelSession::kernel]. *)
Definition kernel (s : Session) (k : KernelId) : Result LoadedKernel :=
  if negb (k_session k =? s_id s)%nat then Err (Message "model kernel belongs to another session")
  else ok_or (kernels s !! k_index k) (Message "invalid model kernel").

(** ** Allocation and transfers *)

(** [ModelSession::allocate_with]. *)
Definition allocate_with (env : Env) (n : Z) (p : Placement) : S_ Region :=
  let^ _ := usable in
  let^ b := on_stream (match p with OnDevice => allocate env n | OnHost => shared env n end) in
  let^ index := St.gets (λ s, length (allocations s)) in
  let^ _ := St.modify (λ s, set_allocations (allocations s ++ [mkAllocation b p false]) s) in
  let^ id := St.gets s_id in
  St.ret (mkRegion id index 0 n).
(** [ModelSession::upload]. *)
Definition upload (envs : nat → Env) (r : Region) (l : list Z) : S_ unit :=
  let^ _ := usable in
  if r_bytes r <? Z.of_nat (length l) then St.fail (Message "upload exceeds model region")
  else
    let^ v := (λ s, (s, view s r)) in
    let^ v := St.lift (slice v 0 (Z.of_nat (length l))) in
    failing (on_stream (Stream.upload envs v l)).
(** [ModelSession::weight]. *)
Definition weight (env : Env) (envs : nat → Env) (l : list Z) : S_ Region :=
  let^ r := allocate_with env (Z.of_nat (length l)) OnDevice in
  let^ _ := upload envs r l in
  let^ _ := St.modify (λ s, set_allocations (alter (λ a, mkAllocation (a_buffer a) (a_placement a) true) (r_allocation r)
                                                (allocations s)) s) in
  St.ret r.
(** [ModelSession::synchronize]. *)
Definition synchronize (env : Env) : S_ unit :=
  let^ _ := usable in failing (on_stream (Stream.synchronize env)).

(** ** Graphs *)

(** [ModelSession::prepare]; [indices] is [Constants::indices] of the kernel. *)
Fixpoint validate_bindings (s : Session) (l : list Binding) : Result unit :=
  match l with
  | [] => Ok tt
  | b :: rest => let? _ := validate_region s (b_region b) in validate_bindings s rest
  end.
Definition prepare_one (indices : LoadedKernel → list Z → Result (list Z)) (s : Session) (c : ModelCommand) : Result Prepared :=
  match c with
  | MFill r value =>
      let? _ := validate_region s r in
      if r_bytes r =? 0 then Err (Message "cannot record an empty model fill") else Ok (PFill r value)
  | MDispatch d =>
      let? k := kernel s (d_kernel d) in
      let? _ := validate_bindings s (d_bindings d) in
      let? constants := (match d_arguments d with Indices l => indices k l | Packed l => Ok l end) in
      Ok (PDispatch (d_kernel d) constants (d_grid d) (d_bindings d))
  end.
Fixpoint prepare (indices : LoadedKernel → list Z → Result (list Z)) (s : Session) (l : list ModelCommand)
    : Result (list Prepared) :=
  match l with
  | [] => Ok []
  | c :: rest => let? p := prepare_one indices s c in let? ps := prepare indices s rest in Ok (p :: ps)
  end.
(** A prepared command, given to a recording or to the stream. *)
Definition issue (fill : View → Z → M unit) (dispatch : nat → list Z → list Z → list Z → list View → M unit) (c : Prepared)
    : S_ unit :=
  match c with
  | PFill r value =>
      let^ v := (λ s, (s, view s r)) in
      on_stream (fill v value)
  | PDispatch k constants grid bindings =>
      let^ k := (λ s, (s, kernel s k)) in
      let^ vs := (λ s, (s, views s bindings)) in
      on_stream (dispatch (lk_entry k) grid (lk_block k) constants vs)
  end.
Fixpoint issue_all (envs : nat → Env) (fill : Env → View → Z → M unit)
    (dispatch : Env → nat → list Z → list Z → list Z → list View → M unit) (i : nat) (l : list Prepared) : S_ unit :=
  match l with
  | [] => St.ret tt
  | c :: rest =>
      let^ _ := issue (fill (envs i)) (dispatch (envs i)) c in
      issue_all envs fill dispatch (S i) rest
  end.
(** [ModelSession::execute_direct]. *)
Definition execute_direct (envs : nat → Env) (l : list Prepared) : S_ unit := issue_all envs Stream.fill Stream.dispatch 0 l.
Definition has_key (key : Z) (s : Session) : bool := existsb (λ x, key =? x.1) (recorded_graphs s).
(** What [AccessGraph] keeps beside the recording of the stream: its frontier and
    the nodes recorded so far. *)
Record Tracked : Type := mkTracked { tk_frontier : Frontier.Frontier; tk_nodes : list Raw.Node }.
(** The use of a binding.  The source names a view's allocation by the address
    of its buffer, which is the one of the session's allocation. *)
Definition access_use (r : Region) (v : View) (a : Access) : Frontier.Use :=
  Frontier.mkUse (Z.of_nat (r_allocation r)) (mkRange (v_offset v) (saturating_add (v_offset v) (v_length v))) a.
Definition binding_uses (l : list Binding) (vs : list View) : list Frontier.Use :=
  zip_with (λ b v, access_use (b_region b) v (b_access b)) l vs.
(** [AccessGraph::dependencies]; [None] also when [self.nodes[dependency]] would
    panic. *)
Definition infer_dependencies (uses : list Frontier.Use) (t : Tracked) : option (Tracked * list Raw.Node) :=
  '(f, ds) ← Frontier.dependencies (tk_frontier t) (length (tk_nodes t)) uses;
  after ← mapM (λ d, tk_nodes t !! d) ds;
  Some (mkTracked f (tk_nodes t), after).
Definition inferred (uses : list Frontier.Use) (t : Tracked) : S_ (Tracked * list Raw.Node) :=
  St.lift (ok_or (infer_dependencies uses t) (Message "index out of bounds")).
(** [AccessGraph::record]. *)
Definition push_node (n : Raw.Node) (t : Tracked) : Tracked := mkTracked (tk_frontier t) (tk_nodes t ++ [n]).
(** The loop of [ModelSession::record]: [AccessGraph::fill] and
    [AccessGraph::dispatch] of each prepared command. *)
Definition record_one (env : Env) (c : Prepared) (t : Tracked) : S_ Tracked :=
  match c with
  | PFill r value =>
      let^ v := (λ s, (s, view s r)) in
      let^ found := inferred [access_use r v Write] t in
      let^ node := on_stream (graph_fill env 0 found.2 v value) in
      St.ret (push_node node found.1)
  | PDispatch k constants grid bindings =>
      let^ k := (λ s, (s, kernel s k)) in
      let^ vs := (λ s, (s, views s bindings)) in
      let^ found := inferred (binding_uses bindings vs) t in
      let^ node := on_stream (graph_dispatch env 0 found.2 (lk_entry k) grid (lk_block k) constants vs) in
      St.ret (push_node node found.1)
  end.
Fixpoint record_all (envs : nat → Env) (i : nat) (l : list Prepared) (t : Tracked) : S_ Tracked :=
  match l with
  | [] => St.ret t
  | c :: rest => let^ t := record_one (envs i) c t in record_all envs (S i) rest t
  end.
(** [ModelSession::record]; [id] brands the nodes of the recording, [sizes] are
    the batches of the finished graph. *)
Definition record (indices : LoadedKernel → list Z → Result (list Z)) (id : nat) (envs : nat → Env)
    (sizes : Result (list nat)) (key : Z) (l : list ModelCommand) : S_ unit :=
  let^ _ := usable in
  if (length l =? 0)%nat then St.fail (Message "cannot record an empty model graph")
  else
    let^ present := St.gets (has_key key) in
    if present then St.fail (Message "model graph key is already recorded")
    else
      let^ prepared := (λ s, (s, prepare indices s l)) in
      let^ _ := on_world (begin_graph id) in
      let^ _ := St.guarded (λ s, set_world (recording_drop 0 (world s)) s) (record_all envs 0 prepared (mkTracked ∅ [])) in
      let^ _ := on_stream (finish_graph sizes 0) in
      St.modify (λ s, set_recorded ((key, prepared) :: recorded_graphs s) s).
(** [ModelSession::replay]; [device] is what the device makes of the batches it
    is given. *)
Notation Overlaps := (list Replay → nat → list Work).
Definition launch_graph (envs : nat → Env) (device : Overlaps) (i : nat) : M unit := λ w,
  launch envs (device (from_option g_replays [] (graphs (client w) !! i))) i w.
Definition replay (envs : nat → Env) (device : Overlaps) (key : Z) : S_ unit :=
  let^ _ := usable in
  let^ found := St.gets (λ s, fst <$> list_find (λ x, x.1 = key) (recorded_graphs s)) in
  match found with
  | None => St.fail (Message "model graph key is not recorded")
  | Some i => failing (on_stream (launch_graph envs device i))
  end.

(** [ModelSession::benchmark]: the calls and the clock of each round, by its
    iteration and its mode (0 replays, 1 executes directly). *)
Record BenchEnv : Type := mkBench {
  be_calls : nat → nat → nat → Env;
  be_device : nat → nat → Overlaps;
  be_sync : nat → nat → Env;
  be_elapsed : nat → nat → Z }.
Record ForwardTimings : Type := mkForward { ft_samples : nat; ft_graph : Distribution; ft_direct : Distribution }.
Definition recorded_commands (key : Z) : S_ (list Prepared) := λ s,
  (s, ok_or ((λ x : nat * (Z * list Prepared), x.2.2) <$> list_find (λ x, x.1 = key) (recorded_graphs s))
        (Message "model graph key is not recorded")).
(** One direct execution of a recorded graph's commands in
    [ModelSession::benchmark]. *)
Definition direct (envs : nat → Env) (key : Z) : S_ unit :=
  let^ _ := usable in
  let^ l := recorded_commands key in
  failing (execute_direct envs l).
Definition bench_mode (b : BenchEnv) (key : Z) (l : list Prepared) (iteration mode : nat) (times : list Z * list Z)
    : S_ (list Z * list Z) :=
  let^ _ := (if (mode =? 0)%nat then replay (be_calls b iteration mode) (be_device b iteration mode) key
             else failing (execute_direct (be_calls b iteration mode) l)) in
  let^ _ := synchronize (be_sync b iteration mode) in
  let x := be_elapsed b iteration mode in
  St.ret (if (10 <=? iteration)%nat
          then (if (mode =? 0)%nat then (times.1 ++ [x], times.2) else (times.1, times.2 ++ [x]))
          else times).
Fixpoint bench_all (b : BenchEnv) (key : Z) (l : list Prepared) (iterations : list nat) (times : list Z * list Z)
    : S_ (list Z * list Z) :=
  match iterations with
  | [] => St.ret times
  | i :: rest =>
      let^ times := bench_mode b key l i (i mod 2) times in
      let^ times := bench_mode b key l i (1 - i mod 2) times in
      bench_all b key l rest times
  end.
Definition benchmark (b : BenchEnv) (key : Z) (samples : nat) : S_ ForwardTimings :=
  if (samples <? 10)%nat then St.fail (Message "use at least ten model timing samples")
  else
    let^ _ := usable in
    let^ l := recorded_commands key in
    let^ times := bench_all b key l (seq 0 (samples + 10)) ([], []) in
    let^ graph := St.lift (from_samples times.1) in
    let^ direct := St.lift (from_samples times.2) in
    St.ret (mkForward samples graph direct).

(** [ModelSession::profile_commands]: round 0 of a command is its warm-up. *)
Fixpoint profile_rounds (b : BenchEnv) (index : nat) (c : Prepared) (rounds : list nat) (times : list Z) : S_ (list Z) :=
  match rounds with
  | [] => St.ret times
  | i :: rest =>
      let^ _ := failing (execute_direct (be_calls b index i) [c]) in
      let^ _ := synchronize (be_sync b index i) in
      profile_rounds b index c rest (if (i =? 0)%nat then times else times ++ [be_elapsed b index i])
  end.
Fixpoint profile_all (b : BenchEnv) (index samples : nat) (l : list Prepared) : S_ (list Distribution) :=
  match l with
  | [] => St.ret []
  | c :: rest =>
      let^ times := profile_rounds b index c (seq 0 (S samples)) [] in
      let^ d := St.lift (from_samples times) in
      let^ ds := profile_all b (S index) samples rest in
      St.ret (d :: ds)
  end.
Definition profile_commands (b : BenchEnv) (key : Z) (samples : nat) : S_ (list Distribution) :=
  if (samples =? 0)%nat then St.fail (Message "use at least one command timing sample")
  else
    let^ _ := usable in
    let^ l := recorded_commands key in
    profile_all b 0 samples l.

(** ** Readback *)

(** The session drops a buffer. *)
Definition drop_owned (b : Buffer) (w : World) : World :=
  match list_find (λ x, x = b) (handles (client w)) with
  | Some (i, _) => drop_handle i w
  | None => w
  end.
(** [ModelSession::reserve_readback]. *)
Definition reserve_readback (env : Env) (n : Z) : S_ unit :=
  let^ _ := usable in
  let^ old := St.gets readback in
  if (match old with Some b => bytes b <? n | None => true end) then
    let^ b := on_stream (shared env n) in
    let^ _ := St.modify (set_readback (Some b)) in
    match old with
    | Some o => on_world (drop_owned o)
    | None => St.ret tt
    end
  else St.ret tt.

(** The calls of one readback that may fail: waits, copies, and the mapped
    pointers, of which some may be null. *)
Record ReadEnv : Type := mkReadEnv {
  re_sync : Env;
  re_reserve : Env;
  re_copies : nat → Env;
  re_pointer : nat → Result bool }.
Definition mapped (r : Result bool) (text : string) : S_ unit :=
  let^ present := St.lift r in
  if present then St.ret tt
  else let^ _ := St.modify (set_failed true) in St.fail (Message text).
(** The checks: total length, and whether every region is host local. *)
Fixpoint check_outputs (s : Session) (l : list (Region * Z)) (total : Z) (all_shared : bool) : Result (Z * bool) :=
  match l with
  | [] => Ok (total, all_shared)
  | (r, n) :: rest =>
      let? a := validate_region s r in
      if r_bytes r <? n then Err (Message "readback exceeds model region")
      else
        match checked_add total n with
        | None => Err (Message "readback size overflow")
        | Some total =>
            check_outputs s rest total (all_shared && match a_placement a with OnHost => true | OnDevice => false end)
        end
  end.
Definition peek (b : Buffer) (offset n : Z) : S_ (list Z) :=
  St.gets (λ s, read_bytes (memory (dev (world s))) (native b) offset n).
Fixpoint read_shared (env : ReadEnv) (i : nat) (l : list (Region * Z)) : S_ (list (list Z)) :=
  match l with
  | [] => St.ret []
  | (r, n) :: rest =>
      let^ out :=
        (if n =? 0 then St.ret []
         else
           let^ a := (λ s, (s, validate_region s r)) in
           let^ _ := mapped (re_pointer env i) "null shared model pointer" in
           peek (a_buffer a) (r_offset r) n) in
      let^ outs := read_shared env (S i) rest in
      St.ret (out :: outs)
  end.
Fixpoint copy_out (env : ReadEnv) (b : Buffer) (i : nat) (offset : Z) (l : list (Region * Z)) : S_ unit :=
  match l with
  | [] => St.ret tt
  | (r, n) :: rest =>
      let^ _ :=
        (if n =? 0 then St.ret tt
         else
           let^ a := (λ s, (s, validate_region s r)) in
           let^ source := St.lift (try_slice (a_buffer a) (r_offset r) n) in
           let^ target := St.lift (try_slice b offset n) in
           failing (on_stream (Stream.copy (re_copies env i) target source))) in
      copy_out env b (S i) (offset + n) rest
  end.
Fixpoint split_out (b : Buffer) (offset : Z) (l : list (Region * Z)) : S_ (list (list Z)) :=
  match l with
  | [] => St.ret []
  | (r, n) :: rest =>
      let^ out := (if n =? 0 then St.ret [] else peek b offset n) in
      let^ outs := split_out b (offset + n) rest in
      St.ret (out :: outs)
  end.
(** [ModelSession::read_many]; an output is its region and its length. *)
Definition read_many (env : ReadEnv) (l : list (Region * Z)) : S_ (list (list Z)) :=
  let^ _ := usable in
  let^ checked := (λ s, (s, check_outputs s l 0 true)) in
  let '(total, all_shared) := checked in
  if all_shared then
    let^ _ := synchronize (re_sync env) in
    read_shared env 0 l
  else
    let^ _ := reserve_readback (re_reserve env) total in
    let^ b := (λ s, (s, ok_or (readback s) (Message "reserved above"))) in
    let^ _ := copy_out env b 0 0 l in
    let^ _ := synchronize (re_sync env) in
    if total =? 0 then St.ret ((λ _, []) <$> l)
    else
      let^ _ := mapped (re_pointer env 0) "null model readback pointer" in
      split_out b 0 l.

(** [ModelSession::compile]: what the compiler loads is an argument. *)
Definition compile (loaded : Result (list LoadedKernel)) (env : Env) : S_ (list KernelId) :=
  let^ _ := usable in
  let^ l := St.lift loaded in
  let^ _ := synchronize env in
  let^ first := St.gets (λ s, length (kernels s)) in
  let^ _ := St.modify (λ s, set_kernels (kernels s ++ l) s) in
  let^ id := St.gets s_id in
  St.ret ((λ i, mkKernelId id (first + i)) <$> seq 0 (length l)).
(** [ModelSession::with_stream]. *)
Definition open_session (id : nat) (w : World) : Session := mkSession id [] [] [] None false w.
End ModelSession.
