(* ===== verification/ModelSessionRecording.v ===== *)
(** * Model sessions: the invariant and recording

    What a session keeps: its buffers are apart, and each recorded graph means
    its commands.  The recording of a session is followed through the frontier,
    the kept edges and the barriers: two commands of a finished graph with no
    barrier between them have declared no common byte that one of them writes,
    so a graph whose kernels keep to their declarations has no races. *)

From S2P Require Import Prelude Access DependencyFrontier Sdma RawGraph Target Stream StreamMemory StreamOverlap StreamInvariant StreamCalls StreamOperations StreamTheorems BenchmarkStatistics ModelSession.
Import Stream StreamMemory StreamOverlap StreamInvariant StreamCalls StreamOperations StreamTheorems ModelSession.
Local Open Scope Z_scope.

Module ModelSessionRecording.
Local Arguments scratch_buffers : simpl never.
Local Arguments cached_natives : simpl never.
Notation nowatch := (@None (nat * (Z → Z)), @nil nat).
Notation sound := (StreamInvariant.inv nowatch).

(** ** The invariant *)

Definition option_list {A} (o : option A) : list A := match o with Some x => [x] | None => [] end.
(** The buffers a session owns. *)
Definition owned_buffers (s : Session) : list Buffer := (a_buffer <$> allocations s) ++ option_list (readback s).
(** What prepared commands do, without recording or queues. *)
Definition work_of (s : Session) (c : Prepared) : Result Work :=
  match c with
  | PFill r value => let? v := view s r in Ok (Fill (native (v_owner v)) (v_offset v) (v_length v) value)
  | PDispatch k constants grid bindings =>
      let? k := kernel s k in
      let? vs := views s bindings in
      Ok (Run (mkLaunch (lk_entry k) grid (lk_block k) constants (range_of <$> vs)))
  end.
Fixpoint works (s : Session) (l : list Prepared) : Result (list Work) :=
  match l with
  | [] => Ok []
  | c :: rest => let? x := work_of s c in let? xs := works s rest in Ok (x :: xs)
  end.
Definition replayed (cs : list Command) (ws : list Work) : Prop :=
  ∀ f m, meq (foldl (apply f) m (works_all cs)) (foldl (apply f) m ws).
(** The regions a command declares, and the bytes of a region. *)
Definition declared (c : Prepared) : list (Region * Access) :=
  match c with
  | PFill r _ => [(r, Write)]
  | PDispatch _ _ _ l => (λ b, (b_region b, b_access b)) <$> l
  end.
Definition covers (s : Session) (r : Region) (n : nat) (a : Z) : Prop :=
  ∃ x, allocations s !! r_allocation r = Some x ∧ n = native (a_buffer x) ∧ r_offset r <= a < r_offset r + r_bytes r.
Definition writes_at (s : Session) (c : Prepared) (n : nat) (a : Z) : Prop :=
  ∃ r acc, (r, acc) ∈ declared c ∧ writes acc = true ∧ covers s r n a.
(** The safety contract of [ModelSession::record]: a dispatch changes only bytes
    its bindings declare to be written. *)
Definition contract_kept (f : Effect) (s : Session) (c : Prepared) : Prop :=
  match c with
  | PFill _ _ => True
  | PDispatch _ _ _ _ => ∀ x n a, work_of s c = Ok x → ¬ writes_at s c n a → spares f x n a
  end.

Definition region_ok (r : Region) : Prop := 0 <= r_offset r ∧ 0 <= r_bytes r.
Definition prepared_ok (c : Prepared) : Prop :=
  match c with
  | PFill r _ => region_ok r
  | PDispatch _ _ _ l => Forall (λ b, region_ok (b_region b)) l
  end.
(** A finished graph means its commands, and has no races if they keep their
    contracts. *)
Record means (s : Session) (p : list Prepared) (l : list Replay) : Prop := {
  mg_works : ∃ ws, works s p = Ok ws ∧ replayed (replay_command <$> l) ws;
  mg_races : ∀ f, Forall (contract_kept f s) p → Forall (graph_race_free f) l }.
Record ok (s : Session) : Prop := {
  so_inv : sound (world s);
  so_idle : locals (pools (world s)) = [];
  so_owned : ∀ b, b ∈ owned_buffers s → b ∈ handles (client (world s));
  so_apart : NoDup (native <$> owned_buffers s);
  so_wf : Forall (λ x, Forall prepared_ok x.2) (recorded_graphs s);
  so_graphs : Forall2 (λ x, means s x.2) (recorded_graphs s) (recorded (world s)) }.

(** ** Regions *)

Lemma validate_region_Ok s r a :
  validate_region s r = Ok a → allocations s !! r_allocation r = Some a ∧ r_offset r + r_bytes r <= bytes (a_buffer a).
Proof.
  unfold validate_region. destruct (negb _); [done|]. destruct (allocations s !! _) as [x|]; [|done].
  destruct (checked_add _ _) as [stop|] eqn:E; [|done]. destruct (Z.ltb_spec (bytes (a_buffer x)) stop); [done|]. intros [= ->].
  apply checked_add_Some in E as [-> _]. done.
Qed.
Lemma view_Ok s r v :
  view s r = Ok v → ∃ a, allocations s !! r_allocation r = Some a ∧ v = mkView (a_buffer a) (r_offset r) (r_bytes r).
Proof.
  unfold view. destruct (validate_region s r) as [a|] eqn:E; [|done]. cbn [result_bind]. intros (-> & _)%stream_slice_Ok.
  apply validate_region_Ok in E as [E _]. by exists a.
Qed.
Lemma allocation_owned s i a : ok s → allocations s !! i = Some a → a_buffer a ∈ handles (client (world s)).
Proof.
  intros Hs Ha. apply (so_owned _ Hs). unfold owned_buffers. apply elem_of_app. left. apply list_elem_of_fmap_2.
  by eapply list_elem_of_lookup_2.
Qed.
Lemma view_owned s r v : ok s → region_ok r → view s r = Ok v → owned (world s) v.
Proof.
  intros Hs [H1 H2] (a & Ha & ->)%view_Ok. split_and!; [by eapply allocation_owned|done..].
Qed.
Lemma views_owned s l vs :
  ok s → Forall (λ b, region_ok (b_region b)) l → views s l = Ok vs → Forall (owned (world s)) vs.
Proof.
  intros Hs. revert vs. induction l as [|b l IH]; intros vs Hl; cbn [views]; [by intros [= <-]|]. inversion_clear Hl as [|? ? Hb Hr].
  destruct (view s (b_region b)) as [v|] eqn:E; [|done]. cbn [result_bind]. destruct (views s l) as [vs'|]; [|done]. cbn [result_bind].
  intros [= <-]. constructor; [by eapply view_owned|by apply IH].
Qed.

(** A session that only grows keeps the meaning of its commands. *)
Record extends (s s' : Session) : Prop := {
  ex_id : s_id s' = s_id s;
  ex_allocations : ∀ i a, allocations s !! i = Some a → ∃ a', allocations s' !! i = Some a' ∧ a_buffer a' = a_buffer a;
  ex_kernels : ∀ i k, kernels s !! i = Some k → kernels s' !! i = Some k }.
Lemma extends_refl s s' :
  s_id s' = s_id s → allocations s' = allocations s → kernels s' = kernels s → extends s s'.
Proof. intros E1 E2 E3. constructor; [done| |]; [intros i a; rewrite E2|intros i k; by rewrite E3]. eauto. Qed.
Lemma extends_validate s s' r a :
  extends s s' → validate_region s r = Ok a → ∃ a', validate_region s' r = Ok a' ∧ a_buffer a' = a_buffer a.
Proof.
  intros [E1 E2 _]. unfold validate_region. rewrite E1. destruct (negb _); [done|].
  destruct (allocations s !! r_allocation r) as [x|] eqn:E; [|done]. destruct (E2 _ _ E) as (y & -> & Hy).
  destruct (checked_add _ _); [|done]. rewrite Hy. destruct (_ <? _); [done|]. intros [= <-]. eauto.
Qed.
Lemma extends_view s s' r v : extends s s' → view s r = Ok v → view s' r = Ok v.
Proof.
  intros Hx. unfold view. destruct (validate_region s r) as [a|] eqn:E; [|done]. destruct (extends_validate _ _ _ _ Hx E) as (a' & -> & Ha).
  cbn [result_bind]. by rewrite Ha.
Qed.
Lemma extends_views s s' l vs : extends s s' → views s l = Ok vs → views s' l = Ok vs.
Proof.
  intros Hx. revert vs. induction l as [|b l IH]; intros vs; [done|]. cbn [views].
  destruct (view s (b_region b)) as [v|] eqn:E; [|done]. rewrite (extends_view _ _ _ _ Hx E). cbn [result_bind].
  destruct (views s l) as [vs'|]; [|done]. by rewrite (IH vs' eq_refl).
Qed.
Lemma extends_kernel s s' k x : extends s s' → kernel s k = Ok x → kernel s' k = Ok x.
Proof.
  intros [E1 _ E3]. unfold kernel. rewrite E1. destruct (negb _); [done|]. destruct (kernels s !! _) as [y|] eqn:E; [|done].
  by rewrite (E3 _ _ E).
Qed.
Lemma extends_work s s' c x : extends s s' → work_of s c = Ok x → work_of s' c = Ok x.
Proof.
  intros Hx. destruct c as [r v|k c g b]; cbn [work_of].
  - destruct (view s r) eqn:E; [|done]. by rewrite (extends_view _ _ _ _ Hx E).
  - destruct (kernel s k) eqn:E; [|done]. rewrite (extends_kernel _ _ _ _ Hx E). cbn [result_bind].
    destruct (views s b) eqn:E'; [|done]. by rewrite (extends_views _ _ _ _ Hx E').
Qed.
Lemma extends_works s s' l ws : extends s s' → works s l = Ok ws → works s' l = Ok ws.
Proof.
  intros Hx. revert ws. induction l as [|c l IH]; intros ws; [done|]. cbn [works].
  destruct (work_of s c) as [x|] eqn:E; [|done]. rewrite (extends_work _ _ _ _ Hx E). cbn [result_bind].
  destruct (works s l) as [xs|]; [|done]. by rewrite (IH xs eq_refl).
Qed.
Lemma works_app s l l' ws ws' : works s l = Ok ws → works s l' = Ok ws' → works s (l ++ l') = Ok (ws ++ ws').
Proof.
  revert ws. induction l as [|c l IH]; intros ws; cbn [works app]; [by intros [= <-]|]. destruct (work_of s c) as [x|]; [|done].
  cbn [result_bind]. destruct (works s l) as [xs|]; [|done]. cbn [result_bind]. intros [= <-] H. by rewrite (IH xs eq_refl H).
Qed.

Lemma works_forall s l ws : works s l = Ok ws → Forall (λ c, ∃ x, work_of s c = Ok x) l.
Proof.
  revert ws. induction l as [|c l IH]; intros ws; [done|]. cbn [works]. destruct (work_of s c) as [x|] eqn:E; [|done]. cbn [result_bind].
  destruct (works s l) as [xs|]; [|done]. intros _. constructor; [by exists x|by eapply IH].
Qed.
Lemma views_valid s l vs : views s l = Ok vs → Forall (λ b, ∃ a, validate_region s (b_region b) = Ok a) l.
Proof.
  revert vs. induction l as [|b l IH]; intros vs; [done|]. cbn [views]. unfold view.
  destruct (validate_region s (b_region b)) as [a|] eqn:E; [|done]. cbn [result_bind]. destruct (try_slice _ _ _); [|done]. cbn [result_bind].
  destruct (views s l) as [vs'|]; [|done]. intros _. constructor; [by exists a|by eapply IH].
Qed.
(** Every region a command declares is valid where the command means something. *)
Lemma declared_valid s c x : work_of s c = Ok x → Forall (λ p : Region * Access, ∃ a, validate_region s p.1 = Ok a) (declared c).
Proof.
  destruct c as [r v|k cs g b]; cbn [work_of declared].
  - unfold view. destruct (validate_region s r) as [a|] eqn:E; [|done]. intros _. apply Forall_singleton. by exists a.
  - destruct (kernel s k); [|done]. cbn [result_bind]. destruct (views s b) as [vs|] eqn:E; [|done]. intros _.
    apply Forall_fmap. eapply Forall_impl; [by eapply views_valid|]. done.
Qed.
Lemma extends_writes s s' c x n a :
  extends s s' → work_of s c = Ok x → writes_at s' c n a → writes_at s c n a.
Proof.
  intros Hx Hw (r & acc & Hd & Hacc & y & Hy & -> & Ha). exists r, acc. split_and!; [done..|].
  pose proof (declared_valid _ _ _ Hw) as Hv. rewrite Forall_forall in Hv. destruct (Hv _ Hd) as (z & (Hz & _)%validate_region_Ok).
  exists z. split; [done|]. split; [|done]. destruct (ex_allocations _ _ Hx _ _ Hz) as (z' & Hz' & E). cbn in *. congruence.
Qed.
Lemma extends_contract f s s' c x :
  extends s s' → work_of s c = Ok x → contract_kept f s' c → contract_kept f s c.
Proof.
  intros Hx Hw. destruct c as [r v|k cs g b]; [done|]. intros Hc y n a Hy Hn. apply Hc; [by eapply extends_work|].
  intros H. apply Hn. by eapply extends_writes.
Qed.
Lemma extends_means s s' p l : extends s s' → means s p l → means s' p l.
Proof.
  intros Hx [(ws & Hw & Hm) Hr]. split; [exists ws; split; [by eapply extends_works|done]|]. intros f Hf. apply Hr.
  apply works_forall in Hw. rewrite Forall_forall in Hw, Hf |- *. intros c Hc. destruct (Hw c Hc) as [x Hwx].
  by apply (extends_contract f s s' c x), Hf.
Qed.

(** ** Frames *)

(** The invariant moves to a session with the same graphs whose world keeps the
    handles and what its graphs submit. *)
Lemma ok_frame s s' :
  ok s → sound (world s') → locals (pools (world s')) = [] →
  (∀ b, b ∈ owned_buffers s' → b ∈ handles (client (world s'))) → NoDup (native <$> owned_buffers s') →
  extends s s' → recorded_graphs s' = recorded_graphs s → recorded (world s') = recorded (world s) → ok s'.
Proof.
  intros [S1 S2 S3 S4 S5 S6] H1 H2 H3 H4 Hx Hr Hw. constructor; try done; [by rewrite Hr|]. rewrite Hr, Hw.
  eapply Forall2_impl; [exact S6|]. cbn. intros x l. by apply extends_means.
Qed.
Lemma ok_world s w :
  ok s → sound w → locals (pools w) = [] → handles (client w) = handles (client (world s)) →
  recorded w = recorded (world s) → ok (set_world w s).
Proof.
  intros Hs H1 H2 H3 H4. apply (ok_frame s); try done; [|apply Hs|by apply extends_refl].
  intros b Hb. cbn. rewrite H3. by apply (so_owned _ Hs).
Qed.
(** Flags do not matter. *)
Definition good (s : Session) : Prop := failed s = true ∨ ok s.

Lemma stream_wp {A} (m : M A) (Q : A → Session → Prop) (R : Session → Prop) s :
  StreamCalls.wp nowatch m (λ a w', Q a (set_world w' s)) (world s) →
  (∀ w' e, m (world s) = (w', Err e) → sound w' → R (set_world w' s)) → St.wp (on_stream m) Q R s.
Proof.
  unfold StreamCalls.wp, St.wp, on_stream. destruct (m (world s)) as [w' [a|e]]; [done|]. intros H HR. by apply (HR w' e).
Qed.
Lemma failing_wp {A} (m : S_ A) (Q : A → Session → Prop) s : St.wp m Q (λ _, True) s → St.wp (failing m) Q good s.
Proof. intros H. apply St.guarded_wp. eapply St.mono_wp; [exact H|done|]. intros s' _. by left. Qed.
Lemma usable_wp (Q : unit → Session → Prop) s : good s → (failed s = false → ok s → Q tt s) → St.wp usable Q good s.
Proof.
  intros Hs HQ. unfold St.wp, usable. destruct (failed s) eqn:E; [by left|]. destruct Hs as [Hs|Hs]; [congruence|]. by apply HQ.
Qed.
Lemma check_wp {A} (f : Session → Result A) (Q : A → Session → Prop) (R : Session → Prop) s :
  R s → (∀ a, f s = Ok a → Q a s) → St.wp (λ s, (s, f s)) Q R s.
Proof. unfold St.wp. destruct (f s); auto. Qed.

(** ** Calls that fail leave the client alone *)

Create HintDb client_left.
Ltac left_alone :=
  repeat first
    [ solve [auto with client_left nocore] | apply leaves_bind; [|intros ?] | apply leaves_if | apply leaves_modify; done
    | match goal with |- leaves _ (match ?x with _ => _ end) => destruct x end | done ].
Lemma reserve_client env n : leaves client (reserve env n).
Proof. intros w. unfold reserve. by repeat case_match. Qed.
Lemma take_free_client n : leaves client (take_free n).
Proof. intros w. unfold take_free. by repeat case_match. Qed.
Lemma owns_client b : leaves client (owns b).
Proof. intros w. unfold owns. by case_match. Qed.
#[local] Hint Resolve reserve_client take_free_client owns_client : client_left.
Lemma allocate_shared_client env n : leaves client (allocate_shared env n).
Proof. unfold allocate_shared, allocate_staging, new_native, new_buffer, own. left_alone. Qed.
#[local] Hint Resolve allocate_shared_client : client_left.
Lemma allocate_client env n : leaves client (allocate_initialized env env n None).
Proof. unfold allocate_initialized, new_native, new_buffer, own, write_data, device_only. left_alone. Qed.
Lemma prepare_fill_client env dst v : leaves client (prepare_fill env dst v).
Proof. unfold prepare_fill. left_alone. Qed.
Lemma owns_all_client views : leaves client (owns_all views).
Proof. induction views as [|v views IH]; [done|]. cbn [owns_all]. left_alone. Qed.
#[local] Hint Resolve prepare_fill_client owns_all_client : client_left.
Lemma prepare_dispatch_client env l views : leaves client (prepare_dispatch env l views).
Proof. unfold prepare_dispatch. left_alone. Qed.

Lemma give_fails {A} (m : M A) (k : A → M Buffer) w w' e :
  leaves client m → (∀ a w, ∃ b, (k a w).2 = Ok b) → call (bind m k) w = (w', Err e) →
  client w' = client w ∧ locals (pools w') = [].
Proof.
  intros Hl Hk. unfold call, bind. specialize (Hl w). destruct (m w) as [w1 [a|e1]].
  - destruct (Hk a w1) as [b Hb]. destruct (k a w1) as [w2 r]. cbn in Hb. subst r. done.
  - intros [= <- _]. destruct (drop_locals_frame w1) as (_ & _ & -> & _ & ->). done.
Qed.
Lemma given_fails p env n w w' e :
  (match p with OnDevice => allocate env n | OnHost => shared env n end) w = (w', Err e) →
  client w' = client w ∧ locals (pools w') = [].
Proof.
  destruct p; apply give_fails; [apply allocate_client|by eexists|apply allocate_shared_client|by eexists].
Qed.

(** ** Declared uses *)

(** What the frontier is told of a command. *)
Definition region_use (p : Region * Access) : Frontier.Use :=
  Frontier.mkUse (Z.of_nat (r_allocation p.1)) (mkRange (r_offset p.1) (saturating_add (r_offset p.1) (r_bytes p.1))) p.2.
Definition prepared_uses (c : Prepared) : list Frontier.Use := region_use <$> declared c.
Lemma view_use s r v a : view s r = Ok v → access_use r v a = region_use (r, a).
Proof. by intros (x & _ & ->)%view_Ok. Qed.
Lemma views_uses s l vs : views s l = Ok vs → binding_uses l vs = region_use <$> ((λ b, (b_region b, b_access b)) <$> l).
Proof.
  revert vs. induction l as [|b l IH]; intros vs; cbn [views]; [by intros [= <-]|].
  destruct (view s (b_region b)) as [v|] eqn:E; [|done]. cbn [result_bind]. destruct (views s l) as [vs'|]; [|done]. cbn [result_bind].
  intros [= <-]. unfold binding_uses. cbn [zip_with fmap list_fmap]. rewrite (view_use _ _ _ _ E). f_equal. by apply IH.
Qed.
(** The frontier sees every byte of a valid region. *)
Lemma region_use_covers s p n a x :
  validate_region s p.1 = Ok x → covers s p.1 n a → Access.in_range a (Frontier.range (region_use p)).
Proof.
  intros Hv (y & _ & _ & Ha). unfold validate_region in Hv. destruct (negb _); [done|]. destruct (allocations s !! _); [|done].
  destruct (checked_add _ _) as [stop|] eqn:E; [|done]. apply checked_add_Some in E as [-> E]. unfold Access.in_range, region_use, saturating_add. cbn. lia.
Qed.

(** ** Commands *)

(** A recorded command does what the prepared one means, uses only bytes it
    declares, and changes only bytes it declares to be written. *)
Record command_of (s : Session) (c : Prepared) (x : Command) : Prop := {
  co_work : ∃ w, work_of s c = Ok w ∧ replayed [x] [w];
  co_used : ∀ y n a, y ∈ command_works x → uses_byte y n a = true → ∃ r acc, (r, acc) ∈ declared c ∧ covers s r n a;
  co_spared : ∀ f y n a, contract_kept f s c → y ∈ command_works x → ¬ writes_at s c n a → spares f y n a }.

Lemma fill_parts_elem limit b o v n y :
  0 < n → (∀ l, limit = Some l → 0 < l) → y ∈ concat (works_of (λ x k, Fill b (o + x) k v) (spans limit n)) →
  ∃ p k, y = Fill b p k v ∧ o <= p ∧ p + k <= o + n.
Proof.
  intros Hn Hl. rewrite concat_works_of. intros ([p k] & -> & Hc)%list_elem_of_fmap. exists (o + p), k. split; [done|].
  assert (0 < default COMPUTE_LIMIT limit) as H0 by (destruct limit; [by apply Hl|done]).
  destruct (Sdma.tiled_bounds _ 0 n _ p k ltac:(lia) (Sdma.parts_of_tiled _ n H0 Hn) Hc). cbn. lia.
Qed.
Lemma fill_command_used s r v vw cfg x :
  view s r = Ok vw → 0 < r_bytes r → (∀ l, sdma cfg = Some l → 0 < l) → fill_command_of cfg vw v x →
  command_of s (PFill r v) x.
Proof.
  intros Ev Hn Hl (_ & _ & Hp). pose proof Ev as (al & Ha & ->)%view_Ok. cbn [v_owner v_offset v_length] in Hp.
  assert (∀ y n a, y ∈ command_works x → uses_byte y n a = true → covers s r n a) as Hu.
  { intros y n a Hy. unfold command_works in Hy. rewrite Hp in Hy. apply fill_parts_elem in Hy as (p & k & -> & H1 & H2); [|done..].
    cbn [uses_byte]. rewrite andb_true_iff, Nat.eqb_eq, in_range_true. intros [-> Hr]. exists al. split; [done|]. split; [done|]. lia. }
  constructor.
  - eexists. cbn [work_of]. rewrite Ev. split; [done|]. intros f m. unfold works_all. cbn [mbind list_bind]. unfold command_works.
    rewrite app_nil_r, Hp. by apply fill_command.
  - intros y n a Hy Hb. exists r, Write. split; [by left|by eapply Hu].
  - intros f y n a _ Hy Hw m. apply apply_unused. destruct (uses_byte y n a) eqn:E; [|done]. exfalso. apply Hw.
    exists r, Write. split_and!; [by left|done|by eapply Hu].
Qed.

Lemma views_range s l vs q n a :
  views s l = Ok vs → q ∈ range_of <$> vs → n = q.1.1 → q.1.2 <= a < q.1.2 + q.2 →
  ∃ b, b ∈ l ∧ covers s (b_region b) n a.
Proof.
  revert vs. induction l as [|b l IH]; intros vs; cbn [views]; [by intros [= <-] ?%elem_of_nil|].
  destruct (view s (b_region b)) as [v|] eqn:E; [|done]. cbn [result_bind]. destruct (views s l) as [vs'|]; [|done]. cbn [result_bind].
  intros [= <-]. cbn [fmap list_fmap]. intros [->|Hq]%elem_of_cons Hn Ha.
  - apply view_Ok in E as (al & Hal & ->). exists b. split; [by left|]. exists al. split; [done|]. split; done.
  - destruct (IH vs' eq_refl Hq Hn Ha) as (b' & Hb & Hc). exists b'. split; [by right|done].
Qed.
Lemma dispatch_command_used s k constants grid bindings kx vs cfg x :
  kernel s k = Ok kx → views s bindings = Ok vs →
  dispatch_ok cfg (mkDispatch (mkLaunch (lk_entry kx) grid (lk_block kx) constants (range_of <$> vs)) x) →
  command_of s (PDispatch k constants grid bindings) x.
Proof.
  intros Ek Ev (_ & Hp & _). cbn [d_command d_launch] in Hp.
  assert (work_of s (PDispatch k constants grid bindings) = Ok (Run (mkLaunch (lk_entry kx) grid (lk_block kx) constants (range_of <$> vs)))) as Hw
    by (cbn [work_of]; rewrite Ek; cbn [result_bind]; by rewrite Ev).
  assert (command_works x = [Run (mkLaunch (lk_entry kx) grid (lk_block kx) constants (range_of <$> vs))]) as Hx
    by (unfold command_works; by rewrite Hp).
  constructor.
  - eexists. split; [exact Hw|]. intros f m. unfold works_all. cbn [mbind list_bind]. by rewrite app_nil_r, Hx.
  - intros y n a. rewrite Hx. intros ->%list_elem_of_singleton (q & Hq & Hn)%existsb_exists. cbn [l_bindings] in Hq.
    apply list_elem_of_In in Hq. apply andb_true_iff in Hn as [Hn%Nat.eqb_eq Ha%in_range_true].
    destruct (views_range s bindings vs q n a Ev Hq Hn Ha) as (b & Hb & Hc). exists (b_region b), (b_access b). split; [|done].
    by apply (list_elem_of_fmap_2 (λ b, (b_region b, b_access b))).
  - intros f y n a Hc. rewrite Hx. intros ->%list_elem_of_singleton Hn. by apply Hc.
Qed.

(** Natives tell allocations apart. *)
Lemma natives_allocations s i j x y :
  ok s → allocations s !! i = Some x → allocations s !! j = Some y → native (a_buffer x) = native (a_buffer y) → i = j.
Proof.
  intros Hs Hi Hj E. pose proof (so_apart _ Hs) as Hd. unfold owned_buffers in Hd. rewrite fmap_app in Hd. apply NoDup_app in Hd as (Hd & _).
  apply (NoDup_lookup _ i j (native (a_buffer x)) Hd); rewrite !list_lookup_fmap; [by rewrite Hi|rewrite Hj; cbn; by rewrite E].
Qed.
(** Commands that declare no common byte with a write do not race. *)
Lemma apart_independent f s ps i j c d x y :
  ok s → ps !! i = Some c → ps !! j = Some d → ¬ Frontier.hazard (prepared_uses <$> ps) i j →
  command_of s c x → command_of s d y → contract_kept f s c → contract_kept f s d → independent f x y.
Proof.
  intros Hs Hi Hj Hno Hx Hy Kc Kd u v n a Hu Hv.
  assert (∀ k e z, ps !! k = Some e → command_of s e z → ∀ r acc, (r, acc) ∈ declared e → covers s r n a →
    Frontier.touches (prepared_uses <$> ps) k (Z.of_nat (r_allocation r)) a acc) as Ht.
  { intros k e z Hk [(w & Hw & _) _ _] r acc Hd Hc. exists (prepared_uses e), (region_use (r, acc)).
    rewrite list_lookup_fmap, Hk. split_and!; [done|by apply list_elem_of_fmap_2|done| |done].
    pose proof (declared_valid _ _ _ Hw) as Hval. rewrite Forall_forall in Hval. destruct (Hval _ Hd) as [al Hal].
    by eapply (region_use_covers s (r, acc)). }
  assert (∀ r r', covers s r n a → covers s r' n a → r_allocation r = r_allocation r') as Hsame.
  { intros r r' (p & Hp & E & _) (q & Hq & E' & _). eapply (natives_allocations s); [done..|congruence]. }
  split; intros Hb.
  - apply (co_spared _ _ _ Hy); [done..|]. intros (r & acc & Hd & Hw & Hc).
    destruct (co_used _ _ _ Hx u n a Hu Hb) as (r' & acc' & Hd' & Hc'). apply Hno.
    exists (Z.of_nat (r_allocation r)), a, acc', acc. split_and!; [|by apply (Ht j d y)|by right].
    rewrite <-(Hsame r' r) by done. by apply (Ht i c x).
  - apply (co_spared _ _ _ Hx); [done..|]. intros (r & acc & Hd & Hw & Hc).
    destruct (co_used _ _ _ Hy v n a Hv Hb) as (r' & acc' & Hd' & Hc'). apply Hno.
    exists (Z.of_nat (r_allocation r)), a, acc, acc'. split_and!; [by apply (Ht i c x)| |by left].
    rewrite <-(Hsame r' r) by done. by apply (Ht j d y).
Qed.

(** ** Recording *)

(** The recording [g] of the commands [done], tracked by [t]: [cs] are the
    prepared commands and [ds] the dependencies each was given. *)
Record history (s : Session) (done : list Prepared) (cs : list Command) (ds : list (list nat)) (t : Tracked)
    (g : Raw.Graph Command) : Prop := {
  hi_commands : Forall2 (command_of s) done cs;
  hi_nodes : (Raw.nodes g).*1 = Raw.Prepared <$> cs;
  hi_frontier : Frontier.recorded (prepared_uses <$> done) ds (tk_frontier t);
  hi_tracked : tk_nodes t = Raw.as_nodes (Raw.id g) (seq 0 (length done));
  hi_kept : Raw.faithful g (Raw.as_nodes (Raw.id g) <$> ds) }.
Lemma history_new s id device : history s [] [] [] (mkTracked ∅ []) (Raw.owned_graph id device).
Proof.
  constructor; [constructor|done|apply Frontier.recorded_empty|done|]. constructor; [done|]. intros j after n Hj. cbn in Hj. by destruct j.
Qed.
Lemma history_length s done cs ds t g : history s done cs ds t g → length (Raw.nodes g) = length done ∧ length ds = length done.
Proof.
  intros [H1 H2 H3 _ _]. apply Forall2_length in H1. apply (f_equal length) in H2. rewrite !length_fmap in H2.
  pose proof (Frontier.rec_length _ _ _ H3) as H. rewrite length_fmap in H. lia.
Qed.

(** The dependencies of the next command name recorded nodes, and recording it
    behind them keeps the history. *)
Lemma history_step s done cs ds t g c :
  history s done cs ds t g →
  ∃ t' after l, infer_dependencies (prepared_uses c) t = Some (t', after) ∧
    ∀ x g' node, Raw.appends (Raw.Prepared x) after g g' node → command_of s c x →
      history s (done ++ [c]) (cs ++ [x]) (ds ++ [l]) (push_node node t') g'.
Proof.
  intros Hh. destruct (history_length _ _ _ _ _ _ Hh) as [Hn Hd]. destruct Hh as [H1 H2 H3 H4 H5].
  destruct (Frontier.recorded_step _ _ _ (prepared_uses c) H3) as (f & l & Ef & Hrec). rewrite length_fmap in Ef.
  assert (Hlen : length (tk_nodes t) = length done) by (rewrite H4; unfold Raw.as_nodes; by rewrite length_fmap, length_seq).
  assert (Hl : ∀ d, d ∈ l → (d < length done)%nat).
  { intros d Hdl. destruct (Frontier.rec_sound _ _ _ Hrec d (length done)) as [Hlt _]; [|done].
    exists l. split; [|done]. rewrite lookup_app_r by lia. by rewrite Hd, Nat.sub_diag. }
  assert (Hm : mapM (λ d, tk_nodes t !! d) l = Some (Raw.as_nodes (Raw.id g) l)).
  { apply mapM_Some. unfold Raw.as_nodes. apply Forall2_fmap_r, Forall_Forall2_diag, Forall_forall. intros d Hdl. rewrite H4.
    unfold Raw.as_nodes. by rewrite list_lookup_fmap, lookup_seq_lt by (by apply Hl). }
  exists (mkTracked f (tk_nodes t)), (Raw.as_nodes (Raw.id g) l), l. split.
  { unfold infer_dependencies. rewrite Hlen, Ef. cbn [mbind option_bind]. by rewrite Hm. }
  intros x g' node Ha Hx. pose proof Ha as (A1 & A2 & -> & _). constructor; cbn [push_node tk_frontier tk_nodes].
  - apply Forall2_app; [done|by constructor; [|constructor]].
  - by rewrite A1, !fmap_app, H2.
  - by rewrite fmap_app.
  - rewrite A2, H4, length_app. unfold Raw.as_nodes. rewrite seq_app, fmap_app. cbn. unfold Raw.node_count. by rewrite Hn.
  - rewrite A2, fmap_app. eapply (Raw.faithful_append (Raw.Prepared x) g _ _ g' _ H5); [|exact Ha].
    apply Forall_fmap, Forall_forall. intros d _. cbn. lia.
Qed.

(** Two commands that may race are separated by a barrier. *)
Lemma history_separates s done cs ds t g i j :
  history s done cs ds t g → (i < j)%nat → Frontier.hazard (prepared_uses <$> done) i j →
  ∃ k b, (i < k ≤ j)%nat ∧ Raw.finish g !! k = Some (b, true).
Proof.
  intros Hh Hij Hz. destruct (history_length _ _ _ _ _ _ Hh) as [Hn _]. destruct Hh as [_ H2 H3 _ H5].
  pose proof (Frontier.rec_complete _ _ _ H3 i j Hij Hz) as Htc. pose proof Hz as (al & b & ai & aj & _ & Hj & _).
  apply Frontier.touches_lt in Hj. rewrite length_fmap in Hj.
  assert (Hall : ∀ k n, Raw.nodes g !! k = Some n → ∃ x d, n = (Raw.Prepared x, d)).
  { intros k [r d] Hk. apply (f_equal (.!! k)) in H2. rewrite !list_lookup_fmap, Hk in H2. cbn in H2.
    destruct (cs !! k) as [x|]; [|done]. injection H2 as ->. by exists x, d. }
  assert (Hprep : ∀ k, (k < length done)%nat → ∃ x d, Raw.nodes g !! k = Some (Raw.Prepared x, d)).
  { intros k Hk. rewrite <-Hn in Hk. apply lookup_lt_is_Some in Hk as [n Hk]. destruct (Hall k n Hk) as (x & d & ->). eauto. }
  assert (Hpos : ∀ k, (k < length done)%nat → Raw.position (Raw.nodes g) k = k).
  { intros k Hk. apply Raw.position_all; [|lia]. intros m n (x & d & ->)%Hall. by exists x. }
  destruct (Hprep i ltac:(lia)) as (xi & di & Hi), (Hprep j Hj) as (xj & dj & Hjn).
  rewrite <-(Hpos i), <-(Hpos j) by lia. eapply Raw.faithful_separates; [exact H5|done|done|]. by apply Raw.as_nodes_follows.
Qed.

Lemma replayed_app cs ws cs' ws' : replayed cs ws → replayed cs' ws' → replayed (cs ++ cs') (ws ++ ws').
Proof.
  intros H H' f m. rewrite works_all_app, !foldl_app. etrans; [apply H'|]. apply foldl_apply_proper, H.
Qed.
Lemma history_works s done cs : Forall2 (command_of s) done cs → ∃ ws, works s done = Ok ws ∧ replayed cs ws.
Proof.
  induction 1 as [|c x done cs [(w & Hw & Hr) _ _] _ (ws & IH1 & IH2)]; [by exists []|].
  exists (w :: ws). cbn [works]. rewrite Hw, IH1. split; [done|]. by apply (replayed_app [x] [w] cs ws).
Qed.

(** ** The finished graph *)

Lemma finished_commands (ns : list (Raw.Recorded Command * option Z)) cs :
  ns.*1 = Raw.Prepared <$> cs → omap node_command ns = cs.
Proof.
  revert cs. induction ns as [|[r d] ns IH]; intros [|x cs]; cbn; try done. intros [= -> E]. cbn. f_equal. by apply IH.
Qed.
Lemma finished_unbarred f s done cs ds t g :
  ok s → history s done cs ds t g → Forall (contract_kept f s) done → unbarred (independent f) (Raw.finish g).
Proof.
  intros Hs Hh Hc i j x y b b' Hij Hi Hj Hno. pose proof (hi_commands _ _ _ _ _ _ Hh) as Hcs.
  assert ((Raw.finish g).*1 = cs) as E.
  { unfold Raw.finish. rewrite order_commands. apply finished_commands, Hh. }
  assert (∀ k z bz, Raw.finish g !! k = Some (z, bz) → ∃ c, done !! k = Some c ∧ command_of s c z) as Hat.
  { intros k z bz Hk. apply (Forall2_lookup_r _ _ _ k z Hcs). by rewrite <-E, list_lookup_fmap, Hk. }
  destruct (Hat i x b Hi) as (c & Hci & Hcx), (Hat j y b' Hj) as (d & Hdj & Hdy).
  eapply (apart_independent f s done i j c d); try done; [|exact (Forall_lookup_1 _ _ _ _ Hc Hci)|exact (Forall_lookup_1 _ _ _ _ Hc Hdj)].
  intros Hz. destruct (history_separates _ _ _ _ _ _ _ _ Hh Hij Hz) as (k & z & Hk & Hb). by apply (Hno k z).
Qed.
Lemma finished_means s done cs ds t g u sizes (batched : bool) :
  ok s → history s done cs ds t g →
  means s done (if batched then batches sizes (Raw.finish (r_graph (mkRecording g u)))
                else Single <$> (Raw.finish (r_graph (mkRecording g u))).*1).
Proof.
  intros Hs Hh. cbn [r_graph].
  assert ((Raw.finish g).*1 = cs) as E by (unfold Raw.finish; rewrite order_commands; apply finished_commands, Hh).
  destruct (history_works s done cs (hi_commands _ _ _ _ _ _ Hh)) as (ws & Hw & Hr). split.
  - exists ws. split; [done|]. intros f m. destruct batched.
    + rewrite batches_commands, E. apply Hr.
    + replace (replay_command <$> (Single <$> (Raw.finish g).*1)) with cs; [apply Hr|].
      rewrite E, <-list_fmap_compose. by rewrite <-(list_fmap_id cs) at 1.
  - intros f Hc. destruct batched; [|apply Forall_fmap, Forall_forall; done].
    eapply Forall_impl; [apply (batches_pairs (independent f)); by eapply finished_unbarred|]. cbn.
    intros [x|ps] Hp; [done|]. eapply Forall_impl; [exact Hp|]. apply race_free_pairs.
Qed.

(** ** Recording calls *)

(** The newest recording with one more node. *)
Record recorded_one (w : World) (g : Recording) (after : list Raw.Node) (w' : World) (c : Command) (node : Raw.Node) : Prop := {
  ro_inv : sound w';
  ro_config : config w' = config w;
  ro_idle : locals (pools w') = [];
  ro_handles : handles (client w') = handles (client w);
  ro_graphs : graphs (client w') = graphs (client w);
  ro_recordings : ∃ g' rest, recordings (client w) = g :: rest ∧ recordings (client w') = g' :: rest ∧
                             Raw.appends (Raw.Prepared c) after (r_graph g) (r_graph g') node }.

Lemma validated_wp {A} g rest after (k : M A) (Q : A → World → Prop) w :
  sound w → recordings (client w) = g :: rest → (Raw.validate_dependencies after (r_graph g) = Ok tt → StreamCalls.wp nowatch k Q w) →
  StreamCalls.wp nowatch (let! _ := validate_after 0 after in k) Q w.
Proof.
  intros Hi Hg Hk. unfold StreamCalls.wp, bind, validate_after in *. rewrite Hg. cbn [lookup list_lookup ok_or result_bind].
  destruct (Raw.validate_dependencies after (r_graph g)) as [[]|e]; [by apply Hk|done].
Qed.
Lemma record_node_appends c after views w w0 g rest (Q : Raw.Node → World → Prop) :
  recordings (client w) = g :: rest → client w = client w0 → config w = config w0 → locals (pools w) = [] →
  Raw.validate_dependencies after (r_graph g) = Ok tt → sound (record_node 0 (Raw.Prepared c) after views w).1 →
  (∀ node w', recorded_one w0 g after w' c node → Q node w') → StreamCalls.wp nowatch (record_node 0 (Raw.Prepared c) after views) Q w.
Proof.
  intros Hg Hc Hcfg Hl Hv Hi HQ. unfold StreamCalls.wp, record_node in *. rewrite Hg in Hi |- *. cbn [lookup list_lookup] in Hi |- *.
  pose proof (Raw.record_appends (Raw.Prepared c) after (r_graph g) (raw_view <$> views) Hv) as Ha.
  destruct (Raw.record _ _ _) as [g' node]. cbn [fst snd] in Hi, Ha. apply HQ. constructor; try done.
  - cbn. by rewrite Hc.
  - cbn. by rewrite Hc.
  - eexists _, rest. rewrite <-Hc, Hg. split; [done|]. split; [reflexivity|done].
Qed.

Lemma graph_fill_wp env after dst v w g rest :
  sound w → locals (pools w) = [] → owned w dst → recordings (client w) = g :: rest →
  StreamCalls.wp nowatch (graph_fill env 0 after dst v)
    (λ node w', ∃ c, recorded_one w g after w' c node ∧ 0 < v_length dst ∧ fill_command_of (config w) dst v c) w.
Proof.
  intros Hi Hl (Ho & H0 & H1) Hg. eapply validated_wp; [done..|]. intros Hval. apply wp_bind, owns_wp; [done|]. case_match; [done|].
  apply wp_bind. eapply StreamCalls.wp_mono; [apply prepare_fill_wp; [done|by apply handle_usable|done]|]. cbn beta.
  intros c w1 (I1 & [E1 E2 E3 E4] & Hlen & Hf). pose proof Hf as (He & Hn & Hp).
  eapply (record_node_appends c after [dst] w1 w g rest); try done; [by rewrite E4|by rewrite E3| |].
  - apply record_prepared_inv; [done| |by rewrite E3| |].
    + apply Forall_singleton. apply handle_usable. by rewrite E4.
    + intros n. rewrite Hp, Hn. by apply works_touch.
    + intros n. rewrite Hn. intros ->%list_elem_of_singleton. exists dst. split; [by left|done].
  - intros node w' Hw. by exists c.
Qed.
Lemma graph_dispatch_wp env after k gr b c views w g rest :
  sound w → locals (pools w) = [] → Forall (owned w) views → recordings (client w) = g :: rest →
  StreamCalls.wp nowatch (graph_dispatch env 0 after k gr b c views)
    (λ node w', ∃ x, recorded_one w g after w' x node ∧ dispatch_ok (config w) (mkDispatch (mkLaunch k gr b c (range_of <$> views)) x)) w.
Proof.
  intros Hi Hl Hv Hg. eapply validated_wp; [done..|]. intros Hval. apply wp_bind, prepare_dispatch_wp; [done|]. intros x Hx.
  eapply (record_node_appends x after views w w g rest); try done.
  - apply record_prepared_inv; [done| |done|by eapply dispatch_cmd_ok|].
    + eapply Forall_impl; [exact Hv|]. intros v (Ho & _). by apply handle_usable.
    + intros n. destruct Hx as (_ & _ & Hx). cbn in Hx. rewrite Hx. apply range_natives.
  - intros node w' Hw. by exists x.
Qed.

(** A recording call that fails leaves the client alone. *)
Lemma validated_client i after : leaves client (validate_after i after).
Proof. done. Qed.
Lemma record_fails (m : M Command) i after views w w' e :
  leaves client m → bind m (λ c, record_node i (Raw.Prepared c) after views) w = (w', Err e) → client w' = client w.
Proof.
  intros Hl. unfold bind. specialize (Hl w). destruct (m w) as [w1 [a|e1]]; [|by intros [= <- _]].
  unfold record_node. destruct (recordings (client w1) !! i); [by destruct (Raw.record _ _ _)|]. by intros [= <- _].
Qed.
Lemma graph_fill_fails env i after dst v w w' e : graph_fill env i after dst v w = (w', Err e) → client w' = client w.
Proof.
  unfold graph_fill, bind at 1, validate_after. destruct (let? r := _ in _) as [[]|]; [|by intros [= <- _]].
  unfold bind at 1. pose proof (owns_client (v_owner dst) w) as Hcl. destruct (owns (v_owner dst) w) as [w1 [[]|e1]]; [|by intros [= <- _]].
  cbn in Hcl. rewrite <-Hcl. destruct (v_length dst =? 0); [by intros [= <- _]|]. apply record_fails, prepare_fill_client.
Qed.
Lemma graph_dispatch_fails env i after k g b c views w w' e :
  graph_dispatch env i after k g b c views w = (w', Err e) → client w' = client w.
Proof.
  unfold graph_dispatch, bind at 1, validate_after. destruct (let? r := _ in _) as [[]|]; [|by intros [= <- _]].
  apply record_fails, prepare_dispatch_client.
Qed.

(** ** A session while it records *)

Record during (s : Session) (rest : list Recording) (done : list Prepared) (t : Tracked) (s' : Session) : Prop := {
  du_same : s' = set_world (world s') s;
  du_inv : sound (world s');
  du_idle : locals (pools (world s')) = [];
  du_handles : handles (client (world s')) = handles (client (world s));
  du_graphs : graphs (client (world s')) = graphs (client (world s));
  du_recorded : ∃ g cs ds, recordings (client (world s')) = g :: rest ∧ history s done cs ds t (r_graph g) }.

Definition dropped_recording (s : Session) : Session := set_world (recording_drop 0 (world s)) s.
Lemma during_ok s rest done t s' : ok s → during s rest done t s' → ok s'.
Proof.
  intros Hs [E H1 H2 H3 H4 _]. rewrite E. apply ok_world; [done..|]. unfold recorded. by rewrite H4.
Qed.
Lemma dropped_ok s : ok s → ok (dropped_recording s).
Proof. intros Hs. apply ok_world; [done|apply recording_drop_inv, Hs|apply Hs|done..]. Qed.
Lemma error_ok s w : ok s → sound w → locals (pools w) = [] → client w = client (world s) → ok (set_world w s).
Proof. intros Hs H1 H2 H3. apply ok_world; [done..|by rewrite H3|unfold recorded; by rewrite H3]. Qed.

(** The recording call of one command, behind the dependencies inferred for it. *)
Lemma recording_call_wp (m : list Raw.Node → M Raw.Node) s rest done t s' c :
  ok s → during s rest done t s' →
  (∀ g after, recordings (client (world s')) = g :: rest →
     StreamCalls.wp nowatch (m after) (λ node w', ∃ x, recorded_one (world s') g after w' x node ∧ command_of s c x) (world s')) →
  (∀ after w e, m after (world s') = (w, Err e) → locals (pools w) = locals (pools (world s')) ∧ client w = client (world s')) →
  St.wp (let^ found := inferred (prepared_uses c) t in
         let^ node := on_stream (m found.2) in
         St.ret (push_node node found.1))
    (λ t', during s rest (done ++ [c]) t') (λ s', ok (dropped_recording s')) s'.
Proof.
  intros Hs Hd Hm He. pose proof (during_ok _ _ _ _ _ Hs Hd) as Hs'. destruct Hd as [D1 D2 D3 D4 D5 (g & cs & ds & Dg & Dh)].
  destruct (history_step _ _ _ _ _ _ c Dh) as (t' & after & l & Ei & Hh).
  apply St.bind_wp. unfold inferred, St.lift, St.wp at 1. rewrite Ei. cbn [ok_or fst snd]. apply St.bind_wp, stream_wp.
  - eapply StreamCalls.wp_mono; [by apply Hm|]. cbn beta. intros node w (x & [R1 R2 R3 R4 R5 (g' & rest' & R6 & R7 & R8)] & Hx).
    unfold St.wp, St.ret. rewrite Dg in R6. injection R6 as <-. constructor; cbn; try congruence.
    + by rewrite D1.
    + exists g', (cs ++ [x]), (ds ++ [l]). split; [done|]. by apply Hh.
  - intros w e E Hi. destruct (He _ _ _ E) as [E1 E2]. apply dropped_ok, error_ok; [done..|by rewrite E1|done].
Qed.
Lemma record_one_wp env s rest done t s' c :
  ok s → during s rest done t s' → prepared_ok c →
  St.wp (record_one env c t) (λ t', during s rest (done ++ [c]) t') (λ s', ok (dropped_recording s')) s'.
Proof.
  intros Hs Hd Hc. pose proof (during_ok _ _ _ _ _ Hs Hd) as Hs'. pose proof (dropped_ok _ Hs') as Hr.
  assert (extends s' s) as Hx by (rewrite (du_same _ _ _ _ _ Hd); by apply extends_refl).
  destruct c as [r v|k constants grid bindings]; cbn [record_one prepared_ok] in Hc |- *.
  - apply St.bind_wp, check_wp; [done|]. intros x Ev. rewrite (view_use s' r x Write Ev).
    apply (recording_call_wp (λ after, graph_fill env 0 after x v) s rest done t s' (PFill r v)); [done..| |].
    + intros g after Hg. eapply StreamCalls.wp_mono; [eapply graph_fill_wp; [apply Hs'|apply Hs'|by apply (view_owned s' r)|exact Hg]|].
      cbn beta. intros node w (y & R1 & R2 & R3). exists y. split; [done|].
      apply (fill_command_used s r v x (config (world s'))); [by apply (extends_view s')| |apply (cm_sdma _ (inv_commands _ _ (so_inv _ Hs')))|done].
      by apply view_Ok in Ev as (al & _ & ->).
    + intros after w e E. pose proof (graph_fill_locals env 0 after x v (world s')) as El. rewrite E in El.
      split; [exact El|by eapply graph_fill_fails].
  - apply St.bind_wp, check_wp; [done|]. intros kx Ek. apply St.bind_wp, check_wp; [done|]. intros vs Ev. rewrite (views_uses s' _ _ Ev).
    apply (recording_call_wp (λ after, graph_dispatch env 0 after (lk_entry kx) grid (lk_block kx) constants vs)
      s rest done t s' (PDispatch k constants grid bindings)); [done..| |].
    + intros g after Hg. eapply StreamCalls.wp_mono; [eapply graph_dispatch_wp; [apply Hs'|apply Hs'|by apply (views_owned s' bindings)|exact Hg]|].
      cbn beta. intros node w (y & R1 & R2). exists y. split; [done|].
      eapply dispatch_command_used; [by apply (extends_kernel s')|by apply (extends_views s')|done].
    + intros after w e E. pose proof (graph_dispatch_locals env 0 after (lk_entry kx) grid (lk_block kx) constants vs (world s')) as El.
      rewrite E in El. split; [exact El|by eapply graph_dispatch_fails].
Qed.
Lemma record_all_wp envs s rest done t s' i l :
  ok s → during s rest done t s' → Forall prepared_ok l →
  St.wp (record_all envs i l t) (λ t', during s rest (done ++ l) t') (λ s', ok (dropped_recording s')) s'.
Proof.
  intros Hs. revert done t s' i. induction l as [|c l IH]; intros done t s' i Hd Hl; cbn [record_all]; [by rewrite app_nil_r|].
  inversion_clear Hl as [|? ? Hc Hr]. apply St.bind_wp. eapply St.mono_wp; [by eapply record_one_wp| |done].
  cbn beta. intros t1 s1 H1. rewrite (cons_middle c), app_assoc. by apply IH.
Qed.

Definition command_ok (c : ModelCommand) : Prop :=
  match c with
  | MFill r _ => region_ok r
  | MDispatch d => Forall (λ b, region_ok (b_region b)) (d_bindings d)
  end.
Lemma prepare_ok indices s l ps : Forall command_ok l → prepare indices s l = Ok ps → Forall prepared_ok ps.
Proof.
  revert ps. induction l as [|c l IH]; intros ps Hl; cbn [prepare]; [by intros [= <-]|]. inversion_clear Hl as [|? ? Hc Hr].
  destruct (prepare_one indices s c) as [p|] eqn:E; [|done]. cbn [result_bind]. destruct (prepare indices s l) as [ps'|]; [|done].
  cbn [result_bind]. intros [= <-]. constructor; [|by apply IH]. destruct c as [r v|d]; cbn [prepare_one] in E.
  - destruct (validate_region s r); [|done]. cbn [result_bind] in E. destruct (_ =? _); [done|]. by injection E as <-.
  - destruct (kernel s _); [|done]. cbn [result_bind] in E. destruct (validate_bindings s _); [|done]. cbn [result_bind] in E.
    match type of E with result_bind ?x _ = _ => destruct x end; [|done]. by injection E as <-.
Qed.

Lemma finish_wp sizes s rest l t s' :
  ok s → during s rest l t s' →
  St.wp (on_stream (finish_graph sizes 0))
    (λ _ s1, s1 = set_world (world s1) s ∧ sound (world s1) ∧ locals (pools (world s1)) = [] ∧
       handles (client (world s1)) = handles (client (world s)) ∧
       ∃ rs, recorded (world s1) = rs :: recorded (world s) ∧ means s l rs) ok s'.
Proof.
  intros Hs Hd. pose proof (during_ok _ _ _ _ _ Hs Hd) as Hs'. destruct Hd as [E H1 H2 H3 H4 ([g u] & cs & ds & H5 & H6)].
  pose proof (finish_graph_inv nowatch sizes 0 (world s') H1) as Hi. pose proof (finish_locals sizes 0 (world s')) as Hl.
  unfold St.wp, on_stream. destruct (finish_graph sizes 0 (world s')) as [w r] eqn:Ef. cbn in Hi, Hl.
  unfold finish_graph in Ef. rewrite H5 in Ef. cbn in Ef. destruct sizes as [sizes|e]; injection Ef as Ew <-.
  - split; [by rewrite E|]. split; [done|]. split; [by rewrite <-H2|]. split; [by rewrite <-Ew|]. eexists. split.
    + rewrite <-Ew. unfold recorded. cbn. by rewrite H4.
    + by apply (finished_means s l cs ds t g u).
  - apply ok_world; [done|done|by rewrite Hl|by rewrite <-Ew|by rewrite <-Ew].
Qed.

Lemma record_keeps indices id envs sizes key l s :
  good s → Forall command_ok l →
  St.wp (record indices id envs sizes key l) (λ _ s', ok s') good s.
Proof.
  intros Hs Hl. apply St.bind_wp, usable_wp; [done|]. intros Hf Hk. destruct (_ =? _)%nat; [done|].
  apply St.bind_wp. unfold St.gets, St.wp at 1. destruct (has_key key s); [done|]. apply St.bind_wp, check_wp; [done|].
  intros ps Hp. pose proof (prepare_ok _ _ _ _ Hl Hp) as Hps. apply St.bind_wp. unfold on_world, St.modify, St.wp at 1.
  set (s1 := set_world (begin_graph id (world s)) s). apply St.bind_wp, St.guarded_wp.
  assert (during s (recordings (client (world s))) [] (mkTracked ∅ []) s1) as Hd.
  { constructor; try done; [apply begin_graph_inv, Hk|apply Hk|]. eexists _, [], []. split; [done|]. apply history_new. }
  eapply St.mono_wp; [by eapply (record_all_wp envs)| |by right]. cbn beta. cbn [app]. intros t s2 Hd2. apply St.bind_wp.
  eapply St.mono_wp; [by eapply finish_wp| |by right]. cbn beta. intros _ s3 (E & H1 & H2 & H3 & rs & H4 & H5).
  unfold St.modify, St.wp. rewrite E. destruct Hk as [S1 S2 S3 S4 S5 S6]. constructor; try done.
  - intros b Hb. cbn. rewrite H3. by apply S3.
  - by constructor.
  - cbn. rewrite H4. constructor; [eapply extends_means; [|exact H5]; by apply extends_refl|]. eapply Forall2_impl; [exact S6|].
    cbn. intros p q. apply extends_means. by apply extends_refl.
Qed.
End ModelSessionRecording.
