(* ===== verification/ModelSessionTheorems.v ===== *)
(** * Model sessions: theorems

    A session keeps its invariant through every call, failed ones included, and
    what follows: its calls have their sequential meaning on the bytes of its
    regions, a recorded graph means its commands whatever of them the device
    overlaps, and a failed session refuses every call. *)

From S2P Require Import Prelude Access Target Stream StreamMemory StreamOverlap StreamInvariant StreamCalls StreamOperations StreamTheorems BenchmarkStatistics ModelSession ModelSessionRecording.
Import Stream StreamMemory StreamOverlap StreamInvariant StreamCalls StreamOperations StreamTheorems ModelSession ModelSessionRecording.
Local Open Scope Z_scope.

Module ModelSessionTheorems.
Local Arguments scratch_buffers : simpl never.
Local Arguments cached_natives : simpl never.

(** ** Allocation *)

Lemma wp_and {A} (m : M A) Q (P : World → Prop) w :
  StreamCalls.wp nowatch m Q w → P (m w).1 → StreamCalls.wp nowatch m (λ a w', Q a w' ∧ P w') w.
Proof. unfold StreamCalls.wp. by destruct (m w) as [w' [a|e]]. Qed.
Lemma given_wp p env n w :
  sound w → StreamCalls.wp nowatch (match p with OnDevice => allocate env n | OnHost => shared env n end) (given nowatch w n None) w.
Proof. intros Hi. destruct p; [by apply allocate_wp|by apply shared_wp]. Qed.
Lemma owned_visible s b : ok s → b ∈ owned_buffers s → native b ∈ visible (client (world s)).
Proof. intros Hs Hb. apply elem_of_app. left. apply list_elem_of_fmap_2. by apply (so_owned _ Hs). Qed.

(** A session that owns one more buffer and some of the old ones. *)
Lemma ok_add s s' n b l :
  ok s → given nowatch (world s) n None b (world s') → owned_buffers s' ≡ₚ b :: l → l `sublist_of` owned_buffers s →
  extends s s' → recorded_graphs s' = recorded_graphs s → ok s'.
Proof.
  intros Hs (H1 & H2 & H3 & H4 & H5 & H6 & H7 & H8) Hp Hl Hx Hr.
  assert (∀ x, x ∈ l → x ∈ owned_buffers s) as Hin by (intros x Hx'; by eapply elem_of_sublist).
  apply (ok_frame s); try done.
  - intros x. rewrite Hp, H3. cbn. intros [->|Hx']%elem_of_cons; [by left|]. right. by apply (so_owned _ Hs), Hin.
  - rewrite Hp. cbn. constructor.
    + intros (x & E & Hx')%list_elem_of_fmap. apply H7. rewrite E. by apply (owned_visible s), Hin.
    + eapply sublist_NoDup; [exact (so_apart _ Hs)|]. by apply fmap_sublist.
  - unfold recorded. by rewrite H3.
Qed.

Record new_region (s : Session) (n : Z) (p : Placement) (r : Region) (s' : Session) : Prop := {
  nr_ok : ok s';
  nr_region : r = mkRegion (s_id s) (length (allocations s)) 0 n;
  nr_allocation : ∃ b, allocations s' = allocations s ++ [mkAllocation b p false] ∧ bytes b = Z.max n 1 ∧
                       native b ∉ visible (client (world s));
  nr_kernels : kernels s' = kernels s;
  nr_id : s_id s' = s_id s;
  nr_recorded : recorded_graphs s' = recorded_graphs s;
  nr_seen : seen (world s) (settled (world s')) (settled (world s)) }.
Lemma lookup_extends s s' l : s_id s' = s_id s → allocations s' = allocations s ++ l → kernels s' = kernels s → extends s s'.
Proof.
  intros E1 E2 E3. constructor; [done| |intros i k; by rewrite E3]. intros i a Ha. exists a. split; [|done].
  rewrite E2. by apply lookup_app_l_Some.
Qed.
Lemma allocate_with_wp env n p s : good s → St.wp (allocate_with env n p) (λ r s', new_region s n p r s') good s.
Proof.
  intros Hg. apply St.bind_wp, usable_wp; [done|]. intros Hf Hs. apply St.bind_wp, stream_wp.
  - eapply StreamCalls.wp_mono; [apply given_wp, Hs|]. intros b w Hb. unfold St.wp, St.bind, St.gets, St.modify, St.ret.
    set (s' := set_allocations _ _). pose proof Hb as (_ & _ & _ & _ & H5 & _ & H7 & H8).
    constructor; try done; [|by exists b].
    apply (ok_add s s' n b (owned_buffers s)); [done..| |done| |done].
    + unfold owned_buffers. cbn. rewrite fmap_app. cbn. rewrite <-(assoc_L (++)). cbn. symmetry. apply Permutation_middle.
    + by eapply lookup_extends.
  - intros w e E Hi. right. destruct (given_fails p env n _ _ _ E) as [E1 E2]. by apply error_ok.
Qed.

(** ** Steady calls *)

(** What a call keeps that neither allocates nor records. *)
Record steady (s s' : Session) : Prop := {
  st_ok : ok s';
  st_id : s_id s' = s_id s;
  st_allocations : allocations s' = allocations s;
  st_kernels : kernels s' = kernels s;
  st_recorded : recorded_graphs s' = recorded_graphs s;
  st_failed : failed s' = failed s;
  st_effect : effect (config (world s')) = effect (config (world s)) }.
Global Instance steady_trans : Transitive steady.
Proof. intros x y z [] []. constructor; congruence. Qed.
Lemma steady_extends s s' : steady s s' → extends s s'.
Proof. intros [_ E1 E2 E3 _ _ _]. by apply extends_refl. Qed.
Lemma steady_world s w : ok (set_world w s) → config w = config (world s) → steady s (set_world w s).
Proof. intros H1 H2. constructor; try done. cbn. by rewrite H2. Qed.

Definition natives_of (s : Session) : list nat := native <$> (a_buffer <$> allocations s).
(** Memories that agree on the session's regions. *)
Definition regions_agree (s : Session) : Memory → Memory → Prop := agree (λ n, n ∈ natives_of s).
Lemma natives_visible s n : ok s → n ∈ natives_of s → n ∈ visible (client (world s)).
Proof.
  intros Hs (b & -> & Hb)%list_elem_of_fmap. apply owned_visible; [done|]. apply elem_of_app. by left.
Qed.
Lemma seen_regions s m m' : ok s → seen (world s) m m' → regions_agree s m m'.
Proof. intros Hs Hm n a Hn. by apply Hm, natives_visible. Qed.
Definition region_native (s : Session) (r : Region) : nat :=
  from_option (λ a, native (a_buffer a)) 0%nat (allocations s !! r_allocation r).

Lemma upload_session_wp envs r l s :
  good s → region_ok r →
  St.wp (upload envs r l)
    (λ _ s', ok s ∧ steady s s' ∧ regions_agree s (settled (world s')) (write_bytes (settled (world s)) (region_native s r) (r_offset r) l))
    good s.
Proof.
  intros Hg Hr. apply St.bind_wp, usable_wp; [done|]. intros Hf Hs. destruct (_ <? _); [done|].
  apply St.bind_wp, check_wp; [done|]. intros v Hv. apply St.bind_wp, St.lift_wp; [done|]. intros v' (-> & _)%stream_slice_Ok.
  apply view_Ok in Hv as (a & Ha & ->). cbn [v_owner v_offset]. rewrite Z.add_0_r. apply failing_wp, stream_wp; [|done].
  eapply StreamCalls.wp_mono; [eapply (wp_and _ _ (λ w, locals (pools w) = [])); [apply upload_wp; [apply Hs|by eapply allocation_owned]|apply call_idle]|].
  cbn beta. intros _ w ([U1 U2 U3 U4] & Hl). split_and!; [done| |].
  - apply steady_world; [|done]. by apply error_ok.
  - apply seen_regions; [done|]. cbn in U4. unfold region_native. by rewrite Ha.
Qed.
Lemma synchronize_session_wp env s :
  good s → St.wp (synchronize env) (λ _ s', ok s ∧ steady s s' ∧ settled (world s') = settled (world s) ∧
                                           inflight (dev (world s')) = []) good s.
Proof.
  intros Hg. apply St.bind_wp, usable_wp; [done|]. intros Hf Hs. apply failing_wp, stream_wp; [|done].
  eapply StreamCalls.wp_mono; [apply synchronize_wp, Hs|]. intros _ w [S1 S2 S3 S4 S5 S6 S7]. split_and!; try done.
  apply steady_world; [|done]. apply error_ok; try done. by rewrite S5, (so_idle _ Hs).
Qed.

(** ** Replays and direct execution *)

(** Both have the meaning of the recorded commands. *)
Definition executed (s : Session) (ws : list Work) (s' : Session) : Prop :=
  steady s s' ∧ meq (settled (world s')) (foldl (apply (effect (config (world s)))) (settled (world s)) ws).
Definition commands_of (s : Session) (key : Z) : option (list Prepared) :=
  (λ x : nat * (Z * list Prepared), x.2.2) <$> list_find (λ x, x.1 = key) (recorded_graphs s).

Lemma find_recorded s key i x :
  ok s → list_find (λ x, x.1 = key) (recorded_graphs s) = Some (i, x) →
  commands_of s key = Some x.2 ∧ Forall prepared_ok x.2 ∧
  ∃ g, graphs (client (world s)) !! i = Some g ∧ means s x.2 (g_replays g).
Proof.
  intros Hs Hf. unfold commands_of. rewrite Hf. split; [done|]. apply list_find_Some in Hf as (Hl & _).
  split; [exact (Forall_lookup_1 _ _ _ _ (so_wf _ Hs) Hl)|].
  destruct (Forall2_lookup_l _ _ _ _ _ (so_graphs _ Hs) Hl) as (rs & Hc & Hm).
  unfold recorded in Hc. rewrite list_lookup_fmap in Hc. apply fmap_Some in Hc as (g & Hg & ->). eauto.
Qed.

(** What the device may make of the batches of a replay. *)
Definition device_ok (f : Effect) (device : Overlaps) : Prop := ∀ l, admissible f (device l) l.
(** The commands recorded under a key keep their contracts. *)
Definition contracts (f : Effect) (s : Session) (key : Z) : Prop :=
  ∀ l, commands_of s key = Some l → Forall (contract_kept f s) l.

Lemma replay_wp envs device key s :
  good s → device_ok (effect (config (world s))) device →
  St.wp (replay envs device key)
    (λ _ s', ok s ∧ steady s s' ∧ ∃ l ws, commands_of s key = Some l ∧ works s l = Ok ws ∧
       (contracts (effect (config (world s))) s key → executed s ws s')) good s.
Proof.
  intros Hg Ho. apply St.bind_wp, usable_wp; [done|]. intros Hf Hs. apply St.bind_wp. unfold St.gets, St.wp at 1.
  destruct (list_find _ (recorded_graphs s)) as [[i x]|] eqn:E; [|done]. cbn [fmap option_fmap option_map fst].
  destruct (find_recorded _ _ _ _ Hs E) as (Hc & _ & g & Hg' & [(ws & Hw & Hr) Hraces]). apply failing_wp, stream_wp; [|done].
  unfold launch_graph, StreamCalls.wp. rewrite Hg'. cbn [from_option].
  pose proof (launch_wp nowatch envs (device (g_replays g)) i g (world s) (so_inv _ Hs) Hg' (Ho _)) as Hl. unfold StreamCalls.wp in Hl.
  destruct (launch envs (device (g_replays g)) i (world s)) as [w [[]|e]]; [|done].
  destruct Hl as (H1 & H2 & H3 & H4 & H5). assert (steady s (set_world w s)) as T.
  { apply steady_world; [|done]. injection H4 as N1 N2 N3. apply ok_world; try done. by rewrite H3, (so_idle _ Hs). }
  split; [done|]. split; [done|]. exists x.2, ws. split; [done|]. split; [done|]. intros Hk. split; [done|].
  cbn. rewrite H5. etrans; [apply launched_recorded; [apply Ho|]|apply Hr]. by apply Hraces, Hk.
Qed.

Lemma issue_wp env c s :
  ok s → prepared_ok c →
  St.wp (issue (Stream.fill env) (Stream.dispatch env) c) (λ _ s', ∃ x, work_of s c = Ok x ∧ executed s [x] s') (λ _, True) s.
Proof.
  intros Hs Hc. assert (∀ w, sound w → issued (world s) w → steady s (set_world w s)) as Hst.
  { intros w H1 [I1 I2 I3 I4]. apply steady_world; [|done]. apply error_ok; try done.
    rewrite (issued_locals (world s) w); [apply Hs|by constructor]. }
  destruct c as [r v|k constants grid bindings]; cbn [issue prepared_ok work_of] in Hc |- *.
  - apply St.bind_wp, check_wp; [done|]. intros x Hx. pose proof (view_owned _ _ _ Hs Hc Hx) as (H1 & H2 & H3). apply stream_wp; [|done].
    eapply StreamCalls.wp_mono; [apply fill_wp; [apply Hs|by apply handle_usable|done]|]. cbn beta. intros _ w (I1 & I2 & _ & I3).
    rewrite Hx. eexists. split; [done|]. split; [by apply Hst|done].
  - apply St.bind_wp, check_wp; [done|]. intros kx Hk. apply St.bind_wp, check_wp; [done|]. intros vs Hv. apply stream_wp; [|done].
    eapply StreamCalls.wp_mono; [apply dispatch_wp; [apply Hs|by eapply views_owned]|]. cbn beta. intros _ w (I1 & I2 & I3).
    rewrite Hk. cbn [result_bind]. rewrite Hv. eexists. split; [done|]. split; [by apply Hst|]. cbn. by rewrite I3.
Qed.
Lemma execute_wp envs i l s :
  ok s → Forall prepared_ok l →
  St.wp (issue_all envs Stream.fill Stream.dispatch i l) (λ _ s', ∃ ws, works s l = Ok ws ∧ executed s ws s') (λ _, True) s.
Proof.
  revert i s. induction l as [|c l IH]; intros i s Hs Hl; cbn [issue_all works].
  - unfold St.wp, St.ret. exists []. split; [done|]. split; [by constructor|done].
  - inversion_clear Hl as [|? ? Hc Hr]. apply St.bind_wp. eapply St.mono_wp; [by apply issue_wp| |done]. cbn beta.
    intros _ s1 (x & Hx & T1 & E1). eapply St.mono_wp; [apply IH; [apply T1|done]| |done]. cbn beta.
    intros _ s2 (ws & Hw & T2 & E2). rewrite Hx. cbn [result_bind].
    assert (works s l = Ok ws) as ->.
    { eapply extends_works; [|exact Hw]. destruct T1. by apply extends_refl. }
    exists (x :: ws). split; [done|]. split; [by etrans|]. cbn [foldl]. etrans; [exact E2|]. rewrite (st_effect _ _ T1).
    by apply foldl_apply_proper.
Qed.
Lemma recorded_commands_wp key (Q : list Prepared → Session → Prop) s :
  ok s → (∀ l, commands_of s key = Some l → Forall prepared_ok l → Q l s) → St.wp (recorded_commands key) Q good s.
Proof.
  intros Hs HQ. unfold St.wp, recorded_commands. destruct (list_find _ (recorded_graphs s)) as [[i x]|] eqn:E; [|by right].
  destruct (find_recorded _ _ _ _ Hs E) as (Hc & Hp & _). by apply HQ.
Qed.
Lemma direct_wp envs key s :
  good s →
  St.wp (direct envs key) (λ _ s', ok s ∧ ∃ l ws, commands_of s key = Some l ∧ works s l = Ok ws ∧ executed s ws s') good s.
Proof.
  intros Hg. apply St.bind_wp, usable_wp; [done|]. intros Hf Hs. apply St.bind_wp, recorded_commands_wp; [done|]. intros l Hc Hp.
  apply failing_wp. eapply St.mono_wp; [by apply execute_wp| |done]. cbn beta.
  intros _ s' (ws & Hw & He). split; [done|]. by exists l, ws.
Qed.

(** Timed rounds. *)
Lemma execute_steady envs l s : ok s → Forall prepared_ok l → St.wp (failing (execute_direct envs l)) (λ _, steady s) good s.
Proof. intros Hs Hl. apply failing_wp. eapply St.mono_wp; [by apply execute_wp| |done]. by intros _ s' (ws & _ & T & _). Qed.
Lemma execute_keeps envs l s : ok s → Forall prepared_ok l → St.wp (failing (execute_direct envs l)) (λ _, ok) good s.
Proof. intros Hs Hl. eapply St.mono_wp; [by apply execute_steady| |done]. by intros _ s' []. Qed.
Lemma bench_mode_keeps b key l i mode times s :
  ok s → Forall prepared_ok l → device_ok (effect (config (world s))) (be_device b i mode) →
  St.wp (bench_mode b key l i mode times) (λ _, steady s) good s.
Proof.
  intros Hs Hl Ho. apply St.bind_wp.
  assert (∀ s', steady s s' → St.wp (let^ _ := synchronize (be_sync b i mode) in
    St.ret (if (10 <=? i)%nat then (if (mode =? 0)%nat then (times.1 ++ [be_elapsed b i mode], times.2)
            else (times.1, times.2 ++ [be_elapsed b i mode])) else times)) (λ _, steady s) good s') as Hsync.
  { intros s' H'. apply St.bind_wp. eapply St.mono_wp; [apply synchronize_session_wp; right; apply H'| |done].
    cbn beta. intros _ s2 (_ & T & _). unfold St.wp, St.ret. by etrans. }
  destruct (mode =? 0)%nat.
  - eapply St.mono_wp; [apply replay_wp; [by right|done]| |done]. intros _ s' (_ & T & _). by apply Hsync.
  - eapply St.mono_wp; [by apply execute_steady| |done]. cbn beta. intros _ s' H'. by apply Hsync.
Qed.
Lemma bench_all_keeps b key l its times s :
  ok s → Forall prepared_ok l → (∀ i mode, device_ok (effect (config (world s))) (be_device b i mode)) →
  St.wp (bench_all b key l its times) (λ _, ok) good s.
Proof.
  intros Hs Hl. revert times s Hs. induction its as [|i its IH]; intros times s Hs Ho; cbn [bench_all]; [done|].
  apply St.bind_wp. eapply St.mono_wp; [by apply bench_mode_keeps| |done]. cbn beta. intros t1 s1 T1.
  apply St.bind_wp. eapply St.mono_wp; [apply bench_mode_keeps; [apply T1|done|by rewrite (st_effect _ _ T1)]| |done].
  cbn beta. intros t2 s2 T2. apply IH; [apply T2|]. by rewrite (st_effect _ _ T2), (st_effect _ _ T1).
Qed.
Lemma benchmark_keeps b key n s :
  good s → (∀ i mode, device_ok (effect (config (world s))) (be_device b i mode)) → St.wp (benchmark b key n) (λ _, ok) good s.
Proof.
  intros Hg Ho. unfold benchmark. destruct (n <? 10)%nat; [done|]. apply St.bind_wp, usable_wp; [done|]. intros _ Hs.
  apply St.bind_wp, recorded_commands_wp; [done|]. intros l _ Hl. apply St.bind_wp. eapply St.mono_wp; [by apply bench_all_keeps| |done].
  cbn beta. intros times s1 H1. assert (good s1) by (by right). apply St.bind_wp, St.lift_wp; [done|]. intros g _.
  by apply St.bind_wp, St.lift_wp.
Qed.
Lemma profile_rounds_keeps b index c rounds times s :
  ok s → prepared_ok c → St.wp (profile_rounds b index c rounds times) (λ _, ok) good s.
Proof.
  intros Hs Hc. revert times s Hs. induction rounds as [|i rounds IH]; intros times s Hs; cbn [profile_rounds]; [done|].
  apply St.bind_wp. eapply St.mono_wp; [apply execute_keeps; [done|by apply Forall_singleton]| |done]. cbn beta. intros _ s1 H1.
  apply St.bind_wp. eapply St.mono_wp; [apply synchronize_session_wp; by right| |done]. cbn beta. intros _ s2 (_ & [H2 _ _ _ _ _ _] & _). by apply IH.
Qed.
Lemma profile_keeps b key n s : good s → St.wp (profile_commands b key n) (λ _, ok) good s.
Proof.
  intros Hg. unfold profile_commands. destruct (n =? 0)%nat; [done|]. apply St.bind_wp, usable_wp; [done|]. intros _ Hs.
  apply St.bind_wp, recorded_commands_wp; [done|]. intros l _ Hl. generalize 0%nat. revert s Hs Hg. induction Hl as [|c l Hc Hl IH]; intros s Hs Hg i; [done|].
  cbn [profile_all]. apply St.bind_wp. eapply St.mono_wp; [by apply profile_rounds_keeps| |done]. cbn beta. intros times s1 H1.
  assert (good s1) by (by right). apply St.bind_wp, St.lift_wp; [done|]. intros d _. apply St.bind_wp.
  eapply St.mono_wp; [by apply IH| |done]. done.
Qed.

(** ** Readback *)

Lemma drop_owned_ok s o :
  ok s → o ∉ owned_buffers s →
  ok (set_world (drop_owned o (world s)) s) ∧ config (drop_owned o (world s)) = config (world s) ∧
  settled (drop_owned o (world s)) = settled (world s).
Proof.
  intros Hs Ho. unfold drop_owned. destruct (list_find _ _) as [[i b]|] eqn:E; [|by destruct s].
  apply list_find_Some in E as (Hl & -> & _). pose proof (drop_stream_handle_inv nowatch i (world s) (so_inv _ Hs)) as Hi.
  unfold drop_handle in Hi |- *. rewrite Hl in Hi |- *. destruct (drop_buffer_frame o (without_handle i (world s))) as (E1 & E2 & E3 & E4).
  split_and!; [|done|unfold settled; by rewrite E1, E2].
  apply (ok_frame s); try done; cbn.
  - rewrite E3. apply Hs.
  - intros x Hx. rewrite E4. cbn. pose proof (so_owned _ Hs x Hx) as Hh.
    apply list_elem_of_lookup_1 in Hh as [j Hj]. rewrite list_elem_of_lookup. destruct (decide (j = i)) as [->|Hne]; [simplify_eq; by destruct Ho|].
    destruct (decide (j < i)%nat).
    + exists j. by rewrite list_lookup_delete_lt.
    + exists (pred j). rewrite list_lookup_delete_ge by lia. by replace (S (pred j)) with j by lia.
  - apply Hs.
  - by apply extends_refl.
  - unfold recorded. by rewrite E4.
Qed.

Lemma reserve_readback_wp env n s :
  good s →
  St.wp (reserve_readback env n)
    (λ _ s', ok s ∧ steady s s' ∧ regions_agree s (settled (world s')) (settled (world s)) ∧
             ∃ b, readback s' = Some b ∧ n <= bytes b) good s.
Proof.
  intros Hg. apply St.bind_wp, usable_wp; [done|]. intros Hf Hs. apply St.bind_wp. unfold St.gets, St.wp at 1.
  match goal with |- context [if ?x then _ else _] => destruct x eqn:Eb end.
  - apply St.bind_wp, stream_wp.
    + eapply StreamCalls.wp_mono; [apply (given_wp OnHost), Hs|]. intros b w Hb. apply St.bind_wp. unfold St.modify, St.wp at 1.
      set (s1 := set_readback (Some b) (set_world w s)).
      assert (ok s1) as H1.
      { apply (ok_add s s1 n b (a_buffer <$> allocations s)); try done; [|by apply sublist_inserts_r|by apply extends_refl].
        unfold owned_buffers. cbn. symmetry. apply Permutation_cons_append. }
      destruct Hb as (K1 & K2 & K3 & K4 & K5 & K6 & K7 & K8).
      assert (regions_agree s (settled w) (settled (world s))) as Hag by (by apply seen_regions).
      destruct (readback s) as [o|] eqn:Eo.
      * assert (o ∈ owned_buffers s) as Hin by (unfold owned_buffers; rewrite Eo; cbn; mem).
        destruct (drop_owned_ok s1 o H1) as (D1 & D2 & D3).
        { unfold owned_buffers. cbn. intros [Hx|Hx%list_elem_of_singleton]%elem_of_app.
          - pose proof (so_apart _ Hs) as Hd. unfold owned_buffers in Hd. rewrite Eo, fmap_app in Hd. apply NoDup_app in Hd as (_ & Hd & _).
            apply (Hd (native o)); [by apply list_elem_of_fmap_2|by left].
          - subst b. by apply K7, owned_visible. }
        unfold on_world, St.modify, St.wp. split_and!; [done| | |exists b; split; [done|lia]].
        -- constructor; try done. change (effect (config (drop_owned o (world s1))) = effect (config (world s))). rewrite D2. cbn. by rewrite K2.
        -- change (regions_agree s (settled (drop_owned o (world s1))) (settled (world s))). by rewrite D3.
      * unfold St.ret, St.wp. split_and!; [done| |done|exists b; split; [done|lia]]. constructor; try done. cbn. by rewrite K2.
    + intros w e E Hi. right. destruct (given_fails OnHost env n _ _ _ E) as [E1 E2]. by apply error_ok.
  - unfold St.ret, St.wp. destruct (readback s) as [b|] eqn:Eo; [|done]. to_prop.
    split_and!; [done|by constructor|done|exists b; split; [done|lia]].
Qed.

(** The bytes of an output: a region and a length. *)
Definition read_region (s : Session) (m : Memory) (x : Region * Z) : list Z :=
  read_bytes m (region_native s x.1) (r_offset x.1) x.2.
Definition output_ok (x : Region * Z) : Prop := region_ok x.1 ∧ 0 <= x.2.
Lemma read_none m b o : read_bytes m b o 0 = [].
Proof. done. Qed.

Lemma check_outputs_Ok s l t sh total shared :
  check_outputs s l t sh = Ok (total, shared) →
  total = t + zsum snd l ∧ Forall (λ x, ∃ a, validate_region s x.1 = Ok a ∧ x.2 <= r_bytes x.1) l.
Proof.
  revert t sh. induction l as [|[r n] l IH]; intros t sh; cbn [check_outputs]; [intros [= -> ->]; split; [cbn; lia|done]|].
  destruct (validate_region s r) as [a|] eqn:E; [|done]. cbn [result_bind]. destruct (Z.ltb_spec (r_bytes r) n) as [|Hn]; [done|].
  destruct (checked_add t n) as [t'|] eqn:Et; [|done]. apply checked_add_Some in Et as [-> _].
  intros (-> & Hl)%IH. rewrite zsum_cons. cbn [snd]. split; [lia|]. constructor; [by exists a|done].
Qed.

Lemma mapped_wp r text (Q : unit → Session → Prop) s : good s → Q tt s → St.wp (mapped r text) Q good s.
Proof.
  intros Hg HQ. apply St.bind_wp, St.lift_wp; [done|]. intros [] _; [done|]. unfold St.wp, St.bind, St.modify, St.fail. by left.
Qed.
Lemma read_shared_wp env i l s :
  good s → Forall (λ x : Region * Z, ∃ a, validate_region s x.1 = Ok a ∧ x.2 <= r_bytes x.1) l →
  St.wp (read_shared env i l) (λ outs s', s' = s ∧ outs = read_region s (memory (dev (world s))) <$> l) good s.
Proof.
  intros Hg. revert i. induction l as [|[r n] l IH]; intros i Hl; cbn [read_shared]; [done|].
  inversion_clear Hl as [|? ? (a & Ha & Hn) Hr]. apply St.bind_wp.
  assert (∀ out, out = read_region s (memory (dev (world s))) (r, n) →
    St.wp (let^ outs := read_shared env (S i) l in St.ret (out :: outs))
      (λ outs s', s' = s ∧ outs = read_region s (memory (dev (world s))) <$> ((r, n) :: l)) good s) as Hend.
  { intros out ->. apply St.bind_wp. eapply St.mono_wp; [by apply IH| |done]. cbn beta. by intros outs s' [-> ->]. }
  destruct (Z.eqb_spec n 0) as [->|Hn0]; [by apply Hend|].
  apply St.bind_wp, check_wp; [done|]. intros a' Ha'. apply St.bind_wp, mapped_wp; [done|]. unfold peek, St.gets, St.wp at 1. apply Hend.
  unfold read_region, region_native. cbn [fst snd]. by apply validate_region_Ok in Ha' as [-> _].
Qed.

(** The pieces of a buffer, one after the other. *)
Fixpoint pieces_at (m : Memory) (b : nat) (offset : Z) (l : list (Region * Z)) : list (list Z) :=
  match l with
  | [] => []
  | (_, n) :: rest => read_bytes m b offset n :: pieces_at m b (offset + n) rest
  end.
Lemma split_out_wp b offset l s :
  St.wp (split_out b offset l) (λ outs s', s' = s ∧ outs = pieces_at (memory (dev (world s))) (native b) offset l) good s.
Proof.
  revert offset. induction l as [|[r n] l IH]; intros offset; cbn [split_out pieces_at]; [done|]. apply St.bind_wp.
  assert (St.wp (if n =? 0 then St.ret [] else peek b offset n)
    (λ out s', s' = s ∧ out = read_bytes (memory (dev (world s))) (native b) offset n) good s) as Hp.
  { destruct (Z.eqb_spec n 0) as [->|]; done. }
  eapply St.mono_wp; [exact Hp| |done]. cbn beta. intros out s' [-> ->]. apply St.bind_wp. eapply St.mono_wp; [apply IH| |done]. cbn beta.
  by intros outs s' [-> ->].
Qed.

Lemma read_region_agree s s' m m' x :
  regions_agree s m m' → allocations s' = allocations s → is_Some (allocations s !! r_allocation x.1) →
  read_region s' m x = read_region s m' x.
Proof.
  intros Hm E [a Ha]. unfold read_region, region_native. rewrite E, Ha. cbn. apply read_bytes_ext. intros k. apply Hm.
  do 2 apply list_elem_of_fmap_2. by eapply list_elem_of_lookup_2.
Qed.
Lemma readback_apart s b n : ok s → readback s = Some b → n ∈ natives_of s → n ≠ native b.
Proof.
  intros Hs Hb Hn ->. pose proof (so_apart _ Hs) as Hd. unfold owned_buffers in Hd. rewrite Hb, fmap_app in Hd.
  apply NoDup_app in Hd as (_ & Hd & _). apply (Hd (native b)); [done|by left].
Qed.

Record copied_out (s : Session) (b : Buffer) (offset : Z) (l : list (Region * Z)) (s' : Session) : Prop := {
  co_steady : steady s s';
  co_readback : readback s' = Some b;
  co_regions : regions_agree s (settled (world s')) (settled (world s));
  co_below : ∀ a, a < offset → settled (world s') (native b) a = settled (world s) (native b) a;
  co_pieces : pieces_at (settled (world s')) (native b) offset l = read_region s (settled (world s)) <$> l }.
Lemma copy_one_wp env b offset r n s :
  ok s → readback s = Some b → region_ok r → 0 < n → 0 <= offset →
  St.wp (let^ a := (λ s, (s, validate_region s r)) in
         let^ source := St.lift (try_slice (a_buffer a) (r_offset r) n) in
         let^ target := St.lift (try_slice b offset n) in
         failing (on_stream (Stream.copy env target source)))
    (λ _ s', copied_out s b offset [(r, n)] s') good s.
Proof.
  intros Hs Hb [R1 R2] Hn Ho. assert (good s) as Hg by (by right). apply St.bind_wp, check_wp; [done|]. intros a Ha.
  apply St.bind_wp, St.lift_wp; [done|]. intros source (-> & _)%stream_slice_Ok. apply St.bind_wp, St.lift_wp; [done|].
  intros target (-> & _)%stream_slice_Ok. cbn [v_owner v_offset binding]. apply failing_wp, stream_wp; [|done].
  apply validate_region_Ok in Ha as [Ha _]. assert (b ∈ handles (client (world s))) as Hbh.
  { apply (so_owned _ Hs). unfold owned_buffers. rewrite Hb. cbn. mem. }
  eapply StreamCalls.wp_mono; [apply copy_wp; [apply Hs|by apply handle_usable|apply handle_usable; by eapply allocation_owned|cbn; lia]|].
  cbn beta. cbn [v_owner v_offset v_length]. rewrite !Z.add_0_l. intros _ w (I1 & I2 & _ & _ & I3).
  assert (native (a_buffer a) ∈ natives_of s) as Hin by (do 2 apply list_elem_of_fmap_2; by eapply list_elem_of_lookup_2).
  pose proof (readback_apart s b _ Hs Hb Hin) as Hne. constructor; cbn [world set_world].
  - apply steady_world; [|apply I2]. apply error_ok; [done|done| |apply I2]. rewrite (issued_locals _ _ I2). apply Hs.
  - done.
  - intros x k Hx. rewrite (I3 x k). apply copy_other. by apply (readback_apart s b).
  - intros k Hk. rewrite (I3 (native b) k). cbn [apply]. rewrite Nat.eqb_refl. unfold in_range.
    by replace (offset <=? k) with false by lia.
  - cbn. unfold read_region, region_native. cbn [fst snd]. rewrite Ha. cbn. f_equal.
    rewrite (read_bytes_ext _ _ _ _ _ (I3 (native b))). apply read_copied; [done|lia].
Qed.
Lemma copy_out_wp env b i offset l s :
  ok s → readback s = Some b → 0 <= offset → Forall output_ok l →
  Forall (λ x : Region * Z, is_Some (allocations s !! r_allocation x.1)) l →
  St.wp (copy_out env b i offset l) (λ _ s', copied_out s b offset l s') good s.
Proof.
  revert i offset s. induction l as [|[r n] l IH]; intros i offset s Hs Hb Ho Hl Ha; cbn [copy_out].
  - unfold St.wp, St.ret. by constructor; [by constructor|..].
  - inversion_clear Hl as [|? ? [Hr Hn] Hrest]. inversion_clear Ha as [|? ? Ha1 Harest]. cbn [fst snd] in *. apply St.bind_wp.
    assert (St.wp (if n =? 0 then St.ret tt else
         let^ a := (λ s, (s, validate_region s r)) in
         let^ source := St.lift (try_slice (a_buffer a) (r_offset r) n) in
         let^ target := St.lift (try_slice b offset n) in
         failing (on_stream (Stream.copy (re_copies env i) target source))) (λ _ s', copied_out s b offset [(r, n)] s') good s) as Hone.
    { destruct (Z.eqb_spec n 0) as [->|]; [|apply copy_one_wp; try done; lia]. unfold St.wp, St.ret. by constructor; [by constructor|..]. }
    eapply St.mono_wp; [exact Hone| |done]. cbn beta. intros _ s1 [T1 B1 A1 L1 P1].
    eapply St.mono_wp; [apply IH; [apply T1|done|lia|done|by rewrite (st_allocations _ _ T1)]| |done]. cbn beta.
    intros _ s2 [T2 B2 A2 L2 P2]. unfold regions_agree, natives_of in A2. rewrite (st_allocations _ _ T1) in A2. fold (natives_of s) in A2. constructor.
    + by etrans.
    + done.
    + intros y k Hy. rewrite (A2 y k Hy). by apply A1.
    + intros k Hk. rewrite L2 by lia. by apply L1.
    + cbn [pieces_at fmap list_fmap] in P1 |- *. injection P1 as P1. f_equal.
      * rewrite <-P1. unfold read_bytes. apply list_fmap_ext. intros j k Hk. apply lookup_seq in Hk as [-> Hk]. cbn. apply L2. lia.
      * rewrite P2. apply list_fmap_ext. intros j y Hy. apply read_region_agree; [done|apply T1|].
        exact (Forall_lookup_1 _ _ _ _ Harest Hy).
Qed.

Lemma total_zero (l : list (Region * Z)) s m : Forall output_ok l → zsum snd l = 0 → read_region s m <$> l = (λ _, []) <$> l.
Proof.
  intros Hl E. assert (∀ l' : list (Region * Z), Forall output_ok l' → 0 <= zsum snd l') as Hpos.
  { induction 1 as [|x l' [_ Hx] _ IH]; [done|]. rewrite zsum_cons. lia. }
  induction Hl as [|[r n] l [_ Hn] Hl IH]; [done|]. rewrite zsum_cons in E. cbn [snd] in *. specialize (Hpos l Hl). assert (n = 0) as -> by lia.
  cbn. f_equal. apply IH. lia.
Qed.
Lemma read_many_wp env l s :
  good s → Forall output_ok l →
  St.wp (read_many env l)
    (λ outs s', ok s ∧ steady s s' ∧ regions_agree s (settled (world s')) (settled (world s)) ∧
                outs = read_region s (settled (world s)) <$> l) good s.
Proof.
  intros Hg Hl. apply St.bind_wp, usable_wp; [done|]. intros Hf Hs. apply St.bind_wp, check_wp; [done|].
  intros [total shared] (-> & Hok)%check_outputs_Ok. rewrite Z.add_0_l.
  assert (Forall (λ x : Region * Z, is_Some (allocations s !! r_allocation x.1)) l) as Hsome.
  { eapply Forall_impl; [exact Hok|]. cbn. intros x (a & (Ha & _)%validate_region_Ok & _). by exists a. }
  destruct shared.
  - apply St.bind_wp. eapply St.mono_wp; [by apply synchronize_session_wp| |done]. cbn beta. intros _ s1 (_ & T1 & E1 & D1).
    assert (good s1) as Hg1 by (right; apply T1). eapply St.mono_wp; [apply read_shared_wp; [done|]| |done].
    + eapply Forall_impl; [exact Hok|]. cbn. intros x (a & Ha & Hn).
      destruct (extends_validate s s1 x.1 a (steady_extends _ _ T1) Ha) as (a' & Ha' & _). by exists a'.
    + cbn beta. intros outs s2 [-> ->]. split_and!; [done..|by rewrite E1|]. rewrite (idle_memory _ D1), E1. apply list_fmap_ext.
      intros i x Hx. apply read_region_agree; [done|apply T1|]. exact (Forall_lookup_1 _ _ _ _ Hsome Hx).
  - apply St.bind_wp. eapply St.mono_wp; [by apply reserve_readback_wp| |done]. cbn beta. intros _ s1 (_ & T1 & A1 & b & Hb & _).
    assert (good s1) as Hg1 by (right; apply T1). apply St.bind_wp, check_wp; [done|]. rewrite Hb. intros b' [= <-].
    apply St.bind_wp. eapply St.mono_wp; [apply copy_out_wp; [apply T1|done|lia|done|by rewrite (st_allocations _ _ T1)]| |done].
    cbn beta. intros _ s2 [T2 B2 A2 _ P2]. unfold regions_agree, natives_of in A2. rewrite (st_allocations _ _ T1) in A2. fold (natives_of s) in A2.
    apply St.bind_wp. eapply St.mono_wp; [apply synchronize_session_wp; right; apply T2| |done]. cbn beta. intros _ s3 (_ & T3 & E3 & D3).
    assert (steady s s3) as T by (etrans; [exact T1|by etrans]).
    assert (regions_agree s (settled (world s3)) (settled (world s))) as A.
    { intros x k Hx. rewrite E3, (A2 x k Hx). by apply A1. }
    destruct (Z.eqb_spec (zsum snd l) 0) as [E0|E0].
    + unfold St.wp, St.ret. split_and!; [done..|]. by rewrite total_zero.
    + apply St.bind_wp, mapped_wp; [right; apply T3|]. eapply St.mono_wp; [apply split_out_wp| |done]. cbn beta. intros outs s4 [-> ->].
      split_and!; [done..|]. rewrite (idle_memory _ D3), E3, P2. apply list_fmap_ext. intros i x Hx.
      apply read_region_agree; [done|apply T1|]. exact (Forall_lookup_1 _ _ _ _ Hsome Hx).
Qed.

(** ** Every call *)

Lemma compile_keeps loaded env s : good s → St.wp (compile loaded env) (λ _, ok) good s.
Proof.
  intros Hg. apply St.bind_wp, usable_wp; [done|]. intros Hf Hs. apply St.bind_wp, St.lift_wp; [done|]. intros l _.
  apply St.bind_wp. eapply St.mono_wp; [by apply synchronize_session_wp| |done]. cbn beta. intros _ s1 (_ & T1 & _).
  unfold St.bind, St.wp, St.gets, St.modify, St.ret. pose proof (st_ok _ _ T1) as H1. apply (ok_frame s1); try done; try apply H1.
  constructor; [done|eauto|]. intros i k Hk. cbn. by apply lookup_app_l_Some.
Qed.
Lemma weight_keeps env envs l s : good s → St.wp (weight env envs l) (λ _, ok) good s.
Proof.
  intros Hg. apply St.bind_wp. eapply St.mono_wp; [by apply allocate_with_wp| |done]. cbn beta. intros r s1 [N1 N2 _ _ _ _ _].
  apply St.bind_wp. eapply St.mono_wp; [apply upload_session_wp; [by right|]| |done].
  - rewrite N2. split; cbn; lia.
  - cbn beta. intros _ s2 (_ & T2 & _). unfold St.bind, St.wp, St.modify, St.ret. pose proof (st_ok _ _ T2) as H2. set (s3 := set_allocations _ _).
    assert (a_buffer <$> allocations s3 = a_buffer <$> allocations s2) as E.
    { unfold s3. cbn. generalize (allocations s2), (r_allocation r). intros l'. induction l' as [|a l' IH]; intros [|i]; cbn; [done..|]. f_equal. apply IH. }
    assert (owned_buffers s3 = owned_buffers s2) as Eo by (unfold owned_buffers; by rewrite E).
    apply (ok_frame s2); try done; [apply H2..|rewrite Eo; apply H2|rewrite Eo; apply H2|].
    constructor; [done| |done]. intros i a Ha.
    assert ((a_buffer <$> allocations s3) !! i = Some (a_buffer a)) as Hi by (rewrite E, list_lookup_fmap, Ha; done).
    rewrite list_lookup_fmap in Hi. apply fmap_Some in Hi as (a' & Ha' & Hb). by exists a'.
Qed.
Lemma wp_fst {A} (m : S_ A) (Q : A → Session → Prop) s : (∀ a s', Q a s' → ok s') → St.wp m Q good s → good (m s).1.
Proof. intros H. unfold St.wp. destruct (m s) as [s' [a|e]]; [|done]. intros HQ. right. by eapply H. Qed.

Inductive session_step (s : Session) : Session → Prop :=
| ss_allocate env n p : session_step s (allocate_with env n p s).1
| ss_upload envs r l : region_ok r → session_step s (upload envs r l s).1
| ss_weight env envs l : session_step s (weight env envs l s).1
| ss_synchronize env : session_step s (synchronize env s).1
| ss_record indices id envs sizes key l : Forall command_ok l → session_step s (record indices id envs sizes key l s).1
| ss_replay envs device key :
    device_ok (effect (config (world s))) device → session_step s (replay envs device key s).1
| ss_direct envs key : session_step s (direct envs key s).1
| ss_benchmark b key n :
    (∀ i mode, device_ok (effect (config (world s))) (be_device b i mode)) → session_step s (benchmark b key n s).1
| ss_profile b key n : session_step s (profile_commands b key n s).1
| ss_reserve env n : session_step s (reserve_readback env n s).1
| ss_read env l : Forall output_ok l → session_step s (read_many env l s).1
| ss_compile loaded env : session_step s (compile loaded env s).1
| ss_device e w : device_step e (world s) = Some w → session_step s (set_world w s)
| ss_reap i : session_step s (set_world (reap i (world s)) s).
(** The sessions of a program: its calls on a fresh stream, failed calls and
    the moves of the device included. *)
Definition session_reachable (s : Session) : Prop := ∃ id w, initial w ∧ rtc session_step (open_session id w) s.

(** Moves of the device between calls. *)
Lemma quiet_steady s w :
  ok s → (∃ e, device_step e (world s) = Some w) ∨ (∃ i, w = reap i (world s)) →
  steady s (set_world w s) ∧ settled w = settled (world s).
Proof.
  intros Hs H. assert (quiet (world s) w) as Hq by (destruct H as [[e He]|[i ->]]; econstructor; done).
  destruct (quiet_kept [] (world s) w (so_inv _ Hs) Hq) as [[K1 K2 K3] E]. split; [|done]. apply steady_world; [|done].
  injection K3 as N1 N2 N3. apply ok_world; try done. destruct H as [[e He]|[i ->]]; [|apply Hs].
  by rewrite (device_step_locals _ _ _ He), (so_idle _ Hs).
Qed.
Lemma session_step_good s s' : session_step s s' → good s → good s'.
Proof.
  intros H Hg. destruct H.
  - eapply wp_fst; [|by apply allocate_with_wp]. by intros a s' [].
  - eapply wp_fst; [|by apply upload_session_wp]. by intros a s' (_ & [] & _).
  - eapply wp_fst; [|by apply weight_keeps]. done.
  - eapply wp_fst; [|by apply synchronize_session_wp]. by intros a s' (_ & [] & _).
  - eapply wp_fst; [|by apply record_keeps]. done.
  - eapply wp_fst; [|by apply replay_wp]. by intros a s' (_ & [] & _).
  - eapply wp_fst; [|by apply direct_wp]. by intros a s' (_ & l & ws & _ & _ & [] & _).
  - eapply wp_fst; [|by apply benchmark_keeps]. done.
  - eapply wp_fst; [|by apply profile_keeps]. done.
  - eapply wp_fst; [|by apply reserve_readback_wp]. by intros a s' (_ & [] & _).
  - eapply wp_fst; [|by apply read_many_wp]. by intros a s' (_ & [] & _).
  - eapply wp_fst; [|by apply compile_keeps]. done.
  - destruct Hg as [Hf|Hs]; [by left|]. right. apply (quiet_steady s w); [done|left; eauto].
  - destruct Hg as [Hf|Hs]; [by left|]. right. apply (quiet_steady s _ Hs). right. eauto.
Qed.
Lemma reachable_good s : session_reachable s → good s.
Proof.
  intros (id & w & Hw & Hr). destruct (initial_stream_inv w Hw) as [Hi Hl].
  assert (good (open_session id w)) as Hg.
  { right. constructor; try done; [by intros b ?%elem_of_nil|constructor|]. unfold recorded.
    assert (graphs (client w) = []) as E by (by rewrite (initial_client _ Hw)). cbn. by rewrite E. }
  revert Hg. clear Hw Hi Hl. induction Hr as [|s1 s2 s3 Hs _ IH]; [done|]. intros Hg. by apply IH, (session_step_good s1).
Qed.

(** ** Sequential meaning *)

Inductive SOp : Type :=
| SUpload (envs : nat → Env) (r : Region) (l : list Z)
| SReplay (envs : nat → Env) (device : Overlaps) (key : Z)
| SDirect (envs : nat → Env) (key : Z)
| SSynchronize (env : Env)
| SReserve (env : Env) (n : Z)
| SRead (env : ReadEnv) (l : list (Region * Z)).
Definition run_sop (o : SOp) : S_ unit :=
  match o with
  | SUpload envs r l => upload envs r l
  | SReplay envs device key => replay envs device key
  | SDirect envs key => direct envs key
  | SSynchronize env => synchronize env
  | SReserve env n => reserve_readback env n
  | SRead env l => let^ _ := read_many env l in St.ret tt
  end.
Definition sop_ok (s : Session) (o : SOp) : Prop :=
  match o with
  | SUpload _ r _ => region_ok r
  | SReplay _ device _ => device_ok (effect (config (world s))) device
  | SRead _ l => Forall output_ok l
  | _ => True
  end.
(** Every command a session has recorded keeps its contract. *)
Definition contracted (s : Session) : Prop :=
  Forall (λ x, Forall (contract_kept (effect (config (world s))) s) x.2) (recorded_graphs s).
(** A graph key means its recorded commands, one after the other. *)
Definition key_meaning (f : Effect) (s : Session) (m : Memory) (key : Z) : Memory :=
  match commands_of s key with
  | Some l => match works s l with Ok ws => foldl (apply f) m ws | Err _ => m end
  | None => m
  end.
Definition sop_meaning (f : Effect) (s : Session) (m : Memory) (o : SOp) : Memory :=
  match o with
  | SUpload _ r l => write_bytes m (region_native s r) (r_offset r) l
  | SReplay _ _ key | SDirect _ key => key_meaning f s m key
  | _ => m
  end.
(** Calls that return [Ok], with moves of the device between them. *)
Inductive session_runs : Session → list SOp → Session → Prop :=
| sr_nil s : session_runs s [] s
| sr_op s o l s1 s2 : sop_ok s o → run_sop o s = (s1, Ok tt) → session_runs s1 l s2 → session_runs s (o :: l) s2
| sr_device s l e w s2 : device_step e (world s) = Some w → session_runs (set_world w s) l s2 → session_runs s l s2
| sr_reap s l i s2 : session_runs (set_world (reap i (world s)) s) l s2 → session_runs s l s2.

Lemma contracted_key s key : contracted s → contracts (effect (config (world s))) s key.
Proof.
  intros H l. unfold commands_of. destruct (list_find _ _) as [[i x]|] eqn:E; [|done]. intros [= <-].
  apply list_find_Some in E as (Hl & _). exact (Forall_lookup_1 _ _ _ _ H Hl).
Qed.
Lemma run_sop_wp o s :
  good s → contracted s → sop_ok s o →
  St.wp (run_sop o) (λ _ s', ok s ∧ steady s s' ∧
    regions_agree s (settled (world s')) (sop_meaning (effect (config (world s))) s (settled (world s)) o)) good s.
Proof.
  intros Hg Hk Ho. assert (∀ key s' l ws, commands_of s key = Some l → works s l = Ok ws → executed s ws s' →
    steady s s' ∧ regions_agree s (settled (world s')) (key_meaning (effect (config (world s))) s (settled (world s)) key)) as Hkey.
  { intros key s' l ws H1 H2 [T E]. split; [done|]. unfold key_meaning. rewrite H1, H2. intros n a _. apply E. }
  destruct o as [envs r l|envs device key|envs key|env|env n|env l]; cbn [run_sop sop_meaning sop_ok] in Ho |- *.
  - by apply upload_session_wp.
  - eapply St.mono_wp; [by apply replay_wp| |done]. cbn beta. intros _ s' (Hs & _ & l & ws & H1 & H2 & H3). split; [done|].
    eapply Hkey; [done..|]. by apply H3, contracted_key.
  - eapply St.mono_wp; [by apply direct_wp| |done]. cbn beta. intros _ s' (Hs & l & ws & H1 & H2 & H3). split; [done|]. by eapply Hkey.
  - eapply St.mono_wp; [by apply synchronize_session_wp| |done]. cbn beta. intros _ s' (Hs & T & -> & _). done.
  - eapply St.mono_wp; [by apply reserve_readback_wp| |done]. cbn beta. by intros _ s' (Hs & T & A & _).
  - apply St.bind_wp. eapply St.mono_wp; [by apply read_many_wp| |done]. cbn beta. by intros _ s' (Hs & T & A & _).
Qed.

Lemma region_native_in s r a : allocations s !! r_allocation r = Some a → native (a_buffer a) ∈ natives_of s.
Proof. intros H. do 2 apply list_elem_of_fmap_2. by eapply list_elem_of_lookup_2. Qed.
Lemma views_natives s l vs n : views s l = Ok vs → n ∈ (range_of <$> vs).*1.*1 → n ∈ natives_of s.
Proof.
  revert vs. induction l as [|b l IH]; intros vs; cbn [views]; [by intros [= <-] ?%elem_of_nil|].
  destruct (view s (b_region b)) as [v|] eqn:E; [|done]. cbn [result_bind]. destruct (views s l) as [vs'|]; [|done]. cbn [result_bind].
  intros [= <-]. cbn. intros [->|Hn]%elem_of_cons; [|by apply (IH vs')]. apply view_Ok in E as (a & Ha & ->). by eapply region_native_in.
Qed.
Lemma works_natives s l ws n : works s l = Ok ws → n ∈ ws ≫= touches → n ∈ natives_of s.
Proof.
  revert ws. induction l as [|c l IH]; intros ws; cbn [works]; [by intros [= <-] ?%elem_of_nil|].
  destruct (work_of s c) as [x|] eqn:E; [|done]. cbn [result_bind]. destruct (works s l) as [xs|]; [|done]. cbn [result_bind].
  intros [= <-]. cbn [mbind list_bind]. intros [Hn|Hn]%elem_of_app; [|by apply (IH xs)]. destruct c as [r v|k c g b]; cbn [work_of] in E.
  - destruct (view s r) as [vw|] eqn:Ev; [|done]. injection E as <-. apply view_Ok in Ev as (a & Ha & ->). cbn in Hn.
    apply list_elem_of_singleton in Hn as ->. by eapply region_native_in.
  - destruct (kernel s k); [|done]. cbn [result_bind] in E. destruct (views s b) as [vs|] eqn:Ev; [|done]. injection E as <-.
    by eapply views_natives.
Qed.
Lemma sop_meaning_agree f s m m' o : regions_agree s m m' → regions_agree s (sop_meaning f s m o) (sop_meaning f s m' o).
Proof.
  intros Hm. assert (∀ key, regions_agree s (key_meaning f s m key) (key_meaning f s m' key)) as Hk.
  { intros key. unfold key_meaning. destruct (commands_of s key) as [l|]; [|done]. destruct (works s l) as [ws|] eqn:E; [|done].
    apply works_agree; [|done]. intros n. by apply works_natives with (l := l). }
  destruct o; cbn [sop_meaning]; try done. by apply write_bytes_agree.
Qed.
(** The meaning of a call depends only on what a steady session keeps. *)
Lemma steady_meaning f s s' m o : steady s s' → sop_meaning f s' m o = sop_meaning f s m o.
Proof.
  intros T. assert (∀ key, key_meaning f s' m key = key_meaning f s m key) as Hk.
  { intros key. unfold key_meaning, commands_of. rewrite (st_recorded _ _ T). case_match; [|done].
    match goal with |- context [works s ?l] => destruct (works s l) as [ws|] eqn:E; [by rewrite (extends_works _ _ _ _ (steady_extends _ _ T) E)|] end.
    case_match; [|done]. exfalso. match goal with H : works s' _ = Ok _ |- _ => eapply (extends_works s' s) in H; [congruence|] end.
    destruct T. by apply extends_refl. }
  destruct o; cbn [sop_meaning]; try done. unfold region_native. by rewrite (st_allocations _ _ T).
Qed.
Lemma steady_agree s s' m m' : steady s s' → regions_agree s' m m' ↔ regions_agree s m m'.
Proof. intros T. unfold regions_agree, natives_of. by rewrite (st_allocations _ _ T). Qed.

Lemma foldl_steady f s s' m ops : steady s s' → foldl (sop_meaning f s') m ops = foldl (sop_meaning f s) m ops.
Proof.
  intros T. revert m. induction ops as [|o ops IH]; intros m; [done|]. cbn [foldl]. by rewrite (steady_meaning f s s' m o T).
Qed.
Lemma steady_contracted s s' : steady s s' → contracted s → contracted s'.
Proof.
  intros T Hc. unfold contracted. rewrite (st_recorded _ _ T), (st_effect _ _ T). eapply Forall_impl; [exact Hc|]. cbn. intros x Hx.
  eapply Forall_impl; [exact Hx|]. assert (extends s' s) as Hx' by (destruct T; by apply extends_refl).
  intros [r v|k c g b] Hk; [done|]. intros y n a Hy Hn. apply Hk; [by eapply extends_work|]. intros Hw. apply Hn.
  by eapply (extends_writes s' s).
Qed.
Lemma session_runs_meaning s ops s' m :
  session_runs s ops s' → ok s → contracted s → regions_agree s (settled (world s)) m →
  steady s s' ∧ regions_agree s (settled (world s')) (foldl (sop_meaning (effect (config (world s))) s) m ops).
Proof.
  intros H. revert m. induction H as [s|s o l s1 s2 Ho Hr _ IH|s l e w s2 Hd _ IH|s l i s2 _ IH]; intros m Hs Hk Hm; cbn [foldl].
  - split; [by constructor|done].
  - pose proof (St.run_wp _ _ _ _ _ _ (run_sop_wp o s ltac:(by right) Hk Ho) Hr) as (_ & T & A).
    destruct (IH (sop_meaning (effect (config (world s))) s m o) (st_ok _ _ T) (steady_contracted _ _ T Hk)) as [T2 A2].
    { apply (steady_agree s s1 _ _ T). intros n a Hn. rewrite (A n a Hn). by apply sop_meaning_agree. }
    split; [by etrans|]. apply (steady_agree s s1 _ _ T) in A2. rewrite (st_effect _ _ T) in A2.
    by rewrite (foldl_steady _ _ _ _ _ T) in A2.
  - destruct (quiet_steady s w Hs) as [T E]; [left; eauto|]. destruct (IH m (st_ok _ _ T) (steady_contracted _ _ T Hk)) as [T2 A2]; [cbn; by rewrite E|].
    split; [by etrans|]. rewrite (st_effect _ _ T) in A2. by rewrite (foldl_steady _ _ _ _ _ T) in A2.
  - destruct (quiet_steady s (reap i (world s)) Hs) as [T E]; [right; eauto|]. destruct (IH m (st_ok _ _ T) (steady_contracted _ _ T Hk)) as [T2 A2]; [exact Hm|].
    split; [by etrans|]. rewrite (st_effect _ _ T) in A2. by rewrite (foldl_steady _ _ _ _ _ T) in A2.
Qed.

Lemma read_many_allocated env l s s' outs :
  read_many env l s = (s', Ok outs) → Forall (λ x : Region * Z, is_Some (allocations s !! r_allocation x.1)) l.
Proof.
  unfold read_many, St.bind at 1, usable. destruct (failed s); [done|]. unfold St.bind at 1.
  destruct (check_outputs s l 0 true) as [[total shared]|] eqn:E; [|done]. intros _. apply check_outputs_Ok in E as [_ Hok].
  eapply Forall_impl; [exact Hok|]. cbn. intros x (a & (Ha & _)%validate_region_Ok & _). by exists a.
Qed.
Lemma reachable_ok s : session_reachable s → failed s = false → ok s.
Proof. intros [Hf|Hs]%reachable_good; [congruence|done]. Qed.

(** C13. A model session whose dispatches keep the safety contract of [record] behaves
    like a plain memory: whatever its stream queues, caches and stages, whatever
    the device overlaps between the barriers inferred from the declared accesses,
    and whatever calls came before, reading regions after a run of uploads,
    replays, direct executions, waits and other reads returns the bytes those
    calls leave when each is executed at once, a replayed graph as its recorded
    commands in order. *)
Theorem model_sessions_are_sequential s ops s' env l s'' outs :
  session_reachable s → failed s = false → contracted s → session_runs s ops s' → Forall output_ok l →
  read_many env l s' = (s'', Ok outs) →
  outs = read_region s (foldl (sop_meaning (effect (config (world s))) s) (settled (world s)) ops) <$> l.
Proof.
  intros Hr Hf Hk Hruns Hl Hread. pose proof (reachable_ok s Hr Hf) as Hs.
  destruct (session_runs_meaning s ops s' (settled (world s)) Hruns Hs Hk) as [T A]; [done|].
  pose proof (St.run_wp _ _ _ _ _ _ (read_many_wp env l s' ltac:(right; apply T) Hl) Hread) as (_ & _ & _ & ->).
  pose proof (read_many_allocated _ _ _ _ _ Hread) as Ha. apply list_fmap_ext. intros i x Hx.
  apply read_region_agree; [done|apply T|]. rewrite <-(st_allocations _ _ T). exact (Forall_lookup_1 _ _ _ _ Ha Hx).
Qed.

(** C14. Replaying a recorded graph, batched by the stream and overlapped by the
    device between the inferred barriers, leaves the memory direct execution of
    its commands leaves, if the dispatches recorded under the key change only
    bytes they declare to be written. *)
Theorem replay_equals_direct envs device envs' key s s1 s2 :
  session_reachable s → device_ok (effect (config (world s))) device → contracts (effect (config (world s))) s key →
  replay envs device key s = (s1, Ok tt) → direct envs' key s = (s2, Ok tt) →
  meq (settled (world s1)) (settled (world s2)).
Proof.
  intros Hg%reachable_good Ho Hk H1 H2.
  destruct (St.run_wp _ _ _ _ _ _ (replay_wp envs device key s Hg Ho) H1) as (_ & _ & l & ws & E1 & E2 & H3).
  destruct (H3 Hk) as [_ M1].
  destruct (St.run_wp _ _ _ _ _ _ (direct_wp envs' key s Hg) H2) as (_ & l' & ws' & E3 & E4 & _ & M2).
  rewrite E1 in E3. injection E3 as <-. rewrite E2 in E4. injection E4 as <-. etrans; [exact M1|]. by symmetry.
Qed.
(** ** A session *)

(** A device whose one kernel copies its first binding to its second, and which
    runs the commands of every phase last to first. *)
Definition copying : Effect := λ _ ins, match ins with [x; _] => [x; x] | _ => ins end.
Definition reversed : Overlaps := λ l k,
  match l !! k with Some (Batched ps) => ps ≫= λ p, works_all (reverse p) | _ => [] end.
Lemma reversed_ok f : device_ok f reversed.
Proof.
  intros l k ps Hk. unfold reversed. rewrite Hk. exists ((λ p, works_all (reverse p)) <$> ps). split.
  - apply Forall2_fmap_r, Forall_Forall2_diag, Forall_forall. intros p _. left. exists (reverse p). split; [apply reverse_Permutation|done].
  - clear Hk. induction ps as [|p ps IH]; [done|]. cbn. by rewrite IH.
Qed.
Definition ready : nat → Env := λ _, all_ok.
Definition ready_read : ReadEnv := mkReadEnv all_ok all_ok ready (λ _, Ok true).
Definition copying0 : World :=
  mkWorld (mkConfig 0 0 false None true true copying) (dev demo0) (inner demo0) (pools demo0) (client demo0).
Definition sess0 : Session := open_session 1 copying0.
Definition sess1 : Session := (allocate_with all_ok 4 OnDevice sess0).1.
Definition sess_kernel : Session := (compile (Ok [mkLoaded 3 [1; 1; 1]]) all_ok sess1).1.
Definition whole : Region := mkRegion 1 0 0 4.
Definition left_half : Region := mkRegion 1 0 0 2.
Definition right_half : Region := mkRegion 1 0 2 2.
Definition copy_halves : ModelDispatch :=
  mkModelDispatch (mkKernelId 1 0) (Packed []) [1; 1; 1] [mkBinding left_half Read; mkBinding right_half Write].
Definition program : list ModelCommand :=
  [MFill left_half 7; MFill right_half 9; MDispatch copy_halves; MFill (mkRegion 1 0 0 1) 5].
Definition sess2 : Session := (record (λ _ l, Ok l) 8 ready (Ok []) 5 program sess_kernel).1.
(** Both fills may overlap; the dispatch follows them, and the last fill follows
    the dispatch, which reads what it overwrites. *)
Lemma sess2_recorded :
  ∃ c1 c2 c3 c4, recorded (world sess2) = [[Batched [[c1; c2]; [c3]; [c4]]]] ∧
    command_works <$> [c1; c2] = [[Fill 0 0 2 7]; [Fill 0 2 2 9]].
Proof. do 4 eexists. split; vm_compute; reflexivity. Qed.
Definition sess_ops : list SOp := [SUpload ready whole [1; 2; 3; 4]; SReplay ready reversed 5; SUpload ready (mkRegion 1 0 3 1) [6]].
Definition sess3 : Session := (run_sop (SUpload ready whole [1; 2; 3; 4]) sess2).1.
Definition sess4 : Session := (replay ready reversed 5 sess3).1.
Definition sess5 : Session := (run_sop (SUpload ready (mkRegion 1 0 3 1) [6]) sess4).1.
Definition sess6 : Session := (read_many ready_read [(whole, 4); (right_half, 1)] sess5).1.
Definition sess_direct : Session := (direct ready 5 sess3).1.
Lemma St_ok {A} (m : S_ A) s a : (m s).2 = Ok a → m s = ((m s).1, Ok a).
Proof. destruct (m s). cbn. by intros ->. Qed.
Lemma sess2_reachable : session_reachable sess2.
Proof.
  exists 1%nat, copying0. split; [by constructor|].
  apply rtc_l with sess1; [exact (ss_allocate sess0 all_ok 4 OnDevice)|].
  apply rtc_l with sess_kernel; [exact (ss_compile sess1 (Ok [mkLoaded 3 [1; 1; 1]]) all_ok)|]. apply rtc_once.
  refine (ss_record sess_kernel (λ _ l, Ok l) 8 ready (Ok []) 5 program _).
  repeat (constructor; [repeat constructor; cbn; lia|]). constructor.
Qed.
Lemma sess3_reachable : session_reachable sess3.
Proof.
  destruct sess2_reachable as (id & w & Hw & Hr). exists id, w. split; [exact Hw|]. eapply rtc_r; [exact Hr|].
  refine (ss_upload sess2 ready whole [1; 2; 3; 4] _). split; cbn; lia.
Qed.
Lemma sess3_ok : run_sop (SUpload ready whole [1; 2; 3; 4]) sess2 = (sess3, Ok tt).
Proof. unfold sess3. apply St_ok. vm_compute. reflexivity. Qed.
Lemma sess4_replay : replay ready reversed 5 sess3 = (sess4, Ok tt).
Proof. unfold sess4. apply (St_ok (replay ready reversed 5)). vm_compute. reflexivity. Qed.
Lemma sess4_ok : run_sop (SReplay ready reversed 5) sess3 = (sess4, Ok tt).
Proof. cbn [run_sop]. apply sess4_replay. Qed.
Lemma sess5_ok : run_sop (SUpload ready (mkRegion 1 0 3 1) [6]) sess4 = (sess5, Ok tt).
Proof. unfold sess5. apply St_ok. vm_compute. reflexivity. Qed.
Lemma sess6_ok : read_many ready_read [(whole, 4); (right_half, 1)] sess5 = (sess6, Ok [[5; 7; 7; 6]; [7]]).
Proof. unfold sess6. apply St_ok. vm_compute. reflexivity. Qed.
Lemma sess_direct_ok : direct ready 5 sess3 = (sess_direct, Ok tt).
Proof. unfold sess_direct. apply St_ok. vm_compute. reflexivity. Qed.
Lemma sess_runs : session_runs sess2 sess_ops sess5.
Proof.
  assert (∀ o n, 0 <= o → 0 <= n → region_ok (mkRegion 1 0 o n)) as Hr by (intros o n ??; by split).
  eapply sr_op; [apply Hr; lia|exact sess3_ok|]. eapply sr_op; [apply reversed_ok|exact sess4_ok|].
  eapply sr_op; [apply Hr; lia|exact sess5_ok|]. constructor.
Qed.

(** The copying kernel changes only its second binding. *)
Definition prepared_program : list Prepared :=
  [PFill left_half 7; PFill right_half 9;
   PDispatch (mkKernelId 1 0) [] [1; 1; 1] [mkBinding left_half Read; mkBinding right_half Write];
   PFill (mkRegion 1 0 0 1) 5].
Lemma copying_spares e g b c n a :
  ¬ (n = 0%nat ∧ 2 <= a < 4) → spares copying (Run (mkLaunch e g b c [(0%nat, 0, 2); (0%nat, 2, 2)])) n a.
Proof.
  intros Hn m. change (write_bytes (write_bytes m 0 0 [m 0%nat 0; m 0%nat 1]) 0 2 [m 0%nat 0; m 0%nat 1] n a = m n a).
  rewrite write_bytes_outside.
  - unfold write_bytes. destruct (Nat.eqb_spec n 0) as [->|]; [|done]. cbn [andb]. destruct (in_range _ _ a) eqn:E; [|done].
    apply in_range_true in E. cbn in E. assert (a = 0 ∨ a = 1) as [->| ->] by lia; done.
  - apply not_true_iff_false. rewrite andb_true_iff, Nat.eqb_eq, in_range_true. cbn. lia.
Qed.
Lemma program_contract s :
  kernels s = [mkLoaded 3 [1; 1; 1]] → s_id s = 1%nat → (∃ x, allocations s = [x] ∧ native (a_buffer x) = 0%nat) →
  Forall (contract_kept copying s) prepared_program.
Proof.
  intros Hk Hid (x & Hx & Hn). constructor; [done|]. constructor; [done|]. constructor; [|constructor; [done|constructor]].
  intros y n a Hy Hw. cbn [work_of] in Hy. unfold kernel in Hy. rewrite Hid, Hk in Hy. cbn in Hy. unfold view in Hy.
  destruct (validate_region s left_half) as [u|] eqn:Eu; [|done]. cbn [result_bind] in Hy.
  destruct (try_slice _ _ _) as [v|] eqn:Ev; [|done]. cbn [result_bind] in Hy.
  destruct (validate_region s right_half) as [u'|] eqn:Eu'; [|done]. cbn [result_bind] in Hy.
  destruct (try_slice (a_buffer u') _ _) as [v'|] eqn:Ev'; [|done]. injection Hy as <-.
  apply validate_region_Ok in Eu as [Eu _]. apply validate_region_Ok in Eu' as [Eu' _]. rewrite Hx in Eu, Eu'. cbn in Eu, Eu'.
  injection Eu as <-. injection Eu' as <-. apply stream_slice_Ok in Ev as [-> _]. apply stream_slice_Ok in Ev' as [-> _].
  unfold range_of. cbn [fmap list_fmap v_owner v_offset v_length binding]. rewrite Hn. apply copying_spares. intros [-> Ha]. apply Hw. exists right_half, Write. split; [right; by left|]. split; [done|].
  exists x. rewrite Hx, Hn. split; [done|]. split; [done|]. cbn. lia.
Qed.
Lemma sess_state s :
  s = sess2 ∨ s = sess3 →
  recorded_graphs s = [(5, prepared_program)] ∧ effect (config (world s)) = copying ∧
  Forall (contract_kept copying s) prepared_program.
Proof.
  intros H. assert (recorded_graphs s = [(5, prepared_program)]) as E1 by (destruct H as [->| ->]; vm_compute; reflexivity).
  assert (effect (config (world s)) = copying) as E2 by (destruct H as [->| ->]; vm_compute; reflexivity).
  split; [exact E1|]. split; [exact E2|]. apply program_contract; destruct H as [->| ->]; try (vm_compute; reflexivity);
    eexists; split; vm_compute; reflexivity.
Qed.

Lemma model_sessions_are_sequential_witness :
  read_region sess2 (foldl (sop_meaning (effect (config (world sess2))) sess2) (settled (world sess2)) sess_ops)
    <$> [(whole, 4); (right_half, 1)] = [[5; 7; 7; 6]; [7]].
Proof.
  destruct (sess_state sess2 (or_introl eq_refl)) as (E1 & E2 & Hc).
  symmetry. apply (model_sessions_are_sequential sess2 sess_ops sess5 ready_read _ sess6).
  - exact sess2_reachable.
  - vm_compute. reflexivity.
  - unfold contracted. rewrite E1, E2. by constructor.
  - exact sess_runs.
  - repeat constructor; cbn; lia.
  - exact sess6_ok.
Defined.
Lemma replay_equals_direct_witness : settled (world sess4) 0%nat 0 = 5 ∧ settled (world sess_direct) 0%nat 0 = 5.
Proof.
  destruct (sess_state sess3 (or_intror eq_refl)) as (E1 & E2 & Hc).
  assert (settled (world sess4) 0%nat 0 = 5) as E by (vm_compute; reflexivity). split; [exact E|]. rewrite <-E. symmetry.
  apply (replay_equals_direct ready reversed ready 5 sess3).
  - exact sess3_reachable.
  - apply reversed_ok.
  - intros l. unfold commands_of. rewrite E1, E2. cbn. by intros [= <-].
  - exact sess4_replay.
  - exact sess_direct_ok.
Defined.
End ModelSessionTheorems.
