(* ===== verification/Jobs.v ===== *)
(** * The job pool

    Model of src/src/jobs.rs: bounded submission to a fixed set of workers with
    cooperative cancellation.  A job goes through the phases of [submit] and of
    its task closure; clients, workers and cancellation interleave freely.  The
    theorems show that outstanding jobs are counted exactly and bounded, that
    the bounded channel is never found full, and what result is delivered. *)

From S2P Require Import Prelude.
Local Open Scope Z_scope.

Module Jobs.

(** [State], behind [JobHandle]. *)
Record State : Type := mkState { cancelled : bool; finished : bool }.

(** A job: between the permit and the channel, queued, taken by a worker, past
    its first cancellation check, returned from the work, published, completed
    (callback returned and permit dropped), or refused by the channel. *)
Inductive Phase : Type :=
| Submitting
| Queued
| Taken
| Working
| Returned (r : Result unit)
| Finished (r : Result unit)
| Completed (r : Result unit)
| Unavailable.
Record Job : Type := mkJob { state : State; phase : Phase }.

(** [JobPool]: [channel] is the bounded queue, in order. *)
Record JobPool : Type := mkPool {
  capacity : Z;
  live : Z;
  channel : list nat;
  jobs : list Job }.

(** [JobPool::new]. *)
Definition new (workers cap : Z) : Result JobPool :=
  if (workers =? 0) || (cap <? workers)
  then Err (Message "job capacity must be >= nonzero worker count")
  else Ok (mkPool cap 0 [] []).

(** [JobHandle::cancel], [is_cancelled], [is_finished]. *)
Definition cancel (s : State) : State * bool :=
  if finished s then (s, false) else (mkState true (finished s), true).
Definition is_cancelled (s : State) : bool := cancelled s.
Definition is_finished (s : State) : bool := finished s.

(** [submit]: the permit ([fetch_update]) and then [try_send]. *)
Definition permit (p : JobPool) : Result (JobPool * nat) :=
  if live p <? capacity p then
    Ok (mkPool (capacity p) (live p + 1) (channel p) (jobs p ++ [mkJob (mkState false false) Submitting]),
        length (jobs p))
  else Err (Busy "job capacity is occupied").
Definition set_job (i : nat) (j : Job) (p : JobPool) : JobPool :=
  mkPool (capacity p) (live p) (channel p) (<[i := j]> (jobs p)).
Definition drop_permit (p : JobPool) : JobPool := mkPool (capacity p) (live p - 1) (channel p) (jobs p).
Definition try_send (i : nat) (p : JobPool) : JobPool * Result unit :=
  match jobs p !! i with
  | Some (mkJob s Submitting) =>
      if Z.of_nat (length (channel p)) <? capacity p then
        (mkPool (capacity p) (live p) (channel p ++ [i]) (<[i := mkJob s Queued]> (jobs p)), Ok tt)
      else (drop_permit (set_job i (mkJob s Unavailable) p), Err (Busy "job queue unavailable"))
  | _ => (p, Ok tt)
  end.

(** A worker receives the oldest task. *)
Definition recv (p : JobPool) : option JobPool :=
  match channel p with
  | [] => None
  | i :: rest =>
      match jobs p !! i with
      | Some (mkJob s Queued) => Some (mkPool (capacity p) (live p) rest (<[i := mkJob s Taken]> (jobs p)))
      | _ => None
      end
  end.

(** The task closure: the first check, the work ([None] is a panic), the locked
    publication, and the callback with the drop of the permit. *)
Definition begin_work (j : Job) : Job :=
  match j with
  | mkJob s Taken => mkJob s (if is_cancelled s then Returned (Err Cancelled) else Working)
  | _ => j
  end.
Definition end_work (r : option (Result unit)) (j : Job) : Job :=
  match j with
  | mkJob s Working => mkJob s (Returned (match r with Some r => r | None => Err (Message "job panicked") end))
  | _ => j
  end.
Definition finish (j : Job) : Job :=
  match j with
  | mkJob s (Returned r) =>
      mkJob (mkState (cancelled s) true) (Finished (if cancelled s then Err Cancelled else r))
  | _ => j
  end.
Definition complete (i : nat) (p : JobPool) : JobPool :=
  match jobs p !! i with
  | Some (mkJob s (Finished r)) => drop_permit (set_job i (mkJob s (Completed r)) p)
  | _ => p
  end.

(** [JobPool::outstanding]. *)
Definition outstanding (p : JobPool) : Z := live p.

(** ** Steps *)

Inductive step : JobPool → JobPool → Prop :=
| step_permit p p' i : permit p = Ok (p', i) → step p p'
| step_send p p' i r : try_send i p = (p', r) → step p p'
| step_recv p p' : recv p = Some p' → step p p'
| step_begin p i j : jobs p !! i = Some j → step p (set_job i (begin_work j) p)
| step_end p i j r : jobs p !! i = Some j → step p (set_job i (end_work r j) p)
| step_finish p i j : jobs p !! i = Some j → step p (set_job i (finish j) p)
| step_complete p i : step p (complete i p)
| step_cancel p i j : jobs p !! i = Some j → step p (set_job i (mkJob (cancel (state j)).1 (phase j)) p).
Definition reachable (p : JobPool) : Prop := ∃ workers cap p0, 0 <= workers ∧ new workers cap = Ok p0 ∧ rtc step p0 p.

(** ** Accounting *)

Definition holds_permit (j : Job) : Z :=
  match phase j with Completed _ | Unavailable => 0 | _ => 1 end.
Definition is_queued (j : Job) : Z := match phase j with Queued => 1 | _ => 0 end.

Global Arguments holds_permit !_ /.
Global Arguments is_queued !_ /.

(** A published result is the cancellation when one was requested in time. *)
Definition job_ok (j : Job) : Prop :=
  match phase j with
  | Finished r | Completed r => finished (state j) = true ∧ (cancelled (state j) = true → r = Err Cancelled)
  | Unavailable => False
  | _ => finished (state j) = false
  end.

Record Inv (p : JobPool) : Prop := {
  inv_live : live p = zsum holds_permit (jobs p);
  inv_bound : live p <= capacity p;
  inv_queue : Z.of_nat (length (channel p)) = zsum is_queued (jobs p);
  inv_jobs : Forall job_ok (jobs p);
  inv_channel : ∀ i, i ∈ channel p ↔ ∃ s, jobs p !! i = Some (mkJob s Queued);
  inv_nodup : NoDup (channel p) }.

Lemma zsum_insert {A} (f : A → Z) l i x y :
  l !! i = Some x → zsum f (<[i := y]> l) = zsum f l - f x + f y.
Proof.
  intros Hi. rewrite (zsum_perm f _ _ (insert_Permutation l i x y Hi)),
    (zsum_perm f _ _ (delete_Permutation l i x Hi)). simpl. lia.
Qed.

Lemma zsum_le {A} (f g : A → Z) l : (∀ x, f x <= g x) → zsum f l <= zsum g l.
Proof. intros Hfg. induction l as [|x l IH]; simpl; [lia|]. specialize (Hfg x). lia. Qed.

(** A phase change that keeps permit and place in the channel. *)
Lemma Inv_set i j j' p :
  jobs p !! i = Some j → holds_permit j' = holds_permit j → job_ok j' →
  (phase j' = Queued ↔ phase j = Queued) → Inv p → Inv (set_job i j' p).
Proof.
  intros Hi Hh Hok Hq []. assert (Hiq : is_queued j' = is_queued j).
  { unfold is_queued. destruct (phase j') eqn:E1, (phase j) eqn:E2; naive_solver. }
  split; simpl; try done.
  - rewrite (zsum_insert _ _ _ _ _ Hi). lia.
  - rewrite (zsum_insert _ _ _ _ _ Hi). lia.
  - by apply Forall_insert.
  - intros k. rewrite inv_channel0. destruct (decide (i = k)) as [<-|Hne].
    + rewrite list_lookup_insert_eq by by eapply lookup_lt_Some. rewrite Hi.
      split; intros [s Hs]; injection Hs as Hs.
      * exists (state j'). f_equal. destruct j'; simpl in *. f_equal. apply Hq. by subst j.
      * exists (state j). f_equal. destruct j; simpl in *. f_equal. apply Hq. by subst j'.
    + by rewrite list_lookup_insert_ne.
Qed.

Lemma job_ok_at p i j : Inv p → jobs p !! i = Some j → job_ok j.
Proof. intros HI Hi. pose proof (inv_jobs _ HI) as Hf. by eapply Forall_lookup_1. Qed.

(** The channel always has room: the sender holds a permit of its own. *)
Lemma channel_room p i s :
  Inv p → jobs p !! i = Some (mkJob s Submitting) → Z.of_nat (length (channel p)) < capacity p.
Proof.
  intros HI Hi. destruct HI as [Hl Hb Hq _ _ _]. rewrite Hq.
  enough (zsum is_queued (jobs p) < zsum holds_permit (jobs p)) by lia.
  rewrite (zsum_perm is_queued _ _ (delete_Permutation _ _ _ Hi)),
    (zsum_perm holds_permit _ _ (delete_Permutation _ _ _ Hi)). simpl.
  enough (zsum is_queued (delete i (jobs p)) <= zsum holds_permit (delete i (jobs p))) by lia.
  apply zsum_le. intros [? []]; unfold is_queued, holds_permit; simpl; lia.
Qed.

Lemma jobs_step_inv p p' : Inv p → step p p' → Inv p'.
Proof.
  intros HI Hs. destruct Hs as [p p' i Hp|p p' i r Hp|p p' Hp|p i j Hi|p i j r Hi|p i j Hi|p i|p i j Hi].
  - unfold permit in Hp. destruct (Z.ltb_spec (live p) (capacity p)); [|done]. injection Hp as <- _.
    destruct HI. split; simpl; rewrite ?zsum_app; simpl; try done; try lia.
    + apply Forall_app. split; [done|]. by apply Forall_singleton.
    + intros k. rewrite inv_channel0. split; intros [s Hs]; exists s.
      * by apply lookup_app_l_Some.
      * by apply lookup_snoc_Some in Hs as [[_ ?]|[_ [=]]].
  - unfold try_send in Hp. destruct (jobs p !! i) as [[s []]|] eqn:Hi; try by injection Hp as <- _.
    rewrite (proj2 (Z.ltb_lt _ _) (channel_room p i s HI Hi)) in Hp. injection Hp as <- _.
    destruct HI. split; simpl; try done.
    + rewrite (zsum_insert _ _ _ _ _ Hi). simpl. lia.
    + rewrite length_app, (zsum_insert _ _ _ _ _ Hi). simpl. lia.
    + apply Forall_insert; [done|]. by pose proof (Forall_lookup_1 _ _ _ _ inv_jobs0 Hi).
    + intros k. rewrite elem_of_app, list_elem_of_singleton, inv_channel0.
      destruct (decide (i = k)) as [<-|Hne].
      * rewrite list_lookup_insert_eq by by eapply lookup_lt_Some. split; [|by right]. intros _. by eexists.
      * rewrite list_lookup_insert_ne by done. split; [intros [?|?]; congruence|by left].
    + apply NoDup_app. split_and!; [done| |apply NoDup_singleton].
      intros k Hk ->%list_elem_of_singleton. apply inv_channel0 in Hk as [s' Hs']. congruence.
  - unfold recv in Hp. destruct (channel p) as [|i rest] eqn:Ec; [done|].
    destruct (jobs p !! i) as [[s []]|] eqn:Hi; try done. injection Hp as <-.
    destruct HI. rewrite Ec in *. apply NoDup_cons in inv_nodup0 as [Hni Hnd]. split; simpl; try done.
    + rewrite (zsum_insert _ _ _ _ _ Hi). simpl. lia.
    + rewrite (zsum_insert _ _ _ _ _ Hi). simpl. simpl in inv_queue0. lia.
    + apply Forall_insert; [done|]. by pose proof (Forall_lookup_1 _ _ _ _ inv_jobs0 Hi).
    + intros k. destruct (decide (i = k)) as [<-|Hne].
      * rewrite list_lookup_insert_eq by by eapply lookup_lt_Some. split; [done|]. by intros [? [=]].
      * rewrite list_lookup_insert_ne by done. rewrite <-inv_channel0, elem_of_cons. naive_solver.
  - pose proof (job_ok_at p i j HI Hi) as Hok. apply (Inv_set i j); try done; destruct j as [s []]; simpl in *; try done.
    all: by destruct (is_cancelled s).
  - pose proof (job_ok_at p i j HI Hi) as Hok. apply (Inv_set i j); try done; destruct j as [s []]; simpl in *; done.
  - pose proof (job_ok_at p i j HI Hi) as Hok. apply (Inv_set i j); try done; destruct j as [s []]; simpl in *; try done.
    split; [done|]. simpl. by intros ->.
  - unfold complete. destruct (jobs p !! i) as [[s []]|] eqn:Hi; try done.
    destruct HI. split; simpl; try done.
    + rewrite (zsum_insert _ _ _ _ _ Hi). simpl. lia.
    + lia.
    + rewrite (zsum_insert _ _ _ _ _ Hi). simpl. lia.
    + apply Forall_insert; [done|]. by pose proof (Forall_lookup_1 _ _ _ _ inv_jobs0 Hi).
    + intros k. rewrite inv_channel0. destruct (decide (i = k)) as [<-|Hne].
      * rewrite list_lookup_insert_eq by by eapply lookup_lt_Some. rewrite Hi. split; by intros [? [=]].
      * by rewrite list_lookup_insert_ne.
  - pose proof (job_ok_at p i j HI Hi) as Hok. apply (Inv_set i j); try done.
    destruct j as [[c f] ph]. unfold job_ok in *; simpl in *. unfold cancel. simpl.
    destruct ph; simpl in *; try done; try (by rewrite Hok); destruct Hok as [-> Hr]; simpl; done.
Qed.

Lemma jobs_reachable_inv p : reachable p → Inv p.
Proof.
  intros (workers & cap & p0 & Hw & Hn & Hr). assert (HI : Inv p0).
  { unfold new in Hn. destruct ((workers =? 0) || (cap <? workers)) eqn:E; [done|]. injection Hn as <-.
    to_prop. split; simpl; try done; try lia; try constructor.
    - by intros ?%elem_of_nil.
    - intros [s Hs]. by rewrite lookup_nil in Hs. }
  clear Hn. induction Hr; eauto using jobs_step_inv.
Qed.

(** Outstanding jobs are bounded and results follow cancellation: in every
    reachable state the live count is the number of jobs not yet completed and
    at most the capacity, no job was refused by a full channel, and a published
    result is [Cancelled] whenever the handle reports the cancellation. *)
Theorem jobs_bounded_and_cancellable p :
  reachable p →
  outstanding p = zsum holds_permit (jobs p) ∧ 0 <= outstanding p <= capacity p
  ∧ (∀ i j, jobs p !! i = Some j → phase j ≠ Unavailable)
  ∧ (∀ i j r, jobs p !! i = Some j → phase j = Finished r ∨ phase j = Completed r →
       is_finished (state j) = true ∧ (is_cancelled (state j) = true → r = Err Cancelled)
       ∧ (cancel (state j)).2 = false).
Proof.
  intros HI%jobs_reachable_inv. unfold outstanding. split_and!.
  - apply HI.
  - rewrite (inv_live _ HI). apply zsum_nonneg, Forall_forall. intros j _. unfold holds_permit. destruct (phase j); lia.
  - apply HI.
  - intros i j Hi E. pose proof (job_ok_at _ _ _ HI Hi) as Hok. unfold job_ok in Hok. by rewrite E in Hok.
  - intros i j r Hi E. pose proof (job_ok_at _ _ _ HI Hi) as Hok. unfold job_ok in Hok.
    assert (finished (state j) = true ∧ (cancelled (state j) = true → r = Err Cancelled)) as [Hf Hc]
      by by destruct E as [E|E]; rewrite E in Hok.
    split_and!; [done|done|]. unfold cancel. by rewrite Hf.
Qed.

(** One job, cancelled before a worker takes it. *)
Definition demo0 : JobPool := mkPool 2 0 [] [].
Definition demo1 : JobPool := mkPool 2 1 [0%nat] [mkJob (mkState true false) Queued].
Definition demo2 : JobPool := mkPool 2 0 [] [mkJob (mkState true true) (Completed (Err Cancelled))].

Lemma demo2_reachable : reachable demo2.
Proof.
  exists 1, 2, demo0. split_and!; [lia|reflexivity|].
  eapply rtc_l; [apply (step_permit _ _ 0); reflexivity|].
  eapply rtc_l; [apply (step_send _ _ 0 (Ok tt)); reflexivity|].
  eapply rtc_l; [by apply (step_cancel _ 0)|]. eapply rtc_l; [apply step_recv; reflexivity|].
  eapply rtc_l; [by apply (step_begin _ 0)|]. eapply rtc_l; [by apply (step_finish _ 0)|].
  eapply rtc_l; [apply (step_complete _ 0)|]. apply rtc_refl.
Qed.

Lemma jobs_bounded_and_cancellable_witness :
  jobs demo2 !! 0%nat = Some (mkJob (mkState true true) (Completed (Err Cancelled)))
  ∧ outstanding demo2 = zsum holds_permit (jobs demo2).
Proof. split; [reflexivity|]. exact (proj1 (jobs_bounded_and_cancellable demo2 demo2_reachable)). Defined.

End Jobs.
