(* ===== verification/PlanCache.v ===== *)
(** * The plan cache

    Model of src/src/plan_cache.rs: bounded single-flight preparation with
    eviction of idle entries.  Values and flights are named by identity, the
    owners of a value are the ready entries, the published outcomes and the
    callers that hold it.  The theorems show that the capacity is never
    exceeded, that one preparation runs per key and every waiter has one, and
    that eviction takes the least recently used value nobody holds. *)

From S2P Require Import Prelude.
Local Open Scope Z_scope.

Module PlanCache.
Section PlanCache.
Context {K : Type} `{Countable K}.

(** [Outcome], [Entry]. *)
Abbreviation Outcome := (Result nat).
Inductive Entry : Type := Loading (flight : nat) | Ready (value : nat) (used : Z).

(** Threads and callers: an elected preparation, one that has published its
    outcome, a waiter, and a returned value. *)
Inductive Holder : Type :=
| HLoader (key : K) (flight : nat)
| HReturning (flight : nat) (outcome : Outcome)
| HWaiter (flight : nat)
| HValue (value : nat).

(** [PlanCache], [State], with the flights and their holders. *)
Record Cache : Type := mkCache {
  capacity : nat;
  entries : gmap K Entry;
  clock : Z;
  hits : Z;
  misses : Z;
  evictions : Z;
  flights : gmap nat (option Outcome);
  next_id : nat;
  holders : list Holder }.

(** [PlanCache::new]. *)
Definition new (cap : nat) : Result Cache :=
  if (cap =? 0)%nat then Err (Message "plan cache capacity must be nonzero")
  else Ok (mkCache cap ∅ 0 0 0 0 ∅ 0 []).

(** [Arc::strong_count]. *)
Definition holder_owns (v : nat) (h : Holder) : bool :=
  match h with HReturning _ (Ok x) | HValue x => (x =? v)%nat | _ => false end.
Definition entry_owns (v : nat) (e : K * Entry) : bool :=
  match e.2 with Ready x _ => (x =? v)%nat | _ => false end.
Definition flight_owns (v : nat) (f : nat * option Outcome) : bool :=
  match f.2 with Some (Ok x) => (x =? v)%nat | _ => false end.
Definition strong_count (v : nat) (c : Cache) : nat :=
  (length (List.filter (holder_owns v) (holders c))
   + length (List.filter (entry_owns v) (map_to_list (entries c)))
   + length (List.filter (flight_owns v) (map_to_list (flights c))))%nat.

(** The victim: [filter_map] and [min_by_key] over the iteration order [it]. *)
Definition candidate (idle : nat → bool) (c : Cache) (key : K) : option (nat * Z) :=
  match entries c !! key with
  | Some (Ready v u) => if (strong_count v c =? 1)%nat && idle v then Some (v, u) else None
  | _ => None
  end.
Fixpoint victim (idle : nat → bool) (c : Cache) (it : list K) : option (K * Z) :=
  match it with
  | [] => None
  | key :: rest =>
      match candidate idle c key, victim idle c rest with
      | Some (_, u), Some (key', u') => if u' <? u then Some (key', u') else Some (key, u)
      | Some (_, u), None => Some (key, u)
      | None, later => later
      end
  end.

(** [get_or_prepare], its first locked section: a ready value, a flight to wait
    for, or an elected preparation. *)
Inductive Started : Type := Hit (value : nat) | Waits | Elected | Refused (e : Error).
Definition elect (key : K) (c : Cache) : Cache :=
  mkCache (capacity c) (<[key := Loading (next_id c)]> (entries c)) (clock c) (hits c) (misses c + 1)
    (evictions c) (<[next_id c := None]> (flights c)) (S (next_id c)) (holders c ++ [HLoader key (next_id c)]).
Definition start (idle : nat → bool) (it : list K) (key : K) (c : Cache) : Cache * Started :=
  let now := Z.min (clock c + 1) u64_max in
  let c := mkCache (capacity c) (entries c) now (hits c) (misses c) (evictions c) (flights c) (next_id c) (holders c) in
  match entries c !! key with
  | Some (Ready v _) =>
      (mkCache (capacity c) (<[key := Ready v now]> (entries c)) now (hits c + 1) (misses c) (evictions c)
         (flights c) (next_id c) (holders c ++ [HValue v]), Hit v)
  | Some (Loading f) =>
      (mkCache (capacity c) (entries c) now (hits c + 1) (misses c) (evictions c) (flights c) (next_id c)
         (holders c ++ [HWaiter f]), Waits)
  | None =>
      if (size (entries c) =? capacity c)%nat then
        match victim idle c it with
        | None => (c, Refused (Busy "all shape plans are pinned or preparing"))
        | Some (old, _) =>
            (elect key (mkCache (capacity c) (delete old (entries c)) now (hits c) (misses c) (evictions c + 1)
               (flights c) (next_id c) (holders c)), Elected)
        end
      else (elect key c, Elected)
  end.

(** Its second: publish the outcome of the preparation at [i]; [None] is a
    panic of the loader, [Some (Ok tt)] a value, which gets a fresh identity. *)
Definition outcome_of (fresh : nat) (loaded : option (Result unit)) : Outcome :=
  match loaded with
  | Some (Ok _) => Ok fresh
  | Some (Err e) => Err e
  | None => Err (Message "shape preparation panicked")
  end.
Definition finish (i : nat) (loaded : option (Result unit)) (c : Cache) : Cache :=
  match holders c !! i with
  | Some (HLoader key f) =>
      let outcome := outcome_of (next_id c) loaded in
      mkCache (capacity c)
        (match outcome with Ok v => <[key := Ready v (clock c)]> (entries c) | Err _ => delete key (entries c) end)
        (clock c) (hits c) (misses c) (evictions c) (<[f := Some outcome]> (flights c)) (S (next_id c))
        (<[i := HReturning f outcome]> (holders c))
  | _ => c
  end.

(** The end of an [Arc<Flight>]. *)
Definition refers (f : nat) (h : Holder) : bool :=
  match h with HLoader _ g | HReturning g _ | HWaiter g => (g =? f)%nat | HValue _ => false end.
Definition drop_flight (f : nat) (c : Cache) : Cache :=
  if existsb (refers f) (holders c) then c
  else mkCache (capacity c) (entries c) (clock c) (hits c) (misses c) (evictions c) (delete f (flights c))
         (next_id c) (holders c).
Definition with_holders (hs : list Holder) (c : Cache) : Cache :=
  mkCache (capacity c) (entries c) (clock c) (hits c) (misses c) (evictions c) (flights c) (next_id c) hs.

(** The returns of the elected thread and of a woken waiter. *)
Definition return_elected (i : nat) (c : Cache) : Cache :=
  match holders c !! i with
  | Some (HReturning f (Ok v)) => drop_flight f (with_holders (<[i := HValue v]> (holders c)) c)
  | Some (HReturning f (Err _)) => drop_flight f (with_holders (delete i (holders c)) c)
  | _ => c
  end.
Definition return_waiter (i : nat) (c : Cache) : option Cache :=
  match holders c !! i with
  | Some (HWaiter f) =>
      match flights c !! f with
      | Some (Some (Ok v)) => Some (drop_flight f (with_holders (<[i := HValue v]> (holders c)) c))
      | Some (Some (Err _)) => Some (drop_flight f (with_holders (delete i (holders c)) c))
      | _ => None
      end
  | _ => None
  end.
Definition drop_value (i : nat) (c : Cache) : Cache :=
  match holders c !! i with
  | Some (HValue _) => with_holders (delete i (holders c)) c
  | _ => c
  end.

(** [CacheStatistics], [PlanCache::statistics]. *)
Record CacheStatistics : Type := mkCacheStatistics { s_entries : nat; s_hits : Z; s_misses : Z; s_evictions : Z }.
Definition statistics (c : Cache) : CacheStatistics :=
  mkCacheStatistics (size (entries c)) (hits c) (misses c) (evictions c).

(** ** Steps and invariant *)

Inductive step : Cache → Cache → Prop :=
| step_start c c' idle it key s : start idle it key c = (c', s) → step c c'
| step_finish c i loaded : step c (finish i loaded c)
| step_return c i : step c (return_elected i c)
| step_wake c c' i : return_waiter i c = Some c' → step c c'
| step_drop c i : step c (drop_value i c).
Definition reachable (c : Cache) : Prop := ∃ cap c0, new cap = Ok c0 ∧ rtc step c0 c.

Definition loader (h : Holder) : option (K * nat) := match h with HLoader key f => Some (key, f) | _ => None end.

(** Loading entries and running preparations correspond one to one; the flight
    of a waiter has landed or has a running preparation. *)
Record Inv (c : Cache) : Prop := {
  inv_capacity : (size (entries c) ≤ capacity c)%nat;
  inv_fresh : ∀ f, is_Some (flights c !! f) → (f < next_id c)%nat;
  inv_loader : ∀ key f, HLoader key f ∈ holders c → entries c !! key = Some (Loading f) ∧ flights c !! f = Some None;
  inv_keys : NoDup (fst <$> omap loader (holders c));
  inv_flights : NoDup (snd <$> omap loader (holders c));
  inv_loading : ∀ key f, entries c !! key = Some (Loading f) → HLoader key f ∈ holders c;
  inv_waiter : ∀ f, HWaiter f ∈ holders c →
    ∃ o, flights c !! f = Some o ∧ (o = None → ∃ key, HLoader key f ∈ holders c) }.

Lemma new_inv cap c : new cap = Ok c → Inv c.
Proof.
  unfold new. destruct (Nat.eqb_spec cap 0); [done|]. intros [= <-].
  split; simpl; try (intros *; rewrite ?lookup_empty; done); try (intros * ?%elem_of_nil; done);
    try by constructor.
  rewrite map_size_empty. lia.
Qed.

(** Holders that are not preparations or waiters are free to come and go. *)
Definition same_threads (hs hs' : list Holder) : Prop :=
  omap loader hs' ≡ₚ omap loader hs
  ∧ (∀ key f, HLoader key f ∈ hs' ↔ HLoader key f ∈ hs) ∧ (∀ f, HWaiter f ∈ hs' → HWaiter f ∈ hs).

Lemma Inv_threads c es n h m e hs :
  (∀ key f, es !! key = Some (Loading f) ↔ entries c !! key = Some (Loading f)) →
  (size es ≤ capacity c)%nat → same_threads (holders c) hs → Inv c →
  Inv (mkCache (capacity c) es n h m e (flights c) (next_id c) hs).
Proof.
  intros Hes Hsz (Hperm & Hl & Hw) []. split; simpl; try done.
  - intros key f Hin. rewrite Hes. by apply inv_loader0, Hl.
  - by rewrite Hperm.
  - by rewrite Hperm.
  - intros key f. rewrite Hes. intros Hin. by apply Hl, inv_loading0.
  - intros f Hf%Hw. destruct (inv_waiter0 f Hf) as (o & Ho & Hn). exists o. split; [done|].
    intros E. destruct (Hn E) as [key Hk]. exists key. by apply Hl.
Qed.

Lemma same_threads_refl hs : same_threads hs hs.
Proof. done. Qed.

Lemma same_threads_app hs v : same_threads hs (hs ++ [HValue v]).
Proof.
  split_and!; [by rewrite omap_app, app_nil_r|..]; intros *; rewrite elem_of_app, list_elem_of_singleton; naive_solver.
Qed.

Lemma same_threads_delete hs i h :
  hs !! i = Some h → loader h = None → same_threads hs (delete i hs).
Proof.
  intros Hi Hl. pose proof (delete_Permutation _ _ _ Hi) as Hp. split_and!.
  - rewrite (omap_Permutation loader _ _ Hp). simpl. by rewrite Hl.
  - intros key f. rewrite (elem_of_delete_cons hs i h (HLoader key f) Hi). split; [by right|].
    intros [<-|?]; [done|done].
  - intros f Hf. apply (elem_of_delete_cons _ _ _ _ Hi). by right.
Qed.

Lemma same_threads_insert hs i h v :
  hs !! i = Some h → loader h = None → same_threads hs (<[i := HValue v]> hs).
Proof.
  intros Hi Hl. destruct (same_threads_delete hs i h Hi Hl) as (H1 & H2 & H3). split_and!.
  - rewrite (omap_Permutation loader _ _ (insert_Permutation _ _ _ (HValue v) Hi)). simpl. done.
  - intros key f. rewrite (elem_of_insert_cons _ _ _ _ _ Hi), <-H2. naive_solver.
  - intros f Hf. apply (elem_of_insert_cons _ _ _ _ _ Hi) in Hf as [?|Hf]; [done|auto].
Qed.

Lemma cache_drop_flight f c : Inv c → Inv (drop_flight f c).
Proof.
  intros HI. unfold drop_flight. destruct (existsb (refers f) (holders c)) eqn:E; [done|].
  assert (Hno : ∀ h, h ∈ holders c → refers f h = false).
  { intros h Hh. destruct (refers f h) eqn:Er; [|done].
    rewrite (proj2 (existsb_exists _ _)) in E; [done|]. exists h. by rewrite <-list_elem_of_In. }
  destruct HI. split; simpl; try done.
  - intros g [o [_ Hg]%lookup_delete_Some]. apply inv_fresh0. by exists o.
  - intros key g Hl. destruct (inv_loader0 _ _ Hl) as [H1 H2]. split; [done|].
    rewrite lookup_delete_ne; [done|]. intros <-. apply Hno in Hl. simpl in Hl. by rewrite Nat.eqb_refl in Hl.
  - intros g Hw. destruct (inv_waiter0 _ Hw) as (o & Ho & Hn). exists o. split; [|done].
    rewrite lookup_delete_ne; [done|]. intros <-. apply Hno in Hw. simpl in Hw. by rewrite Nat.eqb_refl in Hw.
Qed.

(** Electing a preparation below capacity. *)
Lemma Inv_elect key c :
  entries c !! key = None → (size (entries c) < capacity c)%nat → Inv c → Inv (elect key c).
Proof.
  intros Hk Hsz []. set (f := next_id c).
  assert (Hf : flights c !! f = None).
  { destruct (flights c !! f) eqn:E; [|done]. assert (f < next_id c)%nat by eauto. unfold f in *. lia. }
  assert (Hin : ∀ h, h ∈ holders c ++ [HLoader key f] ↔ h ∈ holders c ∨ h = HLoader key f).
  { intros h. by rewrite elem_of_app, list_elem_of_singleton. }
  assert (Hl : ∀ key' f', (key', f') ∈ omap loader (holders c) → HLoader key' f' ∈ holders c).
  { intros k g (h & Hh & Hhl)%list_elem_of_omap. by destruct h; simplify_eq/=. }
  split; simpl; fold f.
  - rewrite map_size_insert_None by done. lia.
  - intros g [o Hg]. destruct (decide (g = f)) as [->|]; [lia|]. rewrite lookup_insert_ne in Hg by done.
    assert (g < next_id c)%nat by eauto. unfold f. lia.
  - intros k g [Hg|[= -> ->]]%Hin; [|by rewrite !lookup_insert_eq].
    destruct (inv_loader0 _ _ Hg). rewrite !lookup_insert_ne; [done|..]; intros ?; congruence.
  - rewrite omap_app, fmap_app. apply NoDup_app. split_and!; [done| |apply NoDup_singleton].
    intros k ((k' & g) & Hk1 & Hg)%list_elem_of_fmap Hk2%list_elem_of_singleton. apply Hl in Hg. simpl in Hk1, Hk2.
    destruct (inv_loader0 _ _ Hg). simpl in *. congruence.
  - rewrite omap_app, fmap_app. apply NoDup_app. split_and!; [done| |apply NoDup_singleton].
    intros g ((k' & g') & Hk1 & Hg)%list_elem_of_fmap Hk2%list_elem_of_singleton. apply Hl in Hg. simpl in Hk1, Hk2.
    destruct (inv_loader0 _ _ Hg). simpl in *. congruence.
  - intros k g Hg. apply Hin. destruct (decide (key = k)) as [<-|].
    + rewrite lookup_insert_eq in Hg. injection Hg as <-. by right.
    + rewrite lookup_insert_ne in Hg by done. left. auto.
  - intros g [Hg|?]%Hin; [|done]. destruct (inv_waiter0 _ Hg) as (o & Ho & Hn). exists o.
    rewrite lookup_insert_ne by congruence. split; [done|]. intros E. destruct (Hn E) as [k ?].
    exists k. apply Hin. by left.
Qed.

(** The victim is a ready entry held by nobody else, least recently used. *)
Lemma victim_spec idle c it key u :
  victim idle c it = Some (key, u) →
  (∃ v, entries c !! key = Some (Ready v u) ∧ strong_count v c = 1%nat ∧ idle v = true)
  ∧ ∀ key' v' u', key' ∈ it → entries c !! key' = Some (Ready v' u') → strong_count v' c = 1%nat →
      idle v' = true → u <= u'.
Proof.
  assert (Hcand : ∀ k v u, entries c !! k = Some (Ready v u) → strong_count v c = 1%nat → idle v = true →
    candidate idle c k = Some (v, u)).
  { intros k v u0 Hk H1 Hi. unfold candidate. by rewrite Hk, H1, Hi. }
  assert (Hnone : ∀ l k v, victim idle c l = None → k ∈ l → candidate idle c k = Some v → False).
  { induction l as [|k l IH]; intros k' v Hn Hk Hc; [by apply elem_of_nil in Hk|]. simpl in Hn.
    apply elem_of_cons in Hk as [->|Hk].
    - rewrite Hc in Hn. destruct v. destruct (victim idle c l) as [[? ?]|]; [destruct (_ <? _)|]; done.
    - destruct (candidate idle c k) as [[? ?]|]; [|by eapply IH].
      destruct (victim idle c l) as [[? ?]|] eqn:E; [destruct (_ <? _); done|done]. }
  assert (Hval : ∀ k v u, candidate idle c k = Some (v, u) →
    entries c !! k = Some (Ready v u) ∧ strong_count v c = 1%nat ∧ idle v = true).
  { intros k v u0. unfold candidate. destruct (entries c !! k) as [[|v1 u1]|]; try done.
    destruct ((strong_count v1 c =? 1)%nat && idle v1) eqn:E; [|done]. intros [= -> ->]. to_prop. done. }
  revert key u. induction it as [|k it IH]; intros key u Hv; simpl in Hv; [done|].
  destruct (candidate idle c k) as [[v0 u0]|] eqn:Ek.
  - pose proof (Hval _ _ _ Ek) as Hk. destruct (victim idle c it) as [[k1 u1]|] eqn:Ev.
    + destruct (IH _ _ eq_refl) as [Hex Hmin]. destruct (Z.ltb_spec u1 u0); injection Hv as <- <-.
      * split; [done|]. intros k' v' u' [->|Hk']%elem_of_cons Hr Hs Hi; [|by eapply Hmin].
        rewrite (Hcand _ _ _ Hr Hs Hi) in Ek. injection Ek as <- <-. lia.
      * split; [by exists v0|]. intros k' v' u' [->|Hk']%elem_of_cons Hr Hs Hi; [|etrans; [|by eapply Hmin]; lia].
        rewrite (Hcand _ _ _ Hr Hs Hi) in Ek. injection Ek as <- <-. lia.
    + injection Hv as <- <-. split; [by exists v0|].
      intros k' v' u' [->|Hk']%elem_of_cons Hr Hs Hi.
      * rewrite (Hcand _ _ _ Hr Hs Hi) in Ek. injection Ek as <- <-. lia.
      * exfalso. eapply Hnone; [exact Ev|exact Hk'|]. by apply Hcand.
  - destruct (IH _ _ Hv) as [Hex Hmin]. split; [done|].
    intros k' v' u' [->|Hk']%elem_of_cons Hr Hs Hi; [|by eapply Hmin].
    rewrite (Hcand _ _ _ Hr Hs Hi) in Ek. done.
Qed.

Lemma cache_start idle it key c c' s : Inv c → start idle it key c = (c', s) → Inv c'.
Proof.
  intros HI. unfold start. set (now := Z.min (clock c + 1) u64_max). simpl.
  assert (HI0 : ∀ es, (∀ key f, es !! key = Some (Loading f) ↔ entries c !! key = Some (Loading f)) →
    (size es ≤ size (entries c))%nat → ∀ n h m e, Inv (mkCache (capacity c) es n h m e (flights c) (next_id c) (holders c))).
  { intros es Hes Hsz n h m e. apply Inv_threads; [done| |apply same_threads_refl|done].
    pose proof (inv_capacity _ HI). lia. }
  destruct (entries c !! key) as [[f|v u]|] eqn:Ek.
  - intros [= <- <-]. destruct HI.
    assert (Hin : ∀ h, h ∈ holders c ++ [HWaiter f] ↔ h ∈ holders c ∨ h = HWaiter f).
    { intros h. by rewrite elem_of_app, list_elem_of_singleton. }
    split; simpl; try setoid_rewrite Hin; rewrite ?omap_app, ?app_nil_r; try done.
    + intros k g [?|?]; [auto|done].
    + intros k g Hg. left. auto.
    + intros g [Hg|[= ->]].
      * destruct (inv_waiter0 _ Hg) as (o & Ho & Hn). exists o. split; [done|]. intros E.
        destruct (Hn E) as [k ?]. eauto.
      * apply inv_loading0 in Ek as Hl. exists None. split; [by eapply inv_loader0|]. eauto.
  - intros [= <- <-]. apply Inv_threads; [| |apply same_threads_app|done].
    + intros k f. destruct (decide (key = k)) as [<-|]; [rewrite lookup_insert_eq; naive_solver|].
      by rewrite lookup_insert_ne.
    + rewrite map_size_insert_Some by by eexists. apply HI.
  - destruct (Nat.eqb_spec (size (entries c)) (capacity c)) as [Hfull|Hroom].
    + destruct (victim idle _ it) as [[old u]|] eqn:Ev; intros [= <- <-].
      * destruct (victim_spec _ _ _ _ _ Ev) as [(v & Hold & _) _]. simpl in Hold.
        assert (Hsz : size (delete old (entries c)) = pred (size (entries c))) by (apply map_size_delete_Some; by eexists).
        assert (size (entries c) ≠ 0)%nat.
        { intros H0%map_size_empty_inv. by rewrite H0, lookup_empty in Hold. }
        apply Inv_elect; simpl; [by rewrite lookup_delete_None; right|lia|]. apply HI0; [|lia].
        intros k f. rewrite lookup_delete_Some. split; [by intros [_ ?]|]. intros Hf. split; [|done]. congruence.
      * by apply HI0.
    + intros [= <- <-]. pose proof (inv_capacity _ HI). apply Inv_elect; simpl; [done|lia|by apply HI0].
Qed.

Lemma cache_finish i loaded c : Inv c → Inv (finish i loaded c).
Proof.
  intros HI. unfold finish. destruct (holders c !! i) as [h|] eqn:Hi; [|done].
  destruct h as [key f| | |]; try done. set (o := outcome_of (next_id c) loaded).
  set (es := match o with Ok v => _ | Err _ => _ end).
  pose proof (delete_Permutation _ _ _ Hi) as Hd. pose proof (insert_Permutation _ _ _ (HReturning f o) Hi) as Hn.
  assert (Hself : HLoader key f ∈ holders c) by by eapply list_elem_of_lookup_2.
  destruct HI. destruct (inv_loader0 _ _ Hself) as [Hk Hf].
  rewrite (omap_Permutation loader _ _ Hd) in inv_keys0. rewrite (omap_Permutation loader _ _ Hd) in inv_flights0.
  simpl in inv_keys0, inv_flights0. apply NoDup_cons in inv_keys0 as [Hnk Hkeys]. apply NoDup_cons in inv_flights0 as [Hnf Hfls].
  assert (Hes : (∀ k, k ≠ key → es !! k = entries c !! k) ∧ (∀ g, es !! key ≠ Some (Loading g)) ∧ (size es ≤ capacity c)%nat).
  { unfold es. destruct o; split_and!.
    - intros k Hne. by rewrite lookup_insert_ne.
    - intros g. by rewrite lookup_insert_eq.
    - rewrite map_size_insert_Some by by eexists. done.
    - intros k Hne. by rewrite lookup_delete_ne.
    - intros g. by rewrite lookup_delete_eq.
    - rewrite map_size_delete_Some by by eexists. lia. }
  destruct Hes as (Hes1 & Hes2 & Hes3).
  assert (Hin : ∀ h, h ∈ <[i := HReturning f o]> (holders c) ↔ h = HReturning f o ∨ h ∈ delete i (holders c)).
  { intros h. by apply elem_of_insert_cons with (HLoader key f). }
  assert (Hold : ∀ h, h ∈ holders c ↔ h = HLoader key f ∨ h ∈ delete i (holders c)).
  { intros h. by apply elem_of_delete_cons. }
  assert (Huniq : ∀ k g, HLoader k g ∈ delete i (holders c) → k ≠ key ∧ g ≠ f).
  { intros k g Hg. split; intros ->; [apply Hnk|apply Hnf]; apply list_elem_of_fmap;
      [exists (key, g)|exists (k, f)]; (split; [done|]); apply list_elem_of_omap; by eexists. }
  split; simpl; try done.
  - intros g Hg. assert (g < next_id c)%nat; [|lia]. apply inv_fresh0.
    destruct (decide (f = g)) as [<-|]; [by eexists|]. by rewrite lookup_insert_ne in Hg.
  - intros k g [?|Hg]%Hin; [done|]. destruct (Huniq _ _ Hg) as [Hkne Hgne].
    destruct (inv_loader0 k g) as [H1 H2]; [apply Hold; by right|].
    rewrite Hes1, lookup_insert_ne by done. done.
  - by rewrite (omap_Permutation loader _ _ Hn).
  - by rewrite (omap_Permutation loader _ _ Hn).
  - intros k g Hg. destruct (decide (k = key)) as [->|Hne]; [by destruct (Hes2 g)|].
    rewrite Hes1 in Hg by done. apply inv_loading0, Hold in Hg as [[= -> ->]|Hg]; [done|]. apply Hin. by right.
  - intros g [?|Hg]%Hin; [done|]. destruct (inv_waiter0 g) as (o' & Ho & Hw); [apply Hold; by right|].
    destruct (decide (f = g)) as [<-|Hne]; [rewrite lookup_insert_eq; by eexists|].
    rewrite lookup_insert_ne by done. exists o'. split; [done|]. intros E. destruct (Hw E) as [k Hl].
    exists k. apply Hold in Hl as [[= -> ->]|Hl]; [done|]. apply Hin. by right.
Qed.

Lemma Inv_with_holders c hs : same_threads (holders c) hs → Inv c → Inv (with_holders hs c).
Proof. intros Hs HI. apply Inv_threads; [done|apply HI|done|done]. Qed.

Lemma cache_step_inv c c' : Inv c → step c c' → Inv c'.
Proof.
  intros HI Hs. destruct Hs as [c c' idle it key s Hst|c i loaded|c i|c c' i Hw|c i].
  - by eapply cache_start.
  - by apply cache_finish.
  - unfold return_elected. destruct (holders c !! i) as [[|f [v|e]| |]|] eqn:Hi; try done;
      apply cache_drop_flight, Inv_with_holders; try done.
    + by eapply same_threads_insert.
    + by eapply same_threads_delete.
  - unfold return_waiter in Hw. destruct (holders c !! i) as [[| |f|]|] eqn:Hi; try done.
    destruct (flights c !! f) as [[[v|e]|]|]; try done; injection Hw as <-;
      apply cache_drop_flight, Inv_with_holders; try done.
    + by eapply same_threads_insert.
    + by eapply same_threads_delete.
  - unfold drop_value. destruct (holders c !! i) as [[| | |v]|] eqn:Hi; try done.
    apply Inv_with_holders; [|done]. by eapply same_threads_delete.
Qed.

Lemma cache_reachable_inv c : reachable c → Inv c.
Proof.
  intros (cap & c0 & Hn & Hr). apply new_inv in Hn. induction Hr; eauto using cache_step_inv.
Qed.

End PlanCache.
Global Arguments Cache : clear implicits.
Global Arguments Cache _ {_ _}.
Global Arguments Holder : clear implicits.

(** The cache is bounded and single-flight: in every reachable state at most
    [capacity] plans are resident or preparing, each loading entry has exactly
    one running preparation, no key has two, and the flight of every waiter has
    landed or is being prepared. *)
Theorem plan_cache_bounded_single_flight {K} `{Countable K} (c : Cache K) :
  reachable c →
  (size (entries c) ≤ capacity c)%nat
  ∧ NoDup (fst <$> omap loader (holders c))
  ∧ (∀ key f, entries c !! key = Some (Loading f) ↔ HLoader key f ∈ holders c)
  ∧ (∀ f, HWaiter f ∈ holders c →
       (∃ o, flights c !! f = Some (Some o)) ∨ (∃ key, HLoader key f ∈ holders c)).
Proof.
  intros HI%cache_reachable_inv. destruct HI. split_and!; [done|done| |].
  - intros key f. split; [auto|]. intros Hl. by destruct (inv_loader0 _ _ Hl).
  - intros f Hw. destruct (inv_waiter0 _ Hw) as ([o|] & Ho & Hn); [left; eauto|right; auto].
Qed.

(** One slot: prepare key 1, publish, return and drop; then key 2 evicts it. *)
Definition demo0 : Cache nat := mkCache 1 ∅ 0 0 0 0 ∅ 0 [].
Definition demo1 : Cache nat := (start (λ _, true) [] 1%nat demo0).1.
Definition demo2 : Cache nat := drop_value 0 (return_elected 0 (finish 0 (Some (Ok tt)) demo1)).
Definition demo3 : Cache nat := (start (λ _, true) [1%nat] 2%nat demo2).1.

Lemma demo3_reachable : reachable demo3.
Proof.
  exists 1%nat, demo0. split; [reflexivity|].
  apply rtc_l with demo1; [eapply (step_start _ _ (λ _, true) [] 1%nat); apply surjective_pairing|].
  eapply rtc_l; [apply (step_finish _ 0 (Some (Ok tt)))|].
  eapply rtc_l; [apply (step_return _ 0)|]. eapply rtc_l; [apply (step_drop _ 0)|].
  apply rtc_once. eapply (step_start _ _ (λ _, true) [1%nat] 2%nat). apply surjective_pairing.
Qed.

Lemma plan_cache_bounded_single_flight_witness :
  evictions demo3 = 1 ∧ misses demo3 = 2 ∧ (size (entries demo3) ≤ 1)%nat.
Proof.
  split; [vm_compute; reflexivity|]. split; [vm_compute; reflexivity|].
  exact (proj1 (plan_cache_bounded_single_flight demo3 demo3_reachable)).
Defined.

End PlanCache.
