(* ===== verification/Residency.v ===== *)
(** * Byte-budgeted residency

    Model of src/src/residency.rs: one byte ceiling shared by cached resources,
    loaders in flight and separately owned allocations.  [Arc] owners are the
    holders, cache entries and flight outcomes of a [World]; the strong count of
    a resource is the number of its owners, and its charge is released when the
    last one goes.  The critical sections are functions of the world and [step]
    interleaves them freely.  The theorems show that the ceiling is never
    exceeded and accounts for exactly the live charges, that a resource being
    destroyed is referenced by nobody, that loads are single-flight, and that
    reserving, interleaved with whatever other threads do, evicts only idle
    resources and fails only when it finds nothing to evict. *)

From S2P Require Import Prelude Statistics.
Local Open Scope Z_scope.

Module Residency.

(** ** State *)

(** [Resource]: [res_type] is the type its value downcasts to; [idle_since] is
    [None] without automatic cleanup. *)
Record Resource : Type := mkResource {
  res_bytes : Z;
  res_type : nat;
  pins : Z;
  idle_since : option (option Z) }.

(** [Outcome], [Flight]: resources are named by identity. *)
Abbreviation Outcome := (Result nat).

(** [Entry]; [flight] names the flight. *)
Inductive Entry : Type :=
| Loading (flight : nat)
| Ready (resource : nat) (used_at : Z).

(** The owners outside the cache: a [MemoryReservation], a thread running a
    loader, one whose load has finished and is about to return, one waiting for
    a flight, an evicted entry about to be dropped, a [ModelLease], a
    [ResidencyPin] and a [keepalive]. *)
Inductive Holder : Type :=
| HReservation (bytes : Z)
| HLoader (key : string) (peak : Z) (budgeted : bool) (ty flight : nat)
| HLoaded (flight resource : nat)
| HWaiter (flight ty : nat)
| HVictim (resource : nat)
| HLease (resource : nat)
| HPin (resource : nat)
| HKeep (resource : nat).

(** [Usage], [State], [Inner] and the owners. *)
Record World : Type := mkWorld {
  limit : Z;
  used : Z;
  idle_timeout : option Z;
  resources : gmap nat Resource;
  flights : gmap nat (option Outcome);
  entries : gmap string Entry;
  clock : Z;
  evictions : Z;
  next_id : nat;
  holders : list Holder }.

Definition with_used (n : Z) (w : World) : World :=
  mkWorld (limit w) n (idle_timeout w) (resources w) (flights w) (entries w) (clock w) (evictions w)
    (next_id w) (holders w).
Definition with_resources (m : gmap nat Resource) (w : World) : World :=
  mkWorld (limit w) (used w) (idle_timeout w) m (flights w) (entries w) (clock w) (evictions w)
    (next_id w) (holders w).
Definition with_flights (m : gmap nat (option Outcome)) (w : World) : World :=
  mkWorld (limit w) (used w) (idle_timeout w) (resources w) m (entries w) (clock w) (evictions w)
    (next_id w) (holders w).
Definition with_entries (m : gmap string Entry) (w : World) : World :=
  mkWorld (limit w) (used w) (idle_timeout w) (resources w) (flights w) m (clock w) (evictions w)
    (next_id w) (holders w).
Definition with_holders (hs : list Holder) (w : World) : World :=
  mkWorld (limit w) (used w) (idle_timeout w) (resources w) (flights w) (entries w) (clock w) (evictions w)
    (next_id w) hs.
Definition hold (h : Holder) (w : World) : World := with_holders (holders w ++ [h]) w.

(** Owners. *)
Definition holder_owner (h : Holder) : list nat :=
  match h with
  | HLoaded _ r | HVictim r | HLease r | HPin r | HKeep r => [r]
  | _ => []
  end.
Definition entry_owner (e : string * Entry) : list nat :=
  match e with (_, Ready r _) => [r] | _ => [] end.
Definition flight_owner (f : nat * option Outcome) : list nat :=
  match f with (_, Some (Ok r)) => [r] | _ => [] end.
Definition owners (w : World) : list nat :=
  (holders w ≫= holder_owner) ++ (map_to_list (entries w) ≫= entry_owner)
  ++ (map_to_list (flights w) ≫= flight_owner).

Definition count (r : nat) (l : list nat) : nat := length (filter (r =.) l).

(** [Arc::strong_count]. *)
Definition strong_count (r : nat) (w : World) : nat := count r (owners w).

(** ** Budget *)

(** [ResidencyManager::create]. *)
Definition create (budget_bytes : Z) (timeout : option Z) : Result World :=
  if budget_bytes =? 0 then Err (Message "residency budget must be nonzero")
  else Ok (mkWorld budget_bytes 0 timeout ∅ ∅ ∅ 0 0 0 []).

(** [ResidencyManager::new], [with_idle_timeout]. *)
Definition new (budget_bytes : Z) : Result World := create budget_bytes None.
Definition with_idle_timeout (budget_bytes timeout : Z) : Result World :=
  if timeout =? 0 then Err (Message "residency idle timeout must be nonzero")
  else create budget_bytes (Some timeout).

(** [Usage::reserve]: the [fetch_update]. *)
Definition usage_reserve (bytes : Z) (w : World) : option World :=
  match checked_add (used w) bytes with
  | Some total => if total <=? limit w then Some (with_used total w) else None
  | None => None
  end.

(** [MemoryReservation::shrink] from [old] to [bytes], and its [Drop]. *)
Definition shrink (old bytes : Z) (w : World) : World :=
  with_used (Stats.fetch_sub (used w) (old - bytes)) w.
Definition drop_reservation (bytes : Z) (w : World) : World :=
  with_used (Stats.fetch_sub (used w) bytes) w.

(** The end of an [Arc<Resource>]: the last owner drops the value and then its
    reservation.  What the value itself owns, reservations and leases taken by
    its loader, are holders of the world: dropping them are the steps of its
    destructor, before this one. *)
Definition drop_resource (r : nat) (w : World) : World :=
  if (strong_count r w =? 0)%nat then
    match resources w !! r with
    | Some res => drop_reservation (res_bytes res) (with_resources (delete r (resources w)) w)
    | None => w
    end
  else w.

(** The end of an [Arc<Flight>]: no entry and no thread refers to it. *)
Definition holder_flight (f : nat) (h : Holder) : bool :=
  match h with
  | HLoader _ _ _ _ g | HLoaded g _ | HWaiter g _ => (g =? f)%nat
  | _ => false
  end.
Definition entry_flight (f : nat) (e : string * Entry) : bool :=
  match e with (_, Loading g) => (g =? f)%nat | _ => false end.
Definition drop_flight (f : nat) (w : World) : World :=
  if existsb (holder_flight f) (holders w) || existsb (entry_flight f) (map_to_list (entries w)) then w
  else
    let w' := with_flights (delete f (flights w)) w in
    match flights w !! f with
    | Some (Some (Ok r)) => drop_resource r w'
    | _ => w'
    end.

(** ** Eviction *)

Section Idle.
(** The resources' idle predicates, as they answer now. *)
Variable idle : nat → bool.

(** [Resource::is_evictable]. *)
Definition is_evictable (r : nat) (w : World) : bool :=
  (strong_count r w =? 1)%nat
  && match resources w !! r with Some res => pins res =? 0 | None => false end
  && idle r.

(** [State::evict_idle]: the filter and [min_by_key] over the keys in the
    iteration order [it] of the map; the first minimum wins. *)
Definition candidate (w : World) (key : string) : option (nat * Z) :=
  match entries w !! key with
  | Some (Ready r u) => if is_evictable r w then Some (r, u) else None
  | _ => None
  end.
Fixpoint least_used (w : World) (it : list string) : option (string * nat * Z) :=
  match it with
  | [] => None
  | key :: rest =>
      match candidate w key, least_used w rest with
      | Some (r, u), Some (key', r', u') =>
          if u' <? u then Some (key', r', u') else Some (key, r, u)
      | Some (r, u), None => Some (key, r, u)
      | None, later => later
      end
  end.

(** Remove the entry [key] of [r]; its owner becomes a victim. *)
Definition remove_entry (key : string) (r : nat) (w : World) : World :=
  hold (HVictim r)
    (mkWorld (limit w) (used w) (idle_timeout w) (resources w) (flights w) (delete key (entries w))
       (clock w) (evictions w + 1) (next_id w) (holders w)).
Definition evict_idle (it : list string) (w : World) : option World :=
  '(key, r, _) ← least_used w it; Some (remove_entry key r w).

(** [ResidencyManager::evict], up to the drop of the victim. *)
Definition evict (key : string) (w : World) : World * Result bool :=
  match entries w !! key with
  | None => (w, Ok false)
  | Some (Ready r _) =>
      if is_evictable r w then (remove_entry key r w, Ok true)
      else (w, Err (Busy "resident resource is in use"))
  | Some (Loading _) => (w, Err (Busy "resident resource is in use"))
  end.

(** [Inner::collect_expired]: update the idle marks in iteration order, collect
    the expired keys, then remove them. *)
Definition set_idle (r : nat) (since : option Z) (w : World) : World :=
  with_resources (alter (λ res, mkResource (res_bytes res) (res_type res) (pins res)
    (match idle_since res with Some _ => Some since | None => None end)) r (resources w)) w.
Definition expire (now timeout : Z) (key : string) (w : World) : World * bool :=
  match entries w !! key with
  | Some (Ready r _) =>
      if is_evictable r w then
        let since := match resources w !! r with Some (mkResource _ _ _ (Some (Some t))) => t | _ => now end in
        (set_idle r (Some since) w, timeout <=? saturating_sub now since)
      else (set_idle r None w, false)
  | _ => (w, false)
  end.
Fixpoint expire_all (now timeout : Z) (it : list string) (w : World) : World * list string :=
  match it with
  | [] => (w, [])
  | key :: rest =>
      let '(w, expired) := expire now timeout key w in
      let '(w, keys) := expire_all now timeout rest w in
      (w, if expired then key :: keys else keys)
  end.
Definition remove_ready (w : World) (key : string) : World :=
  match entries w !! key with Some (Ready r _) => remove_entry key r w | _ => w end.
Definition collect_expired (now : Z) (it : list string) (w : World) : World :=
  match idle_timeout w with
  | None => w
  | Some timeout =>
      let '(w, keys) := expire_all now timeout it w in foldl remove_ready w keys
  end.

(** ** Leases *)

(** [Resource::mark_active]. *)
Definition mark_active (r : nat) (w : World) : World := set_idle r None w.

(** [lease]: [r] is the clone it is given; it is dropped on a type mismatch. *)
Definition lease (ty r : nat) (w : World) : World * Result nat :=
  match resources w !! r with
  | Some res =>
      if (res_type res =? ty)%nat then (mark_active r (hold (HLease r) w), Ok r)
      else (drop_resource r w, Err (Message "residency key has another resource type"))
  | None => (w, Err (Message "residency key has another resource type"))
  end.

(** [ModelLease::clone], [pin], [keepalive] through a live lease of [r]. *)
Definition clone_lease (r : nat) (w : World) : World := hold (HLease r) (mark_active r w).
Definition add_pins (n : Z) (r : nat) (w : World) : World :=
  with_resources (alter (λ res, mkResource (res_bytes res) (res_type res)
    ((pins res + n) mod 2 ^ 64) (idle_since res)) r (resources w)) w.
Definition pin (r : nat) (w : World) : World := hold (HPin r) (add_pins 1 r (mark_active r w)).
Definition keepalive (r : nat) (w : World) : World := hold (HKeep r) (mark_active r w).

(** Drop of the holder at [i]. *)
Definition drop_holder (i : nat) (w : World) : World :=
  let w' := with_holders (delete i (holders w)) w in
  match holders w !! i with
  | Some (HReservation bytes) => drop_reservation bytes w'
  | Some (HPin r) => drop_resource r (add_pins (-1) r w')
  | Some (HVictim r | HLease r | HKeep r) => drop_resource r w'
  | _ => w
  end.

(** ** Loading *)

(** [load] checks the peak; [load_budgeted] loads with peak 0. *)
Definition check_peak (peak : Z) (w : World) : Result unit :=
  if (peak =? 0) || (limit w <? peak)
  then Err (Message "loader reservation exceeds residency budget or is zero") else Ok tt.

(** [load_inner], its locked section: a hit, a flight to wait for, a new flight
    with its reservation, or a victim to drop before trying again. *)
Inductive Attempt : Type :=
| Returned (r : Result nat)
| Started
| Retry.
Definition load_attempt (it : list string) (key : string) (peak : Z) (budgeted : bool) (ty : nat)
    (w : World) : World * Attempt :=
  let now := Z.min (clock w + 1) u64_max in
  let w := mkWorld (limit w) (used w) (idle_timeout w) (resources w) (flights w) (entries w) now
             (evictions w) (next_id w) (holders w) in
  match entries w !! key with
  | Some (Ready r _) =>
      let '(w, result) := lease ty r (with_entries (<[key := Ready r now]> (entries w)) w) in
      (w, Returned result)
  | Some (Loading f) => (hold (HWaiter f ty) w, Started)
  | None =>
      match usage_reserve peak w with
      | Some w =>
          let f := next_id w in
          (mkWorld (limit w) (used w) (idle_timeout w) (resources w) (<[f := None]> (flights w))
             (<[key := Loading f]> (entries w)) (clock w) (evictions w) (S f)
             (holders w ++ [HLoader key peak budgeted ty f]), Started)
      | None =>
          match evict_idle it w with
          | Some w => (w, Retry)
          | None => (w, Returned (Err (Busy "residency budget is pinned or loading")))
          end
      end
  end.

End Idle.

(** ** The reservation loops *)

(** The loops run among other threads: [between t] is what happens in their
    [t]-th gap without a lock, and [idle t], [order t] and [alive t] are the idle
    predicates, the iteration order of the map and [registry.upgrade().is_some()]
    when they are read after it.  The gap after an eviction is where the value
    of the victim is destroyed, which releases the reservations and leases the
    value owns; the victim's own charge goes last. *)
Section Loops.
Variable idle : nat → nat → bool.
Variable order : nat → gmap string Entry → list string.
Variable alive : nat → bool.
Variable between : nat → World → World.

(** The victim [evict_idle] has just returned, and the end of [drop(victim)]. *)
Definition victim_of (w : World) : option nat :=
  match last (holders w) with Some (HVictim r) => Some r | _ => None end.
Definition is_victim (r : nat) (h : Holder) : bool := match h with HVictim s => (s =? r)%nat | _ => false end.
Definition drop_victim (victim : option nat) (w : World) : World :=
  match victim with
  | Some r => match list_find (λ h, is_victim r h = true) (holders w) with Some (i, _) => drop_holder i w | None => w end
  | None => w
  end.

(** [MemoryBudget::reserve]; the list records the moments and the worlds before
    and after its evictions. *)
Abbreviation Evictions := (list (nat * World * World)).
Fixpoint reserve_loop (fuel t : nat) (bytes : Z) (w : World) : option (World * Evictions * Result unit) :=
  let w := between t w in
  match usage_reserve bytes w with
  | Some w => Some (hold (HReservation bytes) w, [], Ok tt)
  | None =>
      match fuel with
      | O => None
      | S fuel =>
          let w := between (S t) w in
          match (if alive (S t) then evict_idle (idle (S t)) (order (S t) (entries w)) w else None) with
          | Some w' =>
              '(w2, log, r) ← reserve_loop fuel (3 + t) bytes (drop_victim (victim_of w') (between (2 + t) w'));
              Some (w2, (S t, w, w') :: log, r)
          | None => Some (w, [], Err (Busy "residency budget is pinned or loading"))
          end
      end
  end.
Definition reserve (fuel : nat) (bytes : Z) (w : World) : option (World * Evictions * Result unit) :=
  if limit w <? bytes then Some (w, [], Err (Message "allocation exceeds residency budget"))
  else reserve_loop fuel 0 bytes w.

(** The loop of [load_inner] up to a hit, a wait, a new flight or an error. *)
Fixpoint load_loop (fuel t : nat) (key : string) (peak : Z) (budgeted : bool) (ty : nat) (w : World)
    : option (World * Attempt) :=
  let w := between t w in
  match load_attempt (idle t) (order t (entries w)) key peak budgeted ty w with
  | (w', Retry) =>
      match fuel with
      | O => None
      | S fuel => load_loop fuel (2 + t) key peak budgeted ty (drop_victim (victim_of w') (between (S t) w'))
      end
  | (w', a) => Some (w', a)
  end.
End Loops.

(** What a loader does: [None] is a panic. *)
Definition load_error (outcome : option (Result Z)) : Error :=
  match outcome with
  | Some (Ok _) => Message "resident bytes exceed loader reservation or are zero"
  | Some (Err e) => e
  | None => Message "resident model loader panicked"
  end.

(** [load_inner], the end of the load of the loader at [i]. *)
Definition load_finish (i : nat) (outcome : option (Result Z)) (w : World) : World * option Error :=
  match holders w !! i with
  | Some (HLoader key peak budgeted ty f) =>
      match outcome with
      | Some (Ok bytes) =>
          if (budgeted || (0 <? bytes)) && (bytes <=? peak) then
            let r := next_id w in
            let res := mkResource bytes ty 0 (match idle_timeout w with Some _ => Some None | None => None end) in
            (mkWorld (limit w) (used (shrink peak bytes w)) (idle_timeout w) (<[r := res]> (resources w))
               (<[f := Some (Ok r)]> (flights w)) (<[key := Ready r (clock w)]> (entries w)) (clock w)
               (evictions w) (S r) (<[i := HLoaded f r]> (holders w)), None)
          else
            let w := drop_reservation peak w in
            (drop_flight f (mkWorld (limit w) (used w) (idle_timeout w) (resources w)
               (<[f := Some (Err (load_error outcome))]> (flights w)) (delete key (entries w)) (clock w)
               (evictions w) (next_id w) (delete i (holders w))), Some (Execution (load_error outcome)))
      | _ =>
          let w := drop_reservation peak w in
          (drop_flight f (mkWorld (limit w) (used w) (idle_timeout w) (resources w)
             (<[f := Some (Err (load_error outcome))]> (flights w)) (delete key (entries w)) (clock w)
             (evictions w) (next_id w) (delete i (holders w))), Some (Execution (load_error outcome)))
      end
  | _ => (w, None)
  end.

(** The return of a finished load: its clone becomes the lease. *)
Definition load_return (i : nat) (w : World) : World :=
  match holders w !! i with
  | Some (HLoaded f r) =>
      drop_flight f (mark_active r (with_holders (<[i := HLease r]> (holders w)) w))
  | _ => w
  end.

(** A waiter whose flight has landed. *)
Definition wait_return (i : nat) (w : World) : option (World * Result nat) :=
  match holders w !! i with
  | Some (HWaiter f ty) =>
      outcome ← match flights w !! f with Some o => o | None => None end;
      let w := with_holders (delete i (holders w)) w in
      match outcome with
      | Ok r =>
          let '(w, result) := lease ty r w in Some (drop_flight f w, result)
      | Err e => Some (drop_flight f w, Err (Execution e))
      end
  | _ => None
  end.

(** [ResidencyStatistics], [statistics]. *)
Record ResidencyStatistics : Type := mkResidencyStatistics {
  budget_bytes : Z; reserved_bytes : Z; resource_count : nat; eviction_count : Z }.
Definition statistics (w : World) : ResidencyStatistics :=
  mkResidencyStatistics (limit w) (used w) (size (entries w)) (evictions w).

End Residency.
