(* ===== verification/ResidencyTheorems.v ===== *)
(** * Residency: the ceiling and the owners

    Invariants of [Residency] under every interleaving of its critical
    sections, and the behaviour of the reservation loop. *)

From S2P Require Import Prelude Statistics Residency.
Local Open Scope Z_scope.

Module ResidencyProofs.
Import Residency.

(** ** Steps *)

Definition keys (w : World) : list string := (map_to_list (entries w)).*1.

(** The client steps; iteration orders and idle answers are arbitrary, byte
    counts are [usize] values. *)
Inductive step : World → World → Prop :=
| step_reserve w w' bytes :
    0 <= bytes → usage_reserve bytes w = Some w' → step w (hold (HReservation bytes) w')
| step_evict_idle w w' idle it : evict_idle idle it w = Some w' → step w w'
| step_evict w w' idle key r : evict idle key w = (w', r) → step w w'
| step_collect w idle now it : NoDup it → step w (collect_expired idle now it w)
| step_load w w' idle it key peak budgeted ty a :
    0 <= peak → load_attempt idle it key peak budgeted ty w = (w', a) → step w w'
| step_finish w w' i outcome e :
    (∀ n, outcome = Some (Ok n) → 0 <= n) → load_finish i outcome w = (w', e) → step w w'
| step_return w i : step w (load_return i w)
| step_wait w w' i r : wait_return i w = Some (w', r) → step w w'
| step_clone w r : HLease r ∈ holders w → step w (clone_lease r w)
| step_pin w r : HLease r ∈ holders w → step w (pin r w)
| step_keepalive w r : HLease r ∈ holders w → step w (keepalive r w)
| step_drop w i : step w (drop_holder i w).

Definition reachable (w : World) : Prop :=
  ∃ budget timeout w0, 0 <= budget <= usize_max ∧ create budget timeout = Ok w0 ∧ rtc step w0 w.

(** ** Counting owners *)

Definition held (r : nat) (hs : list Holder) : nat := count r (hs ≫= holder_owner).
Definition cached (r : nat) (es : gmap string Entry) : nat := count r (map_to_list es ≫= entry_owner).
Definition landed (r : nat) (fs : gmap nat (option Outcome)) : nat :=
  count r (map_to_list fs ≫= flight_owner).

Lemma count_app r l k : count r (l ++ k) = (count r l + count r k)%nat.
Proof. unfold count. by rewrite filter_app, length_app. Qed.

Lemma count_one r s : count r [s] = if decide (r = s) then 1%nat else 0%nat.
Proof. unfold count. rewrite filter_cons. by case_decide. Qed.

Lemma strong_count_parts r w :
  strong_count r w = (held r (holders w) + cached r (entries w) + landed r (flights w))%nat.
Proof. unfold strong_count, owners. rewrite !count_app. unfold held, cached, landed. lia. Qed.

Global Arguments strong_count : simpl never.

Lemma count_bind_perm {A} (f : A → list nat) r l k :
  l ≡ₚ k → count r (l ≫= f) = count r (k ≫= f).
Proof.
  induction 1 as [|x l k _ IH|x y l|l k m _ IH1 _ IH2]; rewrite ?bind_cons, ?count_app; try lia.
Qed.

Lemma held_app r hs ks : held r (hs ++ ks) = (held r hs + held r ks)%nat.
Proof. unfold held. by rewrite bind_app, count_app. Qed.

Lemma held_one r h : held r [h] = count r (holder_owner h).
Proof. unfold held. simpl. by rewrite app_nil_r. Qed.

Lemma held_delete r hs i h :
  hs !! i = Some h → held r hs = (count r (holder_owner h) + held r (delete i hs))%nat.
Proof.
  intros Hi. unfold held. rewrite (count_bind_perm _ r hs (h :: delete i hs))
    by by apply delete_Permutation. by rewrite bind_cons, count_app.
Qed.

Lemma held_insert r hs i h h' :
  hs !! i = Some h → held r (<[i := h']> hs) = (count r (holder_owner h') + held r (delete i hs))%nat.
Proof.
  intros Hi. unfold held. rewrite (count_bind_perm _ r _ (h' :: delete i hs))
    by by eapply insert_Permutation. by rewrite bind_cons, count_app.
Qed.

Lemma cached_insert r es k e :
  es !! k = None → cached r (<[k := e]> es) = (count r (entry_owner (k, e)) + cached r es)%nat.
Proof.
  intros Hk. unfold cached. rewrite (count_bind_perm _ r _ ((k, e) :: map_to_list es))
    by by apply map_to_list_insert. by rewrite bind_cons, count_app.
Qed.

Lemma cached_delete r es k e :
  es !! k = Some e → cached r es = (count r (entry_owner (k, e)) + cached r (delete k es))%nat.
Proof.
  intros Hk. rewrite <-(insert_delete_id es k e Hk) at 1. apply cached_insert, lookup_delete_eq.
Qed.

Lemma cached_replace r es k e :
  cached r (<[k := e]> es) = (count r (entry_owner (k, e)) + cached r (delete k es))%nat.
Proof. rewrite <-insert_delete_eq. apply cached_insert, lookup_delete_eq. Qed.

Lemma landed_insert r fs k o :
  fs !! k = None → landed r (<[k := o]> fs) = (count r (flight_owner (k, o)) + landed r fs)%nat.
Proof.
  intros Hk. unfold landed. rewrite (count_bind_perm _ r _ ((k, o) :: map_to_list fs))
    by by apply map_to_list_insert. by rewrite bind_cons, count_app.
Qed.

Lemma landed_delete r fs k o :
  fs !! k = Some o → landed r fs = (count r (flight_owner (k, o)) + landed r (delete k fs))%nat.
Proof.
  intros Hk. rewrite <-(insert_delete_id fs k o Hk) at 1. apply landed_insert, lookup_delete_eq.
Qed.

Lemma landed_replace r fs k o :
  landed r (<[k := o]> fs) = (count r (flight_owner (k, o)) + landed r (delete k fs))%nat.
Proof. rewrite <-insert_delete_eq. apply landed_insert, lookup_delete_eq. Qed.

(** ** The invariant *)

Definition holder_charge (h : Holder) : Z :=
  match h with HReservation bytes => bytes | HLoader _ peak _ _ _ => peak | _ => 0 end.

Definition loader_key (h : Holder) : option string :=
  match h with HLoader key _ _ _ _ => Some key | _ => None end.
Definition loader_flight (h : Holder) : option nat :=
  match h with HLoader _ _ _ _ f => Some f | _ => None end.

(** [loose] is a resource whose last owner has just gone. *)
Record Inv (loose : option nat) (w : World) : Prop := {
  inv_used : used w = zsum holder_charge (holders w) + msum res_bytes (resources w);
  inv_limit : used w <= limit w <= usize_max;
  inv_charges : Forall (λ h, 0 <= holder_charge h) (holders w);
  inv_bytes : ∀ r res, resources w !! r = Some res → 0 <= res_bytes res;
  inv_owned : ∀ r, (0 < strong_count r w)%nat → is_Some (resources w !! r);
  inv_live : ∀ r, is_Some (resources w !! r) → (0 < strong_count r w)%nat ∨ loose = Some r;
  inv_fresh_resource : ∀ r, is_Some (resources w !! r) → (r < next_id w)%nat;
  inv_fresh_flight : ∀ f, is_Some (flights w !! f) → (f < next_id w)%nat;
  inv_victim : ∀ r, HVictim r ∈ holders w → strong_count r w = 1%nat;
  inv_loader : ∀ key peak b ty f, HLoader key peak b ty f ∈ holders w →
    entries w !! key = Some (Loading f) ∧ flights w !! f = Some None;
  inv_loader_keys : NoDup (omap loader_key (holders w));
  inv_loader_flights : NoDup (omap loader_flight (holders w));
  inv_loading : ∀ key f, entries w !! key = Some (Loading f) →
    ∃ peak b ty, HLoader key peak b ty f ∈ holders w;
  inv_waiter : ∀ f ty, HWaiter f ty ∈ holders w →
    ∃ o, flights w !! f = Some o
      ∧ (o = None → ∃ key peak b ty', HLoader key peak b ty' f ∈ holders w) }.

Lemma create_inv budget timeout w :
  0 <= budget <= usize_max → create budget timeout = Ok w → Inv None w.
Proof.
  unfold create. intros Hb. destruct (Z.eqb_spec budget 0); [done|]. intros [= <-].
  assert (H0 : ∀ r, strong_count r (mkWorld budget 0 timeout ∅ ∅ ∅ 0 0 0 []) = 0%nat) by done.
  split; simpl; try done; try lia; try (intros *; rewrite ?lookup_empty; done);
    try by constructor.
  all: try (intros r; rewrite H0; lia).
  all: try (intros r [? Hr]; by rewrite lookup_empty in Hr).
  all: intros * ?%elem_of_nil; done.
Qed.

(** Changing marks or pins of a resource. *)
Lemma Inv_alter loose r g w :
  (∀ res, res_bytes (g res) = res_bytes res) →
  Inv loose w → Inv loose (with_resources (alter g r (resources w)) w).
Proof.
  intros Hg [].
  assert (His : ∀ s, is_Some (alter g r (resources w) !! s) ↔ is_Some (resources w !! s)).
  { intros s. destruct (decide (s = r)) as [->|].
    - rewrite lookup_alter_eq. apply fmap_is_Some.
    - by rewrite lookup_alter_ne. }
  split; simpl; try done; try setoid_rewrite His; try done.
  - by rewrite msum_alter.
  - intros s res Hs. destruct (decide (s = r)) as [->|].
    + rewrite lookup_alter_eq in Hs. destruct (resources w !! r) as [res0|] eqn:Hr; [|done].
      injection Hs as <-. rewrite Hg. by eapply inv_bytes0.
    + rewrite lookup_alter_ne in Hs by done. by eapply inv_bytes0.
Qed.

Lemma Inv_mark loose r w : Inv loose w → Inv loose (mark_active r w).
Proof. by apply Inv_alter. Qed.

Lemma Inv_add_pins loose n r w : Inv loose w → Inv loose (add_pins n r w).
Proof. by apply Inv_alter. Qed.

Lemma fetch_sub_exact a b : 0 <= b <= a → a <= usize_max → Stats.fetch_sub a b = a - b.
Proof. unfold Stats.fetch_sub, usize_max. intros. apply Z.mod_small. lia. Qed.

(** The charge of a resource is covered by the total. *)
Lemma Inv_charge_le loose w : Inv loose w → 0 <= zsum holder_charge (holders w) ∧ 0 <= msum res_bytes (resources w).
Proof.
  intros HI. split; [by apply zsum_nonneg, HI|]. apply msum_nonneg. intros r res. by eapply inv_bytes.
Qed.

Lemma msum_delete_nonneg w r loose :
  Inv loose w → 0 <= msum res_bytes (delete r (resources w)).
Proof.
  intros HI. apply msum_nonneg. intros s res [_ Hs]%lookup_delete_Some. by eapply inv_bytes.
Qed.

(** Dropping the last owner of [r] releases its charge. *)
Lemma Inv_drop_resource r w : Inv (Some r) w → Inv None (drop_resource r w).
Proof.
  intros HI. pose proof HI as []. unfold drop_resource.
  destruct (Nat.eqb_spec (strong_count r w) 0) as [H0|H0].
  2: { split; try done. intros s Hs. destruct (inv_live0 s Hs) as [|[= ->]]; left; lia. }
  destruct (resources w !! r) as [res|] eqn:Hr.
  2: { split; try done. intros s Hs. destruct (inv_live0 s Hs) as [|[= ->]]; [by left|].
       rewrite Hr in Hs. by destruct Hs. }
  pose proof (msum_delete res_bytes _ _ _ Hr) as Hsum.
  pose proof (msum_delete_nonneg w r _ HI). pose proof (Inv_charge_le _ _ HI) as [? _].
  pose proof (inv_bytes0 _ _ Hr).
  assert (Hu : Stats.fetch_sub (used w) (res_bytes res) = used w - res_bytes res)
    by (apply fetch_sub_exact; lia).
  assert (His : ∀ s, is_Some (delete r (resources w) !! s) ↔ s ≠ r ∧ is_Some (resources w !! s)).
  { intros s. destruct (decide (s = r)) as [->|].
    - rewrite lookup_delete_eq. split; [by intros []|tauto].
    - rewrite lookup_delete_ne by done. tauto. }
  split; simpl; try done; rewrite ?Hu; try lia.
  - intros s res' [_ Hs]%lookup_delete_Some. by eapply inv_bytes0.
  - intros s Hs. rewrite His. change (strong_count s _) with (strong_count s w) in Hs.
    split; [|by apply inv_owned0]. intros ->. lia.
  - intros s [Hne Hs]%His. destruct (inv_live0 s Hs) as [|[= ->]]; [by left|done].
  - intros s [_ Hs]%His. auto.
Qed.

Lemma Inv_weaken r w : Inv None w → Inv (Some r) w.
Proof. intros []. split; try done. intros s Hs. destruct (inv_live0 s Hs); [by left|done]. Qed.

Lemma drop_resource_holders r w : holders (drop_resource r w) = holders w.
Proof. unfold drop_resource. destruct (_ =? _)%nat; [|done]. by destruct (resources w !! r). Qed.

(** Dropping the last reference of a flight releases its outcome. *)
Lemma residency_drop_flight f w : Inv None w → Inv None (drop_flight f w).
Proof.
  intros HI. unfold drop_flight.
  destruct (existsb (holder_flight f) (holders w) || _) eqn:Eref; [done|].
  apply orb_false_iff in Eref as [Eh Ee].
  assert (Hno : ∀ h, h ∈ holders w → holder_flight f h = false).
  { intros h Hh. destruct (holder_flight f h) eqn:Ef; [|done].
    rewrite (proj2 (existsb_exists _ _)) in Eh; [done|]. exists h. by rewrite <-list_elem_of_In. }
  assert (Hgen : ∀ loose, (∀ r, (strong_count r (with_flights (delete f (flights w)) w) ≤ strong_count r w)%nat
      ∧ (strong_count r w ≤ strong_count r (with_flights (delete f (flights w)) w) + if decide (loose = Some r) then 1 else 0)%nat) →
    Inv loose (with_flights (delete f (flights w)) w)).
  { intros loose Hc. destruct HI. split; simpl; try done.
    - intros r Hr. apply inv_owned0. specialize (Hc r). lia.
    - intros r Hr. destruct (inv_live0 r Hr) as [Hs|]; [|done]. specialize (Hc r).
      case_decide; [by right|left; lia].
    - intros g [o [_ Hg]%lookup_delete_Some]. apply inv_fresh_flight0. by exists o.
    - intros r Hr. specialize (inv_victim0 r Hr) as H1. specialize (Hc r).
      assert (Hh : (1 ≤ held r (holders w))%nat).
      { apply list_elem_of_lookup in Hr as [i Hi]. rewrite (held_delete r _ i _ Hi). simpl.
        rewrite count_one, decide_True by done. lia. }
      pose proof (strong_count_parts r (with_flights (delete f (flights w)) w)) as Hp. simpl in Hp. lia.
    - intros key peak b ty g Hl. destruct (inv_loader0 _ _ _ _ _ Hl) as [H1 H2]. split; [done|].
      rewrite lookup_delete_ne; [done|]. intros <-. apply Hno in Hl. simpl in Hl.
      by rewrite Nat.eqb_refl in Hl.
    - intros g ty Hw. destruct (inv_waiter0 _ _ Hw) as (o & Hg & Ho). exists o. split; [|done].
      rewrite lookup_delete_ne; [done|]. intros <-. apply Hno in Hw. simpl in Hw.
      by rewrite Nat.eqb_refl in Hw. }
  assert (Hsame : ∀ o, flights w !! f = Some o → ∀ r, strong_count r w
    = (count r (flight_owner (f, o)) + strong_count r (with_flights (delete f (flights w)) w))%nat).
  { intros o Ho r. rewrite !strong_count_parts, (landed_delete r _ _ _ Ho). simpl. lia. }
  destruct (flights w !! f) as [[[r|e]|]|] eqn:Ef.
  - apply Inv_drop_resource, Hgen. intros s. rewrite (Hsame _ eq_refl s). simpl. rewrite count_one.
    repeat case_decide; try lia; congruence.
  - apply Hgen. intros s. rewrite (Hsame _ eq_refl s). simpl. change (count s []) with 0%nat. repeat case_decide; lia.
  - apply Hgen. intros s. rewrite (Hsame _ eq_refl s). simpl. change (count s []) with 0%nat. repeat case_decide; lia.
  - apply Hgen. intros s. rewrite !strong_count_parts. simpl. rewrite delete_id by done. lia.
Qed.

(** A victim has no other owner. *)
Lemma held_elem r h hs : h ∈ hs → r ∈ holder_owner h → (1 ≤ held r hs)%nat.
Proof.
  intros [i Hi]%list_elem_of_lookup Hr. rewrite (held_delete r hs i h Hi).
  destruct h; simpl in Hr; try by apply elem_of_nil in Hr.
  all: apply list_elem_of_singleton in Hr as ->; simpl; rewrite count_one, decide_True by done; lia.
Qed.

Lemma victim_alone loose w r :
  Inv loose w → HVictim r ∈ holders w →
  held r (holders w) = 1%nat ∧ cached r (entries w) = 0%nat ∧ landed r (flights w) = 0%nat.
Proof.
  intros HI Hv. pose proof (inv_victim _ _ HI r Hv) as H1. rewrite strong_count_parts in H1.
  pose proof (held_elem r _ _ Hv ltac:(by left)). lia.
Qed.

Lemma victim_not_held loose w r h :
  Inv loose w → HVictim r ∈ holders w → h ∈ holders w → r ∈ holder_owner h → h = HVictim r.
Proof.
  intros HI Hv Hh Hr. destruct (victim_alone _ _ _ HI Hv) as (H1 & _).
  apply list_elem_of_lookup in Hv as [i Hi]. rewrite (held_delete r _ i _ Hi) in H1. simpl in H1.
  rewrite count_one, decide_True in H1 by done.
  rewrite (delete_Permutation _ _ _ Hi) in Hh. apply elem_of_cons in Hh as [->|Hh]; [done|].
  pose proof (held_elem r h _ Hh Hr). lia.
Qed.

(** Clock and eviction count play no part. *)
Definition with_clock (c e : Z) (w : World) : World :=
  mkWorld (limit w) (used w) (idle_timeout w) (resources w) (flights w) (entries w) c e (next_id w) (holders w).

Lemma Inv_clock loose c e w : Inv loose w → Inv loose (with_clock c e w).
Proof. intros []. by split. Qed.

(** A holder that only owns a resource, and is no victim. *)
Definition plain (h : Holder) (r : nat) : Prop := h = HLease r ∨ h = HPin r ∨ h = HKeep r.

Lemma Inv_hold loose h r w :
  plain h r → is_Some (resources w !! r) → HVictim r ∉ holders w → Inv loose w → Inv loose (hold h w).
Proof.
  intros Hp Hr Hv [].
  assert (Hc : ∀ s, strong_count s (hold h w) = (strong_count s w + if decide (s = r) then 1 else 0)%nat).
  { intros s. rewrite !strong_count_parts. simpl. rewrite held_app, held_one.
    destruct Hp as [->|[->| ->]]; simpl; rewrite count_one; lia. }
  assert (Hin : ∀ h', h' ∈ holders w ++ [h] ↔ h' ∈ holders w ∨ h' = h).
  { intros h'. rewrite elem_of_app, list_elem_of_singleton. done. }
  assert (Hom : ∀ {B} (g : Holder → option B), g h = None → omap g (holders w ++ [h]) = omap g (holders w)).
  { intros B g Hg. rewrite omap_app. simpl. rewrite Hg. by rewrite app_nil_r. }
  split; simpl; try done.
  - rewrite zsum_app. simpl. destruct Hp as [->|[->| ->]]; simpl; lia.
  - apply Forall_app_2; [done|]. repeat constructor. destruct Hp as [->|[->| ->]]; simpl; lia.
  - intros s. rewrite Hc. case_decide as Hs; [by rewrite Hs|]. rewrite Nat.add_0_r. auto.
  - intros s Hs. rewrite Hc. destruct (inv_live0 s Hs); [left; lia|by right].
  - intros s. rewrite Hin, Hc. intros [Hvs| <-]; [|by destruct Hp as [?|[?|?]]].
    rewrite decide_False by (intros ->; done). rewrite inv_victim0 by done. done.
  - intros * [Hl| <-]%Hin; [eauto|by destruct Hp as [?|[?|?]]].
  - rewrite Hom; [done|]. by destruct Hp as [->|[->| ->]].
  - rewrite Hom; [done|]. by destruct Hp as [->|[->| ->]].
  - intros key f Hk. destruct (inv_loading0 _ _ Hk) as (? & ? & ? & ?). do 3 eexists. apply Hin. by left.
  - intros f ty [Hw| <-]%Hin; [|by destruct Hp as [?|[?|?]]].
    destruct (inv_waiter0 _ _ Hw) as (o & Ho & Hl). exists o. split; [done|]. intros Hn.
    destruct (Hl Hn) as (? & ? & ? & ? & ?). do 4 eexists. apply Hin. by left.
Qed.

(** A reservation is charged within the ceiling. *)
Lemma Inv_reserve bytes w w' :
  0 <= bytes → Inv None w → usage_reserve bytes w = Some w' → Inv None (hold (HReservation bytes) w').
Proof.
  unfold usage_reserve. intros Hb [] Hu. destruct (checked_add _ _) as [total|] eqn:E; [|done].
  apply checked_add_Some in E as [-> _]. destruct (Z.leb_spec (used w + bytes) (limit w)); [|done].
  injection Hu as <-.
  assert (Hc : ∀ s, strong_count s (hold (HReservation bytes) (with_used (used w + bytes) w)) = strong_count s w).
  { intros s. rewrite !strong_count_parts. simpl. rewrite held_app, held_one. simpl.
    change (count s []) with 0%nat. lia. }
  assert (Hin : ∀ h', h' ∈ holders w ++ [HReservation bytes] ↔ h' ∈ holders w ∨ h' = HReservation bytes).
  { intros h'. rewrite elem_of_app, list_elem_of_singleton. done. }
  split; simpl; try done; rewrite ?Hc; try setoid_rewrite Hc; try setoid_rewrite Hin.
  - rewrite zsum_app. simpl. lia.
  - lia.
  - apply Forall_app_2; [done|]. repeat constructor. done.
  - done.
  - done.
  - intros r [?|?]; [auto|done].
  - intros * [?|?]; [eauto|done].
  - by rewrite omap_app, app_nil_r.
  - by rewrite omap_app, app_nil_r.
  - intros key f Hk. destruct (inv_loading0 _ _ Hk) as (? & ? & ? & ?). eauto 10.
  - intros f ty [Hw|?]; [|done]. destruct (inv_waiter0 _ _ Hw) as (o & Ho & Hl). exists o.
    split; [done|]. intros Hn. destruct (Hl Hn) as (? & ? & ? & ? & ?). eauto 10.
Qed.

(** Removing a holder that is no loader. *)
Lemma Inv_remove i h w :
  holders w !! i = Some h → loader_key h = None → Inv None w →
  Inv (head (holder_owner h)) (with_used (used w - holder_charge h) (with_holders (delete i (holders w)) w)).
Proof.
  intros Hi Hk []. pose proof (delete_Permutation _ _ _ Hi) as Hperm.
  assert (Hf : loader_flight h = None) by by destruct h.
  assert (Hin : ∀ h', h' ∈ delete i (holders w) → h' ∈ holders w).
  { intros h' Hh. rewrite Hperm. by right. }
  assert (Hld : ∀ key peak b ty f, HLoader key peak b ty f ∈ holders w →
    HLoader key peak b ty f ∈ delete i (holders w)).
  { intros * Hl. rewrite Hperm in Hl. by apply elem_of_cons in Hl as [<-|?]. }
  set (w' := with_used (used w - holder_charge h) (with_holders (delete i (holders w)) w)).
  assert (Hc : ∀ s, strong_count s w = (count s (holder_owner h) + strong_count s w')%nat).
  { intros s. rewrite !strong_count_parts. simpl. rewrite (held_delete s _ _ _ Hi). lia. }
  assert (Hz : zsum holder_charge (holders w) = holder_charge h + zsum holder_charge (delete i (holders w)))
    by by rewrite (zsum_perm _ _ _ Hperm).
  assert (Hpos : 0 <= holder_charge h).
  { rewrite Forall_forall in inv_charges0. apply inv_charges0. by eapply list_elem_of_lookup_2. }
  split; subst w'; simpl; try done.
  - lia.
  - lia.
  - rewrite Forall_forall in *. auto.
  - intros s Hs. apply inv_owned0. rewrite Hc. lia.
  - intros s Hs. destruct (inv_live0 s Hs) as [Hlive|]; [|done]. rewrite Hc in Hlive.
    destruct (holder_owner h) as [|r [|]] eqn:Ho; try by (destruct h; done).
    + left. exact Hlive.
    + rewrite count_one in Hlive. case_decide as Hsr; [right; by rewrite Hsr|left; exact Hlive].
  - intros r Hv. pose proof (inv_victim0 r (Hin _ Hv)) as H1. rewrite Hc in H1.
    pose proof (held_elem r _ _ Hv ltac:(by left)).
    pose proof (strong_count_parts r (with_used (used w - holder_charge h) (with_holders (delete i (holders w)) w))) as Hp.
    simpl in Hp. lia.
  - intros * Hl. eauto.
  - rewrite (omap_Permutation _ _ _ Hperm) in inv_loader_keys0. simpl in inv_loader_keys0. by rewrite Hk in inv_loader_keys0.
  - rewrite (omap_Permutation _ _ _ Hperm) in inv_loader_flights0. simpl in inv_loader_flights0. by rewrite Hf in inv_loader_flights0.
  - intros key f Hkey. destruct (inv_loading0 _ _ Hkey) as (? & ? & ? & ?). eauto.
  - intros f ty Hw. destruct (inv_waiter0 f ty (Hin _ Hw)) as (o & Ho & Hl). exists o. split; [done|].
    intros Hn. destruct (Hl Hn) as (? & ? & ? & ? & ?). eauto 10.
Qed.

(** Moving the owner of an evictable entry to a victim. *)
Lemma Inv_remove_entry key r u w :
  entries w !! key = Some (Ready r u) → strong_count r w = 1%nat → Inv None w →
  Inv None (remove_entry key r w).
Proof.
  intros Hk H1 HI. pose proof HI as []. unfold remove_entry. set (w' := hold _ _).
  assert (Hc : ∀ s, strong_count s w' = strong_count s w).
  { intros s. rewrite !strong_count_parts. simpl. rewrite held_app, held_one, (cached_delete s _ _ _ Hk).
    simpl. lia. }
  assert (Hin : ∀ h', h' ∈ holders w ++ [HVictim r] ↔ h' ∈ holders w ∨ h' = HVictim r).
  { intros h'. rewrite elem_of_app, list_elem_of_singleton. done. }
  assert (Hother : ∀ k f, entries w !! k = Some (Loading f) → delete key (entries w) !! k = Some (Loading f)).
  { intros k f Hf. rewrite lookup_delete_ne; [done|]. intros <-. congruence. }
  split; subst w'; simpl; try done; try setoid_rewrite Hc; try setoid_rewrite Hin; try done.
  - rewrite zsum_app. simpl. lia.
  - apply Forall_app_2; [done|]. by repeat constructor.
  - intros s [?|[= ->]]; auto.
  - intros * [Hl|?]; [|done]. destruct (inv_loader0 _ _ _ _ _ Hl). auto.
  - by rewrite omap_app, app_nil_r.
  - by rewrite omap_app, app_nil_r.
  - intros k f [_ Hf]%lookup_delete_Some. destruct (inv_loading0 _ _ Hf) as (? & ? & ? & ?). eauto 10.
  - intros f ty [Hw|?]; [|done]. destruct (inv_waiter0 _ _ Hw) as (o & Ho & Hl). exists o.
    split; [done|]. intros Hn. destruct (Hl Hn) as (? & ? & ? & ? & ?). eauto 10.
Qed.

Lemma is_evictable_alone idle r w : is_evictable idle r w = true → strong_count r w = 1%nat.
Proof. unfold is_evictable. intros H. to_prop. done. Qed.

(** The chosen victim is evictable and least recently used. *)
Lemma least_used_spec idle w it key r u :
  least_used idle w it = Some (key, r, u) →
  key ∈ it ∧ entries w !! key = Some (Ready r u) ∧ is_evictable idle r w = true
  ∧ ∀ key' r' u', key' ∈ it → entries w !! key' = Some (Ready r' u') → is_evictable idle r' w = true → u <= u'.
Proof.
  assert (Hcand : ∀ k r u, candidate idle w k = Some (r, u) ↔
    entries w !! k = Some (Ready r u) ∧ is_evictable idle r w = true).
  { intros k r0 u0. unfold candidate. destruct (entries w !! k) as [[|r1 u1]|]; [naive_solver| |naive_solver].
    destruct (is_evictable idle r1 w) eqn:E; (split; [intros [= <- <-]|intros [[= <- <-] ?]]); try done.
    congruence. }
  assert (Hnone : ∀ l, least_used idle w l = None → ∀ k, k ∈ l → candidate idle w k = None).
  { induction l as [|k l IH]; intros Hn k' Hk'; [by apply elem_of_nil in Hk'|]. simpl in Hn.
    destruct (candidate idle w k) as [[r0 u0]|] eqn:Ek;
      [destruct (least_used idle w l) as [[[? ?] ?]|]; [destruct (_ <? _)|]; done|].
    apply elem_of_cons in Hk' as [->|Hk']; [done|by apply IH]. }
  revert key r u. induction it as [|k it IH]; intros key r u Hl; simpl in Hl; [done|].
  destruct (candidate idle w k) as [[r0 u0]|] eqn:Ek.
  - apply Hcand in Ek as [Hk He].
    destruct (least_used idle w it) as [[[k1 r1] u1]|] eqn:El.
    + destruct (IH _ _ _ eq_refl) as (Hin & Hk1 & He1 & Hmin).
      destruct (Z.ltb_spec u1 u0); injection Hl as <- <- <-; split_and!; try done; try (by left); try by right.
      * intros k' r' u' [->|Hk']%elem_of_cons Hr' He'; [|by eapply Hmin].
        rewrite Hk in Hr'. injection Hr' as <- <-. lia.
      * intros k' r' u' [->|Hk']%elem_of_cons Hr' He'; [|etrans; [|by eapply Hmin]; lia].
        rewrite Hk in Hr'. injection Hr' as <- <-. lia.
    + injection Hl as <- <- <-. split_and!; [by left|done|done|].
      intros k' r' u' [->|Hk']%elem_of_cons Hr' He'; [rewrite Hk in Hr'; injection Hr' as <- <-; lia|].
      pose proof (Hnone it El k' Hk') as Hn. rewrite (proj2 (Hcand k' r' u')) in Hn; done.
  - destruct (IH _ _ _ Hl) as (Hin & Hk1 & He1 & Hmin). split_and!; [by right|done|done|].
    intros k' r' u' [->|Hk']%elem_of_cons Hr' He'; [|by eapply Hmin].
    rewrite (proj2 (Hcand k r' u')) in Ek; done.
Qed.

Lemma least_used_None idle w it key r u :
  least_used idle w it = None → key ∈ it → entries w !! key = Some (Ready r u) →
  is_evictable idle r w = false.
Proof.
  revert key. induction it as [|k it IH]; intros key Hn Hk He; [by apply elem_of_nil in Hk|]. simpl in Hn.
  apply elem_of_cons in Hk as [->|Hk].
  - unfold candidate in Hn. rewrite He in Hn. destruct (is_evictable idle r w); [|done].
    destruct (least_used idle w it) as [[[? ?] ?]|]; [destruct (_ <? _)|]; done.
  - destruct (candidate idle w k) as [[? ?]|]; [|by eapply IH].
    destruct (least_used idle w it) as [[[? ?] ?]|]; [destruct (_ <? _)|]; done.
Qed.

Lemma Inv_evict_idle idle it w w' : Inv None w → evict_idle idle it w = Some w' → Inv None w'.
Proof.
  unfold evict_idle. intros HI He. destruct (least_used idle w it) as [[[key r] u]|] eqn:El; [|done].
  injection He as <-. destruct (least_used_spec _ _ _ _ _ _ El) as (_ & Hk & Hev & _).
  eapply Inv_remove_entry; [done|by eapply is_evictable_alone|done].
Qed.

Lemma Inv_evict idle key w w' r : Inv None w → evict idle key w = (w', r) → Inv None w'.
Proof.
  unfold evict. intros HI He. destruct (entries w !! key) as [[f|s u]|] eqn:Ek; simplify_eq; try done.
  destruct (is_evictable idle s w) eqn:Ev; simplify_eq; [|done].
  eapply Inv_remove_entry; [done|by eapply is_evictable_alone|done].
Qed.

(** Collecting expired entries: marks first, then the removals, all of entries
    with one owner. *)
Lemma expire_frame idle now timeout key w w' b :
  Inv None w → expire idle now timeout key w = (w', b) →
  Inv None w' ∧ entries w' = entries w ∧ (∀ r, strong_count r w' = strong_count r w)
  ∧ (b = true → ∃ r u, entries w !! key = Some (Ready r u) ∧ strong_count r w = 1%nat).
Proof.
  unfold expire. intros HI He.
  destruct (entries w !! key) as [[f|r u]|] eqn:Ek; [by simplify_eq| |by simplify_eq].
  destruct (is_evictable idle r w) eqn:Ev; injection He as <- <-;
    (split_and!; [by apply Inv_alter|done|done|]); [|done].
  intros _. exists r, u. split; [done|]. by eapply is_evictable_alone.
Qed.

Lemma expire_all_frame idle now timeout it w w' ks :
  Inv None w → NoDup it → expire_all idle now timeout it w = (w', ks) →
  Inv None w' ∧ NoDup ks ∧ entries w' = entries w ∧ (∀ r, strong_count r w' = strong_count r w)
  ∧ ∀ key, key ∈ ks → key ∈ it ∧ ∃ r u, entries w !! key = Some (Ready r u) ∧ strong_count r w = 1%nat.
Proof.
  revert w w' ks. induction it as [|k it IH]; intros w w' ks HI Hnd He; simpl in He.
  { injection He as <- <-. split_and!; [done|constructor|done|done|]. by intros key ?%elem_of_nil. }
  apply NoDup_cons in Hnd as [Hk Hnd].
  destruct (expire idle now timeout k w) as [w1 b] eqn:E1.
  destruct (expire_all idle now timeout it w1) as [w2 ks2] eqn:E2. injection He as <- <-.
  destruct (expire_frame _ _ _ _ _ _ _ HI E1) as (HI1 & He1 & Hs1 & Hb).
  destruct (IH _ _ _ HI1 Hnd E2) as (HI2 & Hnd2 & He2 & Hs2 & Hks).
  assert (Hold : ∀ key, key ∈ ks2 → key ∈ k :: it ∧ ∃ r u, entries w !! key = Some (Ready r u) ∧ strong_count r w = 1%nat).
  { intros key Hkey. destruct (Hks key Hkey) as (? & r & u & Hr & H1). rewrite He1, Hs1 in *.
    split; [by right|]. eauto. }
  split_and!; [done| |congruence|intros r; by rewrite Hs2, Hs1|].
  - destruct b; [|done]. apply NoDup_cons. split; [|done]. intros Hin. by apply Hks in Hin as [? _].
  - destruct b; [|done]. intros key [->|Hin]%elem_of_cons; [|auto]. split; [by left|auto].
Qed.

Lemma remove_all_inv ks w :
  Inv None w → NoDup ks →
  (∀ key, key ∈ ks → ∃ r u, entries w !! key = Some (Ready r u) ∧ strong_count r w = 1%nat) →
  Inv None (foldl remove_ready w ks).
Proof.
  revert w. induction ks as [|k ks IH]; intros w HI Hnd Hks; simpl; [done|].
  apply NoDup_cons in Hnd as [Hk Hnd]. destruct (Hks k ltac:(by left)) as (r & u & Hr & H1).
  unfold remove_ready at 2. rewrite Hr.
  assert (Hc : ∀ s, strong_count s (remove_entry k r w) = strong_count s w).
  { intros s. rewrite !strong_count_parts. simpl. rewrite held_app, held_one, (cached_delete s _ _ _ Hr).
    simpl. lia. }
  apply IH; [by eapply Inv_remove_entry|done|].
  intros key Hkey. destruct (Hks key ltac:(by right)) as (r' & u' & Hr' & H1').
  exists r', u'. rewrite Hc. split; [|done]. simpl. rewrite lookup_delete_ne; [done|]. by intros ->.
Qed.

Lemma Inv_collect idle now it w : NoDup it → Inv None w → Inv None (collect_expired idle now it w).
Proof.
  intros Hnd HI. unfold collect_expired. destruct (idle_timeout w) as [timeout|]; [|done].
  destruct (expire_all idle now timeout it w) as [w1 ks] eqn:E.
  destruct (expire_all_frame _ _ _ _ _ _ _ HI Hnd E) as (HI1 & Hnd1 & He1 & Hs1 & Hks).
  apply remove_all_inv; [done|done|]. intros key Hkey.
  destruct (Hks key Hkey) as (_ & r & u & Hr & H1). exists r, u. by rewrite He1, Hs1.
Qed.

(** ** Leases *)

Lemma Inv_lease ty r w w' res :
  Inv None w → (0 < cached r (entries w) + landed r (flights w))%nat → lease ty r w = (w', res) →
  Inv None w'.
Proof.
  intros HI Hr Hl. unfold lease in Hl. destruct (resources w !! r) as [x|] eqn:Ex; [|by simplify_eq].
  destruct (res_type x =? ty)%nat; injection Hl as <- _.
  - apply Inv_mark, (Inv_hold _ _ r); [by left|by exists x| |done].
    intros Hv. destruct (victim_alone _ _ _ HI Hv) as (_ & ? & ?). lia.
  - by apply Inv_drop_resource, Inv_weaken.
Qed.

(** Another holder through a live lease. *)
Lemma Inv_share h r w :
  plain h r → HLease r ∈ holders w → Inv None w → Inv None (hold h w).
Proof.
  intros Hp Hl HI. apply (Inv_hold _ _ r); [done| | |done].
  - apply (inv_owned _ _ HI). rewrite strong_count_parts.
    pose proof (held_elem r _ _ Hl ltac:(by left)). lia.
  - intros Hv. by pose proof (victim_not_held _ _ _ _ HI Hv Hl ltac:(by left)).
Qed.

(** Removing a holder, with the arithmetic of its drop. *)
Lemma Inv_remove_owner i h w :
  holders w !! i = Some h → loader_key h = None → holder_charge h = 0 → Inv None w →
  Inv (head (holder_owner h)) (with_holders (delete i (holders w)) w).
Proof.
  intros Hi Hk Hc HI. pose proof (Inv_remove i h w Hi Hk HI) as H. rewrite Hc, Z.sub_0_r in H. exact H.
Qed.

Lemma Inv_drop i w : Inv None w → Inv None (drop_holder i w).
Proof.
  intros HI. unfold drop_holder. destruct (holders w !! i) as [h|] eqn:Hi; [|done].
  pose proof (Inv_remove_owner i h w Hi) as Ho. destruct h; try done; simpl in Ho.
  - pose proof (Inv_remove i _ w Hi eq_refl HI) as H. simpl in H.
    pose proof (Inv_charge_le _ _ H) as [? ?]. destruct H as [Hu Hl _ _ _ _ _ _ _ _ _ _ _ _]. simpl in *.
    pose proof (inv_charges _ _ HI) as Hch. rewrite Forall_forall in Hch.
    specialize (Hch _ ltac:(by eapply list_elem_of_lookup_2)). simpl in Hch.
    pose proof (inv_limit _ _ HI).
    unfold drop_reservation. simpl. rewrite fetch_sub_exact by lia. by apply (Inv_remove i (HReservation bytes)).
  - apply Inv_drop_resource. auto.
  - apply Inv_drop_resource. auto.
  - apply Inv_drop_resource, Inv_add_pins. auto.
  - apply Inv_drop_resource. auto.
Qed.

(** Replacing a holder by one of the same owner. *)
Lemma Inv_load_return i w : Inv None w → Inv None (load_return i w).
Proof.
  intros HI. unfold load_return. destruct (holders w !! i) as [h|] eqn:Hi; [|done].
  destruct h as [| |f r| | | | |]; try done. apply residency_drop_flight, Inv_mark.
  pose proof (delete_Permutation _ _ _ Hi) as Hold.
  pose proof (insert_Permutation _ _ _ (HLease r) Hi) as Hnew.
  assert (Hin : ∀ h', (∀ g s, h' ≠ HLoaded g s) → (∀ s, h' ≠ HLease s) →
    h' ∈ <[i := HLease r]> (holders w) ↔ h' ∈ holders w).
  { intros h' H1 H2. rewrite (elem_of_insert_cons _ _ _ _ _ Hi), (elem_of_delete_cons _ _ _ _ Hi).
    split; intros [->|?]; try auto; [by destruct (H2 r)|by destruct (H1 f r)]. }
  assert (Hc : ∀ s, strong_count s (with_holders (<[i := HLease r]> (holders w)) w) = strong_count s w).
  { intros s. rewrite !strong_count_parts. simpl. rewrite (held_insert s _ _ _ _ Hi), (held_delete s _ _ _ Hi).
    done. }
  destruct HI. split; simpl; try done; try setoid_rewrite Hc; try done.
  - rewrite (zsum_perm _ _ _ Hnew). rewrite (zsum_perm _ _ _ Hold) in inv_used0. done.
  - apply Forall_forall. intros h' Hh'. apply (elem_of_insert_cons _ _ _ _ _ Hi) in Hh' as [->|Hh']; [done|].
    rewrite Forall_forall in inv_charges0. apply inv_charges0. apply (elem_of_delete_cons _ _ _ _ Hi). by right.
  - intros s Hs. apply inv_victim0. by apply Hin in Hs.
  - intros * Hl. apply Hin in Hl; [|done..]. eauto.
  - rewrite (omap_Permutation _ _ _ Hnew). by rewrite (omap_Permutation _ _ _ Hold) in inv_loader_keys0.
  - rewrite (omap_Permutation _ _ _ Hnew). by rewrite (omap_Permutation _ _ _ Hold) in inv_loader_flights0.
  - intros key g Hk. destruct (inv_loading0 _ _ Hk) as (? & ? & ? & ?). do 3 eexists. by apply Hin.
  - intros g ty Hw. apply Hin in Hw; [|done..]. destruct (inv_waiter0 _ _ Hw) as (o & Ho & Hl). exists o.
    split; [done|]. intros Hn. destruct (Hl Hn) as (? & ? & ? & ? & ?). do 4 eexists. by apply Hin.
Qed.

Lemma Inv_wait i w w' r : Inv None w → wait_return i w = Some (w', r) → Inv None w'.
Proof.
  intros HI. unfold wait_return. destruct (holders w !! i) as [h|] eqn:Hi; [|done].
  destruct h as [| | |f ty| | | |]; try done.
  destruct (flights w !! f) as [[[s|e]|]|] eqn:Ef; simpl; try done.
  - destruct (lease ty s _) as [w1 res] eqn:El. intros [= <- <-]. apply residency_drop_flight.
    eapply Inv_lease; [| |exact El].
    + by apply (Inv_remove_owner i (HWaiter f ty)).
    + simpl. rewrite (landed_delete s _ _ _ Ef). simpl. rewrite count_one, decide_True by done. lia.
  - intros [= <- <-]. apply residency_drop_flight. by apply (Inv_remove_owner i (HWaiter f ty)).
Qed.

(** ** Loads *)

(** Touching a ready entry. *)
Lemma Inv_touch key r u u' w :
  entries w !! key = Some (Ready r u) → Inv None w →
  Inv None (with_entries (<[key := Ready r u']> (entries w)) w).
Proof.
  intros Hk [].
  assert (Hc : ∀ s, strong_count s (with_entries (<[key := Ready r u']> (entries w)) w) = strong_count s w).
  { intros s. rewrite !strong_count_parts. simpl. rewrite cached_replace, (cached_delete s _ _ _ Hk). done. }
  assert (Hlk : ∀ k f, <[key := Ready r u']> (entries w) !! k = Some (Loading f) ↔ entries w !! k = Some (Loading f)).
  { intros k f. destruct (decide (key = k)) as [<-|]; [rewrite lookup_insert_eq; naive_solver|].
    by rewrite lookup_insert_ne. }
  split; simpl; try done; try setoid_rewrite Hc; try setoid_rewrite Hlk; done.
Qed.

(** Waiting for a flight that a loader will land. *)
Lemma Inv_waiter_add key f ty w :
  entries w !! key = Some (Loading f) → Inv None w → Inv None (hold (HWaiter f ty) w).
Proof.
  intros Hk [].
  assert (Hc : ∀ s, strong_count s (hold (HWaiter f ty) w) = strong_count s w).
  { intros s. rewrite !strong_count_parts. simpl. rewrite held_app, held_one. simpl.
    change (count s []) with 0%nat. lia. }
  assert (Hin : ∀ h', h' ∈ holders w ++ [HWaiter f ty] ↔ h' ∈ holders w ∨ h' = HWaiter f ty).
  { intros h'. rewrite elem_of_app, list_elem_of_singleton. done. }
  split; simpl; try done; try setoid_rewrite Hc; try setoid_rewrite Hin; try done.
  - rewrite zsum_app. simpl. lia.
  - apply Forall_app_2; [done|]. by repeat constructor.
  - intros s [?|?]; [auto|done].
  - intros * [?|?]; [eauto|done].
  - by rewrite omap_app, app_nil_r.
  - by rewrite omap_app, app_nil_r.
  - intros k g Hg. destruct (inv_loading0 _ _ Hg) as (? & ? & ? & ?). eauto 10.
  - assert (Hw : ∀ g t, HWaiter g t ∈ holders w → ∃ o, flights w !! g = Some o ∧ (o = None →
      ∃ key peak b ty', HLoader key peak b ty' g ∈ holders w ∨ HLoader key peak b ty' g = HWaiter f ty)).
    { intros g t Hw. destruct (inv_waiter0 _ _ Hw) as (o & Ho & Hl). exists o. split; [done|].
      intros Hn. destruct (Hl Hn) as (? & ? & ? & ? & ?). eauto 10. }
    intros g t [?|[= -> ->]]; [eauto|]. destruct (inv_loading0 _ _ Hk) as (? & ? & ? & Hl).
    exists None. split; [by eapply inv_loader0|]. eauto 10.
Qed.

(** Starting a load: a new flight under a free key, its peak reserved. *)
Lemma residency_start key peak budgeted ty w w1 :
  0 <= peak → entries w !! key = None → usage_reserve peak w = Some w1 → Inv None w →
  Inv None (mkWorld (limit w1) (used w1) (idle_timeout w1) (resources w1) (<[next_id w1 := None]> (flights w1))
    (<[key := Loading (next_id w1)]> (entries w1)) (clock w1) (evictions w1) (S (next_id w1))
    (holders w1 ++ [HLoader key peak budgeted ty (next_id w1)])).
Proof.
  unfold usage_reserve. intros Hp Hk Hu []. destruct (checked_add _ _) as [total|] eqn:E; [|done].
  apply checked_add_Some in E as [-> _]. destruct (Z.leb_spec (used w + peak) (limit w)); [|done].
  injection Hu as <-. simpl. set (f := next_id w). set (w' := mkWorld _ _ _ _ _ _ _ _ _ _).
  assert (Hf : flights w !! f = None).
  { destruct (flights w !! f) eqn:Ef; [|done]. assert (f < next_id w)%nat by (apply inv_fresh_flight0; eauto).
    unfold f in *. lia. }
  assert (Hc : ∀ s, strong_count s w' = strong_count s w).
  { intros s. rewrite !strong_count_parts. simpl. rewrite held_app, held_one, cached_insert, landed_insert by done.
    simpl. change (count s []) with 0%nat. lia. }
  assert (Hin : ∀ h', h' ∈ holders w ++ [HLoader key peak budgeted ty f] ↔ h' ∈ holders w ∨ h' = HLoader key peak budgeted ty f).
  { intros h'. rewrite elem_of_app, list_elem_of_singleton. done. }
  split; subst w'; simpl; try done; try setoid_rewrite Hc; try setoid_rewrite Hin; try done.
  - rewrite zsum_app. simpl. lia.
  - lia.
  - apply Forall_app_2; [done|]. repeat constructor. done.
  - intros r Hr. apply inv_fresh_resource0 in Hr. unfold f. lia.
  - intros g [o Hg]. destruct (decide (g = f)) as [->|Hne]; [unfold f; lia|].
    rewrite lookup_insert_ne in Hg by done. assert (g < next_id w)%nat by eauto. unfold f. lia.
  - intros s [?|?]; [auto|done].
  - intros k p b t g [Hl|[= -> -> -> -> ->]].
    + destruct (inv_loader0 _ _ _ _ _ Hl) as [H1 H2]. rewrite !lookup_insert_ne; [done|..]; intros ?; congruence.
    + by rewrite !lookup_insert_eq.
  - rewrite omap_app. apply NoDup_app. split_and!; [done| |by apply NoDup_singleton].
    intros k (h & Hh & Hhk)%list_elem_of_omap ->%list_elem_of_singleton.
    destruct h; try done. injection Hhk as ->. destruct (inv_loader0 _ _ _ _ _ Hh). congruence.
  - rewrite omap_app. apply NoDup_app. split_and!; [done| |by apply NoDup_singleton].
    intros g (h & Hh & Hhk)%list_elem_of_omap ->%list_elem_of_singleton.
    destruct h; try done. injection Hhk as ->. destruct (inv_loader0 _ _ _ _ _ Hh). congruence.
  - intros k g Hg. destruct (decide (key = k)) as [<-|Hne].
    + rewrite lookup_insert_eq in Hg. injection Hg as <-. eauto 10.
    + rewrite lookup_insert_ne in Hg by done. destruct (inv_loading0 _ _ Hg) as (? & ? & ? & ?). eauto 10.
  - intros g t [Hw|?]; [|done]. destruct (inv_waiter0 _ _ Hw) as (o & Ho & Hl). exists o.
    rewrite lookup_insert_ne by congruence. split; [done|]. intros Hn.
    destruct (Hl Hn) as (? & ? & ? & ? & ?). eauto 10.
Qed.

Lemma Inv_load_attempt idle it key peak budgeted ty w w' a :
  0 <= peak → Inv None w → load_attempt idle it key peak budgeted ty w = (w', a) → Inv None w'.
Proof.
  intros Hp HI. unfold load_attempt. set (now := Z.min (clock w + 1) u64_max).
  fold (with_clock now (evictions w) w). apply (Inv_clock _ now (evictions w)) in HI.
  set (w0 := with_clock now (evictions w) w) in *.
  destruct (entries w0 !! key) as [[f|r u]|] eqn:Ek.
  - intros [= <- <-]. by eapply Inv_waiter_add.
  - destruct (lease ty r _) as [w1 res] eqn:El. intros [= <- _].
    eapply Inv_lease; [by eapply Inv_touch| |exact El]. simpl.
    rewrite cached_replace. simpl. rewrite count_one, decide_True by done. lia.
  - destruct (usage_reserve peak w0) as [w1|] eqn:Eu.
    + intros [= <- <-]. by eapply residency_start.
    + destruct (evict_idle idle it w0) as [w1|] eqn:Ev; intros [= <- <-]; [|done].
      by eapply Inv_evict_idle.
Qed.

(** The loader at [i] is the only one of its key and of its flight. *)
Lemma loader_unique w i key peak b ty f k' p' b' t' f' :
  Inv None w → holders w !! i = Some (HLoader key peak b ty f) →
  HLoader k' p' b' t' f' ∈ delete i (holders w) → k' ≠ key ∧ f' ≠ f.
Proof.
  intros HI Hi Hl. pose proof (delete_Permutation _ _ _ Hi) as Hp.
  pose proof (inv_loader_keys _ _ HI) as Hk. pose proof (inv_loader_flights _ _ HI) as Hf.
  rewrite (omap_Permutation _ _ _ Hp) in Hk. rewrite (omap_Permutation _ _ _ Hp) in Hf. simpl in Hk, Hf.
  apply NoDup_cons in Hk as [Hk _]. apply NoDup_cons in Hf as [Hf _].
  split; intros ->; [apply Hk|apply Hf]; apply list_elem_of_omap; by eexists.
Qed.

(** The state without the loader at [i], before its outcome is recorded. *)
Lemma loader_facts w i key peak b ty f :
  Inv None w → holders w !! i = Some (HLoader key peak b ty f) →
  entries w !! key = Some (Loading f) ∧ flights w !! f = Some None ∧ 0 <= peak
  ∧ used w = peak + (zsum holder_charge (delete i (holders w)) + msum res_bytes (resources w))
  ∧ 0 <= zsum holder_charge (delete i (holders w)) ∧ 0 <= msum res_bytes (resources w)
  ∧ Forall (λ h, 0 <= holder_charge h) (delete i (holders w))
  ∧ NoDup (omap loader_key (delete i (holders w))) ∧ NoDup (omap loader_flight (delete i (holders w))).
Proof.
  intros HI Hi. pose proof (delete_Permutation _ _ _ Hi) as Hp.
  assert (Hin : HLoader key peak b ty f ∈ holders w) by by eapply list_elem_of_lookup_2.
  destruct (inv_loader _ _ HI _ _ _ _ _ Hin) as [Hk Hf].
  assert (Hch : Forall (λ h, 0 <= holder_charge h) (delete i (holders w))).
  { pose proof (inv_charges _ _ HI) as Hc. rewrite Forall_forall in *. intros h Hh. apply Hc.
    apply (elem_of_delete_cons _ _ _ _ Hi). by right. }
  pose proof (inv_charges _ _ HI) as Hc. rewrite Forall_forall in Hc. specialize (Hc _ Hin). simpl in Hc.
  pose proof (inv_used _ _ HI) as Hu. rewrite (zsum_perm _ _ _ Hp) in Hu. simpl in Hu.
  pose proof (inv_loader_keys _ _ HI) as Hnk. pose proof (inv_loader_flights _ _ HI) as Hnf.
  rewrite (omap_Permutation _ _ _ Hp) in Hnk. rewrite (omap_Permutation _ _ _ Hp) in Hnf. simpl in Hnk, Hnf.
  apply NoDup_cons in Hnk as [_ Hnk]. apply NoDup_cons in Hnf as [_ Hnf].
  split_and!; try done; [lia|by apply zsum_nonneg|by eapply Inv_charge_le].
Qed.

(** Other loaders and waiters when the loader at [i] records outcome [o]. *)
Lemma other_flights w i key peak b ty f (o : Outcome) (es : gmap string Entry) (hs : list Holder) :
  Inv None w → holders w !! i = Some (HLoader key peak b ty f) →
  (∀ k, k ≠ key → es !! k = entries w !! k) → (∀ g, es !! key ≠ Some (Loading g)) →
  (∀ h, h ∈ delete i (holders w) → h ∈ hs) →
  (∀ h, h ∈ hs → h ∈ delete i (holders w) ∨ ∃ g r, h = HLoaded g r) →
  (∀ k p b' t g, HLoader k p b' t g ∈ hs → es !! k = Some (Loading g) ∧ <[f := Some o]> (flights w) !! g = Some None)
  ∧ (∀ k g, es !! k = Some (Loading g) → ∃ p b' t, HLoader k p b' t g ∈ hs)
  ∧ (∀ g t, HWaiter g t ∈ hs → ∃ o', <[f := Some o]> (flights w) !! g = Some o'
       ∧ (o' = None → ∃ k p b' t', HLoader k p b' t' g ∈ hs)).
Proof.
  intros HI Hi Hes Hkey Hsub Hsup.
  assert (Hother : ∀ k p b' t g, HLoader k p b' t g ∈ holders w → k ≠ key → HLoader k p b' t g ∈ hs).
  { intros * Hl Hne. apply Hsub. apply (elem_of_delete_cons _ _ _ _ Hi) in Hl as [Heq|]; [|done].
    by injection Heq as ->. }
  assert (Hdel : ∀ h, h ∈ delete i (holders w) → h ∈ holders w).
  { intros h Hh. apply (elem_of_delete_cons _ _ _ _ Hi). by right. }
  split_and!.
  - intros k p b' t g [Hl|(? & ? & ?)]%Hsup; [|done].
    destruct (loader_unique _ _ _ _ _ _ _ _ _ _ _ _ HI Hi Hl) as [Hk Hg].
    destruct (inv_loader _ _ HI _ _ _ _ _ (Hdel _ Hl)) as [H1 H2].
    rewrite Hes, lookup_insert_ne by done. done.
  - intros k g Hg. destruct (decide (k = key)) as [->|Hne]; [by destruct (Hkey g)|].
    rewrite Hes in Hg by done. destruct (inv_loading _ _ HI _ _ Hg) as (? & ? & ? & ?). eauto 10.
  - intros g t [Hw|(? & ? & ?)]%Hsup; [|done].
    destruct (inv_waiter _ _ HI _ _ (Hdel _ Hw)) as (o' & Ho & Hl).
    destruct (decide (f = g)) as [<-|Hne]; [rewrite lookup_insert_eq; by eexists|].
    rewrite lookup_insert_ne by done. exists o'. split; [done|]. intros Hn.
    destruct (Hl Hn) as (k & p & b' & t' & Hl'). exists k, p, b', t'. apply Hsub.
    apply (elem_of_delete_cons _ _ _ _ Hi) in Hl' as [Heq|]; [|done]. by injection Heq as -> -> -> -> ->.
Qed.

(** A finished load: the peak shrinks to the resident bytes of a new resource
    owned by its entry, its flight and the returning thread. *)
Lemma Inv_finish_ok i key peak b ty f bytes idle_mark w :
  holders w !! i = Some (HLoader key peak b ty f) → 0 <= bytes <= peak → Inv None w →
  Inv None (mkWorld (limit w) (used (shrink peak bytes w)) (idle_timeout w)
    (<[next_id w := mkResource bytes ty 0 idle_mark]> (resources w)) (<[f := Some (Ok (next_id w))]> (flights w))
    (<[key := Ready (next_id w) (clock w)]> (entries w)) (clock w) (evictions w) (S (next_id w))
    (<[i := HLoaded f (next_id w)]> (holders w))).
Proof.
  intros Hi Hb HI. set (r := next_id w).
  destruct (loader_facts _ _ _ _ _ _ _ HI Hi) as (Hk & Hf & Hp & Hu & Hz & Hm & Hch & Hnk & Hnf).
  destruct (other_flights w i key peak b ty f (Ok r) (<[key := Ready r (clock w)]> (entries w))
    (<[i := HLoaded f r]> (holders w)) HI Hi) as (HL & HE & HW).
  { intros k Hne. by rewrite lookup_insert_ne. }
  { intros g. by rewrite lookup_insert_eq. }
  { intros h Hh. apply (elem_of_insert_cons _ _ _ _ _ Hi). by right. }
  { intros h Hh. apply (elem_of_insert_cons _ _ _ _ _ Hi) in Hh as [->|?]; [|by left]. right. eauto. }
  pose proof (insert_Permutation _ _ _ (HLoaded f r) Hi) as Hnew. destruct HI.
  assert (Hfresh : resources w !! r = None).
  { destruct (resources w !! r) eqn:Er; [|done]. assert (r < next_id w)%nat by eauto. unfold r in *. lia. }
  assert (Hr0 : strong_count r w = 0%nat).
  { destruct (strong_count r w) eqn:Es; [done|]. destruct (inv_owned0 r ltac:(lia)). congruence. }
  set (w' := mkWorld _ _ _ _ _ _ _ _ _ _).
  assert (Hc : ∀ s, strong_count s w' = (strong_count s w + if decide (s = r) then 3 else 0)%nat).
  { intros s. rewrite !strong_count_parts. simpl.
    rewrite (held_insert s _ _ _ _ Hi), (held_delete s _ _ _ Hi), cached_replace, (cached_delete s _ _ _ Hk),
      landed_replace, (landed_delete s _ _ _ Hf). simpl. rewrite count_one. change (count s []) with 0%nat.
    case_decide; lia. }
  assert (Hsh : used (shrink peak bytes w) = used w - (peak - bytes)).
  { unfold shrink. simpl. apply fetch_sub_exact; lia. }
  split; subst w'; simpl; try done.
  - rewrite (zsum_perm _ _ _ Hnew), msum_insert by done. simpl in *. lia.
  - simpl in Hsh. lia.
  - apply Forall_forall. intros h Hh. apply (elem_of_insert_cons _ _ _ _ _ Hi) in Hh as [->|Hh]; [done|].
    rewrite Forall_forall in Hch. auto.
  - intros s res. rewrite lookup_insert_Some. intros [[<- <-]|[_ Hs]]; [simpl; lia|eauto].
  - intros s. rewrite Hc. case_decide as Hs; [rewrite Hs, lookup_insert_eq; by eexists|].
    rewrite lookup_insert_ne by done. rewrite Nat.add_0_r. auto.
  - intros s Hs. rewrite Hc. left. case_decide as Hsr; [lia|].
    rewrite lookup_insert_ne in Hs by done. destruct (inv_live0 s Hs); [lia|done].
  - intros s Hs. destruct (decide (s = r)) as [->|]; [unfold r; lia|].
    rewrite lookup_insert_ne in Hs by done. apply inv_fresh_resource0 in Hs. unfold r. lia.
  - intros g Hg. assert (g < next_id w)%nat; [|unfold r; lia]. apply inv_fresh_flight0.
    destruct (decide (f = g)) as [<-|]; [by eexists|]. by rewrite lookup_insert_ne in Hg.
  - intros s Hs. apply (elem_of_insert_cons _ _ _ _ _ Hi) in Hs as [?|Hs]; [done|].
    assert (H1 : strong_count s w = 1%nat).
    { apply inv_victim0. apply (elem_of_delete_cons _ _ _ _ Hi). by right. }
    rewrite Hc. case_decide as Hsr; [subst s; lia|lia].
  - rewrite (omap_Permutation _ _ _ Hnew). done.
  - rewrite (omap_Permutation _ _ _ Hnew). done.
Qed.

(** A failed load: the reservation, the entry and the loader go. *)
Lemma Inv_finish_err i key peak b ty f e w :
  holders w !! i = Some (HLoader key peak b ty f) → Inv None w →
  Inv None (mkWorld (limit w) (Stats.fetch_sub (used w) peak) (idle_timeout w) (resources w)
    (<[f := Some (Err e)]> (flights w)) (delete key (entries w)) (clock w) (evictions w) (next_id w)
    (delete i (holders w))).
Proof.
  intros Hi HI.
  destruct (loader_facts _ _ _ _ _ _ _ HI Hi) as (Hk & Hf & Hp & Hu & Hz & Hm & Hch & Hnk & Hnf).
  destruct (other_flights w i key peak b ty f (Err e) (delete key (entries w)) (delete i (holders w)) HI Hi)
    as (HL & HE & HW).
  { intros k Hne. by rewrite lookup_delete_ne. }
  { intros g. by rewrite lookup_delete_eq. }
  { done. }
  { intros h Hh. by left. }
  destruct HI. rewrite fetch_sub_exact by lia. set (w' := mkWorld _ _ _ _ _ _ _ _ _ _).
  assert (Hc : ∀ s, strong_count s w' = strong_count s w).
  { intros s. rewrite !strong_count_parts. simpl.
    rewrite (held_delete s _ _ _ Hi), (cached_delete s _ _ _ Hk), landed_replace, (landed_delete s _ _ _ Hf).
    simpl. change (count s []) with 0%nat. lia. }
  split; subst w'; simpl; try done; try setoid_rewrite Hc; try done; try lia.
  - intros g Hg. apply inv_fresh_flight0. destruct (decide (f = g)) as [<-|]; [by eexists|].
    by rewrite lookup_insert_ne in Hg.
  - intros s Hs. apply inv_victim0. apply (elem_of_delete_cons _ _ _ _ Hi). by right.
Qed.

Lemma residency_finish i outcome w w' e :
  (∀ n, outcome = Some (Ok n) → 0 <= n) → Inv None w → load_finish i outcome w = (w', e) → Inv None w'.
Proof.
  intros Hn HI. unfold load_finish. destruct (holders w !! i) as [h|] eqn:Hi; [|by intros [= <- <-]].
  destruct h as [|key peak b ty f| | | | | |]; try by intros [= <- <-].
  destruct outcome as [[bytes|err]|].
  - destruct ((b || (0 <? bytes)) && (bytes <=? peak)) eqn:E.
    + intros [= <- <-]. apply (Inv_finish_ok i key peak b ty f bytes); [done| |done].
      specialize (Hn bytes eq_refl). to_prop. lia.
    + intros [= <- <-]. by apply residency_drop_flight, (Inv_finish_err i key peak b ty).
  - intros [= <- <-]. by apply residency_drop_flight, (Inv_finish_err i key peak b ty).
  - intros [= <- <-]. by apply residency_drop_flight, (Inv_finish_err i key peak b ty).
Qed.

(** ** Reachable states *)

Lemma residency_step_inv w w' : Inv None w → step w w' → Inv None w'.
Proof.
  intros HI Hs. destruct Hs; eauto using Inv_reserve, Inv_evict_idle, Inv_evict, Inv_collect,
    Inv_load_attempt, residency_finish, Inv_load_return, Inv_wait, Inv_drop.
  - apply (Inv_share _ r); [by left|done|by apply Inv_mark].
  - apply (Inv_share _ r); [by right; left|done|by apply Inv_add_pins, Inv_mark].
  - apply (Inv_share _ r); [by right; right|done|by apply Inv_mark].
Qed.

Lemma steps_inv w w' : Inv None w → rtc step w w' → Inv None w'.
Proof. intros HI Hr. induction Hr; eauto using residency_step_inv. Qed.

Lemma residency_reachable_inv w : reachable w → Inv None w.
Proof.
  intros (budget & timeout & w0 & Hb & Hc & Hr). pose proof (create_inv _ _ _ Hb Hc) as HI.
  clear Hc. induction Hr as [|w1 w2 w3 Hs _ IH]; eauto using residency_step_inv.
Qed.

(** ** The reservation loops *)

(** What an eviction takes: a ready entry nobody else owns, unpinned and idle,
    and among those the least recently used. *)
Definition evicts (idle : nat → bool) (w w' : World) : Prop :=
  ∃ key r u, entries w !! key = Some (Ready r u) ∧ strong_count r w = 1%nat
    ∧ (∃ res, resources w !! r = Some res ∧ pins res = 0) ∧ idle r = true
    ∧ (∀ key' r' u', entries w !! key' = Some (Ready r' u') → is_evictable idle r' w = true → u <= u')
    ∧ w' = remove_entry key r w.

(** Every retry of a load has removed an entry. *)
Lemma load_attempt_retry idle it key peak budgeted ty w w' :
  load_attempt idle it key peak budgeted ty w = (w', Retry) →
  (size (entries w') < size (entries w))%nat.
Proof.
  unfold load_attempt. set (w0 := mkWorld _ _ _ _ _ _ _ _ _ _).
  destruct (entries w0 !! key) as [[f|r u]|]; [done|by destruct (lease _ _ _)|].
  destruct (usage_reserve peak w0); [done|].
  destruct (evict_idle idle it w0) as [w1|] eqn:E; [|done]. intros [= <-].
  unfold evict_idle in E. destruct (least_used idle w0 it) as [[[k s] v]|] eqn:El; [|done].
  injection E as <-. destruct (least_used_spec _ _ _ _ _ _ El) as (_ & Hk & _). simpl in Hk. simpl.
  rewrite map_size_delete_Some by by eexists.
  assert (size (entries w) ≠ 0)%nat; [|lia]. intros H0%map_size_empty_inv. by rewrite H0, lookup_empty in Hk.
Qed.

Lemma drop_resource_entries r w : entries (drop_resource r w) = entries w.
Proof. unfold drop_resource. destruct (_ =? _)%nat; [|done]. by destruct (resources w !! r). Qed.

Lemma drop_holder_entries i w : entries (drop_holder i w) = entries w.
Proof.
  unfold drop_holder. destruct (holders w !! i) as [[]|]; try done; by rewrite drop_resource_entries.
Qed.

Lemma drop_victim_entries v w : entries (drop_victim v w) = entries w.
Proof.
  unfold drop_victim. destruct v as [r|]; [|done]. destruct (list_find _ _) as [[i h]|]; [|done]. apply drop_holder_entries.
Qed.
Lemma drop_victim_steps v w : rtc step w (drop_victim v w).
Proof.
  unfold drop_victim. destruct v as [r|]; [|done]. destruct (list_find _ _) as [[i h]|]; [|done]. apply rtc_once, step_drop.
Qed.
Lemma drop_resource_limit r w : limit (drop_resource r w) = limit w.
Proof. unfold drop_resource. destruct (_ =? _)%nat; [|done]. by destruct (resources w !! r). Qed.

Section Loops.
Context (idle : nat → nat → bool) (order : nat → gmap string Entry → list string) (alive : nat → bool).
Context (between : nat → World → World) (added : nat → nat).
Context (Horder : ∀ t m, order t m ≡ₚ (map_to_list m).*1).
Context (Hsteps : ∀ t w, rtc step w (between t w)).
Context (Hadded : ∀ t w, (size (entries (between t w)) ≤ size (entries w) + added t)%nat).

Lemma order_elem t m key e : m !! key = Some e → key ∈ order t m.
Proof.
  intros Hk. rewrite Horder. apply list_elem_of_fmap. exists (key, e). split; [done|].
  by apply elem_of_map_to_list.
Qed.

Lemma evict_idle_evicts t w w' :
  evict_idle (idle t) (order t (entries w)) w = Some w' →
  evicts (idle t) w w' ∧ (size (entries w) = S (size (entries w'))).
Proof.
  unfold evict_idle. destruct (least_used _ _ _) as [[[key r] u]|] eqn:El; [|done]. intros [= <-].
  destruct (least_used_spec _ _ _ _ _ _ El) as (_ & Hk & Hev & Hmin). split.
  - exists key, r, u. unfold is_evictable in Hev. rewrite !andb_true_iff, Nat.eqb_eq in Hev. destruct Hev as [[H1 H2] H3].
    split_and!; [done|done| |done| |done].
    + destruct (resources w !! r) as [res|]; [|done]. exists res. split; [done|lia].
    + intros key' r' u' Hk' Hev'. by eapply (Hmin key' r' u'); [eapply order_elem| |].
  - simpl. rewrite map_size_delete_Some by by eexists.
    assert (size (entries w) ≠ 0)%nat; [|lia]. intros H0%map_size_empty_inv. by rewrite H0, lookup_empty in Hk.
Qed.

(** Nothing can be evicted. *)
Lemma evict_none t w key r u :
  evict_idle (idle t) (order t (entries w)) w = None → entries w !! key = Some (Ready r u) →
  is_evictable (idle t) r w = false.
Proof.
  unfold evict_idle. intros He Hk.
  destruct (least_used (idle t) w (order t (entries w))) as [[[k s] v]|] eqn:El; [done|].
  eapply least_used_None; [exact El|by eapply order_elem|done].
Qed.

(** Entries other threads may still add from the [t]-th gap on. *)
Context (bound : nat) (Hbound : ∀ n, (sum_list (added <$> seq 0 n) ≤ bound)%nat).
Definition spent (t : nat) : nat := sum_list (added <$> seq 0 t).
Lemma spent_S t : spent (S t) = (spent t + added t)%nat.
Proof. unfold spent. rewrite seq_S, fmap_app, sum_list_with_app. simpl. lia. Qed.

Lemma reserve_loop_spec fuel t bytes w :
  0 <= bytes → (size (entries w) + (bound - spent t) < fuel)%nat →
  ∃ w' log res, reserve_loop idle order alive between fuel t bytes w = Some (w', log, res) ∧ rtc step w w'
    ∧ Forall (λ '(i, w1, w2), rtc step w w1 ∧ evicts (idle i) w1 w2) log
    ∧ match res with
      | Ok _ => HReservation bytes ∈ holders w'
      | Err e => e = Busy "residency budget is pinned or loading"
          ∧ ∃ i w1, rtc step w w1 ∧ rtc step w1 w' ∧ usage_reserve bytes w1 = None
            ∧ (alive i = true → ∀ key r u, entries w' !! key = Some (Ready r u) → is_evictable (idle i) r w' = false)
      end.
Proof.
  revert t w. induction fuel as [|fuel IH]; intros t w Hb Hfuel; [lia|]. cbn [reserve_loop].
  set (wa := between t w). assert (Hwa : rtc step w wa) by apply (Hsteps t w). destruct (usage_reserve bytes wa) as [w1|] eqn:Eu.
  { do 3 eexists. split_and!; [done| |constructor|].
    - eapply rtc_r; [exact Hwa|by apply step_reserve].
    - simpl. apply elem_of_app. right. by left. }
  set (wb := between (S t) wa). assert (Hab : rtc step wa wb) by apply (Hsteps (S t) wa).
  assert (Hwb : rtc step w wb) by by etrans.
  destruct (if alive (S t) then _ else _) as [wc|] eqn:Ee.
  2: { do 3 eexists. split; [done|]. split; [done|]. split; [by apply Forall_nil|]. split; [done|]. exists (S t), wa. split_and!; [done..|].
       intros Ha key r u. rewrite Ha in Ee. by apply evict_none. }
  destruct (alive (S t)); [|done]. pose proof (evict_idle_evicts _ _ _ Ee) as [Hev Hsize].
  set (wd := drop_victim _ _).
  assert (Hwd : rtc step w wd).
  { etrans; [exact Hwb|]. eapply rtc_l; [by eapply step_evict_idle|]. etrans; [apply Hsteps|apply drop_victim_steps]. }
  assert (Hd : (size (entries wd) + (bound - spent (3 + t)) < fuel)%nat).
  { unfold wd. rewrite drop_victim_entries. pose proof (Hadded t w). pose proof (Hadded (S t) wa).
    pose proof (Hadded (2 + t)%nat wc). fold wa in H. fold wb in H0.
    pose proof (Hbound (3 + t)) as Hs. fold (spent (3 + t)) in Hs.
    change (3 + t)%nat with (S (S (S t))) in *. rewrite !spent_S in *. simpl in *. lia. }
  destruct (IH (3 + t)%nat wd Hb Hd) as (w' & log & res & Hr & Hst & Hlog & Hres).
  exists w', ((S t, wb, wc) :: log), res. split_and!.
  - change (S (S (S t))) with (3 + t)%nat in *. by rewrite Hr.
  - by etrans.
  - constructor; [done|]. eapply Forall_impl; [exact Hlog|]. intros [[i x] y] [H1 H2]. split; [by etrans|done].
  - destruct res as [[]|e]; [done|]. destruct Hres as (He & i & w1 & H1 & H2 & H3). split; [done|].
    exists i, w1. split; [by etrans|]. split; [done|]. exact H3.
Qed.

Lemma load_loop_returns fuel t key peak budgeted ty w :
  (size (entries w) + (bound - spent t) ≤ fuel)%nat →
  ∃ w' a, load_loop idle order between fuel t key peak budgeted ty w = Some (w', a) ∧ a ≠ Retry.
Proof.
  revert t w. induction fuel as [|fuel IH]; intros t w Hf; cbn [load_loop];
    destruct (load_attempt (idle t) (order t (entries (between t w))) key peak budgeted ty (between t w)) as [w' a] eqn:E;
    destruct a; try by do 2 eexists.
  - apply load_attempt_retry in E. pose proof (Hadded t w). pose proof (Hbound (S t)) as Hs. fold (spent (S t)) in Hs.
    rewrite spent_S in Hs. lia.
  - apply load_attempt_retry in E. apply IH. rewrite drop_victim_entries. pose proof (Hadded t w).
    pose proof (Hadded (S t) w'). pose proof (Hbound (2 + t)) as Hs. fold (spent (2 + t)) in Hs.
    change (2 + t)%nat with (S (S t)) in *. rewrite !spent_S in *. lia.
Qed.
End Loops.

(** ** Claims *)

(** C31. The ceiling holds and accounts for exactly what is live: in every
    reachable state the charged total is the sum of the outstanding
    reservations, the peaks of the loaders in flight and the bytes of the
    resources with an owner, and it never exceeds the budget. *)
Theorem ceiling_accounts_for_live_charges w :
  reachable w →
  used w = zsum holder_charge (holders w) + msum res_bytes (resources w)
  ∧ 0 <= used w <= limit w
  ∧ (∀ r, is_Some (resources w !! r) ↔ (0 < strong_count r w)%nat).
Proof.
  intros HI%residency_reachable_inv. pose proof (Inv_charge_le _ _ HI) as [? ?]. destruct HI.
  split_and!; [done|lia|lia|]. intros r. split; [|auto]. intros Hr. by destruct (inv_live0 r Hr).
Qed.

(** Eviction never takes a resource in use: in every reachable state a
    resource that is being destroyed has no lease, pin or keepalive, is in no
    cache entry and in no flight outcome; so a held resource is always live. *)
Theorem evicted_resources_are_unreferenced w :
  reachable w →
  (∀ r h, HVictim r ∈ holders w → h ∈ holders w → r ∈ holder_owner h → h = HVictim r)
  ∧ (∀ r key u, HVictim r ∈ holders w → entries w !! key ≠ Some (Ready r u))
  ∧ (∀ r f, HVictim r ∈ holders w → flights w !! f ≠ Some (Some (Ok r)))
  ∧ (∀ r h, h ∈ holders w → r ∈ holder_owner h → is_Some (resources w !! r)).
Proof.
  intros HI%residency_reachable_inv. split_and!.
  - intros r h. by eapply victim_not_held.
  - intros r key u Hv Hk. destruct (victim_alone _ _ _ HI Hv) as (_ & Hc & _).
    rewrite (cached_delete r _ _ _ Hk) in Hc. simpl in Hc. rewrite count_one, decide_True in Hc by done. lia.
  - intros r f Hv Hf. destruct (victim_alone _ _ _ HI Hv) as (_ & _ & Hc).
    rewrite (landed_delete r _ _ _ Hf) in Hc. simpl in Hc. rewrite count_one, decide_True in Hc by done. lia.
  - intros r h Hh Hr. apply (inv_owned _ _ HI). rewrite strong_count_parts.
    pose proof (held_elem r h _ Hh Hr). lia.
Qed.

(** Loads are single-flight and no waiter is abandoned: at most one loader
    runs per key, a loading entry has exactly the loader that will land its
    flight, and the flight of every waiter has landed or has a running loader. *)
Theorem loads_are_single_flight w :
  reachable w →
  NoDup (omap loader_key (holders w))
  ∧ (∀ key f, entries w !! key = Some (Loading f) ↔ ∃ peak b ty, HLoader key peak b ty f ∈ holders w)
  ∧ (∀ f ty, HWaiter f ty ∈ holders w →
       (∃ o, flights w !! f = Some (Some o)) ∨ (∃ key peak b ty', HLoader key peak b ty' f ∈ holders w)).
Proof.
  intros HI%residency_reachable_inv. destruct HI. split_and!; [done| |].
  - intros key f. split; [auto|]. intros (peak & b & ty & Hl). by eapply inv_loader0.
  - intros f ty Hw. destruct (inv_waiter0 _ _ Hw) as ([o|] & Ho & Hl); [left; eauto|right; auto].
Qed.

(** C32. Reserving always returns, evicts only what is idle, and fails only when
    it finds nothing to evict, whatever other threads do meanwhile.  [between]
    gives the steps that other threads, and the destructors of evicted values,
    take in the gaps of the loop; together they add at most [bound] cache
    entries (otherwise the loop may evict for ever).  Then the loop returns;
    every entry it evicted was ready, owned by the cache alone, unpinned, idle
    and the least recently used such entry at that moment; success leaves the
    reservation held and the ceiling respected; and failure means that the
    request exceeds the budget, or that it did not fit when last tried and then,
    if the manager was alive, no cached resource was evictable. *)
Theorem reserve_fails_only_when_pinned idle order alive between added bound bytes w :
  (∀ t m, order t m ≡ₚ (map_to_list m).*1) → (∀ t w, rtc step w (between t w)) →
  (∀ t w, (size (entries (between t w)) ≤ size (entries w) + added t)%nat) →
  (∀ n, (sum_list (added <$> seq 0 n) ≤ bound)%nat) →
  reachable w → 0 <= bytes →
  ∃ w' log res, reserve idle order alive between (S (size (entries w) + bound)) bytes w = Some (w', log, res)
    ∧ rtc step w w'
    ∧ Forall (λ '(t, w1, w2), rtc step w w1 ∧ evicts (idle t) w1 w2) log
    ∧ match res with
      | Ok _ => HReservation bytes ∈ holders w' ∧ used w' <= limit w'
      | Err _ => limit w < bytes ∨
          ∃ t w1, rtc step w w1 ∧ rtc step w1 w' ∧ limit w1 < used w1 + bytes
           ∧ (alive t = true → ∀ key r u, entries w' !! key = Some (Ready r u) → is_evictable (idle t) r w' = false)
      end.
Proof.
  intros Horder Hsteps Hadded Hbound HI%residency_reachable_inv Hb. unfold reserve. destruct (Z.ltb_spec (limit w) bytes).
  { do 3 eexists. split_and!; [done|done|constructor|by left]. }
  destruct (reserve_loop_spec idle order alive between added Horder Hsteps Hadded bound Hbound
    (S (size (entries w) + bound)) 0 bytes w Hb ltac:(unfold spent; simpl; lia))
    as (w' & log & res & Hr & Hst & Hlog & Hres).
  exists w', log, res. split_and!; [done..|]. destruct res as [[]|e].
  - split; [done|]. by apply (steps_inv w w').
  - destruct Hres as (_ & t & w1 & H1 & H2 & Hu & Hev). right. exists t, w1. split_and!; [done..| |done].
    destruct (steps_inv w w1 HI H1). unfold usage_reserve, checked_add in Hu.
    destruct (Z.leb_spec (used w1 + bytes) usize_max); [|lia].
    destruct (Z.leb_spec (used w1 + bytes) (limit w1)); [done|lia].
Qed.

(** ** A concrete run: load, return, drop the lease, evict *)

Definition demo_idle (r : nat) : bool := true.
Definition demo0 : World := mkWorld 100 0 None ∅ ∅ ∅ 0 0 0 [].
Definition demo1 : World := (load_attempt demo_idle [] "model" 60 false 7 demo0).1.
Definition demo2 : World := (load_finish 0 (Some (Ok 40)) demo1).1.
Definition demo3 : World := load_return 0 demo2.
Definition demo4 : World := drop_holder 0 demo3.
Definition demo5 : World := (evict demo_idle "model" demo4).1.
Definition demo_order (m : gmap string Entry) : list string := (map_to_list m).*1.

Lemma demo_create : 0 <= 100 <= usize_max ∧ create 100 None = Ok demo0.
Proof. unfold usize_max. split; [lia|reflexivity]. Qed.

Lemma demo1_reachable : reachable demo1.
Proof.
  exists 100, None, demo0. destruct demo_create. split_and!; [lia|lia|done|]. apply rtc_once.
  eapply (step_load _ _ demo_idle [] "model" 60 false 7); [lia|]. apply surjective_pairing.
Qed.

Lemma demo4_steps : rtc step demo1 demo4.
Proof.
  apply rtc_l with demo2.
  { eapply (step_finish _ _ 0 (Some (Ok 40))); [intros n [= <-]; lia|]. apply surjective_pairing. }
  apply rtc_l with demo3; [apply step_return|]. apply rtc_once, step_drop.
Qed.

Lemma demo4_reachable : reachable demo4.
Proof.
  destruct demo1_reachable as (b & t & w0 & ? & ? & ?). exists b, t, w0. split_and!; [lia|lia|done|].
  etrans; [done|apply demo4_steps].
Qed.

Lemma demo5_reachable : reachable demo5.
Proof.
  destruct demo4_reachable as (b & t & w0 & ? & ? & ?). exists b, t, w0. split_and!; [lia|lia|done|].
  eapply rtc_r; [done|]. eapply (step_evict _ _ demo_idle "model"). apply surjective_pairing.
Qed.

Lemma ceiling_accounts_for_live_charges_witness :
  used demo1 = 60 ∧ used demo4 = 40 ∧ used demo4 = zsum holder_charge (holders demo4) + msum res_bytes (resources demo4).
Proof.
  split; [vm_compute; reflexivity|]. split; [vm_compute; reflexivity|].
  exact (proj1 (ceiling_accounts_for_live_charges demo4 demo4_reachable)).
Defined.

Lemma evicted_resources_are_unreferenced_witness :
  holders demo5 = [HVictim 1] ∧ ∀ key u, entries demo5 !! key ≠ Some (Ready 1 u).
Proof.
  assert (H : holders demo5 = [HVictim 1]) by (vm_compute; reflexivity). split; [exact H|].
  intros key u. apply (proj1 (proj2 (evicted_resources_are_unreferenced demo5 demo5_reachable)) 1%nat key u).
  rewrite H. by left.
Defined.

Lemma loads_are_single_flight_witness :
  entries demo1 !! "model" = Some (Loading 0) ∧ ∃ peak b ty, HLoader "model" peak b ty 0 ∈ holders demo1.
Proof.
  assert (H : entries demo1 !! "model" = Some (Loading 0)) by (vm_compute; reflexivity). split; [exact H|].
  exact (proj1 (proj1 (proj2 (loads_are_single_flight demo1 demo1_reachable)) "model" 0%nat) H).
Defined.

(** The evicted value owns a reservation, which its destructor releases. *)
Definition demo_owning : World := hold (HReservation 50) (with_used 90 demo4).
Definition demo_between (t : nat) (w : World) : World := if (t =? 2)%nat then drop_holder 0 w else w.
Lemma reserve_fails_only_when_pinned_witness :
  ∃ w' log, reserve (λ _, demo_idle) (λ _, demo_order) (λ _, true) demo_between 2 80 demo_owning = Some (w', log, Ok tt)
    ∧ used w' = 80 ∧ length log = 1%nat ∧ Forall (λ '(t, w1, w2), evicts demo_idle w1 w2) log.
Proof.
  destruct (reserve_fails_only_when_pinned (λ _, demo_idle) (λ _, demo_order) (λ _, true) demo_between (λ _, 0%nat) 0
    80 demo_owning) as (w' & log & res & Hr & _ & Hlog & _).
  - done.
  - intros t w. unfold demo_between. destruct (t =? 2)%nat; [apply rtc_once, step_drop|done].
  - intros t w. unfold demo_between. destruct (t =? 2)%nat; [rewrite drop_holder_entries|]; lia.
  - intros n. induction (seq 0 n) as [|x l IH]; [done|]. exact IH.
  - destruct demo4_reachable as (b & t & w0 & ? & ? & ?). exists b, t, w0. split_and!; [lia|lia|done|].
    eapply rtc_r; [done|]. apply (step_reserve demo4 (with_used 90 demo4) 50); [done|]. vm_compute. reflexivity.
  - lia.
  - assert (res = Ok tt ∧ used w' = 80 ∧ length log = 1%nat) as (-> & Hu & Hl).
    { vm_compute in Hr. injection Hr as <- <- <-. split_and!; vm_compute; reflexivity. }
    exists w', log. split_and!; [exact Hr|exact Hu|exact Hl|]. eapply Forall_impl; [exact Hlog|].
    intros [[t w1] w2] [_ H]. exact H.
Defined.

End ResidencyProofs.
