(* ===== verification/Scheduler.v ===== *)
(** * The submission scheduler

    Model of src/src/execution/scheduler.rs with the run-time half of
    src/src/execution/graph.rs ([Prepared], [Operation::run],
    [ExecutableGraph::submit_after]).  Prepared graphs live in a heap indexed by
    the identity of their [Arc]; a completion signal is identified by its graph
    and slot.  Every critical section of the scheduler mutex is one function on
    the state; the atomic steps of clients and workers are collected in
    [SchedulerSteps].  Indices that are out of range panic in the source: the
    lookups below yield the neutral answer there, and the reachable states of
    [SchedulerSafety] never perform one. *)

From S2P Require Import Prelude Access BufferView Dependencies Completion Buffer Trace Statistics.
Local Open Scope Z_scope.

Module Sched.

(** ** Prepared graphs *)

(** [GpuLane]. *)
Inductive GpuLane : Type := Upload | Compute | Download.
Definition lane_index (l : GpuLane) : nat :=
  match l with Upload => 0 | Compute => 1 | Download => 2 end.
Definition compute_lane : nat := lane_index Compute.
Definition lane_count : nat := 5.

(** [NodeState]. *)
Inductive NodeState : Type := Pending | Running | Done.
Global Instance node_state_eq_dec : EqDecision NodeState.
Proof. solve_decision. Defined.

(** [Operation], with the engine its backend runs on; the backend itself is
    native code. *)
Record Operation : Type := mkOperation {
  engine : Buffer.Engine;
  lane : GpuLane;
  copy_bytes : Z;
  op_uses : list Deps.Use;
  op_dependencies : list nat }.

(** [Operation::queue]. *)
Definition queue (op : Operation) : nat :=
  match engine op with
  | Buffer.Gpu => lane_index (lane op)
  | Buffer.Npu => 3
  | Buffer.Host => 4
  end.

(** [Slot], [Prepared]. *)
Record Slot : Type := mkSlot {
  nodes : list NodeState;
  occupied : bool;
  slot_failure : option Error }.
Record Prepared : Type := mkPrepared {
  quarantined : bool;
  parallel : bool;
  operations : list Operation;
  uses : list Deps.Use;
  slots : list Slot;
  signals : list Completion.Signal }.

Definition set_quarantined (p : Prepared) : Prepared :=
  mkPrepared true (parallel p) (operations p) (uses p) (slots p) (signals p).
Definition map_slot (s : nat) (f : Slot → Slot) (p : Prepared) : Prepared :=
  mkPrepared (quarantined p) (parallel p) (operations p) (uses p) (alter f s (slots p)) (signals p).
Definition map_signal (s : nat) (f : Completion.Signal → Completion.Signal) (p : Prepared) : Prepared :=
  mkPrepared (quarantined p) (parallel p) (operations p) (uses p) (slots p) (alter f s (signals p)).

(** The heap of prepared graphs. *)
Abbreviation heap := (gmap nat Prepared).

Definition slot_at (h : heap) (g s : nat) : option Slot := p ← h !! g; slots p !! s.
Definition signal_at (h : heap) (g s : nat) : option Completion.Signal := p ← h !! g; signals p !! s.
Definition on_slot (g s : nat) (f : Slot → Slot) (h : heap) : heap := alter (map_slot s f) g h.
Definition on_signal (g s : nat) (f : Completion.Signal → Completion.Signal) (h : heap) : heap :=
  alter (map_signal s f) g h.

(** [Completion]: [c_owner] is what [core.upgrade()] returns, [c_signal] the
    slot whose signal it observes, [None] for [Completion::ready()]. *)
Record Handle : Type := mkHandle { c_owner : option nat; c_signal : option (nat * nat) }.

(** [Completion::result] through the heap. *)
Definition handle_result (h : heap) (c : Handle) : option (Result unit) :=
  match c_signal c with
  | None => Completion.result Completion.new_signal
  | Some (g, s) => signal_at h g s ≫= Completion.result
  end.
Definition handle_complete (h : heap) (c : Handle) : bool :=
  match handle_result h c with Some _ => true | None => false end.

(** [Completion::clone] and [Drop for Completion]: only slot signals count
    their observers for admission. *)
Definition clone_handle (c : Handle) (h : heap) : heap :=
  match c_signal c with Some (g, s) => on_signal g s Completion.observe h | None => h end.
Definition drop_handle (c : Handle) (h : heap) : heap :=
  match c_signal c with Some (g, s) => on_signal g s Completion.unobserve h | None => h end.

(** ** Scheduler *)

(** [Pending] and [Scheduler] of scheduler.rs; [NodeState::Pending] already has
    the name, so the record is [Job]. *)
Record Job : Type := mkJob {
  sequence : Z;
  graph : nat;
  slot : nat;
  blockers : nat;
  dependencies : list Handle }.
Record Scheduler : Type := mkScheduler {
  pending : list Job;
  capacity : nat;
  shutdown : bool;
  finishing : list Z;
  running : list bool;
  next_sequence : Z;
  last_started : list (option Z);
  next_lane : nat;
  native : list Z;
  native_active : bool }.

(** The scheduler of [Core::new]. *)
Definition new_scheduler (cap : nat) : Scheduler :=
  mkScheduler [] cap false [] (replicate lane_count false) 0 (replicate lane_count None) 0 [] false.

(** [Scheduler::occupied]. *)
Definition sched_occupied (sch : Scheduler) : nat :=
  length (pending sch) + length (finishing sch) + length (native sch)
  + (if native_active sch then 1 else 0).

Definition lane_running (sch : Scheduler) (l : nat) : bool := default false (running sch !! l).

(** [Scheduler::native_ready]. *)
Definition native_ready (sch : Scheduler) (ticket : Z) : bool :=
  bool_decide (head (native sch) = Some ticket)
  && negb (lane_running sch compute_lane)
  && negb (existsb (λ job, sequence job <? ticket) (pending sch))
  && negb (existsb (λ s, s <? ticket) (finishing sch)).

(** [Scheduler::sequence]: [None] is the panic on exhaustion. *)
Definition take_sequence (sch : Scheduler) : option (Scheduler * Z) :=
  n ← checked_add (next_sequence sch) 1;
  Some (mkScheduler (pending sch) (capacity sch) (shutdown sch) (finishing sch) (running sch) n
          (last_started sch) (next_lane sch) (native sch) (native_active sch), next_sequence sch).

Definition graph_uses (h : heap) (g : nat) : list Deps.Use := default [] (uses <$> h !! g).

(** [Scheduler::conflicts]. *)
Definition conflicts (h : heap) (sch : Scheduler) (v : View.BufferView) (a : Access) : bool :=
  existsb (λ job, existsb (λ other,
      View.conflicts v (Deps.view other) && (writes a || writes (Deps.access other)))
    (graph_uses h (graph job))) (pending sch).

Definition set_pending (jobs : list Job) (sch : Scheduler) : Scheduler :=
  mkScheduler jobs (capacity sch) (shutdown sch) (finishing sch) (running sch) (next_sequence sch)
    (last_started sch) (next_lane sch) (native sch) (native_active sch).

(** [super::dependencies::conflicts(&a.graph.uses, &b.graph.uses)]. *)
Definition graphs_conflict (h : heap) (a b : nat) : bool :=
  Deps.conflicts (graph_uses h a) (graph_uses h b).

(** [Scheduler::enqueue]. *)
Definition enqueue (h : heap) (g s : nat) (deps : list Handle) (sch : Scheduler) : option Scheduler :=
  let blocked := length (filter (λ earlier, graphs_conflict h (graph earlier) g = true) (pending sch)) in
  '(sch, seq) ← take_sequence sch;
  Some (set_pending (pending sch ++ [mkJob seq g s blocked deps]) sch).

(** [later.blockers -= 1] when [job] conflicts with it. *)
Definition unblock (h : heap) (job later : Job) : Job :=
  if graphs_conflict h (graph job) (graph later)
  then mkJob (sequence later) (graph later) (slot later) (blockers later - 1) (dependencies later)
  else later.

(** [Scheduler::remove]. *)
Definition remove (h : heap) (index : nat) (sch : Scheduler) : option (Scheduler * Job) :=
  job ← pending sch !! index;
  Some (mkScheduler (take index (pending sch) ++ (unblock h job <$> drop (S index) (pending sch)))
          (capacity sch) (shutdown sch) (finishing sch ++ [sequence job]) (running sch)
          (next_sequence sch) (last_started sch) (next_lane sch) (native sch) (native_active sch),
        job).

(** ** Choosing an action *)

(** [Action]. *)
Inductive Action : Type :=
| Run (g s n : nat)
| Finish (job : Job) (failure : option Error).

(** The loop over [job.dependencies]: whether one is still pending, and the
    failure of the first failed one, where the loop breaks. *)
Fixpoint poll_dependencies (h : heap) (deps : list Handle) (waiting : bool) : bool * option Error :=
  match deps with
  | [] => (waiting, None)
  | d :: rest =>
      match handle_result h d with
      | None => poll_dependencies h rest true
      | Some (Ok _) => poll_dependencies h rest waiting
      | Some (Err e) => (waiting, Some (error_context e "inference dependency failed"))
      end
  end.

Definition is_done (st : NodeState) : bool := bool_decide (st = Done).
Definition all_done (sl : Slot) : bool := forallb is_done (nodes sl).
Definition skip_node (st : NodeState) : NodeState := if bool_decide (st = Pending) then Done else st.

(** A failed dependency is recorded; cancellation or a failure skips every node
    that has not started. *)
Definition settle (cancel : bool) (dependency_failure : option Error) (sl : Slot) : Slot :=
  let failure := match dependency_failure with Some e => Some e | None => slot_failure sl end in
  mkSlot (if cancel || bool_decide (is_Some failure) then skip_node <$> nodes sl else nodes sl)
    (occupied sl) failure.

(** [slot.failure.take()]. *)
Definition take_failure (sl : Slot) : Slot := mkSlot (nodes sl) (occupied sl) None.

(** The closure [rank] and the order of the pairs it returns. *)
Definition rank (sch : Scheduler) (l : nat) (seq : Z) : bool * Z :=
  (match last_started sch !! l with Some (Some last) => seq <=? last | _ => false end, seq).
Definition rank_lt (a b : bool * Z) : bool :=
  (negb a.1 && b.1) || (Bool.eqb a.1 b.1 && (a.2 <? b.2)).

(** [candidates]: per lane, the job index and the node. *)
Abbreviation Candidates := (list (option (nat * nat))).

(** A node that may start now. *)
Definition node_ready (sch : Scheduler) (job : Job) (sl : Slot) (index : nat) (op : Operation) : bool :=
  negb (lane_running sch (queue op))
  && negb ((queue op =? compute_lane)%nat
           && match head (native sch) with Some ticket => ticket <? sequence job | None => false end)
  && bool_decide (nodes sl !! index = Some Pending)
  && forallb (λ dep, bool_decide (nodes sl !! dep = Some Done)) (op_dependencies op).

(** [candidates[lane].is_none_or(|(earlier, _)| rank(..) < rank(..))]. *)
Definition beats (sch : Scheduler) (l : nat) (job : Job) (current : option (nat * nat)) : bool :=
  match current with
  | None => true
  | Some (earlier, _) =>
      match pending sch !! earlier with
      | Some other => rank_lt (rank sch l (sequence job)) (rank sch l (sequence other))
      | None => true
      end
  end.

(** The loop over [job.graph.operations]. *)
Fixpoint scan_operations (sch : Scheduler) (job_index : nat) (job : Job) (sl : Slot)
    (index : nat) (ops : list Operation) (candidates : Candidates) : Candidates :=
  match ops with
  | [] => candidates
  | op :: rest =>
      let l := queue op in
      scan_operations sch job_index job sl (S index) rest
        (if node_ready sch job sl index op && beats sch l job (candidates !! l ≫= id)
         then <[l := Some (job_index, index)]> candidates else candidates)
  end.

(** [target.is_none_or(|signal| Arc::ptr_eq(signal, &job.graph.signals[job.slot]))]. *)
Definition is_target (target : option (nat * nat)) (job : Job) : bool :=
  match target with None => true | Some t => bool_decide (t = (graph job, slot job)) end.

(** The loop over [pending]: either a target whose nodes are all done, or the
    candidates of each lane. *)
Inductive Scan : Type :=
| Terminal (job_index : nat) (failure : option Error)
| Ready (candidates : Candidates).

Fixpoint scan (sch : Scheduler) (target : option (nat * nat)) (job_index : nat) (jobs : list Job)
    (h : heap) (candidates : Candidates) : heap * Scan :=
  match jobs with
  | [] => (h, Ready candidates)
  | job :: rest =>
      match h !! graph job, slot_at h (graph job) (slot job), signal_at h (graph job) (slot job) with
      | Some p, Some sl, Some signal =>
          let '(waiting, failed) := poll_dependencies h (dependencies job) false in
          let sl := settle (Completion.cancel signal) failed sl in
          let h := on_slot (graph job) (slot job) (λ _, sl) h in
          if all_done sl then
            if negb (is_target target job) then scan sch target (S job_index) rest h candidates
            else (on_slot (graph job) (slot job) take_failure h,
                  Terminal job_index (slot_failure sl))
          else if negb (blockers job =? 0)%nat || waiting then
            scan sch target (S job_index) rest h candidates
          else
            scan sch target (S job_index) rest h
              (scan_operations sch job_index job sl 0 (operations p) candidates)
      | _, _, _ => scan sch target (S job_index) rest h candidates
      end
  end.

Definition set_node (n : nat) (st : NodeState) (sl : Slot) : Slot :=
  mkSlot (<[n := st]> (nodes sl)) (occupied sl) (slot_failure sl).

(** Reserve lane [l] for [job]. *)
Definition start_lane (l : nat) (seq : Z) (sch : Scheduler) : Scheduler :=
  mkScheduler (pending sch) (capacity sch) (shutdown sch) (finishing sch) (<[l := true]> (running sch))
    (next_sequence sch) (<[l := Some seq]> (last_started sch)) ((l + 1) mod lane_count)%nat
    (native sch) (native_active sch).
Definition stop_lane (l : nat) (sch : Scheduler) : Scheduler :=
  mkScheduler (pending sch) (capacity sch) (shutdown sch) (finishing sch) (<[l := false]> (running sch))
    (next_sequence sch) (last_started sch) (next_lane sch) (native sch) (native_active sch).

(** The loop over [offset]: the first lane from [next_lane] on whose candidate
    may be taken. *)
Fixpoint pick (sch : Scheduler) (target : option (nat * nat)) (candidates : Candidates)
    (offsets : list nat) : option (nat * Job * nat) :=
  match offsets with
  | [] => None
  | offset :: rest =>
      let l := ((next_lane sch + offset) mod lane_count)%nat in
      match candidates !! l ≫= id with
      | None => pick sch target candidates rest
      | Some (job_index, node) =>
          match pending sch !! job_index with
          | Some job =>
              if is_target target job then Some (l, job, node) else pick sch target candidates rest
          | None => pick sch target candidates rest
          end
      end
  end.

(** [next_action]. *)
Definition next_action (sch : Scheduler) (h : heap) (target : option (nat * nat))
    : Scheduler * heap * option Action :=
  match scan sch target 0 (pending sch) h (replicate lane_count None) with
  | (h, Terminal job_index failure) =>
      match remove h job_index sch with
      | Some (sch, job) => (sch, h, Some (Finish job failure))
      | None => (sch, h, None)
      end
  | (h, Ready candidates) =>
      match pick sch target candidates (seq 0 lane_count) with
      | Some (l, job, node) =>
          (start_lane l (sequence job) sch,
           on_slot (graph job) (slot job) (set_node node Running) h,
           Some (Run (graph job) (slot job) node))
      | None => (sch, h, None)
      end
  end.

(** ** Running a region *)

Abbreviation stores := (gmap Z Buffer.State).

Definition use_storage (u : Deps.Use) : View.Storage := View.storage (Deps.view u).
Definition poison_of (sts : stores) (u : Deps.Use) : option string :=
  st ← sts !! View.st_id (use_storage u); Buffer.poison (Buffer.host st).

(** The first loop of [Operation::run]: reject poisoned allocations and make the
    others visible to the engine, counting cache maintenance; [maintain] is the
    native cache control of each allocation. *)
Fixpoint prepare_uses (e : Buffer.Engine) (maintain : Z → bool → Result unit) (us : list Deps.Use)
    (sts : stores) (c : Stats.Counters) : stores * Stats.Counters * Result unit :=
  match us with
  | [] => (sts, c, Ok tt)
  | u :: rest =>
      let id := View.st_id (use_storage u) in
      match sts !! id with
      | None => prepare_uses e maintain rest sts c
      | Some st =>
          match Buffer.poison (Buffer.host st) with
          | Some message => (sts, c, Err (DeviceLost message))
          | None =>
              match Buffer.make_visible (use_storage u) (maintain id) e (Buffer.visibility st) with
              | Err er => (sts, c, Err er)
              | Ok (v, n) =>
                  prepare_uses e maintain rest (<[id := Buffer.mkState (Buffer.host st) v]> sts)
                    (Stats.count_maintenance n c)
              end
          end
      end
  end.

(** Its last loop: the engine holds the newest contents of what it wrote. *)
Definition mark_written (e : Buffer.Engine) (us : list Deps.Use) (sts : stores) : stores :=
  foldl (λ sts u,
    if writes (Deps.access u)
    then alter (λ st, Buffer.mkState (Buffer.host st) (Buffer.wrote e))
           (View.st_id (use_storage u)) sts
    else sts) sts us.

(** [Operation::run] under [catch_unwind]: [backend] is the outcome of the
    native work, [None] a panic. *)
Definition run (op : Operation) (maintain : Z → bool → Result unit) (backend : option (Result unit))
    (sts : stores) (c : Stats.Counters) : stores * Stats.Counters * option (Result unit) :=
  match prepare_uses (engine op) maintain (op_uses op) sts c with
  | (sts, c, Err e) => (sts, c, Some (Err e))
  | (sts, c, Ok _) =>
      match backend with
      | Some (Ok _) =>
          let c := if negb (copy_bytes op =? 0) && negb (length (op_uses op) =? 0)%nat
                   then Stats.count_copy (lane_index (lane op)) (copy_bytes op) c else c in
          (mark_written (engine op) (op_uses op) sts, c, Some (Ok tt))
      | other => (sts, c, other)
      end
  end.

(** The failure a finished region reports. *)
Definition region_failure (node : nat) (outcome : option (Result unit)) : option Error :=
  match outcome with
  | Some (Ok _) => None
  | Some (Err e) => Some (error_context e ("executing graph region " +:+ pretty node))
  | None => Some (DeviceLost "native worker panicked")
  end.

(** Poison every allocation of a failed graph. *)
Definition poison_uses (message : string) (us : list Deps.Use) (sts : stores) : stores :=
  foldl (λ sts u, alter (λ st, Buffer.mkState (Buffer.set_poison message (Buffer.host st))
                                 (Buffer.visibility st)) (View.st_id (use_storage u)) sts) sts us.

Definition node_queue (h : heap) (g n : nat) : nat :=
  default compute_lane (p ← h !! g; op ← operations p !! n; Some (queue op)).

Definition finish_node (n : nat) (failure : option Error) (sl : Slot) : Slot :=
  mkSlot (<[n := Done]> (nodes sl)) (occupied sl)
    (match failure with Some e => Some e | None => slot_failure sl end).

(** The locked tail of [perform] for [Action::Run]. *)
Definition complete_run (g s n : nat) (failure : option Error) (sch : Scheduler) (h : heap)
    (sts : stores) : Scheduler * heap * stores :=
  let sch := stop_lane (node_queue h g n) sch in
  let '(h, sts) :=
    match failure with
    | Some e => (alter set_quarantined g h, poison_uses (error_to_string e) (graph_uses h g) sts)
    | None => (h, sts)
    end in
  (sch, on_slot g s (finish_node n failure) h, sts).

(** ** Finishing a submission *)

Definition release_slot (sl : Slot) : Slot := mkSlot (nodes sl) false (slot_failure sl).

(** [perform] for [Action::Finish] before the scheduler is locked: free the
    slot, drop the dependency handles, count the completion. *)
Definition release_job (job : Job) (h : heap) (c : Stats.Counters) : heap * Stats.Counters :=
  (foldl (λ h d, drop_handle d h) (on_slot (graph job) (slot job) release_slot h) (dependencies job),
   Stats.count_completion c).

Definition set_finishing (f : list Z) (sch : Scheduler) : Scheduler :=
  mkScheduler (pending sch) (capacity sch) (shutdown sch) f (running sch) (next_sequence sch)
    (last_started sch) (next_lane sch) (native sch) (native_active sch).

(** Its locked section: leave [finishing] and publish; [None] is the panic when
    the submission is not in [finishing].  The wakers are returned. *)
Definition publish_job (now : Z) (job : Job) (failure : option Error) (sch : Scheduler) (h : heap)
    : option (Scheduler * heap * list nat) :=
  '(index, _) ← list_find (λ s, s = sequence job) (finishing sch);
  let woken := match signal_at h (graph job) (slot job) with
               | Some s => (Completion.publish now failure s).2
               | None => []
               end in
  Some (set_finishing (swap_remove index (finishing sch)) sch,
        on_signal (graph job) (slot job) (λ s, (Completion.publish now failure s).1) h,
        woken).

(** ** Submitting *)

(** [ExecutableGraph::usable]. *)
Definition usable (h : heap) (sts : stores) (g : nat) : Result unit :=
  match h !! g with
  | None => Ok tt
  | Some p =>
      if quarantined p then Err (DeviceLost "graph quarantined after native failure")
      else match list_find (λ u, is_Some (poison_of sts u)) (uses p) with
           | Some (_, u) => Err (DeviceLost (default "" (poison_of sts u)))
           | None => Ok tt
           end
  end.

(** The loop over the producers before the lock. *)
Fixpoint check_producers (core : nat) (h : heap) (deps : list Handle) : Result unit :=
  match deps with
  | [] => Ok tt
  | d :: rest =>
      match c_owner d with
      | Some owner =>
          if (owner =? core)%nat then check_producers core h rest
          else Err (Message "completion belongs to another runtime")
      | None =>
          if handle_complete h d then check_producers core h rest
          else Err (Message "orphaned incomplete producer")
      end
  end.

Fixpoint check_host_conflicts (sts : stores) (us : list Deps.Use) : Result unit :=
  match us with
  | [] => Ok tt
  | u :: rest =>
      let? _ := match sts !! View.st_id (use_storage u) with
                | Some st => Buffer.host_conflict (Buffer.host st) (Deps.access u)
                | None => Ok tt
                end in
      check_host_conflicts sts rest
  end.

(** A slot that may be reused. *)
Definition slot_free (x : Slot * Completion.Signal) : Prop :=
  occupied x.1 = false ∧ Completion.observers x.2 = 0%nat ∧ Completion.done_flag x.2 = true.
Global Instance slot_free_dec x : Decision (slot_free x).
Proof. unfold slot_free. apply _. Defined.

Definition reset_slot (sl : Slot) : Slot := mkSlot ((λ _, Pending) <$> nodes sl) true None.

(** The locked section of [submit_after]; the outer [None] is a panic. *)
Definition admission (core : nat) (now : Z) (g : nat) (deps : list Handle) (sch : Scheduler) (h : heap)
    (sts : stores) (c : Stats.Counters)
    : option (Result (Scheduler * heap * Stats.Counters * Handle)) :=
  if (capacity sch <=? sched_occupied sch)%nat then
    Some (Err (Busy "runtime submission capacity exhausted"))
  else
    p ← h !! g;
    match check_host_conflicts sts (uses p) with
    | Err e => Some (Err e)
    | Ok _ =>
        match list_find slot_free (zip (slots p) (signals p)) with
        | None =>
            Some (Err (Busy "prepared run slots are occupied; drop completed observers or reserve more slots"))
        | Some (s, _) =>
            let h := on_signal g s (Completion.reset now) h in
            let h := on_slot g s reset_slot h in
            let h := on_signal g s Completion.observe h in
            let h := foldl (λ h d, clone_handle d h) h deps in
            sch ← enqueue h g s deps sch;
            Some (Ok (sch, h, Stats.count_submission c, mkHandle (Some core) (Some (g, s))))
        end
    end.

(** [ExecutableGraph::submit_after], without interference between its checks
    and its locked section. *)
Definition submit_after (core : nat) (now : Z) (g : nat) (deps : list Handle) (sch : Scheduler)
    (h : heap) (sts : stores) (c : Stats.Counters)
    : option (Result (Scheduler * heap * Stats.Counters * Handle)) :=
  match (let? _ := usable h sts g in check_producers core h deps) with
  | Err e => Some (Err e)
  | Ok _ => admission core now g deps sch h sts c
  end.

(** ** Native stages *)

Definition push_native (ticket : Z) (sch : Scheduler) : Scheduler :=
  mkScheduler (pending sch) (capacity sch) (shutdown sch) (finishing sch) (running sch)
    (next_sequence sch) (last_started sch) (next_lane sch) (native sch ++ [ticket]) (native_active sch).

(** [NativeLease::acquire] up to its wait: take a ticket. *)
Definition native_enter (sch : Scheduler) : option (Result (Scheduler * Z)) :=
  if (capacity sch <=? sched_occupied sch)%nat then
    Some (Err (Busy "runtime submission capacity exhausted"))
  else
    '(sch, ticket) ← take_sequence sch;
    Some (Ok (push_native ticket sch, ticket)).

(** The end of [acquire] and [yield_now], when [native_ready]: the lease is held. *)
Definition native_grant (sch : Scheduler) : Scheduler :=
  mkScheduler (pending sch) (capacity sch) (shutdown sch) (finishing sch)
    (<[compute_lane := true]> (running sch)) (next_sequence sch) (last_started sch) (next_lane sch)
    (tail (native sch)) true.

(** [Drop for NativeLease]. *)
Definition native_release (sch : Scheduler) : Scheduler :=
  mkScheduler (pending sch) (capacity sch) (shutdown sch) (finishing sch)
    (<[compute_lane := false]> (running sch)) (next_sequence sch) (last_started sch) (next_lane sch)
    (native sch) false.

(** [NativeLease::yield_now] up to its wait. *)
Definition native_yield (sch : Scheduler) : option (Scheduler * Z) :=
  '(sch, ticket) ← take_sequence sch;
  Some (native_release (push_native ticket sch), ticket).

(** [NativeLease::has_waiters]. *)
Definition has_waiters (sch : Scheduler) : bool :=
  negb (length (pending sch) =? 0)%nat || negb (length (finishing sch) =? 0)%nat
  || negb (length (native sch) =? 0)%nat.

(** One iteration of [worker] with the scheduler locked: an action, or whether
    the worker exits. *)
Inductive WorkerStep : Type := Act (a : Action) | Exit | Sleep.
Definition worker_step (sch : Scheduler) (h : heap) : Scheduler * heap * WorkerStep :=
  match next_action sch h None with
  | (sch, h, Some a) => (sch, h, Act a)
  | (sch, h, None) =>
      (sch, h, if shutdown sch && (length (pending sch) =? 0)%nat then Exit else Sleep)
  end.

End Sched.
