(* ===== verification/SchedulerSteps.v ===== *)
(** * Steps of the coordinated runtime

    The atomic steps of the clients, workers, native stages and host mappings
    of one runtime, composed from the critical sections of [Scheduler] and
    [Buffer] the way src/src/execution/scheduler.rs ([worker], [help],
    [perform]), graph.rs ([submit_after]), buffer.rs ([acquire_with], guard
    drops), completion.rs and handoff.rs compose them.  [step] interleaves them
    freely: nothing is assumed about the order in which threads run. *)

From S2P Require Import Prelude Access DependencyFrontier BufferView Dependencies Completion Buffer Trace Statistics Scheduler.
Local Open Scope Z_scope.

Module Steps.
Import Sched.

(** What a worker or helper holds between two critical sections: a region to
    run, a region that ran, a submission to finish, one whose slot is released. *)
Inductive Token : Type :=
| TRun (g s n : nat)
| TRan (g s n : nat) (failure : option Error)
| TFinish (job : Job) (failure : option Error)
| TReleased (job : Job) (failure : option Error).

(** One runtime with its clients. [storages] lists the tracked allocations,
    [handles] the completions clients hold. *)
Record World : Type := mkWorld {
  core : nat;
  sched : Scheduler;
  graphs : heap;
  storages : gmap Z View.Storage;
  sts : stores;
  counters : Stats.Counters;
  tracer : Trace.Tracer;
  tokens : list Token;
  handles : list Handle }.

(** [Runtime::with_options]. *)
Definition new_world (id cap : nat) : World :=
  mkWorld id (new_scheduler cap) ∅ ∅ ∅ Stats.counters_default Trace.tracer_default [] [].

Definition token_of (a : Action) : Token :=
  match a with Run g s n => TRun g s n | Finish job failure => TFinish job failure end.

(** A worker ([target = None]) or a blocked caller takes its next action. *)
Definition take_action (target : option (nat * nat)) (w : World) : World * option Action :=
  match next_action (sched w) (graphs w) target with
  | (sch, h, a) =>
      (mkWorld (core w) sch h (storages w) (sts w) (counters w) (tracer w)
         (tokens w ++ match a with Some a => [token_of a] | None => [] end) (handles w), a)
  end.

(** [perform] of a region outside the lock: note the start, run, trace. *)
Definition execute (now elapsed : Z) (g s n : nat) (maintain : Z → bool → Result unit)
    (backend : option (Result unit)) (w : World) : World * option Error :=
  match (p ← graphs w !! g; operations p !! n) with
  | None => (w, None)
  | Some op =>
      let '(sts', c, outcome) := run op maintain backend (sts w) (counters w) in
      let failure := region_failure n outcome in
      (mkWorld (core w) (sched w) (on_signal g s (Completion.mark_started now) (graphs w))
         (storages w) sts' c
         (Trace.record now elapsed (queue op) (copy_bytes op) (bool_decide (is_Some failure)) (tracer w))
         (tokens w) (handles w), failure)
  end.

Definition with_tokens (ts : list Token) (w : World) : World :=
  mkWorld (core w) (sched w) (graphs w) (storages w) (sts w) (counters w) (tracer w) ts (handles w).

(** Its locked tail. *)
Definition complete (g s n : nat) (failure : option Error) (w : World) : World :=
  let '(sch, h, sts') := complete_run g s n failure (sched w) (graphs w) (sts w) in
  mkWorld (core w) sch h (storages w) sts' (counters w) (tracer w) (tokens w) (handles w).

(** [perform] of a finished submission: release, then publish. *)
Definition release (job : Job) (w : World) : World :=
  let '(h, c) := release_job job (graphs w) (counters w) in
  mkWorld (core w) (sched w) h (storages w) (sts w) c (tracer w) (tokens w) (handles w).
Definition publish (now : Z) (job : Job) (failure : option Error) (w : World) : option World :=
  '(sch, h, _) ← publish_job now job failure (sched w) (graphs w);
  Some (mkWorld (core w) sch h (storages w) (sts w) (counters w) (tracer w) (tokens w) (handles w)).

(** A client submits. *)
Definition submit (now : Z) (g : nat) (deps : list Handle) (w : World) : option (Result World) :=
  r ← admission (core w) now g deps (sched w) (graphs w) (sts w) (counters w);
  Some (result_map (λ '(sch, h, c, hd),
    mkWorld (core w) sch h (storages w) (sts w) c (tracer w) (tokens w) (handles w ++ [hd])) r).

Definition with_graphs (h : heap) (w : World) : World :=
  mkWorld (core w) (sched w) h (storages w) (sts w) (counters w) (tracer w) (tokens w) (handles w).
Definition with_sched (sch : Scheduler) (w : World) : World :=
  mkWorld (core w) sch (graphs w) (storages w) (sts w) (counters w) (tracer w) (tokens w) (handles w).
Definition with_stores (x : stores) (w : World) : World :=
  mkWorld (core w) (sched w) (graphs w) (storages w) x (counters w) (tracer w) (tokens w) (handles w).

(** [Completion::clone], [Drop for Completion], [Completion::ready]. *)
Definition clone_completion (c : Handle) (w : World) : World :=
  mkWorld (core w) (sched w) (clone_handle c (graphs w)) (storages w) (sts w) (counters w) (tracer w)
    (tokens w) (handles w ++ [c]).
Definition drop_completion (i : nat) (c : Handle) (w : World) : World :=
  mkWorld (core w) (sched w) (drop_handle c (graphs w)) (storages w) (sts w) (counters w) (tracer w)
    (tokens w) (delete i (handles w)).
Definition ready_completion (w : World) : World :=
  mkWorld (core w) (sched w) (graphs w) (storages w) (sts w) (counters w) (tracer w) (tokens w)
    (handles w ++ [mkHandle None None]).

(** Host mapping: [Buffer::acquire_with] reserving on the whole allocation. *)
Definition host_access (write : bool) : Access := if write then ReadWrite else Read.
Definition map_host (s : View.Storage) (write wait : bool) (w : World) : option Buffer.attempt :=
  st ← sts w !! View.st_id s;
  Some (Buffer.acquire_attempt s write wait
    (conflicts (graphs w) (sched w) (View.buffer_view s) (host_access write)) (Buffer.host st)).
Definition set_host (s : View.Storage) (hst : Buffer.HostState) (w : World) : World :=
  with_stores (alter (λ st, Buffer.mkState hst (Buffer.visibility st)) (View.st_id s) (sts w)) w.

(** [Runtime::with_gpu_access], one pass of its loop: every root allocation is
    free of host leases and of pending uses, and is reserved. *)
Definition handoff_ready (roots : list View.Storage) (w : World) : bool :=
  forallb (λ s,
    match sts w !! View.st_id s with
    | Some st => is_ok (Buffer.host_conflict (Buffer.host st) ReadWrite)
    | None => true
    end
    && negb (conflicts (graphs w) (sched w) (View.buffer_view s) ReadWrite)) roots.
Definition set_external (x : bool) (st : Buffer.State) : Buffer.State :=
  Buffer.mkState (Buffer.mkHost (Buffer.readers (Buffer.host st)) (Buffer.writer (Buffer.host st)) x
    (Buffer.poison (Buffer.host st))) (Buffer.visibility st).
Definition handoff_reserve (roots : list View.Storage) (w : World) : World :=
  with_stores (foldl (λ x s, alter (set_external true) (View.st_id s) x) (sts w) roots) w.

(** ** Prepared graphs *)

(** What [Graph::prepare] establishes for a graph of this runtime: the recorded
    dependencies, summaries, and one node per operation in every slot. *)
Record well_prepared (reg : gmap Z View.Storage) (p : Prepared) : Prop := {
  prep_registered : ∀ op u, op ∈ operations p → u ∈ op_uses op →
    reg !! View.st_id (use_storage u) = Some (use_storage u) ∧ View.valid (Deps.view u);
  prep_dependencies :
    Frontier.record_all ((λ op, Deps.interval_use <$> op_uses op) <$> operations p)
    = Some (op_dependencies <$> operations p);
  prep_uses : uses p = Deps.summarize (operations p ≫= op_uses);
  prep_slots : ∀ s sl, slots p !! s = Some sl → length (nodes sl) = length (operations p);
  prep_signals : length (signals p) = length (slots p);
  prep_nonempty : operations p ≠ [] }.

(** A graph that has never been submitted. *)
Record fresh_graph (p : Prepared) : Prop := {
  fresh_quarantined : quarantined p = false;
  fresh_slots : ∀ s sl, slots p !! s = Some sl →
    occupied sl = false ∧ slot_failure sl = None ∧ Forall (λ st, st = Pending) (nodes sl);
  fresh_signals : ∀ s sig, signals p !! s = Some sig → sig = Completion.new_signal }.

(** ** The step relation *)

Inductive step : World → World → Prop :=
| step_allocate w s v :
    storages w !! View.st_id s = None → 0 < View.st_bytes s →
    step w (mkWorld (core w) (sched w) (graphs w) (<[View.st_id s := s]> (storages w))
              (<[View.st_id s := Buffer.mkState Buffer.host_default v]> (sts w))
              (Stats.count_allocation (View.st_shared s) (View.st_bytes s) (counters w))
              (tracer w) (tokens w) (handles w))
| step_prepare w g p :
    graphs w !! g = None → well_prepared (storages w) p → fresh_graph p →
    step w (with_graphs (<[g := p]> (graphs w)) w)
| step_submit w w' now g deps :
    (∀ d, d ∈ deps → d ∈ handles w) → submit now g deps w = Some (Ok w') → step w w'
| step_take w w' target a : take_action target w = (w', Some a) → step w w'
| step_poll_idle w w' target : take_action target w = (w', None) → step w w'
| step_execute w w' i now elapsed g s n maintain backend failure :
    tokens w !! i = Some (TRun g s n) → execute now elapsed g s n maintain backend w = (w', failure) →
    step w (with_tokens (<[i := TRan g s n failure]> (tokens w')) w')
| step_complete w i g s n failure :
    tokens w !! i = Some (TRan g s n failure) →
    step w (with_tokens (delete i (tokens w)) (complete g s n failure w))
| step_release w i job failure :
    tokens w !! i = Some (TFinish job failure) →
    step w (with_tokens (<[i := TReleased job failure]> (tokens w)) (release job w))
| step_publish w w' i now job failure :
    tokens w !! i = Some (TReleased job failure) → publish now job failure w = Some w' →
    step w (with_tokens (delete i (tokens w)) w')
| step_clone w c : c ∈ handles w → step w (clone_completion c w)
| step_drop w i c : handles w !! i = Some c → step w (drop_completion i c w)
| step_ready w : step w (ready_completion w)
| step_cancel w c g s :
    c ∈ handles w → c_signal c = Some (g, s) →
    step w (with_graphs (on_signal g s Completion.request_cancel (graphs w)) w)
| step_poll w c g s waker :
    c ∈ handles w → c_signal c = Some (g, s) →
    step w (with_graphs (on_signal g s (λ x, (Completion.poll waker x).1) (graphs w)) w)
| step_native_enter w sch ticket :
    native_enter (sched w) = Some (Ok (sch, ticket)) → step w (with_sched sch w)
| step_native_grant w ticket :
    native_ready (sched w) ticket = true → step w (with_sched (native_grant (sched w)) w)
| step_native_yield w sch ticket :
    native_active (sched w) = true → native_yield (sched w) = Some (sch, ticket) →
    step w (with_sched sch w)
| step_native_drop w :
    native_active (sched w) = true → step w (with_sched (native_release (sched w)) w)
| step_map w s write wait hst :
    storages w !! View.st_id s = Some s →
    map_host s write wait w = Some (Buffer.Reserved hst) → step w (set_host s hst w)
| step_unmap w s (write : bool) st :
    storages w !! View.st_id s = Some s → sts w !! View.st_id s = Some st →
    (if write then Buffer.writer (Buffer.host st) = true else 0 < Buffer.readers (Buffer.host st)) →
    step w (set_host s (Buffer.unreserve write (Buffer.host st)) w)
| step_visibility w (s : View.Storage) (v : Buffer.Visibility) :
    step w (with_stores (alter (λ st : Buffer.State, Buffer.mkState (Buffer.host st) v) (View.st_id s) (sts w)) w)
| step_handoff w roots :
    (∀ s, s ∈ roots → storages w !! View.st_id s = Some s) → handoff_ready roots w = true →
    step w (handoff_reserve roots w)
| step_handoff_end w s uncertain st :
    storages w !! View.st_id s = Some s → sts w !! View.st_id s = Some st →
    Buffer.external (Buffer.host st) = true →
    step w (set_host s (Buffer.release_external uncertain (Buffer.host st)) w)
| step_trace w t : step w (mkWorld (core w) (sched w) (graphs w) (storages w) (sts w) (counters w) t
                             (tokens w) (handles w))
| step_shutdown w : step w (with_sched (mkScheduler (pending (sched w)) (capacity (sched w)) true
    (finishing (sched w)) (running (sched w)) (next_sequence (sched w)) (last_started (sched w))
    (next_lane (sched w)) (native (sched w)) (native_active (sched w))) w).

Definition reachable (w : World) : Prop := ∃ id cap, rtc step (new_world id cap) w.

End Steps.
