(* ===== verification/GraphBuild.v ===== *)
(** * Building and preparing graphs

    The pipeline builder of src/src/execution/graph.rs: [Graph] with its
    operations, and [Graph::prepare], which groups consecutive operations into
    regions, infers the dependencies between and inside regions and reserves the
    run slots.  Native preparation of a region (queues, streams, command
    buffers) is foreign code: [lower] says whether it succeeds.  The theorems
    show that a prepared graph satisfies what the scheduler relies on, and that
    every hazard of the program order is ordered by the prepared graph. *)

From S2P Require Import Prelude Access DependencyFrontier BufferView Dependencies Contract Completion Buffer Trace Statistics Scheduler SchedulerSteps.
Local Open Scope Z_scope.

Module GraphBuild.
Import Sched Steps.

(** ** The builder *)

(** [GpuKernel] and [crate::npu::NpuKernel]: the runtime and the contract. *)
Record Kernel : Type := mkKernel { kernel_runtime : nat; contract : Contract.KernelContract }.

(** [Description]. *)
Inductive Description : Type :=
| Fill (destination : View.BufferView) (value : Z)
| Copy (destination source : View.BufferView)
| Dispatch (kernel : Kernel) (bindings : list View.BufferView)
| Scoped (bindings : list View.BufferView)
| NpuDispatch (kernel : Kernel) (bindings : list View.BufferView).

(** [Entry], [Graph]. *)
Record Entry : Type := mkEntry { operation : Description; entry_uses : list Deps.Use; entry_lane : GpuLane }.
Record Graph : Type := mkGraph {
  graph_runtime : nat;
  entries : list Entry;
  fragment_scratch : list (bool * View.BufferView) }.

(** [Graph::new]. *)
Definition new_graph (runtime : nat) : Graph := mkGraph runtime [] [].

(** [BufferView::gpu] with the bounds check of the low-level view. *)
Definition gpu (v : View.BufferView) : Result unit :=
  if negb (View.st_gpu (View.storage v)) then Err (Unsupported "NPU-local storage cannot bind to the GPU")
  else checked_span (View.offset v) (View.len v) (View.st_bytes (View.storage v)).

Fixpoint all_gpu (views : list View.BufferView) : Result unit :=
  match views with [] => Ok tt | v :: rest => let? _ := gpu v in all_gpu rest end.

(** [Graph::push]. *)
Definition push (d : Description) (us : list Deps.Use) (l : GpuLane) (g : Graph) : Result (Graph * nat) :=
  if existsb (λ u, negb (View.st_runtime (View.storage (Deps.view u)) =? graph_runtime g)%nat) us
  then Err (Message "buffer belongs to another runtime")
  else Ok (mkGraph (graph_runtime g) (entries g ++ [mkEntry d us l]) (fragment_scratch g),
           length (entries g)).

(** [Graph::fill]. *)
Definition fill (destination : View.BufferView) (value : Z) (g : Graph) : Result (Graph * nat) :=
  let? _ := gpu destination in
  push (Fill destination value) [Deps.mkUse destination Write] Compute g.

(** [Graph::copy_on], [Graph::copy]. *)
Definition copy_on (destination source : View.BufferView) (l : GpuLane) (g : Graph)
    : Result (Graph * nat) :=
  let? _ := gpu destination in
  let? _ := gpu source in
  if negb (View.len destination =? View.len source) || View.overlaps destination source
  then Err (Message "copy needs equal, nonoverlapping ranges")
  else push (Copy destination source) [Deps.mkUse destination Write; Deps.mkUse source Read] l g.

Definition copy_lane (destination source : View.BufferView) : GpuLane :=
  match View.st_mapped (View.storage source), View.st_mapped (View.storage destination) with
  | true, false => Upload
  | false, true => Download
  | _, _ => Compute
  end.
Definition copy (destination source : View.BufferView) (g : Graph) : Result (Graph * nat) :=
  copy_on destination source (copy_lane destination source) g.

(** [Graph::gpu_scoped]: [bindings] with their declared accesses. *)
Definition gpu_scoped (bindings : list Deps.Use) (g : Graph) : Result (Graph * nat) :=
  let? _ := all_gpu (Deps.view <$> bindings) in
  push (Scoped (Deps.view <$> bindings)) bindings Compute g.

(** The uses of a dispatch: each binding with the access its argument declares. *)
Definition dispatch_uses (c : Contract.KernelContract) (bindings : list View.BufferView) : list Deps.Use :=
  zip_with (λ v b, Deps.mkUse v (Contract.access b)) bindings (Contract.bindings c).

(** The loop over bindings and contracts: [address] is the native address of the
    allocation as the engine sees it. *)
Fixpoint check_addresses (what : string) (bind : View.BufferView → Result unit)
    (address : View.Storage → Result Z) (views : list View.BufferView)
    (cs : list Contract.BindingContract) : Result unit :=
  match views, cs with
  | v :: views, b :: cs =>
      let? _ := bind v in
      let? a := address (View.storage v) in
      if negb ((a + View.offset v) mod Contract.alignment b =? 0)
      then Err (Message (what +:+ " allocation does not satisfy kernel alignment"))
      else check_addresses what bind address views cs
  | _, _ => Ok tt
  end.

(** [Graph::gpu_aliasing], [Graph::gpu]. *)
Definition gpu_aliasing (address : View.Storage → Result Z) (k : Kernel)
    (bindings : list View.BufferView) (g : Graph) : Result (Graph * nat) :=
  if negb (kernel_runtime k =? graph_runtime g)%nat then Err (Message "kernel belongs to another runtime")
  else
    let? _ := Contract.check_extents (contract k) bindings in
    let? _ := check_addresses "GPU" gpu address bindings (Contract.bindings (contract k)) in
    push (Dispatch k bindings) (dispatch_uses (contract k) bindings) Compute g.
Definition gpu_dispatch (address : View.Storage → Result Z) (k : Kernel)
    (bindings : list View.BufferView) (g : Graph) : Result (Graph * nat) :=
  let? _ := Contract.check (contract k) bindings in gpu_aliasing address k bindings g.

(** [Graph::npu]: the binding needs native storage. *)
Definition has_native (v : View.BufferView) : Result unit :=
  if View.st_native (View.storage v) then Ok tt else Err (Unsupported "binding has no native storage").
Definition npu (address : View.Storage → Result Z) (k : Kernel) (bindings : list View.BufferView)
    (g : Graph) : Result (Graph * nat) :=
  let? _ := Contract.check (contract k) bindings in
  let? _ := check_addresses "NPU" has_native address bindings (Contract.bindings (contract k)) in
  push (NpuDispatch k bindings) (dispatch_uses (contract k) bindings) Compute g.

(** [Graph::fragment_scratch]: best fit among unused pooled views of the same
    placement, or a new allocation from [allocate]. *)
Fixpoint best_fit (used : list nat) (host_visible : bool) (bytes : Z) (index : nat)
    (pool : list (bool * View.BufferView)) (best : option (nat * Z)) : option (nat * Z) :=
  match pool with
  | [] => best
  | (host, v) :: rest =>
      let fits := negb (bool_decide (index ∈ used)) && Bool.eqb host host_visible && (bytes <=? View.len v) in
      let better := match best with None => true | Some (_, n) => View.len v <? n end in
      best_fit used host_visible bytes (S index) rest
        (if fits && better then Some (index, View.len v) else best)
  end.

Fixpoint scratch_views (allocate : nat → Z → bool → Result View.BufferView) (requests : list (Z * bool))
    (used : list nat) (pool : list (bool * View.BufferView))
    : list (bool * View.BufferView) * Result (list View.BufferView) :=
  match requests with
  | [] => (pool, Ok [])
  | (bytes, host_visible) :: rest =>
      match
        match best_fit used host_visible bytes 0 pool None with
        | Some (index, _) => Ok (pool, index)
        | None =>
            let? v := allocate (length pool) bytes host_visible in
            Ok (pool ++ [(host_visible, v)], length pool)
        end
      with
      | Err e => (pool, Err e)
      | Ok (pool, index) =>
          match let? v := ok_or (snd <$> pool !! index) (Message "") in View.slice v (mkRange 0 bytes) with
          | Err e => (pool, Err e)
          | Ok v =>
              let (pool, r) := scratch_views allocate rest (used ++ [index]) pool in
              (pool, let? vs := r in Ok (v :: vs))
          end
      end
  end.
Definition take_scratch (allocate : nat → Z → bool → Result View.BufferView) (requests : list (Z * bool))
    (g : Graph) : Graph * Result (list View.BufferView) :=
  let (pool, r) := scratch_views allocate requests [] (fragment_scratch g) in
  (mkGraph (graph_runtime g) (entries g) pool, r).

(** ** Preparation *)

(** [Backend], without native handles; [RGpu] has the dependencies recorded
    between the entries of the region. *)
Inductive Backend : Type :=
| RAql | RSdma | RCopies | RGpu (inner : list (list nat)) | RScoped | RNpu.

(** A region under construction: an [Operation] before its dependencies. *)
Record Region : Type := mkRegion {
  backend : Backend;
  members : list Entry;
  region_lane : GpuLane }.

Definition region_engine (r : Region) : Buffer.Engine :=
  match backend r with RNpu => Buffer.Npu | _ => Buffer.Gpu end.
(** The uses of the entries; a native graph region summarizes them at once. *)
Definition member_uses (r : Region) : list Deps.Use := members r ≫= entry_uses.
Definition region_uses (r : Region) : list Deps.Use :=
  match backend r with RGpu _ => Deps.summarize (member_uses r) | _ => member_uses r end.
Definition entry_copied (e : Entry) : Z :=
  match operation e with Copy dst _ => View.len dst | _ => 0 end.
Definition region_copied (r : Region) : Z :=
  match backend r with
  | RSdma | RCopies | RGpu _ => foldr Z.add 0 (entry_copied <$> members r)
  | _ => 0
  end.

Definition is_scoped (e : Entry) : bool := match operation e with Scoped _ => true | _ => false end.
Definition is_npu (e : Entry) : bool := match operation e with NpuDispatch _ _ => true | _ => false end.
Definition is_dispatch (e : Entry) : bool := match operation e with Dispatch _ _ => true | _ => false end.
Definition is_copy (e : Entry) : bool := match operation e with Copy _ _ => true | _ => false end.

(** [RuntimeOptions]: the engines selected for kernels and copies. *)
Record Options : Type := mkOptions { aql : bool; sdma : bool; graph_slots : nat }.

Definition lane_eqb (a b : GpuLane) : bool := (lane_index a =? lane_index b)%nat.

(** The inner loop: an entry that continues the region of lane [l]. *)
Definition continues (o : Options) (l : GpuLane) (e : Entry) : bool :=
  negb (is_scoped e) && negb (aql o && is_dispatch e) && lane_eqb (entry_lane e) l && negb (is_npu e).

Fixpoint split_while {A} (P : A → bool) (l : list A) : list A * list A :=
  match l with
  | [] => ([], [])
  | x :: rest => if P x then let '(a, b) := split_while P rest in (x :: a, b) else ([], l)
  end.

(** The lowering of a group of entries on lane [l]. *)
Definition group_region (o : Options) (l : GpuLane) (group : list Entry) : option Region :=
  if forallb is_copy group then
    Some (mkRegion (if sdma o then RSdma else RCopies) group l)
  else
    inner ← Frontier.record_all ((λ e, Deps.interval_use <$> entry_uses e) <$> group);
    Some (mkRegion (RGpu inner) group l).

(** The outer loop of [prepare], one region per iteration; every region takes at
    least one entry, so [length entries] rounds suffice. *)
Fixpoint regions (fuel : nat) (o : Options) (es : list Entry) : option (list Region) :=
  match es, fuel with
  | [], _ => Some []
  | _, O => None
  | e :: rest, S fuel =>
      if is_scoped e then rs ← regions fuel o rest; Some (mkRegion RScoped [e] Compute :: rs)
      else if is_npu e then rs ← regions fuel o rest; Some (mkRegion RNpu [e] Compute :: rs)
      else if aql o && is_dispatch e then
        rs ← regions fuel o rest; Some (mkRegion RAql [e] (entry_lane e) :: rs)
      else
        let '(group, others) := split_while (continues o (entry_lane e)) (e :: rest) in
        r ← group_region o (entry_lane e) group;
        rs ← regions fuel o others;
        Some (r :: rs)
  end.

(** [operation.uses = summarize(..); operation.dependencies = frontier.dependencies(..)]. *)
Definition region_operations (rs : list Region) : option (list Operation) :=
  deps ← Frontier.record_all ((λ r, Deps.interval_use <$> Deps.summarize (region_uses r)) <$> rs);
  Some (zip_with (λ r ds, mkOperation (region_engine r) (region_lane r) (region_copied r)
                            (Deps.summarize (region_uses r)) ds) rs deps).

(** Some operation after the first does not depend on the one before it. *)
Definition is_parallel (ops : list Operation) : bool :=
  existsb (λ '(index, op), negb (bool_decide (index ∈ op_dependencies op)))
    (zip (seq 0 (length ops - 1)) (tail ops)).

(** The native preparation of every region. *)
Fixpoint lower_all (lower : Region → Result unit) (rs : list Region) : Result unit :=
  match rs with [] => Ok tt | r :: rest => let? _ := lower r in lower_all lower rest end.

(** [Graph::prepare]. *)
Definition prepare (o : Options) (lower : Region → Result unit) (g : Graph) : option (Result Prepared) :=
  if (length (entries g) =? 0)%nat then Some (Err (Message "cannot prepare an empty graph"))
  else
    rs ← regions (length (entries g)) o (entries g);
    match lower_all lower rs with
    | Err e => Some (Err e)
    | Ok _ =>
        ops ← region_operations rs;
        Some (Ok (mkPrepared false (is_parallel ops) ops (Deps.summarize (ops ≫= op_uses))
          (replicate (graph_slots o) (mkSlot (replicate (length ops) Pending) false None))
          (replicate (graph_slots o) Completion.new_signal)))
    end.

(** ** Regions partition the entries *)

Lemma split_while_app {A} (P : A → bool) l : (split_while P l).1 ++ (split_while P l).2 = l.
Proof.
  induction l as [|x l IH]; simpl; [done|]. destruct (P x); [|done].
  destruct (split_while P l) as [a b]. simpl in *. by rewrite IH.
Qed.

Lemma continues_first o e :
  is_scoped e = false → is_npu e = false → aql o && is_dispatch e = false →
  continues o (entry_lane e) e = true.
Proof.
  intros H1 H2 H3. unfold continues, lane_eqb. by rewrite H1, H2, H3, Nat.eqb_refl.
Qed.

(** What a region is: one entry alone, or a group lowered together. *)
Definition region_ok (r : Region) : Prop :=
  members r ≠ [] ∧
  match backend r with
  | RGpu inner => Frontier.record_all ((λ e, Deps.interval_use <$> entry_uses e) <$> members r) = Some inner
  | RSdma | RCopies => Forall (λ e, is_copy e = true) (members r)
  | _ => ∃ e, members r = [e]
  end.

Lemma group_region_ok o l group :
  group ≠ [] → ∃ r, group_region o l group = Some r ∧ members r = group ∧ region_ok r.
Proof.
  intros Hne. unfold group_region. destruct (forallb is_copy group) eqn:E.
  - eexists. split_and!; [done|done|]. split; [done|]. simpl.
    assert (Hall : Forall (λ e, is_copy e = true) group).
    { apply Forall_forall. intros e He. rewrite forallb_forall in E. apply E. by apply list_elem_of_In. }
    by destruct (sdma o).
  - destruct (Frontier.record_all_recorded ((λ e, Deps.interval_use <$> entry_uses e) <$> group))
      as (ds & f & Hd & _). rewrite Hd. simpl. eexists. split_and!; [done|done|]. by split.
Qed.

(** Enough fuel: the grouping terminates and partitions the entries in order. *)
Lemma regions_total fuel o es :
  (length es ≤ fuel)%nat →
  ∃ rs, regions fuel o es = Some rs ∧ rs ≫= members = es ∧ Forall region_ok rs.
Proof.
  revert es. induction fuel as [|fuel IH]; intros [|e rest] Hlen; simpl in *; try lia; try by exists [].
  assert (Hsingle : ∀ b l, match b with RGpu _ | RSdma | RCopies => False | _ => True end →
    ∃ rs, (rs ← regions fuel o rest; Some (mkRegion b [e] l :: rs)) = Some rs
      ∧ rs ≫= members = e :: rest ∧ Forall region_ok rs).
  { intros b l Hb. destruct (IH rest ltac:(lia)) as (rs & -> & Hm & Hok). simpl.
    eexists. split_and!; [done| |].
    - rewrite bind_cons, Hm. done.
    - constructor; [|done]. split; [done|]. destruct b; try done; by exists e. }
  destruct (is_scoped e) eqn:E1; [by apply Hsingle|].
  destruct (is_npu e) eqn:E2; [by apply Hsingle|].
  destruct (aql o && is_dispatch e) eqn:E3; [by apply Hsingle|].
  rewrite (continues_first o e E1 E2 E3).
  destruct (split_while (continues o (entry_lane e)) rest) as [a b] eqn:Es.
  pose proof (split_while_app (continues o (entry_lane e)) rest) as Happ. rewrite Es in Happ. simpl in Happ.
  destruct (group_region_ok o (entry_lane e) (e :: a)) as (r & -> & Hm & Hok); [done|]. simpl.
  destruct (IH b) as (rs & -> & Hmb & Hokb).
  { rewrite <-Happ, length_app in Hlen. lia. }
  simpl. eexists. split_and!; [done| |by constructor]. rewrite bind_cons, Hm, Hmb. simpl. by rewrite Happ.
Qed.

Lemma region_operations_total rs :
  ∃ ops, region_operations rs = Some ops ∧ length ops = length rs
    ∧ (λ op, Deps.interval_use <$> op_uses op) <$> ops
      = (λ r, Deps.interval_use <$> Deps.summarize (region_uses r)) <$> rs
    ∧ op_uses <$> ops = (λ r, Deps.summarize (region_uses r)) <$> rs
    ∧ Frontier.record_all ((λ op, Deps.interval_use <$> op_uses op) <$> ops) = Some (op_dependencies <$> ops).
Proof.
  unfold region_operations.
  destruct (Frontier.record_all_recorded
    ((λ r, Deps.interval_use <$> Deps.summarize (region_uses r)) <$> rs)) as (ds & f & Hd & Hrec).
  pose proof (Frontier.rec_length _ _ _ Hrec) as Hlen. rewrite length_fmap in Hlen.
  rewrite Hd. simpl. eexists. split; [done|].
  assert (Hu : (λ op, Deps.interval_use <$> op_uses op)
      <$> zip_with (λ r ds, mkOperation (region_engine r) (region_lane r) (region_copied r)
                            (Deps.summarize (region_uses r)) ds) rs ds
    = (λ r, Deps.interval_use <$> Deps.summarize (region_uses r)) <$> rs).
  { apply fmap_zip_left; [done|lia]. }
  split_and!; [by rewrite length_zip_with_l_eq|done| |].
  - apply fmap_zip_left; [done|lia].
  - rewrite Hu, Hd. f_equal. symmetry. rewrite <-(list_fmap_id ds) at 2. apply fmap_zip_right; [done|lia].
Qed.

(** ** What preparation establishes *)

(** Every use of the program names a tracked allocation and stays inside it. *)
Definition registered (reg : gmap Z View.Storage) (us : list Deps.Use) : Prop :=
  ∀ u, u ∈ us →
    reg !! View.st_id (use_storage u) = Some (use_storage u) ∧ View.valid (Deps.view u).

Lemma entries_coherent reg us : registered reg us → Deps.coherent us.
Proof.
  intros Hreg. split.
  - intros u Hu. destruct (Hreg u Hu) as [_ Hv]. unfold View.valid, View.region in *.
    destruct (View.st_shared _); simpl; lia.
  - intros u v Hu Hv Hid. destruct (Hreg u Hu) as [H1 _], (Hreg v Hv) as [H2 _].
    unfold use_storage in *. rewrite Hid in H1. congruence.
Qed.

Lemma registered_subset reg us vs : registered reg vs → us ⊆ vs → registered reg us.
Proof. intros H Hsub u Hu. apply H. by apply Hsub. Qed.

Lemma registered_summarize reg us : registered reg us → registered reg (Deps.summarize us).
Proof.
  intros Hreg v Hv. pose proof (entries_coherent _ _ Hreg) as Hco.
  destruct (Deps.summarize_storage us v Hco Hv) as (u & Hu & Hst). split.
  - unfold use_storage. rewrite <-Hst. by apply Hreg.
  - apply (Deps.summarize_valid us); [done| |done]. intros w Hw. by apply Hreg.
Qed.

Lemma member_uses_subset rs r : r ∈ rs → member_uses r ⊆ (rs ≫= members) ≫= entry_uses.
Proof.
  intros Hr u (e & Hu & He)%list_elem_of_bind. apply list_elem_of_bind. exists e. split; [done|].
  apply list_elem_of_bind. by exists r.
Qed.

Lemma region_uses_registered reg rs r :
  registered reg ((rs ≫= members) ≫= entry_uses) → r ∈ rs →
  registered reg (member_uses r) ∧ registered reg (region_uses r).
Proof.
  intros Hreg Hr.
  assert (Hm : registered reg (member_uses r)).
  { eapply registered_subset; [exact Hreg|]. by apply member_uses_subset. }
  split; [done|]. unfold region_uses. destruct (backend r); auto using registered_summarize.
Qed.

Lemma lower_all_ok lower rs : lower_all lower rs = Ok tt ↔ Forall (λ r, lower r = Ok tt) rs.
Proof.
  induction rs as [|r rs IH]; simpl; [split; [constructor|done]|].
  rewrite Forall_cons, <-IH. destruct (lower r) as [[]|]; simpl; naive_solver.
Qed.

(** The regions, operations and outcome of [prepare] on a nonempty graph. *)
Lemma prepare_outcome o lower g :
  entries g ≠ [] →
  ∃ rs ops, regions (length (entries g)) o (entries g) = Some rs
    ∧ rs ≫= members = entries g ∧ Forall region_ok rs ∧ region_operations rs = Some ops
    ∧ prepare o lower g = Some (match lower_all lower rs with
        | Err e => Err e
        | Ok _ => Ok (mkPrepared false (is_parallel ops) ops (Deps.summarize (ops ≫= op_uses))
            (replicate (graph_slots o) (mkSlot (replicate (length ops) Pending) false None))
            (replicate (graph_slots o) Completion.new_signal))
        end).
Proof.
  intros Hne. destruct (regions_total (length (entries g)) o (entries g)) as (rs & Hrs & Hm & Hok); [lia|].
  destruct (region_operations_total rs) as (ops & Hops & _).
  exists rs, ops. split_and!; [done..|]. unfold prepare.
  destruct (entries g) as [|e es] eqn:E; [done|]. simpl length at 1. cbn [Nat.eqb].
  rewrite Hrs. simpl. destruct (lower_all lower rs); [|done]. by rewrite Hops.
Qed.

(** C7. Preparing a graph whose views lie inside tracked allocations always
    returns: an error when the graph is empty or a region cannot be lowered,
    and otherwise a graph that satisfies everything the scheduler relies on,
    with recorded dependencies, a summary of all its uses, and idle slots. *)
Theorem prepare_establishes reg o lower g :
  registered reg (entries g ≫= entry_uses) →
  ∃ r, prepare o lower g = Some r ∧
    match r with
    | Ok p => well_prepared reg p ∧ fresh_graph p
    | Err e => entries g = [] ∨ ∃ r, lower r = Err e
    end.
Proof.
  intros Hreg. destruct (decide (entries g = [])) as [E|Hne].
  { unfold prepare. rewrite E. simpl. eexists. split; [done|]. by left. }
  destruct (prepare_outcome o lower g Hne) as (rs & ops & Hrs & Hm & Hok & Hops & ->).
  destruct (region_operations_total rs) as (ops' & Hops' & Hlen & _ & Hus & Hrec).
  rewrite Hops in Hops'. injection Hops' as <-.
  eexists. split; [done|]. destruct (lower_all lower rs) as [[]|e] eqn:El.
  2: { right. clear -El. induction rs as [|r rs IH]; simpl in El; [done|].
       destruct (lower r) eqn:Er; simpl in El; [by apply IH|]. exists r. congruence. }
  assert (Hrep : ∀ {A} n (x : A) i y, replicate n x !! i = Some y → y = x).
  { intros A n x i y H. by apply lookup_replicate in H as [-> _]. }
  split; split; simpl; try done.
  - intros op u Hop Hu. apply list_elem_of_lookup in Hop as [i Hi].
    pose proof (f_equal (.!! i) Hus) as Hl. rewrite !list_lookup_fmap, Hi in Hl. simpl in Hl.
    destruct (rs !! i) as [r|] eqn:Er; [|done]. injection Hl as Hl. rewrite Hl in Hu.
    apply (registered_summarize reg (region_uses r)); [|done]. rewrite <-Hm in Hreg.
    by eapply region_uses_registered, list_elem_of_lookup_2.
  - intros s sl ->%Hrep. simpl. by rewrite length_replicate.
  - by rewrite !length_replicate.
  - intros ->. destruct rs; [|done]. simpl in Hm. congruence.
  - intros s sl ->%Hrep. simpl. split_and!; [done..|]. by apply Forall_replicate.
  - by intros s sig ->%Hrep.
Qed.

(** ** Program order *)

(** A clash of two members of a recorded sequence is a hazard of it. *)
Lemma clash_hazard {A} (f : A → list Deps.Use) (l : list A) i j x y :
  l !! i = Some x → l !! j = Some y → Deps.clash_between (f x) (f y) →
  Frontier.hazard ((λ x, Deps.interval_use <$> f x) <$> l) i j.
Proof.
  intros Hi Hj (u & v & Hu & Hv & al & b & [Hua Hub] & [Hva Hvb] & Hw).
  exists al, b, (Deps.access u), (Deps.access v).
  assert (Ht : ∀ k z w, l !! k = Some z → w ∈ f z → (View.region (Deps.view w)).1 = al →
    in_range b (View.region (Deps.view w)).2 →
    Frontier.touches ((λ x, Deps.interval_use <$> f x) <$> l) k al b (Deps.access w)).
  { intros k z w Hk Hz ? ?. exists (Deps.interval_use <$> f z), (Deps.interval_use w).
    split_and!; [by rewrite list_lookup_fmap, Hk|by apply list_elem_of_fmap_2|done..]. }
  split_and!; eauto.
Qed.

Lemma recorded_orders ops ds i j :
  Frontier.record_all ops = Some ds → (i < j)%nat → Frontier.hazard ops i j →
  tc (Frontier.edge ds) j i.
Proof.
  intros Hd. destruct (Frontier.record_all_recorded ops) as (ds' & f & Hd' & Hrec).
  rewrite Hd in Hd'. injection Hd' as <-. apply Hrec.
Qed.

(** How the prepared graph orders entry [aj] after [ai] of the same region. *)
Definition ordered_inside (r : Region) (ai aj : nat) : Prop :=
  (ai < aj)%nat ∧
  match backend r with
  | RGpu inner => tc (Frontier.edge inner) aj ai
  | RSdma | RCopies => True
  | _ => False
  end.

Lemma region_ok_orders r ai aj ei ej :
  region_ok r → members r !! ai = Some ei → members r !! aj = Some ej → (ai < aj)%nat →
  Deps.clash_between (entry_uses ei) (entry_uses ej) → ordered_inside r ai aj.
Proof.
  intros [_ Hok] Hi Hj Hlt Hc. split; [done|].
  assert (Hsingle : (∃ e, members r = [e]) → False).
  { intros [e He]. rewrite He in Hj. apply lookup_lt_Some in Hj. simpl in Hj. lia. }
  destruct (backend r); try done; try by apply Hsingle.
  eapply recorded_orders; [exact Hok|done|]. by eapply clash_hazard.
Qed.

(** Summaries clash exactly when the summarized uses do. *)
Lemma clash_summaries reg us vs :
  registered reg us → registered reg vs →
  Deps.clash_between (Deps.summarize us) (Deps.summarize vs) ↔ Deps.clash_between us vs.
Proof.
  intros Hu%entries_coherent Hv%entries_coherent.
  rewrite <-Deps.conflicts_spec by by apply Deps.summarize_canonical.
  by apply Deps.conflicts_summaries.
Qed.

Lemma clash_summary_left reg us vs :
  registered reg us → Deps.clash_between (Deps.summarize us) vs ↔ Deps.clash_between us vs.
Proof.
  intros Hu%entries_coherent. rewrite !Deps.clash_between_bytes.
  assert (Hw : ∀ al x, Deps.written (Deps.summarize us) al x ↔ Deps.written us al x)
    by (intros; apply Deps.summarize_access; auto).
  split; intros (al & x & H); exists al, x; revert H; by rewrite Hw, Deps.summarize_touched.
Qed.

Lemma region_uses_clash reg r vs :
  registered reg (member_uses r) →
  Deps.clash_between (region_uses r) vs ↔ Deps.clash_between (member_uses r) vs.
Proof. intros Hr. unfold region_uses. destruct (backend r); try done. by eapply clash_summary_left. Qed.

Lemma region_clash reg rs r1 r2 e1 e2 :
  registered reg ((rs ≫= members) ≫= entry_uses) → r1 ∈ rs → r2 ∈ rs →
  e1 ∈ members r1 → e2 ∈ members r2 → Deps.clash_between (entry_uses e1) (entry_uses e2) →
  Deps.clash_between (Deps.summarize (region_uses r1)) (Deps.summarize (region_uses r2)).
Proof.
  intros Hreg Hr1 Hr2 He1 He2 (u & v & Hu & Hv & Hc).
  destruct (region_uses_registered _ _ _ Hreg Hr1) as [Hm1 Hg1].
  destruct (region_uses_registered _ _ _ Hreg Hr2) as [Hm2 Hg2].
  eapply clash_summaries; [done..|]. eapply region_uses_clash; [done|].
  apply Deps.clash_between_sym. eapply region_uses_clash; [done|]. apply Deps.clash_between_sym.
  exists u, v. split_and!; [| |done]; apply list_elem_of_bind; eauto.
Qed.

(** C6. Preparation keeps the program order of every hazard: when two entries
    of the builder touch a common byte and one writes it, either they are in
    different regions and the later region depends, through recorded edges, on
    the earlier one, or they are in one region that runs its entries in order
    (copies) or whose recorded inner dependencies order them. *)
Theorem prepare_orders_hazards reg o lower g p :
  registered reg (entries g ≫= entry_uses) → prepare o lower g = Some (Ok p) →
  ∃ rs, regions (length (entries g)) o (entries g) = Some rs
    ∧ rs ≫= members = entries g ∧ length (operations p) = length rs
    ∧ ∀ i j ei ej, (i < j)%nat → entries g !! i = Some ei → entries g !! j = Some ej →
        Deps.clash_between (entry_uses ei) (entry_uses ej) →
        ∃ ri ai rj aj, bind_at members rs i ri ai ∧ bind_at members rs j rj aj
          ∧ (tc (Frontier.edge (op_dependencies <$> operations p)) rj ri
             ∨ ∃ r, ri = rj ∧ rs !! ri = Some r ∧ ordered_inside r ai aj).
Proof.
  intros Hreg Hp. destruct (decide (entries g = [])) as [E|Hne].
  { unfold prepare in Hp. rewrite E in Hp. done. }
  destruct (prepare_outcome o lower g Hne) as (rs & ops & Hrs & Hm & Hok & Hops & Hout).
  destruct (region_operations_total rs) as (ops' & Hops' & Hlen & Hi & _ & Hrec).
  rewrite Hops in Hops'. injection Hops' as <-. rewrite Hp in Hout.
  destruct (lower_all lower rs); [|done]. injection Hout as ->. simpl.
  exists rs. split_and!; [done..|]. rewrite <-Hm in *. rewrite Hi in Hrec.
  intros i j ei ej Hij Hei Hej Hc.
  destruct (bind_at_lookup _ _ _ _ Hei) as (ri & ai & r1 & Hbi & Hr1 & Hm1).
  destruct (bind_at_lookup _ _ _ _ Hej) as (rj & aj & r2 & Hbj & Hr2 & Hm2).
  exists ri, ai, rj, aj. split_and!; [done..|].
  destruct (bind_at_mono _ _ _ _ _ _ _ _ Hbi Hbj Hij) as [Hlt|[-> Hlt]].
  - left. eapply recorded_orders; [exact Hrec|done|].
    apply (clash_hazard (λ r, Deps.summarize (region_uses r)) rs ri rj r1 r2); [done..|].
    eapply region_clash; eauto using list_elem_of_lookup_2.
  - right. exists r1. split_and!; [done..|]. rewrite Hr1 in Hr2. injection Hr2 as ->.
    eapply region_ok_orders; [|done..]. rewrite Forall_forall in Hok.
    eapply Hok, list_elem_of_lookup_2. done.
Qed.

(** ** A concrete program: upload, dispatch twice, download *)

Definition demo_device : View.Storage := View.mkStorage 4096 64 false false true true 0.
Definition demo_host : View.Storage := View.mkStorage 8192 64 false true true true 0.
Definition demo_reg : gmap Z View.Storage := <[4096 := demo_device]> (<[8192 := demo_host]> ∅).
Definition demo_view (s : View.Storage) (lo hi : Z) : View.BufferView := View.mkView s (mkRange lo hi) [].
Definition demo_options : Options := mkOptions false false 2.
Definition demo_build : Result (Graph * nat) :=
  let? (g, _) := copy (demo_view demo_device 0 32) (demo_view demo_host 0 32) (new_graph 0) in
  let? (g, _) := fill (demo_view demo_device 32 64) 7 g in
  let? (g, _) := gpu_scoped [Deps.mkUse (demo_view demo_device 0 64) ReadWrite] g in
  copy (demo_view demo_host 32 64) (demo_view demo_device 0 32) g.
Definition demo_graph : Graph := match demo_build with Ok (g, _) => g | Err _ => new_graph 0 end.

Lemma demo_registered : registered demo_reg (entries demo_graph ≫= entry_uses).
Proof.
  intros u Hu. vm_compute in Hu.
  repeat (apply elem_of_cons in Hu as [->|Hu]; [split; [reflexivity|unfold View.valid; simpl; lia]|]).
  by apply elem_of_nil in Hu.
Qed.

Lemma prepare_establishes_witness :
  length (entries demo_graph) = 4%nat
  ∧ ∃ p, prepare demo_options (λ _, Ok tt) demo_graph = Some (Ok p)
      ∧ (op_dependencies <$> operations p = [[]; []; [0; 1]; [2]]%nat) ∧ well_prepared demo_reg p.
Proof.
  split; [vm_compute; reflexivity|].
  destruct (prepare_establishes demo_reg demo_options (λ _, Ok tt) demo_graph demo_registered)
    as (r & Hr & Hm).
  destruct r as [p|e]; [|exfalso; destruct Hm as [Hm|[? Hm]]; [vm_compute in Hm|]; discriminate].
  exists p. split; [exact Hr|]. split; [|exact (proj1 Hm)].
  vm_compute in Hr. injection Hr as <-. vm_compute. reflexivity.
Defined.

Lemma prepare_orders_hazards_witness :
  ∃ p rs, prepare demo_options (λ _, Ok tt) demo_graph = Some (Ok p)
    ∧ regions 4 demo_options (entries demo_graph) = Some rs ∧ length (operations p) = length rs.
Proof.
  destruct (prepare demo_options (λ _, Ok tt) demo_graph) as [[p|e]|] eqn:E;
    [|vm_compute in E; discriminate..].
  destruct (prepare_orders_hazards demo_reg demo_options (λ _, Ok tt) demo_graph p demo_registered E)
    as (rs & Hrs & _ & Hlen & _).
  exists p, rs. split; [reflexivity|]. split; [exact Hrs|exact Hlen].
Defined.

End GraphBuild.
