(* ===== verification/ModelContext.v ===== *)
(** * Model contexts

    Owned tensor transfers of src/src/inference.rs: the pool of staging
    buffers, and the allocation, upload, copy, concatenation and readback of
    tensors by a [ModelContext], over tensor descriptors (Tensor), views
    (BufferView) and the graph builder (GraphBuild).

    A [Ctx] holds the staging pool, the host contents of staging buffers and
    the graphs submitted so far.  Submissions are named by numbers; whether one
    has completed, waiting for it, and preparing and submitting a graph are the
    scheduler's and are arguments here.  Allocations are outcomes.  [None]
    stands for the panic of a slice out of range.

    The theorems show that a reused staging buffer is idle, fits and is the
    smallest that does, that an upload never panics and delivers exactly the
    given bytes, and that a concatenation copies its inputs one after the
    other over exactly the bytes of its output. *)

From S2P Require Import Prelude Access BufferView Dependencies Tensor GraphBuild.
Local Open Scope Z_scope.

Module ModelContext.
Import Tensor.

(** [DeviceTensor], [DeviceTensor::binding]. *)
Record DeviceTensor : Type := mkTensor {
  t_runtime : nat;
  desc : TensorDesc;
  t_view : option View.BufferView;
  producer : nat;
  lease : option nat }.
Definition binding (t : DeviceTensor) : option View.BufferView :=
  v ← t_view t; Some (match lease t with Some l => View.retain v l | None => v end).
Definition set_producer (n : nat) (t : DeviceTensor) : DeviceTensor :=
  mkTensor (t_runtime t) (desc t) (t_view t) n (lease t).

(** [StagingPool]. *)
Abbreviation Pool := (list (View.Storage * nat)).
Definition STAGING_POOL_ENTRIES : nat := 32.

Record Ctx : Type := mkCtx {
  staging : Pool;
  host : gmap Z (list Z);
  submitted : list (GraphBuild.Graph * list nat) }.
Definition set_staging (p : Pool) (c : Ctx) : Ctx := mkCtx p (host c) (submitted c).
(** New allocations are zero. *)
Definition contents (c : Ctx) (s : View.Storage) : list Z :=
  default (replicate (Z.to_nat (View.st_bytes s)) 0) (host c !! View.st_id s).
Definition set_contents (s : View.Storage) (l : list Z) (c : Ctx) : Ctx :=
  mkCtx (staging c) (<[View.st_id s := l]> (host c)) (submitted c).

(** [mapped[at..at + part.len()].copy_from_slice(part)]. *)
Definition copy_at (m : list Z) (at_ : Z) (part : list Z) : option (list Z) :=
  if at_ + Z.of_nat (length part) <=? Z.of_nat (length m)
  then Some (take (Z.to_nat at_) m ++ part ++ drop (Z.to_nat at_ + length part) m) else None.
Fixpoint copy_parts (m : list Z) (at_ : Z) (parts : list (list Z)) : option (list Z) :=
  match parts with
  | [] => Some m
  | part :: rest => m ← copy_at m at_ part; copy_parts m (at_ + Z.of_nat (length part)) rest
  end.

Section Context.
Context (runtime : nat) (budgeted : bool) (ready : nat).
Context (complete : nat → bool) (wait : nat → Result unit).
Context (submit : GraphBuild.Graph → list nat → Result nat).

(** [StagingPool::take]: the first of the smallest idle buffers that fit. *)
Definition fits (bytes : Z) (e : View.Storage * nat) : bool :=
  (bytes <=? View.st_bytes e.1) && (View.st_bytes e.1 <=? saturating_mul bytes 2) && complete e.2.
Fixpoint smallest (bytes : Z) (p : Pool) (index : nat) (best : option (nat * Z)) : option (nat * Z) :=
  match p with
  | [] => best
  | e :: rest =>
      let better := match best with Some (_, n) => View.st_bytes e.1 <? n | None => true end in
      smallest bytes rest (S index) (if fits bytes e && better then Some (index, View.st_bytes e.1) else best)
  end.
Definition take_staging (p : Pool) (bytes : Z) (fresh : Result View.Storage) : Pool * Result View.Storage :=
  match (i ← fst <$> smallest bytes p 0 None; e ← p !! i; Some (i, e)) with
  | Some (i, e) => (swap_remove i p, Ok e.1)
  | None => (p, fresh)
  end.

(** [StagingPool::recycle]. *)
Definition recycle (p : Pool) (s : View.Storage) (done : nat) : Pool :=
  (if (length p =? STAGING_POOL_ENTRIES)%nat then drop 1 p else p) ++ [(s, done)].

(** [graph.prepare()?.submit_after(deps)?]. *)
Definition submit_graph (g : GraphBuild.Graph) (deps : list nat) (c : Ctx) : Ctx * Result nat :=
  match submit g deps with
  | Ok n => (mkCtx (staging c) (host c) (submitted c ++ [(g, deps)]), Ok n)
  | Err e => (c, Err e)
  end.

(** [ModelContext::allocate_with]; also the allocations of [upload]. *)
Definition allocate_with (d : TensorDesc) (allocated : Result View.Storage) : Result DeviceTensor :=
  let? v := if is_empty d then Ok None else let? s := allocated in Ok (Some (View.buffer_view s)) in
  Ok (mkTensor runtime d v ready None).

(** [ModelContext::tensor]; [validated] is [producer.validate_runtime]. *)
Definition tensor (d : TensorDesc) (v : View.BufferView) (p : nat) (validated : Result unit) : Result DeviceTensor :=
  let? _ := validated in
  if negb (View.st_runtime (View.storage v) =? runtime)%nat || (View.len v <? bytes d)
     || negb (View.offset v mod dtype_bytes (dtype d) =? 0)
  then Err (Message "tensor storage has the wrong context, extent, or alignment")
  else
    let? v := if is_empty d then Ok None else let? v := View.slice v (mkRange 0 (bytes d)) in Ok (Some v) in
    Ok (mkTensor runtime d v p None).

(** [ModelContext::validate]. *)
Definition validate (t : DeviceTensor) : Result unit :=
  if (t_runtime t =? runtime)%nat then Ok tt else Err (Message "tensor belongs to another model context").

(** The transfer of [upload] and [upload_parts]: staging is taken, mapped and
    written, and its prefix is copied to the tensor. *)
Definition upload_staged (t : DeviceTensor) (total : Z) (fresh : Result View.Storage)
    (map : View.Storage → Result unit) (write : list Z → option (list Z)) (c : Ctx)
    : option (Ctx * Result DeviceTensor) :=
  match binding t with
  | None => Some (c, Ok t)
  | Some destination =>
      let '(p, taken) := take_staging (staging c) total fresh in
      let c := set_staging p c in
      match (let? s := taken in let? _ := map s in Ok s) with
      | Err e => Some (c, Err e)
      | Ok s =>
          m ← write (contents c s);
          let c := set_contents s m c in
          match (let? source := View.slice (View.buffer_view s) (mkRange 0 total) in
                 GraphBuild.copy destination source (GraphBuild.new_graph runtime)) with
          | Err e => Some (c, Err e)
          | Ok (g, _) =>
              match submit_graph g [] c with
              | (c, Err e) => Some (c, Err e)
              | (c, Ok n) =>
                  Some (if budgeted then c else set_staging (recycle (staging c) s n) c, Ok (set_producer n t))
              end
          end
      end
  end.

(** [ModelContext::upload]. *)
Definition upload (d : TensorDesc) (data : list Z) (allocated fresh : Result View.Storage)
    (map : View.Storage → Result unit) (c : Ctx) : option (Ctx * Result DeviceTensor) :=
  if negb (Z.of_nat (length data) =? bytes d)
  then Some (c, Err (Message "upload byte count does not match tensor"))
  else match allocate_with d allocated with
       | Err e => Some (c, Err e)
       | Ok t => upload_staged t (Z.of_nat (length data)) fresh map (λ m, copy_at m 0 data) c
       end.

(** [ModelContext::upload_parts]. *)
Definition upload_parts (d : TensorDesc) (parts : list (list Z)) (allocated fresh : Result View.Storage)
    (map : View.Storage → Result unit) (c : Ctx) : option (Ctx * Result DeviceTensor) :=
  let total := zsum (λ p, Z.of_nat (length p)) parts in
  if negb (total =? bytes d)
  then Some (c, Err (Message "upload byte count does not match tensor"))
  else match parts with
  | [part] => upload d part allocated fresh map c
  | _ => match allocate_with d allocated with
         | Err e => Some (c, Err e)
         | Ok t => upload_staged t total fresh map (λ m, copy_parts m 0 parts) c
         end
  end.

(** [ModelContext::copy_into]: the destination with its new producer. *)
Definition copy_into (destination : DeviceTensor) (byte_offset : Z) (source : DeviceTensor) (c : Ctx)
    : option (Ctx * Result DeviceTensor) :=
  match (let? _ := validate destination in
         let? _ := validate source in
         let? stop := ok_or (e ← checked_add byte_offset (bytes (desc source));
                             if e <=? bytes (desc destination) then Some e else None)
                        (Message "tensor copy exceeds destination") in
         if negb (bool_decide (dtype (desc destination) = dtype (desc source)))
            || negb (is_contiguous (desc destination)) || negb (is_contiguous (desc source))
            || negb (byte_offset mod dtype_bytes (dtype (desc source)) =? 0)
         then Err (Message "invalid tensor copy dtype, strides or alignment")
         else Ok stop) with
  | Err e => Some (c, Err e)
  | Ok stop =>
      match binding source with
      | None => Some (c, let? _ := wait (producer source) in Ok destination)
      | Some from =>
          to ← binding destination;
          match (let? to := View.slice to (mkRange byte_offset stop) in
                 GraphBuild.copy to from (GraphBuild.new_graph runtime)) with
          | Err e => Some (c, Err e)
          | Ok (g, _) =>
              let '(c, r) := submit_graph g [producer destination; producer source] c in
              Some (c, let? n := r in Ok (set_producer n destination))
          end
      end
  end.

(** [ModelContext::concatenate]: the checks of the inputs with the summed first
    dimension, the recorded copies, and the whole call. *)
Definition incompatible (p d : TensorDesc) : bool :=
  negb (bool_decide (dtype d = dtype p)) || negb (bool_decide (layout d = layout p))
  || negb (length (shape d) =? length (shape p))%nat
  || negb (bool_decide (drop 1 (shape d) = drop 1 (shape p))) || negb (is_contiguous d).
Fixpoint concat_rows (p : TensorDesc) (inputs : list DeviceTensor) (rows : Z) : Result Z :=
  match inputs with
  | [] => Ok rows
  | t :: rest =>
      let? _ := validate t in
      if incompatible p (desc t) then Err (Message "incompatible concatenate input")
      else let? rows := ok_or (checked_add rows (default 0 (head (shape (desc t)))))
                          (Message "concatenate dimension overflow") in
           concat_rows p rest rows
  end.
Fixpoint concat_copies (destination : View.BufferView) (inputs : list DeviceTensor) (offset : Z)
    (g : GraphBuild.Graph) : Result GraphBuild.Graph :=
  match inputs with
  | [] => Ok g
  | t :: rest =>
      match binding t with
      | None => concat_copies destination rest offset g
      | Some source =>
          let? d := View.slice destination (mkRange offset (offset + View.len source)) in
          let? (g, _) := GraphBuild.copy d source g in
          concat_copies destination rest (offset + bytes (desc t)) g
      end
  end.
Fixpoint wait_all (deps : list nat) : Result unit :=
  match deps with [] => Ok tt | d :: rest => let? _ := wait d in wait_all rest end.
Definition concatenate (inputs : list DeviceTensor) (allocate : Z → Result View.Storage) (c : Ctx)
    : Ctx * Result DeviceTensor :=
  match inputs with
  | [] => (c, Err (Message "concatenate needs inputs"))
  | first :: _ =>
      let p := desc first in
      match (if bool_decide (shape p = []) || negb (is_contiguous p)
             then Err (Message "concatenate requires contiguous non-scalar tensors")
             else let? rows := concat_rows p inputs 0 in
                  let? d := new (dtype p) (rows :: drop 1 (shape p)) in
                  let? d := with_layout d (layout p) in
                  allocate_with d (allocate (bytes d))) with
      | Err e => (c, Err e)
      | Ok output =>
          let deps := producer <$> inputs in
          match binding output with
          | None => (c, let? _ := wait_all deps in Ok output)
          | Some destination =>
              match concat_copies destination inputs 0 (GraphBuild.new_graph runtime) with
              | Err e => (c, Err e)
              | Ok g => let '(c, r) := submit_graph g deps c in (c, let? n := r in Ok (set_producer n output))
              end
          end
      end
  end.

(** [TensorReadback], [ModelContext::download], [TensorReadback::bytes]. *)
Record TensorReadback : Type := mkReadback {
  r_buffer : option View.Storage; r_length : Z; r_completion : nat; r_pooled : bool }.
Definition download (t : DeviceTensor) (fresh : Result View.Storage) (c : Ctx) : Ctx * Result TensorReadback :=
  match validate t with
  | Err e => (c, Err e)
  | Ok _ =>
      match binding t with
      | None => (c, Ok (mkReadback None 0 (producer t) false))
      | Some source =>
          let n := bytes (desc t) in
          let '(p, taken) := take_staging (staging c) n fresh in
          let c := set_staging p c in
          match (let? s := taken in
                 let? to := View.slice (View.buffer_view s) (mkRange 0 n) in
                 let? (g, _) := GraphBuild.copy to source (GraphBuild.new_graph runtime) in Ok (s, g)) with
          | Err e => (c, Err e)
          | Ok (s, g) =>
              let '(c, r) := submit_graph g [producer t] c in
              (c, let? done := r in Ok (mkReadback (Some s) n done (negb budgeted)))
          end
      end
  end.
Definition readback_bytes (r : TensorReadback) (map : View.Storage → Result unit) (c : Ctx)
    : option (Ctx * Result (list Z)) :=
  match r_buffer r with
  | None => Some (c, Ok [])
  | Some s =>
      match map s with
      | Err e => Some (c, Err e)
      | Ok _ =>
          if Z.of_nat (length (contents c s)) <? r_length r then None
          else Some (if r_pooled r then set_staging (recycle (staging c) s (r_completion r)) c else c,
                     Ok (take (Z.to_nat (r_length r)) (contents c s)))
      end
  end.

(** ** Staging *)

Lemma smallest_spec n p i0 best i m :
  smallest n p i0 best = Some (i, m) →
  (∀ e, e ∈ p → fits n e = true → m <= View.st_bytes e.1) ∧
  (best = Some (i, m) ∨
   (∃ k e, i = (i0 + k)%nat ∧ p !! k = Some e ∧ fits n e = true ∧ View.st_bytes e.1 = m)) ∧
  (∀ j b, best = Some (j, b) → m <= b).
Proof using Type.
  revert i0 best. induction p as [|e p IH]; intros i0 best; cbn [smallest].
  { intros ->. split_and!; [by intros e ?%elem_of_nil|by left|]. intros j b [= <- <-]. lia. }
  set (better := match best with Some (_, b) => _ | None => true end).
  destruct (fits n e) eqn:He; cbn [andb].
  2:{ intros H. destruct (IH _ _ H) as (Hm & Hw & Hb). split_and!; [|destruct Hw as [?|(k & e' & -> & Hk & Hf' & Hm')]; [by left|right; exists (S k), e'; split_and!; [lia|done..]]|done].
      intros e' [->|Hin]%elem_of_cons; [congruence|by apply Hm]. }
  destruct better eqn:Hbt; intros H; destruct (IH _ _ H) as (Hm & Hw & Hb).
  - split_and!.
    + intros e' [->|Hin]%elem_of_cons Hf; [by apply (Hb i0)|by apply Hm].
    + right. destruct Hw as [[= <- <-]|(k & e' & -> & Hk & Hf' & Hm')]; [exists 0%nat, e; split_and!; [lia|done..]|].
      exists (S k), e'. split_and!; [lia|done..].
    + intros j b ->. subst better. cbn in Hbt. to_prop. specialize (Hb _ _ eq_refl). lia.
  - split_and!; [|destruct Hw as [?|(k & e' & -> & Hk & Hf' & Hm')]; [by left|right; exists (S k), e'; split_and!; [lia|done..]]|done].
    intros e' [->|Hin]%elem_of_cons Hf; [|by apply Hm]. subst better. destruct best as [[j b]|]; [|done].
    to_prop. specialize (Hb _ _ eq_refl). lia.
Qed.

Lemma smallest_None n p i0 best :
  smallest n p i0 best = None → best = None ∧ ∀ e, e ∈ p → fits n e = false.
Proof using Type.
  revert i0 best. induction p as [|e p IH]; intros i0 best; cbn [smallest].
  { intros ->. split; [done|]. by intros e ?%elem_of_nil. }
  intros [Hb Hp]%IH. destruct (fits n e) eqn:He; cbn [andb] in Hb.
  - by destruct best as [[j b]|]; [destruct (_ <? _) in Hb|].
  - split; [done|]. intros e' [->|Hin]%elem_of_cons; auto.
Qed.

Lemma take_staging_spec p n fresh p' r :
  take_staging p n fresh = (p', r) →
  (∃ e, r = Ok e.1 ∧ p ≡ₚ e :: p' ∧ fits n e = true ∧
     ∀ e', e' ∈ p → fits n e' = true → View.st_bytes e.1 <= View.st_bytes e'.1) ∨
  (p' = p ∧ r = fresh ∧ ∀ e, e ∈ p → fits n e = false).
Proof using Type.
  unfold take_staging. destruct (smallest n p 0 None) as [[i m]|] eqn:Hs.
  - destruct (smallest_spec _ _ _ _ _ _ Hs) as (Hm & [?|(k & e & -> & Hk & Hf & <-)] & _); [done|].
    cbn [fmap option_fmap option_map fst mbind option_bind]. rewrite Nat.add_0_l, Hk. cbn. intros [= <- <-].
    left. exists e. split_and!; [done|by apply swap_remove_perm|done|done].
  - intros [= <- <-]. right. split_and!; [done..|]. by apply smallest_None in Hs as [_ ?].
Qed.

(** A reused staging buffer is idle and wastes at most half: it leaves the
    pool, its last transfer has completed, it holds the request and at most
    twice as much, and no idle buffer of the pool that fits is smaller; a new
    buffer is allocated only when none fits. *)
Theorem staging_reuse_is_tight p n fresh p' r :
  0 <= n → take_staging p n fresh = (p', r) →
  (∃ s done, r = Ok s ∧ p ≡ₚ (s, done) :: p' ∧ complete done = true ∧ n <= View.st_bytes s <= 2 * n ∧
     ∀ s' done', (s', done') ∈ p → complete done' = true → n <= View.st_bytes s' → View.st_bytes s <= View.st_bytes s') ∨
  (p' = p ∧ r = fresh ∧
   ∀ s' done', (s', done') ∈ p → complete done' = true → n <= View.st_bytes s' <= usize_max → 2 * n < View.st_bytes s').
Proof using Type.
  intros Hn [([s dn] & -> & Hp & Hf & Hmin)|(-> & -> & Hnone)]%take_staging_spec; unfold fits, saturating_mul in *.
  - left. exists s, dn. cbn in *. to_prop. split_and!; try done; try lia. intros s' d' Hin Hc Hle.
    destruct (Z.le_gt_cases (View.st_bytes s') (Z.min (n * 2) usize_max)) as [Hb|Hb]; [|lia].
    apply (Hmin (s', d') Hin). cbn. rewrite Hc. apply andb_true_iff. split; [|done]. apply andb_true_iff. split; apply Z.leb_le; lia.
  - right. split_and!; [done..|]. intros s' d' Hin Hc [Hle Hmax]. specialize (Hnone (s', d') Hin). cbn in Hnone.
    rewrite Hc, andb_true_r in Hnone. apply andb_false_iff in Hnone as [?|?]; to_prop; lia.
Qed.

(** ** Uploads *)

Lemma copy_parts_spec m at_ parts :
  0 <= at_ → at_ + zsum (λ p, Z.of_nat (length p)) parts <= Z.of_nat (length m) →
  copy_parts m at_ parts =
    Some (take (Z.to_nat at_) m ++ concat parts ++ drop (Z.to_nat at_ + length (concat parts)) m).
Proof using Type.
  revert m at_. induction parts as [|p parts IH]; intros m at_ H0 Hle; cbn [copy_parts concat].
  { rewrite Nat.add_0_r. cbn. by rewrite take_drop. }
  rewrite zsum_cons in Hle. pose proof (zsum_nonneg (λ p, Z.of_nat (length p)) parts) as Hnn.
  specialize (Hnn ltac:(apply Forall_forall; intros; lia)).
  unfold copy_at. rewrite (proj2 (Z.leb_le _ _)) by lia. cbn [mbind option_bind].
  assert (length (take (Z.to_nat at_) m) = Z.to_nat at_) as Ht by (rewrite length_take; lia).
  rewrite IH; [|lia|rewrite !length_app, length_drop, Ht; lia].
  f_equal. replace (Z.to_nat (at_ + Z.of_nat (length p))) with (length (take (Z.to_nat at_) m ++ p)%list)
    by (rewrite length_app, Ht; lia).
  rewrite (app_assoc (take _ m) p (drop _ m)). rewrite take_app_length, drop_app_add, drop_drop, length_app.
  rewrite <-!app_assoc. do 4 f_equal. lia.
Qed.

Lemma copy_at_parts m data : copy_at m 0 data = copy_parts m 0 [data].
Proof using Type. cbn. by destruct (copy_at m 0 data). Qed.

Lemma copy_Ok d src g g' i :
  GraphBuild.copy d src g = Ok (g', i) →
  GraphBuild.operation <$> GraphBuild.entries g' =
    (GraphBuild.operation <$> GraphBuild.entries g) ++ [GraphBuild.Copy d src] ∧
  GraphBuild.graph_runtime g' = GraphBuild.graph_runtime g ∧ View.len d = View.len src.
Proof using Type.
  unfold GraphBuild.copy, GraphBuild.copy_on, GraphBuild.push. intros H. inv_ok.
  destruct (_ || View.overlaps _ _) eqn:Ho; [done|]. case_match; [done|]. injection H as <- _. cbn.
  apply orb_false_iff in Ho as [Ho _]. apply negb_false_iff, Z.eqb_eq in Ho. by rewrite fmap_app.
Qed.

(** Staging buffers are distinct and whole. *)
Definition ids (p : Pool) : list Z := (λ e, View.st_id e.1) <$> p.
Record pool_ok (c : Ctx) : Prop := {
  pool_ids : NoDup (ids (staging c));
  pool_whole : ∀ e, e ∈ staging c → Z.of_nat (length (contents c e.1)) = View.st_bytes e.1;
  pool_bounded : (length (staging c) <= STAGING_POOL_ENTRIES)%nat }.
(** A new allocation of [n] bytes, unknown to the context. *)
Definition new_storage (n : Z) (c : Ctx) (fresh : Result View.Storage) : Prop :=
  ∀ s, fresh = Ok s → View.st_bytes s = n ∧ host c !! View.st_id s = None ∧ View.st_id s ∉ ids (staging c).

Lemma taken_ok c n fresh p s :
  pool_ok c → 0 <= n → new_storage n c fresh → take_staging (staging c) n fresh = (p, Ok s) →
  pool_ok (set_staging p c) ∧ View.st_id s ∉ ids p ∧ n <= View.st_bytes s ∧
  Z.of_nat (length (contents c s)) = View.st_bytes s.
Proof using Type.
  intros [Hnd Hw Hb] Hn Hf [(e & [= ->] & Hp & Hfit & _)|(-> & <- & _)]%take_staging_spec.
  - assert (View.st_id e.1 ∉ ids p ∧ NoDup (ids p)) as [Hni Hnd'].
    { unfold ids in Hnd. rewrite Hp in Hnd. apply NoDup_cons in Hnd. done. }
    assert (e ∈ staging c) as He by (rewrite Hp; by left).
    split_and!; [|done| |by apply Hw].
    + split; cbn; [done| |]. { intros e' He'. apply Hw. rewrite Hp. by right. }
      rewrite Hp in Hb. cbn in Hb. lia.
    + unfold fits in Hfit. to_prop. lia.
  - destruct (Hf s eq_refl) as (Hs & Hnone & Hni). split_and!; [by split|done|lia|].
    unfold contents. rewrite Hnone. cbn. rewrite length_replicate. lia.
Qed.

Lemma contents_set s l c s' :
  contents (set_contents s l c) s' = if (View.st_id s' =? View.st_id s) then l else contents c s'.
Proof using Type.
  unfold contents, set_contents. cbn. case_bool.
  - by rewrite E, lookup_insert_eq.
  - by rewrite lookup_insert_ne by congruence.
Qed.

Lemma pool_ok_contents c s l : pool_ok c → View.st_id s ∉ ids (staging c) → pool_ok (set_contents s l c).
Proof using Type.
  intros [Hnd Hw Hb] Hni. split; cbn; [done| |done]. intros e He. rewrite contents_set. case_bool; [|by apply Hw].
  exfalso. apply Hni. rewrite <-E. unfold ids. apply list_elem_of_fmap. by exists e.
Qed.

Lemma pool_ok_recycle c s n :
  pool_ok c → View.st_id s ∉ ids (staging c) → Z.of_nat (length (contents c s)) = View.st_bytes s →
  pool_ok (set_staging (recycle (staging c) s n) c).
Proof using Type.
  intros [Hnd Hw Hb] Hni Hl. unfold recycle.
  set (p := if (length (staging c) =? STAGING_POOL_ENTRIES)%nat then drop 1 (staging c) else staging c).
  assert (p `sublist_of` staging c ∧ (length p < STAGING_POOL_ENTRIES)%nat) as [Hsub Hlt].
  { subst p. case_bool; [|by split; [done|lia]]. split; [apply sublist_drop|]. rewrite length_drop, E. unfold STAGING_POOL_ENTRIES. lia. }
  assert (ids p `sublist_of` ids (staging c)) as Hids by (by apply fmap_sublist).
  split; cbn.
  - unfold ids. rewrite fmap_app. cbn. apply NoDup_app. split_and!.
    + by eapply sublist_NoDup.
    + intros x Hx ->%list_elem_of_singleton. apply Hni. by eapply elem_of_sublist.
    + apply NoDup_singleton.
  - intros e [He| ->%list_elem_of_singleton]%elem_of_app; [|done]. apply Hw. by eapply elem_of_sublist.
  - rewrite length_app. cbn. lia.
Qed.

(** What a successful transfer leaves behind: [data] in the prefix of a staging
    buffer, and one submitted graph that copies this prefix to [destination]. *)
Definition delivered (data : list Z) (destination : View.BufferView) (c c' : Ctx) (n : nat) : Prop :=
  ∃ s g, submitted c' = submitted c ++ [(g, [])] ∧ submit g [] = Ok n ∧
    take (length data) (contents c' s) = data ∧
    GraphBuild.operation <$> GraphBuild.entries g =
      [GraphBuild.Copy destination (View.mkView s (mkRange 0 (Z.of_nat (length data))) [])].

Lemma upload_staged_spec t data fresh map write c :
  pool_ok c → new_storage (Z.of_nat (length data)) c fresh →
  (∀ m, Z.of_nat (length data) <= Z.of_nat (length m) → write m = Some (data ++ drop (length data) m)) →
  ∃ c' r, upload_staged t (Z.of_nat (length data)) fresh map write c = Some (c', r) ∧ pool_ok c' ∧
    match r with
    | Err _ => submitted c' = submitted c
    | Ok t' => match binding t with
               | None => c' = c ∧ t' = t
               | Some d => delivered data d c c' (producer t') ∧ t' = set_producer (producer t') t
               end
    end.
Proof using Type.
  intros Hc Hf Hw. unfold upload_staged. destruct (binding t) as [d|]; [|by eexists _, _].
  destruct (take_staging (staging c) (Z.of_nat (length data)) fresh) as [p taken] eqn:Ht.
  assert (pool_ok (set_staging p c)) as Hp.
  { destruct taken as [s|e]; [by apply (taken_ok c (Z.of_nat (length data)) fresh p s); [|lia|..]|].
    apply take_staging_spec in Ht as [(? & ? & _)|(-> & _)]; [done|by destruct c]. }
  destruct taken as [s|e]; cbn [result_bind]; [|by eexists _, _].
  destruct (taken_ok c _ fresh p s Hc (Nat2Z.is_nonneg (length data)) Hf Ht) as (_ & Hni & Hle & Hlen).
  destruct (map s) as [u|e]; cbn [result_bind]; [|by eexists _, _].
  assert (contents (set_staging p c) s = contents c s) as -> by done.
  rewrite Hw by lia. cbn [mbind option_bind]. set (m := data ++ drop (length data) (contents c s)).
  assert (Z.of_nat (length m) = View.st_bytes s) as Hm by (subst m; rewrite length_app, length_drop; lia).
  set (c1 := set_contents s m (set_staging p c)).
  assert (pool_ok c1) as Hc1 by (by apply pool_ok_contents).
  assert (contents c1 s = m) as Hcs by (subst c1; by rewrite contents_set, Z.eqb_refl).
  destruct (View.slice _ _) as [source|e] eqn:Hsl; cbn [result_bind]; [|by eexists _, _].
  destruct (GraphBuild.copy d source _) as [[g i]|e] eqn:Hg; [|by eexists _, _].
  apply View.slice_Ok in Hsl as [_ ->]. apply copy_Ok in Hg as (Hops & _ & _). cbn in Hops.
  unfold submit_graph. destruct (submit g []) as [n|e] eqn:Hs; [|by eexists _, _].
  set (c2 := mkCtx (staging c1) (host c1) (submitted c1 ++ [(g, [])])).
  assert (pool_ok c2) as Hc2 by (destruct Hc1; by split). assert (contents c2 s = m) as Hcs2 by exact Hcs.
  eexists _, _. split; [done|]. split.
  - destruct budgeted; [done|]. by apply pool_ok_recycle; [|done|rewrite Hcs2].
  - split; [|done]. exists s, g. split_and!; [by destruct budgeted|done| |done].
    transitivity (take (length data) m); [|unfold m; by rewrite take_app_length]. f_equal. by destruct budgeted.
Qed.

(** Uploads deliver exactly the given bytes: uploading consecutive parts never
    panics; on success the staged prefix is the concatenation of the parts and
    one submitted graph copies it over the whole tensor, whose producer is
    that submission; on failure, and for an empty tensor, nothing is
    submitted.  Pooled staging stays distinct, whole and bounded. *)
Theorem uploads_deliver_their_bytes d parts allocated fresh map c :
  pool_ok c → new_storage (bytes d) c fresh →
  ∃ c' r, upload_parts d parts allocated fresh map c = Some (c', r) ∧ pool_ok c' ∧
    match r with
    | Err _ => submitted c' = submitted c
    | Ok t => Z.of_nat (length (concat parts)) = bytes d ∧ desc t = d ∧
        match t_view t with
        | None => is_empty d = true ∧ submitted c' = submitted c
        | Some v => (∃ s, allocated = Ok s ∧ v = View.buffer_view s) ∧ delivered (concat parts) v c c' (producer t)
        end
    end.
Proof using Type.
  intros Hc Hf. assert (∀ l, zsum (λ p, Z.of_nat (length p)) l = Z.of_nat (length (concat (A := Z) l))) as Hsum.
  { induction l as [|p l IH]; [done|]. rewrite zsum_cons, IH. cbn. rewrite length_app. lia. }
  assert (∀ m, Z.of_nat (length (concat parts)) <= Z.of_nat (length m) →
            copy_parts m 0 parts = Some (concat parts ++ drop (length (concat parts)) m)) as Hw.
  { intros m Hm. rewrite copy_parts_spec; [done|lia|]. rewrite Hsum. lia. }
  assert (∀ write, (∀ m, Z.of_nat (length (concat parts)) <= Z.of_nat (length m) →
            write m = Some (concat parts ++ drop (length (concat parts)) m)) →
    Z.of_nat (length (concat parts)) = bytes d →
    ∃ c' r, match allocate_with d allocated with
      | Err e => Some (c, Err e)
      | Ok t => upload_staged t (Z.of_nat (length (concat parts))) fresh map write c
      end = Some (c', r) ∧ pool_ok c' ∧
    match r with
    | Err _ => submitted c' = submitted c
    | Ok t => Z.of_nat (length (concat parts)) = bytes d ∧ desc t = d ∧
        match t_view t with
        | None => is_empty d = true ∧ submitted c' = submitted c
        | Some v => (∃ s, allocated = Ok s ∧ v = View.buffer_view s) ∧ delivered (concat parts) v c c' (producer t)
        end
    end) as Hmain.
  { clear Hw. intros write Hw Hb. unfold allocate_with. destruct (is_empty d) eqn:He; cbn [result_bind].
    - rewrite <-Hb in Hf. destruct (upload_staged_spec (mkTensor runtime d None ready None) _ fresh map _ c Hc Hf Hw)
        as (c' & r & -> & Hc' & Hr). exists c', r. split_and!; [done..|]. destruct r as [t|]; [|done].
      destruct Hr as [-> ->]. done.
    - destruct allocated as [s|e]; cbn [result_bind]; [|by eexists _, _]. rewrite <-Hb in Hf.
      destruct (upload_staged_spec (mkTensor runtime d (Some (View.buffer_view s)) ready None) _ fresh map _ c Hc Hf Hw)
        as (c' & r & -> & Hc' & Hr). exists c', r. split_and!; [done..|]. destruct r as [t|]; [|done].
      destruct Hr as [Hd ->]. cbn. split_and!; [done..|by exists s|done]. }
  unfold upload_parts. rewrite Hsum. destruct (Z.eqb_spec (Z.of_nat (length (concat parts))) (bytes d)) as [E|E]; cbn [negb]; [|by eexists _, _].
  destruct parts as [|part [|q rest]]; [by apply Hmain| |by apply Hmain].
  assert (concat [part] = part) as Hcp by (cbn; by rewrite app_nil_r). rewrite Hcp in *.
  unfold upload. rewrite (proj2 (Z.eqb_eq _ _) E). cbn [negb]. apply Hmain; [|done].
  intros m Hm. rewrite copy_at_parts. by apply Hw.
Qed.

(** ** Concatenation *)

(** A descriptor made by [strided] or [new], with any layout; a tensor whose
    view has the bytes of its descriptor. *)
Definition desc_ok (d : TensorDesc) : Prop :=
  Forall (Z.le 0) (shape d) ∧
  strided (dtype d) (shape d) (strides d) = Ok (mkDesc (dtype d) (shape d) (strides d) General (elements d) (bytes d)).
Definition tensor_ok (t : DeviceTensor) : Prop :=
  desc_ok (desc t) ∧
  match t_view t with
  | None => is_empty (desc t) = true
  | Some v => is_empty (desc t) = false ∧ View.len v = bytes (desc t)
  end.

Lemma desc_ok_bytes d :
  desc_ok d → is_contiguous d = true →
  elements d = foldr Z.mul 1 (shape d) ∧ bytes d = foldr Z.mul 1 (shape d) * dtype_bytes (dtype d).
Proof using Type. intros [Hnn Hs] Hc. exact (contiguous_bytes _ _ _ _ Hnn Hs Hc). Qed.

Lemma new_desc_ok t sh d l d' :
  Forall (Z.le 0) sh → new t sh = Ok d → with_layout d l = Ok d' →
  desc_ok d' ∧ is_contiguous d' = true ∧ dtype d' = t ∧ shape d' = sh ∧ layout d' = l.
Proof using Type.
  intros Hnn Hn Hl. unfold with_layout in Hl. case_match; [|done]. injection Hl as <-.
  pose proof Hn as Hn'. apply new_strided in Hn' as [st Hs].
  pose proof (strided_Ok _ _ _ _ Hs) as (_ & _ & Ht & Hsh & Hst & Hg & _). destruct (new_is_dense _ _ _ Hnn Hn) as [Hc _].
  unfold desc_ok. cbn. split_and!; [by rewrite Hsh| |exact Hc|done|done|done].
  rewrite Ht, Hsh, Hst, Hs. destruct d; cbn in *. by subst.
Qed.

(** Ranges that follow each other without a gap from [at_] to [stop_]. *)
Fixpoint tile (at_ stop_ : Z) (rs : list Range) : Prop :=
  match rs with
  | [] => at_ = stop_
  | r :: rs => start r = at_ ∧ at_ <= stop r ∧ tile (stop r) stop_ rs
  end.

Lemma binding_len t v : binding t = Some v → ∃ v0, t_view t = Some v0 ∧ View.len v = View.len v0.
Proof using Type. unfold binding. destruct (t_view t) as [v0|]; [|done]. cbn. destruct (lease t); intros [= <-]; by exists v0. Qed.
Lemma binding_None t : binding t = None → t_view t = None.
Proof using Type. unfold binding. by destruct (t_view t). Qed.
Lemma empty_bytes d : desc_ok d → is_empty d = true → bytes d = 0.
Proof using Type.
  intros Hd He. assert (is_contiguous d = true) as Hc by (unfold is_contiguous; by rewrite He).
  destruct (desc_ok_bytes d Hd Hc) as [H1 ->]. unfold is_empty in He. to_prop. rewrite <-H1, He. lia.
Qed.

Notation ops g := (GraphBuild.operation <$> GraphBuild.entries g).
Notation total inputs := (zsum (λ t, bytes (desc t)) inputs).

Lemma concat_copies_spec v inputs at_ g g' :
  Forall tensor_ok inputs → concat_copies v inputs at_ g = Ok g' →
  ∃ cs, ops g' = ops g ++ ((λ c, GraphBuild.Copy c.1 c.2) <$> cs) ∧ cs.*2 = omap binding inputs ∧
    Forall (λ c, View.storage c.1 = View.storage v) cs ∧
    tile (View.offset v + at_) (View.offset v + at_ + total inputs) (View.view_range <$> cs.*1).
Proof using Type.
  intros Hok. revert at_ g. induction Hok as [|t inputs [Hd Ht] Hok IH]; intros at_ g; cbn [concat_copies].
  { intros [= <-]. exists []. cbn. rewrite app_nil_r, Z.add_0_r. done. }
  rewrite zsum_cons. destruct (binding t) as [src|] eqn:Hb.
  - destruct (View.slice _ _) as [d|] eqn:Hs; [|done]. cbn [result_bind].
    destruct (GraphBuild.copy d src g) as [[g1 n]|] eqn:Hg; [|done]. cbn [result_bind].
    apply copy_Ok in Hg as (Hops & _ & _). apply View.slice_Ok in Hs as [Hle ->].
    intros H. destruct (IH _ _ H) as (cs & Ho & Hsnd & Hst & Htile).
    destruct (binding_len _ _ Hb) as (v0 & Hv & Hl). rewrite Hv in Ht. destruct Ht as [_ Hlen].
    eexists ((_, src) :: cs). split_and!.
    + rewrite Ho, Hops. cbn. by rewrite <-app_assoc.
    + cbn. rewrite Hb. cbn. by rewrite Hsnd.
    + by constructor.
    + cbn in *. split_and!; [done|lia|]. rewrite Hl, Hlen.
      by replace (View.offset v + at_ + (bytes (desc t) + total inputs))
        with (View.offset v + (at_ + bytes (desc t)) + total inputs) by lia.
  - intros H. apply binding_None in Hb as Hv. rewrite Hv in Ht. apply (empty_bytes _ Hd) in Ht.
    destruct (IH _ _ H) as (cs & Ho & Hsnd & Hst & Htile). exists cs. split_and!; [done| |done|].
    + cbn. by rewrite Hb.
    + by rewrite Ht.
Qed.

Notation rows inputs := (zsum (λ t, default 0 (head (shape (desc t)))) inputs).

Lemma compatible_shape p d :
  incompatible p d = false → shape p ≠ [] → is_contiguous d = true ∧ dtype d = dtype p ∧
  ∃ h, shape d = h :: drop 1 (shape p).
Proof using Type.
  unfold incompatible. intros H Hp. apply orb_false_iff in H as [H Hc]. apply orb_false_iff in H as [H Hs].
  apply orb_false_iff in H as [H Hl]. apply orb_false_iff in H as [Ht _].
  apply negb_false_iff in Hc. apply negb_false_iff, bool_decide_eq_true in Hs, Ht. apply negb_false_iff, Nat.eqb_eq in Hl.
  split_and!; [done..|].
  destruct (shape d) as [|h sh] eqn:E; [|exists h; cbn in Hs; by rewrite <-Hs]. by destruct (shape p).
Qed.

Lemma concat_rows_spec p inputs n m :
  concat_rows p inputs n = Ok m →
  m = n + rows inputs ∧ Forall (λ t, t_runtime t = runtime ∧ incompatible p (desc t) = false) inputs.
Proof using Type.
  revert n. induction inputs as [|t inputs IH]; intros n; cbn [concat_rows]; [intros [= <-]; cbn; split; [lia|done]|].
  unfold validate. case_bool; [|done]. cbn [result_bind]. destruct (incompatible p (desc t)) eqn:Hi; [done|].
  destruct (checked_add _ _) as [k|] eqn:Hk; [|done]. cbn [ok_or result_bind].
  apply checked_add_Some in Hk as [-> _]. intros [-> Hf]%IH. rewrite zsum_cons. split; [lia|by constructor].
Qed.

Lemma rows_total p inputs :
  shape p ≠ [] → Forall tensor_ok inputs → Forall (λ t, t_runtime t = runtime ∧ incompatible p (desc t) = false) inputs →
  total inputs = rows inputs * foldr Z.mul 1 (drop 1 (shape p)) * dtype_bytes (dtype p) ∧ 0 <= rows inputs.
Proof using Type.
  intros Hp Hok. induction Hok as [|t inputs [Hd _] Hok IH]; [done|]. intros [[_ Hi] Hf]%Forall_cons.
  destruct (IH Hf) as [IH1 IH2]. rewrite !zsum_cons. destruct (compatible_shape _ _ Hi Hp) as (Hc & Ht & h & Hs).
  destruct (desc_ok_bytes _ Hd Hc) as [_ Hb]. destruct Hd as [Hnn _]. rewrite Hs in *. apply Forall_cons in Hnn as [Hh _].
  rewrite Hb, Ht, IH1. cbn. split; [ring|lia].
Qed.

Lemma product_nonneg l : Forall (Z.le 0) l → 0 <= foldr Z.mul 1 l.
Proof using Type. induction 1 as [|x l Hx _ IH]; [done|]. cbn. by apply Z.mul_nonneg_nonneg. Qed.

Lemma wait_all_Ok deps u : wait_all deps = Ok u → Forall (λ d, wait d = Ok tt) deps.
Proof using Type.
  induction deps as [|d deps IH]; [done|]. cbn [wait_all]. destruct (wait d) as [[]|] eqn:Hd; [|done]. cbn. auto.
Qed.

(** A concatenation stacks its inputs along the first axis: the output has the
    summed first dimension and exactly the bytes of all inputs; the submitted
    graph has one copy per input that has storage, in order, whose destinations
    follow each other from the first byte of the output to the last, and runs
    after the producers of all inputs, those of empty ones included; an empty
    output is returned only when every producer has succeeded. *)
Theorem concatenate_tiles_output first rest allocate c c' out :
  Forall tensor_ok (first :: rest) → (∀ n s, allocate n = Ok s → View.st_bytes s = n) →
  concatenate (first :: rest) allocate c = (c', Ok out) →
  let inputs := first :: rest in
  shape (desc out) = rows inputs :: drop 1 (shape (desc first)) ∧
  dtype (desc out) = dtype (desc first) ∧ layout (desc out) = layout (desc first) ∧ tensor_ok out ∧
  bytes (desc out) = total inputs ∧
  match t_view out with
  | None => c' = c ∧ Forall (λ t, wait (producer t) = Ok tt) inputs
  | Some v => ∃ g cs,
      submitted c' = submitted c ++ [(g, producer <$> inputs)] ∧
      submit g (producer <$> inputs) = Ok (producer out) ∧
      ops g = (λ c, GraphBuild.Copy c.1 c.2) <$> cs ∧ cs.*2 = omap binding inputs ∧
      Forall (λ c, View.storage c.1 = View.storage v) cs ∧ tile 0 (bytes (desc out)) (View.view_range <$> cs.*1)
  end.
Proof using Type.
  intros Hok Hal. unfold concatenate. set (inputs := first :: rest) in *. set (p := desc first).
  destruct (bool_decide (shape p = []) || negb (is_contiguous p)) eqn:Hp; [done|]. apply orb_false_iff in Hp as [Hp _].
  apply bool_decide_eq_false in Hp.
  destruct (concat_rows p inputs 0) as [n|] eqn:Hr; [|done]. apply concat_rows_spec in Hr as [-> Hf]. cbn [result_bind].
  destruct (rows_total p inputs Hp Hok Hf) as [Htot Hrows]. rewrite Z.add_0_l.
  destruct (new _ _) as [d0|] eqn:Hn; [|done]. cbn [result_bind].
  destruct (with_layout d0 _) as [d|] eqn:Hl; [|done]. cbn [result_bind].
  assert (Forall (Z.le 0) (rows inputs :: drop 1 (shape p))) as Hnn.
  { constructor; [done|]. apply Forall_drop. inversion Hok as [|? ? [[Hnn _] _]]. done. }
  destruct (new_desc_ok _ _ _ _ _ Hnn Hn Hl) as (Hd & Hc & Ht & Hs & Hlay).
  assert (bytes d = total inputs) as Hbytes.
  { destruct (desc_ok_bytes d Hd Hc) as [_ ->]. rewrite Hs, Ht, Htot. cbn. ring. }
  unfold allocate_with. destruct (is_empty d) eqn:He; cbn [result_bind binding t_view mbind option_bind].
  - destruct (wait_all (producer <$> inputs)) as [u|] eqn:Hw; [|done]. intros [= <- <-]. cbn.
    split_and!; try done. by apply wait_all_Ok, Forall_fmap in Hw.
  - destruct (allocate (bytes d)) as [st|] eqn:Ha; [|done]. cbn [result_bind binding t_view mbind option_bind lease].
    apply Hal in Ha. destruct (concat_copies (View.buffer_view st) inputs 0 (GraphBuild.new_graph runtime)) as [g|] eqn:Hg; [|done].
    destruct (concat_copies_spec _ _ _ _ _ Hok Hg) as (cs & Hops & Hsnd & Hst & Htile).
    unfold submit_graph. destruct (submit g _) as [k|] eqn:Hsub; [|done]. intros [= <- <-]. cbn in *.
    assert (0 <= bytes d) as Hb0.
    { rewrite Hbytes. destruct (desc_ok_bytes d Hd Hc) as [H1 H2]. rewrite <-Hbytes, H2. rewrite <-H1.
      assert (0 <= elements d); [|destruct (dtype d); cbn; lia].
      rewrite H1, Hs. by apply product_nonneg. }
    split_and!; try done.
    + split; [done|]. cbn. split; [done|]. unfold View.len, range_len. cbn. lia.
    + exists g, cs. split_and!; try done. by rewrite Hbytes.
Qed.

(** ** Copies into a tensor *)

Lemma nonempty_bytes d : desc_ok d → is_contiguous d = true → is_empty d = false → 0 < bytes d.
Proof using Type.
  intros Hd Hc He. destruct (desc_ok_bytes d Hd Hc) as [H1 ->]. destruct Hd as [Hnn _].
  pose proof (product_nonneg _ Hnn). unfold is_empty in He. to_prop. rewrite H1 in He.
  destruct (dtype d); cbn; lia.
Qed.

(** Tensors are well formed however they are made: the view of a tensor
    allocated or wrapped by a context has exactly the bytes of its descriptor,
    and only empty tensors have none. *)
Theorem tensors_are_well_formed d v p validated allocated t :
  desc_ok d → 0 <= bytes d → (∀ s, allocated = Ok s → View.st_bytes s = bytes d) →
  allocate_with d allocated = Ok t ∨ tensor d v p validated = Ok t →
  tensor_ok t ∧ desc t = d ∧ t_runtime t = runtime.
Proof using Type.
  intros Hd Hb Ha. unfold allocate_with, tensor, tensor_ok. intros [H|H].
  - destruct (is_empty d) eqn:He; cbn [result_bind] in H; [by injection H as <-|].
    destruct allocated as [s|]; [|done]. injection H as <-. cbn. split_and!; try done.
    unfold View.len, range_len. cbn. rewrite (Ha s eq_refl). lia.
  - destruct validated; [|done]. cbn [result_bind] in H. case_match; [done|].
    destruct (is_empty d) eqn:He; cbn [result_bind] in H; [by injection H as <-|].
    destruct (View.slice v _) as [v'|] eqn:Hs; [|done]. injection H as <-. apply View.slice_Ok in Hs as [Hle ->].
    cbn. split_and!; try done. unfold View.len, range_len. cbn. lia.
Qed.

(** A copy into a tensor never panics and stays inside it: on success with a
    source that has storage, one submitted graph copies the whole source to
    the bytes at the given offset of the destination, after the producers of
    both, and becomes the producer of the destination. *)
Theorem copy_into_is_in_bounds destination at_ source c :
  tensor_ok destination → tensor_ok source → 0 <= at_ →
  ∃ c' r, copy_into destination at_ source c = Some (c', r) ∧
    match r with
    | Err _ => submitted c' = submitted c
    | Ok t => t = set_producer (producer t) destination ∧
        match binding source with
        | None => submitted c' = submitted c ∧ wait (producer source) = Ok tt
        | Some from => ∃ to v g, binding destination = Some v ∧
            submitted c' = submitted c ++ [(g, [producer destination; producer source])] ∧
            ops g = [GraphBuild.Copy to from] ∧ View.storage to = View.storage v ∧
            View.offset to = View.offset v + at_ ∧ View.len to = bytes (desc source) ∧
            at_ + bytes (desc source) <= View.len v
        end
    end.
Proof using Type.
  intros [Hdd Hdv] [Hsd Hsv] H0. unfold copy_into.
  destruct (validate destination); cbn [result_bind]; [|by eexists _, _].
  destruct (validate source); cbn [result_bind]; [|by eexists _, _].
  destruct (checked_add at_ (bytes (desc source))) as [e|] eqn:He; cbn [mbind option_bind]; [|by eexists _, _].
  apply checked_add_Some in He as [-> _].
  destruct (_ <=? bytes (desc destination)) eqn:Hle; cbn [ok_or result_bind]; [|by eexists _, _]. to_prop.
  match goal with |- context [if ?b then Err _ else Ok _] => destruct b eqn:Hchk end; [by eexists _, _|]. apply orb_false_iff in Hchk as [Hchk _].
  apply orb_false_iff in Hchk as [Hchk Hcs]. apply negb_false_iff in Hcs.
  destruct (binding source) as [from|] eqn:Hb.
  2:{ destruct (wait (producer source)) as [[]|]; eexists _, _; (split; [done|]); [|done]. cbn.
      split; [by destruct destination|done]. }
  destruct (binding_len _ _ Hb) as (v0 & Hv0 & Hl). rewrite Hv0 in Hsv. destruct Hsv as [Hne Hlen].
  pose proof (nonempty_bytes _ Hsd Hcs Hne) as Hpos.
  destruct (binding destination) as [v|] eqn:Hbd.
  2:{ apply binding_None in Hbd. rewrite Hbd in Hdv. apply (empty_bytes _ Hdd) in Hdv. lia. }
  destruct (binding_len _ _ Hbd) as (v1 & Hv1 & Hl1). rewrite Hv1 in Hdv. destruct Hdv as [_ Hlen1].
  cbn [mbind option_bind]. destruct (View.slice v _) as [to|] eqn:Hs; cbn [result_bind]; [|by eexists _, _].
  apply View.slice_Ok in Hs as [Hr ->].
  destruct (GraphBuild.copy _ from _) as [[g i]|] eqn:Hg; [|by eexists _, _]. apply copy_Ok in Hg as (Hops & _ & Hcl).
  unfold submit_graph. destruct (submit g _) as [n|] eqn:Hsub; eexists _, _; (split; [done|]); [|done].
  split; [done|]. eexists _, v, g. split_and!; [done|done|exact Hops|done|done|by rewrite Hcl, Hl|lia].
Qed.
End Context.

(** ** Concrete transfers *)

Definition demo_storage (id n : Z) : View.Storage := View.mkStorage id n false true true true 0.
Definition demo_desc (n : Z) : TensorDesc := mkDesc F32 [n; 2] [2; 1] General (n * 2) (n * 8).
Definition demo_tensor (id n : Z) (p : nat) : DeviceTensor :=
  mkTensor 0 (demo_desc n) (if n =? 0 then None else Some (View.buffer_view (demo_storage id (n * 8)))) p None.
Definition demo_ctx : Ctx := mkCtx [(demo_storage 9 12, 1%nat); (demo_storage 8 10, 2%nat)] ∅ [].

Lemma demo_tensor_ok id n p : n = 0 ∨ n = 1 ∨ n = 2 ∨ n = 3 → tensor_ok (demo_tensor id n p).
Proof.
  intros [->|[->|[->| ->]]]; (split; [split; [repeat constructor; cbn; lia|vm_compute; reflexivity]|]); cbn; done.
Qed.

Lemma concatenate_tiles_output_witness :
  ∃ c out, concatenate 0 7 (λ _, Ok tt) (λ _ _, Ok 5%nat) [demo_tensor 1 2 3; demo_tensor 2 0 4; demo_tensor 3 1 6]
             (λ n, Ok (demo_storage 20 n)) demo_ctx = (c, Ok out) ∧
    bytes (desc out) = 24 ∧ shape (desc out) = [3; 2].
Proof.
  eexists _, _. split; [vm_compute; reflexivity|].
  edestruct (concatenate_tiles_output 0 7 (λ _, Ok tt) (λ _ _, Ok 5%nat) (demo_tensor 1 2 3)
    [demo_tensor 2 0 4; demo_tensor 3 1 6] (λ n, Ok (demo_storage 20 n)) demo_ctx) as (Hs & _ & _ & _ & Hb & _).
  - rewrite !Forall_cons, Forall_nil. split_and!; [apply demo_tensor_ok; auto..|done].
  - by intros n s [= <-].
  - vm_compute; reflexivity.
  - split; [exact Hb|exact Hs].
Defined.

Lemma demo_ctx_ok : pool_ok demo_ctx.
Proof.
  split; [repeat constructor; set_solver| |cbn; unfold STAGING_POOL_ENTRIES; lia].
  intros e [->|[->|?%elem_of_nil]%elem_of_cons]%elem_of_cons; done.
Qed.

Lemma uploads_deliver_their_bytes_witness :
  ∃ c' r, upload_parts 0 false 7 (λ n, n =? 2)%nat (λ _ _, Ok 5%nat) (demo_desc 1) [[1; 2; 3]; [4; 5; 6; 7; 8]]
            (Ok (demo_storage 20 8)) (Ok (demo_storage 21 8)) (λ _, Ok tt) demo_ctx = Some (c', r) ∧ pool_ok c'.
Proof.
  edestruct (uploads_deliver_their_bytes 0 false 7 (λ n, n =? 2)%nat (λ _ _, Ok 5%nat) (demo_desc 1)
    [[1; 2; 3]; [4; 5; 6; 7; 8]] (Ok (demo_storage 20 8)) (Ok (demo_storage 21 8)) (λ _, Ok tt) demo_ctx)
    as (c' & r & H & Hok & _); [exact demo_ctx_ok| |by exists c', r].
  intros s [= <-]. split_and!; [done|done|]. cbn. set_solver by lia.
Defined.
End ModelContext.
