(* ===== verification/ModelDefinition.v ===== *)
(** * Model definitions

    src/src/loom/model/definition.rs: a session frozen into shared weights and
    code, fragments of validated commands, and their recording into a caller's
    graph, where every allocation of the definition is remapped to a supplied
    input, a reused scratch view, a weight or a fresh allocation.  [None] is a
    panic; adoption, allocation and waits are outcomes. *)

From S2P Require Import Prelude Access BufferView Dependencies Contract Tensor Target Stream BenchmarkStatistics ModelSession Scheduler GraphBuild ModelContext.
Import ModelSession.
Local Open Scope Z_scope.

Module ModelDefinition.

(** ** Data *)

(** The file's [Storage]. *)
Inductive Storage : Type := Weight (s : View.Storage) | Scratch (n : Z) (p : Placement).
Record Definition_ : Type := mkDefinition {
  md_id : nat;
  md_runtime : nat;
  md_allocations : list Storage;
  md_kernels : list LoadedKernel }.
Record FragmentCommand : Type := mkCommand {
  fc_kernel : option GraphBuild.Kernel;
  fc_regions : list Region;
  fc_fill : option Z }.
(** [ModelFragment]. *)
Record Fragment : Type := mkFragment {
  mf_runtime : nat;
  mf_allocations : list Storage;
  mf_extents : list Z;
  mf_commands : list FragmentCommand;
  mf_inputs : list (Region * Tensor.TensorDesc);
  mf_outputs : list (Region * Tensor.TensorDesc);
  mf_reuse : bool }.

Definition is_weight (x : Storage) : bool := match x with Weight _ => true | Scratch _ _ => false end.
Definition storage_bytes (x : Storage) : Z := match x with Weight s => View.st_bytes s | Scratch n _ => n end.

(** ** Freezing *)

(** [ModelSession::freeze]: [adopt] is [Runtime::adopt_gpu_buffer]. *)
Fixpoint adopt_all (adopt : nat → Stream.Buffer → Result View.Storage) (i : nat) (l : list Allocation)
    : Result (list Storage) :=
  match l with
  | [] => Ok []
  | a :: rest =>
      let? x := (if a_immutable a then let? s := adopt i (a_buffer a) in Ok (Weight s)
                 else Ok (Scratch (Stream.bytes (a_buffer a)) (a_placement a))) in
      let? xs := adopt_all adopt (S i) rest in
      Ok (x :: xs)
  end.
Definition clear_graphs (env : Stream.Env) (s : Session) : Session :=
  set_recorded [] (set_world (Nat.iter (length (recorded_graphs s)) (Stream.graph_drop env 0) (world s)) s).
Definition freeze (env drop_env : Stream.Env) (same_device : Result bool) (adopt : nat → Stream.Buffer → Result View.Storage)
    (runtime : nat) : S_ Definition_ :=
  let^ _ := synchronize env in
  let^ same := St.lift same_device in
  if negb same then St.fail (Message "model belongs to another device")
  else
    let^ _ := St.modify (clear_graphs drop_env) in
    let^ l := (λ s, (s, adopt_all adopt 0 (allocations s))) in
    let^ id := St.gets s_id in
    let^ ks := St.gets kernels in
    St.ret (mkDefinition id runtime l ks).

(** [ModelDefinition::weight_bytes]. *)
Definition weight_bytes (d : Definition_) : Z :=
  zsum (λ x, if is_weight x then storage_bytes x else 0) (md_allocations d).

(** ** Fragments *)

(** [ModelDefinition::validate_region]. *)
Definition validate_in (d : Definition_) (r : Region) : Result Storage :=
  if negb (r_session r =? md_id d)%nat then Err (Message "model region belongs to another definition")
  else
    match md_allocations d !! r_allocation r with
    | None => Err (Message "invalid model allocation")
    | Some x =>
        match checked_add (r_offset r) (r_bytes r) with
        | Some stop => if storage_bytes x <? stop then Err (Message "model region exceeds allocation") else Ok x
        | None => Err (Message "model region exceeds allocation")
        end
    end.
Fixpoint check_io (d : Definition_) (l : list (Region * Tensor.TensorDesc)) : Result unit :=
  match l with
  | [] => Ok tt
  | (r, desc) :: rest =>
      let? x := validate_in d r in
      if Tensor.is_empty desc || (r_bytes r <? Tensor.bytes desc)
      then Err (Message "model IO descriptor exceeds its region or is empty")
      else if is_weight x then Err (Message "model IO cannot alias immutable weights")
      else check_io d rest
  end.
Fixpoint contract_bindings (d : Definition_) (l : list Binding) : Result (list Contract.BindingContract) :=
  match l with
  | [] => Ok []
  | b :: rest =>
      let? x := validate_in d (b_region b) in
      if negb (bool_decide (b_access b = Read)) && is_weight x then Err (Message "cannot write immutable weights")
      else
        let? bs := contract_bindings d rest in
        Ok (Contract.mkBinding (r_bytes (b_region b)) 1 (b_access b) "model region" :: bs)
  end.
(** [Runtime::adopt_gpu_kernel]: [native] checks the launch and the device,
    [info] is the kernel's binding count and its constant bytes. *)
Definition adopt_gpu_kernel (native : LoadedKernel → list Z → Result unit) (info : LoadedKernel → Z * Z) (runtime : nat)
    (k : LoadedKernel) (grid : list Z) (c : Contract.KernelContract) : Result GraphBuild.Kernel :=
  let? _ := Contract.validate c in
  let? _ := native k grid in
  if negb ((info k).1 =? Z.of_nat (length (Contract.bindings c)))
     || negb ((info k).2 =? Z.of_nat (length (Contract.constants c)))
  then Err (Message "GPU metadata does not match contract")
  else Ok (GraphBuild.mkKernel runtime c).

Section Fragment.
Context (native : LoadedKernel → list Z → Result unit) (info : LoadedKernel → Z * Z).
Context (indices : LoadedKernel → list Z → Result (list Z)).
Definition fragment_command (d : Definition_) (c : ModelCommand) : Result FragmentCommand :=
  match c with
  | MFill r value =>
      let? x := validate_in d r in
      if is_weight x then Err (Message "cannot fill immutable weights") else Ok (mkCommand None [r] (Some value))
  | MDispatch x =>
      if negb (k_session (d_kernel x) =? md_id d)%nat then Err (Message "kernel belongs to another definition")
      else
        let? k := ok_or (md_kernels d !! k_index (d_kernel x)) (Message "invalid model kernel") in
        let? bs := contract_bindings d (d_bindings x) in
        let? constants := (match d_arguments x with Indices l => indices k l | Packed l => Ok l end) in
        let? k := adopt_gpu_kernel native info (md_runtime d) k (d_grid x) (Contract.mkContract bs constants) in
        Ok (mkCommand (Some k) (b_region <$> d_bindings x) None)
  end.
Fixpoint fragment_commands (d : Definition_) (l : list ModelCommand) : Result (list FragmentCommand) :=
  match l with
  | [] => Ok []
  | c :: rest => let? x := fragment_command d c in let? xs := fragment_commands d rest in Ok (x :: xs)
  end.
(** [extents[allocation] = extents[allocation].max(end)]. *)
Definition marks (commands : list FragmentCommand) (io : list (Region * Tensor.TensorDesc)) : list (nat * Z) :=
  (commands ≫= λ c, (λ r, (r_allocation r, r_offset r + r_bytes r)) <$> fc_regions c)
  ++ ((λ x : Region * Tensor.TensorDesc, (r_allocation x.1, r_offset x.1 + Tensor.bytes x.2)) <$> io).
Definition extents_of (n : nat) (l : list (nat * Z)) : list Z :=
  foldl (λ e x, alter (λ old, Z.max old x.2) x.1 e) (replicate n 0) l.
(** [ModelDefinition::fragment]. *)
Definition fragment (d : Definition_) (commands : list ModelCommand) (inputs outputs : list (Region * Tensor.TensorDesc))
    : Result Fragment :=
  let? _ := check_io d (inputs ++ outputs) in
  let? prepared := fragment_commands d commands in
  Ok (mkFragment (md_runtime d) (md_allocations d)
        (extents_of (length (md_allocations d)) (marks prepared (inputs ++ outputs)))
        prepared inputs outputs false).
End Fragment.
(** [ModelFragment::reuse_private_scratch]. *)
Definition reuse_private_scratch (f : Fragment) : Fragment :=
  mkFragment (mf_runtime f) (mf_allocations f) (mf_extents f) (mf_commands f) (mf_inputs f) (mf_outputs f) true.

(** ** Recording *)

(** A computation that may panic. *)
Definition then_ {A B} (m : option (Result A)) (k : A → option (Result B)) : option (Result B) :=
  match m with None => None | Some (Err e) => Some (Err e) | Some (Ok a) => k a end.
Notation "'let*' x := m 'in' k" := (then_ m (λ x, k)) (at level 10, x pattern, m at level 100, k at level 200).

(** The view bound to each allocation, with the offset it starts at. *)
Notation Buffers := (list (option (Z * View.BufferView))).
Definition bound_elsewhere (i : nat) (v : View.BufferView) (l : Buffers) : bool :=
  existsb (λ x : nat * option (Z * View.BufferView),
             negb (x.1 =? i)%nat && match x.2 with Some (_, old) => View.overlaps old v | None => false end)
          (imap (λ j o, (j, o)) l).
Definition meets_weight (l : list Storage) (v : View.BufferView) : bool :=
  existsb (λ x, match x with Weight s => View.overlaps (View.buffer_view s) v | Scratch _ _ => false end) l.
Fixpoint bind_inputs (wait : nat → Result unit) (f : Fragment) (l : list ((Region * Tensor.TensorDesc) * ModelContext.DeviceTensor))
    (buffers : Buffers) : option (Result Buffers) :=
  match l with
  | [] => Some (Ok buffers)
  | ((r, desc), t) :: rest =>
      let* _ := Some (ModelContext.validate (mf_runtime f) t) in
      if negb (bool_decide (ModelContext.desc t = desc)) then Some (Err (Message "fragment input descriptor mismatch"))
      else
        let* _ := Some (wait (ModelContext.producer t)) in
        match ModelContext.binding t with
        | None => None
        | Some v =>
            if bound_elsewhere (r_allocation r) v buffers || meets_weight (mf_allocations f) v
            then Some (Err (Message "fragment remapping introduces an undeclared alias"))
            else
              match buffers !! r_allocation r with
              | None => None
              | Some (Some (base, old)) =>
                  if negb (base =? r_offset r) || negb (View.same_region old v)
                  then Some (Err (Message "fragment inputs alias one allocation inconsistently"))
                  else bind_inputs wait f rest buffers
              | Some None => bind_inputs wait f rest (<[r_allocation r := Some (r_offset r, v)]> buffers)
              end
        end
  end.

(** The temporaries no input or output uses, with their extent and whether the
    host sees them. *)
Definition used_by_io (f : Fragment) (i : nat) : bool :=
  existsb (λ x : Region * Tensor.TensorDesc, r_allocation x.1 =? i)%nat (mf_inputs f ++ mf_outputs f).
Definition private_scratch (f : Fragment) : list (nat * (Z * bool)) :=
  omap (λ x : nat * Storage,
          let extent := default 0 (mf_extents f !! x.1) in
          match x.2 with
          | Scratch _ p =>
              if (0 <? extent) && negb (used_by_io f x.1)
              then Some (x.1, (extent, match p with OnHost => true | OnDevice => false end)) else None
          | Weight _ => None
          end) (imap (λ i x, (i, x)) (mf_allocations f)).
Definition bind_private (private : list (nat * (Z * bool))) (views : list View.BufferView) (l : Buffers) : Buffers :=
  foldl (λ l (x : (nat * (Z * bool)) * View.BufferView), <[x.1.1 := Some (0, x.2)]> l) l (zip private views).
(** The remaining allocations. *)
Fixpoint bind_rest (allocate : nat → Z → Placement → Result View.Storage) (extents : list Z) (i : nat) (l : list Storage)
    (buffers : Buffers) : Result Buffers :=
  match l with
  | [] => Ok buffers
  | x :: rest =>
      let? b := (match buffers !! i with
                 | Some (Some b) => Ok (Some b)
                 | _ =>
                     match x with
                     | Weight s => Ok (Some (0, View.buffer_view s))
                     | Scratch _ p =>
                         let extent := default 0 (extents !! i) in
                         if extent =? 0 then Ok None
                         else let? s := allocate i extent p in Ok (Some (0, View.buffer_view s))
                     end
                 end) in
      bind_rest allocate extents (S i) rest (<[i := b]> buffers)
  end.

(** [view]. *)
Definition view_of (buffers : Buffers) (r : Region) : option (Result View.BufferView) :=
  match buffers !! r_allocation r with
  | Some (Some (base, v)) =>
      Some (if r_offset r <? base then Err (Message "fragment access precedes bound input")
            else View.slice v (mkRange (r_offset r - base) (r_offset r - base + r_bytes r)))
  | _ => None
  end.
Fixpoint views_of (buffers : Buffers) (l : list Region) : option (Result (list View.BufferView)) :=
  match l with
  | [] => Some (Ok [])
  | r :: rest => let* v := view_of buffers r in let* vs := views_of buffers rest in Some (Ok (v :: vs))
  end.
(** [tensors]. *)
Fixpoint tensors_of (runtime ready : nat) (buffers : Buffers) (l : list (Region * Tensor.TensorDesc))
    : option (Result (list ModelContext.DeviceTensor)) :=
  match l with
  | [] => Some (Ok [])
  | (r, desc) :: rest =>
      let* part := Some (region_slice r 0 (Tensor.bytes desc)) in
      let* v := view_of buffers part in
      let* t := Some (ModelContext.tensor runtime desc v ready (Ok tt)) in
      let* ts := tensors_of runtime ready buffers rest in
      Some (Ok (t :: ts))
  end.
Fixpoint bindings_of (buffers : Buffers) (l : list FragmentCommand) : option (Result (list (list View.BufferView))) :=
  match l with
  | [] => Some (Ok [])
  | c :: rest => let* vs := views_of buffers (fc_regions c) in let* vss := bindings_of buffers rest in Some (Ok (vs :: vss))
  end.
(** The commands, issued to the caller's graph. *)
Definition issue_one (address : View.Storage → Result Z) (c : FragmentCommand) (views : list View.BufferView)
    (g : GraphBuild.Graph) : option (Result GraphBuild.Graph) :=
  match fc_fill c with
  | Some value =>
      match views with
      | [] => None
      | v :: _ => Some (let? (g, _) := GraphBuild.fill v value g in Ok g)
      end
  | None =>
      match fc_kernel c with
      | Some k => Some (let? (g, _) := GraphBuild.gpu_aliasing address k views g in Ok g)
      | None => Some (Ok g)
      end
  end.
Fixpoint issue_commands (address : View.Storage → Result Z) (l : list (FragmentCommand * list View.BufferView))
    (g : GraphBuild.Graph) : option (GraphBuild.Graph * Result unit) :=
  match l with
  | [] => Some (g, Ok tt)
  | (c, views) :: rest =>
      match issue_one address c views g with
      | None => None
      | Some (Err e) => Some (g, Err e)
      | Some (Ok g) => issue_commands address rest g
      end
  end.

(** The outcomes of one recording. *)
Record AppendEnv : Type := mkAppend {
  ae_wait : nat → Result unit;
  ae_scratch : nat → Z → bool → Result View.BufferView;
  ae_allocate : nat → Z → Placement → Result View.Storage;
  ae_address : View.Storage → Result Z;
  ae_ready : nat }.
(** [ModelFragment::append] up to the bound views. *)
Definition bind_all (env : AppendEnv) (f : Fragment) (supplied : option (list ModelContext.DeviceTensor)) (g : GraphBuild.Graph)
    : GraphBuild.Graph * option (Result Buffers) :=
  let empty : Buffers := replicate (length (mf_allocations f)) None in
  let bound :=
    match supplied with
    | None => Some (Ok empty)
    | Some inputs =>
        if negb (length inputs =? length (mf_inputs f))%nat then Some (Err (Message "fragment input count mismatch"))
        else bind_inputs (ae_wait env) f (zip (mf_inputs f) inputs) empty
    end in
  match bound with
  | Some (Ok buffers) =>
      let private := private_scratch f in
      let (g, views) := (if mf_reuse f then GraphBuild.take_scratch (ae_scratch env) (snd <$> private) g else (g, Ok [])) in
      (g, Some (let? views := views in
                bind_rest (ae_allocate env) (mf_extents f) 0 (mf_allocations f) (bind_private private views buffers)))
  | r => (g, r)
  end.
(** [ModelFragment::append]. *)
Definition append (env : AppendEnv) (f : Fragment) (supplied : option (list ModelContext.DeviceTensor)) (g : GraphBuild.Graph)
    : option (GraphBuild.Graph * Result (list ModelContext.DeviceTensor * list ModelContext.DeviceTensor)) :=
  if negb (GraphBuild.graph_runtime g =? mf_runtime f)%nat then Some (g, Err (Message "graph belongs to another runtime"))
  else
    let (g, bound) := bind_all env f supplied g in
    match
      let* buffers := bound in
      let* inputs := tensors_of (mf_runtime f) (ae_ready env) buffers (mf_inputs f) in
      let* outputs := tensors_of (mf_runtime f) (ae_ready env) buffers (mf_outputs f) in
      let* views := bindings_of buffers (mf_commands f) in
      Some (Ok (inputs, outputs, views))
    with
    | None => None
    | Some (Err e) => Some (g, Err e)
    | Some (Ok (inputs, outputs, views)) =>
        match issue_commands (ae_address env) (zip (mf_commands f) views) g with
        | None => None
        | Some (g, Err e) => Some (g, Err e)
        | Some (g, Ok _) => Some (g, Ok (inputs, outputs))
        end
    end.
(** [ModelFragment::record]. *)
Definition record_fragment (env : AppendEnv) (f : Fragment) (inputs : list ModelContext.DeviceTensor) (g : GraphBuild.Graph)
    : option (GraphBuild.Graph * Result (list ModelContext.DeviceTensor)) :=
  match append env f (Some inputs) g with
  | None => None
  | Some (g, r) => Some (g, let? (_, outputs) := r in Ok outputs)
  end.
(** The slot that [ModelFragment::prepare] builds for a pool of inferences. *)
Definition fragment_slot (o : GraphBuild.Options) (lower : GraphBuild.Region → Result unit) (env : AppendEnv) (f : Fragment)
    : option (Result (list ModelContext.DeviceTensor * list ModelContext.DeviceTensor * Sched.Prepared)) :=
  match append env f None (GraphBuild.new_graph (mf_runtime f)) with
  | None => None
  | Some (g, r) =>
      let* io := Some r in
      let* p := GraphBuild.prepare o lower g in
      Some (Ok (io.1, io.2, p))
  end.
End ModelDefinition.
