(* ===== verification/ModelDefinitionTheorems.v ===== *)
(** * Model definitions: theorems

    What validation of a fragment guarantees, that remapping keeps different
    allocations apart, so that recorded commands never write a weight, and when
    recording panics. *)

From S2P Require Import Prelude Access BufferView Dependencies Contract Tensor Target Stream BenchmarkStatistics ModelSession Scheduler GraphBuild ModelContext ModelDefinition.
Import ModelSession ModelDefinition.
Local Open Scope Z_scope.

Module ModelDefinitionTheorems.

(** ** Validated commands *)

Definition scratch_at (l : list Storage) (i : nat) : Prop := ∃ n p, l !! i = Some (Scratch n p).
Definition command_sound (l : list Storage) (c : FragmentCommand) : Prop :=
  match fc_fill c with
  | Some _ => ∃ r, fc_regions c = [r] ∧ scratch_at l (r_allocation r)
  | None =>
      ∃ k, fc_kernel c = Some k ∧ Contract.validate (GraphBuild.contract k) = Ok tt ∧
        Forall2 (λ r b, is_Some (l !! r_allocation r) ∧ Contract.bytes b = r_bytes r ∧
                        (Contract.access b ≠ Read → scratch_at l (r_allocation r)))
                (fc_regions c) (Contract.bindings (GraphBuild.contract k))
  end.
Record sound (f : Fragment) : Prop := {
  sf_commands : Forall (command_sound (mf_allocations f)) (mf_commands f);
  sf_io : Forall (λ x : Region * Tensor.TensorDesc,
                    scratch_at (mf_allocations f) (r_allocation x.1) ∧ Tensor.is_empty x.2 = false ∧ Tensor.bytes x.2 <= r_bytes x.1)
                 (mf_inputs f ++ mf_outputs f);
  sf_extents : mf_extents f = extents_of (length (mf_allocations f)) (marks (mf_commands f) (mf_inputs f ++ mf_outputs f)) }.

Lemma validate_in_Ok d r x : validate_in d r = Ok x → md_allocations d !! r_allocation r = Some x ∧ r_offset r + r_bytes r <= storage_bytes x.
Proof.
  unfold validate_in. destruct (negb _); [done|]. destruct (md_allocations d !! _) as [y|]; [|done].
  destruct (checked_add _ _) as [stop|] eqn:E; [|done]. destruct (Z.ltb_spec (storage_bytes y) stop); [done|]. intros [= ->].
  apply checked_add_Some in E as [-> _]. done.
Qed.
Lemma not_weight d r x : validate_in d r = Ok x → is_weight x = false → scratch_at (md_allocations d) (r_allocation r).
Proof. intros [H _]%validate_in_Ok Hx. destruct x as [s|n p]; [done|]. by exists n, p. Qed.
Lemma fragment_io_Ok d l :
  check_io d l = Ok tt →
  Forall (λ x : Region * Tensor.TensorDesc,
            scratch_at (md_allocations d) (r_allocation x.1) ∧ Tensor.is_empty x.2 = false ∧ Tensor.bytes x.2 <= r_bytes x.1) l.
Proof.
  induction l as [|[r desc] l IH]; cbn [check_io]; [done|]. destruct (validate_in d r) as [x|] eqn:E; [|done]. cbn [result_bind].
  destruct (Tensor.is_empty desc) eqn:Ee; [done|]. destruct (Z.ltb_spec (r_bytes r) (Tensor.bytes desc)); [done|]. cbn [orb].
  destruct (is_weight x) eqn:Ew; [done|]. intros Hl. constructor; [|by apply IH]. cbn. split_and!; [by eapply not_weight|done|lia].
Qed.
Lemma contract_bindings_Ok d l bs :
  contract_bindings d l = Ok bs →
  Forall2 (λ r b, is_Some (md_allocations d !! r_allocation r) ∧ Contract.bytes b = r_bytes r ∧
                  (Contract.access b ≠ Read → scratch_at (md_allocations d) (r_allocation r))) (b_region <$> l) bs.
Proof.
  revert bs. induction l as [|b l IH]; intros bs; cbn [contract_bindings]; [by intros [= <-]|].
  destruct (validate_in d (b_region b)) as [x|] eqn:E; [|done]. cbn [result_bind].
  destruct (negb (bool_decide (b_access b = Read)) && is_weight x) eqn:Ew; [done|].
  destruct (contract_bindings d l) as [bs'|]; [|done]. cbn [result_bind]. intros [= <-]. cbn. constructor; [|by apply IH]. cbn.
  pose proof (validate_in_Ok _ _ _ E) as [Hx _]. split_and!; [by eexists|done|]. intros Ha. eapply not_weight; [done|].
  rewrite bool_decide_eq_false_2 in Ew by done. done.
Qed.
Lemma fragment_command_sound native info indices d c x :
  fragment_command native info indices d c = Ok x → command_sound (md_allocations d) x.
Proof.
  destruct c as [r value|k]; cbn [fragment_command].
  - destruct (validate_in d r) as [y|] eqn:E; [|done]. cbn [result_bind]. destruct (is_weight y) eqn:Ew; [done|]. intros [= <-].
    exists r. split; [done|]. by eapply not_weight.
  - destruct (negb _); [done|]. destruct (ok_or _ _) as [lk|]; [|done]. cbn [result_bind].
    destruct (contract_bindings d (d_bindings k)) as [bs|] eqn:Eb; [|done]. cbn [result_bind].
    match goal with |- result_bind ?m _ = _ → _ => destruct m as [cs|] end; [|done]. cbn [result_bind].
    unfold adopt_gpu_kernel. destruct (Contract.validate _) as [[]|] eqn:Ev; [|done]. cbn [result_bind]. destruct (native lk (d_grid k)); [|done].
    cbn [result_bind]. destruct (_ || _); [done|]. intros [= <-]. cbn. eexists. split_and!; [done|exact Ev|by apply contract_bindings_Ok].
Qed.
Lemma fragment_sound native info indices d commands inputs outputs f :
  fragment native info indices d commands inputs outputs = Ok f → sound f ∧ mf_allocations f = md_allocations d.
Proof.
  unfold fragment. destruct (check_io d _) as [[]|] eqn:Eio; [|done]. cbn [result_bind].
  destruct (fragment_commands native info indices d commands) as [l|] eqn:Ec; [|done]. cbn [result_bind]. intros [= <-]. split; [|done].
  constructor; cbn; [|by apply fragment_io_Ok|done]. clear Eio. revert l Ec. induction commands as [|c cs IH]; intros l; cbn [fragment_commands]; [by intros [= <-]|].
  destruct (fragment_command native info indices d c) as [x|] eqn:E; [|done]. cbn [result_bind].
  destruct (fragment_commands native info indices d cs) as [xs|]; [|done]. cbn [result_bind]. intros [= <-].
  constructor; [by eapply fragment_command_sound|by apply IH].
Qed.
Lemma reuse_sound f : sound f → sound (reuse_private_scratch f).
Proof. by intros []; constructor. Qed.

(** ** Views *)

Lemma view_overlaps_sym v w : View.overlaps v w = View.overlaps w v.
Proof. unfold View.overlaps, View.same_storage. rewrite Z.eqb_sym. by rewrite <-!andb_assoc, (andb_comm (_ <? _)). Qed.
Lemma other_storage v w : View.st_id (View.storage v) ≠ View.st_id (View.storage w) → View.overlaps v w = false.
Proof. intros H. unfold View.overlaps, View.same_storage. by rewrite (proj2 (Z.eqb_neq _ _) H). Qed.
Definition ordered (v : View.BufferView) : Prop := start (View.view_range v) <= stop (View.view_range v).
Lemma slice_apart v r w x :
  ordered v → 0 <= start r → View.slice v r = Ok w → View.overlaps v x = false → View.overlaps w x = false.
Proof.
  intros Hv Hr [Hl ->]%View.slice_Ok. unfold ordered, View.overlaps, View.same_storage, View.len, View.offset, range_len in *. cbn. intros Hx.
  destruct (View.st_id (View.storage v) =? View.st_id (View.storage x)); [|done]. cbn in *.
  destruct (Z.ltb_spec (start (View.view_range v)) (stop (View.view_range x))), (Z.ltb_spec (start (View.view_range x)) (stop (View.view_range v))); cbn in Hx; lia.
Qed.
Lemma slice_ordered v r w : View.slice v r = Ok w → ordered w ∧ View.storage w = View.storage v.
Proof. intros [Hl ->]%View.slice_Ok. unfold ordered. cbn. split; [lia|done]. Qed.

(** ** Binding *)

Definition bound (l : Buffers) (i : nat) (v : View.BufferView) : Prop := ∃ base, l !! i = Some (Some (base, v)).
Definition separate (l : Buffers) : Prop := ∀ i j v w, i ≠ j → bound l i v → bound l j w → View.overlaps v w = false.

Lemma bound_elsewhere_false i v l j w : bound_elsewhere i v l = false → bound l j w → j ≠ i → View.overlaps w v = false.
Proof.
  unfold bound_elsewhere. intros H [base Hj] Hne. apply not_true_iff_false in H. destruct (View.overlaps w v) eqn:E; [|done]. exfalso. apply H.
  apply existsb_exists. exists (j, Some (base, w)). split.
  - apply list_elem_of_In, (list_elem_of_lookup_2 _ j). by rewrite list_lookup_imap, Hj.
  - cbn. by rewrite (proj2 (Nat.eqb_neq j i) Hne).
Qed.
Lemma meets_weight_false l v i s : meets_weight l v = false → l !! i = Some (Weight s) → View.overlaps (View.buffer_view s) v = false.
Proof.
  unfold meets_weight. intros H Hi. apply not_true_iff_false in H. destruct (View.overlaps _ _) eqn:E; [|done]. exfalso. apply H.
  apply existsb_exists. exists (Weight s). split; [|done]. apply list_elem_of_In. by eapply list_elem_of_lookup_2.
Qed.
Lemma insert_bound l i b v j w : bound (<[i := Some (b, v)]> l) j w → (j = i ∧ w = v) ∨ (j ≠ i ∧ bound l j w).
Proof.
  intros [base H]. destruct (decide (j = i)) as [->|Hne].
  - left. destruct (decide (i < length l)%nat).
    + rewrite list_lookup_insert_eq in H by done. injection H as _ ->. done.
    + rewrite list_insert_ge, lookup_ge_None_2 in H by lia. done.
  - right. rewrite list_lookup_insert_ne in H by done. split; [done|by eexists].
Qed.
(** Supplied inputs: bound to scratch, apart from each other and from weights. *)
Record inputs_bound (f : Fragment) (inputs : list ModelContext.DeviceTensor) (l : Buffers) : Prop := {
  ib_length : length l = length (mf_allocations f);
  ib_separate : separate l;
  ib_scratch : ∀ i v, bound l i v → scratch_at (mf_allocations f) i;
  ib_weights : ∀ i v j s, bound l i v → mf_allocations f !! j = Some (Weight s) → View.overlaps (View.buffer_view s) v = false;
  ib_origin : ∀ i v, bound l i v → ∃ t, t ∈ inputs ∧ ModelContext.binding t = Some v }.
Lemma bind_inputs_bound wait f inputs l buffers buffers' :
  (∀ x, x ∈ l → scratch_at (mf_allocations f) (r_allocation x.1.1) ∧ x.2 ∈ inputs) →
  inputs_bound f inputs buffers → bind_inputs wait f l buffers = Some (Ok buffers') → inputs_bound f inputs buffers'.
Proof.
  revert buffers. induction l as [|[[r desc] t] l IH]; intros buffers Hl Hb; cbn [bind_inputs]; [by intros [= <-]|].
  destruct (ModelContext.validate _ _) as [[]|]; [|done]. cbn [then_]. destruct (negb _); [done|].
  destruct (wait _) as [[]|]; [|done]. cbn [then_]. destruct (ModelContext.binding t) as [v|] eqn:Ev; [|done].
  destruct (bound_elsewhere _ v buffers) eqn:Eb; [done|]. destruct (meets_weight _ v) eqn:Ew; [done|]. cbn [orb].
  destruct (Hl ((r, desc), t) ltac:(by left)) as [Hs Hin]. cbn in Hs, Hin. assert (∀ x, x ∈ l → _) as Hl' by (intros x Hx; apply Hl; by right).
  destruct (buffers !! r_allocation r) as [[[base old]|]|]; [|apply IH; [exact Hl'|]|done]; [destruct (_ || _); [done|by apply IH]|].
  destruct Hb as [B1 B2 B3 B4 B5]. constructor.
  - by rewrite length_insert.
  - intros i j x y Hne [[-> ->]|[Hi Hx]]%insert_bound [[-> ->]|[Hj Hy]]%insert_bound; [done| | |by apply (B2 i j)].
    + rewrite view_overlaps_sym. by apply (bound_elsewhere_false (r_allocation r) _ buffers j).
    + by apply (bound_elsewhere_false (r_allocation r) _ buffers i).
  - intros i x [[-> ->]|[Hi Hx]]%insert_bound; [done|by eapply B3].
  - intros i x j s [[-> ->]|[Hi Hx]]%insert_bound Hj; [by eapply meets_weight_false|by eapply B4].
  - intros i x [[-> ->]|[Hi Hx]]%insert_bound; [by exists t|by eapply B5].
Qed.

(** *** Where bound storage comes from *)

Inductive Origin : Type := FromWeight (i : nat) | FromPool (k : nat) | Fresh (i : nat).
Section Bind.
Context (env : AppendEnv) (f : Fragment) (inputs : list ModelContext.DeviceTensor) (g : GraphBuild.Graph).

Definition origin_of (o : Origin) (s : View.Storage) : Prop :=
  match o with
  | FromWeight i => mf_allocations f !! i = Some (Weight s)
  | FromPool k =>
      (∃ h v, GraphBuild.fragment_scratch g !! k = Some (h, v) ∧ s = View.storage v) ∨
      (GraphBuild.fragment_scratch g !! k = None ∧ ∃ n h v, ae_scratch env k n h = Ok v ∧ s = View.storage v)
  | Fresh i => ∃ n p, ae_allocate env i n p = Ok s
  end.
(** Weights, pooled scratch and new allocations are different storages, and a
    caller's tensor can only share storage with a weight. *)
Record storages_distinct : Prop := {
  sd_origins : ∀ o o' s s', origin_of o s → origin_of o' s' → View.st_id s = View.st_id s' → o = o';
  sd_inputs : ∀ t v o s, t ∈ inputs → ModelContext.binding t = Some v → origin_of o s →
                View.st_id s = View.st_id (View.storage v) → ∃ i, o = FromWeight i;
  sd_bytes : ∀ o s, origin_of o s → 0 <= View.st_bytes s;
  sd_ordered : ∀ t v, t ∈ inputs → ModelContext.binding t = Some v → ordered v }.
Context (Hd : storages_distinct).

Record placed (l : Buffers) (used : list Origin) : Prop := {
  pl_length : length l = length (mf_allocations f);
  pl_separate : separate l;
  pl_ordered : ∀ i v, bound l i v → ordered v;
  pl_weight : ∀ i v s, bound l i v → mf_allocations f !! i = Some (Weight s) → v = View.buffer_view s;
  pl_origin : ∀ i v, bound l i v →
    (∃ t, t ∈ inputs ∧ ModelContext.binding t = Some v ∧
       ∀ j s, mf_allocations f !! j = Some (Weight s) → View.overlaps (View.buffer_view s) v = false) ∨
    (∃ o, o ∈ used ∧ origin_of o (View.storage v)) }.

Lemma inputs_placed l : inputs_bound f inputs l → placed l [].
Proof.
  intros [B1 B2 B3 B4 B5]. constructor; [done|done| | |].
  - intros i v Hv. destruct (B5 i v Hv) as (t & Ht & Ev). by apply (sd_ordered Hd t).
  - intros i v s Hv Hs. destruct (B3 i v Hv) as (n & p & E). congruence.
  - intros i v Hv. left. destruct (B5 i v Hv) as (t & Ht & Ev). exists t. split_and!; [done..|]. intros j s Hj. by apply (B4 i v j).
Qed.
Lemma place l used i b v o :
  placed l used → origin_of o (View.storage v) → o ∉ used → ordered v →
  (∀ s, mf_allocations f !! i = Some (Weight s) → v = View.buffer_view s) →
  (∀ j, o = FromWeight j → v = View.buffer_view (View.storage v)) → placed (<[i := Some (b, v)]> l) (o :: used).
Proof.
  intros [P1 P2 P3 P4 P5] Ho Hu Hv Hw Hf.
  assert (∀ j w, j ≠ i → bound l j w → View.overlaps v w = false) as Hnew.
  { intros j w _ Hj. destruct (P5 j w Hj) as [(t & Ht & Ew & Hov)|(o' & Ho' & Hs')].
    - destruct (decide (View.st_id (View.storage v) = View.st_id (View.storage w))) as [E|E]; [|by apply other_storage].
      destruct (sd_inputs Hd t w o (View.storage v) Ht Ew Ho E) as [k ->]. rewrite (Hf k eq_refl). by apply (Hov k).
    - apply other_storage. intros E. assert (o = o') as -> by (by eapply (sd_origins Hd)). done. }
  constructor.
  - by rewrite length_insert.
  - intros x y a c Hne [[-> ->]|[Hx Ha]]%insert_bound [[-> ->]|[Hy Hc]]%insert_bound; [done|by apply (Hnew y)| |by apply (P2 x y)].
    rewrite view_overlaps_sym. by apply (Hnew x).
  - intros x a [[-> ->]|[Hx Ha]]%insert_bound; [done|by eapply P3].
  - intros x a s [[-> ->]|[Hx Ha]]%insert_bound; [by apply Hw|by apply P4].
  - intros x a [[-> ->]|[Hx Ha]]%insert_bound.
    + right. exists o. split; [by left|done].
    + destruct (P5 x a Ha) as [H|(o' & H1 & H2)]; [by left|]. right. exists o'. split; [by right|done].
Qed.

(** *** Pooled scratch *)

Lemma best_fit_spec used h n i pool best k m :
  GraphBuild.best_fit used h n i pool best = Some (k, m) → best = Some (k, m) ∨ ((i <= k < i + length pool)%nat ∧ k ∉ used).
Proof.
  revert i best. induction pool as [|[h' v] pool IH]; intros i best; cbn [GraphBuild.best_fit]; [by left|].
  intros [H|[H1 H2]]%IH; [|right; split; [cbn; lia|done]].
  destruct (negb (bool_decide (i ∈ used))) eqn:Eu; cbn in H; [|by left].
  destruct (_ && _); [|by left]. injection H as <- _. right. split; [cbn; lia|].
  apply negb_true_iff, bool_decide_eq_false in Eu. done.
Qed.
Lemma scratch_views_spec requests used pool pool' vs :
  (∀ k, k ∈ used → (k < length pool)%nat) →
  GraphBuild.scratch_views (ae_scratch env) requests used pool = (pool', Ok vs) →
  ∃ ks, Forall2 (λ k v, ∃ h w, pool' !! k = Some (h, w) ∧ View.storage v = View.storage w ∧ ordered v) ks vs ∧
    NoDup ks ∧ (∀ k, k ∈ ks → k ∉ used) ∧ pool `prefix_of` pool' ∧
    (∀ k h w, pool' !! k = Some (h, w) → pool !! k = None → ∃ n h', ae_scratch env k n h' = Ok w).
Proof.
  revert used pool vs. induction requests as [|[n hv] requests IH]; intros used pool vs Hlt; cbn [GraphBuild.scratch_views].
  { intros [= <- <-]. exists []. split_and!; [constructor|constructor|by intros k ?%elem_of_nil|done|]. intros k h w H1 H2. congruence. }
  assert (∀ pool1 index r, pool `prefix_of` pool1 → index ∉ used →
    (∀ k h w, pool1 !! k = Some (h, w) → pool !! k = None → ∃ n h', ae_scratch env k n h' = Ok w) →
    (match (let? v := ok_or (snd <$> pool1 !! index) (Message "") in View.slice v (mkRange 0 n)) with
     | Err e => (pool1, Err e)
     | Ok v => let (p, q) := GraphBuild.scratch_views (ae_scratch env) requests (used ++ [index]) pool1 in (p, let? l := q in Ok (v :: l))
     end) = (pool', Ok r) →
    ∃ ks, Forall2 (λ k v, ∃ h w, pool' !! k = Some (h, w) ∧ View.storage v = View.storage w ∧ ordered v) ks r ∧
      NoDup ks ∧ (∀ k, k ∈ ks → k ∉ used) ∧ pool `prefix_of` pool' ∧
      (∀ k h w, pool' !! k = Some (h, w) → pool !! k = None → ∃ n h', ae_scratch env k n h' = Ok w)) as Hrest.
  { intros pool1 index r Hp Hi Hnew. destruct (pool1 !! index) as [[h w]|] eqn:Ew; [|done]. cbn [fmap option_fmap option_map snd ok_or result_bind].
    destruct (View.slice w (mkRange 0 n)) as [v|] eqn:Es; [|done]. destruct (slice_ordered _ _ _ Es) as [Ov Sv].
    destruct (GraphBuild.scratch_views (ae_scratch env) requests (used ++ [index]) pool1) as [p [l|e]] eqn:E; cbn [result_bind]; [|done].
    intros [= <- <-]. destruct (IH (used ++ [index]) pool1 l) as (ks & K1 & K2 & K3 & K4 & K5); [|done|].
    { intros k [Hk|Hk%list_elem_of_singleton]%elem_of_app; [|subst k; by eapply lookup_lt_Some].
      apply prefix_length in Hp. specialize (Hlt k Hk). lia. }
    exists (index :: ks). split_and!.
    - constructor; [|done]. exists h, w. split_and!; [by eapply prefix_lookup_Some|done..].
    - constructor; [|done]. intros Hin. apply (K3 index Hin), elem_of_app. right. by left.
    - intros k [->|Hk]%elem_of_cons; [done|]. intros Hu. apply (K3 k Hk), elem_of_app. by left.
    - by etrans.
    - intros k h' w' Hk Hno. destruct (pool1 !! k) as [x|] eqn:Ek; [|by eapply K5]. pose proof (prefix_lookup_Some _ _ _ _ Ek K4) as Hk'.
      rewrite Hk in Hk'. injection Hk' as <-. by eapply Hnew. }
  destruct (GraphBuild.best_fit used hv n 0 pool None) as [[k m]|] eqn:Eb.
  - apply best_fit_spec in Eb as [?|[Hk Hu]]; [done|]. apply Hrest; [done|done|]. intros k' h w H1 H2. congruence.
  - destruct (ae_scratch env (length pool) n hv) as [v|] eqn:Ea; [|done]. cbn [result_bind].
    apply Hrest; [by apply prefix_app_r|intros Hin; specialize (Hlt _ Hin); lia|]. intros k h w H1 H2. apply lookup_app_Some in H1 as [H1|[Hge H1]]; [congruence|].
    destruct (k - length pool)%nat as [|x] eqn:Ek; [|done]. injection H1 as <- <-. assert (k = length pool) as -> by lia. eauto.
Qed.

Lemma private_scratch_at x : x ∈ private_scratch f → scratch_at (mf_allocations f) x.1.
Proof.
  unfold private_scratch. intros ([i s] & Hin & Hx)%list_elem_of_omap. apply list_elem_of_lookup_1 in Hin as [j Hj].
  rewrite list_lookup_imap in Hj. apply fmap_Some in Hj as (y & Hy & [= -> ->]). cbn in Hx. destruct y as [w|n p]; [done|].
  destruct (_ && _); [|done]. injection Hx as <-. by exists n, p.
Qed.
Lemma bind_private_placed pool' (private : list (nat * (Z * bool))) views ks l used :
  placed l used → (∀ x, x ∈ private → scratch_at (mf_allocations f) x.1) →
  Forall2 (λ k v, ∃ h w, pool' !! k = Some (h, w) ∧ View.storage v = View.storage w ∧ ordered v) ks views → NoDup ks →
  (∀ k, k ∈ ks → FromPool k ∉ used) →
  GraphBuild.fragment_scratch g `prefix_of` pool' →
  (∀ k h w, pool' !! k = Some (h, w) → GraphBuild.fragment_scratch g !! k = None → ∃ n h', ae_scratch env k n h' = Ok w) →
  ∃ used', placed (bind_private private views l) used' ∧ ∀ o, o ∈ used' → o ∈ used ∨ ∃ k, o = FromPool k.
Proof.
  intros Hl Hp Hv Hnd Hu Hpre Hnew. revert private l used Hl Hp Hu. induction Hv as [|k v ks views (h & w & Hk & Hs & Ho) Hv IH]; intros private l used Hl Hp Hu.
  - exists used. unfold bind_private. destruct private; (split; [done|auto]).
  - destruct private as [|[i req] private]; [exists used; split; [done|auto]|]. inversion_clear Hnd as [|? ? Hnk Hnd'].
    destruct (Hp (i, req) ltac:(by left)) as (n & p & Hi). cbn in Hi.
    assert (origin_of (FromPool k) (View.storage v)) as Horig.
    { rewrite Hs. cbn. destruct (GraphBuild.fragment_scratch g !! k) as [[h' w']|] eqn:E.
      - left. exists h', w'. split; [done|]. pose proof (prefix_lookup_Some _ _ _ _ E Hpre) as E'. congruence.
      - right. split; [done|]. destruct (Hnew k h w Hk E) as (n' & h' & E'). eauto. }
    destruct (IH Hnd' private (<[i := Some (0, v)]> l) (FromPool k :: used)) as (used' & P & U).
    + apply place; [done|done|apply Hu; by left|done|intros s Hs'; congruence|done].
    + intros x Hx. apply Hp. by right.
    + intros k' Hk' [[= ->]|Hin]%elem_of_cons; [done|]. apply (Hu k'); [by right|done].
    + exists used'. split; [done|]. intros o Ho'. destruct (U o Ho') as [[->|H]%elem_of_cons|H]; [right; by eexists|by left|by right].
Qed.

Lemma bind_rest_placed i l buffers buffers' used :
  placed buffers used → (∀ j x, l !! j = Some x → mf_allocations f !! (i + j)%nat = Some x) →
  (∀ o, o ∈ used → match o with FromWeight j | Fresh j => (j < i)%nat | FromPool _ => True end) →
  (∀ j s, (j < i)%nat → mf_allocations f !! j = Some (Weight s) → bound buffers j (View.buffer_view s)) →
  (∀ j s v, bound buffers j v → mf_allocations f !! j = Some (Weight s) → (j < i)%nat) →
  bind_rest (ae_allocate env) (mf_extents f) i l buffers = Ok buffers' →
  (∃ used', placed buffers' used') ∧
  (∀ j s, (j < i + length l)%nat → mf_allocations f !! j = Some (Weight s) → bound buffers' j (View.buffer_view s)).
Proof.
  revert i buffers used. induction l as [|x l IH]; intros i buffers used Hp Hl Hu Hw Hb; cbn [bind_rest length].
  { intros [= <-]. rewrite Nat.add_0_r. split; [by exists used|done]. }
  pose proof (Hl 0%nat x eq_refl) as Hx. rewrite Nat.add_0_r in Hx. assert (∀ j y, l !! j = Some y → mf_allocations f !! (S i + j)%nat = Some y) as Hl'.
  { intros j y Hj. replace (S i + j)%nat with (i + S j)%nat by lia. by apply Hl. }
  rewrite <-Nat.add_succ_comm. pose proof (lookup_lt_Some _ _ _ Hx) as Hlt. rewrite <-(pl_length _ _ Hp) in Hlt.
  destruct (lookup_lt_is_Some_2 buffers i Hlt) as [b0 Hb0].
  assert (∀ b o v, Some b = Some (0, v) → origin_of o (View.storage v) → o ∉ used → v = View.buffer_view (View.storage v) →
    (∀ s, x = Weight s → s = View.storage v) → match o with FromWeight j | Fresh j => j = i | FromPool _ => False end →
    bind_rest (ae_allocate env) (mf_extents f) (S i) l (<[i := Some b]> buffers) = Ok buffers' →
    (∃ used', placed buffers' used') ∧
    (∀ j s, (j < S i + length l)%nat → mf_allocations f !! j = Some (Weight s) → bound buffers' j (View.buffer_view s))) as Hins.
  { intros b o v [= ->] Ho Hno Hv Hxs Hoi. apply (IH (S i) _ (o :: used)); [|done| | |].
    - apply place; [done|done|done| | |by intros j _].
      + rewrite Hv. unfold ordered. cbn. pose proof (sd_bytes Hd o _ Ho). lia.
      + intros s Hs. rewrite Hx in Hs. injection Hs as ->. rewrite (Hxs s eq_refl). done.
    - intros o' [->|Ho']%elem_of_cons; [destruct o; [lia|done|lia]|]. specialize (Hu o' Ho'). destruct o'; [lia|done|lia].
    - intros j s Hj Hs. destruct (decide (j = i)) as [->|Hne].
      + exists 0. rewrite list_lookup_insert_eq by done. rewrite Hx in Hs. injection Hs as ->. by rewrite (Hxs s eq_refl), <-Hv.
      + destruct (Hw j s ltac:(lia) Hs) as [base Hj']. exists base. by rewrite list_lookup_insert_ne.
    - intros j s v' [[-> ->]|[Hne Hj]]%insert_bound Hs; [lia|]. pose proof (Hb j s v' Hj Hs). lia. }
  assert (∀ b, b = b0 → (∀ s, x ≠ Weight s) →
    bind_rest (ae_allocate env) (mf_extents f) (S i) l (<[i := b]> buffers) = Ok buffers' →
    (∃ used', placed buffers' used') ∧
    (∀ j s, (j < S i + length l)%nat → mf_allocations f !! j = Some (Weight s) → bound buffers' j (View.buffer_view s))) as Hsame.
  { intros b -> Hnw. rewrite (list_insert_id buffers i b0 Hb0). apply (IH (S i) _ used); [done|done| | |].
    - intros o Ho. specialize (Hu o Ho). destruct o; [lia|done|lia].
    - intros j s Hj Hs. apply Hw; [|done]. destruct (decide (j = i)) as [->|]; [|lia]. rewrite Hx in Hs. injection Hs as ->. by destruct (Hnw s).
    - intros j s v Hj Hs. pose proof (Hb j s v Hj Hs). lia. }
  rewrite Hb0. destruct b0 as [[base v]|].
  - cbn [result_bind]. apply Hsame; [done|]. intros s ->. pose proof (Hb i s v ltac:(by exists base) Hx). lia.
  - destruct x as [s|n p].
    + cbn [result_bind]. eapply (Hins _ (FromWeight i)); [done|done| |done|by intros ? [= ->]|done].
      intros Hin. specialize (Hu _ Hin). cbn in Hu. lia.
    + destruct (_ =? 0); cbn [result_bind]; [by apply Hsame|]. destruct (ae_allocate env i _ p) as [s|] eqn:Ea; [|done]. cbn [result_bind].
      eapply (Hins _ (Fresh i)); [done|cbn; eauto| |done|done|done]. intros Hin. specialize (Hu _ Hin). cbn in Hu. lia.
Qed.

Lemma bind_all_placed supplied g' buffers :
  sound f → inputs = default [] supplied → bind_all env f supplied g = (g', Some (Ok buffers)) →
  separate buffers ∧ (∀ i v, bound buffers i v → ordered v) ∧
  (∀ i s, mf_allocations f !! i = Some (Weight s) → bound buffers i (View.buffer_view s)).
Proof.
  intros Hsound Hin. unfold bind_all. set (empty := replicate _ _).
  assert (∀ i v, ¬ bound empty i v) as Hempty.
  { intros i v [base H]. apply lookup_replicate in H as [H _]. done. }
  assert (inputs_bound f inputs empty) as He.
  { constructor; [apply length_replicate|..]; repeat intro; exfalso; match goal with H : bound empty ?i ?v |- _ => by apply (Hempty i v) end. }
  assert (∀ b, (match supplied with
    | None => Some (Ok empty)
    | Some inputs => if negb (length inputs =? length (mf_inputs f))%nat then Some (Err (Message "fragment input count mismatch"))
                     else bind_inputs (ae_wait env) f (zip (mf_inputs f) inputs) empty
    end) = Some (Ok b) → inputs_bound f inputs b) as Hbound.
  { intros b. destruct supplied as [l|]; [|by intros [= <-]]. destruct (negb _); [done|]. apply bind_inputs_bound; [|done].
    intros [[r d] x] Hx. cbn in Hin. rewrite Hin. pose proof (elem_of_zip_l _ _ _ _ Hx) as H1. pose proof (elem_of_zip_r _ _ _ _ Hx) as H2.
    split; [|done]. pose proof (sf_io _ Hsound) as Hio. rewrite Forall_app, !Forall_forall in Hio. by apply (proj1 Hio (r, d)). }
  destruct (match supplied with None => _ | Some _ => _ end) as [[b|e]|]; [|done|done]. specialize (Hbound b eq_refl).
  assert (∀ views buffers' (Hv : ∃ used, placed (bind_private (private_scratch f) views b) used ∧ (∀ o, o ∈ used → ∃ k, o = FromPool k)),
    bind_rest (ae_allocate env) (mf_extents f) 0 (mf_allocations f) (bind_private (private_scratch f) views b) = Ok buffers' →
    separate buffers' ∧ (∀ i v, bound buffers' i v → ordered v) ∧
    (∀ i s, mf_allocations f !! i = Some (Weight s) → bound buffers' i (View.buffer_view s))) as Hend.
  { intros views buffers' (used & Hp & Hu) Hr. destruct (bind_rest_placed 0 (mf_allocations f) _ buffers' used Hp) as [[used' Hp'] Hw]; [done| | | |done|].
    - intros o Ho. by destruct (Hu o Ho) as [k ->].
    - intros j s Hj. lia.
    - intros j s v Hj Hs. exfalso. assert (∀ (views : list View.BufferView) (private : list (nat * (Z * bool))) l,
        (∀ x, x ∈ private → scratch_at (mf_allocations f) x.1) → bound (bind_private private views l) j v → bound l j v) as Hback.
      { intros vs. induction vs as [|w vs IH]; intros [|[i req] private] l Hpr Hbd; try done. unfold bind_private in *. cbn in Hbd.
        apply IH in Hbd; [|intros y Hy; apply Hpr; by right]. apply insert_bound in Hbd as [[-> ->]|[_ H]]; [|done].
        destruct (Hpr (i, req) ltac:(by left)) as (n & p & E). cbn in E. congruence. }
      apply Hback in Hj; [|apply private_scratch_at]. destruct (ib_scratch _ _ _ Hbound j v Hj) as (n & p & E). congruence.
    - split_and!; [apply Hp'|apply Hp'|]. intros i s Hi. apply Hw; [|done]. apply lookup_lt_Some in Hi. done. }
  destruct (mf_reuse f).
  - unfold GraphBuild.take_scratch. destruct (GraphBuild.scratch_views _ _ _ _) as [pool' [views|e]] eqn:E; [|by intros [= _ ?]].
    cbn [result_bind]. intros [= _ Hr]. apply (Hend views); [|done]. apply scratch_views_spec in E as (ks & K1 & K2 & K3 & K4 & K5); [|by intros k ?%elem_of_nil].
    destruct (bind_private_placed pool' (private_scratch f) views ks b []) as (used & Hp & Hu); [by apply inputs_placed|apply private_scratch_at|done|done| |done|done|].
    + by intros k _ ?%elem_of_nil.
    + exists used. split; [done|]. intros o Ho. destruct (Hu o Ho) as [?%elem_of_nil|H]; done.
  - cbn [result_bind]. intros [= _ Hr]. apply (Hend []); [|done]. exists []. split; [|by intros o ?%elem_of_nil].
    unfold bind_private. replace (zip (private_scratch f) []) with (@nil ((nat * (Z * bool)) * View.BufferView)) by (by destruct (private_scratch f)).
    by apply inputs_placed.
Qed.
End Bind.

(** ** Recorded commands *)

Lemma then_Ok {A B} (m : option (Result A)) (k : A → option (Result B)) b :
  then_ m k = Some (Ok b) → ∃ a, m = Some (Ok a) ∧ k a = Some (Ok b).
Proof. destruct m as [[a|e]|]; [|done|done]. eauto. Qed.
Lemma views_of_Ok l regions vs :
  views_of l regions = Some (Ok vs) → Forall2 (λ r v, view_of l r = Some (Ok v)) regions vs.
Proof.
  revert vs. induction regions as [|r regions IH]; intros vs; cbn [views_of]; [by intros [= <-]|].
  intros (v & Hv & (vs' & Hvs & [= <-])%then_Ok)%then_Ok. constructor; [done|by apply IH].
Qed.
Lemma bindings_of_Ok l cs vss :
  bindings_of l cs = Some (Ok vss) → Forall2 (λ c vs, views_of l (fc_regions c) = Some (Ok vs)) cs vss.
Proof.
  revert vss. induction cs as [|c cs IH]; intros vss; cbn [bindings_of]; [by intros [= <-]|].
  intros (vs & Hv & (vss' & Hvs & [= <-])%then_Ok)%then_Ok. constructor; [done|by apply IH].
Qed.
Lemma view_of_Ok l r w :
  view_of l r = Some (Ok w) → ∃ v base, bound l (r_allocation r) v ∧ base <= r_offset r ∧
    View.slice v (mkRange (r_offset r - base) (r_offset r - base + r_bytes r)) = Ok w.
Proof.
  unfold view_of, bound. destruct (l !! r_allocation r) as [[[base v]|]|]; [|done|done]. destruct (Z.ltb_spec (r_offset r) base); [done|].
  intros [= Hs]. exists v, base. split_and!; [by exists base|lia|done].
Qed.

(** What a command writes satisfies [P]. *)
Definition writes_within (P : View.BufferView → Prop) (c : FragmentCommand) (vs : list View.BufferView) : Prop :=
  match fc_fill c with
  | Some _ => ∀ v, head vs = Some v → P v
  | None => ∀ k u, fc_kernel c = Some k → u ∈ GraphBuild.dispatch_uses (GraphBuild.contract k) vs → Deps.access u ≠ Read → P (Deps.view u)
  end.
Lemma push_entries d us lane g g' n :
  GraphBuild.push d us lane g = Ok (g', n) → GraphBuild.entries g' = GraphBuild.entries g ++ [GraphBuild.mkEntry d us lane].
Proof. unfold GraphBuild.push. destruct (existsb _ _); [done|]. by intros [= <- _]. Qed.
Lemma issue_one_entries P address c vs g g' :
  writes_within P c vs → issue_one address c vs g = Some (Ok g') →
  ∃ es, GraphBuild.entries g' = GraphBuild.entries g ++ es ∧
    ∀ e u, e ∈ es → u ∈ GraphBuild.entry_uses e → Deps.access u ≠ Read → P (Deps.view u).
Proof.
  unfold writes_within, issue_one. intros Hw. destruct (fc_fill c) as [value|].
  - destruct vs as [|v vs]; [done|]. unfold GraphBuild.fill. destruct (GraphBuild.gpu v); [|done]. cbn [result_bind].
    destruct (GraphBuild.push _ _ _ g) as [[g1 n]|] eqn:E; [|done]. cbn [result_bind]. intros [= <-]. apply push_entries in E.
    eexists. split; [exact E|]. intros e u ->%list_elem_of_singleton. cbn. intros ->%list_elem_of_singleton _. by apply Hw.
  - destruct (fc_kernel c) as [k|]; [|intros [= <-]; exists []; rewrite app_nil_r; split; [done|by intros e u ?%elem_of_nil]].
    unfold GraphBuild.gpu_aliasing. destruct (negb _); [done|]. destruct (Contract.check_extents _ _); [|done]. cbn [result_bind].
    destruct (GraphBuild.check_addresses _ _ _ _ _); [|done]. cbn [result_bind].
    destruct (GraphBuild.push _ _ _ g) as [[g1 n]|] eqn:E; [|done]. cbn [result_bind]. intros [= <-]. apply push_entries in E.
    eexists. split; [exact E|]. intros e u ->%list_elem_of_singleton. cbn. intros Hu Ha. by apply (Hw k).
Qed.
Lemma issue_commands_entries P address l g g' r :
  (∀ x, x ∈ l → writes_within P x.1 x.2) → issue_commands address l g = Some (g', r) →
  ∃ es, GraphBuild.entries g' = GraphBuild.entries g ++ es ∧
    ∀ e u, e ∈ es → u ∈ GraphBuild.entry_uses e → Deps.access u ≠ Read → P (Deps.view u).
Proof.
  assert (∀ g0 : GraphBuild.Graph, ∃ es, GraphBuild.entries g0 = GraphBuild.entries g0 ++ es ∧
    ∀ e u, e ∈ es → u ∈ GraphBuild.entry_uses e → Deps.access u ≠ Read → P (Deps.view u)) as Hnone.
  { intros g0. exists []. rewrite app_nil_r. split; [done|by intros e u ?%elem_of_nil]. }
  revert g. induction l as [|[c vs] l IH]; intros g Hl; cbn [issue_commands]; [by intros [= <- _]|].
  destruct (issue_one address c vs g) as [[g1|e]|] eqn:E; [|by intros [= <- _]|done]. intros Hr.
  destruct (issue_one_entries P _ _ _ _ _ (Hl (c, vs) ltac:(by left)) E) as (es & E1 & H1).
  destruct (IH g1) as (es' & E2 & H2); [intros x Hx; apply Hl; by right|done|].
  exists (es ++ es'). rewrite E2, E1, (assoc_L (++)). split; [done|]. intros e u [He|He]%elem_of_app; [by apply H1|by apply H2].
Qed.

Definition spares (l : list Storage) (v : View.BufferView) : Prop :=
  ∀ i s, l !! i = Some (Weight s) → View.overlaps v (View.buffer_view s) = false.
Lemma sound_writes f buffers c vs :
  command_sound (mf_allocations f) c → separate buffers → (∀ i v, bound buffers i v → ordered v) →
  (∀ i s, mf_allocations f !! i = Some (Weight s) → bound buffers i (View.buffer_view s)) →
  views_of buffers (fc_regions c) = Some (Ok vs) → writes_within (spares (mf_allocations f)) c vs.
Proof.
  intros Hc Hs Ho Hw Hv%views_of_Ok.
  assert (∀ r w, scratch_at (mf_allocations f) (r_allocation r) → view_of buffers r = Some (Ok w) → spares (mf_allocations f) w) as Hsp.
  { intros r w (n & p & Hr) (v & base & Hb & Hle & Hsl)%view_of_Ok i s Hi. eapply slice_apart; [by eapply Ho| |exact Hsl|]; [cbn; lia|].
    eapply (Hs (r_allocation r) i); [|done|by apply Hw]. intros E. rewrite E in Hr. congruence. }
  unfold command_sound, writes_within in *. destruct (fc_fill c) as [value|].
  - destruct Hc as (r & E & Hr). rewrite E in Hv. inversion Hv as [|? v ? ? Hv' Hn]; subst. inversion Hn; subst. intros ? [= <-]. by apply (Hsp r).
  - destruct Hc as (k & Ek & _ & Hb). intros k' u Ek' Hu Ha. rewrite Ek in Ek'. injection Ek' as <-. unfold GraphBuild.dispatch_uses in Hu.
    apply list_elem_of_lookup_1 in Hu as [i Hi]. apply lookup_zip_with_Some in Hi as (v & b & -> & Hvi & Hbi).
    destruct (Forall2_lookup_r _ _ _ _ _ Hv Hvi) as (r & Hri & Hrv). pose proof (Forall2_lookup_lr _ _ _ _ _ _ Hb Hri Hbi) as (_ & _ & Hacc).
    by apply (Hsp r); [apply Hacc|].
Qed.

(** C15. Recording a fragment, with scratch reuse or without, with supplied inputs or
    on its own, and even when it fails half way, adds no operation to the
    caller's graph that writes a byte of a weight: reads are the only access of
    recorded operations to shared weights. *)
Theorem recorded_fragments_spare_weights native info indices d commands inputs outputs f0 f env supplied g g' r :
  fragment native info indices d commands inputs outputs = Ok f0 → f = f0 ∨ f = reuse_private_scratch f0 →
  storages_distinct env f (default [] supplied) g → append env f supplied g = Some (g', r) →
  ∀ e u i s, e ∈ drop (length (GraphBuild.entries g)) (GraphBuild.entries g') → u ∈ GraphBuild.entry_uses e →
    Deps.access u ≠ Read → md_allocations d !! i = Some (Weight s) → View.overlaps (Deps.view u) (View.buffer_view s) = false.
Proof.
  intros [Hs0 Ha0]%fragment_sound Hf Hd. assert (sound f ∧ mf_allocations f = md_allocations d) as [Hs Ha].
  { destruct Hf as [->| ->]; [done|]. split; [by apply reuse_sound|done]. }
  assert (∀ g1 : GraphBuild.Graph, GraphBuild.entries g1 = GraphBuild.entries g → ∀ e u i s,
    e ∈ drop (length (GraphBuild.entries g)) (GraphBuild.entries g1) → u ∈ GraphBuild.entry_uses e →
    Deps.access u ≠ Read → md_allocations d !! i = Some (Weight s) → View.overlaps (Deps.view u) (View.buffer_view s) = false) as Hsame.
  { intros g1 -> e u i s. rewrite drop_all. by intros ?%elem_of_nil. }
  unfold append. destruct (negb _); [intros [= <- _]; by apply Hsame|].
  assert (GraphBuild.entries (bind_all env f supplied g).1 = GraphBuild.entries g) as Hg1.
  { unfold bind_all. set (x := match supplied with None => _ | Some _ => _ end). destruct x as [[b|e]|]; [|done|done].
    destruct (mf_reuse f); [|done]. unfold GraphBuild.take_scratch. by destruct (GraphBuild.scratch_views _ _ _ _). }
  destruct (bind_all env f supplied g) as [g1 b] eqn:Eb. cbn [fst] in Hg1.
  destruct (then_ b _) as [[[[ins outs] vss]|e]|] eqn:Et; [|intros [= <- _]; by apply Hsame|done].
  apply then_Ok in Et as (buffers & -> & Et). apply then_Ok in Et as (ins' & _ & Et). apply then_Ok in Et as (outs' & _ & Et).
  apply then_Ok in Et as (vss' & Hvss & Et). injection Et as -> -> ->.
  destruct (bind_all_placed env f (default [] supplied) g Hd supplied g1 buffers Hs eq_refl Eb) as (B1 & B2 & B3).
  destruct (issue_commands _ _ g1) as [[g2 q]|] eqn:Ei; [|done]. intros Hr. assert (g2 = g') as -> by (by destruct q; injection Hr as <- _).
  apply (issue_commands_entries (spares (mf_allocations f))) in Ei as (es & E & Hes).
  - rewrite Hg1 in E. rewrite E, drop_app_length. rewrite <-Ha. intros e u i s He Hu Hacc. by apply (Hes e u).
  - intros [c vs] Hx. apply list_elem_of_lookup_1 in Hx as [i Hi]. apply lookup_zip_with_Some in Hi as (c' & vs' & [= -> ->] & Hc & Hv).
    cbn. apply (sound_writes f buffers); [exact (Forall_lookup_1 _ _ _ _ (sf_commands _ Hs) Hc)|done|done|done|].
    exact (Forall2_lookup_lr _ _ _ _ _ _ (bindings_of_Ok _ _ _ Hvss) Hc Hv).
Qed.

(** ** Panics *)

Lemma extents_length n l : length (extents_of n l) = n.
Proof.
  unfold extents_of. rewrite <-(length_replicate n 0) at 2. generalize (replicate n 0). induction l as [|x l IH]; intros e; [done|].
  cbn [foldl]. rewrite IH. apply length_alter.
Qed.
Lemma extents_grow (e : list Z) (l : list (nat * Z)) (i : nat) v : e !! i = Some v → ∃ v', foldl (λ e (x : nat * Z), alter (λ old, Z.max old x.2) x.1 e) e l !! i = Some v' ∧ v <= v'.
Proof.
  revert e v. induction l as [|x l IH]; intros e v Hv; cbn [foldl]; [exists v; split; [done|lia]|].
  destruct (decide (x.1 = i)) as [E|E].
  - destruct (IH (alter (λ old, Z.max old x.2) x.1 e) (Z.max v x.2)) as (v' & H1 & H2).
    { rewrite E. rewrite list_lookup_alter_eq, Hv. done. }
    exists v'. split; [done|lia].
  - apply IH. by rewrite list_lookup_alter_ne.
Qed.
Lemma extents_cover n l i k : (i < n)%nat → (i, k) ∈ l → ∃ v, extents_of n l !! i = Some v ∧ k <= v.
Proof.
  unfold extents_of. intros Hi. assert (is_Some (replicate n 0 !! i)) as Hsome by (by rewrite lookup_lt_is_Some, length_replicate).
  revert Hsome. generalize (replicate n 0). induction l as [|x l IH]; intros e [v Hv]; [by intros ?%elem_of_nil|].
  intros [<-|Hin]%elem_of_cons; cbn [foldl fst snd].
  - destruct (extents_grow (alter (λ old, Z.max old k) i e) l i (Z.max v k)) as (v' & H1 & H2).
    { by rewrite list_lookup_alter_eq, Hv. }
    exists v'. split; [done|lia].
  - apply IH; [|done]. apply lookup_lt_is_Some. rewrite length_alter. by eapply lookup_lt_Some.
Qed.

Lemma bind_rest_total allocate extents i l buffers buffers' j x :
  bind_rest allocate extents i l buffers = Ok buffers' → (i + length l <= length buffers)%nat →
  (∀ k v, (k < i)%nat → bound buffers k v → bound buffers' k v) ∧
  (l !! j = Some x → is_weight x = true ∨ default 0 (extents !! (i + j)%nat) ≠ 0 → ∃ v, bound buffers' (i + j)%nat v).
Proof.
  revert i buffers j. induction l as [|y l IH]; intros i buffers j; cbn [bind_rest length]; [by intros [= <-]|].
  match goal with |- result_bind ?m _ = _ → _ => destruct m as [b|] eqn:Eb end; [|done]. cbn [result_bind]. intros Hr Hlen.
  destruct (IH (S i) (<[i := b]> buffers) (pred j) Hr) as [H1 H2]; [rewrite length_insert; lia|].
  split.
  - intros k v Hk [base Hv]. apply H1; [lia|]. exists base. by rewrite list_lookup_insert_ne by lia.
  - intros Hj Hx. destruct j as [|j].
    + injection Hj as ->. rewrite Nat.add_0_r in *. assert (∃ v, bound (<[i := b]> buffers) i v) as [v Hv]; [|exists v; by apply H1; [lia|]].
      unfold bound. rewrite list_lookup_insert_eq by lia. destruct (buffers !! i) as [[[base v]|]|].
      * injection Eb as <-. by eexists _, _.
      * destruct x as [s|n p]; [injection Eb as <-; by eexists _, _|]. destruct Hx as [Hx|Hx]; [done|].
        rewrite (proj2 (Z.eqb_neq _ _) Hx) in Eb. destruct (allocate i _ p); [|done]. injection Eb as <-. by eexists _, _.
      * destruct x as [s|n p]; [injection Eb as <-; by eexists _, _|]. destruct Hx as [Hx|Hx]; [done|].
        rewrite (proj2 (Z.eqb_neq _ _) Hx) in Eb. destruct (allocate i _ p); [|done]. injection Eb as <-. by eexists _, _.
    + cbn in Hj. rewrite <-Nat.add_succ_comm. apply H2; [done|]. by rewrite Nat.add_succ_comm.
Qed.
Lemma bind_private_length private views l : length (bind_private private views l) = length l.
Proof.
  unfold bind_private. generalize (zip private views). intros zs. revert l. induction zs as [|z zs IH]; intros l; [done|]. cbn [foldl]. rewrite IH. apply length_insert.
Qed.

(** The values a caller can pass: sizes are not negative, a nonempty descriptor
    has bytes, a tensor of one has storage. *)
Definition proper_command (c : ModelCommand) : Prop :=
  match c with
  | MFill r _ => 0 <= r_offset r ∧ 0 < r_bytes r
  | MDispatch x => Forall (λ b, 0 <= r_offset (b_region b) ∧ 0 <= r_bytes (b_region b)) (d_bindings x)
  end.
Definition proper_io (x : Region * Tensor.TensorDesc) : Prop := 0 <= r_offset x.1 ∧ (Tensor.is_empty x.2 = false → 0 < Tensor.bytes x.2).
Definition proper_tensor (t : ModelContext.DeviceTensor) : Prop :=
  Tensor.is_empty (ModelContext.desc t) = false → is_Some (ModelContext.binding t).

Lemma fragment_regions native info indices d commands inputs outputs f c r :
  fragment native info indices d commands inputs outputs = Ok f → Forall proper_command commands →
  c ∈ mf_commands f → r ∈ fc_regions c → is_Some (mf_allocations f !! r_allocation r) ∧ 0 < r_offset r + r_bytes r.
Proof.
  intros Hf Hp Hc Hr. pose proof (fragment_sound _ _ _ _ _ _ _ _ Hf) as [Hs _]. pose proof (sf_commands _ Hs) as Hcs. rewrite Forall_forall in Hcs.
  specialize (Hcs c Hc). unfold fragment in Hf. destruct (check_io d _); [|done]. cbn [result_bind] in Hf.
  destruct (fragment_commands native info indices d commands) as [l|] eqn:E; [|done]. injection Hf as <-. cbn in *.
  assert (∃ mc, mc ∈ commands ∧ fragment_command native info indices d mc = Ok c) as (mc & Hmc & Ec).
  { clear Hs Hcs Hp. revert l E Hc. induction commands as [|x xs IH]; intros l; cbn [fragment_commands]; [by intros [= <-] ?%elem_of_nil|].
    destruct (fragment_command _ _ _ d x) as [y|] eqn:Ey; [|done]. cbn [result_bind]. destruct (fragment_commands _ _ _ d xs) as [ys|]; [|done].
    cbn [result_bind]. intros [= <-] [->|Hin]%elem_of_cons; [exists x; split; [by left|done]|].
    destruct (IH ys eq_refl Hin) as (mc & H1 & H2). exists mc. split; [by right|done]. }
  rewrite Forall_forall in Hp. specialize (Hp mc Hmc). destruct mc as [r0 value|x]; cbn [fragment_command] in Ec.
  - destruct (validate_in d r0) as [y|] eqn:Ev; [|done]. cbn [result_bind] in Ec. destruct (is_weight y); [done|]. injection Ec as <-.
    cbn in Hr. apply list_elem_of_singleton in Hr as ->. apply validate_in_Ok in Ev as [Ev _]. destruct Hp. split; [by eexists|lia].
  - unfold command_sound in Hcs. assert (fc_fill c = None ∧ fc_regions c = b_region <$> d_bindings x) as [Efl Erg].
    { destruct (negb _); [done|]. destruct (ok_or _ _); [|done]. cbn [result_bind] in Ec. destruct (contract_bindings d _); [|done]. cbn [result_bind] in Ec.
      match type of Ec with result_bind ?m _ = _ => destruct m end; [|done]. cbn [result_bind] in Ec. destruct (adopt_gpu_kernel _ _ _ _ _ _); [|done]. by injection Ec as <-. }
    rewrite Efl in Hcs. destruct Hcs as (k & _ & Hval & Hb). apply list_elem_of_lookup_1 in Hr as [i Hi].
    destruct (Forall2_lookup_l _ _ _ _ _ Hb Hi) as (b & Hbi & Hsome & Hbytes & _). split; [done|].
    assert (Contract.bytes b ≠ 0) as Hne.
    { intros E0. unfold Contract.validate in Hval. destruct (existsb _ _) eqn:Ex; [done|]. apply not_true_iff_false in Ex. apply Ex.
      apply existsb_exists. exists b. split; [apply list_elem_of_In; by eapply list_elem_of_lookup_2|]. unfold Contract.binding_invalid. by rewrite E0. }
    rewrite Erg, list_lookup_fmap in Hi. apply fmap_Some in Hi as (bd & Hbd & ->). cbn [proper_command] in Hp. rewrite Forall_forall in Hp.
    destruct (Hp bd ltac:(by eapply list_elem_of_lookup_2)). lia.
Qed.

Lemma view_of_total l r v : bound l (r_allocation r) v → view_of l r ≠ None.
Proof. intros [base H]. unfold view_of. by rewrite H. Qed.
Lemma then_total {A B} (m : option (Result A)) (k : A → option (Result B)) :
  m ≠ None → (∀ a, m = Some (Ok a) → k a ≠ None) → then_ m k ≠ None.
Proof. intros Hm Hk. destruct m as [[a|e]|]; [by apply Hk|done|done]. Qed.
Lemma views_of_total l regions : (∀ r, r ∈ regions → ∃ v, bound l (r_allocation r) v) → views_of l regions ≠ None.
Proof.
  induction regions as [|r regions IH]; intros H; [done|]. cbn [views_of]. apply then_total.
  - destruct (H r ltac:(by left)) as [v Hv]. by eapply view_of_total.
  - intros v _. apply then_total; [|done]. apply IH. intros x Hx. apply H. by right.
Qed.
Lemma bindings_of_total l cs : (∀ c r, c ∈ cs → r ∈ fc_regions c → ∃ v, bound l (r_allocation r) v) → bindings_of l cs ≠ None.
Proof.
  induction cs as [|c cs IH]; intros H; [done|]. cbn [bindings_of]. apply then_total.
  - apply views_of_total. intros r. apply H. by left.
  - intros v _. apply then_total; [|done]. apply IH. intros x r Hx. apply H. by right.
Qed.
Lemma tensors_of_total runtime ready l io : (∀ x : Region * Tensor.TensorDesc, x ∈ io → ∃ v, bound l (r_allocation x.1) v) → tensors_of runtime ready l io ≠ None.
Proof.
  induction io as [|[r desc] io IH]; intros H; [done|]. cbn [tensors_of]. apply then_total; [done|]. intros part [= Hp]. apply then_total.
  - destruct (H (r, desc) ltac:(by left)) as [v Hv]. eapply view_of_total. unfold region_slice in Hp.
    destruct (checked_add 0 _); [|done]. destruct (_ <? _); [done|]. destruct (checked_add _ _); [|done]. injection Hp as <-. exact Hv.
  - intros v _. apply then_total; [done|]. intros tn _. apply then_total; [|done]. apply IH. intros x Hx. apply H. by right.
Qed.
Lemma bind_inputs_total wait f l buffers :
  (∀ x, x ∈ l → (r_allocation x.1.1 < length buffers)%nat ∧ Tensor.is_empty x.1.2 = false ∧ proper_tensor x.2) →
  bind_inputs wait f l buffers ≠ None.
Proof.
  revert buffers. induction l as [|[[r desc] tn] l IH]; intros buffers Hl; [done|]. cbn [bind_inputs]. apply then_total; [done|]. intros [] _.
  destruct (bool_decide _) eqn:Ed; [|done]. cbn [negb]. apply bool_decide_eq_true in Ed. apply then_total; [done|]. intros [] _.
  destruct (Hl ((r, desc), tn) ltac:(by left)) as (Hlt & He & Ht). cbn in Hlt, He, Ht. unfold proper_tensor in Ht. rewrite Ed in Ht. destruct (Ht He) as [v ->].
  destruct (_ || _); [done|]. assert (∀ x, x ∈ l → _) as Hl' by (intros x Hx; apply Hl; by right).
  destruct (lookup_lt_is_Some_2 buffers _ Hlt) as [[[base old]|] ->]; [destruct (_ || _); [done|by apply IH]|].
  apply IH. intros x Hx. rewrite length_insert. by apply Hl'.
Qed.
Lemma issue_commands_total address l g :
  (∀ x, x ∈ l → is_Some (fc_fill x.1) → x.2 ≠ []) → issue_commands address l g ≠ None.
Proof.
  revert g. induction l as [|[c vs] l IH]; intros g Hl; [done|]. cbn [issue_commands].
  assert (issue_one address c vs g ≠ None) as H1.
  { unfold issue_one. destruct (fc_fill c) eqn:Ef.
    - destruct vs; [|done]. exfalso. apply (Hl (c, [])); [by left|cbn; by rewrite Ef|done].
    - by destruct (fc_kernel c). }
  destruct (issue_one address c vs g) as [[g1|e]|]; [|done|done]. apply IH. intros x Hx. apply Hl. by right.
Qed.

(** Every region a fragment refers to is bound once binding succeeds. *)
Lemma bind_all_total native info indices d commands inputs outputs f0 f env supplied g g' buffers :
  fragment native info indices d commands inputs outputs = Ok f0 → f = f0 ∨ f = reuse_private_scratch f0 →
  Forall proper_command commands → Forall proper_io (inputs ++ outputs) →
  bind_all env f supplied g = (g', Some (Ok buffers)) →
  (∀ c r, c ∈ mf_commands f → r ∈ fc_regions c → ∃ v, bound buffers (r_allocation r) v) ∧
  (∀ x, x ∈ mf_inputs f ++ mf_outputs f → ∃ v, bound buffers (r_allocation x.1) v).
Proof.
  intros Hf0 Hf Hp Hio. pose proof (fragment_sound _ _ _ _ _ _ _ _ Hf0) as [Hs0 _].
  assert (sound f ∧ mf_commands f = mf_commands f0 ∧ mf_allocations f = mf_allocations f0 ∧ mf_inputs f ++ mf_outputs f = inputs ++ outputs) as (Hs & Ec & Ea & Eio).
  { assert (mf_inputs f0 = inputs ∧ mf_outputs f0 = outputs) as [E1 E2].
    { unfold fragment in Hf0. destruct (check_io d _); [|done]. cbn [result_bind] in Hf0. destruct (fragment_commands _ _ _ d commands); [|done]. by injection Hf0 as <-. }
    destruct Hf as [->| ->]; cbn; rewrite ?E1, ?E2; (split_and!; [|done..]); [done|by apply reuse_sound]. }
  unfold bind_all. set (empty := replicate _ _). set (b := match supplied with None => _ | Some _ => _ end).
  assert (∀ x, b = Some (Ok x) → length x = length (mf_allocations f)) as Hlen.
  { unfold b. destruct supplied as [l|]; [|intros x [= <-]; apply length_replicate]. intros x. destruct (negb _); [done|].
    assert (∀ zs y, bind_inputs (ae_wait env) f zs y = Some (Ok x) → length x = length y) as H.
    { intros zs. induction zs as [|[[r desc] tn] zs IH]; intros y; cbn [bind_inputs]; [by intros [= ->]|].
      destruct (ModelContext.validate _ _) as [[]|]; [|done]. cbn [then_]. destruct (negb _); [done|]. destruct (ae_wait env _) as [[]|]; [|done]. cbn [then_].
      destruct (ModelContext.binding tn); [|done]. destruct (_ || _); [done|]. destruct (y !! _) as [[[base old]|]|]; [|intros H; apply IH in H; by rewrite length_insert in H|done].
      destruct (_ || _); [done|apply IH]. }
    intros Hx. rewrite (H _ _ Hx). apply length_replicate. }
  assert (∀ i n x, mf_allocations f !! i = Some x → (i, n) ∈ marks (mf_commands f) (mf_inputs f ++ mf_outputs f) → 0 < n →
    default 0 (mf_extents f !! (0 + i)%nat) ≠ 0) as Hext.
  { intros i n x Hi Hin Hn. rewrite (sf_extents _ Hs). destruct (extents_cover (length (mf_allocations f)) (marks (mf_commands f) (mf_inputs f ++ mf_outputs f)) i n) as (v & Hv & Hle);
      [by eapply lookup_lt_Some|done|]. cbn [Nat.add]. rewrite Hv. cbn. lia. }
  destruct b as [[l|e]|]; [|done|done]. specialize (Hlen l eq_refl).
  match goal with |- context [let (_, _) := ?m in _] => destruct m as [g1 views] end. destruct views as [views|e]; [|by intros [= _ ?]]. cbn [result_bind].
  intros [= _ Hr].
  assert (∀ i n, is_Some (mf_allocations f !! i) → (i, n) ∈ marks (mf_commands f) (mf_inputs f ++ mf_outputs f) → 0 < n → ∃ v, bound buffers i v) as Hall.
  { intros i n [x Hx] Hin Hn. destruct (bind_rest_total _ _ _ _ _ _ i x Hr) as [_ H]; [rewrite bind_private_length, Hlen; lia|]. apply H; [done|]. right. by eapply Hext. }
  split.
  - intros c r Hc Hrg. destruct (fragment_regions _ _ _ _ _ _ _ _ c r Hf0 Hp ltac:(by rewrite <-Ec) Hrg) as [Hi Hpos]. rewrite <-Ea in Hi.
    apply (Hall _ (r_offset r + r_bytes r)); [done| |done]. unfold marks. apply elem_of_app. left. apply list_elem_of_bind. exists c. split; [|done].
    apply list_elem_of_fmap. by exists r.
  - intros x Hx. pose proof (sf_io _ Hs) as Hsio. rewrite Forall_forall in Hsio. destruct (Hsio x Hx) as ((n & p & Hi) & He & _).
    rewrite Forall_forall in Hio. destruct (Hio x ltac:(by rewrite <-Eio)) as [H0 Hb]. specialize (Hb He).
    apply (Hall _ (r_offset x.1 + Tensor.bytes x.2)); [by rewrite Hi| |lia]. unfold marks. apply elem_of_app. right. apply list_elem_of_fmap. by exists x.
Qed.

(** C16. A validated fragment whose fills are not empty records without a panic: every
    allocation it refers to is bound, whatever the outcome of the allocations and
    waits. *)
Theorem fragments_record_without_panics native info indices d commands inputs outputs f0 f env supplied g :
  fragment native info indices d commands inputs outputs = Ok f0 → f = f0 ∨ f = reuse_private_scratch f0 →
  Forall proper_command commands → Forall proper_io (inputs ++ outputs) → Forall proper_tensor (default [] supplied) →
  append env f supplied g ≠ None.
Proof.
  intros Hf0 Hf Hp Hio Ht. pose proof (fragment_sound _ _ _ _ _ _ _ _ Hf0) as [Hs0 _].
  assert (sound f) as Hs by (destruct Hf as [->| ->]; [done|by apply reuse_sound]).
  unfold append. destruct (negb _); [done|]. destruct (bind_all env f supplied g) as [g1 b] eqn:Eb.
  assert (b ≠ None) as Hb.
  { unfold bind_all in Eb. destruct supplied as [l|]; cbn [default from_option] in Ht.
    - destruct (negb _); [by injection Eb as _ <-|]. destruct (bind_inputs _ _ _ _) as [[x|e]|] eqn:Ei.
      + match type of Eb with context [let (_, _) := ?m in _] => destruct m end. by injection Eb as _ <-.
      + by injection Eb as _ <-.
      + exfalso. revert Ei. apply bind_inputs_total. intros [[r desc] tn] Hx. cbn. rewrite length_replicate.
        pose proof (elem_of_zip_l _ _ _ _ Hx) as H1. pose proof (elem_of_zip_r _ _ _ _ Hx) as H2. pose proof (sf_io _ Hs) as Hsio.
        rewrite Forall_app, !Forall_forall in Hsio. destruct (proj1 Hsio (r, desc) H1) as ((n & p & Hi) & He & _). cbn in Hi, He.
        split_and!; [by eapply lookup_lt_Some|done|]. rewrite Forall_forall in Ht. by apply Ht.
    - match type of Eb with context [let (_, _) := ?m in _] => destruct m end. by injection Eb as _ <-. }
  match goal with |- context [then_ b ?k] => assert (then_ b k ≠ None ∧ ∀ x, then_ b k = Some (Ok x) → Forall2 (λ c vs, length (fc_regions c) = length vs) (mf_commands f) x.2) as [Hn Hx] end.
  { destruct b as [[buffers|e]|]; [|done|done]. destruct (bind_all_total _ _ _ _ _ _ _ _ _ _ _ _ _ _ Hf0 Hf Hp Hio Eb) as [H1 H2]. cbn [then_]. split.
    - apply then_total; [apply tensors_of_total; intros x Hx; apply H2, elem_of_app; by left|]. intros ins _.
      apply then_total; [apply tensors_of_total; intros x Hx; apply H2, elem_of_app; by right|]. intros outs _.
      apply then_total; [by apply bindings_of_total|done].
    - intros x Hx. apply then_Ok in Hx as (ins & _ & Hx). apply then_Ok in Hx as (outs & _ & Hx). apply then_Ok in Hx as (vss & Hv & [= <-]).
      cbn. eapply Forall2_impl; [by apply bindings_of_Ok|]. cbn. intros c vs Hc%views_of_Ok. by eapply Forall2_length. }
  destruct (then_ b _) as [[[[ins outs] vss]|e]|]; [|done|done]. specialize (Hx _ eq_refl). cbn in Hx.
  assert (issue_commands (ae_address env) (zip (mf_commands f) vss) g1 ≠ None) as Hi.
  { apply issue_commands_total. intros [c vs] Hz [value Hv]. cbn in *. apply list_elem_of_lookup_1 in Hz as [i Hi].
    apply lookup_zip_with_Some in Hi as (c' & vs' & [= -> ->] & Hc & Hvs). pose proof (Forall2_lookup_lr _ _ _ _ _ _ Hx Hc Hvs) as Hl. cbn in Hl.
    pose proof (Forall_lookup_1 _ _ _ _ (sf_commands _ Hs) Hc) as Hcs. unfold command_sound in Hcs. rewrite Hv in Hcs.
    destruct Hcs as (r & E & _). rewrite E in Hl. intros Hnil. by rewrite Hnil in Hl. }
  destruct (issue_commands _ _ g1) as [[g2 [u|e]]|]; done.
Qed.

(** ** A definition with one weight and two temporaries *)

Definition demo_weight : View.Storage := View.mkStorage 1 8 false false true true 0.
Definition frag_definition : Definition_ :=
  mkDefinition 3 0 [Weight demo_weight; Scratch 8 OnDevice; Scratch 4 OnDevice] [mkLoaded 0 [64; 1; 1]].
Definition frag_region (a : nat) (o n : Z) : Region := mkRegion 3 a o n.
Definition frag_commands : list ModelCommand :=
  [MFill (frag_region 1 0 8) 0;
   MDispatch (mkModelDispatch (mkKernelId 3 0) (Packed []) [1; 1; 1]
     [mkBinding (frag_region 0 0 8) Read; mkBinding (frag_region 1 0 8) Write])].
Definition frag_io : list (Region * Tensor.TensorDesc) :=
  [(frag_region 1 0 8, Tensor.mkDesc Tensor.F32 [2] [1] Tensor.General 2 8)].
Definition frag_made (commands : list ModelCommand) (outputs : list (Region * Tensor.TensorDesc)) : Result Fragment :=
  fragment (λ _ _, Ok tt) (λ _, (2, 0)) (λ _ _, Ok []) frag_definition commands [] outputs.
Definition frag_value (r : Result Fragment) : Fragment := match r with Ok f => f | Err _ => mkFragment 0 [] [] [] [] [] false end.
Definition frag_demo : Fragment := frag_value (frag_made frag_commands frag_io).
Definition frag_env : AppendEnv :=
  mkAppend (λ _, Ok tt)
    (λ k n h, Ok (View.buffer_view (View.mkStorage (2 * Z.of_nat k + 100) (Z.max n 0) false h true true 0)))
    (λ i n _, Ok (View.mkStorage (2 * Z.of_nat i + 101) (Z.max n 0) false false true true 0)) (λ _, Ok 0) 0.
Definition frag_graph : GraphBuild.Graph := GraphBuild.new_graph 0.
Lemma frag_distinct : storages_distinct frag_env frag_demo [] frag_graph.
Proof.
  assert (∀ o s, origin_of frag_env frag_demo frag_graph o s →
    0 <= View.st_bytes s ∧ View.st_id s = match o with FromWeight _ => 1 | FromPool k => 2 * Z.of_nat k + 100 | Fresh i => 2 * Z.of_nat i + 101 end ∧
    (∀ i, o = FromWeight i → i = 0%nat)) as H.
  { intros [i|k|i] s; cbn [origin_of].
    - destruct i as [|[|[|i]]]; cbn; intros [= <-]. cbn. split_and!; [lia|done|by intros ? [= <-]].
    - intros [(h & v & E & _)|(_ & n & h & v & E & ->)]; [done|]. injection E as <-. cbn. split_and!; [lia|done|done].
    - intros (n & p & [= <-]). cbn. split_and!; [lia|done|done]. }
  constructor; [| | |by intros t v ?%elem_of_nil].
  - intros o o' s s' (_ & E & W)%H (_ & E' & W')%H Hid. rewrite E, E' in Hid. destruct o as [i|k|i], o' as [i'|k'|i']; try lia.
    + by rewrite (W i eq_refl), (W' i' eq_refl).
    + f_equal. lia.
    + f_equal. lia.
  - by intros t v o s ?%elem_of_nil.
  - intros o s Ho. exact (proj1 (H o s Ho)).
Qed.
Definition frag_result : option (GraphBuild.Graph * Result (list ModelContext.DeviceTensor * list ModelContext.DeviceTensor)) :=
  append frag_env frag_demo None frag_graph.
Definition frag_after : GraphBuild.Graph := match frag_result with Some (g, _) => g | None => frag_graph end.
Lemma frag_made_ok : frag_made frag_commands frag_io = Ok frag_demo.
Proof. vm_compute. reflexivity. Qed.
Lemma frag_recorded : ∃ r, append frag_env frag_demo None frag_graph = Some (frag_after, r) ∧ length (GraphBuild.entries frag_after) = 2%nat.
Proof. vm_compute. by eexists. Qed.
Definition frag_written : View.BufferView := View.buffer_view (View.mkStorage 103 8 false false true true 0).

Lemma recorded_fragments_spare_weights_witness :
  length (GraphBuild.entries frag_after) = 2%nat ∧ View.overlaps frag_written (View.buffer_view demo_weight) = false.
Proof.
  destruct frag_recorded as (r & E & Hlen). split; [exact Hlen|].
  refine (recorded_fragments_spare_weights (λ _ _, Ok tt) (λ _, (2, 0)) (λ _ _, Ok []) frag_definition frag_commands [] frag_io frag_demo frag_demo
    frag_env None frag_graph frag_after r frag_made_ok (or_introl eq_refl) frag_distinct E
    (GraphBuild.mkEntry (GraphBuild.Fill frag_written 0) [Deps.mkUse frag_written Write] Sched.Compute) (Deps.mkUse frag_written Write) 0 demo_weight _ _ _ _).
  - vm_compute. left.
  - left.
  - done.
  - reflexivity.
Defined.
Lemma fragments_record_without_panics_witness : append frag_env (reuse_private_scratch frag_demo) None frag_graph ≠ None.
Proof.
  apply (fragments_record_without_panics (λ _ _, Ok tt) (λ _, (2, 0)) (λ _ _, Ok []) frag_definition frag_commands [] frag_io frag_demo).
  - exact frag_made_ok.
  - by right.
  - repeat constructor; cbn; lia.
  - repeat constructor; cbn; lia.
  - constructor.
Defined.

Definition frag_empty : Fragment := frag_value (frag_made (frag_commands ++ [MFill (frag_region 2 0 0) 0]) frag_io).
(** An empty fill of a temporary that nothing else uses is accepted, and recording
    the fragment panics: the temporary has no extent, so nothing is bound to it. *)
Theorem empty_fill_panics :
  ∃ f, frag_made (frag_commands ++ [MFill (frag_region 2 0 0) 0]) frag_io = Ok f ∧ append frag_env f None frag_graph = None.
Proof. exists frag_empty. split; vm_compute; reflexivity. Qed.
End ModelDefinitionTheorems.
