(* ===== verification/Inference.v ===== *)
(** * Inference slots

    [PreparedModel], [ModelSlot], [Inference] and [AcquireSlot] of
    src/src/inference.rs: a bounded pool of slots with private storage, leased
    to one client at a time.  Tensors and contexts are those of ModelContext,
    completions those of Completion.

    A [World] is one pool with the completions it knows.  A lease is an [Arc]:
    its handles are counted, and the last one to go releases the slot and
    wakes the waiting clients.  [phase] says which unique owner a lease still
    has: a reserved [ModelSlot], an [Inference] with its completion, or only
    outputs and readbacks.  [after], [work] and [waiting] record the
    dependencies of every submission, the submissions made for each slot and
    the wakers whose last poll returned [Pending]; no operation reads them.
    Completions are published without the pool's lock, so the operations take
    the publications that happen while they hold it.

    The theorems show that slots are leased to one client at a time, that a
    slot is handed out again only when the work submitted for it has completed,
    but for what a failed or cancelled submission was waiting for, that a
    pending asynchronous acquirer is always due a wake-up, and what
    [acquire_locked] returns.  Two runs show how slots are not drained after a
    cancellation, and how a blocking acquirer can miss its wake-up and wait
    although every slot is free. *)

From S2P Require Import Prelude Access BufferView Completion Tensor GraphBuild ModelContext.
Local Open Scope Z_scope.

Module Inference.
Import ModelContext.

(** ** Preparing a model *)

(** [InferenceGraph] and [Slot]: the graph's runtime and its bindings. *)
Record Slot : Type := mkSlot { inputs : list DeviceTensor; outputs : list DeviceTensor; graph_runtime : nat }.
Definition slot_io (s : Slot) : list DeviceTensor := inputs s ++ outputs s.
Definition slot_views (s : Slot) : list View.BufferView := omap binding (slot_io s).

Section Prepare.
Context (runtime : nat) (wait : nat → Result unit).

(** The checks of one built slot against the slots before it. *)
Fixpoint check_io (slots : list Slot) (ts : list DeviceTensor) : Result unit :=
  match ts with
  | [] => Ok tt
  | t :: rest =>
      let? _ := validate runtime t in
      let? _ := wait (producer t) in
      match binding t with
      | Some v => if existsb (View.overlaps v) (slots ≫= slot_views)
                  then Err (Message "inference slots share writable IO") else check_io slots rest
      | None => check_io slots rest
      end
  end.
Definition descs (ts : list DeviceTensor) : list Tensor.TensorDesc := desc <$> ts.
Definition check_slot (slots : list Slot) (s : Slot) : Result unit :=
  let? _ := if (graph_runtime s =? runtime)%nat then Ok tt else Err (Message "graph belongs to another runtime") in
  let? _ := check_io slots (slot_io s) in
  match slots with
  | first :: _ =>
      if negb (bool_decide (descs (inputs s) = descs (inputs first)))
         || negb (bool_decide (descs (outputs s) = descs (outputs first)))
      then Err (Message "inference slot descriptors differ") else Ok tt
  | [] => Ok tt
  end.

(** [PreparedModel::prepare]: [builds] are the results of the builder. *)
Fixpoint prepare_slots (builds : list (Result Slot)) (slots : list Slot) : Result (list Slot) :=
  match builds with
  | [] => Ok slots
  | b :: rest => let? s := b in let? _ := check_slot slots s in prepare_slots rest (slots ++ [s])
  end.
Definition prepare (builds : list (Result Slot)) : Result (list Slot) :=
  if (length builds =? 0)%nat then Err (Message "inference capacity must be nonzero")
  else prepare_slots builds [].
End Prepare.

(** ** The pool *)

(** [SlotState], and the leases with their handles. *)
Record SlotState : Type := mkState { leased : bool; completion : option nat }.
Inductive Phase : Type := Reserved | Submitted (c : nat) | Detached.
Record Lease : Type := mkLease { index : nat; handles : nat; phase : Phase }.

Record World : Type := mkWorld {
  slots : list SlotState;
  wakers : list nat;
  signals : gmap nat Completion.Signal;
  leases : gmap nat Lease;
  after : gmap nat (list nat);
  work : list (nat * nat);
  waiting : gset nat }.

Definition set_slots (l : list SlotState) (w : World) : World :=
  mkWorld l (wakers w) (signals w) (leases w) (after w) (work w) (waiting w).
Definition set_signals (s : gmap nat Completion.Signal) (w : World) : World :=
  mkWorld (slots w) (wakers w) s (leases w) (after w) (work w) (waiting w).
Definition set_leases (l : gmap nat Lease) (w : World) : World :=
  mkWorld (slots w) (wakers w) (signals w) l (after w) (work w) (waiting w).
Definition set_waiting (s : gset nat) (w : World) : World :=
  mkWorld (slots w) (wakers w) (signals w) (leases w) (after w) (work w) s.
Definition set_wakers (l : list nat) (w : World) : World :=
  mkWorld (slots w) l (signals w) (leases w) (after w) (work w) (waiting w).
Definition wake (ws : list nat) (w : World) : World := set_waiting (waiting w ∖ list_to_set ws) w.

(** [Completion::is_complete] of a completion. *)
Definition complete (w : World) (c : nat) : bool :=
  match signals w !! c with Some s => Completion.is_complete s | None => false end.
Definition drained (w : World) (s : SlotState) : bool :=
  match completion s with Some c => complete w c | None => true end.

(** A completion is published without the pool's lock: its wakers run. *)
Definition publish (now : Z) (f : option Error) (c : nat) (w : World) : World :=
  match signals w !! c with
  | Some s => let '(s', ws) := Completion.publish now f s in wake ws (set_signals (<[c := s']> (signals w)) w)
  | None => w
  end.
Definition publish_all (now : Z) (cs : list (nat * option Error)) (w : World) : World :=
  foldl (λ w c, publish now c.2 c.1 w) w cs.

(** [Drop for Lease], when the last handle goes. *)
Definition release_slot (i : nat) (w : World) : World :=
  let ws := wakers w in
  wake ws (set_wakers [] (set_slots (alter (λ s, mkState false (completion s)) i (slots w)) w)).
Definition drop_handle (l : nat) (w : World) : World :=
  match leases w !! l with
  | Some (mkLease i (S (S n)) p) => set_leases (<[l := mkLease i (S n) p]> (leases w)) w
  | Some (mkLease i _ _) => release_slot i (set_leases (delete l (leases w)) w)
  | None => w
  end.
Definition set_phase (l : nat) (p : Phase) (w : World) : World :=
  set_leases (alter (λ x, mkLease (index x) (handles x) p) l (leases w)) w.

Section Pool.
(** The message of the [DeviceLost] error of [ExecutableGraph::usable]. *)
Context (lost : nat → option string).

(** [PreparedModel::acquire_locked]: the loop, and the whole function. *)
Fixpoint scan_slots (w : World) (l : list SlotState) (i : nat) (failure : option Error) : nat + option Error :=
  match l with
  | [] => inr failure
  | s :: rest =>
      if leased s then scan_slots w rest (S i) failure
      else if negb (drained w s) then scan_slots w rest (S i) failure
      else match lost i with
           | Some message => scan_slots w rest (S i) (Some (DeviceLost message))
           | None => inl i
           end
  end.
Definition no_slot : Error := Busy "all inference slots are retained or running".
Definition acquire_locked (lease : nat) (w : World) : World * Result nat :=
  match scan_slots w (slots w) 0 None with
  | inl i =>
      (set_leases (<[lease := mkLease i 1 Reserved]> (leases w))
         (set_slots (<[i := mkState true None]> (slots w)) w), Ok i)
  | inr failure =>
      match failure with
      | Some e => if forallb (λ s, negb (leased s) && drained w s) (slots w) then (w, Err e) else (w, Err no_slot)
      | None => (w, Err no_slot)
      end
  end.

(** [PreparedModel::is_idle]. *)
Definition is_idle (w : World) : bool := forallb (λ s, negb (leased s) && drained w s) (slots w).

(** One iteration of [acquire_blocking]; [between] is published after
    [acquire_locked] has looked at the slots. *)
Inductive Blocking : Type := Acquired (i : nat) | Failed (e : Error) | WaitFor (c : nat) | WaitChanged.
Definition is_busy (e : Error) : bool := match e with Busy _ => true | _ => false end.
Definition pending_of (w : World) (s : SlotState) : option nat :=
  if leased s then None else c ← completion s; if complete w c then None else Some c.
Definition blocking_step (lease : nat) (now : Z) (between : list (nat * option Error)) (w : World) : World * Blocking :=
  match acquire_locked lease w with
  | (w, Ok i) => (w, Acquired i)
  | (w, Err e) =>
      if negb (is_busy e) then (w, Failed e)
      else let w := publish_all now between w in
           match omap (pending_of w) (slots w) with
           | c :: _ => (w, WaitFor c)
           | [] => (w, WaitChanged)
           end
  end.

(** [AcquireSlot::poll]: [None] is [Pending]. *)
Definition poll_completion (waker : nat) (c : nat) (w : World) : World * bool :=
  match signals w !! c with
  | Some s => let '(s', r) := Completion.poll waker s in
              (set_signals (<[c := s']> (signals w)) w, match r with Some _ => true | None => false end)
  | None => (w, true)
  end.
Definition poll_slot (waker : nat) (acc : World * bool) (s : SlotState) : World * bool :=
  let '(w, ready) := acc in
  if leased s then (w, ready)
  else match completion s with
       | Some c => let '(w, r) := poll_completion waker c w in (w, ready || r)
       | None => (w, ready)
       end.
Definition poll_acquire (lease waker : nat) (now : Z) (between : list (nat * option Error)) (w : World)
    : World * option (Result nat) :=
  let w := set_waiting (waiting w ∖ {[waker]}) w in
  match acquire_locked lease w with
  | (w, Ok i) => (w, Some (Ok i))
  | (w, Err e) =>
      if negb (is_busy e) then (w, Some (Err e))
      else
        let w := publish_all now between w in
        let '(w, ready) := foldl (poll_slot waker) (w, false) (slots w) in
        let w := if bool_decide (waker ∈ wakers w) then w else set_wakers (wakers w ++ [waker]) w in
        (* [wake_by_ref] asks for another poll *)
        (if ready then w else set_waiting ({[waker]} ∪ waiting w) w, None)
  end.
End Pool.

(** ** Inputs and transfers *)

(** The checks of [submit_host] and of [submit], and the copies of [submit]. *)
Definition check_host (s : Slot) (given : list (list Z)) : Result unit :=
  if negb (length given =? length (inputs s))%nat
     || existsb (λ p, negb (Z.of_nat (length p.1) =? Tensor.bytes (desc p.2))) (zip given (inputs s))
  then Err (Message "host model input byte count mismatch") else Ok tt.
Fixpoint check_inputs (runtime : nat) (given expected : list DeviceTensor) : Result unit :=
  match given, expected with
  | t :: given, e :: expected =>
      let? _ := validate runtime t in
      if negb (bool_decide (desc t = desc e)) then Err (Message "model input descriptor mismatch")
      else check_inputs runtime given expected
  | _, _ => Ok tt
  end.
Fixpoint copy_inputs (given expected : list DeviceTensor) (g : GraphBuild.Graph) : Result GraphBuild.Graph :=
  match given, expected with
  | t :: given, e :: expected =>
      match binding t, binding e with
      | Some source, Some destination =>
          let? (g, _) := GraphBuild.copy destination source g in copy_inputs given expected g
      | _, _ => copy_inputs given expected g
      end
  | _, _ => Ok g
  end.
Definition submit_checks (runtime : nat) (s : Slot) (given : list DeviceTensor) : Result GraphBuild.Graph :=
  if negb (length given =? length (inputs s))%nat then Err (Message "model input count mismatch")
  else let? _ := check_inputs runtime given (inputs s) in
       copy_inputs given (inputs s) (GraphBuild.new_graph runtime).

(** [Transfer::prepare]: the host buffers, and the copies if there are any;
    [allocate] gives the staging of the tensor at each position. *)
Fixpoint transfer_buffers (allocate : nat → Z → Result View.Storage) (upload : bool) (ts : list DeviceTensor) (i : nat)
    (g : GraphBuild.Graph) : Result (list (option View.BufferView) * GraphBuild.Graph) :=
  match ts with
  | [] => Ok ([], g)
  | t :: rest =>
      match binding t with
      | None => let? (bs, g) := transfer_buffers allocate upload rest (S i) g in Ok (None :: bs, g)
      | Some device =>
          if View.st_mapped (View.storage device)
          then let? (bs, g) := transfer_buffers allocate upload rest (S i) g in Ok (Some device :: bs, g)
          else
            let? host := allocate i (Tensor.bytes (desc t)) in
            let host := View.buffer_view host in
            let? (g, _) := if upload then GraphBuild.copy device host g else GraphBuild.copy host device g in
            let? (bs, g) := transfer_buffers allocate upload rest (S i) g in Ok (Some host :: bs, g)
      end
  end.
Definition transfer_prepare (runtime : nat) (allocate : nat → Z → Result View.Storage) (upload : bool)
    (ts : list DeviceTensor) : Result (list (option View.BufferView) * option GraphBuild.Graph) :=
  let? (bs, g) := transfer_buffers allocate upload ts 0 (GraphBuild.new_graph runtime) in
  Ok (bs, match GraphBuild.entries g with [] => None | _ => Some g end).

(** ** Submissions *)

(** [submit_after] of a graph of slot [i], and storing its completion. *)
Definition submit_work (i c : nat) (deps : list nat) (w : World) : World :=
  mkWorld (slots w) (wakers w) (<[c := Completion.reset 0 Completion.new_signal]> (signals w)) (leases w)
    (<[c := deps]> (after w)) (work w ++ [(i, c)]) (waiting w).
Definition set_completion (i c : nat) (w : World) : World :=
  set_slots (alter (λ s, mkState (leased s) (Some c)) i (slots w)) w.

(** [ModelSlot::execute]: [c] is the outcome of the submission, [n] the number
    of outputs, each of which clones the lease. *)
Definition execute (l : nat) (i : nat) (n : nat) (deps : list nat) (c : Result nat) (w : World) : World * Result nat :=
  match c with
  | Err e => (drop_handle l (set_phase l Detached w), Err e)
  | Ok c =>
      let w := set_completion i c (submit_work i c deps w) in
      (set_leases (<[l := mkLease i (S n) (Submitted c)]> (leases w)) w, Ok c)
  end.

(** What [ModelSlot::submit_host_with] and [ModelSlot::submit] share: [checked]
    is the outcome of the checks, the staging and the callbacks before anything
    is submitted, [copy] that of the upload or copy graph if there is one, and
    [producers] the producers of the inputs, which the copy graph follows. *)
Definition submit (l n : nat) (checked : Result unit) (producers : list nat) (copy : option (Result nat))
    (c : Result nat) (w : World) : World * Result nat :=
  match leases w !! l with
  | Some (mkLease i _ Reserved) =>
      match checked, copy with
      | Err e, _ | Ok _, Some (Err e) => (drop_handle l (set_phase l Detached w), Err e)
      | Ok _, Some (Ok first) =>
          execute l i n [first] c (set_completion i first (submit_work i first producers w))
      | Ok _, None => execute l i n producers c w
      end
  | _ => (w, Err (Message "not a reserved slot"))
  end.

(** [ModelSlot::submit_host], [submit_host_with]: [transfer] is the outcome of
    preparing the upload, [written] that of mapping and of the callbacks. *)
Definition submit_host_with (l : nat) (s : Slot) (transfer written : Result unit) (upload : option (Result nat))
    (c : Result nat) (w : World) : World * Result nat :=
  submit l (length (outputs s)) (let? _ := transfer in written) [] upload c w.
Definition submit_host (l : nat) (s : Slot) (given : list (list Z)) (transfer written : Result unit)
    (upload : option (Result nat)) (c : Result nat) (w : World) : World * Result nat :=
  match check_host s given with
  | Err e => (drop_handle l (set_phase l Detached w), Err e)
  | Ok _ => submit_host_with l s transfer written upload c w
  end.

(** [ModelSlot::submit]: [copy] is the outcome of the copy graph. *)
Definition copied (given : list DeviceTensor) (s : Slot) : bool :=
  existsb (λ p, bool_decide (is_Some (binding p.1)) && bool_decide (is_Some (binding p.2))) (zip given (inputs s)).
Definition submit_tensors (runtime l : nat) (s : Slot) (given : list DeviceTensor) (copy c : Result nat) (w : World)
    : World * Result nat :=
  submit l (length (outputs s)) (let? _ := submit_checks runtime s given in Ok tt) (producer <$> given)
    (if copied given s then Some copy else None) c w.

(** [Inference::download]: the transfer, then the readback keeps the lease while
    the outputs of the inference are dropped, [n] of them. *)
Definition drop_handles (l n : nat) (w : World) : World := Nat.iter n (drop_handle l) w.
Definition download (l n : nat) (transfer : Result unit) (copy : option (Result nat)) (w : World)
    : World * Result nat :=
  match leases w !! l with
  | Some (mkLease i h (Submitted c)) =>
      match transfer, copy with
      | Err e, _ | Ok _, Some (Err e) => (drop_handles l (S n) (set_phase l Detached w), Err e)
      | Ok _, Some (Ok d) =>
          (drop_handles l n (set_phase l Detached (set_completion i d (submit_work i d [c] w))), Ok d)
      | Ok _, None => (drop_handles l n (set_phase l Detached (set_completion i c w)), Ok c)
      end
  | _ => (w, Err (Message "not an inference"))
  end.

(** ** Steps *)

(** [Completion::result] of a completion is [Ok]. *)
Definition succeeded (w : World) (c : nat) : bool :=
  match signals w !! c with
  | Some s => match Completion.result s with Some (Ok _) => true | _ => false end
  | None => false
  end.
Definition cancelling (w : World) (c : nat) : bool :=
  match signals w !! c with Some s => Completion.cancel s | None => false end.

(** When the scheduler publishes a submission: its regions have run, which they
    do only after every dependency has succeeded, or it failed or was cancelled,
    which may happen while its dependencies are still running. *)
Definition publishable (w : World) (f : option Error) (c : nat) : Prop :=
  complete w c = false ∧
  (Forall (λ d, succeeded w d = true) (default [] (after w !! c)) ∨ is_Some f ∨ cancelling w c = true).
Fixpoint all_publishable (now : Z) (w : World) (cs : list (nat * option Error)) : Prop :=
  match cs with
  | [] => True
  | c :: rest => publishable w c.2 c.1 ∧ all_publishable now (publish now c.2 c.1 w) rest
  end.
(** [Completion::cancel]. *)
Definition request_cancel (c : nat) (w : World) : World :=
  set_signals (alter Completion.request_cancel c (signals w)) w.
(** A new submission, and dependencies the world knows. *)
Definition new_completion (w : World) (c : nat) : Prop := signals w !! c = None ∧ after w !! c = None.
Definition known (w : World) (deps : list nat) : Prop := Forall (λ d, is_Some (signals w !! d)) deps.

Inductive step (w : World) : World → Prop :=
| S_acquire lost l : leases w !! l = None → step w (acquire_locked lost l w).1
| S_blocking lost l now between :
    leases w !! l = None → all_publishable now w between → step w (blocking_step lost l now between w).1
| S_poll lost l waker now between :
    leases w !! l = None → all_publishable now w between → step w (poll_acquire lost l waker now between w).1
| S_submit l n checked producers copy c :
    known w producers →
    (∀ d, copy = Some (Ok d) → new_completion w d) → (∀ d, c = Ok d → new_completion w d) →
    (∀ d, copy = Some (Ok d) → c ≠ Ok d) → step w (submit l n checked producers copy c w).1
| S_download l n transfer copy :
    (∀ d, copy = Some (Ok d) → new_completion w d) →
    (∀ x, leases w !! l = Some x → (n < handles x)%nat) → step w (download l n transfer copy w).1
| S_clone l x : leases w !! l = Some x → phase x ≠ Reserved →
    step w (set_leases (<[l := mkLease (index x) (S (handles x)) (phase x)]> (leases w)) w)
| S_drop l x : leases w !! l = Some x → phase x = Detached ∨ (1 < handles x)%nat → step w (drop_handle l w)
| S_discard l : step w (drop_handle l (set_phase l Detached w))
| S_other c deps : new_completion w c → known w deps →
    step w (mkWorld (slots w) (wakers w) (<[c := Completion.reset 0 Completion.new_signal]> (signals w)) (leases w)
              (<[c := deps]> (after w)) (work w) (waiting w))
| S_cancel c : step w (request_cancel c w)
| S_publish now f c : publishable w f c → step w (publish now f c w).

(** A pool as [prepare] leaves it. *)
Definition initial (w : World) : Prop :=
  ∃ capacity, (0 < capacity)%nat ∧ w = mkWorld (replicate capacity (mkState false None)) [] ∅ ∅ ∅ [] ∅.
Definition reachable (w : World) : Prop := ∃ w0, initial w0 ∧ rtc step w0 w.
End Inference.
