(* ===== verification/InferenceTheorems.v ===== *)
(** * Inference slots: theorems

    The invariants of the slot pool of Inference and the theorems about its
    leases, its reuse of slots and its wake-ups. *)

From S2P Require Import Prelude Access BufferView Completion Tensor GraphBuild ModelContext Inference.
Local Open Scope Z_scope.

Module InferenceTheorems.
Import ModelContext Inference.

(** ** Invariants *)

Definition dep (w : World) (a b : nat) : Prop := ∃ ds, after w !! a = Some ds ∧ b ∈ ds.

(** Leases and slot flags agree; the unique owner of a lease knows the
    completion of its slot. *)
Record leases_ok (w : World) : Prop := {
  lo_lease : ∀ l x, leases w !! l = Some x → (0 < handles x)%nat ∧ ∃ s, slots w !! index x = Some s ∧
    leased s = true ∧ match phase x with Reserved => completion s = None | Submitted c => completion s = Some c | Detached => True end;
  lo_leased : ∀ i s, slots w !! i = Some s → leased s = true → ∃ l x, leases w !! l = Some x ∧ index x = i;
  lo_unique : ∀ l l' x x', leases w !! l = Some x → leases w !! l' = Some x' → index x = index x' → l = l';
  lo_slots : slots w ≠ [] }.

(** What is submitted for a slot is complete, or the slot's completion follows
    it through submissions of the slot, or a failed submission of the slot was
    to follow it. *)
Definition failed (w : World) (c : nat) : Prop := complete w c = true ∧ succeeded w c = false.
Definition link (w : World) (i a b : nat) : Prop := dep w a b ∧ (i, a) ∈ work w.
Definition accounted (w : World) (i c : nat) : Prop :=
  complete w c = true ∨
  (∃ s c', slots w !! i = Some s ∧ completion s = Some c' ∧ rtc (link w i) c' c) ∨
  (∃ a, (i, a) ∈ work w ∧ failed w a ∧ rtc (dep w) a c).
Record work_ok (w : World) : Prop := {
  wo_work : ∀ i c, (i, c) ∈ work w → accounted w i c;
  wo_closed : ∀ c d, succeeded w c = true → dep w c d → succeeded w d = true;
  wo_known : ∀ i s c, slots w !! i = Some s → completion s = Some c → is_Some (signals w !! c);
  wo_after : ∀ c ds, after w !! c = Some ds → is_Some (signals w !! c) ∧ known w ds;
  wo_works : ∀ i c, (i, c) ∈ work w → is_Some (signals w !! c) }.

(** A waiting waker is due a wake-up. *)
Definition due (w : World) (k : nat) : Prop :=
  (k ∈ wakers w ∧ ∃ i s, slots w !! i = Some s ∧ leased s = true) ∨
  (∃ i s c g, slots w !! i = Some s ∧ leased s = false ∧ completion s = Some c ∧ signals w !! c = Some g ∧
     Completion.done_flag g = false ∧ k ∈ Completion.registered g).
Record wakes_ok (w : World) : Prop := {
  wk_due : ∀ k, k ∈ waiting w → due w k;
  wk_signals : ∀ c g, signals w !! c = Some g → NoDup (Completion.registered g) }.

Definition Inv (w : World) : Prop := leases_ok w ∧ work_ok w ∧ wakes_ok w.

Lemma dep_mono w w' a b :
  (∀ c ds, after w !! c = Some ds → after w' !! c = Some ds) → rtc (dep w) a b → rtc (dep w') a b.
Proof. intros H. apply rtc_subrel. intros x y (ds & Hx & Hy). exists ds. auto. Qed.

Lemma link_mono w w' i a b :
  (∀ c ds, after w !! c = Some ds → after w' !! c = Some ds) → (∀ x, x ∈ work w → x ∈ work w') →
  rtc (link w i) a b → rtc (link w' i) a b.
Proof. intros H H'. apply rtc_subrel. intros x y [(ds & Hx & Hy) Hw]. split; [exists ds; auto|auto]. Qed.
Lemma link_dep w i a b : rtc (link w i) a b → rtc (dep w) a b.
Proof. apply rtc_subrel. by intros x y [? _]. Qed.
Lemma accounted_mono w w' i c :
  (∀ d, complete w d = true → complete w' d = true) → (∀ d, failed w d → failed w' d) →
  (∀ d ds, after w !! d = Some ds → after w' !! d = Some ds) → (∀ x, x ∈ work w → x ∈ work w') →
  (∀ s c', slots w !! i = Some s → completion s = Some c' → ∃ s', slots w' !! i = Some s' ∧ completion s' = Some c') →
  accounted w i c → accounted w' i c.
Proof.
  intros Hc Hf Ha Hw Hs [?|[(s & c' & H1 & H2 & H3)|(a & H1 & H2 & H3)]]; [left; auto|right; left|right; right].
  - destruct (Hs s c' H1 H2) as (s' & ? & ?). exists s', c'. split_and!; [done..|]. by eapply link_mono.
  - exists a. split_and!; [auto..|]. by eapply dep_mono.
Qed.
Lemma succeeded_complete w c : succeeded w c = true → complete w c = true.
Proof.
  unfold succeeded, complete, Completion.result, Completion.is_complete. destruct (signals w !! c) as [s|]; [|done].
  by destruct (Completion.done_flag s).
Qed.
Lemma signals_same w w' d :
  signals w' !! d = signals w !! d →
  complete w' d = complete w d ∧ succeeded w' d = succeeded w d.
Proof. intros H. unfold complete, succeeded. by rewrite H. Qed.

Lemma complete_spec w c : complete w c = true ↔ ∃ g, signals w !! c = Some g ∧ Completion.done_flag g = true.
Proof. unfold complete, Completion.is_complete. destruct (signals w !! c); naive_solver. Qed.

(** ** Publishing a completion *)

Lemma publish_complete now f c w d :
  complete (publish now f c w) d = true ↔ complete w d = true ∨ (d = c ∧ is_Some (signals w !! c)).
Proof.
  unfold publish, complete. destruct (signals w !! c) as [g|] eqn:Hg; cbn.
  - destruct (decide (d = c)) as [->|Hd]; [rewrite lookup_insert_eq, Hg; naive_solver|].
    rewrite lookup_insert_ne by congruence. naive_solver.
  - split; [by left|]. intros [?|[_ []]]; done.
Qed.

Lemma publish_fields now f c w :
  slots (publish now f c w) = slots w ∧ wakers (publish now f c w) = wakers w ∧
  leases (publish now f c w) = leases w ∧ after (publish now f c w) = after w ∧ work (publish now f c w) = work w.
Proof. unfold publish. by destruct (signals w !! c). Qed.

Lemma publish_known now f c w d : is_Some (signals (publish now f c w) !! d) ↔ is_Some (signals w !! d).
Proof.
  unfold publish. destruct (signals w !! c) as [g|] eqn:Hg; [|done]. cbn.
  destruct (decide (d = c)) as [->|]; [rewrite lookup_insert_eq, Hg; naive_solver|by rewrite lookup_insert_ne].
Qed.

(** A publication changes the outcome of the published completion only. *)
Lemma publish_succeeded now f c w d :
  complete w c = false →
  succeeded (publish now f c w) d = true ↔
  succeeded w d = true ∨ (d = c ∧ is_Some (signals w !! c) ∧ f = None ∧ cancelling w c = false).
Proof.
  unfold publish, succeeded, complete, cancelling, Completion.is_complete, Completion.result.
  destruct (signals w !! c) as [g|] eqn:Hg; cbn.
  - intros Hd. destruct (decide (d = c)) as [->|]; [|rewrite lookup_insert_ne by congruence; naive_solver].
    rewrite lookup_insert_eq, Hg, Hd. cbn. unfold Completion.outcome. cbn. destruct f, (Completion.cancel g); naive_solver.
  - intros _. split; [by left|]. intros [?|(_ & [] & _)]; done.
Qed.

Lemma publish_inv now f c w : publishable w f c → Inv w → Inv (publish now f c w).
Proof.
  intros [Hnc Hdeps] ([L1 L2 L3 L4] & [W1 W2 W3 W4 W5] & [K1 K2]).
  pose proof (publish_fields now f c w) as (Hs & Hw & Hl & Ha & Hk).
  assert (∀ d, complete w d = true → complete (publish now f c w) d = true) as Hmono
    by (intros d Hd; apply publish_complete; by left).
  assert (∀ d, succeeded w d = true → succeeded (publish now f c w) d = true) as Hsm
    by (intros d Hd; apply publish_succeeded; [done|by left]).
  split_and!; split; rewrite ?Hs, ?Hw, ?Hl, ?Ha, ?Hk; try done.
  - intros i d Hin. eapply accounted_mono; [exact Hmono| |by rewrite Ha|by rewrite Hk|rewrite Hs; eauto|by apply W1].
    intros x [Hx Hx']. split; [by apply Hmono|]. destruct (succeeded (publish now f c w) x) eqn:E; [|done].
    apply publish_succeeded in E as [?|(-> & _)]; congruence.
  - intros x d Hx (ds & Hds & Hd). rewrite Ha in Hds. apply publish_succeeded in Hx as [Hx|(-> & _ & -> & Hcan)]; [| |done].
    + apply Hsm, (W2 x); [done|]. by exists ds.
    + apply Hsm. destruct Hdeps as [Hdeps|[[]|?]]; [|done|congruence]. rewrite Hds in Hdeps. cbn in Hdeps.
      rewrite Forall_forall in Hdeps. by apply Hdeps.
  - intros i s d H1 H2. apply publish_known. by eapply W3.
  - intros d ds Hd. destruct (W4 d ds Hd) as [H1 H2]. split; [by apply publish_known|].
    unfold known in *. eapply Forall_impl; [done|]. cbn. intros x. apply publish_known.
  - intros i d Hd. apply publish_known. by eapply W5.
  - intros k Hk'. unfold publish in Hk' |- *. destruct (signals w !! c) as [g|] eqn:Hg; [|by apply K1].
    cbn in Hk'. apply elem_of_difference in Hk' as [Hin Hnot]. rewrite elem_of_list_to_set in Hnot.
    destruct (K1 k Hin) as [?|(i & s & d & g' & H1 & H2 & H3 & H4 & H5 & H6)]; [by left|]. right. exists i, s, d, g'.
    split_and!; try done. cbn. destruct (decide (d = c)) as [->|]; [congruence|by rewrite lookup_insert_ne].
  - intros d g Hg. unfold publish in Hg. destruct (signals w !! c) as [g'|] eqn:Hg'; [|by eapply K2]. cbn in Hg.
    apply lookup_insert_Some in Hg as [[_ <-]|[_ Hg]]; [cbn; constructor|by eapply K2].
Qed.

Lemma publish_all_inv now cs w : all_publishable now w cs → Inv w → Inv (publish_all now cs w).
Proof.
  revert w. induction cs as [|c cs IH]; intros w; [done|]. intros [Hp Hall] Hi. apply IH; [done|by apply publish_inv].
Qed.

Lemma publish_all_fields now cs w :
  slots (publish_all now cs w) = slots w ∧ wakers (publish_all now cs w) = wakers w ∧ leases (publish_all now cs w) = leases w.
Proof.
  revert w. induction cs as [|c cs IH]; intros w; [done|]. unfold publish_all. cbn [foldl].
  destruct (IH (publish now c.2 c.1 w)) as (H1 & H2 & H3). destruct (publish_fields now c.2 c.1 w) as (Hs & Hw & Hl & _).
  unfold publish_all in *. split_and!; congruence.
Qed.

Lemma publish_all_complete now cs w d : complete w d = true → complete (publish_all now cs w) d = true.
Proof.
  revert w. induction cs as [|c cs IH]; intros w Hd; [done|]. apply IH, publish_complete. by left.
Qed.

(** ** Acquiring a slot *)

Definition available (lost : nat → option string) (w : World) (i : nat) (s : SlotState) : Prop :=
  leased s = false ∧ drained w s = true ∧ lost i = None.

Lemma scan_slots_found lost w l i0 failure i :
  scan_slots lost w l i0 failure = inl i →
  ∃ k s, i = (i0 + k)%nat ∧ l !! k = Some s ∧ available lost w i s ∧
    ∀ k' s', (k' < k)%nat → l !! k' = Some s' → ¬ available lost w (i0 + k') s'.
Proof.
  revert i0 failure. induction l as [|s l IH]; intros i0 failure; [done|]. cbn [scan_slots].
  assert (∀ failure', scan_slots lost w l (S i0) failure' = inl i → ¬ available lost w i0 s →
    ∃ k s0, i = (i0 + k)%nat ∧ (s :: l) !! k = Some s0 ∧ available lost w i s0 ∧
      ∀ k' s', (k' < k)%nat → (s :: l) !! k' = Some s' → ¬ available lost w (i0 + k') s') as Hskip.
  { intros failure' H Hna. destruct (IH _ _ H) as (k & s0 & -> & Hk & Hav & Hmin). exists (S k), s0.
    split_and!; [lia|done|done|]. intros [|k'] s' Hlt Hs'; cbn in Hs'.
    - injection Hs' as <-. by rewrite Nat.add_0_r.
    - replace (i0 + S k')%nat with (S i0 + k')%nat by lia. apply Hmin; [lia|done]. }
  destruct (leased s) eqn:Hl; [intros H; apply (Hskip _ H); intros (? & _); congruence|].
  destruct (drained w s) eqn:Hd; cbn [negb]; [|intros H; apply (Hskip _ H); intros (_ & ? & _); congruence].
  destruct (lost i0) as [m|] eqn:Hm; [intros H; apply (Hskip _ H); intros (_ & _ & ?); congruence|].
  intros [= <-]. exists 0%nat, s. rewrite Nat.add_0_r. split_and!; [done|done|done|lia].
Qed.

Lemma scan_slots_none lost w l i0 failure r :
  scan_slots lost w l i0 failure = inr r →
  (∀ k s, l !! k = Some s → ¬ available lost w (i0 + k) s) ∧
  (r = failure ∧ (∀ s, s ∈ l → leased s = true ∨ drained w s = false) ∨
   ∃ k m, r = Some (DeviceLost m) ∧ lost (i0 + k)%nat = Some m ∧ (k < length l)%nat).
Proof.
  revert i0 failure. induction l as [|s l IH]; intros i0 failure; cbn [scan_slots].
  { intros [= <-]. split; [done|]. left. split; [done|]. by intros s ?%elem_of_nil. }
  assert (∀ failure', scan_slots lost w l (S i0) failure' = inr r → ¬ available lost w i0 s →
    (failure' = failure ∧ (leased s = true ∨ drained w s = false) ∨ ∃ m, failure' = Some (DeviceLost m) ∧ lost i0 = Some m) →
    (∀ k s', (s :: l) !! k = Some s' → ¬ available lost w (i0 + k) s') ∧
    (r = failure ∧ (∀ s', s' ∈ s :: l → leased s' = true ∨ drained w s' = false) ∨
     ∃ k m, r = Some (DeviceLost m) ∧ lost (i0 + k)%nat = Some m ∧ (k < length (s :: l))%nat)) as Hskip.
  { intros failure' H Hna Hf. destruct (IH _ _ H) as [Hno Hr]. split.
    - intros [|k] s' Hk; cbn in Hk; [injection Hk as <-; by rewrite Nat.add_0_r|].
      replace (i0 + S k)%nat with (S i0 + k)%nat by lia. by apply Hno.
    - destruct Hr as [[-> Hall]|(k & m & -> & Hm & Hk)].
      + destruct Hf as [[-> Hs]|(m & -> & Hm)].
        * left. split; [done|]. intros s' [->|Hin]%elem_of_cons; auto.
        * right. exists 0%nat, m. rewrite Nat.add_0_r. cbn. split_and!; [done|done|lia].
      + right. exists (S k), m. replace (i0 + S k)%nat with (S i0 + k)%nat by lia. cbn. split_and!; [done|done|lia]. }
  destruct (leased s) eqn:Hl; [intros H; apply (Hskip _ H); [intros (? & _); congruence|auto]|].
  destruct (drained w s) eqn:Hd; cbn [negb]; [|intros H; apply (Hskip _ H); [intros (_ & ? & _); congruence|auto]].
  destruct (lost i0) as [m|] eqn:Hm; [|done].
  intros H; apply (Hskip _ H); [intros (_ & _ & ?); congruence|]. right. by exists m.
Qed.

(** What [acquire_locked] returns. *)
Lemma acquire_locked_spec lost l w w' r :
  acquire_locked lost l w = (w', r) →
  match r with
  | Ok i => ∃ s, slots w !! i = Some s ∧ available lost w i s ∧
      (∀ j s', (j < i)%nat → slots w !! j = Some s' → ¬ available lost w j s') ∧
      w' = set_leases (<[l := mkLease i 1 Reserved]> (leases w)) (set_slots (<[i := mkState true None]> (slots w)) w)
  | Err e => w' = w ∧ (∀ j s, slots w !! j = Some s → ¬ available lost w j s) ∧
      (is_idle w = true ∧ (∃ j m, lost j = Some m ∧ e = DeviceLost m) ∨
       e = no_slot ∧ (slots w = [] ∨ is_idle w = false))
  end.
Proof.
  unfold acquire_locked. destruct (scan_slots lost w (slots w) 0 None) as [i|failure] eqn:Hs.
  - intros [= <- <-]. destruct (scan_slots_found _ _ _ _ _ _ Hs) as (k & s & -> & Hk & Hav & Hmin). by exists s.
  - destruct (scan_slots_none _ _ _ _ _ _ Hs) as [Hno Hr]. destruct Hr as [[-> Hall]|(k & m & -> & Hm & _)].
    + intros [= <- <-]. split_and!; [done|done|]. right. split; [done|].
      destruct (slots w) as [|s rest] eqn:Es; [by left|right]. unfold is_idle. rewrite Es. cbn.
      destruct (Hall s ltac:(by left)) as [->| ->]; cbn; [done|by rewrite andb_false_r].
    + fold (is_idle w). destruct (is_idle w) eqn:Hi; intros [= <- <-]; (split_and!; [done|done|]).
      * left. split; [done|]. by exists k, m.
      * right. auto.
Qed.

(** Behind a complete submission everything is complete, up to a failed one. *)
Lemma link_complete w i c d :
  work_ok w → rtc (link w i) c d → complete w c = true →
  complete w d = true ∨ ∃ a, (i, a) ∈ work w ∧ failed w a ∧ rtc (dep w) a d.
Proof.
  intros HW Hr. induction Hr as [|a b e [Hab Hin] Hbe IH]; [by left|]. intros Ha. destruct (succeeded w a) eqn:Es.
  - apply IH, succeeded_complete. by apply (wo_closed _ HW a).
  - right. exists a. split_and!; [done..|]. eapply rtc_l; [exact Hab|by eapply link_dep].
Qed.
Lemma drained_accounted w i s c :
  work_ok w → slots w !! i = Some s → drained w s = true → (i, c) ∈ work w →
  complete w c = true ∨ ∃ a, (i, a) ∈ work w ∧ failed w a ∧ rtc (dep w) a c.
Proof.
  intros HW Hi Hd Hin. destruct (wo_work _ HW i c Hin) as [?|[(s' & c' & Hs' & Hc' & Hr)|?]]; [by left| |by right].
  assert (s' = s) as -> by congruence. unfold drained in Hd. rewrite Hc' in Hd. by eapply link_complete.
Qed.

Lemma acquired_inv w l i s :
  Inv w → leases w !! l = None → slots w !! i = Some s → leased s = false → drained w s = true →
  Inv (set_leases (<[l := mkLease i 1 Reserved]> (leases w)) (set_slots (<[i := mkState true None]> (slots w)) w)).
Proof.
  intros ([L1 L2 L3 L4] & HW & [K1 K2]) Hl Hi Hs Hd. pose proof HW as [W1 W2 W3 W4 W5].
  assert (i < length (slots w))%nat as Hlt by (by eapply lookup_lt_Some).
  assert (∀ l' x, leases w !! l' = Some x → index x ≠ i) as Hne.
  { intros l' x Hx He. destruct (L1 _ _ Hx) as (_ & s' & Hs' & ? & _). congruence. }
  split_and!; split; cbn [slots leases wakers signals work waiting after set_leases set_slots].
  - intros l' x. rewrite lookup_insert_Some. intros [[<- <-]|[_ Hx]].
    + cbn. split; [lia|]. exists (mkState true None). split_and!; [by apply list_lookup_insert_eq|done..].
    + destruct (L1 _ _ Hx) as (? & s' & ? & ?). split; [done|]. exists s'.
      rewrite list_lookup_insert_ne by (apply not_eq_sym; by eapply Hne). done.
  - intros j s' Hj Hs'. destruct (decide (j = i)) as [->|Hji].
    + exists l, (mkLease i 1 Reserved). by rewrite lookup_insert_eq.
    + rewrite list_lookup_insert_ne in Hj by done. destruct (L2 j s' Hj Hs') as (l' & x & Hx & <-). exists l', x.
      rewrite lookup_insert_ne by congruence. done.
  - intros l1 l2 x1 x2. rewrite !lookup_insert_Some. intros [[<- <-]|[? H1]] [[<- <-]|[? H2]] He; cbn in He;
      [done|by apply Hne in H2|by apply Hne in H1|by eapply L3].
  - intros Hnil. apply (f_equal length) in Hnil. rewrite length_insert in Hnil. cbn in Hnil. lia.
  - intros j c Hin. destruct (decide (j = i)) as [->|Hji].
    + destruct (drained_accounted w i s c HW Hi Hd Hin) as [?|?]; [by left|by right; right].
    + eapply accounted_mono; [..|exact (W1 j c Hin)]; try done. cbn. rewrite list_lookup_insert_ne by done. eauto.
  - done.
  - intros j s' c [[_ [<- _]]|[_ Hj]]%list_lookup_insert_Some; [done|by eapply W3].
  - done.
  - done.
  - intros k [[Hk (j & s' & Hj & Hs')]|(j & s' & c & g & H1 & H2 & H3 & H4 & H5 & H6)]%K1.
    + left. split; [done|]. exists i, (mkState true None). split; [by apply list_lookup_insert_eq|done].
    + right. exists j, s', c, g. assert (j ≠ i) as Hji.
      { intros ->. assert (s' = s) as -> by congruence. unfold drained, complete in Hd. rewrite H3, H4 in Hd.
        unfold Completion.is_complete in Hd. congruence. }
      cbn. rewrite list_lookup_insert_ne by done. done.
  - done.
Qed.

Lemma acquire_inv lost l w : Inv w → leases w !! l = None → Inv (acquire_locked lost l w).1.
Proof.
  intros Hinv Hl. destruct (acquire_locked lost l w) as [w' r] eqn:Ha. cbn.
  apply acquire_locked_spec in Ha. destruct r as [i|e]; [|by destruct Ha as [-> _]].
  destruct Ha as (s & Hs & (H1 & H2 & _) & _ & ->). by eapply acquired_inv.
Qed.

(** ** Handles *)

Lemma lease_update_inv w l x h p :
  Inv w → leases w !! l = Some x → (0 < h)%nat → p = Detached ∨ p = phase x →
  Inv (set_leases (<[l := mkLease (index x) h p]> (leases w)) w).
Proof.
  intros ([L1 L2 L3 L4] & [W1 W2 W3 W4 W5] & [K1 K2]) Hl Hh Hp.
  split_and!; split; cbn [slots leases wakers signals work waiting after set_leases]; try done.
  - intros l' x'. rewrite lookup_insert_Some. intros [[<- <-]|[_ Hx]]; [|by apply (L1 l')].
    destruct (L1 _ _ Hl) as (_ & s & Hs & Hls & Hph). cbn. split; [done|]. exists s. split_and!; [done..|].
    destruct Hp as [->| ->]; done.
  - intros j s Hj Hs. destruct (L2 j s Hj Hs) as (l' & x' & Hx' & <-). destruct (decide (l' = l)) as [->|].
    + exists l, (mkLease (index x) h p). rewrite lookup_insert_eq. split; [done|]. cbn. congruence.
    + exists l', x'. by rewrite lookup_insert_ne.
  - intros l1 l2 x1 x2. rewrite !lookup_insert_Some. intros [[<- <-]|[? H1]] [[<- <-]|[? H2]] He; cbn in He.
    + done.
    + by eapply (L3 l l2 x x2).
    + by eapply (L3 l1 l x1 x).
    + by eapply L3.
Qed.

Lemma drop_handle_inv w l : Inv w → Inv (drop_handle l w).
Proof.
  intros Hinv. unfold drop_handle. destruct (leases w !! l) as [[i h p]|] eqn:Hl; [|done].
  assert (∀ n, h = S (S n) → Inv (set_leases (<[l := mkLease i (S n) p]> (leases w)) w)) as Hmany.
  { intros n ->. apply (lease_update_inv w l (mkLease i (S (S n)) p)); [done|done|lia|by right]. }
  destruct Hinv as ([L1 L2 L3 L4] & [W1 W2 W3 W4 W5] & [K1 K2]).
  assert (Inv (release_slot i (set_leases (delete l (leases w)) w))) as Hlast;
    [|destruct h as [|[|n]]; [done|done|by apply Hmany]].
  destruct (L1 _ _ Hl) as (_ & s & Hs & Hls & _). cbn in Hs.
  assert (∀ j s', j ≠ i → alter (λ s, mkState false (completion s)) i (slots w) !! j = Some s' ↔ slots w !! j = Some s') as Hother.
  { intros j s' Hj. by rewrite list_lookup_alter_ne by congruence. }
  assert (alter (λ s, mkState false (completion s)) i (slots w) !! i = Some (mkState false (completion s))) as Hsame.
  { by rewrite list_lookup_alter_eq, Hs. }
  unfold release_slot. split_and!; split; cbn [slots leases wakers signals work waiting after set_leases set_slots set_wakers wake set_waiting].
  - intros l' x [Hne Hx]%lookup_delete_Some. destruct (L1 _ _ Hx) as (? & s' & Hs' & ?). split; [done|]. exists s'.
    split; [|done]. apply Hother; [|done]. intros He. apply Hne. by eapply (L3 l l' (mkLease i h p) x).
  - intros j s' Hj Hs'. destruct (decide (j = i)) as [->|Hji]; [rewrite Hsame in Hj; by injection Hj as <-|].
    apply Hother in Hj; [|done]. destruct (L2 j s' Hj Hs') as (l' & x & Hx & <-). exists l', x.
    split; [|done]. rewrite lookup_delete_ne; [done|]. intros <-. rewrite Hl in Hx. by injection Hx as <-.
  - intros l1 l2 x1 x2 [_ H1]%lookup_delete_Some [_ H2]%lookup_delete_Some. by eapply L3.
  - intros Hnil. apply (f_equal length) in Hnil. rewrite length_alter in Hnil. by destruct (slots w).
  - intros j c Hin. eapply accounted_mono; [..|exact (W1 j c Hin)]; try done. intros s' c' Hj Hc'. cbn.
    destruct (decide (j = i)) as [->|Hji].
    + exists (mkState false (completion s)). split; [done|]. cbn. congruence.
    + exists s'. split; [by apply Hother|done].
  - done.
  - intros j s' c Hj Hc. destruct (decide (j = i)) as [->|Hji]; [|apply Hother in Hj; [by eapply W3|done]].
    rewrite Hsame in Hj. injection Hj as <-. by eapply W3.
  - done.
  - done.
  - intros k [Hk Hnot]%elem_of_difference. rewrite elem_of_list_to_set in Hnot.
    destruct (K1 k Hk) as [[? _]|(j & s' & c & g & H1 & H2 & H3 & H4 & H5 & H6)]; [done|].
    right. exists j, s', c, g. split_and!; try done. apply Hother; [|done]. intros ->. congruence.
  - done.
Qed.

Lemma set_phase_inv w l : Inv w → Inv (set_phase l Detached w).
Proof.
  intros Hinv. unfold set_phase. destruct (leases w !! l) as [x|] eqn:Hl.
  - assert (alter (λ x, mkLease (index x) (handles x) Detached) l (leases w)
      = <[l := mkLease (index x) (handles x) Detached]> (leases w)) as ->.
    { apply map_eq. intros l'. destruct (decide (l' = l)) as [->|].
      - by rewrite lookup_alter_eq, lookup_insert_eq, Hl.
      - by rewrite lookup_alter_ne, lookup_insert_ne. }
    apply lease_update_inv; [done|done| |by left]. by apply Hinv in Hl as [? _].
  - assert (alter (λ x, mkLease (index x) (handles x) Detached) l (leases w) = leases w) as ->.
    { apply map_eq. intros l'. destruct (decide (l' = l)) as [->|]; [by rewrite lookup_alter_eq, Hl|by rewrite lookup_alter_ne]. }
    by destruct w.
Qed.

(** ** Submissions *)

Definition with_signal (c : nat) (deps : list nat) (w : World) : World :=
  mkWorld (slots w) (wakers w) (<[c := Completion.reset 0 Completion.new_signal]> (signals w)) (leases w)
    (<[c := deps]> (after w)) (work w) (waiting w).
Definition with_work (i c : nat) (w : World) : World :=
  mkWorld (slots w) (wakers w) (signals w) (leases w) (after w) (work w ++ [(i, c)]) (waiting w).

Lemma with_signal_inv w c deps : Inv w → new_completion w c → known w deps → Inv (with_signal c deps w).
Proof.
  intros ([L1 L2 L3 L4] & [W1 W2 W3 W4 W5] & [K1 K2]) [Hc Ha] Hdeps.
  assert (∀ d, is_Some (signals w !! d) → d ≠ c) as Hne by (intros d [g Hg] ->; congruence).
  assert (∀ d, is_Some (signals w !! d) → is_Some (signals (with_signal c deps w) !! d)) as Hk.
  { intros d Hd. cbn. rewrite lookup_insert_ne; [done|]. apply not_eq_sym. by apply Hne. }
  assert (∀ d, complete (with_signal c deps w) d = complete w d ∧ succeeded (with_signal c deps w) d = succeeded w d) as Hcomp.
  { intros d. unfold complete, succeeded. cbn.
    destruct (decide (d = c)) as [->|]; [by rewrite lookup_insert_eq, Hc|by rewrite lookup_insert_ne]. }
  split_and!; [by split| |]; split; cbn [slots leases wakers work waiting with_signal].
  - intros i d Hin. eapply accounted_mono; [..|exact (W1 i d Hin)]; [| | |done|eauto].
    + intros x. by rewrite (proj1 (Hcomp x)).
    + intros x. unfold failed. by rewrite (proj1 (Hcomp x)), (proj2 (Hcomp x)).
    + intros x ds Hx. cbn. rewrite lookup_insert_ne; [done|]. intros <-. congruence.
  - intros a d. rewrite (proj2 (Hcomp a)), (proj2 (Hcomp d)). intros Hca (ds & Hds & Hd). cbn in Hds. apply lookup_insert_Some in Hds as [[<- <-]|[_ Hds]].
    + unfold succeeded in Hca. by rewrite Hc in Hca.
    + apply (W2 a); [done|]. by exists ds.
  - intros j s d H1 H2. apply Hk. by eapply W3.
  - intros d ds. cbn. rewrite lookup_insert_Some. intros [[<- <-]|[_ Hds]].
    + rewrite lookup_insert_eq. split; [done|]. eapply Forall_impl; [done|]. exact Hk.
    + destruct (W4 d ds Hds) as [H1 H2]. split; [by apply Hk|]. eapply Forall_impl; [done|]. exact Hk.
  - intros j d Hd. apply Hk. by eapply W5.
  - intros k [?|(j & s & d & g & H1 & H2 & H3 & H4 & H5 & H6)]%K1; [by left|]. right. exists j, s, d, g. cbn.
    rewrite lookup_insert_ne; [done|]. apply not_eq_sym, Hne. by exists g.
  - intros d g. cbn. rewrite lookup_insert_Some. intros [[_ <-]|[_ Hg]]; [cbn; constructor|by eapply K2].
Qed.

(** The owner of a lease stores a completion that follows the one before. *)
Lemma own_inv w l x c h :
  Inv w → leases w !! l = Some x → is_Some (signals w !! c) → (0 < h)%nat →
  (∀ s c0, slots w !! index x = Some s → completion s = Some c0 → dep w c c0) →
  Inv (set_leases (<[l := mkLease (index x) h (Submitted c)]> (leases w)) (set_completion (index x) c (with_work (index x) c w))).
Proof.
  intros ([L1 L2 L3 L4] & [W1 W2 W3 W4 W5] & [K1 K2]) Hl Hc Hh Hfol.
  destruct (L1 _ _ Hl) as (_ & s & Hs & Hls & _).
  set (sl := alter (λ s, mkState (leased s) (Some c)) (index x) (slots w)).
  assert (∀ j s', j ≠ index x → sl !! j = Some s' ↔ slots w !! j = Some s') as Hother.
  { intros j s' Hj. unfold sl. by rewrite list_lookup_alter_ne by congruence. }
  assert (sl !! index x = Some (mkState true (Some c))) as Hsame.
  { unfold sl. by rewrite list_lookup_alter_eq, Hs, <-Hls. }
  split_and!; split; cbn [slots leases wakers signals work waiting after set_leases set_completion set_slots with_work]; fold sl.
  - intros l' x'. rewrite lookup_insert_Some. intros [[<- <-]|[Hne Hx]].
    + cbn. split; [done|]. by exists (mkState true (Some c)).
    + destruct (L1 _ _ Hx) as (? & s' & Hs' & ?). split; [done|]. exists s'. split; [|done]. apply Hother; [|done].
      intros He. apply Hne. by eapply L3.
  - intros j s' Hj Hs'. destruct (decide (j = index x)) as [->|Hji].
    + exists l, (mkLease (index x) h (Submitted c)). by rewrite lookup_insert_eq.
    + apply Hother in Hj; [|done]. destruct (L2 j s' Hj Hs') as (l' & x' & Hx' & <-). exists l', x'.
      split; [|done]. rewrite lookup_insert_ne; [done|]. intros <-. congruence.
  - intros l1 l2 x1 x2. rewrite !lookup_insert_Some. intros [[<- <-]|[? H1]] [[<- <-]|[? H2]] He; cbn in He.
    + done.
    + by eapply (L3 l l2 x x2).
    + by eapply (L3 l1 l x1 x).
    + by eapply L3.
  - intros Hnil. apply (f_equal length) in Hnil. unfold sl in Hnil. rewrite length_alter in Hnil. by destruct (slots w).
  - intros j d [Hin|[= -> ->]%list_elem_of_singleton]%elem_of_app.
    + assert (∀ y, y ∈ work w → y ∈ work w ++ [(index x, c)]) as Hwk by (intros; apply elem_of_app; by left).
      destruct (decide (j = index x)) as [->|Hji].
      * destruct (W1 _ d Hin) as [?|[(s' & c' & Hj & Hc' & Hr)|(a & Ha & Hf & Hr)]]; [by left| |right; right; exists a; auto].
        right; left. exists (mkState true (Some c)), c. split; [exact Hsame|]. split; [done|].
        eapply rtc_l; [|eapply link_mono; [..|exact Hr]; [done|exact Hwk]].
        split; [by eapply Hfol|]. apply elem_of_app. right. by apply list_elem_of_singleton.
      * eapply accounted_mono; [..|exact (W1 j d Hin)]; try done. cbn. intros s' c' Hj Hc'. exists s'.
        split; [by apply Hother|done].
    + right; left. by exists (mkState true (Some c)), c.
  - done.
  - intros j s' d Hj Hd. destruct (decide (j = index x)) as [->|Hji].
    + rewrite Hsame in Hj. injection Hj as <-. by injection Hd as <-.
    + apply Hother in Hj; [|done]. by eapply W3.
  - done.
  - intros j d [Hin|[= -> ->]%list_elem_of_singleton]%elem_of_app; [by eapply W5|done].
  - intros k [[Hk _]|(j & s' & d & g & H1 & H2 & H3 & H4 & H5 & H6)]%K1.
    + left. split; [done|]. by exists (index x), (mkState true (Some c)).
    + right. exists j, s', d, g. split_and!; try done. apply Hother; [|done]. intros ->. congruence.
  - done.
Qed.

Lemma submit_work_inv w l x c deps h :
  Inv w → leases w !! l = Some x → new_completion w c → known w deps → (0 < h)%nat →
  (∀ s c0, slots w !! index x = Some s → completion s = Some c0 → c0 ∈ deps) →
  Inv (set_leases (<[l := mkLease (index x) h (Submitted c)]> (leases w))
         (set_completion (index x) c (submit_work (index x) c deps w))).
Proof.
  intros Hinv Hl Hc Hd Hh Hfol.
  apply (own_inv (with_signal c deps w) l x c h); [by apply with_signal_inv|done| |done|].
  - cbn. by rewrite lookup_insert_eq.
  - intros s c0 Hs Hc0. exists deps. cbn. rewrite lookup_insert_eq. split; [done|]. by eapply Hfol.
Qed.

Lemma set_phase_overwrite w l i h p q :
  leases w !! l = Some (mkLease i h q) →
  set_phase l Detached (set_leases (<[l := mkLease i h p]> (leases w)) w) = set_phase l Detached w.
Proof.
  intros Hl. unfold set_phase, set_leases. cbn. f_equal. apply map_eq. intros l'.
  destruct (decide (l' = l)) as [->|]; [by rewrite !lookup_alter_eq, lookup_insert_eq, Hl|].
  by rewrite !lookup_alter_ne, lookup_insert_ne.
Qed.

Lemma drop_handles_inv w l n : Inv w → Inv (drop_handles l n w).
Proof. intros H. unfold drop_handles. induction n; cbn; [done|by apply drop_handle_inv]. Qed.

Lemma submit_inv w l n checked producers copy c :
  Inv w → known w producers →
  (∀ d, copy = Some (Ok d) → new_completion w d) → (∀ d, c = Ok d → new_completion w d) →
  (∀ d, copy = Some (Ok d) → c ≠ Ok d) → Inv (submit l n checked producers copy c w).1.
Proof.
  intros Hinv Hp Hcopy Hc Hne. unfold submit. destruct (leases w !! l) as [[i h [| |]]|] eqn:Hl; try done.
  destruct (proj1 Hinv) as [L1 _ _ _]. destruct (L1 _ _ Hl) as (Hh & s & Hs & _ & Hnone). cbn in Hh, Hs, Hnone.
  assert (Inv (drop_handle l (set_phase l Detached w))) as Hfail by (by apply drop_handle_inv, set_phase_inv).
  destruct checked; [|done]. destruct copy as [[first|e]|]; [|done|].
  - destruct (Hcopy _ eq_refl) as [Hf1 Hf2].
    set (w1 := set_completion i first (submit_work i first producers w)).
    assert (Inv (set_leases (<[l := mkLease i h (Submitted first)]> (leases w1)) w1)) as H1.
    { apply (submit_work_inv w l (mkLease i h Reserved)); try done. intros s' c0 Hs' Hc0. cbn in Hs'. congruence. }
    unfold execute. destruct c as [c|e]; cbn [fst].
    + destruct (Hc _ eq_refl) as [Hc1 Hc2]. assert (c ≠ first) as Hcf by (intros ->; by apply (Hne first)).
      pose proof (submit_work_inv _ l (mkLease i h (Submitted first)) c [first] (S n) H1) as H2.
      cbn [index leases set_leases] in H2. rewrite insert_insert_eq in H2. apply H2; clear H2.
      * by rewrite lookup_insert_eq.
      * split; cbn; by rewrite lookup_insert_ne.
      * constructor; [|constructor]. cbn. by rewrite lookup_insert_eq.
      * lia.
      * intros s' c0 Hs' Hc0. cbn in Hs'. rewrite list_lookup_alter_eq, Hs in Hs'. cbn in Hs'. injection Hs' as <-.
        cbn in Hc0. injection Hc0 as <-. by left.
    + apply drop_handle_inv. rewrite <-(set_phase_overwrite w1 l i h (Submitted first) Reserved) by done. by apply set_phase_inv.
  - unfold execute. destruct c as [c|e]; cbn [fst]; [|done].
    apply (submit_work_inv w l (mkLease i h Reserved)); [done|done|by apply Hc|done|lia|].
    intros s' c0 Hs' Hc0. cbn in Hs'. congruence.
Qed.

Lemma download_inv w l n transfer copy :
  Inv w → (∀ d, copy = Some (Ok d) → new_completion w d) → Inv (download l n transfer copy w).1.
Proof.
  intros Hinv Hcopy. unfold download. destruct (leases w !! l) as [[i h [|c|]]|] eqn:Hl; try done.
  destruct (proj1 Hinv) as [L1 _ _ _]. destruct (L1 _ _ Hl) as (Hh & s & Hs & _ & Hcs). cbn in Hh, Hs, Hcs.
  assert (Inv (drop_handles l (S n) (set_phase l Detached w))) as Hfail by (by apply drop_handles_inv, set_phase_inv).
  destruct transfer; [|done]. destruct copy as [[d|e]|]; [|done|]; cbn [fst]; apply drop_handles_inv.
  - set (w1 := set_completion i d (submit_work i d [c] w)).
    rewrite <-(set_phase_overwrite w1 l i h (Submitted d) (Submitted c)) by done. apply set_phase_inv.
    apply (submit_work_inv w l (mkLease i h (Submitted c))); [done|done|by apply Hcopy| |done|].
    + constructor; [|constructor]. by apply (wo_known _ (proj1 (proj2 Hinv)) i s).
    + intros s' c0 Hs' Hc0. cbn in Hs'. replace c0 with c by congruence. by left.
  - apply set_phase_inv. assert (set_completion i c w = w) as ->; [|done].
    unfold set_completion. replace (alter _ i (slots w)) with (slots w); [by destruct w|].
    apply list_eq. intros j. destruct (decide (j = i)) as [->|]; [|by rewrite list_lookup_alter_ne].
    rewrite list_lookup_alter_eq, Hs. cbn. rewrite <-Hcs. by destruct s.
Qed.

(** ** Waiting *)

Lemma all_publishable_ext now w w' cs :
  signals w' = signals w → after w' = after w → all_publishable now w cs → all_publishable now w' cs.
Proof.
  revert w w'. induction cs as [|c cs IH]; intros w w' Hs Ha; [done|]. intros [Hp Hall]. split.
  - unfold publishable, complete, succeeded, cancelling in *. by rewrite Hs, Ha.
  - eapply IH; [..|exact Hall]; unfold publish; rewrite Hs; destruct (signals w !! c.1); cbn; congruence.
Qed.

Lemma fewer_waiting_inv w ks : Inv w → ks ⊆ waiting w → Inv (set_waiting ks w).
Proof. intros (HL & HW & [K1 K2]) Hks. split_and!; [by destruct HL|by destruct HW|]. split; [|done]. cbn. intros k Hk. by apply K1, Hks. Qed.

Lemma blocking_inv lost l now between w :
  Inv w → leases w !! l = None → all_publishable now w between → Inv (blocking_step lost l now between w).1.
Proof.
  intros Hinv Hl Hpub. unfold blocking_step. pose proof (acquire_inv lost l w Hinv Hl) as Ha.
  destruct (acquire_locked lost l w) as [w' [i|e]] eqn:E; [done|]. apply acquire_locked_spec in E as [-> _].
  destruct (is_busy e); [|done]. cbn [negb]. pose proof (publish_all_inv _ _ _ Hpub Hinv). by destruct (omap _ _).
Qed.

(** Polling only adds the waker to completions. *)
Record polled (w w' : World) : Prop := {
  po_slots : slots w' = slots w; po_wakers : wakers w' = wakers w; po_leases : leases w' = leases w;
  po_after : after w' = after w; po_work : work w' = work w; po_waiting : waiting w' = waiting w;
  po_signals : ∀ c, match signals w !! c, signals w' !! c with
    | Some g, Some g' => Completion.done_flag g' = Completion.done_flag g ∧
        Completion.result g' = Completion.result g ∧ (∀ v, v ∈ Completion.registered g → v ∈ Completion.registered g')
    | None, None => True
    | _, _ => False end }.

Lemma polled_refl w : polled w w.
Proof. split; try done. intros c. by destruct (signals w !! c). Qed.
Lemma polled_trans w1 w2 w3 : polled w1 w2 → polled w2 w3 → polled w1 w3.
Proof.
  intros [A1 A2 A3 A4 A5 A6 A7] [B1 B2 B3 B4 B5 B6 B7]. split; try congruence. intros c. specialize (A7 c). specialize (B7 c).
  destruct (signals w1 !! c), (signals w2 !! c), (signals w3 !! c); try done. destruct A7 as (? & ? & ?), B7 as (? & ? & ?). split_and!; [congruence..|auto].
Qed.

Lemma polled_inv w w' :
  polled w w' → (∀ c g, signals w' !! c = Some g → NoDup (Completion.registered g)) → Inv w → Inv w'.
Proof.
  intros [A1 A2 A3 A4 A5 A6 A7] Hnd ([L1 L2 L3 L4] & [W1 W2 W3 W4 W5] & [K1 K2]).
  assert (∀ c, complete w' c = complete w c ∧ succeeded w' c = succeeded w c) as Hc.
  { intros c. unfold complete, succeeded, Completion.is_complete. specialize (A7 c).
    destruct (signals w !! c), (signals w' !! c); try done. destruct A7 as (? & -> & _). done. }
  assert (∀ c, is_Some (signals w !! c) → is_Some (signals w' !! c)) as Hk.
  { intros c [g Hg]. specialize (A7 c). rewrite Hg in A7. by destruct (signals w' !! c). }
  split_and!; split; rewrite ?A1, ?A2, ?A3, ?A4, ?A5, ?A6; try done.
  - intros i c Hin. eapply accounted_mono; [..|exact (W1 i c Hin)]; rewrite ?A1, ?A4, ?A5; [| |done|done|eauto].
    + intros d. by rewrite (proj1 (Hc d)).
    + intros d. unfold failed. by rewrite (proj1 (Hc d)), (proj2 (Hc d)).
  - intros c d. rewrite (proj2 (Hc c)), (proj2 (Hc d)). intros H (ds & Hds & Hd). rewrite A4 in Hds. eapply W2; [done|by exists ds].
  - intros i s c H1 H2. apply Hk. by eapply W3.
  - intros c ds H. destruct (W4 _ _ H). split; [by apply Hk|]. eapply Forall_impl; [done|]. exact Hk.
  - intros i c H. apply Hk. by eapply W5.
  - intros k [[? ?]|(i & s & c & g & H1 & H2 & H3 & H4 & H5 & H6)]%K1; [left; by rewrite A1, A2|right].
    specialize (A7 c). rewrite H4 in A7. destruct (signals w' !! c) as [g'|] eqn:Hg'; [|done]. destruct A7 as (Hdone & _ & Hreg).
    exists i, s, c, g'. rewrite A1. split_and!; try done; [congruence|auto].
Qed.

Lemma poll_completion_spec k c w w' r :
  Inv w → poll_completion k c w = (w', r) →
  Inv w' ∧ polled w w' ∧
  (r = false → ∃ g, signals w' !! c = Some g ∧ Completion.done_flag g = false ∧ k ∈ Completion.registered g).
Proof.
  intros Hinv. unfold poll_completion. destruct (signals w !! c) as [g|] eqn:Hg.
  2:{ intros [= <- <-]. split_and!; [done|apply polled_refl|done]. }
  destruct (Completion.poll k g) as [g' o] eqn:Hp. intros [= <- <-].
  pose proof (wk_signals _ (proj2 (proj2 Hinv)) c g Hg) as Hnd.
  assert (Completion.result g' = Completion.result g) as H0.
  { unfold Completion.poll in Hp. destruct (Completion.done_flag g) eqn:Hd; [by injection Hp as <- _|].
    case_bool_decide; [by injection Hp as <- _|]. unfold Completion.result.
    destruct (Completion.fill_first _ _); injection Hp as <- _; cbn; by rewrite Hd. }
  assert (Completion.done_flag g' = Completion.done_flag g ∧ NoDup (Completion.registered g') ∧
    (∀ v, v ∈ Completion.registered g → v ∈ Completion.registered g') ∧
    (o = None → Completion.done_flag g' = false ∧ k ∈ Completion.registered g')) as (H1 & H2 & H3 & H4).
  { destruct o as [r|].
    - unfold Completion.poll in Hp. destruct (Completion.done_flag g) eqn:Hd; [injection Hp as <- _; by rewrite Hd|].
      case_bool_decide; [done|]. by destruct (Completion.fill_first _ _).
    - destruct (Completion.poll_registers _ _ _ Hp Hnd) as (Hn & Hin & Hd & Hiff). split_and!; [|done|set_solver|done].
      unfold Completion.poll in Hp. destruct (Completion.done_flag g); [done|congruence]. }
  assert (polled w (set_signals (<[c := g']> (signals w)) w)) as Hpol.
  { split; try done. intros d. cbn. destruct (decide (d = c)) as [->|]; [by rewrite Hg, lookup_insert_eq|].
    rewrite lookup_insert_ne by done. by destruct (signals w !! d). }
  split_and!; [|done|].
  - eapply polled_inv; [done| |done]. cbn. intros d x. rewrite lookup_insert_Some. intros [[_ <-]|[_ Hx]]; [done|].
    by eapply (wk_signals _ (proj2 (proj2 Hinv))).
  - intros Hr. exists g'. cbn. rewrite lookup_insert_eq. split; [done|]. apply H4. by destruct o.
Qed.

Lemma poll_slots_spec k l w b w' r :
  Inv w → foldl (poll_slot k) (w, b) l = (w', r) →
  Inv w' ∧ polled w w' ∧
  (r = false → b = false ∧ ∀ s c, s ∈ l → leased s = false → completion s = Some c →
     ∃ g, signals w' !! c = Some g ∧ Completion.done_flag g = false ∧ k ∈ Completion.registered g).
Proof.
  revert w b. induction l as [|s l IH]; intros w b Hinv; cbn [foldl].
  { intros [= <- <-]. split_and!; [done|apply polled_refl|]. intros ->. split; [done|]. by intros s c ?%elem_of_nil. }
  destruct (poll_slot k (w, b) s) as [w1 b1] eqn:Hs.
  assert (Inv w1 ∧ polled w w1 ∧ (b1 = false → b = false ∧ ∀ c, leased s = false → completion s = Some c →
     ∃ g, signals w1 !! c = Some g ∧ Completion.done_flag g = false ∧ k ∈ Completion.registered g)) as (Hi1 & Hp1 & Hb1).
  { unfold poll_slot in Hs. destruct (leased s); [injection Hs as <- <-; split_and!; [done|apply polled_refl|done]|].
    destruct (completion s) as [c|]; [|injection Hs as <- <-; split_and!; [done|apply polled_refl|done]].
    destruct (poll_completion k c w) as [w2 r2] eqn:Hpc. injection Hs as <- <-.
    destruct (poll_completion_spec _ _ _ _ _ Hinv Hpc) as (Hi2 & Hp2 & Hr2). split_and!; [done..|].
    intros [-> Hf]%orb_false_iff. split; [done|]. intros c' _ [= <-]. by apply Hr2. }
  intros Hf. destruct (IH _ _ Hi1 Hf) as (Hi & Hp & Hr). split_and!; [done|by eapply polled_trans|].
  intros ->. destruct (Hr eq_refl) as [-> Hl]. destruct (Hb1 eq_refl) as [-> Hs1]. split; [done|].
  intros s' c [->|Hin]%elem_of_cons Hls Hc; [|by eapply Hl]. destruct (Hs1 c Hls Hc) as (g & Hg & Hd & Hk).
  pose proof (po_signals _ _ Hp c) as Hpc. rewrite Hg in Hpc. destruct (signals w' !! c) as [g'|]; [|done].
  exists g'. destruct Hpc as (Hd' & _ & Hk'). split_and!; [done|congruence|auto].
Qed.

Lemma is_idle_false w :
  is_idle w = false ↔ ∃ s, s ∈ slots w ∧ (leased s = true ∨ drained w s = false).
Proof.
  unfold is_idle. induction (slots w) as [|s l IH]; cbn; [split; [done|by intros (s & ?%elem_of_nil & _)]|].
  rewrite andb_false_iff, IH. split.
  - intros [H|(s' & Hin & Hs)]; [exists s; split; [by left|]|exists s'; split; [by right|done]].
    destruct (leased s); [by left|right]. by destruct (drained w s).
  - intros (s' & [->|Hin]%elem_of_cons & Hs); [left|right; by exists s'].
    destruct Hs as [->| ->]; [done|by rewrite andb_false_r].
Qed.

Lemma more_wakers_inv w k :
  Inv w → Inv (if bool_decide (k ∈ wakers w) then w else set_wakers (wakers w ++ [k]) w).
Proof.
  intros Hinv. case_bool_decide; [done|]. destruct Hinv as (HL & HW & [K1 K2]).
  split_and!; [by destruct HL|by destruct HW|]. split; [|done]. cbn.
  intros k' [[? ?]|?]%K1; [left; cbn; split; [set_solver|done]|by right].
Qed.

Lemma poll_inv lost l k now between w :
  Inv w → leases w !! l = None → all_publishable now w between → Inv (poll_acquire lost l k now between w).1.
Proof.
  intros Hinv Hl Hpub. unfold poll_acquire. set (w0 := set_waiting (waiting w ∖ {[k]}) w).
  assert (Inv w0) as H0 by (apply fewer_waiting_inv; [done|set_solver]).
  pose proof (acquire_inv lost l w0 H0 Hl) as Ha.
  destruct (acquire_locked lost l w0) as [w' [i|e]] eqn:E; [done|]. apply acquire_locked_spec in E as (-> & _ & Herr).
  destruct (is_busy e) eqn:Hb; [|done]. cbn [negb].
  assert (is_idle w0 = false) as Hidle.
  { destruct Herr as [(_ & j & m & _ & ->)|(_ & [Hn|?])]; [done| |done]. by apply (lo_slots _ (proj1 H0)) in Hn. }
  assert (Inv (publish_all now between w0)) as H1.
  { apply publish_all_inv; [|done]. by eapply all_publishable_ext; [..|exact Hpub]. }
  pose proof (publish_all_fields now between w0) as (Hs & _ & _). rewrite Hs.
  destruct (foldl (poll_slot k) (publish_all now between w0, false) (slots w0)) as [w2 ready] eqn:Hf.
  destruct (poll_slots_spec _ _ _ _ _ _ H1 Hf) as (H2 & Hp & Hr). cbn [fst].
  set (w3 := if bool_decide (k ∈ wakers w2) then w2 else set_wakers (wakers w2 ++ [k]) w2).
  assert (Inv w3) as H3 by apply (more_wakers_inv w2 k H2). destruct ready; [done|].
  destruct (Hr eq_refl) as [_ Hall]. clear Hr.
  assert (slots w3 = slots w0 ∧ signals w3 = signals w2 ∧ k ∈ wakers w3) as (Es & Eg & Ek).
  { subst w3. rewrite <-Hs, <-(po_slots _ _ Hp). case_bool_decide; [done|]. cbn. split_and!; [done|done|set_solver]. }
  assert (due w3 k) as Hdue.
  { apply is_idle_false in Hidle as (s & Hin & Hnot). apply list_elem_of_lookup_1 in Hin as Hi'. destruct Hi' as [i Hi].
    destruct (leased s) eqn:Hls; [left; split; [done|]; exists i, s; by rewrite Es|]. right.
    destruct Hnot as [?|Hnot]; [done|]. unfold drained in Hnot. destruct (completion s) as [c|] eqn:Hc; [|done].
    destruct (Hall s c Hin Hls Hc) as (g & Hg & Hd & Hk). exists i, s, c, g. rewrite Es, Eg. done. }
  destruct H3 as (HL & HW & [K1 K2]). split_and!; [by destruct HL|by destruct HW|]. split; [|done]. cbn.
  intros k' [->%elem_of_singleton|Hk']%elem_of_union; [done|by apply K1].
Qed.

Lemma cancel_inv c w : Inv w → Inv (request_cancel c w).
Proof.
  intros Hinv. eapply polled_inv; [| |exact Hinv].
  - split; try done. intros d. cbn. destruct (decide (d = c)) as [->|].
    + rewrite lookup_alter_eq. by destruct (signals w !! c).
    + rewrite lookup_alter_ne by done. by destruct (signals w !! d).
  - intros d g Hg. cbn in Hg. destruct (decide (d = c)) as [->|].
    + rewrite lookup_alter_eq in Hg. apply fmap_Some in Hg as (g' & Hg' & ->).
      by apply (wk_signals _ (proj2 (proj2 Hinv)) c g').
    + rewrite lookup_alter_ne in Hg by done. by apply (wk_signals _ (proj2 (proj2 Hinv)) d g).
Qed.

Lemma inference_step_inv w w' : step w w' → Inv w → Inv w'.
Proof.
  intros Hs Hinv. destruct Hs.
  - by apply acquire_inv.
  - by apply blocking_inv.
  - by apply poll_inv.
  - by apply submit_inv.
  - by apply download_inv.
  - apply lease_update_inv; [done|done|lia|by right].
  - by apply drop_handle_inv.
  - by apply drop_handle_inv, set_phase_inv.
  - by apply with_signal_inv.
  - by apply cancel_inv.
  - by apply publish_inv.
Qed.

Lemma inference_reachable_inv w : reachable w → Inv w.
Proof.
  intros (w0 & (n & Hn & ->) & Hs). assert (Inv (mkWorld (replicate n (mkState false None)) [] ∅ ∅ ∅ [] ∅)) as H0.
  { split_and!; split; cbn [slots leases wakers signals work waiting after]; try done.
    - intros i s [-> _]%lookup_replicate_1. done.
    - destruct n; [lia|done].
    - by intros i c ?%elem_of_nil.
    - intros i s c [-> _]%lookup_replicate_1. done.
    - by intros i c ?%elem_of_nil. }
  revert H0. induction Hs as [|w1 w2 w3 Hs _ IH]; [done|]. intros H. by eapply IH, inference_step_inv.
Qed.

(** ** Claims *)

(** C34. Inference slots are leased to one client at a time, and handed out again
    only when drained, but for what a failed or cancelled submission waited
    for: in every reachable pool two live leases never name the same slot and
    every live lease's slot is marked; and when a slot is acquired it had no
    live lease, its graph is usable, and every submission ever made for it,
    uploads, executions and readbacks of earlier clients included, has
    completed, except for submissions that precede, through dependencies, a
    submission of the slot that failed or was cancelled: the scheduler
    completes such a submission at once, while its predecessors may still run.
    In particular a slot none of whose submissions failed is drained. *)
Theorem slots_are_exclusive_and_drained w lost l w' i :
  reachable w → leases w !! l = None → acquire_locked lost l w = (w', Ok i) →
  (∀ k k' x x', leases w' !! k = Some x → leases w' !! k' = Some x' → k ≠ k' → index x ≠ index x') ∧
  (∀ k x, leases w !! k = Some x → index x ≠ i) ∧ lost i = None ∧
  (∀ c, (i, c) ∈ work w → complete w c = true ∨ ∃ a, (i, a) ∈ work w ∧ failed w a ∧ rtc (dep w) a c) ∧
  (∀ k x, leases w' !! k = Some x → ∃ s, slots w' !! index x = Some s ∧ leased s = true).
Proof.
  intros Hr%inference_reachable_inv Hl Ha. pose proof (acquire_inv lost l w Hr Hl) as Hinv'. rewrite Ha in Hinv'.
  apply acquire_locked_spec in Ha as (s & Hs & (H1 & H2 & H3) & _ & Hw'). destruct Hr as ([L1 L2 L3 L4] & HW & _).
  split_and!; [| |done| |].
  - intros k k' x x' Hx Hx' Hne He. apply Hne. by eapply (lo_unique _ (proj1 Hinv')).
  - intros k x Hx He. destruct (L1 _ _ Hx) as (_ & s' & Hs' & ? & _). congruence.
  - intros c Hc. by eapply drained_accounted.
  - intros k x Hx. destruct (lo_lease _ (proj1 Hinv') _ _ Hx) as (_ & s' & ? & ? & _). by exists s'.
Qed.

(** No asynchronous client is forgotten: in every reachable pool a client whose
    last poll returned [Pending] and who was not woken since is either
    registered with the pool while some slot is leased, so that the end of
    that lease wakes it, or registered with an incomplete completion of a free
    slot, whose publication wakes it.  Hence nobody waits for an idle pool. *)
Theorem pending_clients_are_woken w k :
  reachable w → k ∈ waiting w →
  is_idle w = false ∧
  ((∀ l x, leases w !! l = Some x → handles x = 1%nat → k ∉ waiting (drop_handle l w)) ∧ (∃ l, is_Some (leases w !! l)) ∨
   (∃ c, complete w c = false ∧ ∀ now f, k ∉ waiting (publish now f c w))).
Proof.
  intros Hr%inference_reachable_inv Hk. destruct Hr as ([L1 L2 L3 L4] & _ & [K1 _]).
  assert (∀ i s, slots w !! i = Some s → leased s = true ∨ drained w s = false → is_idle w = false) as Hbusy.
  { intros i s Hi Hs. apply is_idle_false. exists s. split; [by eapply list_elem_of_lookup_2|done]. }
  destruct (K1 k Hk) as [(Hin & i & s & Hi & Hs)|(i & s & c & g & Hi & Hs & Hc & Hg & Hd & Hreg)].
  - split; [eauto|]. left. split.
    + intros l [j h p] Hl Hh. cbn in Hh. subst h. unfold drop_handle. rewrite Hl. cbn.
      rewrite elem_of_difference, elem_of_list_to_set. tauto.
    + destruct (L2 _ _ Hi Hs) as (l & x & Hx & _). exists l. by exists x.
  - split.
    + eapply Hbusy; [done|]. right. unfold drained, complete. by rewrite Hc, Hg.
    + right. exists c. split; [unfold complete; by rewrite Hg|]. intros now f. unfold publish. rewrite Hg. cbn.
      rewrite elem_of_difference, elem_of_list_to_set. tauto.
Qed.

(** Acquiring is exact: the slot acquired is the first that is free, drained
    and usable; an error means that there is none, and leaves the pool as it
    was: the lost device of a slot is reported only when every slot is free
    and drained, otherwise the pool is busy. *)
Theorem acquire_is_exact w lost l w' r :
  reachable w → acquire_locked lost l w = (w', r) →
  match r with
  | Ok i => ∃ s, slots w !! i = Some s ∧ available lost w i s ∧
      ∀ j s', (j < i)%nat → slots w !! j = Some s' → ¬ available lost w j s'
  | Err e => w' = w ∧ (∀ j s, slots w !! j = Some s → ¬ available lost w j s) ∧
      if is_idle w then ∃ j m, lost j = Some m ∧ e = DeviceLost m else e = no_slot
  end.
Proof.
  intros Hr%inference_reachable_inv Ha. apply acquire_locked_spec in Ha. destruct r as [i|e].
  - destruct Ha as (s & Hs & Hav & Hmin & _). by exists s.
  - destruct Ha as (-> & Hno & He). split_and!; [done..|].
    destruct He as [(-> & j & m & Hm & ->)|(-> & [Hn|Hi])]; [by exists j, m| |by rewrite Hi].
    by apply (lo_slots _ (proj1 Hr)) in Hn.
Qed.

Lemma pending_of_Some w s c : pending_of w s = Some c → completion s = Some c ∧ leased s = false ∧ complete w c = false.
Proof.
  unfold pending_of. destruct (leased s); [done|]. destruct (completion s) as [c'|]; [|done]. cbn.
  destruct (complete w c') eqn:E; [done|]. by intros [= <-].
Qed.

(** A blocking acquirer that nothing races with waits for something: for a
    completion that is not yet published, or for the end of a live lease. *)
Theorem blocking_waits_are_due w lost l now w' b :
  reachable w → blocking_step lost l now [] w = (w', b) →
  match b with
  | WaitFor c => complete w' c = false
  | WaitChanged => ∃ k, is_Some (leases w' !! k)
  | Acquired i => ∃ s, slots w !! i = Some s ∧ available lost w i s
  | Failed e => is_idle w = true ∧ ∃ m, e = DeviceLost m
  end.
Proof.
  intros Hr%inference_reachable_inv. unfold blocking_step. destruct (acquire_locked lost l w) as [w1 [i|e]] eqn:Ha;
    apply acquire_locked_spec in Ha.
  - intros [= <- <-]. destruct Ha as (s & Hs & Hav & _). by exists s.
  - destruct Ha as (-> & _ & He). destruct He as [(Hi & j & m & Hm & ->)|(-> & Hi)]; cbn [is_busy negb no_slot].
    + intros [= <- <-]. split; [done|by exists m].
    + cbn [publish_all foldl]. assert (is_idle w = false) as Hb.
      { destruct Hi as [Hn|?]; [by apply (lo_slots _ (proj1 Hr)) in Hn|done]. }
      destruct (omap (pending_of w) (slots w)) as [|c rest] eqn:Ho; intros [= <- <-].
      * apply is_idle_false in Hb as (s & Hin & Hs). destruct Hs as [Hs|Hs].
        { apply list_elem_of_lookup_1 in Hin as [j Hj]. destruct (lo_leased _ (proj1 Hr) _ _ Hj Hs) as (k & x & Hx & _).
          exists k. by exists x. }
        destruct (leased s) eqn:Hls.
        { apply list_elem_of_lookup_1 in Hin as [j Hj]. destruct (lo_leased _ (proj1 Hr) _ _ Hj Hls) as (k & x & Hx & _).
          exists k. by exists x. }
        exfalso. unfold drained in Hs. destruct (completion s) as [c|] eqn:Hc; [|done].
        assert (c ∈ omap (pending_of w) (slots w)) as Hcin.
        { apply list_elem_of_omap. exists s. split; [done|]. unfold pending_of. by rewrite Hls, Hc; cbn; rewrite Hs. }
        rewrite Ho in Hcin. by apply elem_of_nil in Hcin.
      * assert (c ∈ omap (pending_of w) (slots w)) as Hcin by (rewrite Ho; by left).
        apply list_elem_of_omap in Hcin as (s & _ & (_ & _ & ?)%pending_of_Some). done.
Qed.

(** ** Prepared slots *)

Lemma check_io_Ok runtime wait sl ts u :
  check_io runtime wait sl ts = Ok u →
  Forall (λ t, t_runtime t = runtime ∧ wait (producer t) = Ok tt) ts ∧
  ∀ v v', v ∈ omap binding ts → v' ∈ sl ≫= slot_views → View.overlaps v v' = false.
Proof.
  induction ts as [|t ts IH]; [split; [done|by intros v v' ?%elem_of_nil]|]. cbn [check_io].
  unfold validate. case_bool; [|done]. cbn [result_bind]. destruct (wait (producer t)) as [[]|] eqn:Hw; [|done]. cbn [result_bind].
  destruct (binding t) as [v|] eqn:Hb.
  - destruct (existsb (View.overlaps v) _) eqn:Hx; [done|]. intros [Hf Hno]%IH. split; [by constructor|].
    intros v0 v'. cbn. rewrite Hb. intros [->|Hin]%elem_of_cons Hv'; [|by apply Hno]. by apply (existsb_false_elem _ _ _ Hx).
  - intros [Hf Hno]%IH. split; [by constructor|]. cbn. by rewrite Hb.
Qed.

(** What [prepare] establishes of the slots built so far. *)
Record prepared (runtime : nat) (wait : nat → Result unit) (sl : list Slot) : Prop := {
  pd_apart : ∀ i j s s' v v', (i < j)%nat → sl !! i = Some s → sl !! j = Some s' →
    v' ∈ slot_views s' → v ∈ slot_views s → View.overlaps v' v = false;
  pd_same : ∀ i s s0, sl !! i = Some s → sl !! 0%nat = Some s0 →
    descs (inputs s) = descs (inputs s0) ∧ descs (outputs s) = descs (outputs s0);
  pd_ready : ∀ i s t, sl !! i = Some s → t ∈ slot_io s → t_runtime t = runtime ∧ wait (producer t) = Ok tt;
  pd_graph : ∀ i s, sl !! i = Some s → graph_runtime s = runtime }.

Lemma check_slot_prepared runtime wait sl s u :
  prepared runtime wait sl → check_slot runtime wait sl s = Ok u → prepared runtime wait (sl ++ [s]).
Proof.
  intros [P1 P2 P3 P4]. unfold check_slot. case_bool; [|done]. cbn [result_bind].
  destruct (check_io runtime wait sl (slot_io s)) as [u'|] eqn:Hio; [|done]. cbn [result_bind].
  apply check_io_Ok in Hio as [Hf Hno]. rewrite Forall_forall in Hf. intros Hd.
  assert (∀ s0, head sl = Some s0 → descs (inputs s) = descs (inputs s0) ∧ descs (outputs s) = descs (outputs s0)) as Hdesc.
  { intros s0 Hs0. destruct sl as [|s1 sl]; [done|]. injection Hs0 as <-.
    destruct (negb _ || negb _) eqn:Hb; [done|]. apply orb_false_iff in Hb as [Hb1 Hb2].
    by apply negb_false_iff, bool_decide_eq_true in Hb1, Hb2. }
  split.
  - intros i j s1 s2 v v' Hij [Hi|[Hge Hi]]%lookup_app_Some [Hj|[Hge' Hj]]%lookup_app_Some Hv' Hv.
    + by eapply (P1 i j).
    + apply list_lookup_singleton_Some in Hj as [_ <-]. apply Hno; [done|]. apply list_elem_of_bind.
      exists s1. split; [done|]. by eapply list_elem_of_lookup_2.
    + apply lookup_lt_Some in Hj. lia.
    + apply list_lookup_singleton_Some in Hi as [Hz _]. apply list_lookup_singleton_Some in Hj as [Hz' _]. lia.
  - intros i s1 s0 Hi H0. destruct sl as [|s2 sl]; cbn in H0.
    + injection H0 as <-. apply list_lookup_singleton_Some in Hi as [_ <-]. done.
    + injection H0 as <-. apply lookup_app_Some in Hi as [Hi|[_ Hi]]; [by eapply (P2 i)|].
      apply list_lookup_singleton_Some in Hi as [_ <-]. by apply Hdesc.
  - intros i s1 t [Hi|[_ Hi]]%lookup_app_Some Ht; [by eapply (P3 i)|].
    apply list_lookup_singleton_Some in Hi as [_ <-]. by apply Hf.
  - intros i s1 [Hi|[_ Hi]]%lookup_app_Some; [by eapply (P4 i)|].
    apply list_lookup_singleton_Some in Hi as [_ <-]. done.
Qed.

(** Prepared slots do not share storage: a prepared model has as many slots as
    asked for, at least one; inputs and outputs of different slots never
    overlap, all slots have the descriptors of the first, and every binding
    belongs to the context and was produced successfully. *)
Theorem prepared_slots_are_disjoint runtime wait builds sl :
  prepare runtime wait builds = Ok sl →
  (0 < length sl)%nat ∧ length sl = length builds ∧ prepared runtime wait sl.
Proof.
  unfold prepare. case_bool; [done|].
  assert (∀ bs sl0, prepared runtime wait sl0 → prepare_slots runtime wait bs sl0 = Ok sl →
    length sl = (length sl0 + length bs)%nat ∧ prepared runtime wait sl) as Hloop.
  { induction bs as [|b bs IH]; intros sl0 H0; cbn [prepare_slots]; [intros [= <-]; split; [cbn; lia|done]|].
    destruct b as [s|]; [|done]. cbn [result_bind]. destruct (check_slot runtime wait sl0 s) as [u|] eqn:Hc; [|done].
    cbn [result_bind]. intros H. destruct (IH (sl0 ++ [s])) as [Hl Hp]; [by eapply check_slot_prepared|done|].
    rewrite length_app in Hl. cbn in *. split; [lia|done]. }
  intros H. destruct (Hloop builds []) as [Hl Hp]; [by split|done|]. cbn in Hl. split_and!; [lia|lia|done].
Qed.

(** ** Concrete runs *)

Definition demo_usable (i : nat) : option string := None.
Definition demo_pool (n : nat) : World := mkWorld (replicate n (mkState false None)) [] ∅ ∅ ∅ [] ∅.
Definition demo_reserved : World := (acquire_locked demo_usable 0 (demo_pool 1)).1.
Definition demo_running : World := (submit 0 0 (Ok tt) [] None (Ok 5%nat) demo_reserved).1.
Definition demo_dropped : World := drop_handle 0 (set_phase 0 Detached demo_running).

Lemma reachable_next w w' : reachable w → step w w' → reachable w'.
Proof. intros (w0 & H0 & Hs) Hstep. exists w0. split; [done|]. by eapply rtc_r. Qed.
Lemma demo_dropped_reachable : reachable demo_reserved ∧ reachable demo_dropped.
Proof.
  assert (reachable demo_reserved) as H1.
  { exists (demo_pool 1). split; [exists 1%nat; split; [lia|done]|]. apply rtc_once. by apply S_acquire. }
  split; [done|]. eapply reachable_next; [eapply reachable_next; [exact H1|]|apply S_discard].
  apply S_submit; [constructor|done| |done]. intros d [= <-]. by split.
Qed.

(** C39. A blocking acquirer can miss its wake-up.  [acquire_locked] finds the only
    slot free but not drained; its completion is published before the
    acquirer looks for one to wait for, so it finds none and waits for the end
    of a lease.  There is no lease, the pool is idle, and the slot could be
    acquired: nothing will notify the acquirer. *)
Theorem blocking_acquire_can_miss_its_wakeup :
  ∃ w w', reachable w ∧ all_publishable 0 w [(5%nat, None)] ∧
    blocking_step demo_usable 1 0 [(5%nat, None)] w = (w', WaitChanged) ∧
    leases w' = ∅ ∧ is_idle w' = true ∧ (acquire_locked demo_usable 1 w').2 = Ok 0%nat.
Proof.
  exists demo_dropped, (publish 0 None 5 demo_dropped). split_and!.
  - apply demo_dropped_reachable.
  - split; [|done]. split; [vm_compute; reflexivity|left]. vm_compute. constructor.
  - vm_compute. reflexivity.
  - vm_compute. reflexivity.
  - vm_compute. reflexivity.
  - vm_compute. reflexivity.
Qed.

Lemma slots_are_exclusive_and_drained_witness :
  complete (publish 0 None 5 demo_dropped) 5 = true.
Proof.
  destruct (slots_are_exclusive_and_drained (publish 0 None 5 demo_dropped) demo_usable 1
    (acquire_locked demo_usable 1 (publish 0 None 5 demo_dropped)).1 0) as (_ & _ & _ & H & _).
  - eapply reachable_next; [apply demo_dropped_reachable|]. apply S_publish. split; [vm_compute; reflexivity|left; vm_compute; constructor].
  - vm_compute. reflexivity.
  - vm_compute. reflexivity.
  - destruct (H 5%nat) as [?|(a & Ha & [_ Hf] & _)]; [vm_compute; by left|done|]. exfalso. vm_compute in Ha.
    apply list_elem_of_singleton in Ha as [= ->]. vm_compute in Hf. discriminate.
Defined.

Definition demo_uploading : World := (submit 0 0 (Ok tt) [] (Some (Ok 6%nat)) (Ok 5%nat) demo_reserved).1.
Definition demo_cancelled : World :=
  drop_handle 0 (set_phase 0 Detached (publish 0 None 5 (request_cancel 5 demo_uploading))).
(** After a cancellation a slot can be handed out before it is drained: the
    execution of an inference is cancelled while its upload runs, the scheduler
    completes the execution at once, the client drops the inference, and the
    pool is idle and hands the slot to the next client although the upload
    into its inputs has not completed. *)
Theorem cancelled_slots_are_not_drained :
  ∃ w, reachable w ∧ is_idle w = true ∧ (acquire_locked demo_usable 1 w).2 = Ok 0%nat ∧
    (0%nat, 6%nat) ∈ work w ∧ complete w 6 = false.
Proof.
  exists demo_cancelled. split_and!; try (vm_compute; reflexivity).
  - repeat (eapply reachable_next; [|first [apply S_discard|apply S_publish|apply S_cancel|apply S_submit]]);
      [exact (proj1 demo_dropped_reachable)|constructor|..].
    + intros d [= <-]. by split.
    + intros d [= <-]. by split.
    + by intros d [= <-].
    + split; [vm_compute; reflexivity|]. right; right. vm_compute. reflexivity.
  - vm_compute. by left.
Qed.

Definition demo_polled : World := (poll_acquire demo_usable 1 9 0 [] demo_reserved).1.
Lemma pending_clients_are_woken_witness : is_idle demo_polled = false.
Proof.
  apply (pending_clients_are_woken demo_polled 9).
  - eapply reachable_next; [exact (proj1 demo_dropped_reachable)|]. by apply S_poll.
  - vm_compute. reflexivity.
Defined.

Lemma acquire_is_exact_witness : (acquire_locked demo_usable 1 demo_reserved).2 = Err no_slot.
Proof.
  pose proof (acquire_is_exact demo_reserved demo_usable 1 demo_reserved (Err no_slot) (proj1 demo_dropped_reachable) ltac:(vm_compute; reflexivity))
    as (_ & _ & _). vm_compute. reflexivity.
Defined.

Lemma blocking_waits_are_due_witness : ∃ k, is_Some (leases demo_reserved !! k).
Proof.
  apply (blocking_waits_are_due demo_reserved demo_usable 1 0 demo_reserved WaitChanged (proj1 demo_dropped_reachable)).
  vm_compute. reflexivity.
Defined.

Definition demo_slot (base : Z) : Slot := mkSlot [demo_tensor base 1 0] [demo_tensor (base + 1) 2 0] 0.
Lemma prepared_slots_are_disjoint_witness :
  prepare 0 (λ _, Ok tt) [Ok (demo_slot 10); Ok (demo_slot 20)] = Ok [demo_slot 10; demo_slot 20] ∧
  prepared 0 (λ _, Ok tt) [demo_slot 10; demo_slot 20].
Proof.
  split; [vm_compute; reflexivity|].
  apply (prepared_slots_are_disjoint 0 (λ _, Ok tt) [Ok (demo_slot 10); Ok (demo_slot 20)]). vm_compute. reflexivity.
Defined.
End InferenceTheorems.
