(* ===== verification/Dispatch.v ===== *)
(** * Kernel arguments

    The path of a kernel's arguments from the caller to the native argument
    block: [Constants] and [Scalar] of src/src/runtime.rs pack scalars little
    endian, [Kernel::from_native] derives the export's counts from the native
    layout, [prepare_dispatch] and [prepare_aql] walk that layout to turn
    constants and bindings into native arguments, and [Kernel::arguments] of
    src/src/fabric/executable.rs writes these at the offsets the executable
    declares.  The native image query and the native address query are foreign
    code.  The theorem follows every byte: no step panics, and each pushed
    scalar and each binding arrives, in declaration order, where the executable
    reads it. *)

From S2P Require Import Prelude Access RawGraph.
Local Open Scope Z_scope.

Module Dispatch.

(** ** Scalars and constants *)

(** The implementations of [Scalar]; a float is its bit pattern. *)
Inductive Scalar : Type :=
| U32 (v : Z) | I32 (v : Z) | F32 (bits : Z) | U64 (v : Z) | I64 (v : Z) | F64 (bits : Z).
Definition scalar_bytes (s : Scalar) : list Z :=
  match s with
  | U32 v | I32 v | F32 v => le_bytes 4 v
  | U64 v | I64 v | F64 v => le_bytes 8 v
  end.

(** [Constants]: 256 bytes of storage and the packed length. *)
Record Constants : Type := mkConstants { c_bytes : list Z; c_len : Z }.
Definition constants_new : Constants := mkConstants (replicate 256 0) 0.

(** [Constants::push]. *)
Definition push (c : Constants) (v : Scalar) : Result Constants :=
  let b := scalar_bytes v in
  let? _ := checked_span (c_len c) (Z.of_nat (length b)) (Z.of_nat (length (c_bytes c))) in
  Ok (mkConstants (list_inserts (Z.to_nat (c_len c)) b (c_bytes c)) (c_len c + Z.of_nat (length b))).

(** Pushing several scalars, as callers do with [?] after every push. *)
Fixpoint push_all (c : Constants) (vs : list Scalar) : Result Constants :=
  match vs with
  | [] => Ok c
  | v :: rest => let? c := push c v in push_all c rest
  end.

(** [Constants::from_bytes], [Constants::as_bytes]. *)
Definition from_bytes (b : list Z) : Result Constants :=
  let result := constants_new in
  let? _ := checked_span 0 (Z.of_nat (length b)) (Z.of_nat (length (c_bytes result))) in
  Ok (mkConstants (list_inserts 0 b (c_bytes result)) (Z.of_nat (length b))).
Definition as_bytes (c : Constants) : list Z := take (Z.to_nat (c_len c)) (c_bytes c).

(** ** Kernels *)

(** [ExportInfo]. *)
Record ExportInfo : Type := mkInfo {
  constant_byte_length : Z; binding_count : Z; parameter_count : Z; workgroup_size : list Z
}.

(** [Constants::indices], from the kernel's [constant_byte_length]. *)
Definition indices (info : ExportInfo) (values : list Z) : Result Constants :=
  let size := constant_byte_length info in
  let n := Z.of_nat (length values) in
  match values with
  | [] => if size =? 0 then Ok constants_new else Err (Message "missing index constants")
  | _ =>
      if size =? n * 4 then push_all constants_new (U32 <$> values)
      else if size =? n * 8 then push_all constants_new (U64 <$> values)
      else Err (Message "export is not a homogeneous 32/64-bit index list")
  end.

(** [fabric::Buffer]: the [Memory] it shares by identity, with the devices
    that can address it and the buffer it imports, and its own offset and
    length. *)
Inductive NativeBuffer : Type :=
  mkNative (memory : Z) (devices : list nat) (source : option NativeBuffer) (view_offset view_len : Z).
Definition native_len (b : NativeBuffer) : Z := let '(mkNative _ _ _ _ n) := b in n.

(** [hrx_fabric_gpu_argument]. *)
Record ArgumentInfo : Type := mkArgInfo { arg_kind : Z; arg_offset : Z; arg_size : Z }.

(** [Argument]. *)
Inductive Argument : Type :=
| ABuffer (b : NativeBuffer) (offset : Z)
| AValue (bytes : list Z)
| AAddress (address : Z).

(** [fabric::Kernel]: the parts of [KernelInner] argument handling reads. *)
Record NativeKernel : Type := mkNativeKernel {
  nk_device : nat;
  nk_code : NativeBuffer;
  nk_sanitizer : option NativeBuffer;
  nk_address_state : option NativeBuffer;
  nk_race_state : option (NativeBuffer * NativeBuffer);
  nk_argument_count : Z;
  nk_kernarg_bytes : Z;
  nk_workgroup_size : list Z
}.

(** [Kernel]. *)
Record Kernel : Type := mkKernel { native : NativeKernel; info : ExportInfo; layout : list (Z * Z) }.

(** [Buffer] and [View] of src/src/runtime.rs. *)
Record Buffer : Type := mkBuffer { b_native : NativeBuffer; b_device : nat }.
Record View : Type := mkView { owner : Buffer; v_offset : Z; v_length : Z }.

Section Native.
(** [hrx_fabric_gpu_argument_info] of an image and [memory_query_address]. *)
Variable argument_info : Z → Result ArgumentInfo.
Variable memory_query_address : Z → nat → Result Z.

(** [Buffer::device_address]. *)
Fixpoint device_address (b : NativeBuffer) (device : nat) : Result Z :=
  let '(mkNative memory devices source view_offset _) := b in
  let add := λ address, ok_or (checked_add address view_offset) (Message "buffer view address overflow") in
  match list_find (eq device) devices with
  | Some (index, _) => let? address := memory_query_address memory index in add address
  | None =>
      match source with
      | None => Err (Message "device has no access to this buffer")
      | Some s => let? address := device_address s device in add address
      end
  end.

(** [Kernel::argument_layout]: [collect] stops at the first error. *)
Fixpoint layout_from (index : Z) (count : nat) : Result (list (Z * Z)) :=
  match count with
  | O => Ok []
  | S count =>
      let? a := argument_info index in
      let? rest := layout_from (index + 1) count in
      Ok ((arg_kind a, arg_size a) :: rest)
  end.
Definition argument_layout (k : NativeKernel) : Result (list (Z * Z)) :=
  layout_from 0 (Z.to_nat (nk_argument_count k)).

(** [Kernel::from_native]: the counts are [u32]; [binding_count += 1] stays
    below the number of arguments, which is one. *)
Fixpoint count_layout (l : list (Z * Z)) (i : ExportInfo) : Result ExportInfo :=
  match l with
  | [] => Ok i
  | (kind, size) :: rest =>
      if kind =? 1 then
        let n := constant_byte_length i + size mod 2 ^ 32 in
        if n <=? Raw.u32_max then count_layout rest (mkInfo n (binding_count i) (parameter_count i) (workgroup_size i))
        else Err (Message "constant layout overflow")
      else if kind =? 2 then
        count_layout rest (mkInfo (constant_byte_length i) (binding_count i + 1) (parameter_count i) (workgroup_size i))
      else Err (Unsupported "native argument kind is unsupported")
  end.
Definition from_native (k : NativeKernel) : Result Kernel :=
  let? l := argument_layout k in
  let? i := count_layout l (mkInfo 0 0 (Z.of_nat (length l)) (nk_workgroup_size k)) in
  Ok (mkKernel k i l).

(** The layout walk of [prepare_dispatch] and [prepare_aql].  [None] is the
    panic of an index out of range. *)
Fixpoint walk (l : list (Z * Z)) (c : Constants) (bindings : list View) (scalar : Z) (binding : nat)
    : option (list Argument) :=
  match l with
  | [] => Some []
  | (kind, size) :: rest =>
      if kind =? 1 then
        if scalar + size <=? Z.of_nat (length (c_bytes c)) then
          args ← walk rest c bindings (scalar + size) binding;
          Some (AValue (take (Z.to_nat size) (drop (Z.to_nat scalar) (c_bytes c))) :: args)
        else None
      else
        view ← bindings !! binding;
        args ← walk rest c bindings scalar (S binding);
        Some (ABuffer (b_native (owner view)) (v_offset view) :: args)
  end.

Definition owns (device : nat) (b : Buffer) : Result unit :=
  if (device =? b_device b)%nat then Ok tt else Err (Message "buffer belongs to another device").
Fixpoint owns_all (device : nat) (views : list View) : Result unit :=
  match views with
  | [] => Ok tt
  | v :: rest => let? _ := owns device (owner v) in owns_all device rest
  end.

(** [Kernel::prepare_aql] up to the call of [queue.prepare]: the arguments and
    block it passes on. *)
Definition prepare_aql (k : Kernel) (grid block : list Z) (c : Constants) (bindings : list View)
    : option (Result (list Argument * list Z)) :=
  match Raw.validate_export_launch (workgroup_size (info k)) grid block with
  | Err e => Some (Err e)
  | Ok _ =>
      if negb (c_len c =? constant_byte_length (info k))
         || negb (Z.of_nat (length bindings) =? binding_count (info k))
      then Some (Err (Message "kernel binding or constant byte count mismatch"))
      else
        args ← walk (layout k) c bindings 0 0%nat;
        Some (Ok (args, (λ v, v mod 2 ^ 16) <$> block))
  end.

(** [prepare_dispatch] up to the call of the queue's [prepare]; on an AQL
    stream it hands over to [prepare_aql]. *)
Definition prepare_dispatch (device : nat) (aql : bool) (k : Kernel) (grid block : list Z) (c : Constants)
    (bindings : list View) : option (Result (list Argument * list Z)) :=
  if negb (nk_device (native k) =? device)%nat
  then Some (Err (Message "kernel belongs to another device"))
  else
    match Raw.validate_export_launch (workgroup_size (info k)) grid block with
    | Err e => Some (Err e)
    | Ok _ =>
        if negb (c_len c =? constant_byte_length (info k))
           || negb (Z.of_nat (length bindings) =? binding_count (info k))
        then Some (Err (Message "kernel binding or constant byte count mismatch"))
        else
          match owns_all device bindings with
          | Err e => Some (Err e)
          | Ok _ =>
              if aql then prepare_aql k grid block c bindings
              else
                args ← walk (layout k) c bindings 0 0%nat;
                Some (Ok (args, (λ v, v mod 2 ^ 16) <$> block))
          end
    end.

(** [Kernel::arguments]: one argument written at its declared range. *)
Definition incompatible (index : Z) : Error :=
  Message ("native argument " +:+ pretty index +:+ " has an incompatible kind, offset or size").
Definition encode_argument (k : NativeKernel) (index : Z) (a : ArgumentInfo) (arg : Argument)
    : Result (list Z * list NativeBuffer) :=
  match arg with
  | AValue b =>
      if (arg_kind a =? 1) && (Z.of_nat (length b) =? arg_size a) then Ok (b, []) else Err (incompatible index)
  | ABuffer b o =>
      if (arg_kind a =? 2) && (arg_size a =? 8) && (o <? native_len b) then
        let? base := device_address b (nk_device k) in
        let? address := ok_or (checked_add base o) (Message "device argument address overflow") in
        Ok (le_bytes 8 address, [b])
      else Err (incompatible index)
  | AAddress address =>
      if (arg_kind a =? 2) && (arg_size a =? 8) then
        match nk_address_state k with
        | Some _ => Err (Unsupported "external addresses are absent from sanitizer bounds")
        | None => Ok (le_bytes 8 address, [])
        end
      else Err (incompatible index)
  end.
Definition write_argument (k : NativeKernel) (index : Z) (arg : Argument) (packed : list Z)
    (resources : list NativeBuffer) : Result (list Z * list NativeBuffer) :=
  let? a := argument_info index in
  let? stop := ok_or (match checked_add (arg_offset a) (arg_size a) with
                      | Some stop => if stop <=? Z.of_nat (length packed) then Some stop else None
                      | None => None end) (Message "native argument range overflow") in
  let? (b, retained) := encode_argument k index a arg in
  Ok (list_inserts (Z.to_nat (arg_offset a)) b packed, resources ++ retained).
Fixpoint write_arguments (k : NativeKernel) (index : Z) (args : list Argument) (packed : list Z)
    (resources : list NativeBuffer) : Result (list Z * list NativeBuffer) :=
  match args with
  | [] => Ok (packed, resources)
  | arg :: rest =>
      let? (packed, resources) := write_argument k index arg packed resources in
      write_arguments k (index + 1) rest packed resources
  end.
Definition initial_resources (k : NativeKernel) : list NativeBuffer :=
  [nk_code k] ++ option_list (nk_sanitizer k) ++ option_list (nk_address_state k)
  ++ match nk_race_state k with Some (shadow, queue_state) => [shadow; queue_state] | None => [] end.
Definition arguments (k : NativeKernel) (args : list Argument) : Result (list Z * list NativeBuffer) :=
  if negb (Z.of_nat (length args) =? nk_argument_count k)
  then Err (Message "native argument count mismatch")
  else write_arguments k 0 args (replicate (Z.to_nat (nk_kernarg_bytes k)) 0) (initial_resources k).
End Native.

(** ** Packing *)

Definition constants_ok (c : Constants) : Prop :=
  length (c_bytes c) = 256%nat ∧ 0 <= c_len c <= 256.

Lemma take_inserts {A} (l b : list A) i :
  (i + length b <= length l)%nat → take (i + length b) (list_inserts i b l) = take i l ++ b.
Proof.
  intros Hl. apply list_eq. intros j. destruct (decide (j < i + length b)%nat) as [Hj|Hj].
  - rewrite lookup_take_lt by lia. destruct (decide (j < i)%nat).
    + rewrite list_lookup_inserts_lt by lia. rewrite lookup_app_l by (rewrite length_take; lia).
      by rewrite lookup_take_lt.
    + rewrite list_lookup_inserts by lia. rewrite lookup_app_r by (rewrite length_take; lia).
      rewrite length_take. f_equal. lia.
  - rewrite !lookup_ge_None_2; [done|rewrite length_app, length_take; lia|rewrite length_take; lia].
Qed.

Lemma push_spec c v c' :
  constants_ok c → push c v = Ok c' → constants_ok c' ∧ as_bytes c' = as_bytes c ++ scalar_bytes v.
Proof.
  intros [Hb Hl] Hp. unfold push in Hp. inv_ok. destruct_unit. apply checked_span_Ok in E as [_ Hfit].
  unfold constants_ok, as_bytes. simpl. rewrite length_inserts, Hb. rewrite Hb in Hfit.
  split; [lia|]. replace (Z.to_nat (c_len c + Z.of_nat (length (scalar_bytes v))))
    with (Z.to_nat (c_len c) + length (scalar_bytes v))%nat by lia.
  apply take_inserts. lia.
Qed.

Lemma push_all_spec vs c c' :
  constants_ok c → push_all c vs = Ok c' →
  constants_ok c' ∧ as_bytes c' = as_bytes c ++ concat (scalar_bytes <$> vs).
Proof.
  revert c. induction vs as [|v vs IH]; intros c Hok Hp; simpl in *.
  - injection Hp as <-. by rewrite app_nil_r.
  - inv_ok. rename a into c1. destruct (push_spec _ _ _ Hok E) as [Hok1 E1].
    destruct (IH _ Hok1 Hp) as [? E2]. split; [done|]. by rewrite E2, E1, <-app_assoc.
Qed.

Lemma constants_new_ok : constants_ok constants_new.
Proof. by split. Qed.

(** A homogeneous index list is packed at the width the export declares. *)
Lemma indices_spec i values c :
  indices i values = Ok c →
  constants_ok c ∧ (as_bytes c = values ≫= le_bytes 4 ∧ constant_byte_length i = 4 * Z.of_nat (length values)
                    ∨ as_bytes c = values ≫= le_bytes 8 ∧ constant_byte_length i = 8 * Z.of_nat (length values)).
Proof.
  assert (Hb : ∀ f (n : nat) l, (∀ v, scalar_bytes (f v) = le_bytes n v) →
    concat (scalar_bytes <$> (f <$> l)) = l ≫= le_bytes n).
  { intros f n l Hf. induction l as [|v l IH]; [done|]. rewrite !fmap_cons. cbn [concat]. by rewrite Hf, IH. }
  unfold indices. cbv zeta. destruct values as [|v values]; [destruct (_ =? 0) eqn:E; [|done]|].
  { intros [= <-]. to_prop. split; [apply constants_new_ok|left]. split; [done|simpl; lia]. }
  destruct (_ =? _ * 4) eqn:E4; [|destruct (_ =? _ * 8) eqn:E8; [|done]]; intros Hp; to_prop;
    apply push_all_spec in Hp as [Hok Hc]; try apply constants_new_ok; (split; [done|]).
  - left. split; [|lia]. by rewrite Hc, (Hb U32 4%nat).
  - right. split; [|lia]. by rewrite Hc, (Hb U64 8%nat).
Qed.

Lemma from_bytes_spec b c : from_bytes b = Ok c → constants_ok c ∧ as_bytes c = b.
Proof.
  unfold from_bytes. intros Hp. inv_ok. destruct_unit. apply checked_span_Ok in E as [_ Hfit].
  assert (Hn : length (c_bytes constants_new) = 256%nat) by done. rewrite Hn in Hfit.
  unfold constants_ok, as_bytes. cbn [c_bytes c_len]. rewrite length_inserts, Nat2Z.id.
  split; [split; [exact Hn|lia]|]. apply (take_inserts (c_bytes constants_new) b 0). lia.
Qed.

(** ** Layouts *)

Definition scalar_sizes (l : list (Z * Z)) : Z := zsum (λ a, if a.1 =? 1 then a.2 else 0) l.
Definition buffer_args (l : list (Z * Z)) : nat := foldr (λ a n, if a.1 =? 1 then n else S n) 0%nat l.

Lemma count_layout_spec l i i' :
  Forall (λ a, 0 <= a.2 <= Raw.u32_max) l → count_layout l i = Ok i' →
  constant_byte_length i' = constant_byte_length i + scalar_sizes l
  ∧ binding_count i' = binding_count i + Z.of_nat (buffer_args l)
  ∧ workgroup_size i' = workgroup_size i.
Proof.
  revert i. induction l as [|[kind size] l IH]; intros i Hl Hc; simpl in *.
  { injection Hc as <-. unfold scalar_sizes, buffer_args. simpl. repeat split; lia. }
  apply Forall_cons in Hl as [Hs Hl]. simpl in Hs. unfold scalar_sizes, buffer_args in *. simpl.
  destruct (kind =? 1) eqn:E1.
  - to_prop. subst. destruct (_ <=? _) in Hc; [|done]. apply IH in Hc as (H1 & H2 & H3); [|done]. simpl in *.
    rewrite Z.mod_small in H1 by (unfold Raw.u32_max in Hs; lia).
    repeat split; [lia|lia|done].
  - destruct (kind =? 2) eqn:E2; [|done]. to_prop. apply IH in Hc as (H1 & H2 & H3); [|done]. simpl in *.
    repeat split; [lia|lia|done].
Qed.

Definition arg_values (args : list Argument) : list Z :=
  args ≫= λ a, match a with AValue b => b | _ => [] end.
Definition arg_buffers (args : list Argument) : list (NativeBuffer * Z) :=
  omap (λ a, match a with ABuffer b o => Some (b, o) | _ => None end) args.

Lemma arg_values_value b args : arg_values (AValue b :: args) = b ++ arg_values args.
Proof. reflexivity. Qed.
Lemma arg_buffers_buffer b o args : arg_buffers (ABuffer b o :: args) = (b, o) :: arg_buffers args.
Proof. reflexivity. Qed.

Lemma walk_spec l c bindings scalar binding :
  Forall (λ a, 0 <= a.2) l → 0 <= scalar →
  scalar + scalar_sizes l <= Z.of_nat (length (c_bytes c)) →
  (binding + buffer_args l = length bindings)%nat →
  ∃ args, walk l c bindings scalar binding = Some args
    ∧ arg_values args = take (Z.to_nat (scalar_sizes l)) (drop (Z.to_nat scalar) (c_bytes c))
    ∧ arg_buffers args = (λ v, (b_native (owner v), v_offset v)) <$> drop binding bindings.
Proof.
  revert scalar binding. induction l as [|[kind size] l IH]; intros scalar binding Hl H0 Hs Hb; simpl.
  { exists []. unfold scalar_sizes, buffer_args in *. simpl in *. split_and!; [done|done|].
    by rewrite drop_ge by lia. }
  apply Forall_cons in Hl as [Hsz Hl]. simpl in Hsz. unfold scalar_sizes, buffer_args in *. simpl in *.
  assert (Hpos : 0 <= zsum (λ a : Z * Z, if a.1 =? 1 then a.2 else 0) l).
  { apply zsum_nonneg. eapply Forall_impl; [exact Hl|]. intros [x y] ?. simpl in *. destruct (x =? 1); lia. }
  destruct (kind =? 1) eqn:E1; to_prop.
  - subst kind. rewrite (proj2 (Z.leb_le _ _)) by lia.
    destruct (IH (scalar + size) binding) as (args & -> & Hv & Hbs); [done|lia|lia|done|].
    eexists. split; [done|]. split; [|exact Hbs]. rewrite arg_values_value, Hv.
    rewrite Z2Nat.inj_add by lia. rewrite <-drop_drop, Z2Nat.inj_add by lia. apply take_take_drop.
  - destruct (lookup_lt_is_Some_2 bindings binding) as [v Hv]; [lia|]. rewrite Hv. simpl.
    destruct (IH scalar (S binding)) as (args & -> & Hvs & Hbs); [done|lia|lia|lia|].
    eexists. split; [done|]. split; [exact Hvs|]. rewrite arg_buffers_buffer, Hbs.
    by rewrite (drop_S _ _ _ Hv).
Qed.

(** ** The argument block *)

Definition slice (packed : list Z) (a : ArgumentInfo) : list Z :=
  take (Z.to_nat (arg_size a)) (drop (Z.to_nat (arg_offset a)) packed).
Definition apart (a b : ArgumentInfo) : Prop :=
  arg_offset a + arg_size a <= arg_offset b ∨ arg_offset b + arg_size b <= arg_offset a.

Lemma slice_inserts_same packed a b :
  0 <= arg_offset a → Z.of_nat (length b) = arg_size a →
  arg_offset a + arg_size a <= Z.of_nat (length packed) →
  slice (list_inserts (Z.to_nat (arg_offset a)) b packed) a = b.
Proof.
  intros H0 Hb Hl. unfold slice. rewrite <-Hb, Nat2Z.id. rewrite take_drop_commute, take_inserts by lia.
  rewrite drop_app_length' ; [done|rewrite length_take; lia].
Qed.

Lemma slice_inserts_apart packed a o b :
  0 <= arg_offset a → 0 <= o →
  (o + Z.of_nat (length b) <= arg_offset a ∨ arg_offset a + arg_size a <= o) →
  slice (list_inserts (Z.to_nat o) b packed) a = slice packed a.
Proof.
  intros H0 Ho Hap. unfold slice. apply list_eq. intros j.
  destruct (decide (j < Z.to_nat (arg_size a))%nat) as [Hj|Hj].
  - rewrite !lookup_take_lt, !lookup_drop by done.
    destruct Hap; [apply list_lookup_inserts_ge; lia|apply list_lookup_inserts_lt; lia].
  - rewrite !lookup_ge_None_2; [done|rewrite length_take; lia..].
Qed.

Section Delivery.
Context (argument_info : Z → Result ArgumentInfo) (memory_query_address : Z → nat → Result Z).
Notation encode_argument := (encode_argument memory_query_address).
Notation write_argument := (write_argument argument_info memory_query_address).
Notation write_arguments := (write_arguments argument_info memory_query_address).
Notation device_address := (device_address memory_query_address).

(** What the executable finds in the range of an argument. *)
Definition delivered (k : NativeKernel) (resources : list NativeBuffer) (found : list Z) (arg : Argument) : Prop :=
  match arg with
  | AValue b => found = b
  | ABuffer b o => ∃ base, device_address b (nk_device k) = Ok base ∧ o < native_len b
      ∧ base + o <= u64_max ∧ found = le_bytes 8 (base + o) ∧ b ∈ resources
  | AAddress address => found = le_bytes 8 address
  end.

(** The fields of an argument record are [u32]. *)
Context (fields : ∀ i a, argument_info i = Ok a → 0 <= arg_offset a ∧ 0 <= arg_size a <= Raw.u32_max).

Lemma encode_spec k i a arg b rs :
  encode_argument k i a arg = Ok (b, rs) →
  Z.of_nat (length b) = arg_size a ∧ ∀ resources, rs ⊆ resources → delivered k resources b arg.
Proof.
  unfold encode_argument, delivered. destruct arg as [nb o|v|x].
  - destruct (_ && _) eqn:E; [|done]. intros H. inv_ok. to_prop. rename a0 into base.
    destruct (checked_add base o) eqn:Ea; [|done]. injection E1 as <-. apply checked_add_Some in Ea as [-> Hle].
    split; [change (8 = arg_size a); lia|]. intros resources Hs. exists base.
    split_and!; [done|lia|done|done|]. apply Hs. by left.
  - destruct (_ && _) eqn:E; [|done]. intros [= <- <-]. to_prop. by split.
  - destruct (_ && _) eqn:E; [|done]. destruct (nk_address_state k); [done|]. intros [= <- <-]. to_prop.
    split; [change (8 = arg_size a); lia|done].
Qed.

Lemma write_argument_spec k i arg packed rs packed' rs' :
  write_argument k i arg packed rs = Ok (packed', rs') →
  ∃ a b new, argument_info i = Ok a ∧ packed' = list_inserts (Z.to_nat (arg_offset a)) b packed ∧ rs' = rs ++ new
    ∧ Z.of_nat (length b) = arg_size a ∧ arg_offset a + arg_size a <= Z.of_nat (length packed)
    ∧ ∀ resources, new ⊆ resources → delivered k resources b arg.
Proof.
  unfold write_argument. intros H. inv_ok. rename a into a, a0 into stop. destruct a1 as [b new].
  injection H as <- <-. destruct (encode_spec _ _ _ _ _ _ E1) as [Hlen Hd].
  destruct (checked_add _ _) as [n|] eqn:Ea; [|done]. apply checked_add_Some in Ea as [-> _].
  destruct (_ <=? _) eqn:El in E0; [|done]. to_prop. by exists a, b, new.
Qed.

Lemma delivered_mono k rs rs' found arg : rs ⊆ rs' → delivered k rs found arg → delivered k rs' found arg.
Proof. destruct arg; simpl; [|done..]. intros Hs (base & ?). exists base. naive_solver. Qed.

Lemma write_arguments_spec k i args packed rs packed' rs' :
  (∀ x y a b, argument_info x = Ok a → argument_info y = Ok b → i <= x < y → y < i + Z.of_nat (length args) → apart a b) →
  write_arguments k i args packed rs = Ok (packed', rs') →
  rs ⊆ rs'
  ∧ (∀ a, 0 <= arg_offset a →
       (∀ x b, argument_info x = Ok b → i <= x < i + Z.of_nat (length args) → apart a b) → slice packed' a = slice packed a)
  ∧ ∀ n arg, args !! n = Some arg →
      ∃ a, argument_info (i + Z.of_nat n) = Ok a ∧ delivered k rs' (slice packed' a) arg.
Proof.
  revert i packed rs. induction args as [|arg args IH]; intros i packed rs Hap Hw; simpl in Hw.
  { injection Hw as <- <-. split_and!; [done|done|]. intros n x. by rewrite lookup_nil. }
  inv_ok. destruct a as [p1 r1].
  destruct (write_argument_spec _ _ _ _ _ _ _ E) as (a & b & new & Ha & -> & -> & Hlen & Hfit & Hd).
  destruct (fields _ _ Ha) as [Ho Hsz]. simpl in *.
  destruct (IH (i + 1) _ _ ltac:(intros; eapply Hap; eauto; lia) Hw) as (Hrs & Hkeep & Hdel).
  split_and!.
  - intros x Hx. apply Hrs. apply elem_of_app. by left.
  - intros a' Ha' Hapart. rewrite Hkeep; [|done|intros; eapply Hapart; eauto; lia].
    apply slice_inserts_apart; [done|done|]. destruct (Hapart _ _ Ha ltac:(lia)); lia.
  - intros [|n] x Hn; simpl in Hn.
    + injection Hn as <-. exists a. split; [by rewrite Z.add_0_r|].
      rewrite Hkeep; [|done|].
      * rewrite slice_inserts_same by done. apply Hd. intros z Hz. apply Hrs, elem_of_app. by right.
      * intros y c Hc Hy. eapply (Hap i y); eauto; lia.
    + destruct (Hdel _ _ Hn) as (c & Hc & Hcd). exists c. split; [|done]. rewrite <-Hc. f_equal. lia.
Qed.

Lemma layout_from_sizes i n l : layout_from argument_info i n = Ok l → Forall (λ a, 0 <= a.2 <= Raw.u32_max) l.
Proof.
  revert i l. induction n as [|n IH]; intros i l Hl; simpl in Hl; [by injection Hl as <-|].
  inv_ok. constructor; [|eauto]. by apply (fields _ _ E).
Qed.

(** What [from_native] records about the layout. *)
Lemma from_native_spec nk k :
  from_native argument_info nk = Ok k →
  native k = nk ∧ Forall (λ a, 0 <= a.2 <= Raw.u32_max) (layout k)
  ∧ constant_byte_length (info k) = scalar_sizes (layout k)
  ∧ binding_count (info k) = Z.of_nat (buffer_args (layout k)).
Proof.
  unfold from_native. intros H. inv_ok. apply layout_from_sizes in E.
  destruct (count_layout_spec _ _ _ E E0) as (? & ? & _). simpl in *. split_and!; [done|done|lia|lia].
Qed.
End Delivery.

(** ** Launch dimensions *)

Lemma lanes_bound block n m :
  1 <= n → Forall (λ b, 1 <= b) block → Raw.lanes n block = Some m → n <= m ∧ Forall (λ b, b <= m) block.
Proof.
  revert n. induction block as [|b block IH]; intros n Hn Hb Hm; simpl in Hm.
  { injection Hm as <-. by split. }
  apply Forall_cons in Hb as [H1 Hb]. destruct (_ <=? _) in Hm; [|done].
  destruct (IH (n * b)) as [H2 H3]; [nia|done|done|]. split; [nia|]. constructor; [nia|done].
Qed.

Lemma launch_block_small wg grid block :
  Forall (λ b, 0 <= b) block → Raw.validate_export_launch wg grid block = Ok tt →
  (λ v, v mod 2 ^ 16) <$> block = block.
Proof.
  intros Hpos Hv. unfold Raw.validate_export_launch in Hv. inv_ok. clear Hv.
  unfold Raw.validate_launch in E. destruct (_ || _) eqn:Eg; [done|]. clear E. to_prop.
  destruct (Raw.lanes 1 block) as [m|] eqn:El; [|done]. to_prop.
  apply bool_decide_eq_false in H1. destruct (lanes_bound block 1 m) as [_ Hb]; [done| |done|].
  { apply Forall_forall. intros b Hin. assert (b ≠ 0) by (by intros ->). rewrite Forall_forall in Hpos.
    specialize (Hpos _ Hin). simpl in *. lia. }
  apply list_eq. intros j. rewrite list_lookup_fmap. destruct (block !! j) as [b|] eqn:Ej; [|done]. simpl. f_equal.
  rewrite Forall_lookup in Hb, Hpos. specialize (Hb _ _ Ej). specialize (Hpos _ _ Ej). simpl in *.
  apply Z.mod_small. lia.
Qed.

Lemma owns_all_Ok device views :
  owns_all device views = Ok tt ↔ Forall (λ v, b_device (owner v) = device) views.
Proof.
  induction views as [|v views IH]; simpl; [by split|]. rewrite Forall_cons, <-IH. unfold owns.
  destruct (device =? b_device (owner v))%nat eqn:E; simpl; to_prop; split; [by intros|by intros [_ ?]|done|].
  intros [? _]. congruence.
Qed.

(** The guards of [prepare_dispatch]. *)
Definition dispatch_allowed (device : nat) (k : Kernel) (grid block : list Z) (c : Constants) (bindings : list View) : Prop :=
  nk_device (native k) = device
  ∧ Raw.validate_export_launch (workgroup_size (info k)) grid block = Ok tt
  ∧ c_len c = constant_byte_length (info k)
  ∧ Z.of_nat (length bindings) = binding_count (info k)
  ∧ Forall (λ v, b_device (owner v) = device) bindings.

(** Both engines pass on the same walk of the layout, exactly when the guards
    hold. *)
Lemma prepare_dispatch_spec device aql k grid block c bindings :
  prepare_dispatch device aql k grid block c bindings =
    (args ← walk (layout k) c bindings 0 0%nat; Some (Ok (args, (λ v, v mod 2 ^ 16) <$> block)))
    ∧ dispatch_allowed device k grid block c bindings
  ∨ (∃ e, prepare_dispatch device aql k grid block c bindings = Some (Err e))
    ∧ ¬ dispatch_allowed device k grid block c bindings.
Proof.
  unfold prepare_dispatch, prepare_aql, dispatch_allowed.
  destruct (_ =? device)%nat eqn:Ed; simpl; to_prop; [|right; split; [by eexists|naive_solver]].
  destruct (Raw.validate_export_launch _ _ _) as [[]|e]; [|right; split; [by eexists|naive_solver]].
  destruct (c_len c =? _) eqn:Ec; simpl; to_prop; [|right; split; [by eexists|naive_solver]].
  destruct (Z.of_nat (length bindings) =? _) eqn:Eb; simpl; to_prop; [|right; split; [by eexists|naive_solver]].
  destruct (owns_all device bindings) as [[]|e] eqn:Eo.
  - left. apply owns_all_Ok in Eo. by destruct aql.
  - right. split; [by eexists|]. intros (_ & _ & _ & _ & Hf). apply owns_all_Ok in Hf. congruence.
Qed.

(** C35. Kernel arguments arrive where the executable reads them.  For a
    loaded kernel and constants built by pushing scalars, preparing a dispatch
    on either engine never indexes out of range and succeeds exactly when its
    guards hold.  Then the block is passed unchanged through the 16-bit cast,
    the scalar arguments spell out the pushed little-endian bytes and the
    buffer arguments are the bindings in order; and when the native argument
    block is written from them, under non-overlapping argument ranges, the
    range of every argument holds exactly its bytes: the scalar's, or the
    little-endian device address of the binding, whose buffer is retained. *)
Theorem dispatch_delivers_arguments argument_info query device aql nk k grid block vs c bindings :
  (∀ i a, argument_info i = Ok a → 0 <= arg_offset a ∧ 0 <= arg_size a <= Raw.u32_max) →
  Forall (λ b, 0 <= b) block →
  from_native argument_info nk = Ok k → push_all constants_new vs = Ok c →
  ∃ r, prepare_dispatch device aql k grid block c bindings = Some r
    ∧ (is_ok r = true ↔ dispatch_allowed device k grid block c bindings)
    ∧ ∀ args blk, r = Ok (args, blk) →
        blk = block
        ∧ arg_values args = concat (scalar_bytes <$> vs)
        ∧ arg_buffers args = (λ v, (b_native (owner v), v_offset v)) <$> bindings
        ∧ ∀ packed resources,
            (∀ x y a b, argument_info x = Ok a → argument_info y = Ok b → x < y → apart a b) →
            arguments argument_info query nk args = Ok (packed, resources) →
            ∀ n arg, args !! n = Some arg →
              ∃ a, argument_info (Z.of_nat n) = Ok a ∧ delivered query nk resources (slice packed a) arg.
Proof.
  intros Hf Hblk Hk Hc. destruct (from_native_spec _ Hf _ _ Hk) as (<- & Hsz & Hn & Hb).
  destruct (push_all_spec _ _ _ constants_new_ok Hc) as [[H256 Hlen] Hbytes].
  destruct (prepare_dispatch_spec device aql k grid block c bindings) as [[-> Hg]|[[e ->] Hg]].
  2: { exists (Err e). split; [done|]. split; [by split|done]. }
  destruct (Hg) as (Hdev & Hl & Hcl & Hbl & Hown).
  destruct (walk_spec (layout k) c bindings 0 0%nat) as (args & Hw & Hv & Hbs); [|lia|lia|lia|].
  { eapply Forall_impl; [exact Hsz|]. simpl. lia. }
  rewrite Hw. eexists. split; [done|]. split; [by split|]. intros args' blk [= <- <-].
  split; [by eapply launch_block_small|]. split; [|split; [exact Hbs|]].
  { rewrite Hv, <-Hn, <-Hcl, drop_0. exact Hbytes. }
  intros packed resources Hap Ha. unfold arguments in Ha. destruct (negb _) in Ha; [done|].
  apply (write_arguments_spec _ _ Hf) in Ha as (_ & _ & Hd); [exact Hd|]. intros. eapply Hap; eauto; lia.
Qed.

(** A kernel with one buffer and two scalars, laid out with alignment padding. *)
Definition demo_info (i : Z) : Result ArgumentInfo :=
  if i =? 0 then Ok (mkArgInfo 2 0 8) else if i =? 1 then Ok (mkArgInfo 1 8 4)
  else if i =? 2 then Ok (mkArgInfo 1 16 8) else Err (Message "no such argument").
Definition demo_buffer : NativeBuffer := mkNative 7 [0%nat] None 256 1024.
Definition demo_kernel : NativeKernel :=
  mkNativeKernel 0 (mkNative 1 [0%nat] None 0 4096) None None None 3 24 [64; 1; 1].
Definition demo_query (memory : Z) (index : nat) : Result Z := Ok (4096 * memory).
Definition demo_constants : Constants := mkConstants ([1; 2; 0; 0; 255; 255; 255; 255; 255; 255; 255; 255] ++ replicate 244 0) 12.
Definition demo_args : list Argument := [ABuffer demo_buffer 16; AValue [1; 2; 0; 0]; AValue (replicate 8 255)].
Lemma dispatch_delivers_arguments_witness :
  ∃ r, prepare_dispatch 0 false (mkKernel demo_kernel (mkInfo 12 1 3 [64; 1; 1]) [(2, 8); (1, 4); (1, 8)])
         [2; 1; 1] [64; 1; 1] demo_constants [mkView (mkBuffer demo_buffer 0) 16 32] = Some r
    ∧ r = Ok (demo_args, [64; 1; 1])
    ∧ arguments demo_info demo_query demo_kernel demo_args
        = Ok ([16; 113; 0; 0; 0; 0; 0; 0; 1; 2; 0; 0; 0; 0; 0; 0] ++ replicate 8 255,
              [mkNative 1 [0%nat] None 0 4096; demo_buffer])
    ∧ arg_values demo_args = concat (scalar_bytes <$> [U32 513; I64 (-1)]).
Proof.
  destruct (dispatch_delivers_arguments demo_info demo_query 0 false demo_kernel
    (mkKernel demo_kernel (mkInfo 12 1 3 [64; 1; 1]) [(2, 8); (1, 4); (1, 8)]) [2; 1; 1] [64; 1; 1]
    [U32 513; I64 (-1)] demo_constants [mkView (mkBuffer demo_buffer 0) 16 32]) as (r & Hr & _ & Hargs).
  - intros i a. unfold demo_info, Raw.u32_max. repeat case_bool; [intros [= <-]; simpl; lia..|done].
  - repeat constructor; lia.
  - vm_compute. reflexivity.
  - vm_compute. reflexivity.
  - exists r. assert (Hr' : r = Ok (demo_args, [64; 1; 1])).
    { vm_compute in Hr. injection Hr as <-. vm_compute. reflexivity. }
    split; [exact Hr|]. split; [exact Hr'|]. split; [vm_compute; reflexivity|].
    destruct (Hargs _ _ Hr') as (_ & Hv & _). exact Hv.
Defined.

End Dispatch.
