(* ===== verification/AccessGraph.v ===== *)
(** * Access-aware recordings

    [AccessGraph] of src/src/access_graph.rs: a recording whose edges come from
    the interval frontier.  The theorems show that when every recording call
    succeeds the finished graph has a barrier between any two commands that
    touch a common byte with a write, that no call panics, and how a failed
    call drops the dependencies of the call after it. *)

From S2P Require Import Prelude Access DependencyFrontier RawGraph.
Local Open Scope Z_scope.

Module AccessGraph.
Import Raw.

(** [AccessView] and its constructors on [View]. *)
Record AccessView : Type := mkAccessView { view : RawView; access : Access }.
Definition read (v : RawView) : AccessView := mkAccessView v Read.
Definition write (v : RawView) : AccessView := mkAccessView v Write.
Definition read_write (v : RawView) : AccessView := mkAccessView v ReadWrite.

(** The interval use of a binding. *)
Definition interval_use (b : AccessView) : Frontier.Use :=
  Frontier.mkUse (identity (owner (view b)))
    (mkRange (offset (view b)) (saturating_add (offset (view b)) (length (view b)))) (access b).

Section AccessGraph.
Context {Command Kernel : Type}.
Variable prepare_fill : RawView → Z → Result Command.
Variable prepare_copy : RawView → RawView → Result Command.
Variable prepare_dispatch : Kernel → list RawView → Result Command.

(** [AccessGraph]. *)
Record AccessGraph : Type := mkAccessGraph {
  graph : Graph Command;
  frontier : Frontier.Frontier;
  ag_nodes : list Node }.

(** [Stream::access_graph]. *)
Definition access_graph (id device : nat) : AccessGraph := mkAccessGraph (owned_graph id device) ∅ [].

(** [AccessGraph::dependencies]; [None] also when [self.nodes[dependency]]
    would panic. *)
Definition dependencies (uses : list AccessView) (g : AccessGraph) : option (AccessGraph * list Node) :=
  '(f, ds) ← Frontier.dependencies (frontier g) (List.length (ag_nodes g)) (interval_use <$> uses);
  after ← mapM (λ d, ag_nodes g !! d) ds;
  Some (mkAccessGraph (graph g) f (ag_nodes g), after).

(** The calls: the uses they declare and the recording they perform. *)
Inductive Call : Type :=
| Fill (destination : RawView) (pattern : Z)
| Copy (destination source : RawView)
| Dispatch (kernel : Kernel) (bindings : list AccessView).

Definition call_uses (c : Call) : list AccessView :=
  match c with
  | Fill destination _ => [write destination]
  | Copy destination source => [read source; write destination]
  | Dispatch _ bindings => bindings
  end.
Definition call_graph (c : Call) (after : list Node) (g : Graph Command) : Result (Graph Command * Node) :=
  match c with
  | Fill destination pattern => fill prepare_fill after destination pattern g
  | Copy destination source => copy prepare_copy after destination source g
  | Dispatch kernel bindings => dispatch prepare_dispatch after kernel (view <$> bindings) g
  end.

(** [AccessGraph::fill], [copy], [dispatch]: on an error the frontier has
    already been updated, the recording and [nodes] have not. *)
Definition call (c : Call) (g : AccessGraph) : option (AccessGraph * Result Node) :=
  '(g, after) ← dependencies (call_uses c) g;
  match call_graph c after (graph g) with
  | Err e => Some (g, Err e)
  | Ok (raw, node) => Some (mkAccessGraph raw (frontier g) (ag_nodes g ++ [node]), Ok node)
  end.

Fixpoint calls (cs : list Call) (g : AccessGraph) : option (AccessGraph * list (Result Node)) :=
  match cs with
  | [] => Some (g, [])
  | c :: rest => '(g, r) ← call c g; '(g, rs) ← calls rest g; Some (g, r :: rs)
  end.

(** ** Successful recordings *)

(** The state after recording [cs] with dependencies [ds]. *)
Record tracked (cs : list Call) (ds : list (list nat)) (g : AccessGraph) : Prop := {
  tracked_recorded : Frontier.recorded ((λ c, interval_use <$> call_uses c) <$> cs) ds (frontier g);
  tracked_nodes : ag_nodes g = as_nodes (id (graph g)) (seq 0 (List.length cs));
  tracked_length : List.length (nodes (graph g)) = List.length cs;
  tracked_prepared : ∀ j n, nodes (graph g) !! j = Some n → is_prepared n;
  tracked_hist : recording prepare_fill prepare_copy prepare_dispatch (graph g)
    (as_nodes (id (graph g)) <$> ds) }.

Lemma tracked_new id device : tracked [] [] (access_graph id device).
Proof.
  split; [apply Frontier.recorded_empty|done|done| |apply recording_new].
  intros j n Hj. simpl in Hj. by rewrite lookup_nil in Hj.
Qed.

(** Every dependency of the next call is a recorded node. *)
Lemma tracked_lookup cs ds g d :
  tracked cs ds g → (d < List.length cs)%nat →
  ag_nodes g !! d = Some (mkNode (id (graph g)) (Z.of_nat d)).
Proof.
  intros HT Hd. rewrite (tracked_nodes _ _ _ HT). unfold as_nodes. rewrite list_lookup_fmap, lookup_seq_lt by done. done.
Qed.

Lemma call_graph_spec c after g g' n hist :
  call_graph c after g = Ok (g', n) →
  recording prepare_fill prepare_copy prepare_dispatch g hist → Forall (λ n, 0 <= index n) after →
  recording prepare_fill prepare_copy prepare_dispatch g' (hist ++ [after])
  ∧ (∃ command, nodes g' = nodes g ++ [(Prepared command, latest after)])
  ∧ id g' = id g ∧ n = mkNode (id g) (node_count g).
Proof.
  intros Hc Hrec Hpos.
  assert (∃ command, appends (Prepared command) after g g' n) as (command & Hn & Hid & Hnode & _).
  { destruct c; simpl in Hc; eauto using fill_appends, copy_appends, dispatch_appends. }
  split_and!; [|by exists command|done|done].
  destruct c; simpl in Hc;
    [by eapply recording_fill|by eapply recording_copy|by eapply recording_dispatch].
Qed.

(** The dependencies of the next call name recorded nodes, so the lookup never
    panics, and a successful call keeps the tracking. *)
Lemma tracked_call cs ds g c :
  tracked cs ds g →
  ∃ g' r, call c g = Some (g', r) ∧ ∀ n, r = Ok n → ∃ l, tracked (cs ++ [c]) (ds ++ [l]) g'.
Proof.
  intros HT. destruct (Frontier.recorded_step _ _ _ (interval_use <$> call_uses c)
    (tracked_recorded _ _ _ HT)) as (f & l & Hd & Hrec).
  rewrite length_fmap in Hd.
  assert (Hlen : List.length (ag_nodes g) = List.length cs)
    by (rewrite (tracked_nodes _ _ _ HT); unfold as_nodes; by rewrite length_fmap, length_seq).
  assert (Hl : ∀ d, d ∈ l → (d < List.length cs)%nat).
  { intros d Hdl. destruct (Frontier.rec_sound _ _ _ Hrec d (List.length cs)) as [Hlt _]; [|done].
    exists l. split; [|done]. rewrite lookup_app_r; rewrite (Frontier.rec_length _ _ _
      (tracked_recorded _ _ _ HT)), length_fmap; [|done]. by rewrite Nat.sub_diag. }
  set (after := as_nodes (id (graph g)) l).
  assert (Hm : mapM (λ d, ag_nodes g !! d) l = Some after).
  { subst after. clear Hd Hrec. induction l as [|d l IH]; [done|]. simpl.
    rewrite (tracked_lookup _ _ _ d HT) by (apply Hl; by left). simpl.
    rewrite IH by (intros; apply Hl; by right). done. }
  assert (Hpos : Forall (λ n, 0 <= index n) after).
  { apply Forall_fmap, Forall_forall. intros d _. simpl. lia. }
  unfold call, dependencies. rewrite Hlen, Hd. simpl. rewrite Hm. simpl.
  destruct (call_graph c after (graph g)) as [[g' n]|e] eqn:Hc; [|by do 2 eexists].
  do 2 eexists. split; [done|]. intros ? [= <-]. exists l.
  destruct (call_graph_spec _ _ _ _ _ _ Hc (tracked_hist _ _ _ HT) Hpos)
    as (Hrec' & (command & Hn) & Hid & ->).
  split; simpl.
  - by rewrite fmap_app.
  - rewrite Hid, (tracked_nodes _ _ _ HT), length_app. unfold as_nodes. rewrite seq_app, fmap_app. simpl. unfold node_count.
    by rewrite (tracked_length _ _ _ HT).
  - rewrite Hn, !length_app, (tracked_length _ _ _ HT). done.
  - intros j m Hj. rewrite Hn in Hj. apply lookup_snoc_Some in Hj as [[_ Hj]|[_ <-]];
      [by eapply tracked_prepared|by exists command].
  - rewrite Hid, fmap_app. done.
Qed.

Lemma tracked_calls cs0 ds0 g cs g' rs :
  tracked cs0 ds0 g → calls cs g = Some (g', rs) → Forall (λ r, is_ok r = true) rs →
  ∃ ds, tracked (cs0 ++ cs) ds g'.
Proof.
  revert cs0 ds0 g rs. induction cs as [|c cs IH]; intros cs0 ds0 g rs HT Hc Hok; simpl in Hc.
  { injection Hc as <- <-. exists ds0. by rewrite app_nil_r. }
  destruct (tracked_call _ _ _ c HT) as (g1 & r & Hr & HT1). rewrite Hr in Hc. simpl in Hc.
  destruct (calls cs g1) as [[g2 rs2]|] eqn:Hcs; [|done]. injection Hc as <- <-.
  inversion Hok as [|? ? Hr1 Hok2]; subst. destruct r as [n|e]; [|done].
  destruct (HT1 n eq_refl) as [l HT2]. destruct (IH _ _ _ _ HT2 Hcs Hok2) as [ds HT3].
  exists ds. by rewrite <-app_assoc in HT3.
Qed.

(** The finished commands of a tracked recording. *)
Lemma tracked_separates cs ds g i j :
  tracked cs ds g → (i < j)%nat →
  Frontier.hazard ((λ c, interval_use <$> call_uses c) <$> cs) i j →
  ∃ k b, (i < k ≤ j)%nat ∧ finish (graph g) !! k = Some (b, true).
Proof.
  intros HT Hij Hh. pose proof Hh as (al & b & ai & aj & _ & Hj & _).
  apply Frontier.touches_lt in Hj. rewrite length_fmap in Hj.
  pose proof (Frontier.rec_complete _ _ _ (tracked_recorded _ _ _ HT) i j Hij Hh) as Htc.
  assert (Hprep : ∀ k, (k < List.length cs)%nat → ∃ c d, nodes (graph g) !! k = Some (Prepared c, d)).
  { intros k Hk. rewrite <-(tracked_length _ _ _ HT) in Hk. apply lookup_lt_is_Some in Hk as [[r d] Hk].
    destruct (tracked_prepared _ _ _ HT k (r, d) Hk) as [c Hc]. simpl in Hc. subst r. eauto. }
  destruct (Hprep i ltac:(lia)) as (ci & di & Hi), (Hprep j Hj) as (cj & dj & Hjn).
  rewrite <-(position_all (nodes (graph g)) i), <-(position_all (nodes (graph g)) j);
    [|by eapply tracked_prepared|rewrite (tracked_length _ _ _ HT); lia
     |by eapply tracked_prepared|rewrite (tracked_length _ _ _ HT); lia].
  eapply recording_separates; [exact (tracked_hist _ _ _ HT)|done|done|].
  by apply as_nodes_follows.
Qed.

(** ** Failed recordings *)

(** The nodes a frontier may name: recorded ones, and the index of the next
    call, under which failed calls left their uses. *)
Record sound (g : AccessGraph) : Prop := {
  sound_wf : Frontier.wf (frontier g);
  sound_cells : ∀ al b d, d ∈ Frontier.cell_deps Write (Frontier.cells (frontier g) al b) →
    (d ≤ List.length (ag_nodes g))%nat }.

Lemma sound_new id device : sound (access_graph id device).
Proof. split; [apply Frontier.wf_empty|]. intros al b d. unfold Frontier.cells. cbn [frontier access_graph]. rewrite lookup_empty.
  cbn. unfold Frontier.cell_deps, Frontier.fresh. cbn. rewrite elem_of_union. by intros [[]%not_elem_of_empty|[]%not_elem_of_empty].
Qed.

Lemma cell_deps_write a c d : d ∈ Frontier.cell_deps a c → d ∈ Frontier.cell_deps Write c.
Proof. unfold Frontier.cell_deps. destruct (writes a); set_solver. Qed.
Lemma touch_deps n a c d :
  d ∈ Frontier.cell_deps Write (Frontier.touch n a c) → d = n ∨ d ∈ Frontier.cell_deps Write c.
Proof. unfold Frontier.touch, Frontier.cell_deps. destruct (writes a), c as [[x|] rs]; cbn; set_solver. Qed.
Lemma spec_uses_cells n uses F al b d :
  d ∈ Frontier.cell_deps Write (Frontier.spec_uses n uses F al b) → d = n ∨ d ∈ Frontier.cell_deps Write (F al b).
Proof.
  revert F. induction uses as [|u uses IH]; intros F; cbn [Frontier.spec_uses]; [by right|].
  intros [->|Hd]%IH; [by left|]. unfold Frontier.spec_use in Hd. case_bool_decide; [by apply touch_deps in Hd|by right].
Qed.
Lemma spec_uses_deps_cells n uses F d :
  Frontier.spec_uses_deps n uses F d →
  d = n ∨ ∃ u b, u ∈ uses ∧ in_range b (Frontier.range u) ∧ d ∈ Frontier.cell_deps Write (F (Frontier.allocation u) b).
Proof.
  revert F. induction uses as [|u uses IH]; intros F; cbn [Frontier.spec_uses_deps]; [done|]. intros [(b & Hb & Hd)|Hd].
  - right. exists u, b. split_and!; [by left|done|by eapply cell_deps_write].
  - destruct (IH _ Hd) as [->|(v & b & Hv & Hb & Hd')]; [by left|]. unfold Frontier.spec_use in Hd'.
    assert (d ∈ Frontier.cell_deps Write (F (Frontier.allocation v) b) →
      d = n ∨ ∃ u0 b0, u0 ∈ u :: uses ∧ in_range b0 (Frontier.range u0) ∧
        d ∈ Frontier.cell_deps Write (F (Frontier.allocation u0) b0)) as Hold
      by (intros H; right; exists v, b; split_and!; [by right|done|done]).
    case_bool_decide; [|by apply Hold]. apply touch_deps in Hd' as [->|Hd']; [by left|by apply Hold].
Qed.

(** Every call returns, whatever calls failed before it. *)
Lemma dependencies_total g uses :
  sound g → ∃ f after, dependencies uses g = Some (mkAccessGraph (graph g) f (ag_nodes g), after)
    ∧ Frontier.wf f
    ∧ (∀ al b, Frontier.cells f al b
         = Frontier.spec_uses (List.length (ag_nodes g)) (interval_use <$> uses) (Frontier.cells (frontier g)) al b)
    ∧ ((∀ d, ¬ (d ≠ List.length (ag_nodes g)
         ∧ Frontier.spec_uses_deps (List.length (ag_nodes g)) (interval_use <$> uses) (Frontier.cells (frontier g)) d)) → after = []).
Proof.
  intros [Hwf Hc]. set (n := List.length (ag_nodes g)).
  destruct (Frontier.dependencies_spec (frontier g) n (interval_use <$> uses) Hwf) as (f & ds & Hd & Hwf' & Hcells & _ & _ & Hds).
  assert (Hlt : ∀ d, d ∈ ds → (d < n)%nat).
  { intros d [Hne Hdep]%Hds. apply spec_uses_deps_cells in Hdep as [->|(u & b & _ & _ & Hin)]; [done|]. apply Hc in Hin. lia. }
  assert (is_Some (mapM (λ d, ag_nodes g !! d) ds)) as [after Hm].
  { apply mapM_is_Some, Forall_forall. intros d Hin. apply lookup_lt_is_Some. by apply Hlt. }
  exists f, after. unfold dependencies. fold n. rewrite Hd. cbn [mbind option_bind]. rewrite Hm. split_and!; [done..|].
  intros Hno. assert (ds = []) as ->; [|by injection Hm as <-]. apply elem_of_nil_inv. intros d Hin. by apply (Hno d), Hds.
Qed.

Lemma call_total g c :
  sound g → ∃ g' r, call c g = Some (g', r) ∧ sound g'.
Proof.
  intros Hs. destruct (dependencies_total g (call_uses c) Hs) as (f & after & Hd & Hwf & Hcells & _).
  assert (∀ raw ns, (List.length (ag_nodes g) ≤ List.length ns)%nat → sound (mkAccessGraph raw f ns)) as Hsound.
  { intros raw ns Hle. split; [done|]. cbn [frontier ag_nodes]. intros al b d. rewrite Hcells.
    intros [->|Hin]%spec_uses_cells; [done|]. apply (sound_cells _ Hs) in Hin. lia. }
  unfold call. rewrite Hd. cbn [mbind option_bind graph frontier ag_nodes].
  destruct (call_graph c after (graph g)) as [[raw n]|e]; do 2 eexists; (split; [done|]); apply Hsound; [rewrite length_app|]; lia.
Qed.
Lemma calls_total g cs :
  sound g → ∃ g' rs, calls cs g = Some (g', rs) ∧ sound g' ∧ List.length rs = List.length cs.
Proof.
  revert g. induction cs as [|c cs IH]; intros g Hs; cbn [calls]; [by exists g, []|].
  destruct (call_total g c Hs) as (g1 & r & -> & H1). destruct (IH g1 H1) as (g2 & rs & Hc & H2 & Hl).
  cbn [mbind option_bind]. rewrite Hc. exists g2, (r :: rs). split_and!; [done|done|]. cbn. by rewrite Hl.
Qed.

(** The bytes a call declares. *)
Definition uses_byte (c : Call) (al b : Z) : Prop :=
  ∃ u, u ∈ interval_use <$> call_uses c ∧ Frontier.allocation u = al ∧ in_range b (Frontier.range u).
Definition writes_byte (c : Call) (al b : Z) : Prop :=
  ∃ u, u ∈ interval_use <$> call_uses c ∧ Frontier.allocation u = al ∧ in_range b (Frontier.range u)
       ∧ writes (Frontier.access u) = true.

(** A byte written under index [n] remembers nothing but [n]. *)
Lemma spec_uses_own n uses F al b :
  (∀ d, d ∈ Frontier.cell_deps Write (F al b) → d = n) ∨
  (∃ u, u ∈ uses ∧ Frontier.allocation u = al ∧ in_range b (Frontier.range u) ∧ writes (Frontier.access u) = true) →
  ∀ d, d ∈ Frontier.cell_deps Write (Frontier.spec_uses n uses F al b) → d = n.
Proof.
  revert F. induction uses as [|u uses IH]; intros F H; cbn [Frontier.spec_uses].
  { destruct H as [H|(u & Hu & _)]; [done|by apply elem_of_nil in Hu]. }
  apply IH. destruct H as [H|(v & [->|Hv]%elem_of_cons & Hal & Hb & Hw)]; [| |right; by exists v].
  - left. intros d. unfold Frontier.spec_use. case_bool_decide; [|apply H]. intros [->|Hd]%touch_deps; [done|by apply H].
  - left. intros d. unfold Frontier.spec_use. rewrite bool_decide_true by done. unfold Frontier.touch. rewrite Hw.
    unfold Frontier.cell_deps. cbn. set_solver.
Qed.

Lemma order_snoc idx completed (ns : list (Recorded Command * option Z)) command :
  order idx completed (ns ++ [(Prepared command, None)]) = order idx completed ns ++ [(command, false)].
Proof.
  revert idx completed. induction ns as [|[[c|] d] ns IH]; intros idx completed; [done| |]; cbn [app order]; by rewrite IH.
Qed.

End AccessGraph.
Global Arguments AccessGraph : clear implicits.
Global Arguments Call : clear implicits.

(** C8. Recording never fails internally: whatever the calls and whichever of
    them fail, every call returns a node or an error.  When every call succeeds,
    the access graph is race free: any two commands that touch a common byte of
    an allocation, one of them writing it, are separated by a barrier in the
    finished command order. *)
Theorem recorded_calls_are_race_free {Command Kernel}
    (prepare_fill : RawView → Z → Result Command) (prepare_copy : RawView → RawView → Result Command)
    (prepare_dispatch : Kernel → list RawView → Result Command) stream device cs :
  ∃ g rs, calls prepare_fill prepare_copy prepare_dispatch cs (access_graph stream device) = Some (g, rs)
  ∧ List.length rs = List.length cs
  ∧ (Forall (λ r, is_ok r = true) rs →
     List.length (ag_nodes g) = List.length cs
     ∧ ∀ i j, (i < j)%nat → Frontier.hazard ((λ c, interval_use <$> call_uses c) <$> cs) i j →
         ∃ k b, (i < k ≤ j)%nat ∧ finish (graph g) !! k = Some (b, true)).
Proof.
  destruct (calls_total prepare_fill prepare_copy prepare_dispatch (access_graph stream device) cs (sound_new _ _))
    as (g & rs & Hc & _ & Hl). exists g, rs. split_and!; [done..|]. intros Hok.
  destruct (tracked_calls prepare_fill prepare_copy prepare_dispatch [] [] (access_graph stream device)
    cs g rs (tracked_new _ _ _ _ _) Hc Hok) as [ds HT]. simpl in HT. split.
  - rewrite (tracked_nodes _ _ _ _ _ _ HT). unfold as_nodes. by rewrite length_fmap, length_seq.
  - intros i j. by eapply tracked_separates.
Qed.

(** Fill the first half, fill the second half, copy one to the other. *)
Definition demo_calls : list (Call unit) :=
  [Fill (demo_raw 0) 1; Fill (demo_raw 8) 2; Copy (demo_raw 8) (demo_raw 0)].

Definition demo_graph_of (cs : list (Call unit)) : AccessGraph Z :=
  from_option fst (access_graph 0 0) (calls demo_fill demo_copy demo_dispatch cs (access_graph 0 0)).

Lemma recorded_calls_are_race_free_witness :
  finish (graph (demo_graph_of demo_calls)) = [(1, false); (2, false); (0, true)]
  ∧ ∃ k b, (0 < k ≤ 2)%nat ∧ finish (graph (demo_graph_of demo_calls)) !! k = Some (b, true).
Proof.
  split; [vm_compute; reflexivity|].
  destruct (recorded_calls_are_race_free demo_fill demo_copy demo_dispatch 0 0 demo_calls) as (g & rs & E & _ & H).
  unfold demo_graph_of. rewrite E. cbn [from_option fst].
  refine (proj2 (H _) 0%nat 2%nat _ _).
  - vm_compute in E. injection E as _ <-. repeat constructor.
  - lia.
  - exists 1, 0, Write, Read. split_and!; [| |by left].
    + do 2 eexists. split_and!; [reflexivity|by left|reflexivity|split; vm_compute; done|reflexivity].
    + do 2 eexists. split_and!; [reflexivity|by left|reflexivity|split; vm_compute; done|reflexivity].
Defined.

(** C40. A failed call leaves its uses in the frontier under the index of the
    next call, and the recording as it was; the next call then has no
    predecessor at all, and no barrier, if every byte it uses is written by the
    failed call: whatever was recorded before, the hazards of the new command
    are lost. *)
Theorem failed_call_drops_dependency {Command Kernel}
    (prepare_fill : RawView → Z → Result Command) (prepare_copy : RawView → RawView → Result Command)
    (prepare_dispatch : Kernel → list RawView → Result Command) stream device cs g rs c g1 e c' g2 node :
  calls prepare_fill prepare_copy prepare_dispatch cs (access_graph stream device) = Some (g, rs) →
  call prepare_fill prepare_copy prepare_dispatch c g = Some (g1, Err e) →
  call prepare_fill prepare_copy prepare_dispatch c' g1 = Some (g2, Ok node) →
  (∀ al b, uses_byte c' al b → writes_byte c al b) →
  graph g1 = graph g ∧ ag_nodes g1 = ag_nodes g
  ∧ (∀ al b, Frontier.cells (frontier g1) al b
       = Frontier.spec_uses (List.length (ag_nodes g)) (interval_use <$> call_uses c) (Frontier.cells (frontier g)) al b)
  ∧ ∃ command, nodes (graph g2) = nodes (graph g) ++ [(Prepared command, None)]
      ∧ finish (graph g2) = finish (graph g) ++ [(command, false)].
Proof.
  intros Hcs Hc Hc' Hcov.
  destruct (calls_total prepare_fill prepare_copy prepare_dispatch (access_graph stream device) cs (sound_new _ _))
    as (g0 & rs0 & E & Hs & _). rewrite Hcs in E. injection E as <- <-.
  destruct (dependencies_total g (call_uses c) Hs) as (f & after & Hd & Hwf & Hcells & _).
  destruct (call_total prepare_fill prepare_copy prepare_dispatch g c Hs) as (g1' & r' & E & Hs1). rewrite Hc in E. injection E as <- <-.
  unfold call in Hc. rewrite Hd in Hc. cbn [mbind option_bind graph frontier ag_nodes] in Hc.
  destruct (call_graph _ _ _ c after (graph g)) as [[raw n]|e']; [done|]. injection Hc as <- _. split_and!; [done..|].
  destruct (dependencies_total _ (call_uses c') Hs1) as (f' & after' & Hd' & _ & _ & Hnone).
  cbn [graph frontier ag_nodes] in Hd', Hnone. unfold call in Hc'. rewrite Hd' in Hc'. cbn [mbind option_bind graph frontier ag_nodes] in Hc'.
  rewrite Hnone in Hc'.
  2:{ intros d [Hne Hdep]. apply spec_uses_deps_cells in Hdep as [->|(u & b & Hu & Hb & Hin)]; [done|].
      apply Hne. rewrite Hcells in Hin. eapply spec_uses_own; [|exact Hin]. right.
      destruct (Hcov (Frontier.allocation u) b) as (v & Hv & Hal & Hr & Hw); [by exists u|]. by exists v. }
  destruct (call_graph _ _ _ c' [] (graph g)) as [[raw n]|e2] eqn:Hg; [|done]. injection Hc' as <- <-.
  assert (∃ command, appends (Prepared command) [] (graph g) raw n) as (command & Hn & _).
  { destruct c'; simpl in Hg; eauto using fill_appends, copy_appends, dispatch_appends. }
  cbn [latest] in Hn. exists command. split; [done|]. cbn [graph]. unfold finish. by rewrite Hn, order_snoc.
Qed.

(** Fill eight bytes, fail to copy four over them, fill them again: the two
    fills touch the same bytes and no barrier separates them. *)
Definition demo_short : RawView := mkRawView (mkBuffer 2 0 64) 0 4.
Lemma failed_call_drops_dependency_witness :
  finish (graph (demo_graph_of [Fill (demo_raw 0) 1; Copy (demo_raw 0) demo_short; Fill (demo_raw 0) 2]))
    = [(1, false); (2, false)].
Proof.
  destruct (failed_call_drops_dependency demo_fill demo_copy demo_dispatch 0 0 [Fill (demo_raw 0) 1]
    (demo_graph_of [Fill (demo_raw 0) 1]) [Ok (demo_node 0)] (Copy (demo_raw 0) demo_short)
    (demo_graph_of [Fill (demo_raw 0) 1; Copy (demo_raw 0) demo_short])
    (Message "graph copy requires equal nonempty spans") (Fill (demo_raw 0) 2)
    (demo_graph_of [Fill (demo_raw 0) 1; Copy (demo_raw 0) demo_short; Fill (demo_raw 0) 2]) (demo_node 1))
    as (_ & _ & _ & command & _ & E).
  - vm_compute. reflexivity.
  - vm_compute. reflexivity.
  - vm_compute. reflexivity.
  - intros al b (u & Hu & Hal & Hb). exists u. apply list_elem_of_singleton in Hu as ->.
    split_and!; [right; left|exact Hal|exact Hb|reflexivity].
  - assert (command = 2) as -> by (vm_compute in E; congruence). rewrite E. vm_compute. reflexivity.
Defined.

End AccessGraph.
