(* ===== verification/SchedulerHeap.v ===== *)
(** * Heap and scan lemmas of the scheduler

    How the accessors of [Scheduler] see each heap update, and what one scan of
    the pending submissions does: it only settles slots, reports a submission
    whose nodes are all done, or candidates that are ready to start. *)

From S2P Require Import Prelude Access DependencyFrontier BufferView Dependencies Completion Buffer Trace Statistics Scheduler SchedulerSteps.
Local Open Scope Z_scope.

Module SchedHeap.
Import Sched Steps.

(** ** Accessors *)

(** The parts of a prepared graph that never change. *)
Definition statics (p : Prepared) : list Operation * list Deps.Use * nat * nat :=
  (operations p, uses p, length (slots p), length (signals p)).
Definition ops_at (h : heap) (g : nat) : option (list Operation) := operations <$> h !! g.
Definition node_at (h : heap) (g s n : nat) : option NodeState := sl ← slot_at h g s; nodes sl !! n.

(** Two heaps with the same graphs. *)
Definition same_statics (h h' : heap) : Prop := ∀ g, statics <$> h' !! g = statics <$> h !! g.

Lemma same_statics_refl h : same_statics h h.
Proof. done. Qed.
Lemma same_statics_trans h1 h2 h3 : same_statics h1 h2 → same_statics h2 h3 → same_statics h1 h3.
Proof. intros H1 H2 g. by rewrite H2, H1. Qed.
Global Instance same_statics_equivalence : Equivalence same_statics.
Proof. split; [done|by intros h h' H g|intros ???; apply same_statics_trans]. Qed.

Lemma same_statics_uses h h' g : same_statics h h' → graph_uses h' g = graph_uses h g.
Proof.
  intros H. specialize (H g). unfold graph_uses, statics in *.
  destruct (h !! g), (h' !! g); simpl in *; congruence.
Qed.

Lemma same_statics_ops h h' g : same_statics h h' → ops_at h' g = ops_at h g.
Proof.
  intros H. specialize (H g). unfold ops_at, statics in *.
  destruct (h !! g), (h' !! g); simpl in *; congruence.
Qed.

Lemma same_statics_lookup h h' g p :
  same_statics h h' → h' !! g = Some p → ∃ p0, h !! g = Some p0 ∧ statics p0 = statics p.
Proof.
  intros H Hp. specialize (H g). rewrite Hp in H. destruct (h !! g) as [p0|]; [|done].
  exists p0. split; [done|]. unfold statics in *. simpl in H. congruence.
Qed.

Lemma same_statics_conflict h h' a b : same_statics h h' → graphs_conflict h' a b = graphs_conflict h a b.
Proof. intros H. unfold graphs_conflict. by rewrite !(same_statics_uses h h'). Qed.

(** What depends on the graphs alone respects the equivalence. *)
Global Instance graph_uses_proper : Proper (same_statics ==> eq ==> eq) graph_uses.
Proof. intros h h' H g ? <-. symmetry. by apply same_statics_uses. Qed.
Global Instance ops_at_proper : Proper (same_statics ==> eq ==> eq) ops_at.
Proof. intros h h' H g ? <-. symmetry. by apply same_statics_ops. Qed.
Global Instance graphs_conflict_proper : Proper (same_statics ==> eq ==> eq ==> eq) graphs_conflict.
Proof. intros h h' H a ? <- b ? <-. symmetry. by apply same_statics_conflict. Qed.

Lemma on_slot_statics g s f h : same_statics h (on_slot g s f h).
Proof.
  intros g'. unfold on_slot. destruct (decide (g = g')) as [->|Hne].
  - rewrite lookup_alter_eq. destruct (h !! g') as [p|]; [|done]. simpl.
    unfold statics; simpl. by rewrite length_alter.
  - by rewrite lookup_alter_ne.
Qed.

Lemma on_signal_statics g s f h : same_statics h (on_signal g s f h).
Proof.
  intros g'. unfold on_signal. destruct (decide (g = g')) as [->|Hne].
  - rewrite lookup_alter_eq. destruct (h !! g') as [p|]; [|done]. simpl.
    unfold statics; simpl. by rewrite length_alter.
  - by rewrite lookup_alter_ne.
Qed.

Lemma quarantine_statics g h : same_statics h (alter set_quarantined g h).
Proof.
  intros g'. destruct (decide (g = g')) as [->|Hne].
  - rewrite lookup_alter_eq. by destruct (h !! g').
  - by rewrite lookup_alter_ne.
Qed.

#[export] Hint Resolve on_slot_statics on_signal_statics quarantine_statics : hrx.

(** A sequence of slot, signal and quarantine updates keeps the graphs. *)
Ltac statics :=
  simpl; lazymatch goal with
  | |- same_statics ?h ?h => apply same_statics_refl
  | H : same_statics ?h1 ?h2 |- same_statics ?h ?h2 => apply (same_statics_trans h h1); [statics|exact H]
  | |- same_statics ?h (on_slot _ _ _ ?h1) => apply (same_statics_trans h h1); [statics|auto with hrx]
  | |- same_statics ?h (on_signal _ _ _ ?h1) => apply (same_statics_trans h h1); [statics|auto with hrx]
  | |- same_statics ?h (alter set_quarantined _ ?h1) => apply (same_statics_trans h h1); [statics|auto with hrx]
  end.

Lemma slot_at_on_slot g s f h g' s' :
  slot_at (on_slot g s f h) g' s'
  = if decide ((g, s) = (g', s')) then f <$> slot_at h g s else slot_at h g' s'.
Proof.
  unfold slot_at, on_slot. destruct (decide (g = g')) as [->|Hg].
  - rewrite lookup_alter_eq. destruct (decide ((g', s) = (g', s'))) as [[= ->]|Hs].
    + destruct (h !! g') as [p|]; [|done]. simpl. by rewrite list_lookup_alter_eq.
    + destruct (h !! g') as [p|]; [|done]. simpl. rewrite list_lookup_alter_ne; [done|congruence].
  - rewrite lookup_alter_ne by done. by rewrite decide_False by congruence.
Qed.

Lemma slot_at_on_slot_eq g s f h : slot_at (on_slot g s f h) g s = f <$> slot_at h g s.
Proof. rewrite slot_at_on_slot. by rewrite decide_True. Qed.
Lemma slot_at_on_slot_ne g s f h g' s' :
  (g, s) ≠ (g', s') → slot_at (on_slot g s f h) g' s' = slot_at h g' s'.
Proof. intros. rewrite slot_at_on_slot. by rewrite decide_False. Qed.

Lemma signal_at_on_slot g s f h g' s' : signal_at (on_slot g s f h) g' s' = signal_at h g' s'.
Proof.
  unfold signal_at, on_slot. destruct (decide (g = g')) as [->|Hg].
  - rewrite lookup_alter_eq. by destruct (h !! g').
  - by rewrite lookup_alter_ne.
Qed.

Lemma slot_at_on_signal g s f h g' s' : slot_at (on_signal g s f h) g' s' = slot_at h g' s'.
Proof.
  unfold slot_at, on_signal. destruct (decide (g = g')) as [->|Hg].
  - rewrite lookup_alter_eq. by destruct (h !! g').
  - by rewrite lookup_alter_ne.
Qed.

Lemma signal_at_on_signal g s f h g' s' :
  signal_at (on_signal g s f h) g' s'
  = if decide ((g, s) = (g', s')) then f <$> signal_at h g s else signal_at h g' s'.
Proof.
  unfold signal_at, on_signal. destruct (decide (g = g')) as [->|Hg].
  - rewrite lookup_alter_eq. destruct (decide ((g', s) = (g', s'))) as [[= ->]|Hs].
    + destruct (h !! g') as [p|]; [|done]. simpl. by rewrite list_lookup_alter_eq.
    + destruct (h !! g') as [p|]; [|done]. simpl. rewrite list_lookup_alter_ne; [done|congruence].
  - rewrite lookup_alter_ne by done. by rewrite decide_False by congruence.
Qed.

Lemma slot_at_quarantine g h g' s' : slot_at (alter set_quarantined g h) g' s' = slot_at h g' s'.
Proof.
  unfold slot_at. destruct (decide (g = g')) as [->|Hg].
  - rewrite lookup_alter_eq. by destruct (h !! g').
  - by rewrite lookup_alter_ne.
Qed.
Lemma signal_at_quarantine g h g' s' : signal_at (alter set_quarantined g h) g' s' = signal_at h g' s'.
Proof.
  unfold signal_at. destruct (decide (g = g')) as [->|Hg].
  - rewrite lookup_alter_eq. by destruct (h !! g').
  - by rewrite lookup_alter_ne.
Qed.

(** A slot without a graph does not exist; with one, its signal exists too. *)
Lemma slot_at_graph h g s sl : slot_at h g s = Some sl → ∃ p, h !! g = Some p ∧ slots p !! s = Some sl.
Proof. unfold slot_at. destruct (h !! g) as [p|]; [|done]. simpl. eauto. Qed.

(** ** Settling *)

(** A slot whose unstarted nodes were skipped, or not. *)
Definition slot_settled (sl sl' : Slot) : Prop :=
  occupied sl' = occupied sl ∧ (nodes sl' = nodes sl ∨ nodes sl' = skip_node <$> nodes sl).

Lemma skip_node_idem st : skip_node (skip_node st) = skip_node st.
Proof. by destruct st. Qed.

Lemma slot_settled_refl sl : slot_settled sl sl.
Proof. split; auto. Qed.
Lemma slot_settled_trans a b c : slot_settled a b → slot_settled b c → slot_settled a c.
Proof.
  intros [? Hab] [? Hbc]. split; [congruence|].
  destruct Hab as [E1|E1], Hbc as [E2|E2]; rewrite E2, E1; auto.
  right. rewrite <-list_fmap_compose. apply list_fmap_ext. intros. apply skip_node_idem.
Qed.

Lemma settle_settled cancel failed sl : slot_settled sl (settle cancel failed sl).
Proof. split; [done|]. unfold settle; simpl. case_bool; auto. Qed.

(** A heap in which some slots were settled and nothing else changed. *)
Record settles (h h' : heap) : Prop := {
  settles_statics : same_statics h h';
  settles_signals : ∀ g s, signal_at h' g s = signal_at h g s;
  settles_slots : ∀ g s, match slot_at h g s with
    | Some sl => ∃ sl', slot_at h' g s = Some sl' ∧ slot_settled sl sl'
    | None => slot_at h' g s = None
    end }.

Lemma settles_refl h : settles h h.
Proof.
  split; [done|done|]. intros g s. destruct (slot_at h g s) as [sl|]; [|done].
  exists sl. split; [done|apply slot_settled_refl].
Qed.

Lemma settles_trans h1 h2 h3 : settles h1 h2 → settles h2 h3 → settles h1 h3.
Proof.
  intros [Hs1 Hg1 Hl1] [Hs2 Hg2 Hl2]. split.
  - by eapply same_statics_trans.
  - intros. by rewrite Hg2, Hg1.
  - intros g s. specialize (Hl1 g s). specialize (Hl2 g s). destruct (slot_at h1 g s) as [sl|].
    + destruct Hl1 as (sl2 & E2 & ?). rewrite E2 in Hl2. destruct Hl2 as (sl3 & ? & ?).
      exists sl3. split; [done|]. by eapply slot_settled_trans.
    + by rewrite Hl1 in Hl2.
Qed.

Lemma settles_on_slot h g s sl f :
  slot_at h g s = Some sl → slot_settled sl (f sl) → settles h (on_slot g s f h).
Proof.
  intros Hsl Hset. split; [statics|apply signal_at_on_slot|].
  intros g' s'. rewrite slot_at_on_slot. destruct (decide _) as [[= <- <-]|_].
  - rewrite Hsl. simpl. eauto.
  - destruct (slot_at h g' s'); [|done]. eexists. split; [done|apply slot_settled_refl].
Qed.

(** ** Candidates *)

Definition loc (job : Job) : nat * nat := (graph job, slot job).

(** A candidate names a submission without blockers and a node of it that may
    start on that lane. *)
Definition candidate_ok (sch : Scheduler) (h : heap) (l ji n : nat) : Prop :=
  ∃ job ops op sl,
    pending sch !! ji = Some job ∧ ops_at h (graph job) = Some ops ∧ ops !! n = Some op
    ∧ queue op = l ∧ slot_at h (graph job) (slot job) = Some sl ∧ blockers job = 0%nat
    ∧ node_ready sch job sl n op = true.
Definition candidates_ok (sch : Scheduler) (h : heap) (bound : nat) (c : Candidates) : Prop :=
  ∀ l ji n, c !! l = Some (Some (ji, n)) → (ji < bound)%nat ∧ candidate_ok sch h l ji n.

Lemma scan_operations_ok sch h bound ji job sl ops0 index ops c :
  pending sch !! ji = Some job → ops_at h (graph job) = Some ops0 →
  (∀ k op, ops !! k = Some op → ops0 !! (index + k)%nat = Some op) →
  slot_at h (graph job) (slot job) = Some sl → blockers job = 0%nat → (ji < bound)%nat →
  candidates_ok sch h bound c →
  candidates_ok sch h bound (scan_operations sch ji job sl index ops c).
Proof.
  intros Hji Hops Hsub Hsl Hb Hlt. revert index c Hsub.
  induction ops as [|op ops IH]; intros index c Hsub Hc; simpl; [done|].
  apply IH.
  { intros k op' Hk. rewrite <-(Hsub (S k) op' Hk). f_equal. lia. }
  destruct (node_ready _ _ _ _ _ && _) eqn:E; [|done]. to_prop.
  intros l ji' n Hl. destruct (decide (l = queue op)) as [->|Hne].
  - apply list_lookup_insert_Some in Hl as [(_ & [= <- <-] & _)|(? & _)]; [|done].
    split; [done|]. exists job, ops0, op, sl. split_and!; try done.
    specialize (Hsub 0%nat op eq_refl). by rewrite Nat.add_0_r in Hsub.
  - rewrite list_lookup_insert_ne in Hl by done. by apply Hc.
Qed.

(** Candidates survive changes of other submissions' slots. *)
Lemma candidates_ok_frame sch h h' bound c :
  same_statics h h' →
  (∀ ji job, (ji < bound)%nat → pending sch !! ji = Some job →
     slot_at h' (graph job) (slot job) = slot_at h (graph job) (slot job)) →
  candidates_ok sch h bound c → candidates_ok sch h' bound c.
Proof.
  intros Hst Hslots Hc l ji n Hl.
  destruct (Hc l ji n Hl) as (Hlt & job & ops & op & sl & Hji & ? & ? & ? & ? & ? & ?).
  split; [done|]. exists job, ops, op, sl.
  rewrite (same_statics_ops h h'), (Hslots ji job) by done. done.
Qed.

Lemma candidates_ok_weaken sch h bound bound' c :
  (bound ≤ bound')%nat → candidates_ok sch h bound c → candidates_ok sch h bound' c.
Proof. intros ? Hc l ji n Hl. destruct (Hc l ji n Hl). split; [lia|done]. Qed.

(** ** The scan *)

(** What a scan reports is right in the heap it leaves. *)
Definition scan_ok (sch : Scheduler) (target : option (nat * nat)) (h : heap) (r : Scan) : Prop :=
  match r with
  | Terminal ji _ =>
      ∃ job sl, pending sch !! ji = Some job ∧ is_target target job = true
        ∧ slot_at h (graph job) (slot job) = Some sl ∧ all_done sl = true
  | Ready c => candidates_ok sch h (length (pending sch)) c
  end.

(** The visited submission differs from those before and after it. *)
Lemma loc_middle_fresh sch before job rest :
  pending sch = before ++ job :: rest → NoDup (loc <$> pending sch) →
  loc job ∉ loc <$> rest ∧ loc job ∉ loc <$> before.
Proof.
  intros Hp Hnd. rewrite Hp, fmap_app, fmap_cons in Hnd. apply NoDup_app in Hnd as (_ & Hd & Hnd').
  apply NoDup_cons in Hnd' as [? _]. split; [done|]. intros Hin. apply (Hd _ Hin). by left.
Qed.

Lemma candidates_ok_next sch h h1 before job rest c :
  pending sch = before ++ job :: rest → loc job ∉ loc <$> before → same_statics h h1 →
  (∀ g s, (g, s) ≠ loc job → slot_at h1 g s = slot_at h g s) →
  candidates_ok sch h (length before) c → candidates_ok sch h1 (length (before ++ [job])) c.
Proof.
  intros Hp Hfresh Hst Hother Hc.
  apply (candidates_ok_weaken sch h1 (length before)); [rewrite length_app; lia|].
  eapply (candidates_ok_frame sch h h1 (length before)); [done| |done].
  intros ji j Hlt Hj. apply Hother. intros Heq. apply Hfresh.
  rewrite Hp, lookup_app_l in Hj by done. apply list_elem_of_fmap. exists j.
  split; [by symmetry|]. by eapply list_elem_of_lookup_2.
Qed.

(** Settling the slot of one submission. *)
Lemma settle_visit h job p sl sl' :
  h !! graph job = Some p → slot_at h (graph job) (slot job) = Some sl → slot_settled sl sl' →
  let h1 := on_slot (graph job) (slot job) (λ _, sl') h in
  settles h h1 ∧ (∀ g s, (g, s) ≠ loc job → slot_at h1 g s = slot_at h g s)
  ∧ slot_at h1 (graph job) (slot job) = Some sl' ∧ ops_at h1 (graph job) = Some (operations p).
Proof.
  intros Eg Esl Hs h1. assert (Hset1 : settles h h1) by (by eapply settles_on_slot).
  split_and!; [done| | |].
  - intros g s Hne. unfold h1. apply slot_at_on_slot_ne. by intros [= <- <-].
  - unfold h1. by rewrite slot_at_on_slot_eq, Esl.
  - rewrite (same_statics_ops h h1) by apply Hset1. unfold ops_at. by rewrite Eg.
Qed.

(** What one visit adds to the result of the rest of the scan. *)
Lemma scan_compose sch target job rest h h1 h' r :
  settles h h1 → (∀ g s, (g, s) ≠ loc job → slot_at h1 g s = slot_at h g s) →
  settles h1 h' ∧ scan_ok sch target h' r
    ∧ (∀ g s, (g, s) ∉ loc <$> rest → slot_at h' g s = slot_at h1 g s) →
  settles h h' ∧ scan_ok sch target h' r
    ∧ (∀ g s, (g, s) ∉ loc <$> job :: rest → slot_at h' g s = slot_at h g s).
Proof.
  intros Hset Hother (? & ? & Hfr). split_and!; [by eapply settles_trans|done|]. intros g s Hgs.
  rewrite fmap_cons, elem_of_cons in Hgs. rewrite Hfr by tauto. apply Hother. tauto.
Qed.

Lemma scan_spec sch target before jobs h c h' r :
  pending sch = before ++ jobs → NoDup (loc <$> pending sch) →
  candidates_ok sch h (length before) c →
  scan sch target (length before) jobs h c = (h', r) →
  settles h h' ∧ scan_ok sch target h' r
  ∧ (∀ g s, (g, s) ∉ loc <$> jobs → slot_at h' g s = slot_at h g s).
Proof.
  intros Hp Hnd. revert before h c Hp.
  induction jobs as [|job rest IH]; intros before h c Hp Hc Hscan; simpl in Hscan.
  { injection Hscan as <- <-. split_and!; [apply settles_refl| |done].
    simpl. by rewrite Hp, app_nil_r. }
  assert (Hp' : pending sch = (before ++ [job]) ++ rest) by (by rewrite <-app_assoc).
  assert (Hlen : length (before ++ [job]) = S (length before)) by (rewrite length_app; simpl; lia).
  assert (Hji : pending sch !! length before = Some job) by (by rewrite Hp, list_lookup_middle).
  destruct (loc_middle_fresh _ _ _ _ Hp Hnd) as [Hafter Hbefore]. rewrite <-Hlen in Hscan.
  destruct (h !! graph job) as [p|] eqn:Eg, (slot_at h (graph job) (slot job)) as [sl|] eqn:Esl,
    (signal_at h (graph job) (slot job)) as [sig|] eqn:Esig;
    try (eapply scan_compose; [apply settles_refl|done|];
         eapply IH; [exact Hp'|by eapply candidates_ok_next|exact Hscan]).
  destruct (poll_dependencies h (dependencies job) false) as [waiting failed] eqn:Ep.
  set (sl' := settle (Completion.cancel sig) failed sl) in *.
  destruct (settle_visit h job p sl sl' Eg Esl (settle_settled _ _ _)) as (Hset1 & Hother1 & Hsl1 & Hops1).
  set (h1 := on_slot (graph job) (slot job) (λ _, sl') h) in *.
  assert (Hc1 : candidates_ok sch h1 (length (before ++ [job])) c)
    by (eapply candidates_ok_next; [done|done|apply Hset1|done|done]).
  destruct (all_done sl') eqn:Ed; [destruct (is_target target job) eqn:Et; simpl in Hscan|].
  - injection Hscan as <- <-.
    assert (Hset2 : settles h1 (on_slot (graph job) (slot job) take_failure h1)).
    { eapply settles_on_slot; [done|]. split; auto. }
    split_and!; [by eapply settles_trans| |].
    + exists job, (take_failure sl'). split_and!; [done|done| |done]. by rewrite slot_at_on_slot_eq, Hsl1.
    + intros g s Hgs. rewrite fmap_cons, elem_of_cons in Hgs.
      rewrite slot_at_on_slot_ne; [apply Hother1; tauto|]. intros [= <- <-]. tauto.
  - eapply scan_compose; [done|done|]. by eapply IH.
  - eapply scan_compose; [done|done|].
    destruct (negb (blockers job =? 0)%nat || waiting) eqn:Eb; [by eapply IH|].
    to_prop. eapply IH; [exact Hp'| |exact Hscan].
    eapply scan_operations_ok; try done. rewrite Hlen. lia.
Qed.

Lemma pick_candidate sch target c offsets l job n :
  pick sch target c offsets = Some (l, job, n) →
  ∃ ji, c !! l = Some (Some (ji, n)) ∧ pending sch !! ji = Some job ∧ is_target target job = true.
Proof.
  induction offsets as [|o offsets IH]; [done|]. cbn -[Nat.modulo].
  set (k := ((next_lane sch + o) mod lane_count)%nat).
  destruct (c !! k) as [[[ji m]|]|] eqn:Ec; simpl; try exact IH.
  destruct (pending sch !! ji) as [j|] eqn:Ej; [|exact IH].
  destruct (is_target target j) eqn:Et; [|exact IH]. intros [= <- <- <-]. eauto.
Qed.

(** What [next_action] does, up to settling: nothing, start a ready node, or
    remove a submission whose nodes are all done. *)
Definition action_ok (sch : Scheduler) (target : option (nat * nat)) (h1 : heap)
    (sch' : Scheduler) (h' : heap) (a : option Action) : Prop :=
  match a with
  | None => sch' = sch ∧ h' = h1
  | Some (Run g s n) =>
      ∃ ji job l, pending sch !! ji = Some job ∧ loc job = (g, s) ∧ is_target target job = true
        ∧ candidate_ok sch h1 l ji n ∧ sch' = start_lane l (sequence job) sch
        ∧ h' = on_slot g s (set_node n Running) h1
  | Some (Finish job _) =>
      ∃ ji sl, pending sch !! ji = Some job ∧ is_target target job = true
        ∧ slot_at h1 (graph job) (slot job) = Some sl ∧ all_done sl = true
        ∧ remove h1 ji sch = Some (sch', job) ∧ h' = h1
  end.

Lemma next_action_spec sch h target sch' h' a :
  NoDup (loc <$> pending sch) → next_action sch h target = (sch', h', a) →
  ∃ h1, settles h h1 ∧ action_ok sch target h1 sch' h' a
    ∧ (∀ g s, (g, s) ∉ loc <$> pending sch → slot_at h1 g s = slot_at h g s).
Proof.
  intros Hnd. unfold next_action.
  destruct (scan sch target 0 (pending sch) h (replicate lane_count None)) as [h1 r] eqn:Es.
  assert (Hc0 : candidates_ok sch h (length (@nil Job)) (replicate lane_count None)).
  { intros l ji n Hl. by apply lookup_replicate in Hl as [? _]. }
  destruct (scan_spec sch target [] (pending sch) h _ h1 r eq_refl Hnd Hc0 Es) as (Hset & Hok & Hfr).
  destruct r as [ji f|c].
  - destruct Hok as (job & sl & Hji & Ht & Hsl & Hd).
    assert (Hr : ∃ sch1, remove h1 ji sch = Some (sch1, job)).
    { unfold remove. rewrite Hji. simpl. eauto. }
    destruct Hr as [sch1 Hr]. rewrite Hr. intros [= <- <- <-].
    exists h1. split_and!; [done| |done]. exists ji, sl. done.
  - destruct (pick sch target c (seq 0 lane_count)) as [[[l job] n]|] eqn:Ep; intros [= <- <- <-];
      (exists h1; split_and!; [done| |done]); [|done].
    apply pick_candidate in Ep as (ji & Hcl & Hji & Ht). exists ji, job, l.
    split_and!; try done. by apply Hok.
Qed.

End SchedHeap.
