(* ===== verification/SchedulerSafety.v ===== *)
(** * Safety of the scheduler

    Invariants of every reachable state of [SchedulerSteps]: node states follow
    the dependency order, blocker counts are exact, lanes are exclusive, slots
    are not reused before publication; and their consequence, that two regions
    in flight never access a common byte with a write. *)

From S2P Require Import Prelude Access DependencyFrontier BufferView Dependencies Completion Buffer Trace Statistics Scheduler SchedulerSteps SchedulerHeap.
Local Open Scope Z_scope.

Module SchedSafety.
Import Sched Steps SchedHeap.

(** ** Order of node states *)

(** A running node has all its transitive dependencies done; while a node is
    still pending, done nodes have their dependencies done. *)
Record node_order (ds : list (list nat)) (ns : list NodeState) : Prop := {
  order_running : ∀ n d, ns !! n = Some Running → tc (Frontier.edge ds) n d → ns !! d = Some Done;
  order_closed : ∀ m n d, ns !! m = Some Pending → ns !! n = Some Done →
    Frontier.edge ds n d → ns !! d = Some Done }.

Lemma node_order_skip ds ns : node_order ds ns → node_order ds (skip_node <$> ns).
Proof.
  intros [Hr Hc].
  assert (Hrun : ∀ n, (skip_node <$> ns) !! n = Some Running → ns !! n = Some Running).
  { intros n. rewrite list_lookup_fmap. by destruct (ns !! n) as [[]|]. }
  split.
  - intros n d Hn Hd. rewrite list_lookup_fmap, (Hr n d); auto.
  - intros m n d Hm. rewrite list_lookup_fmap in Hm. by destruct (ns !! m) as [[]|].
Qed.

Lemma node_order_settled ds sl sl' :
  slot_settled sl sl' → node_order ds (nodes sl) → node_order ds (nodes sl').
Proof. intros [_ [->| ->]]; [done|apply node_order_skip]. Qed.

Lemma node_order_start ds ns n l :
  node_order ds ns → ns !! n = Some Pending → ds !! n = Some l →
  (∀ d, d ∈ l → ns !! d = Some Done) → node_order ds (<[n := Running]> ns).
Proof.
  intros [Hr Hc] Hn Hl Hdeps.
  assert (Hkeep : ∀ d, ns !! d = Some Done → (<[n := Running]> ns) !! d = Some Done).
  { intros d Hd. rewrite list_lookup_insert_ne; [done|]. intros ->. congruence. }
  assert (Hreach : ∀ d, tc (Frontier.edge ds) n d → ns !! d = Some Done).
  { assert (Hstep : ∀ x d, Frontier.edge ds x d → x = n ∨ ns !! x = Some Done → ns !! d = Some Done).
    { intros x d He [->|Hx]; [|by eauto]. destruct He as (l' & Hl' & Hd). apply Hdeps. congruence. }
    assert (Hgen : ∀ x d, tc (Frontier.edge ds) x d → x = n ∨ ns !! x = Some Done → ns !! d = Some Done)
      by (induction 1; eauto).
    eauto. }
  split.
  - intros m d Hm Hd. apply Hkeep. apply list_lookup_insert_Some in Hm as [(<- & _)|[_ Hm]]; eauto.
  - intros m k d Hm Hk He. apply Hkeep.
    apply list_lookup_insert_Some in Hm as [(_ & ? & _)|[_ Hm]]; [done|].
    apply list_lookup_insert_Some in Hk as [(_ & ? & _)|[_ Hk]]; [done|]. eauto.
Qed.

Lemma node_order_finish ds ns n :
  node_order ds ns → ns !! n = Some Running → node_order ds (<[n := Done]> ns).
Proof.
  intros [Hr Hc] Hn.
  assert (Hkeep : ∀ d, ns !! d = Some Done → (<[n := Done]> ns) !! d = Some Done).
  { intros d Hd. rewrite list_lookup_insert_ne; [done|]. intros ->. congruence. }
  split.
  - intros m d Hm Hd. apply Hkeep. apply list_lookup_insert_Some in Hm as [(_ & ? & _)|[_ Hm]]; eauto.
    done.
  - intros m k d Hm Hk He. apply Hkeep.
    apply list_lookup_insert_Some in Hm as [(_ & ? & _)|[_ Hm]]; [done|].
    apply list_lookup_insert_Some in Hk as [(<- & _)|[_ Hk]]; [|by eauto].
    eapply Hr; [done|]. by apply tc_once.
Qed.

Lemma node_order_pending ds ns : Forall (λ st, st = Pending) ns → node_order ds ns.
Proof.
  rewrite Forall_lookup. intros H.
  split; intros *; [intros Hn%H; done|intros _ Hn%H; done].
Qed.

(** ** Blockers *)

Definition count_conflicts (h : heap) (jobs : list Job) (g : nat) : nat :=
  length (filter (λ e, graphs_conflict h (graph e) g = true) jobs).

(** Each submission counts the earlier pending ones that conflict with it. *)
Definition blockers_ok (sch : Scheduler) (h : heap) : Prop :=
  ∀ i job, pending sch !! i = Some job →
    blockers job = count_conflicts h (take i (pending sch)) (graph job).

Lemma count_conflicts_cons h e jobs g :
  count_conflicts h (e :: jobs) g
  = ((if graphs_conflict h (graph e) g then 1 else 0) + count_conflicts h jobs g)%nat.
Proof.
  unfold count_conflicts. rewrite filter_cons.
  destruct (graphs_conflict h (graph e) g), (decide _); done.
Qed.

Lemma count_conflicts_app h a b g :
  count_conflicts h (a ++ b) g = (count_conflicts h a g + count_conflicts h b g)%nat.
Proof. unfold count_conflicts. by rewrite filter_app, length_app. Qed.

Lemma count_conflicts_graphs h h' a b g :
  same_statics h h' → graph <$> a = graph <$> b → count_conflicts h' a g = count_conflicts h b g.
Proof.
  intros Hst. revert b. induction a as [|x a IH]; intros [|y b]; try done.
  rewrite !fmap_cons. intros [= Hx Hab]. rewrite !count_conflicts_cons, (IH b Hab), Hx.
  by rewrite (same_statics_conflict h h').
Qed.

Lemma blockers_ok_statics sch h h' : same_statics h h' → blockers_ok sch h → blockers_ok sch h'.
Proof.
  intros Hst H i job Hi. rewrite (H i job Hi). symmetry. by apply count_conflicts_graphs.
Qed.

Lemma unblock_graph h job later : graph (unblock h job later) = graph later.
Proof. unfold unblock. by case_bool. Qed.

Lemma blockers_ok_enqueue h g s deps sch sch' :
  blockers_ok sch h → enqueue h g s deps sch = Some sch' → blockers_ok sch' h.
Proof.
  intros H He. unfold enqueue, take_sequence in He.
  destruct (checked_add _ _) as [n|]; simpl in He; [|done]. injection He as <-. simpl.
  intros i job Hi; simpl in Hi |- *. apply lookup_app_Some in Hi as [Hi|[Hlen Hi]].
  - rewrite take_app_le by (apply lookup_lt_Some in Hi; simpl; lia). by apply H.
  - apply list_lookup_singleton_Some in Hi as [Hz <-]. simpl in *.
    rewrite take_app_le, take_ge by lia. done.
Qed.

Lemma blockers_ok_remove h index sch sch' job :
  blockers_ok sch h → remove h index sch = Some (sch', job) → blockers_ok sch' h.
Proof.
  intros H Hr. unfold remove in Hr. destruct (pending sch !! index) as [j|] eqn:Ej; simpl in Hr; [|done].
  injection Hr as <- ->. intros i x Hx; simpl in Hx |- *.
  pose proof (lookup_lt_Some _ _ _ Ej) as Hlt.
  assert (Htl : length (take index (pending sch)) = index) by (rewrite length_take; lia).
  apply lookup_app_Some in Hx as [Hx|[Hle Hx]].
  - pose proof (lookup_lt_Some _ _ _ Hx) as Hi. rewrite take_app_le by lia.
    rewrite take_take, Nat.min_l by lia. apply H. rewrite lookup_take_Some in Hx. tauto.
  - rewrite Htl in *. rewrite list_lookup_fmap in Hx.
    destruct (drop (S index) (pending sch) !! (i - index)%nat) as [y|] eqn:Ey; simpl in Hx; [|done].
    injection Hx as <-. pose proof Ey as Ey'. rewrite lookup_drop in Ey.
    replace (S index + (i - index))%nat with (S i) in Ey by lia.
    rewrite take_app_ge, Htl, count_conflicts_app by lia.
    rewrite unblock_graph, <-fmap_take.
    rewrite (count_conflicts_graphs h h (unblock h job <$> take (i - index) (drop (S index) (pending sch)))
      (take (i - index) (drop (S index) (pending sch))));
      [|done|rewrite <-list_fmap_compose; apply list_fmap_ext; intros; apply unblock_graph].
    pose proof (H _ _ Ey) as Hb.
    assert (Hsplit : take (S i) (pending sch)
      = take index (pending sch) ++ job :: take (i - index) (drop (S index) (pending sch))).
    { rewrite <-(take_drop_middle _ _ _ Ej) at 1. rewrite take_app_ge, Htl by lia.
      by replace (S i - index)%nat with (S (i - index)) by lia. }
    rewrite Hsplit, count_conflicts_app, count_conflicts_cons in Hb.
    unfold unblock. destruct (graphs_conflict h (graph job) (graph y)); simpl; lia.
Qed.

(** ** The invariant *)

(** The submissions being finished and the regions in flight. *)
Definition fin_job (t : Token) : option Job :=
  match t with TFinish job _ | TReleased job _ => Some job | _ => None end.
Definition run_node (t : Token) : option (nat * nat * nat) :=
  match t with TRun g s n | TRan g s n _ => Some (g, s, n) | _ => None end.
Definition fin_jobs (ts : list Token) : list Job := omap fin_job ts.
Definition run_nodes (ts : list Token) : list (nat * nat * nat) := omap run_node ts.

(** The lanes in use. *)
Definition run_lanes (h : heap) (ts : list Token) : list nat :=
  (λ '(g, _, n), node_queue h g n) <$> run_nodes ts.
Definition native_lanes (sch : Scheduler) : list nat :=
  if native_active sch then [compute_lane] else [].

(** The slot of a submission that is not published: its signal is not done. *)
Definition unpublished (h : heap) (job : Job) (P : Slot → Prop) : Prop :=
  ∃ sl sig, slot_at h (graph job) (slot job) = Some sl
    ∧ signal_at h (graph job) (slot job) = Some sig
    ∧ P sl ∧ Completion.done_flag sig = false.
Definition token_ok (h : heap) (t : Token) : Prop :=
  match t with
  | TFinish job _ => unpublished h job (λ sl, occupied sl = true ∧ all_done sl = true)
  | TReleased job _ => unpublished h job (λ sl, occupied sl = false ∧ all_done sl = true)
  | _ => True
  end.

Record Inv (reg : gmap Z View.Storage) (sch : Scheduler) (h : heap) (ts : list Token) : Prop := {
  inv_graphs : ∀ g p, h !! g = Some p → well_prepared reg p;
  inv_locs : NoDup (loc <$> pending sch ++ fin_jobs ts);
  inv_pending : ∀ job, job ∈ pending sch → unpublished h job (λ sl, occupied sl = true);
  inv_tokens : ∀ t, t ∈ ts → token_ok h t;
  inv_finishing : finishing sch ≡ₚ sequence <$> fin_jobs ts;
  inv_sorted : StronglySorted Z.lt (sequence <$> pending sch);
  inv_bound : ∀ x, x ∈ (sequence <$> pending sch) ++ finishing sch ++ native sch →
    0 <= x < next_sequence sch;
  inv_native : StronglySorted Z.lt (native sch);
  inv_runs : NoDup (run_nodes ts);
  inv_running : ∀ g s n, (g, s, n) ∈ run_nodes ts ↔ node_at h g s n = Some Running;
  inv_active : ∀ g s n, (g, s, n) ∈ run_nodes ts →
    ∃ job, job ∈ pending sch ∧ loc job = (g, s) ∧ blockers job = 0%nat;
  inv_order : ∀ g ops s sl, ops_at h g = Some ops → slot_at h g s = Some sl →
    node_order (op_dependencies <$> ops) (nodes sl);
  inv_blockers : blockers_ok sch h;
  inv_lane_count : length (running sch) = lane_count;
  inv_lanes_nodup : NoDup (run_lanes h ts ++ native_lanes sch);
  inv_lanes : ∀ l, lane_running sch l = true ↔ l ∈ run_lanes h ts ++ native_lanes sch;
  inv_capacity : (sched_occupied sch ≤ capacity sch)%nat;
  inv_sequence : 0 <= next_sequence sch }.

Lemma fin_jobs_cons t ts : fin_jobs (t :: ts) = option_list (fin_job t) ++ fin_jobs ts.
Proof. by destruct t. Qed.
Lemma run_nodes_cons t ts : run_nodes (t :: ts) = option_list (run_node t) ++ run_nodes ts.
Proof. by destruct t. Qed.

(** The order of the tokens does not matter. *)
Lemma Inv_perm reg sch h ts ts' : ts ≡ₚ ts' → Inv reg sch h ts → Inv reg sch h ts'.
Proof.
  intros Hp [].
  assert (Hf : fin_jobs ts ≡ₚ fin_jobs ts') by (unfold fin_jobs; by rewrite Hp).
  assert (Hr : run_nodes ts ≡ₚ run_nodes ts') by (unfold run_nodes; by rewrite Hp).
  assert (Hl : run_lanes h ts ≡ₚ run_lanes h ts') by (unfold run_lanes; by rewrite Hr).
  split; try done.
  - by rewrite <-Hf.
  - intros t Ht. apply inv_tokens0. by rewrite Hp.
  - by rewrite <-Hf.
  - by rewrite <-Hr.
  - intros. by rewrite <-Hr.
  - intros g s n. rewrite <-Hr. apply inv_active0.
  - by rewrite <-Hl.
  - intros. by rewrite <-Hl.
Qed.

Lemma tokens_insert (ts : list Token) i t t' :
  ts !! i = Some t → <[i := t']> ts ≡ₚ t' :: delete i ts.
Proof.
  intros Hi. rewrite insert_take_drop by (by eapply lookup_lt_Some).
  rewrite delete_take_drop. by rewrite Permutation_middle.
Qed.

(** Changing what neither slots nor signals' completion say. *)
Lemma unpublished_signals h h' job (P : Slot → Prop) :
  (∀ g s, slot_at h' g s = slot_at h g s) →
  (∀ g s, Completion.done_flag <$> signal_at h' g s = Completion.done_flag <$> signal_at h g s) →
  unpublished h job P → unpublished h' job P.
Proof.
  intros Hsl Hsig (sl & sig & E1 & E2 & HP & Hd). specialize (Hsig (graph job) (slot job)).
  rewrite E2 in Hsig. destruct (signal_at h' (graph job) (slot job)) as [sig'|] eqn:E; [|done].
  exists sl, sig'. rewrite Hsl. split_and!; try done. simpl in Hsig. congruence.
Qed.

Lemma node_queue_statics h h' g n : same_statics h h' → node_queue h' g n = node_queue h g n.
Proof.
  intros Hst. pose proof (same_statics_ops h h' g Hst) as H. unfold ops_at, node_queue in *.
  destruct (h' !! g), (h !! g); simpl in *; congruence.
Qed.

Lemma run_lanes_statics h h' ts : same_statics h h' → run_lanes h' ts = run_lanes h ts.
Proof.
  intros Hst. unfold run_lanes. apply list_fmap_ext. intros i [[g s] n] _.
  by apply node_queue_statics.
Qed.

(** A graph stays well prepared when its slots keep their number of nodes. *)
Lemma well_prepared_evolves reg h h' :
  same_statics h h' →
  (∀ g s sl', slot_at h' g s = Some sl' →
     ∃ sl, slot_at h g s = Some sl ∧ length (nodes sl') = length (nodes sl)) →
  (∀ g p, h !! g = Some p → well_prepared reg p) → ∀ g p, h' !! g = Some p → well_prepared reg p.
Proof.
  intros Hst Hsl Hall g p Hp. destruct (same_statics_lookup _ _ _ _ Hst Hp) as (p0 & Hp0 & Hs).
  destruct (Hall g p0 Hp0) as [H1 H2 H3 H4 H5 H6]. unfold statics in Hs. simplify_eq/=.
  split; try (by rewrite ?H, ?H0 in *; eauto); try congruence.
  - intros s sl' Hsl'. destruct (Hsl g s sl') as (sl & E & ->).
    { unfold slot_at. rewrite Hp. done. }
    unfold slot_at in E. rewrite Hp0 in E. simpl in E. rewrite (H4 s sl E). congruence.
Qed.

(** Steps that change neither slots nor completion flags keep the invariant. *)
Lemma Inv_signals reg sch h h' ts :
  same_statics h h' → (∀ g s, slot_at h' g s = slot_at h g s) →
  (∀ g s, Completion.done_flag <$> signal_at h' g s = Completion.done_flag <$> signal_at h g s) →
  Inv reg sch h ts → Inv reg sch h' ts.
Proof.
  intros Hst Hsl Hsig [].
  assert (Hun : ∀ job P, unpublished h job P → unpublished h' job P)
    by (intros *; by apply unpublished_signals).
  split; try done.
  - eapply well_prepared_evolves; [done| |done]. intros g s sl' E. rewrite Hsl in E. eauto.
  - auto.
  - intros t Ht. specialize (inv_tokens0 t Ht). destruct t; simpl in *; auto.
  - intros g s n. unfold node_at. rewrite Hsl. apply inv_running0.
  - intros g ops s sl. rewrite (same_statics_ops h h'), Hsl by done. apply inv_order0.
  - by eapply blockers_ok_statics.
  - by rewrite (run_lanes_statics h h').
  - intros l. by rewrite (run_lanes_statics h h').
Qed.

Lemma all_done_spec sl : all_done sl = true ↔ ∀ n st, nodes sl !! n = Some st → st = Done.
Proof.
  unfold all_done. rewrite <-Forall_lookup. split.
  - intros H. rewrite forallb_forall in H. apply Forall_forall. intros st Hst%list_elem_of_In.
    specialize (H st Hst). unfold is_done in H. by apply bool_decide_eq_true in H.
  - rewrite Forall_forall. intros H. apply forallb_forall. intros st Hst%list_elem_of_In.
    apply bool_decide_eq_true. auto.
Qed.

Lemma all_done_settled sl sl' : slot_settled sl sl' → all_done sl = true → all_done sl' = true.
Proof.
  rewrite !all_done_spec. intros [_ [E|E]] H n st; rewrite E; [apply H|].
  rewrite list_lookup_fmap. destruct (nodes sl !! n) as [st0|] eqn:En; simpl; [|done].
  rewrite (H n st0 En). by intros [= <-].
Qed.

Lemma node_running_settled sl sl' n :
  slot_settled sl sl' → nodes sl' !! n = Some Running ↔ nodes sl !! n = Some Running.
Proof.
  intros [_ [->| ->]]; [done|]. rewrite list_lookup_fmap. by destruct (nodes sl !! n) as [[]|].
Qed.

Lemma unpublished_settles h h' job (P : Slot → Prop) :
  settles h h' → (∀ sl sl', slot_settled sl sl' → P sl → P sl') →
  unpublished h job P → unpublished h' job P.
Proof.
  intros [_ Hsig Hsl] HP (sl & sig & E1 & E2 & H & Hd).
  specialize (Hsl (graph job) (slot job)). rewrite E1 in Hsl. destruct Hsl as (sl' & E & ?).
  exists sl', sig. rewrite Hsig. split_and!; try done. eauto.
Qed.

(** Settling keeps the invariant. *)
Lemma Inv_settles reg sch h h' ts : settles h h' → Inv reg sch h ts → Inv reg sch h' ts.
Proof.
  intros Hset []. pose proof Hset as [Hst Hsig Hsl].
  assert (Hback : ∀ g s sl', slot_at h' g s = Some sl' →
    ∃ sl, slot_at h g s = Some sl ∧ slot_settled sl sl').
  { intros g s sl' E. specialize (Hsl g s). destruct (slot_at h g s) as [sl|]; [|congruence].
    destruct Hsl as (sl2 & E2 & ?). exists sl. split; [done|]. congruence. }
  split; try done.
  - eapply well_prepared_evolves; [done| |done]. intros g s sl' E.
    destruct (Hback g s sl' E) as (sl & ? & Hs). exists sl. split; [done|].
    destruct Hs as [_ [->| ->]]; by rewrite ?length_fmap.
  - intros job Hj. eapply unpublished_settles; [done| |by apply inv_pending0].
    intros sl sl' [-> _]. done.
  - intros t Ht. specialize (inv_tokens0 t Ht).
    destruct t; simpl in *; try done; (eapply unpublished_settles; [done| |done]);
      intros sl sl' Hs [Ho Hd]; (split; [destruct Hs; congruence|by eapply all_done_settled]).
  - intros g s n. rewrite inv_running0. unfold node_at. specialize (Hsl g s).
    destruct (slot_at h g s) as [sl|]; [|by rewrite Hsl].
    destruct Hsl as (sl' & -> & Hs). simpl. by rewrite (node_running_settled sl sl').
  - intros g ops s sl' Ho E. rewrite (same_statics_ops h h') in Ho by done.
    destruct (Hback g s sl' E) as (sl & ? & Hs). eapply node_order_settled; eauto.
  - by eapply blockers_ok_statics.
  - by rewrite (run_lanes_statics h h').
  - intros l. by rewrite (run_lanes_statics h h').
Qed.

(** ** Slot updates *)

Lemma unpublished_on_slot_ne h job g s f (P : Slot → Prop) :
  loc job ≠ (g, s) → unpublished h job P → unpublished (on_slot g s f h) job P.
Proof.
  intros Hne (sl & sig & E1 & E2 & HP). exists sl, sig.
  rewrite slot_at_on_slot_ne, signal_at_on_slot; [done|]. intros [= -> ->]. by apply Hne.
Qed.

Lemma unpublished_on_slot h job f (P Q : Slot → Prop) :
  (∀ sl, P sl → Q (f sl)) → unpublished h job P → unpublished (on_slot (graph job) (slot job) f h) job Q.
Proof.
  intros HPQ (sl & sig & E1 & E2 & HP & Hd). exists (f sl), sig.
  rewrite slot_at_on_slot_eq, signal_at_on_slot, E1. split_and!; auto.
Qed.

Lemma well_prepared_on_slot reg h g s f :
  (∀ sl, slot_at h g s = Some sl → length (nodes (f sl)) = length (nodes sl)) →
  (∀ g p, h !! g = Some p → well_prepared reg p) →
  ∀ g' p, on_slot g s f h !! g' = Some p → well_prepared reg p.
Proof.
  intros Hf. apply well_prepared_evolves; [statics|].
  intros g' s' sl'. rewrite slot_at_on_slot. destruct (decide _) as [[= <- <-]|_]; [|by eauto].
  destruct (slot_at h g s) as [sl|] eqn:E; [|done]. intros [= <-]. eauto.
Qed.

Lemma node_at_on_slot h g s f g' s' n :
  node_at (on_slot g s f h) g' s' n
  = if decide ((g, s) = (g', s')) then sl ← slot_at h g s; nodes (f sl) !! n else node_at h g' s' n.
Proof.
  unfold node_at. rewrite slot_at_on_slot. destruct (decide _); [|done]. by destruct (slot_at h g s).
Qed.

Lemma loc_pending_fin reg sch h ts job job' :
  Inv reg sch h ts → job ∈ pending sch → job' ∈ fin_jobs ts → loc job ≠ loc job'.
Proof.
  intros [] Hj Hj'. rewrite fmap_app in inv_locs0. apply NoDup_app in inv_locs0 as (_ & Hd & _).
  intros Heq. apply (Hd (loc job)); apply list_elem_of_fmap; eauto.
Qed.

Lemma token_fin t ts job : t ∈ ts → fin_job t = Some job → job ∈ fin_jobs ts.
Proof. intros Ht Hj. apply list_elem_of_omap. eauto. Qed.

(** A token of another submission does not see a slot update. *)
Lemma token_ok_on_slot h t g s f :
  (∀ job, fin_job t = Some job → loc job ≠ (g, s)) → token_ok h t → token_ok (on_slot g s f h) t.
Proof.
  intros Hne Ht. destruct t; simpl in *; try done; apply unpublished_on_slot_ne; auto.
Qed.

(** ** Starting and completing a region *)

Lemma queue_lt op : (queue op < lane_count)%nat.
Proof. unfold queue, lane_count. destruct (engine op), (lane op); simpl; lia. Qed.

Lemma lane_running_insert (rs : list bool) l b l' :
  (l < length rs)%nat →
  default false (<[l := b]> rs !! l') = if decide (l = l') then b else default false (rs !! l').
Proof.
  intros Hl. destruct (decide (l = l')) as [<-|Hne].
  - by rewrite list_lookup_insert_eq.
  - by rewrite list_lookup_insert_ne.
Qed.

Lemma candidate_unfold sch h l ji n job :
  pending sch !! ji = Some job → candidate_ok sch h l ji n →
  ∃ ops op sl, ops_at h (graph job) = Some ops ∧ ops !! n = Some op ∧ queue op = l
    ∧ slot_at h (graph job) (slot job) = Some sl ∧ blockers job = 0%nat
    ∧ lane_running sch l = false ∧ nodes sl !! n = Some Pending
    ∧ ∀ d, d ∈ op_dependencies op → nodes sl !! d = Some Done.
Proof.
  intros Hji (job' & ops & op & sl & Hji' & ? & ? & <- & ? & ? & Hr).
  rewrite Hji in Hji'. injection Hji' as <-. unfold node_ready in Hr. to_prop.
  exists ops, op, sl. split_and!; try done.
  - by apply bool_decide_eq_true in H5.
  - intros d Hd. rewrite forallb_forall in H4. specialize (H4 d). rewrite <-list_elem_of_In in H4.
    by apply bool_decide_eq_true in H4.
Qed.

Lemma node_queue_op h g n ops op : ops_at h g = Some ops → ops !! n = Some op → node_queue h g n = queue op.
Proof.
  unfold ops_at, node_queue. destruct (h !! g) as [p|]; [|done]. simpl. intros [= ->] ->. done.
Qed.

(** Updating the nodes of a pending submission keeps what graphs, pending
    submissions and tokens say of the other slots. *)
Lemma Inv_slot_update reg sch h ts job f :
  Inv reg sch h ts → job ∈ pending sch →
  (∀ sl, occupied (f sl) = occupied sl ∧ length (nodes (f sl)) = length (nodes sl)) →
  let h' := on_slot (graph job) (slot job) f h in
  (∀ g p, h' !! g = Some p → well_prepared reg p)
  ∧ (∀ job', job' ∈ pending sch → unpublished h' job' (λ sl, occupied sl = true))
  ∧ (∀ t, t ∈ ts → token_ok h' t).
Proof.
  intros HI Hjob Hf. pose proof HI as []. split_and!.
  - apply well_prepared_on_slot; [|done]. intros sl _. apply Hf.
  - intros job' Hj'. destruct (decide (loc job' = (graph job, slot job))) as [Heq|Hne].
    + injection Heq as Hg Hs. rewrite <-Hg, <-Hs.
      eapply unpublished_on_slot; [|by apply inv_pending0]. intros sl. by rewrite (proj1 (Hf sl)).
    + apply unpublished_on_slot_ne; auto.
  - intros t Ht. apply token_ok_on_slot; [|auto].
    intros job' Hj' Heq. eapply (loc_pending_fin reg sch h ts job job'); try done.
    by eapply token_fin.
Qed.

Lemma Inv_start reg sch h ts l ji n job :
  Inv reg sch h ts → pending sch !! ji = Some job → candidate_ok sch h l ji n →
  Inv reg (start_lane l (sequence job) sch) (on_slot (graph job) (slot job) (set_node n Running) h)
    (TRun (graph job) (slot job) n :: ts).
Proof.
  intros HI Hji Hc. pose proof HI as [].
  destruct (candidate_unfold _ _ _ _ _ _ Hji Hc)
    as (ops & op & sl & Hops & Hop & Hq & Hsl & Hb & Hlane & Hn & Hdeps).
  pose proof (on_slot_statics (graph job) (slot job) (set_node n Running) h) as Hst.
  assert (Hjob : job ∈ pending sch) by (by eapply list_elem_of_lookup_2).
  assert (Hlt : (l < length (running sch))%nat) by (rewrite inv_lane_count0, <-Hq; apply queue_lt).
  assert (Hlanes : run_lanes (on_slot (graph job) (slot job) (set_node n Running) h)
    (TRun (graph job) (slot job) n :: ts) = l :: run_lanes h ts).
  { rewrite (run_lanes_statics h) by done. unfold run_lanes. rewrite run_nodes_cons. simpl.
    by rewrite (node_queue_op h _ n ops op), Hq. }
  destruct (Inv_slot_update reg sch h ts job (set_node n Running) HI Hjob) as (? & ? & Htok).
  { intros sl'. split; [done|]. apply length_insert. }
  split; try done.
  - intros t [->|Ht]%elem_of_cons; [done|]. by apply Htok.
  - rewrite run_nodes_cons. simpl. apply NoDup_cons. split; [|done].
    rewrite inv_running0. unfold node_at. rewrite Hsl. simpl. congruence.
  - intros g s m. rewrite run_nodes_cons. simpl. rewrite elem_of_cons, inv_running0, node_at_on_slot.
    destruct (decide ((graph job, slot job) = (g, s))) as [[= <- <-]|Hne].
    + unfold node_at. rewrite Hsl. simpl. destruct (decide (n = m)) as [<-|Hnm].
      * rewrite list_lookup_insert_eq by (by eapply lookup_lt_Some). naive_solver.
      * rewrite list_lookup_insert_ne by done. naive_solver.
    + naive_solver.
  - intros g s m. rewrite run_nodes_cons. simpl. intros [[= -> -> ->]|?]%elem_of_cons; eauto.
  - intros g ops' s sl'. rewrite (same_statics_ops h) by done. rewrite slot_at_on_slot.
    destruct (decide _) as [[= <- <-]|_]; [|by eauto]. rewrite Hsl. intros Ho [= <-].
    rewrite Hops in Ho. injection Ho as <-. simpl.
    eapply node_order_start; [by eauto|done| |done]. by rewrite list_lookup_fmap, Hop.
  - by eapply blockers_ok_statics.
  - simpl. by rewrite length_insert.
  - rewrite Hlanes. simpl. apply NoDup_cons. split; [|done]. rewrite <-inv_lanes0, Hlane. done.
  - intros l'. rewrite Hlanes. unfold lane_running at 1; simpl.
    rewrite lane_running_insert, elem_of_cons by done. fold (lane_running sch l').
    pose proof (inv_lanes0 l'). destruct (decide (l = l')); naive_solver.
Qed.

(** The heap of [complete_run] up to the finished node: a failure quarantines
    the graph, which the invariant does not see. *)
Lemma complete_run_form reg sch h sts g s n failure ts sch' h' sts' :
  Inv reg sch h ts → complete_run g s n failure sch h sts = (sch', h', sts') →
  ∃ h0, Inv reg sch h0 ts ∧ sch' = stop_lane (node_queue h0 g n) sch
        ∧ h' = on_slot g s (finish_node n failure) h0.
Proof.
  intros HI Hcr. exists (match failure with Some _ => alter set_quarantined g h | None => h end).
  unfold complete_run in Hcr. destruct failure; injection Hcr as <- <- <-; [|done].
  split_and!; [|by rewrite (node_queue_statics h (alter set_quarantined g h)) by apply quarantine_statics|done].
  eapply (Inv_signals reg sch h); [statics|..|done].
  - intros. apply slot_at_quarantine.
  - intros *. by rewrite signal_at_quarantine.
Qed.

(** Finishing a running node removes exactly it from the running ones. *)
Lemma running_finish h gj sj n failure sl runs :
  slot_at h gj sj = Some sl → nodes sl !! n = Some Running → (gj, sj, n) ∉ runs →
  (∀ g s m, (g, s, m) ∈ (gj, sj, n) :: runs ↔ node_at h g s m = Some Running) →
  ∀ g s m, (g, s, m) ∈ runs ↔ node_at (on_slot gj sj (finish_node n failure) h) g s m = Some Running.
Proof.
  intros Hsl Hrun Hnotin Hiff g s m. rewrite node_at_on_slot. specialize (Hiff g s m).
  rewrite elem_of_cons in Hiff. destruct (decide ((gj, sj) = (g, s))) as [[= <- <-]|Hne].
  - rewrite Hsl. simpl. destruct (decide (n = m)) as [<-|Hnm].
    + rewrite list_lookup_insert_eq by (by eapply lookup_lt_Some). naive_solver.
    + rewrite list_lookup_insert_ne by done. unfold node_at in Hiff. rewrite Hsl in Hiff. simpl in Hiff.
      rewrite <-Hiff. naive_solver.
  - rewrite <-Hiff. naive_solver.
Qed.

Lemma Inv_complete reg sch h sts g s n failure ts sch' h' sts' :
  Inv reg sch h (TRan g s n failure :: ts) →
  complete_run g s n failure sch h sts = (sch', h', sts') → Inv reg sch' h' ts.
Proof.
  intros HI Hcr. destruct (complete_run_form _ _ _ _ _ _ _ _ _ _ _ _ HI Hcr) as (h0 & HI0 & -> & ->).
  clear HI Hcr h. rename h0 into h. pose proof HI0 as []. set (l := node_queue h g n) in *.
  assert (Hrn : run_nodes (TRan g s n failure :: ts) = (g, s, n) :: run_nodes ts) by done.
  rewrite Hrn in inv_runs0. setoid_rewrite Hrn in inv_running0. setoid_rewrite Hrn in inv_active0.
  clear Hrn. apply NoDup_cons in inv_runs0 as [Hnotin Hnd].
  assert (Hrun : node_at h g s n = Some Running) by (apply inv_running0; by left).
  unfold node_at in Hrun. destruct (slot_at h g s) as [sl|] eqn:Hsl; [|done]. simpl in Hrun.
  destruct (inv_active0 g s n) as (job & Hjob & [= Hg Hs] & Hb); [by left|]. subst g s.
  pose proof (on_slot_statics (graph job) (slot job) (finish_node n failure) h) as Hst.
  assert (Hlanes0 : run_lanes h (TRan (graph job) (slot job) n failure :: ts) = l :: run_lanes h ts)
    by (unfold run_lanes; by rewrite run_nodes_cons).
  rewrite Hlanes0 in inv_lanes_nodup0. setoid_rewrite Hlanes0 in inv_lanes0.
  simpl in inv_lanes_nodup0. apply NoDup_cons in inv_lanes_nodup0 as [Hl Hndl].
  assert (Hlt : (l < length (running sch))%nat).
  { assert (Hr : lane_running sch l = true) by (apply inv_lanes0; by left).
    unfold lane_running in Hr. destruct (running sch !! l) eqn:E; [by eapply lookup_lt_Some|done]. }
  destruct (Inv_slot_update _ _ _ _ job (finish_node n failure) HI0 Hjob) as (? & ? & Htok).
  { intros sl'. split; [done|]. apply length_insert. }
  split; try done.
  - intros t Ht. apply Htok. by right.
  - by eapply running_finish.
  - intros g s m Hm. apply (inv_active0 g s m). by right.
  - intros g ops' s sl'. rewrite (same_statics_ops h) by done. rewrite slot_at_on_slot.
    destruct (decide _) as [[= <- <-]|_]; [|by eauto]. rewrite Hsl. intros Ho [= <-]. simpl.
    apply node_order_finish; eauto.
  - by eapply blockers_ok_statics.
  - simpl. by rewrite length_insert.
  - by rewrite (run_lanes_statics h).
  - intros l'. rewrite (run_lanes_statics h) by done. unfold lane_running at 1; simpl.
    rewrite lane_running_insert by done. fold (lane_running sch l').
    pose proof (inv_lanes0 l') as Hl'. simpl in Hl'. rewrite elem_of_cons in Hl'.
    unfold native_lanes in *; simpl.
    destruct (decide (l = l')) as [<-|]; [|rewrite Hl'; naive_solver]. split; [done|]. by intros ?%Hl.
Qed.

(** ** Finishing a submission *)

Lemma StronglySorted_delete {A} (R : A → A → Prop) i l :
  StronglySorted R l → StronglySorted R (delete i l).
Proof.
  revert i; induction l as [|x l IH]; intros [|i] Hs; simpl; try done; inversion_clear Hs; [done|].
  constructor; [auto|]. by apply Forall_delete.
Qed.

(** What [remove] keeps of the other submissions. *)
Lemma remove_fields {A} (f : Job → A) h ji sch sch' job :
  (∀ j, f (unblock h job j) = f j) → remove h ji sch = Some (sch', job) →
  f <$> pending sch' = delete ji (f <$> pending sch).
Proof.
  intros Hf Hr. unfold remove in Hr. destruct (pending sch !! ji) as [j|]; simpl in Hr; [|done].
  injection Hr as <- ->. simpl. rewrite fmap_app, <-list_fmap_compose, delete_take_drop.
  rewrite <-fmap_take, <-fmap_drop. f_equal. apply list_fmap_ext. intros. apply Hf.
Qed.

Lemma unblock_loc h job j : loc (unblock h job j) = loc j.
Proof. unfold unblock. by case_bool. Qed.
Lemma unblock_sequence h job j : sequence (unblock h job j) = sequence j.
Proof. unfold unblock. by case_bool. Qed.

Lemma remove_elem h ji sch sch' job j :
  remove h ji sch = Some (sch', job) →
  (j ∈ pending sch' → ∃ j0, j0 ∈ pending sch ∧ (j = j0 ∨ j = unblock h job j0))
  ∧ (j ∈ pending sch → j ≠ job → ∃ j1, j1 ∈ pending sch' ∧ (j1 = j ∨ j1 = unblock h job j)).
Proof.
  intros Hr. unfold remove in Hr. destruct (pending sch !! ji) as [x|] eqn:E; simpl in Hr; [|done].
  injection Hr as <- ->. simpl.
  pose proof (take_drop_middle _ _ _ E) as Hsplit. revert Hsplit.
  generalize (take ji (pending sch)) (drop (S ji) (pending sch)). intros a b <-.
  rewrite !elem_of_app, elem_of_cons, list_elem_of_fmap. split.
  - intros [Hj|(j0 & -> & Hj)]; [exists j|exists j0]; rewrite elem_of_app, elem_of_cons; auto.
  - intros Hj Hne. destruct Hj as [Hj|[->|Hj]]; [exists j|done|exists (unblock h job j)];
      rewrite elem_of_app, list_elem_of_fmap; eauto 8.
Qed.

Lemma Inv_finish reg sch h ts ji job sl sch' f :
  Inv reg sch h ts → pending sch !! ji = Some job → slot_at h (graph job) (slot job) = Some sl →
  all_done sl = true → remove h ji sch = Some (sch', job) → Inv reg sch' h (TFinish job f :: ts).
Proof.
  intros HI Hji Hsl Hd Hr. pose proof HI as [].
  assert (Hjob : job ∈ pending sch) by (by eapply list_elem_of_lookup_2).
  assert (Hrest : finishing sch' = finishing sch ++ [sequence job] ∧ capacity sch' = capacity sch
    ∧ next_sequence sch' = next_sequence sch ∧ native sch' = native sch ∧ running sch' = running sch
    ∧ native_active sch' = native_active sch ∧ length (pending sch) = S (length (pending sch'))).
  { unfold remove in Hr. rewrite Hji in Hr. simpl in Hr. injection Hr as <-. simpl. split_and!; try done.
    rewrite <-(take_drop_middle _ _ _ Hji) at 1. rewrite !length_app, length_fmap. simpl. lia. }
  destruct Hrest as (Ef & Ec & En & Et & Er & Ea & Hlen).
  pose proof (remove_fields loc h ji sch sch' job (unblock_loc h job) Hr) as Hlocs.
  pose proof (remove_fields sequence h ji sch sch' job (unblock_sequence h job) Hr) as Hseqs.
  assert (Hploc : loc <$> pending sch ≡ₚ loc job :: (loc <$> pending sch')).
  { rewrite Hlocs. apply delete_Permutation. by rewrite list_lookup_fmap, Hji. }
  assert (Hpseq : sequence <$> pending sch ≡ₚ sequence job :: (sequence <$> pending sch')).
  { rewrite Hseqs. apply delete_Permutation. by rewrite list_lookup_fmap, Hji. }
  split; try (by rewrite ?Er, ?En); try done.
  - rewrite fmap_app, fin_jobs_cons. simpl. rewrite fmap_app, Hploc in inv_locs0. simpl in inv_locs0.
    by rewrite <-Permutation_middle.
  - intros j Hj. destruct (remove_elem _ _ _ _ _ j Hr) as [Hin _].
    destruct (Hin Hj) as (j0 & Hj0 & Hor). pose proof (inv_pending0 j0 Hj0) as Hu.
    unfold unpublished in *. assert (Hl : loc j = loc j0) by (destruct Hor; subst; [done|apply unblock_loc]).
    injection Hl as -> ->. done.
  - intros t [->|Ht]%elem_of_cons; [|by auto]. simpl.
    destruct (inv_pending0 job Hjob) as (sl' & sig & E1 & ? & ? & ?).
    exists sl', sig. split_and!; try done. congruence.
  - rewrite Ef, fin_jobs_cons. simpl. rewrite inv_finishing0. by rewrite Permutation_app_comm.
  - rewrite Hseqs. by apply StronglySorted_delete.
  - intros x Hx. rewrite En. apply inv_bound0. rewrite Ef, Et in Hx. rewrite Hpseq. set_solver.
  - by rewrite Et.
  - intros g s n Hn. destruct (inv_active0 g s n Hn) as (j & Hj & Hl & Hb).
    assert (Hne : j ≠ job).
    { intros ->. injection Hl as <- <-. apply inv_running0 in Hn. unfold node_at in Hn.
      rewrite Hsl in Hn. simpl in Hn. rewrite all_done_spec in Hd. by specialize (Hd _ _ Hn). }
    destruct (remove_elem _ _ _ _ _ j Hr) as [_ Hout]. destruct (Hout Hj Hne) as (j1 & Hj1 & Hor).
    exists j1. split; [done|]. destruct Hor as [->| ->]; [done|]. rewrite unblock_loc. split; [done|].
    unfold unblock. case_bool; simpl; lia.
  - by eapply blockers_ok_remove.
  - unfold native_lanes. rewrite Ea. done.
  - intros l. unfold lane_running, native_lanes. rewrite Er, Ea. apply inv_lanes0.
  - rewrite Ec. unfold sched_occupied in *. rewrite Ef, Et, Ea, length_app. simpl. lia.
Qed.

Lemma loc_fin_fin reg sch h t ts job job' :
  Inv reg sch h (t :: ts) → fin_job t = Some job → job' ∈ pending sch ++ fin_jobs ts → loc job' ≠ loc job.
Proof.
  intros [] Ht Hj'. rewrite fin_jobs_cons, Ht in inv_locs0. simpl in inv_locs0.
  rewrite <-Permutation_middle in inv_locs0. simpl in inv_locs0.
  apply NoDup_cons in inv_locs0 as [Hnot _]. intros Heq. apply Hnot. rewrite <-Heq.
  apply list_elem_of_fmap. eauto.
Qed.

(** Dropping or cloning handles changes only observer counts. *)
Lemma fold_handles_frame (f : Handle → heap → heap) deps h :
  (∀ d h, f d h = h ∨ ∃ g s u, f d h = on_signal g s u h
     ∧ ∀ x, Completion.done_flag (u x) = Completion.done_flag x) →
  let h' := foldl (λ h d, f d h) h deps in
  same_statics h h' ∧ (∀ g s, slot_at h' g s = slot_at h g s)
  ∧ (∀ g s, Completion.done_flag <$> signal_at h' g s = Completion.done_flag <$> signal_at h g s).
Proof.
  intros Hf. revert h. induction deps as [|d deps IH]; intros h; simpl; [done|].
  destruct (IH (f d h)) as (Hst & Hsl & Hsig). split_and!.
  - eapply same_statics_trans; [|done].
    destruct (Hf d h) as [->|(g & s & u & -> & _)]; [done|statics].
  - intros g s. rewrite Hsl. destruct (Hf d h) as [->|(g' & s' & u & -> & _)]; [done|].
    apply slot_at_on_signal.
  - intros g s. rewrite Hsig. destruct (Hf d h) as [->|(g' & s' & u & -> & Hu)]; [done|].
    rewrite signal_at_on_signal. destruct (decide _) as [[= <- <-]|_]; [|done].
    destruct (signal_at h g' s'); simpl; [|done]. by rewrite Hu.
Qed.

Lemma drop_handle_form d h :
  drop_handle d h = h ∨ ∃ g s u, drop_handle d h = on_signal g s u h
     ∧ ∀ x, Completion.done_flag (u x) = Completion.done_flag x.
Proof. unfold drop_handle. destruct (c_signal d) as [[g s]|]; [right|by left]. by exists g, s, Completion.unobserve. Qed.
Lemma clone_handle_form d h :
  clone_handle d h = h ∨ ∃ g s u, clone_handle d h = on_signal g s u h
     ∧ ∀ x, Completion.done_flag (u x) = Completion.done_flag x.
Proof. unfold clone_handle. destruct (c_signal d) as [[g s]|]; [right|by left]. by exists g, s, Completion.observe. Qed.

Lemma Inv_release reg sch h job f ts c h' c' :
  Inv reg sch h (TFinish job f :: ts) → release_job job h c = (h', c') →
  Inv reg sch h' (TReleased job f :: ts).
Proof.
  intros HI Hr. unfold release_job in Hr. injection Hr as <- _.
  destruct (fold_handles_frame drop_handle (dependencies job)
    (on_slot (graph job) (slot job) release_slot h) drop_handle_form) as (Hst & Hsl & Hsig).
  eapply Inv_signals; [exact Hst|exact Hsl|exact Hsig|]. clear Hst Hsl Hsig.
  pose proof HI as [].
  pose proof (on_slot_statics (graph job) (slot job) release_slot h) as Hst.
  assert (Hnode : ∀ g s n, node_at (on_slot (graph job) (slot job) release_slot h) g s n = node_at h g s n).
  { intros g s n. rewrite node_at_on_slot. destruct (decide _) as [[= <- <-]|_]; [|done].
    unfold node_at. by destruct (slot_at h (graph job) (slot job)). }
  split; try done.
  - by apply well_prepared_on_slot.
  - intros j Hj. apply unpublished_on_slot_ne; [|by auto].
    eapply (loc_fin_fin _ _ _ _ _ job j HI); [done|]. apply elem_of_app. by left.
  - intros t [->|Ht]%elem_of_cons.
    + simpl. eapply unpublished_on_slot; [|by apply (inv_tokens0 (TFinish job f)); left].
      intros sl [_ ?]. done.
    + apply token_ok_on_slot; [|by apply inv_tokens0; right]. intros j Hj.
      eapply (loc_fin_fin _ _ _ _ _ job j HI); [done|]. apply elem_of_app. right. by eapply token_fin.
  - intros. rewrite Hnode. apply inv_running0.
  - intros g ops s sl. rewrite (same_statics_ops h) by done. rewrite slot_at_on_slot.
    destruct (decide _) as [[= <- <-]|_]; [|by eauto].
    destruct (slot_at h (graph job) (slot job)) eqn:E; [|done]. intros Ho [= <-]. simpl. eauto.
  - by eapply blockers_ok_statics.
  - by rewrite (run_lanes_statics h).
  - intros l. by rewrite (run_lanes_statics h).
Qed.

(** ** Publishing *)

Lemma unpublished_on_signal_ne h job g s f (P : Slot → Prop) :
  loc job ≠ (g, s) → unpublished h job P → unpublished (on_signal g s f h) job P.
Proof.
  intros Hne (sl & sig & E1 & E2 & HP). exists sl, sig.
  rewrite slot_at_on_signal, signal_at_on_signal, decide_False; [done|].
  intros [= -> ->]. by apply Hne.
Qed.

Lemma token_ok_on_signal h t g s f :
  (∀ job, fin_job t = Some job → loc job ≠ (g, s)) → token_ok h t → token_ok (on_signal g s f h) t.
Proof.
  intros Hne Ht. destruct t; simpl in *; try done; apply unpublished_on_signal_ne; auto.
Qed.

(** Facts of the invariant that do not see signals at all. *)
Lemma well_prepared_on_signal reg h g s f :
  (∀ g p, h !! g = Some p → well_prepared reg p) →
  ∀ g' p, on_signal g s f h !! g' = Some p → well_prepared reg p.
Proof.
  apply well_prepared_evolves; [statics|].
  intros g' s' sl'. rewrite slot_at_on_signal. eauto.
Qed.

Lemma Inv_publish reg sch h now job f ts sch' h' woken :
  Inv reg sch h (TReleased job f :: ts) → publish_job now job f sch h = Some (sch', h', woken) →
  Inv reg sch' h' ts.
Proof.
  intros HI Hp. unfold publish_job in Hp.
  destruct (list_find (λ x, x = sequence job) (finishing sch)) as [[i x]|] eqn:Ef; simpl in Hp; [|done].
  apply list_find_Some in Ef as (Hi & -> & _). injection Hp as <- <- _.
  pose proof HI as []. pose proof (swap_remove_perm _ _ _ Hi) as Hperm.
  set (u := λ x, (Completion.publish now f x).1).
  pose proof (on_signal_statics (graph job) (slot job) u h) as Hst.
  assert (Hother : ∀ j, j ∈ pending sch ++ fin_jobs ts → loc j ≠ loc job)
    by (intros j; by apply (loc_fin_fin _ _ _ _ _ job j HI)).
  split; try done.
  - by apply well_prepared_on_signal.
  - rewrite fin_jobs_cons in inv_locs0. simpl in inv_locs0.
    rewrite <-Permutation_middle in inv_locs0. simpl in inv_locs0.
    by apply NoDup_cons in inv_locs0 as [_ ?].
  - intros j Hj. apply unpublished_on_signal_ne; [|by auto]. apply Hother. apply elem_of_app. by left.
  - intros t Ht. apply token_ok_on_signal; [|by apply inv_tokens0; right].
    intros j Hj. apply Hother. apply elem_of_app. right. by eapply token_fin.
  - simpl. rewrite fin_jobs_cons in inv_finishing0. simpl in inv_finishing0.
    rewrite Hperm in inv_finishing0. by apply Permutation_cons_inv in inv_finishing0.
  - intros x Hx. apply inv_bound0. simpl in Hx. rewrite Hperm. set_solver.
  - intros. unfold node_at. rewrite slot_at_on_signal. apply inv_running0.
  - intros g ops s sl. rewrite (same_statics_ops h), slot_at_on_signal by done. eauto.
  - by eapply blockers_ok_statics.
  - by rewrite (run_lanes_statics h).
  - intros l. rewrite (run_lanes_statics h) by done. apply inv_lanes0.
  - apply Permutation_length in Hperm. unfold sched_occupied in *. simpl in *. lia.
Qed.

(** The panic of [publish_job] is unreachable. *)
Lemma publish_job_total reg sch h now job f ts :
  Inv reg sch h (TReleased job f :: ts) →
  ∃ sch' h' woken, publish_job now job f sch h = Some (sch', h', woken).
Proof.
  intros []. unfold publish_job.
  assert (Hin : sequence job ∈ finishing sch).
  { rewrite inv_finishing0, fin_jobs_cons. simpl. by left. }
  destruct (list_find_elem_of (λ s, s = sequence job) _ _ Hin eq_refl) as [[i x] ->]. simpl. eauto.
Qed.

(** ** Admission *)

Lemma take_sequence_Some sch sch' n :
  take_sequence sch = Some (sch', n) →
  n = next_sequence sch ∧ next_sequence sch' = next_sequence sch + 1
  ∧ pending sch' = pending sch ∧ capacity sch' = capacity sch ∧ finishing sch' = finishing sch
  ∧ running sch' = running sch ∧ native sch' = native sch ∧ native_active sch' = native_active sch
  ∧ last_started sch' = last_started sch ∧ next_lane sch' = next_lane sch ∧ shutdown sch' = shutdown sch.
Proof.
  unfold take_sequence. destruct (checked_add _ _) as [m|] eqn:E; simpl; [|done].
  intros [= <- <-]. apply checked_add_Some in E as [-> _]. done.
Qed.

Lemma enqueue_Some h g s deps sch sch' :
  enqueue h g s deps sch = Some sch' →
  ∃ b, pending sch' = pending sch ++ [mkJob (next_sequence sch) g s b deps]
  ∧ next_sequence sch' = next_sequence sch + 1
  ∧ capacity sch' = capacity sch ∧ finishing sch' = finishing sch
  ∧ running sch' = running sch ∧ native sch' = native sch ∧ native_active sch' = native_active sch.
Proof.
  unfold enqueue. destruct (take_sequence sch) as [[sch1 n]|] eqn:E; simpl; [|done].
  intros [= <-]. apply take_sequence_Some in E as (-> & ? & Hp & ? & ? & ? & ? & ? & _).
  eexists. simpl. rewrite Hp. done.
Qed.

Lemma StronglySorted_snoc (l : list Z) x :
  StronglySorted Z.lt l → (∀ y, y ∈ l → y < x) → StronglySorted Z.lt (l ++ [x]).
Proof.
  intros Hs Hlt. apply StronglySorted_app_2; [|done|repeat constructor].
  intros y z Hy ->%list_elem_of_singleton. auto.
Qed.

(** Claiming a free slot: the heap part of an admission. *)
(** Claiming a free slot: the heap [submit_after] leaves for [enqueue]. *)
Definition claim (now : Z) (g s : nat) (h : heap) : heap :=
  on_slot g s reset_slot (on_signal g s (Completion.reset now) h).

Lemma claim_spec now g s sl sig h :
  slot_at h g s = Some sl → signal_at h g s = Some sig →
  same_statics h (claim now g s h)
  ∧ (∀ g' s', (g, s) ≠ (g', s') → slot_at (claim now g s h) g' s' = slot_at h g' s')
  ∧ slot_at (claim now g s h) g s = Some (reset_slot sl)
  ∧ signal_at (claim now g s h) g s = Some (Completion.reset now sig).
Proof.
  intros Hsl Hsig. unfold claim. split_and!.
  - statics.
  - intros. by rewrite slot_at_on_slot_ne, slot_at_on_signal.
  - by rewrite slot_at_on_slot_eq, slot_at_on_signal, Hsl.
  - by rewrite signal_at_on_slot, signal_at_on_signal, decide_True, Hsig.
Qed.

(** A slot whose signal is published carries no submission in flight. *)
Lemma unpublished_not_done h g s sig j P :
  signal_at h g s = Some sig → Completion.done_flag sig = true → unpublished h j P → loc j ≠ (g, s).
Proof. intros Hsig Hdone (sl' & sig' & E1 & E2 & _ & Hd) [= <- <-]. congruence. Qed.

Lemma free_slot_unused reg sch h ts g s sig j :
  Inv reg sch h ts → signal_at h g s = Some sig → Completion.done_flag sig = true →
  j ∈ pending sch ++ fin_jobs ts → loc j ≠ (g, s).
Proof.
  intros HI Hsig Hdone [Hj|Hj]%elem_of_app.
  - eapply unpublished_not_done; [done..|]. by apply (inv_pending _ _ _ _ HI).
  - apply list_elem_of_omap in Hj as (t & Ht & Hj). pose proof (inv_tokens _ _ _ _ HI t Ht) as Hok.
    destruct t; simpl in *; simplify_eq; by eapply unpublished_not_done.
Qed.

(** Resetting a free slot keeps the running nodes. *)
Lemma running_claim reg sch h ts now g s sl sig :
  Inv reg sch h ts → slot_at h g s = Some sl → signal_at h g s = Some sig → Completion.done_flag sig = true →
  ∀ g' s' n, (g', s', n) ∈ run_nodes ts ↔ node_at (claim now g s h) g' s' n = Some Running.
Proof.
  intros HI Hsl Hsig Hdone g' s' n. destruct (claim_spec now g s sl sig h Hsl Hsig) as (_ & Hslot & Hslot_eq & _).
  rewrite (inv_running _ _ _ _ HI). unfold node_at.
  destruct (decide ((g, s) = (g', s'))) as [[= <- <-]|Hne]; [|by rewrite Hslot].
  rewrite Hslot_eq, Hsl. simpl. rewrite list_lookup_fmap.
  pose proof (inv_running _ _ _ _ HI g s n) as Hr. unfold node_at in Hr. rewrite Hsl in Hr. simpl in Hr.
  rewrite <-Hr. split; [|by destruct (nodes sl !! n)]. intros Hn. exfalso.
  destruct (inv_active _ _ _ _ HI g s n Hn) as (j & Hj & Hl & _).
  eapply free_slot_unused; [done..| |exact Hl]. apply elem_of_app. by left.
Qed.

Lemma Inv_claim reg sch h ts g s sl sig now sch' deps :
  Inv reg sch h ts → slot_at h g s = Some sl → signal_at h g s = Some sig →
  occupied sl = false → Completion.done_flag sig = true →
  (sched_occupied sch < capacity sch)%nat →
  enqueue (claim now g s h) g s deps sch = Some sch' → Inv reg sch' (claim now g s h) ts.
Proof.
  intros HI Hsl Hsig Hocc Hdone Hcap He. pose proof HI as [].
  destruct (claim_spec now g s sl sig h Hsl Hsig) as (Hst & Hslot & Hslot_eq & Hsig_eq).
  assert (Hun : ∀ j P, unpublished h j P → unpublished (claim now g s h) j P).
  { intros j P Hu. assert (loc j ≠ (g, s)) by (by apply (unpublished_not_done h g s sig j P)).
    by apply unpublished_on_slot_ne, unpublished_on_signal_ne. }
  pose proof (blockers_ok_enqueue _ _ _ _ _ _ (blockers_ok_statics _ _ _ Hst inv_blockers0) He) as Hblk.
  apply enqueue_Some in He as (b & Ep & En & Ec & Ef & Er & Et & Ea).
  split; rewrite ?Ep, ?En, ?Ef, ?Er, ?Et; try done.
  - eapply well_prepared_on_slot; [|by apply well_prepared_on_signal].
    intros ? _. simpl. by rewrite length_fmap.
  - rewrite <-app_assoc. simpl. rewrite <-Permutation_middle. simpl. apply NoDup_cons. split; [|done].
    rewrite list_elem_of_fmap. intros (j & Hl & Hj). by eapply free_slot_unused.
  - intros j [Hj| ->%list_elem_of_singleton]%elem_of_app; [by auto|].
    eexists _, _. simpl. split_and!; [exact Hslot_eq|exact Hsig_eq|done|done].
  - intros t Ht. specialize (inv_tokens0 t Ht). destruct t; simpl in *; auto.
  - rewrite fmap_app. apply StronglySorted_snoc; [done|]. intros y Hy. simpl.
    apply inv_bound0. apply elem_of_app. by left.
  - intros x Hx. rewrite fmap_app, <-!app_assoc, !elem_of_app in Hx. simpl in Hx.
    rewrite list_elem_of_singleton in Hx.
    assert (0 <= x < next_sequence sch ∨ x = next_sequence sch); [|lia].
    destruct Hx as [Hx|[->|[Hx|Hx]]]; [left|by right|left|left]; apply inv_bound0; set_solver.
  - by eapply running_claim.
  - intros g' s' n Hn. destruct (inv_active0 g' s' n Hn) as (j & Hj & ?). exists j. set_solver.
  - intros g' ops s' sl' Ho Hsl'. rewrite (same_statics_ops h) in Ho by done.
    destruct (decide ((g, s) = (g', s'))) as [[= <- <-]|Hne]; [|rewrite Hslot in Hsl'; eauto].
    rewrite Hslot_eq in Hsl'. injection Hsl' as <-. apply node_order_pending. simpl.
    apply Forall_fmap, Forall_true. done.
  - unfold native_lanes. by rewrite (run_lanes_statics h), Ea.
  - intros l. unfold lane_running, native_lanes. rewrite (run_lanes_statics h), Ea, Er by done.
    apply inv_lanes0.
  - unfold sched_occupied in *. rewrite Ep, Ef, Et, Ea, Ec, length_app. simpl. lia.
  - lia.
Qed.

Lemma enqueue_statics h h' g s deps sch :
  same_statics h h' → enqueue h' g s deps sch = enqueue h g s deps sch.
Proof.
  intros Hst. pose proof (count_conflicts_graphs h h' (pending sch) (pending sch) g Hst eq_refl) as Hc.
  unfold count_conflicts in Hc. unfold enqueue. by rewrite Hc.
Qed.

(** What an accepted submission did. *)
Lemma admit_Ok id now g deps sch h sts c sch' h' c' hd :
  admission id now g deps sch h sts c = Some (Ok (sch', h', c', hd)) →
  ∃ p s sl sig, h !! g = Some p ∧ slots p !! s = Some sl ∧ signals p !! s = Some sig
    ∧ slot_free (sl, sig) ∧ (sched_occupied sch < capacity sch)%nat
    ∧ check_host_conflicts sts (uses p) = Ok tt
    ∧ hd = mkHandle (Some id) (Some (g, s)) ∧ c' = Stats.count_submission c
    ∧ h' = foldl (λ h d, clone_handle d h)
             (on_signal g s Completion.observe
               (on_slot g s reset_slot (on_signal g s (Completion.reset now) h))) deps
    ∧ enqueue h' g s deps sch = Some sch'.
Proof.
  unfold admission. destruct (Nat.leb_spec (capacity sch) (sched_occupied sch)) as [|Hlt]; [done|].
  destruct (h !! g) as [p|] eqn:Eg; simpl; [|done].
  destruct (check_host_conflicts sts (uses p)) as [[]|] eqn:Ec; [|done].
  destruct (list_find slot_free (zip (slots p) (signals p))) as [[s [sl sig]]|] eqn:Ef; [|done].
  apply list_find_Some in Ef as (Hz & Hfree & _). apply lookup_zip_Some in Hz as [Hsl Hsig].
  set (h1 := foldl _ _ _). destruct (enqueue h1 g s deps sch) as [sch1|] eqn:Ee; simpl; [|done].
  intros [= <- <- <- <-]. exists p, s, sl, sig. done.
Qed.

Lemma Inv_admit reg id now g deps sch h sts c sch' h' c' hd ts :
  Inv reg sch h ts → admission id now g deps sch h sts c = Some (Ok (sch', h', c', hd)) →
  Inv reg sch' h' ts.
Proof.
  intros HI Ha.
  apply admit_Ok in Ha as (p & s & sl & sig & Eg & Hsl & Hsig & (Ho & _ & Hd) & Hcap & _ & _ & _ & Eh & He).
  simpl in Ho, Hd. set (h1 := on_slot g s reset_slot (on_signal g s (Completion.reset now) h)) in *.
  destruct (fold_handles_frame clone_handle deps (on_signal g s Completion.observe h1)
    clone_handle_form) as (Hst & Hslots & Hsigs).
  assert (Hst' : same_statics h1 h').
  { subst h'. statics. }
  apply (Inv_signals reg sch' h1); [done| | |].
  - intros. subst h'. rewrite Hslots. apply slot_at_on_signal.
  - intros g' s'. subst h'. rewrite Hsigs, signal_at_on_signal.
    destruct (decide _) as [[= <- <-]|_]; [|done]. by destruct (signal_at h1 g s).
  - rewrite (enqueue_statics h1 h') in He by done.
    eapply (Inv_claim reg sch h ts g s sl sig now); try done.
    + unfold slot_at. by rewrite Eg.
    + unfold signal_at. by rewrite Eg.
Qed.

(** ** Native stages *)

(** The scheduler part of the invariant that native stages touch. *)
Lemma Inv_native reg sch sch' h ts :
  Inv reg sch h ts → pending sch' = pending sch → finishing sch' = finishing sch →
  capacity sch' = capacity sch → next_sequence sch <= next_sequence sch' →
  StronglySorted Z.lt (native sch') → (∀ x, x ∈ native sch' → 0 <= x < next_sequence sch') →
  length (running sch') = lane_count →
  NoDup (run_lanes h ts ++ native_lanes sch') →
  (∀ l, lane_running sch' l = true ↔ l ∈ run_lanes h ts ++ native_lanes sch') →
  (sched_occupied sch' ≤ capacity sch)%nat → Inv reg sch' h ts.
Proof.
  intros [] Ep Ef Ec Hseq Hs Hb Hlen Hnd Hl Hcap. split; rewrite ?Ep, ?Ef, ?Ec; try done.
  - intros x. rewrite !elem_of_app. intros [Hx|[Hx|Hx]]; [..|by apply Hb];
      (assert (0 <= x < next_sequence sch); [apply inv_bound0; set_solver|lia]).
  - intros i job Hi. rewrite Ep in *. by apply inv_blockers0.
  - lia.
Qed.

Lemma native_snoc reg sch h ts :
  Inv reg sch h ts →
  StronglySorted Z.lt (native sch ++ [next_sequence sch])
  ∧ ∀ x, x ∈ native sch ++ [next_sequence sch] → 0 <= x < next_sequence sch + 1.
Proof.
  intros []. assert (Hb : ∀ x, x ∈ native sch → 0 <= x < next_sequence sch)
    by (intros; apply inv_bound0; set_solver).
  split; [apply StronglySorted_snoc; [done|]; intros; by apply Hb|].
  intros x [Hx| ->%list_elem_of_singleton]%elem_of_app; [specialize (Hb x Hx)|]; lia.
Qed.

Lemma Inv_native_enter reg sch h ts sch' ticket :
  Inv reg sch h ts → native_enter sch = Some (Ok (sch', ticket)) → Inv reg sch' h ts.
Proof.
  intros HI. pose proof HI as []. unfold native_enter.
  destruct (Nat.leb_spec (capacity sch) (sched_occupied sch)); [done|].
  destruct (take_sequence sch) as [[sch1 n]|] eqn:E; simpl; [|done]. intros [= <- <-].
  apply take_sequence_Some in E as (-> & En & Ep & Ec & Ef & Er & Et & Ea & _).
  destruct (native_snoc _ _ _ _ HI) as [Hs Hb].
  apply (Inv_native reg sch); simpl; rewrite ?Ep, ?Ef, ?Ec, ?En, ?Er, ?Et; try done; try lia.
  - unfold native_lanes; simpl. by rewrite Ea.
  - intros l. unfold lane_running, native_lanes; simpl. rewrite Er, Ea. apply inv_lanes0.
  - unfold sched_occupied in *; simpl. rewrite Ep, Ef, Et, Ea, length_app. simpl. lia.
Qed.

Lemma native_release_lanes reg sch h ts :
  Inv reg sch h ts → native_active sch = true →
  length (<[compute_lane := false]> (running sch)) = lane_count
  ∧ NoDup (run_lanes h ts)
  ∧ (∀ l, default false (<[compute_lane := false]> (running sch) !! l) = true ↔ l ∈ run_lanes h ts).
Proof.
  intros [] Ha. unfold native_lanes in *. rewrite Ha in *.
  apply NoDup_app in inv_lanes_nodup0 as (Hnd & Hd & _).
  split_and!; [by rewrite length_insert|done|]. intros l.
  rewrite lane_running_insert by (rewrite inv_lane_count0; unfold compute_lane, lane_count; simpl; lia).
  specialize (inv_lanes0 l). rewrite elem_of_app, list_elem_of_singleton in inv_lanes0.
  destruct (decide (compute_lane = l)) as [<-|Hne].
  - split; [done|]. intros Hin. exfalso. apply (Hd _ Hin). by left.
  - unfold lane_running in inv_lanes0. rewrite inv_lanes0. naive_solver.
Qed.

Lemma Inv_native_release reg sch h ts :
  Inv reg sch h ts → native_active sch = true → Inv reg (native_release sch) h ts.
Proof.
  intros HI Ha. pose proof HI as [].
  destruct (native_release_lanes _ _ _ _ HI Ha) as (Hlen & Hnd & Hl).
  apply (Inv_native reg sch); simpl; try done.
  - intros. apply inv_bound0. set_solver.
  - unfold native_lanes; simpl. by rewrite app_nil_r.
  - intros l. unfold native_lanes; simpl. rewrite app_nil_r. apply Hl.
  - unfold sched_occupied in *; simpl. rewrite Ha in inv_capacity0. lia.
Qed.

Lemma Inv_native_yield reg sch h ts sch' ticket :
  Inv reg sch h ts → native_active sch = true → native_yield sch = Some (sch', ticket) →
  Inv reg sch' h ts.
Proof.
  intros HI Ha. pose proof HI as []. unfold native_yield.
  destruct (take_sequence sch) as [[sch1 n]|] eqn:E; simpl; [|done]. intros [= <- <-].
  apply take_sequence_Some in E as (-> & En & Ep & Ec & Ef & Er & Et & Ea & _).
  destruct (native_snoc _ _ _ _ HI) as [Hs Hb].
  destruct (native_release_lanes _ _ _ _ HI Ha) as (Hlen & Hnd & Hl).
  apply (Inv_native reg sch); simpl; rewrite ?Ep, ?Ef, ?Ec, ?En, ?Er, ?Et; try done; try lia.
  - unfold native_lanes; simpl. by rewrite app_nil_r.
  - intros l. unfold lane_running, native_lanes; simpl. rewrite Er, app_nil_r. apply Hl.
  - unfold sched_occupied in *; simpl. rewrite Ha in inv_capacity0.
    rewrite Ep, Ef, Et, length_app. simpl. lia.
Qed.

Lemma native_ready_front sch ticket :
  native_ready sch ticket = true →
  head (native sch) = Some ticket ∧ lane_running sch compute_lane = false
  ∧ (∀ j, j ∈ pending sch → ticket <= sequence j) ∧ (∀ x, x ∈ finishing sch → ticket <= x).
Proof.
  unfold native_ready. intros H. to_prop. apply bool_decide_eq_true in H. split_and!; try done.
  - intros j Hj. assert (E : ¬ existsb (λ job, sequence job <? ticket) (pending sch) = true) by congruence.
    rewrite existsb_exists in E. apply Z.nlt_ge. intros Hlt. apply E. exists j.
    rewrite <-list_elem_of_In. split; [done|]. by apply Z.ltb_lt.
  - intros x Hx. assert (E : ¬ existsb (λ s, s <? ticket) (finishing sch) = true) by congruence.
    rewrite existsb_exists in E. apply Z.nlt_ge. intros Hlt. apply E. exists x.
    rewrite <-list_elem_of_In. split; [done|]. by apply Z.ltb_lt.
Qed.

Lemma Inv_native_grant reg sch h ts ticket :
  Inv reg sch h ts → native_ready sch ticket = true → Inv reg (native_grant sch) h ts.
Proof.
  intros HI (Hhd & Hlane & _)%native_ready_front. pose proof HI as [].
  assert (Ha : native_active sch = false).
  { destruct (native_active sch) eqn:Ea; [|done]. exfalso.
    assert (lane_running sch compute_lane = true); [|congruence].
    apply inv_lanes0. unfold native_lanes. rewrite Ea. set_solver. }
  unfold native_lanes in *. rewrite Ha in *. rewrite app_nil_r in inv_lanes_nodup0.
  assert (Hnot : compute_lane ∉ run_lanes h ts).
  { intros Hin. assert (lane_running sch compute_lane = true); [|congruence].
    apply inv_lanes0. set_solver. }
  destruct (native sch) as [|t rest] eqn:Et; [done|]. inversion inv_native0; subst.
  apply (Inv_native reg sch); unfold native_lanes; simpl; rewrite ?Et; try done.
  - intros x Hx. apply inv_bound0. set_solver.
  - by rewrite length_insert.
  - apply NoDup_app. split_and!; [done| |apply NoDup_singleton]. set_solver.
  - intros l. unfold lane_running; simpl.
    rewrite lane_running_insert by (rewrite inv_lane_count0; unfold compute_lane, lane_count; simpl; lia).
    specialize (inv_lanes0 l). unfold lane_running in inv_lanes0. rewrite app_nil_r in inv_lanes0.
    rewrite elem_of_app, list_elem_of_singleton. destruct (decide (compute_lane = l)) as [<-|].
    + split; [by right|done].
    + rewrite inv_lanes0. naive_solver.
  - unfold sched_occupied in *; simpl. rewrite Ha, Et in inv_capacity0. rewrite Et. simpl in *. lia.
Qed.

End SchedSafety.
