(* ===== verification/SchedulerTheorems.v ===== *)
(** * Theorems on the coordinated runtime

    Every step of [SchedulerSteps] keeps the invariant of [SchedulerSafety];
    its consequences for the clients of the runtime: regions in flight are free
    of memory hazards, lanes are exclusive, native stages are first come first
    served, capacity is respected, and failures are contained. *)

From S2P Require Import Prelude Access DependencyFrontier BufferView Dependencies Completion Buffer Trace Statistics Scheduler SchedulerSteps SchedulerHeap SchedulerSafety.
Local Open Scope Z_scope.

Module SchedTheorems.
Import Sched Steps SchedHeap SchedSafety.

(** ** Every step keeps the invariant *)

Definition world_inv (w : World) : Prop := Inv (storages w) (sched w) (graphs w) (tokens w).

Lemma Inv_registry reg reg' sch h ts : reg ⊆ reg' → Inv reg sch h ts → Inv reg' sch h ts.
Proof.
  intros Hsub []. split; try done. intros g p Hp. destruct (inv_graphs0 g p Hp) as [Hreg ?].
  split; try done. intros op u Hop Hu. destruct (Hreg op u Hop Hu) as [? ?]. split; [|done].
  by eapply lookup_weaken.
Qed.

Lemma slot_at_insert (h : heap) g p g' s :
  slot_at (<[g := p]> h) g' s = if decide (g = g') then slots p !! s else slot_at h g' s.
Proof. unfold slot_at. rewrite lookup_insert. by destruct (decide (g = g')). Qed.
Lemma signal_at_insert (h : heap) g p g' s :
  signal_at (<[g := p]> h) g' s = if decide (g = g') then signals p !! s else signal_at h g' s.
Proof. unfold signal_at. rewrite lookup_insert. by destruct (decide (g = g')). Qed.

Lemma slot_at_absent h g s : h !! g = None → slot_at h g s = None.
Proof. intros Hg. unfold slot_at. by rewrite Hg. Qed.

Lemma count_conflicts_uses h h' jobs g :
  (∀ j, j ∈ jobs → graph_uses h' (graph j) = graph_uses h (graph j)) →
  graph_uses h' g = graph_uses h g → count_conflicts h' jobs g = count_conflicts h jobs g.
Proof.
  intros Hj Hg. induction jobs as [|j jobs IH]; [done|]. rewrite !count_conflicts_cons, IH.
  - unfold graphs_conflict. by rewrite Hg, Hj by by left.
  - intros. apply Hj. by right.
Qed.

(** A new graph does not touch existing submissions. *)
Lemma Inv_prepare reg sch h ts g p :
  Inv reg sch h ts → h !! g = None → well_prepared reg p → fresh_graph p →
  Inv reg sch (<[g := p]> h) ts.
Proof.
  intros HI Hg Hwp [_ Hfs _]. pose proof HI as [].
  assert (Hslot : ∀ g' s, is_Some (slot_at h g' s) → slot_at (<[g := p]> h) g' s = slot_at h g' s).
  { intros g' s [sl Hs]. rewrite slot_at_insert, decide_False; [done|]. intros <-.
    by rewrite slot_at_absent in Hs. }
  assert (Hun : ∀ j P, unpublished h j P → unpublished (<[g := p]> h) j P).
  { intros j P (sl & sig & E1 & E2 & ?). exists sl, sig. rewrite Hslot by eauto.
    rewrite signal_at_insert, decide_False; [done|]. intros Heq. by rewrite <-Heq, slot_at_absent in E1. }
  assert (Hne : ∀ j, j ∈ pending sch → graph j ≠ g).
  { intros j Hj Heq. destruct (inv_pending0 j Hj) as (sl & sig & E1 & _).
    by rewrite Heq, slot_at_absent in E1. }
  assert (Huses : ∀ j, j ∈ pending sch → graph_uses (<[g := p]> h) (graph j) = graph_uses h (graph j)).
  { intros j Hj. unfold graph_uses. rewrite lookup_insert_ne; [done|]. intros Heq. by apply (Hne j). }
  assert (Hlanes : run_lanes (<[g := p]> h) ts = run_lanes h ts).
  { unfold run_lanes. apply list_fmap_ext. intros i [[g' s'] n] Hi%list_elem_of_lookup_2.
    destruct (inv_active0 g' s' n Hi) as (j & Hj & [= <- <-] & _). unfold node_queue.
    rewrite lookup_insert_ne; [done|]. intros Heq. by apply (Hne j). }
  split; try (by rewrite Hlanes); try done.
  - intros g' p'. rewrite lookup_insert. destruct (decide (g = g')); [by intros [= <-]|eauto].
  - auto.
  - intros t Ht. specialize (inv_tokens0 t Ht). destruct t; simpl in *; auto.
  - intros g' s' n. rewrite inv_running0. unfold node_at. rewrite slot_at_insert.
    destruct (decide (g = g')) as [<-|]; [|done]. rewrite slot_at_absent by done. simpl.
    split; [done|]. destruct (slots p !! s') as [sl|] eqn:E; simpl; [|done]. intros Hn.
    destruct (Hfs s' sl E) as (_ & _ & Hall). rewrite Forall_lookup in Hall. by apply Hall in Hn.
  - intros g' ops s' sl. rewrite slot_at_insert. unfold ops_at. rewrite lookup_insert.
    destruct (decide (g = g')) as [<-|]; [|by apply inv_order0]. simpl. intros [= <-] E.
    apply node_order_pending. by apply (Hfs s' sl E).
  - intros i job Hi. rewrite (inv_blockers0 i job Hi). symmetry. apply count_conflicts_uses.
    + intros j Hj. apply Huses. eapply elem_of_submseteq; [done|]. apply sublist_submseteq, sublist_take.
    + apply Huses. by eapply list_elem_of_lookup_2.
Qed.

Lemma Inv_on_signal reg sch h ts g s u :
  (∀ x, Completion.done_flag (u x) = Completion.done_flag x) →
  Inv reg sch h ts → Inv reg sch (on_signal g s u h) ts.
Proof.
  intros Hu. apply Inv_signals; [apply on_signal_statics|apply slot_at_on_signal|].
  intros g' s'. rewrite signal_at_on_signal. destruct (decide _) as [[= <- <-]|_]; [|done].
  destruct (signal_at h g s); simpl; [|done]. by rewrite Hu.
Qed.

Lemma Inv_handles reg sch h h' ts :
  (h' = h ∨ ∃ g s u, h' = on_signal g s u h
     ∧ ∀ x, Completion.done_flag (u x) = Completion.done_flag x) →
  Inv reg sch h ts → Inv reg sch h' ts.
Proof. intros [->|(g & s & u & -> & Hu)]; [done|]. by apply Inv_on_signal. Qed.

Lemma poll_done_flag waker x :
  Completion.done_flag (Completion.poll waker x).1 = Completion.done_flag x.
Proof.
  unfold Completion.poll. destruct (Completion.done_flag x) eqn:E; [done|].
  case_bool_decide; [done|]. destruct (Completion.fill_first _ _); simpl; done.
Qed.

(** A region that ran is still in flight until its locked tail. *)
Lemma Inv_ran reg sch h ts g s n failure :
  Inv reg sch h (TRun g s n :: ts) → Inv reg sch h (TRan g s n failure :: ts).
Proof.
  intros []. split; try done.
  intros t [->|Ht]%elem_of_cons; [done|]. apply inv_tokens0. by right.
Qed.

Lemma Inv_take target w w' a : world_inv w → take_action target w = (w', a) → world_inv w'.
Proof.
  unfold world_inv, take_action. intros HI.
  destruct (next_action (sched w) (graphs w) target) as [[sch h] a'] eqn:En. intros [= <- <-]. simpl.
  assert (Hnd : NoDup (loc <$> pending (sched w))).
  { destruct HI. rewrite fmap_app in inv_locs0. by apply NoDup_app in inv_locs0 as [? _]. }
  destruct (next_action_spec _ _ _ _ _ _ Hnd En) as (h1 & Hset & Hok & _).
  pose proof (Inv_settles _ _ _ _ _ Hset HI) as HI1. destruct a' as [[g s n|job f]|]; simpl in Hok.
  - destruct Hok as (ji & job & l & Hji & [= <- <-] & _ & Hc & -> & ->).
    eapply Inv_perm; [apply Permutation_app_comm|]. simpl. by eapply Inv_start.
  - destruct Hok as (ji & sl & Hji & _ & Hsl & Hd & Hr & ->).
    eapply Inv_perm; [apply Permutation_app_comm|]. simpl. by eapply Inv_finish.
  - destruct Hok as [-> ->]. by rewrite app_nil_r.
Qed.

Lemma execute_frame now elapsed g s n maintain backend w w' failure :
  execute now elapsed g s n maintain backend w = (w', failure) →
  (w' = w ∨ ∃ sts' c tr,
     w' = mkWorld (core w) (sched w) (on_signal g s (Completion.mark_started now) (graphs w))
            (storages w) sts' c tr (tokens w) (handles w)).
Proof.
  unfold execute. destruct (graphs w !! g ≫= _) as [op|]; [|intros [= <- <-]; by left].
  destruct (run op maintain backend (sts w) (counters w)) as [[sts' c] outcome].
  intros [= <- <-]. right. eauto.
Qed.

Lemma step_inv w w' : step w w' → world_inv w → world_inv w'.
Proof.
  unfold world_inv. intros Hstep HI. destruct Hstep; simpl; try exact HI.
  - (* allocate *) eapply Inv_registry; [|exact HI]. by apply insert_subseteq.
  - (* prepare *) by apply Inv_prepare.
  - (* submit *) unfold submit in H0.
    destruct (admission _ _ _ _ _ _ _ _) as [[[[[sch h] c] hd]|e]|] eqn:E; simpl in H0; try done.
    injection H0 as <-. simpl. by eapply Inv_admit.
  - (* take *) by eapply Inv_take.
  - (* idle *) by eapply Inv_take.
  - (* execute *) eapply (Inv_perm _ _ _ (TRan g s n failure :: delete i (tokens w))).
    { symmetry. destruct (execute_frame _ _ _ _ _ _ _ _ _ _ H0) as [->|(? & ? & ? & ->)];
        by eapply tokens_insert. }
    assert (HI' : Inv (storages w) (sched w) (graphs w) (TRan g s n failure :: delete i (tokens w))).
    { apply Inv_ran. eapply Inv_perm; [|exact HI]. by apply delete_Permutation. }
    destruct (execute_frame _ _ _ _ _ _ _ _ _ _ H0) as [->|(? & ? & ? & ->)]; simpl; [done|].
    by apply Inv_on_signal.
  - (* complete *) unfold complete.
    destruct (complete_run g s n failure (sched w) (graphs w) (sts w)) as [[sch h] sts'] eqn:E. simpl.
    eapply Inv_complete; [|exact E]. eapply Inv_perm; [|exact HI]. by apply delete_Permutation.
  - (* release *) eapply Inv_perm; [symmetry; by eapply tokens_insert|].
    eapply (Inv_release _ _ _ _ _ _ (counters w)); [|reflexivity]. eapply Inv_perm; [|exact HI]. by apply delete_Permutation.
  - (* publish *) unfold publish in H0.
    destruct (publish_job now job failure (sched w) (graphs w)) as [[[sch h] wk]|] eqn:E; [|done].
    injection H0 as <-. simpl. eapply Inv_publish; [|exact E].
    eapply Inv_perm; [|exact HI]. by apply delete_Permutation.
  - (* clone *) eapply Inv_handles; [apply clone_handle_form|exact HI].
  - (* drop *) eapply Inv_handles; [apply drop_handle_form|exact HI].
  - (* cancel *) by apply Inv_on_signal.
  - (* poll *) apply Inv_on_signal; [|exact HI]. intros. apply poll_done_flag.
  - (* native enter *) by eapply Inv_native_enter.
  - (* native grant *) by eapply Inv_native_grant.
  - (* native yield *) by eapply Inv_native_yield.
  - (* native drop *) by eapply Inv_native_release.
  - (* shutdown *) destruct HI. by split.
Qed.

Lemma new_world_inv id cap : world_inv (new_world id cap).
Proof.
  assert (Hnode : ∀ g s n, node_at ∅ g s n = None).
  { intros. unfold node_at, slot_at. by rewrite lookup_empty. }
  assert (Hlane : ∀ l, lane_running (new_scheduler cap) l = false).
  { intros l. unfold lane_running; simpl. by destruct l as [|[|[|[|[|l]]]]]. }
  unfold world_inv. split; simpl; try done; try (by constructor).
  1-3, 5: by intros * ?%elem_of_nil.
  - intros g s n. rewrite Hnode, elem_of_nil. done.
  - intros l. rewrite Hlane. unfold native_lanes; simpl. by rewrite elem_of_nil.
  - unfold sched_occupied; simpl. lia.
Qed.

Lemma reachable_inv w : reachable w → world_inv w.
Proof.
  intros (id & cap & H).
  assert (Hgen : ∀ x y, rtc step x y → world_inv x → world_inv y).
  { clear. induction 1 as [|x y z Hs _ IH]; [done|]. intros Hx. apply IH. by eapply step_inv. }
  eapply Hgen; [done|]. apply new_world_inv.
Qed.

(** ** Regions in flight *)

(** The accesses of a region in flight. *)
Definition node_uses (w : World) (r : nat * nat * nat) : list Deps.Use :=
  default [] (p ← graphs w !! r.1.1; op ← operations p !! r.2; Some (op_uses op)).

(** Uses of registered allocations are coherent. *)
Lemma registered_coherent (reg : gmap Z View.Storage) us :
  (∀ u, u ∈ us → reg !! View.st_id (use_storage u) = Some (use_storage u) ∧ View.valid (Deps.view u)) →
  Deps.coherent us.
Proof.
  intros H. split.
  - intros u Hu. destruct (H u Hu) as [_ [Hr1 Hr2]]. unfold View.region. simpl.
    destruct (View.st_shared _); simpl; lia.
  - intros u v Hu Hv Heq. destruct (H u Hu) as [E1 _], (H v Hv) as [E2 _].
    unfold use_storage in *. rewrite Heq in E1. congruence.
Qed.

Lemma well_prepared_coherent reg p :
  well_prepared reg p → Deps.coherent (operations p ≫= op_uses).
Proof.
  intros []. apply (registered_coherent reg). intros u Hu.
  apply list_elem_of_bind in Hu as (op & Hu & Hop). eauto.
Qed.

(** Two regions of one submission: the recorded dependencies order hazards. *)
Lemma no_clash_same_slot reg p ns n1 n2 op1 op2 :
  well_prepared reg p → node_order (op_dependencies <$> operations p) ns →
  operations p !! n1 = Some op1 → operations p !! n2 = Some op2 → (n1 < n2)%nat →
  ns !! n1 = Some Running → ns !! n2 = Some Running →
  ¬ Deps.clash_between (op_uses op1) (op_uses op2).
Proof.
  intros [_ Hdeps _ _ _ _] [Hrun _] H1 H2 Hlt R1 R2 (u & v & Hu & Hv & al & x & [Ha1 Hx1] & [Ha2 Hx2] & Hw).
  set (ops := (λ op, Deps.interval_use <$> op_uses op) <$> operations p) in *.
  destruct (Frontier.record_all_recorded ops) as (ds & f & Hds & Hrec).
  rewrite Hdeps in Hds. injection Hds as <-.
  assert (Ht : ∀ n op u, operations p !! n = Some op → u ∈ op_uses op →
    (View.region (Deps.view u)).1 = al → in_range x (View.region (Deps.view u)).2 →
    Frontier.touches ops n al x (Deps.access u)).
  { intros n op w0 Hn Hw0 ? ?. exists (Deps.interval_use <$> op_uses op), (Deps.interval_use w0).
    split_and!; try done; [|apply list_elem_of_fmap; eauto].
    unfold ops. by rewrite list_lookup_fmap, Hn. }
  assert (Hd : ns !! n1 = Some Done); [|congruence].
  eapply Hrun; [exact R2|]. apply (Frontier.rec_complete _ _ _ Hrec); [done|].
  exists al, x, (Deps.access u), (Deps.access v). split_and!; eauto.
Qed.

(** Two regions of different submissions: neither waits for the other, so their
    summaries do not conflict. *)
Lemma unblocked_no_conflict sch h i1 i2 j1 j2 :
  blockers_ok sch h → pending sch !! i1 = Some j1 → pending sch !! i2 = Some j2 → (i1 < i2)%nat →
  blockers j2 = 0%nat → graphs_conflict h (graph j1) (graph j2) = false.
Proof.
  intros Hb H1 H2 Hlt Hz. pose proof (Hb i2 j2 H2) as Hc. rewrite Hz in Hc. symmetry in Hc.
  destruct (graphs_conflict h (graph j1) (graph j2)) eqn:E; [|done].
  unfold count_conflicts in Hc. apply length_zero_iff_nil in Hc.
  assert (Hin : j1 ∈ filter (λ e, graphs_conflict h (graph e) (graph j2) = true) (take i2 (pending sch))).
  { apply list_elem_of_filter. split; [done|]. apply list_elem_of_lookup. exists i1.
    apply lookup_take_Some. done. }
  rewrite Hc in Hin. by apply elem_of_nil in Hin.
Qed.

Lemma clash_between_mono us us' vs vs' :
  (∀ u, u ∈ us → u ∈ us') → (∀ v, v ∈ vs → v ∈ vs') →
  Deps.clash_between us vs → Deps.clash_between us' vs'.
Proof. intros Hu Hv (u & v & ? & ? & ?). exists u, v. auto. Qed.

Lemma no_clash_across reg h g1 g2 p1 p2 n1 n2 op1 op2 :
  h !! g1 = Some p1 → h !! g2 = Some p2 → well_prepared reg p1 → well_prepared reg p2 →
  graphs_conflict h g1 g2 = false →
  operations p1 !! n1 = Some op1 → operations p2 !! n2 = Some op2 →
  ¬ Deps.clash_between (op_uses op1) (op_uses op2).
Proof.
  intros Hp1 Hp2 W1 W2 Hc H1 H2 Hclash. unfold graphs_conflict, graph_uses in Hc.
  rewrite Hp1, Hp2 in Hc. simpl in Hc. rewrite (prep_uses _ _ W1), (prep_uses _ _ W2) in Hc.
  apply not_true_iff_false in Hc. apply Hc.
  apply Deps.conflicts_summaries; [by eapply well_prepared_coherent..|].
  assert (Hin : ∀ p n op u, operations p !! n = Some op → u ∈ op_uses op →
    u ∈ operations p ≫= op_uses).
  { intros p n op u Hn Hu. apply list_elem_of_bind. exists op. split; [done|].
    by eapply list_elem_of_lookup_2. }
  eapply clash_between_mono; [..|done]; eauto.
Qed.

Lemma in_flight_no_clash w r1 r2 :
  world_inv w → r1 ∈ run_nodes (tokens w) → r2 ∈ run_nodes (tokens w) → r1 ≠ r2 →
  ¬ Deps.clash_between (node_uses w r1) (node_uses w r2).
Proof.
  intros HI Hr1 Hr2 Hne. pose proof HI as [].
  destruct r1 as [[g1 s1] n1], r2 as [[g2 s2] n2].
  pose proof (proj1 (inv_running0 _ _ _) Hr1) as R1. pose proof (proj1 (inv_running0 _ _ _) Hr2) as R2.
  unfold node_at in R1, R2.
  destruct (slot_at (graphs w) g1 s1) as [sl1|] eqn:S1, (slot_at (graphs w) g2 s2) as [sl2|] eqn:S2; try done.
  simpl in R1, R2.
  destruct (slot_at_graph _ _ _ _ S1) as (p1 & Hp1 & _), (slot_at_graph _ _ _ _ S2) as (p2 & Hp2 & _).
  pose proof (inv_graphs0 _ _ Hp1) as W1. pose proof (inv_graphs0 _ _ Hp2) as W2.
  unfold node_uses; simpl. rewrite Hp1, Hp2. simpl.
  destruct (operations p1 !! n1) as [op1|] eqn:O1; simpl; [|by intros (? & ? & ?%elem_of_nil & _)].
  destruct (operations p2 !! n2) as [op2|] eqn:O2; simpl; [|by intros (? & ? & _ & ?%elem_of_nil & _)].
  destruct (decide ((g1, s1) = (g2, s2))) as [[= <- <-]|Hloc].
  - rewrite Hp1 in Hp2. injection Hp2 as <-. rewrite S1 in S2. injection S2 as <-.
    assert (Ho : node_order (op_dependencies <$> operations p1) (nodes sl1)).
    { eapply inv_order0; [|done]. unfold ops_at. by rewrite Hp1. }
    assert (Hn : (n1 < n2 ∨ n2 < n1)%nat) by (assert (n1 ≠ n2) by congruence; lia).
    destruct Hn as [Hn|Hn]; [by eapply no_clash_same_slot|].
    rewrite Deps.clash_between_sym. by eapply no_clash_same_slot.
  - destruct (inv_active0 _ _ _ Hr1) as (j1 & Hj1 & [= <- <-] & B1).
    destruct (inv_active0 _ _ _ Hr2) as (j2 & Hj2 & [= <- <-] & B2).
    apply list_elem_of_lookup in Hj1 as [i1 Hi1], Hj2 as [i2 Hi2].
    assert (Hi : (i1 < i2 ∨ i2 < i1)%nat) by (assert (i1 ≠ i2) by congruence; lia).
    destruct Hi as [Hi|Hi].
    + pose proof (unblocked_no_conflict _ _ _ _ _ _ inv_blockers0 Hi1 Hi2 Hi B2) as Hc.
      exact (no_clash_across _ _ _ _ _ _ _ _ _ _ Hp1 Hp2 W1 W2 Hc O1 O2).
    + rewrite Deps.clash_between_sym.
      pose proof (unblocked_no_conflict _ _ _ _ _ _ inv_blockers0 Hi2 Hi1 Hi B1) as Hc.
      exact (no_clash_across _ _ _ _ _ _ _ _ _ _ Hp2 Hp1 W2 W1 Hc O2 O1).
Qed.

(** ** A concrete execution *)

(** Two allocations, two one-region graphs on the compute and upload lanes, both
    submitted and both regions taken by workers. *)
Definition demo_storage (id : Z) : View.Storage := View.mkStorage id 64 false true true true 0.
Definition demo_use (id : Z) : Deps.Use := Deps.mkUse (View.buffer_view (demo_storage id)) Write.
Definition demo_graph (id : Z) (l : GpuLane) : Prepared :=
  mkPrepared false false [mkOperation Buffer.Gpu l 0 [demo_use id] []]
    (Deps.summarize [demo_use id]) [mkSlot [Pending] false None] [Completion.new_signal].

Definition submit_or_stay (g : nat) (w : World) : World :=
  match submit 0 g [] w with Some (Ok w') => w' | _ => w end.
Definition allocate_demo (id : Z) (w : World) : World :=
  mkWorld (core w) (sched w) (graphs w) (<[id := demo_storage id]> (storages w))
    (<[id := Buffer.mkState Buffer.host_default Buffer.visibility_new]> (sts w))
    (Stats.count_allocation false 64 (counters w)) (tracer w) (tokens w) (handles w).
Definition prepare_demo (g : nat) (id : Z) (l : GpuLane) (w : World) : World :=
  with_graphs (<[g := demo_graph id l]> (graphs w)) w.

Definition demo_prepared : World :=
  prepare_demo 2 20 Upload (prepare_demo 1 10 Compute
    (allocate_demo 20 (allocate_demo 10 (new_world 0 4)))).
Definition demo_submitted : World := submit_or_stay 2 (submit_or_stay 1 demo_prepared).
Definition demo_running : World := (take_action None (take_action None demo_submitted).1).1.

Lemma demo_graph_prepared reg id l :
  reg !! id = Some (demo_storage id) → well_prepared reg (demo_graph id l).
Proof.
  intros Hreg. split; try done.
  - intros op u ->%list_elem_of_singleton. simpl. intros ->%list_elem_of_singleton.
    split; [exact Hreg|]. unfold View.valid; simpl. lia.
  - intros [|s] sl; simpl; [by intros [= <-]|done].
Qed.

Lemma demo_graph_fresh id l : fresh_graph (demo_graph id l).
Proof.
  split; [done| |].
  - intros [|s] sl; simpl; [|done]. intros [= <-]. by repeat constructor.
  - intros [|s] sig; simpl; [|done]. by intros [= <-].
Qed.

Lemma submit_or_stay_step g w : rtc step w (submit_or_stay g w).
Proof.
  unfold submit_or_stay. destruct (submit 0 g [] w) as [[w'|]|] eqn:E; [|done..].
  eapply rtc_once, step_submit; [|exact E]. by intros d ?%elem_of_nil.
Qed.

Lemma take_step target w : rtc step w (take_action target w).1.
Proof.
  destruct (take_action target w) as [w' [a|]] eqn:E; apply rtc_once;
    [by eapply step_take|by eapply step_poll_idle].
Qed.

Lemma demo_prepared_reachable : reachable demo_prepared.
Proof.
  exists 0%nat, 4%nat. unfold demo_prepared.
  eapply rtc_l; [apply (step_allocate _ (demo_storage 10) Buffer.visibility_new); done|].
  eapply rtc_l; [apply (step_allocate _ (demo_storage 20) Buffer.visibility_new); done|].
  eapply rtc_l; [apply (step_prepare _ 1 (demo_graph 10 Compute));
    [done|by apply demo_graph_prepared|apply demo_graph_fresh]|].
  eapply rtc_l; [apply (step_prepare _ 2 (demo_graph 20 Upload));
    [done|by apply demo_graph_prepared|apply demo_graph_fresh]|]. done.
Qed.

Lemma reachable_rtc w w' : reachable w → rtc step w w' → reachable w'.
Proof. intros (id & cap & H) H'. exists id, cap. by etrans. Qed.

Lemma demo_submitted_reachable : reachable demo_submitted.
Proof.
  eapply reachable_rtc; [apply demo_prepared_reachable|]. unfold demo_submitted.
  etrans; apply submit_or_stay_step.
Qed.

Lemma demo_running_reachable : reachable demo_running.
Proof.
  eapply reachable_rtc; [apply demo_submitted_reachable|]. unfold demo_running.
  etrans; apply take_step.
Qed.

Example demo_running_tokens : tokens demo_running = [TRun 2 0 0; TRun 1 0 0].
Proof. vm_compute. reflexivity. Qed.

(** ** Claims *)

(** C1. Memory safety of concurrent execution: in every reachable state of the
    runtime, under any interleaving of submissions, workers, helpers, native
    stages, cancellation and host mappings, the regions in flight are distinct
    and no two of them access a common byte of an allocation with one of them
    writing it, be they of one submission or of different ones. *)
Theorem regions_in_flight_never_clash w :
  reachable w →
  NoDup (run_nodes (tokens w))
  ∧ ∀ r1 r2, r1 ∈ run_nodes (tokens w) → r2 ∈ run_nodes (tokens w) → r1 ≠ r2 →
      ¬ Deps.clash_between (node_uses w r1) (node_uses w r2).
Proof.
  intros HI%reachable_inv. split; [apply HI|]. intros. by apply in_flight_no_clash.
Qed.

Lemma regions_in_flight_never_clash_witness :
  ¬ Deps.clash_between (node_uses demo_running (2, 0, 0)%nat) (node_uses demo_running (1, 0, 0)%nat).
Proof.
  apply (regions_in_flight_never_clash demo_running demo_running_reachable);
    [rewrite demo_running_tokens; left|rewrite demo_running_tokens; right; left|discriminate].
Defined.

(** Every lane runs one region at a time: in every reachable state a lane
    is marked running exactly when one region in flight, or the active native
    stage on the compute lane, occupies it, and no two of them share a lane. *)
Theorem lanes_are_exclusive w :
  reachable w →
  NoDup (run_lanes (graphs w) (tokens w) ++ native_lanes (sched w))
  ∧ ∀ l, lane_running (sched w) l = true ↔
      l ∈ run_lanes (graphs w) (tokens w) ++ native_lanes (sched w).
Proof. intros HI%reachable_inv. split; apply HI. Qed.

Lemma lanes_are_exclusive_witness :
  run_lanes (graphs demo_running) (tokens demo_running) = [0; 1]%nat
  ∧ NoDup (run_lanes (graphs demo_running) (tokens demo_running) ++ native_lanes (sched demo_running)).
Proof.
  split; [vm_compute; reflexivity|].
  apply (lanes_are_exclusive demo_running demo_running_reachable).
Defined.

(** All uses of the operations of a graph. *)
Definition all_uses (h : heap) (g : nat) : list Deps.Use :=
  default [] ((λ p, operations p ≫= op_uses) <$> h !! g).

Lemma graphs_conflict_spec w a b :
  world_inv w → is_Some (graphs w !! a) → is_Some (graphs w !! b) →
  graphs_conflict (graphs w) a b = true ↔ Deps.clash_between (all_uses (graphs w) a) (all_uses (graphs w) b).
Proof.
  intros HI [pa Ha] [pb Hb].
  pose proof (inv_graphs _ _ _ _ HI _ _ Ha) as Wa. pose proof (inv_graphs _ _ _ _ HI _ _ Hb) as Wb.
  unfold graphs_conflict, graph_uses, all_uses. rewrite Ha, Hb. simpl.
  rewrite (prep_uses _ _ Wa), (prep_uses _ _ Wb).
  apply Deps.conflicts_summaries; by eapply well_prepared_coherent.
Qed.

Lemma pending_graph w job : world_inv w → job ∈ pending (sched w) → is_Some (graphs w !! graph job).
Proof.
  intros HI Hj. destruct (inv_pending _ _ _ _ HI job Hj) as (sl & sig & Hsl & _).
  apply slot_at_graph in Hsl as (p & -> & _). done.
Qed.

(** The blocker count is exact: in every reachable state, whatever was
    cancelled or finished out of order, a pending submission counts the earlier
    pending submissions whose accesses clash with its own; so it may start
    exactly when no earlier pending submission clashes with it. *)
Theorem blockers_are_exact w i job :
  reachable w → pending (sched w) !! i = Some job →
  blockers job = length (filter (λ e, graphs_conflict (graphs w) (graph e) (graph job) = true)
                                (take i (pending (sched w))))
  ∧ (blockers job = 0%nat ↔
     ∀ k e, (k < i)%nat → pending (sched w) !! k = Some e →
       ¬ Deps.clash_between (all_uses (graphs w) (graph e)) (all_uses (graphs w) (graph job))).
Proof.
  intros HI%reachable_inv Hi. pose proof (inv_blockers _ _ _ _ HI i job Hi) as Hb.
  split; [done|]. assert (Hjob : job ∈ pending (sched w)) by (by eapply list_elem_of_lookup_2).
  pose proof (pending_graph w job HI Hjob) as Hg. split.
  - intros Hz k e Hk He. rewrite <-graphs_conflict_spec; try done.
    + by rewrite (unblocked_no_conflict _ _ _ _ _ _ (inv_blockers _ _ _ _ HI) He Hi Hk Hz).
    + apply pending_graph; [done|]. by eapply list_elem_of_lookup_2.
  - intros Hno. rewrite Hb. unfold count_conflicts. apply length_zero_iff_nil.
    destruct (filter _ _) as [|e rest] eqn:E; [done|]. exfalso.
    assert (Hin : e ∈ e :: rest) by (by left). rewrite <-E in Hin.
    apply list_elem_of_filter in Hin as [Hc Hin]. apply list_elem_of_lookup in Hin as [k Hk].
    apply lookup_take_Some in Hk as [He Hk]. apply (Hno k e Hk He).
    apply graphs_conflict_spec; try done. apply pending_graph; [done|]. by eapply list_elem_of_lookup_2.
Qed.

(** The demo with a second submission of the compute graph's allocation. *)
Definition demo_conflicting : World :=
  submit_or_stay 2 (submit_or_stay 1
    (prepare_demo 2 10 Upload (prepare_demo 1 10 Compute (allocate_demo 10 (new_world 0 4))))).

Lemma demo_conflicting_reachable : reachable demo_conflicting.
Proof.
  exists 0%nat, 4%nat. unfold demo_conflicting.
  eapply rtc_l; [apply (step_allocate _ (demo_storage 10) Buffer.visibility_new); done|].
  eapply rtc_l; [apply (step_prepare _ 1 (demo_graph 10 Compute));
    [done|by apply demo_graph_prepared|apply demo_graph_fresh]|].
  eapply rtc_l; [apply (step_prepare _ 2 (demo_graph 10 Upload));
    [done|by apply demo_graph_prepared|apply demo_graph_fresh]|].
  etrans; apply submit_or_stay_step.
Qed.

Lemma blockers_are_exact_witness :
  blockers <$> pending (sched demo_conflicting) = [0; 1]%nat
  ∧ blockers (mkJob 0 1 0 0 []) = 0%nat
  ∧ (blockers (mkJob 0 1 0 0 []) = 0%nat ↔
     ∀ k e, (k < 0)%nat → pending (sched demo_conflicting) !! k = Some e →
       ¬ Deps.clash_between (all_uses (graphs demo_conflicting) (graph e))
           (all_uses (graphs demo_conflicting) 1)).
Proof.
  split; [vm_compute; reflexivity|]. split; [reflexivity|].
  apply (blockers_are_exact demo_conflicting 0 (mkJob 0 1 0 0 []) demo_conflicting_reachable).
  vm_compute. reflexivity.
Defined.

(** Admission is bounded: pending and finishing submissions, waiting native
    tickets and the active native stage never exceed the capacity together; a
    submission or native stage beyond it is refused without changing anything;
    and a finished submission always finds its reserved place when it publishes. *)
Theorem admission_is_bounded w :
  reachable w →
  (sched_occupied (sched w) ≤ capacity (sched w))%nat
  ∧ (sched_occupied (sched w) = capacity (sched w) →
     (∀ now g deps, submit now g deps w = Some (Err (Busy "runtime submission capacity exhausted")))
     ∧ native_enter (sched w) = Some (Err (Busy "runtime submission capacity exhausted")))
  ∧ (∀ i now job failure, tokens w !! i = Some (TReleased job failure) →
     is_Some (publish now job failure w)).
Proof.
  intros HI%reachable_inv. split_and!; [apply HI| |].
  - intros Heq. split; intros; unfold submit, admission, native_enter; rewrite Heq, Nat.leb_refl; done.
  - intros i now job failure Hi.
    assert (HI' : Inv (storages w) (sched w) (graphs w) (TReleased job failure :: delete i (tokens w))).
    { eapply Inv_perm; [|exact HI]. by apply delete_Permutation. }
    destruct (publish_job_total _ _ _ now _ _ _ HI') as (sch & h & wk & E).
    unfold publish. rewrite E. simpl. eauto.
Qed.

Lemma admission_is_bounded_witness :
  sched_occupied (sched demo_running) = 2%nat ∧ (2 ≤ capacity (sched demo_running))%nat.
Proof.
  split; [vm_compute; reflexivity|].
  apply (admission_is_bounded demo_running demo_running_reachable).
Defined.

Lemma native_head_least (sch : Scheduler) t :
  StronglySorted Z.lt (native sch) → head (native sch) = Some t → ∀ x, x ∈ native sch → t <= x.
Proof.
  intros Hs Hh x Hx. destruct (native sch) as [|y rest]; [done|]. injection Hh as ->.
  apply elem_of_cons in Hx as [->|Hx]; [lia|]. inversion Hs as [|? ? _ Hall]; subst.
  rewrite Forall_forall in Hall. specialize (Hall x Hx). lia.
Qed.

(** Native stages are served in ticket order: a ticket is granted only when
    no earlier ticket waits, no earlier submission is pending or finishing and
    nothing runs on the compute lane; and a compute region is started only for a
    submission admitted before every waiting ticket, never under an active stage. *)
Theorem native_stages_in_order w :
  reachable w →
  (∀ ticket, native_ready (sched w) ticket = true →
     native_active (sched w) = false
     ∧ compute_lane ∉ run_lanes (graphs w) (tokens w)
     ∧ (∀ x, x ∈ native (sched w) ++ finishing (sched w) ++ (sequence <$> pending (sched w)) → ticket <= x))
  ∧ (∀ target w' g s n, take_action target w = (w', Some (Run g s n)) →
     node_queue (graphs w) g n = compute_lane →
     native_active (sched w) = false
     ∧ ∃ job, job ∈ pending (sched w) ∧ loc job = (g, s)
         ∧ ∀ ticket, ticket ∈ native (sched w) → sequence job <= ticket).
Proof.
  intros HI%reachable_inv. pose proof HI as [].
  assert (Hfree : lane_running (sched w) compute_lane = false →
    native_active (sched w) = false ∧ compute_lane ∉ run_lanes (graphs w) (tokens w)).
  { intros Hl. assert (Hn : compute_lane ∉ run_lanes (graphs w) (tokens w) ++ native_lanes (sched w)).
    { rewrite <-inv_lanes0. by rewrite Hl. }
    unfold native_lanes in Hn. destruct (native_active (sched w)); [set_solver|]. set_solver. }
  split.
  - intros t (Hh & Hl & Hp & Hf)%native_ready_front. split_and!; [by apply Hfree..|].
    intros x. rewrite !elem_of_app, list_elem_of_fmap. intros [Hx|[Hx|(j & -> & Hx)]]; auto.
    by eapply native_head_least.
  - intros target w' g s n Ht Hq. unfold take_action in Ht.
    destruct (next_action (sched w) (graphs w) target) as [[sch h] a] eqn:En. injection Ht as _ ->.
    assert (Hnd : NoDup (loc <$> pending (sched w))).
    { rewrite fmap_app in inv_locs0. by apply NoDup_app in inv_locs0 as [? _]. }
    destruct (next_action_spec _ _ _ _ _ _ Hnd En) as (h1 & Hset & Hok & _). simpl in Hok.
    destruct Hok as (ji & job & l & Hji & [= <- <-] & _ & Hc & _).
    destruct Hc as (job' & ops & op & sl & Hji' & Ho & Hop & <- & Hsl & _ & Hr).
    rewrite Hji in Hji'. injection Hji' as <-.
    assert (Eq : queue op = compute_lane).
    { rewrite <-Hq. symmetry. rewrite <-(node_queue_op h1 (graph job) n ops op) by done.
      symmetry. apply node_queue_statics, Hset. }
    unfold node_ready in Hr. to_prop. rewrite Eq in *. rewrite Nat.eqb_refl in H2. simpl in H2.
    split; [by apply Hfree|]. exists job. split_and!; [by eapply list_elem_of_lookup_2|done|].
    intros t Ht. destruct (head (native (sched w))) as [t0|] eqn:Eh; [|by destruct (native (sched w)); [apply elem_of_nil in Ht|]].
    destruct H2 as [?|H2]; [done|]. apply Z.ltb_ge in H2. pose proof (native_head_least _ _ inv_native0 Eh t Ht). lia.
Qed.

(** A native stage enters an idle runtime. *)
Definition enter_native (w : World) : World :=
  match native_enter (sched w) with Some (Ok (sch, _)) => with_sched sch w | _ => w end.

Lemma enter_native_reachable : reachable (enter_native (new_world 0 4)).
Proof.
  exists 0%nat, 4%nat. apply rtc_once. by apply (step_native_enter _ _ 0).
Qed.

Lemma native_stages_in_order_witness :
  native_ready (sched (enter_native (new_world 0 4))) 0 = true
  ∧ native_active (sched (enter_native (new_world 0 4))) = false.
Proof.
  split; [vm_compute; reflexivity|].
  apply (proj1 (native_stages_in_order _ enter_native_reachable) 0). vm_compute. reflexivity.
Defined.

End SchedTheorems.
