(* ===== verification/SchedulerLiveness.v ===== *)
(** * Progress of the scheduler

    Submissions only wait for earlier ones: an invariant on completion handles
    and dependencies of the states of [SchedulerSteps], from which the workers
    always find an action while a submission is pending, and every action
    decreases a measure. *)

From S2P Require Import Prelude Access DependencyFrontier BufferView Dependencies Completion Buffer Trace Statistics Scheduler SchedulerSteps SchedulerHeap SchedulerSafety SchedulerTheorems.
Local Open Scope Z_scope.

Module SchedLiveness.
Import Sched Steps SchedHeap SchedSafety SchedTheorems.

(** ** Handles and dependencies *)

(** The handles held by the pending submissions and those being finished. *)
Definition held_deps (t : Token) : list Handle :=
  match t with TFinish job _ => dependencies job | _ => [] end.
Definition held (w : World) : list Handle :=
  handles w ++ (pending (sched w) ≫= dependencies) ++ (tokens w ≫= held_deps).

(** How many of them observe a slot. *)
Definition refs (g s : nat) (hs : list Handle) : nat :=
  length (filter (λ c, c_signal c = Some (g, s)) hs).

Definition in_flight (w : World) : list Job := pending (sched w) ++ fin_jobs (tokens w).

(** Observer counts cover the handles; an unpublished signal belongs to a
    submission in flight; a dependency is published or earlier in flight. *)
Record deps_inv (w : World) : Prop := {
  dep_observers : ∀ g s sig, signal_at (graphs w) g s = Some sig →
    (refs g s (held w) ≤ Completion.observers sig)%nat;
  dep_unpublished : ∀ g s sig, signal_at (graphs w) g s = Some sig →
    Completion.done_flag sig = false → ∃ j, j ∈ in_flight w ∧ loc j = (g, s);
  dep_exists : ∀ c g s, c ∈ held w → c_signal c = Some (g, s) → is_Some (signal_at (graphs w) g s);
  dep_earlier : ∀ j d g s sig, j ∈ pending (sched w) → d ∈ dependencies j →
    c_signal d = Some (g, s) → signal_at (graphs w) g s = Some sig →
    Completion.done_flag sig = false →
    ∃ j', j' ∈ in_flight w ∧ loc j' = (g, s) ∧ sequence j' < sequence j }.

Lemma refs_app g s a b : refs g s (a ++ b) = (refs g s a + refs g s b)%nat.
Proof. unfold refs. by rewrite filter_app, length_app. Qed.

Lemma refs_cons g s c hs :
  refs g s (c :: hs) = ((if decide (c_signal c = Some (g, s)) then 1 else 0) + refs g s hs)%nat.
Proof. unfold refs. rewrite filter_cons. by destruct (decide _). Qed.

Global Instance refs_perm g s : Proper (Permutation ==> eq) (refs g s).
Proof. intros a b Hp. unfold refs. by rewrite Hp. Qed.

Lemma refs_pos g s c hs : c ∈ hs → c_signal c = Some (g, s) → (0 < refs g s hs)%nat.
Proof.
  intros Hc Hs. unfold refs. destruct (filter _ hs) as [|x l] eqn:E; simpl; [|lia].
  assert (Hin : c ∈ filter (λ c, c_signal c = Some (g, s)) hs) by (by apply list_elem_of_filter).
  rewrite E in Hin. by apply elem_of_nil in Hin.
Qed.

(** Signals seen through cloning and dropping handles. *)
Lemma signal_at_clone d h g s :
  signal_at (clone_handle d h) g s
  = (if decide (c_signal d = Some (g, s)) then Completion.observe <$> signal_at h g s
     else signal_at h g s).
Proof.
  unfold clone_handle. destruct (c_signal d) as [[g' s']|]; [|done].
  rewrite signal_at_on_signal.
  destruct (decide ((g', s') = (g, s))) as [[= -> ->]|Hne], (decide _); simplify_eq; done.
Qed.
Lemma signal_at_drop d h g s :
  signal_at (drop_handle d h) g s
  = (if decide (c_signal d = Some (g, s)) then Completion.unobserve <$> signal_at h g s
     else signal_at h g s).
Proof.
  unfold drop_handle. destruct (c_signal d) as [[g' s']|]; [|done].
  rewrite signal_at_on_signal.
  destruct (decide ((g', s') = (g, s))) as [[= -> ->]|Hne], (decide _); simplify_eq; done.
Qed.

(** What a group of clones or drops does to one signal. *)
Lemma fold_clone deps h g s sig :
  signal_at h g s = Some sig →
  ∃ sig', signal_at (foldl (λ h d, clone_handle d h) h deps) g s = Some sig'
    ∧ Completion.observers sig' = (Completion.observers sig + refs g s deps)%nat
    ∧ Completion.done_flag sig' = Completion.done_flag sig.
Proof.
  revert h sig. induction deps as [|d deps IH]; intros h sig Hs; simpl.
  { exists sig. split_and!; [done| |done]. unfold refs. simpl. lia. }
  rewrite refs_cons.
  assert (Hd : signal_at (clone_handle d h) g s
    = Some (if decide (c_signal d = Some (g, s)) then Completion.observe sig else sig)).
  { rewrite signal_at_clone, Hs. by destruct (decide _). }
  destruct (IH _ _ Hd) as (sig' & -> & Ho & Hdn). exists sig'. split; [done|].
  destruct (decide _); simpl in *; split; try lia; done.
Qed.

Lemma fold_drop deps h g s sig :
  signal_at h g s = Some sig →
  ∃ sig', signal_at (foldl (λ h d, drop_handle d h) h deps) g s = Some sig'
    ∧ Completion.observers sig' = (Completion.observers sig - refs g s deps)%nat
    ∧ Completion.done_flag sig' = Completion.done_flag sig.
Proof.
  revert h sig. induction deps as [|d deps IH]; intros h sig Hs; simpl.
  { exists sig. split_and!; [done| |done]. unfold refs. simpl. lia. }
  rewrite refs_cons.
  assert (Hd : signal_at (drop_handle d h) g s
    = Some (if decide (c_signal d = Some (g, s)) then Completion.unobserve sig else sig)).
  { rewrite signal_at_drop, Hs. by destruct (decide _). }
  destruct (IH _ _ Hd) as (sig' & -> & Ho & Hdn). exists sig'. split; [done|].
  destruct (decide _); simpl in *; split; try lia; done.
Qed.

(** ** Preservation *)

Definition sig_view (h : heap) (g s : nat) : option (nat * bool) :=
  (λ x, (Completion.observers x, Completion.done_flag x)) <$> signal_at h g s.
Definition job_key (j : Job) : nat * nat * Z * list Handle := (loc j, sequence j, dependencies j).

Lemma sig_view_Some h h' g s sig' :
  sig_view h' g s = sig_view h g s → signal_at h' g s = Some sig' →
  ∃ sig, signal_at h g s = Some sig ∧ Completion.observers sig' = Completion.observers sig
    ∧ Completion.done_flag sig' = Completion.done_flag sig.
Proof.
  unfold sig_view. intros Hv E. rewrite E in Hv. simpl in Hv. destruct (signal_at h g s) as [sig|]; [|done].
  exists sig. simpl in Hv. injection Hv as ??. done.
Qed.

Lemma key_elem (js js' : list Job) j :
  (∀ k, k ∈ job_key <$> js → k ∈ job_key <$> js') → j ∈ js →
  ∃ j', j' ∈ js' ∧ loc j' = loc j ∧ sequence j' = sequence j ∧ dependencies j' = dependencies j.
Proof.
  intros Hk Hj. assert (Hin : job_key j ∈ job_key <$> js) by (apply list_elem_of_fmap; eauto).
  apply Hk, list_elem_of_fmap in Hin as (j' & Heq & Hj'). unfold job_key in Heq.
  exists j'. injection Heq as ????. split_and!; try done. unfold loc. congruence.
Qed.

(** Steps that keep the handles, the submissions and what signals say. *)
Lemma deps_frame w w' :
  (∀ g s, sig_view (graphs w') g s = sig_view (graphs w) g s) →
  held w' ≡ₚ held w →
  (∀ k, k ∈ job_key <$> in_flight w → k ∈ job_key <$> in_flight w') →
  (∀ k, k ∈ job_key <$> pending (sched w') → k ∈ job_key <$> pending (sched w)) →
  deps_inv w → deps_inv w'.
Proof.
  intros Hv Hh Hf Hp [Ho Hu He Hd]. split.
  - intros g s sig' Hs. destruct (sig_view_Some _ _ _ _ _ (Hv g s) Hs) as (sig & E & -> & _).
    rewrite Hh. eauto.
  - intros g s sig' Hs Hdone. destruct (sig_view_Some _ _ _ _ _ (Hv g s) Hs) as (sig & E & _ & Ed).
    destruct (Hu g s sig E) as (j & Hj & Hl); [congruence|].
    destruct (key_elem _ _ j Hf Hj) as (j' & ? & ? & _). exists j'. split; [done|congruence].
  - intros c g s Hc Hs. rewrite Hh in Hc. destruct (He c g s Hc Hs) as [sig E].
    specialize (Hv g s). unfold sig_view in Hv. rewrite E in Hv. by destruct (signal_at (graphs w') g s).
  - intros j d g s sig' Hj Hdep Hs Hs' Hdone.
    destruct (key_elem _ _ j Hp Hj) as (j0 & Hj0 & _ & Eseq & Edeps).
    destruct (sig_view_Some _ _ _ _ _ (Hv g s) Hs') as (sig & E & _ & Ed).
    destruct (Hd j0 d g s sig) as (j1 & Hj1 & Hl & Hlt); try done; [by rewrite Edeps|congruence|].
    destruct (key_elem _ _ j1 Hf Hj1) as (j' & ? & ? & ? & _). exists j'. split_and!; [done|congruence|lia].
Qed.

Lemma sig_view_on_signal h g s u g' s' :
  (∀ x, Completion.observers (u x) = Completion.observers x
     ∧ Completion.done_flag (u x) = Completion.done_flag x) →
  sig_view (on_signal g s u h) g' s' = sig_view h g' s'.
Proof.
  intros Hu. unfold sig_view. rewrite signal_at_on_signal. destruct (decide _) as [[= <- <-]|_]; [|done].
  destruct (signal_at h g s) as [x|]; [|done]. simpl. destruct (Hu x) as [-> ->]. done.
Qed.

Lemma poll_observers waker x :
  Completion.observers (Completion.poll waker x).1 = Completion.observers x.
Proof.
  unfold Completion.poll. destruct (Completion.done_flag x); [done|].
  case_bool_decide; [done|]. by destruct (Completion.fill_first _ _).
Qed.

Lemma held_tokens (ts ts' : list Token) : ts ≡ₚ ts' → (ts ≫= held_deps) ≡ₚ (ts' ≫= held_deps).
Proof. intros ->. done. Qed.

Lemma fin_jobs_perm (ts ts' : list Token) : ts ≡ₚ ts' → fin_jobs ts ≡ₚ fin_jobs ts'.
Proof. intros Hp. unfold fin_jobs. by rewrite Hp. Qed.

Lemma remove_dependencies h ji sch sch' job :
  remove h ji sch = Some (sch', job) →
  (pending sch ≫= dependencies) ≡ₚ dependencies job ++ (pending sch' ≫= dependencies).
Proof.
  intros Hr. unfold remove in Hr. destruct (pending sch !! ji) as [j|] eqn:E; simpl in Hr; [|done].
  injection Hr as <- ->. simpl.
  assert (Hb : ∀ l, (unblock h job <$> l) ≫= dependencies = l ≫= dependencies).
  { induction l as [|x l IH]; [done|]. rewrite fmap_cons, !bind_cons, IH.
    unfold unblock. by case_bool. }
  rewrite <-(take_drop_middle _ _ _ E) at 1. rewrite !bind_app, bind_cons, Hb.
  rewrite !app_assoc. f_equiv. apply Permutation_app_comm.
Qed.

(** Reservation of the lane or the end of a region: no handle moves. *)
Lemma deps_take w w' target a : world_inv w → deps_inv w → take_action target w = (w', a) → deps_inv w'.
Proof.
  intros HI Hd Ht. unfold take_action in Ht.
  destruct (next_action (sched w) (graphs w) target) as [[sch h] a'] eqn:En. injection Ht as <- <-.
  assert (Hnd : NoDup (loc <$> pending (sched w))).
  { destruct HI. rewrite fmap_app in inv_locs0. by apply NoDup_app in inv_locs0 as [? _]. }
  destruct (next_action_spec _ _ _ _ _ _ Hnd En) as (h1 & Hset & Hok & _).
  assert (Hv1 : ∀ g s, sig_view h1 g s = sig_view (graphs w) g s).
  { intros. unfold sig_view. by rewrite (settles_signals _ _ Hset). }
  destruct a' as [[g s n|job f]|]; simpl in Hok.
  - destruct Hok as (ji & job & l & Hji & _ & _ & _ & -> & ->). apply (deps_frame w); simpl; try done.
    + intros. unfold sig_view. rewrite signal_at_on_slot. apply Hv1.
    + unfold held; simpl. by rewrite bind_app; simpl; rewrite app_nil_r.
    + unfold in_flight, fin_jobs; simpl. intros k. by rewrite omap_app, app_nil_r.
  - destruct Hok as (ji & sl & Hji & _ & _ & _ & Hr & ->).
    assert (Hkey : job_key <$> pending sch = delete ji (job_key <$> pending (sched w))).
    { eapply remove_fields; [|exact Hr]. intros j. unfold unblock. by case_bool. }
    assert (Hpk : job_key <$> pending (sched w) ≡ₚ job_key job :: (job_key <$> pending sch)).
    { rewrite Hkey. apply delete_Permutation. by rewrite list_lookup_fmap, Hji. }
    apply (deps_frame w); simpl; try done.
    + unfold held; simpl. rewrite bind_app. simpl. rewrite app_nil_r. f_equiv.
      assert (Hb : (pending (sched w) ≫= dependencies) ≡ₚ dependencies job ++ (pending sch ≫= dependencies)).
      { by eapply remove_dependencies. }
      rewrite Hb. rewrite <-(app_assoc (dependencies job)). rewrite (Permutation_app_comm (dependencies job)).
      by rewrite app_assoc.
    + intros k. unfold in_flight, fin_jobs; simpl. rewrite omap_app. simpl.
      rewrite !fmap_app, Hpk. simpl. set_solver.
    + intros k. rewrite Hpk. set_solver.
  - destruct Hok as [-> ->]. apply (deps_frame w); simpl; try done.
    + unfold held; simpl. by rewrite app_nil_r.
    + unfold in_flight; simpl. by rewrite app_nil_r.
Qed.

(** A signal that keeps its completion flag while its observers and handles move. *)
Lemma deps_observers w w' :
  (∀ g s sig', signal_at (graphs w') g s = Some sig' →
     ∃ sig, signal_at (graphs w) g s = Some sig
       ∧ Completion.done_flag sig' = Completion.done_flag sig
       ∧ (refs g s (held w) ≤ Completion.observers sig →
          refs g s (held w') ≤ Completion.observers sig')%nat) →
  (∀ g s, is_Some (signal_at (graphs w) g s) → is_Some (signal_at (graphs w') g s)) →
  (∀ c, c ∈ held w' → c ∈ held w ∨ c_signal c = None) →
  pending (sched w') = pending (sched w) → fin_jobs (tokens w') ≡ₚ fin_jobs (tokens w) →
  deps_inv w → deps_inv w'.
Proof.
  intros Hsig Hex Hheld Ep Ef [Ho Hu He Hd].
  assert (Hfl : ∀ j, j ∈ in_flight w' ↔ j ∈ in_flight w).
  { intros j. unfold in_flight. by rewrite Ep, Ef. }
  split.
  - intros g s sig' Hs. destruct (Hsig g s sig' Hs) as (sig & E & _ & Hobs). eauto.
  - intros g s sig' Hs Hdone. destruct (Hsig g s sig' Hs) as (sig & E & Ed & _).
    destruct (Hu g s sig E) as (j & ? & ?); [congruence|]. exists j. by rewrite Hfl.
  - intros c g s Hc Hs. destruct (Hheld c Hc) as [Hc'|Hc']; [|congruence]. eauto.
  - intros j d g s sig' Hj Hdep Hs Hs' Hdone. destruct (Hsig g s sig' Hs') as (sig & E & Ed & _).
    rewrite Ep in Hj. destruct (Hd j d g s sig) as (j' & ? & ?); try done; [congruence|].
    exists j'. by rewrite Hfl.
Qed.

Lemma is_Some_fold_frame h h' g s :
  Completion.done_flag <$> signal_at h' g s = Completion.done_flag <$> signal_at h g s →
  is_Some (signal_at h g s) ↔ is_Some (signal_at h' g s).
Proof. intros H. rewrite <-(fmap_is_Some Completion.done_flag), <-H. by rewrite fmap_is_Some. Qed.

(** Dropping a group of handles that leaves [held]. *)
Lemma deps_drops w w' deps h0 :
  (∀ g s, signal_at h0 g s = signal_at (graphs w) g s) →
  graphs w' = foldl (λ h d, drop_handle d h) h0 deps →
  held w ≡ₚ deps ++ held w' → pending (sched w') = pending (sched w) →
  fin_jobs (tokens w') ≡ₚ fin_jobs (tokens w) → deps_inv w → deps_inv w'.
Proof.
  intros Hh0 Eg Eh. destruct (fold_handles_frame drop_handle deps h0 drop_handle_form) as (_ & _ & Hdone).
  simpl in Hdone. rewrite <-Eg in Hdone.
  apply deps_observers.
  - intros g s sig' Hs. assert (Hex : is_Some (signal_at h0 g s)).
    { rewrite is_Some_fold_frame by apply Hdone. eauto. }
    destruct Hex as [sig E]. destruct (fold_drop deps h0 g s sig E) as (sig2 & E2 & Hobs & Hd2).
    rewrite <-Eg, Hs in E2. injection E2 as <-. exists sig. rewrite <-Hh0. split_and!; [done|done|].
    rewrite Eh, refs_app, Hobs. lia.
  - intros g s Hs. rewrite <-Hh0 in Hs. by rewrite is_Some_fold_frame in Hs by apply Hdone.
  - intros c Hc. left. rewrite Eh. set_solver.
Qed.

Lemma deps_release w i job failure :
  tokens w !! i = Some (TFinish job failure) → deps_inv w →
  deps_inv (with_tokens (<[i := TReleased job failure]> (tokens w)) (release job w)).
Proof.
  intros Hi. pose proof (tokens_insert (tokens w) i _ (TReleased job failure) Hi) as Hp.
  pose proof (delete_Permutation _ _ _ Hi) as Hp0.
  apply (deps_drops w _ (dependencies job) (on_slot (graph job) (slot job) release_slot (graphs w))).
  - intros. apply signal_at_on_slot.
  - done.
  - unfold held; simpl. rewrite (held_tokens _ _ Hp), (held_tokens _ _ Hp0). simpl.
    rewrite (Permutation_app_swap_app (pending (sched w) ≫= dependencies)).
    by rewrite (Permutation_app_swap_app (handles w)).
  - done.
  - simpl. rewrite (fin_jobs_perm _ _ Hp), (fin_jobs_perm _ _ Hp0). done.
Qed.

Lemma deps_drop w i c :
  handles w !! i = Some c → deps_inv w → deps_inv (drop_completion i c w).
Proof.
  intros Hi. apply (deps_drops w _ [c] (graphs w)); try done.
  unfold held; simpl. rewrite app_comm_cons. f_equiv. by apply delete_Permutation.
Qed.

Lemma deps_clone w c : c ∈ handles w → deps_inv w → deps_inv (clone_completion c w).
Proof.
  intros Hc. destruct (fold_handles_frame clone_handle [c] (graphs w) clone_handle_form) as (_ & _ & Hdone).
  simpl in Hdone. apply deps_observers; simpl; try done.
  - intros g s sig' Hs. assert (Hex : is_Some (signal_at (graphs w) g s)).
    { rewrite is_Some_fold_frame by apply Hdone. eauto. }
    destruct Hex as [sig E]. destruct (fold_clone [c] (graphs w) g s sig E) as (sig2 & E2 & Hobs & Hd2).
    simpl in E2. rewrite Hs in E2. injection E2 as <-. exists sig. split_and!; [done|done|].
    unfold held; simpl. rewrite !refs_app, Hobs. lia.
  - intros g s. by rewrite is_Some_fold_frame by apply Hdone.
  - unfold held; simpl. intros x Hx. left. set_solver.
Qed.

Lemma deps_publish w w' i now job failure :
  world_inv w → tokens w !! i = Some (TReleased job failure) → publish now job failure w = Some w' →
  deps_inv w → deps_inv (with_tokens (delete i (tokens w)) w').
Proof.
  intros HI Hi Hp [Ho Hu He Hd].
  assert (HI' : Inv (storages w) (sched w) (graphs w) (TReleased job failure :: delete i (tokens w))).
  { eapply Inv_perm; [|exact HI]. by apply delete_Permutation. }
  unfold publish in Hp.
  destruct (publish_job now job failure (sched w) (graphs w)) as [[[sch h] wk]|] eqn:E; [|done].
  injection Hp as <-. unfold publish_job in E.
  destruct (list_find _ (finishing (sched w))) as [[k x]|]; simpl in E; [|done]. injection E as <- <- _.
  pose proof (delete_Permutation _ _ _ Hi) as Hperm.
  assert (Hfl : ∀ j, j ∈ in_flight w ↔ j = job ∨ j ∈ pending (sched w) ++ fin_jobs (delete i (tokens w))).
  { intros j. unfold in_flight. rewrite (fin_jobs_perm _ _ Hperm). simpl. set_solver. }
  assert (Hother : ∀ j, j ∈ pending (sched w) ++ fin_jobs (delete i (tokens w)) → loc j ≠ loc job).
  { intros j. by apply (loc_fin_fin _ _ _ _ _ job j HI'). }
  assert (Hheld : held (with_tokens (delete i (tokens w)) (mkWorld (core w)
    (set_finishing (swap_remove k (finishing (sched w))) (sched w))
    (on_signal (graph job) (slot job) (λ s, (Completion.publish now failure s).1) (graphs w))
    (storages w) (sts w) (counters w) (tracer w) (tokens w) (handles w))) ≡ₚ held w).
  { unfold held; simpl. by rewrite (held_tokens _ _ Hperm). }
  assert (Hkeep : ∀ g s j, (g, s) ≠ loc job → j ∈ in_flight w → loc j = (g, s) →
    j ∈ pending (sched w) ++ fin_jobs (delete i (tokens w))).
  { intros g s j Hne Hj Hl. apply Hfl in Hj as [->|?]; [by rewrite Hl in Hne|done]. }
  split; simpl.
  - intros g s sig Hs. rewrite Hheld. rewrite signal_at_on_signal in Hs.
    destruct (decide _) as [[= <- <-]|_]; [|by eauto].
    destruct (signal_at (graphs w) (graph job) (slot job)) as [x0|] eqn:Ex; [|done].
    injection Hs as <-. simpl. eauto.
  - intros g s sig Hs Hdone. rewrite signal_at_on_signal in Hs.
    destruct (decide _) as [[= <- <-]|Hne].
    { destruct (signal_at (graphs w) (graph job) (slot job)); [|done]. by injection Hs as <-. }
    destruct (Hu g s sig Hs Hdone) as (j & Hj & Hl). exists j. split; [|done].
    eapply (Hkeep g s); [unfold loc; congruence|done|done].
  - intros c g s Hc Hs. rewrite Hheld in Hc. rewrite signal_at_on_signal.
    destruct (He c g s Hc Hs) as [y Hy]. destruct (decide _) as [[= <- <-]|_]; [rewrite Hy|]; eauto.
  - intros j d g s sig Hj Hdep Hs Hs' Hdone. rewrite signal_at_on_signal in Hs'.
    destruct (decide _) as [[= <- <-]|Hne].
    { destruct (signal_at (graphs w) (graph job) (slot job)); [|done]. by injection Hs' as <-. }
    destruct (Hd j d g s sig Hj Hdep Hs Hs' Hdone) as (j' & Hj' & Hl & ?). exists j'.
    split_and!; [|done|done]. eapply (Hkeep g s); [unfold loc; congruence|done|done].
Qed.

(** The heap an accepted submission leaves, and its signals. *)
Definition admitted (now : Z) (g s : nat) (deps : list Handle) (h : heap) : heap :=
  foldl (λ h d, clone_handle d h)
    (on_signal g s Completion.observe
      (on_slot g s reset_slot (on_signal g s (Completion.reset now) h))) deps.

Lemma admit_signals now g s deps h g' s' sig :
  signal_at h g' s' = Some sig →
  ∃ sig', signal_at (admitted now g s deps h) g' s' = Some sig'
    ∧ Completion.observers sig'
      = (Completion.observers sig + (if decide ((g, s) = (g', s')) then 1 else 0) + refs g' s' deps)%nat
    ∧ Completion.done_flag sig' = (if decide ((g, s) = (g', s')) then false else Completion.done_flag sig).
Proof.
  intros Hs. unfold admitted. set (h1 := on_signal g s Completion.observe _).
  assert (E : ∃ sig1, signal_at h1 g' s' = Some sig1
    ∧ Completion.observers sig1 = (Completion.observers sig + (if decide ((g, s) = (g', s')) then 1 else 0))%nat
    ∧ Completion.done_flag sig1 = (if decide ((g, s) = (g', s')) then false else Completion.done_flag sig)).
  { unfold h1. rewrite signal_at_on_signal, !signal_at_on_slot, !signal_at_on_signal.
    destruct (decide ((g, s) = (g', s'))) as [[= <- <-]|].
    - rewrite decide_True, Hs by done. simpl. eexists. split_and!; [done| |done]. simpl. lia.
    - exists sig. split_and!; [done|lia|done]. }
  destruct E as (sig1 & E1 & Ho1 & Hd1). destruct (fold_clone deps h1 g' s' sig1 E1) as (sig' & ? & Ho & ?).
  exists sig'. split_and!; [done|lia|congruence].
Qed.

Lemma admit_signals_inv now g s deps h g' s' :
  is_Some (signal_at (admitted now g s deps h) g' s') ↔
  is_Some (signal_at h g' s').
Proof.
  unfold admitted. set (h1 := on_signal g s Completion.observe _).
  destruct (fold_handles_frame clone_handle deps h1 clone_handle_form) as (_ & _ & Hd). simpl in Hd.
  rewrite <-(is_Some_fold_frame h1) by apply Hd. unfold h1.
  rewrite signal_at_on_signal, !signal_at_on_slot, !signal_at_on_signal.
  destruct (decide _) as [[= <- <-]|]; [|done]. rewrite decide_True, !fmap_is_Some; done.
Qed.

Lemma admitted_old now g s deps h g' s' sig' :
  signal_at (admitted now g s deps h) g' s' = Some sig' →
  ∃ sig0, signal_at h g' s' = Some sig0
    ∧ Completion.observers sig' = (Completion.observers sig0
        + (if decide ((g, s) = (g', s')) then 1 else 0) + refs g' s' deps)%nat
    ∧ Completion.done_flag sig' = (if decide ((g, s) = (g', s')) then false else Completion.done_flag sig0).
Proof.
  intros Hs'. assert (Hex : is_Some (signal_at h g' s')) by (rewrite <-admit_signals_inv, Hs'; eauto).
  destruct Hex as [sig0 E0]. destruct (admit_signals now g s deps _ _ _ _ E0) as (sig2 & E2 & ?).
  rewrite Hs' in E2. injection E2 as <-. eauto.
Qed.

(** The handles held after an accepted submission. *)
Lemma held_submit w w' job hd :
  pending (sched w') = pending (sched w) ++ [job] → tokens w' = tokens w → handles w' = handles w ++ [hd] →
  held w' ≡ₚ (hd :: dependencies job) ++ held w.
Proof.
  intros Ep Et Eh. unfold held. rewrite Ep, Et, Eh, bind_app. simpl. rewrite app_nil_r, <-!app_assoc.
  simpl. rewrite <-Permutation_middle. f_equiv.
  rewrite (Permutation_app_swap_app (pending (sched w) ≫= dependencies)).
  by rewrite (Permutation_app_swap_app (handles w)).
Qed.

Lemma in_flight_bound w j : world_inv w → j ∈ in_flight w → sequence j < next_sequence (sched w).
Proof.
  intros HI Hj. apply (inv_bound _ _ _ _ HI). rewrite (inv_finishing _ _ _ _ HI).
  apply elem_of_app in Hj as [Hj|Hj]; rewrite !elem_of_app; [left|right; left]; apply list_elem_of_fmap; eauto.
Qed.

Lemma deps_submit w w' now g deps :
  world_inv w → (∀ d, d ∈ deps → d ∈ handles w) → submit now g deps w = Some (Ok w') →
  deps_inv w → deps_inv w'.
Proof.
  intros HI Hsub Hsubmit [Ho Hu He Hd]. unfold submit in Hsubmit.
  destruct (admission _ _ _ _ _ _ _ _) as [[[[[sch h] c] hd]|e]|] eqn:Ea; simpl in Hsubmit; try done.
  injection Hsubmit as <-.
  apply admit_Ok in Ea as (p & s & sl & sig & Eg & _ & Hsig & (_ & Hobs & _) & _ & _ & -> & _ & Eh & Een).
  simpl in Hobs. apply enqueue_Some in Een as (b & Ep & _ & _ & _ & _ & _ & _).
  change (h = admitted now g s deps (graphs w)) in Eh.
  set (job := mkJob (next_sequence (sched w)) g s b deps) in *.
  assert (Hsg : signal_at (graphs w) g s = Some sig) by (unfold signal_at; by rewrite Eg).
  assert (Hnoref : ∀ c, c ∈ held w → c_signal c ≠ Some (g, s)).
  { intros c' Hc' Hcs. pose proof (refs_pos g s c' _ Hc' Hcs). specialize (Ho g s sig Hsg). lia. }
  set (w1 := mkWorld _ _ _ _ _ _ _ _ _). pose proof (held_submit w w1 job _ Ep eq_refl eq_refl) as Hheld.
  assert (Hfl : ∀ j, j ∈ in_flight w → j ∈ in_flight w1).
  { intros j. unfold in_flight; simpl. rewrite Ep. set_solver. }
  split; simpl graphs; rewrite Eh.
  - intros g' s' sig' Hs'. destruct (admitted_old _ _ _ _ _ _ _ _ Hs') as (sig0 & E0 & -> & _).
    rewrite Hheld, refs_app, refs_cons. simpl. specialize (Ho g' s' sig0 E0).
    destruct (decide ((g, s) = (g', s'))) as [[= <- <-]|], (decide _); simplify_eq; lia.
  - intros g' s' sig' Hs' Hdone. destruct (admitted_old _ _ _ _ _ _ _ _ Hs') as (sig0 & E0 & _ & Edn).
    destruct (decide ((g, s) = (g', s'))) as [[= <- <-]|].
    + exists job. split; [|done]. unfold in_flight; simpl. rewrite Ep. set_solver.
    + destruct (Hu g' s' sig0 E0) as (j & ? & ?); [congruence|]. exists j. auto.
  - intros c' g' s' Hc' Hcs. rewrite admit_signals_inv. rewrite Hheld in Hc'.
    apply elem_of_app in Hc' as [[->|Hc']%elem_of_cons|Hc']; [simpl in Hcs; injection Hcs as <- <-; eauto| |by eauto].
    eapply He; [|done]. apply elem_of_app; left; auto.
  - intros j d g' s' sig' Hj Hdep Hcs Hs' Hdone. simpl in Hj. rewrite Ep in Hj.
    destruct (admitted_old _ _ _ _ _ _ _ _ Hs') as (sig0 & E0 & _ & Edn).
    assert (Hdh : d ∈ held w).
    { unfold held. rewrite !elem_of_app. apply elem_of_app in Hj as [Hj| ->%list_elem_of_singleton]; [|by left; apply Hsub].
      right; left. apply list_elem_of_bind. eauto. }
    destruct (decide ((g, s) = (g', s'))) as [[= <- <-]|]; [by destruct (Hnoref d Hdh)|].
    apply elem_of_app in Hj as [Hj| ->%list_elem_of_singleton].
    + destruct (Hd j d g' s' sig0) as (j' & ? & ? & ?); try done; [congruence|]. exists j'. auto.
    + destruct (Hu g' s' sig0 E0) as (j' & Hj' & Hl); [congruence|]. exists j'. split_and!; [auto|done|].
      by apply in_flight_bound.
Qed.

Lemma deps_prepare w g p :
  graphs w !! g = None → fresh_graph p → deps_inv w → deps_inv (with_graphs (<[g := p]> (graphs w)) w).
Proof.
  intros Hg [_ _ Hfs] [Ho Hu He Hd].
  assert (Hnone : ∀ s, signal_at (graphs w) g s = None) by (intros; unfold signal_at; by rewrite Hg).
  assert (Hs : ∀ g' s sig, signal_at (<[g := p]> (graphs w)) g' s = Some sig →
    (g' = g ∧ sig = Completion.new_signal) ∨ (g' ≠ g ∧ signal_at (graphs w) g' s = Some sig)).
  { intros g' s sig. rewrite signal_at_insert. destruct (decide (g = g')) as [<-|]; [|auto].
    intros E. left. split; [done|]. eauto. }
  split; simpl.
  - intros g' s sig [[-> ->]|[_ E]]%Hs; [|by eauto].
    change (held (with_graphs _ w)) with (held w).
    destruct (refs g s (held w)) eqn:E; [lia|]. exfalso. unfold refs in E.
    destruct (filter _ (held w)) as [|x l] eqn:Ef; [done|].
    assert (Hin : x ∈ filter (λ c, c_signal c = Some (g, s)) (held w)) by (rewrite Ef; by left).
    apply list_elem_of_filter in Hin as [Hc Hx]. destruct (He x g s Hx Hc) as [? Hsome].
    by rewrite Hnone in Hsome.
  - intros g' s sig [[-> ->]|[_ E]]%Hs; [done|]. apply Hu. done.
  - intros c g' s Hc Hcs. destruct (He c g' s Hc Hcs) as [sig E]. rewrite signal_at_insert.
    rewrite decide_False; [eauto|]. intros <-. by rewrite Hnone in E.
  - intros j d g' s sig Hj Hdep Hcs [[-> ->]|[_ E]]%Hs Hdone; [done|]. by eapply Hd.
Qed.

Lemma deps_same w w' :
  (∀ g s, sig_view (graphs w') g s = sig_view (graphs w) g s) → handles w' = handles w →
  pending (sched w') = pending (sched w) → tokens w' = tokens w → deps_inv w → deps_inv w'.
Proof.
  intros Hv Eh Ep Et. apply deps_frame; [done|..]; unfold held, in_flight; rewrite ?Eh, ?Ep, ?Et; done.
Qed.

(** A region token that becomes another one or goes away carries no handle. *)
Lemma deps_region w w' i t ts' :
  tokens w !! i = Some t → fin_job t = None → held_deps t = [] →
  (ts' = delete i (tokens w) ∨ ∃ t', fin_job t' = None ∧ held_deps t' = [] ∧ ts' = <[i := t']> (tokens w)) →
  (∀ g s, sig_view (graphs w') g s = sig_view (graphs w) g s) → handles w' = handles w →
  pending (sched w') = pending (sched w) → tokens w' = ts' → deps_inv w → deps_inv w'.
Proof.
  intros Hi Hf Hh Hts Hv Eh Ep Et.
  assert (Hperm : fin_jobs (tokens w') = fin_jobs (delete i (tokens w))
    ∨ fin_jobs (tokens w') ≡ₚ fin_jobs (delete i (tokens w))).
  { rewrite Et. destruct Hts as [->|(t' & Hf' & _ & ->)]; [by left|right].
    rewrite (fin_jobs_perm _ _ (tokens_insert _ i t t' Hi)), fin_jobs_cons, Hf'. done. }
  assert (Hfin : fin_jobs (tokens w') ≡ₚ fin_jobs (tokens w)).
  { rewrite (fin_jobs_perm _ _ (delete_Permutation _ _ _ Hi)), fin_jobs_cons, Hf. simpl.
    by destruct Hperm as [->|]. }
  assert (Hheld : (tokens w' ≫= held_deps) ≡ₚ (tokens w ≫= held_deps)).
  { rewrite (held_tokens _ _ (delete_Permutation _ _ _ Hi)), bind_cons, Hh. simpl. rewrite Et.
    destruct Hts as [->|(t' & _ & Hh' & ->)]; [done|].
    by rewrite (held_tokens _ _ (tokens_insert _ i t t' Hi)), bind_cons, Hh'. }
  apply deps_frame; [done|..]; unfold held, in_flight; rewrite ?Eh, ?Ep; try done.
  - by rewrite Hheld.
  - intros k. rewrite !fmap_app, !elem_of_app, !list_elem_of_fmap. setoid_rewrite Hfin. done.
Qed.

Lemma sig_view_complete g s n failure sch h sts sch' h' sts' :
  complete_run g s n failure sch h sts = (sch', h', sts') →
  pending sch' = pending sch ∧ ∀ g' s', sig_view h' g' s' = sig_view h g' s'.
Proof.
  unfold complete_run. destruct failure; intros [= <- <- <-]; (split; [done|]);
    intros; unfold sig_view; rewrite signal_at_on_slot, ?signal_at_quarantine; done.
Qed.

Lemma step_deps w w' : step w w' → world_inv w → deps_inv w → deps_inv w'.
Proof.
  intros Hstep HI Hd. destruct Hstep; try (by eapply deps_same; [..|exact Hd]).
  - (* prepare *) by apply deps_prepare.
  - (* submit *) by eapply deps_submit.
  - (* take *) by eapply deps_take.
  - (* idle *) by eapply deps_take.
  - (* execute *) destruct (execute_frame _ _ _ _ _ _ _ _ _ _ H0) as [->|(? & ? & ? & ->)];
      (eapply (deps_region w _ i (TRun g s n) (<[i := TRan g s n failure]> (tokens w))); try done;
       try (right; by exists (TRan g s n failure))).
    intros. by apply sig_view_on_signal.
  - (* complete *) unfold complete.
    destruct (complete_run g s n failure (sched w) (graphs w) (sts w)) as [[sch h] sts'] eqn:E.
    destruct (sig_view_complete _ _ _ _ _ _ _ _ _ _ E) as [Ep Ev].
    eapply (deps_region w _ i (TRan g s n failure)); try done; auto.
  - (* release *) by apply deps_release.
  - (* publish *) by eapply deps_publish.
  - (* clone *) by apply deps_clone.
  - (* drop *) by apply deps_drop.
  - (* ready *) revert Hd. apply deps_observers; simpl; try done.
    + intros g s sig E. exists sig. split_and!; try done. unfold held; simpl.
      rewrite !refs_app, refs_cons, decide_False by done. change (refs g s []) with 0%nat. lia.
    + unfold held; simpl. intros c. rewrite <-app_assoc, !elem_of_app, list_elem_of_singleton.
      intros [?|[->|?]]; auto.
  - (* cancel *) eapply deps_same; [..|exact Hd]; try done. intros. by apply sig_view_on_signal.
  - (* poll *) eapply deps_same; [..|exact Hd]; try done. intros. apply sig_view_on_signal.
    intros x. split; [apply poll_observers|apply poll_done_flag].
  - (* native enter *) eapply deps_same; [..|exact Hd]; try done. simpl. unfold native_enter in H.
    destruct (_ <=? _)%nat; [done|]. destruct (take_sequence (sched w)) as [[sch1 k]|] eqn:E; [|done].
    simpl in H. injection H as <- _. by apply take_sequence_Some in E as (_ & _ & ? & _).
  - (* native yield *) eapply deps_same; [..|exact Hd]; try done. simpl. unfold native_yield in H0.
    destruct (take_sequence (sched w)) as [[sch1 k]|] eqn:E; [|done].
    simpl in H0. injection H0 as <- _. by apply take_sequence_Some in E as (_ & _ & ? & _).
Qed.

Lemma reachable_deps w : reachable w → deps_inv w.
Proof.
  intros (id & cap & H).
  assert (Hgen : ∀ x y, rtc step x y → world_inv x ∧ deps_inv x → deps_inv y).
  { clear. induction 1 as [|x y z Hs _ IH]; [by intros [_ ?]|]. intros [HI Hd]. apply IH.
    split; [by eapply step_inv|by eapply step_deps]. }
  eapply Hgen; [done|]. split; [apply new_world_inv|].
  assert (Hnone : ∀ g s, signal_at ∅ g s = None) by (intros; unfold signal_at; by rewrite lookup_empty).
  split; simpl; intros *; rewrite ?Hnone; try done; by intros ?%elem_of_nil.
Qed.

End SchedLiveness.
