(* ===== verification/SchedulerProgress.v ===== *)
(** * The scheduler never deadlocks

    While a submission is pending and no worker holds an action, either the next
    scan finds an action or the front native ticket may be granted; and every
    worker step decreases a measure, so all accepted submissions complete. *)

From S2P Require Import Prelude Access DependencyFrontier BufferView Dependencies Completion Buffer Trace Statistics Scheduler SchedulerSteps SchedulerHeap SchedulerSafety SchedulerTheorems SchedulerLiveness.
Local Open Scope Z_scope.

Module SchedProgress.
Import Sched Steps SchedHeap SchedSafety SchedTheorems SchedLiveness.

(** ** The scan finds ready nodes *)

Lemma poll_dependencies_settled h deps :
  (∀ d, d ∈ deps → is_Some (handle_result h d)) → (poll_dependencies h deps false).1 = false.
Proof.
  intros H. induction deps as [|d deps IH]; simpl; [done|].
  destruct (H d) as [r ->]; [by left|]. destruct r; simpl; [|done].
  apply IH. intros. apply H. by right.
Qed.

Definition has_candidate (c : Candidates) (l : nat) : Prop := ∃ x, c !! l = Some (Some x).

Lemma scan_operations_length sch ji job sl index ops c :
  length (scan_operations sch ji job sl index ops c) = length c.
Proof.
  revert index c. induction ops as [|op ops IH]; intros index c; simpl; [done|].
  rewrite IH. case_bool; [by rewrite length_insert|done].
Qed.

Lemma has_candidate_insert c l l' x : has_candidate c l → (l < length c)%nat → has_candidate (<[l' := Some x]> c) l.
Proof.
  intros [y Hy] Hl. destruct (decide (l' = l)) as [->|Hne].
  - exists x. by apply list_lookup_insert_eq.
  - exists y. by rewrite list_lookup_insert_ne.
Qed.

Lemma scan_operations_keeps sch ji job sl index ops c l :
  has_candidate c l → has_candidate (scan_operations sch ji job sl index ops c) l.
Proof.
  revert index c. induction ops as [|op ops IH]; intros index c Hc; simpl; [done|].
  apply IH. case_bool; [|done]. apply has_candidate_insert; [done|].
  destruct Hc as [x Hx]. by eapply lookup_lt_Some.
Qed.

Lemma scan_operations_finds sch ji job sl index ops c k op :
  length c = lane_count → ops !! k = Some op → node_ready sch job sl (index + k) op = true →
  has_candidate (scan_operations sch ji job sl index ops c) (queue op).
Proof.
  revert index c k. induction ops as [|op0 ops IH]; intros index c k Hlen Hk Hr; [done|].
  destruct k as [|k]; simpl in *.
  - injection Hk as ->. rewrite Nat.add_0_r in Hr. rewrite Hr. simpl. apply scan_operations_keeps.
    assert (Hlt : (queue op < length c)%nat) by (rewrite Hlen; apply queue_lt).
    destruct (beats sch (queue op) job (c !! queue op ≫= id)) eqn:Eb.
    + exists (ji, index). by apply list_lookup_insert_eq.
    + destruct (c !! queue op) as [[x|]|] eqn:Ec; simpl in Eb; try done. by exists x.
  - apply (IH (S index) _ k); [|done|by rewrite Nat.add_succ_l, <-Nat.add_succ_r].
    case_bool; [by rewrite length_insert|done].
Qed.

Lemma scan_keeps sch target ji jobs h c h' c' l :
  scan sch target ji jobs h c = (h', Ready c') → has_candidate c l → has_candidate c' l.
Proof.
  revert ji h c. induction jobs as [|job jobs IH]; intros ji h c; simpl; [by intros [= <- <-]|].
  destruct (h !! graph job) as [p|], (slot_at h (graph job) (slot job)) as [sl|],
    (signal_at h (graph job) (slot job)) as [sig|]; try apply IH.
  destruct (poll_dependencies h (dependencies job) false) as [waiting failed].
  destruct (all_done _); [destruct (negb (is_target target job)); [apply IH|done]|].
  destruct (_ || waiting); [apply IH|]. intros Hs Hc. eapply IH; [exact Hs|].
  by apply scan_operations_keeps.
Qed.

(** The offsets reach every lane. *)
Lemma lanes_covered k l : (l < lane_count)%nat → ∃ o, o ∈ seq 0 lane_count ∧ ((k + o) mod lane_count = l)%nat.
Proof.
  intros Hl. exists ((l + (lane_count - k mod lane_count)) mod lane_count)%nat. unfold lane_count in *. split.
  - apply elem_of_seq. pose proof (Nat.mod_upper_bound (l + (5 - k mod 5)) 5). lia.
  - rewrite Nat.Div0.add_mod_idemp_r. pose proof (Nat.div_mod_eq k 5) as Hk.
    pose proof (Nat.mod_upper_bound k 5 ltac:(lia)) as Hb.
    replace (k + (l + (5 - k mod 5)))%nat with (l + (k / 5 + 1) * 5)%nat by lia.
    rewrite Nat.Div0.mod_add. apply Nat.mod_small. lia.
Qed.

Lemma pick_finds sch c l bound offsets :
  candidates_ok sch bound.1 bound.2 c → has_candidate c l →
  (∃ o, o ∈ offsets ∧ ((next_lane sch + o) mod lane_count = l)%nat) →
  is_Some (pick sch None c offsets).
Proof.
  intros Hok [[ji n] Hc]. induction offsets as [|o offsets IH]; intros (o' & Ho & Hl).
  { by apply elem_of_nil in Ho. }
  cbn -[Nat.modulo]. set (k := ((next_lane sch + o) mod lane_count)%nat).
  destruct (c !! k) as [[[ji' m]|]|] eqn:Ek; simpl.
  - destruct (Hok _ _ _ Ek) as (_ & job & ops & op & sl & Hji & _). rewrite Hji. simpl. eauto.
  - apply IH. apply elem_of_cons in Ho as [->|Ho]; [|by eauto]. unfold k in Ek. congruence.
  - apply IH. apply elem_of_cons in Ho as [->|Ho]; [|by eauto]. unfold k in Ek. congruence.
Qed.

(** ** Progress *)

(** A node all of whose predecessors are done. *)
Lemma first_pending (ns : list NodeState) :
  (∀ n, ns !! n ≠ Some Running) → ¬ (∀ n st, ns !! n = Some st → st = Done) →
  ∃ n, ns !! n = Some Pending ∧ ∀ d, (d < n)%nat → ns !! d = Some Done.
Proof.
  induction ns as [|st ns IH]; intros Hr Hd; [by destruct Hd|].
  destruct st.
  - exists 0%nat. split; [done|lia].
  - by destruct (Hr 0%nat).
  - destruct IH as (n & Hn & Hlt).
    + intros n. apply (Hr (S n)).
    + intros Hall. apply Hd. intros [|n] st'; simpl; [by intros [= <-]|apply Hall].
    + exists (S n). split; [done|]. intros [|d] Hlt'; [done|]. simpl. apply Hlt. lia.
Qed.

Lemma well_prepared_edges reg p n op d :
  well_prepared reg p → operations p !! n = Some op → d ∈ op_dependencies op → (d < n)%nat.
Proof.
  intros [_ Hdeps _ _ _ _] Hn Hd.
  destruct (Frontier.record_all_recorded ((λ op, Deps.interval_use <$> op_uses op) <$> operations p))
    as (ds & f & Hds & Hrec). rewrite Hdeps in Hds. injection Hds as <-.
  apply (Frontier.rec_sound _ _ _ Hrec). exists (op_dependencies op). split; [|done].
  by rewrite list_lookup_fmap, Hn.
Qed.

(** The first pending submission waits for nothing when nobody holds work. *)
Lemma first_job_ready w job rest :
  world_inv w → deps_inv w → tokens w = [] → pending (sched w) = job :: rest →
  blockers job = 0%nat ∧ (poll_dependencies (graphs w) (dependencies job) false).1 = false.
Proof.
  intros HI [Ho Hu He Hd] Ht Hp. pose proof HI as []. split.
  - rewrite (inv_blockers0 0%nat job); [done|]. by rewrite Hp.
  - apply poll_dependencies_settled. intros d Hdep. unfold handle_result.
    destruct (c_signal d) as [[g s]|] eqn:Es; [|by eexists].
    assert (Hheld : d ∈ held w).
    { unfold held. rewrite !elem_of_app, Hp. right; left. apply list_elem_of_bind. exists job.
      split; [done|by left]. }
    destruct (He d g s Hheld Es) as [sig Hsig]. rewrite Hsig. simpl.
    unfold Completion.result. destruct (Completion.done_flag sig) eqn:Ed; [by eexists|].
    exfalso. destruct (Hd job d g s sig) as (j' & Hj' & _ & Hlt); try done; [rewrite Hp; by left|].
    unfold in_flight in Hj'. rewrite Ht, app_nil_r, Hp in Hj'.
    rewrite Hp in inv_sorted0. simpl in inv_sorted0. inversion inv_sorted0 as [|? ? _ Hall]; subst.
    apply elem_of_cons in Hj' as [->|Hj']; [lia|]. rewrite Forall_forall in Hall.
    specialize (Hall (sequence j')). rewrite list_elem_of_fmap in Hall. specialize (Hall ltac:(eauto)). lia.
Qed.

Lemma idle_lanes_free w l :
  world_inv w → tokens w = [] → native_active (sched w) = false → lane_running (sched w) l = false.
Proof.
  intros [] Ht Ha. destruct (lane_running (sched w) l) eqn:E; [|done].
  apply inv_lanes0 in E. unfold native_lanes in E. rewrite Ht, Ha in E. by apply elem_of_nil in E.
Qed.

Lemma front_ticket_ready w t :
  world_inv w → tokens w = [] → native_active (sched w) = false →
  head (native (sched w)) = Some t → (∀ j, j ∈ pending (sched w) → t <= sequence j) →
  native_ready (sched w) t = true.
Proof.
  intros HI Ht Ha Hh Hp. unfold native_ready. rewrite bool_decide_eq_true_2 by done.
  rewrite (idle_lanes_free w) by done. simpl. apply andb_true_iff. split.
  - apply negb_true_iff. apply not_true_iff_false. rewrite existsb_exists. intros (j & Hj & Hlt).
    rewrite <-list_elem_of_In in Hj. apply Z.ltb_lt in Hlt. specialize (Hp j Hj). lia.
  - pose proof (inv_finishing _ _ _ _ HI) as Hf. rewrite Ht in Hf. simpl in Hf.
    apply Permutation_nil_r in Hf. by rewrite Hf.
Qed.

(** The node of the first submission that may start, unless a ticket precedes. *)
Lemma first_node_ready w job rest p sl sl' :
  world_inv w → tokens w = [] → native_active (sched w) = false → pending (sched w) = job :: rest →
  graphs w !! graph job = Some p → slot_at (graphs w) (graph job) (slot job) = Some sl →
  slot_settled sl sl' → all_done sl' = false →
  (∃ n op, operations p !! n = Some op ∧ node_ready (sched w) job sl' n op = true)
  ∨ ∃ t, native_ready (sched w) t = true.
Proof.
  intros HI Ht Ha Hp Hg Hsl Hset Hnd. pose proof HI as [].
  assert (Hnr : ∀ n, nodes sl' !! n ≠ Some Running).
  { intros n Hn. rewrite (node_running_settled sl sl') in Hn by done.
    assert (Hin : (graph job, slot job, n) ∈ run_nodes (tokens w)).
    { apply inv_running0. unfold node_at. by rewrite Hsl. }
    rewrite Ht in Hin. by apply elem_of_nil in Hin. }
  destruct (first_pending (nodes sl') Hnr) as (n & Hn & Hlt).
  { rewrite <-all_done_spec, Hnd. done. }
  assert (Hlen : length (nodes sl') = length (operations p)).
  { pose proof (slot_at_graph _ _ _ _ Hsl) as (p' & Hp' & Hs). rewrite Hg in Hp'. injection Hp' as <-.
    rewrite <-(prep_slots _ _ (inv_graphs0 _ _ Hg) _ _ Hs). destruct Hset as [_ [->| ->]]; [done|].
    apply length_fmap. }
  destruct (lookup_lt_is_Some_2 (operations p) n) as [op Hop].
  { rewrite <-Hlen. by eapply lookup_lt_Some. }
  destruct ((queue op =? compute_lane)%nat
    && match head (native (sched w)) with Some t => t <? sequence job | None => false end) eqn:En.
  - right. to_prop. destruct (head (native (sched w))) as [t|] eqn:Eh; [|done]. to_prop. exists t.
    apply front_ticket_ready; try done. intros j Hj. rewrite Hp in Hj. rewrite Hp in inv_sorted0.
    inversion inv_sorted0 as [|? ? _ Hall]; subst. apply elem_of_cons in Hj as [->|Hj]; [lia|].
    rewrite Forall_forall in Hall. specialize (Hall (sequence j)). rewrite list_elem_of_fmap in Hall.
    specialize (Hall ltac:(eauto)). lia.
  - left. exists n, op. split; [done|]. unfold node_ready. rewrite En, (idle_lanes_free w) by done. simpl.
    rewrite bool_decide_eq_true_2 by done. simpl. apply forallb_forall. intros d Hd%list_elem_of_In.
    apply bool_decide_eq_true_2. apply Hlt.
    by apply (well_prepared_edges _ p n op d (inv_graphs0 _ _ Hg)).
Qed.

Lemma scan_progress w :
  world_inv w → deps_inv w → tokens w = [] → native_active (sched w) = false →
  pending (sched w) ≠ [] →
  is_Some (next_action (sched w) (graphs w) None).2 ∨ ∃ t, native_ready (sched w) t = true.
Proof.
  intros HI Hd Ht Ha Hne. destruct (pending (sched w)) as [|job rest] eqn:Hp; [done|].
  destruct (first_job_ready w job rest HI Hd Ht Hp) as [Hb Hpoll]. pose proof HI as [].
  destruct (inv_pending0 job) as (sl & sig & Hsl & Hsig & _); [rewrite Hp; by left|].
  destruct (slot_at_graph _ _ _ _ Hsl) as (p & Hg & _).
  assert (Hnd : NoDup (loc <$> pending (sched w))).
  { rewrite fmap_app in inv_locs0. by apply NoDup_app in inv_locs0 as [? _]. }
  unfold next_action.
  destruct (scan (sched w) None 0 (pending (sched w)) (graphs w) (replicate lane_count None))
    as [h1 r] eqn:Es.
  assert (Hc0 : candidates_ok (sched w) (graphs w) (length (@nil Job)) (replicate lane_count None)).
  { intros l ji n Hl. by apply lookup_replicate in Hl as [? _]. }
  destruct (scan_spec (sched w) None [] _ _ _ h1 r eq_refl Hnd Hc0 Es) as (_ & Hok & _).
  destruct r as [ji f|c].
  { left. destruct Hok as (j & sl1 & Hj & _). unfold remove. rewrite Hj. simpl. by eexists. }
  rewrite Hp in Es. simpl in Es. rewrite Hg, Hsl, Hsig in Es.
  destruct (poll_dependencies (graphs w) (dependencies job) false) as [waiting failed]. simpl in Hpoll.
  subst waiting. set (sl' := settle (Completion.cancel sig) failed sl) in *.
  destruct (all_done sl') eqn:Ed; [done|]. rewrite Hb in Es. simpl in Es.
  destruct (first_node_ready w job rest p sl sl') as [(n & op & Hop & Hr)|Hn]; try done;
    [apply settle_settled| |by right].
  left. assert (Hcand : has_candidate c (queue op)).
  { eapply scan_keeps; [exact Es|]. by apply (scan_operations_finds _ _ _ _ 0 _ _ n). }
  destruct (pick_finds (sched w) c (queue op) (h1, length (pending (sched w))) (seq 0 lane_count) Hok Hcand)
    as [[[l j] m] ->]; [apply lanes_covered, queue_lt|]. by eexists.
Qed.

(** C3. No deadlock: in every reachable state in which submissions or native
    tickets occupy the runtime, no worker holds an action and no native stage is
    active, the next scan yields an action for a worker or the front ticket may
    be granted; cancelled, failed and dependent submissions included. *)
Theorem scheduler_never_deadlocks w :
  reachable w → tokens w = [] → native_active (sched w) = false →
  (0 < sched_occupied (sched w))%nat →
  (∃ w' a, take_action None w = (w', Some a)) ∨ (∃ t, native_ready (sched w) t = true).
Proof.
  intros Hr Ht Ha Hocc. pose proof (reachable_inv w Hr) as HI. pose proof (reachable_deps w Hr) as Hd.
  destruct (pending (sched w)) as [|job rest] eqn:Hp.
  - right. assert (Hf : finishing (sched w) = []).
    { pose proof (inv_finishing _ _ _ _ HI) as Hf. rewrite Ht in Hf. by apply Permutation_nil_r in Hf. }
    unfold sched_occupied in Hocc. rewrite Hp, Hf, Ha in Hocc. simpl in Hocc.
    destruct (native (sched w)) as [|t ts] eqn:En; [simpl in Hocc; lia|]. exists t.
    apply front_ticket_ready; try done; [by rewrite En|]. rewrite Hp. by intros j ?%elem_of_nil.
  - destruct (scan_progress w) as [[a Ha']|Hn]; try done; [by rewrite Hp| |by right].
    left. unfold take_action.
    destruct (next_action (sched w) (graphs w) None) as [[sch h] a']. simpl in Ha'. subst a'. eauto.
Qed.

Lemma scheduler_never_deadlocks_witness :
  (0 < sched_occupied (sched demo_submitted))%nat
  ∧ ((∃ w' a, take_action None demo_submitted = (w', Some a))
     ∨ (∃ t, native_ready (sched demo_submitted) t = true)).
Proof.
  assert (Hocc : (0 < sched_occupied (sched demo_submitted))%nat) by (vm_compute; lia).
  split; [exact Hocc|].
  apply (scheduler_never_deadlocks demo_submitted demo_submitted_reachable);
    [vm_compute; reflexivity|vm_compute; reflexivity|exact Hocc].
Defined.

(** ** Every worker step makes progress *)

(** The steps of workers and blocked callers. *)
Inductive worker_step : World → World → Prop :=
| ws_take w w' target a : take_action target w = (w', Some a) → worker_step w w'
| ws_execute w w' i now elapsed g s n maintain backend failure :
    tokens w !! i = Some (TRun g s n) → execute now elapsed g s n maintain backend w = (w', failure) →
    worker_step w (with_tokens (<[i := TRan g s n failure]> (tokens w')) w')
| ws_complete w i g s n failure :
    tokens w !! i = Some (TRan g s n failure) →
    worker_step w (with_tokens (delete i (tokens w)) (complete g s n failure w))
| ws_release w i job failure :
    tokens w !! i = Some (TFinish job failure) →
    worker_step w (with_tokens (<[i := TReleased job failure]> (tokens w)) (release job w))
| ws_publish w w' i now job failure :
    tokens w !! i = Some (TReleased job failure) → publish now job failure w = Some w' →
    worker_step w (with_tokens (delete i (tokens w)) w').

Lemma worker_step_step w w' : worker_step w w' → step w w'.
Proof.
  intros [].
  - by eapply step_take.
  - by eapply step_execute.
  - by apply step_complete.
  - by apply step_release.
  - by eapply step_publish.
Qed.

(** The work left: regions not started, regions and submissions in flight. *)
Definition unstarted (sl : Slot) : nat := length (filter (λ st, st = Pending) (nodes sl)).
Definition job_cost (h : heap) (job : Job) : nat :=
  3 + 3 * default 0%nat (unstarted <$> slot_at h (graph job) (slot job)).
Global Arguments job_cost : simpl never.
Definition token_cost (t : Token) : nat :=
  match t with TRun _ _ _ | TFinish _ _ => 2 | TRan _ _ _ _ | TReleased _ _ => 1 end.
Definition work (w : World) : nat :=
  sum_list_with (job_cost (graphs w)) (pending (sched w)) + sum_list_with token_cost (tokens w).

Lemma sum_list_with_perm {A} (f : A → nat) l l' : l ≡ₚ l' → sum_list_with f l = sum_list_with f l'.
Proof. induction 1; simpl; lia. Qed.

Lemma sum_list_with_le {A B} (k : A → B) (f g : A → nat) l l' :
  k <$> l = k <$> l' → (∀ x y, x ∈ l → k x = k y → (f x ≤ g y)%nat) →
  (sum_list_with f l ≤ sum_list_with g l')%nat.
Proof.
  revert l'. induction l as [|x l IH]; intros [|y l']; try done.
  rewrite !fmap_cons. intros [= Hxy Hl] H. simpl. specialize (IH l' Hl).
  pose proof (H x y ltac:(by left) Hxy). assert (∀ x y, x ∈ l → k x = k y → (f x ≤ g y)%nat).
  { intros. apply H; [by right|done]. }
  specialize (IH ltac:(done)). lia.
Qed.

Lemma unstarted_settled sl sl' : slot_settled sl sl' → (unstarted sl' ≤ unstarted sl)%nat.
Proof.
  unfold unstarted. intros [_ [->| ->]]; [done|].
  induction (nodes sl) as [|st ns IH]; [done|]. rewrite fmap_cons, !filter_cons.
  destruct st; simpl; repeat destruct (decide _); simpl; try done; lia.
Qed.

Lemma unstarted_start sl n :
  nodes sl !! n = Some Pending → unstarted sl = S (unstarted (set_node n Running sl)).
Proof.
  unfold unstarted; simpl. revert n. induction (nodes sl) as [|st ns IH]; intros [|n] Hn; try done.
  - injection Hn as ->. simpl. rewrite !filter_cons. repeat destruct (decide _); done.
  - simpl in *. rewrite !filter_cons. destruct (decide _); simpl; rewrite (IH n Hn); done.
Qed.

Lemma job_cost_settles h h' job : settles h h' → (job_cost h' job ≤ job_cost h job)%nat.
Proof.
  intros [_ _ Hsl]. unfold job_cost. specialize (Hsl (graph job) (slot job)).
  destruct (slot_at h (graph job) (slot job)) as [sl|].
  - destruct Hsl as (sl' & -> & Hs). simpl. pose proof (unstarted_settled _ _ Hs). lia.
  - by rewrite Hsl.
Qed.

Lemma work_settles h h' jobs :
  settles h h' → (sum_list_with (job_cost h') jobs ≤ sum_list_with (job_cost h) jobs)%nat.
Proof.
  intros Hs. apply (sum_list_with_le id); [done|]. intros x y _ Hxy. simpl in Hxy. subst y. by apply job_cost_settles.
Qed.

(** Costs depend on the slots of the submissions only. *)
Lemma work_same h h' jobs jobs' :
  loc <$> jobs' = loc <$> jobs →
  (∀ j, j ∈ jobs → slot_at h' (graph j) (slot j) = slot_at h (graph j) (slot j)) →
  sum_list_with (job_cost h') jobs' = sum_list_with (job_cost h) jobs.
Proof.
  revert jobs'. induction jobs as [|j jobs IH]; intros [|j' jobs']; try done.
  rewrite !fmap_cons. intros [= Hg Hs Hl] Hsl. simpl. rewrite IH; [|done|].
  - unfold job_cost. by rewrite Hg, Hs, Hsl by by left.
  - intros. apply Hsl. by right.
Qed.

Lemma work_start h job jobs n sl :
  job ∈ jobs → NoDup (loc <$> jobs) → slot_at h (graph job) (slot job) = Some sl →
  nodes sl !! n = Some Pending →
  sum_list_with (job_cost h) jobs
  = (3 + sum_list_with (job_cost (on_slot (graph job) (slot job) (set_node n Running) h)) jobs)%nat.
Proof.
  intros Hj Hnd Hsl Hn. apply list_elem_of_split in Hj as (l1 & l2 & ->).
  rewrite fmap_app, fmap_cons in Hnd. apply NoDup_app in Hnd as (_ & Hd1 & Hnd).
  apply NoDup_cons in Hnd as [Hd2 _]. rewrite !sum_list_with_app. cbn [sum_list_with].
  assert (Hsame : ∀ l, loc job ∉ loc <$> l →
    sum_list_with (job_cost (on_slot (graph job) (slot job) (set_node n Running) h)) l
    = sum_list_with (job_cost h) l).
  { intros l Hl. apply work_same; [done|]. intros j Hj. apply slot_at_on_slot_ne. intros Heq. apply Hl.
    apply list_elem_of_fmap. exists j. split; [|done]. unfold loc. congruence. }
  rewrite (Hsame l1), (Hsame l2); [|done|intros Hin; apply (Hd1 _ Hin); by left].
  assert (E : job_cost h job
    = (3 + job_cost (on_slot (graph job) (slot job) (set_node n Running) h) job)%nat).
  { unfold job_cost. rewrite slot_at_on_slot_eq, Hsl. simpl. rewrite (unstarted_start sl n Hn). lia. }
  lia.
Qed.

Lemma unstarted_done sl : all_done sl = true → unstarted sl = 0%nat.
Proof.
  rewrite all_done_spec. unfold unstarted. intros H.
  destruct (filter _ (nodes sl)) as [|st l] eqn:E; [done|]. exfalso.
  assert (Hin : st ∈ filter (λ st, st = Pending) (nodes sl)) by (rewrite E; by left).
  apply list_elem_of_filter in Hin as [-> Hin]. apply list_elem_of_lookup in Hin as [n Hn].
  by specialize (H n _ Hn).
Qed.

Lemma take_decreases w w' target a :
  world_inv w → take_action target w = (w', Some a) → (work w' < work w)%nat.
Proof.
  intros HI Ht. unfold take_action in Ht.
  destruct (next_action (sched w) (graphs w) target) as [[sch h] a'] eqn:En. injection Ht as <- ->.
  assert (Hnd : NoDup (loc <$> pending (sched w))).
  { destruct HI. rewrite fmap_app in inv_locs0. by apply NoDup_app in inv_locs0 as [? _]. }
  destruct (next_action_spec _ _ _ _ _ _ Hnd En) as (h1 & Hset & Hok & _).
  pose proof (work_settles _ _ (pending (sched w)) Hset) as Hle.
  unfold work; simpl. rewrite sum_list_with_app. destruct a as [g s n|job f]; simpl in *.
  - destruct Hok as (ji & job & l & Hji & [= <- <-] & _ & Hc & -> & ->). simpl.
    destruct (candidate_unfold _ _ _ _ _ _ Hji Hc) as (ops & op & sl & _ & _ & _ & Hsl & _ & _ & Hn & _).
    rewrite (work_start h1 job _ n sl) in Hle; [lia| |done..]. by eapply list_elem_of_lookup_2.
  - destruct Hok as (ji & sl & Hji & _ & Hsl & Hd & Hr & ->).
    pose proof (remove_fields loc _ _ _ _ _ (unblock_loc h1 job) Hr) as Hl.
    rewrite <-list_fmap_delete in Hl.
    rewrite (work_same h1 h1 (delete ji (pending (sched w))) (pending sch)) by done.
    rewrite (sum_list_with_perm _ _ _ (delete_Permutation _ _ _ Hji)) in Hle. cbn [sum_list_with] in Hle.
    assert (job_cost h1 job = 3%nat); [|lia]. unfold job_cost. rewrite Hsl. simpl.
    by rewrite unstarted_done.
Qed.

(** The measure when one token changes. *)
Lemma work_token w w' i t (ts' : list Token) :
  tokens w !! i = Some t →
  pending (sched w') = pending (sched w) →
  (∀ j, j ∈ pending (sched w) →
     default 0%nat (unstarted <$> slot_at (graphs w') (graph j) (slot j))
     = default 0%nat (unstarted <$> slot_at (graphs w) (graph j) (slot j))) →
  tokens w' = ts' →
  (ts' = delete i (tokens w) ∨ ∃ t', (token_cost t' < token_cost t)%nat ∧ ts' = <[i := t']> (tokens w)) →
  (work w' < work w)%nat.
Proof.
  intros Hi Ep Hsl Et Hts. unfold work. rewrite Ep, Et.
  assert (Hj : sum_list_with (job_cost (graphs w')) (pending (sched w))
    = sum_list_with (job_cost (graphs w)) (pending (sched w))).
  { clear -Hsl. induction (pending (sched w)) as [|j jobs IH]; [done|]. simpl. rewrite IH.
    - unfold job_cost. rewrite Hsl; [done|by left].
    - intros. apply Hsl. by right. }
  rewrite Hj, (sum_list_with_perm _ _ _ (delete_Permutation _ _ _ Hi)). simpl.
  destruct Hts as [->|(t' & Hlt & ->)].
  - destruct t; simpl; lia.
  - rewrite (sum_list_with_perm _ _ _ (tokens_insert _ i t t' Hi)). simpl. lia.
Qed.

Lemma unstarted_finish sl n failure :
  nodes sl !! n = Some Running → unstarted (finish_node n failure sl) = unstarted sl.
Proof.
  unfold unstarted; simpl. revert n. induction (nodes sl) as [|st ns IH]; intros [|n] Hn; try done.
  - injection Hn as ->. simpl. rewrite !filter_cons. repeat destruct (decide _); done.
  - simpl in *. rewrite !filter_cons. destruct (decide _); simpl; by rewrite (IH n Hn).
Qed.

Lemma complete_unstarted w i g s n failure j :
  world_inv w → tokens w !! i = Some (TRan g s n failure) →
  default 0%nat (unstarted <$> slot_at (graphs (complete g s n failure w)) (graph j) (slot j))
  = default 0%nat (unstarted <$> slot_at (graphs w) (graph j) (slot j)).
Proof.
  intros HI Hi.
  assert (Hrun : node_at (graphs w) g s n = Some Running).
  { apply (inv_running _ _ _ _ HI). apply list_elem_of_omap. exists (TRan g s n failure).
    split; [by eapply list_elem_of_lookup_2|done]. }
  unfold complete, complete_run. destruct failure; simpl; rewrite slot_at_on_slot, ?slot_at_quarantine;
    (destruct (decide _) as [[= <- <-]|_]; [|done]); unfold node_at in Hrun;
    (destruct (slot_at (graphs w) g s) as [sl|]; [|done]); simpl in *; by apply unstarted_finish.
Qed.

Lemma worker_decreases w w' : world_inv w → worker_step w w' → (work w' < work w)%nat.
Proof.
  intros HI Hs. destruct Hs as [w w' target a Ht|w w' i now elapsed g s n maintain backend failure Hi He
    |w i g s n failure Hi|w i job failure Hi|w w' i now job failure Hi Hp].
  - by eapply take_decreases.
  - eapply (work_token w _ i); [done|..|done|].
    + by destruct (execute_frame _ _ _ _ _ _ _ _ _ _ He) as [->|(? & ? & ? & ->)].
    + intros j _. destruct (execute_frame _ _ _ _ _ _ _ _ _ _ He) as [->|(? & ? & ? & ->)]; [done|].
      simpl. by rewrite slot_at_on_signal.
    + right. exists (TRan g s n failure). split; [simpl; lia|].
      by destruct (execute_frame _ _ _ _ _ _ _ _ _ _ He) as [->|(? & ? & ? & ->)].
  - eapply (work_token w _ i); [done|..|done|by left].
    + simpl. unfold complete, complete_run. by destruct failure.
    + intros j _. by eapply complete_unstarted.
  - eapply (work_token w _ i); [done|done|..|done|right; exists (TReleased job failure); split; [simpl; lia|done]].
    intros j _. simpl.
    destruct (fold_handles_frame drop_handle (dependencies job)
      (on_slot (graph job) (slot job) release_slot (graphs w)) drop_handle_form) as (_ & Hsl & _).
    rewrite Hsl, slot_at_on_slot. destruct (decide _) as [[= <- <-]|_]; [|done].
    by destruct (slot_at (graphs w) (graph job) (slot job)).
  - unfold publish in Hp.
    destruct (publish_job now job failure (sched w) (graphs w)) as [[[sch h] wk]|] eqn:E; [|done].
    injection Hp as <-. unfold publish_job in E.
    destruct (list_find _ (finishing (sched w))) as [[k x]|]; simpl in E; [|done]. injection E as <- <- _.
    eapply (work_token w _ i); [done|done|..|done|by left]. intros j _. simpl. by rewrite slot_at_on_signal.
Qed.

(** ** All accepted submissions complete *)

Lemma worker_step_frame w w' :
  worker_step w w' → world_inv w →
  native (sched w') = native (sched w) ∧ native_active (sched w') = native_active (sched w)
  ∧ handles w' = handles w.
Proof.
  intros Hs HI. destruct Hs as [w w' target a Ht|w w' i now elapsed g s n maintain backend failure Hi He
    |w i g s n failure Hi|w i job failure Hi|w w' i now job failure Hi Hp].
  - unfold take_action in Ht.
    destruct (next_action (sched w) (graphs w) target) as [[sch h] a'] eqn:En. injection Ht as <- ->.
    assert (Hnd : NoDup (loc <$> pending (sched w))).
    { destruct HI. rewrite fmap_app in inv_locs0. by apply NoDup_app in inv_locs0 as [? _]. }
    destruct (next_action_spec _ _ _ _ _ _ Hnd En) as (h1 & _ & Hok & _). simpl.
    destruct a as [g s n|job f]; simpl in Hok.
    + destruct Hok as (ji & job & l & _ & _ & _ & _ & -> & _). done.
    + destruct Hok as (ji & sl & Hji & _ & _ & _ & Hr & _). unfold remove in Hr. rewrite Hji in Hr.
      simpl in Hr. by injection Hr as <-.
  - by destruct (execute_frame _ _ _ _ _ _ _ _ _ _ He) as [->|(? & ? & ? & ->)].
  - unfold complete, complete_run. by destruct failure.
  - done.
  - unfold publish in Hp.
    destruct (publish_job now job failure (sched w) (graphs w)) as [[[sch h] wk]|] eqn:E; [|done].
    injection Hp as <-. unfold publish_job in E.
    destruct (list_find _ (finishing (sched w))) as [[k x]|]; simpl in E; [|done]. by injection E as <- _ _.
Qed.

Lemma worker_enabled w :
  reachable w → native (sched w) = [] → native_active (sched w) = false →
  pending (sched w) ≠ [] ∨ tokens w ≠ [] → ∃ w', worker_step w w'.
Proof.
  intros Hr Hn Ha Hbusy. pose proof (reachable_inv w Hr) as HI.
  destruct (tokens w) as [|t ts] eqn:Et.
  - destruct (scan_progress w HI (reachable_deps w Hr) Et Ha) as [[a Hact]|[t Ht]].
    { by destruct Hbusy. }
    + unfold is_Some in Hact. destruct (take_action None w) as [w' a'] eqn:E.
      assert (a' = Some a) as ->.
      { unfold take_action in E. destruct (next_action (sched w) (graphs w) None) as [[sch h] x].
        simpl in Hact. subst x. by injection E. }
      exists w'. by eapply ws_take.
    + apply native_ready_front in Ht as [Hh _]. by rewrite Hn in Hh.
  - assert (Hi : tokens w !! 0%nat = Some t) by (by rewrite Et). destruct t as [g s n|g s n f|job f|job f].
    + destruct (execute 0 0 g s n (λ _ _, Ok tt) None w) as [w' failure] eqn:E.
      eexists. by eapply ws_execute.
    + eexists. by eapply ws_complete.
    + eexists. by eapply ws_release.
    + assert (HI' : Inv (storages w) (sched w) (graphs w) (TReleased job f :: delete 0%nat (tokens w))).
      { eapply Inv_perm; [|exact HI]. by apply delete_Permutation. }
      destruct (publish_job_total _ _ _ 0 _ _ _ HI') as (sch & h & wk & E).
      eexists. eapply (ws_publish w _ 0%nat 0 job f Hi). unfold publish. by rewrite E.
Qed.

Lemma reachable_worker w w' : reachable w → worker_step w w' → reachable w'.
Proof. intros Hr Hs%worker_step_step. eapply reachable_rtc; [done|]. by apply rtc_once. Qed.

(** Once idle, every observed submission has its result. *)
Lemma idle_complete w :
  reachable w → pending (sched w) = [] → tokens w = [] →
  ∀ c, c ∈ handles w → is_Some (handle_result (graphs w) c).
Proof.
  intros Hr Hp Ht c Hc. destruct (reachable_deps w Hr) as [_ Hu He _]. unfold handle_result.
  destruct (c_signal c) as [[g s]|] eqn:Es; [|by eexists].
  destruct (He c g s) as [sig Hsig]; [apply elem_of_app; by left|done|]. rewrite Hsig. simpl.
  unfold Completion.result. destruct (Completion.done_flag sig) eqn:Ed; [by eexists|].
  destruct (Hu g s sig Hsig Ed) as (j & Hj & _). unfold in_flight in Hj. rewrite Hp, Ht in Hj.
  by apply elem_of_nil in Hj.
Qed.

Lemma worker_run_bounded w w' k :
  reachable w → nsteps worker_step k w w' → (k + work w' ≤ work w)%nat ∧ reachable w'
    ∧ native (sched w') = native (sched w) ∧ native_active (sched w') = native_active (sched w)
    ∧ handles w' = handles w.
Proof.
  intros Hr Hs. induction Hs as [w|k w w1 w' Hs _ IH]; [done|].
  pose proof (reachable_inv w Hr) as HI. pose proof (worker_decreases _ _ HI Hs).
  destruct (worker_step_frame _ _ Hs HI) as (E1 & E2 & E3).
  destruct (IH (reachable_worker _ _ Hr Hs)) as (? & ? & -> & -> & ->). split_and!; [lia|done..].
Qed.

Lemma idle_no_step w : pending (sched w) = [] → tokens w = [] → ¬ ∃ w', worker_step w w'.
Proof.
  intros Hp Ht [w' Hs]. inversion Hs as [? ? target a Hta| | | |]; subst;
    try (match goal with H : tokens w !! _ = Some _ |- _ => by rewrite Ht in H end).
  unfold take_action, next_action in Hta. rewrite Hp in Hta. cbn [scan] in Hta.
  destruct (pick (sched w) target (replicate lane_count None) (seq 0 lane_count)) as [[[l j] n]|] eqn:E; [|done].
  apply pick_candidate in E as (ji & Hc & _). by apply lookup_replicate in Hc as [? _].
Qed.

Lemma worker_run_ends w :
  reachable w → native (sched w) = [] → native_active (sched w) = false →
  ∃ w', rtc worker_step w w' ∧ ¬ ∃ w'', worker_step w' w''.
Proof.
  remember (work w) as m eqn:Em. revert w Em. induction (lt_wf m) as [m _ IH]. intros w -> Hr Hn Ha.
  assert (Hcase : (pending (sched w) = [] ∧ tokens w = []) ∨ (pending (sched w) ≠ [] ∨ tokens w ≠ [])).
  { destruct (pending (sched w)), (tokens w); auto. }
  destruct Hcase as [[Hp Ht]|Hbusy]; [exists w; split; [done|by apply idle_no_step]|].
  destruct (worker_enabled w Hr Hn Ha Hbusy) as [w1 Hs]. pose proof (reachable_inv w Hr) as HI.
  destruct (worker_step_frame _ _ Hs HI) as (E1 & E2 & _).
  destruct (IH _ (worker_decreases _ _ HI Hs) w1 eq_refl (reachable_worker _ _ Hr Hs)) as (w' & ? & ?);
    [congruence..|].
  exists w'. split; [|done]. by eapply rtc_l.
Qed.

(** C2. Every accepted submission completes: without native stages, any
    schedule of the workers from a reachable state takes at most [work] steps,
    whatever the native results, and one that can go no further has published
    every submission, so every completion handle has its result. *)
Theorem every_submission_completes w :
  reachable w → native (sched w) = [] → native_active (sched w) = false →
  (∀ k w', nsteps worker_step k w w' → (k ≤ work w)%nat)
  ∧ (∃ w', rtc worker_step w w' ∧ ¬ ∃ w'', worker_step w' w'')
  ∧ (∀ w', rtc worker_step w w' → (¬ ∃ w'', worker_step w' w'') →
       sched_occupied (sched w') = 0%nat ∧ ∀ c, c ∈ handles w → is_Some (handle_result (graphs w') c)).
Proof.
  intros Hr Hn Ha. split_and!.
  - intros k w' Hs. destruct (worker_run_bounded _ _ _ Hr Hs) as [? _]. lia.
  - by apply worker_run_ends.
  - intros w' [k Hs]%rtc_nsteps Hend.
    destruct (worker_run_bounded _ _ _ Hr Hs) as (_ & Hr' & En & Ea & Eh). rewrite Hn in En. rewrite Ha in Ea.
    assert (Hidle : pending (sched w') = [] ∧ tokens w' = []).
    { destruct (pending (sched w')) as [|j js] eqn:Ep, (tokens w') as [|t ts] eqn:Et; try done;
        destruct Hend; apply worker_enabled; rewrite ?Ep, ?Et; auto. }
    destruct Hidle as [Ep Et]. split.
    + pose proof (inv_finishing _ _ _ _ (reachable_inv _ Hr')) as Hf. rewrite Et in Hf. simpl in Hf.
      apply Permutation_nil_r in Hf. unfold sched_occupied. by rewrite Ep, Hf, En, Ea.
    + rewrite <-Eh. by apply idle_complete.
Qed.

Lemma every_submission_completes_witness :
  work demo_submitted = 12%nat
  ∧ ∃ w', rtc worker_step demo_submitted w' ∧ ¬ ∃ w'', worker_step w' w''.
Proof.
  split; [vm_compute; reflexivity|].
  apply (every_submission_completes demo_submitted demo_submitted_reachable);
    vm_compute; reflexivity.
Defined.

End SchedProgress.
