(* ===== verification/SchedulerHost.v ===== *)
(** * Host leases, handoffs and failures against device work

    The lease words of an allocation ([Buffer]) and the pending submissions of
    the scheduler exclude each other, and an allocation poisoned by a failed
    region stays unusable. *)

From S2P Require Import Prelude Access DependencyFrontier BufferView Dependencies Completion Buffer Trace Statistics Scheduler SchedulerSteps SchedulerHeap SchedulerSafety SchedulerTheorems.
Local Open Scope Z_scope.

Module SchedHost.
Import Sched Steps SchedHeap SchedSafety SchedTheorems.

(** ** What a step may do to the lease words *)

Definition host_of (x : stores) (id : Z) : option Buffer.HostState := Buffer.host <$> x !! id.

Lemma host_of_alter x id f id' :
  (∀ st, Buffer.host (f st) = Buffer.host st) → host_of (alter f id x) id' = host_of x id'.
Proof.
  intros Hf. unfold host_of. destruct (decide (id = id')) as [->|].
  - rewrite lookup_alter_eq. destruct (x !! id'); simpl; [by rewrite Hf|done].
  - by rewrite lookup_alter_ne.
Qed.

Lemma prepare_uses_host e maintain us x c x' c' r id :
  prepare_uses e maintain us x c = (x', c', r) → host_of x' id = host_of x id.
Proof.
  revert x c. induction us as [|u us IH]; intros x c; simpl; [by intros [= <- _ _]|].
  destruct (x !! _) as [st|] eqn:E; [|apply IH].
  destruct (Buffer.poison _); [by intros [= <- _ _]|].
  destruct (Buffer.make_visible _ _ _ _) as [[v n]|]; [|by intros [= <- _ _]].
  intros H. rewrite (IH _ _ H). unfold host_of. rewrite lookup_insert.
  destruct (decide _) as [<-|]; [by rewrite E|done].
Qed.

Lemma mark_written_host e us x id : host_of (mark_written e us x) id = host_of x id.
Proof.
  unfold mark_written. revert x. induction us as [|u us IH]; intros x; simpl; [done|].
  rewrite IH. case_bool; [|done]. by apply host_of_alter.
Qed.

Lemma run_host op maintain backend x c x' c' r id :
  run op maintain backend x c = (x', c', r) → host_of x' id = host_of x id.
Proof.
  unfold run. destruct (prepare_uses _ _ _ _ _) as [[x1 c1] [a|er]] eqn:E; simpl.
  - destruct backend as [[b|er]|]; intros [= <- _ _]; rewrite ?mark_written_host;
      by eapply prepare_uses_host.
  - intros [= <- _ _]. by eapply prepare_uses_host.
Qed.

(** Poisoning changes only the poison word. *)
Definition unpoisoned (h : Buffer.HostState) : Z * bool * bool :=
  (Buffer.readers h, Buffer.writer h, Buffer.external h).

Lemma poison_uses_host message us x id :
  unpoisoned <$> host_of (poison_uses message us x) id = unpoisoned <$> host_of x id.
Proof.
  unfold poison_uses. revert x. induction us as [|u us IH]; intros x; simpl; [done|].
  rewrite IH. unfold host_of. destruct (decide (View.st_id (use_storage u) = id)) as [->|].
  - rewrite lookup_alter_eq. by destruct (x !! id).
  - by rewrite lookup_alter_ne.
Qed.

(** ** Exclusion *)

(** The lease words allow a device use. *)
Definition allows (h : Buffer.HostState) (a : Access) : Prop :=
  Buffer.writer h = false ∧ Buffer.external h = false ∧ (writes a = true → Buffer.readers h = 0).

(** No pending submission uses an allocation against its lease words. *)
Definition host_inv (w : World) : Prop :=
  ∀ job u h, job ∈ pending (sched w) → u ∈ graph_uses (graphs w) (graph job) →
    host_of (sts w) (View.st_id (use_storage u)) = Some h → allows h (Deps.access u).

(** Steps that only remove submissions and keep the lease words. *)
Lemma host_frame w w' :
  (∀ job', job' ∈ pending (sched w') → ∃ job, job ∈ pending (sched w)
     ∧ graph_uses (graphs w') (graph job') = graph_uses (graphs w) (graph job)) →
  (∀ id h', host_of (sts w') id = Some h' →
     ∃ h, host_of (sts w) id = Some h ∧ unpoisoned h' = unpoisoned h) →
  host_inv w → host_inv w'.
Proof.
  intros Hj Hh HI job' u h' Hjob Hu Hst. destruct (Hj job' Hjob) as (job & Hp & Eu).
  destruct (Hh _ _ Hst) as (h & Hst0 & E). rewrite Eu in Hu.
  specialize (HI job u h Hp Hu Hst0). unfold allows, unpoisoned in *. injection E as E1 E2 E3.
  by rewrite E1, E2, E3.
Qed.

Lemma same_host w id (x : stores) :
  host_of x id = host_of (sts w) id →
  ∀ h', host_of x id = Some h' → ∃ h, host_of (sts w) id = Some h ∧ unpoisoned h' = unpoisoned h.
Proof. intros E h' H. exists h'. by rewrite <-E. Qed.

(** A summarized use touches a byte of its allocation. *)
Lemma summary_use_inside reg p u :
  well_prepared reg p → u ∈ uses p →
  reg !! View.st_id (use_storage u) = Some (use_storage u)
  ∧ View.conflicts (View.buffer_view (use_storage u)) (Deps.view u) = true.
Proof.
  intros W Hu. pose proof (well_prepared_coherent _ _ W) as Hco. pose proof (prep_uses _ _ W) as Eu.
  rewrite Eu in Hu.
  pose proof (Deps.summarize_canonical _ Hco) as [_ Hne]. rewrite Forall_forall in Hne.
  specialize (Hne u Hu). set (r := (View.region (Deps.view u)).2) in *.
  assert (Ht : Deps.touched (operations p ≫= op_uses) (View.region (Deps.view u)).1 (start r)).
  { apply Deps.summarize_touched; [done|]. exists u. split; [done|]. split; [done|]. unfold in_range.
    fold r. lia. }
  destruct Ht as (v & Hv & Hid & Hin). apply list_elem_of_bind in Hv as (op & Hv & Hop).
  destruct (prep_registered _ _ W op v Hop Hv) as [Hreg [Hv1 Hv2]].
  assert (Est : use_storage u = use_storage v).
  { destruct (Deps.summarize_storage (operations p ≫= op_uses) u Hco Hu) as (v' & Hv' & Es).
    unfold use_storage. rewrite <-Es. apply Hco; [done|apply list_elem_of_bind; eauto|].
    rewrite Es. symmetry. exact Hid. }
  rewrite Est. split; [done|]. unfold View.conflicts, View.overlaps, View.same_storage. simpl.
  fold (use_storage u). rewrite Est, Z.eqb_refl. simpl.
  unfold r, View.region in *. simpl in *. fold (use_storage u) (use_storage v) in *. rewrite Est in *.
  destruct (View.st_shared (use_storage v)); [done|]. simpl. unfold in_range in Hin.
  fold (use_storage v) in Hv2.
  apply andb_true_iff. split; apply Z.ltb_lt; lia.
Qed.

Lemma pending_uses_inside w job u s :
  world_inv w → job ∈ pending (sched w) → u ∈ graph_uses (graphs w) (graph job) →
  storages w !! View.st_id s = Some s → View.st_id (use_storage u) = View.st_id s →
  View.conflicts (View.buffer_view s) (Deps.view u) = true.
Proof.
  intros HI Hj Hu Hs Hid. destruct (pending_graph w job HI Hj) as [p Hp].
  unfold graph_uses in Hu. rewrite Hp in Hu. simpl in Hu.
  destruct (summary_use_inside _ _ _ (inv_graphs _ _ _ _ HI _ _ Hp) Hu) as [Hreg Hc].
  rewrite Hid, Hs in Hreg. injection Hreg as ->. done.
Qed.

(** [Scheduler::conflicts] on a whole allocation: no pending use of it is in the
    way. *)
Lemma conflicts_false w s a :
  world_inv w → storages w !! View.st_id s = Some s →
  conflicts (graphs w) (sched w) (View.buffer_view s) a = false →
  ∀ job u, job ∈ pending (sched w) → u ∈ graph_uses (graphs w) (graph job) →
    View.st_id (use_storage u) = View.st_id s → writes a = false ∧ writes (Deps.access u) = false.
Proof.
  intros HI Hs Hc job u Hj Hu Hid.
  pose proof (pending_uses_inside w job u s HI Hj Hu Hs Hid) as Hin.
  destruct (writes a || writes (Deps.access u)) eqn:Ew; [|by apply orb_false_iff].
  exfalso. apply not_true_iff_false in Hc. apply Hc. unfold conflicts. apply existsb_exists.
  exists job. rewrite <-list_elem_of_In. split; [done|]. apply existsb_exists. exists u.
  rewrite <-list_elem_of_In. split; [done|]. by rewrite Hin, Ew.
Qed.

Lemma host_of_set_host s hst w id :
  host_of (sts (set_host s hst w)) id
  = if decide (View.st_id s = id) then (λ _, hst) <$> host_of (sts w) id else host_of (sts w) id.
Proof.
  unfold host_of, set_host; simpl. destruct (decide _) as [<-|].
  - rewrite lookup_alter_eq. by destruct (sts w !! View.st_id s).
  - by rewrite lookup_alter_ne.
Qed.

(** Changing the lease words of one allocation to words that allow its uses. *)
Lemma host_set_host w s hst :
  (∀ job u h, job ∈ pending (sched w) → u ∈ graph_uses (graphs w) (graph job) →
     View.st_id (use_storage u) = View.st_id s → host_of (sts w) (View.st_id s) = Some h →
     allows h (Deps.access u) → allows hst (Deps.access u)) →
  host_inv w → host_inv (set_host s hst w).
Proof.
  intros H HI job u h Hj Hu Hh. rewrite host_of_set_host in Hh.
  destruct (decide (View.st_id s = View.st_id (use_storage u))) as [E|]; [|by eapply HI].
  rewrite <-E in Hh. destruct (host_of (sts w) (View.st_id s)) as [h0|] eqn:E0; [|done].
  injection Hh as <-. apply (H job u h0); try done. apply (HI job u h0); try done. by rewrite <-E.
Qed.

Lemma host_map w s write wait hst :
  world_inv w → storages w !! View.st_id s = Some s →
  map_host s write wait w = Some (Buffer.Reserved hst) → host_inv w → host_inv (set_host s hst w).
Proof.
  intros HI Hs Hm. apply host_set_host. intros job u h Hj Hu Hid Hh (Hw & He & Hr).
  unfold map_host in Hm. unfold host_of in Hh. destruct (sts w !! View.st_id s) as [st|]; [|done].
  simpl in Hm, Hh. injection Hm as Hm. injection Hh as <-.
  apply Buffer.acquire_attempt_Reserved in Hm as (_ & _ & _ & _ & _ & Hc & ->).
  destruct (conflicts_false w s _ HI Hs Hc job u Hj Hu Hid) as [Ha Hu'].
  destruct write; [done|]. split_and!; simpl; try done. by rewrite Hu'.
Qed.

Lemma host_unmap w s (write : bool) st :
  sts w !! View.st_id s = Some st →
  (if write then Buffer.writer (Buffer.host st) = true else 0 < Buffer.readers (Buffer.host st)) →
  host_inv w → host_inv (set_host s (Buffer.unreserve write (Buffer.host st)) w).
Proof.
  intros Hst Hlive. apply host_set_host. intros job u h Hj Hu Hid Hh (Hw & He & Hr).
  unfold host_of in Hh. rewrite Hst in Hh. injection Hh as <-.
  destruct write; simpl in *; [congruence|]. split_and!; simpl; try done. intros Hwr.
  specialize (Hr Hwr). lia.
Qed.

Lemma fold_external_host roots x id :
  host_of (foldl (λ x s, alter (set_external true) (View.st_id s) x) x roots) id
  = if decide (id ∈ View.st_id <$> roots)
    then (λ h, Buffer.mkHost (Buffer.readers h) (Buffer.writer h) true (Buffer.poison h)) <$> host_of x id
    else host_of x id.
Proof.
  revert x. induction roots as [|s roots IH]; intros x; simpl; [done|].
  rewrite IH. clear IH. unfold host_of. destruct (decide (View.st_id s = id)) as [->|Hne].
  - rewrite lookup_alter_eq. rewrite (decide_True (P := id ∈ id :: _)) by (by left).
    destruct (decide _), (x !! id); done.
  - rewrite lookup_alter_ne by done.
    destruct (decide (id ∈ View.st_id <$> roots)), (decide (id ∈ _ :: _)); try done; set_solver.
Qed.

Lemma host_handoff w roots :
  world_inv w → (∀ s, s ∈ roots → storages w !! View.st_id s = Some s) →
  handoff_ready roots w = true → host_inv w → host_inv (handoff_reserve roots w).
Proof.
  intros HI Hreg Hready Hinv job u h Hj Hu Hh. simpl in Hh. rewrite fold_external_host in Hh.
  destruct (decide _) as [Hin|]; [|by eapply Hinv]. exfalso.
  apply list_elem_of_fmap in Hin as (s & Hid & Hs). unfold handoff_ready in Hready.
  rewrite forallb_forall in Hready. specialize (Hready s). rewrite <-list_elem_of_In in Hready.
  specialize (Hready Hs). to_prop.
  destruct (conflicts_false w s _ HI (Hreg s Hs) H0 job u Hj Hu Hid). done.
Qed.

Lemma check_host_conflicts_Ok x us u h :
  check_host_conflicts x us = Ok tt → u ∈ us →
  host_of x (View.st_id (use_storage u)) = Some h → allows h (Deps.access u) ∧ Buffer.poison h = None.
Proof.
  induction us as [|v us IH]; intros H Hu Hh; [by apply elem_of_nil in Hu|]. simpl in H.
  destruct (match x !! View.st_id (use_storage v) with Some st => _ | None => Ok tt end) as [[]|] eqn:E; [|done].
  simpl in H. apply elem_of_cons in Hu as [->|Hu]; [|by apply IH].
  unfold host_of in Hh. destruct (x !! View.st_id (use_storage v)) as [st|]; [|done]. injection Hh as <-.
  apply Buffer.host_conflict_Ok in E as (? & ? & ? & ?). done.
Qed.

Lemma host_submit w w' now g deps :
  submit now g deps w = Some (Ok w') → host_inv w → host_inv w'.
Proof.
  intros Hs HI. unfold submit in Hs.
  destruct (admission _ _ _ _ _ _ _ _) as [[[[[sch h] c] hd]|e]|] eqn:Ea; simpl in Hs; try done.
  injection Hs as <-.
  apply admit_Ok in Ea as (p & s & sl & sig & Eg & _ & _ & _ & _ & Hchk & _ & _ & Eh & Een).
  apply enqueue_Some in Een as (b & Ep & _).
  assert (Hst : same_statics (graphs w) h).
  { subst h. destruct (fold_handles_frame clone_handle deps (on_signal g s Completion.observe
      (on_slot g s reset_slot (on_signal g s (Completion.reset now) (graphs w)))) clone_handle_form) as (Hst & _).
    statics. }
  intros job u hst Hj Hu Hh. simpl in *. rewrite (same_statics_uses (graphs w) h) in Hu by done.
  rewrite Ep in Hj. apply elem_of_app in Hj as [Hj| ->%list_elem_of_singleton]; [by eapply HI|].
  simpl in Hu. unfold graph_uses in Hu. rewrite Eg in Hu. by eapply check_host_conflicts_Ok.
Qed.

Lemma take_pending target w w' a :
  world_inv w → take_action target w = (w', a) →
  sts w' = sts w ∧ storages w' = storages w
  ∧ ∀ job', job' ∈ pending (sched w') → ∃ job, job ∈ pending (sched w)
      ∧ graph_uses (graphs w') (graph job') = graph_uses (graphs w) (graph job).
Proof.
  intros HI Ht. unfold take_action in Ht.
  destruct (next_action (sched w) (graphs w) target) as [[sch h] a'] eqn:En. injection Ht as <- <-.
  assert (Hnd : NoDup (loc <$> pending (sched w))).
  { destruct HI. rewrite fmap_app in inv_locs0. by apply NoDup_app in inv_locs0 as [? _]. }
  destruct (next_action_spec _ _ _ _ _ _ Hnd En) as (h1 & [Hst _ _] & Hok & _).
  split_and!; [done|done|]. simpl. intros job' Hj. destruct a' as [[g s n|job f]|]; simpl in Hok.
  - destruct Hok as (ji & job & l & _ & _ & _ & _ & -> & ->). exists job'. split; [done|].
    apply same_statics_uses. statics.
  - destruct Hok as (ji & sl & _ & _ & _ & _ & Hr & ->).
    destruct (remove_elem _ _ _ _ _ job' Hr) as [Hin _]. destruct (Hin Hj) as (j0 & Hj0 & Hor).
    exists j0. split; [done|]. rewrite (same_statics_uses (graphs w) h1) by done.
    destruct Hor as [->| ->]; [done|]. by rewrite unblock_graph.
  - destruct Hok as [-> ->]. exists job'. split; [done|]. by apply same_statics_uses.
Qed.

Lemma execute_host now elapsed g s n maintain backend w w' failure id :
  execute now elapsed g s n maintain backend w = (w', failure) →
  host_of (sts w') id = host_of (sts w) id ∧ storages w' = storages w.
Proof.
  unfold execute. destruct (graphs w !! g ≫= _) as [op|]; [|by intros [= <- <-]].
  destruct (run op maintain backend (sts w) (counters w)) as [[x c] o] eqn:E. intros [= <- <-]. simpl.
  split; [by eapply run_host|done].
Qed.

Lemma complete_host g s n failure w id :
  unpoisoned <$> host_of (sts (complete g s n failure w)) id = unpoisoned <$> host_of (sts w) id
  ∧ pending (sched (complete g s n failure w)) = pending (sched w)
  ∧ same_statics (graphs w) (graphs (complete g s n failure w)).
Proof.
  unfold complete, complete_run. destruct failure; simpl; split_and!; try done.
  - apply poison_uses_host.
  - statics.
  - statics.
Qed.

Lemma host_statics w w' :
  pending (sched w') = pending (sched w) → same_statics (graphs w) (graphs w') →
  (∀ id, unpoisoned <$> host_of (sts w') id = unpoisoned <$> host_of (sts w) id) →
  host_inv w → host_inv w'.
Proof.
  intros Ep Hst Hh. apply host_frame.
  - intros job' Hj. exists job'. rewrite Ep in Hj. split; [done|]. by apply same_statics_uses.
  - intros id h' E. specialize (Hh id). rewrite E in Hh. destruct (host_of (sts w) id) as [h|]; [|done].
    exists h. split; [done|]. simpl in Hh. congruence.
Qed.

Lemma step_host w w' : step w w' → world_inv w → host_inv w → host_inv w'.
Proof.
  intros Hstep HI Hh. destruct Hstep; try (by eapply (host_statics w); [..|exact Hh]).
  - (* allocate *) intros job u h Hj Hu E. simpl in *. unfold host_of in E. rewrite lookup_insert in E.
    destruct (decide _) as [Heq|]; [injection E as <-; done|]. by eapply Hh.
  - (* prepare *) intros job u h Hj Hu E. simpl in *. eapply Hh; [done| |done].
    unfold graph_uses in Hu. rewrite lookup_insert_ne in Hu; [done|]. intros Heq.
    destruct (pending_graph w job HI Hj) as [q Hq]. congruence.
  - (* submit *) by eapply host_submit.
  - (* take *) destruct (take_pending _ _ _ _ HI H) as (Es & _ & Hp).
    eapply (host_frame w); [exact Hp| |exact Hh]. intros id h' E. exists h'. by rewrite <-Es.
  - (* idle *) destruct (take_pending _ _ _ _ HI H) as (Es & _ & Hp).
    eapply (host_frame w); [exact Hp| |exact Hh]. intros id h' E. exists h'. by rewrite <-Es.
  - (* execute *) eapply (host_statics w); [..|exact Hh]; simpl.
    + by destruct (execute_frame _ _ _ _ _ _ _ _ _ _ H0) as [->|(? & ? & ? & ->)].
    + destruct (execute_frame _ _ _ _ _ _ _ _ _ _ H0) as [->|(? & ? & ? & ->)]; [done|].
      statics.
    + intros id. by rewrite (proj1 (execute_host _ _ _ _ _ _ _ _ _ _ id H0)).
  - (* complete *) destruct (complete_host g s n failure w 0) as (_ & Ep & Hst).
    eapply (host_statics w); [exact Ep|exact Hst| |exact Hh]. intros id. apply complete_host.
  - (* release *) eapply (host_statics w); [done| |done|exact Hh]. simpl.
    destruct (fold_handles_frame drop_handle (dependencies job)
      (on_slot (graph job) (slot job) release_slot (graphs w)) drop_handle_form) as (Hst & _).
    statics.
  - (* publish *) unfold publish in H0.
    destruct (publish_job now job failure (sched w) (graphs w)) as [[[sch h] wk]|] eqn:E; [|done].
    injection H0 as <-. unfold publish_job in E.
    destruct (list_find _ (finishing (sched w))) as [[k x]|]; simpl in E; [|done]. injection E as <- <- _.
    eapply (host_statics w); [done|statics|done|exact Hh].
  - (* clone *) eapply (host_statics w); [done| |done|exact Hh]. simpl.
    destruct (clone_handle_form c (graphs w)) as [->|(? & ? & ? & -> & _)]; [done|statics].
  - (* drop *) eapply (host_statics w); [done| |done|exact Hh]. simpl.
    destruct (drop_handle_form c (graphs w)) as [->|(? & ? & ? & -> & _)]; [done|statics].
  - (* cancel *) eapply (host_statics w); [done|statics|done|exact Hh].
  - (* poll *) eapply (host_statics w); [done|statics|done|exact Hh].
  - (* native enter *) eapply (host_statics w); [|done|done|exact Hh]. simpl. unfold native_enter in H.
    destruct (_ <=? _)%nat; [done|]. destruct (take_sequence (sched w)) as [[sch1 k]|] eqn:E; [|done].
    simpl in H. injection H as <- _. by apply take_sequence_Some in E as (_ & _ & ? & _).
  - (* native yield *) eapply (host_statics w); [|done|done|exact Hh]. simpl. unfold native_yield in H0.
    destruct (take_sequence (sched w)) as [[sch1 k]|] eqn:E; [|done].
    simpl in H0. injection H0 as <- _. by apply take_sequence_Some in E as (_ & _ & ? & _).
  - (* map *) by eapply host_map.
  - (* unmap *) by eapply host_unmap.
  - (* visibility *) eapply (host_statics w); [done|done| |exact Hh]. intros id. simpl.
    by rewrite host_of_alter.
  - (* handoff *) by apply host_handoff.
  - (* handoff end *) revert Hh. apply host_set_host. intros job u h Hj Hu Hid Hst (_ & Hext & _).
    unfold host_of in Hst. rewrite H0 in Hst. injection Hst as <-. congruence.
Qed.

Lemma reachable_host w : reachable w → host_inv w.
Proof.
  intros (id & cap & H).
  assert (Hgen : ∀ x y, rtc step x y → world_inv x ∧ host_inv x → host_inv y).
  { clear. induction 1 as [|x y z Hs _ IH]; [by intros [_ ?]|]. intros [HI Hd]. apply IH.
    split; [by eapply step_inv|by eapply step_host]. }
  eapply Hgen; [done|]. split; [apply new_world_inv|]. by intros job u h ?%elem_of_nil.
Qed.

(** C10. Host and device never share bytes unsafely: in every reachable state,
    if a region in flight accesses a byte of an allocation, no host write guard
    and no GPU handoff of that allocation is live, and if it writes the byte, no
    host read guard is live either. *)
Theorem host_and_device_exclusive w r u al x h :
  reachable w → r ∈ run_nodes (tokens w) → u ∈ node_uses w r → Deps.covers u al x →
  host_of (sts w) al = Some h →
  Buffer.writer h = false ∧ Buffer.external h = false
  ∧ (writes (Deps.access u) = true → Buffer.readers h = 0).
Proof.
  intros Hr Hin Hu Hcov Hh. pose proof (reachable_inv w Hr) as HI. pose proof (reachable_host w Hr) as Hhost.
  destruct r as [[g s] n]. destruct (inv_active _ _ _ _ HI g s n Hin) as (job & Hj & [= <- <-] & _).
  unfold node_uses in Hu; simpl in Hu. destruct (graphs w !! graph job) as [p|] eqn:Hp; [|set_solver].
  simpl in Hu. destruct (operations p !! n) as [op|] eqn:Hop; simpl in Hu; [|set_solver].
  pose proof (inv_graphs _ _ _ _ HI _ _ Hp) as W. pose proof (well_prepared_coherent _ _ W) as Hco.
  assert (Hall : u ∈ operations p ≫= op_uses).
  { apply list_elem_of_bind. exists op. split; [done|]. by eapply list_elem_of_lookup_2. }
  assert (Huses : ∀ v, v ∈ uses p → Deps.covers v al x → allows h (Deps.access v)).
  { intros v Hv [Hid _]. apply (Hhost job v h Hj); [unfold graph_uses; by rewrite Hp|].
    rewrite <-Hh. f_equal. exact Hid. }
  rewrite (prep_uses _ _ W) in Huses.
  assert (Ht : Deps.touched (Deps.summarize (operations p ≫= op_uses)) al x).
  { apply Deps.summarize_touched; [done|]. by exists u. }
  destruct Ht as (v & Hv & Hcv). destruct (Huses v Hv Hcv) as (? & ? & _). split_and!; [done|done|].
  intros Hw. destruct (proj2 (Deps.summarize_access (operations p ≫= op_uses) al x writes Hco
    (or_intror eq_refl))) as (v' & Hv' & Hcv' & Hw'); [by exists u|].
  by apply (Huses v' Hv' Hcv').
Qed.

Lemma host_and_device_exclusive_witness :
  Buffer.writer Buffer.host_default = false ∧ Buffer.external Buffer.host_default = false
  ∧ (writes (Deps.access (demo_use 10)) = true → Buffer.readers Buffer.host_default = 0).
Proof.
  apply (host_and_device_exclusive demo_running (1, 0, 0)%nat (demo_use 10) 10 5 Buffer.host_default).
  - exact demo_running_reachable.
  - rewrite demo_running_tokens. right; left.
  - vm_compute. left.
  - split; [reflexivity|]. unfold in_range. simpl. lia.
  - vm_compute. reflexivity.
Defined.

(** ** Failures are contained *)

Definition poisoned (x : stores) (id : Z) : Prop :=
  ∃ h m, host_of x id = Some h ∧ Buffer.poison h = Some m.

(** Lease words exist only for allocations. *)
Definition stores_registered (w : World) : Prop := ∀ id, is_Some (sts w !! id) → is_Some (storages w !! id).

Lemma poisoned_same x x' id : host_of x' id = host_of x id → poisoned x id → poisoned x' id.
Proof. intros E (h & m & ? & ?). exists h, m. by rewrite E. Qed.

Lemma poison_uses_poisons message us x id :
  (poisoned x id ∨ (is_Some (x !! id) ∧ ∃ u, u ∈ us ∧ View.st_id (use_storage u) = id)) →
  poisoned (poison_uses message us x) id.
Proof.
  unfold poison_uses. revert x. induction us as [|u us IH]; intros x H; simpl.
  { destruct H as [?|[_ (u & ?%elem_of_nil & _)]]; done. }
  apply IH. clear IH. destruct (decide (View.st_id (use_storage u) = id)) as [E|Hne].
  - left. assert (Hs : is_Some (x !! id)).
    { destruct H as [(h & m & Hh & _)|[? _]]; [|done]. unfold host_of in Hh. by destruct (x !! id). }
    destruct Hs as [st Hst]. eexists _, message. unfold host_of. rewrite E, lookup_alter_eq, Hst. done.
  - destruct H as [H|[Hs (v & [->|Hv]%elem_of_cons & Hid)]]; [| done|].
    + left. eapply poisoned_same; [|exact H]. unfold host_of. by rewrite lookup_alter_ne.
    + right. split; [by rewrite lookup_alter_ne|eauto].
Qed.

Lemma complete_poisoned g s n failure w id :
  poisoned (sts w) id → poisoned (sts (complete g s n failure w)) id.
Proof.
  intros H. unfold complete, complete_run. destruct failure; simpl; [|done].
  apply poison_uses_poisons. by left.
Qed.

Lemma set_host_poisoned w s hst id :
  (∀ h m, host_of (sts w) (View.st_id s) = Some h → Buffer.poison h = Some m → is_Some (Buffer.poison hst)) →
  poisoned (sts w) id → poisoned (sts (set_host s hst w)) id.
Proof.
  intros H (h & m & Hh & Hm). unfold poisoned. rewrite host_of_set_host.
  destruct (decide (View.st_id s = id)) as [<-|]; [|by eauto].
  destruct (H h m Hh Hm) as [m' Hm']. exists hst, m'. by rewrite Hh.
Qed.

Lemma step_registered w w' : step w w' → world_inv w → stores_registered w → stores_registered w'.
Proof.
  unfold stores_registered. intros Hs HI H.
  assert (Hhost : ∀ w1 id, host_of (sts w1) id = host_of (sts w) id → is_Some (sts w1 !! id) → is_Some (sts w !! id)).
  { intros w1 id E [st Hst]. unfold host_of in E. rewrite Hst in E. by destruct (sts w !! id). }
  assert (Halter : ∀ (f : Buffer.State → Buffer.State) i id, is_Some (alter f i (sts w) !! id) → is_Some (sts w !! id)).
  { intros f i id. by rewrite lookup_alter_is_Some. }
  destruct Hs; simpl; try done; intros id Hid.
  - rewrite lookup_insert in Hid. rewrite lookup_insert. destruct (decide _); eauto.
  - unfold submit in H1. destruct (admission _ _ _ _ _ _ _ _) as [[[[[sch h] c] hd]|e]|]; simpl in H1; try done.
    injection H1 as <-. auto.
  - destruct (take_pending _ _ _ _ HI H0) as (Es & Eg & _). rewrite Es in Hid. rewrite Eg. auto.
  - destruct (take_pending _ _ _ _ HI H0) as (Es & Eg & _). rewrite Es in Hid. rewrite Eg. auto.
  - destruct (execute_host _ _ _ _ _ _ _ _ _ _ id H1) as [Eh Eg]. rewrite Eg. apply H. by eapply (Hhost w').
  - assert (storages (complete g s n failure w) = storages w) as ->
      by (unfold complete, complete_run; by destruct failure).
    apply H. destruct (complete_host g s n failure w id) as [Eh _]. unfold host_of in Eh.
    destruct Hid as [st Hst]. rewrite Hst in Eh. by destruct (sts w !! id).
  - unfold publish in H1. destruct (publish_job now job failure (sched w) (graphs w)) as [[[sch h] wk]|]; [|done].
    injection H1 as <-. auto.
  - apply H. by eapply Halter.
  - apply H. by eapply Halter.
  - apply H. by eapply Halter.
  - apply H. revert Hid. clear -Hhost. unfold handoff_reserve; simpl. intros Hid.
    pose proof (fold_external_host roots (sts w) id) as E. unfold host_of in E.
    destruct Hid as [st Hst]. rewrite Hst in E. destruct (decide _), (sts w !! id); done.
  - apply H. by eapply Halter.
Qed.

Lemma step_poisoned w w' id :
  step w w' → world_inv w → stores_registered w → poisoned (sts w) id → poisoned (sts w') id.
Proof.
  intros Hs HI Hreg Hp. destruct Hs; try done.
  - (* allocate *) destruct Hp as (h & m & Hh & Hm). exists h, m. split; [|done]. simpl. unfold host_of.
    rewrite lookup_insert_ne; [done|]. intros <-. unfold host_of in Hh.
    destruct (sts w !! View.st_id s) eqn:E; [|done]. destruct (Hreg (View.st_id s)) as [? Hx]; [by eexists|].
    congruence.
  - unfold submit in H0. destruct (admission _ _ _ _ _ _ _ _) as [[[[[sch h] c] hd]|e]|]; simpl in H0; try done.
    by injection H0 as <-.
  - destruct (take_pending _ _ _ _ HI H) as (Es & _). by rewrite Es.
  - destruct (take_pending _ _ _ _ HI H) as (Es & _). by rewrite Es.
  - eapply poisoned_same; [|exact Hp]. by apply (execute_host _ _ _ _ _ _ _ _ _ _ id H0).
  - by apply complete_poisoned.
  - unfold publish in H0. destruct (publish_job now job failure (sched w) (graphs w)) as [[[sch h] wk]|]; [|done].
    by injection H0 as <-.
  - (* map *) apply set_host_poisoned; [|done]. intros h m Hh Hm. unfold map_host in H0. unfold host_of in Hh.
    destruct (sts w !! View.st_id s); [|done]. injection Hh as <-. simpl in H0. injection H0 as H0.
    apply Buffer.acquire_attempt_Reserved in H0 as (_ & Hn & _). congruence.
  - (* unmap *) apply set_host_poisoned; [|done]. intros h m Hh Hm. unfold host_of in Hh. rewrite H0 in Hh.
    injection Hh as <-. exists m. by destruct write.
  - (* visibility *) eapply poisoned_same; [|exact Hp]. simpl. by apply host_of_alter.
  - (* handoff *) destruct Hp as (h & m & Hh & Hm). unfold poisoned; simpl. rewrite fold_external_host, Hh.
    destruct (decide _); simpl; eauto.
  - (* handoff end *) apply set_host_poisoned; [|done]. intros h m Hh Hm. unfold host_of in Hh.
    rewrite H0 in Hh. injection Hh as <-. simpl. destruct uncertain; [by eexists|]. by exists m.
Qed.

Lemma reachable_registered w : reachable w → stores_registered w.
Proof.
  intros (id & cap & H).
  assert (Hgen : ∀ x y, rtc step x y → world_inv x ∧ stores_registered x → stores_registered y).
  { clear. induction 1 as [|x y z Hs _ IH]; [by intros [_ ?]|]. intros [HI Hd]. apply IH.
    split; [by eapply step_inv|by eapply step_registered]. }
  eapply Hgen; [done|]. split; [apply new_world_inv|]. intros i [st Hst]. simpl in Hst.
  by rewrite lookup_empty in Hst.
Qed.

Lemma poisoned_later w w' id :
  reachable w → rtc step w w' → poisoned (sts w) id → poisoned (sts w') id.
Proof.
  intros Hr H. induction H as [|w w1 w' Hs _ IH]; [done|]. intros Hp.
  apply IH; [by eapply reachable_rtc; [|apply rtc_once]|].
  by eapply step_poisoned; [..|by apply reachable_inv|by apply reachable_registered|].
Qed.

(** A graph that uses a poisoned allocation is refused. *)
Lemma poisoned_refused x id0 now g deps sch h c p u id :
  poisoned x id → h !! g = Some p → u ∈ uses p → View.st_id (use_storage u) = id →
  (∃ m, usable h x g = Err (DeviceLost m))
  ∧ ∀ r, admission id0 now g deps sch h x c ≠ Some (Ok r).
Proof.
  intros (hst & m & Hh & Hm) Hg Hu Hid. split.
  - unfold usable. rewrite Hg. destruct (quarantined p); [eauto|].
    assert (Hpo : is_Some (poison_of x u)).
    { unfold poison_of. rewrite Hid. unfold host_of in Hh. destruct (x !! id) as [st|]; [|done].
      simpl. injection Hh as ->. eauto. }
    destruct (list_find_elem_of (λ u, is_Some (poison_of x u)) _ _ Hu Hpo) as [[i v] ->]. eauto.
  - intros [[[sch' h'] c'] hd] Ha. apply admit_Ok in Ha as (p' & s & sl & sig & Eg & _ & _ & _ & _ & Hchk & _).
    rewrite Hg in Eg. injection Eg as <-.
    destruct (check_host_conflicts_Ok x (uses p) u hst Hchk Hu) as [_ Hn]; [by rewrite Hid|]. congruence.
Qed.

(** C23. Failures are contained and permanent: once a region of a graph failed,
    in every later state each allocation of that graph rejects device use: every
    graph that uses one of them, the failed one included, is unusable with
    [DeviceLost] and no submission of it is accepted. *)
Theorem failed_allocations_stay_unusable w i g s n e u w2 g2 p2 u2 :
  reachable w → tokens w !! i = Some (TRan g s n (Some e)) →
  u ∈ graph_uses (graphs w) g → is_Some (sts w !! View.st_id (use_storage u)) →
  rtc step (with_tokens (delete i (tokens w)) (complete g s n (Some e) w)) w2 →
  graphs w2 !! g2 = Some p2 → u2 ∈ uses p2 → View.st_id (use_storage u2) = View.st_id (use_storage u) →
  (∃ m, usable (graphs w2) (sts w2) g2 = Err (DeviceLost m))
  ∧ ∀ now deps w3, submit now g2 deps w2 ≠ Some (Ok w3).
Proof.
  intros Hr Hi Hu Hs Hrtc Hg2 Hu2 Hid.
  assert (Hp : poisoned (sts w2) (View.st_id (use_storage u))).
  { eapply poisoned_later; [|exact Hrtc|].
    - eapply reachable_rtc; [exact Hr|]. apply rtc_once. by apply step_complete.
    - simpl. apply poison_uses_poisons. right. eauto. }
  split.
  - by eapply (poisoned_refused _ 0 0 g2 [] (sched w2) (graphs w2) (counters w2)).
  - intros now deps w3 Hsub. unfold submit in Hsub.
    destruct (admission _ _ _ _ _ _ _ _) as [[r|er]|] eqn:Ea; simpl in Hsub; try done.
    by eapply (poisoned_refused _ (core w2) now g2 deps); [..|exact Ea].
Qed.

Lemma failed_allocations_stay_unusable_witness :
  ∃ w i e, reachable w ∧ tokens w !! i = Some (TRan 1 0 0 (Some e))
    ∧ ∃ m, usable (graphs (with_tokens (delete i (tokens w)) (complete 1 0 0 (Some e) w)))
             (sts (with_tokens (delete i (tokens w)) (complete 1 0 0 (Some e) w))) 1 = Err (DeviceLost m).
Proof.
  set (x := execute 0 0 1 0 0 (λ _ _, Ok tt) (Some (Err Cancelled)) demo_running).
  assert (Hx : x.2 = Some (Context "executing graph region 0" Cancelled)) by (vm_compute; reflexivity).
  assert (Hr : reachable (with_tokens (<[1%nat := TRan 1 0 0 x.2]> (tokens x.1)) x.1)).
  { eapply reachable_rtc; [exact demo_running_reachable|]. apply rtc_once.
    eapply step_execute; [rewrite demo_running_tokens; reflexivity|]. unfold x. apply surjective_pairing. }
  rewrite Hx in Hr.
  exists (with_tokens (<[1%nat := TRan 1 0 0 (Some (Context "executing graph region 0" Cancelled))]> (tokens x.1)) x.1),
    1%nat, (Context "executing graph region 0" Cancelled).
  split; [exact Hr|]. split; [vm_compute; reflexivity|].
  eapply (failed_allocations_stay_unusable _ 1 1 0 0 (Context "executing graph region 0" Cancelled)
    (demo_use 10) _ 1 _ (demo_use 10) Hr).
  - vm_compute. reflexivity.
  - vm_compute. left.
  - vm_compute. eauto.
  - apply rtc_refl.
  - vm_compute. reflexivity.
  - vm_compute. left.
  - reflexivity.
Defined.

End SchedHost.
