(* ===== verification/SchedulerTests.v ===== *)
(** * Scheduler scenarios

    The scenarios of src/src/execution/scheduler/tests.rs evaluated on the
    model: [step_once] and [drain] are the helpers [step] and [drain] of that
    file, which take one action and perform it to the end on one thread. *)

From S2P Require Import Prelude Access DependencyFrontier BufferView Dependencies Completion Buffer Trace Statistics Scheduler SchedulerSteps.
Local Open Scope Z_scope.

Module Scenario.
Import Sched Steps.

(** [perform], with native work that succeeds and needs no cache maintenance. *)
Definition perform (a : Action) (w : World) : option World :=
  match a with
  | Run g s n =>
      let '(w, failure) := execute 0 0 g s n (λ _ _, Ok tt) (Some (Ok tt)) w in
      Some (complete g s n failure w)
  | Finish job failure => publish 0 job failure (release job w)
  end.

Definition take_only (w : World) : World * option Action :=
  let '(w, a) := take_action None w in (with_tokens [] w, a).

(** [step]: the world and the graph whose region ran, if one did. *)
Definition step_once (w : World) : option (World * list nat) :=
  let '(w, a) := take_only w in
  a ← a;
  w ← perform a w;
  Some (w, match a with Run g _ _ => [g] | Finish _ _ => [] end).

Fixpoint steps (fuel : nat) (w : World) : option (World * list nat) :=
  match fuel with
  | O => Some (w, [])
  | S fuel => '(w, o) ← step_once w; '(w, os) ← steps fuel w; Some (w, o ++ os)
  end.

(** [drain]: [None] when an action is missing or the fuel runs out. *)
Fixpoint drain (fuel : nat) (w : World) : option (World * list nat) :=
  if (sched_occupied (sched w) =? 0)%nat then Some (w, [])
  else match fuel with
       | O => None
       | S fuel => '(w, o) ← step_once w; '(w, os) ← drain fuel w; Some (w, o ++ os)
       end.

(** [help]. *)
Fixpoint help (fuel : nat) (target : nat * nat) (w : World) : option (World * list nat) :=
  match fuel with
  | O => None
  | S fuel =>
      match take_action (Some target) w with
      | (w, None) => Some (w, [])
      | (w, Some a) =>
          w ← perform a (with_tokens [] w);
          '(w, os) ← help fuel target w;
          Some (w, match a with Run g _ _ => [g] | Finish _ _ => [] end ++ os)
      end
  end.

(** [chain]: regions that each depend on the one before, on one buffer. *)
Definition chain_storage (id : Z) : View.Storage := View.mkStorage id 64 false true true true 0.
Definition chain_use (id : Z) : Deps.Use := Deps.mkUse (View.buffer_view (chain_storage id)) Write.
Definition chain (id : Z) (l : GpuLane) (regions : nat) : Prepared :=
  mkPrepared false false
    ((λ i, mkOperation Buffer.Gpu l 0 [chain_use id] (match i with O => [] | S j => [j] end))
       <$> seq 0 regions)
    [chain_use id]
    (replicate 2 (mkSlot (replicate regions Pending) false None))
    (replicate 2 Completion.new_signal).

Definition add_chain (g : nat) (id : Z) (l : GpuLane) (regions : nat) (w : World) : World :=
  with_graphs (<[g := chain id l regions]> (graphs w)) w.
Definition submitted (g : nat) (w : World) : option World :=
  r ← submit 0 g [] w; match r with Ok w => Some w | Err _ => None end.

Definition outcome_of (g s : nat) (w : World) : option (Result unit) :=
  signal_at (graphs w) g s ≫= Completion.result.

(** [ready_graphs_take_turns_between_regions]: a, b, c, a, c, a. *)
Definition turns : option (list nat) :=
  let w := add_chain 3 30 Compute 2 (add_chain 2 20 Compute 1
             (add_chain 1 10 Compute 3 (new_world 0 8))) in
  w ← submitted 1 w; w ← submitted 2 w; w ← submitted 3 w;
  '(w, order) ← drain 20 w;
  if bool_decide (outcome_of 1 0 w = Some (Ok tt)) then Some order else None.
Example test_ready_graphs_take_turns : turns = Some [1; 2; 3; 1; 3; 1]%nat.
Proof. vm_compute. reflexivity. Qed.

(** [fairness_preserves_conflicting_submission_order]: a, c, a, c, a, b. *)
Definition conflicting : option (list nat) :=
  let w := add_chain 3 30 Compute 2 (add_chain 2 10 Compute 1
             (add_chain 1 10 Compute 3 (new_world 0 8))) in
  w ← submitted 1 w; w ← submitted 2 w; w ← submitted 3 w;
  '(w, order) ← drain 20 w; Some order.
Example test_fairness_preserves_conflicts : conflicting = Some [1; 3; 1; 3; 1; 2]%nat.
Proof. vm_compute. reflexivity. Qed.

(** [late_short_job_gets_a_turn_even_when_long_job_has_a_blocking_helper]. *)
Definition late_short_job : option (list nat * list nat) :=
  let w := add_chain 2 20 Compute 1 (add_chain 1 10 Compute 4 (new_world 0 8)) in
  w ← submitted 1 w; '(w, first) ← step_once w; w ← submitted 2 w;
  '(w, long) ← help 9 (1, 0)%nat w; '(w, short) ← help 9 (2, 0)%nat w;
  Some (first ++ long, short).
Example test_late_short_job : late_short_job = Some ([1], [2])%nat.
Proof. vm_compute. reflexivity. Qed.

(** [transfer_activity_does_not_reset_compute_fairness]: u, u, a, b. *)
Definition transfers : option (list nat) :=
  let w := add_chain 3 30 Upload 4 (add_chain 2 20 Compute 1
             (add_chain 1 10 Compute 3 (new_world 0 8))) in
  w ← submitted 1 w; w ← submitted 2 w;
  let '(w, a) := take_only w in
  a ← a; w ← submitted 3 w; '(w, u) ← steps 2 w; w ← perform a w; '(w, b) ← step_once w;
  Some (u ++ [1%nat] ++ b).
Example test_transfers_keep_fairness : transfers = Some [3; 3; 1; 2]%nat.
Proof. vm_compute. reflexivity. Qed.

(** [cancellation_and_new_arrivals_do_not_skip_ready_graphs]. *)
Definition cancellation : option (list nat * option (Result unit)) :=
  let w := add_chain 3 30 Compute 1 (add_chain 2 10 Compute 1
             (add_chain 1 10 Compute 3 (new_world 0 8))) in
  w ← submitted 1 w; w ← submitted 2 w; '(w, first) ← step_once w;
  let w := with_graphs (on_signal 1 0 Completion.request_cancel (graphs w)) w in
  w ← submitted 3 w; '(w, rest) ← drain 20 w; Some (first ++ rest, outcome_of 1 0 w).
Example test_cancellation : cancellation = Some ([1; 2; 3]%nat, Some (Err Cancelled)).
Proof. vm_compute. reflexivity. Qed.

(** [finalization_reserves_capacity_until_publication]. *)
Definition finalization : option (nat * bool * option (Result unit) * bool) :=
  let w := add_chain 1 10 Compute 1 (new_world 0 1) in
  w ← submitted 1 w; '(w, _) ← step_once w;
  let '(w, a) := take_only w in
  a ← a;
  entered ← native_enter (sched w);
  w' ← perform a w;
  entered' ← native_enter (sched w');
  Some (sched_occupied (sched w), is_ok entered, outcome_of 1 0 w', is_ok entered').
Example test_finalization_reserves_capacity :
  finalization = Some (1%nat, false, Some (Ok tt), true).
Proof. vm_compute. reflexivity. Qed.

End Scenario.
